(* ===== verification/_CoqProject ===== *)
-Q . S2P
Prelude.v
RadixKey.v
PrefixTree.v
Heapq.v
TreeNode.v
Allocator.v
AllocKernels.v
ReqPool.v
Events.v
RadixCache.v
RadixInv.v
RadixEvents.v
RadixWalk.v
RadixInsert.v
RadixLock.v
RadixEvict.v
RadixSize.v
RadixTheorems.v
ReqCache.v
ReqOwnership.v
ReqTheorems.v
ChunkCache.v
PyFloat.v
PrefillDelayer.v
PySort.v
PrefillAdder.v
TileBudget.v
PrefillAdmit.v
RadixPools.v
PrefillTheorems.v
EosBudget.v
SchedulePolicy.v
DfsOrder.v
PolicyTheorems.v
Allocation.v
AllocWrites.v
Retract.v
BatchAlloc.v
RunningBatch.v
RetractTheorems.v
DecodeAlloc.v
DecodeTheorems.v
Preemption.v
SpecSizing.v
ExtendAlloc.v
ExtendTheorems.v
SwaAlloc.v
SwaInv.v
SwaGrow.v
SwaClient.v
SwaTheorems.v
Finish.v
FinishTheorems.v
PrefillLoop.v
LoopConserve.v
LoopTheorems.v
LoopOwn.v
LoopBatch.v
LoopAlloc.v
KvGroup.v
BatchResult.v
ResultOwn.v
ResultLoop.v
LeakCheck.v
LeakTheorems.v
Intake.v
IntakeTheorems.v
EventLoop.v
LoopSeats.v
LoopInv.v
LoopSteps.v
LoopResults.v
LoopNext.v
EventTheorems.v
Blocked.v
LoraSlots.v
LoraDrain.v
LoraManager.v
LoraTheorems.v
DpController.v
