(* ===== verification/Prelude.v ===== *)
(** * A verification of SGLang's KV-cache bookkeeping and prefill scheduling

    SGLang serves language models.  Its scheduler process owns the memory of the
    KV cache: a pool of slots, handed out one by one or in pages; a table with one
    row of slots per running request; a radix tree that keeps the slots of finished
    prefixes so that later requests reuse them; and the admission logic that turns
    the waiting queue into prefill batches which fit in that memory.  This library
    models those parts of [src/python/sglang] as executable Rocq definitions and
    proves what makes them correct: no slot is lost or freed twice, a lookup returns
    exactly what was stored, a locked prefix is never evicted, an admitted batch
    fits, no request is delayed for ever.

    ** The parts and how they interact

    A pass of the scheduler orders the waiting queue ([SchedulePolicy.calc_priority],
    which looks every request up in the radix cache), asks the delayer whether
    prefill may run, admits requests one by one ([PrefillAdder.add_one_req], which
    locks their cached prefix), allocates the rows and slots of the batch
    ([alloc_for_extend]), and writes them into the requests' rows.  A decode step
    checks the memory, retracts requests if it is short ([update_running_batch]) and
    allocates one more slot per request ([alloc_for_decode]).  When
    a request makes progress its row goes into the tree ([cache_unfinished_req]),
    when it ends ([cache_finished_req], [release_kv_cache]) the tree takes over what
    it stores and the allocator gets the rest.  When memory runs out the tree evicts
    unlocked leaves ([evict]) or running requests are preempted.  The event loop
    ([event_loop_normal]) turns these wheels: it takes new requests and aborts in, runs a
    prefill or a decode batch, processes its results and checks its memory.

    Two parts stand beside this chain.  Requests may name a LoRA adapter: a pass admits a
    request only if its adapter fits into the slots of the LoRA pool beside those of the
    running requests ([_can_schedule_lora_req]), and the batch's adapters are fetched
    before it runs.  With several schedulers, the data-parallel controller chooses which
    of them a request goes to.

    ** Files

    - [Prelude]: Python exceptions as values ([res]), loops ([while] with fuel,
      [for_each]), slices, dictionaries, alignment, longest common prefixes; the
      hint database [py] and the tactics [by_evaluation] and [same_lookup].
    - [PyFloat], [PySort], [Heapq]: floats as rationals, Python's stable sort, the
      binary heap of [heapq].
    - [RadixKey]: [RadixKey] of [srt/mem_cache/radix_cache.py].
    - [TreeNode]: [TreeNode] of the same file, the strategies of [evict_policy.py].
      Nodes live in a heap of objects, since parents, children and requests share
      and mutate them.
    - [Events]: [srt/mem_cache/events.py], and the hashes of [mem_cache/utils.py].
    - [RadixCache]: the class [RadixCache], method by method.
    - [PrefixTree]: the abstract tree and the map [cached] from sequences of a
      namespace to rows of slots, the specification of the cache.
    - [RadixInv], [RadixEvents], [RadixWalk], [RadixInsert], [RadixLock],
      [RadixEvict], [RadixSize]: the invariant [Inv] and the total correctness of
      the methods; [RadixTheorems]: what the cache promises.
    - [Allocator], [AllocKernels]: [srt/mem_cache/allocator] and the Triton kernels
      of [kernels/ops/memory/allocator.py].
    - [ReqPool]: [ReqKvInfo] and the KV part of [Req] ([schedule_batch.py]) and
      [ReqToTokenPool] ([memory_pool.py]).
    - [ReqCache], [ReqOwnership], [ReqTheorems]: the life of a request in the cache
      ([radix_cache.py], [mem_cache/common.py]) and who owns its pages.
    - [ChunkCache]: [chunk_cache.py] and the sliding-window frees of [common.py].
    - [PrefillDelayer]: [srt/managers/prefill_delayer.py].
    - [PrefillAdder]: the class [PrefillAdder] of [srt/managers/schedule_policy.py];
      [PrefillAdmit], [PrefillTheorems], [EosBudget], [Preemption], [TileBudget]:
      its properties; [RadixPools]: the radix cache and its allocator as the pools
      the adder works on.
    - [SchedulePolicy]: the class [SchedulePolicy] of the same file, and
      [_dfs_weight_order] of [base_prefix_cache.py]; [DfsOrder], [PolicyTheorems]:
      its properties.
    - [Allocation]: [srt/mem_cache/allocation.py], [allocation_sizing.py] and the row
      kernels of [kernels/ops/memory/common.py]; [AllocWrites]: the kernels write what
      the loop writes; [BatchAlloc]: the laws [BatchLaws] of the batch allocation;
      [ExtendAlloc], [ExtendTheorems]: the prefill batch from admission to its rows;
      [DecodeAlloc]: a decode step; [SpecSizing]: the sizes for speculative decoding.
    - [Retract]: the decode memory check and retraction of [schedule_batch.py], the
      class [NewTokenRatioTracker] and [Scheduler.update_running_batch];
      [RunningBatch]: the invariant of a running batch, who owns which pages;
      [RetractTheorems], [DecodeTheorems]: its preservation and what a turn promises.
    - [SwaAlloc]: [srt/mem_cache/allocator/swa.py], the two pools of hybrid models and
      the table between them; [SwaInv], [SwaGrow]: its invariant, kept by freeing and
      by allocating; [SwaClient]: its clients as a step relation; [SwaTheorems].

    - [PrefillLoop]: the prefill pass of [managers/scheduler.py]
      ([get_new_batch_prefill]), with [Req.init_next_round_input], the queue limit and
      [min_free_slots_delayer.py]; it composes the policy, the delayer, the adder and
      the batch allocation; [LoopConserve], [LoopTheorems]: where every request goes;
      [LoopOwn], [LoopBatch], [LoopAlloc]: the pass gets the memory it admits, and
      its batch owns it.
    - [Finish]: [Req.update_finish_state] of [schedule_batch.py] and its checks;
      [FinishTheorems]: its properties.
    - [BatchResult]: the results of a batch
      ([managers/scheduler_components/batch_result_processor.py]); [KvGroup]: its frees
      in a group of the allocator; [ResultOwn], [ResultLoop]: the batch keeps its memory.
    - [LeakCheck]: the memory checks the scheduler runs on itself
      ([managers/scheduler_components/invariant_checker.py]); [LeakTheorems]: they pass
      while the batches own their memory.
    - [Intake]: new requests and aborts ([handle_generate_request], [abort_request] and
      their helpers); [IntakeTheorems]: what an accepted request looks like.
    - [EventLoop]: [Scheduler.event_loop_normal] and everything it calls, composed of the
      models above; [LoopSeats]: the lists of a batch stay together when it is filtered,
      merged and processed; [LoopInv]: the invariant; [LoopSteps], [LoopNext],
      [LoopResults]: its preservation by messages, timeouts and merges, by the choice of
      the next batch and by the results; [EventTheorems]: the loop never fails and loses
      nobody; [Blocked]: what stops it.
    - [LoraSlots]: [srt/lora/eviction_policy.py] and the slots of [LoRAMemoryPool]
      ([lora/mem_pool.py]), their invariant and the placement of a batch.
    - [LoraDrain]: [lora/lora_drainer.py] and its properties.
    - [LoraManager]: [lora/lora_manager.py], [lora_overlap_loader.py] and the scheduler's
      check of a request's adapter; [LoraTheorems]: the invariant of the manager and its
      operations, and the server as a step relation.
    - [DpController]: [managers/data_parallel_controller.py] and its properties.

    ** Interfaces

    [KVAllocator] and [KVFree] (Allocator): what the cache asks of a pool,
    implemented by the token and the paged allocator.  [HashOps] with [HashLaws]
    (Events): the native SHA-256 extension, one digest per page.  [Clock] and
    [SetOrder] (RadixCache): the readings of the clock and the order in which a
    Python set is iterated, both arbitrary.  [Pools] with [PoolLaws] (PrefillAdder,
    PrefillAdmit): what admission asks of cache and allocator, discharged by
    [RadixPools.radix_laws].  [BatchAllocator] with [BatchLaws] (Allocation,
    BatchAlloc): what a batch asks of the allocator.  [ReleaseLaws] (Preemption): what
    preemption asks of the pools when it releases requests that hold their memory,
    discharged by [Preemption.radix_release_laws].  [PyOrder] (PySort): the keys of a sort.
    [EvictionPolicy] with [PolicyLaws] (LoraSlots): what the LoRA pool asks of
    its policy, met by both policies; [UidOrder]: the order of a set of adapters.

    ** What the theorems show

    - The radix cache implements [cached]: a match finds the longest cached prefix,
      an insertion adds exactly the inserted row, namespaces do not mix, a locked
      prefix survives eviction, eviction follows the configured strategy, frees
      enough, and conserves the slots, sizes and locks are accounted exactly.
    - The allocators hand out and take back whole pages; the parallel kernels equal
      the sequential reference in every order of their programs.
    - A request that is cached, finished or released keeps, moves or returns each of
      its pages once.
    - Admission never books more than the pools can give (for running requests within
      their limits), preemption makes room and never hits a request of higher priority, the forecast for requests that ignore
      the end of sequence is sound.
    - The in-batch prefix check equals its reference on token lists; the orders of
      the queue are permutations with the order they promise.
    - The delayer negotiates once per pass, agrees on all ranks and delays for a
      bounded number of passes.
    - A prefill pass puts every request in exactly one place, and without preemption
      it always returns: the batch it admits is an initial part of the ordered queue
      and is allocated without the out-of-memory error, and it then owns its rows,
      pages and nodes beside the running requests.
    - The chain from admission to memory holds together: a decode turn on a running batch
      that owns its pages never runs out of memory: it retracts the least preferred
      requests until the step fits, loses none, and leaves a batch that owns its pages.
    - The kernel that writes the rows equals the loop; the estimate of a speculative
      step is what the step allocates, and with pages its rows fit the table.
    - A client of the hybrid allocator that frees only what it owns, and runs a decode
      step only when both pools have its pages, meets no failing assertion, gets every
      page back in the end, and may group its frees.
    - A request finishes the same way whether its tokens come one by one or in a run,
      and never emits more tokens than its limit.
    - The whole scheduler, turn after turn (without chunked prefill, preemption,
      speculation and prefill delayer, without a limit of the queue together with
      priority scheduling, for requests with a prompt and aborts): no operation of the event loop fails, its own leak checks always
      pass, and every request that arrived is unfinished in a batch, waiting, sent back or
      answered, in exactly one of these ways, and within its limit of tokens.
    - With LoRA adapters loaded, unloaded and evicted in any order, every batch a pass
      admits finds each of its adapters in a slot of its own with the right weights, and
      the ranks place adapters alike; a starving adapter gets one that drains for it.
    - The data-parallel controller spreads requests evenly by its counters, and in turn
      over the workers that are up.
    - Twelve theorems state what the code does against its intent: the intake accepts
      prompts that the admission always refuses, one refused request can stop the
      scheduler for good, a pass that preempts
      and then admits nothing loses the preempted requests, the queue trigger
      can split the ranks, the tile budget does not count the batch, without pages the
      speculative reserve can be wider than a row of the table, a decode allocation
      that only one of the two pools of a hybrid model can serve loses the pages of
      the other, the abort for an invalid stop pattern can be overwritten, no adapter
      drains for the base model, a draining adapter can be kept busy for ever and is
      chosen by the order of a set, and balancing by load ignores which workers are up.

    ** Modelling choices and bounds

    An exception is a value [Err] and ends the operation; the state at the raise is
    not kept, except where the code catches it (loading and unloading adapters).  A [while] loop has fuel: the key length plus one for the walks down
    the tree, the number of nodes plus one for walks to the root and traversals, the
    number of heap entries and nodes for eviction.  The theorems show that the
    operations return, so the fuel is enough.  Integers of Python are [Z]; the
    token and slot arrays are 64-bit and hold values far below their bounds.  Floats
    (ratios and clocks) are exact rationals; rounding is not modelled.  Hash values
    that Python compares are compared as values.  Tensors are lists; a kernel is the
    list of its stores, launched in any order.

    ** Not modelled

    The other event loops of the scheduler (overlap, pipeline and data parallelism,
    disaggregation, diffusion), the messages to it other than requests and aborts
    (pausing, flushing the cache, weights, profiling), and everything asynchronous (sockets, processes, the
    tokenizer and the HTTP servers), model execution and the GPU layers, the
    storage behind the slot numbers, the host tiers of the cache and its variants
    for sliding windows and state-space models, metrics and logging.  They are
    listed with their reasons in the manifest. *)

From Stdlib Require Export ZArith Lia.
From stdpp Require Export sorting strings base gmap fin_maps fin_sets numbers list.

#[global] Set Default Goal Selector "!".
Open Scope Z_scope.

(** ** Results: Python exceptions as values *)

(** The exceptions the modelled code can raise.  [OutOfFuel] is not a Python
    exception: it marks a bounded loop that ran past its bound, and the
    termination theorems show that it never happens. *)
Inductive exn :=
| IndexError
| ValueError
| KeyError
| AssertionError
| RuntimeError
| TypeError
| NotImplementedError
| AttributeError
| OutOfFuel.

#[export] Instance exn_eq_dec : EqDecision exn.
Proof. solve_decision. Defined.

Inductive res (A : Type) : Type :=
| Ok (a : A)
| Err (e : exn).
Arguments Ok {A} _.
Arguments Err {A} _.

#[export] Instance res_eq_dec `{EqDecision A} : EqDecision (res A).
Proof. solve_decision. Defined.

#[export] Instance Ok_inj {A} : Inj (=) (=) (@Ok A).
Proof. by intros ?? [= ->]. Qed.

#[export] Instance res_ret : MRet res := λ A a, Ok a.
#[export] Instance res_bind : MBind res := λ A B f m,
  match m with Ok a => f a | Err e => Err e end.

Definition is_ok {A} (m : res A) : bool :=
  match m with Ok _ => true | Err _ => false end.

Lemma bind_Ok {A B} (m : res A) (f : A → res B) b :
  m ≫= f = Ok b ↔ ∃ a, m = Ok a ∧ f a = Ok b.
Proof.
  destruct m; simpl; split; [by eauto| |done|]; intros (x & ? & ?); by simplify_eq.
Qed.

(** ** Monadic loops *)

(** [while fuel cond body s]: a Python [while] loop over the state [s] whose
    body may raise.  The body says with [inl] that the loop goes on and with
    [inr] that it stops (the condition failed, or a [break]). *)
Fixpoint while {S R} (fuel : nat) (body : S → res (S + R)) (s : S) : res R :=
  match fuel with
  | O => Err OutOfFuel
  | Datatypes.S fuel =>
      match body s with
      | Err e => Err e
      | Ok (inr r) => Ok r
      | Ok (inl s') => while fuel body s'
      end
  end.

(** Total correctness of [while]: an invariant that the body preserves while a
    measure below the fuel decreases, and that gives the postcondition at the
    exit.  The measure may be a ghost, a part of the invariant. *)
Lemma while_total_ghost {S R} (I : nat → S → Prop) (Q : R → Prop) (body : S → res (S + R)) :
  (∀ n s, I n s →
     (∃ s' n', body s = Ok (inl s') ∧ I n' s' ∧ (n' < n)%nat) ∨
     (∃ r, body s = Ok (inr r) ∧ Q r)) →
  ∀ fuel n s, I n s → (n < fuel)%nat → ∃ r, while fuel body s = Ok r ∧ Q r.
Proof.
  intros Hbody. induction fuel as [|fuel IH]; intros n s HI Hm; [lia|].
  simpl. destruct (Hbody n s HI) as [(s' & n' & -> & HI' & Hlt)|(r & -> & HQ)].
  - apply (IH n'); [done|lia].
  - by eauto.
Qed.

Lemma while_total {S R} (I : S → Prop) (m : S → nat) (Q : R → Prop)
    (body : S → res (S + R)) :
  (∀ s, I s →
     (∃ s', body s = Ok (inl s') ∧ I s' ∧ (m s' < m s)%nat) ∨
     (∃ r, body s = Ok (inr r) ∧ Q r)) →
  ∀ fuel s, I s → (m s < fuel)%nat → ∃ r, while fuel body s = Ok r ∧ Q r.
Proof.
  intros Hbody fuel s HI Hm. apply (while_total_ghost (λ n s, I s ∧ m s = n) Q body) with (m s); [|done|done].
  intros n t [HIt <-]. destruct (Hbody t HIt) as [(t' & ? & ? & ?)|?]; [left|by right].
  by exists t', (m t').
Qed.

(** More fuel never changes a result that was reached. *)
Lemma while_fuel_mono {S R} (body : S → res (S + R)) f1 f2 s r :
  (f1 ≤ f2)%nat → while f1 body s = Ok r → while f2 body s = Ok r.
Proof.
  revert f2 s. induction f1 as [|f1 IH]; intros f2 s Hle; [done|].
  destruct f2 as [|f2]; [lia|]. simpl.
  destruct (body s) as [[s'|r']|e]; [|done|done]. intros. apply IH; [lia|done].
Qed.

(** [for x in l] over a state. *)
Fixpoint for_each {A S} (body : A → S → res S) (l : list A) (s : S) : res S :=
  match l with
  | [] => Ok s
  | x :: l => s' ← body x s; for_each body l s'
  end.

Lemma for_each_inv {A S} (I : list A → S → Prop) (body : A → S → res S) l s :
  I l s →
  (∀ x l' s', I (x :: l') s' → ∃ s'', body x s' = Ok s'' ∧ I l' s'') →
  ∃ s', for_each body l s = Ok s' ∧ I [] s'.
Proof.
  intros HI Hb. revert s HI. induction l as [|x l IH]; intros s HI; simpl; [by eauto|].
  destruct (Hb _ _ _ HI) as (s'' & -> & HI'). simpl. by apply IH.
Qed.

Lemma for_each_app {A S} (body : A → S → res S) l k s :
  for_each body (l ++ k) s = for_each body l s ≫= for_each body k.
Proof. revert s. induction l as [|x l IH]; intros s; simpl; [done|]. destruct (body x s); [apply IH|done]. Qed.

(** ** Python sequences *)

Definition zlen {A} (l : list A) : Z := Z.of_nat (length l).

(** The bounds a slice [l[a:b]] selects (step 1): negative bounds count from
    the end, and out-of-range bounds are clamped, as in [slice.indices]. *)
Definition clamp_index (i len : Z) : Z :=
  if i <? 0 then Z.max (i + len) 0 else Z.min i len.

Definition slice_indices (a b : option Z) (len : Z) : Z * Z :=
  (from_option (λ i, clamp_index i len) 0 a,
   from_option (λ i, clamp_index i len) len b).

Definition py_slice {A} (l : list A) (a b : option Z) : list A :=
  let '(s, e) := slice_indices a b (zlen l) in
  take (Z.to_nat (e - s)) (drop (Z.to_nat s) l).

(** [l[:n]], [l[n:]] and [l[a:b]]. *)
Definition slice_to {A} (l : list A) (n : Z) : list A := py_slice l None (Some n).
Definition slice_from {A} (l : list A) (n : Z) : list A := py_slice l (Some n) None.
Definition slice {A} (l : list A) (a b : Z) : list A := py_slice l (Some a) (Some b).

(** [l[i]] for an integer [i]: [IndexError] when it is out of range. *)
Definition py_get {A} (l : list A) (i : Z) : res A :=
  let j := if i <? 0 then i + zlen l else i in
  if j <? 0 then Err IndexError
  else match l !! Z.to_nat j with Some x => Ok x | None => Err IndexError end.

(** [l[a::s]] for [a >= 0] and [s >= 1]: every [s]-th element from [a] on. *)
Fixpoint every {A} (fuel : nat) (s : nat) (l : list A) : list A :=
  match fuel, l with
  | Datatypes.S fuel, x :: _ => x :: every fuel s (drop s l)
  | _, _ => []
  end.
Definition stride_from {A} (l : list A) (a s : Z) : list A :=
  every (length l) (Z.to_nat s) (slice_from l a).

(** [list(range(a, b))] *)
Definition zrange (a b : Z) : list Z := seqZ a (b - a).

Definition zsum (l : list Z) : Z := foldr Z.add 0 l.

(** Python's floor division and the rounding helpers built on it agree with
    [Z.div], which rounds towards minus infinity as well. *)
Definition floor_align (n p : Z) : Z := n / p * p.
Definition ceil_align (n p : Z) : Z := (n + p - 1) / p * p.

(** ** Ordered dictionaries *)

(** A Python [dict] keeps insertion order; assignment to an existing key keeps
    its position. *)
Section dict.
Context {K V : Type} `{EqDecision K}.

Fixpoint dict_get (k : K) (d : list (K * V)) : option V :=
  match d with
  | [] => None
  | (k', v) :: d => if decide (k = k') then Some v else dict_get k d
  end.

Fixpoint dict_set (k : K) (v : V) (d : list (K * V)) : list (K * V) :=
  match d with
  | [] => [(k, v)]
  | (k', v') :: d =>
      if decide (k = k') then (k, v) :: d else (k', v') :: dict_set k v d
  end.

Fixpoint dict_del (k : K) (d : list (K * V)) : list (K * V) :=
  match d with
  | [] => []
  | (k', v') :: d => if decide (k = k') then d else (k', v') :: dict_del k d
  end.

Definition dict_keys (d : list (K * V)) : list K := d.*1.
Definition dict_values (d : list (K * V)) : list V := d.*2.

Lemma dict_get_elem k v d :
  NoDup (dict_keys d) → dict_get k d = Some v ↔ (k, v) ∈ d.
Proof.
  induction d as [|[k' v'] d IH]; simpl; intros Hnd.
  - split; [done|]. by intros ?%elem_of_nil.
  - apply NoDup_cons in Hnd as [Hk Hnd]. rewrite elem_of_cons.
    case_decide as Hd; subst; split.
    + intros; simplify_eq. by left.
    + intros [?|Hin]; simplify_eq; [done|]. exfalso. apply Hk.
      apply list_elem_of_fmap. by exists (k', v).
    + intros. right. by apply IH.
    + intros [?|?]; simplify_eq. by apply IH.
Qed.

Lemma dict_get_None k d : dict_get k d = None ↔ k ∉ dict_keys d.
Proof.
  induction d as [|[k' v'] d IH]; simpl.
  - split; [intros _; apply not_elem_of_nil|done].
  - rewrite not_elem_of_cons. case_decide; [by split; [|intros [? _]]|]. rewrite IH. tauto.
Qed.

Lemma dict_get_set_eq k v d : dict_get k (dict_set k v d) = Some v.
Proof.
  induction d as [|[k' v'] d IH]; simpl; repeat case_decide; simpl;
    repeat case_decide; naive_solver.
Qed.

Lemma dict_get_set_ne k k' v d :
  k ≠ k' → dict_get k (dict_set k' v d) = dict_get k d.
Proof.
  intros. induction d as [|[k'' v''] d IH]; simpl; repeat case_decide; simpl;
    repeat case_decide; naive_solver.
Qed.

Lemma dict_get_del_ne k k' d :
  k ≠ k' → dict_get k (dict_del k' d) = dict_get k d.
Proof.
  intros. induction d as [|[k'' v''] d IH]; simpl; repeat case_decide; simpl;
    repeat case_decide; naive_solver.
Qed.

Lemma dict_set_new k v d :
  k ∉ dict_keys d → dict_set k v d = d ++ [(k, v)].
Proof.
  induction d as [|[k' v'] d IH]; simpl; [done|].
  rewrite not_elem_of_cons. intros [? ?]. case_decide; [done|]. by rewrite IH.
Qed.

Lemma dict_keys_set_old k v d :
  k ∈ dict_keys d → dict_keys (dict_set k v d) = dict_keys d.
Proof.
  induction d as [|[k' v'] d IH]; simpl; [by intros ?%elem_of_nil|].
  rewrite elem_of_cons. case_decide; simpl; [naive_solver|].
  intros [?|?]; [done|]. by rewrite IH.
Qed.

Lemma dict_keys_set_NoDup k v d :
  NoDup (dict_keys d) → NoDup (dict_keys (dict_set k v d)).
Proof.
  intros Hnd. destruct (decide (k ∈ dict_keys d)).
  - by rewrite dict_keys_set_old.
  - rewrite dict_set_new by done. unfold dict_keys. rewrite fmap_app.
    apply NoDup_app. split; [done|]. split; [|apply NoDup_singleton].
    intros x Hx ->%list_elem_of_singleton. done.
Qed.

Lemma dict_del_sublist k d : dict_del k d `sublist_of` d.
Proof.
  induction d as [|[k' v'] d IH]; simpl; [done|]. case_decide.
  - by apply sublist_cons.
  - by apply sublist_skip.
Qed.

Lemma dict_get_del_eq k d :
  NoDup (dict_keys d) → dict_get k (dict_del k d) = None.
Proof.
  induction d as [|[k' v'] d IH]; simpl; [done|]. intros [Hk Hnd]%NoDup_cons.
  case_decide; subst.
  - by apply dict_get_None.
  - simpl. case_decide; [done|]. by apply IH.
Qed.

Lemma dict_keys_del_NoDup k d :
  NoDup (dict_keys d) → NoDup (dict_keys (dict_del k d)).
Proof. intros. eapply sublist_NoDup; [done|]. apply fmap_sublist, dict_del_sublist. Qed.
End dict.

(** Decide a closed decidable proposition by evaluation. *)
Ltac by_evaluation :=
  match goal with |- ?P => refine (bool_decide_unpack P _); vm_compute; exact I end.

(** Identify the results of two equal lookups, and nothing else ([simplify_eq]
    would also take equal pairs apart). *)
Ltac same_lookup :=
  repeat match goal with
  | H1 : ?x = Some ?a, H2 : ?x = Some ?b |- _ =>
      let E := fresh in
      assert (b = a) as E by congruence; clear H2; try subst b; try subst a
  end.

(** ** Lemmas on slices, sums and alignment *)

Create HintDb py.
Create Rewrite HintDb py.

Lemma zlen_nonneg {A} (l : list A) : 0 ≤ zlen l.
Proof. unfold zlen. lia. Qed.
Lemma zlen_nil {A} : zlen (@nil A) = 0.
Proof. done. Qed.
Lemma zlen_cons {A} (x : A) l : zlen (x :: l) = 1 + zlen l.
Proof. unfold zlen. simpl. lia. Qed.
Lemma zlen_app {A} (l k : list A) : zlen (l ++ k) = zlen l + zlen k.
Proof. unfold zlen. rewrite length_app. lia. Qed.
Lemma zlen_0 {A} (l : list A) : zlen l = 0 → l = [].
Proof. unfold zlen. destruct l; simpl; [done|lia]. Qed.
Lemma zlen_fmap {A B} (f : A → B) l : zlen (f <$> l) = zlen l.
Proof. unfold zlen. by rewrite length_fmap. Qed.

#[export] Instance zlen_proper {A} : Proper ((≡ₚ) ==> eq) (@zlen A).
Proof. intros l k H. unfold zlen. by rewrite H. Qed.

#[export] Hint Resolve zlen_nonneg : py.
#[export] Hint Rewrite @zlen_nil @zlen_cons @zlen_app @zlen_fmap : py.

Lemma slice_to_take {A} (l : list A) n :
  0 ≤ n → slice_to l n = take (Z.to_nat n) l.
Proof.
  intros Hn. unfold slice_to, py_slice, slice_indices, clamp_index. simpl.
  destruct (Z.ltb_spec n 0); [lia|]. rewrite drop_0.
  destruct (Z.le_ge_cases n (zlen l)).
  - f_equal. lia.
  - unfold zlen in *. rewrite !take_ge by lia. done.
Qed.

Lemma slice_from_drop {A} (l : list A) n :
  0 ≤ n → slice_from l n = drop (Z.to_nat n) l.
Proof.
  intros Hn. unfold slice_from, py_slice, slice_indices, clamp_index. simpl.
  destruct (Z.ltb_spec n 0); [lia|].
  destruct (Z.le_ge_cases n (zlen l)); unfold zlen in *.
  - rewrite Z.min_l by lia. apply take_ge. rewrite length_drop. lia.
  - rewrite Z.min_r by lia. rewrite !drop_ge by lia. by rewrite take_nil.
Qed.

Lemma slice_take_drop {A} (l : list A) a b :
  0 ≤ a → a ≤ b → slice l a b = take (Z.to_nat (b - a)) (drop (Z.to_nat a) l).
Proof.
  intros Ha Hb. unfold slice, py_slice, slice_indices, clamp_index. simpl.
  destruct (Z.ltb_spec a 0); [lia|]. destruct (Z.ltb_spec b 0); [lia|].
  destruct (Z.le_ge_cases a (zlen l)); unfold zlen in *.
  - rewrite (Z.min_l a) by lia. destruct (Z.le_ge_cases b (Z.of_nat (length l))).
    + by rewrite Z.min_l by lia.
    + rewrite Z.min_r by lia.
      rewrite !take_ge by (rewrite length_drop; lia). done.
  - rewrite (Z.min_r a), (Z.min_r b) by lia.
    rewrite !drop_ge by lia. by rewrite !take_nil.
Qed.

Lemma slice_empty {A} (l : list A) a b : 0 ≤ b → b ≤ a → slice l a b = [].
Proof.
  intros. unfold slice, py_slice, slice_indices, clamp_index. simpl.
  destruct (Z.ltb_spec a 0); [lia|]. destruct (Z.ltb_spec b 0); [lia|].
  replace (Z.to_nat _) with 0%nat by lia. done.
Qed.

Lemma slice_neg {A} (l : list A) n :
  0 < n ≤ zlen l →
  slice_from l (- n) = drop (Z.to_nat (zlen l - n)) l ∧ slice_to l (- n) = take (Z.to_nat (zlen l - n)) l.
Proof.
  intros Hn. unfold slice_from, slice_to, py_slice, slice_indices, clamp_index. cbn [from_option].
  destruct (Z.ltb_spec (- n) 0); [|lia]. rewrite Z.max_l by lia. replace (- n + zlen l) with (zlen l - n) by lia. split.
  - apply take_ge. rewrite length_drop. unfold zlen. lia.
  - by rewrite drop_0, Z.sub_0_r.
Qed.

Lemma zlen_slice_to {A} (l : list A) n : 0 ≤ n → zlen (slice_to l n) = Z.min n (zlen l).
Proof. intros. rewrite slice_to_take by done. unfold zlen. rewrite length_take. lia. Qed.
Lemma zlen_slice_from {A} (l : list A) n :
  0 ≤ n → zlen (slice_from l n) = Z.max 0 (zlen l - n).
Proof. intros. rewrite slice_from_drop by done. unfold zlen. rewrite length_drop. lia. Qed.

Lemma zlen_take {A} (l : list A) n : 0 ≤ n ≤ zlen l → zlen (take (Z.to_nat n) l) = n.
Proof. unfold zlen. rewrite length_take. lia. Qed.
Lemma take_zlen {A} (l : list A) : take (Z.to_nat (zlen l)) l = l.
Proof. unfold zlen. by rewrite Nat2Z.id, firstn_all. Qed.

Lemma slice_to_from {A} (l : list A) n : 0 ≤ n → slice_to l n ++ slice_from l n = l.
Proof. intros. rewrite slice_to_take, slice_from_drop by done. apply take_drop. Qed.

Lemma py_get_lookup {A} (l : list A) i x :
  0 ≤ i → py_get l i = Ok x ↔ l !! Z.to_nat i = Some x.
Proof.
  intros Hi. unfold py_get. destruct (Z.ltb_spec i 0); [lia|].
  destruct (Z.ltb_spec i 0); [lia|]. destruct (l !! _); naive_solver.
Qed.

Lemma zsum_app l k : zsum (l ++ k) = zsum l + zsum k.
Proof. unfold zsum. induction l; simpl; lia. Qed.

#[export] Instance zsum_proper : Proper ((≡ₚ) ==> eq) zsum.
Proof. intros l k H. unfold zsum. induction H; simpl; lia. Qed.

(** Alignment facts: [lia] needs the Euclidean equation of the division. *)
Lemma floor_align_spec n p :
  0 < p → floor_align n p ≤ n ∧ n < floor_align n p + p ∧ (p | floor_align n p).
Proof.
  intros Hp. unfold floor_align. pose proof (Z.div_mod n p). pose proof (Z.mod_pos_bound n p).
  split; [nia|]. split; [nia|]. by exists (n / p).
Qed.
Lemma floor_align_nonneg n p : 0 < p → 0 ≤ n → 0 ≤ floor_align n p.
Proof. intros. unfold floor_align. pose proof (Z.div_pos n p). nia. Qed.
Lemma floor_align_le n p : 0 < p → floor_align n p ≤ n.
Proof. intros. by apply floor_align_spec. Qed.
Lemma floor_align_divide n p : (p | floor_align n p).
Proof. by exists (n / p). Qed.
Lemma floor_align_id n p : 0 < p → (p | n) → floor_align n p = n.
Proof. intros ? [q ->]. unfold floor_align. rewrite Z.div_mul by lia. done. Qed.
Lemma floor_align_1 n : floor_align n 1 = n.
Proof. unfold floor_align. rewrite Z.div_1_r. lia. Qed.
Lemma floor_align_mono n m p : 0 < p → n ≤ m → floor_align n p ≤ floor_align m p.
Proof. intros. unfold floor_align. pose proof (Z.div_le_mono n m p). nia. Qed.
Lemma floor_align_greatest n m p : 0 < p → (p | m) → m ≤ n → m ≤ floor_align n p.
Proof. intros Hp Hd Hm. rewrite <-(floor_align_id m p Hp Hd). by apply floor_align_mono. Qed.

Lemma ceil_align_spec n p :
  0 < p → n ≤ ceil_align n p ∧ ceil_align n p < n + p ∧ (p | ceil_align n p).
Proof.
  intros Hp. unfold ceil_align. pose proof (Z.div_mod (n + p - 1) p).
  pose proof (Z.mod_pos_bound (n + p - 1) p). split; [nia|]. split; [nia|]. by eexists.
Qed.

Lemma divide_lt_le p n m : 0 < p → (p | n) → (p | m) → n < m + p → n ≤ m.
Proof. intros Hp [a ->] [b ->] H. assert (a < b + 1) by nia. nia. Qed.

(** ** Longest common prefixes *)

Section lcp.
Context {A : Type} `{EqDecision A}.

Fixpoint lcp (l k : list A) : nat :=
  match l, k with
  | x :: l, y :: k => if decide (x = y) then S (lcp l k) else O
  | _, _ => O
  end.

Lemma lcp_le_l l k : (lcp l k ≤ length l)%nat.
Proof.
  revert k. induction l as [|x l IH]; intros [|y k]; simpl; try lia.
  case_decide; [specialize (IH k)|]; lia.
Qed.
Lemma lcp_le_r l k : (lcp l k ≤ length k)%nat.
Proof.
  revert k. induction l as [|x l IH]; intros [|y k]; simpl; try lia.
  case_decide; [specialize (IH k)|]; lia.
Qed.
Lemma lcp_comm l k : lcp l k = lcp k l.
Proof.
  revert k. induction l as [|x l IH]; intros [|y k]; simpl; try done.
  repeat case_decide; naive_solver.
Qed.

Lemma lcp_ge l k n :
  (n ≤ lcp l k)%nat ↔ (n ≤ length l)%nat ∧ (n ≤ length k)%nat ∧ take n l = take n k.
Proof.
  revert k n. induction l as [|x l IH]; intros [|y k] [|n]; simpl;
    try (split; [intros; repeat split; (lia || done) | intros (? & ? & ?); lia]).
  case_decide as Hd; [subst|].
  - rewrite <-Nat.succ_le_mono, IH.
    split; intros (? & ? & ?); repeat split; solve [lia | congruence].
  - split; [lia|]. intros (_ & _ & ?). simplify_eq.
Qed.

Lemma lcp_eq l k n :
  (n ≤ length l)%nat → (n ≤ length k)%nat → take n l = take n k →
  (n = length l ∨ n = length k ∨ l !! n ≠ k !! n) → lcp l k = n.
Proof.
  intros Hl Hk Ht Hmax.
  assert (n ≤ lcp l k)%nat as Hge by (by apply lcp_ge).
  destruct (decide (lcp l k = n)) as [|Hne]; [done|].
  assert (S n ≤ lcp l k)%nat as (? & ? & HS)%lcp_ge by lia. exfalso.
  destruct Hmax as [?|[?|Hmax]]; [lia|lia|]. apply Hmax.
  rewrite <-(lookup_take_lt l (S n)), <-(lookup_take_lt k (S n)) by lia. by rewrite HS.
Qed.

Lemma lcp_app_same p l k : lcp (p ++ l) (p ++ k) = (length p + lcp l k)%nat.
Proof. induction p as [|x p IH]; simpl; [done|]. rewrite decide_True by done. by rewrite IH. Qed.
End lcp.

(** ** Integer ranges *)

Lemma zrange_empty a b : b ≤ a → zrange a b = [].
Proof. intros. unfold zrange. apply seqZ_nil. lia. Qed.
Lemma zrange_app a b c : a ≤ b → b ≤ c → zrange a c = zrange a b ++ zrange b c.
Proof.
  intros. unfold zrange. replace (c - a) with ((b - a) + (c - b)) by lia.
  rewrite seqZ_app by lia. do 2 f_equal. lia.
Qed.
Lemma zrange_singleton a : zrange a (a + 1) = [a].
Proof. unfold zrange. replace (a + 1 - a) with 1 by lia. done. Qed.
Lemma zrange_snoc a b : a ≤ b → zrange a (b + 1) = zrange a b ++ [b].
Proof. intros. rewrite (zrange_app a b) by lia. by rewrite zrange_singleton. Qed.
Lemma zlen_zrange a b : a ≤ b → zlen (zrange a b) = b - a.
Proof. intros. unfold zlen, zrange. rewrite length_seqZ. lia. Qed.
Lemma zrange_shift k a b : (λ o, k + o) <$> zrange a b = zrange (k + a) (k + b).
Proof.
  unfold zrange. etrans; [apply fmap_add_seqZ|]. f_equal. lia.
Qed.
Lemma elem_of_zrange a b x : x ∈ zrange a b ↔ a ≤ x < b.
Proof. unfold zrange. rewrite elem_of_seqZ. lia. Qed.
Lemma NoDup_zrange a b : NoDup (zrange a b).
Proof. apply NoDup_seqZ. Qed.
Lemma lookup_zrange a b (i : nat) :
  zrange a b !! i = if decide (Z.of_nat i < b - a) then Some (a + Z.of_nat i) else None.
Proof.
  unfold zrange. case_decide.
  - by apply lookup_seqZ_lt.
  - apply lookup_seqZ_ge. lia.
Qed.

Lemma filter_all {A} (P : A → Prop) `{∀ x, Decision (P x)} l : Forall P l → filter P l = l.
Proof. induction 1 as [|x l Hx _ IH]; [done|]. rewrite filter_cons_True by done. by rewrite IH. Qed.
Lemma filter_none {A} (P : A → Prop) `{∀ x, Decision (P x)} l :
  Forall (λ x, ¬ P x) l → filter P l = [].
Proof. induction 1 as [|x l Hx _ IH]; [done|]. by rewrite filter_cons_False. Qed.

Lemma filter_zrange a b n :
  a ≤ n → n ≤ b → filter (λ o, (o <? n) = true) (zrange a b) = zrange a n.
Proof.
  intros. rewrite (zrange_app a n b) by lia.
  rewrite filter_app, filter_all, filter_none, app_nil_r; [done| |];
    apply Forall_forall; intros x ?%elem_of_zrange; rewrite Z.ltb_lt; lia.
Qed.

Lemma zsum_zrange_masked (h g : Z → Z) pid n :
  0 ≤ pid < n → (∀ i, pid < i → g i = 0) →
  zsum ((λ i, if i <=? pid then h i else g i) <$> zrange 0 n) = zsum (h <$> zrange 0 (pid + 1)).
Proof.
  intros Hp Hg. rewrite (zrange_app 0 (pid + 1) n) by lia. rewrite fmap_app, zsum_app.
  assert (zsum ((λ i, if i <=? pid then h i else g i) <$> zrange (pid + 1) n) = 0) as ->.
  { assert (Forall (λ i, pid < i) (zrange (pid + 1) n)) as Hl
      by (apply Forall_forall; intros x ?%elem_of_zrange; lia).
    induction Hl as [|i l Hi _ IH]; [done|]. rewrite fmap_cons. unfold zsum in *. cbn [foldr].
    rewrite IH, Hg by done. by destruct (Z.leb_spec i pid); [lia|]. }
  rewrite Z.add_0_r. f_equal. apply list_fmap_ext. intros i x Hx.
  apply list_elem_of_lookup_2, elem_of_zrange in Hx. by destruct (Z.leb_spec x pid); [|lia].
Qed.

Lemma zsum_nonneg l : Forall (Z.le 0) l → 0 ≤ zsum l.
Proof. induction 1; simpl; lia. Qed.

Lemma elem_of_concat_fmap {A B} (f : A → list B) (l : list A) b :
  b ∈ concat (f <$> l) ↔ ∃ x, x ∈ l ∧ b ∈ f x.
Proof.
  induction l as [|x l IH]; cbn.
  - split; [by intros ?%not_elem_of_nil|by intros (x & ?%not_elem_of_nil & _)].
  - rewrite elem_of_app, IH. split.
    + intros [?|(y & ? & ?)]; [exists x|exists y]; split; [left|done|by right|done].
    + intros (y & [->|?]%elem_of_cons & ?); [by left|right; by exists y].
Qed.
