(* ===== verification/RadixKey.v ===== *)
(** * Keys of the radix tree

    [RadixKey] of [mem_cache/radix_cache.py]: a token sequence with a namespace
    ([extra_key], [cache_salt]), read either as single tokens or, for the EAGLE
    draft cache, as overlapping bigrams.  The operations are translated with
    their exceptions; [units] is the abstract reading of a key, the sequence of
    logical units the tree is indexed by, and the theorems relate every
    operation to it: slicing, the galloping prefix match and the child key. *)

From S2P Require Import Prelude.

(** The Python values used as dictionary keys of [TreeNode.children].  A tuple is
    a chain of cells, so that equality of tuples is equality of the elements. *)
Inductive pyval :=
| VNone
| VInt (z : Z)
| VStr (s : string)
| VEmpty
| VCell (v w : pyval).

#[export] Instance pyval_eq_dec : EqDecision pyval.
Proof. solve_decision. Defined.

Definition VTuple (l : list pyval) : pyval := foldr VCell VEmpty l.

#[export] Instance VTuple_inj : Inj (=) (=) VTuple.
Proof.
  intros l. induction l as [|x l IH]; intros [|y k]; simpl; intros; simplify_eq; [done|].
  f_equal. by apply IH.
Qed.

(** A logical unit of a key: a token, or a bigram of adjacent tokens. *)
Inductive kunit :=
| Tok (a : Z)
| Bigram (a b : Z).

#[export] Instance kunit_eq_dec : EqDecision kunit.
Proof. solve_decision. Defined.

Record RadixKey := mkRadixKey {
  token_ids : list Z;
  extra_key : option string;
  cache_salt : option string;
  is_bigram : bool;
  limit : option Z;
}.

#[export] Instance RadixKey_eq_dec : EqDecision RadixKey.
Proof. solve_decision. Defined.

(** [x or None] on an optional string: the empty string is falsy. *)
Definition or_None (s : option string) : option string :=
  match s with
  | Some s => if decide (s = EmptyString) then None else Some s
  | None => None
  end.

Definition RadixKey_init (ids : list Z) (extra : option string) (bigram : bool)
    (lim : option Z) (salt : option string) : RadixKey :=
  {| token_ids := ids; extra_key := extra; cache_salt := or_None salt;
     is_bigram := bigram; limit := lim |}.

Definition raw_len (k : RadixKey) : Z :=
  let n := zlen (token_ids k) in
  match limit k with
  | Some l => if l <? n then l else n
  | None => n
  end.

Definition raw_token_ids (k : RadixKey) : list Z :=
  let n := raw_len k in
  let t := token_ids k in
  if n =? zlen t then t else slice_to t n.

Definition key_len (k : RadixKey) : Z :=
  let n := raw_len k in
  if is_bigram k then (if n >? 0 then n - 1 else 0) else n.

(** [__iter__]: the list the generator yields. *)
Definition key_iter (k : RadixKey) : res (list kunit) :=
  let t := token_ids k in
  let n := raw_len k in
  if is_bigram k then
    foldr (λ i acc, a ← py_get t i; b ← py_get t (i + 1); us ← acc; Ok (Bigram a b :: us))
      (Ok []) (zrange 0 (if n >? 0 then n - 1 else 0))
  else if n =? zlen t then Ok (Tok <$> t)
  else foldr (λ i acc, a ← py_get t i; us ← acc; Ok (Tok a :: us)) (Ok []) (zrange 0 n).

(** The argument of [__getitem__]. *)
Inductive key_index :=
| Idx (i : Z)
| Slice (start stop step : option Z).

Definition getitem_slice (k : RadixKey) (a b : option Z) : RadixKey :=
  let '(start, stop) := slice_indices a b (key_len k) in
  if is_bigram k then
    let raw := if stop >? start then slice (token_ids k) start (stop + 1) else [] in
    RadixKey_init raw (extra_key k) true None (cache_salt k)
  else
    RadixKey_init (slice (token_ids k) start stop) (extra_key k) false None (cache_salt k).

Definition getitem (k : RadixKey) (i : key_index) : res RadixKey :=
  match i with
  | Idx i =>
      let i := if i <? 0 then i + key_len k else i in
      if (i <? 0) || (i >=? key_len k) then Err IndexError
      else Ok (getitem_slice k (Some i) (Some (i + 1)))
  | Slice a b step =>
      if decide (from_option id 1 step = 1) then Ok (getitem_slice k a b)
      else Err ValueError
  end.

(** [k[:n]] and [k[n:]], the two slices the tree takes of a key. *)
Definition key_to (k : RadixKey) (n : Z) : RadixKey := getitem_slice k None (Some n).
Definition key_from (k : RadixKey) (n : Z) : RadixKey := getitem_slice k (Some n) None.

Definition page_aligned (k : RadixKey) (page_size : Z) : RadixKey :=
  if page_size =? 1 then k
  else
    let aligned_len := key_len k / page_size * page_size in
    key_to k aligned_len.

(** The flag is set on the key object itself; every caller that is modelled
    passes a key nobody else reads, so the updated key is returned. *)
Definition maybe_to_bigram_view (k : RadixKey) (is_eagle : bool)
    (value : option (list Z)) : RadixKey * option (list Z) :=
  if is_eagle && negb (is_bigram k) then
    let k' := {| token_ids := token_ids k; extra_key := extra_key k;
                 cache_salt := cache_salt k; is_bigram := true; limit := limit k |} in
    (k', (λ v, slice_to v (key_len k')) <$> value)
  else (k, value).

Definition check_compatible (k other : RadixKey) : res unit :=
  if negb (bool_decide (extra_key k = extra_key other)) then Err ValueError
  else if negb (bool_decide (cache_salt k = cache_salt other)) then Err ValueError
  else Ok tt.

(** The window that holds the divergence is bisected: [t0[lo:hi]] differs from
    the other side and [t0[lo:mid]] decides which half to keep. *)
Definition bisect_divergence (t0 t1 : list Z) (offset lo hi : Z) : res Z :=
  while (S (Z.to_nat (hi - lo)))
    (λ '(lo, hi),
       if hi - lo >? 1 then
         let mid := (lo + hi) / 2 in
         if bool_decide (slice t0 lo mid = slice t1 (offset + lo) (offset + mid))
         then Ok (inl (mid, hi))
         else Ok (inl (lo, mid))
       else Ok (inr lo))
    (lo, hi).

(** Galloping search for the first diverging token among the first [n]. *)
Definition gallop (t0 t1 : list Z) (offset n : Z) : res Z :=
  while (S (Z.to_nat n))
    (λ '(lo, step),
       if lo <? n then
         let hi := if lo + step <? n then lo + step else n in
         if bool_decide (slice t0 lo hi = slice t1 (offset + lo) (offset + hi))
         then Ok (inl (hi, step * 2))
         else lo' ← bisect_divergence t0 t1 offset lo hi; Ok (inr lo')
       else Ok (inr n))
    (0, 1).

Definition match_at (k other : RadixKey) (offset page_size : Z) : res Z :=
  _ ← check_compatible k other;
  if negb (Bool.eqb (is_bigram k) (is_bigram other)) then Err ValueError
  else if (offset <? 0) || (offset >? key_len other) then Err IndexError
  else
    let n := Z.min (raw_len k) (raw_len other - offset) in
    matched_tokens ← gallop (token_ids k) (token_ids other) offset n;
    if is_bigram k then
      let matched :=
        Z.max 0 (Z.min (matched_tokens - 1) (Z.min (key_len k) (key_len other - offset))) in
      Ok (if page_size >? 1 then matched / page_size * page_size else matched)
    else
      let matched_tokens :=
        Z.min matched_tokens (Z.min (key_len k) (key_len other - offset)) in
      Ok (if page_size =? 1 then matched_tokens
          else matched_tokens / page_size * page_size).

Definition key_match (k other : RadixKey) (page_size : Z) : res Z :=
  match_at k other 0 page_size.

Definition vopt (s : option string) : pyval :=
  match s with Some s => VStr s | None => VNone end.

(** [tuple((t[j], t[j + 1]) for j in range(offset, offset + page_size))] *)
Definition bigram_tuple (t : list Z) (offset page_size : Z) : res (list pyval) :=
  foldr (λ j acc, a ← py_get t j; b ← py_get t (j + 1); vs ← acc;
                  Ok (VTuple [VInt a; VInt b] :: vs))
    (Ok []) (zrange offset (offset + page_size)).

Definition child_key_at (k : RadixKey) (offset page_size : Z) : res pyval :=
  if (offset <? 0) || (offset + page_size >? key_len k) then Err IndexError
  else
    let t := token_ids k in
    plain ←
      (if is_bigram k then
         if page_size =? 1 then
           a ← py_get t offset; b ← py_get t (offset + 1); Ok (VTuple [VInt a; VInt b])
         else vs ← bigram_tuple t offset page_size; Ok (VTuple vs)
       else
         if page_size =? 1 then a ← py_get t offset; Ok (VInt a)
         else Ok (VTuple (VInt <$> slice t offset (offset + page_size))));
    match cache_salt k with
    | Some salt => Ok (VTuple [VTuple [vopt (extra_key k); VStr salt]; plain])
    | None => match extra_key k with
              | None => Ok plain
              | Some e => Ok (VTuple [VStr e; plain])
              end
    end.

Definition child_key (k : RadixKey) (page_size : Z) : res pyval :=
  child_key_at k 0 page_size.

(** ** The abstract reading of a key *)

(** A [limit] is a token count. *)
Definition key_wf (k : RadixKey) : Prop :=
  match limit k with Some l => 0 ≤ l | None => True end.

Definition bigrams (raw : list Z) : list kunit := zip_with Bigram raw (tail raw).

(** The logical units of a key, the sequence the tree is indexed by. *)
Definition units (k : RadixKey) : list kunit :=
  if is_bigram k then bigrams (raw_token_ids k) else Tok <$> raw_token_ids k.

(** The namespace of a key. *)
Definition namespace (k : RadixKey) : option string * option string :=
  (extra_key k, cache_salt k).

Definition compatible (k other : RadixKey) : Prop :=
  namespace k = namespace other ∧ is_bigram k = is_bigram other.

(** *** Lengths *)

Lemma raw_len_bounds k : key_wf k → 0 ≤ raw_len k ≤ zlen (token_ids k).
Proof.
  unfold key_wf, raw_len. intros Hwf. pose proof (zlen_nonneg (token_ids k)).
  destruct (limit k) as [l|]; [destruct (Z.ltb_spec l (zlen (token_ids k)))|]; lia.
Qed.

Lemma raw_token_ids_take k :
  key_wf k → raw_token_ids k = take (Z.to_nat (raw_len k)) (token_ids k).
Proof.
  intros Hwf%raw_len_bounds. unfold raw_token_ids.
  destruct (Z.eqb_spec (raw_len k) (zlen (token_ids k))) as [->|].
  - unfold zlen. rewrite Nat2Z.id. by rewrite firstn_all.
  - by rewrite slice_to_take by lia.
Qed.

Lemma zlen_raw_token_ids k : key_wf k → zlen (raw_token_ids k) = raw_len k.
Proof.
  intros Hwf. rewrite raw_token_ids_take by done.
  apply raw_len_bounds in Hwf. unfold zlen in *. rewrite length_take. lia.
Qed.

Lemma length_bigrams raw : length (bigrams raw) = pred (length raw).
Proof. unfold bigrams. rewrite length_zip_with. destruct raw; [done|]. cbn [length tail]. lia. Qed.

Lemma key_len_units k : key_wf k → key_len k = zlen (units k).
Proof.
  intros Hwf. unfold key_len, units. rewrite <-zlen_raw_token_ids by done.
  destruct (is_bigram k); unfold zlen; [|by rewrite length_fmap].
  rewrite length_bigrams. destruct (Z.gtb_spec (Z.of_nat (length (raw_token_ids k))) 0); lia.
Qed.

Lemma key_len_nonneg k : key_wf k → 0 ≤ key_len k.
Proof. intros. rewrite key_len_units by done. apply zlen_nonneg. Qed.

(** *** Bigrams of a list *)

Lemma bigrams_cons a b raw : bigrams (a :: b :: raw) = Bigram a b :: bigrams (b :: raw).
Proof. done. Qed.

Lemma bigrams_drop n raw : bigrams (drop n raw) = drop n (bigrams raw).
Proof.
  revert raw. induction n as [|n IH]; intros raw; [done|].
  destruct raw as [|a [|b raw]]; simpl; [done|by rewrite drop_nil|].
  exact (IH (b :: raw)).
Qed.

Lemma bigrams_take n raw : bigrams (take (S n) raw) = take n (bigrams raw).
Proof.
  revert raw. induction n as [|n IH]; intros raw.
  - by destruct raw.
  - destruct raw as [|a [|b raw]]; [done|done|].
    change (take (S (S n)) (a :: b :: raw)) with (a :: b :: take n raw).
    rewrite !bigrams_cons. simpl. f_equal. exact (IH (b :: raw)).
Qed.

Lemma lcp_bigrams l k : lcp (bigrams l) (bigrams k) = pred (lcp l k).
Proof.
  revert k. induction l as [|a l IH]; intros k; [done|].
  destruct l as [|b l]; [by destruct k as [|? [|]]; simpl; try case_decide|].
  destruct k as [|a' [|b' k]]; [done|by simpl; case_decide|].
  rewrite !bigrams_cons. specialize (IH (b' :: k)). simpl in *.
  repeat case_decide; simplify_eq; simpl; try done. by rewrite IH.
Qed.

Lemma lcp_Tok l k : lcp (Tok <$> l) (Tok <$> k) = lcp l k.
Proof.
  revert k. induction l as [|a l IH]; intros [|b k]; simpl; try done.
  repeat case_decide; simplify_eq; auto.
Qed.

(** *** Slices of a key are slices of its units *)

Lemma or_None_idem s : or_None (or_None s) = or_None s.
Proof. destruct s; simpl; [case_decide|]; simpl; [done|by rewrite decide_False|done]. Qed.

(** A key made by the constructor never carries an empty salt. *)
Definition salt_wf (k : RadixKey) : Prop := or_None (cache_salt k) = cache_salt k.

Lemma getitem_slice_wf k a b : key_wf (getitem_slice k a b).
Proof. unfold getitem_slice. destruct (slice_indices _ _ _), (is_bigram k); done. Qed.

Lemma getitem_slice_bigram k a b : is_bigram (getitem_slice k a b) = is_bigram k.
Proof. unfold getitem_slice. destruct (slice_indices _ _ _), (is_bigram k); done. Qed.

Lemma getitem_slice_namespace k a b :
  salt_wf k → namespace (getitem_slice k a b) = namespace k.
Proof.
  unfold salt_wf, namespace, getitem_slice.
  destruct (slice_indices _ _ _), (is_bigram k); simpl; by intros ->.
Qed.

Lemma getitem_slice_salt_wf k a b : salt_wf (getitem_slice k a b).
Proof.
  unfold salt_wf, getitem_slice.
  destruct (slice_indices _ _ _), (is_bigram k); simpl; by rewrite or_None_idem.
Qed.

Lemma slice_indices_bounds a b len :
  0 ≤ len → let '(s, e) := slice_indices a b len in 0 ≤ s ≤ len ∧ 0 ≤ e ≤ len.
Proof.
  intros. unfold slice_indices, clamp_index. destruct a as [a|], b as [b|]; simpl;
    repeat (case_match; [|]); lia.
Qed.

Lemma raw_token_ids_no_limit k : limit k = None → raw_token_ids k = token_ids k.
Proof. intros Hl. unfold raw_token_ids, raw_len. rewrite Hl. by rewrite Z.eqb_refl. Qed.

Lemma take_drop_take {A} (l : list A) (n i j : nat) :
  (i + j ≤ n)%nat → take j (drop i (take n l)) = take j (drop i l).
Proof. intros. rewrite !take_drop_commute, take_take. by replace (_ `min` _)%nat with (i + j)%nat by lia. Qed.

Lemma units_getitem_slice k a b :
  key_wf k → units (getitem_slice k a b) = py_slice (units k) a b.
Proof.
  intros Hwf. unfold py_slice. rewrite <-key_len_units by done.
  unfold units. rewrite getitem_slice_bigram. unfold getitem_slice.
  pose proof (slice_indices_bounds a b (key_len k) (key_len_nonneg k Hwf)) as Hb.
  destruct (slice_indices a b (key_len k)) as [s e]. destruct Hb as [Hs He].
  pose proof (raw_len_bounds k Hwf). unfold key_len in *.
  destruct (is_bigram k) eqn:Hbi; rewrite raw_token_ids_no_limit by done; simpl;
    rewrite (raw_token_ids_take k Hwf).
  - destruct (Z.gtb_spec e s).
    + destruct (Z.gtb_spec (raw_len k) 0); [|lia].
      rewrite slice_take_drop by lia.
      replace (Z.to_nat (e + 1 - s)) with (S (Z.to_nat (e - s))) by lia.
      rewrite bigrams_take, bigrams_drop.
      destruct (Z.to_nat (raw_len k)) as [|m] eqn:Hm; [lia|].
      rewrite bigrams_take, take_drop_take by lia. done.
    + by replace (Z.to_nat (e - s)) with 0%nat by lia.
  - destruct (Z.le_gt_cases s e).
    + rewrite slice_take_drop by lia.
      rewrite <-fmap_drop, <-fmap_take, take_drop_take by lia. done.
    + rewrite slice_empty by lia. by replace (Z.to_nat (e - s)) with 0%nat by lia.
Qed.

Lemma units_key_to k n : key_wf k → 0 ≤ n → units (key_to k n) = take (Z.to_nat n) (units k).
Proof. intros. unfold key_to. rewrite units_getitem_slice by done. by apply slice_to_take. Qed.
Lemma units_key_from k n : key_wf k → 0 ≤ n → units (key_from k n) = drop (Z.to_nat n) (units k).
Proof. intros. unfold key_from. rewrite units_getitem_slice by done. by apply slice_from_drop. Qed.

Lemma key_to_namespace k n : salt_wf k → namespace (key_to k n) = namespace k.
Proof. apply getitem_slice_namespace. Qed.
Lemma key_from_namespace k n : salt_wf k → namespace (key_from k n) = namespace k.
Proof. apply getitem_slice_namespace. Qed.
Lemma key_to_len k n : key_wf k → 0 ≤ n ≤ key_len k → key_len (key_to k n) = n.
Proof.
  intros Hwf Hn. rewrite key_len_units by apply getitem_slice_wf.
  rewrite units_key_to by (done || lia). rewrite key_len_units in Hn by done. unfold zlen in *.
  rewrite length_take. lia.
Qed.
Lemma key_from_len k n : key_wf k → 0 ≤ n ≤ key_len k → key_len (key_from k n) = key_len k - n.
Proof.
  intros Hwf Hn. rewrite key_len_units by apply getitem_slice_wf.
  rewrite units_key_from by (done || lia). rewrite key_len_units in * by done. unfold zlen in *.
  rewrite length_drop. lia.
Qed.

Lemma units_page_aligned k p :
  key_wf k → 0 < p →
  units (page_aligned k p) = take (Z.to_nat (floor_align (key_len k) p)) (units k).
Proof.
  intros Hwf Hp. unfold page_aligned. pose proof (key_len_nonneg k Hwf).
  destruct (Z.eqb_spec p 1) as [->|].
  - rewrite floor_align_1, key_len_units by done. symmetry. apply take_ge. unfold zlen. lia.
  - rewrite units_key_to by (done || by apply floor_align_nonneg). done.
Qed.

Lemma page_aligned_wf k p : key_wf k → key_wf (page_aligned k p).
Proof. intros. unfold page_aligned. case_match; [done|]. apply getitem_slice_wf. Qed.
Lemma page_aligned_bigram k p : is_bigram (page_aligned k p) = is_bigram k.
Proof. unfold page_aligned. case_match; [done|]. apply getitem_slice_bigram. Qed.
Lemma page_aligned_namespace k p : salt_wf k → namespace (page_aligned k p) = namespace k.
Proof. intros. unfold page_aligned. case_match; [done|]. by apply getitem_slice_namespace. Qed.
Lemma page_aligned_salt_wf k p : salt_wf k → salt_wf (page_aligned k p).
Proof. intros. unfold page_aligned. case_match; [done|]. apply getitem_slice_salt_wf. Qed.

Lemma page_aligned_len k p :
  key_wf k → 0 < p → key_len (page_aligned k p) = floor_align (key_len k) p.
Proof.
  intros Hwf Hp. rewrite key_len_units by by apply page_aligned_wf.
  rewrite units_page_aligned by done. unfold zlen. rewrite length_take.
  pose proof (floor_align_le (key_len k) p Hp).
  pose proof (floor_align_nonneg (key_len k) p Hp (key_len_nonneg k Hwf)).
  rewrite key_len_units in * by done. unfold zlen in *. lia.
Qed.

(** ** The galloping match computes the longest common prefix *)

Section gallop.
Context (t0 t1 : list Z) (offset : Z).
Hypothesis Hoff : 0 ≤ offset.
Let t1' := drop (Z.to_nat offset) t1.

Definition agree (m : Z) : Prop := take (Z.to_nat m) t0 = take (Z.to_nat m) t1'.

Lemma slice_agree lo hi :
  0 ≤ lo ≤ hi → agree lo →
  slice t0 lo hi = slice t1 (offset + lo) (offset + hi) ↔ agree hi.
Proof.
  intros Hlo Hag. rewrite !slice_take_drop by lia. unfold agree in *.
  replace (Z.to_nat hi) with (Z.to_nat lo + Z.to_nat (hi - lo))%nat by lia.
  rewrite <-!take_take_drop, Hag. unfold t1'. rewrite drop_drop.
  replace (Z.to_nat (offset + lo)) with (Z.to_nat offset + Z.to_nat lo)%nat by lia.
  replace (offset + hi - (offset + lo)) with (hi - lo) by lia.
  split; [by intros ->|]. by intros ?%app_inv_head.
Qed.

(** [m] is the length of the longest agreement within the first [n]. *)
Definition divergence (n m : Z) : Prop :=
  0 ≤ m ≤ n ∧ agree m ∧ (m < n → ¬ agree (m + 1)).

Lemma bisect_divergence_spec lo hi n :
  0 ≤ lo < hi → hi ≤ n → agree lo → ¬ agree hi →
  ∃ m, bisect_divergence t0 t1 offset lo hi = Ok m ∧ divergence n m.
Proof.
  intros Hlo Hhi Hag Hnag. unfold bisect_divergence.
  apply (while_total
    (λ '(lo, hi), 0 ≤ lo < hi ∧ hi ≤ n ∧ agree lo ∧ ¬ agree hi)
    (λ '(lo, hi), Z.to_nat (hi - lo))); [|by repeat split; (lia || done)|lia].
  clear lo hi Hlo Hhi Hag Hnag. intros [lo hi] (Hlo & Hhi & Hag & Hnag).
  destruct (Z.gtb_spec (hi - lo) 1).
  - left. pose proof (Z.div_mod (lo + hi) 2). pose proof (Z.mod_pos_bound (lo + hi) 2).
    set (mid := (lo + hi) / 2) in *. case_bool_decide as Hsl.
    + exists (mid, hi). split; [done|]. rewrite slice_agree in Hsl by (lia || done).
      split; [|lia]. repeat split; (lia || done).
    + exists (lo, mid). split; [done|]. rewrite slice_agree in Hsl by (lia || done).
      split; [|lia]. repeat split; (lia || done).
  - right. exists lo. split; [done|]. assert (hi = lo + 1) as -> by lia.
    split; [lia|]. done.
Qed.

Lemma gallop_spec n : 0 ≤ n → ∃ m, gallop t0 t1 offset n = Ok m ∧ divergence n m.
Proof.
  intros Hn. unfold gallop.
  apply (while_total (λ '(lo, step), 0 ≤ lo ≤ n ∧ 1 ≤ step ∧ agree lo)
    (λ '(lo, step), Z.to_nat (n - lo))); [|by repeat split; (lia || done)|lia].
  intros [lo step] (Hlo & Hstep & Hag). destruct (Z.ltb_spec lo n).
  - set (hi := if lo + step <? n then lo + step else n).
    assert (lo < hi ≤ n) as Hhi by (subst hi; destruct (Z.ltb_spec (lo + step) n); lia).
    case_bool_decide as Hsl; rewrite slice_agree in Hsl by (lia || done).
    + left. eexists. split; [done|]. split; [|lia]. repeat split; (lia || done).
    + right. destruct (bisect_divergence_spec lo hi n) as (m & Hm & Hd); try (lia || done).
      exists m. by rewrite Hm.
  - right. exists n. split; [done|]. assert (lo = n) as -> by lia. split; [lia|].
    split; [done|lia].
Qed.

Lemma divergence_lcp n m :
  n ≤ zlen t0 → n ≤ zlen t1' → divergence n m →
  m = Z.of_nat (lcp (take (Z.to_nat n) t0) (take (Z.to_nat n) t1')).
Proof.
  unfold zlen. intros H0 H1 (Hm & Hag & Hnag). unfold agree in *.
  set (a := take (Z.to_nat n) t0). set (b := take (Z.to_nat n) t1').
  assert (length a = Z.to_nat n) by (subst a; rewrite length_take; lia).
  assert (length b = Z.to_nat n) by (subst b; rewrite length_take; lia).
  rewrite (lcp_eq a b (Z.to_nat m)); [lia|lia|lia| |].
  - subst a b. rewrite !take_take.
    by replace (Z.to_nat m `min` Z.to_nat n)%nat with (Z.to_nat m) by lia.
  - destruct (decide (m = n)) as [->|Hne]; [by left; lia|]. right; right. intros Heq.
    apply Hnag; [lia|]. replace (Z.to_nat (m + 1)) with (S (Z.to_nat m)) by lia.
    subst a b. rewrite !lookup_take_lt in Heq by lia.
    destruct (lookup_lt_is_Some_2 t0 (Z.to_nat m)) as [x Hx]; [lia|].
    rewrite (take_S_r t0 _ x), (take_S_r t1' _ x) by congruence. by rewrite Hag.
Qed.
End gallop.

Lemma check_compatible_ok k other :
  namespace k = namespace other → check_compatible k other = Ok tt.
Proof.
  unfold namespace, check_compatible. intros [= -> ->]. by rewrite !bool_decide_true.
Qed.

Lemma length_units k : key_wf k →
  length (units k) = Z.to_nat (key_len k).
Proof. intros. rewrite key_len_units by done. unfold zlen. lia. Qed.

(** What [units] loses of the raw tokens: one token in bigram mode. *)
Lemma lcp_units k other off :
  is_bigram k = is_bigram other →
  lcp (units k) (drop off (units other)) =
  let m := lcp (raw_token_ids k) (drop off (raw_token_ids other)) in
  if is_bigram k then pred m else m.
Proof.
  intros Hbi. unfold units. rewrite <-Hbi. destruct (is_bigram k); simpl.
  - by rewrite <-bigrams_drop, lcp_bigrams.
  - by rewrite <-fmap_drop, lcp_Tok.
Qed.

Lemma lcp_take_min {A} `{EqDecision A} (l k : list A) n :
  n = (length l `min` length k)%nat → lcp (take n l) (take n k) = lcp l k.
Proof.
  intros Hn. apply lcp_eq.
  - rewrite length_take. pose proof (lcp_le_l l k). pose proof (lcp_le_r l k). lia.
  - rewrite length_take. pose proof (lcp_le_l l k). pose proof (lcp_le_r l k). lia.
  - rewrite !take_take. pose proof (lcp_le_l l k). pose proof (lcp_le_r l k).
    replace (_ `min` n)%nat with (lcp l k) by lia. by apply (lcp_ge l k (lcp l k)).
  - rewrite !length_take. destruct (decide (lcp l k = n)) as [Heq|Hne].
    { rewrite Heq. left. lia. }
    right; right. pose proof (lcp_le_l l k). pose proof (lcp_le_r l k).
    rewrite !lookup_take_lt by lia. intros Heq.
    assert (S (lcp l k) ≤ lcp l k)%nat; [|lia]. apply lcp_ge.
    split; [lia|]. split; [lia|].
    destruct (lookup_lt_is_Some_2 l (lcp l k)) as [x Hx]; [lia|].
    rewrite (take_S_r l _ x), (take_S_r k _ x) by congruence.
    f_equal. by apply (lcp_ge l k (lcp l k)).
Qed.

(** The match of two keys is the longest common prefix of their units, rounded
    down to whole pages: the exponential search never over- or undershoots. *)
Lemma match_at_lcp k other offset p :
  key_wf k → key_wf other → compatible k other → 0 ≤ offset ≤ key_len other → 0 < p →
  match_at k other offset p =
  Ok (floor_align (Z.of_nat (lcp (units k) (drop (Z.to_nat offset) (units other)))) p).
Proof.
  intros Hwf Hwf' [Hns Hbi] Hoff Hp. unfold match_at.
  rewrite check_compatible_ok by done. simpl. rewrite <-Hbi, Bool.eqb_reflx. simpl.
  destruct (Z.ltb_spec offset 0); [lia|]. destruct (Z.gtb_spec offset (key_len other)); [lia|].
  simpl. set (n := Z.min (raw_len k) (raw_len other - offset)).
  pose proof (raw_len_bounds k Hwf). pose proof (raw_len_bounds other Hwf').
  assert (offset ≤ raw_len other).
  { unfold key_len in Hoff. destruct (is_bigram other); [destruct (Z.gtb_spec (raw_len other) 0)|]; lia. }
  destruct (gallop_spec (token_ids k) (token_ids other) offset) with (n := n)
    as (m & -> & Hm); [lia|lia|]. simpl.
  apply divergence_lcp in Hm; [|lia|unfold zlen in *; rewrite length_drop; lia].
  assert (m = Z.of_nat (lcp (raw_token_ids k) (drop (Z.to_nat offset) (raw_token_ids other)))) as Hm'.
  { rewrite Hm. rewrite (raw_token_ids_take k), (raw_token_ids_take other) by done. f_equal.
    rewrite <-(lcp_take_min (take (Z.to_nat (raw_len k)) (token_ids k)) _ (Z.to_nat n)).
    - rewrite skipn_firstn_comm, !take_take. f_equal; f_equal; lia.
    - unfold zlen in *. rewrite length_drop, !length_take. lia. }
  clear Hm. pose proof (lcp_units k other (Z.to_nat offset) Hbi) as Hl. cbv zeta in Hl.
  pose proof (lcp_le_l (units k) (drop (Z.to_nat offset) (units other))) as Hll.
  pose proof (lcp_le_r (units k) (drop (Z.to_nat offset) (units other))) as Hlr.
  rewrite length_drop in Hlr. rewrite !length_units in * by done.
  pose proof (key_len_nonneg k Hwf). unfold floor_align. destruct (is_bigram k).
  - assert (Z.max 0 (Z.min (m - 1) (Z.min (key_len k) (key_len other - offset))) =
            Z.of_nat (lcp (units k) (drop (Z.to_nat offset) (units other)))) as -> by lia.
    destruct (Z.gtb_spec p 1); [done|]. assert (p = 1) as -> by lia. by rewrite Z.div_1_r, Z.mul_1_r.
  - assert (Z.min m (Z.min (key_len k) (key_len other - offset)) =
            Z.of_nat (lcp (units k) (drop (Z.to_nat offset) (units other)))) as -> by lia.
    destruct (Z.eqb_spec p 1) as [->|]; [|done]. by rewrite Z.div_1_r, Z.mul_1_r.
Qed.

Lemma key_match_lcp k other p :
  key_wf k → key_wf other → compatible k other → 0 < p →
  key_match k other p = Ok (floor_align (Z.of_nat (lcp (units k) (units other))) p).
Proof.
  intros. unfold key_match. rewrite match_at_lcp; try done.
  split; [lia|by apply key_len_nonneg].
Qed.

(** ** The child key encodes the namespace and the first page *)

Definition unit_val (u : kunit) : pyval :=
  match u with Tok a => VInt a | Bigram a b => VTuple [VInt a; VInt b] end.

Definition page_val (page_size : Z) (us : list kunit) : pyval :=
  if page_size =? 1 then from_option unit_val VNone (head us) else VTuple (unit_val <$> us).

Definition ns_val (ns : option string * option string) (plain : pyval) : pyval :=
  match ns with
  | (e, Some salt) => VTuple [VTuple [vopt e; VStr salt]; plain]
  | (Some e, None) => VTuple [VStr e; plain]
  | (None, None) => plain
  end.

Lemma lookup_bigrams raw i a b :
  raw !! i = Some a → raw !! S i = Some b → bigrams raw !! i = Some (Bigram a b).
Proof.
  intros Ha Hb. unfold bigrams. apply lookup_zip_with_Some.
  exists a, b. repeat split; [done|]. by destruct raw.
Qed.

Lemma bigram_tuple_spec t off p :
  0 ≤ off → off + p < zlen t → 0 ≤ p →
  bigram_tuple t off p =
  Ok (unit_val <$> take (Z.to_nat p) (drop (Z.to_nat off) (bigrams t))).
Proof.
  intros Hoff Hlt Hp. unfold bigram_tuple, zrange.
  replace (off + p - off) with p by lia.
  remember (Z.to_nat p) as n eqn:Hn. revert off p Hoff Hlt Hp Hn.
  induction n as [|n IH]; intros off p Hoff Hlt Hp Hn.
  { by replace p with 0 by lia. }
  rewrite seqZ_cons by lia. unfold zlen in *.
  destruct (lookup_lt_is_Some_2 t (Z.to_nat off)) as [a Ha]; [lia|].
  destruct (lookup_lt_is_Some_2 t (S (Z.to_nat off))) as [b Hb]; [lia|]. simpl foldr.
  assert (py_get t off = Ok a) as -> by (by apply py_get_lookup).
  assert (py_get t (off + 1) = Ok b) as ->.
  { apply py_get_lookup; [lia|]. by replace (Z.to_nat (off + 1)) with (S (Z.to_nat off)) by lia. }
  simpl. rewrite IH by lia. simpl.
  rewrite (drop_S (bigrams t) (Bigram a b) (Z.to_nat off)) by by apply lookup_bigrams.
  simpl. by replace (Z.to_nat (Z.succ off)) with (S (Z.to_nat off)) by lia.
Qed.

Lemma child_key_at_spec k off p :
  key_wf k → 0 ≤ off → off + p ≤ key_len k → 0 < p →
  child_key_at k off p =
  Ok (ns_val (namespace k) (page_val p (take (Z.to_nat p) (drop (Z.to_nat off) (units k))))).
Proof.
  intros Hwf Hoff Hle Hp. unfold child_key_at.
  destruct (Z.ltb_spec off 0); [lia|]. destruct (Z.gtb_spec (off + p) (key_len k)); [lia|].
  simpl. pose proof (raw_len_bounds k Hwf) as Hrl.
  match goal with |- mbind _ ?m = _ =>
    assert (m = Ok (page_val p (take (Z.to_nat p) (drop (Z.to_nat off) (units k))))) as -> end;
    [|simpl; unfold namespace, ns_val; by destruct (extra_key k), (cache_salt k)].
  unfold page_val, units, key_len in *. rewrite raw_token_ids_take by done.
  destruct (is_bigram k).
  - destruct (Z.gtb_spec (raw_len k) 0); [|lia].
    assert (take (Z.to_nat p) (drop (Z.to_nat off) (bigrams (take (Z.to_nat (raw_len k)) (token_ids k))))
            = take (Z.to_nat p) (drop (Z.to_nat off) (bigrams (token_ids k)))) as ->.
    { destruct (Z.to_nat (raw_len k)) as [|m] eqn:?; [lia|].
      rewrite bigrams_take, take_drop_take by lia. done. }
    destruct (Z.eqb_spec p 1) as [->|].
    + unfold zlen in *.
      destruct (lookup_lt_is_Some_2 (token_ids k) (Z.to_nat off)) as [a Ha]; [lia|].
      destruct (lookup_lt_is_Some_2 (token_ids k) (S (Z.to_nat off))) as [b Hb]; [lia|].
      assert (py_get (token_ids k) off = Ok a) as -> by (by apply py_get_lookup).
      assert (py_get (token_ids k) (off + 1) = Ok b) as ->.
      { apply py_get_lookup; [lia|]. by replace (Z.to_nat (off + 1)) with (S (Z.to_nat off)) by lia. }
      rewrite (drop_S _ (Bigram a b)) by by apply lookup_bigrams. done.
    + rewrite bigram_tuple_spec by lia. done.
  - rewrite <-fmap_drop, <-fmap_take, take_drop_take by lia.
    destruct (Z.eqb_spec p 1) as [->|].
    + unfold zlen in *.
      destruct (lookup_lt_is_Some_2 (token_ids k) (Z.to_nat off)) as [a Ha]; [lia|].
      assert (py_get (token_ids k) off = Ok a) as -> by (by apply py_get_lookup).
      rewrite (drop_S _ a) by done. done.
    + rewrite slice_take_drop by lia. replace (off + p - off) with p by lia.
      do 2 f_equal. rewrite <-list_fmap_compose. done.
Qed.

Lemma child_key_spec k p :
  key_wf k → p ≤ key_len k → 0 < p →
  child_key k p = Ok (ns_val (namespace k) (page_val p (take (Z.to_nat p) (units k)))).
Proof. intros. unfold child_key. rewrite child_key_at_spec by (done || lia). done. Qed.

#[export] Instance unit_val_inj : Inj (=) (=) unit_val.
Proof. intros [] [] ?; by simplify_eq/=. Qed.

Lemma page_val_inj p us vs :
  0 < p → length us = Z.to_nat p → length vs = Z.to_nat p →
  page_val p us = page_val p vs → us = vs.
Proof.
  intros Hp Hus Hvs. unfold page_val. destruct (Z.eqb_spec p 1) as [->|].
  - destruct us as [|u []], vs as [|v []]; simpl in *; try lia. by intros ->%(inj unit_val).
  - intros ?%(inj VTuple). by apply (inj (fmap unit_val)).
Qed.

Lemma ns_val_inj p ns1 ns2 us vs :
  0 < p → length us = Z.to_nat p → length vs = Z.to_nat p →
  ns_val ns1 (page_val p us) = ns_val ns2 (page_val p vs) → ns1 = ns2 ∧ us = vs.
Proof.
  intros Hp Hus Hvs Heq.
  assert (∀ (ns : option string * option string) v w us',
    length us' = Z.to_nat p → page_val p us' = VTuple [v; w] →
    (∃ s, v = VStr s) ∨ (∃ e s, v = VTuple [vopt e; VStr s]) → False) as Hplain.
  { intros ns v w us' Hl Hpv Hv. unfold page_val in Hpv. destruct (Z.eqb_spec p 1) as [->|].
    - destruct us' as [|[] []]; simpl in *; try lia; simplify_eq.
      destruct Hv as [[s ?]|([] & s & ?)]; simplify_eq.
    - apply (inj VTuple) in Hpv. destruct us' as [|[] us']; simpl in *; try lia; simplify_eq;
        destruct Hv as [[s ?]|([] & s & ?)]; simplify_eq. }
  destruct ns1 as [[e1|] [s1|]], ns2 as [[e2|] [s2|]]; simpl in Heq;
    simplify_eq/=; try (split; [congruence|]; by eapply page_val_inj);
    exfalso; first
      [ eapply (Hplain (None, None)); [exact Hus|exact Heq|]; first
          [by left; eauto | by right; eauto | right; eexists (Some _), _; done | right; eexists None, _; done]
      | eapply (Hplain (None, None)); [exact Hvs|symmetry; exact Heq|]; first
          [by left; eauto | by right; eauto | right; eexists (Some _), _; done | right; eexists None, _; done] ].
Qed.

(** ** Iteration yields the units *)

Lemma foldr_get_spec (t : list Z) (f : Z → Z → res (list kunit) → res (list kunit))
    (us : list kunit) n off :
  0 ≤ off → off + n ≤ zlen us → 0 ≤ n →
  (∀ i acc, off ≤ i < off + n →
     ∃ u, us !! Z.to_nat i = Some u ∧ f i i acc = (vs ← acc; Ok (u :: vs))) →
  foldr (λ i acc, f i i acc) (Ok []) (seqZ off n) =
  Ok (take (Z.to_nat n) (drop (Z.to_nat off) us)).
Proof.
  intros Hoff Hle Hn Hf. remember (Z.to_nat n) as m eqn:Hm.
  revert off n Hoff Hle Hn Hf Hm. induction m as [|m IH]; intros off n Hoff Hle Hn Hf Hm.
  { by replace n with 0 by lia. }
  rewrite seqZ_cons by lia. simpl foldr. rewrite (IH (Z.succ off) (Z.pred n)) by
    (try lia; intros; apply Hf; lia).
  destruct (Hf off (Ok (take m (drop (Z.to_nat (Z.succ off)) us)))) as (u & Hu & ->); [lia|].
  simpl. rewrite (drop_S us u (Z.to_nat off)) by done. simpl.
  by replace (Z.to_nat (Z.succ off)) with (S (Z.to_nat off)) by lia.
Qed.

Lemma key_iter_units k : key_wf k → key_iter k = Ok (units k).
Proof.
  intros Hwf. pose proof (raw_len_bounds k Hwf) as Hrl. unfold key_iter, units.
  pose proof (raw_token_ids_take k Hwf) as Hraw. unfold zrange, zlen in *.
  destruct (is_bigram k).
  - set (n := if raw_len k >? 0 then raw_len k - 1 else 0).
    assert (0 ≤ n ∧ (0 < raw_len k → n = raw_len k - 1) ∧ (raw_len k ≤ 0 → n = 0)) as Hn.
    { subst n. destruct (Z.gtb_spec (raw_len k) 0); lia. }
    clearbody n. replace (n - 0) with n by lia.
    rewrite (foldr_get_spec (token_ids k)
      (λ i _ acc, a ← py_get (token_ids k) i; b ← py_get (token_ids k) (i + 1);
                  us ← acc; Ok (Bigram a b :: us)) (bigrams (token_ids k)) n 0); try lia.
    + rewrite Hraw. destruct (decide (raw_len k = 0)) as [Hz|].
      { rewrite Hz. assert (n = 0) as -> by lia. done. }
      replace (Z.to_nat (raw_len k)) with (S (Z.to_nat n)) by lia.
      by rewrite bigrams_take, drop_0.
    + unfold zlen. rewrite length_bigrams. lia.
    + intros i acc Hi.
      destruct (lookup_lt_is_Some_2 (token_ids k) (Z.to_nat i)) as [a Ha]; [lia|].
      destruct (lookup_lt_is_Some_2 (token_ids k) (S (Z.to_nat i))) as [b Hb]; [lia|].
      exists (Bigram a b). split; [by apply lookup_bigrams|].
      assert (py_get (token_ids k) i = Ok a) as -> by (apply py_get_lookup; [lia|done]).
      assert (py_get (token_ids k) (i + 1) = Ok b) as ->; [|done].
      apply py_get_lookup; [lia|]. by replace (Z.to_nat (i + 1)) with (S (Z.to_nat i)) by lia.
  - destruct (Z.eqb_spec (raw_len k) (Z.of_nat (length (token_ids k)))) as [Heq|].
    { rewrite Hraw, Heq, Nat2Z.id. by rewrite firstn_all. }
    replace (raw_len k - 0) with (raw_len k) by lia.
    rewrite (foldr_get_spec (token_ids k)
      (λ i _ acc, a ← py_get (token_ids k) i; us ← acc; Ok (Tok a :: us))
      (Tok <$> token_ids k) (raw_len k) 0); try lia.
    + by rewrite Hraw, drop_0, fmap_take.
    + unfold zlen. rewrite length_fmap. lia.
    + intros i acc Hi.
      destruct (lookup_lt_is_Some_2 (token_ids k) (Z.to_nat i)) as [a Ha]; [lia|].
      exists (Tok a). split; [by rewrite list_lookup_fmap, Ha|].
      by assert (py_get (token_ids k) i = Ok a) as -> by (apply py_get_lookup; [lia|done]).
Qed.

(** ** Properties *)

(** Matching two compatible keys always returns (the galloping and the
    bisection terminate and raise nothing), and the result is the greatest
    number of whole pages on which the logical units of the two keys agree,
    from [offset] on in the other key; this holds for token and bigram keys and
    honours [limit]. *)
Theorem match_at_longest_prefix (k other : RadixKey) (offset p : Z) :
  key_wf k → key_wf other → compatible k other → 0 ≤ offset ≤ key_len other → 0 < p →
  ∃ r, match_at k other offset p = Ok r ∧
    let us := units k in
    let vs := drop (Z.to_nat offset) (units other) in
    let agree n := n ≤ zlen us ∧ n ≤ zlen vs ∧ take (Z.to_nat n) us = take (Z.to_nat n) vs in
    0 ≤ r ∧ (p | r) ∧ agree r ∧ (∀ r', 0 ≤ r' → (p | r') → agree r' → r' ≤ r).
Proof.
  intros Hwf Hwf' Hc Hoff Hp. eexists. split; [by apply match_at_lcp|]. cbv zeta.
  set (us := units k). set (vs := drop _ _).
  pose proof (floor_align_spec (Z.of_nat (lcp us vs)) p Hp) as (Hle & Hlt & Hdiv).
  pose proof (floor_align_nonneg (Z.of_nat (lcp us vs)) p Hp ltac:(lia)) as Hnn.
  split; [done|]. split; [done|]. unfold zlen. split.
  - assert (Z.to_nat (floor_align (Z.of_nat (lcp us vs)) p) ≤ lcp us vs)%nat
      as (? & ? & ?)%lcp_ge by lia. repeat split; (lia || done).
  - intros r' Hr' Hd (Hl & Hr & Ht). apply floor_align_greatest; [done|done|].
    enough (Z.to_nat r' ≤ lcp us vs)%nat by lia. apply lcp_ge. repeat split; (lia || done).
Qed.

Lemma match_at_longest_prefix_witness :
  ∃ r, match_at (mkRadixKey [1; 2; 3; 4; 5] None None true None)
         (mkRadixKey [9; 1; 2; 3; 4; 7] None None true (Some 6)) 1 2 = Ok r ∧ r = 2.
Proof.
  destruct (match_at_longest_prefix (mkRadixKey [1; 2; 3; 4; 5] None None true None)
    (mkRadixKey [9; 1; 2; 3; 4; 7] None None true (Some 6)) 1 2)
    as (r & Hr & _); try (vm_compute; repeat split; congruence).
  exists r. split; [exact Hr|]. vm_compute in Hr. congruence.
Defined.

(** A slice of a key denotes the slice of what the key denotes: iterating
    [k[a:b]] yields exactly the Python slice [a:b] of the units of [k], for
    negative, missing and out-of-range bounds and for bigram keys, whose raw
    token slices overlap by one token. *)
Theorem getitem_slice_iter (k : RadixKey) (a b : option Z) :
  key_wf k →
  ∃ k' us, getitem k (Slice a b None) = Ok k' ∧ key_iter k = Ok us ∧
           key_iter k' = Ok (py_slice us a b) ∧ key_len k' = zlen (py_slice us a b).
Proof.
  intros Hwf. exists (getitem_slice k a b), (units k). split; [done|].
  split; [by apply key_iter_units|]. pose proof (getitem_slice_wf k a b) as Hwf'.
  rewrite key_iter_units by done. rewrite key_len_units by done.
  by rewrite units_getitem_slice by done.
Qed.

Lemma getitem_slice_iter_witness :
  ∃ k' us, getitem (mkRadixKey [1; 2; 3; 4] None None true None) (Slice (Some (-2)) None None) = Ok k' ∧
           key_iter (mkRadixKey [1; 2; 3; 4] None None true None) = Ok us ∧
           key_iter k' = Ok (py_slice us (Some (-2)) None) ∧
           py_slice us (Some (-2)) None = [Bigram 2 3; Bigram 3 4].
Proof.
  destruct (getitem_slice_iter (mkRadixKey [1; 2; 3; 4] None None true None) (Some (-2)) None I)
    as (k' & us & H1 & H2 & H3 & _).
  exists k', us. repeat split; try assumption. vm_compute in H2. injection H2 as <-. reflexivity.
Defined.

(** Two keys that are long enough for a child key have the same child key
    exactly when they live in the same namespace (same [extra_key] and same
    [cache_salt]) and begin with the same page: entries of different namespaces
    can never meet below the root. *)
Theorem child_key_isolates_namespaces (k1 k2 : RadixKey) (p : Z) :
  key_wf k1 → key_wf k2 → 0 < p → p ≤ key_len k1 → p ≤ key_len k2 →
  ∃ v1 v2, child_key k1 p = Ok v1 ∧ child_key k2 p = Ok v2 ∧
    (v1 = v2 ↔ namespace k1 = namespace k2 ∧
               take (Z.to_nat p) (units k1) = take (Z.to_nat p) (units k2)).
Proof.
  intros Hwf1 Hwf2 Hp Hl1 Hl2. do 2 eexists.
  split; [by apply child_key_spec|]. split; [by apply child_key_spec|].
  split; [|by intros [-> ->]].
  apply ns_val_inj; [done|..]; rewrite length_take, length_units by done; lia.
Qed.

Lemma child_key_isolates_namespaces_witness :
  ∃ v1 v2, child_key (mkRadixKey [1; 2] None (Some "a"%string) false None) 2 = Ok v1 ∧
           child_key (mkRadixKey [1; 2] (Some "a"%string) None false None) 2 = Ok v2 ∧ v1 ≠ v2.
Proof.
  destruct (child_key_isolates_namespaces (mkRadixKey [1; 2] None (Some "a"%string) false None)
    (mkRadixKey [1; 2] (Some "a"%string) None false None) 2)
    as (v1 & v2 & H1 & H2 & Hiff); try (vm_compute; congruence); try exact I.
  exists v1, v2. repeat split; try assumption. intros He. apply Hiff in He.
  destruct He as [He _]. discriminate.
Defined.
