(* ===== verification/PrefixTree.v ===== *)
(** * The abstract prefix tree

    The specification side of the radix cache: a tree as a finite map from node
    identifiers to abstract nodes.  A node carries its key and its KV slots, the
    whole path and the whole slot row from the root, its lock count and, as a
    ghost, how many lock holders sit on the node itself.  [tree_ok] is the
    well-formedness invariant of the tree, [locks_ok] says that a lock count is
    the number of holders at or below the node, and [cached] is what the tree
    promises to its clients: a partial map from page-aligned unit sequences of a
    namespace to slot rows.  The four updates the cache makes (splitting a node,
    adding a leaf, removing a leaf, changing a lock) are functions here, and the
    lemmas say what each keeps. *)

From S2P Require Import Prelude RadixKey.

Record anode := mkA {
  a_parent : option nat;
  a_key : RadixKey;
  a_vals : list Z;
  a_lock : Z;
  a_held : Z;
  a_path : list kunit;
  a_slots : list Z;
}.
Abbreviation atree := (gmap nat anode).

Abbreviation a_ns a := (namespace (a_key a)).
Abbreviation a_units a := (units (a_key a)).

(** ** Sums over a tree *)

Section msum.
Context (f : anode → Z).

Definition msum (A : atree) : Z := map_fold (λ _ a acc, f a + acc) 0 A.

Lemma msum_empty : msum ∅ = 0.
Proof. apply map_fold_empty. Qed.

Lemma msum_insert_new A i b : A !! i = None → msum (<[i := b]> A) = f b + msum A.
Proof. intros. unfold msum. rewrite map_fold_insert_L; [done| |done]. intros. lia. Qed.

Lemma msum_delete A i a : A !! i = Some a → msum (delete i A) = msum A - f a.
Proof.
  intros. rewrite <-(insert_delete_id A i a) at 2 by done.
  rewrite msum_insert_new by apply lookup_delete_eq. lia.
Qed.

Lemma msum_insert_old A i a b :
  A !! i = Some a → msum (<[i := b]> A) = msum A - f a + f b.
Proof.
  intros. rewrite <-insert_delete_eq, msum_insert_new by apply lookup_delete_eq.
  rewrite (msum_delete _ _ a) by done. lia.
Qed.

Lemma msum_nonneg A : (∀ i a, A !! i = Some a → 0 ≤ f a) → 0 ≤ msum A.
Proof.
  induction A as [|i a A Hi IH] using map_ind; intros Hf; [by rewrite msum_empty|].
  rewrite msum_insert_new by done.
  assert (0 ≤ f a) by (apply (Hf i), lookup_insert_eq).
  enough (0 ≤ msum A) by lia. apply IH. intros j b Hj. apply (Hf j).
  rewrite lookup_insert_ne; [done|]. by intros ->; rewrite Hi in Hj.
Qed.

Lemma msum_elem A i a :
  (∀ i a, A !! i = Some a → 0 ≤ f a) → A !! i = Some a → f a ≤ msum A.
Proof.
  intros Hf Hi. pose proof (msum_delete A i a Hi). enough (0 ≤ msum (delete i A)) by lia.
  apply msum_nonneg. intros j b [_ Hj]%lookup_delete_Some. by apply (Hf j).
Qed.

Lemma msum_zero A : (∀ i a, A !! i = Some a → f a = 0) → msum A = 0.
Proof.
  induction A as [|i a A Hi IH] using map_ind; intros Hf; [by rewrite msum_empty|].
  rewrite msum_insert_new by done. rewrite (Hf i a) by apply lookup_insert_eq.
  rewrite IH; [done|]. intros j b Hj. apply (Hf j).
  rewrite lookup_insert_ne; [done|]. by intros ->; rewrite Hi in Hj.
Qed.

Lemma msum_mono A B :
  (∀ i a, A !! i = Some a → ∃ b, B !! i = Some b ∧ f a ≤ f b) →
  (∀ i b, B !! i = Some b → 0 ≤ f b) → msum A ≤ msum B.
Proof.
  revert B. induction A as [|i a A Hi IH] using map_ind; intros B Hsub Hpos.
  { rewrite msum_empty. by apply msum_nonneg. }
  destruct (Hsub i a (lookup_insert_eq _ _ _)) as (b & Hb & Hle).
  pose proof (msum_delete B i b Hb). rewrite msum_insert_new by done.
  enough (msum A ≤ msum (delete i B)) by lia. apply IH.
  - intros j x Hj. assert (i ≠ j) by (intros ->; congruence). rewrite lookup_delete_ne by done.
    apply Hsub. by rewrite lookup_insert_ne.
  - intros j x [_ Hj]%lookup_delete_Some. by apply (Hpos j).
Qed.
End msum.

Lemma msum_add f g A : msum (λ a, f a + g a) A = msum f A + msum g A.
Proof.
  induction A as [|i a A Hi IH] using map_ind; [by rewrite !msum_empty|].
  rewrite !msum_insert_new by done. lia.
Qed.

Lemma msum_ext f g A : (∀ i a, A !! i = Some a → f a = g a) → msum f A = msum g A.
Proof.
  intros Hfg. assert (msum (λ a, f a + - g a) A = 0) as Hz.
  { apply msum_zero. intros i a Ha. rewrite (Hfg i a Ha). lia. }
  rewrite msum_add in Hz. enough (msum (λ a, - g a) A = - msum g A) by lia.
  clear. induction A as [|i a A Hi IH] using map_ind; [by rewrite !msum_empty|].
  rewrite !msum_insert_new by done. lia.
Qed.

(** All KV slots of a tree, node by node. *)
Definition tree_slots (A : atree) : list Z := concat ((λ q, a_vals q.2) <$> map_to_list A).

Lemma tree_slots_new A i a : A !! i = None → tree_slots (<[i := a]> A) ≡ₚ a_vals a ++ tree_slots A.
Proof. intros Hi. unfold tree_slots. by rewrite map_to_list_insert. Qed.

Lemma tree_slots_delete A i a : A !! i = Some a → tree_slots A ≡ₚ a_vals a ++ tree_slots (delete i A).
Proof.
  intros Hi. rewrite <-(insert_delete_id A i a) at 1 by done.
  by rewrite tree_slots_new by apply lookup_delete_eq.
Qed.

Lemma tree_slots_old A i a b :
  A !! i = Some a → a_vals a ++ tree_slots (<[i := b]> A) ≡ₚ a_vals b ++ tree_slots A.
Proof.
  intros Hi. rewrite <-insert_delete_eq, tree_slots_new by apply lookup_delete_eq.
  rewrite (tree_slots_delete A i a Hi). solve_Permutation.
Qed.

(** ** The invariant of the tree *)

Section tree.
Context (ps : Z) (eagle : bool) (root : nat).
Hypothesis Hps : 0 < ps.

(** What a node [a] below [pa] (node [p]) looks like. *)
Record node_ok (p : nat) (pa a : anode) : Prop := {
  no_path : a_path a = a_path pa ++ a_units a;
  no_slots : a_slots a = a_slots pa ++ a_vals a;
  no_wf : key_wf (a_key a);
  no_salt : salt_wf (a_key a);
  no_bigram : is_bigram (a_key a) = eagle;
  no_pages : (ps | key_len (a_key a));
  no_pos : 0 < key_len (a_key a);
  no_vals : zlen (a_vals a) = key_len (a_key a);
  no_ns : p ≠ root → a_ns a = a_ns pa;
}.

Definition root_ok (a : anode) : Prop :=
  a_parent a = None ∧ a_key a = RadixKey_init [] None false None None ∧
  a_vals a = [] ∧ a_lock a = 1 ∧ a_path a = [] ∧ a_slots a = [].

(** The part of a key its parent's dictionary is indexed by. *)
Definition first_page (a : anode) : (option string * option string) * list kunit :=
  (a_ns a, take (Z.to_nat ps) (a_units a)).

Record tree_ok (A : atree) : Prop := {
  to_root : ∃ a, A !! root = Some a ∧ root_ok a;
  to_node i a : A !! i = Some a → i ≠ root →
    ∃ p pa, a_parent a = Some p ∧ A !! p = Some pa ∧ node_ok p pa a;
  to_sibs i j a b p : A !! i = Some a → A !! j = Some b →
    a_parent a = Some p → a_parent b = Some p → first_page a = first_page b → i = j;
}.

(** [anc A i j]: node [i] is [j] or above it. *)
Definition child_of (A : atree) (i j : nat) : Prop :=
  ∃ b, A !! j = Some b ∧ a_parent b = Some i.
Definition anc (A : atree) : nat → nat → Prop := rtc (child_of A).

(** The slot row [vs] is cached for the units [us] of the namespace [ns]. *)
Definition cached (A : atree) (ns : option string * option string)
    (us : list kunit) (vs : list Z) : Prop :=
  ∃ i a, A !! i = Some a ∧ (i ≠ root → a_ns a = ns) ∧
         us `prefix_of` a_path a ∧ vs = take (length us) (a_slots a).

(** *** Paths *)

Section ok.
Context (A : atree).
Hypothesis Hok : tree_ok A.

Lemma ok_units_len a pa p : node_ok p pa a → length (a_units a) = Z.to_nat (key_len (a_key a)).
Proof. intros Hn. apply length_units, (no_wf _ _ _ Hn). Qed.

Lemma ok_parent_shorter i a p pa :
  A !! i = Some a → a_parent a = Some p → A !! p = Some pa →
  (length (a_path pa) < length (a_path a))%nat.
Proof.
  intros Hi Hp Hpa. destruct (decide (i = root)) as [->|Hne].
  { destruct (to_root A Hok) as (r & Hr & Hr' & _). congruence. }
  destruct (to_node A Hok i a Hi Hne) as (p' & pa' & Hp' & Hpa' & Hn). same_lookup.
  rewrite (no_path _ _ _ Hn), length_app, (ok_units_len _ _ _ Hn).
  pose proof (no_pos _ _ _ Hn). lia.
Qed.

(** Induction from the root down. *)
Lemma ok_ind (P : nat → anode → Prop) :
  (∀ a, A !! root = Some a → root_ok a → P root a) →
  (∀ i a p pa, A !! i = Some a → i ≠ root → a_parent a = Some p → A !! p = Some pa →
     node_ok p pa a → P p pa → P i a) →
  ∀ i a, A !! i = Some a → P i a.
Proof.
  intros Hr Hs. enough (∀ n i a, length (a_path a) = n → A !! i = Some a → P i a) by eauto.
  intros n. induction (lt_wf n) as [n _ IH]. intros i a Hlen Hi.
  destruct (decide (i = root)) as [->|Hne].
  { destruct (to_root A Hok) as (r & Hr' & Hr''). same_lookup. auto. }
  destruct (to_node A Hok i a Hi Hne) as (p & pa & Hp & Hpa & Hn).
  eapply Hs; [done..|]. eapply IH; [|done|done].
  subst n. exact (ok_parent_shorter i a p pa Hi Hp Hpa).
Qed.

Lemma ok_slots_len i a : A !! i = Some a → length (a_slots a) = length (a_path a).
Proof.
  revert i a. refine (ok_ind _ _ _).
  - by intros a _ (_ & _ & _ & _ & -> & ->).
  - intros i a p pa _ _ _ _ Hn IH.
    rewrite (no_path _ _ _ Hn), (no_slots _ _ _ Hn), !length_app, IH.
    rewrite (ok_units_len _ _ _ Hn), <-(no_vals _ _ _ Hn). unfold zlen. lia.
Qed.

Lemma ok_path_pages i a : A !! i = Some a → (ps | zlen (a_path a)).
Proof.
  revert i a. refine (ok_ind _ _ _).
  - intros a _ (_ & _ & _ & _ & -> & _). apply Z.divide_0_r.
  - intros i a p pa _ _ _ _ Hn IH. rewrite (no_path _ _ _ Hn), zlen_app.
    apply Z.divide_add_r; [done|]. rewrite <-key_len_units by apply Hn. apply Hn.
Qed.

Lemma ok_pos_page p pa a : node_ok p pa a → (Z.to_nat ps ≤ length (a_units a))%nat.
Proof.
  intros Hn. rewrite (ok_units_len _ _ _ Hn). pose proof (no_pos _ _ _ Hn).
  destruct (no_pages _ _ _ Hn) as [q Hq]. assert (0 < q) by nia. nia.
Qed.

Lemma ok_root_path i a : A !! i = Some a → a_path a = [] → i = root.
Proof.
  intros Hi Hp. destruct (decide (i = root)) as [|Hne]; [done|].
  destruct (to_node A Hok i a Hi Hne) as (p & pa & Hp' & Hpa & Hn).
  pose proof (ok_pos_page _ _ _ Hn). rewrite (no_path _ _ _ Hn) in Hp.
  apply app_eq_nil in Hp as [_ Hu]. rewrite Hu in H. simpl in H. lia.
Qed.

Lemma anc_live i j b : anc A i j → A !! j = Some b → ∃ a, A !! i = Some a.
Proof.
  intros Hanc Hj. destruct Hanc as [|i k j (c & Hc & Hp) _]; [by eauto|].
  destruct (decide (k = root)) as [->|Hne].
  { destruct (to_root A Hok) as (r & Hr & Hr' & _). congruence. }
  destruct (to_node A Hok k c Hc Hne) as (p & pa & ? & ? & _). same_lookup. by eauto.
Qed.

Lemma child_node_ok i j b :
  A !! j = Some b → a_parent b = Some i → j ≠ root ∧ ∃ a, A !! i = Some a ∧ node_ok i a b.
Proof.
  intros Hj Hp. assert (j ≠ root) as Hne.
  { intros ->. destruct (to_root A Hok) as (r & Hr & Hr' & _). congruence. }
  destruct (to_node A Hok j b Hj Hne) as (p & pa & ? & ? & ?). same_lookup. by eauto.
Qed.

Lemma anc_prefix i j a b :
  anc A i j → A !! i = Some a → A !! j = Some b →
  a_path a `prefix_of` a_path b ∧ a_slots a `prefix_of` a_slots b ∧
  (i ≠ root → a_ns b = a_ns a).
Proof.
  intros Hanc. revert a b. induction Hanc as [i|i k j (c & Hc & Hp) Hkj IH]; intros a b Ha Hb.
  { same_lookup. split; [done|]. split; [done|]. done. }
  destruct (IH c b Hc Hb) as (Hpath & Hslots & Hns).
  destruct (child_node_ok i k c Hc Hp) as (Hk & a' & Ha' & Hn). same_lookup.
  rewrite (no_path _ _ _ Hn) in Hpath. rewrite (no_slots _ _ _ Hn) in Hslots.
  split; [by eapply prefix_app_l|]. split; [by eapply prefix_app_l|].
  intros Hi. rewrite Hns by done. by apply Hn.
Qed.

Lemma anc_root j b : A !! j = Some b → anc A root j.
Proof.
  revert j b. refine (ok_ind _ _ _); [intros; apply rtc_refl|].
  intros i a p pa Hi _ Hp _ _ IH. eapply rtc_r; [done|]. by exists a.
Qed.

(** A node that shares the first page of [i] below the parent of [i] is at or
    below [i]: the children of a node are told apart by their first page. *)
Lemma first_page_anc i a p pa j b :
  A !! i = Some a → a_parent a = Some p → A !! p = Some pa → node_ok p pa a →
  A !! j = Some b → j ≠ root → a_ns b = a_ns a →
  take (length (a_path pa) + Z.to_nat ps) (a_path b) =
  take (length (a_path pa) + Z.to_nat ps) (a_path a) →
  anc A i j.
Proof.
  intros Hi Hp Hpa Hn Hj Hjr Hns Ht.
  assert (i ≠ root) as Hir by by eapply child_node_ok.
  revert p pa Hp Hpa Hn Hir Ht Hns. pattern i, a.
  revert i a Hi. refine (ok_ind _ _ _); [done|].
  intros i a p pa Hi _ Hp Hpa Hn IH p' pa' Hp' Hpa' _ _ Ht Hns. same_lookup.
  pose proof (ok_pos_page _ _ _ Hn) as Hpg.
  assert (length (take (length (a_path pa) + Z.to_nat ps) (a_path b))
          = (length (a_path pa) + Z.to_nat ps)%nat) as Hlen.
  { rewrite Ht, length_take, (no_path _ _ _ Hn), length_app. lia. }
  rewrite length_take in Hlen.
  assert (anc A p j) as Hpj.
  { destruct (decide (p = root)) as [->|Hpr]; [by eapply anc_root|].
    destruct (to_node A Hok p pa Hpa Hpr) as (q & qa & Hq & Hqa & Hnq).
    eapply (IH q qa); [done|done|done|done| |].
    - pose proof (ok_pos_page _ _ _ Hnq).
      assert (length (a_path qa) + Z.to_nat ps ≤ length (a_path pa))%nat.
      { rewrite (no_path _ _ _ Hnq), length_app. lia. }
      apply (f_equal (take (length (a_path qa) + Z.to_nat ps))) in Ht.
      rewrite !take_take in Ht. rewrite !Nat.min_l in Ht by lia. rewrite Ht.
      rewrite (no_path _ _ _ Hn), take_app_le by lia. done.
    - rewrite Hns. by apply Hn. }
  destruct Hpj as [|p k j (c & Hc & Hpc) Hkj].
  { same_lookup. lia. }
  destruct (child_node_ok _ k c Hc Hpc) as (Hk & pa' & Hpa' & Hnc). same_lookup.
  destruct (anc_prefix k j c b Hkj Hc Hj) as (Hpre & _ & Hnsc).
  replace i with k; [done|]. eapply (to_sibs A Hok k i c a); [done..|].
  unfold first_page. rewrite <-Hns, (Hnsc Hk). f_equal.
  pose proof (ok_pos_page _ _ _ Hnc) as Hpgc.
  destruct Hpre as [rest Hrest]. rewrite Hrest, (no_path _ _ _ Hnc), (no_path _ _ _ Hn) in Ht.
  rewrite <-app_assoc, !take_app_add in Ht. apply app_inv_head in Ht.
  rewrite take_app_le in Ht by lia. done.
Qed.

(** The node on the way to [j] whose segment holds position [n]. *)
Lemma anc_at j b (n : nat) :
  A !! j = Some b → (0 < n ≤ length (a_path b))%nat →
  ∃ i a p pa, anc A i j ∧ A !! i = Some a ∧ a_parent a = Some p ∧ A !! p = Some pa ∧
    node_ok p pa a ∧ (length (a_path pa) < n ≤ length (a_path a))%nat.
Proof.
  revert j b. refine (ok_ind _ _ _).
  - intros a _ (_ & _ & _ & _ & -> & _). simpl. lia.
  - intros i a p pa Hi _ Hp Hpa Hn IH Hle.
    destruct (decide (n ≤ length (a_path pa))%nat).
    + destruct (IH ltac:(lia)) as (k & c & q & qa & Hanc & Hrest).
      exists k, c, q, qa. split; [|done]. eapply rtc_r; [done|]. by exists a.
    + exists i, a, p, pa. split; [apply rtc_refl|]. do 4 (split; [done|]). lia.
Qed.

(** Cached rows agree: [cached] is a partial map on page-aligned sequences. *)
Lemma cached_functional ns us vs vs' :
  (ps | zlen us) → cached A ns us vs → cached A ns us vs' → vs = vs'.
Proof.
  intros Hdiv (j & b & Hj & Hns & Hpre & ->) (j' & b' & Hj' & Hns' & Hpre' & ->).
  destruct us as [|u us']; [done|]. set (us := u :: us') in *.
  pose proof (prefix_length _ _ Hpre) as Hlen. pose proof (prefix_length _ _ Hpre') as Hlen'.
  assert (0 < length us)%nat as Hus by (simpl; lia).
  assert (∀ j b, A !! j = Some b → (length us ≤ length (a_path b))%nat → j ≠ root) as Hnr.
  { intros k c Hc Hl ->. destruct (to_root A Hok) as (r & Hr & _ & _ & _ & _ & Hp & _).
    same_lookup. rewrite Hp in Hl. simpl in Hl. lia. }
  destruct (anc_at j b (length us) Hj ltac:(lia))
    as (i & a & p & pa & Hij & Hi & Hp & Hpa & Hn & Hlo & Hhi).
  destruct (anc_prefix i j a b Hij Hi Hj) as (Hpath & Hslots & Hnsb).
  assert (i ≠ root) as Hir by by eapply child_node_ok.
  assert (anc A i j') as Hij'.
  { eapply first_page_anc; [exact Hi|exact Hp|exact Hpa|done|done|by eapply Hnr| |].
    - rewrite Hns' by by eapply Hnr. rewrite <-(Hns (Hnr _ _ Hj Hlen)). by apply Hnsb.
    - assert (length (a_path pa) + Z.to_nat ps ≤ length us)%nat as Hle.
      { pose proof (ok_path_pages p pa Hpa) as [x Hx]. destruct Hdiv as [y Hy].
        unfold zlen in *. assert (x < y) by nia. nia. }
      destruct Hpre as [t Ht], Hpre' as [t' Ht'], Hpath as [t'' Ht''].
      rewrite Ht', take_app_le by lia.
      rewrite <-(take_app_le (a_path a) t'') by lia. rewrite <-Ht'', Ht.
      by rewrite take_app_le by lia. }
  destruct (anc_prefix i j' a b' Hij' Hi Hj') as (_ & Hslots' & _).
  destruct Hslots as [t Ht], Hslots' as [t' Ht'].
  pose proof (ok_slots_len i a Hi). rewrite Ht, Ht', !take_app_le by lia. done.
Qed.
End ok.
(** ** Locks and sizes *)

Definition children_locks (A : atree) (i : nat) : Z :=
  msum (λ b, if decide (a_parent b = Some i) then a_lock b else 0) A.

(** The lock count of a node counts the holders at or below it, up to the
    correction [d] that the walks of [inc_lock_ref] and [dec_lock_ref] push
    towards the root. *)
Definition locks_ok (A : atree) (d : nat → Z) : Prop :=
  ∀ i a, A !! i = Some a →
    0 ≤ a_lock a ∧ 0 ≤ a_held a ∧
    (i ≠ root → a_lock a = a_held a + children_locks A i + d i).

Definition evictable_of (a : anode) : Z := if a_lock a =? 0 then key_len (a_key a) else 0.
Definition protected_of (a : anode) : Z := if a_lock a =? 0 then 0 else key_len (a_key a).

(** Nobody holds the node and it has no children. *)
Definition is_leaf (A : atree) (i : nat) : Prop :=
  ∃ a, A !! i = Some a ∧ a_lock a = 0 ∧ ∀ j, ¬ child_of A i j.

Lemma children_locks_ge A d i j b :
  locks_ok A d → A !! j = Some b → a_parent b = Some i → a_lock b ≤ children_locks A i.
Proof.
  intros Hl Hj Hp. unfold children_locks.
  pose proof (msum_elem (λ b, if decide (a_parent b = Some i) then a_lock b else 0) A j b) as Hm.
  cbv beta in Hm. rewrite decide_True in Hm by done. apply Hm; [|done].
  intros k c Hk. case_decide; [|done]. by apply (Hl k c).
Qed.

Lemma children_locks_none A i : (∀ j, ¬ child_of A i j) → children_locks A i = 0.
Proof.
  intros Hno. apply msum_zero. intros j b Hj. apply decide_False. intros Hp.
  apply (Hno j). by exists b.
Qed.

(** Locked below means locked above. *)
Lemma locked_parent A i a j b :
  locks_ok A (λ _, 0) → A !! i = Some a → i ≠ root → A !! j = Some b → a_parent b = Some i →
  a_lock b ≤ a_lock a.
Proof.
  intros Hl Hi Hr Hj Hp. pose proof (children_locks_ge A _ i j b Hl Hj Hp).
  destruct (Hl i a Hi) as (_ & ? & Heq). specialize (Heq Hr). lia.
Qed.

(** The nodes of [A] are still there, with the same path, slots and locks. *)
Definition extends (A A' : atree) : Prop :=
  ∀ i a, A !! i = Some a → ∃ a', A' !! i = Some a' ∧ a_path a' = a_path a ∧
    a_slots a' = a_slots a ∧ a_lock a' = a_lock a ∧ a_held a' = a_held a ∧ a_ns a' = a_ns a.

#[export] Instance extends_preorder : PreOrder extends.
Proof.
  split.
  - intros A i a Hi. by exists a.
  - intros A B C HAB HBC i a Hi. destruct (HAB i a Hi) as (b & Hb & ? & ? & ? & ? & ?).
    destruct (HBC i b Hb) as (d & Hd & ? & ? & ? & ? & ?). exists d.
    split; [done|]. repeat (split; [congruence|]). congruence.
Qed.

(** ** Splitting a node *)

Definition upper (pa a : anode) (s : Z) : anode :=
  mkA (a_parent a) (key_to (a_key a) s) (slice_to (a_vals a) s) (a_lock a) 0
    (a_path pa ++ take (Z.to_nat s) (a_units a)) (a_slots pa ++ take (Z.to_nat s) (a_vals a)).
Definition lower (new : nat) (a : anode) (s : Z) : anode :=
  mkA (Some new) (key_from (a_key a) s) (slice_from (a_vals a) s) (a_lock a) (a_held a)
    (a_path a) (a_slots a).
Definition a_split (A : atree) (i new : nat) (pa a : anode) (s : Z) : atree :=
  <[i := lower new a s]> (<[new := upper pa a s]> A).

Section split.
Context (A : atree) (i new p : nat) (a pa : anode) (s : Z).
Hypothesis Hok : tree_ok A.
Hypothesis Hi : A !! i = Some a.
Hypothesis Hp : a_parent a = Some p.
Hypothesis Hpa : A !! p = Some pa.
Hypothesis Hnew : A !! new = None.
Hypothesis Hdiv : (ps | s).
Hypothesis Hs : 0 < s < key_len (a_key a).

Lemma split_facts :
  node_ok p pa a ∧ i ≠ root ∧ new ≠ root ∧ new ≠ i ∧ new ≠ p ∧ i ≠ p.
Proof.
  destruct (child_node_ok A Hok p i a Hi Hp) as (Hne & pa' & Hpa' & Hn). same_lookup.
  destruct (to_root A Hok) as (r & Hr & _).
  pose proof (ok_parent_shorter A Hok i a p pa Hi Hp Hpa).
  split; [done|]. split; [done|].
  repeat split; intros Heq; rewrite Heq in *; first [congruence | same_lookup; lia].
Qed.

Lemma split_lookup k :
  a_split A i new pa a s !! k =
  if decide (k = i) then Some (lower new a s)
  else if decide (k = new) then Some (upper pa a s) else A !! k.
Proof.
  unfold a_split. case_decide as Hk; [subst; by rewrite lookup_insert_eq|].
  rewrite lookup_insert_ne by done. case_decide; [subst; by rewrite lookup_insert_eq|].
  by rewrite lookup_insert_ne.
Qed.

Lemma split_key_len :
  key_len (key_to (a_key a) s) = s ∧ key_len (key_from (a_key a) s) = key_len (a_key a) - s.
Proof.
  destruct split_facts as (Hn & _). pose proof (no_wf _ _ _ Hn) as Hwf.
  rewrite key_to_len, key_from_len by (done || lia). done.
Qed.

Lemma upper_first_page : first_page (upper pa a s) = first_page a.
Proof.
  destruct split_facts as (Hn & _). unfold first_page. simpl.
  rewrite ?key_to_namespace, ?key_from_namespace by apply Hn.
  rewrite units_key_to by (apply Hn || lia). rewrite take_take. do 2 f_equal.
  destruct Hdiv as [q ->]. assert (0 < q) by nia. nia.
Qed.

Lemma upper_ok : node_ok p pa (upper pa a s).
Proof.
  destruct split_facts as (Hn & _). destruct split_key_len as [Hto _].
  constructor; simpl; rewrite ?Hto; try done; try lia.
  - rewrite units_key_to by (apply Hn || lia). done.
  - rewrite slice_to_take by lia. done.
  - apply getitem_slice_wf.
  - apply getitem_slice_salt_wf.
  - rewrite <-(no_bigram _ _ _ Hn). apply getitem_slice_bigram.
  - rewrite zlen_slice_to, (no_vals _ _ _ Hn) by lia. lia.
  - intros. rewrite ?key_to_namespace, ?key_from_namespace by apply Hn. by apply Hn.
Qed.

Lemma lower_ok : node_ok new (upper pa a s) (lower new a s).
Proof.
  destruct split_facts as (Hn & _). destruct split_key_len as [_ Hfrom].
  constructor; simpl; rewrite ?Hfrom; try done; try lia.
  - rewrite units_key_from by (apply Hn || lia).
    rewrite <-app_assoc, take_drop. apply Hn.
  - rewrite slice_from_drop by lia. rewrite <-app_assoc, take_drop. apply Hn.
  - apply getitem_slice_wf.
  - apply getitem_slice_salt_wf.
  - rewrite <-(no_bigram _ _ _ Hn). apply getitem_slice_bigram.
  - apply Z.divide_sub_r; [apply Hn|done].
  - rewrite zlen_slice_from, (no_vals _ _ _ Hn) by lia. lia.
  - intros. rewrite key_from_namespace, key_to_namespace by apply Hn. done.
Qed.

Lemma split_no_orphans k b : A !! k = Some b → a_parent b ≠ Some new.
Proof.
  intros Hk Hq. destruct (child_node_ok A Hok new k b Hk Hq) as (_ & ? & ? & _). congruence.
Qed.

Lemma split_ok : tree_ok (a_split A i new pa a s).
Proof.
  destruct split_facts as (Hn & Hir & Hnr & Hni & Hnp & Hip). constructor.
  - destruct (to_root A Hok) as (r & Hr & Hro). exists r. rewrite split_lookup.
    by rewrite !decide_False by done.
  - intros k b. rewrite split_lookup. intros Hk Hkr. repeat case_decide; subst.
    + injection Hk as <-. exists new, (upper pa a s). split; [done|].
      rewrite split_lookup, decide_False, decide_True by done. split; [done|apply lower_ok].
    + injection Hk as <-. exists p, pa. split; [done|].
      rewrite split_lookup, !decide_False by done. split; [done|apply upper_ok].
    + destruct (to_node A Hok k b Hk Hkr) as (q & qa & Hq & Hqa & Hnq).
      destruct (decide (q = i)) as [->|Hqi].
      * exists i, (lower new a s). split; [done|]. rewrite split_lookup, decide_True by done.
        split; [done|]. same_lookup. destruct Hnq. constructor; try done.
        intros Hir'. rewrite (no_ns0 Hir'). simpl. symmetry.
        apply getitem_slice_namespace, Hn.
      * exists q, qa. split; [done|]. rewrite split_lookup, !decide_False; [done| |done].
        intros ->. congruence.
  - intros k l b c q. rewrite !split_lookup. intros Hk Hl Hbq Hcq Hfp.
    pose proof split_no_orphans as Hno. pose proof upper_first_page as Hup.
    repeat case_decide; subst; try done;
      repeat match goal with H : Some _ = Some _ |- _ => injection H as <- end; simpl in *;
      first
        [ congruence
        | exfalso; eapply Hno; [eassumption|congruence]
        | rewrite Hup in Hfp; exfalso; by destruct (to_sibs A Hok i l a c q)
        | rewrite Hup in Hfp; exfalso; by destruct (to_sibs A Hok k i b a q)
        | by eapply (to_sibs A Hok) ].
Qed.

Lemma split_cached ns us vs : cached (a_split A i new pa a s) ns us vs ↔ cached A ns us vs.
Proof.
  destruct split_facts as (Hn & Hir & Hnr & Hni & Hnp & Hip). split.
  - intros (k & b & Hk & Hns & Hpre & ->). rewrite split_lookup in Hk.
    repeat case_decide; subst; try (injection Hk as <-); simpl in *.
    + exists i, a. split; [done|]. split; [|done].
      by rewrite ?key_to_namespace, ?key_from_namespace in Hns by apply Hn.
    + exists i, a. split; [done|]. rewrite ?key_to_namespace, ?key_from_namespace in Hns by apply Hn.
      split; [by auto|].
      assert (a_path a = (a_path pa ++ take (Z.to_nat s) (a_units a)) ++ drop (Z.to_nat s) (a_units a)) as Hpath.
      { rewrite <-app_assoc, take_drop. apply Hn. }
      assert (a_slots a = (a_slots pa ++ take (Z.to_nat s) (a_vals a)) ++ drop (Z.to_nat s) (a_vals a)) as Hslots.
      { rewrite <-app_assoc, take_drop. apply Hn. }
      pose proof (prefix_length _ _ Hpre) as Hlen.
      split; [rewrite Hpath; by apply prefix_app_r|].
      rewrite Hslots, (take_app_le (a_slots pa ++ _)); [done|].
      rewrite length_app, length_take in Hlen. rewrite length_app, length_take.
      rewrite (ok_slots_len A Hok p pa Hpa). pose proof (no_vals _ _ _ Hn).
      rewrite (ok_units_len _ _ _ Hn) in Hlen. unfold zlen in *. lia.
    + by exists k, b.
  - intros (k & b & Hk & Hns & Hpre & ->). destruct (decide (k = i)) as [->|Hki].
    + exists i, (lower new a s). rewrite split_lookup, decide_True by done.
      same_lookup. split; [done|]. simpl. rewrite ?key_to_namespace, ?key_from_namespace by apply Hn. done.
    + exists k, b. rewrite split_lookup, decide_False by done. rewrite decide_False; [done|].
      intros ->. congruence.
Qed.

Lemma split_extends : extends A (a_split A i new pa a s).
Proof.
  destruct split_facts as (Hn & Hir & Hnr & Hni & Hnp & Hip). intros k b Hk.
  rewrite split_lookup. repeat case_decide; subst; [|congruence|by exists b].
  same_lookup. eexists. split; [done|]. simpl. rewrite key_from_namespace by apply Hn. done.
Qed.

Lemma split_msum f :
  msum f (a_split A i new pa a s) = msum f A + f (upper pa a s) + f (lower new a s) - f a.
Proof.
  destruct split_facts as (Hn & Hir & Hnr & Hni & Hnp & Hip). unfold a_split.
  rewrite (msum_insert_old _ _ _ a) by (by rewrite lookup_insert_ne).
  rewrite msum_insert_new by done. lia.
Qed.

Lemma split_tree_slots : tree_slots (a_split A i new pa a s) ≡ₚ tree_slots A.
Proof.
  destruct split_facts as (Hn & Hir & Hnr & Hni & Hnp & Hip). unfold a_split.
  pose proof (tree_slots_old (<[new := upper pa a s]> A) i a (lower new a s)
    ltac:(by rewrite lookup_insert_ne)) as Ho.
  rewrite (tree_slots_new A new) in Ho by done. simpl in Ho.
  apply (Permutation_app_inv_l (a_vals a)). rewrite Ho.
  rewrite <-(slice_to_from (a_vals a) s) at 3 by lia. solve_Permutation.
Qed.

Lemma split_locks_ok : locks_ok A (λ _, 0) → locks_ok (a_split A i new pa a s) (λ _, 0).
Proof.
  intros Hl k b. rewrite split_lookup.
  assert (∀ j, children_locks (a_split A i new pa a s) j =
               children_locks A j + if decide (new = j) then a_lock a else 0) as Hcl.
  { intros j. unfold children_locks. rewrite split_msum. simpl.
    repeat case_decide; simplify_eq; lia. }
  rewrite Hcl. destruct split_facts as (Hn & Hir & Hnr & Hni & Hnp & Hip).
  destruct (Hl i a Hi) as (? & ? & Heq).
  repeat case_decide; subst; intros Hk; try (injection Hk as <-); simpl; try done.
  - repeat split; try done. intros. specialize (Heq ltac:(done)). lia.
  - repeat split; try done; try lia. intros.
    rewrite children_locks_none; [lia|]. intros j (b & Hj & Hb). by eapply split_no_orphans.
  - destruct (Hl k b Hk) as (? & ? & Hbeq). repeat split; try done. intros.
    rewrite (Hbeq ltac:(done)). lia.
Qed.

Lemma split_evictable :
  msum evictable_of (a_split A i new pa a s) = msum evictable_of A ∧
  msum protected_of (a_split A i new pa a s) = msum protected_of A.
Proof.
  rewrite !split_msum. unfold evictable_of, protected_of. simpl.
  destruct split_key_len as [-> ->]. destruct (a_lock a =? 0); lia.
Qed.

Lemma split_is_leaf k : is_leaf (a_split A i new pa a s) k ↔ is_leaf A k.
Proof.
  destruct split_facts as (Hn & Hir & Hnr & Hni & Hnp & Hip).
  assert (∀ j, child_of (a_split A i new pa a s) k j ↔
               if decide (k = new) then j = i
               else if decide (k = p) then (j = new ∨ (j ≠ i ∧ child_of A k j))
               else child_of A k j) as Hch.
  { intros j. pose proof split_no_orphans as Hno. split.
    - intros (b & Hb & Hbk). rewrite split_lookup in Hb.
      repeat case_decide; subst; try done; try (injection Hb as <-); simpl in *; try congruence;
        first [by left | by destruct (Hno j b) | by eexists | right; split; [done|by eexists]].
    - assert (∀ j, child_of A k j → j ≠ i → child_of (a_split A i new pa a s) k j) as Hold.
      { intros l (b & Hb & Hbk) Hli. exists b. rewrite split_lookup, !decide_False; [done| |done].
        intros ->. congruence. }
      repeat case_decide; subst.
      + intros ->. exists (lower new a s). by rewrite split_lookup, decide_True.
      + intros [->|[Hji Hj]]; [|by apply Hold]. exists (upper pa a s).
        by rewrite split_lookup, decide_False, decide_True.
      + intros Hj. apply Hold; [done|]. intros ->. destruct Hj as (b & Hb & Hbk). congruence. }
  unfold is_leaf. setoid_rewrite Hch. rewrite split_lookup.
  destruct (decide (k = new)) as [->|Hkn].
  { rewrite decide_False by done. split; [|intros (b & ? & _); congruence].
    intros (b & _ & _ & Hf). by destruct (Hf i). }
  destruct (decide (k = p)) as [->|Hkp].
  { rewrite decide_False by done. split; intros (b & _ & _ & Hf).
    - destruct (Hf new). by left.
    - destruct (Hf i). by exists a. }
  case_decide; subst; [|done]. split; intros (b & Hb & Hl & Hf).
  - exists a. injection Hb as <-. done.
  - exists (lower new a s). same_lookup. done.
Qed.
End split.
(** ** Adding a leaf *)

Definition leaf_node (p : nat) (pa : anode) (k : RadixKey) (v : list Z) : anode :=
  mkA (Some p) k v 0 0 (a_path pa ++ units k) (a_slots pa ++ v).

Section add.
Context (A : atree) (new p : nat) (pa : anode) (k : RadixKey) (v : list Z).
Hypothesis Hok : tree_ok A.
Hypothesis Hpa : A !! p = Some pa.
Hypothesis Hnew : A !! new = None.
Hypothesis Hnode : node_ok p pa (leaf_node p pa k v).
Hypothesis Hfresh : ∀ j b, A !! j = Some b → a_parent b = Some p →
  first_page b ≠ first_page (leaf_node p pa k v).

Let A' := <[new := leaf_node p pa k v]> A.

Lemma add_facts : new ≠ root ∧ new ≠ p ∧ (∀ j, ¬ child_of A new j).
Proof.
  destruct (to_root A Hok) as (r & Hr & _). repeat split; try (intros ->; congruence).
  intros j (b & Hb & Hbp). destruct (child_node_ok A Hok new j b Hb Hbp) as (_ & ? & ? & _).
  congruence.
Qed.

Lemma add_lookup j : A' !! j = if decide (j = new) then Some (leaf_node p pa k v) else A !! j.
Proof. unfold A'. case_decide; subst; [by rewrite lookup_insert_eq|by rewrite lookup_insert_ne]. Qed.

Lemma add_ok : tree_ok A'.
Proof.
  destruct add_facts as (Hnr & Hnp & Hno). constructor.
  - destruct (to_root A Hok) as (r & Hr & Hro). exists r. by rewrite add_lookup, decide_False.
  - intros i a. rewrite add_lookup. case_decide; subst; intros Hi Hir.
    + injection Hi as <-. exists p, pa. by rewrite add_lookup, decide_False.
    + destruct (to_node A Hok i a Hi Hir) as (q & qa & Hq & Hqa & Hn). exists q, qa.
      rewrite add_lookup, decide_False; [done|]. intros ->. congruence.
  - intros i j a b q. rewrite !add_lookup. intros Hi Hj Haq Hbq Hfp.
    repeat case_decide; subst; try done; try (injection Hi as <-); try (injection Hj as <-).
    + simpl in Hbq. injection Hbq as <-. by destruct (Hfresh i a Hi Haq).
    + simpl in Haq. injection Haq as <-. by destruct (Hfresh j b Hj Hbq).
    + by eapply (to_sibs A Hok).
Qed.

Lemma add_msum f : msum f A' = msum f A + f (leaf_node p pa k v).
Proof. unfold A'. rewrite msum_insert_new by done. lia. Qed.

Lemma add_locks_ok d : locks_ok A d → d new = 0 → locks_ok A' d.
Proof.
  intros Hl Hd i a. rewrite add_lookup.
  assert (∀ j, children_locks A' j = children_locks A j) as Hcl.
  { intros j. unfold children_locks. rewrite add_msum. simpl. case_decide; lia. }
  rewrite Hcl. case_decide; [subst|by apply Hl]. intros Hi. injection Hi as <-. simpl.
  rewrite children_locks_none by apply add_facts. lia.
Qed.

Lemma add_tree_slots : tree_slots A' ≡ₚ v ++ tree_slots A.
Proof. by apply tree_slots_new. Qed.

Lemma add_extends : extends A A'.
Proof.
  intros i a Hi. exists a. rewrite add_lookup, decide_False; [done|]. intros ->. congruence.
Qed.

Lemma add_cached ns us vs :
  cached A' ns us vs ↔
  cached A ns us vs ∨
  (ns = namespace k ∧ us `prefix_of` a_path pa ++ units k ∧
   vs = take (length us) (a_slots pa ++ v)).
Proof.
  destruct add_facts as (Hnr & Hnp & Hno). unfold cached. split.
  - intros (i & a & Hi & Hns & Hpre & ->). rewrite add_lookup in Hi. case_decide; subst.
    + injection Hi as <-. right. simpl in *. by rewrite Hns.
    + left. by exists i, a.
  - intros [(i & a & Hi & Hrest)|(-> & Hpre & ->)].
    + exists i, a. rewrite add_lookup, decide_False; [done|]. intros ->. congruence.
    + exists new, (leaf_node p pa k v). by rewrite add_lookup, decide_True.
Qed.

Lemma add_is_leaf i :
  is_leaf A' i ↔ if decide (i = new) then True
                 else if decide (i = p) then False else is_leaf A i.
Proof.
  destruct add_facts as (Hnr & Hnp & Hno).
  assert (∀ i j, child_of A' i j ↔ child_of A i j ∨ (i = p ∧ j = new)) as Hch.
  { intros x y. unfold child_of. rewrite add_lookup. split.
    - intros (b & Hb & Hbx). case_decide; subst; [|by left; eauto].
      injection Hb as <-. injection Hbx as <-. by right.
    - intros [(b & Hb & Hbx)|[-> ->]].
      + exists b. rewrite decide_False; [done|]. intros ->. congruence.
      + exists (leaf_node p pa k v). by rewrite decide_True. }
  unfold is_leaf. setoid_rewrite Hch. rewrite add_lookup.
  repeat case_decide; subst; try done.
  - split; [done|]. intros _. exists (leaf_node p pa k v). split; [done|]. split; [done|].
    intros j [Hj|[? _]]; [by apply (Hno j)|done].
  - split; [|done]. intros (a & _ & _ & Hj). by destruct (Hj new); right.
  - split; intros (a & Ha & Hl & Hj); exists a; (split; [done|]); (split; [done|]); intros j.
    + intros ?. apply (Hj j). by left.
    + intros [?|[? _]]; [by apply (Hj j)|done].
Qed.
End add.

(** ** Removing a leaf *)

Section remove.
Context (A : atree) (x p : nat) (a pa : anode).
Hypothesis Hok : tree_ok A.
Hypothesis Hx : A !! x = Some a.
Hypothesis Hp : a_parent a = Some p.
Hypothesis Hpa : A !! p = Some pa.
Hypothesis Hleaf : ∀ j, ¬ child_of A x j.

Lemma remove_ok : tree_ok (delete x A).
Proof.
  destruct (child_node_ok A Hok p x a Hx Hp) as (Hxr & _). constructor.
  - destruct (to_root A Hok) as (r & Hr & Hro). exists r. by rewrite lookup_delete_ne.
  - intros i b [Hix Hi]%lookup_delete_Some Hir.
    destruct (to_node A Hok i b Hi Hir) as (q & qa & Hq & Hqa & Hn). exists q, qa.
    split; [done|]. rewrite lookup_delete_ne; [done|]. intros ->. apply (Hleaf i). by exists b.
  - intros i j b c q [_ Hi]%lookup_delete_Some [_ Hj]%lookup_delete_Some.
    by apply (to_sibs A Hok).
Qed.

Lemma remove_locks_ok d : locks_ok A d → a_lock a = 0 → locks_ok (delete x A) d.
Proof.
  intros Hl H0 i b [_ Hi]%lookup_delete_Some. unfold children_locks.
  rewrite (msum_delete _ _ _ a) by done. rewrite H0.
  destruct (Hl i b Hi) as (? & ? & Heq). repeat split; try done. intros Hir.
  rewrite (Heq Hir). unfold children_locks. case_decide; lia.
Qed.

Lemma remove_is_leaf i :
  is_leaf (delete x A) i ↔
  i ≠ x ∧ (is_leaf A i ∨ (i = p ∧ a_lock pa = 0 ∧ ∀ j, child_of A p j → j = x)).
Proof.
  destruct (child_node_ok A Hok p x a Hx Hp) as (Hxr & _).
  assert (∀ i j, child_of (delete x A) i j ↔ child_of A i j ∧ j ≠ x) as Hch.
  { intros y z. unfold child_of. setoid_rewrite lookup_delete_Some. split.
    - intros (b & [? ?] & ?). split; [by exists b|congruence].
    - intros [(b & ? & ?) ?]. exists b. split; [split; congruence|done]. }
  unfold is_leaf. setoid_rewrite Hch. setoid_rewrite lookup_delete_Some. split.
  - intros (b & [Hne Hb] & Hl & Hj). split; [done|].
    destruct (decide (i = p)) as [->|Hip].
    + right. same_lookup. split; [done|]. split; [done|]. intros j Hc.
      destruct (decide (j = x)); [done|]. by destruct (Hj j).
    + left. exists b. split; [done|]. split; [done|]. intros j Hc. apply (Hj j).
      split; [done|]. intros ->. destruct Hc as (c & Hc & Hci). same_lookup. congruence.
  - intros [Hne [(b & Hb & Hl & Hj)|(-> & Hl & Hj)]].
    + exists b. split; [done|]. split; [done|]. intros j [Hc _]. by apply (Hj j).
    + exists pa. split; [done|]. split; [done|]. intros j [Hc Hjx]. by apply Hjx, Hj.
Qed.

Lemma remove_cached ns us vs :
  cached (delete x A) ns us vs → cached A ns us vs.
Proof. intros (i & b & [_ Hi]%lookup_delete_Some & Hrest). by exists i, b. Qed.
End remove.

(** ** Changing a lock *)

Definition relock (a : anode) (lock held : Z) : anode :=
  mkA (a_parent a) (a_key a) (a_vals a) lock held (a_path a) (a_slots a).

(** The two trees differ in lock counts only. *)
Definition same_shape (a b : anode) : Prop :=
  a_parent a = a_parent b ∧ a_key a = a_key b ∧ a_vals a = a_vals b ∧
  a_path a = a_path b ∧ a_slots a = a_slots b.

Section relock.
Context (A : atree) (i : nat) (a : anode) (lock held : Z).
Hypothesis Hok : tree_ok A.
Hypothesis Hi : A !! i = Some a.
Hypothesis Hir : i ≠ root.
Let A' := <[i := relock a lock held]> A.

Lemma relock_lookup j : A' !! j = if decide (j = i) then Some (relock a lock held) else A !! j.
Proof. unfold A'. case_decide; subst; [by rewrite lookup_insert_eq|by rewrite lookup_insert_ne]. Qed.

(** Every node of the new tree is a node of the old one, up to its locks. *)
Lemma relock_shape j b :
  A' !! j = Some b → ∃ c, A !! j = Some c ∧ same_shape b c ∧ (j ≠ i → b = c).
Proof.
  rewrite relock_lookup. case_decide; subst; intros Hj.
  - injection Hj as <-. by exists a.
  - by exists b.
Qed.
Lemma relock_shape' j c :
  A !! j = Some c → ∃ b, A' !! j = Some b ∧ same_shape b c ∧ (j ≠ i → b = c).
Proof.
  rewrite relock_lookup. case_decide; subst; intros Hj.
  - same_lookup. by exists (relock a lock held).
  - by exists c.
Qed.

Lemma relock_ok : tree_ok A'.
Proof.
  constructor.
  - destruct (to_root A Hok) as (r & Hr & Hro). exists r. by rewrite relock_lookup, decide_False.
  - intros j b Hj Hjr. destruct (relock_shape j b Hj) as (c & Hc & (Ep & Ek & Ev & Epa & Es) & _).
    destruct (to_node A Hok j c Hc Hjr) as (q & qa & Hq & Hqa & Hn).
    destruct (relock_shape' q qa Hqa) as (qb & Hqb & (Eqp & Eqk & Eqv & Eqpa & Eqs) & _).
    exists q, qb. split; [congruence|]. split; [done|].
    destruct Hn; constructor; rewrite ?Ek, ?Ev, ?Epa, ?Es, ?Eqk, ?Eqpa, ?Eqs; done.
  - intros j l b c q Hj Hl Hbq Hcq Hfp.
    destruct (relock_shape j b Hj) as (b' & Hb' & (Ep & Ek & _) & _).
    destruct (relock_shape l c Hl) as (c' & Hc' & (Ep' & Ek' & _) & _).
    eapply (to_sibs A Hok j l b' c' q); [done|done|congruence|congruence|].
    unfold first_page in *. by rewrite <-Ek, <-Ek'.
Qed.

Lemma relock_child x y : child_of A' x y ↔ child_of A x y.
Proof.
  split.
  - intros (b & Hb & Hbx). destruct (relock_shape y b Hb) as (c & Hc & (Ep & _) & _).
    exists c. split; [done|congruence].
  - intros (c & Hc & Hcx). destruct (relock_shape' y c Hc) as (b & Hb & (Ep & _) & _).
    exists b. split; [done|congruence].
Qed.

Lemma relock_cached ns us vs : cached A' ns us vs ↔ cached A ns us vs.
Proof.
  split.
  - intros (j & b & Hj & Hns & Hpre & ->).
    destruct (relock_shape j b Hj) as (c & Hc & (_ & Ek & _ & Epa & Es) & _).
    exists j, c. rewrite <-Ek, <-Epa, <-Es. done.
  - intros (j & c & Hj & Hns & Hpre & ->).
    destruct (relock_shape' j c Hj) as (b & Hb & (_ & Ek & _ & Epa & Es) & _).
    exists j, b. rewrite Ek, Epa, Es. done.
Qed.

(** The correction at [i] is absorbed and appears at its parent. *)
Lemma relock_locks_ok d :
  locks_ok A d → 0 ≤ lock → 0 ≤ held →
  let e := lock - a_lock a in
  locks_ok A' (λ j, d j + (if decide (j = i) then e - (held - a_held a) else 0)
                        - (if decide (a_parent a = Some j) then e else 0)).
Proof.
  intros Hl Hlock Hheld e j b Hj.
  assert (children_locks A' j = children_locks A j +
            (if decide (a_parent a = Some j) then e else 0)) as ->.
  { unfold children_locks, A'. rewrite (msum_insert_old _ _ _ a) by done. simpl.
    subst e. case_decide; lia. }
  rewrite relock_lookup in Hj. case_decide as Hji; subst.
  - injection Hj as <-. simpl. split; [done|]. split; [done|]. intros Hr.
    destruct (Hl i a Hi) as (_ & _ & Heq). specialize (Heq Hr). subst e. lia.
  - destruct (Hl j b Hj) as (? & ? & Heq). split; [done|]. split; [done|]. intros Hr.
    specialize (Heq Hr). lia.
Qed.

Lemma relock_is_leaf j :
  is_leaf A' j ↔ if decide (j = i) then lock = 0 ∧ ∀ k, ¬ child_of A i k else is_leaf A j.
Proof.
  unfold is_leaf. setoid_rewrite relock_child. rewrite relock_lookup. case_decide; subst; [|done].
  split.
  - intros (b & Hb & Hl & Hc). injection Hb as <-. done.
  - intros [Hl Hc]. by exists (relock a lock held).
Qed.
End relock.

Lemma locks_ok_ext A d d' : (∀ i, d i = d' i) → locks_ok A d → locks_ok A d'.
Proof. intros He Hl i a Hi. rewrite <-He. by apply Hl. Qed.

(** ** Depth *)

(** The nodes strictly nearer to the root bound the walks towards it. *)
Definition shallower (A : atree) (n : nat) : nat :=
  base.size (filter (λ q : nat * anode, (length (a_path q.2) < n)%nat) A).

Lemma shallower_lt A i a n :
  A !! i = Some a → (length (a_path a) < n)%nat →
  (shallower A (length (a_path a)) < shallower A n)%nat.
Proof.
  intros Hi Hn. unfold shallower. apply map_subset_size. apply map_subset_alt. split.
  - intros. apply map_filter_subseteq_ext. intros j b Hj. simpl. lia.
  - exists i. rewrite !map_lookup_filter, Hi. simpl. rewrite option_guard_False by lia.
    by rewrite option_guard_True.
Qed.

Lemma shallower_size A i a :
  A !! i = Some a → (shallower A (length (a_path a)) < base.size A)%nat.
Proof.
  intros Hi. unfold shallower. apply map_subset_size. apply map_subset_alt. split.
  - apply map_filter_subseteq.
  - exists i. rewrite map_lookup_filter, Hi. simpl. by rewrite option_guard_False by lia.
Qed.

Lemma shallower_shape A B n :
  (∀ i, a_path <$> (A !! i) = a_path <$> (B !! i)) → shallower A n = shallower B n.
Proof.
  intros Heq. unfold shallower. rewrite <-!size_dom. f_equal. apply set_eq. intros i.
  rewrite !elem_of_dom, !map_lookup_filter. specialize (Heq i).
  destruct (A !! i) as [a|], (B !! i) as [b|]; simplify_eq/=; [|done].
  rewrite Heq. case_guard; done.
Qed.
End tree.
