(* ===== verification/Heapq.v ===== *)
(** * Binary heaps of Python's standard library

    [RadixCache.evict] orders its victims with [heapq.heapify], [heapq.heappop]
    and [heapq.heappush].  This file translates the library's algorithm (the
    array layout, [_siftdown] and the bottom-up [_siftup]), generic in the
    comparison, and proves what the eviction loop relies on: the elements are
    kept, and the popped element is a minimum. *)

From S2P Require Import Prelude.

#[local] Open Scope nat_scope.

Section heapq.
Context {A : Type} `{Inhabited A} (lt : A → A → bool).

Definition parentpos (i : nat) : nat := (i - 1) / 2.

(** The loop of [_siftdown] and the final store; [fuel] bounds the number of
    ancestors of [pos]. *)
Fixpoint siftdown_loop (fuel : nat) (heap : list A) (newitem : A) (startpos pos : nat)
    : list A :=
  match fuel with
  | O => <[pos := newitem]> heap
  | S fuel =>
      if startpos <? pos then
        let parent := heap !!! parentpos pos in
        if lt newitem parent
        then siftdown_loop fuel (<[pos := parent]> heap) newitem startpos (parentpos pos)
        else <[pos := newitem]> heap
      else <[pos := newitem]> heap
  end.

Definition siftdown (heap : list A) (startpos pos : nat) : list A :=
  siftdown_loop pos heap (heap !!! pos) startpos pos.

(** The smaller child of [pos], the right one on a tie. *)
Definition smaller_child (heap : list A) (pos : nat) : nat :=
  let childpos := 2 * pos + 1 in
  let rightpos := childpos + 1 in
  if (rightpos <? length heap) && negb (lt (heap !!! childpos) (heap !!! rightpos))
  then rightpos else childpos.

(** The first loop of [_siftup]: the smaller children move up until the hole
    is at a leaf, whose position is returned. *)
Fixpoint siftup_loop (fuel : nat) (heap : list A) (pos : nat) : list A * nat :=
  match fuel with
  | O => (heap, pos)
  | S fuel =>
      if 2 * pos + 1 <? length heap then
        let childpos := smaller_child heap pos in
        siftup_loop fuel (<[pos := heap !!! childpos]> heap) childpos
      else (heap, pos)
  end.

Definition siftup (heap : list A) (pos : nat) : list A :=
  let newitem := heap !!! pos in
  let '(heap, leaf) := siftup_loop (length heap) heap pos in
  siftdown (<[leaf := newitem]> heap) pos leaf.

Definition heappush (heap : list A) (item : A) : list A :=
  let heap := heap ++ [item] in
  siftdown heap 0 (length heap - 1).

(** [None] stands for the [IndexError] of an empty heap. *)
Definition heappop (heap : list A) : option (A * list A) :=
  match reverse heap with
  | [] => None
  | lastelt :: rest =>
      let heap := reverse rest in
      match heap with
      | [] => Some (lastelt, [])
      | returnitem :: _ => Some (returnitem, siftup (<[0 := lastelt]> heap) 0)
      end
  end.

Definition heapify (x : list A) : list A :=
  foldl siftup x (reverse (seq 0 (length x / 2))).

(** ** The heap order *)

Definition le (a b : A) : Prop := lt b a = false.

Hypothesis le_refl : ∀ a, le a a.
Hypothesis le_trans : ∀ a b c, le a b → le b c → le a c.
Hypothesis lt_le : ∀ a b, lt a b = true → le a b.

Definition ordered (h : list A) (j : nat) : Prop := le (h !!! parentpos j) (h !!! j).

(** Every element from [s] on is at most its children. *)
Definition heap_from (s : nat) (h : list A) : Prop :=
  ∀ j, 0 < j < length h → s ≤ parentpos j → ordered h j.

Definition is_heap (h : list A) : Prop := heap_from 0 h.

(** [p] lies in the subtree rooted at [s]. *)
Inductive below (s : nat) : nat → Prop :=
| below_refl : below s s
| below_step p : 0 < p → below s (parentpos p) → below s p.

(** The elements next to the hole [p] may be out of order, above it and, with
    [down], below it; but what is below the hole is at least what is above. *)
Definition hole (down : bool) (s p : nat) (h : list A) : Prop :=
  (∀ j, 0 < j < length h → s ≤ parentpos j → j ≠ p →
        (down = true → parentpos j ≠ p) → ordered h j) ∧
  (∀ c, 0 < c < length h → parentpos c = p → s < p →
        le (h !!! parentpos p) (h !!! c)).

Lemma parentpos_lt i : 0 < i → parentpos i < i.
Proof. intros. unfold parentpos. pose proof (Nat.div_mod_eq (i - 1) 2). lia. Qed.

Lemma parentpos_child i c : 0 < c → parentpos c = i ↔ c = 2 * i + 1 ∨ c = 2 * i + 2.
Proof.
  intros. unfold parentpos. pose proof (Nat.div_mod_eq (c - 1) 2).
  pose proof (Nat.mod_upper_bound (c - 1) 2). lia.
Qed.

Lemma below_le s p : below s p → s ≤ p.
Proof. induction 1 as [|p Hp _ IH]; [done|]. pose proof (parentpos_lt p Hp). lia. Qed.

Lemma below_up s p : below s p → s < p → below s (parentpos p).
Proof. inversion 1; subst; [lia|done]. Qed.

(** *** Exchanging two elements *)

Definition swap (h : list A) (i j : nat) : list A :=
  <[i := h !!! j]> (<[j := h !!! i]> h).

Lemma length_swap h i j : length (swap h i j) = length h.
Proof. unfold swap. by rewrite !length_insert. Qed.

Lemma lookup_swap h i j k :
  i < length h → j < length h →
  swap h i j !!! k =
  if decide (k = i) then h !!! j else if decide (k = j) then h !!! i else h !!! k.
Proof.
  intros Hi Hj. unfold swap. case_decide as Hki; [subst|].
  - rewrite list_lookup_total_insert_eq by by rewrite length_insert. done.
  - rewrite list_lookup_total_insert_ne by done. case_decide as Hkj; [subst|].
    + by rewrite list_lookup_total_insert_eq.
    + by rewrite list_lookup_total_insert_ne.
Qed.

Lemma insert_Permutation (h : list A) i y :
  i < length h → (h !!! i) :: <[i := y]> h ≡ₚ y :: h.
Proof.
  revert i. induction h as [|x h IH]; intros [|i] Hi; simpl in *; try lia.
  - by apply Permutation_swap.
  - rewrite Permutation_swap. rewrite (Permutation_swap x y). by rewrite IH by lia.
Qed.

Lemma swap_Permutation h i j :
  i < length h → j < length h → swap h i j ≡ₚ h.
Proof.
  intros Hi Hj. unfold swap.
  apply (Permutation_cons_inv (a := h !!! i)).
  assert (<[j := h !!! i]> h !!! i = h !!! i) as Hij.
  { destruct (decide (i = j)) as [->|].
    - by rewrite list_lookup_total_insert_eq.
    - by rewrite list_lookup_total_insert_ne. }
  rewrite <-Hij at 1. rewrite insert_Permutation by by rewrite length_insert.
  by apply insert_Permutation.
Qed.

(** *** Moving the hole *)

Lemma hole_up s p h :
  p < length h → s < p → below s p →
  lt (h !!! p) (h !!! parentpos p) = true →
  hole false s p h → hole false s (parentpos p) (swap h p (parentpos p)).
Proof.
  intros Hp Hs Hb Hlt [Hord Hgrand]. pose proof (parentpos_lt p ltac:(lia)) as Hq.
  pose proof (below_le _ _ (below_up _ _ Hb Hs)) as Hsq.
  split; intros j; rewrite length_swap.
  - intros Hj Hsj Hne _. unfold ordered. rewrite !lookup_swap by lia.
    pose proof (parentpos_lt j ltac:(lia)). repeat case_decide; subst; try lia; try done.
    + by apply Hgrand.
    + apply lt_le. done.
    + apply le_trans with (h !!! parentpos p); [by apply lt_le|].
      replace (parentpos p) with (parentpos j) at 1 by done. by apply Hord.
    + by apply Hord.
  - intros Hj Hpj Hsq'. rewrite !lookup_swap by lia.
    pose proof (parentpos_lt (parentpos p) ltac:(lia)).
    assert (le (h !!! parentpos (parentpos p)) (h !!! parentpos p)) as Hpp.
    { apply Hord; [lia| |lia|done]. apply below_le, below_up; [by apply below_up|lia]. }
    pose proof (parentpos_lt j ltac:(lia)).
    repeat case_decide; subst; try lia; try done.
    apply le_trans with (h !!! parentpos p); [done|]. rewrite <-Hpj at 1. apply Hord; [lia|lia|lia|done].
Qed.

Lemma smaller_child_spec h p :
  2 * p + 1 < length h →
  let c := smaller_child h p in
  parentpos c = p ∧ p < c < length h ∧
  ∀ d, 0 < d < length h → parentpos d = p → le (h !!! c) (h !!! d).
Proof.
  intros Hlt. unfold smaller_child. cbv zeta.
  assert (parentpos (2 * p + 1) = p) by (rewrite parentpos_child by lia; lia).
  assert (parentpos (2 * p + 1 + 1) = p) by (rewrite parentpos_child by lia; lia).
  assert (∀ d, 0 < d → parentpos d = p → d = 2 * p + 1 ∨ d = 2 * p + 1 + 1) as Hd.
  { intros d Hd0. rewrite parentpos_child by done. lia. }
  destruct (Nat.ltb_spec (2 * p + 1 + 1) (length h)); cbn [andb negb].
  - destruct (lt (h !!! (2 * p + 1)) (h !!! (2 * p + 1 + 1))) eqn:E; cbn [negb].
    + split; [done|]. split; [lia|]. intros d Hdl Hdp.
      destruct (Hd d ltac:(lia) Hdp) as [->| ->]; [apply le_refl|by apply lt_le].
    + split; [done|]. split; [lia|]. intros d Hdl Hdp.
      destruct (Hd d ltac:(lia) Hdp) as [->| ->]; [done|apply le_refl].
  - split; [done|]. split; [lia|]. intros d Hdl Hdp.
    destruct (Hd d ltac:(lia) Hdp) as [->| ->]; [apply le_refl|lia].
Qed.

Lemma hole_down s p c h :
  s ≤ p → parentpos c = p → p < c < length h →
  (∀ d, 0 < d < length h → parentpos d = p → le (h !!! c) (h !!! d)) →
  hole true s p h → hole true s c (swap h p c).
Proof.
  intros Hs Hcp Hc Hmin [Hord Hgrand]. split; intros j; rewrite length_swap.
  - intros Hj Hsj Hne Hnp. specialize (Hnp eq_refl). unfold ordered.
    rewrite !lookup_swap by lia. pose proof (parentpos_lt j ltac:(lia)).
    repeat case_decide; subst; try lia; try done.
    + by apply Hmin.
    + apply Hgrand; [lia|done|lia].
    + apply Hord; [lia|lia|lia|done].
  - intros Hj Hpj Hsc. rewrite !lookup_swap by lia. rewrite Hcp.
    pose proof (parentpos_lt j ltac:(lia)).
    repeat case_decide; subst; try lia; try done.
    apply Hord; lia.
Qed.

(** *** The sift operations restore the order and keep the elements *)

Lemma swap_set h x p q :
  p < length h → q < length h → p ≠ q →
  <[q := x]> (<[p := h !!! q]> h) = swap (<[p := x]> h) p q.
Proof.
  intros. unfold swap. rewrite list_lookup_total_insert_eq by done.
  rewrite list_lookup_total_insert_ne by done.
  rewrite (list_insert_insert_ne (<[p := x]> h) p q) by done.
  by rewrite list_insert_insert_eq.
Qed.

Lemma siftdown_loop_spec fuel h x s p :
  p < length h → p ≤ fuel → below s p → hole false s p (<[p := x]> h) →
  heap_from s (siftdown_loop fuel h x s p) ∧
  siftdown_loop fuel h x s p ≡ₚ <[p := x]> h.
Proof.
  revert h p. induction fuel as [|fuel IH]; intros h p Hp Hf Hb Hh.
  { split; [|done]. replace p with 0 in * by lia. simpl.
    intros j Hj Hs. apply (proj1 Hh); [done|done|lia|done]. }
  simpl. destruct (Nat.ltb_spec s p).
  - pose proof (parentpos_lt p ltac:(lia)). set (q := parentpos p) in *.
    destruct (lt x (h !!! q)) eqn:E.
    + pose proof (swap_set h x p q Hp ltac:(lia) ltac:(lia)) as Hsw.
      destruct (IH (<[p := h !!! q]> h) q) as [Hheap Hperm].
      * rewrite length_insert. lia.
      * lia.
      * by apply below_up.
      * rewrite Hsw. apply hole_up; [by rewrite length_insert|done|done| |done].
        rewrite list_lookup_total_insert_eq, list_lookup_total_insert_ne by (fold q; lia). done.
      * split; [done|]. rewrite Hperm, Hsw. apply swap_Permutation; rewrite length_insert; lia.
    + split; [|done]. intros j Hj Hs. destruct (decide (j = p)) as [->|].
      * unfold ordered. rewrite list_lookup_total_insert_eq by done.
        rewrite list_lookup_total_insert_ne by (fold q; lia). done.
      * by apply (proj1 Hh).
  - split; [|done]. pose proof (below_le _ _ Hb). intros j Hj Hs.
    apply (proj1 Hh); [done|done| |done]. intros ->. pose proof (parentpos_lt p ltac:(lia)). lia.
Qed.

Lemma siftdown_spec h s p :
  p < length h → below s p → hole false s p h →
  heap_from s (siftdown h s p) ∧ siftdown h s p ≡ₚ h.
Proof.
  intros Hp Hb Hh. unfold siftdown.
  assert (<[p := h !!! p]> h = h) as Hid.
  { apply list_insert_id. by apply list_lookup_lookup_total_lt. }
  rewrite <-Hid in Hh. destruct (siftdown_loop_spec p h (h !!! p) s p) as [? HP]; try done.
  by rewrite Hid in HP.
Qed.

Lemma siftup_loop_spec fuel h x s p :
  p < length h → length h ≤ p + fuel → below s p → hole true s p (<[p := x]> h) →
  let '(h', leaf) := siftup_loop fuel h p in
  leaf < length h' ∧ below s leaf ∧ hole false s leaf (<[leaf := x]> h') ∧
  <[leaf := x]> h' ≡ₚ <[p := x]> h.
Proof.
  revert h p. induction fuel as [|fuel IH]; intros h p Hp Hf Hb Hh; [lia|].
  cbn [siftup_loop]. destruct (Nat.ltb_spec (2 * p + 1) (length h)) as [Hc|Hc].
  - destruct (smaller_child_spec h p Hc) as (Hcp & Hcr & Hmin).
    set (c := smaller_child h p) in *.
    pose proof (swap_set h x p c Hp ltac:(lia) ltac:(lia)) as Hsw.
    specialize (IH (<[p := h !!! c]> h) c). rewrite length_insert, Hsw in IH.
    destruct (siftup_loop fuel (<[p := h !!! c]> h) c) as [h' leaf].
    destruct IH as (Hl & Hbl & Hhl & HPl).
    + lia.
    + lia.
    + apply below_step; [lia|]. by rewrite Hcp.
    + apply hole_down; try done.
      * by apply below_le.
      * by rewrite length_insert.
      * intros d. rewrite length_insert. intros Hd Hdp. pose proof (parentpos_lt d).
        rewrite !list_lookup_total_insert_ne by lia. by apply Hmin.
    + split; [done|]. split; [done|]. split; [done|]. rewrite HPl. apply swap_Permutation; rewrite length_insert; lia.
  - split; [done|]. split; [done|]. split; [|done]. split; [|apply Hh].
    intros j Hj Hs Hne _. apply (proj1 Hh); try done. intros _ Hpj.
    rewrite length_insert in Hj. apply parentpos_child in Hpj; lia.
Qed.

Lemma siftup_spec h p :
  p < length h → heap_from (S p) h → heap_from p (siftup h p) ∧ siftup h p ≡ₚ h.
Proof.
  intros Hp Hh. unfold siftup.
  assert (<[p := h !!! p]> h = h) as Hid.
  { apply list_insert_id. by apply list_lookup_lookup_total_lt. }
  pose proof (siftup_loop_spec (length h) h (h !!! p) p p Hp ltac:(lia) (below_refl p)) as Hs.
  rewrite Hid in Hs. destruct (siftup_loop (length h) h p) as [h' leaf].
  destruct Hs as (Hl & Hb & Hhl & HPl).
  - split; [|lia]. intros j Hj Hpj Hne Hnp. apply Hh; [done|].
    specialize (Hnp eq_refl). lia.
  - destruct (siftdown_spec (<[leaf := h !!! p]> h') p leaf) as [? HP]; try done.
    + by rewrite length_insert.
    + split; [done|]. by rewrite HP.
Qed.

(** ** The library functions *)

Lemma below_0 p : below 0 p.
Proof.
  induction p as [p IH] using lt_wf_ind. destruct p as [|p]; [constructor|].
  apply below_step; [lia|]. apply IH, parentpos_lt. lia.
Qed.

Lemma heappush_spec h x : is_heap h → is_heap (heappush h x) ∧ heappush h x ≡ₚ x :: h.
Proof.
  intros Hh. unfold heappush.
  destruct (siftdown_spec (h ++ [x]) 0 (length (h ++ [x]) - 1)) as [? HP].
  - rewrite length_app. simpl. lia.
  - apply below_0.
  - rewrite length_app. simpl. split.
    + intros j Hj _ Hne _. rewrite length_app in Hj. simpl in Hj.
      pose proof (parentpos_lt j ltac:(lia)). unfold ordered.
      rewrite !lookup_total_app_l by lia. apply Hh; lia.
    + intros c Hc Hpc. rewrite length_app in Hc. simpl in Hc.
      pose proof (parentpos_lt c ltac:(lia)). lia.
  - split; [done|]. rewrite HP. by rewrite Permutation_app_comm.
Qed.

Lemma heap_root_min h j : is_heap h → j < length h → le (h !!! 0) (h !!! j).
Proof.
  intros Hh. induction j as [j IH] using lt_wf_ind. intros Hj.
  destruct (decide (j = 0)) as [->|]; [apply le_refl|].
  pose proof (parentpos_lt j ltac:(lia)).
  apply le_trans with (h !!! parentpos j); [apply IH; lia|]. apply Hh; lia.
Qed.

Lemma heappop_spec h :
  is_heap h → h ≠ [] →
  ∃ x h', heappop h = Some (x, h') ∧ x :: h' ≡ₚ h ∧ is_heap h' ∧ ∀ y, y ∈ h → le x y.
Proof.
  intros Hh Hne. unfold heappop. destruct (reverse h) as [|lastelt rest] eqn:Hr.
  { apply (f_equal reverse) in Hr. by rewrite reverse_involutive in Hr. }
  assert (h = reverse rest ++ [lastelt]) as ->.
  { apply (f_equal reverse) in Hr. rewrite reverse_involutive, reverse_cons in Hr. done. }
  assert (∀ y, y ∈ reverse rest ++ [lastelt] →
    le ((reverse rest ++ [lastelt]) !!! 0) y) as Hmin.
  { intros y (i & Hi)%list_elem_of_lookup. pose proof (lookup_lt_Some _ _ _ Hi).
    apply list_lookup_total_correct in Hi as <-. by apply heap_root_min. }
  destruct (reverse rest) as [|r tl] eqn:Htl; simpl in *.
  { exists lastelt, []. repeat split; try done. intros j Hj. simpl in Hj. lia. }
  destruct (siftup_spec (lastelt :: tl) 0) as [Hheap HP].
  - simpl. lia.
  - intros j Hj Hpj. pose proof (parentpos_lt j ltac:(lia)).
    specialize (Hh j). unfold ordered in *. simpl in *. rewrite length_app in Hh. simpl in Hh.
    destruct j as [|j]; [lia|]. destruct (parentpos (S j)) as [|q]; [lia|]. simpl in *.
    rewrite !lookup_total_app_l in Hh by lia. apply Hh; lia.
  - exists r, (siftup (lastelt :: tl) 0). repeat split; try done.
    rewrite HP. f_equiv. by rewrite Permutation_app_comm.
Qed.

Lemma heapify_loop_spec k h :
  k ≤ length h → heap_from k h →
  heap_from 0 (foldl siftup h (reverse (seq 0 k))) ∧ foldl siftup h (reverse (seq 0 k)) ≡ₚ h.
Proof.
  revert h. induction k as [|k IH]; intros h Hk Hh; [done|].
  rewrite seq_S, reverse_app. simpl.
  destruct (siftup_spec h k ltac:(lia) Hh) as [Hs HP].
  destruct (IH (siftup h k)) as [? HP']; [by rewrite HP; lia|done|].
  split; [done|]. by rewrite HP'.
Qed.

Lemma heapify_spec h : is_heap (heapify h) ∧ heapify h ≡ₚ h.
Proof.
  unfold heapify. apply heapify_loop_spec.
  - pose proof (Nat.div_mod_eq (length h) 2). lia.
  - intros j Hj Hp. pose proof (parentpos_lt j ltac:(lia)).
    pose proof (Nat.div_mod_eq (length h) 2). pose proof (Nat.mod_upper_bound (length h) 2).
    unfold parentpos in Hp. pose proof (Nat.div_mod_eq (j - 1) 2). lia.
Qed.
End heapq.
