(* ===== verification/TreeNode.v ===== *)
(** * Tree nodes, their heap, and the eviction strategies

    [TreeNode] of [mem_cache/radix_cache.py] as a record in a heap of objects
    (nodes point to their parent and to their children, and requests keep
    references to nodes, so nodes are shared and mutated in place), the
    eviction strategies of [mem_cache/evict_policy.py] with their factory, and
    [split_node_hash_value] of [mem_cache/utils.py]. *)

From S2P Require Import Prelude RadixKey.

(** A reference to a node: the value of [TreeNode.counter] when it was made. *)
Abbreviation node_id := nat (only parsing).

Record TreeNode := mkTreeNode {
  children : list (pyval * node_id);
  parent : option node_id;
  key : RadixKey;
  value : option (list Z);
  lock_ref : Z;
  last_access_time : Z;
  creation_time : Z;
  hit_count : Z;
  host_ref_counter : Z;
  host_value : option (list Z);
  write_through_pending_id : option Z;
  hash_value : option (list string);
  event_hash_value : option (list string);
  priority : Z;
}.

(** The key of a node that has none yet.  The source starts with [None] and
    assigns the key before anything reads it. *)
Definition empty_key : RadixKey := RadixKey_init [] None false None None.

(** [TreeNode.__init__] outside of the counter: [t1] and [t2] are its two
    readings of the clock. *)
Definition TreeNode_init (t1 t2 prio : Z) : TreeNode :=
  {| children := []; parent := None; key := empty_key; value := None; lock_ref := 0;
     last_access_time := t1; creation_time := t2; hit_count := 0;
     host_ref_counter := 0; host_value := None; write_through_pending_id := None;
     hash_value := None; event_hash_value := None; priority := prio |}.

#[export] Instance TreeNode_inhabited : Inhabited TreeNode := populate (TreeNode_init 0 0 0).

(** Attribute assignments. *)
Section setters.
Context (n : TreeNode).
Definition set_children x := mkTreeNode x (parent n) (key n) (value n) (lock_ref n) (last_access_time n) (creation_time n) (hit_count n) (host_ref_counter n) (host_value n) (write_through_pending_id n) (hash_value n) (event_hash_value n) (priority n).
Definition set_parent x := mkTreeNode (children n) x (key n) (value n) (lock_ref n) (last_access_time n) (creation_time n) (hit_count n) (host_ref_counter n) (host_value n) (write_through_pending_id n) (hash_value n) (event_hash_value n) (priority n).
Definition set_key x := mkTreeNode (children n) (parent n) x (value n) (lock_ref n) (last_access_time n) (creation_time n) (hit_count n) (host_ref_counter n) (host_value n) (write_through_pending_id n) (hash_value n) (event_hash_value n) (priority n).
Definition set_value x := mkTreeNode (children n) (parent n) (key n) x (lock_ref n) (last_access_time n) (creation_time n) (hit_count n) (host_ref_counter n) (host_value n) (write_through_pending_id n) (hash_value n) (event_hash_value n) (priority n).
Definition set_lock_ref x := mkTreeNode (children n) (parent n) (key n) (value n) x (last_access_time n) (creation_time n) (hit_count n) (host_ref_counter n) (host_value n) (write_through_pending_id n) (hash_value n) (event_hash_value n) (priority n).
Definition set_last_access_time x := mkTreeNode (children n) (parent n) (key n) (value n) (lock_ref n) x (creation_time n) (hit_count n) (host_ref_counter n) (host_value n) (write_through_pending_id n) (hash_value n) (event_hash_value n) (priority n).
Definition set_hit_count x := mkTreeNode (children n) (parent n) (key n) (value n) (lock_ref n) (last_access_time n) (creation_time n) x (host_ref_counter n) (host_value n) (write_through_pending_id n) (hash_value n) (event_hash_value n) (priority n).
Definition set_host_ref_counter x := mkTreeNode (children n) (parent n) (key n) (value n) (lock_ref n) (last_access_time n) (creation_time n) (hit_count n) x (host_value n) (write_through_pending_id n) (hash_value n) (event_hash_value n) (priority n).
Definition set_host_value x := mkTreeNode (children n) (parent n) (key n) (value n) (lock_ref n) (last_access_time n) (creation_time n) (hit_count n) (host_ref_counter n) x (write_through_pending_id n) (hash_value n) (event_hash_value n) (priority n).
Definition set_hash_value x := mkTreeNode (children n) (parent n) (key n) (value n) (lock_ref n) (last_access_time n) (creation_time n) (hit_count n) (host_ref_counter n) (host_value n) (write_through_pending_id n) x (event_hash_value n) (priority n).
Definition set_event_hash_value x := mkTreeNode (children n) (parent n) (key n) (value n) (lock_ref n) (last_access_time n) (creation_time n) (hit_count n) (host_ref_counter n) (host_value n) (write_through_pending_id n) (hash_value n) x (priority n).
Definition set_priority x := mkTreeNode (children n) (parent n) (key n) (value n) (lock_ref n) (last_access_time n) (creation_time n) (hit_count n) (host_ref_counter n) (host_value n) (write_through_pending_id n) (hash_value n) (event_hash_value n) x.
End setters.

Definition evicted (n : TreeNode) : bool := bool_decide (value n = None).
Definition backuped (n : TreeNode) : bool := bool_decide (host_value n ≠ None).

Definition protect_host (n : TreeNode) : TreeNode :=
  set_host_ref_counter n (host_ref_counter n + 1).

Definition release_host (n : TreeNode) : res TreeNode :=
  if host_ref_counter n >? 0 then Ok (set_host_ref_counter n (host_ref_counter n - 1))
  else Err RuntimeError.

Definition get_last_hash_value (n : TreeNode) : option string :=
  match hash_value n with
  | None => None
  | Some hs => last hs
  end.

(** [__lt__] *)
Definition node_lt (n m : TreeNode) : bool := last_access_time n <? last_access_time m.

(** The heap of node objects.  Nodes taken out of the tree stay allocated while
    somebody refers to them, so nothing is ever removed. *)
Abbreviation heap := (gmap nat TreeNode).

Definition get_node (h : heap) (i : node_id) : res TreeNode :=
  match h !! i with Some n => Ok n | None => Err AttributeError end.

(** [node.get_prefix_hash_values(node)]: the hashes on the path down to [node]. *)
Fixpoint get_prefix_hash_values (fuel : nat) (h : heap) (i : option node_id) : res (list string) :=
  match fuel, i with
  | _, None => Ok []
  | O, _ => Err OutOfFuel
  | S fuel, Some i =>
      n ← get_node h i;
      match hash_value n with
      | None => Ok []
      | Some hs => up ← get_prefix_hash_values fuel h (parent n); Ok (up ++ hs)
      end
  end.

Definition split_node_hash_value (child_hash_value : option (list string)) (split_len page_size : Z)
    : option (list string) * option (list string) :=
  match child_hash_value with
  | None => (None, None)
  | Some hs =>
      let split_pages := if page_size =? 1 then split_len else split_len / page_size in
      (Some (slice_to hs split_pages), Some (slice_from hs split_pages))
  end.

(** ** Eviction strategies *)

Inductive EvictionStrategy :=
| LRUStrategy
| LFUStrategy
| FIFOStrategy
| MRUStrategy
| FILOStrategy
| PriorityStrategy
| SLRUStrategy (protected_threshold : Z).

(** A priority is a time or a pair whose second component is a time; one
    strategy only returns one of the two shapes. *)
Inductive evict_priority :=
| PTime (t : Z)
| PPair (a t : Z).

#[export] Instance evict_priority_eq_dec : EqDecision evict_priority.
Proof. solve_decision. Defined.

#[export] Instance evict_priority_inhabited : Inhabited evict_priority := populate (PTime 0).

Definition get_priority (s : EvictionStrategy) (n : TreeNode) : evict_priority :=
  match s with
  | LRUStrategy => PTime (last_access_time n)
  | LFUStrategy => PPair (hit_count n) (last_access_time n)
  | FIFOStrategy => PTime (creation_time n)
  | MRUStrategy => PTime (- last_access_time n)
  | FILOStrategy => PTime (- creation_time n)
  | PriorityStrategy => PPair (priority n) (last_access_time n)
  | SLRUStrategy protected_threshold =>
      let is_protected := if hit_count n >=? protected_threshold then 1 else 0 in
      PPair is_protected (last_access_time n)
  end.

(** Python's [<] on priorities; a time against a pair never happens. *)
Definition priority_lt (p q : evict_priority) : bool :=
  match p, q with
  | PTime t, PTime u => t <? u
  | PPair a t, PPair b u => (a <? b) || ((a =? b) && (t <? u))
  | PTime _, PPair _ _ => true
  | PPair _ _, PTime _ => false
  end.

(** [str.lower] on ASCII text. *)
Definition lower_ascii (c : Ascii.ascii) : Ascii.ascii :=
  let n := Ascii.nat_of_ascii c in
  if (65 <=? n)%nat && (n <=? 90)%nat then Ascii.ascii_of_nat (n + 32) else c.
Fixpoint lower (s : string) : string :=
  match s with
  | EmptyString => EmptyString
  | String c s => String (lower_ascii c) (lower s)
  end.

Definition get_eviction_strategy (eviction_policy : string) : res EvictionStrategy :=
  let policy := lower eviction_policy in
  if decide (policy = "lru"%string) then Ok LRUStrategy
  else if decide (policy = "lfu"%string) then Ok LFUStrategy
  else if decide (policy = "fifo"%string) then Ok FIFOStrategy
  else if decide (policy = "mru"%string) then Ok MRUStrategy
  else if decide (policy = "filo"%string) then Ok FILOStrategy
  else if decide (policy = "priority"%string) then Ok PriorityStrategy
  else if decide (policy = "slru"%string) then Ok (SLRUStrategy 2)
  else Err ValueError.
