(* ===== verification/Allocator.v ===== *)
(** * KV-slot allocators

    [mem_cache/allocator/base.py], [token.py] and [paged.py]: the pools that hand
    out indices of KV-cache slots, one by one ([Token]) or in whole pages
    ([Paged]).  Both classes share one state record; the methods a subclass
    overrides are separate definitions in the module of the class, and a base
    method that calls an overridden one takes it as an argument.

    The contract of the pools towards the prefix cache is the class
    [KVAllocator] at the end of the file: freeing a piece of a request's row
    returns exactly the pages the piece touches. *)

From S2P Require Import Prelude.

Record Alloc := mkAlloc {
  size : Z;
  page_size : Z;
  need_sort : bool;
  debug_mode : bool;
  num_pages : Z;
  free_pages : list Z;
  release_pages : list Z;
  free_group : option (list (list Z));
  free_page_reps_group : list (list Z);
}.

Definition set_free_pages (a : Alloc) x :=
  mkAlloc (size a) (page_size a) (need_sort a) (debug_mode a) (num_pages a)
    x (release_pages a) (free_group a) (free_page_reps_group a).
Definition set_release_pages (a : Alloc) x :=
  mkAlloc (size a) (page_size a) (need_sort a) (debug_mode a) (num_pages a)
    (free_pages a) x (free_group a) (free_page_reps_group a).
Definition set_free_group (a : Alloc) x :=
  mkAlloc (size a) (page_size a) (need_sort a) (debug_mode a) (num_pages a)
    (free_pages a) (release_pages a) x (free_page_reps_group a).
Definition set_reps_group (a : Alloc) x :=
  mkAlloc (size a) (page_size a) (need_sort a) (debug_mode a) (num_pages a)
    (free_pages a) (release_pages a) (free_group a) x.

(** [torch.sort] and [torch.unique] on integer tensors. *)
Definition torch_sort (l : list Z) : list Z := merge_sort Z.le l.
Definition torch_unique (l : list Z) : list Z := torch_sort (remove_dups l).

(** ** [BaseTokenToKVPoolAllocator] *)

Module Base.
Definition available_size (a : Alloc) : Z :=
  (zlen (free_pages a) + zlen (release_pages a)) * page_size a.

Definition merge_and_sort_free (a : Alloc) : Alloc :=
  if zlen (release_pages a) >? 0 then
    set_release_pages (set_free_pages a (torch_sort (free_pages a ++ release_pages a))) []
  else a.

Definition free_group_begin (a : Alloc) : Alloc := set_free_group a (Some []).

Definition free_group_end (free : list Z → Alloc → res Alloc) (a : Alloc) : res Alloc :=
  let pending := free_group a in
  let a := set_free_group a None in
  match pending with
  | Some ((_ :: _) as ts) => free (concat ts) a
  | _ => Ok a
  end.

(** One iteration of [free_segments]: a boundary page shared with the previous
    segment is left to that segment. *)
Definition free_segments_step (free_segment : list Z → Z → Alloc → res Alloc) (ps : Z)
    (seg : list Z * Z) (st : option Z * Alloc) : res (option Z * Alloc) :=
  let '(free_index, start_pos) := seg in
  let '(prev_end, a) := st in
  let n := zlen free_index in
  if n =? 0 then Ok (prev_end, a)
  else
    let seg_end := start_pos + n in
    let shared := match prev_end with
                  | Some prev_end => start_pos / ps =? (prev_end - 1) / ps
                  | None => false
                  end in
    let boundary := (start_pos / ps + 1) * ps in
    let '(free_index, start_pos) :=
      if shared then (slice_from free_index (boundary - start_pos), boundary)
      else (free_index, start_pos) in
    a ← free_segment free_index start_pos a;
    Ok (Some seg_end, a).

Definition free_segments (free_segment : list Z → Z → Alloc → res Alloc)
    (segments : list (list Z * Z)) (a : Alloc) : res Alloc :=
  let ps := page_size a in
  '(_, a) ← for_each (free_segments_step free_segment ps) segments (None, a);
  Ok a.
End Base.

(** ** [TokenToKVPoolAllocator] *)

Module Token.
Definition clear (a : Alloc) : Alloc :=
  set_release_pages (set_free_group (set_free_pages a (zrange 1 (size a + 1))) None) [].

Definition init (size : Z) (need_sort : bool) : Alloc :=
  clear (mkAlloc size 1 need_sort false 0 [] [] None []).

Definition available_size (a : Alloc) : Z := zlen (free_pages a) + zlen (release_pages a).

Definition alloc (need_size : Z) (a : Alloc) : option (list Z) * Alloc :=
  let a := if need_sort a && (need_size >? zlen (free_pages a))
           then Base.merge_and_sort_free a else a in
  if need_size >? zlen (free_pages a) then (None, a)
  else (Some (slice_to (free_pages a) need_size),
        set_free_pages a (slice_from (free_pages a) need_size)).

Definition free (free_index : list Z) (a : Alloc) : res Alloc :=
  if zlen free_index =? 0 then Ok a
  else match free_group a with
       | None =>
           if need_sort a then Ok (set_release_pages a (release_pages a ++ free_index))
           else Ok (set_free_pages a (free_pages a ++ free_index))
       | Some ts => Ok (set_free_group a (Some (ts ++ [free_index])))
       end.

(** Inherited: [free_segment] is a plain [free]. *)
Definition free_segment (free_index : list Z) (start_pos : Z) (a : Alloc) : res Alloc :=
  free free_index a.
Definition free_segments := Base.free_segments free_segment.
Definition free_group_end := Base.free_group_end free.
End Token.

(** ** [PagedTokenToKVPoolAllocator] *)

Module Paged.
Definition clear (a : Alloc) : Alloc :=
  set_release_pages
    (set_reps_group
       (set_free_group (set_free_pages a (zrange 1 (num_pages a + 1))) None) []) [].

Definition init (size page_size : Z) (need_sort debug_mode : bool) : Alloc :=
  clear (mkAlloc size page_size need_sort debug_mode (size / page_size) [] [] None []).

(** The slots of a list of pages, [(pages[:, None] * ps + arange(ps)).reshape(-1)]. *)
Definition page_slots (ps : Z) (pages : list Z) : list Z :=
  pages ≫= λ p, (λ i, p * ps + i) <$> zrange 0 ps.

Definition alloc (need_size : Z) (a : Alloc) : res (option (list Z) * Alloc) :=
  if debug_mode a && negb (need_size mod page_size a =? 0) then Err AssertionError
  else
    let n := need_size / page_size a in
    let a := if need_sort a && (n >? zlen (free_pages a))
             then Base.merge_and_sort_free a else a in
    if n >? zlen (free_pages a) then Ok (None, a)
    else
      let out_pages := slice_to (free_pages a) n in
      Ok (Some (page_slots (page_size a) out_pages),
          set_free_pages a (slice_from (free_pages a) n)).

Definition release_page_ids (page_ids : list (list Z)) (a : Alloc) : Alloc :=
  if need_sort a then set_release_pages a (concat page_ids ++ release_pages a)
  else set_free_pages a (concat page_ids ++ free_pages a).

Definition debug_check_no_duplicate_pages (a : Alloc) : res unit :=
  let pages := free_pages a ++ release_pages a in
  if zlen (torch_unique pages) =? zlen pages then Ok tt else Err AssertionError.

(** [if self.debug_mode: self._debug_check_no_duplicate_pages()] *)
Definition debug_checked (a : Alloc) : res Alloc :=
  if debug_mode a then _ ← debug_check_no_duplicate_pages a; Ok a else Ok a.

Definition free (free_index : list Z) (a : Alloc) : res Alloc :=
  if zlen free_index =? 0 then Ok a
  else
    debug_checked
      match free_group a with
      | None => release_page_ids [torch_unique ((λ i, i / page_size a) <$> free_index)] a
      | Some ts => set_free_group a (Some (ts ++ [free_index]))
      end.

Definition free_segment (free_index : list Z) (start_pos : Z) (a : Alloc) : res Alloc :=
  if zlen free_index =? 0 then Ok a
  else
    let ps := page_size a in
    let offset := start_pos mod ps in
    let pieces :=
      if offset =? 0 then [stride_from free_index 0 ps]
      else [slice_to free_index 1; stride_from free_index (ps - offset) ps] in
    let page_ids := (λ p : list Z, (λ i, i / ps) <$> p) <$> pieces in
    if debug_mode a &&
       negb (bool_decide (torch_sort (concat page_ids) =
                          torch_unique ((λ i, i / ps) <$> free_index)))
    then Err AssertionError
    else match free_group a with
         | None => debug_checked (release_page_ids page_ids a)
         | Some _ => Ok (set_reps_group a (free_page_reps_group a ++ pieces))
         end.

Definition free_segments := Base.free_segments free_segment.

Definition free_group_begin (a : Alloc) : Alloc :=
  set_reps_group (Base.free_group_begin a) [].

Definition free_group_end (a : Alloc) : res Alloc :=
  a ← Base.free_group_end free a;
  let a := match free_page_reps_group a with
           | [] => a
           | ts => set_reps_group
                     (release_page_ids [(λ i, i / page_size a) <$> concat ts] a) []
           end in
  debug_checked a.
End Paged.

(** ** Rows and the pages they touch *)

Section pages.
Context (ps : Z).
Hypothesis Hps : 0 < ps.

(** The KV row of a request is laid out on the pages [P]: position [i] of the
    row is slot [i mod ps] of the page number [i / ps] of [P]. *)
Definition row_layout (P row : list Z) : Prop :=
  ∀ i x, row !! i = Some x →
    ∃ p, P !! Z.to_nat (Z.of_nat i / ps) = Some p ∧ x = p * ps + Z.of_nat i mod ps.

(** The pages under the positions [s, e) of a row. *)
Definition touched (P : list Z) (s e : Z) : list Z :=
  if s <? e then
    take (Z.to_nat ((e + ps - 1) / ps - s / ps)) (drop (Z.to_nat (s / ps)) P)
  else [].

Lemma row_layout_page P row i x :
  row_layout P row → row !! i = Some x → P !! Z.to_nat (Z.of_nat i / ps) = Some (x / ps).
Proof.
  intros HR Hx. destruct (HR i x Hx) as (p & Hp & ->).
  rewrite Z.div_add_l, (Z.div_small (_ mod _)), Z.add_0_r by
    (try lia; apply Z.mod_pos_bound; lia). done.
Qed.

Lemma lookup_every {A} fuel s (l : list A) k :
  (0 < s)%nat → (length l ≤ fuel)%nat → every fuel s l !! k = l !! (k * s)%nat.
Proof.
  intros Hs. revert l k. induction fuel as [|fuel IH]; intros l k Hl.
  { destruct l; simpl in *; [done|lia]. }
  destruct l as [|x l]; [done|]. destruct k as [|k]; [done|].
  cbn [every lookup list_lookup]. rewrite IH.
  - rewrite lookup_drop. done.
  - rewrite length_drop. simpl in *. lia.
Qed.

Lemma lookup_stride {A} (l : list A) a s k :
  0 ≤ a → 0 < s → stride_from l a s !! k = l !! (Z.to_nat a + k * Z.to_nat s)%nat.
Proof.
  intros. unfold stride_from. rewrite slice_from_drop by done.
  rewrite lookup_every; [|lia|rewrite length_drop; lia]. by rewrite lookup_drop.
Qed.

Lemma length_touched P s e :
  0 ≤ s < e → e ≤ zlen P * ps →
  length (touched P s e) = Z.to_nat ((e + ps - 1) / ps - s / ps).
Proof.
  intros Hs He. unfold touched. destruct (Z.ltb_spec s e); [|lia].
  rewrite length_take, length_drop. unfold zlen in *.
  assert ((e + ps - 1) / ps ≤ Z.of_nat (length P)).
  { assert ((e + ps - 1) / ps < Z.of_nat (length P) + 1); [|lia].
    apply Z.div_lt_upper_bound; nia. }
  assert (0 ≤ s / ps) by (apply Z.div_pos; lia).
  assert (s / ps ≤ (e + ps - 1) / ps) by (apply Z.div_le_mono; lia). lia.
Qed.

Lemma row_layout_length P row : row_layout P row → zlen row ≤ zlen P * ps.
Proof.
  intros HR. unfold zlen. destruct (length row) as [|m] eqn:Hl; [nia|].
  destruct (lookup_lt_is_Some_2 row m) as [x Hx]; [lia|].
  apply (row_layout_page P) in Hx; [|done]. apply lookup_lt_Some in Hx.
  pose proof (Z.div_mod (Z.of_nat m) ps). pose proof (Z.mod_pos_bound (Z.of_nat m) ps).
  assert (0 ≤ Z.of_nat m / ps) by (apply Z.div_pos; lia). nia.
Qed.

Lemma lookup_touched P s e k :
  0 ≤ s < e → Z.of_nat k < (e + ps - 1) / ps - s / ps →
  touched P s e !! k = P !! (Z.to_nat (s / ps) + k)%nat.
Proof.
  intros Hs Hk. unfold touched. destruct (Z.ltb_spec s e); [|lia].
  rewrite lookup_take_lt by lia. by rewrite lookup_drop.
Qed.

(** The stride slices of [free_segment] visit each touched page once. *)
Definition segment_pages (v : list Z) (s : Z) : list Z :=
  let offset := s mod ps in
  concat ((λ p : list Z, (λ i, i / ps) <$> p) <$>
    (if offset =? 0 then [stride_from v 0 ps]
     else [slice_to v 1; stride_from v (ps - offset) ps])).

Lemma lookup_slice {A} (l : list A) s e (i : nat) :
  0 ≤ s ≤ e →
  slice l s e !! i = if decide (Z.of_nat i < e - s) then l !! (Z.to_nat s + i)%nat else None.
Proof.
  intros. rewrite slice_take_drop by lia. case_decide.
  - rewrite lookup_take_lt by lia. by rewrite lookup_drop.
  - by rewrite lookup_take_ge by lia.
Qed.

Lemma row_page_lookup P row (i : nat) :
  row_layout P row → Z.of_nat i < zlen row →
  (λ x, x / ps) <$> row !! i = P !! Z.to_nat (Z.of_nat i / ps).
Proof.
  intros HR Hi. destruct (lookup_lt_is_Some_2 row i) as [x Hx]; [unfold zlen in *; lia|].
  rewrite Hx. simpl. symmetry. by apply (row_layout_page P row).
Qed.

(** The representatives taken from a page boundary on are the pages from there. *)
Lemma stride_pages P row s e a (k : nat) :
  row_layout P row → 0 ≤ s < e → e ≤ zlen row → 0 ≤ a → (s + a) mod ps = 0 →
  ((λ x, x / ps) <$> stride_from (slice row s e) a ps) !! k =
  if decide ((s + a) / ps + Z.of_nat k < (e + ps - 1) / ps)
  then P !! Z.to_nat ((s + a) / ps + Z.of_nat k) else None.
Proof.
  intros HR Hs He Ha Hm. rewrite list_lookup_fmap, lookup_stride, lookup_slice by lia.
  pose proof (Z.div_mod (s + a) ps).
  pose proof (Z.div_mod (e + ps - 1) ps). pose proof (Z.mod_pos_bound (e + ps - 1) ps).
  assert (Z.of_nat (Z.to_nat a + k * Z.to_nat ps) = a + Z.of_nat k * ps) as Hidx by lia.
  repeat case_decide; try done; try (exfalso; nia).
  rewrite (row_page_lookup P) by (done || lia). do 2 f_equal.
  replace (Z.of_nat (Z.to_nat s + (Z.to_nat a + k * Z.to_nat ps)))
    with (s + a + Z.of_nat k * ps) by lia.
  by rewrite Z.div_add by lia.
Qed.

Lemma segment_pages_touched P row s e :
  row_layout P row → 0 ≤ s < e → e ≤ zlen row →
  segment_pages (slice row s e) s = touched P s e.
Proof.
  intros HR Hs He. pose proof (row_layout_length P row HR) as HP.
  pose proof (Z.div_mod s ps). pose proof (Z.mod_pos_bound s ps).
  pose proof (Z.div_mod (e + ps - 1) ps). pose proof (Z.mod_pos_bound (e + ps - 1) ps).
  assert (0 ≤ s / ps) by (apply Z.div_pos; lia).
  assert (∀ k : nat, ¬ s / ps + Z.of_nat k < (e + ps - 1) / ps → touched P s e !! k = None) as Hend.
  { intros k Hk. apply lookup_ge_None. rewrite length_touched by lia. lia. }
  unfold segment_pages. cbv zeta. destruct (Z.eqb_spec (s mod ps) 0);
    simpl; rewrite app_nil_r; apply list_eq; intros k.
  - rewrite (stride_pages P) by (try done; try lia; by rewrite Z.add_0_r).
    rewrite Z.add_0_r. case_decide; [|by rewrite Hend].
    rewrite lookup_touched by lia. f_equal. lia.
  - assert (s + (ps - s mod ps) = (s / ps + 1) * ps) as Hnext by lia.
    assert (slice_to (slice row s e) 1 !! 0%nat = row !! Z.to_nat s) as Hhd.
    { rewrite slice_to_take, lookup_take_lt, lookup_slice by lia.
      rewrite decide_True by lia. f_equal. lia. }
    pose proof (row_page_lookup P row (Z.to_nat s) HR ltac:(lia)) as Hpg.
    rewrite <-Hhd, Z2Nat.id in Hpg by lia.
    assert (length (slice_to (slice row s e) 1) = 1%nat) as Hlen.
    { rewrite slice_to_take, slice_take_drop, length_take, length_take, length_drop by lia.
      unfold zlen in *. lia. }
    destruct (slice_to (slice row s e) 1) as [|x [|]]; simpl in *; try lia.
    destruct k as [|k]; simpl.
    + rewrite lookup_touched by (try lia; nia). by rewrite Nat.add_0_r, <-Hpg.
    + rewrite (stride_pages P) by (try done; try lia; rewrite Hnext; apply Z.mod_mul; lia).
      rewrite Hnext, Z.div_mul by lia. case_decide; [|by rewrite Hend by lia].
      rewrite lookup_touched by lia. f_equal. lia.
Qed.

Lemma touched_sublist P s e : touched P s e `sublist_of` P.
Proof.
  unfold touched. case_match; [|apply sublist_nil_l].
  etrans; [apply sublist_take|apply sublist_drop].
Qed.

Lemma elem_of_touched P row s e p :
  row_layout P row → 0 ≤ s ≤ e → e ≤ zlen row →
  p ∈ touched P s e ↔ p ∈ (λ i, i / ps) <$> slice row s e.
Proof.
  intros HR Hs He. pose proof (row_layout_length P row HR).
  destruct (Z.le_gt_cases e s).
  { unfold touched. destruct (Z.ltb_spec s e); [lia|]. by rewrite slice_empty by lia. }
  assert (0 ≤ s / ps) by (apply Z.div_pos; lia).
  pose proof (Z.div_mod s ps). pose proof (Z.mod_pos_bound s ps).
  pose proof (Z.div_mod (e + ps - 1) ps). pose proof (Z.mod_pos_bound (e + ps - 1) ps).
  rewrite !list_elem_of_lookup. split; intros [k Hk].
  - pose proof (lookup_lt_Some _ _ _ Hk) as Hlt. rewrite length_touched in Hlt by lia.
    rewrite lookup_touched in Hk by lia.
    set (i := Z.max s ((s / ps + Z.of_nat k) * ps)).
    assert (s ≤ i < e ∧ i / ps = s / ps + Z.of_nat k) as [Hi Hid].
    { subst i. split; [nia|]. destruct (Z.max_spec s ((s / ps + Z.of_nat k) * ps)) as [[? ->]|[? ->]].
      - by rewrite Z.div_mul by lia.
      - assert (Z.of_nat k = 0) by nia. lia. }
    exists (Z.to_nat (i - s)). rewrite list_lookup_fmap, lookup_slice by lia.
    rewrite decide_True by lia. rewrite (row_page_lookup P) by (done || lia).
    rewrite <-Hk. f_equal.
    replace (Z.of_nat (Z.to_nat s + Z.to_nat (i - s))) with i by lia. lia.
  - rewrite list_lookup_fmap, lookup_slice in Hk by lia. case_decide; [|done].
    rewrite (row_page_lookup P) in Hk by (done || lia).
    set (i := Z.of_nat (Z.to_nat s + k)) in *.
    assert (s / ps ≤ i / ps) by (apply Z.div_le_mono; lia).
    pose proof (Z.div_mod i ps). pose proof (Z.mod_pos_bound i ps).
    exists (Z.to_nat (i / ps - s / ps)). rewrite lookup_touched by nia.
    rewrite <-Hk. f_equal. lia.
Qed.

(** For a row on distinct pages, the pages touched are what [torch.unique]
    computes from the slots, up to order. *)
Lemma torch_sort_Permutation l : torch_sort l ≡ₚ l.
Proof. apply merge_sort_Permutation. Qed.

Lemma torch_sort_eq l k : l ≡ₚ k → torch_sort l = torch_sort k.
Proof.
  intros HP. apply (Sorted_unique Z.le); try (apply Sorted_merge_sort; apply _).
  by rewrite !torch_sort_Permutation.
Qed.

Lemma torch_unique_touched P row s e :
  row_layout P row → NoDup (touched P s e) → 0 ≤ s ≤ e → e ≤ zlen row →
  torch_unique ((λ i, i / ps) <$> slice row s e) = torch_sort (touched P s e).
Proof.
  intros HR HP Hs He. apply torch_sort_eq, NoDup_Permutation.
  - apply NoDup_remove_dups.
  - done.
  - intros p. rewrite elem_of_remove_dups. symmetry. by apply elem_of_touched.
Qed.
End pages.

Lemma touched_1 P row s e :
  row_layout 1 P row → 0 ≤ s ≤ e → e ≤ zlen row → touched 1 P s e = slice row s e.
Proof.
  intros HR Hs He. destruct (Z.le_gt_cases e s).
  { unfold touched. destruct (Z.ltb_spec s e); [lia|]. by rewrite slice_empty by lia. }
  rewrite <-(segment_pages_touched 1 ltac:(lia) P row) by (done || lia).
  unfold segment_pages. rewrite Z.mod_1_r. simpl. rewrite app_nil_r.
  apply list_eq. intros k. rewrite list_lookup_fmap, lookup_stride by lia.
  replace (Z.to_nat 0 + k * Z.to_nat 1)%nat with k by lia.
  destruct (slice row s e !! k); simpl; [by rewrite Z.div_1_r|done].
Qed.

(** ** The contract of an allocator *)

(** The pages that a sequence of ascending ranges of one row gives back: a page
    shared with the previous range is not given back again. *)
Fixpoint touched_ranges (ps : Z) (P : list Z) (prev : option Z) (ranges : list (Z * Z))
    : list Z :=
  match ranges with
  | [] => []
  | (s, e) :: ranges =>
      if s =? e then touched_ranges ps P prev ranges
      else
        let shared := match prev with
                      | Some pe => s / ps =? (pe - 1) / ps
                      | None => false
                      end in
        touched ps P (if shared then (s / ps + 1) * ps else s) e ++
        touched_ranges ps P (Some e) ranges
  end.

Fixpoint ascending (lo : Z) (ranges : list (Z * Z)) (hi : Z) : Prop :=
  match ranges with
  | [] => lo ≤ hi
  | (s, e) :: ranges => lo ≤ s ∧ s ≤ e ∧ ascending e ranges hi
  end.

(** What the prefix cache relies on.  [pool] are the pages the allocator can hand
    out: free, released, or waiting in an open free group. *)
Class KVAllocator := {
  kv_free_segment : list Z → Z → Alloc → res Alloc;
  kv_free_segments : list (list Z * Z) → Alloc → res Alloc;
  kv_available : Alloc → Z;
  pool : Alloc → list Z;
  alloc_ok : Alloc → Prop;
  alloc_ok_ps a : alloc_ok a → 0 < page_size a;
  kv_free_segment_spec a P row s e :
    alloc_ok a → row_layout (page_size a) P row → 0 ≤ s ≤ e → e ≤ zlen row →
    NoDup (touched (page_size a) P s e ++ pool a) →
    ∃ a', kv_free_segment (slice row s e) s a = Ok a' ∧ alloc_ok a' ∧
          page_size a' = page_size a ∧
          pool a' ≡ₚ touched (page_size a) P s e ++ pool a;
  kv_free_segment_nil s a : kv_free_segment [] s a = Ok a;
  kv_free_segments_eq segs a :
    kv_free_segments segs a = Base.free_segments kv_free_segment segs a;
}.

Section free_segments.
Context `{KVAllocator}.

Lemma touched_empty ps P s e : e ≤ s → touched ps P s e = [].
Proof. intros. unfold touched. by destruct (Z.ltb_spec s e); [lia|]. Qed.

Lemma slice_from_slice {A} (l : list A) s e b :
  0 ≤ s ≤ e → s ≤ b → b ≤ e → slice_from (slice l s e) (b - s) = slice l b e.
Proof.
  intros. rewrite slice_from_drop by lia. rewrite !slice_take_drop by lia.
  rewrite skipn_firstn_comm, drop_drop. f_equal; [lia|]. f_equal. lia.
Qed.

Lemma zlen_slice {A} (l : list A) s e : 0 ≤ s ≤ e → e ≤ zlen l → zlen (slice l s e) = e - s.
Proof.
  intros. rewrite slice_take_drop by lia. unfold zlen in *.
  rewrite length_take, length_drop. lia.
Qed.

Lemma ascending_hi lo ranges hi : ascending lo ranges hi → lo ≤ hi.
Proof.
  revert lo. induction ranges as [|[s e] r IH]; simpl; intros lo; [done|].
  intros (? & ? & ?%IH). lia.
Qed.

(** The start of a range, after the page it shares with the previous one. *)
Definition range_start (ps : Z) (prev : option Z) (s : Z) : Z :=
  if match prev with Some pe => s / ps =? (pe - 1) / ps | None => false end
  then (s / ps + 1) * ps else s.

Lemma range_start_le ps prev s : 0 < ps → s ≤ range_start ps prev s.
Proof.
  intros. unfold range_start. pose proof (Z.div_mod s ps). pose proof (Z.mod_pos_bound s ps).
  case_match; lia.
Qed.

Lemma free_segments_step_spec a P row ps prev s e :
  alloc_ok a → page_size a = ps → row_layout ps P row → 0 ≤ s < e → e ≤ zlen row →
  let b := range_start ps prev s in
  NoDup (touched ps P b e ++ pool a) →
  ∃ a', Base.free_segments_step kv_free_segment ps (slice row s e, s) (prev, a) = Ok (Some e, a') ∧
        alloc_ok a' ∧ page_size a' = ps ∧ pool a' ≡ₚ touched ps P b e ++ pool a.
Proof.
  intros Hok Hps HR Hs He b Hnd. unfold Base.free_segments_step.
  pose proof (alloc_ok_ps a Hok) as Hpos. rewrite Hps in Hpos.
  pose proof (range_start_le ps prev s Hpos) as Hsb. fold b in Hsb.
  rewrite zlen_slice by lia. destruct (Z.eqb_spec (e - s) 0); [lia|].
  replace (s + (e - s)) with e by lia.
  set (shared := match prev with Some pe => _ | None => _ end).
  assert ((if shared then (slice_from (slice row s e) ((s / ps + 1) * ps - s), (s / ps + 1) * ps)
           else (slice row s e, s)) = (slice row b e, b)) as ->.
  { subst b. unfold range_start in *. fold shared in Hsb |- *. destruct shared; [|done]. f_equal.
    set (b := (s / ps + 1) * ps) in *. destruct (Z.le_gt_cases b e).
    - apply slice_from_slice; lia.
    - rewrite (slice_empty row b e) by lia. rewrite slice_from_drop by lia.
      apply drop_ge. pose proof (zlen_slice row s e). unfold zlen in *. lia. }
  destruct (Z.le_gt_cases b e).
  - destruct (kv_free_segment_spec a P row b e) as (a' & -> & ? & ? & ?);
      rewrite ?Hps; try done; try lia.
    exists a'. simpl. repeat split; try done; congruence.
  - rewrite slice_empty, kv_free_segment_nil, touched_empty by lia. by exists a.
Qed.

Lemma free_segments_loop P row ps ranges prev lo a :
  alloc_ok a → page_size a = ps → row_layout ps P row → 0 ≤ lo →
  ascending lo ranges (zlen row) →
  NoDup (touched_ranges ps P prev ranges ++ pool a) →
  ∃ pa, for_each (Base.free_segments_step kv_free_segment ps)
          ((λ '(s, e), (slice row s e, s)) <$> ranges) (prev, a) = Ok pa ∧
    alloc_ok pa.2 ∧ page_size pa.2 = ps ∧
    pool pa.2 ≡ₚ touched_ranges ps P prev ranges ++ pool a.
Proof.
  intros Hok Hps HR. revert prev lo a Hok Hps.
  induction ranges as [|[s e] ranges IH]; intros prev lo a Hok Hps Hlo Hasc Hnd; [by eexists|].
  destruct Hasc as (Hs & He & Hasc). pose proof (ascending_hi _ _ _ Hasc).
  cbn [fmap list_fmap for_each touched_ranges] in *. fold (range_start ps prev s) in *.
  destruct (Z.eqb_spec s e) as [->|].
  { unfold Base.free_segments_step at 1. rewrite slice_empty by lia. simpl.
    apply (IH prev e); (done || lia). }
  destruct (free_segments_step_spec a P row ps prev s e) as (a' & -> & Hok' & Hps' & HP);
    try (done || lia).
  { eapply sublist_NoDup; [exact Hnd|]. rewrite <-app_assoc.
    apply sublist_app; [done|]. by apply sublist_inserts_l. }
  simpl. destruct (IH (Some e) e a' Hok' Hps') as (pa & Hfor & ? & ? & HP'); [lia|done| |].
  { rewrite HP, app_assoc, (Permutation_app_comm (touched_ranges _ _ _ _)). done. }
  exists pa. split; [done|]. split; [done|]. split; [done|].
  rewrite HP', HP, !app_assoc. by rewrite (Permutation_app_comm (touched_ranges _ _ _ _)).
Qed.

(** Freeing ascending ranges of one row gives back each page they touch once,
    also when two ranges meet in the middle of a page. *)
Lemma free_segments_spec a P row ranges :
  alloc_ok a → row_layout (page_size a) P row → ascending 0 ranges (zlen row) →
  NoDup (touched_ranges (page_size a) P None ranges ++ pool a) →
  ∃ a', kv_free_segments ((λ '(s, e), (slice row s e, s)) <$> ranges) a = Ok a' ∧
        alloc_ok a' ∧ page_size a' = page_size a ∧
        pool a' ≡ₚ touched_ranges (page_size a) P None ranges ++ pool a.
Proof.
  intros. rewrite kv_free_segments_eq. unfold Base.free_segments.
  destruct (free_segments_loop P row (page_size a) ranges None 0 a)
    as ([prev' a'] & -> & ? & ? & ?); try done. by exists a'.
Qed.
End free_segments.

(** ** The two allocators fulfil the contract *)

Module TokenPool.
Definition pool (a : Alloc) : list Z :=
  free_pages a ++ release_pages a ++ concat (default [] (free_group a)).

Lemma free_pool v a :
  ∃ a', Token.free v a = Ok a' ∧ page_size a' = page_size a ∧ pool a' ≡ₚ v ++ pool a.
Proof.
  unfold Token.free. destruct (Z.eqb_spec (zlen v) 0) as [->%zlen_0|]; [by exists a|].
  destruct (free_group a) as [ts|] eqn:Hg; [|destruct (need_sort a)];
    (eexists; split; [done|]; split; [done|]); unfold pool; simpl; rewrite ?Hg; simpl.
  - rewrite concat_app. simpl. rewrite app_nil_r. solve_Permutation.
  - solve_Permutation.
  - solve_Permutation.
Qed.

Lemma token_group_end_pool a :
  ∃ a', Token.free_group_end a = Ok a' ∧ free_group a' = None ∧ pool a' ≡ₚ pool a.
Proof.
  unfold Token.free_group_end, Base.free_group_end. set (b := set_free_group a None).
  assert (∀ ts, free_group a = Some ts → concat ts ++ pool b ≡ₚ pool a) as HP.
  { intros ts E. unfold pool, b. cbn. rewrite E. cbn. rewrite app_nil_r. solve_Permutation. }
  destruct (free_group a) as [[|t ts]|] eqn:E.
  - exists b. split; [done|]. split; [done|]. by apply (HP []).
  - unfold Token.free. cbn [free_group set_free_group b need_sort].
    destruct (Z.eqb_spec (zlen (concat (t :: ts))) 0) as [Hz%zlen_0|].
    { exists b. split; [done|]. split; [done|]. rewrite <-(HP _ eq_refl), Hz. done. }
    destruct (need_sort a); eexists; (split; [done|]; split; [done|]); rewrite <-(HP _ eq_refl);
      unfold pool, b; cbn; solve_Permutation.
  - exists b. split; [done|]. split; [done|]. unfold pool, b. cbn. by rewrite E.
Qed.

#[export, program] Instance token_allocator : KVAllocator := {|
  kv_free_segment := Token.free_segment;
  kv_free_segments := Token.free_segments;
  kv_available := Token.available_size;
  Allocator.pool := pool;
  alloc_ok a := page_size a = 1;
|}.
Next Obligation. intros a H. simpl in H. lia. Qed.
Next Obligation.
  intros a P row s e Hok HR Hs He _. simpl in *. rewrite Hok in *.
  destruct (free_pool (slice row s e) a) as (a' & Ha' & Hps & HP).
  exists a'. rewrite touched_1 with (row := row) by done. repeat split; try done; congruence.
Qed.
Next Obligation. done. Qed.
Next Obligation. done. Qed.
End TokenPool.

Module PagedPool.
(** The pages behind the slots that wait in an open group. *)
Definition pending (a : Alloc) : list Z :=
  torch_unique ((λ i, i / page_size a) <$> concat (default [] (free_group a))) ++
  ((λ i, i / page_size a) <$> concat (free_page_reps_group a)).

Definition pool (a : Alloc) : list Z := free_pages a ++ release_pages a ++ pending a.

Lemma release_pool ids a : pool (Paged.release_page_ids ids a) ≡ₚ concat ids ++ pool a.
Proof. unfold Paged.release_page_ids, pool. case_match; simpl; solve_Permutation. Qed.

Lemma torch_unique_NoDup l : NoDup l → torch_unique l ≡ₚ l.
Proof.
  intros. unfold torch_unique. rewrite torch_sort_Permutation.
  apply NoDup_Permutation; [apply NoDup_remove_dups|done|].
  intros x. apply elem_of_remove_dups.
Qed.

Lemma debug_checked_ok a : NoDup (pool a) → Paged.debug_checked a = Ok a.
Proof.
  intros Hnd. unfold Paged.debug_checked, Paged.debug_check_no_duplicate_pages, zlen.
  rewrite torch_unique_NoDup; [|by unfold pool in Hnd; rewrite app_assoc in Hnd;
    apply NoDup_app in Hnd as (? & _ & _)].
  rewrite Z.eqb_refl. by destruct (debug_mode a).
Qed.

Lemma fmap_concat_div ps (ls : list (list Z)) :
  (λ i, i / ps) <$> concat ls = concat ((λ p : list Z, (λ i, i / ps) <$> p) <$> ls).
Proof. induction ls as [|l ls IH]; [done|]. simpl. by rewrite fmap_app, IH. Qed.

Lemma free_segment_pool a P row s e :
  0 < page_size a → row_layout (page_size a) P row → 0 ≤ s ≤ e → e ≤ zlen row →
  NoDup (touched (page_size a) P s e ++ pool a) →
  ∃ a', Paged.free_segment (slice row s e) s a = Ok a' ∧ page_size a' = page_size a ∧
        pool a' ≡ₚ touched (page_size a) P s e ++ pool a.
Proof.
  intros Hps HR Hs He Hnd. unfold Paged.free_segment. rewrite zlen_slice by lia.
  destruct (Z.eqb_spec (e - s) 0). { exists a. rewrite touched_empty by lia. done. }
  set (ps := page_size a) in *.
  set (pieces := if s mod ps =? 0 then _ else _). cbv zeta.
  pose proof (segment_pages_touched ps Hps P row s e HR ltac:(lia) He) as Hseg.
  unfold segment_pages in Hseg. cbv zeta in Hseg. fold pieces in Hseg. rewrite Hseg.
  rewrite torch_unique_touched with (P := P) by (try done; by apply NoDup_app in Hnd as (? & _ & _)).
  rewrite bool_decide_true by done. simpl. rewrite andb_false_r.
  destruct (free_group a) as [ts|] eqn:Hg.
  - eexists. split; [done|]. split; [done|]. unfold pool, pending. simpl. fold ps.
    rewrite concat_app, fmap_app, (fmap_concat_div ps pieces), Hseg.
    solve_Permutation.
  - set (a' := Paged.release_page_ids _ _).
    assert (pool a' ≡ₚ touched ps P s e ++ pool a) as HP.
    { subst a'. by rewrite release_pool, Hseg. }
    exists a'. rewrite debug_checked_ok by by rewrite HP.
    split; [done|]. split; [|done]. subst a'. unfold Paged.release_page_ids. by case_match.
Qed.

Lemma free_closes a :
  NoDup (pool a) → ∃ b, Base.free_group_end Paged.free a = Ok b ∧ free_group b = None ∧
    free_page_reps_group b = free_page_reps_group a ∧ page_size b = page_size a ∧ need_sort b = need_sort a ∧ pool b ≡ₚ pool a.
Proof.
  intros Hnd. unfold Base.free_group_end. set (b := set_free_group a None).
  assert (∀ ts, free_group a = Some ts →
    torch_unique ((λ i, i / page_size a) <$> concat ts) ++ pool b ≡ₚ pool a) as HP.
  { intros ts E. unfold pool, pending, b. cbn. rewrite E. cbn. solve_Permutation. }
  destruct (free_group a) as [[|t ts]|] eqn:E.
  - exists b. split_and!; try done. by apply (HP []).
  - unfold Paged.free. destruct (Z.eqb_spec (zlen (concat (t :: ts))) 0) as [Hz%zlen_0|].
    { exists b. split_and!; try done. rewrite <-(HP _ eq_refl), Hz. done. }
    cbn [free_group set_free_group b]. change (page_size b) with (page_size a).
    set (ids := torch_unique _) in *. set (b' := Paged.release_page_ids [ids] b).
    assert (pool b' ≡ₚ pool a) as HP'.
    { unfold b'. rewrite release_pool. cbn [concat]. rewrite app_nil_r. by apply (HP _ eq_refl). }
    exists b'. rewrite debug_checked_ok by (by rewrite HP').
    split_and!; try done; unfold b', Paged.release_page_ids, b; cbn; by destruct (need_sort a) eqn:?.
  - exists b. split_and!; try done. unfold pool, pending, b. cbn. by rewrite E.
Qed.

Lemma paged_group_end_pool a :
  NoDup (pool a) →
  ∃ a', Paged.free_group_end a = Ok a' ∧ free_group a' = None ∧ free_page_reps_group a' = [] ∧ pool a' ≡ₚ pool a.
Proof.
  intros Hnd. unfold Paged.free_group_end. destruct (free_closes a Hnd) as (b & -> & Hg & Hr & Hp & Hs & HP).
  cbn [mbind res_bind]. rewrite <-HP in Hnd. destruct (free_page_reps_group b) as [|t ts] eqn:E.
  { exists b. rewrite debug_checked_ok by done. done. }
  set (b' := set_reps_group _ _).
  assert (pool b' ≡ₚ pool b) as HP'.
  { unfold b', pool, pending, Paged.release_page_ids. cbn [concat]. rewrite app_nil_r.
    destruct (need_sort b); cbn [set_reps_group set_release_pages set_free_pages free_pages release_pages free_group
      free_page_reps_group page_size]; rewrite Hg, E; cbn [default concat fmap list_fmap]; rewrite app_nil_r; solve_Permutation. }
  exists b'. rewrite debug_checked_ok by (by rewrite HP'). split_and!; try done.
  - unfold b', Paged.release_page_ids. by destruct (need_sort b).
  - by rewrite HP', HP.
Qed.

#[export, program] Instance paged_allocator : KVAllocator := {|
  kv_free_segment := Paged.free_segment;
  kv_free_segments := Paged.free_segments;
  kv_available := Base.available_size;
  Allocator.pool := pool;
  alloc_ok a := 0 < page_size a;
|}.
Next Obligation. done. Qed.
Next Obligation.
  intros a P row s e Hok HR Hs He Hnd.
  destruct (free_segment_pool a P row s e) as (a' & ? & Hps & ?); try done.
  exists a'. simpl in *. repeat split; try done. by rewrite Hps.
Qed.
Next Obligation. done. Qed.
Next Obligation. done. Qed.
End PagedPool.

(** ** What a sequence of ranges gives back *)

Section ranges.
Context (ps : Z) (P row : list Z).
Hypotheses (Hps : 0 < ps) (HR : row_layout ps P row).

Lemma ceil_pred e : (e + ps - 1) / ps = (e - 1) / ps + 1.
Proof. replace (e + ps - 1) with (e - 1 + 1 * ps) by lia. by rewrite Z.div_add by lia. Qed.

(** The first page index that is not spoken for. *)
Definition next_page (prev : option Z) : Z :=
  match prev with Some pe => (pe + ps - 1) / ps | None => 0 end.

(** The end of the previous range, when there is one, is a position before [lo]. *)
Definition prev_ok (prev : option Z) (lo : Z) : Prop :=
  0 ≤ lo ∧ ∀ pe, prev = Some pe → 0 < pe ≤ lo.

Lemma prev_ok_mono prev lo lo' : lo ≤ lo' → prev_ok prev lo → prev_ok prev lo'.
Proof. intros ? [? Hp]. split; [lia|]. intros pe Hpe. specialize (Hp pe Hpe). lia. Qed.

Lemma prev_ok_Some lo e : 0 ≤ lo < e → prev_ok (Some e) e.
Proof. intros. split; [lia|]. intros pe [= <-]. lia. Qed.

Lemma range_start_next prev lo s :
  prev_ok prev lo → lo ≤ s → next_page prev ≤ range_start ps prev s / ps.
Proof.
  intros [Hlo Hprev] Hs. unfold range_start, next_page. destruct prev as [pe|].
  - specialize (Hprev pe eq_refl). rewrite ceil_pred.
    destruct (Z.eqb_spec (s / ps) ((pe - 1) / ps)) as [He|].
    + rewrite Z.div_mul by lia. lia.
    + assert ((pe - 1) / ps ≤ s / ps) by (apply Z.div_le_mono; lia). lia.
  - apply Z.div_pos; lia.
Qed.

Lemma drop_mono_sublist i j : i ≤ j → drop (Z.to_nat j) P `sublist_of` drop (Z.to_nat i) P.
Proof.
  intros. replace (Z.to_nat j) with (Z.to_nat i + (Z.to_nat j - Z.to_nat i))%nat by lia.
  rewrite <-drop_drop. apply sublist_drop.
Qed.

Lemma touched_drop_sublist b e l :
  0 ≤ b → l `sublist_of` drop (Z.to_nat ((e + ps - 1) / ps)) P →
  b / ps ≤ (e + ps - 1) / ps →
  touched ps P b e ++ l `sublist_of` drop (Z.to_nat (b / ps)) P.
Proof.
  intros Hb Hl Hle. assert (0 ≤ b / ps) by (apply Z.div_pos; lia).
  unfold touched. destruct (Z.ltb_spec b e).
  - rewrite <-(take_drop (Z.to_nat ((e + ps - 1) / ps - b / ps)) (drop (Z.to_nat (b / ps)) P)) at 2.
    apply sublist_app; [done|]. rewrite drop_drop.
    by replace (Z.to_nat (b / ps) + _)%nat with (Z.to_nat ((e + ps - 1) / ps)) by lia.
  - simpl. etrans; [exact Hl|]. by apply drop_mono_sublist.
Qed.

Lemma range_start_ceil prev s e :
  s < e → range_start ps prev s / ps ≤ (e + ps - 1) / ps.
Proof.
  intros. unfold range_start. rewrite ceil_pred.
  assert (s / ps ≤ (e - 1) / ps) by (apply Z.div_le_mono; lia).
  destruct prev; [case_match|]; rewrite ?Z.div_mul by lia; lia.
Qed.

(** No page is given back twice. *)
Lemma touched_ranges_sublist prev lo ranges :
  prev_ok prev lo → ascending lo ranges (zlen row) →
  touched_ranges ps P prev ranges `sublist_of` drop (Z.to_nat (next_page prev)) P.
Proof.
  revert prev lo. induction ranges as [|[s e] ranges IH]; intros prev lo Hprev Hasc.
  { apply sublist_nil_l. }
  destruct Hasc as (Hs & He & Hasc). cbn [touched_ranges]. fold (range_start ps prev s).
  destruct (Z.eqb_spec s e) as [->|].
  { apply (IH prev e); [|done]. by eapply prev_ok_mono. }
  destruct Hprev as [Hlo Hprev].
  pose proof (range_start_next prev lo s (conj Hlo Hprev) Hs) as Hnx.
  pose proof (range_start_le ps prev s Hps). pose proof (range_start_ceil prev s e).
  etrans; [|apply drop_mono_sublist, Hnx]. apply touched_drop_sublist; [lia| |lia].
  apply (IH (Some e) e); [|done]. apply (prev_ok_Some lo); lia.
Qed.

(** The page that holds the last position of the previous range. *)
Definition prev_page (prev : option Z) (p : Z) : Prop :=
  ∃ pe, prev = Some pe ∧ P !! Z.to_nat ((pe - 1) / ps) = Some p.

Definition in_range (p : Z) (r : Z * Z) : Prop := p ∈ touched ps P r.1 r.2.

Lemma touched_lookup p s e :
  0 ≤ s → p ∈ touched ps P s e ↔
  ∃ i, s < e ∧ s / ps ≤ i < (e + ps - 1) / ps ∧ P !! Z.to_nat i = Some p.
Proof.
  intros Hs. assert (0 ≤ s / ps) by (apply Z.div_pos; lia). unfold touched.
  destruct (Z.ltb_spec s e).
  - rewrite list_elem_of_lookup. split.
    + intros [k Hk]. pose proof (lookup_lt_Some _ _ _ Hk) as Hlt. rewrite length_take in Hlt.
      rewrite lookup_take_lt, lookup_drop in Hk by lia.
      exists (s / ps + Z.of_nat k). split; [done|]. split; [lia|]. rewrite <-Hk. f_equal. lia.
    + intros (i & _ & Hi & Hp). exists (Z.to_nat (i - s / ps)).
      rewrite lookup_take_lt, lookup_drop by lia. rewrite <-Hp. f_equal. lia.
  - rewrite elem_of_nil. split; [done|]. intros (i & ? & _). lia.
Qed.

Lemma range_start_pages prev lo s e p :
  prev_ok prev lo → lo ≤ s → s < e →
  p ∈ touched ps P (range_start ps prev s) e ∨ prev_page prev p ↔
  p ∈ touched ps P s e ∨ prev_page prev p.
Proof.
  intros [Hlo Hprev] Hs He. pose proof (range_start_le ps prev s Hps).
  rewrite !touched_lookup by lia. unfold prev_page, range_start in *.
  destruct prev as [pe|]; [|done]. specialize (Hprev pe eq_refl).
  destruct (Z.eqb_spec (s / ps) ((pe - 1) / ps)) as [Heq|]; [|done].
  rewrite Z.div_mul by lia. split.
  - intros [(i & ? & ? & ?)|?]; [left; exists i; repeat split; (lia || done)|by right].
  - intros [(i & ? & Hi & Hp)|?]; [|by right]. destruct (decide (i = s / ps)) as [->|].
    + right. exists pe. by rewrite <-Heq.
    + left. exists i. rewrite ceil_pred in *. split; [|split; [lia|done]].
      pose proof (Z.div_mod (e - 1) ps). pose proof (Z.mod_pos_bound (e - 1) ps). nia.
Qed.

Lemma elem_of_touched_ranges prev lo ranges p :
  prev_ok prev lo → ascending lo ranges (zlen row) →
  p ∈ touched_ranges ps P prev ranges ∨ prev_page prev p ↔
  Exists (in_range p) ranges ∨ prev_page prev p.
Proof.
  revert prev lo. induction ranges as [|[s e] ranges IH]; intros prev lo Hprev Hasc.
  { simpl. rewrite elem_of_nil, Exists_nil. done. }
  destruct Hasc as (Hs & He & Hasc). cbn [touched_ranges]. fold (range_start ps prev s).
  rewrite Exists_cons. destruct (Z.eqb_spec s e) as [->|].
  { rewrite (IH prev e) by (try done; by eapply prev_ok_mono).
    unfold in_range. simpl. rewrite touched_empty by lia. rewrite elem_of_nil. tauto. }
  destruct Hprev as [Hlo Hprev].
  pose proof (range_start_pages prev lo s e p (conj Hlo Hprev) Hs ltac:(lia)) as Hb.
  specialize (IH (Some e) e (prev_ok_Some lo e ltac:(lia)) Hasc).
  assert (prev_page (Some e) p → p ∈ touched ps P s e) as Hlast.
  { intros (pe & [= <-] & Hp). apply touched_lookup; [lia|]. exists ((e - 1) / ps).
    rewrite ceil_pred. split; [lia|]. split; [|done].
    assert (s / ps ≤ (e - 1) / ps) by (apply Z.div_le_mono; lia). lia. }
  rewrite elem_of_app. unfold in_range at 1. simpl. tauto.
Qed.
End ranges.

Lemma page_slots_1 pages : Paged.page_slots 1 pages = pages.
Proof.
  unfold Paged.page_slots. induction pages as [|x l IH]; [done|]. cbn [mbind list_bind]. rewrite IH.
  change (zrange 0 1) with [0]. cbn [fmap list_fmap app]. f_equal. lia.
Qed.

(** ** Whole pages *)

Lemma page_slots_cons ps p P :
  Paged.page_slots ps (p :: P) = ((λ i, p * ps + i) <$> zrange 0 ps) ++ Paged.page_slots ps P.
Proof. done. Qed.

Lemma page_slots_take_drop ps P q :
  0 < ps → 0 ≤ q →
  slice_to (Paged.page_slots ps P) (q * ps) = Paged.page_slots ps (take (Z.to_nat q) P) ∧
  slice_from (Paged.page_slots ps P) (q * ps) = Paged.page_slots ps (drop (Z.to_nat q) P).
Proof.
  intros Hps Hq. rewrite slice_to_take, slice_from_drop by nia.
  replace (Z.to_nat (q * ps)) with (Z.to_nat q * Z.to_nat ps)%nat by lia.
  generalize (Z.to_nat q) as n. clear q Hq. induction P as [|p P IH]; intros n.
  { rewrite take_nil, drop_nil. unfold Paged.page_slots. simpl. by rewrite take_nil, drop_nil. }
  destruct n as [|n]; [done|]. cbn [take drop]. rewrite !page_slots_cons.
  set (l := (λ i : Z, p * ps + i) <$> zrange 0 ps).
  assert (length l = Z.to_nat ps) as Hl.
  { unfold l, zrange. rewrite length_fmap, length_seqZ. lia. }
  destruct (IH n) as [<- <-].
  replace (S n * Z.to_nat ps)%nat with (length l + n * Z.to_nat ps)%nat by lia.
  by rewrite take_app_add, drop_app_add.
Qed.

Section whole_pages.
Context (ps : Z).
Hypothesis Hps : 0 < ps.

Lemma page_slots_app P Q : Paged.page_slots ps (P ++ Q) = Paged.page_slots ps P ++ Paged.page_slots ps Q.
Proof. unfold Paged.page_slots. by rewrite bind_app. Qed.

#[export] Instance page_slots_proper : Proper ((≡ₚ) ==> (≡ₚ)) (Paged.page_slots ps).
Proof. intros P Q HPQ. unfold Paged.page_slots. by rewrite HPQ. Qed.

Lemma length_page_slots P : length (Paged.page_slots ps P) = (length P * Z.to_nat ps)%nat.
Proof.
  induction P as [|p P IH]; [done|]. rewrite page_slots_cons, length_app, length_fmap, IH.
  unfold zrange. rewrite length_seqZ. simpl. lia.
Qed.

Lemma lookup_page_slots P (i : nat) x :
  Paged.page_slots ps P !! i = Some x →
  ∃ p, P !! Z.to_nat (Z.of_nat i / ps) = Some p ∧ x = p * ps + Z.of_nat i mod ps.
Proof.
  revert i. induction P as [|p P IH]; intros i; [done|]. rewrite page_slots_cons.
  assert (length ((λ i : Z, p * ps + i) <$> zrange 0 ps) = Z.to_nat ps) as Hl.
  { unfold zrange. rewrite length_fmap, length_seqZ. lia. }
  intros [Hx|[Hge Hx]]%lookup_app_Some.
  - pose proof (lookup_lt_Some _ _ _ Hx) as Hlt. rewrite Hl in Hlt. exists p.
    rewrite Z.div_small, Z.mod_small by lia. split; [done|].
    apply list_lookup_fmap_Some in Hx as (y & -> & Hy). unfold zrange in Hy.
    apply lookup_seqZ in Hy as [-> _]. lia.
  - rewrite Hl in Hge, Hx. destruct (IH _ Hx) as (q & Hq & ->). exists q.
    assert (Z.of_nat i = Z.of_nat (i - Z.to_nat ps) + 1 * ps) as Hi by lia.
    rewrite Hi, Z.div_add, Z.mod_add by lia. split; [|done].
    assert (0 ≤ Z.of_nat (i - Z.to_nat ps) / ps) by (apply Z.div_pos; lia).
    replace (Z.to_nat (Z.of_nat (i - Z.to_nat ps) / ps + 1)) with
      (S (Z.to_nat (Z.of_nat (i - Z.to_nat ps) / ps))) by lia. done.
Qed.

Lemma row_layout_page_slots P : row_layout ps P (Paged.page_slots ps P).
Proof. intros i x Hx. by apply lookup_page_slots. Qed.

Lemma touched_all P : touched ps P 0 (zlen (Paged.page_slots ps P)) = P.
Proof.
  unfold touched, zlen. rewrite length_page_slots. destruct P as [|p P]; [done|].
  destruct (Z.ltb_spec 0 (Z.of_nat (length (p :: P) * Z.to_nat ps))); [|simpl in *; lia].
  rewrite Z.div_0_l by lia. rewrite drop_0. apply take_ge.
  replace (Z.of_nat (length (p :: P) * Z.to_nat ps) + ps - 1) with
    (ps - 1 + Z.of_nat (length (p :: P)) * ps) by lia.
  rewrite Z.div_add, Z.div_small by lia. lia.
Qed.

Lemma NoDup_page_slots P : NoDup (Paged.page_slots ps P) → NoDup P.
Proof.
  intros Hnd. eapply NoDup_fmap_1 with (f := λ p, p * ps). eapply sublist_NoDup; [done|]. clear Hnd.
  induction P as [|p P IH]; [done|]. rewrite page_slots_cons. cbn [fmap list_fmap].
  unfold zrange. rewrite Z.sub_0_r, seqZ_cons by lia. cbn. rewrite Z.add_0_r.
  apply sublist_skip. by apply sublist_inserts_l.
Qed.
End whole_pages.

(** ** Allocation *)

(** Without sorting nothing is ever released to the second list. *)
Definition alloc_wf (a : Alloc) : Prop :=
  0 < page_size a ∧ (need_sort a = false → release_pages a = []) ∧
  free_group a = None ∧ free_page_reps_group a = [].

Lemma merge_and_sort_free_spec a :
  let a' := Base.merge_and_sort_free a in
  free_pages a' ≡ₚ free_pages a ++ release_pages a ∧ release_pages a' = [] ∧
  page_size a' = page_size a ∧ free_group a' = free_group a ∧
  free_page_reps_group a' = free_page_reps_group a ∧ need_sort a' = need_sort a ∧
  debug_mode a' = debug_mode a.
Proof.
  unfold Base.merge_and_sort_free. destruct (Z.gtb_spec (zlen (release_pages a)) 0) as [|Hz]; simpl.
  - by rewrite torch_sort_Permutation.
  - pose proof (zlen_nonneg (release_pages a)).
    assert (release_pages a = []) as -> by (apply zlen_0; lia). by rewrite app_nil_r.
Qed.

(** Taking up to [n] pages from a well-formed pool: the state after the optional
    merge holds the same pages, and all of them in the free list if it has fewer
    than [n] there. *)
Lemma merge_if_needed a n :
  alloc_wf a → 0 ≤ n →
  let a' := if need_sort a && (n >? zlen (free_pages a)) then Base.merge_and_sort_free a else a in
  alloc_wf a' ∧ page_size a' = page_size a ∧ debug_mode a' = debug_mode a ∧
  PagedPool.pool a' ≡ₚ PagedPool.pool a ∧
  (zlen (free_pages a') < n → zlen (free_pages a') = zlen (free_pages a) + zlen (release_pages a)).
Proof.
  intros (Hps & Hns & Hg & Hr) Hn.
  destruct (need_sort a) eqn:Hsort; cbn [andb].
  - destruct (Z.gtb_spec n (zlen (free_pages a))).
    + destruct (merge_and_sort_free_spec a) as (HP & Hrel & Hp & Hg' & Hr' & Hs' & Hd).
      unfold alloc_wf, PagedPool.pool, PagedPool.pending. rewrite Hp, Hg', Hr', Hs', Hrel.
      split; [by rewrite Hg, Hr|]. split; [done|]. split; [done|].
      split; [rewrite HP; solve_Permutation|]. by rewrite HP, zlen_app.
    + split; [by repeat split; rewrite ?Hsort|]. split_and!; try done. lia.
  - rewrite Hns by done. rewrite zlen_nil.
    split; [by repeat split; auto|]. split_and!; try done. lia.
Qed.

Lemma paged_alloc_spec (a : Alloc) (need_size : Z) :
  alloc_wf a → (page_size a | need_size) → 0 ≤ need_size → NoDup (PagedPool.pool a) →
  ∃ r a', Paged.alloc need_size a = Ok (r, a') ∧ alloc_wf a' ∧ page_size a' = page_size a ∧
    match r with
    | Some slots =>
        ∃ pages, slots = Paged.page_slots (page_size a) pages ∧
          zlen pages * page_size a = need_size ∧ NoDup (pages ++ PagedPool.pool a') ∧
          pages ++ PagedPool.pool a' ≡ₚ PagedPool.pool a
    | None => Base.available_size a < need_size ∧ PagedPool.pool a' ≡ₚ PagedPool.pool a
    end.
Proof.
  intros Hwf [n ->] Hn Hnd. pose proof (proj1 Hwf) as Hps. unfold Paged.alloc.
  rewrite Z.mod_mul by lia. cbn [Z.eqb negb]. rewrite andb_false_r. cbv zeta.
  rewrite Z.div_mul by lia. assert (0 ≤ n) as Hn' by nia.
  destruct (merge_if_needed a n Hwf Hn') as (Hwf' & Hps' & _ & HP & Hfull).
  set (a1 := if need_sort a && _ then _ else _) in *.
  destruct (Z.gtb_spec n (zlen (free_pages a1))).
  - do 2 eexists. split; [done|]. split; [done|]. split; [done|]. split; [|done].
    unfold Base.available_size. specialize (Hfull ltac:(lia)). nia.
  - do 2 eexists. split; [done|]. split; [done|]. split; [done|].
    exists (slice_to (free_pages a1) n). rewrite Hps'. split; [done|].
    assert (slice_to (free_pages a1) n ++ PagedPool.pool (set_free_pages a1 (slice_from (free_pages a1) n))
            ≡ₚ PagedPool.pool a) as HP'.
    { rewrite <-HP. unfold PagedPool.pool, PagedPool.pending. simpl.
      rewrite app_assoc, slice_to_from by done. done. }
    rewrite HP'. rewrite zlen_slice_to by done. split; [|done]. rewrite Z.min_l by lia. lia.
Qed.

(** ** Properties *)

(** Freeing ascending pieces of one request's row, as the prefix cache does
    for a finished request, never fails (the debug assertions included), puts
    into the pool exactly the pages that hold a slot of one of the pieces, each
    once even when two pieces meet inside a page, and leaves the pool free of
    duplicates. *)
Theorem free_segments_exact_pages `{KVAllocator} (a : Alloc) (P row : list Z)
    (ranges : list (Z * Z)) :
  alloc_ok a → row_layout (page_size a) P row → NoDup (P ++ pool a) →
  ascending 0 ranges (zlen row) →
  ∃ a' F, kv_free_segments ((λ '(s, e), (slice row s e, s)) <$> ranges) a = Ok a' ∧
    pool a' ≡ₚ F ++ pool a ∧ NoDup (pool a') ∧
    ∀ p, p ∈ F ↔ Exists (λ '(s, e), p ∈ (λ i, i / page_size a) <$> slice row s e) ranges.
Proof.
  intros Hok HR Hnd Hasc. pose proof (alloc_ok_ps a Hok) as Hps.
  set (F := touched_ranges (page_size a) P None ranges).
  assert (prev_ok None 0) as Hprev by (split; [lia|done]).
  assert (NoDup (F ++ pool a)) as HF.
  { eapply sublist_NoDup; [exact Hnd|]. apply sublist_app; [|done].
    apply (touched_ranges_sublist (page_size a) P row Hps None 0 ranges Hprev Hasc). }
  destruct (free_segments_spec a P row ranges) as (a' & Hfree & _ & _ & HP); try done.
  exists a', F. split; [done|]. split; [done|]. split; [by rewrite HP|]. intros p.
  pose proof (elem_of_touched_ranges (page_size a) P row Hps None 0 ranges p Hprev Hasc) as Hin.
  assert (¬ prev_page (page_size a) P None p) by (intros (? & ? & _); done).
  assert (p ∈ F ↔ Exists (in_range (page_size a) P p) ranges) as -> by tauto. clear -Hps HR Hasc.
  revert Hasc. assert (0 ≤ 0) as Hlo by lia. revert Hlo. generalize 0 at 2 3. intros lo Hlo Hasc.
  revert lo Hlo Hasc. induction ranges as [|[s e] ranges IH]; intros lo Hlo Hasc.
  { by rewrite !Exists_nil. }
  destruct Hasc as (? & ? & Hasc). rewrite !Exists_cons, (IH e) by (done || lia).
  unfold in_range at 1. simpl. pose proof (ascending_hi _ _ _ Hasc).
  rewrite elem_of_touched with (row := row) by (done || lia). done.
Qed.

Lemma free_segments_exact_pages_witness :
  ∃ a' (F : list Z), PagedPool.paged_allocator.(kv_free_segments)
      ((λ '(s, e), (slice [20; 21; 22; 23; 8; 9; 10] s e, s)) <$> [(1, 2); (3, 7)])
      (mkAlloc 40 4 true true 10 [1; 3] [4] None []) = Ok a' ∧ NoDup (PagedPool.pool a') ∧
      5 ∈ F.
Proof.
  destruct (@free_segments_exact_pages PagedPool.paged_allocator
    (mkAlloc 40 4 true true 10 [1; 3] [4] None []) [5; 2] [20; 21; 22; 23; 8; 9; 10]
    [(1, 2); (3, 7)]) as (a' & F & H1 & H2 & H3 & H4).
  - vm_compute. reflexivity.
  - intros i x Hx. do 7 (destruct i as [|i]; [injection Hx as <-; eexists; vm_compute; done|]).
    discriminate.
  - by_evaluation.
  - vm_compute. repeat split; congruence.
  - exists a', F. split; [exact H1|]. split; [exact H3|]. apply H4. left. vm_compute. constructor.
Defined.

(** The synchronisation-free [free_segment] of the paged pool (stride slices
    instead of [torch.unique]) frees the same pages as the plain [free]: on a
    piece of a row over distinct pages, with no group open, both succeed and the
    two resulting pools are permutations of each other. *)
Theorem free_segment_equals_free (a : Alloc) (P row : list Z) (s e : Z) :
  0 < page_size a → free_group a = None → row_layout (page_size a) P row →
  0 ≤ s ≤ e → e ≤ zlen row → NoDup (P ++ PagedPool.pool a) →
  ∃ a1 a2, Paged.free_segment (slice row s e) s a = Ok a1 ∧
           Paged.free (slice row s e) a = Ok a2 ∧
           free_pages a1 ≡ₚ free_pages a2 ∧ release_pages a1 ≡ₚ release_pages a2.
Proof.
  intros Hps Hg HR Hs He Hnd.
  assert (NoDup (touched (page_size a) P s e ++ PagedPool.pool a)) as Ht.
  { eapply sublist_NoDup; [exact Hnd|]. apply sublist_app; [|done]. apply touched_sublist. }
  assert (NoDup (touched (page_size a) P s e)) as Ht' by by apply NoDup_app in Ht as (? & _ & _).
  destruct (PagedPool.free_segment_pool a P row s e) as (a1 & Ha1 & _); try done.
  exists a1. rewrite Ha1. unfold Paged.free_segment in Ha1. unfold Paged.free.
  rewrite zlen_slice in * by lia. destruct (Z.eqb_spec (e - s) 0) as [|Hne].
  { exists a. by simplify_eq. }
  rewrite Hg in *. pose proof (segment_pages_touched (page_size a) Hps P row s e HR ltac:(lia) He) as Hseg.
  unfold segment_pages in Hseg. cbv zeta in Hseg, Ha1. rewrite Hseg in Ha1.
  rewrite torch_unique_touched with (P := P) in * by done.
  rewrite bool_decide_true in Ha1 by done. cbn [negb] in Ha1. rewrite andb_false_r in Ha1.
  rewrite PagedPool.debug_checked_ok in Ha1 by (rewrite PagedPool.release_pool, Hseg; done).
  assert (PagedPool.pool (Paged.release_page_ids [torch_sort (touched (page_size a) P s e)] a)
          ≡ₚ touched (page_size a) P s e ++ PagedPool.pool a) as HP2.
  { rewrite PagedPool.release_pool. simpl. by rewrite app_nil_r, torch_sort_Permutation. }
  rewrite PagedPool.debug_checked_ok by (by rewrite HP2).
  eexists. split; [done|]. split; [done|]. simplify_eq. unfold Paged.release_page_ids.
  destruct (need_sort a); simpl; rewrite Hseg, app_nil_r, torch_sort_Permutation; done.
Qed.

Lemma free_segment_equals_free_witness :
  ∃ a1 a2, Paged.free_segment (slice [20; 21; 22; 23; 8; 9; 10] 2 7) 2
             (mkAlloc 40 4 false true 10 [1; 3] [] None []) = Ok a1 ∧
           Paged.free (slice [20; 21; 22; 23; 8; 9; 10] 2 7)
             (mkAlloc 40 4 false true 10 [1; 3] [] None []) = Ok a2 ∧
           free_pages a1 ≡ₚ free_pages a2.
Proof.
  destruct (free_segment_equals_free (mkAlloc 40 4 false true 10 [1; 3] [] None []) [5; 2]
    [20; 21; 22; 23; 8; 9; 10] 2 7) as (a1 & a2 & H1 & H2 & H3 & _).
  - vm_compute. reflexivity.
  - reflexivity.
  - intros i x Hx. do 7 (destruct i as [|i]; [injection Hx as <-; eexists; vm_compute; done|]).
    discriminate.
  - lia.
  - vm_compute. congruence.
  - by_evaluation.
  - exists a1, a2. exact (conj H1 (conj H2 H3)).
Defined.

(** Allocation from a well-formed paged pool takes whole pages out of the pool
    and nothing else: on success the slots are those of [need_size / page_size]
    distinct pages that leave the pool, in page order; it fails only when the
    pool really holds fewer pages (released but unsorted pages are merged in
    first), and then the pool is unchanged. *)
Theorem paged_alloc_takes_pages (a : Alloc) (need_size : Z) :
  alloc_wf a → (page_size a | need_size) → 0 ≤ need_size → NoDup (PagedPool.pool a) →
  ∃ r a', Paged.alloc need_size a = Ok (r, a') ∧ alloc_wf a' ∧
    match r with
    | Some slots =>
        ∃ pages, slots = Paged.page_slots (page_size a) pages ∧
          zlen pages * page_size a = need_size ∧ NoDup (pages ++ PagedPool.pool a') ∧
          pages ++ PagedPool.pool a' ≡ₚ PagedPool.pool a
    | None => Base.available_size a < need_size ∧ PagedPool.pool a' ≡ₚ PagedPool.pool a
    end.
Proof.
  intros Hwf Hd Hn Hnd. destruct (paged_alloc_spec a need_size Hwf Hd Hn Hnd) as (r & a' & ? & ? & _ & ?).
  by exists r, a'.
Qed.

Lemma paged_alloc_takes_pages_witness :
  ∃ r a', Paged.alloc 8 (mkAlloc 40 4 true true 10 [7] [4; 2] None []) = Ok (r, a') ∧
          alloc_wf a' ∧ r = Some [8; 9; 10; 11; 16; 17; 18; 19].
Proof.
  destruct (paged_alloc_takes_pages (mkAlloc 40 4 true true 10 [7] [4; 2] None []) 8)
    as (r & a' & H1 & H2 & H3).
  - repeat split; discriminate.
  - exists 2. reflexivity.
  - lia.
  - by_evaluation.
  - exists r, a'. split; [exact H1|]. split; [exact H2|]. vm_compute in H1. congruence.
Defined.
