(* ===== verification/AllocKernels.v ===== *)
(** * The Triton allocation kernels

    [kernels/ops/memory/allocator.py] and their callers in
    [mem_cache/allocator/paged.py]: [alloc_extend_kernel] and
    [alloc_decode_kernel] compute, one program per request, the slots of the
    tokens a batch adds, [alloc_extend_naive] is the sequential reference.

    A program reads its inputs through pointers and only writes the output, so
    it is a function from the program id to the list of its stores; a launch
    performs the stores of all programs in an order the device chooses. *)

From S2P Require Import Prelude Allocator.

(** ** The device *)

(** What the code does not determine: the memory behind the free list (the
    kernels may read past its end), the value of the lanes a load masks off,
    the order of the stores of a launch and the contents of [torch.empty]. *)
Record Device := mkDevice {
  beyond : Z → Z;
  masked_seq : Z → Z;
  masked_pre : Z → Z;
  order_stores : list (Z * Z) → list (Z * Z);
  torch_empty : Z → list Z;
}.

(** [tl.load] fills the masked-off lanes of the two length loads alike, a launch
    performs every store once, and [torch.empty] has the size asked for. *)
Class DeviceLaws (d : Device) := {
  masked_same : ∀ lane, masked_seq d lane = masked_pre d lane;
  stores_once : ∀ l, order_stores d l ≡ₚ l;
  zlen_torch_empty : ∀ n, 0 ≤ n → zlen (torch_empty d n) = n;
}.

Definition dev_ptr (unknown : Z → Z) (t : list Z) (i : Z) : Z :=
  if i <? 0 then unknown i else default (unknown i) (t !! Z.to_nat i).

Definition tl_load (other ptr : Z → Z) (offs : list Z) (mask : Z → bool) : list Z :=
  (λ o, if mask o then ptr o else other o) <$> offs.

Definition tl_store (addr val : Z → Z) (offs : list Z) (mask : Z → bool) : list (Z * Z) :=
  (λ o, (addr o, val o)) <$> filter (λ o, mask o = true) offs.

(** One store into a tensor; writing outside it is a memory error. *)
Definition store_one (s : Z * Z) (out : list Z) : res (list Z) :=
  let '(i, v) := s in
  if (0 <=? i) && (i <? zlen out) then Ok (<[Z.to_nat i := v]> out) else Err IndexError.

Definition launch (d : Device) (bs : Z) (kernel : Z → list (Z * Z)) (out : list Z)
    : res (list Z) :=
  for_each store_one (order_stores d (zrange 0 bs ≫= kernel)) out.

(** ** The kernels *)

Definition BLOCK_EXTEND : Z := 4096.

Definition alloc_extend_kernel (d : Device)
    (pre_lens_ptr seq_lens_ptr last_loc_ptr free_page_ptr : Z → Z)
    (bs_upper page_size pid : Z) : list (Z * Z) :=
  let load_offset := zrange 0 bs_upper in
  let seq_lens := tl_load (masked_seq d) seq_lens_ptr load_offset (λ o, o <=? pid) in
  let pre_lens := tl_load (masked_pre d) pre_lens_ptr load_offset (λ o, o <=? pid) in
  let extend_lens := zip_with Z.sub seq_lens pre_lens in
  let seq_len := seq_lens_ptr pid in
  let pre_len := pre_lens_ptr pid in
  let extend_len := seq_len - pre_len in
  let sum_extend_lens := zsum extend_lens in
  let output_start_loc := sum_extend_lens - extend_len in
  let num_pages_after := (λ s, (s + page_size - 1) / page_size) <$> seq_lens in
  let num_pages_before := (λ s, (s + page_size - 1) / page_size) <$> pre_lens in
  let num_new_pages := zip_with Z.sub num_pages_after num_pages_before in
  let num_page_start_loc_self :=
    (seq_len + page_size - 1) / page_size - (pre_len + page_size - 1) / page_size in
  let sum_num_new_pages := zsum num_new_pages in
  let new_page_start_loc := sum_num_new_pages - num_page_start_loc_self in
  let last_loc := last_loc_ptr pid in
  let num_part1 :=
    Z.min seq_len ((pre_len + page_size - 1) / page_size * page_size) - pre_len in
  let offset_one_page := zrange 0 page_size in
  let part1 := tl_store (λ o, output_start_loc + o) (λ o, last_loc + 1 + o)
                 offset_one_page (λ o, o <? num_part1) in
  if pre_len + num_part1 =? seq_len then part1 else
  let num_part2 := seq_len / page_size * page_size
                   - (pre_len + page_size - 1) / page_size * page_size in
  let num_blocks := (num_part2 + BLOCK_EXTEND - 1) / BLOCK_EXTEND in
  let part2 :=
    zrange 0 num_blocks ≫= λ block_id,
      let offset := (λ o, block_id * BLOCK_EXTEND + o) <$> zrange 0 BLOCK_EXTEND in
      tl_store (λ o, output_start_loc + num_part1 + o)
        (λ o, free_page_ptr (new_page_start_loc + o / page_size) * page_size + o mod page_size)
        offset (λ o, o <? num_part2) in
  if pre_len + num_part1 + num_part2 =? seq_len then part1 ++ part2 else
  let num_part3 := seq_len - seq_len / page_size * page_size in
  let start_loc := free_page_ptr (new_page_start_loc + num_page_start_loc_self - 1) in
  let part3 := tl_store (λ o, output_start_loc + num_part1 + num_part2 + o)
                 (λ o, start_loc * page_size + o) offset_one_page (λ o, o <? num_part3) in
  part1 ++ part2 ++ part3.

Definition alloc_decode_kernel (d : Device)
    (seq_lens_ptr last_loc_ptr free_page_ptr : Z → Z) (bs_upper page_size pid : Z)
    : list (Z * Z) :=
  let load_offset := zrange 0 bs_upper in
  let seq_lens := tl_load (masked_seq d) seq_lens_ptr load_offset (λ o, o <=? pid) in
  let pre_lens := zip_with (λ (o s : Z), if o <=? pid then s - 1 else s) load_offset seq_lens in
  let seq_len := seq_lens_ptr pid in
  let pre_len := seq_len - 1 in
  let num_pages_after := (λ s, (s + page_size - 1) / page_size) <$> seq_lens in
  let num_pages_before := (λ s, (s + page_size - 1) / page_size) <$> pre_lens in
  let num_new_pages := zip_with Z.sub num_pages_after num_pages_before in
  let num_page_start_loc_self :=
    (seq_len + page_size - 1) / page_size - (pre_len + page_size - 1) / page_size in
  let sum_num_new_pages := zsum num_new_pages in
  let new_page_start_loc := sum_num_new_pages - num_page_start_loc_self in
  if num_page_start_loc_self =? 0 then [(pid, last_loc_ptr pid + 1)]
  else [(pid, free_page_ptr new_page_start_loc * page_size)].

(** ** The sequential reference, [alloc_extend_naive] *)

(** [out[a:b] = v] on a tensor: the sizes must agree, up to broadcasting of a
    single element. *)
Definition slice_assign (out : list Z) (a b : Z) (v : list Z) : res (list Z) :=
  let '(s, e) := slice_indices (Some a) (Some b) (zlen out) in
  let n := Z.max 0 (e - s) in
  let write w := Ok (take (Z.to_nat s) out ++ w ++ drop (Z.to_nat (s + n)) out) in
  if zlen v =? n then write v
  else match v with
       | [x] => write (replicate (Z.to_nat n) x)
       | _ => Err RuntimeError
       end.

(** [torch.cumsum(l, 0)] *)
Fixpoint cumsum_from (acc : Z) (l : list Z) : list Z :=
  match l with
  | [] => []
  | x :: l => (acc + x) :: cumsum_from (acc + x) l
  end.
Definition cumsum : list Z → list Z := cumsum_from 0.

(** The tensors the loop of [alloc_extend_naive] reads at index [i]. *)
Record naive_row := mkRow {
  n_prefix : Z; n_seq : Z; n_last : Z;
  n_start_pos : Z; n_end_pos : Z;
  n_start_new : Z; n_end_new : Z; n_need_page : Z;
}.

Definition naive_step (free_pages : list Z) (ps : Z) (r : naive_row) (out : list Z)
    : res (list Z) :=
  let pos_in_page := zrange 0 ps in
  let num1 := Z.min (n_seq r) ((n_prefix r + ps - 1) / ps * ps) - n_prefix r in
  out ← (if num1 =? 0 then Ok out
         else slice_assign out (n_start_pos r) (n_start_pos r + num1)
                ((λ p, n_last r + 1 + p) <$> slice_to pos_in_page num1));
  if n_prefix r + num1 =? n_seq r then Ok out else
  let num2 := (n_seq r / ps - (n_prefix r + ps - 1) / ps) * ps in
  out ← (if num2 =? 0 then Ok out
         else
           let pages := (λ p, p * ps) <$>
             slice free_pages (n_start_new r) (n_end_new r - n_need_page r) in
           slice_assign out (n_start_pos r + num1) (n_start_pos r + num1 + num2)
             (pages ≫= λ p, (λ i, p + i) <$> pos_in_page));
  if n_prefix r + num1 + num2 =? n_seq r then Ok out else
  let num3 := n_seq r - n_seq r / ps * ps in
  if num3 =? 0 then Ok out
  else
    page ← py_get free_pages (n_end_new r - 1);
    slice_assign out (n_end_pos r - num3) (n_end_pos r)
      ((λ i, page * ps + i) <$> slice_to pos_in_page num3).

Definition alloc_extend_naive (prefix_lens seq_lens last_loc free_pages out_indices : list Z)
    (page_size : Z) : res (list Z) :=
  let pages_of l := (λ s, (s + page_size - 1) / page_size) <$> l in
  let extend_lens := zip_with Z.sub seq_lens prefix_lens in
  let end_pos := cumsum extend_lens in
  let start_pos := zip_with Z.sub end_pos extend_lens in
  let num_new_pages := zip_with Z.sub (pages_of seq_lens) (pages_of prefix_lens) in
  let num_full_new_pages :=
    zip_with Z.sub ((λ s, s / page_size) <$> seq_lens) (pages_of prefix_lens) in
  let need_page := zip_with Z.sub num_new_pages num_full_new_pages in
  let end_new_pages := cumsum num_new_pages in
  let start_new_pages := zip_with Z.sub end_new_pages num_new_pages in
  for_each (λ i out,
    prefix ← py_get prefix_lens i;
    seq ← py_get seq_lens i;
    last ← py_get last_loc i;
    sp ← py_get start_pos i;
    ep ← py_get end_pos i;
    sn ← py_get start_new_pages i;
    en ← py_get end_new_pages i;
    np ← py_get need_page i;
    naive_step free_pages page_size (mkRow prefix seq last sp ep sn en np) out)
    (zrange 0 (zlen prefix_lens)) out_indices.

(** ** The callers in the paged allocator *)

(** [1 << (n - 1).bit_length()] *)
Definition bit_length (n : Z) : Z := if n =? 0 then 0 else Z.log2 (Z.abs n) + 1.
Definition next_power_of_2 (n : Z) : Z :=
  if n >? 0 then Z.shiftl 1 (bit_length (n - 1)) else 1.

Definition get_num_new_pages (seq_lens : list Z) (page_size : Z)
    (prefix_lens : option (list Z)) (decode : bool) : res Z :=
  let decode_pages := zsum ((λ s, if s mod page_size =? 1 then 1 else 0) <$> seq_lens) in
  match prefix_lens with
  | Some prefix_lens =>
      if decode then Ok decode_pages
      else
        let pages_of l := (λ s, (s + page_size - 1) / page_size) <$> l in
        Ok (zsum (zip_with Z.sub (pages_of seq_lens) (pages_of prefix_lens)))
  | None => if decode then Ok decode_pages else Err AssertionError
  end.

Definition debug_unique (a : Alloc) (out_indices : list Z) : res unit :=
  if debug_mode a && negb (zlen (torch_unique out_indices) =? zlen out_indices)
  then Err AssertionError else Ok tt.

Definition alloc_extend (d : Device) (prefix_lens prefix_lens_cpu seq_lens seq_lens_cpu
    last_loc : list Z) (extend_num_tokens : Z) (num_new_pages : option Z) (a : Alloc)
    : res (option (list Z) * Alloc) :=
  let ps := page_size a in
  if debug_mode a &&
     negb (forallb (λ '(l, p), (l + 1) mod ps =? p mod ps) (zip last_loc prefix_lens))
  then Err AssertionError else
  let bs := zlen prefix_lens in
  let a := if need_sort a && (extend_num_tokens / ps + bs + 1 >? zlen (free_pages a))
           then Base.merge_and_sort_free a else a in
  out_indices ← launch d bs
    (alloc_extend_kernel d (dev_ptr (beyond d) prefix_lens) (dev_ptr (beyond d) seq_lens)
       (dev_ptr (beyond d) last_loc) (dev_ptr (beyond d) (free_pages a))
       (next_power_of_2 bs) ps)
    (torch_empty d extend_num_tokens);
  _ ← debug_unique a out_indices;
  n ← match num_new_pages with
      | Some n => Ok n
      | None => get_num_new_pages seq_lens_cpu ps (Some prefix_lens_cpu) false
      end;
  if n >? zlen (free_pages a) then Ok (None, a)
  else Ok (Some out_indices, set_free_pages a (slice_from (free_pages a) n)).

Definition alloc_decode (d : Device) (seq_lens seq_lens_cpu last_loc : list Z) (a : Alloc)
    : res (option (list Z) * Alloc) :=
  let ps := page_size a in
  if debug_mode a &&
     negb (forallb (λ '(l, s), (l + 2) mod ps =? s mod ps) (zip last_loc seq_lens))
  then Err AssertionError else
  let bs := zlen seq_lens in
  let a := if need_sort a && (bs >? zlen (free_pages a))
           then Base.merge_and_sort_free a else a in
  out_indices ← launch d bs
    (alloc_decode_kernel d (dev_ptr (beyond d) seq_lens) (dev_ptr (beyond d) last_loc)
       (dev_ptr (beyond d) (free_pages a)) (next_power_of_2 bs) ps)
    (torch_empty d bs);
  _ ← debug_unique a out_indices;
  n ← get_num_new_pages seq_lens_cpu ps None true;
  if n >? zlen (free_pages a) then Ok (None, a)
  else Ok (Some out_indices, set_free_pages a (slice_from (free_pages a) n)).

(** ** Stores in any order *)

Lemma for_each_store stores out :
  NoDup stores.*1 → Forall (λ s, 0 ≤ s.1 < zlen out) stores →
  ∃ out', for_each store_one stores out = Ok out' ∧ zlen out' = zlen out ∧
    (∀ i v, (i, v) ∈ stores → out' !! Z.to_nat i = Some v) ∧
    (∀ k, Z.of_nat k ∉ stores.*1 → out' !! k = out !! k).
Proof.
  revert out. induction stores as [|[i v] stores IH]; intros out Hnd Hin.
  { exists out. split_and!; try done. by intros ?? ?%elem_of_nil. }
  apply NoDup_cons in Hnd as [Hi Hnd]. apply Forall_cons in Hin as [Hr Hin]. simpl in Hr, Hi.
  destruct (IH (<[Z.to_nat i := v]> out)) as (out' & Hrun & Hlen & Hset & Hkeep); [done| |].
  { unfold zlen in *. by rewrite length_insert. }
  exists out'. simpl. rewrite (proj2 (Z.leb_le _ _)), (proj2 (Z.ltb_lt _ _)) by lia. cbn [andb].
  split; [done|]. split; [unfold zlen in *; rewrite Hlen; by rewrite length_insert|]. split.
  - intros j w [?|?]%elem_of_cons; [|by apply Hset]. simplify_eq.
    rewrite Hkeep by (rewrite Z2Nat.id; [done|lia]).
    apply list_lookup_insert_eq. unfold zlen in *. lia.
  - intros k [Hk ?]%not_elem_of_cons. rewrite Hkeep by done.
    rewrite list_lookup_insert_ne; [done|]. simpl in Hk. lia.
Qed.

Lemma stores_any_order stores vals out :
  stores ≡ₚ zip (zrange 0 (zlen vals)) vals → zlen out = zlen vals →
  for_each store_one stores out = Ok vals.
Proof.
  intros HP Hlen. assert ((zip (zrange 0 (zlen vals)) vals).*1 = zrange 0 (zlen vals)) as Hfst.
  { apply fst_zip. unfold zrange, zlen. rewrite length_seqZ. lia. }
  destruct (for_each_store stores out) as (out' & -> & Hlen' & Hset & _).
  - rewrite HP, Hfst. apply NoDup_zrange.
  - apply Forall_forall. intros [i v] Hin.
    assert (i ∈ zrange 0 (zlen vals)) as Hi%elem_of_zrange; [|simpl; lia].
    rewrite <-Hfst, <-HP. apply list_elem_of_fmap. by exists (i, v).
  - f_equal. apply list_eq_same_length with (n := length vals); [done|unfold zlen in *; lia|].
    intros k x y Hk Hx Hy. assert ((Z.of_nat k, y) ∈ stores) as Hin.
    { rewrite HP. apply list_elem_of_lookup. exists k. rewrite lookup_zip_with, lookup_zrange.
      rewrite decide_True by (unfold zlen; lia). simpl. by rewrite Hy. }
    apply Hset in Hin. rewrite Nat2Z.id in Hin. congruence.
Qed.

(** ** What the kernels compute *)

Section layout.
Context (ps : Z).
Hypothesis Hps : 0 < ps.

Definition npages (n : Z) : Z := (n + ps - 1) / ps.

(** Position [j] of a request whose row already covers [pre] positions: the
    rest of the page the row ends in, then the new pages in order. *)
Definition extend_slot (pre last : Z) (page : Z → Z) (j : Z) : Z :=
  if j <? npages pre * ps then last + 1 + (j - pre)
  else page (j / ps - npages pre) * ps + j mod ps.

Definition extend_slots (pre seq last : Z) (page : Z → Z) : list Z :=
  extend_slot pre last page <$> zrange pre seq.

(** The slots of a batch, request after request; [page_start] is where the new
    pages of a request begin in the free list. *)
Definition page_start (pre seq : Z → Z) (i : Z) : Z :=
  zsum ((λ j, npages (seq j) - npages (pre j)) <$> zrange 0 i).
Definition out_start (pre seq : Z → Z) (i : Z) : Z :=
  zsum ((λ j, seq j - pre j) <$> zrange 0 i).
Definition extend_out (pre seq last page : Z → Z) (bs : Z) : list Z :=
  zrange 0 bs ≫= λ i,
    extend_slots (pre i) (seq i) (last i) (λ k, page (page_start pre seq i + k)).

Lemma npages_bounds n : n ≤ npages n * ps < n + ps.
Proof. pose proof (ceil_align_spec n ps Hps) as H. unfold ceil_align in H. unfold npages. lia. Qed.

Lemma npages_mono n m : n ≤ m → npages n ≤ npages m.
Proof. intros. unfold npages. apply Z.div_le_mono; lia. Qed.

Lemma zsum_snoc l x : zsum (l ++ [x]) = zsum l + x.
Proof. rewrite zsum_app. unfold zsum. simpl. lia. Qed.

Lemma tl_store_prefix addr val m n :
  0 ≤ n → n ≤ m →
  tl_store addr val (zrange 0 m) (λ o, o <? n) = (λ o, (addr o, val o)) <$> zrange 0 n.
Proof. intros. unfold tl_store. by rewrite filter_zrange by lia. Qed.

(** The blocked loop of part 2 visits [0, n) in order, whatever the block size. *)
Lemma tl_store_blocks addr val B n :
  0 < B → 0 ≤ n →
  (zrange 0 ((n + B - 1) / B) ≫= λ b,
     tl_store addr val ((λ o, b * B + o) <$> zrange 0 B) (λ o, o <? n)) =
  (λ o, (addr o, val o)) <$> zrange 0 n.
Proof.
  intros HB Hn. assert (0 ≤ (n + B - 1) / B) as Hk by (apply Z.div_pos; lia).
  assert (n ≤ (n + B - 1) / B * B) as Hge by (pose proof (ceil_align_spec n B HB); unfold ceil_align in *; lia).
  replace (zrange 0 n) with (filter (λ o, (o <? n) = true) (zrange 0 ((n + B - 1) / B * B)))
    by (apply filter_zrange; lia).
  clear Hge. revert Hk. generalize ((n + B - 1) / B). apply natlike_ind; [done|].
  intros k Hk IH. rewrite <-Z.add_1_r, zrange_snoc, bind_app, IH by done.
  rewrite (zrange_app 0 (k * B) ((k + 1) * B)) by nia. rewrite filter_app, fmap_app. f_equal.
  simpl. rewrite app_nil_r, zrange_shift. unfold tl_store. do 3 f_equal; lia.
Qed.

(** Re-indexing a range from zero. *)
Lemma fmap_zrange_shift {A} (f : Z → A) a b :
  f <$> zrange a b = (λ o, f (a + o)) <$> zrange 0 (b - a).
Proof.
  replace (zrange a b) with ((λ o, a + o) <$> zrange 0 (b - a)).
  - by rewrite <-list_fmap_compose.
  - rewrite zrange_shift. f_equal; lia.
Qed.

Lemma fmap_zrange_ext {A} (f g : Z → A) a b :
  (∀ x, a ≤ x < b → f x = g x) → f <$> zrange a b = g <$> zrange a b.
Proof.
  intros H. apply list_fmap_ext. intros i x Hx.
  by apply H, elem_of_zrange, list_elem_of_lookup_2 with i.
Qed.

(** The sums over the masked lanes are the sums over the requests before. *)
Lemma masked_sum (f : Z → Z → Z) (other1 other2 p q : Z → Z) pid n :
  0 ≤ pid < n → (∀ i, f (other1 i) (other2 i) = 0) →
  zsum (zip_with f (tl_load other1 p (zrange 0 n) (λ o, o <=? pid))
                   (tl_load other2 q (zrange 0 n) (λ o, o <=? pid))) - f (p pid) (q pid)
  = zsum ((λ i, f (p i) (q i)) <$> zrange 0 pid).
Proof.
  intros Hp Ho. unfold tl_load. rewrite zip_with_fmap_l, zip_with_fmap_r, zip_with_diag.
  assert (zsum ((λ i, f (p i) (q i)) <$> zrange 0 (pid + 1)) =
          zsum ((λ i, f (p i) (q i)) <$> zrange 0 pid) + f (p pid) (q pid)) as Hs.
  { rewrite zrange_snoc by lia. rewrite fmap_app. apply zsum_snoc. }
  rewrite <-(zsum_zrange_masked _ (λ i, f (other1 i) (other2 i)) pid n) in Hs by auto.
  apply Z.sub_move_r. etrans; [|exact Hs]. f_equal.
  apply list_fmap_ext. intros i x _. by destruct (x <=? pid).
Qed.

End layout.

Section extend.
Context (d : Device) `{!DeviceLaws d} (ps : Z) (pre seq last page : Z → Z).
Hypothesis Hps : 0 < ps.

(** The stores of the positions [a, b) of request [i]. *)
Definition slot_stores (i a b : Z) : list (Z * Z) :=
  (λ j, (out_start pre seq i + (j - pre i),
         extend_slot ps (pre i) (last i) (λ k, page (page_start ps pre seq i + k)) j))
    <$> zrange a b.

Lemma slot_stores_app i a b c :
  a ≤ b → b ≤ c → slot_stores i a b ++ slot_stores i b c = slot_stores i a c.
Proof. intros. unfold slot_stores. by rewrite <-fmap_app, <-zrange_app. Qed.

(** Part 1 of the kernel stores the rest of the old page. *)
Lemma slot_stores_old i n :
  pre i + n ≤ npages ps (pre i) * ps →
  (λ o, (out_start pre seq i + o, last i + 1 + o)) <$> zrange 0 n =
  slot_stores i (pre i) (pre i + n).
Proof.
  intros Hn. unfold slot_stores. rewrite (fmap_zrange_shift _ (pre i)), Z.add_simpl_l.
  apply fmap_zrange_ext. intros o Ho. unfold extend_slot.
  destruct (Z.ltb_spec (pre i + o) (npages ps (pre i) * ps)); [|lia]. f_equal; lia.
Qed.

(** Parts 2 and 3 store runs of new pages: [k] pages in, [n] positions. *)
Lemma slot_stores_new i k n os (f : Z → Z) :
  0 ≤ k → os = out_start pre seq i + (npages ps (pre i) + k) * ps - pre i →
  (∀ o, 0 ≤ o < n → f o = page (page_start ps pre seq i + k + o / ps) * ps + o mod ps) →
  (λ o, (os + o, f o)) <$> zrange 0 n =
  slot_stores i ((npages ps (pre i) + k) * ps) ((npages ps (pre i) + k) * ps + n).
Proof.
  intros Hk -> Hf. unfold slot_stores.
  rewrite (fmap_zrange_shift _ ((npages ps (pre i) + k) * ps)), Z.add_simpl_l.
  apply fmap_zrange_ext. intros o Ho. rewrite Hf by done. unfold extend_slot.
  rewrite (Z.add_comm ((npages ps (pre i) + k) * ps) o).
  destruct (Z.ltb_spec (o + (npages ps (pre i) + k) * ps) (npages ps (pre i) * ps)); [nia|].
  rewrite Z.div_add, Z.mod_add by lia. f_equal; [lia|]. do 3 f_equal. lia.
Qed.

(** The stores of one program: its part of the output, in order. *)
Lemma extend_kernel_stores bs_upper pid :
  0 ≤ pid < bs_upper → 0 ≤ pre pid ≤ seq pid →
  alloc_extend_kernel d pre seq last page bs_upper ps pid =
  slot_stores pid (pre pid) (seq pid).
Proof.
  intros Hpid Hlen. unfold alloc_extend_kernel. cbv zeta.
  rewrite (masked_sum Z.sub) by (intros; rewrite ?masked_same; lia).
  rewrite zip_with_fmap_l, zip_with_fmap_r.
  rewrite (masked_sum (λ s p, npages ps s - npages ps p)) by (intros; rewrite ?masked_same; lia).
  fold (out_start pre seq pid) (page_start ps pre seq pid).
  fold (npages ps (pre pid)) (npages ps (seq pid)).
  pose proof (npages_bounds ps Hps (pre pid)) as Hm.
  pose proof (Z.div_mod (seq pid) ps ltac:(lia)). pose proof (Z.mod_pos_bound (seq pid) ps Hps).
  set (n1 := Z.min _ _ - _). rewrite (tl_store_prefix _ _ ps n1), slot_stores_old by lia.
  destruct (Z.eqb_spec (pre pid + n1) (seq pid)) as [->|Hne]; [done|].
  assert (pre pid + n1 = npages ps (pre pid) * ps) as Hn1 by lia.
  set (n2 := seq pid / ps * ps - _).
  assert (0 ≤ seq pid / ps - npages ps (pre pid)) as Hfull by nia.
  assert (0 ≤ n2) by nia. rewrite (tl_store_blocks _ _ BLOCK_EXTEND n2) by done.
  rewrite (slot_stores_new pid 0) by (lia || intros; do 3 f_equal; lia).
  rewrite Z.add_0_r, <-Hn1.
  destruct (Z.eqb_spec (pre pid + n1 + n2) (seq pid)) as [He|Hne'].
  { by rewrite slot_stores_app, He by lia. }
  assert (npages ps (seq pid) = seq pid / ps + 1) as Hns.
  { unfold npages. symmetry. apply (Z.div_unique _ _ _ (seq pid mod ps - 1)); [left|]; nia. }
  rewrite (tl_store_prefix _ _ ps) by lia.
  rewrite (slot_stores_new pid (seq pid / ps - npages ps (pre pid))) by
    (try lia; intros o Ho; rewrite (Z.div_small o), (Z.mod_small o), Hns by lia;
     do 3 f_equal; lia).
  replace (npages ps (pre pid) + _) with (seq pid / ps) by lia.
  replace (pre pid + n1 + n2) with (seq pid / ps * ps) by lia.
  rewrite !slot_stores_app by lia. f_equal. lia.
Qed.

Lemma out_start_step i :
  0 ≤ i → out_start pre seq (i + 1) = out_start pre seq i + (seq i - pre i).
Proof.
  intros. unfold out_start. rewrite zrange_snoc by done. rewrite fmap_app. apply zsum_snoc.
Qed.

Lemma slot_stores_zip i :
  0 ≤ i →
  slot_stores i (pre i) (seq i) =
  zip (zrange (out_start pre seq i) (out_start pre seq (i + 1)))
      (extend_slots ps (pre i) (seq i) (last i) (λ k, page (page_start ps pre seq i + k))).
Proof.
  intros Hi. unfold slot_stores, extend_slots.
  replace (zrange (out_start pre seq i) (out_start pre seq (i + 1))) with
    ((λ j, out_start pre seq i + (j - pre i)) <$> zrange (pre i) (seq i)).
  - by rewrite zip_with_fmap_l, zip_with_fmap_r, zip_with_diag.
  - rewrite (fmap_zrange_shift _ (pre i)), out_start_step by done.
    replace (zrange (out_start pre seq i) _)
      with ((λ o, out_start pre seq i + o) <$> zrange 0 (seq i - pre i)).
    + apply fmap_zrange_ext. intros. lia.
    + rewrite zrange_shift. f_equal. lia.
Qed.

Lemma zlen_extend_slots i p :
  pre i ≤ seq i → zlen (extend_slots ps (pre i) (seq i) (last i) p) = seq i - pre i.
Proof. intros. unfold extend_slots. by rewrite zlen_fmap, zlen_zrange. Qed.

Context (bs : Z).
Hypotheses (Hbs : 0 ≤ bs) (Hlens : ∀ i, 0 ≤ i < bs → 0 ≤ pre i ≤ seq i).

Lemma batch_ind (P : Z → Prop) :
  P 0 → (∀ i, 0 ≤ i < bs → P i → P (i + 1)) → ∀ i, 0 ≤ i ≤ bs → P i.
Proof.
  intros H0 HS i Hi. destruct Hi as [Hi Hle]. revert i Hi Hle.
  apply (natlike_ind (λ i, i ≤ bs → P i)); [done|].
  intros i Hi IH Hle. rewrite <-Z.add_1_r in *. apply HS; [lia|]. apply IH. lia.
Qed.

Lemma out_start_0 : out_start pre seq 0 = 0.
Proof. done. Qed.

Lemma extend_out_step i :
  0 ≤ i → extend_out ps pre seq last page (i + 1) =
    extend_out ps pre seq last page i ++
    extend_slots ps (pre i) (seq i) (last i) (λ k, page (page_start ps pre seq i + k)).
Proof.
  intros. unfold extend_out. rewrite zrange_snoc by done. rewrite bind_app.
  simpl. by rewrite app_nil_r.
Qed.

Lemma zlen_extend_out i :
  0 ≤ i ≤ bs → zlen (extend_out ps pre seq last page i) = out_start pre seq i.
Proof.
  revert i. apply batch_ind; [done|]. intros i Hi IH.
  pose proof (Hlens i Hi). rewrite extend_out_step, out_start_step, zlen_app, IH by lia.
  rewrite zlen_extend_slots by lia. done.
Qed.

Lemma out_start_mono i : 0 ≤ i < bs → 0 ≤ out_start pre seq i ≤ out_start pre seq (i + 1).
Proof.
  intros Hi. pose proof (Hlens i Hi). rewrite out_start_step by lia.
  rewrite <-zlen_extend_out by lia. pose proof (zlen_nonneg (extend_out ps pre seq last page i)). lia.
Qed.

(** Together the programs of a launch store the batch, one slot per position. *)
Lemma extend_launch_stores bs_upper i :
  bs ≤ bs_upper → 0 ≤ i ≤ bs →
  zrange 0 i ≫= alloc_extend_kernel d pre seq last page bs_upper ps =
  zip (zrange 0 (out_start pre seq i)) (extend_out ps pre seq last page i).
Proof.
  intros Hup. revert i. apply batch_ind; [done|]. intros i Hi IH. pose proof (out_start_mono i Hi).
  rewrite zrange_snoc by lia. rewrite bind_app, IH.
  rewrite (zrange_app 0 (out_start pre seq i) (out_start pre seq (i + 1))) by lia.
  rewrite extend_out_step, zip_with_app.
  - f_equal. simpl. rewrite app_nil_r, extend_kernel_stores by (try apply Hlens; lia).
    by rewrite slot_stores_zip by lia.
  - apply Nat2Z.inj. fold (zlen (zrange 0 (out_start pre seq i))).
    fold (zlen (extend_out ps pre seq last page i)).
    rewrite zlen_extend_out, zlen_zrange by lia. lia.
  - lia.
Qed.

Lemma launch_extend bs_upper out :
  bs ≤ bs_upper → zlen out = out_start pre seq bs →
  launch d bs (alloc_extend_kernel d pre seq last page bs_upper ps) out =
  Ok (extend_out ps pre seq last page bs).
Proof.
  intros Hup Hout. unfold launch. apply stores_any_order.
  - by rewrite stores_once, extend_launch_stores, zlen_extend_out by lia.
  - by rewrite zlen_extend_out by lia.
Qed.
End extend.

(** ** The reference computes the same *)

Lemma slice_assign_exact out a b v :
  0 ≤ a ≤ b → b ≤ zlen out → zlen v = b - a →
  slice_assign out a b v = Ok (take (Z.to_nat a) out ++ v ++ drop (Z.to_nat b) out).
Proof.
  intros Ha Hb Hv. unfold slice_assign, slice_indices, clamp_index. cbn [from_option].
  destruct (Z.ltb_spec a 0), (Z.ltb_spec b 0); try lia. rewrite !Z.min_l by lia.
  rewrite Hv, Z.max_r, Z.eqb_refl, Zplus_minus by lia. done.
Qed.

(** Assigning the next range after an assignment. *)
Lemma slice_assign_next out a b c v w :
  0 ≤ a ≤ b → b ≤ c → c ≤ zlen out → zlen v = b - a → zlen w = c - b →
  slice_assign (take (Z.to_nat a) out ++ v ++ drop (Z.to_nat b) out) b c w =
  Ok (take (Z.to_nat a) out ++ (v ++ w) ++ drop (Z.to_nat c) out).
Proof.
  intros Ha Hb Hc Hv Hw.
  assert (length (take (Z.to_nat a) out ++ v) = Z.to_nat b) as Hlen.
  { rewrite length_app, length_take. unfold zlen in *. lia. }
  rewrite slice_assign_exact; try lia.
  - rewrite (app_assoc (take _ _) v), take_app_length' by done.
    rewrite drop_app_ge, drop_drop, Hlen, <-!app_assoc by lia. do 5 f_equal. lia.
  - unfold zlen in *. rewrite app_assoc, length_app, length_drop. lia.
Qed.

Lemma slice_to_zrange n m : 0 ≤ n ≤ m → slice_to (zrange 0 m) n = zrange 0 n.
Proof.
  intros. rewrite slice_to_take, (zrange_app 0 n m) by lia. apply take_app_length'.
  unfold zrange. rewrite length_seqZ. lia.
Qed.

Section tensors.
Context (u : Z → Z).

Lemma dev_ptr_lookup l i x : 0 ≤ i → l !! Z.to_nat i = Some x → dev_ptr u l i = x.
Proof. intros Hi Hx. unfold dev_ptr. destruct (Z.ltb_spec i 0); [lia|]. by rewrite Hx. Qed.

Lemma dev_ptr_range l a n :
  0 ≤ a → 0 ≤ n → a + n ≤ zlen l → slice l a (a + n) = (λ j, dev_ptr u l (a + j)) <$> zrange 0 n.
Proof.
  intros Ha Hn Hle. apply list_eq. intros i. rewrite list_lookup_fmap, lookup_zrange.
  rewrite lookup_slice by lia. replace (a + n - a) with (n - 0) by lia. case_decide; [|done].
  destruct (lookup_lt_is_Some_2 l (Z.to_nat a + i)%nat) as [x Hx]; [unfold zlen in *; lia|].
  rewrite Hx. simpl. f_equal. symmetry. apply dev_ptr_lookup; [lia|].
  rewrite <-Hx. f_equal. lia.
Qed.

Lemma dev_ptr_all l : l = dev_ptr u l <$> zrange 0 (zlen l).
Proof.
  pose proof (zlen_nonneg l). pose proof (dev_ptr_range l 0 (zlen l)) as Hr.
  rewrite slice_take_drop, drop_0, Z.sub_0_r, Z.add_0_l, take_zlen in Hr by lia.
  etrans; [apply Hr; lia|]. apply fmap_zrange_ext. done.
Qed.

Lemma py_get_fmap {A} (f : Z → A) n i : 0 ≤ i < n → py_get (f <$> zrange 0 n) i = Ok (f i).
Proof.
  intros. apply py_get_lookup; [lia|]. rewrite list_lookup_fmap, lookup_zrange.
  rewrite decide_True by lia. simpl. f_equal. f_equal. lia.
Qed.

Lemma py_get_dev_ptr l i : 0 ≤ i < zlen l → py_get l i = Ok (dev_ptr u l i).
Proof. intros. rewrite (dev_ptr_all l) at 1. by rewrite py_get_fmap. Qed.

Lemma cumsum_fmap (f : Z → Z) n :
  0 ≤ n → cumsum (f <$> zrange 0 n) = (λ i, zsum (f <$> zrange 0 (i + 1))) <$> zrange 0 n.
Proof.
  assert (∀ acc l x, cumsum_from acc (l ++ [x]) = cumsum_from acc l ++ [acc + zsum l + x]) as Hs.
  { intros acc l. revert acc. induction l as [|y l IH]; intros acc x; simpl.
    - f_equal. lia.
    - rewrite IH. do 3 f_equal. unfold zsum. simpl. lia. }
  revert n. apply natlike_ind; [done|]. intros n Hn IH. rewrite <-Z.add_1_r.
  rewrite (zrange_snoc 0 n) by done. rewrite !fmap_app. unfold cumsum in *. simpl.
  rewrite Hs, IH. do 2 f_equal. rewrite zrange_snoc by done. rewrite fmap_app. simpl.
  by rewrite zsum_snoc, Z.add_0_l.
Qed.

Lemma zip_fmap {A B C} (h : A → B → C) (f : Z → A) (g : Z → B) l :
  zip_with h (f <$> l) (g <$> l) = (λ i, h (f i) (g i)) <$> l.
Proof. by rewrite zip_with_fmap_l, zip_with_fmap_r, zip_with_diag. Qed.

(** Whole pages, page by page, are the positions of the pages. *)
Lemma pages_slots ps (g : Z → Z) k :
  0 < ps → 0 ≤ k →
  (zrange 0 k ≫= λ j, (λ o, g j * ps + o) <$> zrange 0 ps) =
  (λ o, g (o / ps) * ps + o mod ps) <$> zrange 0 (k * ps).
Proof.
  intros Hps. revert k. apply natlike_ind; [done|]. intros k Hk IH.
  rewrite <-Z.add_1_r, zrange_snoc, bind_app, IH by done.
  rewrite (zrange_app 0 (k * ps) ((k + 1) * ps)) by nia. rewrite fmap_app. f_equal.
  simpl. rewrite app_nil_r, (fmap_zrange_shift _ (k * ps)).
  replace ((k + 1) * ps - k * ps) with ps by lia. apply fmap_zrange_ext. intros o Ho.
  rewrite Z.add_comm with (n := k * ps), Z.div_add, Z.mod_add, Z.div_small, Z.mod_small by lia.
  f_equal.
Qed.
End tensors.

Section naive.
Context (ps : Z) (pre seq last page : Z → Z) (free_pages : list Z) (u : Z → Z).
Hypotheses (Hps : 0 < ps) (Hpage : ∀ i, page i = dev_ptr u free_pages i).

(** The positions [a, b) of request [i]. *)
Definition slots_of (i a b : Z) : list Z :=
  extend_slot ps (pre i) (last i) (λ k, page (page_start ps pre seq i + k)) <$> zrange a b.

Lemma slots_of_stores i a b : slots_of i a b = (slot_stores ps pre seq last page i a b).*2.
Proof. unfold slots_of, slot_stores. by rewrite <-list_fmap_compose. Qed.

Lemma slots_of_app i a b c : a ≤ b → b ≤ c → slots_of i a b ++ slots_of i b c = slots_of i a c.
Proof. intros. unfold slots_of. by rewrite <-fmap_app, <-zrange_app. Qed.

Lemma zlen_slots_of i a b : a ≤ b → zlen (slots_of i a b) = b - a.
Proof. intros. unfold slots_of. by rewrite zlen_fmap, zlen_zrange. Qed.

Lemma naive_part1 i n :
  0 ≤ n ≤ ps → pre i + n ≤ npages ps (pre i) * ps →
  (λ p, last i + 1 + p) <$> slice_to (zrange 0 ps) n = slots_of i (pre i) (pre i + n).
Proof.
  intros Hn Hle. rewrite slots_of_stores, <-slot_stores_old by done.
  by rewrite <-list_fmap_compose, slice_to_zrange by lia.
Qed.

Lemma naive_part2 i k :
  0 ≤ k → 0 ≤ page_start ps pre seq i → page_start ps pre seq i + k ≤ zlen free_pages →
  (((λ p, p * ps) <$> slice free_pages (page_start ps pre seq i) (page_start ps pre seq i + k))
     ≫= λ p, (λ o, p + o) <$> zrange 0 ps) =
  slots_of i (npages ps (pre i) * ps) ((npages ps (pre i) + k) * ps).
Proof.
  intros Hk Hst Hle. rewrite (dev_ptr_range u) by lia.
  rewrite !list_fmap_bind. unfold compose. rewrite pages_slots by lia.
  replace (npages ps (pre i) * ps) with ((npages ps (pre i) + 0) * ps) by lia.
  replace ((npages ps (pre i) + k) * ps) with ((npages ps (pre i) + 0) * ps + k * ps) by lia.
  rewrite slots_of_stores, <-(slot_stores_new ps pre seq last page Hps i 0 _
    (out_start pre seq i + (npages ps (pre i) + 0) * ps - pre i)
    (λ o, dev_ptr u free_pages (page_start ps pre seq i + o / ps) * ps + o mod ps)).
  - by rewrite <-list_fmap_compose.
  - lia.
  - done.
  - intros o _. rewrite Hpage. do 3 f_equal. lia.
Qed.

Lemma naive_part3 i k n :
  0 ≤ k → 0 ≤ n ≤ ps →
  (λ o, page (page_start ps pre seq i + k) * ps + o) <$> slice_to (zrange 0 ps) n =
  slots_of i ((npages ps (pre i) + k) * ps) ((npages ps (pre i) + k) * ps + n).
Proof.
  intros Hk Hn. rewrite slots_of_stores, slice_to_zrange by lia.
  rewrite <-(slot_stores_new ps pre seq last page Hps i k _
    (out_start pre seq i + (npages ps (pre i) + k) * ps - pre i)
    (λ o, page (page_start ps pre seq i + k) * ps + o)).
  - by rewrite <-list_fmap_compose.
  - lia.
  - done.
  - intros o Ho. rewrite Z.div_small, Z.mod_small by lia. do 3 f_equal. lia.
Qed.

(** The output once [m] positions of request [i] are written. *)
Definition written (i : Z) (out : list Z) (m : Z) : list Z :=
  take (Z.to_nat (out_start pre seq i)) out ++ slots_of i (pre i) (pre i + m) ++
  drop (Z.to_nat (out_start pre seq i + m)) out.

Lemma written_step i out m n :
  0 ≤ out_start pre seq i → 0 ≤ m → 0 ≤ n → out_start pre seq i + m + n ≤ zlen out →
  slice_assign (written i out m) (out_start pre seq i + m) (out_start pre seq i + m + n)
    (slots_of i (pre i + m) (pre i + m + n)) = Ok (written i out (m + n)).
Proof.
  intros. unfold written. rewrite slice_assign_next by (rewrite ?zlen_slots_of; lia).
  rewrite slots_of_app by lia. by rewrite !Z.add_assoc.
Qed.

Lemma written_0 i out : 0 ≤ out_start pre seq i → written i out 0 = out.
Proof.
  intros. unfold written. rewrite !Z.add_0_r. unfold slots_of.
  rewrite zrange_empty by lia. apply take_drop.
Qed.

(** The two guarded assignments of the loop body. *)
Lemma naive_stage1 i out n :
  0 ≤ n ≤ ps → pre i + n ≤ npages ps (pre i) * ps → 0 ≤ out_start pre seq i →
  out_start pre seq i + n ≤ zlen out →
  (if n =? 0 then Ok out else slice_assign out (out_start pre seq i)
    (out_start pre seq i + n) ((λ p, last i + 1 + p) <$> slice_to (zrange 0 ps) n)) =
  Ok (written i out n).
Proof.
  intros. destruct (Z.eqb_spec n 0) as [->|]; [by rewrite written_0|].
  rewrite naive_part1 by lia. pose proof (written_step i out 0 n) as Hw.
  rewrite written_0, !Z.add_0_r in Hw by done. apply Hw; lia.
Qed.

Lemma naive_stage2 i out n k :
  0 ≤ n → 0 ≤ k → pre i + n = npages ps (pre i) * ps → 0 ≤ out_start pre seq i →
  out_start pre seq i + n + k * ps ≤ zlen out → 0 ≤ page_start ps pre seq i →
  page_start ps pre seq i + k ≤ zlen free_pages →
  (if k * ps =? 0 then Ok (written i out n) else
    slice_assign (written i out n) (out_start pre seq i + n) (out_start pre seq i + n + k * ps)
      (((λ p, p * ps) <$>
          slice free_pages (page_start ps pre seq i) (page_start ps pre seq i + k))
         ≫= λ p, (λ o, p + o) <$> zrange 0 ps)) =
  Ok (written i out (n + k * ps)).
Proof.
  intros Hn Hk Hpn Hos Hout Hst Hfree.
  destruct (Z.eqb_spec (k * ps) 0) as [->|]; [by rewrite Z.add_0_r|].
  rewrite naive_part2 by lia. rewrite Z.mul_add_distr_r, <-Hpn. apply written_step; nia.
Qed.

Lemma naive_step_spec i out :
  0 ≤ pre i ≤ seq i → 0 ≤ out_start pre seq i →
  out_start pre seq i + (seq i - pre i) ≤ zlen out → 0 ≤ page_start ps pre seq i →
  page_start ps pre seq i + (npages ps (seq i) - npages ps (pre i)) ≤ zlen free_pages →
  naive_step free_pages ps
    (mkRow (pre i) (seq i) (last i) (out_start pre seq i) (out_start pre seq i + (seq i - pre i))
       (page_start ps pre seq i)
       (page_start ps pre seq i + (npages ps (seq i) - npages ps (pre i)))
       (npages ps (seq i) - npages ps (pre i) - (seq i / ps - npages ps (pre i)))) out =
  Ok (written i out (seq i - pre i)).
Proof.
  intros Hlen Hos Hout Hst Hfree. unfold naive_step. cbn [n_prefix n_seq n_last n_start_pos
    n_end_pos n_start_new n_end_new n_need_page]. cbv zeta. fold (npages ps (pre i)).
  pose proof (npages_bounds ps Hps (pre i)) as Hm.
  pose proof (Z.div_mod (seq i) ps ltac:(lia)). pose proof (Z.mod_pos_bound (seq i) ps Hps).
  set (n1 := Z.min _ _ - _). rewrite naive_stage1 by lia.
  cbn [mbind res_bind]. destruct (Z.eqb_spec (pre i + n1) (seq i)).
  { do 2 f_equal. lia. }
  assert (pre i + n1 = npages ps (pre i) * ps) as Hn1 by lia.
  set (k := seq i / ps - npages ps (pre i)). assert (0 ≤ k) by nia.
  assert (k ≤ npages ps (seq i) - npages ps (pre i)).
  { pose proof (npages_bounds ps Hps (seq i)). nia. }
  replace (page_start ps pre seq i + (npages ps (seq i) - npages ps (pre i)) -
    (npages ps (seq i) - npages ps (pre i) - k)) with (page_start ps pre seq i + k) by lia.
  rewrite naive_stage2 by (done || nia).
  cbn [mbind res_bind]. destruct (Z.eqb_spec (pre i + n1 + k * ps) (seq i)).
  { do 2 f_equal. lia. }
  destruct (Z.eqb_spec (seq i - seq i / ps * ps) 0); [nia|].
  assert (npages ps (seq i) = seq i / ps + 1) as Hns.
  { unfold npages. symmetry. apply (Z.div_unique _ _ _ (seq i mod ps - 1)); [left|]; nia. }
  rewrite (py_get_dev_ptr u) by lia. cbn [mbind res_bind]. rewrite <-Hpage.
  replace (page_start ps pre seq i + _ - 1) with (page_start ps pre seq i + k) by lia.
  rewrite naive_part3 by lia.
  replace ((npages ps (pre i) + k) * ps) with (pre i + (n1 + k * ps)) by lia.
  replace (out_start pre seq i + (seq i - pre i) - _) with (out_start pre seq i + (n1 + k * ps)) by lia.
  replace (seq i - pre i) with (n1 + k * ps + (seq i - seq i / ps * ps)) by lia.
  rewrite (Z.add_assoc (out_start pre seq i) (n1 + k * ps)). apply written_step; nia.
Qed.
End naive.

(** A batch of requests as the tensors describe it. *)
Definition batch_ok (pre seq last : list Z) : Prop :=
  length pre = length seq ∧ length last = length seq ∧
  Forall2 (λ p s, 0 ≤ p ≤ s) pre seq.

Definition batch_tokens (pre seq : list Z) : Z := zsum (zip_with Z.sub seq pre).
Definition batch_pages (ps : Z) (pre seq : list Z) : Z :=
  zsum (zip_with Z.sub (npages ps <$> seq) (npages ps <$> pre)).

Section batch.
Context (ps : Z) (u : Z → Z) (pre seq last : list Z).
Hypotheses (Hps : 0 < ps) (Hb : batch_ok pre seq last).

Local Abbreviation P := (dev_ptr u pre).
Local Abbreviation S := (dev_ptr u seq).
Local Abbreviation L := (dev_ptr u last).
Local Abbreviation bs := (zlen pre).

Lemma batch_lens : zlen seq = bs ∧ zlen last = bs.
Proof. destruct Hb as (? & ? & _). unfold zlen. lia. Qed.

Lemma batch_fmap :
  pre = P <$> zrange 0 bs ∧ seq = S <$> zrange 0 bs ∧ last = L <$> zrange 0 bs.
Proof.
  destruct batch_lens as [H1 H2]. split_and!; [apply dev_ptr_all|rewrite <-H1|rewrite <-H2];
    apply dev_ptr_all.
Qed.

Lemma batch_bounds i : 0 ≤ i < bs → 0 ≤ P i ≤ S i.
Proof.
  intros Hi. destruct Hb as (Hl & _ & HF).
  destruct (lookup_lt_is_Some_2 pre (Z.to_nat i)) as [x Hx]; [unfold zlen in *; lia|].
  destruct (lookup_lt_is_Some_2 seq (Z.to_nat i)) as [y Hy]; [unfold zlen in *; lia|].
  rewrite (dev_ptr_lookup u pre i x), (dev_ptr_lookup u seq i y) by (done || lia).
  by eapply Forall2_lookup_lr in HF.
Qed.

(** The tensors computed from the lengths, by request. *)
Lemma batch_zip (h : Z → Z → Z) (f g : Z → Z) :
  zip_with h (f <$> seq) (g <$> pre) = (λ j, h (f (S j)) (g (P j))) <$> zrange 0 bs.
Proof.
  destruct batch_fmap as (H1 & H2 & _). rewrite H1 at 1. rewrite H2 at 1.
  rewrite <-!list_fmap_compose. by rewrite zip_fmap.
Qed.
Lemma batch_ext : zip_with Z.sub seq pre = (λ j, S j - P j) <$> zrange 0 bs.
Proof. pose proof (batch_zip Z.sub id id) as H. by rewrite !list_fmap_id in H. Qed.

Lemma batch_tokens_start : batch_tokens pre seq = out_start P S bs.
Proof. unfold batch_tokens. by rewrite batch_ext. Qed.
Lemma batch_pages_start : batch_pages ps pre seq = page_start ps P S bs.
Proof. unfold batch_pages. by rewrite batch_zip. Qed.

Lemma page_start_step i :
  0 ≤ i → page_start ps P S (i + 1) = page_start ps P S i + (npages ps (S i) - npages ps (P i)).
Proof.
  intros. unfold page_start. rewrite zrange_snoc by done. rewrite fmap_app. apply zsum_snoc.
Qed.

Lemma page_start_range i : 0 ≤ i ≤ bs → 0 ≤ page_start ps P S i ≤ batch_pages ps pre seq.
Proof.
  intros Hi. rewrite batch_pages_start. unfold page_start.
  rewrite (zrange_app 0 i bs) by lia. rewrite fmap_app, zsum_app.
  assert (∀ a b, 0 ≤ a → b ≤ bs →
    0 ≤ zsum ((λ j, npages ps (S j) - npages ps (P j)) <$> zrange a b)) as Hnn.
  { intros a b Ha Hb'. apply zsum_nonneg, Forall_fmap, Forall_forall.
    intros x Hx%elem_of_zrange. simpl. pose proof (batch_bounds x ltac:(lia)).
    pose proof (npages_mono ps Hps (P x) (S x)). lia. }
  pose proof (Hnn 0 i). pose proof (Hnn i bs). lia.
Qed.

Lemma out_start_range i :
  0 ≤ i < bs → 0 ≤ out_start P S i ∧ out_start P S i + (S i - P i) ≤ batch_tokens pre seq.
Proof.
  intros Hi. rewrite batch_tokens_start.
  pose proof (out_start_mono ps P S L P bs batch_bounds i Hi) as [Hos _]. split; [done|].
  rewrite <-out_start_step by lia. unfold out_start at 2.
  rewrite (zrange_app 0 (i + 1) bs) by lia. rewrite fmap_app, zsum_app.
  fold (out_start P S (i + 1)).
  assert (0 ≤ zsum ((λ j, S j - P j) <$> zrange (i + 1) bs)); [|lia].
  apply zsum_nonneg, Forall_fmap, Forall_forall. intros x Hx%elem_of_zrange. simpl.
  pose proof (batch_bounds x ltac:(lia)). lia.
Qed.

(** One iteration of the loop of [alloc_extend_naive]. *)
Definition naive_body (free_pages : list Z) (i : Z) (out : list Z) : res (list Z) :=
  let ext := zip_with Z.sub seq pre in
  let new := zip_with Z.sub (npages ps <$> seq) (npages ps <$> pre) in
  let full := zip_with Z.sub ((λ s, s / ps) <$> seq) (npages ps <$> pre) in
  prefix ← py_get pre i; s ← py_get seq i; l ← py_get last i;
  sp ← py_get (zip_with Z.sub (cumsum ext) ext) i; ep ← py_get (cumsum ext) i;
  sn ← py_get (zip_with Z.sub (cumsum new) new) i; en ← py_get (cumsum new) i;
  np ← py_get (zip_with Z.sub new full) i;
  naive_step free_pages ps (mkRow prefix s l sp ep sn en np) out.

Lemma naive_body_spec free_pages i out :
  zlen out = batch_tokens pre seq → batch_pages ps pre seq ≤ zlen free_pages → 0 ≤ i < bs →
  naive_body free_pages i out =
  Ok (written ps P S L (dev_ptr u free_pages) i out (S i - P i)).
Proof.
  intros Hout Hfree Hi. unfold naive_body. cbv zeta. pose proof batch_lens as [].
  rewrite (py_get_dev_ptr u pre), (py_get_dev_ptr u seq), (py_get_dev_ptr u last) by lia.
  rewrite batch_ext, !batch_zip, !cumsum_fmap, !zip_fmap, !py_get_fmap by lia.
  cbn [mbind res_bind]. fold (out_start P S (i + 1)) (page_start ps P S (i + 1)).
  pose proof (page_start_range i ltac:(lia)).
  pose proof (page_start_range (i + 1) ltac:(lia)) as Hpp. pose proof (out_start_range i Hi) as [].
  rewrite page_start_step in * by lia. rewrite out_start_step, !Z.add_simpl_r by lia.
  apply (naive_step_spec _ _ _ _ _ _ u Hps); try done; try lia. by apply batch_bounds.
Qed.

Lemma alloc_extend_naive_spec free_pages out :
  zlen out = batch_tokens pre seq → batch_pages ps pre seq ≤ zlen free_pages →
  alloc_extend_naive pre seq last free_pages out ps =
  Ok (extend_out ps P S L (dev_ptr u free_pages) bs).
Proof.
  intros Hout Hfree. pose proof (zlen_nonneg pre) as Hbs.
  change (alloc_extend_naive pre seq last free_pages out ps) with
    (for_each (naive_body free_pages) (zrange 0 bs) out).
  set (E i := extend_out ps P S L (dev_ptr u free_pages) i).
  assert (∀ i, 0 ≤ i ≤ bs → for_each (naive_body free_pages) (zrange 0 i) out =
    Ok (E i ++ drop (Z.to_nat (out_start P S i)) out)) as Hloop.
  { apply batch_ind; [done|]. intros i Hi IH. destruct (out_start_range i Hi) as [Hos Hle].
    assert (length (E i) = Z.to_nat (out_start P S i)) as HlE.
    { rewrite <-(zlen_extend_out ps P S L (dev_ptr u free_pages) bs batch_bounds) by lia.
      unfold zlen. by rewrite Nat2Z.id. }
    pose proof (batch_bounds i Hi). rewrite zrange_snoc by lia.
    rewrite for_each_app, IH. cbn [mbind res_bind for_each]. rewrite naive_body_spec; try done.
    - cbn. unfold written. rewrite take_app_length' by done.
      rewrite drop_app_ge, drop_drop, HlE by lia. unfold E. rewrite extend_out_step by lia.
      rewrite <-app_assoc, out_start_step by lia. unfold slots_of, extend_slots.
      rewrite Zplus_minus. do 5 f_equal. lia.
    - rewrite zlen_app. unfold zlen in *. rewrite length_drop, HlE. lia. }
  rewrite Hloop by lia. f_equal. rewrite drop_ge; [apply app_nil_r|].
  rewrite <-batch_tokens_start, <-Hout. unfold zlen. lia.
Qed.
End batch.

(** ** Rows *)

(** A request as the allocation sees it: its row, the pages the row lies on and
    the length it grows to. *)
Record ereq := mkEReq { e_pages : list Z; e_row : list Z; e_seq : Z }.

Definition row_last (row : list Z) : Z := default (-1) (last row).
Definition prefix_lens (reqs : list ereq) : list Z := (λ r, zlen (e_row r)) <$> reqs.
Definition seq_lens (reqs : list ereq) : list Z := e_seq <$> reqs.
Definition last_locs (reqs : list ereq) : list Z := (λ r, row_last (e_row r)) <$> reqs.

Definition ereq_ok (ps : Z) (r : ereq) : Prop :=
  row_layout ps (e_pages r) (e_row r) ∧ zlen (e_pages r) = npages ps (zlen (e_row r)) ∧
  zlen (e_row r) ≤ e_seq r.

(** The page a request goes on writing: the last one of its row when it is not full.
    The full pages before it may be shared with other requests. *)
Definition open_pages (ps : Z) (r : ereq) : list Z :=
  drop (Z.to_nat (zlen (e_row r) / ps)) (e_pages r).

Section rows.
Context (ps : Z).
Hypothesis Hps : 0 < ps.

Lemma npages_le_div n i : 0 ≤ i < n → i / ps < npages ps n.
Proof.
  intros. pose proof (npages_bounds ps Hps n). apply Z.div_lt_upper_bound; lia.
Qed.

(** A partial page goes on where the row stopped. *)
Lemma row_continues pages row j :
  row_layout ps pages row → zlen row ≤ j < npages ps (zlen row) * ps →
  ∃ p, pages !! Z.to_nat (j / ps) = Some p ∧
       row_last row + 1 + (j - zlen row) = p * ps + j mod ps.
Proof.
  intros HR Hj. pose proof (npages_bounds ps Hps (zlen row)) as Hb.
  assert (0 < zlen row) as Hpos.
  { pose proof (zlen_nonneg row). destruct (Z.eq_dec (zlen row) 0) as [E|]; [|lia].
    rewrite E in *. unfold npages in *. rewrite Z.div_small in * by lia. lia. }
  destruct (last row) as [x|] eqn:Hx; [|apply last_None in Hx; subst row; done].
  unfold row_last. rewrite Hx. simpl. rewrite last_lookup in Hx.
  destruct (HR _ _ Hx) as (p & Hp & ->).
  replace (Z.of_nat (pred (length row))) with (zlen row - 1) in * by (unfold zlen in *; lia).
  assert ((zlen row - 1) / ps = j / ps) as Hsame.
  { transitivity (npages ps (zlen row) - 1); [|symmetry];
      symmetry; [apply Z.div_unique with (zlen row - 1 - (npages ps (zlen row) - 1) * ps)
                |apply Z.div_unique with (j - (npages ps (zlen row) - 1) * ps)]; lia. }
  exists p. rewrite <-Hsame. split; [done|].
  pose proof (Z.div_mod (zlen row - 1) ps ltac:(lia)). pose proof (Z.div_mod j ps ltac:(lia)).
  rewrite Hsame in *. lia.
Qed.

Lemma row_layout_app_pages pages new row :
  row_layout ps pages row → row_layout ps (pages ++ new) row.
Proof.
  intros HR i x Hx. destruct (HR i x Hx) as (p & Hp & ?). exists p. split; [|done].
  by apply lookup_app_l_Some.
Qed.

(** The slots a request gets extend its row onto its new pages. *)
Lemma extend_row_layout pages row seq page new :
  row_layout ps pages row → zlen pages = npages ps (zlen row) → zlen row ≤ seq →
  zlen new = npages ps seq - npages ps (zlen row) →
  (∀ k, 0 ≤ k < zlen new → new !! Z.to_nat k = Some (page k)) →
  row_layout ps (pages ++ new)
    (row ++ extend_slots ps (zlen row) seq (row_last row) page).
Proof.
  intros HR HP Hseq Hnew Hpg i x Hx. apply lookup_app_Some in Hx as [Hx|[Hi Hx]].
  { by apply (row_layout_app_pages pages new row HR). }
  unfold extend_slots in Hx. rewrite list_lookup_fmap, lookup_zrange in Hx.
  case_decide as Hlt; [|done]. simpl in Hx. injection Hx as <-.
  assert (zlen row + Z.of_nat (i - length row) = Z.of_nat i) as Hj by (unfold zlen; lia).
  rewrite Hj. assert (zlen row ≤ Z.of_nat i < seq) as Hr by (unfold zlen in *; lia). clear Hj Hlt Hi.
  unfold extend_slot. destruct (Z.ltb_spec (Z.of_nat i) (npages ps (zlen row) * ps)).
  - destruct (row_continues pages row (Z.of_nat i) HR) as (p & Hp & E); [lia|].
    exists p. split; [|done]. by apply lookup_app_l_Some.
  - assert (npages ps (zlen row) ≤ Z.of_nat i / ps) as Hge by (apply Z.div_le_lower_bound; lia).
    pose proof (npages_le_div seq (Z.of_nat i) ltac:(lia)) as Hlt.
    exists (page (Z.of_nat i / ps - npages ps (zlen row))). split; [|done].
    rewrite lookup_app_r by (unfold zlen in *; lia). rewrite <-Hpg by lia. f_equal.
    unfold zlen in *. lia.
Qed.

(** Rows on distinct pages have distinct slots. *)
Lemma row_layout_page_elem pages row x : row_layout ps pages row → x ∈ row → x / ps ∈ pages.
Proof.
  intros HR [i Hi]%list_elem_of_lookup. apply list_elem_of_lookup. eexists.
  by apply (row_layout_page ps Hps pages row i x).
Qed.

Lemma row_layout_NoDup pages row : row_layout ps pages row → NoDup pages → NoDup row.
Proof.
  intros HR Hnd. apply NoDup_alt. intros i j x Hi Hj.
  destruct (HR i x Hi) as (p & Hp & E1), (HR j x Hj) as (q & Hq & E2).
  pose proof (Z.mod_pos_bound (Z.of_nat i) ps Hps). pose proof (Z.mod_pos_bound (Z.of_nat j) ps Hps).
  assert (p = q) as <- by nia. pose proof (NoDup_lookup _ _ _ _ Hnd Hp Hq) as Hpq.
  apply Z2Nat.inj in Hpq; [|apply Z.div_pos; lia..].
  pose proof (Z.div_mod (Z.of_nat i) ps). pose proof (Z.div_mod (Z.of_nat j) ps). nia.
Qed.

Lemma rows_page_elem pagess rows x :
  Forall2 (row_layout ps) pagess rows → x ∈ concat rows → x / ps ∈ concat pagess.
Proof.
  induction 1 as [|pages row pagess rows HR _ IH]; [by intros ?%elem_of_nil|]. simpl.
  rewrite !elem_of_app. intros [?|?]; [left; by eapply row_layout_page_elem|right; by apply IH].
Qed.

Lemma rows_NoDup pagess rows :
  Forall2 (row_layout ps) pagess rows → NoDup (concat pagess) → NoDup (concat rows).
Proof.
  induction 1 as [|pages row pagess rows HR HF IH]; [by constructor|].
  simpl. rewrite !NoDup_app. intros (Hp & Hd & Hr).
  split; [by eapply row_layout_NoDup|]. split; [|by apply IH].
  intros x Hx Hx'. apply (Hd (x / ps)); [by eapply row_layout_page_elem|by eapply rows_page_elem].
Qed.

Lemma row_layout_drop pages row k :
  0 ≤ k → row_layout ps pages row → row_layout ps (drop (Z.to_nat k) pages) (drop (Z.to_nat (k * ps)) row).
Proof.
  intros Hk HR i x Hx. rewrite lookup_drop in Hx. destruct (HR _ _ Hx) as (p & Hp & ->).
  replace (Z.of_nat (Z.to_nat (k * ps) + i)) with (Z.of_nat i + k * ps) in * by lia.
  rewrite Z.div_add, Z.mod_add in * by lia. exists p. split; [|done]. rewrite lookup_drop, <-Hp. f_equal.
  assert (0 ≤ Z.of_nat i / ps) by (apply Z.div_pos; lia). lia.
Qed.
End rows.

(** ** The batch operations of the allocator *)

Definition grow (new out : Z → list Z) (r : ereq) (i : Z) : ereq :=
  mkEReq (e_pages r ++ new i) (e_row r ++ out i) (e_seq r).

(** What a successful allocation does to a request. *)
Definition grown (ps : Z) (r r' : ereq) : Prop :=
  ereq_ok ps r' ∧ e_seq r' = e_seq r ∧ zlen (e_row r') = e_seq r ∧
  e_row r `prefix_of` e_row r' ∧ e_pages r `prefix_of` e_pages r'.

(** The slots of the new row from the open page on. *)
Definition fresh_end (ps : Z) (r r' : ereq) : list Z := drop (Z.to_nat (zlen (e_row r) / ps * ps)) (e_row r').
Definition fresh_pages (ps : Z) (r r' : ereq) : list Z := drop (Z.to_nat (zlen (e_row r) / ps)) (e_pages r').

(** The slots a batch received: what each row gained, request after request. *)
Definition gained (reqs reqs' : list ereq) : list Z :=
  concat (zip_with (λ r r', drop (length (e_row r)) (e_row r')) reqs reqs').

Section grow.
Context (new out : Z → list Z).

Lemma grow_pages reqs idx :
  length reqs = length idx →
  concat (e_pages <$> zip_with (grow new out) reqs idx) ≡ₚ
  concat (e_pages <$> reqs) ++ concat (new <$> idx).
Proof.
  revert idx. induction reqs as [|r reqs IH]; intros [|i idx] Hl; try done.
  simpl. rewrite IH by (simpl in *; lia). solve_Permutation.
Qed.

Lemma grow_open ps reqs idx :
  0 < ps → length reqs = length idx → Forall (ereq_ok ps) reqs →
  concat (zip_with (fresh_pages ps) reqs (zip_with (grow new out) reqs idx)) ≡ₚ
  concat (open_pages ps <$> reqs) ++ concat (new <$> idx).
Proof.
  intros Hps. revert idx. induction reqs as [|r reqs IH]; intros [|i idx] Hl Hok; try done.
  apply Forall_cons in Hok as [Hr Hreqs].
  cbn [zip_with fmap list_fmap concat]. rewrite IH by (simpl in *; lia || done).
  unfold fresh_pages, open_pages, grow at 1. cbn [e_pages]. rewrite drop_app_le; [solve_Permutation|].
  destruct Hr as (_ & HP & _). unfold npages in HP. pose proof (zlen_nonneg (e_row r)).
  assert (zlen (e_row r) / ps ≤ (zlen (e_row r) + ps - 1) / ps) by (apply Z.div_le_mono; lia).
  unfold zlen in *. lia.
Qed.

Lemma grow_gained reqs idx :
  length reqs = length idx → gained reqs (zip_with (grow new out) reqs idx) = idx ≫= out.
Proof.
  unfold gained. revert idx. induction reqs as [|r reqs IH]; intros [|i idx] Hl; try done.
  simpl. rewrite drop_app_length. f_equal. apply IH. simpl in *. lia.
Qed.

Lemma grow_Forall2 (R : ereq → ereq → Prop) reqs :
  (∀ i r, 0 ≤ i → reqs !! Z.to_nat i = Some r → R r (grow new out r i)) →
  Forall2 R reqs (zip_with (grow new out) reqs (zrange 0 (zlen reqs))).
Proof.
  intros HR. apply Forall2_same_length_lookup_2.
  - rewrite length_zip_with. unfold zlen, zrange. rewrite length_seqZ. lia.
  - intros i r r' Hr Hr'. rewrite lookup_zip_with, Hr in Hr'. simpl in Hr'.
    rewrite lookup_zrange in Hr'. case_decide; [|done]. simpl in Hr'. injection Hr' as <-.
    rewrite Z.add_0_l. apply HR; [lia|]. by rewrite Nat2Z.id.
Qed.
End grow.

Lemma gained_NoDup ps reqs reqs' :
  0 < ps → Forall2 (grown ps) reqs reqs' →
  NoDup (concat (zip_with (fresh_pages ps) reqs reqs')) → NoDup (gained reqs reqs').
Proof.
  intros Hps HF Hnd. apply (sublist_NoDup _ (concat (zip_with (fresh_end ps) reqs reqs'))).
  - eapply (rows_NoDup ps Hps); [|exact Hnd].
    induction HF as [|r r' rs rs' [(HR & _) _] _ IH]; [done|]. cbn [zip_with]. constructor.
    + apply row_layout_drop; [done|apply Z.div_pos; [apply zlen_nonneg|done]|done].
    + apply IH. by apply NoDup_app in Hnd as (_ & _ & ?).
  - unfold gained. clear Hnd. induction HF as [|r r' rs rs' _ _ IH]; [done|]. cbn [zip_with concat].
    apply sublist_app; [|done]. unfold fresh_end.
    assert (Z.to_nat (zlen (e_row r) / ps * ps) ≤ length (e_row r))%nat as Hle.
    { pose proof (Z.mul_div_le (zlen (e_row r)) ps Hps). unfold zlen in *. lia. }
    replace (length (e_row r)) with (Z.to_nat (zlen (e_row r) / ps * ps) +
      (length (e_row r) - Z.to_nat (zlen (e_row r) / ps * ps)))%nat by lia.
    rewrite <-drop_drop. apply sublist_drop.
Qed.

Lemma next_power_of_2_ge n : 0 ≤ n → n ≤ next_power_of_2 n.
Proof.
  intros Hn. unfold next_power_of_2, bit_length. destruct (Z.gtb_spec n 0); [|lia].
  destruct (Z.eqb_spec (n - 1) 0); [rewrite Z.shiftl_0_r; lia|].
  rewrite Z.shiftl_1_l, Z.abs_eq by lia. pose proof (Z.log2_spec (n - 1) ltac:(lia)).
  rewrite <-Z.add_1_r in *. lia.
Qed.

Lemma debug_unique_ok a out : NoDup out → debug_unique a out = Ok tt.
Proof.
  intros Hnd. unfold debug_unique, zlen. rewrite PagedPool.torch_unique_NoDup by done.
  rewrite Z.eqb_refl. by rewrite andb_false_r.
Qed.

Section reqs.
Context (ps : Z) (reqs : list ereq).
Hypotheses (Hps : 0 < ps) (Hreqs : Forall (ereq_ok ps) reqs).

Lemma reqs_batch : batch_ok (prefix_lens reqs) (seq_lens reqs) (last_locs reqs).
Proof.
  unfold batch_ok, prefix_lens, seq_lens, last_locs. rewrite !length_fmap. split_and!; try done.
  rewrite Forall2_fmap. apply Forall_Forall2_diag. eapply Forall_impl; [done|].
  intros r (_ & _ & ?). pose proof (zlen_nonneg (e_row r)). simpl. lia.
Qed.

Lemma zlen_prefix_lens : zlen (prefix_lens reqs) = zlen reqs.
Proof. apply zlen_fmap. Qed.

Lemma reqs_ptr u i r :
  0 ≤ i → reqs !! Z.to_nat i = Some r →
  dev_ptr u (prefix_lens reqs) i = zlen (e_row r) ∧ dev_ptr u (seq_lens reqs) i = e_seq r ∧
  dev_ptr u (last_locs reqs) i = row_last (e_row r).
Proof.
  intros Hi Hr. unfold prefix_lens, seq_lens, last_locs.
  split_and!; apply dev_ptr_lookup; try done; by rewrite list_lookup_fmap, Hr.
Qed.

Lemma row_last_mod r : ereq_ok ps r → (row_last (e_row r) + 1) mod ps = zlen (e_row r) mod ps.
Proof.
  intros (HR & _ & _). unfold row_last. destruct (last (e_row r)) as [x|] eqn:Hx; simpl.
  - rewrite last_lookup in Hx. destruct (HR _ _ Hx) as (p & _ & ->).
    assert (length (e_row r) ≠ 0%nat) as Hne by (apply lookup_lt_Some in Hx; lia).
    replace (zlen (e_row r)) with (Z.of_nat (pred (length (e_row r))) + 1) by (unfold zlen; lia).
    rewrite <-Z.add_assoc, Z.add_comm, Z.mod_add by lia. by rewrite Zplus_mod_idemp_l.
  - apply last_None in Hx as ->. done.
Qed.

Lemma debug_last_locs :
  forallb (λ '(l, p), (l + 1) mod ps =? p mod ps) (zip (last_locs reqs) (prefix_lens reqs)) = true.
Proof.
  unfold last_locs, prefix_lens. rewrite zip_with_fmap_l, zip_with_fmap_r, zip_with_diag.
  induction Hreqs as [|r rs Hr Hrs IH]; [done|]. cbn [fmap list_fmap forallb].
  rewrite row_last_mod, Z.eqb_refl by done. by apply IH.
Qed.

(** The pages of the free list, request after request. *)
Context (u : Z → Z) (free : list Z).
Local Abbreviation P := (dev_ptr u (prefix_lens reqs)).
Local Abbreviation S := (dev_ptr u (seq_lens reqs)).
Local Abbreviation L := (dev_ptr u (last_locs reqs)).
Local Abbreviation need := (batch_pages ps (prefix_lens reqs) (seq_lens reqs)).

Definition new_of (i : Z) : list Z :=
  slice free (page_start ps P S i) (page_start ps P S (i + 1)).
Definition out_of (i : Z) : list Z :=
  extend_slots ps (P i) (S i) (L i) (λ k, dev_ptr u free (page_start ps P S i + k)).

Hypothesis Hneed : need ≤ zlen free.

Lemma page_start_next i :
  0 ≤ i < zlen reqs → 0 ≤ page_start ps P S i ≤ page_start ps P S (i + 1) ∧
                      page_start ps P S (i + 1) ≤ zlen free.
Proof.
  intros Hi. rewrite <-zlen_prefix_lens in Hi.
  pose proof (page_start_range ps u _ _ _ Hps reqs_batch i ltac:(lia)).
  pose proof (page_start_range ps u _ _ _ Hps reqs_batch (i + 1) ltac:(lia)).
  pose proof (batch_bounds u _ _ _ reqs_batch i Hi) as Hpi.
  pose proof (npages_mono ps Hps (P i) (S i)).
  pose proof (page_start_step ps u (prefix_lens reqs) (seq_lens reqs) i). lia.
Qed.

Lemma concat_new : concat (new_of <$> zrange 0 (zlen reqs)) = slice_to free need.
Proof.
  assert (∀ i, 0 ≤ i ≤ zlen reqs →
    concat (new_of <$> zrange 0 i) = take (Z.to_nat (page_start ps P S i)) free) as H.
  { apply batch_ind; [done|]. intros i Hi IH. rewrite zrange_snoc by lia.
    rewrite fmap_app, concat_app, IH. simpl. rewrite app_nil_r. unfold new_of.
    pose proof (page_start_next i Hi). rewrite slice_take_drop by lia.
    rewrite take_take_drop. f_equal. lia. }
  pose proof (page_start_range ps u _ _ _ Hps reqs_batch 0) as H0.
  rewrite zlen_prefix_lens in H0. pose proof (zlen_nonneg reqs).
  rewrite H, slice_to_take by lia. rewrite (batch_pages_start ps u _ _ _ reqs_batch).
  by rewrite zlen_prefix_lens.
Qed.

Lemma grow_grown i r :
  0 ≤ i → reqs !! Z.to_nat i = Some r → grown ps r (grow new_of out_of r i).
Proof.
  intros Hi Hr. assert (i < zlen reqs) as Hlt by (apply lookup_lt_Some in Hr; unfold zlen; lia).
  pose proof (page_start_next i ltac:(lia)) as Hpg.
  pose proof (page_start_step ps u (prefix_lens reqs) (seq_lens reqs) i Hi) as Hstep.
  destruct (reqs_ptr u i r Hi Hr) as (EP & ES & EL).
  destruct (Forall_lookup_1 _ _ _ _ Hreqs Hr) as (HR & HP & Hle). rewrite EP, ES in Hstep.
  assert (zlen (new_of i) = npages ps (e_seq r) - npages ps (zlen (e_row r))) as Hnew.
  { unfold new_of. rewrite zlen_slice by lia. lia. }
  assert (zlen (e_row r ++ out_of i) = e_seq r) as Hlen.
  { unfold out_of, extend_slots. rewrite zlen_app, zlen_fmap, EP, ES, zlen_zrange by lia. lia. }
  unfold grown, ereq_ok, grow. cbn [e_pages e_row e_seq]. rewrite Hlen.
  split_and!; try done; try (by eexists); [|rewrite zlen_app, Hnew; lia].
  unfold out_of. rewrite EP, ES, EL. apply extend_row_layout; try done.
  intros k Hk. unfold new_of. rewrite (slice_take_drop free) by lia.
  rewrite lookup_take_lt, lookup_drop by lia.
  destruct (lookup_lt_is_Some_2 free (Z.to_nat (page_start ps P S i + k))) as [x Hx].
  { unfold zlen in *. lia. }
  rewrite (dev_ptr_lookup u free _ x) by (done || lia). rewrite <-Hx. f_equal. lia.
Qed.

Definition reqs' : list ereq := zip_with (grow new_of out_of) reqs (zrange 0 (zlen reqs)).

Lemma reqs_idx : length reqs = length (zrange 0 (zlen reqs)).
Proof. unfold zlen, zrange. rewrite length_seqZ. lia. Qed.

Lemma reqs'_spec :
  Forall2 (grown ps) reqs reqs' ∧
  extend_out ps P S L (dev_ptr u free) (zlen reqs) = gained reqs reqs' ∧
  concat (e_pages <$> reqs') ≡ₚ concat (e_pages <$> reqs) ++ slice_to free need ∧
  (NoDup (concat (open_pages ps <$> reqs) ++ slice_to free need) → NoDup (gained reqs reqs')).
Proof.
  assert (Forall2 (grown ps) reqs reqs') as HF by (apply grow_Forall2, grow_grown).
  split_and!; [done|unfold reqs'; by rewrite grow_gained by apply reqs_idx| |].
  - unfold reqs'. rewrite grow_pages by apply reqs_idx. by rewrite concat_new.
  - rewrite <-concat_new, <-(grow_open new_of out_of ps reqs) by (done || apply reqs_idx). fold reqs'.
    exact (gained_NoDup ps reqs reqs' Hps HF).
Qed.
End reqs.

(** ** Decoding: one slot per request *)

Section decode.
Context (d : Device) (ps : Z) (pre seq last page : Z → Z) (bs : Z).
Hypotheses (Hps : 0 < ps) (Hone : ∀ i, 0 ≤ i < bs → pre i = seq i - 1).

Lemma decode_out_start i : 0 ≤ i ≤ bs → out_start pre seq i = i.
Proof.
  revert i. apply batch_ind; [done|]. intros i Hi IH.
  rewrite out_start_step, IH, Hone by lia. lia.
Qed.

(** No law about the masked lanes is needed here: both lengths of such a lane
    are the same unknown value. *)
Lemma decode_kernel_stores bs_upper pid :
  bs ≤ bs_upper → 0 ≤ pid < bs → 0 ≤ pre pid →
  alloc_decode_kernel d seq last page bs_upper ps pid =
  slot_stores ps pre seq last page pid (pre pid) (seq pid).
Proof.
  intros Hup Hpid Hpre. unfold alloc_decode_kernel, slot_stores. cbv zeta.
  rewrite decode_out_start by lia. pose proof (Hone pid Hpid) as Hp.
  assert (zrange (pre pid) (seq pid) = [pre pid]) as ->.
  { rewrite <-(zrange_singleton (pre pid)). f_equal. lia. }
  cbn [fmap list_fmap]. rewrite Z.sub_diag, Z.add_0_r.
  unfold extend_slot. fold (npages ps (seq pid)).
  assert (page_start ps pre seq pid = zsum (zip_with Z.sub
    ((λ s, (s + ps - 1) / ps) <$> tl_load (masked_seq d) seq (zrange 0 bs_upper) (λ o, o <=? pid))
    ((λ s, (s + ps - 1) / ps) <$> zip_with (λ o s : Z, if o <=? pid then s - 1 else s)
       (zrange 0 bs_upper) (tl_load (masked_seq d) seq (zrange 0 bs_upper) (λ o, o <=? pid))))
    - (npages ps (seq pid) - npages ps (pre pid))) as Hst.
  { unfold tl_load. rewrite (zip_with_fmap_r _ (λ o, if o <=? pid then seq o else masked_seq d o)
      (zrange 0 bs_upper) (zrange 0 bs_upper)), zip_with_diag, <-!list_fmap_compose, zip_fmap.
    set (h i := npages ps (seq i) - npages ps (seq i - 1)).
    transitivity (zsum (h <$> zrange 0 (pid + 1)) - h pid).
    - rewrite zrange_snoc by lia. rewrite fmap_app. cbn [fmap list_fmap].
      rewrite zsum_snoc, Z.add_simpl_r. unfold page_start. f_equal. apply fmap_zrange_ext.
      intros i Hi. unfold h. by rewrite Hone by lia.
    - unfold h at 2. rewrite <-Hp. f_equal.
      rewrite <-(zsum_zrange_masked h (λ _, 0) pid bs_upper) by (done || lia). f_equal.
      apply list_fmap_ext. intros i x _. unfold compose. destruct (x <=? pid); [done|lia]. }
  rewrite <-Hp. fold (npages ps (pre pid)). rewrite <-Hst. clear Hst.
  pose proof (npages_bounds ps Hps (pre pid)). pose proof (npages_bounds ps Hps (seq pid)).
  destruct (Z.ltb_spec (pre pid) (npages ps (pre pid) * ps)) as [Hlt|Hge].
  - assert (npages ps (seq pid) = npages ps (pre pid)) as -> by nia.
    rewrite Z.sub_diag, Z.eqb_refl. do 2 f_equal. lia.
  - assert (pre pid = npages ps (pre pid) * ps) as E by lia.
    destruct (Z.eqb_spec (npages ps (seq pid) - npages ps (pre pid)) 0); [nia|].
    assert (pre pid / ps = npages ps (pre pid) ∧ pre pid mod ps = 0) as [-> ->].
    { rewrite E at 1 3. by rewrite Z.div_mul, Z.mod_mul by lia. }
    by rewrite Z.sub_diag, !Z.add_0_r.
Qed.

Lemma launch_decode `{!DeviceLaws d} bs_upper out :
  0 ≤ bs ≤ bs_upper → (∀ i, 0 ≤ i < bs → 0 ≤ pre i) → zlen out = bs →
  launch d bs (alloc_decode_kernel d seq last page bs_upper ps) out =
  Ok (extend_out ps pre seq last page bs).
Proof.
  intros Hup Hpre Hout.
  assert (∀ i, 0 ≤ i < bs → 0 ≤ pre i ≤ seq i) as Hlens.
  { intros i Hi. pose proof (Hone i Hi). pose proof (Hpre i Hi). lia. }
  assert (∀ i, 0 ≤ i ≤ bs →
    zrange 0 i ≫= alloc_decode_kernel d seq last page bs_upper ps =
    zrange 0 i ≫= alloc_extend_kernel d pre seq last page bs_upper ps) as Heq.
  { apply batch_ind; [done|]. intros i Hi IH. rewrite zrange_snoc by lia. rewrite !bind_app, IH.
    f_equal. simpl. pose proof (Hlens i Hi).
    by rewrite decode_kernel_stores, extend_kernel_stores by (done || lia). }
  unfold launch. rewrite Heq by lia.
  apply (launch_extend d ps pre seq last page Hps bs (proj1 Hup) Hlens bs_upper out); [lia|].
  by rewrite decode_out_start by lia.
Qed.

Lemma decode_new_pages n :
  1 < ps → 0 ≤ n → (if (n + 1) mod ps =? 1 then 1 else 0) = npages ps (n + 1) - npages ps n.
Proof.
  intros H1 Hn. pose proof (Z.div_mod (n + 1) ps ltac:(lia)).
  pose proof (Z.mod_pos_bound (n + 1) ps ltac:(lia)). set (q := (n + 1) / ps) in *.
  assert (∀ k m, (k - 1) * ps < m ≤ k * ps → npages ps m = k) as Huniq.
  { intros k m Hm. symmetry. apply Z.div_unique with (m + ps - 1 - k * ps); lia. }
  destruct (Z.eqb_spec ((n + 1) mod ps) 1) as [E|E].
  - rewrite (Huniq (q + 1) (n + 1)), (Huniq q n); lia.
  - destruct (Z.eq_dec ((n + 1) mod ps) 0).
    + rewrite (Huniq q (n + 1)), (Huniq q n); lia.
    + rewrite (Huniq (q + 1) (n + 1)), (Huniq (q + 1) n); lia.
Qed.
End decode.

(** ** The allocator's batch operations on rows *)

(** The end of both operations: the debug check and the cut of the free list. *)
Definition take_pages (a : Alloc) (out : list Z) (n : Z) : res (option (list Z) * Alloc) :=
  _ ← debug_unique a out;
  if n >? zlen (free_pages a) then Ok (None, a)
  else Ok (Some out, set_free_pages a (slice_from (free_pages a) n)).

(** The outcome of a batch allocation that needs [need] pages: either every row
    has grown and the pages went from the pool to the rows, or the pool is too
    small and keeps its pages. *)
Definition batch_result (a : Alloc) (reqs : list ereq) (need : Z)
    (r : option (list Z)) (a' : Alloc) : Prop :=
  match r with
  | Some out => ∃ reqs', Forall2 (grown (page_size a)) reqs reqs' ∧ out = gained reqs reqs' ∧
      concat (e_pages <$> reqs') ++ PagedPool.pool a' ≡ₚ
      concat (e_pages <$> reqs) ++ PagedPool.pool a
  | None => zlen (free_pages a) + zlen (release_pages a) < need ∧
            PagedPool.pool a' ≡ₚ PagedPool.pool a
  end.

Section batch_alloc.
Context (u : Z → Z) (a : Alloc) (reqs : list ereq).
Hypotheses (Hwf : alloc_wf a) (Hreqs : Forall (ereq_ok (page_size a)) reqs).
Hypothesis (Hnd : NoDup (concat (open_pages (page_size a) <$> reqs) ++ PagedPool.pool a)).
Local Abbreviation need := (batch_pages (page_size a) (prefix_lens reqs) (seq_lens reqs)).
Hypothesis Hdebug :
  debug_mode a = false ∨ need ≤ zlen (free_pages a) + zlen (release_pages a).

Lemma need_nonneg : 0 ≤ need.
Proof.
  pose proof (proj1 Hwf). pose proof (zlen_nonneg (prefix_lens reqs)).
  pose proof (page_start_range (page_size a) u _ _ _ ltac:(done) (reqs_batch _ reqs Hreqs)
    0 ltac:(lia)). lia.
Qed.

(** [a1] is the pool after the optional merge for an estimate of [n] pages. *)
Lemma take_pages_spec n (a1 := if need_sort a && (n >? zlen (free_pages a))
                               then Base.merge_and_sort_free a else a) :
  need ≤ n →
  ∃ r a', take_pages a1
      (extend_out (page_size a) (dev_ptr u (prefix_lens reqs)) (dev_ptr u (seq_lens reqs))
         (dev_ptr u (last_locs reqs)) (dev_ptr u (free_pages a1)) (zlen reqs)) need = Ok (r, a') ∧
    alloc_wf a' ∧ page_size a' = page_size a ∧ batch_result a reqs need r a'.
Proof.
  intros Hn. pose proof need_nonneg. pose proof (proj1 Hwf) as Hps.
  destruct (merge_if_needed a n Hwf ltac:(lia)) as (Hwf1 & Hps1 & Hd1 & HP1 & Hfull).
  fold a1 in Hwf1, Hps1, Hd1, HP1, Hfull. unfold take_pages.
  destruct (Z.gtb_spec need (zlen (free_pages a1))) as [Hlt|Hge].
  - destruct Hdebug as [Hd|Hen]; [|lia]. unfold debug_unique. rewrite Hd1, Hd.
    exists None, a1. split; [done|]. split; [done|]. split; [done|]. split; [lia|done].
  - destruct (reqs'_spec (page_size a) reqs Hps Hreqs u (free_pages a1) Hge)
      as (HF & HE & HPg & HN).
    assert (PagedPool.pool a1 ≡ₚ slice_to (free_pages a1) need ++
      PagedPool.pool (set_free_pages a1 (slice_from (free_pages a1) need))) as Hcut.
    { unfold PagedPool.pool, PagedPool.pending. simpl.
      by rewrite (app_assoc (slice_to _ _)), slice_to_from by done. }
    set (rs := reqs' _ _ _ _) in *.
    assert (concat (e_pages <$> rs) ++
      PagedPool.pool (set_free_pages a1 (slice_from (free_pages a1) need)) ≡ₚ
      concat (e_pages <$> reqs) ++ PagedPool.pool a) as Htot.
    { by rewrite HPg, <-app_assoc, <-Hcut, HP1. }
    rewrite HE, debug_unique_ok.
    + do 2 eexists. split; [done|]. split; [done|]. split; [done|]. exists rs. split_and!; done.
    + apply HN. rewrite <-HP1, Hcut, app_assoc in Hnd. by apply NoDup_app in Hnd as (? & _ & _).
Qed.
End batch_alloc.

Lemma batch_pages_estimate ps pre seq :
  0 < ps → Forall2 (λ p s, 0 ≤ p ≤ s) pre seq →
  batch_pages ps pre seq ≤ batch_tokens pre seq / ps + zlen pre.
Proof.
  intros Hps HF. unfold batch_pages, batch_tokens.
  assert (0 ≤ zsum (zip_with Z.sub seq pre) ∧
    (zsum (zip_with Z.sub (npages ps <$> seq) (npages ps <$> pre)) - zlen pre) * ps
    ≤ zsum (zip_with Z.sub seq pre)) as [_ H].
  { induction HF as [|p s pre seq Hp _ [IH1 IH2]]; [by vm_compute|]. cbn [zip_with fmap list_fmap].
    unfold zsum in *. cbn [foldr]. rewrite zlen_cons.
    pose proof (npages_bounds ps Hps p). pose proof (npages_bounds ps Hps s). nia. }
  pose proof (Z.div_le_lower_bound _ ps _ Hps ltac:(rewrite Z.mul_comm; exact H)). lia.
Qed.

(** Decoding grows every row by one position. *)
Section decode_batch.
Context (ps : Z) (reqs : list ereq).
Hypotheses (Hps : 1 < ps) (Hreqs : Forall (ereq_ok ps) reqs).
Hypothesis Hone : Forall (λ r, e_seq r = zlen (e_row r) + 1) reqs.

Lemma debug_decode_locs :
  forallb (λ '(l, s), (l + 2) mod ps =? s mod ps) (zip (last_locs reqs) (seq_lens reqs)) = true.
Proof.
  unfold last_locs, seq_lens. rewrite zip_with_fmap_l, zip_with_fmap_r, zip_with_diag.
  clear -Hps Hreqs Hone. revert Hreqs. induction Hone as [|r rs Hr Hrs IH]; intros Hok; [done|].
  apply Forall_cons in Hok as [Hr' Hok]. cbn [fmap list_fmap forallb].
  replace (row_last (e_row r) + 2) with (row_last (e_row r) + 1 + 1) by lia.
  rewrite <-Zplus_mod_idemp_l, row_last_mod, Zplus_mod_idemp_l, Hr, Z.eqb_refl by (done || lia).
  by apply IH.
Qed.

Lemma decode_need :
  zsum ((λ s, if s mod ps =? 1 then 1 else 0) <$> seq_lens reqs) =
  batch_pages ps (prefix_lens reqs) (seq_lens reqs).
Proof.
  unfold batch_pages, seq_lens, prefix_lens. rewrite <-!list_fmap_compose.
  rewrite zip_with_fmap_l, zip_with_fmap_r, zip_with_diag. f_equal. apply list_fmap_ext.
  intros i r Hr. unfold compose. rewrite (Forall_lookup_1 _ _ _ _ Hone Hr).
  apply decode_new_pages; try lia. apply zlen_nonneg.
Qed.

Lemma decode_need_le : batch_pages ps (prefix_lens reqs) (seq_lens reqs) ≤ zlen reqs.
Proof.
  rewrite <-decode_need. unfold seq_lens. clear. induction reqs as [|r rs IH]; [done|].
  rewrite fmap_cons, fmap_cons, zlen_cons. unfold zsum in *. cbn [foldr].
  destruct (_ =? 1); lia.
Qed.
End decode_batch.

Lemma alloc_extend_spec (d : Device) (Hd : DeviceLaws d) (a : Alloc) (reqs : list ereq)
    (need := batch_pages (page_size a) (prefix_lens reqs) (seq_lens reqs)) :
  alloc_wf a → Forall (ereq_ok (page_size a)) reqs →
  NoDup (concat (open_pages (page_size a) <$> reqs) ++ PagedPool.pool a) →
  (debug_mode a = false ∨ need ≤ zlen (free_pages a) + zlen (release_pages a)) →
  ∃ r a', alloc_extend d (prefix_lens reqs) (prefix_lens reqs) (seq_lens reqs) (seq_lens reqs)
            (last_locs reqs) (batch_tokens (prefix_lens reqs) (seq_lens reqs)) None a = Ok (r, a') ∧
    alloc_wf a' ∧ page_size a' = page_size a ∧ batch_result a reqs need r a'.
Proof.
  intros Hwf Hreqs Hnd Hdebug. pose proof (proj1 Hwf) as Hps. unfold alloc_extend. cbv zeta.
  rewrite debug_last_locs by done. cbn [negb]. rewrite andb_false_r, zlen_prefix_lens.
  pose proof (reqs_batch _ reqs Hreqs) as Hb. pose proof Hb as (_ & _ & HF).
  set (n := batch_tokens _ _ / _ + _ + 1).
  pose proof (zlen_nonneg reqs) as Hbs. rewrite <-zlen_prefix_lens in Hbs.
  assert (need ≤ n) as Hn.
  { pose proof (batch_pages_estimate _ _ _ Hps HF) as He. rewrite zlen_prefix_lens in He. lia. }
  rewrite (launch_extend d (page_size a)); try done.
  - destruct (take_pages_spec (beyond d) a reqs Hwf Hreqs Hnd Hdebug n Hn) as (r & a' & Ht & ?).
    exists r, a'. split; [|done]. exact Ht.
  - by rewrite <-zlen_prefix_lens.
  - intros i Hi. rewrite <-zlen_prefix_lens in Hi. by eapply batch_bounds.
  - apply next_power_of_2_ge. by rewrite <-zlen_prefix_lens.
  - rewrite zlen_torch_empty.
    + rewrite <-zlen_prefix_lens. by eapply batch_tokens_start.
    + clear -HF. induction HF; [by vm_compute|]. unfold batch_tokens, zsum in *. simpl. lia.
Qed.

Lemma alloc_decode_spec (d : Device) (Hd : DeviceLaws d) (a : Alloc) (reqs : list ereq)
    (need := batch_pages (page_size a) (prefix_lens reqs) (seq_lens reqs)) :
  alloc_wf a → 1 < page_size a → Forall (ereq_ok (page_size a)) reqs →
  Forall (λ r, e_seq r = zlen (e_row r) + 1) reqs →
  NoDup (concat (open_pages (page_size a) <$> reqs) ++ PagedPool.pool a) →
  (debug_mode a = false ∨ need ≤ zlen (free_pages a) + zlen (release_pages a)) →
  ∃ r a', alloc_decode d (seq_lens reqs) (seq_lens reqs) (last_locs reqs) a = Ok (r, a') ∧
    alloc_wf a' ∧ page_size a' = page_size a ∧ batch_result a reqs need r a'.
Proof.
  intros Hwf H1 Hreqs Hone Hnd Hdebug. pose proof (proj1 Hwf) as Hps.
  unfold alloc_decode, get_num_new_pages. cbv zeta. rewrite debug_decode_locs by done.
  cbn [negb]. rewrite andb_false_r.
  assert (zsum ((λ s, if s mod page_size a =? 1 then 1 else 0) <$> seq_lens reqs) = need) as ->.
  { by apply decode_need. }
  assert (zlen (seq_lens reqs) = zlen reqs) as -> by apply zlen_fmap.
  pose proof (zlen_nonneg reqs) as Hbs.
  rewrite (launch_decode d (page_size a) (dev_ptr (beyond d) (prefix_lens reqs))); try done.
  - destruct (take_pages_spec (beyond d) a reqs Hwf Hreqs Hnd Hdebug (zlen reqs)) as (r & a' & Ht & ?).
    { by apply decode_need_le. }
    exists r, a'. split; [|done]. exact Ht.
  - intros i Hi. destruct (lookup_lt_is_Some_2 reqs (Z.to_nat i)) as [r Hr]; [unfold zlen in *; lia|].
    destruct (reqs_ptr reqs (beyond d) i r) as (-> & -> & _); [lia|done|].
    rewrite (Forall_lookup_1 _ _ _ _ Hone Hr). lia.
  - split; [done|]. by apply next_power_of_2_ge.
  - intros i Hi. rewrite <-zlen_prefix_lens in Hi.
    by apply (batch_bounds (beyond d) _ _ _ (reqs_batch _ reqs Hreqs) i).
  - by apply zlen_torch_empty.
Qed.

(** ** Properties *)

(** C16: the parallel [alloc_extend_kernel] computes what the sequential
    [alloc_extend_naive] computes.  For a batch of requests with enough free
    pages, and whatever the order in which the device performs the stores of the
    programs and whatever the output tensor held before, no store leaves the
    output tensor and the two outputs are equal. *)
Theorem extend_kernel_equals_naive (d : Device) (Hd : DeviceLaws d)
    (pre seq last free out1 out2 : list Z) (ps : Z) :
  0 < ps → batch_ok pre seq last → batch_pages ps pre seq ≤ zlen free →
  zlen out1 = batch_tokens pre seq → zlen out2 = batch_tokens pre seq →
  ∃ out,
    launch d (zlen pre)
      (alloc_extend_kernel d (dev_ptr (beyond d) pre) (dev_ptr (beyond d) seq)
         (dev_ptr (beyond d) last) (dev_ptr (beyond d) free)
         (next_power_of_2 (zlen pre)) ps) out1 = Ok out ∧
    alloc_extend_naive pre seq last free out2 ps = Ok out.
Proof.
  intros Hps Hb Hfree H1 H2. eexists. split.
  - apply launch_extend; [done|done|apply zlen_nonneg| | |].
    + intros i Hi. by eapply batch_bounds.
    + apply next_power_of_2_ge, zlen_nonneg.
    + rewrite H1. by eapply batch_tokens_start.
  - by apply alloc_extend_naive_spec.
Qed.

(** A device that performs the stores in the reverse order. *)
Definition backwards : Device :=
  mkDevice (λ _, 77) (λ i, i * i) (λ i, i * i) (@reverse (Z * Z)) (λ n, replicate (Z.to_nat n) 9).
#[export] Instance backwards_laws : DeviceLaws backwards.
Proof.
  split.
  - done.
  - intros l. apply reverse_Permutation.
  - intros n Hn. unfold zlen. simpl. rewrite length_replicate. lia.
Qed.

Lemma extend_kernel_equals_naive_witness :
  ∃ out, launch backwards 2
      (alloc_extend_kernel backwards (dev_ptr (beyond backwards) [3; 4])
         (dev_ptr (beyond backwards) [10; 6]) (dev_ptr (beyond backwards) [22; 35])
         (dev_ptr (beyond backwards) [7; 2; 9; 1]) (next_power_of_2 2) 4)
      (replicate 9 0) = Ok out ∧
    alloc_extend_naive [3; 4] [10; 6] [22; 35] [7; 2; 9; 1] (replicate 9 5) 4 = Ok out.
Proof.
  apply (extend_kernel_equals_naive backwards _ [3; 4] [10; 6] [22; 35] [7; 2; 9; 1]
           (replicate 9 0) (replicate 9 5) 4).
  - lia.
  - split; [reflexivity|]. split; [reflexivity|]. repeat constructor; lia.
  - vm_compute. discriminate.
  - reflexivity.
  - reflexivity.
Defined.

(** [alloc_extend] of the paged pool keeps every row well laid out.  Given
    requests whose unfinished last pages are distinct from each other and from the
    pool (full pages of a prefix may be shared), it either returns slots that
    extend each row to its new length, the old partial page first and then fresh
    pages that leave the pool, so that rows and pool together still hold the same
    pages, or it finds the pool too small and leaves its pages alone.  The debug assertions hold; with too few
    pages they are off, because the kernel then reads past the free list. *)
Theorem alloc_extend_grows_rows (d : Device) (Hd : DeviceLaws d) (a : Alloc) (reqs : list ereq)
    (need := batch_pages (page_size a) (prefix_lens reqs) (seq_lens reqs)) :
  alloc_wf a → Forall (ereq_ok (page_size a)) reqs →
  NoDup (concat (open_pages (page_size a) <$> reqs) ++ PagedPool.pool a) →
  (debug_mode a = false ∨ need ≤ zlen (free_pages a) + zlen (release_pages a)) →
  ∃ r a', alloc_extend d (prefix_lens reqs) (prefix_lens reqs) (seq_lens reqs) (seq_lens reqs)
            (last_locs reqs) (batch_tokens (prefix_lens reqs) (seq_lens reqs)) None a = Ok (r, a') ∧
    alloc_wf a' ∧ batch_result a reqs need r a'.
Proof.
  intros Hwf Hreqs Hnd Hdebug. destruct (alloc_extend_spec d Hd a reqs Hwf Hreqs Hnd Hdebug) as (r & a' & ? & ? & _ & ?).
  by exists r, a'.
Qed.

Lemma alloc_extend_grows_rows_witness :
  ∃ r a', alloc_extend backwards [3; 4] [3; 4] [10; 6] [10; 6] [22; 35] 9 None
            (mkAlloc 40 4 true true 10 [7] [2; 9; 1] None []) = Ok (r, a') ∧ alloc_wf a' ∧
          r = Some [23; 4; 5; 6; 7; 8; 9; 28; 29].
Proof.
  destruct (alloc_extend_grows_rows backwards _ (mkAlloc 40 4 true true 10 [7] [2; 9; 1] None [])
    [mkEReq [5] [20; 21; 22] 10; mkEReq [8] [32; 33; 34; 35] 6]) as (r & a' & H1 & H2 & _).
  - repeat split; discriminate.
  - repeat constructor; try (vm_compute; congruence);
      intros i x Hx; do 4 (destruct i as [|i]; [vm_compute in Hx; try discriminate;
        injection Hx as <-; eexists; vm_compute; done|]); discriminate.
  - by_evaluation.
  - right. vm_compute. discriminate.
  - exists r, a'. split; [exact H1|]. split; [exact H2|]. vm_compute in H1. congruence.
Defined.

(** [alloc_decode] gives every request of a batch the one slot its next token
    needs: with pages of more than one slot, either each row grows by one slot,
    on its last page or at the start of a fresh page taken from the pool, and
    rows and pool keep their pages, or the pool is too small and unchanged. *)
Theorem alloc_decode_grows_rows (d : Device) (Hd : DeviceLaws d) (a : Alloc) (reqs : list ereq)
    (need := batch_pages (page_size a) (prefix_lens reqs) (seq_lens reqs)) :
  alloc_wf a → 1 < page_size a → Forall (ereq_ok (page_size a)) reqs →
  Forall (λ r, e_seq r = zlen (e_row r) + 1) reqs →
  NoDup (concat (open_pages (page_size a) <$> reqs) ++ PagedPool.pool a) →
  (debug_mode a = false ∨ need ≤ zlen (free_pages a) + zlen (release_pages a)) →
  ∃ r a', alloc_decode d (seq_lens reqs) (seq_lens reqs) (last_locs reqs) a = Ok (r, a') ∧
    alloc_wf a' ∧ batch_result a reqs need r a'.
Proof.
  intros Hwf H1 Hreqs Hone Hnd Hdebug. destruct (alloc_decode_spec d Hd a reqs Hwf H1 Hreqs Hone Hnd Hdebug) as (r & a' & ? & ? & _ & ?).
  by exists r, a'.
Qed.

Lemma alloc_decode_grows_rows_witness :
  ∃ r a', alloc_decode backwards [4; 5] [4; 5] [22; 35]
            (mkAlloc 40 4 false true 10 [7; 2] [] None []) = Ok (r, a') ∧ alloc_wf a' ∧
          r = Some [23; 28].
Proof.
  destruct (alloc_decode_grows_rows backwards _ (mkAlloc 40 4 false true 10 [7; 2] [] None [])
    [mkEReq [5] [20; 21; 22] 4; mkEReq [8] [32; 33; 34; 35] 5]) as (r & a' & H1 & H2 & _).
  - repeat split; discriminate.
  - vm_compute. reflexivity.
  - repeat constructor; try (vm_compute; congruence);
      intros i x Hx; do 4 (destruct i as [|i]; [vm_compute in Hx; try discriminate;
        injection Hx as <-; eexists; vm_compute; done|]); discriminate.
  - repeat constructor.
  - by_evaluation.
  - right. vm_compute. discriminate.
  - exists r, a'. split; [exact H1|]. split; [exact H2|]. vm_compute in H1. congruence.
Defined.
