(* ===== verification/ReqPool.v ===== *)
(** * Requests and their rows

    [ReqKvInfo] and the KV-related part of [Req] ([managers/schedule_batch.py])
    and [ReqToTokenPool] ([mem_cache/memory_pool.py]): the table with one row of
    KV slots per running request, the free list of row numbers and the
    generation counters. *)

From S2P Require Import Prelude.

(** ** [ReqKvInfo] *)

Record ReqKvInfo := mkKv {
  req_pool_idx : option Z;
  cache_protected_len : Z;
  kv_committed_len : Z;
  kv_allocated_len : Z;
  swa_evict_floor : Z;
  swa_evicted_seqlen : Z;
}.

Definition kv_empty : ReqKvInfo := mkKv None 0 0 0 0 0.

Definition set_req_pool_idx (kv : ReqKvInfo) x :=
  mkKv x (cache_protected_len kv) (kv_committed_len kv) (kv_allocated_len kv)
    (swa_evict_floor kv) (swa_evicted_seqlen kv).
Definition set_cache_protected_len (kv : ReqKvInfo) x :=
  mkKv (req_pool_idx kv) x (kv_committed_len kv) (kv_allocated_len kv)
    (swa_evict_floor kv) (swa_evicted_seqlen kv).
Definition set_swa_evicted_seqlen (kv : ReqKvInfo) x :=
  mkKv (req_pool_idx kv) (cache_protected_len kv) (kv_committed_len kv) (kv_allocated_len kv)
    (swa_evict_floor kv) x.

Definition swa_dead_lo (kv : ReqKvInfo) (page_size : Z) : Z :=
  let lo := Z.max (cache_protected_len kv) (swa_evict_floor kv) in
  if (page_size >? 1) && (lo >? cache_protected_len kv) then ceil_align lo page_size else lo.

Definition holds_kv (kv : ReqKvInfo) : bool := bool_decide (is_Some (req_pool_idx kv)).
Definition is_kv_released (kv : ReqKvInfo) : bool :=
  (kv_allocated_len kv =? 0) && (swa_evicted_seqlen kv =? 0).
Definition mark_kv_released (kv : ReqKvInfo) : ReqKvInfo :=
  mkKv (req_pool_idx kv) (cache_protected_len kv) (kv_committed_len kv) 0 (swa_evict_floor kv) 0.

(** ** [Req] *)

(** The fields the KV cache reads and writes.  [fill_is_origin] says that
    [full_untruncated_fill_ids] is the list object [origin_input_ids] itself. *)
Record Req := mkReq {
  origin_input_ids : list Z;
  output_ids : list Z;
  full_untruncated_fill_ids : list Z;
  fill_is_origin : bool;
  extend_range : option (Z * Z);
  req_extra_key : option string;
  req_cache_salt : option string;
  req_priority : option Z;
  reasoning_tokens : Z;
  prefix_indices : list Z;
  last_node : option nat;
  skip_radix_cache_insert : bool;
  kv : ReqKvInfo;
}.

Definition set_fill_ids (r : Req) x aliased :=
  mkReq (origin_input_ids r) (output_ids r) x aliased (extend_range r) (req_extra_key r)
    (req_cache_salt r) (req_priority r) (reasoning_tokens r) (prefix_indices r) (last_node r)
    (skip_radix_cache_insert r) (kv r).
Definition set_range (r : Req) x :=
  mkReq (origin_input_ids r) (output_ids r) (full_untruncated_fill_ids r) (fill_is_origin r) x
    (req_extra_key r) (req_cache_salt r) (req_priority r) (reasoning_tokens r) (prefix_indices r)
    (last_node r) (skip_radix_cache_insert r) (kv r).
Definition set_prefix_indices (r : Req) x :=
  mkReq (origin_input_ids r) (output_ids r) (full_untruncated_fill_ids r) (fill_is_origin r)
    (extend_range r) (req_extra_key r) (req_cache_salt r) (req_priority r) (reasoning_tokens r) x
    (last_node r) (skip_radix_cache_insert r) (kv r).
Definition set_last_node (r : Req) x :=
  mkReq (origin_input_ids r) (output_ids r) (full_untruncated_fill_ids r) (fill_is_origin r)
    (extend_range r) (req_extra_key r) (req_cache_salt r) (req_priority r) (reasoning_tokens r)
    (prefix_indices r) x (skip_radix_cache_insert r) (kv r).
Definition set_kv (r : Req) x :=
  mkReq (origin_input_ids r) (output_ids r) (full_untruncated_fill_ids r) (fill_is_origin r)
    (extend_range r) (req_extra_key r) (req_cache_salt r) (req_priority r) (reasoning_tokens r)
    (prefix_indices r) (last_node r) (skip_radix_cache_insert r) x.

Definition detach_kv (r : Req) : ReqKvInfo * Req := (kv r, set_kv r kv_empty).

Definition effective_kv_committed_len (strip_thinking_cache : bool) (r : Req) : Z :=
  if strip_thinking_cache && (reasoning_tokens r >? 0)
  then Z.min (kv_committed_len (kv r)) (zlen (origin_input_ids r))
  else kv_committed_len (kv r).

Definition set_extend_range (a b : Z) (r : Req) : Req := set_range r (Some (a, b)).

(** [self.extend_range.end] raises on [None]. *)
Definition extend_end (r : Req) : res Z :=
  match extend_range r with Some (_, e) => Ok e | None => Err AttributeError end.

Definition get_fill_ids (r : Req) : res (list Z) :=
  e ← extend_end r; Ok (slice_to (full_untruncated_fill_ids r) e).

Definition refresh_fill_ids (r : Req) : Req :=
  let n_have_output := zlen (full_untruncated_fill_ids r) - zlen (origin_input_ids r) in
  if negb (fill_is_origin r) && (0 <=? n_have_output) && (n_have_output <=? zlen (output_ids r))
  then set_fill_ids r (full_untruncated_fill_ids r ++ slice_from (output_ids r) n_have_output) false
  else set_fill_ids r (origin_input_ids r ++ output_ids r) false.

(** ** [ReqToTokenPool] *)

Record ReqToTokenPool := mkPool {
  pool_size : Z;
  alloc_size : Z;
  max_context_len : Z;
  req_to_token : list (list Z);
  free_slots : list Z;
  req_generation : list Z;
}.

Definition set_req_to_token (p : ReqToTokenPool) x :=
  mkPool (pool_size p) (alloc_size p) (max_context_len p) x (free_slots p) (req_generation p).
Definition set_free_slots (p : ReqToTokenPool) x :=
  mkPool (pool_size p) (alloc_size p) (max_context_len p) (req_to_token p) x (req_generation p).
Definition set_req_generation (p : ReqToTokenPool) x :=
  mkPool (pool_size p) (alloc_size p) (max_context_len p) (req_to_token p) (free_slots p) x.

Definition ReqToTokenPool_init (size max_context_len : Z) : ReqToTokenPool :=
  let asize := size + 1 in
  mkPool size asize max_context_len
    (replicate (Z.to_nat asize) (replicate (Z.to_nat max_context_len) 0))
    (zrange 1 asize) (replicate (Z.to_nat asize) 0).

(** The table holds 32-bit integers. *)
Definition to_int32 (x : Z) : Z := (x + 2 ^ 31) mod 2 ^ 32 - 2 ^ 31.

(** [req_to_token[idx]] for the row of a request. *)
Definition get_row (p : ReqToTokenPool) (idx : option Z) : res (list Z) :=
  match idx with Some i => py_get (req_to_token p) i | None => Err TypeError end.

(** [write((idx, slice(a, b)), values)]: the values are stored as 32-bit integers
    and their number must be that of the slice. *)
Definition write (idx : option Z) (a b : Z) (values : list Z) (p : ReqToTokenPool)
    : res ReqToTokenPool :=
  row ← get_row p idx;
  match idx with
  | None => Err TypeError
  | Some i =>
      let '(s, e) := slice_indices (Some a) (Some b) (zlen row) in
      let n := Z.max 0 (e - s) in
      if zlen values =? n then
        let row' := take (Z.to_nat s) row ++ (to_int32 <$> values) ++ drop (Z.to_nat (s + n)) row in
        let j := if i <? 0 then i + zlen (req_to_token p) else i in
        Ok (set_req_to_token p (<[Z.to_nat j := row']> (req_to_token p)))
      else Err RuntimeError
  end.

Module ReqToToken.
Definition available_size (p : ReqToTokenPool) : Z := zlen (free_slots p).

(** [gen[select_index] += 1] *)
Definition bump (sel : list Z) (gen : list Z) : list Z :=
  imap (λ i g, if bool_decide (Z.of_nat i ∈ sel) then g + 1 else g) gen.

Definition alloc_rows (need_size : Z) (p : ReqToTokenPool) : option (list Z) * ReqToTokenPool :=
  if need_size >? zlen (free_slots p) then (None, p)
  else if need_size =? 0 then (Some [], p)
  else
    let select_index := slice_from (free_slots p) (- need_size) in
    let p := set_free_slots p (slice_to (free_slots p) (- need_size)) in
    (Some select_index, set_req_generation p (bump select_index (req_generation p))).

(** The loop of [alloc] over the requests: rows go to those that have none. *)
Fixpoint bind_rows (sel : list Z) (kvs : list ReqKvInfo) : res (list ReqKvInfo) :=
  match kvs with
  | [] => Ok []
  | r :: kvs =>
      if holds_kv r then rest ← bind_rows sel kvs; Ok (r :: rest)
      else match sel with
           | i :: sel => rest ← bind_rows sel kvs; Ok (set_req_pool_idx r (Some i) :: rest)
           | [] => Err IndexError
           end
  end.

Definition alloc (kvs : list ReqKvInfo) (p : ReqToTokenPool)
    : res (option (list (option Z)) * list ReqKvInfo * ReqToTokenPool) :=
  let reusing := filter (λ r, holds_kv r = true) kvs in
  if forallb (λ r, kv_allocated_len r >? 0) reusing then
    let '(select_index, p) := alloc_rows (zlen kvs - zlen reusing) p in
    match select_index with
    | None => Ok (None, kvs, p)
    | Some sel =>
        match bind_rows sel kvs with
        | Ok kvs => Ok (Some (req_pool_idx <$> kvs), kvs, p)
        | Err e => Err e
        end
    end
  else Err AssertionError.

(** The auxiliary cache of the pool belongs to sparse-attention models and is
    [None] here. *)
Definition free_rows (indices : list Z) (p : ReqToTokenPool) : ReqToTokenPool :=
  set_free_slots p (free_slots p ++ indices).

Definition free (r : ReqKvInfo) (p : ReqToTokenPool) : res (ReqKvInfo * ReqToTokenPool) :=
  match req_pool_idx r with
  | Some i => Ok (set_req_pool_idx r None, free_rows [i] p)
  | None => Err AssertionError
  end.

Definition clear (p : ReqToTokenPool) : ReqToTokenPool :=
  set_req_generation (set_free_slots p (zrange 1 (alloc_size p)))
    (replicate (length (req_generation p)) 0).
End ReqToToken.

(** ** Invariant *)

(** [held] are the rows of the running requests: with the free list they are
    exactly the rows of the table but the padding row 0, each once. *)
Record pool_ok (p : ReqToTokenPool) (held : list Z) : Prop := {
  po_rows : free_slots p ++ held ≡ₚ zrange 1 (alloc_size p);
  po_table : zlen (req_to_token p) = alloc_size p;
  po_gen : zlen (req_generation p) = alloc_size p;
  po_size : alloc_size p = pool_size p + 1 ∧ 0 ≤ pool_size p;
}.

#[export] Instance pool_ok_proper p : Proper ((≡ₚ) ==> iff) (pool_ok p).
Proof.
  intros l k Hlk. split; intros [Hr ? ? ?]; constructor; try done; [by rewrite <-Hlk|by rewrite Hlk].
Qed.

(** The rows a list of requests holds. *)
Definition rows_of (kvs : list ReqKvInfo) : list Z := omap req_pool_idx kvs.

Lemma pool_ok_nodup p held : pool_ok p held → NoDup (free_slots p ++ held).
Proof. intros []. rewrite po_rows0. apply NoDup_zrange. Qed.

Lemma pool_init_ok size ctx : 0 ≤ size → pool_ok (ReqToTokenPool_init size ctx) [].
Proof.
  intros. constructor; simpl.
  - by rewrite app_nil_r.
  - unfold zlen. rewrite length_replicate. lia.
  - unfold zlen. rewrite length_replicate. lia.
  - done.
Qed.

Lemma slice_from_neg {A} (l : list A) n :
  0 < n → n ≤ zlen l → slice_from l (- n) = drop (length l - Z.to_nat n)%nat l.
Proof.
  intros Hn Hl. unfold slice_from, py_slice, slice_indices, clamp_index. simpl.
  destruct (Z.ltb_spec (- n) 0); [|lia]. rewrite take_ge.
  - f_equal. unfold zlen in *. lia.
  - rewrite length_drop. unfold zlen in *. lia.
Qed.
Lemma slice_to_neg {A} (l : list A) n :
  0 < n → n ≤ zlen l → slice_to l (- n) = take (length l - Z.to_nat n)%nat l.
Proof.
  intros Hn Hl. unfold slice_to, py_slice, slice_indices, clamp_index. simpl.
  destruct (Z.ltb_spec (- n) 0); [|lia]. rewrite drop_0. f_equal. unfold zlen in *. lia.
Qed.

Lemma bump_lookup sel gen i :
  ReqToToken.bump sel gen !! i = (λ g, if bool_decide (Z.of_nat i ∈ sel) then g + 1 else g) <$> gen !! i.
Proof. unfold ReqToToken.bump. by rewrite list_lookup_imap. Qed.

Lemma alloc_rows_spec n p held :
  pool_ok p held → 0 ≤ n →
  match ReqToToken.alloc_rows n p with
  | (Some sel, p') => zlen sel = n ∧ pool_ok p' (sel ++ held) ∧
      (∀ i g, req_generation p !! i = Some g →
         req_generation p' !! i = Some (if bool_decide (Z.of_nat i ∈ sel) then g + 1 else g)) ∧
      req_to_token p' = req_to_token p
  | (None, p') => p' = p ∧ ReqToToken.available_size p < n
  end.
Proof.
  intros Hok Hn. unfold ReqToToken.alloc_rows. destruct (Z.gtb_spec n (zlen (free_slots p))); [done|].
  destruct (Z.eqb_spec n 0) as [->|].
  { by split_and!. }
  rewrite slice_from_neg, slice_to_neg by lia. set (k := (length (free_slots p) - Z.to_nat n)%nat).
  split_and!.
  - unfold zlen in *. rewrite length_drop. lia.
  - destruct Hok as [H1 H2 H3 H4]. constructor; simpl; try done.
    + rewrite <-H1. rewrite <-(take_drop k (free_slots p)) at 3. solve_Permutation.
    + unfold zlen, ReqToToken.bump in *. by rewrite length_imap.
  - intros i g Hg. cbn [req_generation set_req_generation set_free_slots].
    by rewrite bump_lookup, Hg.
  - done.
Qed.

(** What [alloc] does to one request: it keeps its row or gets a free one. *)
Definition bound (free : list Z) (r r' : ReqKvInfo) : Prop :=
  if holds_kv r then r' = r else ∃ i, i ∈ free ∧ r' = set_req_pool_idx r (Some i).

Lemma holds_kv_cases r :
  (holds_kv r = true ∧ ∃ i, req_pool_idx r = Some i) ∨ (holds_kv r = false ∧ req_pool_idx r = None).
Proof.
  unfold holds_kv. destruct (req_pool_idx r) as [i|]; [left|right]; split; try done. by exists i.
Qed.

Lemma bind_rows_spec free sel kvs :
  zlen sel = zlen kvs - zlen (filter (λ r, holds_kv r = true) kvs) → sel ⊆ free →
  ∃ kvs', ReqToToken.bind_rows sel kvs = Ok kvs' ∧ Forall2 (bound free) kvs kvs' ∧
    rows_of kvs' ≡ₚ sel ++ rows_of kvs.
Proof.
  revert sel. induction kvs as [|r kvs IH]; intros sel Hlen Hsub; cbn [ReqToToken.bind_rows].
  { exists []. by rewrite (zlen_0 sel) by exact Hlen. }
  rewrite zlen_cons in Hlen.
  destruct (holds_kv_cases r) as [[Hh [i Hi]]|[Hh Hi]]; rewrite Hh.
  - rewrite filter_cons_True, zlen_cons in Hlen by done.
    destruct (IH sel ltac:(lia) Hsub) as (kvs' & -> & HF & HP). eexists. split; [done|].
    split; [constructor; [by unfold bound; rewrite Hh|done]|].
    unfold rows_of in *. simpl. rewrite Hi. rewrite HP. solve_Permutation.
  - rewrite filter_cons_False in Hlen by (by rewrite Hh).
    assert (zlen (filter (λ r, holds_kv r = true) kvs) ≤ zlen kvs).
    { unfold zlen. pose proof (length_filter (λ r, holds_kv r = true) kvs). lia. }
    destruct sel as [|j sel]; [unfold zlen in *; simpl in *; lia|].
    rewrite zlen_cons in Hlen. destruct (IH sel) as (kvs' & -> & HF & HP); [lia|set_solver|].
    eexists. split; [done|]. split.
    + constructor; [|done]. unfold bound. rewrite Hh. exists j. split; [set_solver|done].
    + unfold rows_of in *. simpl. rewrite Hi, HP. done.
Qed.

Lemma filter_holds kvs :
  zlen kvs - zlen (filter (λ r, holds_kv r = true) kvs) = zlen (filter (λ r, holds_kv r = false) kvs).
Proof.
  induction kvs as [|r kvs IH]; [done|]. rewrite !filter_cons, !zlen_cons.
  destruct (holds_kv r); repeat case_decide; try done; rewrite ?zlen_cons; lia.
Qed.

Lemma alloc_rows_sub n p sel p' : ReqToToken.alloc_rows n p = (Some sel, p') → sel ⊆ free_slots p.
Proof.
  unfold ReqToToken.alloc_rows. repeat case_match; try done; intros; simplify_eq; [apply list_subseteq_nil|].
  unfold slice_from, py_slice. case_match. intros x Hx.
  eapply elem_of_submseteq; [exact Hx|]. apply sublist_submseteq.
  etrans; [apply sublist_take|apply sublist_drop].
Qed.

Lemma req_alloc_spec (p : ReqToTokenPool) (kvs : list ReqKvInfo) (others : list Z) :
  pool_ok p (rows_of kvs ++ others) →
  Forall (λ r, holds_kv r = true → 0 < kv_allocated_len r) kvs →
  ∃ r kvs' p', ReqToToken.alloc kvs p = Ok (r, kvs', p') ∧
    (req_to_token p' = req_to_token p ∧ max_context_len p' = max_context_len p) ∧
    match r with
    | Some rows => rows = req_pool_idx <$> kvs' ∧ Forall2 (bound (free_slots p)) kvs kvs' ∧
        pool_ok p' (rows_of kvs' ++ others) ∧ NoDup (rows_of kvs' ++ others) ∧
        (∀ i g, req_generation p !! i = Some g → req_generation p' !! i = Some
           (if bool_decide (Z.of_nat i ∈ rows_of kvs' ∧ Z.of_nat i ∉ rows_of kvs) then g + 1 else g))
    | None => kvs' = kvs ∧ p' = p ∧
        ReqToToken.available_size p < zlen (filter (λ r, holds_kv r = false) kvs)
    end.
Proof.
  intros Hok Hre. unfold ReqToToken.alloc.
  assert (forallb (λ r, kv_allocated_len r >? 0) (filter (λ r, holds_kv r = true) kvs) = true) as ->.
  { apply forallb_forall. intros r [Hh Hr]%list_elem_of_In%list_elem_of_filter.
    rewrite Forall_forall in Hre. apply Z.gtb_lt. by apply Hre. }
  cbv zeta. rewrite filter_holds.
  pose proof (alloc_rows_spec (zlen (filter (λ r, holds_kv r = false) kvs)) p _ Hok
    (zlen_nonneg _)) as Hrows.
  destruct (ReqToToken.alloc_rows _ p) as [[sel|] p'] eqn:Halloc; last first.
  { destruct Hrows as [-> ?]. do 3 eexists. by split_and!. }
  assert (max_context_len p' = max_context_len p) as Hctx by (unfold ReqToToken.alloc_rows in Halloc; by repeat case_match; simplify_eq).
  destruct Hrows as (Hlen & Hok' & Hgen & Htab). rewrite <-filter_holds in Hlen.
  assert (sel ⊆ free_slots p) as Hsub by (eapply alloc_rows_sub; exact Halloc).
  destruct (bind_rows_spec (free_slots p) sel kvs Hlen Hsub) as (kvs' & -> & HF & HP).
  do 3 eexists. split; [done|]. rewrite app_assoc, <-HP in Hok'.
  pose proof (pool_ok_nodup _ _ Hok') as Hnd. apply NoDup_app in Hnd as (_ & _ & Hnd).
  split_and!; try done. intros i g Hg. rewrite (Hgen i g Hg). f_equal.
  apply NoDup_app in Hnd as (Hnd & _ & _). rewrite HP in Hnd. apply NoDup_app in Hnd as (_ & Hd & _).
  assert (Z.of_nat i ∈ sel ↔ Z.of_nat i ∈ rows_of kvs' ∧ Z.of_nat i ∉ rows_of kvs) as Hiff.
  { rewrite HP, elem_of_app. specialize (Hd (Z.of_nat i)). tauto. }
  by rewrite (bool_decide_ext _ _ Hiff).
Qed.

(** ** Properties *)

(** The row table never hands one row to two requests.  When the rows held by
    the batch and by the other requests are, with the free list, all rows but
    the padding row, then [alloc] either fails without any effect, because too
    few rows are free, or gives every request without a row a free one, keeps
    the rows of the others, and the same accounting holds afterwards; the
    generation of exactly the rows handed out goes up by one. *)
Theorem req_alloc_distinct_rows (p : ReqToTokenPool) (kvs : list ReqKvInfo) (others : list Z) :
  pool_ok p (rows_of kvs ++ others) →
  Forall (λ r, holds_kv r = true → 0 < kv_allocated_len r) kvs →
  ∃ r kvs' p', ReqToToken.alloc kvs p = Ok (r, kvs', p') ∧
    match r with
    | Some rows => rows = req_pool_idx <$> kvs' ∧ Forall2 (bound (free_slots p)) kvs kvs' ∧
        pool_ok p' (rows_of kvs' ++ others) ∧ NoDup (rows_of kvs' ++ others) ∧
        (∀ i g, req_generation p !! i = Some g → req_generation p' !! i = Some
           (if bool_decide (Z.of_nat i ∈ rows_of kvs' ∧ Z.of_nat i ∉ rows_of kvs) then g + 1 else g))
    | None => kvs' = kvs ∧ p' = p ∧
        ReqToToken.available_size p < zlen (filter (λ r, holds_kv r = false) kvs)
    end.
Proof.
  intros Hok Hre. destruct (req_alloc_spec p kvs others Hok Hre) as (r & kvs' & p' & ? & _ & ?).
  by exists r, kvs', p'.
Qed.

Lemma req_alloc_distinct_rows_witness :
  ∃ r kvs' p', ReqToToken.alloc [kv_empty; mkKv (Some 2) 0 3 4 0 0; kv_empty]
                 (set_free_slots (ReqToTokenPool_init 4 8) [1; 3; 4]) = Ok (r, kvs', p') ∧
    r = Some [Some 3; Some 2; Some 4] ∧ pool_ok p' (rows_of kvs' ++ []) ∧
    req_generation p' = [0; 0; 0; 1; 1].
Proof.
  destruct (req_alloc_distinct_rows (set_free_slots (ReqToTokenPool_init 4 8) [1; 3; 4])
    [kv_empty; mkKv (Some 2) 0 3 4 0 0; kv_empty] []) as (r & kvs' & p' & H1 & H2).
  - constructor; [by_evaluation|reflexivity|reflexivity|by split].
  - repeat constructor; simpl; try discriminate; lia.
  - vm_compute in H1. injection H1 as <- <- <-. do 3 eexists.
    split; [vm_compute; reflexivity|]. split; [reflexivity|].
    split; [exact (proj1 (proj2 (proj2 H2)))|reflexivity].
Defined.

(** The row of a finished request goes back: [free] clears the request's row
    number and returns the row to the free list, and afterwards the free list
    and the rows of the other requests are again all rows but the padding row. *)
Theorem req_free_returns_row (p : ReqToTokenPool) (r : ReqKvInfo) (i : Z) (others : list Z) :
  pool_ok p (i :: others) → req_pool_idx r = Some i →
  ∃ r' p', ReqToToken.free r p = Ok (r', p') ∧ pool_ok p' others ∧ holds_kv r' = false ∧
    i ∈ free_slots p' ∧ (i ∉ others) ∧ ReqToToken.available_size p' = ReqToToken.available_size p + 1.
Proof.
  intros Hok Hi. pose proof (pool_ok_nodup _ _ Hok) as Hnd. unfold ReqToToken.free. rewrite Hi.
  do 2 eexists. split; [done|]. split_and!.
  - destruct Hok as [H1 H2 H3 H4]. constructor; try done. simpl. rewrite <-H1. solve_Permutation.
  - done.
  - simpl. rewrite elem_of_app, list_elem_of_singleton. by right.
  - apply NoDup_app in Hnd as (_ & _ & Hnd). by apply NoDup_cons in Hnd as [].
  - unfold ReqToToken.available_size. simpl. by rewrite zlen_app.
Qed.

Lemma req_free_returns_row_witness :
  ∃ r' p', ReqToToken.free (mkKv (Some 2) 0 3 4 0 0)
             (set_free_slots (ReqToTokenPool_init 4 8) [1; 4]) = Ok (r', p') ∧
           pool_ok p' [3] ∧ free_slots p' = [1; 4; 2].
Proof.
  destruct (req_free_returns_row (set_free_slots (ReqToTokenPool_init 4 8) [1; 4])
    (mkKv (Some 2) 0 3 4 0 0) 2 [3]) as (r' & p' & H1 & H2 & _).
  - constructor; [by_evaluation|reflexivity|reflexivity|by split].
  - reflexivity.
  - exists r', p'. split; [exact H1|]. split; [exact H2|].
    vm_compute in H1. injection H1 as <- <-. reflexivity.
Defined.

(** The cheap refresh of a request's fill ids is exact.  If the list held
    before is the prompt followed by some of the outputs, or the prompt object
    itself, or has a length that no such list has (a fresh, retracted or aborted
    request), then the refresh leaves the prompt followed by all outputs, in a
    list of its own, and never changes the prompt. *)
Theorem refresh_fill_ids_exact (r : Req) :
  (fill_is_origin r = true ∨
   (∃ n, (n ≤ length (output_ids r))%nat ∧
         full_untruncated_fill_ids r = origin_input_ids r ++ take n (output_ids r)) ∨
   zlen (full_untruncated_fill_ids r) < zlen (origin_input_ids r) ∨
   zlen (origin_input_ids r) + zlen (output_ids r) < zlen (full_untruncated_fill_ids r)) →
  full_untruncated_fill_ids (refresh_fill_ids r) = origin_input_ids r ++ output_ids r ∧
  fill_is_origin (refresh_fill_ids r) = false ∧
  origin_input_ids (refresh_fill_ids r) = origin_input_ids r.
Proof.
  intros Hcase. unfold refresh_fill_ids. cbv zeta.
  destruct (negb (fill_is_origin r) && _ && _) eqn:Hc; [|done].
  apply andb_prop in Hc as [[Hal H1%Z.leb_le]%andb_prop H2%Z.leb_le].
  apply negb_true_iff in Hal. split; [|done]. simpl.
  destruct Hcase as [?|[(n & Hn & E)|?]]; [congruence| |lia].
  rewrite E in *. rewrite zlen_app in *. rewrite Z.add_simpl_l.
  rewrite slice_from_drop by apply zlen_nonneg. unfold zlen.
  rewrite Nat2Z.id, length_take, Nat.min_l, <-app_assoc, take_drop by done. done.
Qed.

Lemma refresh_fill_ids_exact_witness :
  full_untruncated_fill_ids (refresh_fill_ids
    (mkReq [1; 2] [3; 4; 5] [1; 2; 3] false None None None None 0 [] None false kv_empty)) =
  [1; 2; 3; 4; 5].
Proof.
  refine (proj1 (refresh_fill_ids_exact
    (mkReq [1; 2] [3; 4; 5] [1; 2; 3] false None None None None 0 [] None false kv_empty) _)).
  right. left. exists 1%nat. split; [simpl; lia|reflexivity].
Defined.
