(* ===== verification/Events.v ===== *)
(** * KV-cache placement events

    [mem_cache/events.py] with the hash helpers of [mem_cache/utils.py]: the
    recorder that turns stored and removed nodes into the events consumed by
    KV-aware routers.  Recording a node fills in its page hashes, so the recorder
    works on the heap of nodes.  The native SHA-256 extension is a parameter
    ([HashOps]); [HashLaws] states what the recorder relies on: one hexadecimal
    digest per page. *)

From S2P Require Import Prelude RadixKey TreeNode.

(** [native_hash key prior page_size]: the digests of the pages of [key], chained
    from [prior]; [salt_digest]: [hashlib.sha256] of the salt prefix and a salt. *)
Class HashOps := {
  native_hash : RadixKey → option string → Z → list string;
  salt_digest : string → string;
}.

(** ** Hashes *)

Definition hex_digit (c : Ascii.ascii) : option Z :=
  let n := Z.of_nat (Ascii.nat_of_ascii c) in
  if (48 <=? n) && (n <=? 57) then Some (n - 48)
  else if (97 <=? n) && (n <=? 102) then Some (n - 87)
  else if (65 <=? n) && (n <=? 70) then Some (n - 55)
  else None.

(** [int(s, 16)] on a string of hexadecimal digits. *)
Fixpoint hex_value (acc : Z) (s : string) : option Z :=
  match s with
  | EmptyString => Some acc
  | String c s =>
      match hex_digit c with
      | Some d => hex_value (acc * 16 + d) s
      | None => None
      end
  end.

Definition int_hex (s : string) : res Z :=
  match s with
  | EmptyString => Err ValueError
  | _ => match hex_value 0 s with Some v => Ok v | None => Err ValueError end
  end.

(** [s[:n]] *)
Fixpoint str_take (n : nat) (s : string) : string :=
  match n, s with
  | S n, String c s => String c (str_take n s)
  | _, _ => EmptyString
  end.

Definition hash_str_to_int64 (hash_str : string) : res Z :=
  uint64_val ← int_hex (str_take 16 hash_str);
  Ok (if uint64_val >=? 2 ^ 63 then uint64_val - 2 ^ 64 else uint64_val).

Section hashes.
Context `{HashOps}.

Definition compute_node_hash_values (h : heap) (i : node_id) (page_size : Z)
    : res (list string) :=
  n ← get_node h i;
  parent_hash ←
    match parent n with
    | None => Ok None
    | Some p =>
        pn ← get_node h p;
        Ok match hash_value pn with
           | Some hs => if (key_len (key pn) >? 0) && (zlen hs >? 0) then last hs else None
           | None => None
           end
    end;
  Ok (native_hash (key n) parent_hash page_size).

(** The walk up that collects the nodes without an event hash; it also returns
    the node it stopped at. *)
Fixpoint missing_event_hashes (fuel : nat) (h : heap) (salt : option string)
    (cur : option node_id) (acc : list node_id) : res (list node_id * option node_id) :=
  match fuel with
  | O => Err OutOfFuel
  | S fuel =>
      match cur with
      | None => Ok (acc, None)
      | Some i =>
          n ← get_node h i;
          if (key_len (key n) >? 0) && bool_decide (event_hash_value n = None) then
            if bool_decide (cache_salt (key n) = salt)
            then missing_event_hashes fuel h salt (parent n) (acc ++ [i])
            else Err ValueError
          else Ok (acc, Some i)
      end
  end.

Definition compute_node_event_hash_values (h : heap) (i : node_id) (page_size : Z)
    : res (list string * heap) :=
  n ← get_node h i;
  match cache_salt (key n) with
  | None => hs ← compute_node_hash_values h i page_size; Ok (hs, h)
  | Some salt =>
      match event_hash_value n with
      | Some hs => Ok (hs, h)
      | None =>
          '(missing_nodes, current) ←
            missing_event_hashes (S (base.size h)) h (Some salt) (Some i) [];
          stop ← match current with
                 | Some c => cn ← get_node h c; Ok (Some cn)
                 | None => Ok None
                 end;
          _ ← match stop with
              | Some cn =>
                  if (key_len (key cn) >? 0) &&
                     negb (bool_decide (cache_salt (key cn) = Some salt))
                  then Err ValueError else Ok tt
              | None => Ok tt
              end;
          let parent_hash :=
            match stop ≫= event_hash_value with
            | Some ((_ :: _) as hs) => last hs
            | _ => Some (salt_digest salt)
            end in
          '(h, _) ← for_each (λ m '(h, parent_hash),
              mn ← get_node h m;
              let hash_values := native_hash (key mn) parent_hash page_size in
              let h := <[m := set_event_hash_value mn (Some hash_values)]> h in
              Ok (h, match hash_values with [] => parent_hash | _ => last hash_values end))
            (reverse missing_nodes) (h, parent_hash);
          n ← get_node h i;
          match event_hash_value n with
          | Some hs => Ok (hs, h)
          | None => Err AssertionError
          end
      end
  end.
End hashes.

(** ** Events *)

Inductive StorageMedium := GPU | CPU | DISK | EXTERNAL.

#[export] Instance StorageMedium_eq_dec : EqDecision StorageMedium.
Proof. solve_decision. Defined.

(** [BlockStored]; [metadata] is the salt of a [BlockStoredWithMetadata]. *)
Record BlockStored := mkBlockStored {
  block_hashes : list Z;
  parent_block_hash : option Z;
  block_token_ids : list kunit;
  block_size : Z;
  lora_id : option Z;
  medium : StorageMedium;
  metadata : option string;
}.

Inductive KVCacheEvent :=
| Stored (b : BlockStored)
| BlockRemoved (hashes : list Z) (m : StorageMedium)
| AllBlocksCleared.

Record KVCacheEventRecorder := mkRecorder {
  enabled : bool;
  rec_page_size : Z;
  rec_queue : list KVCacheEvent;
}.

Definition set_queue (r : KVCacheEventRecorder) q :=
  mkRecorder (enabled r) (rec_page_size r) q.

Definition coalesce (tail event : KVCacheEvent) : option KVCacheEvent :=
  match tail, event with
  | BlockRemoved hs m, BlockRemoved hs' m' =>
      if decide (m = m') then Some (BlockRemoved (hs ++ hs') m) else None
  | Stored t, Stored e =>
      if bool_decide (medium t = medium e) && bool_decide (lora_id t = lora_id e) &&
         bool_decide (block_size t = block_size e) && bool_decide (metadata t = metadata e) &&
         bool_decide (block_hashes t ≠ []) &&
         bool_decide (parent_block_hash e = last (block_hashes t))
      then Some (Stored (mkBlockStored (block_hashes t ++ block_hashes e) (parent_block_hash t)
                   (block_token_ids t ++ block_token_ids e) (block_size t) (lora_id t)
                   (medium t) (metadata t)))
      else None
  | _, _ => None
  end.

Definition enqueue (event : KVCacheEvent) (r : KVCacheEventRecorder) : KVCacheEventRecorder :=
  match last (rec_queue r) with
  | Some tail =>
      match coalesce tail event with
      | Some merged => set_queue r (take (pred (length (rec_queue r))) (rec_queue r) ++ [merged])
      | None => set_queue r (rec_queue r ++ [event])
      end
  | None => set_queue r (rec_queue r ++ [event])
  end.

Section recorder.
Context `{HashOps}.

Definition node_event_hash_values (h : heap) (i : node_id) (r : KVCacheEventRecorder)
    : res (list string * heap) :=
  n ← get_node h i;
  '(hs, h) ← match hash_value n with
             | Some hs => Ok (hs, h)
             | None =>
                 hs ← compute_node_hash_values h i (rec_page_size r);
                 Ok (hs, <[i := set_hash_value n (Some hs)]> h)
             end;
  match cache_salt (key n) with
  | Some _ => compute_node_event_hash_values h i (rec_page_size r)
  | None => Ok (hs, h)
  end.

(** [_parent_block_hash] *)
Definition parent_block_hash_of (h : heap) (i : node_id) : res (option Z) :=
  n ← get_node h i;
  match parent n with
  | None => Ok None
  | Some p =>
      pn ← get_node h p;
      match parent pn with
      | None => Ok None
      | Some _ =>
          hs ← match cache_salt (key n) with
               | Some _ => match event_hash_value pn with
                           | Some hs => Ok (Some hs)
                           | None => Err AssertionError
                           end
               | None => Ok (hash_value pn)
               end;
          match hs ≫= last with
          | None => Ok None
          | Some x => v ← hash_str_to_int64 x; Ok (Some v)
          end
      end
  end.

(** [list(range(0, n, step))] *)
Definition page_starts (n step : Z) : list Z :=
  (λ k, k * step) <$> zrange 0 ((n + step - 1) / step).

(** The tokens of one page as the event carries them. *)
Definition page_tokens (k : RadixKey) (start stop : Z) : res (list kunit) :=
  if is_bigram k then
    foldr (λ j acc, a ← py_get (token_ids k) j; b ← py_get (token_ids k) (j + 1);
                    us ← acc; Ok (Bigram a b :: us)) (Ok []) (zrange start stop)
  else Ok (Tok <$> slice (token_ids k) start stop).

(** One page of [record_store]: its block is queued and becomes the parent. *)
Definition store_body (k : RadixKey) (m : StorageMedium) (event_hash_values : list string)
    (start : Z) (st : Z * option Z * KVCacheEventRecorder)
    : res (Z * option Z * KVCacheEventRecorder) :=
  let '(page_index, parent_hash, r) := st in
  let stop := Z.min (start + rec_page_size r) (key_len k) in
  if stop <=? start then Ok (page_index, parent_hash, r)
  else
    toks ← page_tokens k start stop;
    hs ← py_get event_hash_values page_index;
    block_hash ← hash_str_to_int64 hs;
    let event := Stored (mkBlockStored [block_hash] parent_hash toks (zlen toks) None m
                           (cache_salt k)) in
    Ok (page_index + 1, Some block_hash, enqueue event r).

Definition record_store (i : node_id) (m : StorageMedium) (h : heap)
    (r : KVCacheEventRecorder) : res (heap * KVCacheEventRecorder) :=
  if negb (enabled r) then Ok (h, r)
  else
    '(event_hash_values, h) ← node_event_hash_values h i r;
    parent_hash ← parent_block_hash_of h i;
    n ← get_node h i;
    '(_, _, r) ← for_each (store_body (key n) m event_hash_values)
      (page_starts (key_len (key n)) (rec_page_size r)) (0, parent_hash, r);
    Ok (h, r).

(** One page of [record_remove]. *)
Definition remove_body (k : RadixKey) (event_hash_values : list string)
    (r : KVCacheEventRecorder) (start : Z) (st : Z * list Z) : res (Z * list Z) :=
  let '(page_index, hashes) := st in
  let stop := Z.min (start + rec_page_size r) (key_len k) in
  if stop <=? start then Ok (page_index, hashes)
  else
    hs ← py_get event_hash_values page_index;
    block_hash ← hash_str_to_int64 hs;
    Ok (page_index + 1, hashes ++ [block_hash]).

Definition record_remove (i : node_id) (m : StorageMedium) (h : heap)
    (r : KVCacheEventRecorder) : res (heap * KVCacheEventRecorder) :=
  if negb (enabled r) then Ok (h, r)
  else
    '(event_hash_values, h) ← node_event_hash_values h i r;
    n ← get_node h i;
    '(_, hashes) ← for_each (remove_body (key n) event_hash_values r)
      (page_starts (key_len (key n)) (rec_page_size r)) (0, []);
    match hashes with
    | [] => Ok (h, r)
    | _ => Ok (h, enqueue (BlockRemoved hashes m) r)
    end.

Definition record_all_cleared (r : KVCacheEventRecorder) : KVCacheEventRecorder :=
  if negb (enabled r) then r else enqueue AllBlocksCleared r.

Definition take_events (r : KVCacheEventRecorder)
    : list KVCacheEvent * KVCacheEventRecorder :=
  if negb (enabled r) then ([], r) else (rec_queue r, set_queue r []).
End recorder.
