(* ===== verification/RadixCache.v ===== *)
(** * The radix-tree prefix cache

    [RadixCache] of [mem_cache/radix_cache.py], operation by operation, as
    functions on a state record that holds the heap of nodes, the counters, the
    set of evictable leaves, the event recorder and the KV allocator.  An
    exception ends the operation ([Err]); the state at the raise is not kept.

    Two things the interpreter chooses are parameters: the readings of
    [time.monotonic()] and the iteration order of the Python set of leaves. *)

From S2P Require Import Prelude RadixKey Heapq TreeNode Allocator Events.

(** The [n]-th reading of the clock of the process. *)
Class Clock := monotonic : nat → Z.

(** [list(s)] of a set of nodes: some order of its elements. *)
Class SetOrder := {
  set_list : gset nat → list nat;
  set_list_elements s : set_list s ≡ₚ elements s;
}.

Record RadixCache := mkCache {
  disable : bool;
  cpage_size : Z;
  is_eagle : bool;
  disable_finished_insert : bool;
  eviction_strategy : EvictionStrategy;
  nodes : heap;
  counter : nat;
  clock : nat;
  root_node : nat;
  evictable_size_ : Z;
  protected_size_ : Z;
  evictable_leaves : gset nat;
  kv_events : KVCacheEventRecorder;
  kv_allocator : Alloc;
}.

Definition set_nodes (c : RadixCache) x :=
  mkCache (disable c) (cpage_size c) (is_eagle c) (disable_finished_insert c)
    (eviction_strategy c) x (counter c) (clock c) (root_node c) (evictable_size_ c)
    (protected_size_ c) (evictable_leaves c) (kv_events c) (kv_allocator c).
Definition set_counter (c : RadixCache) x :=
  mkCache (disable c) (cpage_size c) (is_eagle c) (disable_finished_insert c)
    (eviction_strategy c) (nodes c) x (clock c) (root_node c) (evictable_size_ c)
    (protected_size_ c) (evictable_leaves c) (kv_events c) (kv_allocator c).
Definition set_clock (c : RadixCache) x :=
  mkCache (disable c) (cpage_size c) (is_eagle c) (disable_finished_insert c)
    (eviction_strategy c) (nodes c) (counter c) x (root_node c) (evictable_size_ c)
    (protected_size_ c) (evictable_leaves c) (kv_events c) (kv_allocator c).
Definition set_root_node (c : RadixCache) x :=
  mkCache (disable c) (cpage_size c) (is_eagle c) (disable_finished_insert c)
    (eviction_strategy c) (nodes c) (counter c) (clock c) x (evictable_size_ c)
    (protected_size_ c) (evictable_leaves c) (kv_events c) (kv_allocator c).
Definition set_evictable_size (c : RadixCache) x :=
  mkCache (disable c) (cpage_size c) (is_eagle c) (disable_finished_insert c)
    (eviction_strategy c) (nodes c) (counter c) (clock c) (root_node c) x
    (protected_size_ c) (evictable_leaves c) (kv_events c) (kv_allocator c).
Definition set_protected_size (c : RadixCache) x :=
  mkCache (disable c) (cpage_size c) (is_eagle c) (disable_finished_insert c)
    (eviction_strategy c) (nodes c) (counter c) (clock c) (root_node c) (evictable_size_ c)
    x (evictable_leaves c) (kv_events c) (kv_allocator c).
Definition set_evictable_leaves (c : RadixCache) x :=
  mkCache (disable c) (cpage_size c) (is_eagle c) (disable_finished_insert c)
    (eviction_strategy c) (nodes c) (counter c) (clock c) (root_node c) (evictable_size_ c)
    (protected_size_ c) x (kv_events c) (kv_allocator c).
Definition set_kv_events (c : RadixCache) x :=
  mkCache (disable c) (cpage_size c) (is_eagle c) (disable_finished_insert c)
    (eviction_strategy c) (nodes c) (counter c) (clock c) (root_node c) (evictable_size_ c)
    (protected_size_ c) (evictable_leaves c) x (kv_allocator c).
Definition set_kv_allocator (c : RadixCache) x :=
  mkCache (disable c) (cpage_size c) (is_eagle c) (disable_finished_insert c)
    (eviction_strategy c) (nodes c) (counter c) (clock c) (root_node c) (evictable_size_ c)
    (protected_size_ c) (evictable_leaves c) (kv_events c) x.

Definition get (c : RadixCache) (i : node_id) : res TreeNode := get_node (nodes c) i.

(** [node.attr = ...] *)
Definition put (i : node_id) (n : TreeNode) (c : RadixCache) : RadixCache :=
  set_nodes c (<[i := n]> (nodes c)).
Definition upd (i : node_id) (f : TreeNode → TreeNode) (c : RadixCache) : res RadixCache :=
  n ← get c i; Ok (put i (f n) c).

Section operations.
Context `{Clock} `{SetOrder} `{HashOps} `{KVAllocator}.

Definition now (c : RadixCache) : Z * RadixCache :=
  (monotonic (clock c), set_clock c (S (clock c))).

(** [TreeNode(priority=prio)] *)
Definition new_TreeNode (prio : Z) (c : RadixCache) : node_id * RadixCache :=
  let '(t1, c) := now c in
  let '(t2, c) := now c in
  let i := counter c in
  (i, set_counter (put i (TreeNode_init t1 t2 prio) c) (S i)).

(** The parent of a node that must have one. *)
Definition get_parent (n : TreeNode) : res node_id :=
  match parent n with Some p => Ok p | None => Err AttributeError end.

Definition get_value (n : TreeNode) : res (list Z) :=
  match value n with Some v => Ok v | None => Err TypeError end.

(** ** Leaves *)

Fixpoint has_present_child (h : heap) (cs : list node_id) : res bool :=
  match cs with
  | [] => Ok false
  | i :: cs => n ← get_node h i;
               if negb (evicted n) then Ok true else has_present_child h cs
  end.

Definition update_leaf_status (i : node_id) (c : RadixCache) : res RadixCache :=
  n ← get c i;
  if evicted n || (lock_ref n >? 0) then
    Ok (set_evictable_leaves c (evictable_leaves c ∖ {[i]}))
  else
    present ← has_present_child (nodes c) (dict_values (children n));
    if present : bool then Ok (set_evictable_leaves c (evictable_leaves c ∖ {[i]}))
    else Ok (set_evictable_leaves c ({[i]} ∪ evictable_leaves c)).

Definition delete_leaf (i : node_id) (c : RadixCache) : res RadixCache :=
  n ← get c i;
  k ← child_key (key n) (cpage_size c);
  p ← get_parent n;
  pn ← get c p;
  match dict_get k (children pn) with
  | Some v =>
      if decide (v = i) then
        let c := put p (set_children pn (dict_del k (children pn))) c in
        let c := set_evictable_size c (evictable_size_ c - key_len (key n)) in
        let c := set_evictable_leaves c (evictable_leaves c ∖ {[i]}) in
        update_leaf_status p c
      else Err AssertionError
  | None => Err AssertionError
  end.

(** ** Splitting and walking *)

Definition split_node (k : RadixKey) (child : node_id) (split_len : Z) (c : RadixCache)
    : res (node_id * RadixCache) :=
  let ps := cpage_size c in
  cn ← get c child;
  let '(new_node, c) := new_TreeNode (priority cn) c in
  ck ← child_key (key_from k split_len) ps;
  cv ← get_value cn;
  nn ← get c new_node;
  let nn := set_hit_count nn (hit_count cn) in
  let nn := set_children nn [(ck, child)] in
  let nn := set_parent nn (parent cn) in
  let nn := set_lock_ref nn (lock_ref cn) in
  let nn := set_key nn (key_to (key cn) split_len) in
  let nn := set_value nn (Some (slice_to cv split_len)) in
  let cn := set_parent cn (Some new_node) in
  let cn := set_key cn (key_from (key cn) split_len) in
  let cn := set_value cn (Some (slice_from cv split_len)) in
  let c := put child cn (put new_node nn c) in
  p ← get_parent nn;
  pk ← child_key k ps;
  c ← upd p (λ pn, set_children pn (dict_set pk new_node (children pn))) c;
  let '(nh, ch) := split_node_hash_value (hash_value cn) split_len ps in
  c ← upd new_node (λ n, set_hash_value n nh) c;
  c ← upd child (λ n, set_hash_value n ch) c;
  let '(nh, ch) := split_node_hash_value (event_hash_value cn) split_len ps in
  c ← upd new_node (λ n, set_event_hash_value n nh) c;
  c ← upd child (λ n, set_event_hash_value n ch) c;
  Ok (new_node, c).

Definition inc_hit_count (i : node_id) (chunked : bool) (c : RadixCache) : res RadixCache :=
  if chunked then Ok c else upd i (λ n, set_hit_count n (hit_count n + 1)) c.

Definition match_step (access_time : Z)
    (st : RadixCache * node_id * RadixKey * pyval * list (list Z))
    : res (RadixCache * node_id * RadixKey * pyval * list (list Z)
           + list (list Z) * node_id * RadixCache) :=
  let '(c, node, k, ck, value) := st in
  n ← get c node;
  match (if key_len k >? 0 then dict_get ck (children n) else None) with
  | None => Ok (inr (value, node, c))
  | Some child =>
      c ← upd child (λ n, set_last_access_time n access_time) c;
      cn ← get c child;
      prefix_len ← key_match (key cn) k (cpage_size c);
      if prefix_len <? key_len (key cn) then
        '(new_node, c) ← split_node (key cn) child prefix_len c;
        nn ← get c new_node;
        v ← get_value nn;
        Ok (inr (value ++ [v], new_node, c))
      else
        v ← get_value cn;
        let k := key_from k prefix_len in
        ck ← (if key_len k =? 0 then Ok ck else child_key k (cpage_size c));
        Ok (inl (c, child, k, ck, value ++ [v]))
  end.

Definition match_prefix_helper (node : node_id) (k : RadixKey) (c : RadixCache)
    : res (list (list Z) * node_id * RadixCache) :=
  let '(access_time, c) := now c in
  c ← upd node (λ n, set_last_access_time n access_time) c;
  ck ← child_key k (cpage_size c);
  while (S (Z.to_nat (key_len k))) (match_step access_time) (c, node, k, ck, []).

Definition insert_step (access_time prio : Z) (chunked : bool)
    (st : RadixCache * node_id * RadixKey * pyval * list Z * Z)
    : res (RadixCache * node_id * RadixKey * pyval * list Z * Z
           + RadixCache * node_id * RadixKey * pyval * list Z * Z) :=
  let '(c, node, k, ck, value, total) := st in
  n ← get c node;
  match (if key_len k >? 0 then dict_get ck (children n) else None) with
  | None => Ok (inr st)
  | Some node =>
      c ← upd node (λ n, set_last_access_time n access_time) c;
      n ← get c node;
      prefix_len ← key_match (key n) k (cpage_size c);
      let total := total + prefix_len in
      let k := key_from k prefix_len in
      let value := slice_from value prefix_len in
      '(node, c) ←
        (if prefix_len <? key_len (key n) then
           '(new_node, c) ← split_node (key n) node prefix_len c;
           c ← upd new_node (λ n, set_priority n (Z.max (priority n) prio)) c;
           c ← inc_hit_count new_node chunked c;
           Ok (new_node, c)
         else
           c ← upd node (λ n, set_priority n (Z.max (priority n) prio)) c;
           c ← inc_hit_count node chunked c;
           Ok (node, c));
      ck ← (if key_len k =? 0 then Ok ck else child_key k (cpage_size c));
      Ok (inl (c, node, k, ck, value, total))
  end.

(** The tail of [_insert_helper]: what is left of the key becomes a new leaf. *)
Definition insert_leaf (node : node_id) (k : RadixKey) (ck : pyval) (value : list Z)
    (prio : Z) (chunked : bool) (c : RadixCache) : res (node_id * RadixCache) :=
  let '(new_node, c) := new_TreeNode prio c in
  c ← upd new_node (λ n, set_value (set_key (set_parent n (Some node)) k) (Some value)) c;
  c ← inc_hit_count new_node chunked c;
  c ← upd node (λ n, set_children n (dict_set ck new_node (children n))) c;
  let c := set_evictable_size c (evictable_size_ c + key_len k) in
  c ← update_leaf_status node c;
  c ← update_leaf_status new_node c;
  '(h, r) ← record_store new_node GPU (nodes c) (kv_events c);
  Ok (new_node, set_kv_events (set_nodes c h) r).

Definition insert_helper (node : node_id) (k : RadixKey) (value : list Z)
    (prio : option Z) (chunked : bool) (c : RadixCache) : res (Z * node_id * RadixCache) :=
  let prio := default 0 prio in
  let '(access_time, c) := now c in
  c ← upd node (λ n, set_last_access_time n access_time) c;
  c ← upd node (λ n, set_priority n (Z.max (priority n) prio)) c;
  if key_len k =? 0 then Ok (0, node, c)
  else
    ck ← child_key k (cpage_size c);
    '(c, node, k, ck, value, total) ←
      while (S (Z.to_nat (key_len k))) (insert_step access_time prio chunked)
        (c, node, k, ck, value, 0);
    if key_len k =? 0 then Ok (total, node, c)
    else
      '(new_node, c) ← insert_leaf node k ck value prio chunked c;
      Ok (total, new_node, c).

(** ** The public operations *)

(** [MatchResult]; the three node fields are always equal here. *)
Record MatchResult := mkMatchResult {
  device_indices : list Z;
  last_device_node : node_id;
}.

Definition reset (c : RadixCache) : RadixCache :=
  let '(root, c) := new_TreeNode (- (2 ^ 63 - 1)) c in
  let c := set_nodes c (alter (λ n,
    set_hash_value (set_lock_ref (set_host_value (set_value
      (set_key n (RadixKey_init [] None false None None)) (Some [])) (Some [])) 1) (Some []))
    root (nodes c)) in
  let c := set_root_node c root in
  let c := set_evictable_size c 0 in
  let c := set_protected_size c 0 in
  let c := set_evictable_leaves c ∅ in
  set_kv_events c (record_all_cleared (kv_events c)).

(** [RadixCache.__init__]: the parameters of [CacheInitParams] the class reads.  The
    node counter belongs to the class, so the cache starts from the objects [h]
    and the counter [n] that earlier caches of the process left. *)
Record CacheInitParams := mkCacheInitParams {
  p_disable : bool;
  p_page_size : Z;
  p_is_eagle : bool;
  p_disable_finished_insert : bool;
  p_eviction_policy : string;
  p_enable_kv_cache_events : bool;
}.

Definition RadixCache_init (p : CacheInitParams) (al : Alloc) (h : heap) (n t : nat)
    : res RadixCache :=
  let events := mkRecorder (p_enable_kv_cache_events p) (p_page_size p) [] in
  strategy ← get_eviction_strategy (lower (p_eviction_policy p));
  Ok (reset (mkCache (p_disable p) (p_page_size p) (p_is_eagle p) (p_disable_finished_insert p)
               strategy h n t 0 0 0 ∅ events al)).

Definition empty_match_result (c : RadixCache) : MatchResult := mkMatchResult [] (root_node c).

Definition match_prefix (k : RadixKey) (c : RadixCache) : res (MatchResult * RadixCache) :=
  let '(k, _) := maybe_to_bigram_view k (is_eagle c) None in
  if disable c || (key_len k =? 0) then Ok (empty_match_result c, c)
  else
    let k := page_aligned k (cpage_size c) in
    if key_len k =? 0 then Ok (empty_match_result c, c)
    else
      '(value, last_node, c) ← match_prefix_helper (root_node c) k c;
      Ok (mkMatchResult (concat value) last_node, c).

(** [InsertParams] and [InsertResult]. *)
Record InsertParams := mkInsertParams {
  ins_key : RadixKey;
  ins_value : option (list Z);
  ins_chunked : bool;
  ins_priority : option Z;
}.

Definition insert (params : InsertParams) (c : RadixCache)
    : res (Z * option node_id * RadixCache) :=
  if disable c then Ok (0, None, c)
  else
    let '(k, value) :=
      maybe_to_bigram_view (ins_key params) (is_eagle c) (ins_value params) in
    let k := page_aligned k (cpage_size c) in
    let value := match value with
                 | Some v => slice_to v (key_len k)
                 | None => slice_to (token_ids k) (key_len k)
                 end in
    '(prefix_len, last_node, c) ←
      insert_helper (root_node c) k value (ins_priority params) (ins_chunked params) c;
    Ok (prefix_len, Some last_node, c).

(** *** Eviction *)

(** Entries of the eviction heap compare as Python tuples: by priority, then by
    [TreeNode.__lt__]; the entries refer to allocated nodes. *)
Definition entry_lt (h : heap) (x y : evict_priority * node_id) : bool :=
  if decide (x.1 = y.1) then node_lt (h !!! x.2) (h !!! y.2) else priority_lt x.1 y.1.

Definition evict_step (num_tokens : Z)
    (st : RadixCache * list (evict_priority * node_id) * Z)
    : res (RadixCache * list (evict_priority * node_id) * Z + RadixCache * Z) :=
  let '(c, eviction_heap, num_evicted) := st in
  if num_evicted <? num_tokens then
    match heappop (entry_lt (nodes c)) eviction_heap with
    | None => Ok (inr (c, num_evicted))
    | Some ((_, x), eviction_heap) =>
        n ← get c x;
        v ← get_value n;
        a ← kv_free_segment v 0 (kv_allocator c);
        let c := set_kv_allocator c a in
        let num_evicted := num_evicted + zlen v in
        c ← delete_leaf x c;
        p ← get_parent n;
        pn ← get c p;
        let eviction_heap :=
          if (zlen (children pn) =? 0) && (lock_ref pn =? 0)
          then heappush (entry_lt (nodes c)) eviction_heap
                 (get_priority (eviction_strategy c) pn, p)
          else eviction_heap in
        '(h, r) ← record_remove x GPU (nodes c) (kv_events c);
        Ok (inl (set_kv_events (set_nodes c h) r, eviction_heap, num_evicted))
    end
  else Ok (inr (c, num_evicted)).

Definition evict_entries (c : RadixCache) (leaves : list node_id)
    : res (list (evict_priority * node_id)) :=
  foldr (λ i acc, n ← get c i; es ← acc;
                  Ok ((get_priority (eviction_strategy c) n, i) :: es)) (Ok []) leaves.

Definition evict (num_tokens : Z) (c : RadixCache) : res (Z * RadixCache) :=
  if disable c then Ok (0, c)
  else
    entries ← evict_entries c (set_list (evictable_leaves c));
    let eviction_heap := heapify (entry_lt (nodes c)) entries in
    '(c, num_evicted) ← while (S (base.size (nodes c))) (evict_step num_tokens)
                          (c, eviction_heap, 0);
    Ok (num_evicted, c).

(** *** Locks *)

Definition inc_lock_step (st : RadixCache * option node_id * Z)
    : res (RadixCache * option node_id * Z + RadixCache * Z) :=
  let '(c, node, delta) := st in
  if decide (node = Some (root_node c)) then Ok (inr (c, delta))
  else
    match node with
    | None => Err AttributeError
    | Some i =>
        n ← get c i;
        let len := key_len (key n) in
        let '(c, delta) :=
          if lock_ref n =? 0 then
            (set_protected_size (set_evictable_size c (evictable_size_ c - len))
               (protected_size_ c + len), delta - len)
          else (c, delta) in
        let c := put i (set_lock_ref n (lock_ref n + 1)) c in
        c ← update_leaf_status i c;
        Ok (inl (c, parent n, delta))
    end.

Definition inc_lock_ref (node : node_id) (c : RadixCache) : res (Z * RadixCache) :=
  if disable c then Ok (0, c)
  else '(c, delta) ← while (S (base.size (nodes c))) inc_lock_step (c, Some node, 0);
       Ok (delta, c).

Definition dec_lock_step (st : RadixCache * option node_id * Z)
    : res (RadixCache * option node_id * Z + RadixCache * Z) :=
  let '(c, node, delta) := st in
  if decide (node = Some (root_node c)) then Ok (inr (c, delta))
  else
    match node with
    | None => Err AttributeError
    | Some i =>
        n ← get c i;
        let len := key_len (key n) in
        let '(c, delta) :=
          if lock_ref n =? 1 then
            (set_protected_size (set_evictable_size c (evictable_size_ c + len))
               (protected_size_ c - len), delta + len)
          else (c, delta) in
        let c := put i (set_lock_ref n (lock_ref n - 1)) c in
        c ← update_leaf_status i c;
        match parent n with
        | None => Err AssertionError
        | Some p => Ok (inl (c, Some p, delta))
        end
    end.

Definition dec_lock_ref (node : node_id) (c : RadixCache) : res (Z * RadixCache) :=
  if disable c then Ok (0, c)
  else '(c, delta) ← while (S (base.size (nodes c))) dec_lock_step (c, Some node, 0);
       Ok (delta, c).

(** *** Sizes *)

Definition evictable_size (c : RadixCache) : Z := evictable_size_ c.
Definition protected_size (c : RadixCache) : Z := protected_size_ c.

(** The children that are not evicted, in order. *)
Fixpoint present_children (h : heap) (cs : list node_id) : res (list node_id) :=
  match cs with
  | [] => Ok []
  | i :: cs => n ← get_node h i; rest ← present_children h cs;
               Ok (if evicted n then rest else i :: rest)
  end.

(** The stack is kept with its top first. *)
Definition total_size_step (c : RadixCache) (st : list node_id * Z)
    : res (list node_id * Z + Z) :=
  let '(stack, total) := st in
  match stack with
  | [] => Ok (inr total)
  | i :: stack =>
      n ← get c i;
      v ← get_value n;
      cs ← present_children (nodes c) (dict_values (children n));
      Ok (inl (reverse cs ++ stack, total + zlen v))
  end.

Definition total_size (c : RadixCache) : res Z :=
  while (S (base.size (nodes c))) (total_size_step c) ([root_node c], 0).

(** [all_values_flatten]: the preorder of the values below a node. *)
Fixpoint dfs_values (fuel : nat) (h : heap) (i : node_id) : res (list (list Z)) :=
  match fuel with
  | O => Err OutOfFuel
  | S fuel =>
      n ← get_node h i;
      foldr (λ j acc, jn ← get_node h j; v ← get_value jn;
                      below ← dfs_values fuel h j; rest ← acc; Ok (v :: below ++ rest))
        (Ok []) (dict_values (children n))
  end.

Definition all_values_flatten (c : RadixCache) : res (list Z) :=
  vs ← dfs_values (S (base.size (nodes c))) (nodes c) (root_node c);
  match vs with
  | [] => Err RuntimeError
  | _ => Ok (concat vs)
  end.
End operations.
