(* ===== verification/RadixInv.v ===== *)
(** * The invariant of the radix cache

    [Inv c A] relates a state of the cache to an abstract prefix tree: every node
    of the tree is represented by a heap object, the counters and the set of
    evictable leaves are those of the tree, and the page hashes that are filled
    in have one digest per page.  The lemmas of this file carry the invariant
    over the internal steps of the cache; the public operations are in the files
    that follow. *)

From S2P Require Import Prelude RadixKey PrefixTree TreeNode Allocator Events RadixCache.

(** ** Representation of one node and of the tree *)

Record rep_node (ps : Z) (A : atree) (i : nat) (a : anode) (n : TreeNode) : Prop := {
  rn_parent : parent n = a_parent a;
  rn_key : key n = a_key a;
  rn_value : value n = Some (a_vals a);
  rn_lock : lock_ref n = a_lock a;
  rn_nodup : NoDup (dict_keys (children n));
  rn_child k j : dict_get k (children n) = Some j ↔
    ∃ b, A !! j = Some b ∧ a_parent b = Some i ∧ child_key (a_key b) ps = Ok k;
}.

Definition rep (ps : Z) (h : heap) (A : atree) : Prop :=
  ∀ i a, A !! i = Some a → ∃ n, h !! i = Some n ∧ rep_node ps A i a n.

(** The attributes the tree is made of, and the hashes; the other attributes only
    steer eviction. *)
Definition core (n : TreeNode) := (children n, parent n, key n, value n, lock_ref n).
Definition hashes (n : TreeNode) := (hash_value n, event_hash_value n).

(** The attributes eviction reads. *)
Definition attrs (n : TreeNode) := (last_access_time n, creation_time n, hit_count n, priority n).
Definition same_attrs (h h' : heap) : Prop := ∀ i, attrs <$> h !! i = attrs <$> h' !! i.

Definition same_core (h h' : heap) : Prop := ∀ i, core <$> h !! i = core <$> h' !! i.
Definition same_hashes (h h' : heap) : Prop := ∀ i, hashes <$> h !! i = hashes <$> h' !! i.

Lemma same_core_lookup h h' i n :
  same_core h h' → h !! i = Some n → ∃ n', h' !! i = Some n' ∧ core n' = core n.
Proof.
  intros Hs Hi. specialize (Hs i). rewrite Hi in Hs. destruct (h' !! i) as [n'|]; [|done].
  exists n'. split; [done|]. simpl in Hs. congruence.
Qed.

Lemma rep_node_core ps A i a n n' :
  core n' = core n → rep_node ps A i a n → rep_node ps A i a n'.
Proof.
  unfold core. intros Heq []. injection Heq as E1 E2 E3 E4 E5.
  constructor; rewrite ?E1, ?E2, ?E3, ?E4, ?E5; done.
Qed.

Lemma rep_same_core ps h h' A : same_core h h' → rep ps h A → rep ps h' A.
Proof.
  intros Hs Hr i a Hi. destruct (Hr i a Hi) as (n & Hn & Hrn).
  destruct (same_core_lookup h h' i n Hs Hn) as (n' & Hn' & Hc). exists n'. split; [done|].
  by eapply rep_node_core.
Qed.

(** ** Hashes *)

Definition hex_string (s : string) : Prop := is_ok (hash_str_to_int64 s) = true.

(** One digest per page of the key. *)
Definition hashes_for (ps : Z) (k : RadixKey) (hs : list string) : Prop :=
  zlen hs * ps = key_len k ∧ Forall hex_string hs.

Record hash_node (ps : Z) (root : nat) (h : heap) (a : anode) (n : TreeNode) : Prop := {
  hn_hash hs : hash_value n = Some hs → hashes_for ps (a_key a) hs;
  hn_event hs : event_hash_value n = Some hs → hashes_for ps (a_key a) hs;
  (** Event hashes are chained from the root, so they are filled in from there. *)
  hn_up p pn : event_hash_value n ≠ None → a_parent a = Some p → p ≠ root →
    h !! p = Some pn → event_hash_value pn ≠ None;
}.

Definition hash_ok (ps : Z) (root : nat) (h : heap) (A : atree) : Prop :=
  ∀ i a n, A !! i = Some a → h !! i = Some n → hash_node ps root h a n.

(** What the recorder relies on of the native hash: a digest per page. *)
Class HashLaws `{HashOps} := {
  native_hash_pages k prior ps :
    key_wf k → 0 < ps → (ps | key_len k) → hashes_for ps k (native_hash k prior ps);
}.

Lemma hash_ok_same ps root h h' A : same_hashes h h' → hash_ok ps root h A → hash_ok ps root h' A.
Proof.
  assert (∀ i n', same_hashes h h' → h' !! i = Some n' →
    ∃ n, h !! i = Some n ∧ hash_value n' = hash_value n ∧ event_hash_value n' = event_hash_value n) as Hget.
  { intros i n' Hs Hi. specialize (Hs i). rewrite Hi in Hs. destruct (h !! i) as [n|]; [|done].
    exists n. unfold hashes in Hs. simpl in Hs. split; [done|]. split; congruence. }
  intros Hs Hok i a n' Ha Hn'. destruct (Hget i n' Hs Hn') as (n & Hn & E1 & E2).
  destruct (Hok i a n Ha Hn). constructor; rewrite ?E1, ?E2; try done.
  intros p pn' Hne Hp Hpr Hpn'. destruct (Hget p pn' Hs Hpn') as (pn & Hpn & _ & ->). by eapply hn_up0.
Qed.

(** ** The invariant *)

Record Inv (c : RadixCache) (A : atree) : Prop := {
  inv_ps : 0 < cpage_size c;
  inv_rec : rec_page_size (kv_events c) = cpage_size c;
  inv_rep : rep (cpage_size c) (nodes c) A;
  inv_tree : tree_ok (cpage_size c) (is_eagle c) (root_node c) A;
  inv_locks : locks_ok (root_node c) A (λ _, 0);
  inv_evictable : evictable_size_ c = msum evictable_of A;
  inv_protected : protected_size_ c = msum protected_of A;
  inv_leaves i : i ∈ evictable_leaves c ↔ is_leaf A i;
  inv_bound i : is_Some (nodes c !! i) → (i < counter c)%nat;
  inv_hash : hash_ok (cpage_size c) (root_node c) (nodes c) A;
}.

(** The attributes of the cache that no operation on the tree changes. *)
Definition config (c : RadixCache) :=
  (disable c, cpage_size c, is_eagle c, disable_finished_insert c, eviction_strategy c,
   root_node c, rec_page_size (kv_events c), enabled (kv_events c), kv_allocator c).

Lemma inv_lookup c A i a :
  Inv c A → A !! i = Some a →
  ∃ n, nodes c !! i = Some n ∧ rep_node (cpage_size c) A i a n.
Proof. intros Hinv. apply (inv_rep c A Hinv). Qed.

Lemma inv_fresh c A : Inv c A → A !! counter c = None.
Proof.
  intros Hinv. destruct (A !! counter c) as [a|] eqn:Ha; [|done].
  destruct (inv_lookup c A _ a Hinv Ha) as (n & Hn & _).
  pose proof (inv_bound c A Hinv (counter c) ltac:(by eexists)). lia.
Qed.

Lemma inv_size c A : Inv c A → (base.size A ≤ base.size (nodes c))%nat.
Proof.
  intros Hinv. rewrite <-!size_dom. apply subseteq_size. intros i Hi.
  apply elem_of_dom in Hi as [a Ha]. destruct (inv_lookup c A i a Hinv Ha) as (n & Hn & _).
  apply elem_of_dom. by eexists.
Qed.

(** Attribute updates that only steer eviction. *)
Definition benign (f : TreeNode → TreeNode) : Prop :=
  ∀ n, core (f n) = core n ∧ hashes (f n) = hashes n.

Lemma put_same h i n n' :
  h !! i = Some n → core n' = core n → same_core h (<[i := n']> h).
Proof.
  intros Hi Hc j. destruct (decide (j = i)) as [->|].
  - rewrite lookup_insert_eq, Hi. simpl. by f_equal.
  - by rewrite lookup_insert_ne.
Qed.
Lemma put_same_hashes h i n n' :
  h !! i = Some n → hashes n' = hashes n → same_hashes h (<[i := n']> h).
Proof.
  intros Hi Hc j. destruct (decide (j = i)) as [->|].
  - rewrite lookup_insert_eq, Hi. simpl. by f_equal.
  - by rewrite lookup_insert_ne.
Qed.

Lemma put_same_attrs h i n n' :
  h !! i = Some n → attrs n' = attrs n → same_attrs h (<[i := n']> h).
Proof.
  intros Hi Hc j. destruct (decide (j = i)) as [->|].
  - rewrite lookup_insert_eq, Hi. simpl. by f_equal.
  - by rewrite lookup_insert_ne.
Qed.

(** A new heap with the same cores and hashes is as good as the old one. *)
Lemma Inv_set_nodes c A h :
  Inv c A → same_core (nodes c) h → hash_ok (cpage_size c) (root_node c) h A →
  Inv (set_nodes c h) A.
Proof.
  intros [] Hc Hh. constructor; simpl; try done.
  - by eapply rep_same_core.
  - intros i Hi. apply inv_bound0. specialize (Hc i). destruct (nodes c !! i); [by eexists|].
    destruct Hi as [n Hi]. rewrite Hi in Hc. done.
Qed.

Lemma upd_benign c A i a f :
  Inv c A → A !! i = Some a → benign f →
  ∃ n c', nodes c !! i = Some n ∧ upd i f c = Ok c' ∧ c' = put i (f n) c ∧ Inv c' A.
Proof.
  intros Hinv Hi Hf. destruct (inv_lookup c A i a Hinv Hi) as (n & Hn & _).
  exists n, (put i (f n) c). split; [done|]. unfold upd, get, get_node. rewrite Hn.
  split; [done|]. split; [done|]. apply Inv_set_nodes; [done| |].
  - eapply put_same; [done|]. apply Hf.
  - eapply hash_ok_same; [|by apply inv_hash]. eapply put_same_hashes; [done|]. apply Hf.
Qed.

Lemma Inv_set_clock c A t : Inv c A → Inv (set_clock c t) A.
Proof. intros []. by constructor. Qed.

(** ** Children *)

Section children.
Context (ps : Z) (eagle : bool) (root : nat) (h : heap) (A : atree).
Hypothesis Hps : 0 < ps.
Hypothesis Hrep : rep ps h A.
Hypothesis Hok : tree_ok ps eagle root A.

Lemma rep_lookup i a n : A !! i = Some a → h !! i = Some n → rep_node ps A i a n.
Proof. intros Hi Hn. destruct (Hrep i a Hi) as (n' & Hn' & Hr). by same_lookup. Qed.

(** The child key of a node of the tree. *)
Lemma ok_child_key p pa a :
  node_ok ps eagle root p pa a →
  child_key (a_key a) ps = Ok (ns_val (a_ns a) (page_val ps (take (Z.to_nat ps) (a_units a)))).
Proof.
  intros Hn. apply child_key_spec; [apply Hn| |done]. apply Z.divide_pos_le; apply Hn.
Qed.

Lemma children_nil_iff i a n :
  A !! i = Some a → h !! i = Some n → children n = [] ↔ ∀ j, ¬ child_of A i j.
Proof.
  intros Hi Hn. pose proof (rep_lookup i a n Hi Hn) as Hr. split.
  - intros Hch j (b & Hb & Hp).
    destruct (child_node_ok _ _ _ A Hok i j b Hb Hp) as (_ & pa & _ & Hnok).
    pose proof (ok_child_key _ _ _ Hnok) as Hk.
    assert (dict_get _ (children n) = Some j) as Hg by (apply Hr; eauto).
    by rewrite Hch in Hg.
  - intros Hno. destruct (children n) as [|[k j] cs] eqn:Hch; [done|]. exfalso.
    assert (dict_get k (children n) = Some j) as Hj by (rewrite Hch; simpl; by rewrite decide_True).
    apply Hr in Hj as (b & Hb & Hp & _). apply (Hno j). by exists b.
Qed.

Lemma has_present_child_spec i a n :
  A !! i = Some a → h !! i = Some n →
  has_present_child h (dict_values (children n)) = Ok (negb (bool_decide (children n = []))).
Proof.
  intros Hi Hn. pose proof (rep_lookup i a n Hi Hn) as Hr.
  destruct (children n) as [|[k j] cs] eqn:Hch; [done|].
  assert (dict_get k (children n) = Some j) as Hj by (rewrite Hch; simpl; by rewrite decide_True).
  apply Hr in Hj as (b & Hb & _). destruct (Hrep j b Hb) as (m & Hm & Hrm).
  simpl. unfold get_node. rewrite Hm. simpl. unfold evicted. rewrite (rn_value _ _ _ _ _ Hrm).
  by rewrite bool_decide_false.
Qed.
End children.

(** [_update_leaf_status] puts one node into the set exactly when it is a leaf. *)
Lemma update_leaf_status_spec c A i a :
  0 < cpage_size c → rep (cpage_size c) (nodes c) A →
  tree_ok (cpage_size c) (is_eagle c) (root_node c) A → A !! i = Some a → 0 ≤ a_lock a →
  ∃ ls, update_leaf_status i c = Ok (set_evictable_leaves c ls) ∧
    ∀ j, j ∈ ls ↔ if decide (j = i) then is_leaf A i else j ∈ evictable_leaves c.
Proof.
  intros Hps Hrep Hok Hi Hlock. destruct (Hrep i a Hi) as (n & Hn & Hr).
  unfold update_leaf_status, get, get_node. rewrite Hn. simpl.
  assert (evicted n = false) as -> by (unfold evicted; by rewrite (rn_value _ _ _ _ _ Hr)).
  rewrite (rn_lock _ _ _ _ _ Hr). simpl.
  assert (∀ P : Prop, ¬ P → ∀ j, j ∈ evictable_leaves c ∖ {[i]} ↔
            if decide (j = i) then P else j ∈ evictable_leaves c) as Hout.
  { intros P HP j. rewrite elem_of_difference, elem_of_singleton. case_decide; tauto. }
  destruct (Z.gtb_spec (a_lock a) 0).
  { eexists. split; [done|]. apply Hout. intros (b & Hb & Hz & _). same_lookup. lia. }
  rewrite (has_present_child_spec _ _ _ Hrep i a n Hi Hn). simpl.
  pose proof (children_nil_iff _ _ _ _ _ Hps Hrep Hok i a n Hi Hn) as Hnil.
  case_bool_decide as Hch; simpl; eexists; (split; [done|]).
  - intros j. rewrite elem_of_union, elem_of_singleton. case_decide; [|tauto].
    split; [intros _|tauto]. exists a. split; [done|]. split; [lia|]. by apply Hnil.
  - apply Hout. intros (b & Hb & _ & Hno). by apply Hch, Hnil.
Qed.

(** ** Splitting a node *)

(** Symbolic execution of the monadic code, by equations. *)
Lemma bind_ret {A B} (a : A) (f : A → res B) : Ok a ≫= f = f a.
Proof. done. Qed.
Lemma get_eq c i n : nodes c !! i = Some n → get c i = Ok n.
Proof. unfold get, get_node. by intros ->. Qed.
Lemma upd_eq c i f n : nodes c !! i = Some n → upd i f c = Ok (put i (f n) c).
Proof. intros Hn. unfold upd. by rewrite (get_eq c i n Hn). Qed.
Lemma lookup_put c i n j :
  nodes (put i n c) !! j = if decide (j = i) then Some n else nodes c !! j.
Proof. unfold put. simpl. case_decide; subst; [by rewrite lookup_insert_eq|by rewrite lookup_insert_ne]. Qed.
Lemma get_value_eq n v : value n = Some v → get_value n = Ok v.
Proof. unfold get_value. by intros ->. Qed.
Lemma get_parent_eq n p : parent n = Some p → get_parent n = Ok p.
Proof. unfold get_parent. by intros ->. Qed.

(** What writing to node objects leaves alone. *)
Definition stable (c : RadixCache) :=
  (config c, kv_events c, evictable_size_ c, protected_size_ c, evictable_leaves c).
Lemma stable_put i n c : stable (put i n c) = stable c.
Proof. done. Qed.
Lemma counter_put i n c : counter (put i n c) = counter c.
Proof. done. Qed.

(** The state after [TreeNode(priority=prio)]. *)
Definition with_new_node `{Clock} (prio : Z) (c : RadixCache) : RadixCache :=
  set_counter (put (counter c)
    (TreeNode_init (monotonic (clock c)) (monotonic (S (clock c))) prio)
    (set_clock c (S (S (clock c))))) (S (counter c)).
Lemma new_TreeNode_eq `{Clock} prio c : new_TreeNode prio c = (counter c, with_new_node prio c).
Proof. done. Qed.
Lemma lookup_with_new_node `{Clock} prio c j :
  nodes (with_new_node prio c) !! j =
  if decide (j = counter c)
  then Some (TreeNode_init (monotonic (clock c)) (monotonic (S (clock c))) prio)
  else nodes c !! j.
Proof. exact (lookup_put (set_clock c _) (counter c) _ j). Qed.

Lemma stable_with_new_node `{Clock} prio c : stable (with_new_node prio c) = stable c.
Proof. done. Qed.
Lemma counter_with_new_node `{Clock} prio c : counter (with_new_node prio c) = S (counter c).
Proof. done. Qed.

(** Look a node up in a heap written to before. *)
Ltac heap_lookup :=
  repeat first
    [ rewrite lookup_put | rewrite lookup_with_new_node
    | rewrite decide_True by done | rewrite decide_False by (done || by apply not_eq_sym) ];
  first [eassumption | reflexivity].
Ltac step :=
  first
    [ rewrite bind_ret; cbv beta iota
    | erewrite get_eq by heap_lookup
    | erewrite upd_eq by heap_lookup
    | rewrite new_TreeNode_eq; cbv beta iota zeta ].

Lemma split_hash_spec ps hs s :
  0 < ps → (ps | s) → 0 ≤ s →
  split_node_hash_value hs s ps =
  ((λ l, take (Z.to_nat (s / ps)) l) <$> hs, (λ l, drop (Z.to_nat (s / ps)) l) <$> hs).
Proof.
  intros Hps Hd Hs. destruct hs as [l|]; [|done]. simpl.
  assert (0 ≤ s / ps) by (apply Z.div_pos; lia).
  destruct (Z.eqb_spec ps 1) as [->|].
  - rewrite Z.div_1_r. by rewrite slice_to_take, slice_from_drop by lia.
  - by rewrite slice_to_take, slice_from_drop by lia.
Qed.

Lemma hashes_for_split ps k hs s :
  0 < ps → key_wf k → (ps | s) → 0 ≤ s ≤ key_len k → hashes_for ps k hs →
  hashes_for ps (key_to k s) (take (Z.to_nat (s / ps)) hs) ∧
  hashes_for ps (key_from k s) (drop (Z.to_nat (s / ps)) hs).
Proof.
  intros Hps Hwf [q ->] Hs [Hl Hf]. rewrite Z.div_mul by lia.
  assert (0 ≤ q) by nia. assert (q ≤ zlen hs) by nia.
  split; (split; [|by (apply Forall_take || apply Forall_drop)]); unfold zlen in *.
  - rewrite key_to_len by (done || lia). rewrite length_take. nia.
  - rewrite key_from_len by (done || lia). rewrite length_drop. nia.
Qed.

Section split_node.
Context `{Clock} (c : RadixCache) (A : atree) (i p : nat) (a pa : anode) (s : Z).
Let ps := cpage_size c.
Let new := counter c.
Hypothesis Hinv : Inv c A.
Hypothesis Hi : A !! i = Some a.
Hypothesis Hp : a_parent a = Some p.
Hypothesis Hpa : A !! p = Some pa.
Hypothesis Hdiv : (ps | s).
Hypothesis Hs : 0 < s < key_len (a_key a).
Let A' := a_split A i new pa a s.

Lemma split_node_facts :
  0 < ps ∧ tree_ok ps (is_eagle c) (root_node c) A ∧ A !! new = None ∧
  node_ok ps (is_eagle c) (root_node c) p pa a ∧
  i ≠ root_node c ∧ new ≠ root_node c ∧ new ≠ i ∧ new ≠ p ∧ i ≠ p.
Proof.
  pose proof (inv_tree c A Hinv) as Hok. pose proof (inv_fresh c A Hinv) as Hnew.
  split; [by apply (inv_ps c A)|]. split; [done|]. split; [done|].
  by apply (split_facts ps (is_eagle c) (root_node c) A i new p a pa).
Qed.

Lemma A'_lookup k :
  A' !! k = if decide (k = i) then Some (PrefixTree.lower new a s)
            else if decide (k = new) then Some (upper pa a s) else A !! k.
Proof. apply split_lookup. Qed.

(** Children of the nodes other than the two ends of the split edge. *)
Lemma split_children x j k :
  x ≠ p → x ≠ new →
  (∃ b, A !! j = Some b ∧ a_parent b = Some x ∧ child_key (a_key b) ps = Ok k) ↔
  (∃ b, A' !! j = Some b ∧ a_parent b = Some x ∧ child_key (a_key b) ps = Ok k).
Proof.
  intros Hxp Hxn. destruct split_node_facts as (Hps & Hok & Hnew & Hn & Hir & Hnr & Hni & Hnp & Hip).
  rewrite A'_lookup. repeat case_decide; subst; [| |done].
  - split; intros (b & Hb & Hbx & _); [congruence|]. injection Hb as <-. simpl in Hbx. congruence.
  - split; intros (b & Hb & Hbx & _); [congruence|]. injection Hb as <-. simpl in Hbx. congruence.
Qed.

Lemma split_upper_key : child_key (key_to (a_key a) s) ps = child_key (a_key a) ps.
Proof.
  destruct split_node_facts as (Hps & Hok & Hnew & Hn & Hir & Hnr & Hni & Hnp & Hip).
  pose proof (upper_ok ps (is_eagle c) (root_node c) A i new p a pa s Hok Hi Hp Hpa Hnew Hdiv Hs) as Hu.
  rewrite (ok_child_key ps _ _ Hps _ _ _ Hn).
  pose proof (ok_child_key ps _ _ Hps _ _ _ Hu) as Hk.
  cbn [upper a_key] in Hk. rewrite Hk.
  pose proof (upper_first_page ps (is_eagle c) (root_node c) Hps A i new p a pa s Hok Hi Hp Hpa Hnew Hdiv Hs) as Hfp.
  apply (f_equal snd) in Hfp. cbn [first_page upper a_key snd] in Hfp.
  rewrite key_to_namespace by apply Hn. by rewrite Hfp.
Qed.

Lemma split_parent_children k j pk d :
  child_key (a_key a) ps = Ok pk →
  (∀ k j, dict_get k d = Some j ↔
     ∃ b, A !! j = Some b ∧ a_parent b = Some p ∧ child_key (a_key b) ps = Ok k) →
  dict_get k (dict_set pk new d) = Some j ↔
  ∃ b, A' !! j = Some b ∧ a_parent b = Some p ∧ child_key (a_key b) ps = Ok k.
Proof.
  intros Hpk Hd. destruct split_node_facts as (Hps & Hok & Hnew & Hn & Hir & Hnr & Hni & Hnp & Hip).
  rewrite A'_lookup. destruct (decide (k = pk)) as [->|Hk].
  - rewrite dict_get_set_eq. split.
    + intros [= <-]. rewrite decide_False, decide_True by done. exists (upper pa a s).
      split; [done|]. split; [done|]. simpl. by rewrite split_upper_key.
    + intros (b & Hb & Hbp & Hbk). repeat case_decide; subst.
      * injection Hb as <-. simpl in Hbp. congruence.
      * done.
      * assert (dict_get pk d = Some j) as Hj by (apply Hd; eauto).
        assert (dict_get pk d = Some i) as Hi' by (apply Hd; eauto). congruence.
  - rewrite dict_get_set_ne by done. rewrite Hd. repeat case_decide; subst; [| |done].
    + split; intros (b & Hb & Hbp & Hbk).
      * exfalso. same_lookup. congruence.
      * injection Hb as <-. simpl in Hbp. congruence.
    + split; intros (b & Hb & Hbp & Hbk); [congruence|]. injection Hb as <-.
      simpl in Hbk. rewrite split_upper_key in Hbk. congruence.
Qed.

(** The three objects a split writes. *)
Definition split_upper_obj (un cn : TreeNode) (d : list (pyval * nat)) : Prop :=
  children un = d ∧ parent un = a_parent a ∧ key un = key_to (a_key a) s ∧
  value un = Some (slice_to (a_vals a) s) ∧ lock_ref un = a_lock a ∧
  hash_value un = (λ l, take (Z.to_nat (s / ps)) l) <$> hash_value cn ∧
  event_hash_value un = (λ l, take (Z.to_nat (s / ps)) l) <$> event_hash_value cn.
Definition split_lower_obj (ln cn : TreeNode) : Prop :=
  children ln = children cn ∧ parent ln = Some new ∧ key ln = key_from (a_key a) s ∧
  value ln = Some (slice_from (a_vals a) s) ∧ lock_ref ln = a_lock a ∧
  hash_value ln = (λ l, drop (Z.to_nat (s / ps)) l) <$> hash_value cn ∧
  event_hash_value ln = (λ l, drop (Z.to_nat (s / ps)) l) <$> event_hash_value cn.

Lemma split_node_exec :
  ∃ c' cn pn un ln pk lk,
    split_node (a_key a) i s c = Ok (new, c') ∧
    stable c' = stable c ∧ counter c' = S new ∧
    nodes c !! i = Some cn ∧ nodes c !! p = Some pn ∧
    child_key (a_key a) ps = Ok pk ∧ child_key (key_from (a_key a) s) ps = Ok lk ∧
    split_upper_obj un cn [(lk, i)] ∧ split_lower_obj ln cn ∧
    ∀ k, nodes c' !! k = if decide (k = i) then Some ln else if decide (k = new) then Some un
                   else if decide (k = p)
                        then Some (set_children pn (dict_set pk new (children pn)))
                        else nodes c !! k.
Proof.
  destruct split_node_facts as (Hps & Hok & Hnew & Hn & Hir & Hnr & Hni & Hnp & Hip).
  destruct (inv_lookup c A i a Hinv Hi) as (cn & Hcn & Hrc).
  destruct (inv_lookup c A p pa Hinv Hpa) as (pn & Hpn & Hrp).
  pose proof (ok_child_key ps _ _ Hps _ _ _ Hn) as Hpk.
  pose proof (lower_ok ps (is_eagle c) (root_node c) A i new p a pa s Hok Hi Hp Hpa Hnew Hdiv Hs) as Hl.
  pose proof (ok_child_key ps _ _ Hps _ _ _ Hl) as Hlk. cbn [PrefixTree.lower a_key] in Hlk.
  eexists _, cn, pn, ?[un], ?[ln], _, _. split.
  { unfold split_node. fold ps. cbv zeta.
    do 2 step. step. fold new. rewrite Hlk. step.
    rewrite (get_value_eq cn _ (rn_value _ _ _ _ _ Hrc)). do 3 step.
    erewrite get_parent_eq by (rewrite <-Hp, <-(rn_parent _ _ _ _ _ Hrc); reflexivity). step.
    rewrite Hpk. do 3 step. rewrite (split_hash_spec ps) by (done || lia). cbv beta iota.
    do 4 step. rewrite (split_hash_spec ps) by (done || lia). cbv beta iota. do 4 step.
    reflexivity. }
  split; [by rewrite !stable_put, stable_with_new_node|].
  split; [by rewrite !counter_put, counter_with_new_node|].
  split; [done|]. split; [done|]. split; [exact Hpk|]. split; [exact Hlk|].
  match goal with |- context [ nodes (put _ ?L (put _ ?U _)) !! _ ] =>
    instantiate (ln := L); instantiate (un := U) end.
  destruct Hrc as [E1 E2 E3 E4 _ _]. split; [|split].
  - unfold split_upper_obj. cbn. by rewrite E1, E2, E4.
  - unfold split_lower_obj. cbn. by rewrite E2, E4.
  - intros k. rewrite !lookup_put, lookup_with_new_node. repeat case_decide; subst; done.
Qed.

Lemma split_rep h cn pn un ln pk lk :
  nodes c !! i = Some cn → nodes c !! p = Some pn →
  child_key (a_key a) ps = Ok pk → child_key (key_from (a_key a) s) ps = Ok lk →
  split_upper_obj un cn [(lk, i)] → split_lower_obj ln cn →
  (∀ k, h !! k = if decide (k = i) then Some ln else if decide (k = new) then Some un
                 else if decide (k = p) then Some (set_children pn (dict_set pk new (children pn)))
                 else nodes c !! k) →
  rep ps h A'.
Proof.
  intros Hcn Hpn Hpk Hlk (U1 & U2 & U3 & U4 & U5 & _) (L1 & L2 & L3 & L4 & L5 & _) Hh x b.
  destruct split_node_facts as (Hps & Hok & Hnew & Hn & Hir & Hnr & Hni & Hnp & Hip).
  rewrite A'_lookup, Hh. intros Hx.
  pose proof (inv_rep c A Hinv) as Hrep. repeat case_decide; subst.
  - injection Hx as <-. exists ln. split; [done|].
    pose proof (rep_lookup _ _ _ Hrep i a cn Hi Hcn) as Hr. constructor; simpl; try done.
    + rewrite L1. apply Hr.
    + intros k j. rewrite L1, <-split_children by done. apply Hr.
  - injection Hx as <-. exists un. split; [done|]. constructor; simpl; try done.
    + rewrite U1. apply NoDup_singleton.
    + intros k j. rewrite U1. simpl. rewrite A'_lookup.
      pose proof (split_no_orphans ps (is_eagle c) (root_node c) A new) as Hno.
      case_decide; subst.
      * split.
        -- intros [= <-]. rewrite decide_True by done. eexists. by repeat split.
        -- intros (b & Hb & Hbn & Hbk). repeat case_decide; subst; [done| |].
           ++ injection Hb as <-. simpl in Hbn. congruence.
           ++ exfalso. by eapply Hno.
      * split; [done|]. intros (b & Hb & Hbn & Hbk). exfalso. repeat case_decide; subst.
        -- injection Hb as <-. simpl in Hbk. congruence.
        -- injection Hb as <-. simpl in Hbn. congruence.
        -- by eapply Hno.
  - eexists. split; [done|].
    pose proof (rep_lookup _ _ _ Hrep p b pn Hx Hpn) as [R1 R2 R3 R4 R5 R6]. constructor; simpl; try done.
    + by apply dict_keys_set_NoDup.
    + intros k j. by apply split_parent_children.
  - destruct (Hrep x b Hx) as (n & Hn' & Hr). exists n. split; [done|].
    destruct Hr as [R1 R2 R3 R4 R5 R6]. constructor; try done.
    intros k j. rewrite <-split_children by done. apply R6.
Qed.

Lemma split_hash_ok h cn pn un ln pk lk :
  nodes c !! i = Some cn → nodes c !! p = Some pn →
  split_upper_obj un cn [(lk, i)] → split_lower_obj ln cn →
  (∀ k, h !! k = if decide (k = i) then Some ln else if decide (k = new) then Some un
                 else if decide (k = p) then Some (set_children pn (dict_set pk new (children pn)))
                 else nodes c !! k) →
  hash_ok ps (root_node c) h A'.
Proof.
  intros Hcn Hpn (_ & _ & _ & _ & _ & U6 & U7) (_ & _ & _ & _ & _ & L6 & L7) Hh x b n.
  destruct split_node_facts as (Hps & Hok & Hnew & Hn & Hir & Hnr & Hni & Hnp & Hip).
  pose proof (inv_hash c A Hinv) as Hhash. destruct (Hhash i a cn Hi Hcn) as [C1 C2 C3].
  pose proof (no_wf _ _ _ _ _ _ Hn) as Hwf.
  assert (∀ hs, hashes_for ps (a_key a) hs →
    hashes_for ps (key_to (a_key a) s) (take (Z.to_nat (s / ps)) hs) ∧
    hashes_for ps (key_from (a_key a) s) (drop (Z.to_nat (s / ps)) hs)) as Hsplit.
  { intros hs. apply hashes_for_split; (done || lia). }
  rewrite A'_lookup, Hh. intros Hx Hxn. repeat case_decide; subst.
  - injection Hx as <-. injection Hxn as <-. constructor; simpl.
    + rewrite L6. intros hs (l & Hl & ->)%fmap_Some. by apply Hsplit, C1.
    + rewrite L7. intros hs (l & Hl & ->)%fmap_Some. by apply Hsplit, C2.
    + rewrite L7. intros q qn Hne [= <-] _. rewrite Hh, decide_False, decide_True by done.
      intros [= <-]. rewrite U7. by destruct (event_hash_value cn).
  - injection Hx as <-. injection Hxn as <-. constructor; simpl.
    + rewrite U6. intros hs (l & Hl & ->)%fmap_Some. by apply Hsplit, C1.
    + rewrite U7. intros hs (l & Hl & ->)%fmap_Some. by apply Hsplit, C2.
    + rewrite U7. intros q qn Hne Hq Hqr. rewrite Hp in Hq. injection Hq as <-.
      rewrite Hh, !decide_False, decide_True by (done || by apply not_eq_sym).
      intros [= <-]. simpl. eapply C3; [|done|done|done]. by destruct (event_hash_value cn).
  - injection Hxn as <-. destruct (Hhash p b pn Hx Hpn) as [P1 P2 P3]. constructor; simpl; try done.
    intros q qn Hne Hq Hqr. rewrite Hh. repeat case_decide; subst; intros Hqn.
    + injection Hqn as <-. rewrite L7. specialize (P3 i cn Hne Hq Hqr Hcn). by destruct (event_hash_value cn).
    + exfalso. by eapply (split_no_orphans ps (is_eagle c) (root_node c) A new).
    + injection Hqn as <-. done.
    + by eapply P3.
  - destruct (Hhash x b n Hx Hxn) as [P1 P2 P3]. constructor; simpl; try done.
    intros q qn Hne Hq Hqr. rewrite Hh. repeat case_decide; subst; intros Hqn.
    + injection Hqn as <-. rewrite L7. specialize (P3 i cn Hne Hq Hqr Hcn). by destruct (event_hash_value cn).
    + exfalso. by eapply (split_no_orphans ps (is_eagle c) (root_node c) A new).
    + injection Hqn as <-. simpl. by eapply (P3 p pn).
    + by eapply P3.
Qed.

Lemma split_node_spec :
  ∃ c' n, split_node (a_key a) i s c = Ok (new, c') ∧ Inv c' A' ∧ stable c' = stable c ∧
          nodes c' !! new = Some n ∧ value n = Some (slice_to (a_vals a) s).
Proof.
  destruct split_node_exec as (c' & cn & pn & un & ln & pk & lk & Hex & Hst & Hcnt & Hcn & Hpn &
    Hpk & Hlk & Hu & Hl & Hh).
  destruct split_node_facts as (Hps & Hok & Hnew & Hn & Hir & Hnr & Hni & Hnp & Hip).
  exists c', un. split; [done|]. split; [|split; [done|split]].
  - pose proof Hst as Hst'. unfold stable, config in Hst'. injection Hst' as _ Eps Ee _ _ Er _ _ _ Eev Ees Epr El.
    constructor; rewrite ?Eps, ?Ee, ?Er, ?Eev, ?Ees, ?Epr, ?El.
    + done.
    + apply (inv_rec c A Hinv).
    + by eapply split_rep.
    + by eapply split_ok.
    + eapply split_locks_ok; (done || apply (inv_locks c A Hinv)).
    + rewrite (inv_evictable c A Hinv). symmetry.
      by eapply (split_evictable ps (is_eagle c) (root_node c)).
    + rewrite (inv_protected c A Hinv). symmetry.
      by eapply (split_evictable ps (is_eagle c) (root_node c)).
    + intros j. rewrite (inv_leaves c A Hinv). symmetry.
      by eapply (split_is_leaf ps (is_eagle c) (root_node c)).
    + intros j. rewrite Hh, Hcnt.
      assert (∀ k n, nodes c !! k = Some n → (k < S new)%nat) as Hb.
      { intros k n' Hk. pose proof (inv_bound c A Hinv k ltac:(by eexists)). unfold new. lia. }
      repeat case_decide; subst; intros [n' Hj]; [by eapply Hb|lia|by eapply Hb|by eapply Hb].
    + by eapply split_hash_ok.
  - by rewrite Hh, decide_False, decide_True by done.
  - apply Hu.
Qed.
End split_node.

(** ** Contents *)

(** Every node holds whole pages. *)
Definition paged (ps : Z) (A : atree) : Prop :=
  ∀ i a, A !! i = Some a → ∃ P, a_vals a = Paged.page_slots ps P.

(** The two trees cache the same rows in the same slots, and every node of the
    first is still a node of the second. *)
Record same_contents (ps : Z) (root : nat) (A A' : atree) : Prop := {
  sc_extends : extends A A';
  sc_cached ns us vs : cached root A' ns us vs ↔ cached root A ns us vs;
  sc_slots : tree_slots A' ≡ₚ tree_slots A;
  sc_paged : paged ps A → paged ps A';
}.

#[export] Instance same_contents_preorder ps root : PreOrder (same_contents ps root).
Proof.
  split.
  - intros A. by constructor.
  - intros A B C [E1 C1 S1 P1] [E2 C2 S2 P2]. constructor.
    + by etrans.
    + intros. by rewrite C2.
    + by etrans.
    + auto.
Qed.

Lemma split_paged ps eagle root A i new p a pa s :
  0 < ps → tree_ok ps eagle root A → A !! i = Some a → a_parent a = Some p → A !! p = Some pa →
  A !! new = None → (ps | s) → 0 < s < key_len (a_key a) →
  paged ps A → paged ps (a_split A i new pa a s).
Proof.
  intros Hps Hok Hi Hp Hpa Hnew [q ->] Hs Hpg k b. rewrite split_lookup.
  destruct (Hpg i a Hi) as [P HP]. destruct (page_slots_take_drop ps P q Hps ltac:(nia)) as [E1 E2].
  repeat case_decide; subst; [intros [= <-]..|apply Hpg]; simpl; rewrite HP; eauto.
Qed.

Lemma split_same_contents ps eagle root A i new p a pa s :
  0 < ps → tree_ok ps eagle root A → A !! i = Some a → a_parent a = Some p → A !! p = Some pa →
  A !! new = None → (ps | s) → 0 < s < key_len (a_key a) →
  same_contents ps root A (a_split A i new pa a s).
Proof.
  intros. constructor.
  - by eapply (split_extends ps eagle root).
  - intros. by eapply (split_cached ps eagle root).
  - by eapply (split_tree_slots ps eagle root).
  - by eapply (split_paged ps eagle root).
Qed.

Lemma stable_config c c' :
  stable c' = stable c →
  config c' = config c ∧ cpage_size c' = cpage_size c ∧ is_eagle c' = is_eagle c ∧
  root_node c' = root_node c ∧ kv_events c' = kv_events c ∧
  evictable_size_ c' = evictable_size_ c ∧ protected_size_ c' = protected_size_ c ∧
  evictable_leaves c' = evictable_leaves c.
Proof. unfold stable, config. intros E. simplify_eq. repeat split; congruence. Qed.

Lemma config_fields c c' :
  config c' = config c →
  disable c' = disable c ∧ cpage_size c' = cpage_size c ∧ is_eagle c' = is_eagle c ∧
  root_node c' = root_node c ∧ eviction_strategy c' = eviction_strategy c ∧
  kv_allocator c' = kv_allocator c.
Proof. unfold config. intros E. injection E. intros. split_and!; assumption. Qed.
