(* ===== verification/RadixEvents.v ===== *)
(** * Event recording on the radix tree

    On a tree that satisfies the invariant, recording a stored or removed node
    never raises: the walk towards the root that completes missing event hashes
    ends, the salts agree on the way, every page has its digest.  Recording fills
    in hashes and appends to the queue, and touches nothing else of the nodes. *)

From S2P Require Import Prelude RadixKey PrefixTree TreeNode Allocator Events RadixCache RadixInv.

(** Recording only follows parents and reads keys; it also runs on a leaf that was
    just taken out of the dictionary of its parent. *)
Record up_node (a : anode) (n : TreeNode) : Prop := {
  un_parent : parent n = a_parent a;
  un_key : key n = a_key a;
}.
Definition rep_up (h : heap) (A : atree) : Prop :=
  ∀ i a, A !! i = Some a → ∃ n, h !! i = Some n ∧ up_node a n.

Lemma rep_rep_up ps h A : rep ps h A → rep_up h A.
Proof. intros Hr i a Hi. destruct (Hr i a Hi) as (n & Hn & []). by exists n. Qed.

Lemma rep_up_same_core h h' A : same_core h h' → rep_up h A → rep_up h' A.
Proof.
  intros Hs Hr i a Hi. destruct (Hr i a Hi) as (n & Hn & [H1 H2]).
  destruct (same_core_lookup h h' i n Hs Hn) as (n' & Hn' & Hc). exists n'. split; [done|].
  unfold core in Hc. injection Hc as _ E1 E2 _ _. by split; congruence.
Qed.

Lemma up_lookup h A i a n : rep_up h A → A !! i = Some a → h !! i = Some n → up_node a n.
Proof. intros Hr Hi Hn. destruct (Hr i a Hi) as (n' & Hn' & Hu). by same_lookup. Qed.

Section hashes.
Context `{HashLaws} (ps : Z) (eagle : bool) (root : nat) (A : atree).
Hypothesis Hps : 0 < ps.
Hypothesis Hok : tree_ok ps eagle root A.

(** The heaps reached while hashes are filled in. *)
Record hashed (h0 h : heap) : Prop := {
  hd_core : same_core h0 h;
  hd_attrs : same_attrs h0 h;
  hd_rep : rep_up h A;
  hd_hash : hash_ok ps root h A;
}.

Definition event_filled (h : heap) (i : nat) : Prop :=
  ∀ n, h !! i = Some n → event_hash_value n ≠ None.

Lemma get_node_eq h i n : h !! i = Some n → get_node h i = Ok n.
Proof. unfold get_node. by intros ->. Qed.

Lemma same_core_size h h' : same_core h h' → base.size h = base.size h'.
Proof.
  intros Hs. rewrite <-!size_dom. f_equal. apply set_eq. intros i. rewrite !elem_of_dom.
  specialize (Hs i). destruct (h !! i), (h' !! i); simpl in Hs; try done; by split; intros []; eexists.
Qed.

Lemma node_pages i a : A !! i = Some a → i ≠ root →
  key_wf (a_key a) ∧ (ps | key_len (a_key a)) ∧ 0 < key_len (a_key a).
Proof. intros Hi Hr. destruct (to_node _ _ _ A Hok i a Hi Hr) as (p & pa & _ & _ & []). done. Qed.

(** Writing hashes. *)
Lemma hashed_set_event h0 h i a n hs :
  hashed h0 h → A !! i = Some a → h !! i = Some n → hashes_for ps (a_key a) hs →
  (∀ p, a_parent a = Some p → p = root ∨ event_filled h p) →
  hashed h0 (<[i := set_event_hash_value n (Some hs)]> h) ∧
  event_filled (<[i := set_event_hash_value n (Some hs)]> h) i.
Proof.
  intros [Hc Hat Hr Hh] Hi Hn Hfor Hup.
  assert (same_core h (<[i := set_event_hash_value n (Some hs)]> h)) as Hs by by eapply put_same.
  split; [constructor|].
  - intros j. by rewrite Hc.
  - intros j. rewrite Hat. by apply (put_same_attrs h i n).
  - by eapply rep_up_same_core.
  - intros j b m Hj. destruct (decide (j = i)) as [->|Hji].
    + rewrite lookup_insert_eq. intros [= <-]. same_lookup. destruct (Hh i a n Hi Hn) as [Q1 Q2 Q3].
      constructor; simpl; try done; [by intros ? [= <-]|].
      intros p pn _ Hp Hpr. destruct (decide (p = i)) as [->|].
      * rewrite lookup_insert_eq. by intros [= <-].
      * rewrite lookup_insert_ne by done. destruct (Hup p Hp) as [|Hf]; [done|]. apply Hf.
    + rewrite lookup_insert_ne by done. intros Hm. destruct (Hh j b m Hj Hm) as [Q1 Q2 Q3].
      constructor; try done. intros p pn Hne Hp Hpr. destruct (decide (p = i)) as [->|].
      * rewrite lookup_insert_eq. by intros [= <-].
      * rewrite lookup_insert_ne by done. by eapply Q3.
  - intros m. rewrite lookup_insert_eq. by intros [= <-].
Qed.

Lemma hashed_set_hash h0 h i a n hs :
  hashed h0 h → A !! i = Some a → h !! i = Some n → hashes_for ps (a_key a) hs →
  hashed h0 (<[i := set_hash_value n (Some hs)]> h).
Proof.
  intros [Hc Hat Hr Hh] Hi Hn Hfor.
  assert (same_core h (<[i := set_hash_value n (Some hs)]> h)) as Hs by by eapply put_same.
  constructor.
  - intros j. by rewrite Hc.
  - intros j. rewrite Hat. by apply (put_same_attrs h i n).
  - by eapply rep_up_same_core.
  - assert (∀ j m, <[i := set_hash_value n (Some hs)]> h !! j = Some m →
              ∃ m', h !! j = Some m' ∧ event_hash_value m = event_hash_value m') as Hev.
    { intros j m. destruct (decide (j = i)) as [->|].
      - rewrite lookup_insert_eq. intros [= <-]. by exists n.
      - rewrite lookup_insert_ne by done. by exists m. }
    intros j b m Hj Hm. destruct (Hev j m Hm) as (m' & Hm' & Em). destruct (Hh j b m' Hj Hm') as [Q1 Q2 Q3].
    constructor; rewrite ?Em; try done.
    + destruct (decide (j = i)) as [->|].
      * rewrite lookup_insert_eq in Hm. injection Hm as <-. same_lookup. by intros ? [= <-].
      * rewrite lookup_insert_ne in Hm by done. same_lookup. done.
    + intros p pn Hne Hp Hpr Hpn. destruct (Hev p pn Hpn) as (pn' & Hpn' & ->). by eapply Q3.
Qed.

Lemma compute_node_hash_values_spec h i a :
  rep_up h A → A !! i = Some a → i ≠ root →
  ∃ hs, compute_node_hash_values h i ps = Ok hs ∧ hashes_for ps (a_key a) hs.
Proof.
  intros Hr Hi Hir. destruct (Hr i a Hi) as (n & Hn & Hrn).
  destruct (to_node _ _ _ A Hok i a Hi Hir) as (p & pa & Hp & Hpa & Hno).
  destruct (Hr p pa Hpa) as (pn & Hpn & Hrp). unfold compute_node_hash_values.
  rewrite (get_node_eq _ _ _ Hn), bind_ret, (un_parent _ _ Hrn), Hp.
  rewrite (get_node_eq _ _ _ Hpn), !bind_ret. eexists. split; [done|].
  rewrite (un_key _ _ Hrn). apply native_hash_pages; [apply Hno|done|apply Hno].
Qed.

(** The nodes from [i] up to, and not including, [stop]. *)
Fixpoint up_chain (i : nat) (chain : list nat) (stop : nat) : Prop :=
  match chain with
  | [] => i = stop
  | x :: rest =>
      x = i ∧ i ≠ root ∧ ∃ a p, A !! i = Some a ∧ a_parent a = Some p ∧ up_chain p rest stop
  end.

Lemma missing_event_hashes_spec h salt fuel i a acc :
  rep_up h A → A !! i = Some a → (i ≠ root → cache_salt (a_key a) = salt) →
  (shallower A (length (a_path a)) < fuel)%nat →
  ∃ chain stop b n,
    missing_event_hashes fuel h salt (Some i) acc = Ok (acc ++ chain, Some stop) ∧
    up_chain i chain stop ∧ A !! stop = Some b ∧ h !! stop = Some n ∧
    (stop = root ∨ (event_hash_value n ≠ None ∧ cache_salt (a_key b) = salt)).
Proof.
  intros Hr. revert i a acc. induction fuel as [|fuel IH]; intros i a acc Hi Hsalt Hf; [lia|].
  destruct (Hr i a Hi) as (n & Hn & Hrn). cbn [missing_event_hashes].
  rewrite (get_node_eq _ _ _ Hn), bind_ret, (un_key _ _ Hrn).
  destruct (decide (i = root)) as [->|Hir].
  { destruct (to_root _ _ _ A Hok) as (r & Hroot & _ & Hk & _). same_lookup.
    exists [], root, a, n. rewrite Hk, app_nil_r. split_and!; try done. by left. }
  destruct (node_pages i a Hi Hir) as (_ & _ & Hpos). specialize (Hsalt Hir).
  destruct (Z.gtb_spec (key_len (a_key a)) 0); [|lia]. cbn [andb].
  case_bool_decide as Hev.
  - rewrite bool_decide_true by done. rewrite (un_parent _ _ Hrn).
    destruct (to_node _ _ _ A Hok i a Hi Hir) as (p & pa & Hp & Hpa & Hno). rewrite Hp.
    destruct (IH p pa (acc ++ [i])) as (chain & stop & b & m & -> & Hch & Hst); try done.
    { intros Hpr. rewrite <-Hsalt. pose proof (no_ns _ _ _ _ _ _ Hno Hpr) as Hns.
      unfold namespace in Hns. congruence. }
    { pose proof (ok_parent_shorter _ _ _ A Hok i a p pa Hi Hp Hpa) as Hlt.
      pose proof (shallower_lt A p pa _ Hpa Hlt). lia. }
    exists (i :: chain), stop, b, m. rewrite <-app_assoc. split; [done|]. split; [|done].
    split_and!; try done. by exists a, p.
  - exists [], i, a, n. rewrite app_nil_r. split_and!; try done. by right.
Qed.

Definition fill_body (m : nat) (st : heap * option string) : res (heap * option string) :=
  let '(h, parent_hash) := st in
  mn ← get_node h m;
  let hash_values := native_hash (key mn) parent_hash ps in
  let h := <[m := set_event_hash_value mn (Some hash_values)]> h in
  Ok (h, match hash_values with [] => parent_hash | _ => last hash_values end).

Lemma fill_chain_spec h0 chain i stop h ph :
  up_chain i chain stop → hashed h0 h → (stop = root ∨ event_filled h stop) →
  ∃ h' ph', for_each fill_body (reverse chain) (h, ph) = Ok (h', ph') ∧ hashed h0 h' ∧
            (i = root ∨ event_filled h' i).
Proof.
  revert i. induction chain as [|x rest IH]; intros i Hch Hh Hstop; simpl in Hch.
  { subst. by exists h, ph. }
  destruct Hch as (-> & Hir & a & p & Hi & Hp & Hch).
  destruct (IH p Hch Hh Hstop) as (h1 & ph1 & Hrun & Hh1 & Hp1).
  rewrite reverse_cons, for_each_app, Hrun, bind_ret.
  destruct (hd_rep _ _ Hh1 i a Hi) as (n & Hn & Hrn). cbn [for_each fill_body].
  rewrite (get_node_eq _ _ _ Hn), !bind_ret.
  destruct (node_pages i a Hi Hir) as (Hwf & Hdiv & _).
  destruct (hashed_set_event h0 h1 i a n (native_hash (key n) ph1 ps)) as [Hh2 Hf2]; try done.
  { rewrite (un_key _ _ Hrn). by apply native_hash_pages. }
  { intros q Hq. same_lookup. done. }
  do 2 eexists. split; [done|]. split; [done|]. by right.
Qed.

Lemma compute_node_event_hash_values_spec h0 h i a :
  hashed h0 h → A !! i = Some a → i ≠ root → (base.size A ≤ base.size h)%nat →
  ∃ hs h', compute_node_event_hash_values h i ps = Ok (hs, h') ∧ hashed h0 h' ∧
    hashes_for ps (a_key a) hs ∧
    (cache_salt (a_key a) ≠ None → event_filled h' i).
Proof.
  intros Hh Hi Hir Hsz. pose proof (hd_rep _ _ Hh) as Hr. destruct (Hr i a Hi) as (n & Hn & Hrn).
  unfold compute_node_event_hash_values. rewrite (get_node_eq _ _ _ Hn), bind_ret.
  rewrite (un_key _ _ Hrn). destruct (cache_salt (a_key a)) as [salt|] eqn:Hsalt.
  2:{ destruct (compute_node_hash_values_spec h i a Hr Hi Hir) as (hs & -> & Hfor).
      rewrite bind_ret. by exists hs, h. }
  destruct (event_hash_value n) as [hs|] eqn:Hev.
  { exists hs, h. split_and!; try done; [by eapply (hn_event _ _ _ _ _ (hd_hash _ _ Hh i a n Hi Hn))|].
    intros _ m Hm. same_lookup. congruence. }
  destruct (missing_event_hashes_spec h (Some salt) (S (base.size h)) i a []) as
    (chain & stop & b & sn & -> & Hch & Hb & Hsn & Hstop); try done.
  { pose proof (shallower_size A i a Hi). lia. }
  rewrite bind_ret. cbv beta iota. rewrite (get_node_eq _ _ _ Hsn), !bind_ret.
  pose proof (un_key _ _ (up_lookup h A stop b sn Hr Hb Hsn)) as Ekey.
  assert ((key_len (key sn) >? 0) && negb (bool_decide (cache_salt (key sn) = Some salt)) = false) as ->.
  { rewrite Ekey. destruct Hstop as [->|[_ Hs]].
    - destruct (to_root _ _ _ A Hok) as (r & Hroot & _ & Hk & _). same_lookup. by rewrite Hk.
    - rewrite bool_decide_true by done. apply andb_false_r. }
  rewrite bind_ret. cbv beta zeta.
  match goal with |- context [for_each _ _ (h, ?ph)] =>
    destruct (fill_chain_spec h0 chain i stop h ph Hch Hh) as (h' & ph' & Hrun & Hh' & Hf) end.
  { destruct Hstop as [|[Hne _]]; [by left|]. right. intros m Hm. by same_lookup. }
  change (for_each _ (reverse ([] ++ chain)) _) with
    (for_each fill_body (reverse chain) (h, match Some sn ≫= event_hash_value with
            | Some ((_ :: _) as hs) => last hs | _ => Some (salt_digest salt) end)).
  rewrite Hrun, bind_ret. cbv beta iota.
  destruct (hd_rep _ _ Hh' i a Hi) as (n' & Hn' & _). rewrite (get_node_eq _ _ _ Hn'), bind_ret.
  destruct Hf as [|Hf]; [done|]. specialize (Hf n' Hn') as Hne.
  destruct (event_hash_value n') as [hs|] eqn:Hev'; [|done].
  exists hs, h'. split_and!; try done. by eapply (hn_event _ _ _ _ _ (hd_hash _ _ Hh' i a n' Hi Hn')).
Qed.

Lemma node_event_hash_values_spec h0 h i a r :
  hashed h0 h → A !! i = Some a → i ≠ root → (base.size A ≤ base.size h)%nat →
  rec_page_size r = ps →
  ∃ hs h', node_event_hash_values h i r = Ok (hs, h') ∧ hashed h0 h' ∧
    hashes_for ps (a_key a) hs ∧ (cache_salt (a_key a) ≠ None → event_filled h' i).
Proof.
  intros Hh Hi Hir Hsz Hrp. pose proof (hd_rep _ _ Hh) as Hr. destruct (Hr i a Hi) as (n & Hn & Hrn).
  unfold node_event_hash_values. rewrite (get_node_eq _ _ _ Hn), bind_ret, Hrp.
  assert (∃ hs h1, match hash_value n with
    | Some hs => Ok (hs, h)
    | None => hs ← compute_node_hash_values h i ps; Ok (hs, <[i := set_hash_value n (Some hs)]> h)
    end = Ok (hs, h1) ∧ hashed h0 h1 ∧ hashes_for ps (a_key a) hs ∧ base.size h1 = base.size h)
    as (hs & h1 & -> & Hh1 & Hfor & Hsz1).
  { destruct (hash_value n) as [hs|] eqn:Hhv.
    - exists hs, h. split_and!; try done. by eapply (hn_hash _ _ _ _ _ (hd_hash _ _ Hh i a n Hi Hn)).
    - destruct (compute_node_hash_values_spec h i a Hr Hi Hir) as (hs & -> & Hfor). rewrite bind_ret.
      exists hs, (<[i := set_hash_value n (Some hs)]> h). split; [done|].
      split; [by eapply hashed_set_hash|]. split; [done|]. symmetry. apply same_core_size.
      by eapply put_same. }
  rewrite bind_ret. cbv beta iota. rewrite (un_key _ _ Hrn).
  destruct (cache_salt (a_key a)) as [salt|] eqn:Hsalt.
  - rewrite <-Hsalt. apply compute_node_event_hash_values_spec; (done || lia).
  - by exists hs, h1.
Qed.

Lemma hex_last hs x : Forall hex_string hs → last hs = Some x → ∃ v, hash_str_to_int64 x = Ok v.
Proof.
  intros Hf Hl. rewrite last_lookup in Hl. apply (Forall_lookup_1 _ _ _ _ Hf) in Hl.
  unfold hex_string in Hl. destruct (hash_str_to_int64 x); [by eexists|done].
Qed.

Lemma parent_block_hash_of_spec h0 h i a :
  hashed h0 h → A !! i = Some a → i ≠ root → (cache_salt (a_key a) ≠ None → event_filled h i) →
  ∃ v, parent_block_hash_of h i = Ok v.
Proof.
  intros Hh Hi Hir Hf. pose proof (hd_rep _ _ Hh) as Hr. destruct (Hr i a Hi) as (n & Hn & Hrn).
  destruct (to_node _ _ _ A Hok i a Hi Hir) as (p & pa & Hp & Hpa & Hno).
  destruct (Hr p pa Hpa) as (pn & Hpn & Hrp). unfold parent_block_hash_of.
  rewrite (get_node_eq _ _ _ Hn), bind_ret, (un_parent _ _ Hrn), Hp.
  rewrite (get_node_eq _ _ _ Hpn), bind_ret, (un_parent _ _ Hrp).
  destruct (decide (p = root)) as [->|Hpr].
  { destruct (to_root _ _ _ A Hok) as (r & Hroot & Hpar & _). same_lookup. rewrite Hpar. by eexists. }
  destruct (to_node _ _ _ A Hok p pa Hpa Hpr) as (q & qa & -> & _).
  pose proof (hd_hash _ _ Hh p pa pn Hpa Hpn) as [H1 H2 H3].
  rewrite (un_key _ _ Hrn).
  assert (∃ hs, match cache_salt (a_key a) with
    | Some _ => match event_hash_value pn with Some hs => Ok (Some hs) | None => Err AssertionError end
    | None => Ok (hash_value pn) end = Ok hs ∧ ∀ l, hs = Some l → Forall hex_string l) as (hs & -> & Hhex).
  { destruct (cache_salt (a_key a)) as [salt|] eqn:Hsalt.
    - pose proof (hn_up _ _ _ _ _ (hd_hash _ _ Hh i a n Hi Hn) p pn (Hf ltac:(done) n Hn) Hp Hpr Hpn) as Hne.
      destruct (event_hash_value pn) as [l|]; [|done]. exists (Some l). split; [done|].
      intros ? [= <-]. by apply H2.
    - exists (hash_value pn). split; [done|]. intros l Hl. by apply H1. }
  rewrite bind_ret. destruct hs as [l|]; simpl; [|by eexists].
  destruct (last l) as [x|] eqn:Hl; [|by eexists].
  destruct (hex_last l x (Hhex l eq_refl) Hl) as (v & ->). by eexists.
Qed.
End hashes.

(** ** The events of a node *)

(** The blocks of a node, one per page: each follows the one before it. *)
Fixpoint store_blocks (ps : Z) (k : RadixKey) (m : StorageMedium) (parent : option Z)
    (q : nat) (hs : list Z) : list KVCacheEvent :=
  match hs with
  | [] => []
  | x :: hs =>
      Stored (mkBlockStored [x] parent
                (take (Z.to_nat ps) (drop (q * Z.to_nat ps) (units k))) ps None m (cache_salt k))
      :: store_blocks ps k m (Some x) (S q) hs
  end.

Lemma page_tokens_units k start stop :
  key_wf k → 0 ≤ start ≤ stop → stop ≤ key_len k →
  page_tokens k start stop = Ok (take (Z.to_nat (stop - start)) (drop (Z.to_nat start) (units k))).
Proof.
  intros Hwf Hs Hle. pose proof (raw_len_bounds k Hwf) as Hrl. unfold page_tokens, units, key_len in *.
  rewrite raw_token_ids_take by done. unfold zrange, zlen in *. destruct (is_bigram k).
  - assert (stop ≤ raw_len k - 1 ∨ stop = 0) as Hst by (destruct (Z.gtb_spec (raw_len k) 0); lia).
    destruct (decide (stop = start)) as [->|Hne].
    { by rewrite Z.sub_diag. }
    rewrite (foldr_get_spec (token_ids k)
      (λ i _ acc, a ← py_get (token_ids k) i; b ← py_get (token_ids k) (i + 1);
                  us ← acc; Ok (Bigram a b :: us)) (bigrams (token_ids k)) (stop - start) start); try lia.
    + destruct (Z.to_nat (raw_len k)) as [|m] eqn:Hm; [lia|].
      rewrite bigrams_take, take_drop_take by lia. done.
    + unfold zlen. rewrite length_bigrams. lia.
    + intros i acc Hi.
      destruct (lookup_lt_is_Some_2 (token_ids k) (Z.to_nat i)) as [a Ha]; [lia|].
      destruct (lookup_lt_is_Some_2 (token_ids k) (S (Z.to_nat i))) as [b Hb]; [lia|].
      exists (Bigram a b). split; [by apply lookup_bigrams|].
      assert (py_get (token_ids k) i = Ok a) as -> by (apply py_get_lookup; [lia|done]).
      assert (py_get (token_ids k) (i + 1) = Ok b) as ->; [|done].
      apply py_get_lookup; [lia|]. by replace (Z.to_nat (i + 1)) with (S (Z.to_nat i)) by lia.
  - rewrite slice_take_drop by lia.
    rewrite <-fmap_drop, <-fmap_take, take_drop_take by lia. done.
Qed.

(** Loops over the pages of a node see the page indices in order. *)
Lemma page_starts_eq ps k hs :
  0 < ps → hashes_for ps k hs →
  page_starts (key_len k) ps = (λ q, Z.of_nat q * ps) <$> seq 0 (length hs).
Proof.
  intros Hps [Hl _]. unfold page_starts, zrange, zlen in *.
  replace ((key_len k + ps - 1) / ps) with (Z.of_nat (length hs)).
  - rewrite Z.sub_0_r. unfold seqZ. rewrite Nat2Z.id, <-list_fmap_compose.
    apply list_fmap_ext. intros i x Hx. simpl. lia.
  - rewrite <-Hl. apply Z.div_unique with (ps - 1); lia.
Qed.

Lemma hashes_int64 hs :
  Forall hex_string hs → ∃ xs, Forall2 (λ s x, hash_str_to_int64 s = Ok x) hs xs.
Proof.
  induction 1 as [|s hs Hs _ [xs IH]]; [by exists []|].
  unfold hex_string in Hs. destruct (hash_str_to_int64 s) as [x|] eqn:Hx; [|done].
  exists (x :: xs). by constructor.
Qed.

Definition enqueue_all (es : list KVCacheEvent) (r : KVCacheEventRecorder) : KVCacheEventRecorder :=
  foldl (λ r e, enqueue e r) r es.

Lemma enqueue_settings e r :
  rec_page_size (enqueue e r) = rec_page_size r ∧ enabled (enqueue e r) = enabled r.
Proof. unfold enqueue. by repeat case_match. Qed.

Lemma enqueue_all_settings es r :
  rec_page_size (enqueue_all es r) = rec_page_size r ∧ enabled (enqueue_all es r) = enabled r.
Proof.
  unfold enqueue_all. revert r. induction es as [|e es IH]; intros r; [done|]. simpl.
  destruct (IH (enqueue e r)) as [-> ->]. apply enqueue_settings.
Qed.

Section loops.
Context (ps : Z) (k : RadixKey) (m : StorageMedium) (ehs : list string).
Hypothesis Hps : 0 < ps.
Hypothesis Hwf : key_wf k.

(** The integers of the digests from page [q] on. *)
Definition digests_from (q : nat) (xs : list Z) : Prop :=
  Forall2 (λ s x, hash_str_to_int64 s = Ok x) (drop q ehs) xs ∧
  (Z.of_nat (q + length xs)) * ps ≤ key_len k.

Lemma digests_cons q x xs :
  digests_from q (x :: xs) →
  ∃ s, py_get ehs (Z.of_nat q) = Ok s ∧ hash_str_to_int64 s = Ok x ∧ digests_from (S q) xs ∧
       (Z.of_nat q + 1) * ps ≤ key_len k.
Proof.
  intros [Hf Hle]. destruct (drop q ehs) as [|s rest] eqn:Hd; [by inversion Hf|].
  apply Forall2_cons in Hf as [Hs Hf]. exists s. split.
  { apply py_get_lookup; [lia|]. rewrite Nat2Z.id, <-(Nat.add_0_r q), <-lookup_drop. by rewrite Hd. }
  split; [done|]. simpl in Hle. split; [|nia].
  split; [|by replace (S q + length xs)%nat with (q + S (length xs))%nat by lia].
  by rewrite <-Nat.add_1_r, <-drop_drop, Hd.
Qed.

Lemma store_loop q xs parent r :
  digests_from q xs → rec_page_size r = ps →
  ∃ pi pa, for_each (store_body k m ehs) ((λ q, Z.of_nat q * ps) <$> seq q (length xs))
    (Z.of_nat q, parent, r) = Ok (pi, pa, enqueue_all (store_blocks ps k m parent q xs) r).
Proof.
  revert q parent r. induction xs as [|x xs IH]; intros q parent r Hd Hr; [by do 2 eexists|].
  destruct (digests_cons q x xs Hd) as (s & Hs & Hx & Hd' & Hle).
  cbn [length seq fmap list_fmap for_each store_body]. rewrite Hr.
  rewrite Z.min_l by lia. destruct (Z.leb_spec (Z.of_nat q * ps + ps) (Z.of_nat q * ps)); [lia|].
  rewrite page_tokens_units, bind_ret by (done || lia). rewrite Hs, bind_ret, Hx, !bind_ret.
  replace (Z.to_nat (Z.of_nat q * ps + ps - Z.of_nat q * ps)) with (Z.to_nat ps) by lia.
  replace (Z.to_nat (Z.of_nat q * ps)) with (q * Z.to_nat ps)%nat by lia.
  set (toks := take (Z.to_nat ps) (drop (q * Z.to_nat ps) (units k))).
  assert (zlen toks = ps) as Htoks.
  { unfold toks, zlen. rewrite length_take, length_drop, length_units by done. lia. }
  rewrite Htoks. cbn [store_blocks]. fold toks.
  replace (Z.of_nat q + 1) with (Z.of_nat (S q)) by lia.
  apply (IH (S q)); [done|]. by destruct (enqueue_settings (Stored (mkBlockStored [x] parent toks ps None m (cache_salt k))) r) as [-> _].
Qed.

Lemma remove_loop q xs acc r :
  digests_from q xs → rec_page_size r = ps →
  ∃ pi, for_each (remove_body k ehs r) ((λ q, Z.of_nat q * ps) <$> seq q (length xs))
    (Z.of_nat q, acc) = Ok (pi, acc ++ xs).
Proof.
  revert q acc. induction xs as [|x xs IH]; intros q acc Hd Hr.
  { rewrite app_nil_r. by eexists. }
  destruct (digests_cons q x xs Hd) as (s & Hs & Hx & Hd' & Hle).
  cbn [length seq fmap list_fmap for_each remove_body]. rewrite Hr.
  rewrite Z.min_l by lia. destruct (Z.leb_spec (Z.of_nat q * ps + ps) (Z.of_nat q * ps)); [lia|].
  rewrite Hs, bind_ret, Hx, !bind_ret.
  replace (Z.of_nat q + 1) with (Z.of_nat (S q)) by lia.
  destruct (IH (S q) (acc ++ [x]) Hd' Hr) as [pi Hrun]. rewrite <-app_assoc in Hrun. by exists pi.
Qed.
End loops.

(** ** Recording *)

Section record.
Context `{HashLaws} (ps : Z) (eagle : bool) (root : nat) (A : atree).
Hypothesis Hps : 0 < ps.
Hypothesis Hok : tree_ok ps eagle root A.

Lemma hashed_refl h : rep_up h A → hash_ok ps root h A → hashed ps root A h h.
Proof. by constructor. Qed.

Lemma record_store_spec h i a m r :
  rep_up h A → hash_ok ps root h A → A !! i = Some a → i ≠ root →
  (base.size A ≤ base.size h)%nat → rec_page_size r = ps →
  ∃ h' es, record_store i m h r = Ok (h', enqueue_all es r) ∧ hashed ps root A h h' ∧
    (enabled r = false → es = []) ∧
    (enabled r = true → ∃ parent xs, es = store_blocks ps (a_key a) m parent 0 xs ∧
       zlen xs * ps = key_len (a_key a)).
Proof.
  intros Hr Hh Hi Hir Hsz Hrp. unfold record_store. destruct (enabled r) eqn:Hen.
  2:{ exists h, []. split; [done|]. split; [by apply hashed_refl|]. done. }
  cbn [negb].
  destruct (node_event_hash_values_spec ps eagle root A Hps Hok h h i a r)
    as (ehs & h' & -> & Hh' & Hfor & Hf); try done.
  rewrite bind_ret. cbv beta iota.
  destruct (parent_block_hash_of_spec ps eagle root A Hok h h' i a Hh' Hi Hir Hf) as (pv & ->).
  rewrite bind_ret. destruct (hd_rep _ _ _ _ _ Hh' i a Hi) as (n & Hn & Hrn).
  rewrite (get_node_eq _ _ _ Hn), bind_ret, (un_key _ _ Hrn), Hrp.
  destruct (hashes_int64 ehs (proj2 Hfor)) as (xs & Hxs).
  assert (length ehs = length xs) as Hlen by by eapply Forall2_length.
  rewrite (page_starts_eq ps (a_key a) ehs Hps Hfor), Hlen.
  pose proof (proj1 Hfor) as Hl. unfold zlen in Hl. rewrite Hlen in Hl.
  destruct (store_loop ps (a_key a) m ehs Hps (proj1 (node_pages ps eagle root A Hok i a Hi Hir)) 0 xs pv r)
    as (pi & pa & Hrun); [|done|].
  { split; [by rewrite drop_0|]. simpl. lia. }
  change (Z.of_nat 0) with 0 in Hrun. rewrite Hrun, bind_ret.
  eexists _, _. split; [done|]. split; [done|]. split; [done|]. intros _.
  exists pv, xs. split; [done|]. unfold zlen. lia.
Qed.

Lemma record_remove_spec h i a m r :
  rep_up h A → hash_ok ps root h A → A !! i = Some a → i ≠ root →
  (base.size A ≤ base.size h)%nat → rec_page_size r = ps →
  ∃ h' es, record_remove i m h r = Ok (h', enqueue_all es r) ∧ hashed ps root A h h' ∧
    (enabled r = false → es = []) ∧
    (enabled r = true → ∃ xs, es = [BlockRemoved xs m] ∧ zlen xs * ps = key_len (a_key a)).
Proof.
  intros Hr Hh Hi Hir Hsz Hrp. unfold record_remove. destruct (enabled r) eqn:Hen.
  2:{ exists h, []. split; [done|]. split; [by apply hashed_refl|]. done. }
  cbn [negb].
  destruct (node_event_hash_values_spec ps eagle root A Hps Hok h h i a r)
    as (ehs & h' & -> & Hh' & Hfor & Hf); try done.
  rewrite bind_ret. cbv beta iota. destruct (hd_rep _ _ _ _ _ Hh' i a Hi) as (n & Hn & Hrn).
  rewrite (get_node_eq _ _ _ Hn), bind_ret, (un_key _ _ Hrn), Hrp.
  destruct (hashes_int64 ehs (proj2 Hfor)) as (xs & Hxs).
  assert (length ehs = length xs) as Hlen by by eapply Forall2_length.
  rewrite (page_starts_eq ps (a_key a) ehs Hps Hfor), Hlen.
  pose proof (proj1 Hfor) as Hl. unfold zlen in Hl. rewrite Hlen in Hl.
  destruct (remove_loop ps (a_key a) ehs Hps 0 xs [] r) as (pi & Hrun); [|done|].
  { split; [by rewrite drop_0|]. simpl. lia. }
  change (Z.of_nat 0) with 0 in Hrun. rewrite Hrun, bind_ret. cbv beta iota.
  destruct (node_pages ps eagle root A Hok i a Hi Hir) as (_ & _ & Hpos).
  destruct xs as [|x xs]; [simpl in Hl; lia|]. exists h', [BlockRemoved (x :: xs) m].
  split; [done|]. split; [done|]. split; [done|]. intros _. eexists. split; [done|]. unfold zlen. lia.
Qed.
End record.
