(* ===== verification/RadixWalk.v ===== *)
(** * Walking the radix tree: prefix match and insertion

    Total correctness of [match_prefix] and [insert]: they raise nothing, keep the
    invariant, and behave as lookup and update of the partial map [cached].  Both
    walks share one description of a step down, [descend_none] and
    [descend_some]. *)

From S2P Require Import Prelude RadixKey PrefixTree TreeNode Allocator Events RadixCache RadixInv.

(** ** The abstract result of a walk *)

(** [n] is the greatest page-aligned length of a cached prefix of [us]. *)
Definition longest (ps : Z) (root : nat) (A : atree) (ns : option string * option string)
    (us : list kunit) (n : Z) : Prop :=
  ∀ n' vs, (ps | n') → 0 ≤ n' ≤ zlen us → cached root A ns (take (Z.to_nat n') us) vs → n' ≤ n.

(** A walk along the units [us] of the namespace [ns] stands at node [i], which
    covers the first [m] of them. *)
Definition walk_at (root : nat) (A : atree) (ns : option string * option string)
    (us : list kunit) (i : nat) (a : anode) (m : Z) : Prop :=
  A !! i = Some a ∧ (i ≠ root → a_ns a = ns) ∧ 0 ≤ m ≤ zlen us ∧ a_path a = take (Z.to_nat m) us.

(** The keys the tree is searched with. *)
Definition search_key (ps : Z) (eagle : bool) (ns : option string * option string)
    (us : list kunit) (k : RadixKey) : Prop :=
  key_wf k ∧ salt_wf k ∧ is_bigram k = eagle ∧ (ps | key_len k) ∧ namespace k = ns ∧ units k = us.

Lemma search_key_len ps eagle ns us k : search_key ps eagle ns us k → key_len k = zlen us.
Proof. intros (Hwf & _ & _ & _ & _ & <-). by apply key_len_units. Qed.

Lemma search_key_from ps eagle ns us k n :
  search_key ps eagle ns us k → 0 ≤ n → (ps | n) → n ≤ zlen us →
  search_key ps eagle ns (drop (Z.to_nat n) us) (key_from k n).
Proof.
  intros Hk Hn Hd Hle. pose proof (search_key_len _ _ _ _ _ Hk) as Hl.
  destruct Hk as (Hwf & Hsw & Hb & Hdiv & Hns & Hu).
  repeat split.
  - apply getitem_slice_wf.
  - apply getitem_slice_salt_wf.
  - rewrite <-Hb. apply getitem_slice_bigram.
  - rewrite key_from_len by (done || lia). by apply Z.divide_sub_r.
  - by rewrite key_from_namespace.
  - rewrite units_key_from by done. by rewrite Hu.
Qed.

Section walk.
Context (c : RadixCache) (A : atree).
Let ps := cpage_size c.
Let root := root_node c.
Hypothesis Hinv : Inv c A.

Lemma walk_facts : 0 < ps ∧ tree_ok ps (is_eagle c) root A ∧ rep ps (nodes c) A.
Proof. repeat split; apply Hinv. Qed.

Lemma walk_child_key ns us k :
  search_key ps (is_eagle c) ns us k → 0 < key_len k →
  child_key k ps = Ok (ns_val ns (page_val ps (take (Z.to_nat ps) us))).
Proof.
  intros (Hwf & Hsw & Hb & Hdiv & <- & <-) Hpos. destruct walk_facts as (Hps & _ & _).
  apply child_key_spec; [done| |done]. by apply Z.divide_pos_le.
Qed.

(** A walk that stands at a node is on the way to every node that shares more. *)
Lemma walk_anc ns us i a m j b n :
  walk_at root A ns us i a m → A !! j = Some b → (j ≠ root → a_ns b = ns) →
  m < n ≤ zlen us → (ps | n) → take (Z.to_nat n) us `prefix_of` a_path b →
  anc A i j ∧ i ≠ j ∧ j ≠ root ∧ a_ns b = ns.
Proof.
  intros (Hi & Hns & Hm & Hpath) Hj Hnsb Hn Hd Hpre.
  destruct walk_facts as (Hps & Hok & _).
  pose proof (prefix_length _ _ Hpre) as Hlen. rewrite length_take in Hlen.
  unfold zlen in *.
  assert (length (a_path a) = Z.to_nat m) as Hla by (rewrite Hpath, length_take; lia).
  assert (j ≠ root) as Hjr.
  { intros ->. destruct (to_root _ _ _ A Hok) as (r & Hr & _ & _ & _ & _ & Hp & _).
    same_lookup. rewrite Hp in Hlen. simpl in Hlen. lia. }
  specialize (Hnsb Hjr). split; [|split; [|done]].
  - destruct (decide (i = root)) as [->|Hir]; [by eapply anc_root|].
    destruct (to_node _ _ _ A Hok i a Hi Hir) as (p & pa & Hp & Hpa & Hno).
    eapply (first_page_anc ps _ _ Hps A Hok i a p pa j b); try done.
    { by rewrite Hnsb, Hns. }
    pose proof (ok_pos_page _ _ _ Hps _ _ _ Hno) as Hpg.
    assert (length (a_path pa) + Z.to_nat ps ≤ Z.to_nat m)%nat as Hle.
    { rewrite <-Hla, (no_path _ _ _ _ _ _ Hno), length_app. lia. }
    destruct Hpre as [t Ht]. rewrite Ht, Hpath, take_app_le by (rewrite length_take; lia).
    rewrite !take_take. f_equal. lia.
  - intros ->. same_lookup. lia.
Qed.

(** No child: nothing longer is cached. *)
Lemma descend_none ns us i a m n k :
  walk_at root A ns us i a m → nodes c !! i = Some n →
  search_key ps (is_eagle c) ns (drop (Z.to_nat m) us) k → 0 < key_len k →
  dict_get (ns_val ns (page_val ps (take (Z.to_nat ps) (drop (Z.to_nat m) us)))) (children n) = None →
  longest ps root A ns us m.
Proof.
  intros Hw Hn Hk Hpos Hnone n' vs Hd Hn' (j & b & Hj & Hnsb & Hpre & _).
  destruct (decide (n' ≤ m)) as [|Hgt]; [done|]. exfalso.
  destruct walk_facts as (Hps & Hok & Hrep).
  destruct (walk_anc ns us i a m j b n' Hw Hj Hnsb ltac:(lia) Hd Hpre) as (Hanc & Hij & Hjr & Hbns).
  destruct Hw as (Hi & Hns & Hm & Hpath).
  destruct Hanc as [|i l j (d & Hl & Hp) Hlj]; [done|].
  destruct (child_node_ok _ _ _ A Hok i l d Hl Hp) as (Hlr & a' & Ha' & Hno). same_lookup.
  destruct (anc_prefix _ _ _ A Hok l j d b Hlj Hl Hj) as (Hpre' & _ & Hnsd).
  pose proof (ok_child_key _ _ _ Hps _ _ _ Hno) as Hck.
  assert (dict_get (ns_val (a_ns d) (page_val ps (take (Z.to_nat ps) (a_units d)))) (children n) = Some l) as Hg.
  { apply (rep_lookup _ _ _ Hrep i a n Hi Hn). eauto. }
  rewrite <-(Hnsd Hlr), Hbns in Hg.
  assert (take (Z.to_nat ps) (a_units d) = take (Z.to_nat ps) (drop (Z.to_nat m) us)) as Heq;
    [|rewrite Heq in Hg; congruence].
  pose proof (ok_pos_page _ _ _ Hps _ _ _ Hno) as Hpg.
  assert (Z.to_nat m + Z.to_nat ps ≤ Z.to_nat n')%nat as Hle.
  { assert ((ps | m)) as [q ->].
    { pose proof (ok_path_pages _ _ _ A Hok i a Hi) as Hdm. rewrite Hpath in Hdm.
      unfold zlen in *. rewrite length_take in Hdm. by replace (Z.of_nat _) with m in Hdm by lia. }
    destruct Hd as [q' ->]. assert (q < q') by nia. nia. }
  destruct Hpre as [t Ht], Hpre' as [t' Ht'].
  assert (drop (Z.to_nat m) (a_path b) = a_units d ++ t') as E1.
  { rewrite Ht', (no_path _ _ _ _ _ _ Hno), <-app_assoc. apply drop_app_length'.
    rewrite Hpath, length_take. unfold zlen in *. lia. }
  rewrite <-(take_app_le (a_units d) t') by done. rewrite <-E1, Ht.
  rewrite drop_app_le by (rewrite length_take; unfold zlen in *; lia).
  rewrite take_app_le by (rewrite length_drop, length_take; unfold zlen in *; lia).
  rewrite take_drop_take by lia. done.
Qed.

(** A child: the match covers at least a page, and if it stops inside the child
    then nothing longer is cached. *)
Lemma descend_some ns us i a m n k j :
  walk_at root A ns us i a m → nodes c !! i = Some n →
  search_key ps (is_eagle c) ns (drop (Z.to_nat m) us) k → 0 < key_len k →
  dict_get (ns_val ns (page_val ps (take (Z.to_nat ps) (drop (Z.to_nat m) us)))) (children n) = Some j →
  ∃ b r, A !! j = Some b ∧ a_parent b = Some i ∧ a_ns b = ns ∧
    node_ok ps (is_eagle c) root i a b ∧ key_match (a_key b) k ps = Ok r ∧
    (ps | r) ∧ 0 < r ≤ key_len (a_key b) ∧ m + r ≤ zlen us ∧
    take (Z.to_nat r) (a_units b) = take (Z.to_nat r) (drop (Z.to_nat m) us) ∧
    (r < key_len (a_key b) → longest ps root A ns us (m + r)).
Proof.
  intros Hw Hn Hk Hpos Hsome. destruct walk_facts as (Hps & Hok & Hrep).
  pose proof (search_key_len _ _ _ _ _ Hk) as Hkl.
  pose proof Hk as (Hwf & Hsw & Hb & Hdiv & Hns & Hu). pose proof Hw as (Hi & Hnsi & Hm & Hpath).
  apply (rep_lookup _ _ _ Hrep i a n Hi Hn) in Hsome as (b & Hj & Hp & Hck).
  destruct (child_node_ok _ _ _ A Hok i j b Hj Hp) as (Hjr & a' & Ha' & Hno). same_lookup.
  rewrite (ok_child_key _ _ _ Hps _ _ _ Hno) in Hck. apply (inj Ok) in Hck.
  pose proof (ok_pos_page _ _ _ Hps _ _ _ Hno) as Hpg.
  assert (ps ≤ key_len k) as Hpk by by apply Z.divide_pos_le.
  assert (zlen (drop (Z.to_nat m) us) = zlen us - m) as Hrest.
  { unfold zlen in *. rewrite length_drop. lia. }
  apply ns_val_inj in Hck as [Hbns Hpage]; [|done|rewrite length_take; lia|].
  2:{ rewrite length_take, length_drop. unfold zlen in *. lia. }
  set (r := floor_align (Z.of_nat (lcp (a_units b) (drop (Z.to_nat m) us))) ps).
  exists b, r. split; [done|]. split; [done|]. split; [done|]. split; [done|].
  split. { subst r. rewrite <-Hu. apply key_match_lcp; [apply Hno|done| |done]. split; [congruence|].
           rewrite Hb. apply Hno. }
  pose proof (floor_align_spec (Z.of_nat (lcp (a_units b) (drop (Z.to_nat m) us))) ps Hps) as (Hle & Hlt & Hdr).
  fold r in Hle, Hlt, Hdr.
  assert (Z.to_nat ps ≤ lcp (a_units b) (drop (Z.to_nat m) us))%nat as Hge.
  { apply lcp_ge. rewrite length_drop. unfold zlen in *. split; [lia|]. split; [lia|done]. }
  assert (ps ≤ r) by (apply floor_align_greatest; [done|apply Z.divide_refl|lia]).
  pose proof (lcp_le_l (a_units b) (drop (Z.to_nat m) us)) as Hl1.
  pose proof (lcp_le_r (a_units b) (drop (Z.to_nat m) us)) as Hl2.
  rewrite (ok_units_len _ _ _ _ _ _ Hno) in Hl1. pose proof (no_pos _ _ _ _ _ _ Hno).
  split; [done|]. split; [lia|]. split; [unfold zlen in *; lia|]. split.
  { assert (Z.to_nat r ≤ lcp (a_units b) (drop (Z.to_nat m) us))%nat as (_ & _ & ?)%lcp_ge by lia. done. }
  intros Hr n' vs Hd Hn' (j' & b' & Hj' & Hnsb' & Hpre & _).
  destruct (decide (n' ≤ m + r)) as [|Hgt]; [done|]. exfalso.
  destruct (walk_anc ns us i a m j' b' n' Hw Hj' Hnsb' ltac:(lia) Hd Hpre) as (_ & _ & Hjr' & Hbns').
  destruct Hpre as [t Ht].
  assert (length (a_path a) = Z.to_nat m) as Hla by (rewrite Hpath, length_take; unfold zlen in *; lia).
  assert (anc A j j') as Hanc.
  { eapply (first_page_anc ps _ _ Hps A Hok j b i a j' b'); try done; [congruence|].
    rewrite Hla, Ht, (no_path _ _ _ _ _ _ Hno), Hpath.
    rewrite take_app_le by (rewrite length_take; unfold zlen in *; lia).
    rewrite take_take, Nat.min_l by lia.
    replace (Z.to_nat m) with (length (take (Z.to_nat m) us)) at 2 by (rewrite <-Hpath; done).
    rewrite take_app_add, Hpage. by rewrite take_take_drop. }
  destruct (anc_prefix _ _ _ A Hok j j' b b' Hanc Hj Hj') as (Hpre' & _ & _).
  destruct Hpre' as [t' Ht'].
  assert (Z.to_nat (Z.min (n' - m) (key_len (a_key b))) ≤ lcp (a_units b) (drop (Z.to_nat m) us))%nat as Hmin.
  { apply lcp_ge. rewrite (ok_units_len _ _ _ _ _ _ Hno), length_drop. unfold zlen in *.
    split; [lia|]. split; [lia|].
    assert (drop (Z.to_nat m) (a_path b') = a_units b ++ t') as E1.
    { rewrite Ht', (no_path _ _ _ _ _ _ Hno), <-app_assoc. by apply drop_app_length'. }
    rewrite <-(take_app_le (a_units b) t') by (rewrite (ok_units_len _ _ _ _ _ _ Hno); lia).
    rewrite <-E1, Ht, drop_app_le by (rewrite length_take; lia).
    rewrite take_app_le by (rewrite length_drop, length_take; lia).
    rewrite take_drop_take by lia. done. }
  assert (Z.min (n' - m) (key_len (a_key b)) ≤ r); [|lia].
  apply floor_align_greatest; [done| |lia].
  destruct (Z.min_spec (n' - m) (key_len (a_key b))) as [[_ ->]|[_ ->]]; [|apply Hno].
  apply Z.divide_sub_r; [done|]. pose proof (ok_path_pages _ _ _ A Hok i a Hi) as Hdm.
  unfold zlen in Hdm. rewrite Hla in Hdm. by replace (Z.of_nat (Z.to_nat m)) with m in Hdm by lia.
Qed.

Lemma walk_step ns us i a m j b r :
  walk_at root A ns us i a m → A !! j = Some b → a_ns b = ns →
  node_ok ps (is_eagle c) root i a b → r = key_len (a_key b) → m + r ≤ zlen us →
  take (Z.to_nat r) (a_units b) = take (Z.to_nat r) (drop (Z.to_nat m) us) →
  walk_at root A ns us j b (m + r).
Proof.
  intros (Hi & Hnsi & Hm & Hpath) Hj Hns Hno -> Hle Ht. pose proof (no_pos _ _ _ _ _ _ Hno).
  split; [done|]. split; [done|]. split; [lia|].
  rewrite (no_path _ _ _ _ _ _ Hno), Hpath.
  rewrite take_ge in Ht by (rewrite (ok_units_len _ _ _ _ _ _ Hno); lia). rewrite Ht.
  rewrite take_take_drop. f_equal. lia.
Qed.

Lemma walk_split ns us i a m j b r new :
  walk_at root A ns us i a m → A !! j = Some b → a_parent b = Some i → a_ns b = ns →
  node_ok ps (is_eagle c) root i a b → 0 < r < key_len (a_key b) → m + r ≤ zlen us →
  take (Z.to_nat r) (a_units b) = take (Z.to_nat r) (drop (Z.to_nat m) us) → new ≠ j →
  walk_at root (a_split A j new a b r) ns us new (upper a b r) (m + r).
Proof.
  intros (Hi & Hnsi & Hm & Hpath) Hj Hp Hns Hno Hr Hle Ht Hnj.
  split; [by rewrite split_lookup, decide_False, decide_True|].
  split. { intros _. simpl. rewrite key_to_namespace by apply Hno. done. }
  split; [lia|]. simpl. rewrite Hpath, Ht, take_take_drop. f_equal. lia.
Qed.
End walk.

(** ** One step of either walk *)

Section step.
Context `{Clock} (c c0 : RadixCache) (A : atree).
Let ps := cpage_size c0.
Let root := root_node c0.
Let eagle := is_eagle c0.
Hypothesis Hst : stable c = stable c0.
Hypothesis Hinv : Inv c A.

(** The child key of the rest [us] of a search. *)
Definition rest_key (ns : option string * option string) (us : list kunit) : pyval :=
  ns_val ns (page_val ps (take (Z.to_nat ps) us)).

(** The child a walk goes to, after its access time was refreshed. *)
Record child_at ns us (i : nat) (a : anode) (m : Z) (k : RadixKey) (t : Z) (j : nat)
    (b : anode) (r : Z) (n : TreeNode) : Prop := {
  ca_node : A !! j = Some b;
  ca_parent : a_parent b = Some i;
  ca_ns : a_ns b = ns;
  ca_ok : node_ok ps eagle root i a b;
  ca_match : key_match (a_key b) k (cpage_size c) = Ok r;
  ca_pages : (ps | r);
  ca_pos : 0 < r ≤ key_len (a_key b);
  ca_le : m + r ≤ zlen us;
  ca_units : take (Z.to_nat r) (a_units b) = take (Z.to_nat r) (drop (Z.to_nat m) us);
  ca_longest : r < key_len (a_key b) → longest ps root A ns us (m + r);
  ca_upd : upd j (λ n, set_last_access_time n t) c = Ok (put j n c);
  ca_inv : Inv (put j n c) A;
  ca_key : key n = a_key b;
  ca_value : value n = Some (a_vals b);
}.

Lemma step_child ns us i a m n k t j :
  walk_at root A ns us i a m → nodes c !! i = Some n →
  search_key ps eagle ns (drop (Z.to_nat m) us) k → 0 < key_len k →
  dict_get (rest_key ns (drop (Z.to_nat m) us)) (children n) = Some j →
  ∃ b r cn, child_at ns us i a m k t j b r cn.
Proof.
  intros Hw Hn Hk Hpos Hd. destruct (stable_config c0 c Hst) as (_ & Eps & Ee & Er & _).
  unfold rest_key, ps, root, eagle in *. rewrite <-Eps, <-Er, <-?Ee in *.
  destruct (descend_some c A Hinv ns us i a m n k j) as
    (b & r & Hb & Hbp & Hbns & Hno & Hmatch & Hdr & Hr0 & Hmr & Htk & Hlong); try done.
  destruct (upd_benign c A j b (λ n, set_last_access_time n t) Hinv Hb ltac:(done))
    as (cn & c1 & Hcn & Hupd & -> & Hinv1).
  pose proof (rep_lookup _ _ _ (inv_rep c A Hinv) j b cn Hb Hcn) as Hrb.
  exists b, r, (set_last_access_time cn t).
  constructor; unfold ps, root, eagle; rewrite <-?Eps, <-?Er, <-?Ee; try done; apply Hrb.
Qed.

(** After a child that matched in full. *)
Lemma step_full ns us i a m k t j b r n :
  walk_at root A ns us i a m → search_key ps eagle ns (drop (Z.to_nat m) us) k →
  child_at ns us i a m k t j b r n → key_len (a_key b) ≤ r →
  walk_at root A ns us j b (m + r) ∧ a_slots b = a_slots a ++ a_vals b.
Proof.
  intros Hw Hk [] Hge. split; [|apply ca_ok0].
  destruct (stable_config c0 c Hst) as (_ & Eps & Ee & Er & _).
  unfold ps, root, eagle in *. rewrite <-Eps, <-Er, <-Ee in *. eapply walk_step; (done || lia).
Qed.

(** The rest of the key after a step. *)
Lemma step_rest ns us m k r :
  0 ≤ m → search_key ps eagle ns (drop (Z.to_nat m) us) k → 0 < r → (ps | r) → m + r ≤ zlen us →
  search_key ps eagle ns (drop (Z.to_nat (m + r)) us) (key_from k r) ∧
  (Z.to_nat (key_len (key_from k r)) < Z.to_nat (key_len k))%nat ∧
  ∀ ck c', cpage_size c' = ps → ∃ ck',
    (if key_len (key_from k r) =? 0 then Ok ck else child_key (key_from k r) (cpage_size c')) = Ok ck' ∧
    (0 < key_len (key_from k r) → ck' = rest_key ns (drop (Z.to_nat (m + r)) us)).
Proof.
  intros Hm Hk Hr Hd Hle. destruct (stable_config c0 c Hst) as (_ & Eps & Ee & Er & _).
  assert (zlen (drop (Z.to_nat m) us) = zlen us - m) as Hz by (unfold zlen in *; rewrite length_drop; lia).
  assert (zlen (drop (Z.to_nat (m + r)) us) = zlen us - (m + r)) as Hz' by (unfold zlen in *; rewrite length_drop; lia).
  assert (search_key ps eagle ns (drop (Z.to_nat (m + r)) us) (key_from k r)) as Hk'.
  { replace (drop (Z.to_nat (m + r)) us) with (drop (Z.to_nat r) (drop (Z.to_nat m) us)).
    - apply search_key_from; (done || lia).
    - rewrite drop_drop. f_equal. lia. }
  pose proof (search_key_len _ _ _ _ _ Hk) as Hl. pose proof (search_key_len _ _ _ _ _ Hk') as Hl'.
  split; [done|]. split; [lia|]. intros ck c' Hc'.
  destruct (Z.eqb_spec (key_len (key_from k r)) 0); [exists ck; split; [done|lia]|].
  exists (rest_key ns (drop (Z.to_nat (m + r)) us)). split; [|done]. rewrite Hc'.
  unfold rest_key, ps, eagle in *. rewrite <-Eps, <-Ee in *.
  apply (walk_child_key c A Hinv); [done|lia].
Qed.

Lemma step_split ns us i a m k t j b r n :
  walk_at root A ns us i a m → child_at ns us i a m k t j b r n → r < key_len (a_key b) →
  let A' := a_split A j (counter c) a b r in
  ∃ c' nn, split_node (a_key b) j r (put j n c) = Ok (counter c, c') ∧ Inv c' A' ∧
    stable c' = stable c0 ∧ same_contents ps root A A' ∧
    nodes c' !! counter c = Some nn ∧ value nn = Some (slice_to (a_vals b) r) ∧
    walk_at root A' ns us (counter c) (upper a b r) (m + r) ∧
    a_slots (upper a b r) = a_slots a ++ slice_to (a_vals b) r.
Proof.
  intros Hw [] Hlt A'. destruct (stable_config c0 c Hst) as (_ & Eps & Ee & Er & _).
  pose proof Hw as (Hi & _). pose proof (inv_fresh c A Hinv) as Hfr.
  unfold ps, root, eagle in *. rewrite <-Eps, <-?Er, <-?Ee in *.
  destruct (split_node_spec (put j n c) A j i b a r ca_inv0 ca_node0 ca_parent0 Hi ca_pages0 ltac:(lia))
    as (c2 & nn & Hsp & Hinv2 & Hst2 & Hnn & Hvn).
  exists c2, nn. split; [done|]. split; [done|]. split; [by rewrite Hst2|].
  split; [eapply (split_same_contents _ (is_eagle c)); (done || apply Hinv || lia)|].
  split; [done|]. split; [done|]. split; [|simpl; by rewrite slice_to_take by lia].
  eapply walk_split; try done; [lia|]. intros Heq. rewrite Heq in Hfr. congruence.
Qed.
End step.

(** ** Prefix match *)

Section match_prefix.
Context `{Clock}.

(** Where a match ends. *)
Definition match_end (c0 : RadixCache) (A : atree) ns us
    (r : list (list Z) * nat * RadixCache) : Prop :=
  let '(vals, node, c) := r in
  ∃ A' a m, stable c = stable c0 ∧ Inv c A' ∧
    same_contents (cpage_size c0) (root_node c0) A A' ∧
    walk_at (root_node c0) A' ns us node a m ∧ concat vals = a_slots a ∧
    longest (cpage_size c0) (root_node c0) A ns us m.

Definition match_inv (c0 : RadixCache) (A : atree) ns us
    (st : RadixCache * nat * RadixKey * pyval * list (list Z)) : Prop :=
  let '(c, node, k, ck, vals) := st in
  ∃ a m, stable c = stable c0 ∧ Inv c A ∧ walk_at (root_node c0) A ns us node a m ∧
    search_key (cpage_size c0) (is_eagle c0) ns (drop (Z.to_nat m) us) k ∧
    concat vals = a_slots a ∧
    (0 < key_len k → ck = rest_key c0 ns (drop (Z.to_nat m) us)).

Lemma match_step_spec c0 A ns us t st :
  match_inv c0 A ns us st →
  (∃ st', match_step t st = Ok (inl st') ∧ match_inv c0 A ns us st' ∧
          (Z.to_nat (key_len st'.1.1.2) < Z.to_nat (key_len st.1.1.2))%nat) ∨
  (∃ r, match_step t st = Ok (inr r) ∧ match_end c0 A ns us r).
Proof.
  destruct st as [[[[c node] k] ck] vals].
  intros (a & m & Hst & Hinv & Hw & Hk & Hval & Hck). cbn [fst snd].
  pose proof Hw as (Hi & _ & Hm & _). pose proof (search_key_len _ _ _ _ _ Hk) as Hkl.
  destruct (inv_lookup c A node a Hinv Hi) as (n & Hn & Hr).
  assert (longest (cpage_size c0) (root_node c0) A ns us m →
    match_end c0 A ns us (vals, node, c)) as Hstop.
  { intros Hl. exists A, a, m. by split_and!. }
  unfold match_step. rewrite (get_eq c node n Hn), bind_ret.
  destruct (Z.gtb_spec (key_len k) 0) as [Hpos|Hz].
  2:{ right. eexists. split; [done|]. apply Hstop. intros n' vs _ Hn' _. unfold zlen in *. rewrite length_drop in Hkl. lia. }
  rewrite (Hck ltac:(lia)). destruct (dict_get _ (children n)) as [child|] eqn:Hd.
  2:{ right. eexists. split; [done|]. apply Hstop. destruct (stable_config c0 c Hst) as (_ & Eps & Ee & Er & _).
      unfold rest_key in Hd. rewrite <-Eps, <-Er in *. rewrite <-Ee in Hk.
      eapply (descend_none c); (done || lia). }
  destruct (step_child c c0 A Hst Hinv ns us node a m n k t child)
    as (b & r & cn & Hca); try (done || lia).
  pose proof Hca as []. rewrite ca_upd0, bind_ret.
  rewrite (get_eq _ child cn) by heap_lookup. rewrite bind_ret, ca_key0.
  cbn [cpage_size put set_nodes]. rewrite ca_match0, bind_ret.
  destruct (Z.ltb_spec r (key_len (a_key b))) as [Hlt|Hge].
  - destruct (step_split c c0 A Hst Hinv ns us node a m k t child b r cn Hw Hca Hlt)
      as (c2 & nn & -> & Hinv2 & Hst2 & Hsame & Hnn & Hvn & Hw2 & Hslots).
    rewrite bind_ret. cbv beta iota. rewrite (get_eq _ _ nn Hnn), bind_ret.
    rewrite (get_value_eq nn _ Hvn), bind_ret. right. eexists. split; [done|].
    eexists _, _, (m + r). split_and!; try done; [|apply ca_longest0; lia].
    rewrite concat_app, Hval, Hslots. simpl. by rewrite app_nil_r.
  - left. rewrite (get_value_eq _ _ ca_value0), bind_ret.
    destruct (step_full c c0 A Hst ns us node a m k t child b r cn Hw Hk Hca Hge) as (Hw' & Hslots).
    destruct (step_rest c c0 A Hst Hinv ns us m k r) as (Hk' & Hdec & Hnext); try (done || lia).
    destruct (Hnext (rest_key c0 ns (drop (Z.to_nat m) us)) c) as (ck' & -> & Hck'); [by apply (stable_config c0 c)|]. rewrite bind_ret.
    eexists. split; [done|]. cbn [fst snd]. split; [|done].
    exists b, (m + r). split_and!; try done.
    rewrite concat_app, Hval, Hslots. simpl. by rewrite app_nil_r.
Qed.

(** A walk starts at the root. *)
Lemma walk_root c A ns us :
  Inv c A → ∃ a, walk_at (root_node c) A ns us (root_node c) a 0 ∧ a_slots a = [].
Proof.
  intros Hinv. destruct (to_root _ _ _ A (inv_tree c A Hinv)) as (a & Ha & _ & _ & _ & _ & Hp & Hs).
  exists a. split; [|done]. split_and!; try done. apply zlen_nonneg.
Qed.

Lemma walk_len c A ns us i a m :
  Inv c A → walk_at (root_node c) A ns us i a m → zlen (a_slots a) = m.
Proof.
  intros Hinv (Hi & _ & Hm & Hp). unfold zlen in *.
  rewrite (ok_slots_len _ _ _ A (inv_tree c A Hinv) i a Hi), Hp, length_take. lia.
Qed.

Lemma match_prefix_helper_spec c A ns us k :
  Inv c A → search_key (cpage_size c) (is_eagle c) ns us k → 0 < key_len k →
  ∃ r, match_prefix_helper (root_node c) k c = Ok r ∧ match_end c A ns us r.
Proof.
  intros Hinv Hk Hpos. unfold match_prefix_helper, now. cbv beta iota.
  destruct (walk_root (set_clock c (S (clock c))) A ns us) as (a & Hw & Hslots);
    [by apply Inv_set_clock|].
  destruct (upd_benign (set_clock c (S (clock c))) A (root_node c) a
    (λ n, set_last_access_time n (monotonic (clock c))))
    as (n & c1 & Hn & -> & -> & Hinv1); [by apply Inv_set_clock|apply Hw|done|].
  rewrite bind_ret. cbn [cpage_size put set_nodes set_clock].
  rewrite (walk_child_key c A Hinv ns us k Hk Hpos), bind_ret.
  apply (while_total (match_inv c A ns us) (λ st, Z.to_nat (key_len st.1.1.2))).
  - intros st Hst. by apply match_step_spec.
  - exists a, 0. rewrite drop_0. by split_and!.
  - simpl. lia.
Qed.

(** The keys clients may pass: a [limit] is a count, the constructor was used, and
    bigram keys only go to EAGLE caches. *)
Definition user_key (c : RadixCache) (k : RadixKey) : Prop :=
  key_wf k ∧ salt_wf k ∧ (is_bigram k = true → is_eagle c = true).

(** The page-aligned units a key is looked up by. *)
Definition query_units (c : RadixCache) (k : RadixKey) : list kunit :=
  units (page_aligned (maybe_to_bigram_view k (is_eagle c) None).1 (cpage_size c)).

Lemma maybe_bigram_key c k v :
  user_key c k →
  let k' := (maybe_to_bigram_view k (is_eagle c) v).1 in
  k' = (maybe_to_bigram_view k (is_eagle c) None).1 ∧
  key_wf k' ∧ salt_wf k' ∧ is_bigram k' = is_eagle c ∧ namespace k' = namespace k.
Proof.
  intros (Hwf & Hsw & Hb). unfold maybe_to_bigram_view.
  destruct (is_eagle c), (is_bigram k) eqn:Hbk; simpl; split_and!; try done. by specialize (Hb eq_refl).
Qed.

Lemma query_key c A k :
  Inv c A → user_key c k →
  search_key (cpage_size c) (is_eagle c) (namespace k) (query_units c k)
    (page_aligned (maybe_to_bigram_view k (is_eagle c) None).1 (cpage_size c)).
Proof.
  intros Hinv Huk. pose proof (inv_ps c A Hinv) as Hps.
  destruct (maybe_bigram_key c k None Huk) as (_ & Hwf & Hsw & Hb & Hns).
  split_and!.
  - by apply page_aligned_wf.
  - by apply page_aligned_salt_wf.
  - by rewrite page_aligned_bigram.
  - rewrite page_aligned_len by done. apply floor_align_divide.
  - by rewrite page_aligned_namespace.
  - done.
Qed.

Lemma match_prefix_spec c A k :
  Inv c A → disable c = false → user_key c k →
  let us := query_units c k in
  ∃ r c' A' a, match_prefix k c = Ok (r, c') ∧ Inv c' A' ∧ stable c' = stable c ∧
    same_contents (cpage_size c) (root_node c) A A' ∧
    walk_at (root_node c) A' (namespace k) us (last_device_node r) a (zlen (device_indices r)) ∧
    a_slots a = device_indices r ∧
    longest (cpage_size c) (root_node c) A (namespace k) us (zlen (device_indices r)).
Proof.
  intros Hinv Hdis Huk us. pose proof (query_key c A k Hinv Huk) as Hk. fold us in Hk.
  pose proof (search_key_len _ _ _ _ _ Hk) as Hkl.
  pose proof (maybe_bigram_key c k None Huk) as (_ & Hwf & _). pose proof (inv_ps c A Hinv) as Hps.
  assert (us = [] → ∃ A' a, Inv c A' ∧ stable c = stable c ∧
    same_contents (cpage_size c) (root_node c) A A' ∧
    walk_at (root_node c) A' (namespace k) us (root_node c) a 0 ∧ a_slots a = [] ∧
    longest (cpage_size c) (root_node c) A (namespace k) us 0) as Hempty.
  { intros Hus. destruct (walk_root c A (namespace k) us Hinv) as (a & Hw & Hs).
    exists A, a. split_and!; try done. intros n' vs _ Hn' _. rewrite Hus in Hn'. unfold zlen in Hn'. simpl in Hn'. lia. }
  unfold match_prefix. destruct (maybe_to_bigram_view k (is_eagle c) None) as [k1 v1] eqn:Hmb.
  cbn [fst] in *. rewrite Hdis. cbn [orb].
  destruct (Z.eqb_spec (key_len k1) 0) as [Hz|Hnz].
  { destruct Hempty as (A' & a & HE).
    - apply zlen_0. rewrite <-Hkl, page_aligned_len, Hz by done. done.
    - exists (empty_match_result c), c, A', a. by split. }
  destruct (Z.eqb_spec (key_len (page_aligned k1 (cpage_size c))) 0) as [Hz|Hnz'].
  { destruct Hempty as (A' & a & HE).
    - apply zlen_0. lia.
    - exists (empty_match_result c), c, A', a. by split. }
  pose proof (key_len_nonneg _ (proj1 Hk)) as Hnn.
  destruct (match_prefix_helper_spec c A (namespace k) us _ Hinv Hk ltac:(lia))
    as ([[vals node] c'] & -> & (A' & a & m & Hst & Hinv' & Hsame & Hw & Hval & Hlong)).
  rewrite bind_ret. cbv beta iota. exists (mkMatchResult (concat vals) node), c', A', a.
  cbn [device_indices last_device_node]. rewrite Hval.
  assert (zlen (a_slots a) = m) as Hlen.
  { destruct (stable_config c c' Hst) as (_ & _ & _ & Er & _). rewrite <-Er in Hw. by eapply walk_len. }
  rewrite Hlen. by split_and!.
Qed.
End match_prefix.
