(* ===== verification/RadixInsert.v ===== *)
(** * Insertion into the radix tree

    Total correctness of [insert]: what is left of the key after the walk becomes
    one new leaf, the counters and the leaf set follow, and the store event of
    the leaf is recorded. *)

From S2P Require Import Prelude RadixKey PrefixTree TreeNode Allocator Events RadixCache.
From S2P Require Import RadixInv RadixEvents RadixWalk.

Section insert_leaf.
Context `{Clock} `{HashLaws} (c : RadixCache) (A : atree) (node : nat) (a : anode)
  (k : RadixKey) (v : list Z) (ck : pyval).
Let ps := cpage_size c.
Let root := root_node c.
Let new := counter c.
Let leaf := leaf_node node a k v.
Let A' := <[new := leaf]> A.
Hypothesis Hinv : Inv c A.
Hypothesis Hnode : A !! node = Some a.
Hypothesis Hleaf : node_ok ps (is_eagle c) root node a leaf.
Hypothesis Hck : child_key k ps = Ok ck.
Hypothesis Hfresh : ∀ j b, A !! j = Some b → a_parent b = Some node → child_key (a_key b) ps ≠ Ok ck.

Lemma insert_leaf_facts :
  0 < ps ∧ tree_ok ps (is_eagle c) root A ∧ A !! new = None ∧ new ≠ root ∧ new ≠ node ∧
  (∀ j, ¬ child_of A new j) ∧
  (∀ j b, A !! j = Some b → a_parent b = Some node → first_page ps b ≠ first_page ps leaf).
Proof.
  pose proof (inv_ps c A Hinv) as Hps. pose proof (inv_tree c A Hinv) as Hok.
  pose proof (inv_fresh c A Hinv) as Hnew.
  destruct (add_facts ps (is_eagle c) root A new node a k v Hok Hnode Hnew) as (Hnr & Hnn & Hno).
  split_and!; try done. intros j b Hj Hp Hfp. apply (Hfresh j b Hj Hp).
  destruct (child_node_ok _ _ _ A Hok node j b Hj Hp) as (_ & a' & _ & Hnb).
  rewrite (ok_child_key ps (is_eagle c) root Hps _ _ _ Hnb). rewrite <-Hck.
  pose proof (ok_child_key ps (is_eagle c) root Hps _ _ _ Hleaf) as Hk. cbn [leaf leaf_node a_key] in Hk. rewrite Hk.
  pose proof (f_equal fst Hfp) as E1. pose proof (f_equal snd Hfp) as E2.
  cbn [first_page fst snd leaf leaf_node a_key] in E1, E2. by rewrite E1, E2.
Qed.

Lemma leaf_lookup x : A' !! x = if decide (x = new) then Some leaf else A !! x.
Proof. apply add_lookup. Qed.

(** The heap after the new leaf was linked. *)
Definition leaf_heap (nn pn : TreeNode) (h : heap) : Prop :=
  ∀ x, h !! x = if decide (x = node) then Some (set_children pn (dict_set ck new (children pn)))
                else if decide (x = new) then Some nn else nodes c !! x.
Definition leaf_obj (nn : TreeNode) : Prop :=
  children nn = [] ∧ parent nn = Some node ∧ key nn = k ∧ value nn = Some v ∧ lock_ref nn = 0 ∧
  hash_value nn = None ∧ event_hash_value nn = None.

Lemma leaf_rep nn pn h :
  nodes c !! node = Some pn → leaf_obj nn → leaf_heap nn pn h → rep ps h A'.
Proof.
  intros Hpn (N1 & N2 & N3 & N4 & N5 & _) Hh x b.
  destruct insert_leaf_facts as (Hps & Hok & Hnew & Hnr & Hnn & Hno & Hfp).
  pose proof (inv_rep c A Hinv) as Hrep. rewrite leaf_lookup, Hh.
  assert (∀ x j d, x ≠ node →
    (∃ b, A !! j = Some b ∧ a_parent b = Some x ∧ child_key (a_key b) ps = Ok d) ↔
    (∃ b, A' !! j = Some b ∧ a_parent b = Some x ∧ child_key (a_key b) ps = Ok d)) as Hother.
  { intros y j d Hy. rewrite leaf_lookup. case_decide; [subst j|done].
    split; intros (b' & Hb' & Hbp & _); [congruence|]. injection Hb' as <-. simpl in Hbp. congruence. }
  intros Hx. repeat case_decide; try subst x; try congruence.
  - injection Hx as <-. exists nn. split; [done|]. constructor; simpl; try done.
    + rewrite N1. apply NoDup_nil_2.
    + intros d j. rewrite N1. split; [done|]. rewrite <-Hother by done.
      intros (b & Hb & Hbp & _). destruct (Hno j). by exists b.
  - eexists. split; [done|].
    pose proof (rep_lookup _ _ _ Hrep node b pn Hx Hpn) as [R1 R2 R3 R4 R5 R6].
    constructor; simpl; try done; [by apply dict_keys_set_NoDup|].
    intros d j. rewrite leaf_lookup. destruct (decide (d = ck)) as [->|Hd].
    + rewrite dict_get_set_eq. split.
      * intros [= <-]. rewrite decide_True by done. by exists leaf.
      * intros (b' & Hb' & Hbp & Hbk). case_decide; [congruence|]. by destruct (Hfresh j b' Hb' Hbp).
    + rewrite dict_get_set_ne by done. rewrite R6. case_decide; [subst j|done].
      split; intros (b' & Hb' & Hbp & Hbk); [congruence|]. injection Hb' as <-. simpl in Hbk. congruence.
  - destruct (Hrep x b Hx) as (n & Hn & [R1 R2 R3 R4 R5 R6]). exists n. split; [done|].
    constructor; try done. intros d j. rewrite <-Hother by done. apply R6.
Qed.

Lemma leaf_hash_ok nn pn h :
  nodes c !! node = Some pn → leaf_obj nn → leaf_heap nn pn h → hash_ok ps root h A'.
Proof.
  intros Hpn (_ & _ & _ & _ & _ & N6 & N7) Hh x b n.
  destruct insert_leaf_facts as (Hps & Hok & Hnew & Hnr & Hnn & Hno & _).
  pose proof (inv_hash c A Hinv) as Hhash. rewrite leaf_lookup.
  case_decide as Hxn; [subst x|]; intros Hx Hn.
  - rewrite Hh, decide_False, decide_True in Hn by done. injection Hx as <-. injection Hn as <-.
    constructor; rewrite ?N6, ?N7; done.
  - assert (∃ n', nodes c !! x = Some n' ∧ hash_value n = hash_value n' ∧
      event_hash_value n = event_hash_value n') as (n' & Hn' & E1 & E2).
    { rewrite Hh in Hn. repeat case_decide; try subst x; try done; [|by exists n].
      injection Hn as <-. by exists pn. }
    destruct (Hhash x b n' Hx Hn') as [Q1 Q2 Q3]. constructor; rewrite ?E1, ?E2; try done.
    intros p qn Hne Hp Hpr. rewrite Hh. repeat case_decide; try subst p; intros Hqn.
    + injection Hqn as <-. simpl. by eapply (Q3 node pn).
    + exfalso. apply (Hno x). by exists b.
    + by eapply Q3.
Qed.

Lemma insert_leaf_exec prio chunked :
  ∃ c4 nn pn, nodes c !! node = Some pn ∧ leaf_obj nn ∧ leaf_heap nn pn (nodes c4) ∧
    stable c4 = stable c ∧ counter c4 = S new ∧
    insert_leaf node k ck v prio chunked c =
      (c ← update_leaf_status node (set_evictable_size c4 (evictable_size_ c4 + key_len k));
       c ← update_leaf_status new c;
       '(h, r) ← record_store new GPU (nodes c) (kv_events c);
       Ok (new, set_kv_events (set_nodes c h) r)).
Proof.
  destruct insert_leaf_facts as (Hps & Hok & Hnew & Hnr & Hnn & Hno & Hfp).
  destruct (inv_lookup c A node a Hinv Hnode) as (pn & Hpn & Hrp).
  unfold insert_leaf. step. fold new. step. step. unfold inc_hit_count.
  destruct chunked; [|step]; step; step; step.
  all: match goal with |- context [update_leaf_status node
         (set_evictable_size (put node ?P (put new ?N ?C)) _)] =>
         exists (put node P (put new N C)), N, pn end.
  all: split; [done|]; split; [done|]; split; [|done].
  all: intros x; rewrite !lookup_put, lookup_with_new_node; fold new;
    repeat case_decide; try subst x; reflexivity.
Qed.

Lemma insert_leaf_spec prio chunked :
  ∃ c' es, insert_leaf node k ck v prio chunked c = Ok (new, c') ∧ Inv c' A' ∧
    config c' = config c ∧ kv_events c' = enqueue_all es (kv_events c).
Proof.
  destruct insert_leaf_facts as (Hps & Hok & Hnew & Hnr & Hnn & Hno & Hfp).
  destruct (insert_leaf_exec prio chunked) as (c4 & nn & pn & Hpn & Hobj & Hheap & Hst & Hcnt & ->).
  destruct (stable_config c c4 Hst) as (Ecfg & Eps & Ee & Er & Eev & Ees & Epr & El).
  pose proof (leaf_rep nn pn (nodes c4) Hpn Hobj Hheap) as Hrep.
  pose proof (leaf_hash_ok nn pn (nodes c4) Hpn Hobj Hheap) as Hhash.
  assert (tree_ok ps (is_eagle c) root A') as Hok' by by apply add_ok.
  assert (locks_ok root A' (λ _, 0)) as Hlk'.
  { eapply (add_locks_ok ps (is_eagle c)); try done. apply (inv_locks c A Hinv). }
  pose proof (leaf_lookup node) as HA'node. rewrite decide_False in HA'node by by apply not_eq_sym.
  rewrite Hnode in HA'node.
  pose proof (leaf_lookup new) as HA'new. rewrite decide_True in HA'new by done.
  set (c5 := set_evictable_size c4 (evictable_size_ c4 + key_len k)).
  destruct (update_leaf_status_spec c5 A' node a) as (ls1 & -> & Hls1);
    [cbn; rewrite ?Eps, ?Ee, ?Er; done..|apply (Hlk' node a HA'node)|].
  rewrite bind_ret.
  destruct (update_leaf_status_spec (set_evictable_leaves c5 ls1) A' new leaf) as (ls2 & -> & Hls2);
    [cbn; rewrite ?Eps, ?Ee, ?Er; done..|apply (Hlk' new leaf HA'new)|].
  rewrite bind_ret. cbn [evictable_leaves set_evictable_leaves] in Hls2.
  cbn [nodes kv_events set_evictable_leaves c5 set_evictable_size]. rewrite Eev.
  assert (base.size A' ≤ base.size (nodes c4))%nat as Hsz.
  { rewrite <-!size_dom. apply subseteq_size. intros i [b Hb]%elem_of_dom.
    destruct (Hrep i b Hb) as (n & Hn & _). apply elem_of_dom. by eexists. }
  destruct (record_store_spec ps (is_eagle c) root A' Hps Hok' (nodes c4) new leaf GPU (kv_events c))
    as (h' & es & -> & Hh' & _); try done; [by eapply rep_rep_up|apply Hinv|].
  rewrite bind_ret. cbv beta iota. eexists _, es. split; [done|].
  destruct (enqueue_all_settings es (kv_events c)) as [Eq1 Eq2].
  split; [|split; [|done]].
  - destruct Hh' as [Hcore _ _ Hhash']. pose proof (rep_same_core _ _ _ _ Hcore Hrep) as Hrep'.
    constructor; cbn; rewrite ?Eps, ?Ee, ?Er, ?Ees, ?Epr; try done.
    + rewrite Eq1. apply Hinv.
    + pose proof (add_msum A new node a k v Hnew evictable_of) as Hm.
      rewrite (inv_evictable c A Hinv). exact (eq_sym Hm).
    + pose proof (add_msum A new node a k v Hnew protected_of) as Hm. cbn in Hm.
      rewrite (inv_protected c A Hinv), <-(Z.add_0_r (msum protected_of A)). exact (eq_sym Hm).
    + intros i. rewrite Hls2. case_decide; [by subst i|]. rewrite Hls1. case_decide; [by subst i|].
      pose proof (add_is_leaf ps (is_eagle c) root A new node a k v Hok Hnode Hnew i) as Hl.
      rewrite !decide_False in Hl by done. cbn. rewrite El, (inv_leaves c A Hinv). by symmetry.
    + intros i Hi. rewrite Hcnt. fold new.
      assert (is_Some (nodes c4 !! i)) as [n Hn].
      { specialize (Hcore i). destruct Hi as [n' Hn']. rewrite Hn' in Hcore.
        destruct (nodes c4 !! i); [by eexists|done]. }
      rewrite Hheap in Hn. pose proof (inv_bound c A Hinv) as Hb. fold new in Hb.
      repeat case_decide; try subst i; [|lia|].
      * specialize (Hb node ltac:(by eexists)). lia.
      * specialize (Hb i ltac:(by eexists)). lia.
  - unfold config in *. cbn. rewrite Eq1, Eq2. rewrite Eev in Ecfg. exact Ecfg.
Qed.
End insert_leaf.

(** ** The walk of [_insert_helper] *)

Section insert.
Context `{Clock} `{HashLaws}.

Lemma upd_stable c A i a f :
  Inv c A → A !! i = Some a → benign f →
  ∃ c', upd i f c = Ok c' ∧ Inv c' A ∧ stable c' = stable c.
Proof.
  intros Hinv Hi Hf. destruct (upd_benign c A i a f Hinv Hi Hf) as (n & c' & _ & Hu & -> & Hinv').
  by exists (put i (f n) c).
Qed.

(** The bookkeeping of a visited node. *)
Lemma visit_spec c A i a prio chunked :
  Inv c A → A !! i = Some a →
  ∃ c', (c ← upd i (λ n, set_priority n (Z.max (priority n) prio)) c;
         c ← inc_hit_count i chunked c; Ok (i, c)) = Ok (i, c') ∧ Inv c' A ∧ stable c' = stable c.
Proof.
  intros Hinv Hi.
  destruct (upd_stable c A i a (λ n, set_priority n (Z.max (priority n) prio)) Hinv Hi ltac:(done))
    as (c1 & -> & Hinv1 & Hst1). rewrite bind_ret. unfold inc_hit_count. destruct chunked.
  { rewrite bind_ret. by exists c1. }
  destruct (upd_stable c1 A i a (λ n, set_hit_count n (hit_count n + 1)) Hinv1 Hi ltac:(done))
    as (c2 & -> & Hinv2 & Hst2). rewrite bind_ret. exists c2. split_and!; try done. by rewrite Hst2.
Qed.

Abbreviation insert_state := (RadixCache * nat * RadixKey * pyval * list Z * Z)%type.

Definition insert_inv (c0 : RadixCache) (A : atree) ns us (v0 : list Z) (st : insert_state) : Prop :=
  let '(c, node, k, ck, v, total) := st in
  ∃ A' a, stable c = stable c0 ∧ Inv c A' ∧
    same_contents (cpage_size c0) (root_node c0) A A' ∧
    walk_at (root_node c0) A' ns us node a total ∧
    search_key (cpage_size c0) (is_eagle c0) ns (drop (Z.to_nat total) us) k ∧
    v = drop (Z.to_nat total) v0 ∧
    (0 < key_len k → ck = rest_key c0 ns (drop (Z.to_nat total) us)).

Definition insert_end (c0 : RadixCache) (A : atree) ns us v0 (st : insert_state) : Prop :=
  insert_inv c0 A ns us v0 st ∧
  let '(c, node, k, ck, v, total) := st in
  0 < key_len k → ∃ n, nodes c !! node = Some n ∧ dict_get ck (children n) = None.

Lemma insert_step_spec c0 A ns us v0 t prio chunked st :
  insert_inv c0 A ns us v0 st →
  (∃ st', insert_step t prio chunked st = Ok (inl st') ∧ insert_inv c0 A ns us v0 st' ∧
          (Z.to_nat (key_len st'.1.1.1.2) < Z.to_nat (key_len st.1.1.1.2))%nat) ∨
  (∃ r, insert_step t prio chunked st = Ok (inr r) ∧ insert_end c0 A ns us v0 r).
Proof.
  destruct st as [[[[[c node] k] ck] v] m]. intros Hst0. pose proof Hst0 as
    (A' & a & Hst & Hinv & Hsame & Hw & Hk & -> & Hck). cbn [fst snd].
  pose proof Hw as (Hi & _ & Hm & _). destruct (inv_lookup c A' node a Hinv Hi) as (n & Hn & Hr).
  unfold insert_step. rewrite (get_eq c node n Hn), bind_ret.
  destruct (Z.gtb_spec (key_len k) 0) as [Hpos|Hz].
  2:{ right. eexists. split; [done|]. split; [done|]. lia. }
  destruct (dict_get ck (children n)) as [child|] eqn:Hd.
  2:{ right. eexists. split; [done|]. split; [done|]. intros _. by exists n. }
  rewrite (Hck ltac:(lia)) in Hd. left.
  destruct (step_child c c0 A' Hst Hinv ns us node a m n k t child)
    as (b & r & cn & Hca); try (done || lia).
  pose proof Hca as [Cnode Cparent Cns Cok Cmatch Cpages Cpos Cle Cunits Clong Cupd Cinv Ckey Cval]. rewrite Cupd, bind_ret.
  rewrite (get_eq _ child cn) by heap_lookup. rewrite bind_ret, Ckey.
  cbn [cpage_size put set_nodes]. rewrite Cmatch, bind_ret. cbv zeta.
  destruct (step_rest c c0 A' Hst Hinv ns us m k r) as (Hk' & Hdec & Hnext); try (done || lia).
  assert (∃ c1 A1 a1 node1, (if r <? key_len (a_key b) then
       '(new_node, c) ← split_node (a_key b) child r (put child cn c);
       c ← upd new_node (λ n, set_priority n (Z.max (priority n) prio)) c;
       c ← inc_hit_count new_node chunked c; Ok (new_node, c)
     else
       c ← upd child (λ n, set_priority n (Z.max (priority n) prio)) (put child cn c);
       c ← inc_hit_count child chunked c; Ok (child, c)) = Ok (node1, c1) ∧
     stable c1 = stable c0 ∧ Inv c1 A1 ∧
     same_contents (cpage_size c0) (root_node c0) A A1 ∧
     walk_at (root_node c0) A1 ns us node1 a1 (m + r)) as (c1 & A1 & a1 & node1 & -> & Hst1 & Hinv1 & Hsame1 & Hw1).
  { destruct (Z.ltb_spec r (key_len (a_key b))) as [Hlt|Hge].
    - destruct (step_split c c0 A' Hst Hinv ns us node a m k t child b r cn Hw Hca Hlt)
        as (c2 & nn & -> & Hinv2 & Hst2 & Hsame2 & Hnn & Hvn & Hw2 & _).
      rewrite bind_ret. cbv beta iota.
      destruct (visit_spec c2 _ (counter c) _ prio chunked Hinv2 (proj1 Hw2)) as (c3 & -> & Hinv3 & Hst3).
      eexists c3, _, _, _. split; [done|]. split; [by rewrite Hst3|]. split; [done|].
      split; [by etrans|done].
    - destruct (step_full c c0 A' Hst ns us node a m k t child b r cn Hw Hk Hca Hge) as (Hw' & _).
      destruct (visit_spec (put child cn c) A' child b prio chunked Cinv Cnode) as (c3 & -> & Hinv3 & Hst3).
      exists c3, A', b, child. split; [done|]. split; [by rewrite Hst3|]. done. }
  rewrite bind_ret. cbv beta iota.
  destruct (Hnext ck c1) as (ck' & -> & Hck'); [by apply (stable_config c0 c1)|]. rewrite bind_ret.
  eexists. split; [done|]. cbn [fst snd]. split; [|done].
  exists A1, a1. split_and!; try done. rewrite slice_from_drop, drop_drop by lia. f_equal. lia.
Qed.

(** What an insertion of the units [us] with the slots [v] did: [n] units were
    cached before, the rest of [v] was added, and node [i] now covers [us]. *)
Record inserted (ps : Z) (root : nat) (A A' : atree) ns us (v : list Z) (n : Z) (i : nat) (a : anode)
    : Prop := {
  is_longest : longest ps root A ns us n;
  is_range : 0 ≤ n ≤ zlen us;
  is_walk : walk_at root A' ns us i a (zlen us);
  is_prefix : cached root A ns (take (Z.to_nat n) us) (take (Z.to_nat n) (a_slots a));
  is_slots : drop (Z.to_nat n) (a_slots a) = drop (Z.to_nat n) v;
  is_cached ns' us' vs : cached root A' ns' us' vs ↔
    cached root A ns' us' vs ∨ (ns' = ns ∧ us' `prefix_of` us ∧ vs = take (length us') (a_slots a));
  is_extends : extends A A';
  is_tree_slots : tree_slots A' ≡ₚ drop (Z.to_nat n) v ++ tree_slots A;
  is_paged : paged ps A → (∃ P, drop (Z.to_nat n) v = Paged.page_slots ps P) → paged ps A';
  is_aligned : (ps | n);
}.

Lemma walk_aligned c A ns us i a m :
  Inv c A → walk_at (root_node c) A ns us i a m → (cpage_size c | m).
Proof.
  intros Hinv (Hi & _ & Hm & Hp).
  pose proof (ok_path_pages _ _ _ A (inv_tree c A Hinv) i a Hi) as Hdiv.
  by rewrite Hp, zlen_take in Hdiv.
Qed.

Lemma longest_same ps root A A' ns us n :
  same_contents ps root A A' → longest ps root A' ns us n → longest ps root A ns us n.
Proof. intros Hs Hl n' vs Hd Hn Hc. eapply Hl; [done|done|]. by apply (sc_cached _ _ _ _ Hs). Qed.

(** The key was covered by nodes of the tree already. *)
Lemma inserted_known c A A' ns us v i a :
  Inv c A' → same_contents (cpage_size c) (root_node c) A A' → zlen v = zlen us →
  walk_at (root_node c) A' ns us i a (zlen us) →
  inserted (cpage_size c) (root_node c) A A' ns us v (zlen us) i a.
Proof.
  intros Hinv Hsame Hv Hw. pose proof Hw as (Hi & Hns & _ & Hpath).
  pose proof (walk_len c A' ns us i a _ Hinv Hw) as Hlen. unfold zlen in *.
  rewrite Nat2Z.id, firstn_all in Hpath.
  constructor; try done; rewrite ?Nat2Z.id, ?firstn_all.
  - intros n' vs _ Hn _. unfold zlen in Hn. lia.
  - unfold zlen. lia.
  - apply (sc_cached _ _ _ _ Hsame). exists i, a. rewrite Hpath. split_and!; try done.
  - rewrite !drop_ge by lia. done.
  - intros ns' us' vs. rewrite (sc_cached _ _ _ _ Hsame). split; [by left|].
    intros [?|(-> & Hpre & ->)]; [done|]. apply (sc_cached _ _ _ _ Hsame). exists i, a. by rewrite Hpath.
  - apply Hsame.
  - rewrite drop_ge by lia. apply Hsame.
  - intros Hp _. by apply Hsame.
  - by eapply (walk_aligned c A').
Qed.

Lemma inserted_leaf c A A' ns us v m i a k new :
  Inv c A' → same_contents (cpage_size c) (root_node c) A A' →
  walk_at (root_node c) A' ns us i a m → longest (cpage_size c) (root_node c) A' ns us m →
  search_key (cpage_size c) (is_eagle c) ns (drop (Z.to_nat m) us) k → A' !! new = None →
  inserted (cpage_size c) (root_node c) A (<[new := leaf_node i a k (drop (Z.to_nat m) v)]> A')
    ns us v m new (leaf_node i a k (drop (Z.to_nat m) v)).
Proof.
  intros Hinv Hsame Hw Hlong Hk Hnew. pose proof Hw as (Hi & Hns & Hm & Hpath).
  pose proof (walk_len c A' ns us i a m Hinv Hw) as Hlen.
  destruct Hk as (Hwf & Hsw & Hb & Hdiv & Hkns & Hu). pose proof (inv_tree c A' Hinv) as Hok.
  assert (a_path a ++ units k = us) as Hus by (rewrite Hpath, Hu; apply take_drop).
  assert (length (a_slots a) = Z.to_nat m) as Hlen' by (unfold zlen in Hlen; lia).
  constructor; cbn [a_slots leaf_node].
  - by eapply longest_same.
  - done.
  - split; [by rewrite add_lookup, decide_True|]. split; [by cbn|]. split; [lia|].
    cbn. rewrite Hus. unfold zlen. by rewrite Nat2Z.id, firstn_all.
  - apply (sc_cached _ _ _ _ Hsame). exists i, a. split_and!; try done; [by rewrite Hpath|].
    rewrite length_take, take_app_le by lia. unfold zlen in *.
    rewrite Nat.min_l by lia. done.
  - rewrite drop_app_le, (drop_ge (a_slots a)) by lia. done.
  - intros ns' us' vs.
    rewrite (add_cached (cpage_size c) (is_eagle c) (root_node c) A' new i a k _ Hok Hi Hnew).
    rewrite (sc_cached _ _ _ _ Hsame), Hus, Hkns. done.
  - etrans; [apply Hsame|]. by apply add_extends.
  - rewrite add_tree_slots by done. by rewrite (sc_slots _ _ _ _ Hsame).
  - intros Hp HP x b. rewrite add_lookup. case_decide; [|by apply (sc_paged _ _ _ _ Hsame)].
    intros [= <-]. done.
  - by eapply (walk_aligned c A').
Qed.

Lemma insert_helper_spec c A ns us k v prio chunked :
  Inv c A → search_key (cpage_size c) (is_eagle c) ns us k → zlen v = zlen us →
  ∃ n i c' A' a es, insert_helper (root_node c) k v prio chunked c = Ok (n, i, c') ∧ Inv c' A' ∧
    config c' = config c ∧ kv_events c' = enqueue_all es (kv_events c) ∧
    inserted (cpage_size c) (root_node c) A A' ns us v n i a.
Proof.
  intros Hinv Hk Hv. unfold insert_helper, now. cbv beta iota zeta.
  pose proof (search_key_len _ _ _ _ _ Hk) as Hkl.
  assert (Inv (set_clock c (S (clock c))) A) as Hinv0 by by apply Inv_set_clock.
  destruct (walk_root (set_clock c (S (clock c))) A ns us Hinv0) as (a & Hw & Hslots).
  destruct (upd_stable (set_clock c (S (clock c))) A (root_node c) a
    (λ n, set_last_access_time n (monotonic (clock c))) Hinv0 (proj1 Hw) ltac:(done))
    as (c1 & -> & Hinv1 & Hst1). rewrite bind_ret.
  destruct (upd_stable c1 A (root_node c) a
    (λ n, set_priority n (Z.max (priority n) (default 0 prio))) Hinv1 (proj1 Hw) ltac:(done))
    as (c2 & -> & Hinv2 & Hst2). rewrite bind_ret.
  assert (stable c2 = stable c) as Hst by (by rewrite Hst2, Hst1).
  destruct (stable_config c c2 Hst) as (Ecfg & Eps & Ee & Er & Eev & _).
  destruct (Z.eqb_spec (key_len k) 0) as [Hz|Hnz].
  { exists 0, (root_node c), c2, A, a, []. split; [done|]. split; [done|]. split; [done|].
    split; [done|]. replace 0 with (zlen us) at 1 by lia. apply inserted_known; try done.
    replace (zlen us) with 0 by lia. exact Hw. }
  pose proof (key_len_nonneg _ (proj1 Hk)) as Hnn.
  rewrite <-Eps, <-Ee in Hk.
  rewrite (walk_child_key c2 A Hinv2 ns us k Hk ltac:(lia)), bind_ret. rewrite Eps, Ee in Hk.
  destruct (while_total (insert_inv c A ns us v) (λ st, Z.to_nat (key_len st.1.1.1.2))
    (insert_end c A ns us v) (insert_step (monotonic (clock c)) (default 0 prio) chunked)
    ltac:(intros; by apply insert_step_spec) (S (Z.to_nat (key_len k)))
    (c2, root_node c, k, ns_val ns (page_val (cpage_size c2) (take (Z.to_nat (cpage_size c2)) us)), v, 0))
    as ([[[[[c3 node] k3] ck] v3] m] & -> & [(A3 & a3 & Hst3 & Hinv3 & Hsame & Hw3 & Hk3 & -> & Hck) Hend]).
  { exists A, a. rewrite !drop_0. split_and!; try done. intros _. unfold rest_key. by rewrite Eps. }
  { simpl. lia. }
  rewrite bind_ret. cbv beta iota.
  destruct (stable_config c c3 Hst3) as (Ecfg3 & Eps3 & Ee3 & Er3 & Eev3 & _).
  pose proof (search_key_len _ _ _ _ _ Hk3) as Hkl3. pose proof Hw3 as (_ & Hns3 & Hm & _).
  assert (key_len k3 = zlen us - m) as Hrest by (unfold zlen in *; rewrite length_drop in Hkl3; lia).
  destruct (Z.eqb_spec (key_len k3) 0) as [Hz3|Hnz3].
  { exists m, node, c3, A3, a3, []. split; [done|]. split; [done|]. split; [done|]. split; [done|].
    replace m with (zlen us) in * by lia.
    rewrite <-Eps3, <-Er3 in *. by apply inserted_known. }
  assert (0 < key_len k3) as Hpos3 by lia.
  destruct (Hend Hpos3) as (n3 & Hn3 & Hnone). specialize (Hck Hpos3). unfold rest_key in Hck.
  rewrite <-Eps3, <-Er3, <-Ee3 in *.
  assert (longest (cpage_size c3) (root_node c3) A3 ns us m) as Hlong.
  { eapply (descend_none c3); try done. by rewrite <-Hck. }
  pose proof (walk_child_key c3 A3 Hinv3 ns _ k3 Hk3 Hpos3) as Hck3. rewrite <-Hck in Hck3.
  destruct (insert_leaf_spec c3 A3 node a3 k3 (drop (Z.to_nat m) v) ck Hinv3 (proj1 Hw3))
    with (prio := default 0 prio) (chunked := chunked) as (c4 & es & -> & Hinv4 & Hcfg4 & Hev4); try done.
  { destruct Hk3 as (Hwf & Hsw & Hb & Hdiv & Hkns & Hu). constructor; try done.
    - cbn. unfold zlen in *. rewrite length_drop. lia.
    - cbn. intros Hr. rewrite Hkns. by rewrite Hns3. }
  { intros j b Hj Hp Heq. destruct (inv_lookup c3 A3 node a3 Hinv3 (proj1 Hw3)) as (n' & Hn' & Hr).
    same_lookup. assert (dict_get ck (children n3) = Some j) by (apply Hr; eauto). congruence. }
  rewrite bind_ret. cbv beta iota. eexists m, (counter c3), c4, _, _, es.
  split; [done|]. split; [done|]. split; [by rewrite Hcfg4|]. split; [by rewrite Hev4, Eev3|].
  apply inserted_leaf; try done. by apply inv_fresh.
Qed.

(** The slots [insert] stores: the given row, or the token ids as a fallback. *)
Definition insert_row (c : RadixCache) (p : InsertParams) : list Z :=
  let k := page_aligned (maybe_to_bigram_view (ins_key p) (is_eagle c) None).1 (cpage_size c) in
  slice_to (default (token_ids k) (ins_value p)) (key_len k).

Lemma insert_spec c A p :
  Inv c A → disable c = false → user_key c (ins_key p) →
  (∀ v, ins_value p = Some v → zlen (query_units c (ins_key p)) ≤ zlen v) →
  let us := query_units c (ins_key p) in
  ∃ n i c' A' a es, insert p c = Ok (n, Some i, c') ∧ Inv c' A' ∧ config c' = config c ∧
    kv_events c' = enqueue_all es (kv_events c) ∧ zlen (insert_row c p) = zlen us ∧
    inserted (cpage_size c) (root_node c) A A' (namespace (ins_key p)) us (insert_row c p) n i a.
Proof.
  intros Hinv Hdis Huk Hvl us. pose proof (query_key c A (ins_key p) Hinv Huk) as Hk. fold us in Hk.
  pose proof (search_key_len _ _ _ _ _ Hk) as Hkl.
  pose proof (maybe_bigram_key c (ins_key p) (ins_value p) Huk) as (Hk1 & Hwf & _).
  unfold insert. rewrite Hdis.
  destruct (maybe_to_bigram_view (ins_key p) (is_eagle c) (ins_value p)) as [k1 v1] eqn:Hmb.
  cbn [fst] in Hk1. rewrite <-Hk1 in *. set (k := page_aligned k1 (cpage_size c)) in *.
  pose proof (key_len_nonneg k (proj1 Hk)) as Hnn.
  assert (match v1 with Some v => slice_to v (key_len k) | None => slice_to (token_ids k) (key_len k) end
          = insert_row c p) as ->.
  { unfold insert_row. rewrite <-Hk1. fold k. unfold maybe_to_bigram_view in Hmb.
    destruct (is_eagle c && _); injection Hmb as <- <-; destruct (ins_value p) as [v|];
      cbn [fmap option_fmap option_map from_option id]; try done.
    rewrite !slice_to_take; [|done| |done]; [|by apply key_len_nonneg].
    rewrite take_take. f_equal. apply Nat.min_l. apply Z2Nat.inj_le; [done|by apply key_len_nonneg|].
    unfold k. rewrite page_aligned_len by (done || apply Hinv). apply floor_align_le, Hinv. }
  assert (zlen (insert_row c p) = zlen us) as Hrow.
  { unfold insert_row. rewrite <-Hk1. fold k. rewrite zlen_slice_to, <-Hkl by done. apply Z.min_l.
    destruct (ins_value p) as [v|]; cbn; [rewrite Hkl; by apply Hvl|].
    pose proof (raw_len_bounds k (proj1 Hk)). unfold key_len.
    destruct (is_bigram k), (Z.gtb_spec (raw_len k) 0); lia. }
  destruct (insert_helper_spec c A (namespace (ins_key p)) us k (insert_row c p)
    (ins_priority p) (ins_chunked p) Hinv Hk Hrow)
    as (n & i & c' & A' & a & es & -> & Hinv' & Hcfg & Hev & Hins).
  rewrite bind_ret. cbv beta iota. exists n, i, c', A', a, es. by split_and!.
Qed.
End insert.
