(* ===== verification/RadixLock.v ===== *)
(** * Locks

    [inc_lock_ref] and [dec_lock_ref]: the walk to the root adds one to, or takes
    one from, the lock count of exactly the nodes on the path, moves the sizes of
    the nodes whose count becomes positive or zero between the two counters, and
    keeps the set of evictable leaves.  A lock that is taken and given back
    leaves the tree as it was. *)

From S2P Require Import Prelude RadixKey PrefixTree TreeNode Allocator Events RadixCache RadixInv.

(** The invariant with a correction [d] of the lock counts, which holds in the
    middle of a walk. *)
Record LInv (d : nat → Z) (c : RadixCache) (A : atree) : Prop := {
  linv_ps : 0 < cpage_size c;
  linv_rec : rec_page_size (kv_events c) = cpage_size c;
  linv_rep : rep (cpage_size c) (nodes c) A;
  linv_tree : tree_ok (cpage_size c) (is_eagle c) (root_node c) A;
  linv_locks : locks_ok (root_node c) A d;
  linv_evictable : evictable_size_ c = msum evictable_of A;
  linv_protected : protected_size_ c = msum protected_of A;
  linv_leaves i : i ∈ evictable_leaves c ↔ is_leaf A i;
  linv_bound i : is_Some (nodes c !! i) → (i < counter c)%nat;
  linv_hash : hash_ok (cpage_size c) (root_node c) (nodes c) A;
}.

Lemma LInv_Inv d c A : (∀ i, i ≠ root_node c → d i = 0) → LInv d c A ↔ Inv c A.
Proof.
  intros Hd. assert (locks_ok (root_node c) A d ↔ locks_ok (root_node c) A (λ _, 0)) as Hl.
  { split; intros Hl i a Hi; destruct (Hl i a Hi) as (? & ? & Heq); split_and!; try done;
      intros Hr; specialize (Heq Hr); specialize (Hd i Hr); lia. }
  split; intros []; constructor; try done; by apply Hl.
Qed.

Lemma LInv_locks d d' c A : LInv d c A → locks_ok (root_node c) A d' → LInv d' c A.
Proof. intros [] ?. by constructor. Qed.

(** ** Paths to the root are linear *)

Lemma anc_linear A i j x : anc A i x → anc A j x → anc A i j ∨ anc A j i.
Proof.
  intros Hi. revert x Hi.
  refine (rtc_ind_r (λ x, anc A j x → anc A i j ∨ anc A j i) i _ _); [by right|].
  intros k x Hik Hkx IH Hj. apply rtc_inv_r in Hj as [->|(y & Hjy & b & Hb & Hby)].
  - left. by eapply rtc_r.
  - destruct Hkx as (b' & Hb' & Hby'). same_lookup. by apply IH.
Qed.

Lemma anc_child A i p b j : A !! i = Some b → a_parent b = Some p → anc A j i → j = i ∨ anc A j p.
Proof.
  intros Hi Hp Hj. apply rtc_inv_r in Hj as [->|(y & Hjy & b' & Hb' & Hby)]; [by left|].
  same_lookup. by right.
Qed.

(** ** One write of a lock count *)

Section write.
Context (d : nat → Z) (c : RadixCache) (A : atree) (i : nat) (a : anode) (n : TreeNode) (lock : Z).
Hypothesis Hinv : LInv d c A.
Hypothesis Hi : A !! i = Some a.
Hypothesis Hir : i ≠ root_node c.
Hypothesis Hn : nodes c !! i = Some n.
Hypothesis Hlock : 0 ≤ lock.
Let A' := <[i := relock a lock (a_held a)]> A.

Lemma relock_rep : rep (cpage_size c) (<[i := set_lock_ref n lock]> (nodes c)) A'.
Proof.
  pose proof (linv_rep d c A Hinv) as Hrep. intros x b Hx.
  assert (∀ j y k, (∃ b, A' !! j = Some b ∧ a_parent b = Some y ∧ child_key (a_key b) (cpage_size c) = Ok k) ↔
    (∃ b, A !! j = Some b ∧ a_parent b = Some y ∧ child_key (a_key b) (cpage_size c) = Ok k)) as Hch.
  { intros j y k. split.
    - intros (b' & Hb' & Hp & Hk).
      destruct (relock_shape A i a lock (a_held a) Hi j b' Hb') as (b0 & Hb0 & (E1 & E2 & _) & _).
      exists b0. rewrite <-E1, <-E2. done.
    - intros (b0 & Hb0 & Hp & Hk).
      destruct (relock_shape' A i a lock (a_held a) Hi j b0 Hb0) as (b' & Hb' & (E1 & E2 & _) & _).
      exists b'. rewrite E1, E2. done. }
  unfold A' in Hx. rewrite relock_lookup in Hx. case_decide.
  - subst x. injection Hx as <-. rewrite lookup_insert_eq. eexists. split; [done|].
    pose proof (rep_lookup _ _ _ Hrep i a n Hi Hn) as [R1 R2 R3 R4 R5 R6].
    constructor; cbn; try done. intros k j. by rewrite Hch, R6.
  - rewrite lookup_insert_ne by done. destruct (Hrep x b Hx) as (m & Hm & [R1 R2 R3 R4 R5 R6]).
    exists m. split; [done|]. constructor; try done. intros k j. by rewrite Hch, R6.
Qed.

Lemma relock_hash_ok :
  hash_ok (cpage_size c) (root_node c) (<[i := set_lock_ref n lock]> (nodes c)) A'.
Proof.
  intros x b m Hx Hm.
  destruct (relock_shape A i a lock (a_held a) Hi x b Hx) as (b0 & Hb0 & (E1 & E2 & _) & _).
  pose proof (hash_ok_same _ _ _ (<[i := set_lock_ref n lock]> (nodes c)) A
    (put_same_hashes _ i n (set_lock_ref n lock) Hn eq_refl) (linv_hash d c A Hinv) x b0 m Hb0 Hm) as [Q1 Q2 Q3].
  constructor; rewrite ?E1, ?E2; done.
Qed.

(** The state after the counters and the count were written. *)
Definition relocked_state (e p : Z) : RadixCache :=
  put i (set_lock_ref n lock) (set_protected_size (set_evictable_size c e) p).

Lemma lock_write_spec e p :
  e = evictable_size_ c - evictable_of a + evictable_of (relock a lock (a_held a)) →
  p = protected_size_ c - protected_of a + protected_of (relock a lock (a_held a)) →
  ∃ c', update_leaf_status i (relocked_state e p) = Ok c' ∧
    LInv (λ j, d j + (if decide (j = i) then lock - a_lock a else 0)
                   - (if decide (a_parent a = Some j) then lock - a_lock a else 0)) c' A' ∧
    config c' = config c ∧ kv_events c' = kv_events c ∧ nodes c' = <[i := set_lock_ref n lock]> (nodes c) ∧
    evictable_size_ c' = e ∧ protected_size_ c' = p.
Proof.
  intros He Hp. assert (A' !! i = Some (relock a lock (a_held a))) as HA'i.
  { unfold A'. by rewrite relock_lookup, decide_True. }
  assert (tree_ok (cpage_size c) (is_eagle c) (root_node c) A') as Hok'.
  { apply relock_ok; [apply Hinv|done|done]. }
  destruct (update_leaf_status_spec (relocked_state e p) A' i (relock a lock (a_held a)))
    as (ls & -> & Hls); [apply Hinv|apply relock_rep|done|done|done|].
  eexists. split; [done|]. split; [|done].
  constructor; cbn; try done; try apply Hinv.
  - apply relock_rep.
  - eapply locks_ok_ext; [|apply (relock_locks_ok (root_node c) A i a lock (a_held a) Hi Hir d);
      [apply Hinv|done|apply (linv_locks d c A Hinv i a Hi)]].
    intros j. cbn. repeat case_decide; lia.
  - unfold A'. rewrite (msum_insert_old _ _ _ a) by done. rewrite He. f_equal. f_equal. apply Hinv.
  - unfold A'. rewrite (msum_insert_old _ _ _ a) by done. rewrite Hp. f_equal. f_equal. apply Hinv.
  - intros j. rewrite Hls. case_decide; [by subst j|]. cbn. rewrite (linv_leaves d c A Hinv).
    unfold A'. rewrite relock_is_leaf by done. by rewrite decide_False.
  - intros j [m Hm]. apply Hinv. destruct (decide (j = i)) as [->|]; [by eexists|].
    rewrite lookup_insert_ne in Hm by done. by eexists.
  - apply relock_hash_ok.
Qed.
End write.

(** ** The walks *)

(** [A'] is [A] with [e] added to the lock counts on the path from [i] to the root. *)
Definition relocked (root : nat) (A A' : atree) (i : nat) (e : Z) : Prop :=
  (∀ j, A !! j = None → A' !! j = None) ∧
  ∀ j a, A !! j = Some a → ∃ a', A' !! j = Some a' ∧ same_shape a' a ∧
    a_held a' = a_held a + (if decide (j = i ∧ j ≠ root) then e else 0) ∧
    ((anc A j i ∧ j ≠ root ∧ a_lock a' = a_lock a + e) ∨
     ((¬ anc A j i ∨ j = root) ∧ a_lock a' = a_lock a)).

(** The same for the part of the path that is longer than [m]. *)
Definition relocked_below (root : nat) (A A' : atree) (i : nat) (e : Z) (m : nat) : Prop :=
  (∀ j, A !! j = None → A' !! j = None) ∧
  ∀ j a, A !! j = Some a → ∃ a', A' !! j = Some a' ∧ same_shape a' a ∧
    a_held a' = a_held a + (if decide (j = i ∧ j ≠ root) then e else 0) ∧
    ((anc A j i ∧ (m < length (a_path a))%nat ∧ a_lock a' = a_lock a + e) ∨
     ((¬ anc A j i ∨ (length (a_path a) ≤ m)%nat) ∧ a_lock a' = a_lock a)).

Section walk.
Context (c0 : RadixCache) (A : atree) (i0 : nat) (a0 : anode) (e : Z).
Let root := root_node c0.
Hypothesis Hinv0 : Inv c0 A.
Hypothesis Hi0 : A !! i0 = Some a0.
Hypothesis He : e = 1 ∨ (e = -1 ∧ (i0 ≠ root → 1 ≤ a_held a0)).

Definition lock_inv (c : RadixCache) (x : nat) (delta : Z) : Prop :=
  ∃ A' ax, LInv (λ j, if decide (j = x) then - e else 0) c A' ∧ config c = config c0 ∧
    kv_events c = kv_events c0 ∧ A !! x = Some ax ∧ anc A x i0 ∧
    relocked_below root A A' i0 e (length (a_path ax)) ∧
    evictable_size_ c = evictable_size_ c0 + delta ∧ protected_size_ c = protected_size_ c0 - delta.

(** A step of either walk: the count of [x] changes by [e]. *)
Lemma lock_step_spec c x delta :
  lock_inv c x delta → x ≠ root →
  ∃ n p ax, nodes c !! x = Some n ∧ parent n = Some p ∧ A !! x = Some ax ∧ a_parent ax = Some p ∧
    lock_ref n = a_lock ax ∧ key n = a_key ax ∧ 0 ≤ a_lock ax + e ∧
    ∀ moved, moved = evictable_of (relock ax (a_lock ax + e) 0) - evictable_of ax →
      ∃ c', update_leaf_status x (put x (set_lock_ref n (a_lock ax + e))
              (set_protected_size (set_evictable_size c (evictable_size_ c + moved))
                 (protected_size_ c - moved))) = Ok c' ∧
            lock_inv c' p (delta + moved).
Proof.
  intros (A' & ax & Hinv & Hcfg & Hev & Hx & Hanc & [Hdom Hbelow] & Hes & Hpr) Hxr.
  destruct (config_fields c0 c Hcfg) as (_ & _ & _ & Er & _). fold root in Er.
  destruct (Hbelow x ax Hx) as (ax' & Hx' & (S1 & S2 & S3 & S4 & S5) & Hheld & Hcase).
  assert (a_lock ax' = a_lock ax) as Hsame by (destruct Hcase as [(_ & ? & _)|[_ ?]]; [lia|done]).
  destruct (linv_rep _ _ _ Hinv x ax' Hx') as (n & Hn & Hr).
  destruct (to_node _ _ _ A (inv_tree c0 A Hinv0) x ax Hx Hxr) as (p & pa & Hp & Hpa & Hno).
  exists n, p, ax. split; [done|]. split; [by rewrite (rn_parent _ _ _ _ _ Hr), S1|].
  split; [done|]. split; [done|]. split; [by rewrite (rn_lock _ _ _ _ _ Hr)|].
  split; [by rewrite (rn_key _ _ _ _ _ Hr), S2|].
  destruct (linv_locks _ _ _ Hinv x ax' Hx') as (Hl0 & Hh0 & Heq).
  specialize (Heq ltac:(by rewrite Er)). rewrite decide_True in Heq by done.
  assert (0 ≤ children_locks A' x) as Hcl.
  { unfold children_locks. apply msum_nonneg. intros j b Hj. destruct (decide (a_parent b = Some x)); [|done]. by apply (linv_locks _ _ _ Hinv j b Hj). }
  assert (0 ≤ a_lock ax + e) as Hnn by lia. split; [done|]. intros moved ->.
  assert (protected_of (relock ax (a_lock ax + e) 0) - protected_of ax =
    - (evictable_of (relock ax (a_lock ax + e) 0) - evictable_of ax)) as Hmv.
  { unfold protected_of, evictable_of. cbn. repeat case_match; lia. }
  assert (∀ h, evictable_of (relock ax' (a_lock ax + e) h) = evictable_of (relock ax (a_lock ax + e) 0) ∧
    protected_of (relock ax' (a_lock ax + e) h) = protected_of (relock ax (a_lock ax + e) 0)) as Hro.
  { intros h. unfold evictable_of, protected_of. cbn. by rewrite S2. }
  assert (evictable_of ax' = evictable_of ax ∧ protected_of ax' = protected_of ax) as [Eax1 Eax2].
  { unfold evictable_of, protected_of. by rewrite S2, Hsame. }
  destruct (lock_write_spec _ c A' x ax' n (a_lock ax + e) Hinv Hx' ltac:(by rewrite Er) Hn Hnn
    (evictable_size_ c + (evictable_of (relock ax (a_lock ax + e) 0) - evictable_of ax))
    (protected_size_ c - (evictable_of (relock ax (a_lock ax + e) 0) - evictable_of ax)))
    as (c' & Hupd & Hinv' & Hcfg' & Hev' & Hnodes & He' & Hp').
  { rewrite (proj1 (Hro _)), Eax1. lia. }
  { rewrite (proj2 (Hro _)), Eax2. lia. }
  exists c'. split; [done|].
  exists (<[x := relock ax' (a_lock ax + e) (a_held ax')]> A'), pa.
  pose proof (ok_parent_shorter _ _ _ A (inv_tree c0 A Hinv0) x ax p pa Hx Hp Hpa) as Hsh.
  assert (p ≠ x) as Hpx by (intros ->; same_lookup; lia).
  split_and!.
  - eapply LInv_locks; [exact Hinv'|]. eapply locks_ok_ext; [|apply Hinv'].
    intros j. cbn. rewrite S1, Hp, Hsame. repeat case_decide; simplify_eq; try done; lia.
  - by rewrite Hcfg'.
  - by rewrite Hev'.
  - done.
  - eapply rtc_l; [|done]. by exists ax.
  - split; [intros j Hj; rewrite lookup_insert_ne; [by apply Hdom|congruence]|].
    intros j b Hj. destruct (Hbelow j b Hj) as (b' & Hb' & Hsh' & Hh' & Hjcase).
    destruct (decide (j = x)) as [->|Hjx].
    + same_lookup. rewrite lookup_insert_eq. eexists. split; [done|]. split; [done|]. split; [done|].
      by left.
    + rewrite lookup_insert_ne by done. exists b'. split; [done|]. split; [done|]. split; [done|].
      destruct Hjcase as [(Hji & Hlt & Hlk)|[[Hna|Hle] Hlk]].
      * left. split_and!; try done. lia.
      * right. split; [by left|done].
      * right. split; [|done].
        destruct (decide (length (a_path b) ≤ length (a_path pa))%nat); [by right|left].
        intros Hji. destruct (anc_linear A j x i0 Hji Hanc) as [Hjx'|Hxj].
        -- destruct (anc_child A x p ax j Hx Hp Hjx') as [|Hjp]; [done|].
           destruct (anc_prefix _ _ _ A (inv_tree c0 A Hinv0) j p b pa Hjp Hj Hpa) as (Hpre & _).
           apply prefix_length in Hpre. lia.
        -- apply rtc_inv in Hxj as [|(y & (by_ & Hy & Hyx) & Hyj)]; [done|].
           pose proof (ok_parent_shorter _ _ _ A (inv_tree c0 A Hinv0) y by_ x ax Hy Hyx Hx).
           destruct (anc_prefix _ _ _ A (inv_tree c0 A Hinv0) y j by_ b Hyj Hy Hj) as (Hpre & _).
           apply prefix_length in Hpre. lia.
  - rewrite He'. lia.
  - rewrite Hp'. lia.
Qed.

(** The ghost holder is added, or removed, before the walk starts. *)
Lemma lock_ghost :
  i0 ≠ root →
  LInv (λ j, if decide (j = i0) then - e else 0) c0
    (<[i0 := relock a0 (a_lock a0) (a_held a0 + e)]> A).
Proof.
  intros Hr.
  destruct Hinv0. destruct (inv_locks i0 a0 Hi0) as (H1 & H2 & H3).
  constructor; try done.
  - intros j b Hj. destruct (relock_shape A i0 a0 (a_lock a0) (a_held a0 + e) Hi0 j b Hj)
      as (b0 & Hb0 & (E1 & E2 & E3 & E4 & E5) & Hne).
    destruct (inv_rep j b0 Hb0) as (n & Hn & [R1 R2 R3 R4 R5 R6]). exists n. split; [done|].
    constructor; rewrite ?E1, ?E2, ?E3; try done.
    + destruct (decide (j = i0)) as [->|]; [|by rewrite (Hne ltac:(done))].
      rewrite lookup_insert_eq in Hj. injection Hj as <-. by same_lookup.
    + intros k l. rewrite R6. split.
      * intros (b1 & Hb1 & P1 & P2).
        destruct (relock_shape' A i0 a0 (a_lock a0) (a_held a0 + e) Hi0 l b1 Hb1) as (b2 & Hb2 & (F1 & F2 & _) & _).
        exists b2. rewrite F1, F2. done.
      * intros (b2 & Hb2 & P1 & P2).
        destruct (relock_shape A i0 a0 (a_lock a0) (a_held a0 + e) Hi0 l b2 Hb2) as (b1 & Hb1 & (F1 & F2 & _) & _).
        exists b1. rewrite <-F1, <-F2. done.
  - by apply relock_ok.
  - eapply locks_ok_ext; [|apply (relock_locks_ok (root_node c0) A i0 a0 (a_lock a0) (a_held a0 + e) Hi0 Hr (λ _, 0));
      [done|done|]].
    + intros j. cbn. repeat case_decide; lia.
    + destruct He as [->|[-> Hh]]; [lia|]. specialize (Hh Hr). lia.
  - rewrite (msum_insert_old _ _ _ a0) by done. unfold evictable_of at 2 3. cbn. lia.
  - rewrite (msum_insert_old _ _ _ a0) by done. unfold protected_of at 2 3. cbn. lia.
  - intros j. rewrite inv_leaves, relock_is_leaf by done. case_decide; [subst j|done].
    unfold is_leaf. split; [|intros [? ?]; by exists a0].
    intros (b & Hb & ? & ?). by same_lookup.
  - intros j b n Hj Hn. destruct (relock_shape A i0 a0 (a_lock a0) (a_held a0 + e) Hi0 j b Hj)
      as (b0 & Hb0 & (E1 & E2 & _) & _).
    destruct (inv_hash j b0 n Hb0 Hn) as [Q1 Q2 Q3]. constructor; rewrite ?E1, ?E2; done.
Qed.

Lemma lock_start : lock_inv c0 i0 0.
Proof.
  assert (∀ j b, A !! j = Some b → ¬ anc A j i0 ∨ (length (a_path b) ≤ length (a_path a0))%nat) as Hshort.
  { intros j b Hj. destruct (decide (length (a_path b) ≤ length (a_path a0))%nat); [by right|left].
    intros Hji. destruct (anc_prefix _ _ _ A (inv_tree c0 A Hinv0) j i0 b a0 Hji Hj Hi0) as (Hpre & _).
    apply prefix_length in Hpre. lia. }
  destruct (decide (i0 = root)) as [Hr|Hr].
  - exists A, a0. assert (relocked_below root A A i0 e (length (a_path a0))) as Hb.
    { split; [done|]. intros j b Hj. exists b. split; [done|]. split; [done|].
      rewrite decide_False by (intros [-> ?]; done). split; [lia|]. right. by split; [apply Hshort|]. }
    split_and!; try done; try lia.
    apply LInv_Inv; [|done]. intros j Hj. rewrite decide_False; [done|]. intros ->. done.
  - exists (<[i0 := relock a0 (a_lock a0) (a_held a0 + e)]> A), a0.
    assert (relocked_below root A (<[i0 := relock a0 (a_lock a0) (a_held a0 + e)]> A) i0 e (length (a_path a0))) as Hb.
    { split; [intros j Hj; rewrite lookup_insert_ne; [done|congruence]|].
      intros j b Hj. destruct (decide (j = i0)) as [->|Hji].
      - same_lookup. rewrite lookup_insert_eq. eexists. split; [done|]. split; [done|]. cbn.
        rewrite decide_True by done. split; [done|]. right. by split; [right|].
      - rewrite lookup_insert_ne by done. exists b. split; [done|]. split; [done|].
        rewrite decide_False by (by intros [-> _]). split; [lia|]. right. by split; [apply Hshort|]. }
    split_and!; try done; try lia. by apply lock_ghost.
Qed.

(** At the root. *)
Lemma lock_end c delta :
  lock_inv c root delta →
  ∃ A', Inv c A' ∧ config c = config c0 ∧ kv_events c = kv_events c0 ∧
    relocked root A A' i0 e ∧
    evictable_size_ c = evictable_size_ c0 + delta ∧ protected_size_ c = protected_size_ c0 - delta.
Proof.
  intros (A' & ax & Hinv & Hcfg & Hev & Hx & Hanc & [Hdom Hbelow] & Hes & Hpr).
  destruct (config_fields c0 c Hcfg) as (_ & _ & _ & Er & _). fold root in Er.
  exists A'. split_and!; try done.
  - apply (LInv_Inv (λ j, if decide (j = root) then - e else 0)); [|done].
    intros j Hj. rewrite decide_False; [done|]. congruence.
  - split; [done|]. intros j b Hj. destruct (Hbelow j b Hj) as (b' & Hb' & Hsh & Hh & Hcase).
    destruct (to_root _ _ _ A (inv_tree c0 A Hinv0)) as (r & Hr & _ & _ & _ & _ & Hp & _).
    fold root in Hr. same_lookup. rewrite Hp in *. simpl in *.
    exists b'. split_and!; try done. destruct Hcase as [(Hji & Hlt & Hlk)|[[Hna|Hle] Hlk]].
    + left. split_and!; try done. intros ->. same_lookup. rewrite Hp in Hlt. simpl in Hlt. lia.
    + right. by split; [left|].
    + right. split; [right|done]. destruct (a_path b) eqn:Hpb; [|simpl in Hle; lia].
      by apply (ok_root_path _ _ _ (inv_ps c0 A Hinv0) A (inv_tree c0 A Hinv0) j b Hj Hpb).
Qed.
End walk.

(** ** The two operations *)

Lemma set_sizes_id c :
  set_protected_size (set_evictable_size c (evictable_size_ c)) (protected_size_ c) = c.
Proof. by destruct c. Qed.

Section operations.
Context (c0 : RadixCache) (A : atree) (i0 : nat) (a0 : anode).
Hypothesis Hinv0 : Inv c0 A.
Hypothesis Hi0 : A !! i0 = Some a0.

(** The end of a walk, as the two operations report it. *)
Definition lock_result (e : Z) (r : RadixCache * Z) : Prop :=
  let '(c, delta) := r in
  ∃ A', Inv c A' ∧ config c = config c0 ∧ kv_events c = kv_events c0 ∧
    relocked (root_node c0) A A' i0 e ∧
    evictable_size_ c = evictable_size_ c0 + delta ∧ protected_size_ c = protected_size_ c0 - delta.

Definition lock_loop_inv (e : Z) (st : RadixCache * option nat * Z) : Prop :=
  let '(c, node, delta) := st in ∃ x, node = Some x ∧ lock_inv c0 A i0 e c x delta.

(** The nodes left to visit. *)
Definition lock_measure (st : RadixCache * option nat * Z) : nat :=
  match st.1.2 with
  | Some x => match A !! x with Some a => shallower A (length (a_path a)) | None => O end
  | None => O
  end.

Lemma lock_step_loop e step :
  (e = 1 ∨ (e = -1 ∧ (i0 ≠ root_node c0 → 1 ≤ a_held a0))) →
  (∀ c delta, step (c, Some (root_node c), delta) = Ok (inr (c, delta))) →
  (∀ c x delta n a p, x ≠ root_node c → nodes c !! x = Some n → lock_ref n = a_lock a →
     key n = a_key a → parent n = Some p → 0 ≤ a_lock a → 0 ≤ a_lock a + e →
     let moved := evictable_of (relock a (a_lock a + e) 0) - evictable_of a in
     step (c, Some x, delta) =
       (c ← update_leaf_status x (put x (set_lock_ref n (a_lock a + e))
              (set_protected_size (set_evictable_size c (evictable_size_ c + moved))
                 (protected_size_ c - moved)));
        Ok (inl (c, Some p, delta + moved)))) →
  ∃ r, while (S (base.size (nodes c0))) step (c0, Some i0, 0) = Ok r ∧ lock_result e r.
Proof.
  intros He Hroot Hstep. apply (while_total (lock_loop_inv e) lock_measure).
  - intros [[c node] delta] (x & -> & Hl). pose proof Hl as (A' & ax & Hinv & Hcfg & _ & Hx & _ & _).
    destruct (config_fields c0 c Hcfg) as (_ & _ & _ & Er & _).
    destruct (decide (x = root_node c)) as [->|Hxr].
    + right. exists (c, delta). split; [apply Hroot|].
      rewrite Er in Hl. by eapply (lock_end c0 A i0 a0 e Hinv0 He).
    + left. rewrite Er in Hxr.
      destruct (lock_step_spec c0 A i0 a0 e Hinv0 He c x delta Hl Hxr)
        as (n & p & ax' & Hn & Hp & Hx' & Hpx & Hlk & Hkey & Hnn & Hupd). same_lookup.
      destruct (Hupd _ eq_refl) as (c' & Hu & Hl').
      erewrite Hstep; [|by rewrite Er|done..|apply (inv_locks c0 A Hinv0 x _ Hx)|done].
      rewrite Hu, bind_ret. eexists. split; [done|]. split; [by exists p|].
      unfold lock_measure. cbn [fst snd].
      pose proof Hl' as (_ & ap & _ & _ & _ & Hap & _). rewrite Hap, Hx.
      apply (shallower_lt A p ap); [done|].
      by eapply (ok_parent_shorter _ _ _ A (inv_tree c0 A Hinv0)).
  - exists i0. split; [done|]. by eapply lock_start.
  - unfold lock_measure. cbn [fst snd]. rewrite Hi0.
    pose proof (shallower_size A i0 a0 Hi0). pose proof (inv_size c0 A Hinv0). lia.
Qed.

Lemma inc_lock_ref_spec :
  disable c0 = false →
  ∃ delta c A', inc_lock_ref i0 c0 = Ok (delta, c) ∧ Inv c A' ∧ config c = config c0 ∧
    kv_events c = kv_events c0 ∧ relocked (root_node c0) A A' i0 1 ∧
    evictable_size_ c = evictable_size_ c0 + delta ∧ protected_size_ c = protected_size_ c0 - delta.
Proof.
  intros Hdis. unfold inc_lock_ref. rewrite Hdis.
  destruct (lock_step_loop 1 inc_lock_step) as ([c delta] & -> & A' & Hres).
  - by left.
  - intros c delta. unfold inc_lock_step. by rewrite decide_True.
  - intros c x delta n a p Hxr Hn Hlk Hkey Hp Hnn0 Hnn moved. unfold inc_lock_step.
    rewrite decide_False by congruence. rewrite (get_eq c x n Hn), bind_ret, Hlk, Hkey, Hp.
    destruct (Z.eqb_spec (a_lock a) 0) as [Hz|Hnz]; cbv beta iota zeta.
    + assert (moved = - key_len (a_key a)) as ->.
      { unfold moved, evictable_of. cbn. by rewrite Hz. }
      by rewrite Z.add_opp_r, Z.sub_opp_r, Z.add_opp_r.
    + assert (moved = 0) as ->.
      { unfold moved, evictable_of. cbn [relock a_lock a_key].
        destruct (Z.eqb_spec (a_lock a) 0); [lia|]. destruct (Z.eqb_spec (a_lock a + 1) 0); lia. }
      by rewrite !Z.add_0_r, Z.sub_0_r, set_sizes_id.
  - rewrite bind_ret. exists delta, c, A'. by split.
Qed.

Lemma dec_lock_ref_spec :
  disable c0 = false → (i0 ≠ root_node c0 → 1 ≤ a_held a0) →
  ∃ delta c A', dec_lock_ref i0 c0 = Ok (delta, c) ∧ Inv c A' ∧ config c = config c0 ∧
    kv_events c = kv_events c0 ∧ relocked (root_node c0) A A' i0 (-1) ∧
    evictable_size_ c = evictable_size_ c0 + delta ∧ protected_size_ c = protected_size_ c0 - delta.
Proof.
  intros Hdis Hheld. unfold dec_lock_ref. rewrite Hdis.
  destruct (lock_step_loop (-1) dec_lock_step) as ([c delta] & -> & A' & Hres).
  - by right.
  - intros c delta. unfold dec_lock_step. by rewrite decide_True.
  - intros c x delta n a p Hxr Hn Hlk Hkey Hp Hnn0 Hnn moved. unfold dec_lock_step.
    rewrite decide_False by congruence. rewrite (get_eq c x n Hn), bind_ret, Hlk, Hkey, Hp.
    destruct (Z.eqb_spec (a_lock a) 1) as [Hz|Hnz]; cbv beta iota zeta.
    + assert (moved = key_len (a_key a)) as ->; [|done].
      unfold moved, evictable_of. cbn [relock a_lock a_key]. rewrite Hz.
      change (1 + -1 =? 0) with true. change (1 =? 0) with false. cbv iota. lia.
    + assert (moved = 0) as ->.
      { unfold moved, evictable_of. cbn [relock a_lock a_key].
        destruct (Z.eqb_spec (a_lock a) 0); [lia|]. destruct (Z.eqb_spec (a_lock a + -1) 0); lia. }
      by rewrite !Z.add_0_r, Z.sub_0_r, set_sizes_id.
  - rewrite bind_ret. exists delta, c, A'. by split.
Qed.
End operations.

Lemma relocked_child root A A' i e x y : relocked root A A' i e → child_of A' x y ↔ child_of A x y.
Proof.
  intros [Hd Hr]. split.
  - intros (b & Hb & Hp). destruct (A !! y) as [a|] eqn:Hy; [|by rewrite (Hd y Hy) in Hb].
    destruct (Hr y a Hy) as (a' & Ha' & (S1 & _) & _). same_lookup. exists a. by rewrite <-S1.
  - intros (a & Ha & Hp). destruct (Hr y a Ha) as (a' & Ha' & (S1 & _) & _). exists a'. by rewrite S1.
Qed.

Lemma relocked_anc root A A' i e x y : relocked root A A' i e → anc A' x y ↔ anc A x y.
Proof.
  intros Hr. unfold anc. split; intros Hxy; induction Hxy as [|? ? ? Hc _ IH]; try done;
    (eapply rtc_l; [|exact IH]); by apply (relocked_child root A A' i e).
Qed.

(** Taking a lock and giving it back restores the tree. *)
Lemma relocked_inverse root A A' A'' i e :
  relocked root A A' i e → relocked root A' A'' i (- e) → A'' = A.
Proof.
  intros H1' H2'. pose proof (relocked_anc root A A' i e) as Hanc.
  pose proof H1' as [Hd1 H1]. pose proof H2' as [Hd2 H2]. apply map_eq. intros j.
  destruct (A !! j) as [a|] eqn:Hj; [|by apply Hd2, Hd1].
  destruct (H1 j a Hj) as (a' & Hj' & (S1 & S2 & S3 & S4 & S5) & Hh & Hc).
  destruct (H2 j a' Hj') as (a'' & -> & (T1 & T2 & T3 & T4 & T5) & Hh' & Hc'). f_equal.
  rewrite (Hanc j i H1') in Hc'.
  assert (a_lock a'' = a_lock a) by (destruct Hc as [(?&?&?)|[[?|?] ?]], Hc' as [(?&?&?)|[[?|?] ?]]; try done; lia).
  assert (a_held a'' = a_held a) by (rewrite Hh', Hh; case_decide; lia).
  destruct a, a', a''; cbn in *. congruence.
Qed.

(** Cached rows, slots and pages do not depend on locks. *)
Lemma relocked_cached root A A' i e ns us vs :
  relocked root A A' i e → cached root A' ns us vs ↔ cached root A ns us vs.
Proof.
  intros [Hd Hr]. split.
  - intros (j & b & Hb & Hns & Hpre & ->). destruct (A !! j) as [a|] eqn:Hj; [|by rewrite (Hd j Hj) in Hb].
    destruct (Hr j a Hj) as (a' & Ha' & (S1 & S2 & S3 & S4 & S5) & _). same_lookup.
    exists j, a. rewrite <-S2, <-S4, <-S5. done.
  - intros (j & a & Hj & Hns & Hpre & ->). destruct (Hr j a Hj) as (a' & Ha' & (S1 & S2 & S3 & S4 & S5) & _).
    exists j, a'. rewrite S2, S4, S5. done.
Qed.

Lemma relocked_tree_slots root A A' i e : relocked root A A' i e → tree_slots A' ≡ₚ tree_slots A.
Proof.
  intros [Hd Hr]. assert (∀ X Y : atree, (∀ j, a_vals <$> X !! j = a_vals <$> Y !! j) →
    tree_slots X ≡ₚ tree_slots Y) as Hgen.
  { clear. intros X. induction X as [|j a X Hj IH] using map_ind; intros Y HY.
    - replace Y with (∅ : atree); [done|]. apply map_eq. intros j. specialize (HY j).
      rewrite lookup_empty in *. by destruct (Y !! j).
    - pose proof (HY j) as HYj. rewrite lookup_insert_eq in HYj.
      destruct (Y !! j) as [b|] eqn:Hb; [|done]. simpl in HYj. injection HYj as Hv.
      rewrite tree_slots_new by done. rewrite (tree_slots_delete Y j b Hb), Hv. f_equiv.
      apply IH. intros k. destruct (decide (k = j)) as [->|].
      + by rewrite lookup_delete_eq, Hj.
      + rewrite lookup_delete_ne by done. rewrite <-(HY k). by rewrite lookup_insert_ne. }
  apply Hgen. intros j. destruct (A !! j) as [a|] eqn:Hj; [|by rewrite (Hd j Hj)].
  destruct (Hr j a Hj) as (a' & -> & (_ & _ & S3 & _) & _). simpl. by rewrite S3.
Qed.

Lemma relocked_paged ps root A A' i e : relocked root A A' i e → paged ps A → paged ps A'.
Proof.
  intros [Hd Hr] Hp j b Hb. destruct (A !! j) as [a|] eqn:Hj; [|by rewrite (Hd j Hj) in Hb].
  destruct (Hr j a Hj) as (a' & Ha' & (_ & _ & S3 & _) & _). same_lookup. rewrite S3. by eapply Hp.
Qed.
