(* ===== verification/RadixEvict.v ===== *)
(** * Eviction

    [evict] removes unlocked leaves, the least by the order of the eviction
    strategy first, until enough tokens are freed or none is left.  The abstract
    run [evict_run] says what that means; [evict] implements it, hands every page
    of an evicted node back to the allocator, and keeps the invariant. *)

From S2P Require Import Prelude RadixKey PrefixTree Heapq TreeNode Allocator Events RadixCache.
From S2P Require Import RadixInv RadixEvents.

(** What the cache and the allocator share: the pool and the tree hold different
    pages, and every node holds whole ones. *)
Record kv_ok `{KVAllocator} (c : RadixCache) (A : atree) : Prop := {
  kv_alloc : alloc_ok (kv_allocator c);
  kv_ps : page_size (kv_allocator c) = cpage_size c;
  kv_paged : paged (cpage_size c) A;
  kv_nodup : NoDup (tree_slots A ++ Paged.page_slots (cpage_size c) (pool (kv_allocator c)));
}.

(** ** The order of the eviction heap *)

Section order.
Context (h : heap).

Lemma priority_total p q : p ≠ q → priority_lt p q = negb (priority_lt q p).
Proof.
  intros Hne. destruct p as [t|a t], q as [u|b u]; simpl; try done.
  - assert (t ≠ u) by congruence. destruct (Z.ltb_spec t u), (Z.ltb_spec u t); simpl; (done || lia).
  - destruct (Z.ltb_spec a b), (Z.ltb_spec b a), (Z.eqb_spec a b), (Z.eqb_spec b a); simpl; try (done || lia).
    assert (t ≠ u) by congruence. destruct (Z.ltb_spec t u), (Z.ltb_spec u t); simpl; (done || lia).
Qed.
Lemma priority_trans p q r : priority_lt p q = true → priority_lt q r = true → priority_lt p r = true.
Proof.
  destruct p as [t|a t], q as [u|b u], r as [v|d v]; simpl; try done;
    rewrite ?orb_true_iff, ?andb_true_iff, ?Z.ltb_lt, ?Z.eqb_eq; lia.
Qed.

Lemma entry_le_refl x : Heapq.le (entry_lt h) x x.
Proof. unfold Heapq.le, entry_lt. rewrite decide_True by done. unfold node_lt. by rewrite Z.ltb_irrefl. Qed.

Lemma entry_lt_le x y : entry_lt h x y = true → Heapq.le (entry_lt h) x y.
Proof.
  unfold Heapq.le, entry_lt. destruct (decide (x.1 = y.1)) as [E|E].
  - rewrite decide_True by done. unfold node_lt. rewrite Z.ltb_lt, Z.ltb_ge. lia.
  - rewrite decide_False by done. rewrite priority_total by done. by destruct (priority_lt y.1 x.1).
Qed.

Lemma entry_le_trans x y z :
  Heapq.le (entry_lt h) x y → Heapq.le (entry_lt h) y z → Heapq.le (entry_lt h) x z.
Proof.
  unfold Heapq.le, entry_lt. intros Hxy Hyz.
  destruct (decide (y.1 = x.1)) as [E1|E1], (decide (z.1 = y.1)) as [E2|E2].
  - rewrite decide_True by congruence. unfold node_lt in *. rewrite Z.ltb_ge in *. lia.
  - rewrite decide_False by congruence. by rewrite <-E1.
  - rewrite decide_False by congruence. by rewrite E2.
  - assert (priority_lt x.1 y.1 = true) as Hxy' by (rewrite priority_total by done; by rewrite Hxy).
    assert (priority_lt y.1 z.1 = true) as Hyz' by (rewrite priority_total by done; by rewrite Hyz).
    pose proof (priority_trans _ _ _ Hxy' Hyz') as Hxz.
    destruct (decide (z.1 = x.1)) as [E|E].
    + rewrite E in Hyz'. rewrite priority_total in Hyz' by done. by rewrite Hxy' in Hyz'.
    + rewrite priority_total in Hxz by done. by destruct (priority_lt z.1 x.1).
Qed.
End order.

Lemma same_attrs_total h h' i : same_attrs h h' → attrs (h !!! i) = attrs (h' !!! i).
Proof.
  intros Hs. specialize (Hs i). rewrite !lookup_total_alt.
  destruct (h !! i), (h' !! i); simpl in *; congruence.
Qed.

Lemma entry_lt_attrs h h' x y : same_attrs h h' → entry_lt h x y = entry_lt h' x y.
Proof.
  intros Hs. unfold entry_lt, node_lt.
  assert (∀ i, last_access_time (h !!! i) = last_access_time (h' !!! i)) as Ht.
  { intros i. pose proof (same_attrs_total h h' i Hs) as Ha. by injection Ha. }
  by rewrite !Ht.
Qed.

Lemma get_priority_attrs s n n' : attrs n = attrs n' → get_priority s n = get_priority s n'.
Proof. intros Ha. injection Ha as E1 E2 E3 E4. unfold get_priority. by rewrite E1, E2, E3, E4. Qed.

Lemma is_heap_ext {X} `{Inhabited X} (lt lt' : X → X → bool) l :
  (∀ x y, lt x y = lt' x y) → is_heap lt l → is_heap lt' l.
Proof.
  intros Hlt Hh j Hj Hp. specialize (Hh j Hj Hp). unfold ordered, Heapq.le in *. by rewrite <-Hlt.
Qed.

(** ** Removing a leaf *)

Section delete_leaf.
Context (c : RadixCache) (A : atree) (x p : nat) (a pa : anode).
Hypothesis Hinv : Inv c A.
Hypothesis Hx : A !! x = Some a.
Hypothesis Hlock : a_lock a = 0.
Hypothesis Hleaf : ∀ j, ¬ child_of A x j.
Hypothesis Hp : a_parent a = Some p.
Hypothesis Hpa : A !! p = Some pa.

Lemma delete_facts :
  x ≠ root_node c ∧ x ≠ p ∧ node_ok (cpage_size c) (is_eagle c) (root_node c) p pa a.
Proof.
  pose proof (inv_tree c A Hinv) as Hok.
  destruct (child_node_ok _ _ _ A Hok p x a Hx Hp) as (Hxr & pa' & Hpa' & Hno). same_lookup.
  split; [done|]. split; [|done]. intros ->. same_lookup.
  pose proof (ok_parent_shorter _ _ _ A Hok p _ p _ Hx Hp Hx). lia.
Qed.

Lemma delete_rep h pn k :
  nodes c !! p = Some pn → child_key (a_key a) (cpage_size c) = Ok k →
  h = <[p := set_children pn (dict_del k (children pn))]> (nodes c) →
  rep (cpage_size c) h (delete x A).
Proof.
  intros Hpn Hk -> y b [Hyx Hy]%lookup_delete_Some.
  pose proof (inv_rep c A Hinv) as Hrep. pose proof (inv_tree c A Hinv) as Hok.
  destruct delete_facts as (Hxr & Hxp & Hno).
  assert (∀ z j d, z ≠ p ∨ d ≠ k →
    (∃ b, delete x A !! j = Some b ∧ a_parent b = Some z ∧ child_key (a_key b) (cpage_size c) = Ok d) ↔
    (∃ b, A !! j = Some b ∧ a_parent b = Some z ∧ child_key (a_key b) (cpage_size c) = Ok d)) as Hch.
  { intros z j d Hz. setoid_rewrite lookup_delete_Some. split.
    - intros (b' & [_ Hb'] & Hrest). by exists b'.
    - intros (b' & Hb' & Hbp & Hbk). exists b'. split; [|done]. split; [|done].
      intros <-. same_lookup. destruct Hz; congruence. }
  destruct (decide (y = p)) as [->|Hyp].
  - rewrite lookup_insert_eq. eexists. split; [done|].
    pose proof (rep_lookup _ _ _ Hrep p b pn Hy Hpn) as [R1 R2 R3 R4 R5 R6].
    constructor; cbn; try done; [by apply dict_keys_del_NoDup|].
    intros d j. destruct (decide (d = k)) as [->|Hd].
    + rewrite dict_get_del_eq by done. split; [done|].
      intros (b' & [Hxj Hb']%lookup_delete_Some & Hbp & Hbk).
      assert (dict_get k (children pn) = Some j) by (apply R6; eauto).
      assert (dict_get k (children pn) = Some x) by (apply R6; eauto). congruence.
    + rewrite dict_get_del_ne by done. rewrite Hch by by right. apply R6.
  - rewrite lookup_insert_ne by done. destruct (Hrep y b Hy) as (m & Hm & [R1 R2 R3 R4 R5 R6]).
    exists m. split; [done|]. constructor; try done. intros d j. rewrite Hch by by left. apply R6.
Qed.

Lemma hash_ok_delete h : hash_ok (cpage_size c) (root_node c) h A →
  hash_ok (cpage_size c) (root_node c) h (delete x A).
Proof. intros Hh i b n [_ Hi]%lookup_delete_Some. by apply Hh. Qed.

Lemma delete_leaf_spec :
  ∃ c' n pn k, delete_leaf x c = Ok c' ∧ Inv c' (delete x A) ∧ config c' = config c ∧
    kv_events c' = kv_events c ∧ evictable_size_ c' = evictable_size_ c - key_len (a_key a) ∧
    protected_size_ c' = protected_size_ c ∧
    nodes c !! x = Some n ∧ nodes c !! p = Some pn ∧
    nodes c' = <[p := set_children pn (dict_del k (children pn))]> (nodes c) ∧
    hash_ok (cpage_size c) (root_node c) (nodes c') A.
Proof.
  pose proof (inv_rep c A Hinv) as Hrep. pose proof (inv_tree c A Hinv) as Hok.
  destruct delete_facts as (Hxr & Hxp & Hno).
  destruct (Hrep x a Hx) as (n & Hn & Hrn). destruct (Hrep p pa Hpa) as (pn & Hpn & Hrp).
  pose proof (ok_child_key _ _ _ (inv_ps c A Hinv) _ _ _ Hno) as Hk.
  set (k := ns_val _ _) in Hk. unfold delete_leaf.
  rewrite (get_eq c x n Hn), bind_ret, (rn_key _ _ _ _ _ Hrn), Hk, bind_ret.
  rewrite (get_parent_eq n p) by (by rewrite (rn_parent _ _ _ _ _ Hrn)).
  rewrite bind_ret, (get_eq c p pn Hpn), bind_ret.
  assert (dict_get k (children pn) = Some x) as -> by (apply Hrp; eauto).
  rewrite decide_True by done. cbv zeta.
  set (h' := <[p := set_children pn (dict_del k (children pn))]> (nodes c)).
  pose proof (delete_rep h' pn k Hpn Hk eq_refl) as Hrep'.
  assert (tree_ok (cpage_size c) (is_eagle c) (root_node c) (delete x A)) as Hok' by by eapply remove_ok.
  assert (locks_ok (root_node c) (delete x A) (λ _, 0)) as Hlk'.
  { eapply remove_locks_ok; [done|apply Hinv|done]. }
  assert (delete x A !! p = Some pa) as Hpa' by by rewrite lookup_delete_ne.
  assert (hash_ok (cpage_size c) (root_node c) h' A) as Hh'.
  { eapply hash_ok_same; [|apply Hinv]. by eapply put_same_hashes. }
  match goal with |- context [update_leaf_status p ?c1] =>
    destruct (update_leaf_status_spec c1 (delete x A) p pa (inv_ps c A Hinv) Hrep' Hok' Hpa'
      (proj1 (Hlk' p pa Hpa'))) as (ls & -> & Hls) end.
  eexists _, n, pn, k. split; [done|]. split; [|done].
  assert (evictable_of a = key_len (a_key a) ∧ protected_of a = 0) as [Eev Epr].
  { unfold evictable_of, protected_of. by rewrite Hlock. }
  constructor; cbn; try done; try apply Hinv.
  - rewrite (msum_delete _ _ _ a) by done. rewrite (inv_evictable c A Hinv), Eev. done.
  - rewrite (msum_delete _ _ _ a) by done. rewrite (inv_protected c A Hinv), Epr. lia.
  - intros j. rewrite Hls. case_decide as Hj; [by subst j|]. cbn.
    rewrite elem_of_difference, elem_of_singleton, (inv_leaves c A Hinv).
    rewrite (remove_is_leaf _ _ _ A x p a pa Hok Hx Hp Hpa j). split.
    + intros [? ?]. split; [done|by left].
    + intros [? [?|[? _]]]; done.
  - intros j [m Hm]. apply Hinv. destruct (decide (j = p)) as [->|]; [by eexists|].
    unfold h' in Hm. rewrite lookup_insert_ne in Hm by done. by eexists.
  - by apply hash_ok_delete.
Qed.
End delete_leaf.

(** ** The abstract run *)

(** [before y x]: the strategy evicts [y] strictly before [x]. *)
Inductive evict_run (before : nat → nat → bool) (need : Z) (A0 : atree) : list nat → atree → Z → Prop :=
| run_nil : evict_run before need A0 [] A0 0
| run_snoc xs A num x a :
    evict_run before need A0 xs A num → num < need →
    A !! x = Some a → is_leaf A x → (∀ y, is_leaf A y → before y x = false) →
    evict_run before need A0 (xs ++ [x]) (delete x A) (num + key_len (a_key a)).

(** The attributes of the cache other than the allocator. *)
Definition settings (c : RadixCache) :=
  (disable c, cpage_size c, is_eagle c, disable_finished_insert c, eviction_strategy c,
   root_node c, rec_page_size (kv_events c), enabled (kv_events c)).

Lemma settings_fields c c' :
  settings c' = settings c →
  disable c' = disable c ∧ cpage_size c' = cpage_size c ∧ is_eagle c' = is_eagle c ∧
  root_node c' = root_node c ∧ eviction_strategy c' = eviction_strategy c ∧
  rec_page_size (kv_events c') = rec_page_size (kv_events c).
Proof. unfold settings. intros E. injection E. intros. split_and!; assumption. Qed.

Lemma config_settings c c' : config c' = config c → settings c' = settings c.
Proof. unfold config, settings. intros E. injection E. intros. congruence. Qed.

(** The strategy's order at the start of an eviction. *)
Definition evicts_before (c : RadixCache) (y x : nat) : bool :=
  entry_lt (nodes c) (get_priority (eviction_strategy c) (nodes c !!! y), y)
    (get_priority (eviction_strategy c) (nodes c !!! x), x).

(** ** The loop *)

Section evict.
Context `{SetOrder} `{HashLaws} `{KVAllocator}.

(** The pages of a node go back to the pool. *)
Lemma free_node_spec c A x a :
  0 < cpage_size c → kv_ok c A → A !! x = Some a →
  ∃ al, kv_free_segment (a_vals a) 0 (kv_allocator c) = Ok al ∧ alloc_ok al ∧
    page_size al = cpage_size c ∧
    Paged.page_slots (cpage_size c) (pool al) ≡ₚ
      a_vals a ++ Paged.page_slots (cpage_size c) (pool (kv_allocator c)).
Proof.
  intros Hps [Hal Hpsz Hpg Hnd] Hx. destruct (Hpg x a Hx) as [P HP].
  set (ps := cpage_size c) in *.
  destruct (kv_free_segment_spec (kv_allocator c) P (a_vals a) 0 (zlen (a_vals a)))
    as (al & Hfree & Hal' & Hps' & Hpool).
  - done.
  - rewrite Hpsz, HP. by apply row_layout_page_slots.
  - pose proof (zlen_nonneg (a_vals a)). lia.
  - done.
  - rewrite Hpsz, HP, touched_all by done. apply (NoDup_page_slots ps Hps).
    rewrite page_slots_app, <-HP. rewrite (tree_slots_delete A x a Hx) in Hnd.
    eapply sublist_NoDup; [exact Hnd|]. apply sublist_app; [|done]. by apply sublist_inserts_r.
  - exists al. rewrite Hpsz, HP, touched_all in * by done. split; [|split; [done|split; [done|]]].
    + rewrite <-Hfree. f_equal. rewrite slice_take_drop by (pose proof (zlen_nonneg (Paged.page_slots ps P)); lia).
      rewrite drop_0, take_ge; [done|]. unfold zlen. lia.
    + rewrite Hpool, page_slots_app. done.
Qed.

Lemma Inv_set_alloc c A al : Inv c A → Inv (set_kv_allocator c al) A.
Proof. intros []. by constructor. Qed.
Lemma Inv_set_events c A r :
  Inv c A → rec_page_size r = rec_page_size (kv_events c) → Inv (set_kv_events c r) A.
Proof. intros [] Hr. constructor; try done. cbn. congruence. Qed.

(** Recording the removal of the leaf that was just deleted. *)
Lemma record_removed_spec c c2 A x a p pn k :
  Inv c A → Inv c2 (delete x A) → A !! x = Some a → x ≠ root_node c →
  nodes c !! p = Some pn → nodes c2 = <[p := set_children pn k]> (nodes c) →
  hash_ok (cpage_size c) (root_node c) (nodes c2) A → settings c2 = settings c →
  ∃ h' es, record_remove x GPU (nodes c2) (kv_events c2) = Ok (h', enqueue_all es (kv_events c2)) ∧
    Inv (set_kv_events (set_nodes c2 h') (enqueue_all es (kv_events c2))) (delete x A) ∧
    same_attrs (nodes c2) h'.
Proof.
  intros Hinv Hinv2 Hx Hxr Hpn Hn2 Hh2 Hset.
  destruct (settings_fields c c2 Hset) as (_ & Eps & Ee & Er & _ & Erec).
  assert (rep_up (nodes c2) A) as Hup.
  { intros i b Hi. destruct (rep_rep_up _ _ _ (inv_rep c A Hinv) i b Hi) as (n & Hn & [U1 U2]).
    rewrite Hn2. destruct (decide (i = p)) as [->|].
    - rewrite lookup_insert_eq. eexists. split; [done|]. same_lookup. by constructor.
    - rewrite lookup_insert_ne by done. by exists n. }
  assert (base.size A ≤ base.size (nodes c2))%nat as Hsz.
  { rewrite <-!size_dom. apply subseteq_size. intros i [b Hb]%elem_of_dom.
    destruct (Hup i b Hb) as (n & Hn & _). apply elem_of_dom. by eexists. }
  destruct (record_remove_spec (cpage_size c) (is_eagle c) (root_node c) A (inv_ps c A Hinv)
    (inv_tree c A Hinv) (nodes c2) x a GPU (kv_events c2)) as (h' & es & Hrun & [Hc Hat _ Hh'] & _);
    try done.
  { rewrite Erec. apply Hinv. }
  exists h', es. split; [done|]. split; [|done].
  apply Inv_set_events; [|cbn; apply enqueue_all_settings].
  apply Inv_set_nodes; [done|done|]. rewrite Eps, Er. intros i b n [_ Hi]%lookup_delete_Some. by apply Hh'.
Qed.

Definition evict_inv (c0 : RadixCache) (A0 : atree) (need : Z) (m : nat)
    (st : RadixCache * list (evict_priority * nat) * Z) : Prop :=
  let '(c, hp, num) := st in
  ∃ A xs, base.size A = m ∧ Inv c A ∧ kv_ok c A ∧ settings c = settings c0 ∧
    same_attrs (nodes c0) (nodes c) ∧ is_heap (entry_lt (nodes c0)) hp ∧ NoDup hp.*2 ∧
    (∀ q i, (q, i) ∈ hp → q = get_priority (eviction_strategy c0) (nodes c0 !!! i)) ∧
    (∀ i, i ∈ hp.*2 ↔ is_leaf A i) ∧
    evict_run (evicts_before c0) need A0 xs A num ∧
    tree_slots A ++ Paged.page_slots (cpage_size c0) (pool (kv_allocator c)) ≡ₚ
      tree_slots A0 ++ Paged.page_slots (cpage_size c0) (pool (kv_allocator c0)) ∧
    evictable_size_ c = evictable_size_ c0 - num ∧ protected_size_ c = protected_size_ c0.

Definition evict_end (c0 : RadixCache) (A0 : atree) (need : Z) (r : RadixCache * Z) : Prop :=
  let '(c, num) := r in
  ∃ A xs, Inv c A ∧ kv_ok c A ∧ settings c = settings c0 ∧
    evict_run (evicts_before c0) need A0 xs A num ∧ (need ≤ num ∨ ∀ i, ¬ is_leaf A i) ∧
    tree_slots A ++ Paged.page_slots (cpage_size c0) (pool (kv_allocator c)) ≡ₚ
      tree_slots A0 ++ Paged.page_slots (cpage_size c0) (pool (kv_allocator c0)) ∧
    evictable_size_ c = evictable_size_ c0 - num ∧ protected_size_ c = protected_size_ c0.

(** The heap after the parent of an evicted leaf was pushed, if it became one. *)
Lemma heap_after_pop h hp (x p : nat) (q : evict_priority) (A : atree) prio (b : bool) a pa ps eagle root :
  is_heap (entry_lt h) hp → NoDup (x :: hp.*2) → (∀ i, i ∈ x :: hp.*2 ↔ is_leaf A i) →
  (∀ q i, (q, i) ∈ hp → q = prio i) →
  tree_ok ps eagle root A → A !! x = Some a → a_parent a = Some p → A !! p = Some pa →
  (b = true ↔ is_leaf (delete x A) p) →
  let hp' := if b then heappush (entry_lt h) hp (prio p, p) else hp in
  is_heap (entry_lt h) hp' ∧ NoDup hp'.*2 ∧ (∀ i, i ∈ hp'.*2 ↔ is_leaf (delete x A) i) ∧
  (∀ q i, (q, i) ∈ hp' → q = prio i).
Proof.
  intros Hh [Hxn Hnd]%NoDup_cons Hin Hpr Hok Hx Hp Hpa Hb.
  assert (¬ is_leaf A p) as Hpl.
  { intros (b' & _ & _ & Hno). apply (Hno x). by exists a. }
  assert (∀ i, i ∈ hp.*2 ↔ i ≠ x ∧ is_leaf A i) as Hin'.
  { intros i. rewrite <-Hin, elem_of_cons. split; [|tauto]. intros Hi. split; [|tauto]. by intros ->. }
  pose proof (remove_is_leaf ps eagle root A x p a pa Hok Hx Hp Hpa) as Hrl.
  destruct b; cbv zeta iota.
  - destruct (heappush_spec (entry_lt h) (entry_le_trans h) (entry_lt_le h) hp (prio p, p) Hh)
      as [Hh' HP].
    pose proof (proj1 Hb eq_refl) as Hleafp.
    split; [done|]. rewrite HP. split; [|split].
    + cbn. apply NoDup_cons. split; [|done]. rewrite Hin'. tauto.
    + intros i. rewrite HP. cbn. rewrite elem_of_cons, Hin', Hrl. split.
      * intros [->|[? ?]]; [by apply Hrl|]. split; [done|by left].
      * intros [? [?|[-> _]]]; [by right|by left].
    + intros q' i. rewrite HP, elem_of_cons. intros [[= -> ->]|?]; [done|by apply Hpr].
  - split; [done|]. split; [done|]. split; [|done]. intros i. rewrite Hin', Hrl. split.
    + intros [? ?]. split; [done|by left].
    + intros [? [?|[-> Hrest]]]; [done|]. exfalso.
      assert (false = true) by (apply Hb, Hrl; split; [done|by right]). done.
Qed.

Lemma same_attrs_trans h1 h2 h3 : same_attrs h1 h2 → same_attrs h2 h3 → same_attrs h1 h3.
Proof. intros H12 H23 i. by rewrite H12. Qed.

(** The node on top of the heap is a leaf that no other leaf precedes. *)
Lemma pop_least c0 c A hp :
  same_attrs (nodes c0) (nodes c) → is_heap (entry_lt (nodes c0)) hp → hp ≠ [] →
  (∀ q i, (q, i) ∈ hp → q = get_priority (eviction_strategy c0) (nodes c0 !!! i)) →
  (∀ i, i ∈ hp.*2 ↔ is_leaf A i) →
  ∃ q x hp', heappop (entry_lt (nodes c)) hp = Some ((q, x), hp') ∧ (q, x) :: hp' ≡ₚ hp ∧
    is_heap (entry_lt (nodes c)) hp' ∧ is_leaf A x ∧ ∀ y, is_leaf A y → evicts_before c0 y x = false.
Proof.
  intros Hat Hh Hne Hpr Hin.
  assert (∀ x y, entry_lt (nodes c0) x y = entry_lt (nodes c) x y) as Hlt by (intros; by apply entry_lt_attrs).
  destruct (heappop_spec (entry_lt (nodes c)) (entry_le_refl _) (entry_le_trans _) (entry_lt_le _) hp)
    as ([q x] & hp' & Hpop & HP & Hh' & Hmin); [by eapply is_heap_ext|done|].
  exists q, x, hp'. split; [done|]. split; [done|]. split; [done|].
  assert ((q, x) ∈ hp) as Hx by (rewrite <-HP; left).
  split. { apply Hin, list_elem_of_fmap. by exists (q, x). }
  intros y Hy. apply Hin, list_elem_of_fmap in Hy as ([q' y'] & -> & Hy).
  specialize (Hmin _ Hy). unfold Heapq.le in Hmin. rewrite <-Hlt in Hmin.
  unfold evicts_before. cbn. by rewrite <-(Hpr _ _ Hx), <-(Hpr _ _ Hy).
Qed.

Lemma kv_ok_delete c c3 A x a :
  kv_ok c A → A !! x = Some a → cpage_size c3 = cpage_size c → alloc_ok (kv_allocator c3) →
  page_size (kv_allocator c3) = cpage_size c →
  Paged.page_slots (cpage_size c) (pool (kv_allocator c3)) ≡ₚ
    a_vals a ++ Paged.page_slots (cpage_size c) (pool (kv_allocator c)) →
  kv_ok c3 (delete x A) ∧
  tree_slots (delete x A) ++ Paged.page_slots (cpage_size c) (pool (kv_allocator c3)) ≡ₚ
    tree_slots A ++ Paged.page_slots (cpage_size c) (pool (kv_allocator c)).
Proof.
  intros Hkv Hx Eps Hal Hpsz Hpool.
  assert (tree_slots (delete x A) ++ Paged.page_slots (cpage_size c) (pool (kv_allocator c3)) ≡ₚ
    tree_slots A ++ Paged.page_slots (cpage_size c) (pool (kv_allocator c))) as Hcons.
  { rewrite Hpool, (tree_slots_delete A x a Hx). solve_Permutation. }
  split; [|done]. constructor; rewrite ?Eps; try done.
  - intros i b [_ Hi]%lookup_delete_Some. by apply (kv_paged c A Hkv i).
  - rewrite Hcons. by apply Hkv.
Qed.

(** What evicting the leaf [x] does to the cache and to the pool. *)
Record evicted_node (c c2 c3 : RadixCache) (A : atree) (x p : nat) (a : anode) (pn : TreeNode) : Prop := {
  en_inv : Inv c3 (delete x A);
  en_kv : kv_ok c3 (delete x A);
  en_settings : settings c3 = settings c;
  en_strategy : eviction_strategy c2 = eviction_strategy c;
  en_attrs2 : same_attrs (nodes c) (nodes c2);
  en_attrs3 : same_attrs (nodes c) (nodes c3);
  en_parent : nodes c2 !! p = Some pn;
  en_leaf : (zlen (children pn) =? 0) && (lock_ref pn =? 0) = true ↔ is_leaf (delete x A) p;
  en_slots : tree_slots (delete x A) ++ Paged.page_slots (cpage_size c) (pool (kv_allocator c3)) ≡ₚ
    tree_slots A ++ Paged.page_slots (cpage_size c) (pool (kv_allocator c));
  en_evictable : evictable_size_ c3 = evictable_size_ c - key_len (a_key a);
  en_protected : protected_size_ c3 = protected_size_ c;
}.

Lemma evict_node_spec c A x a p pa :
  Inv c A → kv_ok c A → A !! x = Some a → a_lock a = 0 → (∀ j, ¬ child_of A x j) →
  a_parent a = Some p → A !! p = Some pa → x ≠ root_node c →
  ∃ al c2 pn h3 r3,
    kv_free_segment (a_vals a) 0 (kv_allocator c) = Ok al ∧
    delete_leaf x (set_kv_allocator c al) = Ok c2 ∧
    record_remove x GPU (nodes c2) (kv_events c2) = Ok (h3, r3) ∧
    evicted_node c c2 (set_kv_events (set_nodes c2 h3) r3) A x p a pn.
Proof.
  intros Hinv Hkv Hx Hlock Hno Hp Hpa Hxr.
  destruct (free_node_spec c A x a (inv_ps c A Hinv) Hkv Hx) as (al & Hfree & Hal & Hpsz & Hpool).
  destruct (delete_leaf_spec (set_kv_allocator c al) A x p a pa (Inv_set_alloc c A al Hinv) Hx Hlock Hno Hp Hpa)
    as (c2 & n' & pn & k & Hdel & Hinv2 & Hcfg2 & Hev2 & Hes2 & Hpr2 & Hn' & Hpn & Hn2 & Hh2).
  cbn in Hn', Hpn, Hn2, Hh2, Hes2, Hpr2, Hev2.
  destruct (config_fields _ c2 Hcfg2) as (_ & Eps2 & Ee2 & Er2 & Est2 & Eal2). cbn in Eps2, Ee2, Er2, Est2, Eal2.
  assert (settings c2 = settings c) as Hset2 by (apply config_settings in Hcfg2; exact Hcfg2).
  set (pn2 := set_children pn (dict_del k (children pn))) in *.
  assert (nodes c2 !! p = Some pn2) as Hpn2 by by rewrite Hn2, lookup_insert_eq.
  destruct (record_removed_spec c c2 A x a p pn (dict_del k (children pn)) Hinv Hinv2 Hx Hxr Hpn Hn2 Hh2 Hset2)
    as (h3 & es & Hrec & Hinv3 & Hat3).
  assert (same_attrs (nodes c) (nodes c2)) as Hat2 by (rewrite Hn2; by apply (put_same_attrs _ p pn)).
  assert (delete x A !! p = Some pa) as Hpa'.
  { rewrite lookup_delete_ne; [done|]. intros <-. apply (Hno x). by exists a. }
  destruct (kv_ok_delete c (set_kv_events (set_nodes c2 h3) (enqueue_all es (kv_events c2))) A x a Hkv Hx)
    as [Hkv3 Hcons]; [done|by cbn; rewrite Eal2|by cbn; rewrite Eal2|by cbn; rewrite Eal2|].
  exists al, c2, pn2, h3, (enqueue_all es (kv_events c2)). split; [done|]. split; [done|]. split; [done|].
  constructor; try done.
  - rewrite <-Hset2. unfold settings. cbn.
    by destruct (enqueue_all_settings es (kv_events c2)) as [-> ->].
  - by eapply same_attrs_trans.
  - pose proof (rep_lookup _ _ _ (inv_rep c2 _ Hinv2) p pa pn2 Hpa' Hpn2) as Hr2.
    pose proof (children_nil_iff _ _ _ _ _ (inv_ps c2 _ Hinv2) (inv_rep c2 _ Hinv2)
      (inv_tree c2 _ Hinv2) p pa pn2 Hpa' Hpn2) as Hnil.
    unfold is_leaf. rewrite andb_true_iff, !Z.eqb_eq, (rn_lock _ _ _ _ _ Hr2). split.
    + intros [Hz Hl]. exists pa. split_and!; try done. by apply Hnil, zlen_0.
    + intros (pa' & Hpa2 & Hl & Hc). same_lookup. split; [|done]. by rewrite (proj2 Hnil Hc).
Qed.

Lemma evict_step_spec c0 A0 need m st :
  evict_inv c0 A0 need m st →
  (∃ st' m', evict_step need st = Ok (inl st') ∧ evict_inv c0 A0 need m' st' ∧ (m' < m)%nat) ∨
  (∃ r, evict_step need st = Ok (inr r) ∧ evict_end c0 A0 need r).
Proof.
  destruct st as [[c hp] num].
  intros (A & xs & Hm & Hinv & Hkv & Hset & Hat & Hh & Hnd & Hpr & Hin & Hrun & Hcons & Hev & Hprot).
  destruct (settings_fields c0 c Hset) as (_ & Eps & _ & _ & Est & _).
  unfold evict_step. destruct (Z.ltb_spec num need) as [Hlt|Hge].
  2:{ right. eexists. split; [done|]. exists A, xs. split_and!; try done. by left. }
  destruct (decide (hp = [])) as [->|Hne].
  { right. eexists. split; [done|]. exists A, xs. split_and!; try done. right. intros i Hi.
    by apply Hin, elem_of_nil in Hi. }
  destruct (pop_least c0 c A hp Hat Hh Hne Hpr Hin) as (q & x & hp' & -> & HP & Hh' & Hxleaf & Hleast).
  pose proof Hxleaf as (a & Hx & Hlock & Hno).
  destruct (inv_lookup c A x a Hinv Hx) as (n & Hn & Hrn).
  assert (x ≠ root_node c) as Hxr.
  { intros ->. destruct (to_root _ _ _ A (inv_tree c A Hinv)) as (r & Hr & _ & _ & _ & Hl & _).
    same_lookup. lia. }
  destruct (to_node _ _ _ A (inv_tree c A Hinv) x a Hx Hxr) as (p & pa & Hp & Hpa & Hnok).
  rewrite (get_eq c x n Hn), bind_ret, (get_value_eq n _ (rn_value _ _ _ _ _ Hrn)), bind_ret.
  destruct (evict_node_spec c A x a p pa Hinv Hkv Hx Hlock Hno Hp Hpa Hxr)
    as (al & c2 & pn & h3 & r3 & -> & Hdel & Hrec & [E1 E2 E3 E4 E5 E6 E7 E8 E9 E10 E11]).
  rewrite bind_ret. cbv zeta. rewrite Hdel, bind_ret.
  rewrite (get_parent_eq n p) by (by rewrite (rn_parent _ _ _ _ _ Hrn)). rewrite bind_ret.
  rewrite (get_eq c2 p _ E7), bind_ret, Hrec, bind_ret. left.
  pose proof (same_attrs_trans _ _ _ Hat E5) as Hat2. pose proof (same_attrs_trans _ _ _ Hat E6) as Hat3.
  assert (get_priority (eviction_strategy c2) pn = get_priority (eviction_strategy c0) (nodes c0 !!! p)) as ->.
  { rewrite E4, Est. apply get_priority_attrs. rewrite (same_attrs_total _ _ p Hat2).
    by rewrite (lookup_total_correct _ _ _ E7). }
  destruct (heap_after_pop (nodes c2) hp' x p q A
    (λ i, get_priority (eviction_strategy c0) (nodes c0 !!! i))
    ((zlen (children pn) =? 0) && (lock_ref pn =? 0)) a pa (cpage_size c) (is_eagle c) (root_node c))
    as (G1 & G2 & G3 & G4); try done.
  - eapply is_heap_ext; [|exact Hh']. intros. by apply entry_lt_attrs.
  - change (x :: hp'.*2) with (((q, x) :: hp').*2). by rewrite HP.
  - intros i. change (x :: hp'.*2) with (((q, x) :: hp').*2). by rewrite HP.
  - intros q' i Hi. apply Hpr. rewrite <-HP. by right.
  - apply Hinv.
  - eexists _, (base.size (delete x A)). split; [done|]. split; [|].
    + exists (delete x A), (xs ++ [x]). split_and!; try done.
      * by rewrite E3.
      * eapply is_heap_ext; [|exact G1]. intros. symmetry. by apply entry_lt_attrs.
      * pose proof (no_vals _ _ _ _ _ _ Hnok) as ->. by econstructor.
      * rewrite Eps in E9. by rewrite E9.
      * rewrite E10, Hev, (no_vals _ _ _ _ _ _ Hnok). lia.
      * by rewrite E11.
    + rewrite <-Hm, map_size_delete, Hx. cbn.
      assert (base.size A ≠ 0)%nat; [|lia]. intros Hz%map_size_empty_inv. subst A.
      by rewrite lookup_empty in Hx.
Qed.

Lemma evict_entries_spec c l :
  (∀ i, i ∈ l → is_Some (nodes c !! i)) →
  evict_entries c l = Ok ((λ i, (get_priority (eviction_strategy c) (nodes c !!! i), i)) <$> l).
Proof.
  induction l as [|i l IH]; intros Hl; [done|]. cbn [evict_entries foldr fmap list_fmap].
  destruct (Hl i ltac:(by left)) as [n Hn].
  rewrite (get_eq c i n Hn), bind_ret. fold (evict_entries c l).
  rewrite IH by (intros j Hj; apply Hl; by right). rewrite bind_ret.
  by rewrite (lookup_total_correct _ _ _ Hn).
Qed.

Lemma evict_spec c A need :
  Inv c A → kv_ok c A → disable c = false →
  ∃ num c', evict need c = Ok (num, c') ∧ evict_end c A need (c', num).
Proof.
  intros Hinv Hkv Hdis. unfold evict. rewrite Hdis.
  assert (∀ i, i ∈ set_list (evictable_leaves c) ↔ is_leaf A i) as Hl.
  { intros i. rewrite set_list_elements, elem_of_elements. apply Hinv. }
  rewrite evict_entries_spec, bind_ret.
  2:{ intros i Hi. apply Hl in Hi as (a & Ha & _).
      destruct (inv_lookup c A i a Hinv Ha) as (n & Hn & _). by eexists. }
  destruct (heapify_spec (entry_lt (nodes c)) (entry_le_refl _) (entry_le_trans _) (entry_lt_le _)
    ((λ i, (get_priority (eviction_strategy c) (nodes c !!! i), i)) <$> set_list (evictable_leaves c)))
    as [Hh HP]. set (hp := heapify _ _) in *. clearbody hp.
  assert (hp.*2 ≡ₚ set_list (evictable_leaves c)) as HP2.
  { rewrite HP, <-list_fmap_compose. by rewrite list_fmap_id. }
  destruct (while_total_ghost (evict_inv c A need) (evict_end c A need) (evict_step need)
    (evict_step_spec c A need) (S (base.size (nodes c))) (base.size A) (c, hp, 0)) as ([c' num] & -> & Hend).
  - exists A, []. split_and!; try done.
    + rewrite HP2, set_list_elements. apply NoDup_elements.
    + intros q i Hi. rewrite HP in Hi. apply list_elem_of_fmap in Hi as (j & [= -> ->] & _). done.
    + intros i. rewrite HP2. apply Hl.
    + constructor.
    + lia.
  - pose proof (inv_size c A Hinv). lia.
  - rewrite bind_ret. by exists num, c'.
Qed.
End evict.

(** ** What a run guarantees *)

Section run.
Context (before : nat → nat → bool) (need : Z) (A0 : atree).

(** Locked nodes are never touched. *)
Lemma evict_run_locked xs A num i a :
  evict_run before need A0 xs A num → A0 !! i = Some a → a_lock a ≠ 0 → A !! i = Some a.
Proof.
  intros Hrun Hi Hl. induction Hrun as [|xs A num x b Hrun IH Hlt Hx (b' & Hb' & Hz & _) _]; [done|].
  rewrite lookup_delete_ne; [done|]. intros ->. same_lookup. congruence.
Qed.

Lemma evict_run_subset xs A num i a :
  evict_run before need A0 xs A num → A !! i = Some a → A0 !! i = Some a.
Proof.
  intros Hrun. revert i a. induction Hrun as [|xs A num x b Hrun IH]; [done|].
  intros i a [_ Hi]%lookup_delete_Some. by apply IH.
Qed.

(** The evicted nodes were unlocked nodes of the tree, each evicted once. *)
Lemma evict_run_victims xs A num :
  evict_run before need A0 xs A num →
  NoDup xs ∧ (∀ x, x ∈ xs → A !! x = None ∧ ∃ a, A0 !! x = Some a ∧ a_lock a = 0) ∧
  num = zsum ((λ x, from_option (λ a, key_len (a_key a)) 0 (A0 !! x)) <$> xs).
Proof.
  intros Hrun. induction Hrun as [|xs A num x a Hrun (IH1 & IH2 & IH3) Hlt Hx (a' & Ha' & Hz & _) _].
  { split; [constructor|]. split; [by intros x ?%elem_of_nil|done]. }
  same_lookup. pose proof (evict_run_subset _ _ _ x _ Hrun Hx) as Hx0. split_and!.
  - apply NoDup_app. split; [done|]. split; [|apply NoDup_singleton].
    intros y Hy ->%list_elem_of_singleton. destruct (IH2 x Hy) as [? _]. congruence.
  - intros y [Hy| ->%list_elem_of_singleton]%elem_of_app.
    + destruct (IH2 y Hy) as [Hn Hrest]. split; [|done]. by rewrite lookup_delete_None; right.
    + split; [apply lookup_delete_eq|]. by eexists.
  - rewrite fmap_app, zsum_app, <-IH3. cbn. rewrite Hx0. cbn. lia.
Qed.
End run.

(** Below an unlocked node there is a leaf. *)
Lemma unlocked_leaf ps eagle root A i a :
  0 < ps → tree_ok ps eagle root A → locks_ok root A (λ _, 0) → A !! i = Some a → a_lock a = 0 →
  ∃ j, is_leaf A j.
Proof.
  intros Hps Hok Hl.
  set (bound := msum (λ a, zlen (a_path a)) A).
  assert (∀ i a, A !! i = Some a → zlen (a_path a) ≤ bound) as Hb.
  { intros j b Hj. apply (msum_elem (λ a, zlen (a_path a)) A j b); [intros; apply zlen_nonneg|done]. }
  remember (Z.to_nat (bound - zlen (a_path a))) as m eqn:Hm. revert i a Hm.
  induction (lt_wf m) as [m _ IH]. intros i a -> Hi Hz.
  destruct (decide (∃ j, j ∈ dom A ∧ (a_parent <$> A !! j) = Some (Some i))) as [Hex|Hnex].
  - destruct Hex as (j & _ & Hj). destruct (A !! j) as [b|] eqn:HAj; [|done]. simpl in Hj. injection Hj as Hp.
    assert (i ≠ root) as Hir.
    { intros ->. destruct (to_root _ _ _ A Hok) as (r & Hr & _ & _ & _ & Hlr & _). same_lookup. lia. }
    pose proof (locked_parent root A i a j b Hl Hi Hir HAj Hp) as Hle.
    pose proof (proj1 (Hl j b HAj)).
    pose proof (ok_parent_shorter _ _ _ A Hok j b i a HAj Hp Hi) as Hsh.
    pose proof (Hb j b HAj). unfold zlen in *.
    eapply (IH (Z.to_nat (bound - Z.of_nat (length (a_path b))))); [|done|done|]; lia.
  - exists i, a. split_and!; try done. intros j (b & Hb' & Hp). apply Hnex. exists j.
    split; [apply elem_of_dom; by eexists|]. by rewrite Hb', <-Hp.
Qed.

Lemma no_leaf_nothing_evictable ps eagle root A :
  0 < ps → tree_ok ps eagle root A → locks_ok root A (λ _, 0) → (∀ i, ¬ is_leaf A i) →
  msum evictable_of A = 0.
Proof.
  intros Hps Hok Hl Hno. apply msum_zero. intros i a Hi. unfold evictable_of.
  destruct (Z.eqb_spec (a_lock a) 0) as [Hz|]; [|done].
  destruct (unlocked_leaf ps eagle root A i a Hps Hok Hl Hi Hz) as [j Hj]. by destruct (Hno j).
Qed.
