(* ===== verification/RadixSize.v ===== *)
(** * Sizes

    The traversal of [_total_size_helper] visits every node of the tree once, so
    [total_size] is the sum of the two counters the cache maintains. *)

From S2P Require Import Prelude RadixKey PrefixTree TreeNode Allocator Events RadixCache RadixInv.

Section total_size.
Context (c : RadixCache) (A : atree).
Hypothesis Hinv : Inv c A.
Let root := root_node c.

Definition restrict (V : gset nat) : atree := filter (λ q : nat * anode, q.1 ∈ V) A.

Lemma restrict_new V i a :
  A !! i = Some a → i ∉ V →
  msum (λ a, zlen (a_vals a)) (restrict ({[i]} ∪ V)) =
  zlen (a_vals a) + msum (λ a, zlen (a_vals a)) (restrict V).
Proof.
  intros Hi HV. assert (restrict ({[i]} ∪ V) = <[i := a]> (restrict V)) as ->.
  { apply map_eq. intros j. unfold restrict. destruct (decide (j = i)) as [->|Hji].
    - rewrite lookup_insert_eq, map_lookup_filter, Hi. cbn. rewrite option_guard_True; [done|set_solver].
    - rewrite lookup_insert_ne by done. rewrite !map_lookup_filter. destruct (A !! j); [|done]. cbn.
      destruct (decide (j ∈ V)).
      + rewrite !option_guard_True; [done|done|]. apply elem_of_union. by right.
      + rewrite !option_guard_False; [done|done|].
        by intros [?%elem_of_singleton|?]%elem_of_union. }
  apply msum_insert_new. unfold restrict. rewrite map_lookup_filter, Hi. cbn.
  by rewrite option_guard_False.
Qed.

Lemma present_children_all i a n :
  A !! i = Some a → nodes c !! i = Some n →
  present_children (nodes c) (dict_values (children n)) = Ok (dict_values (children n)).
Proof.
  intros Hi Hn. pose proof (rep_lookup _ _ _ (inv_rep c A Hinv) i a n Hi Hn) as Hr.
  assert (∀ j, j ∈ dict_values (children n) → ∃ b, A !! j = Some b) as Hall.
  { intros j ([k j'] & -> & Hj)%list_elem_of_fmap. apply dict_get_elem in Hj; [|apply Hr].
    apply Hr in Hj as (b & Hb & _). by exists b. }
  induction (dict_values (children n)) as [|j l IH]; [done|]. cbn [present_children].
  destruct (Hall j ltac:(by left)) as [b Hb]. destruct (inv_lookup c A j b Hinv Hb) as (m & Hm & Hrm).
  unfold get_node at 1. rewrite Hm, bind_ret, IH, bind_ret by (intros x Hx; apply Hall; by right).
  unfold evicted. by rewrite (rn_value _ _ _ _ _ Hrm).
Qed.

Lemma child_values i a n :
  A !! i = Some a → nodes c !! i = Some n →
  NoDup (dict_values (children n)) ∧ ∀ j, j ∈ dict_values (children n) ↔ child_of A i j.
Proof.
  intros Hi Hn. pose proof (rep_lookup _ _ _ (inv_rep c A Hinv) i a n Hi Hn) as Hr.
  assert (∀ j, j ∈ dict_values (children n) ↔ child_of A i j) as Hin.
  { intros j. split.
    - intros ([k j'] & -> & Hj)%list_elem_of_fmap. apply dict_get_elem in Hj; [|apply Hr].
      apply Hr in Hj as (b & Hb & Hp & _). by exists b.
    - intros (b & Hb & Hp).
      destruct (child_node_ok _ _ _ A (inv_tree c A Hinv) i j b Hb Hp) as (_ & pa & _ & Hno).
      pose proof (ok_child_key _ _ _ (inv_ps c A Hinv) _ _ _ Hno) as Hk.
      assert (dict_get _ (children n) = Some j) as Hg by (apply Hr; eauto).
      apply dict_get_elem in Hg; [|apply Hr]. apply list_elem_of_fmap. by eexists (_, j). }
  split; [|done]. pose proof (rn_nodup _ _ _ _ _ Hr) as Hnd.
  assert (∀ k1 k2 j, (k1, j) ∈ children n → (k2, j) ∈ children n → k1 = k2) as Hinj.
  { intros k1 k2 j H1 H2. apply dict_get_elem in H1, H2; [|done|done].
    apply Hr in H1 as (b1 & Hb1 & _ & E1). apply Hr in H2 as (b2 & Hb2 & _ & E2).
    same_lookup. congruence. }
  clear Hr Hin Hn. induction (children n) as [|[k j] l IH]; [constructor|]. cbn in *.
  apply NoDup_cons in Hnd as [Hk Hnd]. apply NoDup_cons. split.
  - intros ([k' j'] & E & Hj)%list_elem_of_fmap. cbn in E. subst j'. apply Hk.
    rewrite (Hinj k k' j ltac:(by left) ltac:(by right)). apply list_elem_of_fmap. by exists (k', j).
  - apply IH; [done|]. intros k1 k2 x H1 H2. apply (Hinj k1 k2 x); by right.
Qed.

Definition size_inv (m : nat) (st : list nat * Z) : Prop :=
  let '(stack, total) := st in
  ∃ V : gset nat, m = (base.size A - base.size V)%nat ∧ V ⊆ dom A ∧ NoDup stack ∧
    (∀ i, i ∈ stack → (i ∉ V) ∧ i ∈ dom A) ∧ (root ∈ V ∨ root ∈ stack) ∧
    (∀ i j, child_of A i j → i ∈ V → j ∈ V ∨ j ∈ stack) ∧
    (∀ i j, child_of A i j → j ∈ V ∨ j ∈ stack → i ∈ V) ∧
    total = msum (λ a, zlen (a_vals a)) (restrict V).

Lemma size_step_spec m st :
  size_inv m st →
  (∃ st' m', total_size_step c st = Ok (inl st') ∧ size_inv m' st' ∧ (m' < m)%nat) ∨
  (∃ r, total_size_step c st = Ok (inr r) ∧ r = msum (λ a, zlen (a_vals a)) A).
Proof.
  destruct st as [stack total]. intros (V & -> & HV & Hnd & Hst & Hroot & Hdown & Hup & ->).
  destruct stack as [|i stack].
  - right. eexists. split; [done|]. f_equal. apply map_eq. intros j. unfold restrict.
    rewrite map_lookup_filter. destruct (A !! j) as [b|] eqn:Hj; [|done]. cbn.
    rewrite option_guard_True; [done|]. revert j b Hj.
    refine (ok_ind _ _ _ A (inv_tree c A Hinv) (λ j _, j ∈ V) _ _).
    + intros. by destruct Hroot as [?|?%elem_of_nil].
    + intros j b p pb Hj _ Hp _ _ HpV. destruct (Hdown p j) as [?|?%elem_of_nil]; [by exists b|done..].
  - left. apply NoDup_cons in Hnd as [Hi Hnd]. destruct (Hst i ltac:(by left)) as [HiV [a Ha]%elem_of_dom].
    destruct (inv_lookup c A i a Hinv Ha) as (n & Hn & Hr).
    destruct (child_values i a n Ha Hn) as [Hcnd Hch]. cbn [total_size_step].
    rewrite (get_eq c i n Hn), bind_ret, (get_value_eq n _ (rn_value _ _ _ _ _ Hr)), bind_ret.
    rewrite (present_children_all i a n Ha Hn), bind_ret.
    assert (∀ j, j ∈ dict_values (children n) → (j ∉ V) ∧ j ≠ i ∧ (j ∉ stack)) as Hfresh.
    { intros j Hj. apply Hch in Hj. split_and!.
      - intros HjV. apply HiV, (Hup i j Hj). by left.
      - intros ->. destruct Hj as (b & Hb & Hp).
        pose proof (ok_parent_shorter _ _ _ A (inv_tree c A Hinv) i b i b Hb Hp Hb). lia.
      - intros Hjs. apply HiV, (Hup i j Hj). right. by right. }
    assert (base.size V < base.size A)%nat as Hlt.
    { rewrite <-size_dom. apply subset_size. split; [done|]. intros Hsub.
      apply HiV, Hsub, elem_of_dom. by exists a. }
    eexists _, (base.size A - base.size ({[i]} ∪ V))%nat. split; [done|]. split.
    2:{ rewrite size_union, size_singleton; [lia|]. by intros x ->%elem_of_singleton. }
    exists ({[i]} ∪ V). split; [done|].
    assert (∀ j, j ∈ ({[i]} : gset nat) ∪ V ↔ j = i ∨ j ∈ V) as HU.
    { intros j. by rewrite elem_of_union, elem_of_singleton. }
    split_and!.
    + intros j [->%elem_of_singleton|?]%elem_of_union; [apply elem_of_dom; by exists a|by apply HV].
    + apply NoDup_app. split; [by rewrite reverse_Permutation|]. split; [|done].
      intros j Hj Hs. rewrite elem_of_reverse in Hj. by apply Hfresh in Hj as (_ & _ & ?).
    + intros j [Hj|Hj]%elem_of_app.
      * rewrite elem_of_reverse in Hj. destruct (Hfresh j Hj) as (? & ? & ?).
        split; [by intros [?%elem_of_singleton|?]%elem_of_union|].
        apply Hch in Hj as (b & Hb & _). apply elem_of_dom. by exists b.
      * destruct (Hst j ltac:(by right)) as [? ?]. split; [|done]. intros [->%elem_of_singleton|?]%elem_of_union; done.
    + destruct Hroot as [?|[->|?]%elem_of_cons]; [left; apply HU; by right|left; apply HU; by left|right].
      apply elem_of_app. by right.
    + intros x y Hxy [->%elem_of_singleton|Hx]%elem_of_union.
      * right. apply elem_of_app. left. by apply elem_of_reverse, Hch.
      * destruct (Hdown x y Hxy Hx) as [?|[->|?]%elem_of_cons]; [left; apply HU; by right|left; apply HU; by left|].
        right. apply elem_of_app. by right.
    + intros x y Hxy [[->%elem_of_singleton|Hy]%elem_of_union|[Hy|Hy]%elem_of_app].
      * apply elem_of_union. right. apply (Hup x i Hxy). right. by left.
      * apply elem_of_union. right. apply (Hup x y Hxy). by left.
      * rewrite elem_of_reverse in Hy. apply Hch in Hy. destruct Hxy as (b & Hb & Hp), Hy as (b' & Hb' & Hp'). same_lookup. apply HU. by left.
      * apply elem_of_union. right. apply (Hup x y Hxy). right. by right.
    + rewrite (restrict_new V i a) by done. lia.
Qed.

Lemma total_size_sum : total_size c = Ok (msum (λ a, zlen (a_vals a)) A).
Proof.
  unfold total_size. fold root.
  destruct (while_total_ghost size_inv (λ r, r = msum (λ a, zlen (a_vals a)) A) (total_size_step c)
    size_step_spec (S (base.size (nodes c))) (base.size A) ([root], 0)) as (r & -> & ->); [| |done].
  - destruct (to_root _ _ _ A (inv_tree c A Hinv)) as (r & Hr & Hpar & _). exists ∅. split_and!.
    + rewrite size_empty. lia.
    + set_solver.
    + apply NoDup_singleton.
    + intros i ->%list_elem_of_singleton. split; [set_solver|]. apply elem_of_dom. by exists r.
    + right. by left.
    + intros i j _ Hi. set_solver.
    + intros i j (b & Hb & Hp) [?|?%list_elem_of_singleton]; [set_solver|subst j].
      fold root in Hr. same_lookup. congruence.
    + symmetry. apply msum_zero. intros i a. unfold restrict. rewrite map_lookup_filter.
      destruct (A !! i); [|done]. cbn. by rewrite option_guard_False by apply not_elem_of_empty.
  - pose proof (inv_size c A Hinv). lia.
Qed.

Lemma node_len i a : A !! i = Some a → zlen (a_vals a) = key_len (a_key a).
Proof.
  intros Hi. destruct (decide (i = root)) as [->|Hr].
  - destruct (to_root _ _ _ A (inv_tree c A Hinv)) as (r & Hr & _ & Hk & Hv & _). fold root in Hr.
    same_lookup. by rewrite Hk, Hv.
  - destruct (to_node _ _ _ A (inv_tree c A Hinv) i a Hi Hr) as (p & pa & _ & _ & Hno). apply Hno.
Qed.

Lemma node_len_nonneg i a : A !! i = Some a → 0 ≤ key_len (a_key a).
Proof. intros Hi. rewrite <-(node_len i a Hi). apply zlen_nonneg. Qed.

Lemma sizes_sum : msum (λ a, zlen (a_vals a)) A = evictable_size_ c + protected_size_ c.
Proof.
  rewrite (inv_evictable c A Hinv), (inv_protected c A Hinv), <-msum_add. apply msum_ext.
  intros i a Hi. rewrite (node_len i a Hi).
  unfold evictable_of, protected_of. destruct (a_lock a =? 0); lia.
Qed.
End total_size.
