(* ===== verification/RadixTheorems.v ===== *)
(** * What the radix cache promises

    The theorems about the public operations of [RadixCache], stated on the
    invariant [Inv] and the abstract map [cached].  Each is a short consequence of
    the specifications of the files before; the witnesses run the operations on a
    small cache. *)

From S2P Require Import Prelude RadixKey PrefixTree TreeNode Allocator Events RadixCache.
From S2P Require Import RadixInv RadixEvents RadixWalk RadixInsert RadixLock RadixEvict RadixSize.

(** ** A fresh cache *)

Definition root_tree (i : nat) : atree :=
  {[ i := mkA None (RadixKey_init [] None false None None) [] 1 0 [] [] ]}.

Lemma root_tree_lookup i j a : root_tree i !! j = Some a → j = i ∧ root_ok a ∧ a_held a = 0.
Proof.
  unfold root_tree. intros [<- <-]%lookup_singleton_Some. done.
Qed.

Lemma root_tree_children i x y : ¬ child_of (root_tree i) x y.
Proof. intros (b & [_ [[Hp _] _]]%root_tree_lookup & Hb). congruence. Qed.

Lemma reset_spec `{Clock} (c : RadixCache) :
  0 < cpage_size c → rec_page_size (kv_events c) = cpage_size c →
  (∀ i, is_Some (nodes c !! i) → (i < counter c)%nat) →
  Inv (reset c) (root_tree (counter c)) ∧ root_node (reset c) = counter c.
Proof.
  intros Hps Hrec Hb. split; [|done].
  assert (∀ j, nodes (reset c) !! j = if decide (j = counter c) then nodes (reset c) !! counter c else nodes c !! j) as Hn.
  { intros j. case_decide; [by subst|]. unfold reset. cbn.
    rewrite lookup_alter_ne by done. by rewrite lookup_insert_ne. }
  assert (∃ n, nodes (reset c) !! counter c = Some n ∧
    children n = [] ∧ parent n = None ∧ key n = RadixKey_init [] None false None None ∧
    value n = Some [] ∧ lock_ref n = 1 ∧ hash_value n = Some [] ∧ event_hash_value n = None)
    as (n & Hroot & N1 & N2 & N3 & N4 & N5 & N6 & N7).
  { unfold reset. cbn. rewrite lookup_alter_eq, lookup_insert_eq. by eexists. }
  assert (rec_page_size (record_all_cleared (kv_events c)) = rec_page_size (kv_events c)) as Hr.
  { unfold record_all_cleared. destruct (negb _); [done|]. apply enqueue_settings. }
  constructor; try done.
  - change (rec_page_size (record_all_cleared (kv_events c)) = cpage_size c). by rewrite Hr.
  - intros i a Hi. apply root_tree_lookup in Hi as (-> & (R1 & R2 & R3 & R4 & R5 & R6) & _).
    exists n. split; [done|]. constructor; try congruence.
    + rewrite N1. constructor.
    + intros k j. rewrite N1. split; [done|]. intros (b & Hb' & Hp & _). exfalso.
      apply (root_tree_children (counter c) (counter c) j). by exists b.
  - constructor.
    + eexists. split; [apply lookup_singleton_eq|done].
    + intros i a [-> _]%root_tree_lookup. done.
    + intros i j a b p [-> _]%root_tree_lookup [-> _]%root_tree_lookup. done.
  - intros i a Hi. pose proof Hi as [-> [(_ & _ & _ & -> & _) ->]]%root_tree_lookup. split_and!; done || lia.
  - symmetry. apply msum_zero. intros i a [_ [(_ & _ & _ & Hl & _) _]]%root_tree_lookup.
    unfold evictable_of. by rewrite Hl.
  - symmetry. apply msum_zero. intros i a [_ [(_ & Hk & _ & Hl & _) _]]%root_tree_lookup.
    unfold protected_of. by rewrite Hl, Hk.
  - intros i. split; [set_solver|]. intros (a & [_ [(_ & _ & _ & Hl & _) _]]%root_tree_lookup & Hz & _). lia.
  - intros i. rewrite Hn. change (counter (reset c)) with (S (counter c)). case_decide; [subst; lia|].
    intros Hi. pose proof (Hb i Hi). lia.
  - intros i a m Hi Hm. apply root_tree_lookup in Hi as (-> & (R1 & R2 & _) & _). same_lookup.
    constructor.
    + intros hs Hhs. rewrite N6 in Hhs. injection Hhs as <-. rewrite R2. split; [done|constructor].
    + congruence.
    + congruence.
Qed.

(** ** A concrete cache for the witnesses *)

Module Demo.
Definition clock0 : Clock := Z.of_nat.
Definition order0 : SetOrder := {| set_list := elements; set_list_elements _ := reflexivity _ |}.
(** One constant digest per page. *)
Definition hash0 : HashOps := {|
  native_hash k _ ps := replicate (Z.to_nat (key_len k / ps)) "00000000000000ff"%string;
  salt_digest s := s;
|}.
#[export] Existing Instances clock0 order0 hash0.

#[export] Instance hash_laws0 : HashLaws.
Proof.
  constructor. intros k prior ps Hwf Hps [q Hq]. pose proof (key_len_nonneg k Hwf) as Hnn.
  unfold hashes_for. cbn [native_hash hash0]. rewrite Hq, Z.div_mul by lia. split.
  - unfold zlen. rewrite length_replicate. nia.
  - apply Forall_replicate. vm_compute. done.
Qed.

#[export] Existing Instance TokenPool.token_allocator.

Definition params : CacheInitParams := mkCacheInitParams false 1 false false "LRU" true.
(** The pool has handed out the slots 1 to 6. *)
Definition al0 : Alloc := set_free_pages (Token.init 12 false) [7; 8; 9; 10; 11; 12].

Definition fresh : RadixCache :=
  Eval vm_compute in
    match RadixCache_init params al0 ∅ 0 0 with Ok c => c | Err _ => reset (mkCache false 1 false false LRUStrategy ∅ 0 0 0 0 0 ∅ (mkRecorder true 1 []) al0) end.

Lemma fresh_init : RadixCache_init params al0 ∅ 0 0 = Ok fresh.
Proof. vm_compute. reflexivity. Qed.

Lemma fresh_inv : Inv fresh (root_tree 0).
Proof.
  pose proof fresh_init as Hf. unfold RadixCache_init in Hf. cbn [mbind res_bind] in Hf.
  assert (get_eviction_strategy (lower (p_eviction_policy params)) = Ok LRUStrategy) as Hs by reflexivity.
  rewrite Hs in Hf. cbn [mbind res_bind] in Hf. apply (inj Ok) in Hf. rewrite <-Hf.
  apply reset_spec; [done|done|]. intros i [n Hn]. cbn [nodes] in Hn. by rewrite lookup_empty in Hn.
Qed.

Definition tokens (l : list Z) : RadixKey := RadixKey_init l None false None None.
Definition ins (l v : list Z) : InsertParams := mkInsertParams (tokens l) (Some v) false None.

Lemma ins_user c l : is_eagle c = false → user_key c (tokens l).
Proof. intros. split; [done|]. split; [done|]. done. Qed.

(** The cache after [1, 2, 3] and [1, 2, 4, 5] were stored. *)
Definition run_insert (p : InsertParams) (c : RadixCache) : RadixCache :=
  match insert p c with Ok (_, _, c') => c' | Err _ => c end.
Definition warm : RadixCache :=
  Eval vm_compute in run_insert (ins [1; 2; 4; 5] [1; 2; 4; 5]) (run_insert (ins [1; 2; 3] [1; 2; 3]) fresh).

Lemma insert_inv c A l v :
  Inv c A → disable c = false → is_eagle c = false → cpage_size c = 1 → length l = length v →
  ∃ A', Inv (run_insert (ins l v) c) A' ∧ extends A A' ∧
    tree_slots A' ≡ₚ drop (Z.to_nat (match insert (ins l v) c with Ok (n, _, _) => n | Err _ => 0 end)) v ++ tree_slots A.
Proof.
  intros Hinv Hd He Hp Hl.
  assert (query_units c (tokens l) = Tok <$> l) as Hq.
  { unfold query_units, maybe_to_bigram_view, page_aligned. rewrite He, Hp. cbn. unfold units. cbn.
    f_equal. unfold raw_token_ids, raw_len. cbn. by rewrite Z.eqb_refl. }
  assert (zlen (Tok <$> l) = zlen v) as Hlen by (unfold zlen; rewrite length_fmap; lia).
  destruct (insert_spec c A (ins l v) Hinv Hd (ins_user c l He)) as (n & i & c' & A' & a & es & Hrun & Hinv' & _ & _ & Hrow & Hins).
  { intros v' [= <-]. cbn. rewrite Hq. lia. }
  exists A'. unfold run_insert. rewrite Hrun. split; [done|]. split; [apply Hins|].
  rewrite (is_tree_slots _ _ _ _ _ _ _ _ _ _ Hins).
  assert (insert_row c (ins l v) = v) as ->; [|done].
  unfold insert_row, maybe_to_bigram_view, page_aligned. rewrite He, Hp.
  change (slice_to v (zlen l) = v). rewrite slice_to_take by (unfold zlen; lia).
  apply take_ge. unfold zlen. lia.
Qed.

Lemma paged_1 A : paged 1 A.
Proof. intros i a _. exists (a_vals a). by rewrite page_slots_1. Qed.

Lemma warm_tree : ∃ A, Inv warm A ∧ tree_slots A ≡ₚ [4; 5; 1; 2; 3].
Proof.
  destruct (insert_inv fresh (root_tree 0) [1; 2; 3] [1; 2; 3] fresh_inv) as (A1 & H1 & _ & S1);
    [vm_compute; reflexivity..|].
  destruct (insert_inv _ A1 [1; 2; 4; 5] [1; 2; 4; 5] H1) as (A2 & H2 & _ & S2);
    [vm_compute; reflexivity..|].
  assert (run_insert (ins [1; 2; 4; 5] [1; 2; 4; 5]) (run_insert (ins [1; 2; 3] [1; 2; 3]) fresh) = warm) as E
    by (vm_compute; reflexivity).
  rewrite E in H2. exists A2. split; [done|].
  assert (tree_slots (root_tree 0) = []) as E0 by (vm_compute; reflexivity). rewrite E0 in S1.
  match type of S1 with _ ≡ₚ ?l ++ _ => assert (l = [1; 2; 3]) as E1 by (vm_compute; reflexivity) end.
  match type of S2 with _ ≡ₚ ?l ++ _ => assert (l = [4; 5]) as E2 by (vm_compute; reflexivity) end.
  rewrite E1 in S1. rewrite E2 in S2. by rewrite S2, S1.
Qed.

Lemma warm_inv : ∃ A, Inv warm A ∧ kv_ok warm A.
Proof.
  destruct warm_tree as (A & HA & HS). exists A. split; [done|]. constructor.
  - reflexivity.
  - reflexivity.
  - change (cpage_size warm) with 1. apply paged_1.
  - rewrite HS. by_evaluation.
Qed.
End Demo.
Import (hints) Demo.

(** ** Prefix match *)

(** C3: a prefix match on a well-formed cache returns (nothing is raised, the walk
    ends), keeps the invariant and both size counters, and changes no cached row;
    its result is the row of KV slots cached for the longest page-aligned prefix
    of the key in the namespace of the key. *)
Theorem match_prefix_longest `{Clock} (c : RadixCache) (A : atree) (k : RadixKey) :
  Inv c A → disable c = false → user_key c k →
  let us := query_units c k in
  ∃ r c' A', match_prefix k c = Ok (r, c') ∧ Inv c' A' ∧ config c' = config c ∧
    (∀ ns us vs, cached (root_node c) A' ns us vs ↔ cached (root_node c) A ns us vs) ∧
    evictable_size_ c' = evictable_size_ c ∧ protected_size_ c' = protected_size_ c ∧
    let n := zlen (device_indices r) in
    (cpage_size c | n) ∧ n ≤ zlen us ∧
    cached (root_node c) A (namespace k) (take (Z.to_nat n) us) (device_indices r) ∧
    ∀ n' vs, (cpage_size c | n') → 0 ≤ n' ≤ zlen us →
      cached (root_node c) A (namespace k) (take (Z.to_nat n') us) vs → n' ≤ n.
Proof.
  intros Hinv Hd Hk us.
  destruct (match_prefix_spec c A k Hinv Hd Hk) as (r & c' & A' & a & Hrun & Hinv' & Hst & Hsame & Hw & Hs & Hlong).
  destruct (stable_config c c' Hst) as (Hcfg & Eps & Ee & Er & _ & Hes & Hps & _).
  exists r, c', A'. cbv zeta. split_and!; try done; try apply Hsame.
  - destruct Hw as (Hi & _ & Hm & Hp). rewrite <-Er in *.
    pose proof (ok_path_pages _ _ _ A' (inv_tree c' A' Hinv') _ a Hi) as Hdiv.
    by rewrite Eps, Hp, zlen_take in Hdiv by done.
  - apply Hw.
  - destruct Hw as (Hi & Hns & Hm & Hp). fold us in Hm, Hp.
    exists (last_device_node r), a. split; [done|]. split; [done|]. split; [by rewrite Hp|].
    rewrite Hs, length_take. unfold zlen in *. rewrite take_ge; [done|]. lia.
Qed.

Lemma match_prefix_longest_witness :
  ∃ r c' A A', Inv Demo.warm A ∧ match_prefix (Demo.tokens [1; 2; 4; 9]) Demo.warm = Ok (r, c') ∧
    Inv c' A' ∧ device_indices r = [1; 2; 4].
Proof.
  destruct Demo.warm_inv as (A & HA & _).
  destruct (match_prefix_longest Demo.warm A (Demo.tokens [1; 2; 4; 9]) HA) as (r & c' & A' & Hrun & Hinv' & _).
  - reflexivity.
  - apply Demo.ins_user. reflexivity.
  - exists r, c', A, A'. split; [exact HA|]. split; [exact Hrun|]. split; [exact Hinv'|].
    vm_compute in Hrun. injection Hrun as <- _. reflexivity.
Defined.

(** ** Insertion *)

(** C4: an insertion returns, keeps the invariant, and updates the map of cached
    rows exactly: it reports the length [n] of the longest page-aligned prefix that
    was cached before, keeps the slots of that prefix, adds the rest of the given
    row, and afterwards a sequence is cached iff it was cached before or is a
    prefix of the inserted one (with the slots of that row). *)
Theorem insert_updates_cached `{Clock} `{HashLaws} (c : RadixCache) (A : atree) (p : InsertParams) :
  Inv c A → disable c = false → user_key c (ins_key p) →
  (∀ v, ins_value p = Some v → zlen (query_units c (ins_key p)) ≤ zlen v) →
  let us := query_units c (ins_key p) in
  let ns := namespace (ins_key p) in
  ∃ n i c' A' row, insert p c = Ok (n, Some i, c') ∧ Inv c' A' ∧ config c' = config c ∧
    zlen row = zlen us ∧ 0 ≤ n ≤ zlen us ∧
    cached (root_node c) A ns (take (Z.to_nat n) us) (take (Z.to_nat n) row) ∧
    drop (Z.to_nat n) row = drop (Z.to_nat n) (insert_row c p) ∧
    (∀ n' vs, (cpage_size c | n') → 0 ≤ n' ≤ zlen us →
       cached (root_node c) A ns (take (Z.to_nat n') us) vs → n' ≤ n) ∧
    (∀ ns' us' vs, cached (root_node c) A' ns' us' vs ↔
       cached (root_node c) A ns' us' vs ∨
       (ns' = ns ∧ us' `prefix_of` us ∧ vs = take (length us') row)).
Proof.
  intros Hinv Hd Hk Hv us ns.
  destruct (insert_spec c A p Hinv Hd Hk Hv) as (n & i & c' & A' & a & es & Hrun & Hinv' & Hcfg & _ & Hrow & Hins).
  exists n, i, c', A', (a_slots a).
  destruct Hins as [Il Ir Iw Ip Is Ic Ie It Ipg].
  assert (zlen (a_slots a) = zlen us) as Hlen.
  { destruct (config_fields c c' Hcfg) as (_ & _ & _ & Er & _). rewrite <-Er in *.
    by apply (walk_len c' A' ns us i a _ Hinv'). }
  split_and!; try done; [apply Ir|apply Ir].
Qed.

Lemma insert_updates_cached_witness :
  ∃ n i c' A A', Inv Demo.warm A ∧
    insert (Demo.ins [1; 2; 3; 6] [1; 2; 20; 6]) Demo.warm = Ok (n, Some i, c') ∧ Inv c' A' ∧ n = 3.
Proof.
  destruct Demo.warm_inv as (A & HA & _).
  destruct (insert_updates_cached Demo.warm A (Demo.ins [1; 2; 3; 6] [1; 2; 20; 6]) HA)
    as (n & i & c' & A' & row & Hrun & Hinv' & _).
  - reflexivity.
  - apply Demo.ins_user. reflexivity.
  - intros v Hv. injection Hv as <-. vm_compute. congruence.
  - exists n, i, c', A, A'. split; [exact HA|]. split; [exact Hrun|]. split; [exact Hinv'|].
    vm_compute in Hrun. congruence.
Defined.

(** C15: what was inserted is found: a prefix match right after an insertion of the
    same key covers the whole page-aligned key, and from the reported prefix on
    its slots are those that were inserted. *)
Theorem insert_match_roundtrip `{Clock} `{HashLaws} (c : RadixCache) (A : atree) (p : InsertParams) :
  Inv c A → disable c = false → user_key c (ins_key p) →
  (∀ v, ins_value p = Some v → zlen (query_units c (ins_key p)) ≤ zlen v) →
  ∃ n i c1 r c2, insert p c = Ok (n, Some i, c1) ∧ match_prefix (ins_key p) c1 = Ok (r, c2) ∧
    zlen (device_indices r) = zlen (query_units c (ins_key p)) ∧
    drop (Z.to_nat n) (device_indices r) = drop (Z.to_nat n) (insert_row c p).
Proof.
  intros Hinv Hd Hk Hv.
  destruct (insert_spec c A p Hinv Hd Hk Hv) as (n & i & c1 & A1 & a & es & Hrun & Hinv1 & Hcfg & _ & Hrow & Hins).
  destruct (config_fields c c1 Hcfg) as (Ed & Eps & Ee & Er & _).
  assert (query_units c1 (ins_key p) = query_units c (ins_key p)) as Hq by (unfold query_units; by rewrite Ee, Eps).
  destruct (match_prefix_spec c1 A1 (ins_key p) Hinv1) as (r & c2 & A2 & b & Hrun2 & Hinv2 & Hst & Hsame & Hw & Hs & Hlong).
  { by rewrite Ed. }
  { destruct Hk as (? & ? & ?). split_and!; try done. by rewrite Ee. }
  rewrite Hq, Er, Eps in *. destruct Hins as [Il Ir Iw Ip Is Ic Ie It Ipg]. set (us := query_units c (ins_key p)) in *.
  exists n, i, c1, r, c2. split; [done|]. split; [done|].
  assert (cached (root_node c) A1 (namespace (ins_key p)) us (a_slots a)) as Hc.
  { apply Ic. right. split_and!; try done. symmetry. apply take_ge.
    rewrite <-Er in Iw. pose proof (walk_len c1 A1 _ us i a _ Hinv1 Iw). unfold zlen in *. lia. }
  assert (zlen (device_indices r) = zlen us) as Hlen.
  { destruct Hw as (_ & _ & Hm & _). enough (zlen us ≤ zlen (device_indices r)) by lia.
    eapply (Hlong (zlen us) (a_slots a)).
    - rewrite <-Eps, <-Er in *. pose proof (ok_path_pages _ _ _ A1 (inv_tree c1 A1 Hinv1) i a (proj1 Iw)) as Hdiv.
      destruct Iw as (_ & _ & _ & Hp). by rewrite Hp, take_zlen in Hdiv.
    - pose proof (zlen_nonneg us). lia.
    - by rewrite take_zlen. }
  split; [done|]. rewrite <-Is. f_equal.
  eapply (cached_functional (cpage_size c1) (is_eagle c1) (root_node c1) (inv_ps c1 A1 Hinv1) A1
    (inv_tree c1 A1 Hinv1) (namespace (ins_key p)) us).
  - destruct Iw as (Hi & _ & _ & Hp). pose proof (ok_path_pages _ _ _ A1 (inv_tree c1 A1 Hinv1) i a Hi) as Hdiv.
    by rewrite Hp, take_zlen in Hdiv.
  - rewrite Er. apply (sc_cached _ _ _ _ Hsame). destruct Hw as (Hi & Hns & _ & Hp).
    exists (last_device_node r), b. split_and!; try done.
    + by rewrite Hp, Hlen, take_zlen.
    + rewrite Hs. symmetry. apply take_ge. unfold zlen in *. lia.
  - by rewrite Er.
Qed.

Lemma insert_match_roundtrip_witness :
  ∃ n i c1 r c2, insert (Demo.ins [1; 2; 3; 6] [1; 2; 20; 6]) Demo.warm = Ok (n, Some i, c1) ∧
    match_prefix (Demo.tokens [1; 2; 3; 6]) c1 = Ok (r, c2) ∧ zlen (device_indices r) = 4 ∧
    drop (Z.to_nat n) (device_indices r) = [6].
Proof.
  destruct Demo.warm_inv as (A & HA & _).
  destruct (insert_match_roundtrip Demo.warm A (Demo.ins [1; 2; 3; 6] [1; 2; 20; 6]) HA)
    as (n & i & c1 & r & c2 & Hrun & Hrun2 & Hlen & Hdrop).
  - reflexivity.
  - apply Demo.ins_user. reflexivity.
  - intros v Hv. injection Hv as <-. vm_compute. congruence.
  - exists n, i, c1, r, c2. split; [exact Hrun|]. split; [exact Hrun2|]. split; [exact Hlen|].
    rewrite Hdrop. vm_compute in Hrun. injection Hrun as <- _ _. reflexivity.
Defined.

(** ** Eviction *)

(** C13: eviction refines the abstract run: it returns, keeps the invariant, and
    what it did is a sequence of removals, each of an unlocked leaf that the
    configured strategy ranks no later than any other unlocked leaf at that
    moment; it goes on until [need] tokens are freed or no unlocked leaf is left,
    and the count it returns is the number of tokens of the removed nodes. *)
Theorem evict_refines_run `{SetOrder} `{HashLaws} `{KVAllocator} (c : RadixCache) (A : atree) (need : Z) :
  Inv c A → kv_ok c A → disable c = false →
  ∃ num c' A' victims, evict need c = Ok (num, c') ∧ Inv c' A' ∧ kv_ok c' A' ∧
    evict_run (evicts_before c) need A victims A' num ∧
    (need ≤ num ∨ ∀ i, ¬ is_leaf A' i) ∧
    NoDup victims ∧ num = zsum ((λ x, from_option (λ a, key_len (a_key a)) 0 (A !! x)) <$> victims).
Proof.
  intros Hinv Hkv Hd. destruct (evict_spec c A need Hinv Hkv Hd) as (num & c' & Hrun & A' & xs & Hinv' & Hkv' & _ & Hr & Hstop & _).
  destruct (evict_run_victims _ _ _ _ _ _ Hr) as (Hnd & _ & Hsum). exists num, c', A', xs. by split_and!.
Qed.

Lemma evict_refines_run_witness :
  ∃ num c' A A' victims, Inv Demo.warm A ∧ evict 2 Demo.warm = Ok (num, c') ∧ Inv c' A' ∧
    evict_run (evicts_before Demo.warm) 2 A victims A' num ∧ num = 3.
Proof.
  destruct Demo.warm_inv as (A & HA & HK).
  destruct (evict_refines_run Demo.warm A 2 HA HK) as (num & c' & A' & xs & Hrun & Hinv' & _ & Hr & _).
  - reflexivity.
  - exists num, c', A, A', xs. split; [exact HA|]. split; [exact Hrun|]. split; [exact Hinv'|].
    split; [exact Hr|]. vm_compute in Hrun. congruence.
Defined.

(** Eviction frees enough and only what it may: at least [need] tokens or all
    evictable ones, the evictable counter drops by exactly the returned count, the
    protected counter stays, and every locked node is still there with its row. *)
Theorem evict_frees_enough `{SetOrder} `{HashLaws} `{KVAllocator} (c : RadixCache) (A : atree) (need : Z) :
  Inv c A → kv_ok c A → disable c = false →
  ∃ num c' A', evict need c = Ok (num, c') ∧ Inv c' A' ∧
    Z.min need (evictable_size_ c) ≤ num ∧
    evictable_size_ c' = evictable_size_ c - num ∧ protected_size_ c' = protected_size_ c ∧
    (∀ i a, A !! i = Some a → 0 < a_lock a → A' !! i = Some a) ∧
    (∀ i a, A' !! i = Some a → A !! i = Some a).
Proof.
  intros Hinv Hkv Hd. destruct (evict_spec c A need Hinv Hkv Hd)
    as (num & c' & Hrun & A' & xs & Hinv' & Hkv' & _ & Hr & Hstop & _ & Hes & Hps).
  exists num, c', A'. split_and!; try done.
  - destruct Hstop as [?|Hno]; [lia|].
    pose proof (no_leaf_nothing_evictable _ _ _ A' (inv_ps c' A' Hinv') (inv_tree c' A' Hinv') (inv_locks c' A' Hinv') Hno) as Hz.
    rewrite <-(inv_evictable c' A' Hinv'), Hes in Hz. lia.
  - intros i a Hi Hl. eapply evict_run_locked; [exact Hr|done|lia].
  - intros i a. by eapply evict_run_subset.
Qed.

Lemma evict_frees_enough_witness :
  ∃ num c', evict 100 Demo.warm = Ok (num, c') ∧ Z.min 100 (evictable_size_ Demo.warm) ≤ num ∧
    evictable_size_ c' = 0.
Proof.
  destruct Demo.warm_inv as (A & HA & HK).
  destruct (evict_frees_enough Demo.warm A 100 HA HK) as (num & c' & A' & Hrun & _ & Hmin & Hes & _).
  - reflexivity.
  - exists num, c'. split; [exact Hrun|]. split; [exact Hmin|].
    vm_compute in Hrun. injection Hrun as <- <-. reflexivity.
Defined.

(** Eviction neither leaks nor double-frees KV slots: the slots of the tree
    together with the slots of the allocator's pool are the same multiset before
    and after, without duplicates, and the tree still holds whole pages only. *)
Theorem evict_conserves_slots `{SetOrder} `{HashLaws} `{KVAllocator} (c : RadixCache) (A : atree) (need : Z) :
  Inv c A → kv_ok c A → disable c = false →
  let slots c A := tree_slots A ++ Paged.page_slots (cpage_size c) (pool (kv_allocator c)) in
  ∃ num c' A', evict need c = Ok (num, c') ∧ Inv c' A' ∧ slots c' A' ≡ₚ slots c A ∧
    NoDup (slots c' A') ∧ paged (cpage_size c) A'.
Proof.
  intros Hinv Hkv Hd slots. destruct (evict_spec c A need Hinv Hkv Hd)
    as (num & c' & Hrun & A' & xs & Hinv' & Hkv' & Hset & Hr & Hstop & Hcons & _).
  destruct (settings_fields c c' Hset) as (_ & Eps & _).
  exists num, c', A'. unfold slots. rewrite Eps. split_and!; try done.
  - rewrite <-Eps. apply Hkv'.
  - rewrite <-Eps. apply Hkv'.
Qed.

Lemma evict_conserves_slots_witness :
  ∃ num c' A A', Inv Demo.warm A ∧ evict 2 Demo.warm = Ok (num, c') ∧
    tree_slots A' ++ Paged.page_slots 1 (pool (kv_allocator c')) ≡ₚ tree_slots A ++ [7; 8; 9; 10; 11; 12].
Proof.
  destruct Demo.warm_inv as (A & HA & HK).
  destruct (evict_conserves_slots Demo.warm A 2 HA HK) as (num & c' & A' & Hrun & _ & Hcons & _).
  - reflexivity.
  - exists num, c', A, A'. split; [exact HA|]. split; [exact Hrun|].
    assert (cpage_size c' = 1) as E by (vm_compute in Hrun; injection Hrun as _ <-; reflexivity).
    rewrite E in Hcons. exact Hcons.
Defined.

(** ** Locks *)

(** [inc_lock_ref] on a node of the tree walks to the root without raising and
    adds one to the lock count of exactly the nodes on that path; the reported
    delta is the change of the evictable counter, the protected counter moves the
    other way, and no node on the path is an evictable leaf afterwards. *)
Theorem inc_lock_ref_protects (c : RadixCache) (A : atree) (i : nat) (a : anode) :
  Inv c A → A !! i = Some a → disable c = false →
  ∃ delta c' A', inc_lock_ref i c = Ok (delta, c') ∧ Inv c' A' ∧ config c' = config c ∧
    relocked (root_node c) A A' i 1 ∧
    evictable_size_ c' = evictable_size_ c + delta ∧
    protected_size_ c' = protected_size_ c - delta ∧
    ∀ j, anc A j i → j ∉ evictable_leaves c'.
Proof.
  intros Hinv Hi Hd. destruct (inc_lock_ref_spec c A i a Hinv Hi Hd)
    as (delta & c' & A' & Hrun & Hinv' & Hcfg & _ & Hre & Hes & Hps).
  exists delta, c', A'. split_and!; try done. intros j Hji Hj.
  apply (inv_leaves c' A' Hinv') in Hj as (b & Hb & Hz & _). pose proof Hre as [Hdom Hre'].
  destruct (A !! j) as [b0|] eqn:Hj0; [|by rewrite (Hdom j Hj0) in Hb].
  pose proof (proj1 (inv_locks c A Hinv j b0 Hj0)) as Hnn.
  destruct (Hre' j b0 Hj0) as (b' & Hb' & _ & _ & [(_ & _ & Hl)|[[?|Hr] Hl]]); same_lookup; [lia|done|].
  destruct (to_root _ _ _ A (inv_tree c A Hinv)) as (r & Hroot & _ & _ & _ & Hone & _).
  rewrite Hr in Hj0. same_lookup. lia.
Qed.

Lemma inc_lock_ref_protects_witness :
  ∃ A a delta c', Inv Demo.warm A ∧ A !! 3%nat = Some a ∧
    inc_lock_ref 3 Demo.warm = Ok (delta, c') ∧ delta = -4 ∧ (3%nat ∉ evictable_leaves c').
Proof.
  destruct Demo.warm_inv as (A & HA & _).
  assert (∃ a, A !! 3%nat = Some a) as (a & Ha).
  { assert (3%nat ∈ evictable_leaves Demo.warm) as H3 by by_evaluation.
    apply (inv_leaves _ _ HA) in H3 as (a & Ha & _). by exists a. }
  destruct (inc_lock_ref_protects Demo.warm A 3%nat a HA Ha) as (delta & c' & A' & Hrun & _ & _ & _ & _ & _ & Hno).
  - reflexivity.
  - exists A, a, delta, c'. split; [exact HA|]. split; [exact Ha|]. split; [exact Hrun|].
    split; [vm_compute in Hrun; congruence|]. apply Hno. apply rtc_refl.
Defined.

(** A lock taken and given back leaves no trace: [dec_lock_ref] after
    [inc_lock_ref] on the same node restores the very same tree (keys, rows, lock
    counts, holders) and both counters. *)
Theorem lock_roundtrip (c : RadixCache) (A : atree) (i : nat) (a : anode) :
  Inv c A → A !! i = Some a → disable c = false →
  ∃ d1 c1 d2 c2, inc_lock_ref i c = Ok (d1, c1) ∧ dec_lock_ref i c1 = Ok (d2, c2) ∧ Inv c2 A ∧
    config c2 = config c ∧ evictable_size_ c2 = evictable_size_ c ∧
    protected_size_ c2 = protected_size_ c ∧ evictable_leaves c2 = evictable_leaves c.
Proof.
  intros Hinv Hi Hd. destruct (inc_lock_ref_spec c A i a Hinv Hi Hd)
    as (d1 & c1 & A1 & Hrun1 & Hinv1 & Hcfg1 & _ & Hre1 & Hes1 & Hps1).
  destruct (config_fields c c1 Hcfg1) as (Ed & _ & _ & Er & _).
  destruct (proj2 Hre1 i a Hi) as (a1 & Hi1 & _ & Hh & _).
  destruct (dec_lock_ref_spec c1 A1 i a1 Hinv1 Hi1) as (d2 & c2 & A2 & Hrun2 & Hinv2 & Hcfg2 & _ & Hre2 & Hes2 & Hps2).
  { by rewrite Ed. }
  { rewrite Er. intros Hr. rewrite decide_True in Hh by done. pose proof (proj1 (proj2 (inv_locks c A Hinv i a Hi))). lia. }
  rewrite Er in Hre2. pose proof (relocked_inverse _ _ _ _ _ 1 Hre1 Hre2) as ->.
  exists d1, c1, d2, c2. split_and!; try done.
  - by rewrite Hcfg2.
  - by rewrite (inv_evictable c2 A Hinv2), (inv_evictable c A Hinv).
  - by rewrite (inv_protected c2 A Hinv2), (inv_protected c A Hinv).
  - apply set_eq. intros j. by rewrite (inv_leaves c2 A Hinv2), (inv_leaves c A Hinv).
Qed.

Lemma lock_roundtrip_witness :
  ∃ A d1 c1 d2 c2, Inv Demo.warm A ∧ inc_lock_ref 3 Demo.warm = Ok (d1, c1) ∧
    dec_lock_ref 3 c1 = Ok (d2, c2) ∧ Inv c2 A ∧ d1 = -4 ∧ d2 = 4.
Proof.
  destruct Demo.warm_inv as (A & HA & _).
  assert (∃ a, A !! 3%nat = Some a) as (a & Ha).
  { assert (3%nat ∈ evictable_leaves Demo.warm) as H3 by by_evaluation.
    apply (inv_leaves _ _ HA) in H3 as (a & Ha & _). by exists a. }
  destruct (lock_roundtrip Demo.warm A 3%nat a HA Ha) as (d1 & c1 & d2 & c2 & Hrun1 & Hrun2 & Hinv2 & _).
  - reflexivity.
  - exists A, d1, c1, d2, c2. split; [exact HA|]. split; [exact Hrun1|]. split; [exact Hrun2|].
    split; [exact Hinv2|]. vm_compute in Hrun1. injection Hrun1 as <- <-.
    vm_compute in Hrun2. injection Hrun2 as <- _. done.
Defined.

(** ** A locked prefix survives *)

(** A match covers every aligned prefix of the key that is cached. *)
Lemma match_covers_cached `{Clock} c A k n vs :
  Inv c A → disable c = false → user_key c k →
  (cpage_size c | n) → 0 ≤ n ≤ zlen (query_units c k) →
  cached (root_node c) A (namespace k) (take (Z.to_nat n) (query_units c k)) vs →
  ∃ r c', match_prefix k c = Ok (r, c') ∧ vs `prefix_of` device_indices r.
Proof.
  intros Hinv Hd Hk Hdiv Hn Hvs. set (us := query_units c k) in *.
  destruct (match_prefix_spec c A k Hinv Hd Hk) as (r & c' & A' & a & Hrun & _ & _ & Hsame & Hw & Hs & Hlong).
  fold us in Hw, Hlong. destruct Hw as (Hi & Hns & Hm & Hp). exists r, c'. split; [done|].
  assert (n ≤ zlen (device_indices r)) as Hle by by eapply Hlong.
  assert (cached (root_node c) A (namespace k) (take (Z.to_nat n) us) (take (Z.to_nat n) (device_indices r))) as Hc.
  { rewrite <-(sc_cached _ _ _ _ Hsame). exists (last_device_node r), a. split; [done|]. split; [done|]. split.
    - rewrite Hp. exists (drop (Z.to_nat n) (take (Z.to_nat (zlen (device_indices r))) us)).
      rewrite <-(take_drop (Z.to_nat n) (take (Z.to_nat (zlen (device_indices r))) us)) at 1.
      rewrite take_take, Nat.min_l by lia. done.
    - rewrite Hs, length_take. f_equal. unfold zlen in *. lia. }
  assert (take (Z.to_nat n) (device_indices r) = vs) as <-.
  { eapply (cached_functional _ _ _ (inv_ps c A Hinv) A (inv_tree c A Hinv)); [|exact Hc|exact Hvs].
    by rewrite zlen_take. }
  apply prefix_take.
Qed.

(** C14: the way requests use the cache is safe: match a key, lock the node the match
    ended at, then let anything be evicted.  Everything succeeds, and matching the
    key again finds at least the same prefix, in the same slots. *)
Theorem locked_prefix_survives `{Clock} `{SetOrder} `{HashLaws} `{KVAllocator}
    (c : RadixCache) (A : atree) (k : RadixKey) (need : Z) :
  Inv c A → kv_ok c A → disable c = false → user_key c k →
  ∃ r1 c1 d c2 num c3 r2 c4,
    match_prefix k c = Ok (r1, c1) ∧ inc_lock_ref (last_device_node r1) c1 = Ok (d, c2) ∧
    evict need c2 = Ok (num, c3) ∧ match_prefix k c3 = Ok (r2, c4) ∧
    device_indices r1 `prefix_of` device_indices r2.
Proof.
  intros Hinv Hkv Hd Hk.
  destruct (match_prefix_spec c A k Hinv Hd Hk) as (r1 & c1 & A1 & a1 & Hrun1 & Hinv1 & Hst1 & Hsame1 & Hw1 & Hs1 & _).
  destruct (stable_config c c1 Hst1) as (Hcfg1 & _). destruct (config_fields c c1 Hcfg1) as (Ed1 & Eps1 & Ee1 & Er1 & _ & Eal1).
  pose proof Hw1 as (Hi1 & Hns1 & Hm1 & Hp1).
  destruct (inc_lock_ref_spec c1 A1 _ a1 Hinv1 Hi1) as (d & c2 & A2 & Hrun2 & Hinv2 & Hcfg2 & _ & Hre & _); [by rewrite Ed1|].
  destruct (config_fields c1 c2 Hcfg2) as (Ed2 & Eps2 & Ee2 & Er2 & _ & Eal2).
  assert (kv_ok c2 A2) as Hkv2.
  { destruct Hkv. constructor; rewrite ?Eal2, ?Eal1, ?Eps2, ?Eps1; try done.
    - eapply relocked_paged; [exact Hre|]. by apply Hsame1.
    - rewrite (relocked_tree_slots _ _ _ _ _ Hre), (sc_slots _ _ _ _ Hsame1). done. }
  destruct (evict_spec c2 A2 need Hinv2 Hkv2) as (num & c3 & Hrun3 & A3 & xs & Hinv3 & _ & Hset3 & Hr3 & _); [by rewrite Ed2, Ed1|].
  destruct (settings_fields c2 c3 Hset3) as (Ed3 & Eps3 & Ee3 & Er3 & _).
  assert (user_key c3 k) as Hk3.
  { destruct Hk as (? & ? & ?). split_and!; try done. by rewrite Ee3, Ee2, Ee1. }
  assert (query_units c3 k = query_units c k) as Hq.
  { unfold query_units. by rewrite Ee3, Ee2, Ee1, Eps3, Eps2, Eps1. }
  (* the locked node survives, so its row is still cached *)
  set (us := query_units c k) in *. set (n := zlen (device_indices r1)) in *.
  assert (cached (root_node c3) A3 (namespace k) (take (Z.to_nat n) us) (device_indices r1)) as Hc3.
  { destruct (proj2 Hre _ a1 Hi1) as (a2 & Hi2 & (S1 & S2 & S3 & S4 & S5) & _ & Hcase).
    exists (last_device_node r1), a2. rewrite S2, S4, S5, Hs1, Er3, Er2, Er1. split.
    - eapply evict_run_locked; [exact Hr3|done|]. pose proof (proj1 (inv_locks c1 A1 Hinv1 _ a1 Hi1)).
      destruct Hcase as [(_ & _ & Hl)|[[Hna|Hr] Hl]]; [lia|by destruct Hna; apply rtc_refl|].
      destruct (to_root _ _ _ A1 (inv_tree c1 A1 Hinv1)) as (r & Hroot & _ & _ & _ & Hone & _).
      rewrite Hr in Hi1. same_lookup. lia.
    - split; [done|]. split; [by rewrite Hp1|]. rewrite length_take. symmetry. apply take_ge.
      unfold n, zlen in *. lia. }
  assert ((cpage_size c3 | n)) as Hdiv.
  { rewrite Eps3, Eps2. pose proof (ok_path_pages _ _ _ A1 (inv_tree c1 A1 Hinv1) _ a1 Hi1) as Hdv.
    by rewrite Hp1, zlen_take in Hdv. }
  destruct (match_covers_cached c3 A3 k n (device_indices r1) Hinv3) as (r2 & c4 & Hrun4 & Hpre);
    [by rewrite Ed3, Ed2, Ed1|done|done|by rewrite Hq|by rewrite Hq|].
  by exists r1, c1, d, c2, num, c3, r2, c4.
Qed.

Lemma locked_prefix_survives_witness :
  ∃ r1 c1 d c2 num c3 r2 c4,
    match_prefix (Demo.tokens [1; 2; 4; 9]) Demo.warm = Ok (r1, c1) ∧
    inc_lock_ref (last_device_node r1) c1 = Ok (d, c2) ∧ evict 100 c2 = Ok (num, c3) ∧
    match_prefix (Demo.tokens [1; 2; 4; 9]) c3 = Ok (r2, c4) ∧
    device_indices r1 `prefix_of` device_indices r2 ∧ num = 2 ∧ device_indices r2 = [1; 2; 4].
Proof.
  destruct Demo.warm_inv as (A & HA & HK).
  destruct (locked_prefix_survives Demo.warm A (Demo.tokens [1; 2; 4; 9]) 100 HA HK)
    as (r1 & c1 & d & c2 & num & c3 & r2 & c4 & H1 & H2 & H3 & H4 & H5).
  - reflexivity.
  - apply Demo.ins_user. reflexivity.
  - exists r1, c1, d, c2, num, c3, r2, c4. do 5 (split; [assumption|]).
    vm_compute in H1. injection H1 as <- <-. vm_compute in H2. injection H2 as <- <-.
    vm_compute in H3. injection H3 as <- <-. vm_compute in H4. injection H4 as <- <-. done.
Defined.

(** ** Sizes *)

(** C28: the traversal of [total_size] terminates and returns the sum of the two
    counters: evictable plus protected tokens account for every token of the tree. *)
Theorem total_size_accounts (c : RadixCache) (A : atree) :
  Inv c A → total_size c = Ok (evictable_size_ c + protected_size_ c) ∧
            0 ≤ evictable_size_ c ∧ 0 ≤ protected_size_ c.
Proof.
  intros Hinv. rewrite (total_size_sum c A Hinv), (sizes_sum c A Hinv). split; [done|].
  rewrite (inv_evictable c A Hinv), (inv_protected c A Hinv).
  split; apply msum_nonneg; intros i a Hi; pose proof (node_len_nonneg c A Hinv i a Hi);
    unfold evictable_of, protected_of; by case_match.
Qed.

Lemma total_size_accounts_witness :
  ∃ A, Inv Demo.warm A ∧ total_size Demo.warm = Ok (evictable_size_ Demo.warm + protected_size_ Demo.warm) ∧
       total_size Demo.warm = Ok 5.
Proof.
  destruct Demo.warm_inv as (A & HA & _).
  destruct (total_size_accounts Demo.warm A HA) as (Ht & _).
  exists A. split; [exact HA|]. split; [exact Ht|]. vm_compute. reflexivity.
Defined.
