(* ===== verification/ReqCache.v ===== *)
(** * Requests in the prefix cache

    The operations that move KV slots between a request's row, the radix tree
    and the allocator: [RadixCache.cache_finished_req] and
    [cache_unfinished_req] ([mem_cache/radix_cache.py]), [free_kv_row] of
    [BasePrefixCache], and the helpers of [mem_cache/common.py] that release a
    request or make room for one.

    The allocator keeps full-attention slots only, so [free_full] is [free] of
    the base class and the sliding-window arms of the helpers are left out. *)

From S2P Require Import Prelude RadixKey TreeNode Allocator Events RadixCache ReqPool.

(** What [RadixCache] and the helpers need of the allocator besides the contract
    of the prefix cache: the plain [free]. *)
Class KVFree := kv_free : list Z → Alloc → res Alloc.

Section operations.
Context `{Clock} `{SetOrder} `{HashOps} `{KVAllocator} `{KVFree}.

(** The key under which a request's tokens are stored. *)
Definition req_key (c : RadixCache) (r : Req) (token_ids : list Z) : RadixKey :=
  page_aligned (RadixKey_init token_ids (req_extra_key r) (is_eagle c) None (req_cache_salt r))
    (cpage_size c).

(** [getattr(req, "priority", 0) or 0] *)
Definition priority_of (r : Req) : Z := default 0 (req_priority r).

Definition cache_finished_req (r : Req) (is_insert : bool) (kv_len_to_handle : Z)
    (p : ReqToTokenPool) (c : RadixCache) : res RadixCache :=
  let is_insert := if disable_finished_insert c then false else is_insert in
  let protected_len := cache_protected_len (kv r) in
  row ← get_row p (req_pool_idx (kv r));
  if disable c then
    let kv_indices := slice row protected_len kv_len_to_handle in
    a ← kv_free_segment kv_indices protected_len (kv_allocator c);
    Ok (set_kv_allocator c a)
  else
    let token_ids := slice_to (origin_input_ids r ++ output_ids r) kv_len_to_handle in
    let kv_indices := slice_to row (zlen token_ids) in
    let radix_key := req_key c r token_ids in
    let klen := key_len radix_key in
    let values := slice_to kv_indices klen in
    '(freed_end, c) ←
      (if is_insert then
         '(prefix_len, _, c) ←
           insert (mkInsertParams radix_key (Some values) false (Some (priority_of r))) c;
         Ok (prefix_len, c)
       else Ok (klen, c));
    a ← kv_free_segments
          [(slice kv_indices protected_len freed_end, protected_len);
           (slice_from kv_indices klen, klen)] (kv_allocator c);
    let c := set_kv_allocator c a in
    match last_node r with
    | Some i => '(_, c) ← dec_lock_ref i c; Ok c
    | None => Ok c
    end.

Definition cache_unfinished_req (r : Req) (chunked : bool) (p : ReqToTokenPool) (c : RadixCache)
    : res (Req * ReqToTokenPool * RadixCache) :=
  if disable c then Ok (r, p, c)
  else
    let protected_len := cache_protected_len (kv r) in
    token_ids ← get_fill_ids r;
    row ← get_row p (req_pool_idx (kv r));
    let kv_indices := slice_to row (zlen token_ids) in
    let radix_key := req_key c r token_ids in
    let values := slice_to kv_indices (key_len radix_key) in
    '(new_prefix_len, _, c) ←
      insert (mkInsertParams radix_key (Some values) chunked (Some (priority_of r))) c;
    a ← kv_free_segment (slice kv_indices protected_len new_prefix_len) protected_len
          (kv_allocator c);
    let c := set_kv_allocator c a in
    '(match_result, c) ← match_prefix radix_key c;
    let new_indices := device_indices match_result in
    let new_last_node := last_device_node match_result in
    if negb (zlen new_indices =? key_len radix_key) then Err AssertionError
    else
      p ← write (req_pool_idx (kv r)) protected_len (zlen new_indices)
            (slice_from new_indices protected_len) p;
      let r := set_kv r (set_cache_protected_len (kv r) (zlen new_indices)) in
      '(_, c) ← match last_node r with
                | Some i => dec_lock_ref i c
                | None => Err AttributeError
                end;
      '(_, c) ← inc_lock_ref new_last_node c;
      (* [kv_indices] is a view of the row, so it sees the write above. *)
      row ← get_row p (req_pool_idx (kv r));
      let kv_indices := slice_to row (zlen token_ids) in
      let r :=
        if zlen new_indices <? zlen kv_indices
        then set_prefix_indices r (new_indices ++ slice_from kv_indices (zlen new_indices))
        else set_prefix_indices r new_indices in
      Ok (set_last_node r (Some new_last_node), p, c).

Definition maybe_cache_unfinished_req (r : Req) (chunked : bool) (p : ReqToTokenPool)
    (c : RadixCache) : res (Req * ReqToTokenPool * RadixCache) :=
  if skip_radix_cache_insert r then Ok (r, p, c) else cache_unfinished_req r chunked p c.

(** ** [free_kv_row_segments] *)

(** The loop that splits the segments at the eviction floor. *)
Fixpoint split_segments (floor : Z) (segments : list (list Z * Z))
    : list (list Z) * list (list Z * Z) :=
  match segments with
  | [] => ([], [])
  | (kv_indices, start_pos) :: segments =>
      let '(dead, alive) := split_segments floor segments in
      let num_indices := zlen kv_indices in
      if num_indices =? 0 then (dead, alive)
      else
        let num_dead := Z.min (Z.max (floor - start_pos) 0) num_indices in
        (if num_dead >? 0 then slice_to kv_indices num_dead :: dead else dead,
         if num_dead <? num_indices
         then (slice_from kv_indices num_dead, start_pos + num_dead) :: alive else alive)
  end.

Definition free_kv_row_segments (segments : list (list Z * Z)) (floor : Z) (a : Alloc) : res Alloc :=
  let '(swa_dead, swa_alive) := split_segments floor segments in
  if negb (zlen swa_dead =? 0) && negb (zlen swa_alive =? 0) &&
     negb (floor mod page_size a =? 0)
  then Err AssertionError
  else
    a ← match swa_dead with
        | [] => Ok a
        | [d] => kv_free d a
        | _ => kv_free (concat swa_dead) a
        end;
    match swa_alive with [] => Ok a | _ => kv_free_segments swa_alive a end.

Definition free_kv_row (k : ReqKvInfo) (ranges : list (Z * Z)) (p : ReqToTokenPool) (a : Alloc)
    : res Alloc :=
  row ← get_row p (req_pool_idx k);
  free_kv_row_segments ((λ '(s, e), (slice row s e, s)) <$> ranges) (swa_evicted_seqlen k) a.

(** ** Making room and releasing *)

(** [tree_cache is None] is a cache-less caller. *)
Definition evict_from_tree_cache (num_tokens : Z) (c : RadixCache) : res RadixCache :=
  let available_size := kv_available (kv_allocator c) in
  if available_size <? num_tokens then
    '(_, c) ← evict (num_tokens - available_size) c; Ok c
  else Ok c.

(** [no_overalloc] is [spec_algo is None and not strip_thinking_cache]. *)
Definition release_overallocated_kv_indices (no_overalloc : bool) (k : ReqKvInfo)
    (start_p end_p : Z) (p : ReqToTokenPool) (a : Alloc) : res Alloc :=
  if no_overalloc && negb (start_p =? end_p) then Err AssertionError
  else
    let start_p := if page_size a >? 1 then ceil_align start_p (page_size a) else start_p in
    if start_p <? end_p then free_kv_row k [(start_p, end_p)] p a else Ok a.

Definition release_kv_cache (spec_algo_none strip_thinking : bool) (r : Req) (is_insert : bool)
    (p : ReqToTokenPool) (c : RadixCache) : res (Req * ReqToTokenPool * RadixCache) :=
  if negb (Bool.eqb (negb (holds_kv (kv r))) (is_kv_released (kv r))) then Err AssertionError
  else if negb (holds_kv (kv r)) then Err AssertionError
  else
    let committed := effective_kv_committed_len strip_thinking r in
    c ← cache_finished_req r (is_insert && negb (skip_radix_cache_insert r)) committed p c;
    a ← release_overallocated_kv_indices (spec_algo_none && negb strip_thinking) (kv r)
          committed (kv_allocated_len (kv r)) p (kv_allocator c);
    let c := set_kv_allocator c a in
    '(k, p) ← ReqToToken.free (kv r) p;
    Ok (set_kv r (mark_kv_released k), p, c).
End operations.
