(* ===== verification/ReqOwnership.v ===== *)
(** * Who owns which page

    While a request runs, the pages of its row up to [cache_protected_len]
    belong to the radix tree and the rest to the request itself; everything else
    is in the tree or in the allocator's pool.  This file states that as a
    predicate and proves that finishing a request, or caching it half-way, moves
    whole pages between the three owners and loses or doubles none. *)

From S2P Require Import Prelude RadixKey PrefixTree TreeNode Allocator Events RadixCache RadixInv.
From S2P Require Import RadixWalk RadixInsert RadixLock RadixEvict ReqPool ReqCache.

Lemma slice_to_slice_to {A} (l : list A) n : 0 ≤ n → slice_to (slice_to l n) n = slice_to l n.
Proof. intros. rewrite !slice_to_take, take_take by done. f_equal. lia. Qed.

(** ** Pieces of a row at page boundaries *)

Section pieces.
Context (ps : Z) (P row : list Z).
Hypotheses (Hps : 0 < ps) (HR : row_layout ps P row).

Lemma touched_aligned s e :
  0 ≤ s ≤ e → (ps | s) →
  touched ps P s e = take (Z.to_nat ((e + ps - 1) / ps - s / ps)) (drop (Z.to_nat (s / ps)) P).
Proof.
  intros Hs [q ->]. unfold touched. destruct (Z.ltb_spec (q * ps) e); [done|].
  replace e with (q * ps) by lia. replace (q * ps + ps - 1) with (ps - 1 + q * ps) by lia.
  rewrite Z.div_add, Z.div_small, Z.div_mul by lia.
  replace (Z.to_nat (0 + q - q)) with 0%nat by lia. done.
Qed.

Lemma ceil_aligned q : (q * ps + ps - 1) / ps = q.
Proof.
  replace (q * ps + ps - 1) with (ps - 1 + q * ps) by lia.
  rewrite Z.div_add, Z.div_small by lia. done.
Qed.

Lemma touched_split s m e :
  0 ≤ s ≤ m → m ≤ e → (ps | s) → (ps | m) →
  touched ps P s e = touched ps P s m ++ touched ps P m e.
Proof.
  intros Hs Hm [q1 ->] [q2 ->]. rewrite !touched_aligned by (try lia; by eexists).
  rewrite ceil_aligned, !Z.div_mul by lia.
  assert (q2 ≤ (e + ps - 1) / ps) by (apply Z.div_le_lower_bound; lia).
  assert (0 ≤ q1 ≤ q2) by nia.
  replace (drop (Z.to_nat q2) P) with (drop (Z.to_nat (q2 - q1)) (drop (Z.to_nat q1) P))
    by (rewrite drop_drop; f_equal; lia).
  rewrite take_take_drop. f_equal. lia.
Qed.

Lemma slice_page_slots s e :
  0 ≤ s ≤ e → e ≤ zlen row → (ps | s) → (ps | e) →
  slice row s e = Paged.page_slots ps (touched ps P s e).
Proof.
  intros Hs He [q1 ->] [q2 ->]. pose proof (row_layout_length ps Hps P row HR) as HP.
  assert (0 ≤ q1 ≤ q2 ∧ q2 ≤ zlen P) as [Hq Hq2] by nia.
  rewrite touched_aligned by (try lia; by eexists). rewrite ceil_aligned, Z.div_mul by lia.
  apply list_eq_same_length with (n := Z.to_nat (q2 * ps - q1 * ps)).
  - rewrite length_page_slots, length_take, length_drop by done. unfold zlen in *. nia.
  - rewrite slice_take_drop, length_take, length_drop by lia. unfold zlen in *. lia.
  - intros i x y Hi Hx Hy. rewrite lookup_slice in Hx by lia. case_decide; [|done].
    apply (lookup_page_slots ps Hps) in Hy as (p & Hp & ->).
    destruct (HR _ _ Hx) as (p' & Hp' & ->).
    replace (Z.of_nat (Z.to_nat (q1 * ps) + i)) with (Z.of_nat i + q1 * ps) in * by lia.
    rewrite Z.div_add, Z.mod_add in * by lia.
    assert (0 ≤ Z.of_nat i / ps) by (apply Z.div_pos; lia).
    rewrite lookup_take_Some, lookup_drop in Hp. destruct Hp as [Hp _].
    replace (Z.to_nat (Z.of_nat i / ps + q1)) with (Z.to_nat q1 + Z.to_nat (Z.of_nat i / ps))%nat
      in Hp' by lia. congruence.
Qed.

(** Freeing two pieces of which the second starts at a page boundary. *)
Lemma touched_two s n m e :
  0 ≤ s ≤ n → n ≤ m → m ≤ e → (ps | m) →
  touched_ranges ps P None [(s, n); (m, e)] = touched ps P s n ++ touched ps P m e.
Proof.
  intros Hs Hn Hm [q ->]. cbn [touched_ranges].
  assert (∀ prev, (match prev with Some pe => pe ≤ q * ps | None => True end) →
    (if q * ps =? e then [] else touched ps P
       (if match prev with Some pe => q * ps / ps =? (pe - 1) / ps | None => false end
        then (q * ps / ps + 1) * ps else q * ps) e ++ []) = touched ps P (q * ps) e) as Hsecond.
  { intros prev Hprev. destruct (Z.eqb_spec (q * ps) e) as [<-|Hne]; [by rewrite touched_empty by lia|].
    rewrite app_nil_r. destruct prev as [pe|]; [|done]. rewrite Z.div_mul by lia.
    destruct (Z.eqb_spec q ((pe - 1) / ps)) as [Heq|]; [|done].
    pose proof (Z.div_mod (pe - 1) ps). pose proof (Z.mod_pos_bound (pe - 1) ps). nia. }
  destruct (Z.eqb_spec s n) as [->|Hne].
  - rewrite (touched_empty ps P n n) by lia. by apply (Hsecond None).
  - f_equal. by apply (Hsecond (Some n)).
Qed.
End pieces.

(** ** The key of a request *)

Section req_key.
Context (c : RadixCache) (A : atree) (r : Req) (toks : list Z).
Hypothesis Hinv : Inv c A.

Definition req_ns : option string * option string := (req_extra_key r, or_None (req_cache_salt r)).
Definition req_units : list kunit := units (req_key c r toks).

Lemma req_key_user : user_key c (req_key c r toks).
Proof.
  unfold req_key. split_and!.
  - by apply page_aligned_wf.
  - apply page_aligned_salt_wf. apply or_None_idem.
  - by rewrite page_aligned_bigram.
Qed.

Lemma req_key_len :
  key_len (req_key c r toks) = zlen req_units ∧ (cpage_size c | zlen req_units) ∧
  zlen req_units ≤ zlen toks.
Proof.
  pose proof (inv_ps c A Hinv) as Hps.
  assert (key_len (req_key c r toks) = zlen req_units) as E.
  { apply key_len_units. apply req_key_user. }
  rewrite <-E. unfold req_key. rewrite page_aligned_len by done. split_and!; [done| |].
  - apply floor_align_divide.
  - etrans; [by apply floor_align_le|]. unfold key_len, raw_len. cbn.
    pose proof (zlen_nonneg toks). repeat case_match; lia.
Qed.

Lemma req_key_query : query_units c (req_key c r toks) = req_units.
Proof.
  pose proof (inv_ps c A Hinv) as Hps. unfold query_units, maybe_to_bigram_view.
  assert (is_bigram (req_key c r toks) = is_eagle c) as E
    by (unfold req_key; by rewrite page_aligned_bigram).
  rewrite E, andb_negb_r. cbn [fst]. rewrite units_page_aligned by (apply req_key_user || done).
  destruct req_key_len as (-> & Hd & _). rewrite floor_align_id by done. apply take_zlen.
Qed.

Lemma req_key_ns : namespace (req_key c r toks) = req_ns.
Proof. unfold req_key. rewrite page_aligned_namespace; [done|]. apply or_None_idem. Qed.
End req_key.

(** ** Ownership *)

(** The slots in the allocator's pool. *)
Definition pool_slots `{KVAllocator} (c : RadixCache) : list Z :=
  Paged.page_slots (cpage_size c) (pool (kv_allocator c)).

(** The slots a request owns: the pages of its row past the protected length. *)
Definition private (c : RadixCache) (P row : list Z) (cpl : Z) : list Z :=
  Paged.page_slots (cpage_size c) (touched (cpage_size c) P cpl (zlen row)).

(** A request with the row [row] on the pages [P] and the units [us]: node [i] of
    the tree, on which it holds a lock, covers and supplies its first [cpl]
    positions, and its other pages are nobody else's. *)
Record owns `{KVAllocator} (c : RadixCache) (A : atree) (ns : option string * option string)
    (us : list kunit) (P row : list Z) (cpl : Z) (i : nat) (a : anode) : Prop := {
  ow_row : row_layout (cpage_size c) P row;
  ow_us : zlen us ≤ zlen row;
  ow_node : walk_at (root_node c) A ns us i a cpl;
  ow_prefix : a_slots a = take (Z.to_nat cpl) row;
  ow_held : i ≠ root_node c → 1 ≤ a_held a;
  ow_nodup : NoDup (private c P row cpl ++ tree_slots A ++ pool_slots c);
}.

(** The nodes of a tree are still there, held by [e] more requests. *)
Definition nodes_kept (root : nat) (A A' : atree) (e : nat → Z) : Prop :=
  ∀ j a, A !! j = Some a → ∃ a', A' !! j = Some a' ∧ a_ns a' = a_ns a ∧ a_path a' = a_path a ∧
    a_slots a' = a_slots a ∧ (j ≠ root → a_held a' = a_held a + e j).

Definition one_at (i : nat) (e : Z) (j : nat) : Z := if decide (j = i) then e else 0.

Lemma extends_kept root A A' : extends A A' → nodes_kept root A A' (λ _, 0).
Proof. intros He j a Ha. destruct (He j a Ha) as (a' & Ha' & ? & ? & _ & ? & ?). exists a'. split_and!; try done. lia. Qed.

Lemma relocked_kept root A A' i e : relocked root A A' i e → nodes_kept root A A' (one_at i e).
Proof.
  intros Hre j a Ha. destruct (proj2 Hre j a Ha) as (a' & Ha' & (_ & Hk & _ & Hp & Hs) & Hh & _).
  exists a'. rewrite Hk, Hp, Hs, Hh. split_and!; try done. intros Hr. unfold one_at. repeat case_decide; (lia || naive_solver).
Qed.

Lemma nodes_kept_trans root A B C e f :
  nodes_kept root A B e → nodes_kept root B C f → nodes_kept root A C (λ j, e j + f j).
Proof.
  intros H1 H2 j a Ha. destruct (H1 j a Ha) as (b & Hb & B1 & B2 & B3 & B4).
  destruct (H2 j b Hb) as (c & Hc & C1 & C2 & C3 & C4). exists c. split_and!; try congruence.
  intros Hr. rewrite (C4 Hr), (B4 Hr). lia.
Qed.

Section ownership.
Context `{Clock} `{SetOrder} `{HashLaws} `{KVAllocator} `{KVFree}.

(** An insertion of the row: the state, the tree and how far the tree had it. *)
Lemma insert_req c A r toks P row cpl i a chunked prio :
  Inv c A → disable c = false →
  owns c A (req_ns r) (req_units c r toks) P row cpl i a →
  let us := req_units c r toks in
  let k := req_key c r toks in
  ∃ n j c1 A1 b, insert (mkInsertParams k (Some (slice_to row (key_len k))) chunked prio) c =
      Ok (n, Some j, c1) ∧ Inv c1 A1 ∧ config c1 = config c ∧
    inserted (cpage_size c) (root_node c) A A1 (req_ns r) us (slice row 0 (zlen us)) n j b ∧
    cpl ≤ n.
Proof.
  intros Hinv Hdis Hown us k. destruct (req_key_len c A r toks Hinv) as (Hkl & Hd & _).
  pose proof (req_key_query c A r toks Hinv) as Hq. pose proof (req_key_ns c r toks) as Hkns.
  pose proof (req_key_user c r toks) as Huk. pose proof (ow_us _ _ _ _ _ _ _ _ _ Hown) as Hus.
  fold us k in Hkl, Hd, Hq, Hkns, Huk, Hus, Hown. pose proof (zlen_nonneg us). clearbody us k.
  set (ip := mkInsertParams k (Some (slice_to row (key_len k))) chunked prio).
  destruct (insert_spec c A ip Hinv Hdis Huk)
    as (n & j & c1 & A1 & b & es & Hrun & Hinv1 & Hcfg & _ & Hrow & Hins).
  { intros v [= <-]. cbn [ip ins_key]. rewrite Hq, zlen_slice_to by lia. lia. }
  cbn [ip ins_key] in Hins, Hrow. fold ip in Hins, Hrow. rewrite Hq, Hkns in *.
  assert (insert_row c ip = slice row 0 (zlen us)) as E.
  { unfold insert_row, ip. cbn [ins_key ins_value from_option id].
    assert (key_len (page_aligned (maybe_to_bigram_view k (is_eagle c) None).1 (cpage_size c)) = zlen us) as ->.
    { rewrite (search_key_len _ _ _ _ _ (query_key c A k Hinv Huk)). by rewrite Hq. }
    rewrite Hkl, slice_to_slice_to by done. rewrite slice_take_drop by lia.
    by rewrite slice_to_take, Z.sub_0_r by lia. }
  rewrite E in *. exists n, j, c1, A1, b. split_and!; try done.
  apply (is_longest _ _ _ _ _ _ _ _ _ _ Hins cpl (a_slots a)).
  - eapply (walk_aligned c A); [done|]. apply Hown.
  - apply Hown.
  - destruct (ow_node _ _ _ _ _ _ _ _ _ Hown) as (Hi & Hns & Hcpl & Hp). exists i, a. split_and!; try done.
    + by rewrite Hp.
    + rewrite <-Hp. symmetry. apply take_ge.
      rewrite (ok_slots_len _ _ _ A (inv_tree c A Hinv) i a Hi). done.
Qed.

Section settle.
Context (c : RadixCache) (A : atree) (ns : option string * option string) (us : list kunit)
  (P row : list Z) (cpl n : Z) (i : nat) (a : anode).
Hypotheses (Hinv : Inv c A) (Hkv : kv_ok c A) (Hown : owns c A ns us P row cpl i a).
Hypotheses (Hn : cpl ≤ n ≤ zlen us) (Hnd : (cpage_size c | n)) (Hud : (cpage_size c | zlen us)).
Let ps := cpage_size c.

Lemma settle_facts : 0 < ps ∧ 0 ≤ cpl ∧ (ps | cpl) ∧ zlen us ≤ zlen row ∧ row_layout ps P row.
Proof.
  pose proof (ow_node _ _ _ _ _ _ _ _ _ Hown) as Hw. split_and!.
  - apply Hinv.
  - apply Hw.
  - by eapply (walk_aligned c A).
  - apply Hown.
  - apply Hown.
Qed.

Lemma private_split :
  private c P row cpl = Paged.page_slots ps (touched ps P cpl n) ++ slice row n (zlen us) ++
    Paged.page_slots ps (touched ps P (zlen us) (zlen row)).
Proof.
  destruct settle_facts as (Hps & Hc & Hcd & Hul & HR). unfold private. fold ps.
  rewrite (touched_split ps P Hps cpl n), (touched_split ps P Hps n (zlen us)) by (done || lia).
  rewrite !page_slots_app. do 2 f_equal. symmetry. apply slice_page_slots; done || lia.
Qed.

(** The pages of [touched cpl n] and [T] went to the pool, the piece from [n] to
    the end of the key went to the tree and [R] stays with the request. *)
Lemma settle c1 A1 al T R :
  config c1 = config c → tree_slots A1 ≡ₚ slice row n (zlen us) ++ tree_slots A → paged ps A1 →
  alloc_ok al → page_size al = page_size (kv_allocator c) →
  pool al ≡ₚ touched ps P cpl n ++ T ++ pool (kv_allocator c) →
  T ++ R ≡ₚ touched ps P (zlen us) (zlen row) →
  kv_ok (set_kv_allocator c1 al) A1 ∧
  Paged.page_slots ps R ++ tree_slots A1 ++ pool_slots (set_kv_allocator c1 al) ≡ₚ
  private c P row cpl ++ tree_slots A ++ pool_slots c.
Proof.
  intros Hcfg Hts Hpg Hok Hpsz HP HTR. destruct (config_fields c c1 Hcfg) as (_ & Eps & _).
  assert (Paged.page_slots ps R ++ tree_slots A1 ++ pool_slots (set_kv_allocator c1 al) ≡ₚ
    private c P row cpl ++ tree_slots A ++ pool_slots c) as Hcons.
  { rewrite private_split. unfold pool_slots. cbn [cpage_size set_kv_allocator kv_allocator].
    rewrite Eps. fold ps. rewrite Hts, HP, <-HTR, !page_slots_app. solve_Permutation. }
  split; [|done]. constructor; cbn [cpage_size set_kv_allocator kv_allocator].
  - done.
  - by rewrite Hpsz, Eps, (kv_ps c A Hkv).
  - by rewrite Eps.
  - pose proof (ow_nodup _ _ _ _ _ _ _ _ _ Hown) as Hndp. rewrite <-Hcons in Hndp.
    apply NoDup_app in Hndp as (_ & _ & Hndp). exact Hndp.
Qed.

(** The free of the two pieces succeeds. *)
Lemma free_pieces al : 
  al = kv_allocator c →
  ∃ al', kv_free_segments [(slice row cpl n, cpl); (slice_from row (zlen us), zlen us)] al = Ok al' ∧
    alloc_ok al' ∧ page_size al' = page_size al ∧
    pool al' ≡ₚ touched ps P cpl n ++ touched ps P (zlen us) (zlen row) ++ pool al.
Proof.
  intros ->. destruct settle_facts as (Hps & Hc & Hcd & Hul & HR). pose proof (zlen_nonneg us).
  pose proof (kv_ps c A Hkv) as Epsz. fold ps in Epsz.
  destruct (free_segments_spec (kv_allocator c) P row [(cpl, n); (zlen us, zlen row)])
    as (al' & Hfree & Hok & Hpsz & HP).
  - apply Hkv.
  - by rewrite Epsz.
  - cbn. lia.
  - rewrite Epsz, (touched_two ps P Hps) by (done || lia).
    apply (NoDup_page_slots ps Hps). pose proof (ow_nodup _ _ _ _ _ _ _ _ _ Hown) as Hndp.
    rewrite private_split in Hndp. fold ps in Hndp. unfold pool_slots in Hndp. fold ps in Hndp.
    rewrite !page_slots_app. eapply sublist_NoDup; [exact Hndp|].
    rewrite <-!app_assoc. apply sublist_app; [done|]. apply sublist_inserts_l.
    apply sublist_app; [done|]. by apply sublist_inserts_l.
  - exists al'. rewrite Epsz, (touched_two ps P Hps) in HP by (done || lia).
    split_and!; try done; [|by rewrite HP, app_assoc].
    rewrite <-Hfree. cbn [fmap list_fmap]. do 4 f_equal.
    rewrite slice_from_drop, slice_take_drop by lia. symmetry. apply take_ge.
    rewrite length_drop. unfold zlen. lia.
Qed.

Lemma free_piece al :
  al = kv_allocator c →
  ∃ al', kv_free_segment (slice row cpl n) cpl al = Ok al' ∧
    alloc_ok al' ∧ page_size al' = page_size al ∧ pool al' ≡ₚ touched ps P cpl n ++ pool al.
Proof.
  intros ->. destruct settle_facts as (Hps & Hc & Hcd & Hul & HR). pose proof (zlen_nonneg us).
  pose proof (kv_ps c A Hkv) as Epsz. fold ps in Epsz.
  destruct (kv_free_segment_spec (kv_allocator c) P row cpl n)
    as (al' & Hfree & Hok & Hpsz & HP); try lia.
  - apply Hkv.
  - by rewrite Epsz.
  - rewrite Epsz. apply (NoDup_page_slots ps Hps).
    pose proof (ow_nodup _ _ _ _ _ _ _ _ _ Hown) as Hndp. rewrite private_split in Hndp.
    unfold pool_slots in Hndp. fold ps in Hndp. rewrite page_slots_app.
    eapply sublist_NoDup; [exact Hndp|]. rewrite <-!app_assoc. apply sublist_app; [done|].
    do 3 apply sublist_inserts_l. done.
  - exists al'. rewrite Epsz in HP. done.
Qed.
End settle.

Lemma drop_slice_0 {X} (l : list X) n m : 0 ≤ n ≤ m → drop (Z.to_nat n) (slice l 0 m) = slice l n m.
Proof.
  intros. rewrite <-slice_from_drop by lia. rewrite <-(slice_from_slice l 0 m n) by lia.
  by rewrite Z.sub_0_r.
Qed.

(** What the insertion of a row of which the tree had the first [n] positions
    leaves: the tree holds the rest of the row as well. *)
Record absorbed (c c1 : RadixCache) (A A1 : atree) (us : list kunit) (row : list Z) (n : Z) : Prop := {
  ab_inv : Inv c1 A1;
  ab_config : config c1 = config c;
  ab_aligned : (cpage_size c | n);
  ab_slots : tree_slots A1 ≡ₚ slice row n (zlen us) ++ tree_slots A;
  ab_paged : paged (cpage_size c) A1;
  ab_extends : extends A A1;
  ab_cached ns' us' vs : cached (root_node c) A ns' us' vs → cached (root_node c) A1 ns' us' vs;
}.

Lemma inserted_absorbed c c1 A A1 ns us P row cpl i a n j b :
  Inv c A → kv_ok c A → owns c A ns us P row cpl i a → (cpage_size c | zlen us) →
  Inv c1 A1 → config c1 = config c → cpl ≤ n →
  inserted (cpage_size c) (root_node c) A A1 ns us (slice row 0 (zlen us)) n j b →
  absorbed c c1 A A1 us row n.
Proof.
  intros Hinv Hkv Hown Hud Hinv1 Hcfg Hn Hins.
  pose proof (is_range _ _ _ _ _ _ _ _ _ _ Hins). pose proof (is_aligned _ _ _ _ _ _ _ _ _ _ Hins).
  destruct (settle_facts c A ns us P row cpl i a Hinv Hown) as (Hps & Hc & Hcd & Hul & HR).
  constructor; try done.
  - rewrite (is_tree_slots _ _ _ _ _ _ _ _ _ _ Hins). by rewrite drop_slice_0 by lia.
  - apply (is_paged _ _ _ _ _ _ _ _ _ _ Hins); [apply Hkv|]. rewrite drop_slice_0 by lia.
    eexists. apply (slice_page_slots _ P); done || lia.
  - apply Hins.
  - intros ns' us' vs Hc'. apply (is_cached _ _ _ _ _ _ _ _ _ _ Hins). by left.
Qed.

Lemma not_inserted_absorbed c A us row :
  Inv c A → kv_ok c A → (cpage_size c | zlen us) → absorbed c c A A us row (zlen us).
Proof.
  intros Hinv Hkv Hud. constructor; try done; [|apply Hkv].
  by rewrite slice_empty by (try apply zlen_nonneg; lia).
Qed.

(** Locks do not move slots. *)
Lemma relocked_kv c c' A A' i e :
  relocked (root_node c) A A' i e → config c' = config c → kv_ok c A →
  kv_ok c' A' ∧ tree_slots A' ++ pool_slots c' ≡ₚ tree_slots A ++ pool_slots c.
Proof.
  intros Hre Hcfg [H1' H2' H3' H4']. destruct (config_fields c c' Hcfg) as (_ & Eps & _ & _ & _ & Ea).
  assert (tree_slots A' ++ pool_slots c' ≡ₚ tree_slots A ++ pool_slots c) as HP.
  { unfold pool_slots. rewrite Eps, Ea. by rewrite (relocked_tree_slots _ _ _ _ _ Hre). }
  split; [|done]. constructor; rewrite ?Eps, ?Ea; try done.
  - by eapply relocked_paged.
  - rewrite <-Ea. unfold pool_slots in HP. rewrite Eps in HP. by rewrite HP.
Qed.

Section finish.
Context (r : Req) (is_insert : bool) (len : Z) (p : ReqToTokenPool) (c : RadixCache) (A : atree).
Context (full P : list Z) (i : nat) (a : anode).
Let toks := slice_to (origin_input_ids r ++ output_ids r) len.
Let row := slice_to full (zlen toks).
Let us := req_units c r toks.
Let cpl := cache_protected_len (kv r).
Hypotheses (Hinv : Inv c A) (Hkv : kv_ok c A) (Hdis : disable c = false).
Hypothesis Hrow : get_row p (req_pool_idx (kv r)) = Ok full.
Hypothesis Hown : owns c A (req_ns r) us P row cpl i a.
Hypothesis Hlast : last_node r = Some i.

Lemma finish_spec :
  ∃ c' A', cache_finished_req r is_insert len p c = Ok c' ∧ Inv c' A' ∧ kv_ok c' A' ∧
    (root_node c' = root_node c ∧ cpage_size c' = cpage_size c) ∧
    tree_slots A' ++ pool_slots c' ≡ₚ private c P row cpl ++ tree_slots A ++ pool_slots c ∧
    (∀ ns' us' vs, cached (root_node c) A ns' us' vs → cached (root_node c) A' ns' us' vs) ∧
    (is_insert = true → disable_finished_insert c = false →
       ∃ vs, cached (root_node c) A' (req_ns r) us vs) ∧
    settings c' = settings c ∧ (is_insert = false → relocked (root_node c) A A' i (-1)) ∧
    nodes_kept (root_node c) A A' (one_at i (-1)).
Proof.
  destruct (req_key_len c A r toks Hinv) as (Hkl & Hud & _). fold us in Hkl, Hud.
  pose proof (settle_facts c A _ us P row cpl i a Hinv Hown) as (Hps & Hc & Hcd & Hul & HR).
  pose proof (ow_node _ _ _ _ _ _ _ _ _ Hown) as Hw.
  unfold cache_finished_req. rewrite Hrow, bind_ret, Hdis. cbv zeta. fold toks row cpl. rewrite Hkl.
  set (ins := if disable_finished_insert c then false else is_insert).
  assert (∃ n c1 A1, (if ins then
       '(prefix_len, _, c) ← insert (mkInsertParams (req_key c r toks)
          (Some (slice_to row (zlen us))) false (Some (priority_of r))) c; Ok (prefix_len, c)
     else Ok (zlen us, c)) = Ok (n, c1) ∧ cpl ≤ n ≤ zlen us ∧
     absorbed c c1 A A1 us row n ∧
     (ins = true → ∃ vs, cached (root_node c) A1 (req_ns r) us vs) ∧ (ins = false → A1 = A))
    as (n & c1 & A1 & -> & Hn & Hab & Hcached & Hsame).
  { destruct ins.
    - destruct (insert_req c A r toks P row cpl i a false (Some (priority_of r)) Hinv Hdis Hown)
        as (n & j & c1 & A1 & b & Hins & Hinv1 & Hcfg & Hi & Hle). rewrite Hkl in Hins.
      exists n, c1, A1. rewrite Hins, bind_ret. split; [done|].
      split; [split; [done|apply Hi]|]. split; [by eapply inserted_absorbed|].
      split; [|done]. intros _. eexists. apply (is_cached _ _ _ _ _ _ _ _ _ _ Hi). by right.
    - exists (zlen us), c, A. split; [done|]. split; [split; [apply Hw|done]|].
      split; [by apply not_inserted_absorbed|done]. }
  rewrite bind_ret. cbv beta iota. destruct Hab as [Hinv1 Hcfg Hnd Hts Hpg Hext Hmono].
  destruct (config_fields c c1 Hcfg) as (Ed & Eps & _ & Er & _ & Ea).
  destruct (free_pieces c A (req_ns r) us P row cpl n i a Hinv Hkv Hown Hn Hnd Hud (kv_allocator c1) Ea)
    as (al & -> & Hok & Hpsz & HP). rewrite bind_ret. cbv zeta. rewrite Ea in Hpsz, HP.
  destruct (settle c A (req_ns r) us P row cpl n i a Hinv Hkv Hown Hn Hnd Hud c1 A1 al
    (touched (cpage_size c) P (zlen us) (zlen row)) [] Hcfg Hts Hpg Hok Hpsz HP)
    as [Hkv2 Hcons]; [by rewrite app_nil_r|].
  rewrite Hlast. destruct (Hext i a (proj1 Hw)) as (a' & Ha' & _ & _ & _ & Hheld & _).
  destruct (dec_lock_ref_spec (set_kv_allocator c1 al) A1 i a' (Inv_set_alloc c1 A1 al Hinv1) Ha')
    as (delta & c' & A' & -> & Hinv' & Hcfg' & _ & Hre & _).
  { cbn. by rewrite Ed. }
  { cbn. rewrite Er, Hheld. apply Hown. }
  rewrite bind_ret. exists c', A'. destruct (relocked_kv _ c' A1 A' i (-1) Hre Hcfg' Hkv2) as [Hkv' HP'].
  split; [done|]. split; [done|]. split; [done|].
  split; [destruct (config_fields _ _ Hcfg') as (_ & Eps' & _ & Er' & _); by rewrite Er', Eps'|].
  split; [by rewrite HP', <-Hcons|]. rewrite <-Er in *.
  split; [intros ns' us' vs Hv; by eapply relocked_cached, Hmono|].
  split; [intros Hi Hdf; unfold ins in Hcached; rewrite Hdf, Hi in Hcached;
    destruct (Hcached eq_refl) as [vs Hvs]; exists vs; by eapply relocked_cached|].
  split; [|split].
  - apply config_settings in Hcfg, Hcfg'. rewrite Hcfg', <-Hcfg. done.
  - intros Hi. rewrite Hsame in Hre; [exact Hre|]. unfold ins. rewrite Hi. by destruct (disable_finished_insert c).
  - exact (nodes_kept_trans _ A A1 A' _ _ (extends_kept _ _ _ Hext) (relocked_kept _ _ _ _ _ Hre)).
Qed.
End finish.
End ownership.

(** ** Rows after a re-match *)

Section rows.
Context (ps : Z) (eagle : bool) (root : nat) (A : atree).
Hypotheses (Hps : 0 < ps) (Hok : tree_ok ps eagle root A).

Lemma slots_paged i a : paged ps A → A !! i = Some a → ∃ Q, a_slots a = Paged.page_slots ps Q.
Proof.
  intros Hpg. revert i a. refine (ok_ind ps eagle root A Hok _ _ _).
  - intros a _ (_ & _ & _ & _ & _ & ->). by exists [].
  - intros i a p pa Hi _ _ _ Hn [Q HQ]. destruct (Hpg i a Hi) as [V HV]. exists (Q ++ V).
    by rewrite (no_slots _ _ _ _ _ _ Hn), HQ, HV, page_slots_app.
Qed.

Lemma slots_in_tree i a : A !! i = Some a → a_slots a ⊆ tree_slots A.
Proof.
  revert i a. refine (ok_ind ps eagle root A Hok _ _ _).
  - intros a _ (_ & _ & _ & _ & _ & ->). apply list_subseteq_nil.
  - intros i a p pa Hi _ _ _ Hn IH x. rewrite (no_slots _ _ _ _ _ _ Hn), elem_of_app.
    intros [?|?]; [by apply IH|]. rewrite (tree_slots_delete A i a Hi), elem_of_app. by left.
Qed.
End rows.

(** Replacing the first pages of a row by other pages. *)
Lemma row_layout_replace ps P Q row :
  0 < ps → row_layout ps P row → zlen Q * ps ≤ zlen row →
  row_layout ps (Q ++ drop (length Q) P)
    (Paged.page_slots ps Q ++ drop (length Q * Z.to_nat ps) row) ∧
  ∀ e, zlen Q * ps ≤ e →
    touched ps (Q ++ drop (length Q) P) (zlen Q * ps) e = touched ps P (zlen Q * ps) e.
Proof.
  intros Hps HR Hlen. pose proof (length_page_slots ps Hps Q) as Hl. split.
  - intros k x [Hx|[Hge Hx]]%lookup_app_Some.
    + destruct (lookup_page_slots ps Hps Q k x Hx) as (q & Hq & ->). exists q. split; [|done].
      by apply lookup_app_l_Some.
    + rewrite Hl in Hge, Hx. rewrite lookup_drop in Hx.
      replace (length Q * Z.to_nat ps + (k - length Q * Z.to_nat ps))%nat with k in Hx by lia.
      destruct (HR k x Hx) as (q & Hq & ->). exists q. split; [|done].
      assert (zlen Q ≤ Z.of_nat k / ps) by (apply Z.div_le_lower_bound; unfold zlen; lia).
      rewrite lookup_app_r, lookup_drop by (unfold zlen in *; lia). rewrite <-Hq. f_equal.
      unfold zlen in *. lia.
  - intros e He. pose proof (zlen_nonneg Q). rewrite !touched_aligned by (try nia; by eexists).
    rewrite Z.div_mul by lia. f_equal. unfold zlen. rewrite Nat2Z.id.
    rewrite drop_app_ge by lia. by rewrite Nat.sub_diag, drop_0.
Qed.

Lemma to_int32_id l : Forall (λ x, 0 ≤ x < 2 ^ 31) l → to_int32 <$> l = l.
Proof.
  induction 1 as [|x l Hx _ IH]; [done|]. rewrite fmap_cons, IH. f_equal. unfold to_int32.
  rewrite Z.mod_small; lia.
Qed.

(** Writing back the matched slots: the row starts with them afterwards. *)
Lemma write_matched p idx full ind cpl :
  0 ≤ idx → get_row p (Some idx) = Ok full → 0 ≤ cpl ≤ zlen ind → zlen ind ≤ zlen full →
  take (Z.to_nat cpl) full = take (Z.to_nat cpl) ind → Forall (λ x, 0 ≤ x < 2 ^ 31) ind →
  ∃ p', write (Some idx) cpl (zlen ind) (slice_from ind cpl) p = Ok p' ∧
    get_row p' (Some idx) = Ok (ind ++ drop (length ind) full) ∧
    (∀ j row, 0 ≤ j → j ≠ idx → get_row p (Some j) = Ok row → get_row p' (Some j) = Ok row) ∧
    (∃ t, p' = set_req_to_token p t ∧ length <$> t = length <$> req_to_token p).
Proof.
  intros Hidx Hrow Hcpl Hlen Hpre Hfit. unfold write. rewrite Hrow. cbn [mbind res_bind].
  unfold slice_indices, clamp_index. cbn [from_option].
  destruct (Z.ltb_spec cpl 0), (Z.ltb_spec (zlen ind) 0); try lia. rewrite !Z.min_l by lia.
  rewrite zlen_slice_from, Z.max_r, Z.eqb_refl by lia.
  destruct (Z.ltb_spec idx 0); [lia|].
  unfold get_row in Hrow. apply py_get_lookup in Hrow; [|done].
  rewrite slice_from_drop, to_int32_id by (lia || by apply Forall_drop).
  replace (cpl + (zlen ind - cpl)) with (zlen ind) by lia.
  assert (take (Z.to_nat cpl) full ++ drop (Z.to_nat cpl) ind ++ drop (Z.to_nat (zlen ind)) full =
          ind ++ drop (length ind) full) as ->.
  { rewrite Hpre, app_assoc, take_drop. unfold zlen. by rewrite Nat2Z.id. }
  eexists. split; [done|]. split_and!; try done.
  - unfold get_row. apply py_get_lookup; [done|]. simpl. apply list_lookup_insert_eq.
    by apply lookup_lt_Some in Hrow.
  - intros j row Hj Hne Hr. unfold get_row in *. apply py_get_lookup; [done|].
    apply py_get_lookup in Hr; [|done]. simpl. rewrite list_lookup_insert_ne by lia. done.
  - eexists. split; [done|]. rewrite list_fmap_insert. apply list_insert_id. rewrite list_lookup_fmap, Hrow. cbn. f_equal.
    rewrite length_app, length_drop. unfold zlen in *. lia.
Qed.

Section unfinished.
Context `{Clock} `{SetOrder} `{HashLaws} `{KVAllocator} `{KVFree}.

(** Matching a key the tree holds completely. *)
Lemma rematch c A ns us k vs :
  Inv c A → disable c = false → user_key c k → query_units c k = us → namespace k = ns →
  (cpage_size c | zlen us) → cached (root_node c) A ns us vs →
  ∃ m c' A' d, match_prefix k c = Ok (m, c') ∧ Inv c' A' ∧ stable c' = stable c ∧
    same_contents (cpage_size c) (root_node c) A A' ∧
    walk_at (root_node c) A' ns us (last_device_node m) d (zlen us) ∧
    a_slots d = device_indices m ∧ device_indices m = vs ∧ zlen vs = zlen us.
Proof.
  intros Hinv Hdis Huk Hq Hkns Hud Hc.
  destruct (match_prefix_spec c A k Hinv Hdis Huk) as
    (m & c' & A' & d & Hrun & Hinv' & Hst & Hsame & Hw & Hs & Hlong).
  rewrite Hq, Hkns in *. pose proof (zlen_nonneg us).
  assert (zlen (device_indices m) = zlen us) as Hlen.
  { pose proof Hw as (_ & _ & Hm & _). enough (zlen us ≤ zlen (device_indices m)) by lia.
    eapply (Hlong (zlen us) vs); [done|lia|by rewrite take_zlen]. }
  rewrite Hlen in Hw. exists m, c', A', d. split_and!; try done; [|].
  - eapply (cached_functional (cpage_size c) (is_eagle c) (root_node c) (inv_ps c A Hinv) A
      (inv_tree c A Hinv) ns us); [done| |done].
    apply (sc_cached _ _ _ _ Hsame). destruct Hw as (Hi & Hns & _ & Hp). rewrite take_zlen in Hp.
    exists (last_device_node m), d. rewrite Hp. split_and!; try done.
    rewrite Hs. symmetry. apply take_ge. unfold zlen in *. lia.
  - destruct Hc as (x & b & Hx & _ & Hpre & ->). unfold zlen. rewrite length_take.
    pose proof (ok_slots_len _ _ _ A (inv_tree c A Hinv) x b Hx).
    apply prefix_length in Hpre. lia.
Qed.

(** Trading the lock on one node for a lock on another. *)
Lemma relock_pair c A i a j d :
  Inv c A → kv_ok c A → disable c = false → A !! i = Some a → (i ≠ root_node c → 1 ≤ a_held a) →
  A !! j = Some d →
  ∃ x1 c1 x2 c2 A2 d2, dec_lock_ref i c = Ok (x1, c1) ∧ inc_lock_ref j c1 = Ok (x2, c2) ∧
    Inv c2 A2 ∧ kv_ok c2 A2 ∧ config c2 = config c ∧ A2 !! j = Some d2 ∧ same_shape d2 d ∧
    (j ≠ root_node c → 1 ≤ a_held d2) ∧
    tree_slots A2 ++ pool_slots c2 ≡ₚ tree_slots A ++ pool_slots c ∧
    (∀ ns us vs, cached (root_node c) A2 ns us vs ↔ cached (root_node c) A ns us vs) ∧
    nodes_kept (root_node c) A A2 (λ k, one_at i (-1) k + one_at j 1 k).
Proof.
  intros Hinv Hkv Hdis Hi Hheld Hj.
  destruct (dec_lock_ref_spec c A i a Hinv Hi Hdis Hheld) as (x1 & c1 & A1 & H1' & Hinv1 & Hcfg1 & _ & Hre1 & _).
  destruct (config_fields c c1 Hcfg1) as (Ed & _ & _ & Er & _).
  destruct (relocked_kv c c1 A A1 i (-1) Hre1 Hcfg1 Hkv) as [Hkv1 HP1].
  destruct (proj2 Hre1 j d Hj) as (d1 & Hj1 & Hsh1 & _).
  destruct (inc_lock_ref_spec c1 A1 j d1 Hinv1 Hj1) as (x2 & c2 & A2 & H2' & Hinv2 & Hcfg2 & _ & Hre2 & _).
  { by rewrite Ed. }
  destruct (relocked_kv c1 c2 A1 A2 j 1 Hre2 Hcfg2 Hkv1) as [Hkv2 HP2].
  destruct (proj2 Hre2 j d1 Hj1) as (d2 & Hj2 & Hsh2 & Hh2 & _).
  exists x1, c1, x2, c2, A2, d2. split_and!; try done.
  - by rewrite Hcfg2.
  - destruct Hsh1 as (? & ? & ? & ? & ?), Hsh2 as (? & ? & ? & ? & ?). split_and!; congruence.
  - intros Hne. rewrite Hh2, decide_True by (by rewrite Er).
    destruct (inv_locks c1 A1 Hinv1 j d1 Hj1) as (? & ? & _). lia.
  - by rewrite HP2, HP1.
  - intros ns us vs. rewrite Er in Hre2.
    rewrite (relocked_cached _ _ _ _ _ _ _ _ Hre2). by rewrite (relocked_cached _ _ _ _ _ _ _ _ Hre1).
  - rewrite Er in Hre2. exact (nodes_kept_trans _ _ _ _ _ _ (relocked_kept _ _ _ _ _ Hre1) (relocked_kept _ _ _ _ _ Hre2)).
Qed.

Local Abbreviation fits := (Forall (λ x, 0 ≤ x < 2 ^ 31)).

Lemma same_contents_kv c c' A A' :
  Inv c A → kv_ok c A → stable c' = stable c → same_contents (cpage_size c) (root_node c) A A' →
  kv_ok c' A' ∧ tree_slots A' ++ pool_slots c' ≡ₚ tree_slots A ++ pool_slots c.
Proof.
  intros Hinv [K1 K2 K3 K4] Hst Hsame. destruct (stable_config _ _ Hst) as (Hcfg & Eps & _).
  destruct (config_fields _ _ Hcfg) as (_ & _ & _ & _ & _ & Ea).
  assert (tree_slots A' ++ pool_slots c' ≡ₚ tree_slots A ++ pool_slots c) as HP.
  { unfold pool_slots. by rewrite Eps, Ea, (sc_slots _ _ _ _ Hsame). }
  split; [|done]. constructor; rewrite ?Eps, ?Ea; try done.
  - by apply (sc_paged _ _ _ _ Hsame).
  - rewrite <-Ea. unfold pool_slots in HP. rewrite Eps in HP. by rewrite HP.
Qed.

(** The match gives the tree's own slots, as whole pages. *)
Lemma rematch_pages c A ns us k vs :
  Inv c A → kv_ok c A → disable c = false → user_key c k → query_units c k = us → namespace k = ns →
  (cpage_size c | zlen us) → cached (root_node c) A ns us vs → fits (tree_slots A) →
  ∃ m c' A' d Q, match_prefix k c = Ok (m, c') ∧ Inv c' A' ∧ kv_ok c' A' ∧ config c' = config c ∧
    extends A A' ∧ walk_at (root_node c) A' ns us (last_device_node m) d (zlen us) ∧
    a_slots d = vs ∧ device_indices m = vs ∧ zlen vs = zlen us ∧
    vs = Paged.page_slots (cpage_size c) Q ∧ fits vs ∧
    tree_slots A' ++ pool_slots c' ≡ₚ tree_slots A ++ pool_slots c ∧
    (∀ ns' us' vs', cached (root_node c) A' ns' us' vs' ↔ cached (root_node c) A ns' us' vs').
Proof.
  intros Hinv Hkv Hdis Huk Hq Hkns Hud Hc Hfit.
  destruct (rematch c A ns us k vs Hinv Hdis Huk Hq Hkns Hud Hc)
    as (m & c' & A' & d & Hrun & Hinv' & Hst & Hsame & Hw & Hsl & Hdev & Hvl).
  destruct (same_contents_kv c c' A A' Hinv Hkv Hst Hsame) as [Hkv' HP].
  destruct (stable_config _ _ Hst) as (Hcfg & Eps & _).
  destruct (slots_paged _ _ _ A' (inv_tree c' A' Hinv') _ d (kv_paged c' A' Hkv')
    (proj1 Hw)) as [Q HQ]. rewrite Eps in HQ.
  exists m, c', A', d, Q. split_and!; try done; try congruence; [apply Hsame| |apply Hsame].
  rewrite <-Hdev, <-Hsl. apply Forall_forall. intros x Hx.
  apply (slots_in_tree _ _ _ A' (inv_tree c' A' Hinv') _ d (proj1 Hw)) in Hx.
  rewrite (sc_slots _ _ _ _ Hsame) in Hx. by rewrite Forall_forall in Hfit; apply Hfit.
Qed.

Section step.
Context (r : Req) (chunked : bool) (p : ReqToTokenPool) (c : RadixCache) (A : atree).
Context (toks full P : list Z) (idx : Z) (i : nat) (a : anode).
Let row := slice_to full (zlen toks).
Let us := req_units c r toks.
Let cpl := cache_protected_len (kv r).
Hypotheses (Hinv : Inv c A) (Hkv : kv_ok c A) (Hdis : disable c = false).
Hypothesis Htoks : get_fill_ids r = Ok toks.
Hypotheses (Hidx : req_pool_idx (kv r) = Some idx) (Hidx0 : 0 ≤ idx).
Hypothesis Hfull : get_row p (Some idx) = Ok full.
Hypothesis Hown : owns c A (req_ns r) us P row cpl i a.
Hypothesis Hlast : last_node r = Some i.
Hypothesis Hfit : fits (row ++ tree_slots A).

(** The protected part of the row is what the tree has. *)
Lemma protected_prefix A1 vs :
  tree_ok (cpage_size c) (is_eagle c) (root_node c) A1 →
  (∀ ns' us' vs', cached (root_node c) A ns' us' vs' → cached (root_node c) A1 ns' us' vs') →
  cached (root_node c) A1 (req_ns r) us vs → take (Z.to_nat cpl) row = take (Z.to_nat cpl) vs.
Proof.
  intros Hok Hmono Hc. pose proof (ow_node _ _ _ _ _ _ _ _ _ Hown) as Hw.
  pose proof Hw as (Hi & Hns & Hcpl & Hp). pose proof (inv_ps c A Hinv) as Hps.
  pose proof (ok_slots_len _ _ _ A (inv_tree c A Hinv) i a Hi) as Hsl.
  assert (length (take (Z.to_nat cpl) us) = Z.to_nat cpl) as Hlen.
  { rewrite length_take. unfold zlen in *. lia. }
  eapply (cached_functional (cpage_size c) (is_eagle c) (root_node c) Hps A1 Hok (req_ns r)
    (take (Z.to_nat cpl) us)).
  - rewrite zlen_take by done. by eapply (walk_aligned c A).
  - apply Hmono. exists i, a. rewrite Hp. split_and!; try done.
    rewrite <-(ow_prefix _ _ _ _ _ _ _ _ _ Hown). symmetry. apply take_ge. rewrite Hsl, Hp. lia.
  - destruct Hc as (x & b & Hx & Hbns & Hpre & ->). exists x, b. split_and!; try done.
    + etrans; [apply prefix_take|done].
    + rewrite Hlen, take_take. f_equal. unfold zlen in *. lia.
Qed.

(** The row goes into the tree and its duplicate pages to the pool. *)
Lemma unfinished_insert :
  ∃ n j c1 al A1 vs,
    insert (mkInsertParams (req_key c r toks) (Some (slice_to row (key_len (req_key c r toks))))
              chunked (Some (priority_of r))) c = Ok (n, j, c1) ∧
    kv_free_segment (slice row cpl n) cpl (kv_allocator c1) = Ok al ∧
    config c1 = config c ∧ Inv (set_kv_allocator c1 al) A1 ∧ kv_ok (set_kv_allocator c1 al) A1 ∧
    extends A A1 ∧ cached (root_node c) A1 (req_ns r) us vs ∧ fits (tree_slots A1) ∧
    take (Z.to_nat cpl) row = take (Z.to_nat cpl) vs ∧
    (∀ ns' us' vs', cached (root_node c) A ns' us' vs' → cached (root_node c) A1 ns' us' vs') ∧
    Paged.page_slots (cpage_size c) (touched (cpage_size c) P (zlen us) (zlen row)) ++
      tree_slots A1 ++ pool_slots (set_kv_allocator c1 al) ≡ₚ
    private c P row cpl ++ tree_slots A ++ pool_slots c.
Proof.
  destruct (req_key_len c A r toks Hinv) as (Hkl & Hud & _). fold us in Hkl, Hud.
  destruct (insert_req c A r toks P row cpl i a chunked (Some (priority_of r)) Hinv Hdis Hown)
    as (n & j & c1 & A1 & b & Hins & Hinv1 & Hcfg & Hi & Hle). fold us in Hi.
  pose proof (conj Hle (proj2 (is_range _ _ _ _ _ _ _ _ _ _ Hi))) as Hn.
  destruct (inserted_absorbed c c1 A A1 _ us P row cpl i a n j b Hinv Hkv Hown Hud Hinv1 Hcfg Hle Hi)
    as [_ _ Hnd Hts Hpg Hext Hmono].
  destruct (config_fields c c1 Hcfg) as (Ed & Eps & Ee & Er & _ & Ea).
  destruct (free_piece c A (req_ns r) us P row cpl n i a Hinv Hkv Hown Hn Hnd Hud (kv_allocator c1) Ea)
    as (al & Hfree & Hok & Hpsz & HP). rewrite Ea in Hpsz, HP.
  destruct (settle c A (req_ns r) us P row cpl n i a Hinv Hkv Hown Hn Hnd Hud c1 A1 al
    [] (touched (cpage_size c) P (zlen us) (zlen row)) Hcfg Hts Hpg Hok Hpsz HP) as [Hkv2 Hcons]; [done|].
  assert (cached (root_node c) A1 (req_ns r) us (take (length us) (a_slots b))) as Hc1.
  { apply (is_cached _ _ _ _ _ _ _ _ _ _ Hi). by right. }
  exists n, (Some j), c1, al, A1, (take (length us) (a_slots b)).
  split_and!; try done; [by apply Inv_set_alloc| |].
  - rewrite Hts. apply Forall_app in Hfit as [Hf1 Hf2]. apply Forall_app. split; [|done].
    unfold slice, py_slice. case_match. apply Forall_take, Forall_drop, Hf1.
  - apply (protected_prefix A1); try done. rewrite <-Eps, <-Ee, <-Er. apply Hinv1.
Qed.

(** The row as it reads after the write, cut to the tokens. *)
Lemma rewritten_row vs :
  zlen vs ≤ zlen row →
  slice_to (vs ++ drop (length vs) full) (zlen toks) = vs ++ drop (length vs) row.
Proof.
  intros Hle. unfold row in *. rewrite !slice_to_take in * by apply zlen_nonneg.
  unfold zlen in *. rewrite Nat2Z.id in *. rewrite length_take in Hle.
  rewrite take_app_ge by lia. f_equal. rewrite skipn_firstn_comm. done.
Qed.

(** What the request owns once the first pages of its row are the tree's. *)
Lemma owns_next c' A' vs Q j d :
  Inv c' A' → kv_ok c' A' → cpage_size c' = cpage_size c → root_node c' = root_node c →
  walk_at (root_node c) A' (req_ns r) us j d (zlen us) → a_slots d = vs → zlen vs = zlen us →
  (j ≠ root_node c → 1 ≤ a_held d) → vs = Paged.page_slots (cpage_size c) Q →
  Paged.page_slots (cpage_size c) (touched (cpage_size c) P (zlen us) (zlen row)) ++
    tree_slots A' ++ pool_slots c' ≡ₚ private c P row cpl ++ tree_slots A ++ pool_slots c →
  let P' := Q ++ drop (length Q) P in
  let row' := vs ++ drop (length vs) row in
  owns c' A' (req_ns r) us P' row' (zlen us) j d ∧
  private c' P' row' (zlen us) ++ tree_slots A' ++ pool_slots c' ≡ₚ
  private c P row cpl ++ tree_slots A ++ pool_slots c.
Proof.
  intros Hinv' Hkv' Eps Er Hw Hsl Hvl Hheld HQ Hcons P' row'.
  destruct (settle_facts c A _ us P row cpl i a Hinv Hown) as (Hps & _ & _ & Hul & HR).
  assert (zlen Q * cpage_size c = zlen us ∧ length vs = (length Q * Z.to_nat (cpage_size c))%nat)
    as [HlQ HlQ'].
  { pose proof (length_page_slots (cpage_size c) Hps Q) as Hl. rewrite <-HQ in Hl.
    split; [|done]. unfold zlen in *. lia. }
  destruct (row_layout_replace (cpage_size c) P Q row Hps HR) as [HR' Ht]; [lia|].
  rewrite <-HQ, <-HlQ' in HR'. rewrite HlQ in Ht.
  assert (zlen row' = zlen row) as Hlr.
  { unfold row', zlen in *. rewrite length_app, length_drop. lia. }
  assert (private c' P' row' (zlen us) =
    Paged.page_slots (cpage_size c) (touched (cpage_size c) P (zlen us) (zlen row))) as Hpr.
  { unfold private. rewrite Eps, Hlr. unfold P'. by rewrite Ht. }
  rewrite Hpr. split; [|done]. constructor.
  - by rewrite Eps.
  - by rewrite Hlr.
  - by rewrite Er.
  - rewrite Hsl, <-Hvl. unfold row', zlen. by rewrite Nat2Z.id, take_app_length.
  - by rewrite Er.
  - rewrite Hpr, Hcons. apply Hown.
Qed.

(** The intermediate states of [cache_unfinished_req] and what holds at its end. *)
Record unfinished_run (n : Z) (j0 : option nat) (c1 : RadixCache) (al : Alloc) (m : MatchResult)
    (c3 : RadixCache) (x1 : Z) (c4 : RadixCache) (x2 : Z) (c' : RadixCache) (A' : atree)
    (p' : ReqToTokenPool) (P' : list Z) (d : anode) : Prop := {
  ur_insert : insert (mkInsertParams (req_key c r toks)
    (Some (slice_to row (key_len (req_key c r toks)))) chunked (Some (priority_of r))) c = Ok (n, j0, c1);
  ur_free : kv_free_segment (slice row cpl n) cpl (kv_allocator c1) = Ok al;
  ur_match : match_prefix (req_key c r toks) (set_kv_allocator c1 al) = Ok (m, c3);
  ur_write : write (Some idx) cpl (zlen us) (slice_from (device_indices m) cpl) p = Ok p';
  ur_dec : dec_lock_ref i c3 = Ok (x1, c4);
  ur_inc : inc_lock_ref (last_device_node m) c4 = Ok (x2, c');
  ur_len : zlen (device_indices m) = zlen us;
  ur_row : get_row p' (Some idx) = Ok (device_indices m ++ drop (length (device_indices m)) full);
  ur_others k rw : 0 ≤ k → k ≠ idx → get_row p (Some k) = Ok rw → get_row p' (Some k) = Ok rw;
  ur_inv : Inv c' A';
  ur_kv : kv_ok c' A';
  ur_root : root_node c' = root_node c;
  ur_owns : owns c' A' (req_ns r) us P' (device_indices m ++ drop (length (device_indices m)) row)
              (zlen us) (last_device_node m) d;
  ur_cons : private c' P' (device_indices m ++ drop (length (device_indices m)) row) (zlen us) ++
    tree_slots A' ++ pool_slots c' ≡ₚ private c P row cpl ++ tree_slots A ++ pool_slots c;
  ur_mono ns' us' vs' : cached (root_node c) A ns' us' vs' → cached (root_node c) A' ns' us' vs';
  ur_settings : settings c' = settings c;
  ur_nodes : nodes_kept (root_node c) A A' (λ k, one_at i (-1) k + one_at (last_device_node m) 1 k);
  ur_pages : length P' = length P;
  ur_table : ∃ t, p' = set_req_to_token p t ∧ length <$> t = length <$> req_to_token p;
}.

Lemma row_of_full cp : 0 ≤ cp ≤ zlen row → take (Z.to_nat cp) full = take (Z.to_nat cp) row ∧ zlen row ≤ zlen full.
Proof.
  unfold row. rewrite slice_to_take by apply zlen_nonneg. rewrite take_take. unfold zlen.
  rewrite length_take. intros. split; [f_equal|]; lia.
Qed.

Lemma unfinished_states :
  ∃ n j0 c1 al m c3 x1 c4 x2 c' A' p' P' d,
    unfinished_run n j0 c1 al m c3 x1 c4 x2 c' A' p' P' d.
Proof.
  destruct (req_key_len c A r toks Hinv) as (Hkl & Hud & _). fold us in Hkl, Hud.
  destruct (settle_facts c A _ us P row cpl i a Hinv Hown) as (Hps & Hc0 & _ & Hul & _).
  pose proof (ow_node _ _ _ _ _ _ _ _ _ Hown) as (Hi & _ & Hcpl & _).
  destruct unfinished_insert as (n & j0 & c1 & al & A1 & vs & Hins & Hfree & Hcfg1 & Hinv2 & Hkv2 &
    Hext & Hc1 & Hfit1 & Hpre & Hmono & Hcons).
  destruct (config_fields c c1 Hcfg1) as (Ed & Eps & Ee & Er & _ & _).
  set (c2 := set_kv_allocator c1 al) in *.
  destruct (rematch_pages c2 A1 (req_ns r) us (req_key c r toks) vs Hinv2 Hkv2)
    as (m & c3 & A3 & d3 & Q & Hrun & Hinv3 & Hkv3 & Hcfg3 & Hext3 & Hw3 & Hsl & Hdev & Hvl & HQ & Hfv & HP3 & Hc3);
    try done; try (cbn; congruence).
  { destruct (req_key_user c r toks) as (? & ? & Hb). split_and!; try done. cbn. by rewrite Ee. }
  { unfold query_units. cbn [c2 is_eagle cpage_size set_kv_allocator]. rewrite Ee, Eps.
    exact (req_key_query c A r toks Hinv). }
  { apply req_key_ns. }
  destruct (config_fields c2 c3 Hcfg3) as (Ed3 & Eps3 & _ & Er3 & _). cbn in Hw3, HQ, Hc3, Eps3, Er3.
  rewrite Er in *. rewrite Eps in *.
  destruct (Hext i a Hi) as (a1 & Ha1 & _ & _ & _ & Hh1 & _).
  destruct (Hext3 i a1 Ha1) as (a3 & Ha3 & _ & _ & _ & Hh3 & _).
  destruct (relock_pair c3 A3 i a3 (last_device_node m) d3 Hinv3 Hkv3) as
    (x1 & c4 & x2 & c5 & A5 & d5 & Hdec & Hinc & Hinv5 & Hkv5 & Hcfg5 & Hj5 & Hsh & Hheld5 & HP5 & Hc5 & Hnk);
    try done; [rewrite Ed3; cbn; congruence|rewrite Er3, Hh3, Hh1; apply Hown|apply Hw3|].
  destruct (config_fields c3 c5 Hcfg5) as (_ & Eps5 & _ & Er5 & _). rewrite Er3 in *. rewrite Eps3 in *.
  destruct (row_of_full cpl) as [Hcf Hrf]; [lia|].
  destruct (write_matched p idx full vs cpl Hidx0 Hfull) as (p' & Hwr & Hrow' & Hother & Htab);
    [lia|lia|congruence|done|].
  destruct Hsh as (_ & Hk5 & _ & Hpa5 & Hs5). destruct Hw3 as (_ & Hns3 & Hm3 & Hp3).
  destruct (owns_next c5 A5 vs Q (last_device_node m) d5 Hinv5 Hkv5) as [Hown' Hcons'];
    try done; try congruence.
  { split_and!; try done; [by rewrite Hk5|lia|congruence]. }
  { by rewrite HP5, HP3, Hcons. }
  exists n, j0, c1, al, m, c3, x1, c4, x2, c5, A5, p', (Q ++ drop (length Q) P), d5.
  rewrite Hvl in Hwr. constructor; rewrite ?Hdev; try done.
  - intros ns' us' vs' Hv. by apply Hc5, Hc3, Hmono.
  - apply config_settings in Hcfg5, Hcfg3, Hcfg1. rewrite Hcfg5, Hcfg3. exact Hcfg1.
  - apply (nodes_kept_trans _ A A1 A5 (λ _, 0)); [by apply extends_kept|].
    apply (nodes_kept_trans _ A1 A3 A5 (λ _, 0)); [by apply extends_kept|exact Hnk].
  - rewrite length_app, length_drop. pose proof (row_layout_length _ Hps P row (ow_row _ _ _ _ _ _ _ _ _ Hown)) as HPl.
    pose proof (length_page_slots (cpage_size c) Hps Q) as HlQ. rewrite <-HQ in HlQ.
    enough (zlen Q ≤ zlen P) by (unfold zlen in *; lia). apply (Z.mul_le_mono_pos_r _ _ (cpage_size c) Hps). unfold zlen in *. lia.
Qed.

Lemma rest_of_row (q : Req) (ind rest : list Z) :
  (if zlen ind <? zlen (ind ++ rest)
   then set_prefix_indices q (ind ++ slice_from (ind ++ rest) (zlen ind)) else set_prefix_indices q ind) =
  set_prefix_indices q (ind ++ rest).
Proof.
  rewrite zlen_app. destruct (Z.ltb_spec (zlen ind) (zlen ind + zlen rest)) as [Hlt|Hge].
  - rewrite slice_from_drop by apply zlen_nonneg. unfold zlen. by rewrite Nat2Z.id, drop_app_length.
  - pose proof (zlen_nonneg rest). rewrite (zlen_0 rest) by lia. by rewrite app_nil_r.
Qed.

Lemma unfinished_spec :
  ∃ r' p' c' A' full' P' j d,
    cache_unfinished_req r chunked p c = Ok (r', p', c') ∧ Inv c' A' ∧ kv_ok c' A' ∧
    root_node c' = root_node c ∧ get_row p' (Some idx) = Ok full' ∧
    (∀ k rw, 0 ≤ k → k ≠ idx → get_row p (Some k) = Ok rw → get_row p' (Some k) = Ok rw) ∧
    let row' := slice_to full' (zlen toks) in
    cache_protected_len (kv r') = zlen us ∧ req_pool_idx (kv r') = Some idx ∧
    last_node r' = Some j ∧ prefix_indices r' = row' ∧
    owns c' A' (req_ns r) us P' row' (zlen us) j d ∧
    private c' P' row' (zlen us) ++ tree_slots A' ++ pool_slots c' ≡ₚ
      private c P row cpl ++ tree_slots A ++ pool_slots c ∧
    (∀ ns' us' vs', cached (root_node c) A ns' us' vs' → cached (root_node c) A' ns' us' vs') ∧
    r' = set_last_node (set_prefix_indices (set_kv r (set_cache_protected_len (kv r) (zlen us))) row') (Some j) ∧
    settings c' = settings c ∧ nodes_kept (root_node c) A A' (λ k, one_at i (-1) k + one_at j 1 k) ∧ length P' = length P ∧
    (∃ t, p' = set_req_to_token p t ∧ length <$> t = length <$> req_to_token p).
Proof.
  destruct (req_key_len c A r toks Hinv) as (Hkl & _ & _). fold us in Hkl.
  pose proof (ow_us _ _ _ _ _ _ _ _ _ Hown) as Hul.
  destruct unfinished_states as (n & j0 & c1 & al & m & c3 & x1 & c4 & x2 & c' & A' & p' & P' & d & U).
  destruct U as [Uins Ufree Umatch Uwrite Udec Uinc Ulen Urow Uothers Uinv Ukv Uroot Uowns Ucons Umono Uset Unodes Upages Utable].
  pose proof (rewritten_row (device_indices m) ltac:(lia)) as Hrr.
  unfold cache_unfinished_req. rewrite Hdis, Htoks, bind_ret, Hidx, Hfull, bind_ret. cbv zeta.
  fold row cpl. rewrite Uins, bind_ret. cbv beta iota. rewrite Ufree, bind_ret, Umatch, bind_ret.
  cbv beta iota. rewrite Ulen, Hkl, Z.eqb_refl. cbn [negb]. rewrite Uwrite, bind_ret.
  cbn [last_node set_kv]. rewrite Hlast, Udec, bind_ret. cbv beta iota. rewrite Uinc, bind_ret.
  cbv beta iota. cbn [kv set_kv req_pool_idx set_cache_protected_len].
  rewrite Hidx, Urow, bind_ret. cbv zeta. rewrite Hrr, <-Ulen, rest_of_row.
  do 2 eexists. exists c', A', (device_indices m ++ drop (length (device_indices m)) full), P',
    (last_device_node m), d.
  split; [done|]. split; [done|]. split; [done|]. split; [done|]. split; [done|].
  split; [done|]. cbv zeta. rewrite Hrr. rewrite Ulen. split_and!; done.
Qed.
End step.
End unfinished.
