(* ===== verification/ReqTheorems.v ===== *)
(** * What requests can rely on

    The properties of the request side of the prefix cache: caching a running
    request keeps its ownership, finishing and releasing it gives every page
    back, with instances on a concrete cache. *)

From S2P Require Import Prelude RadixKey PrefixTree TreeNode Allocator Events RadixCache RadixInv.
From S2P Require Import RadixWalk RadixInsert RadixLock RadixEvict RadixTheorems ReqPool ReqCache.
From S2P Require Import ReqOwnership.
Import (hints) Demo.

(** ** The released row *)

Section release.
Context (ps : Z) (P : list Z).
Hypothesis Hps : 0 < ps.

(** The pages past the first [e] positions start at the next page boundary. *)
Lemma touched_ceil s e f :
  0 ≤ s ≤ e → e ≤ f → (ps | s) →
  touched ps P s f = touched ps P s e ++ touched ps P (ceil_align e ps) f.
Proof.
  intros Hs He Hd. destruct (ceil_align_spec e ps Hps) as (Hc1 & Hc2 & Hc3).
  assert (touched ps P s e = touched ps P s (ceil_align e ps)) as ->.
  { rewrite !touched_aligned by (done || lia). unfold ceil_align in *.
    by rewrite (ceil_aligned ps Hps). }
  destruct (Z.le_gt_cases (ceil_align e ps) f) as [Hle|Hgt].
  { rewrite (touched_split ps P Hps s (ceil_align e ps)) by (done || lia). done. }
  rewrite (touched_empty ps P (ceil_align e ps) f) by lia. rewrite app_nil_r.
  rewrite !touched_aligned by (done || lia). unfold ceil_align in *. rewrite (ceil_aligned ps Hps).
  do 3 f_equal. pose proof (Z.div_mod (f + ps - 1) ps). pose proof (Z.mod_pos_bound (f + ps - 1) ps).
  pose proof (Z.div_mod (e + ps - 1) ps). pose proof (Z.mod_pos_bound (e + ps - 1) ps).
  assert ((e + ps - 1) / ps ≤ (f + ps - 1) / ps) by (apply Z.div_le_mono; lia). nia.
Qed.
End release.

Lemma row_layout_take ps P row n : row_layout ps P row → row_layout ps P (take n row).
Proof. intros HR i x [Hx _]%lookup_take_Some. by apply HR. Qed.

(** Segments above the eviction floor are all alive. *)
Lemma free_kv_row_alive `{KVAllocator} `{KVFree} kv0 p full a s e :
  get_row p (req_pool_idx kv0) = Ok full → swa_evicted_seqlen kv0 ≤ s → s < e → 0 ≤ s →
  e ≤ zlen full →
  free_kv_row kv0 [(s, e)] p a = kv_free_segments [(slice full s e, s)] a.
Proof.
  intros Hrow Hfl Hse Hs He. unfold free_kv_row. rewrite Hrow. cbn [mbind res_bind fmap list_fmap].
  unfold free_kv_row_segments. cbn [split_segments]. rewrite zlen_slice by lia.
  destruct (Z.eqb_spec (e - s) 0); [lia|]. rewrite Z.max_r, Z.min_l by lia.
  destruct (Z.gtb_spec 0 0); [lia|]. destruct (Z.ltb_spec 0 (e - s)); [|lia].
  rewrite Z.add_0_r, slice_from_drop by lia. done.
Qed.

Section owns_prefix.
Context `{KVAllocator}.

(** Ownership of a row is ownership of a shorter piece of it, and the pages of
    the rest. *)
Lemma owns_shorter c A ns us P full n i a cpl m :
  Inv c A → owns c A ns us P (slice_to full n) cpl i a → zlen us ≤ m ≤ n → n ≤ zlen full →
  owns c A ns us P (slice_to full m) cpl i a ∧
  private c P (slice_to full n) cpl = private c P (slice_to full m) cpl ++
    Paged.page_slots (cpage_size c) (touched (cpage_size c) P (ceil_align m (cpage_size c)) n).
Proof.
  intros Hinv Hown Hm Hn. pose proof (inv_ps c A Hinv) as Hps. pose proof (zlen_nonneg us).
  pose proof (ow_node _ _ _ _ _ _ _ _ _ Hown) as Hw. pose proof Hw as (_ & _ & Hcpl & _).
  assert (zlen (slice_to full n) = n ∧ zlen (slice_to full m) = m) as [Ln Lm].
  { rewrite !zlen_slice_to by lia. lia. }
  assert (private c P (slice_to full n) cpl = private c P (slice_to full m) cpl ++
    Paged.page_slots (cpage_size c) (touched (cpage_size c) P (ceil_align m (cpage_size c)) n)) as E.
  { unfold private. rewrite Ln, Lm, <-page_slots_app. f_equal. apply touched_ceil; try lia; try done.
    by eapply (walk_aligned c A). }
  split; [|done]. destruct Hown as [O1 O2 O3 O4 O5 O6].
  assert (slice_to full m = take (Z.to_nat m) (slice_to full n)) as Et.
  { rewrite !slice_to_take, take_take by lia. f_equal. lia. }
  constructor; try done.
  - rewrite Et. by apply row_layout_take.
  - rewrite Lm. lia.
  - rewrite O4, Et, take_take. f_equal. lia.
  - rewrite E in O6. eapply sublist_NoDup; [exact O6|]. rewrite <-app_assoc.
    apply sublist_app; [done|]. by apply sublist_inserts_l.
Qed.
End owns_prefix.

(** Giving back the over-allocated end of a row. *)
Lemma release_rest `{KVAllocator} `{KVFree} no c A k p full P len :
  Inv c A → kv_ok c A → get_row p (req_pool_idx k) = Ok full → swa_evicted_seqlen k = 0 →
  0 ≤ len ≤ kv_allocated_len k → kv_allocated_len k ≤ zlen full →
  (no = true → len = kv_allocated_len k) →
  row_layout (cpage_size c) P (slice_to full (kv_allocated_len k)) →
  let rest := Paged.page_slots (cpage_size c)
    (touched (cpage_size c) P (ceil_align len (cpage_size c)) (kv_allocated_len k)) in
  NoDup (rest ++ tree_slots A ++ pool_slots c) →
  ∃ al, release_overallocated_kv_indices no k len (kv_allocated_len k) p (kv_allocator c) = Ok al ∧
    kv_ok (set_kv_allocator c al) A ∧
    tree_slots A ++ pool_slots (set_kv_allocator c al) ≡ₚ rest ++ tree_slots A ++ pool_slots c.
Proof.
  intros Hinv [K1 K2 K3 K4] Hrow Hswa Hlen Hfull Hno HR rest Hnd.
  pose proof (inv_ps c A Hinv) as Hps. set (e := kv_allocated_len k) in *.
  unfold release_overallocated_kv_indices. cbv zeta. rewrite K2.
  assert (no && negb (len =? e) = false) as ->.
  { destruct no; [|done]. rewrite Hno by done. by rewrite Z.eqb_refl. }
  assert ((if cpage_size c >? 1 then ceil_align len (cpage_size c) else len) =
          ceil_align len (cpage_size c)) as ->.
  { destruct (Z.gtb_spec (cpage_size c) 1); [done|]. assert (cpage_size c = 1) as -> by lia.
    unfold ceil_align. rewrite Z.div_1_r. lia. }
  destruct (ceil_align_spec len (cpage_size c) Hps) as (Hc1 & _ & _).
  set (s := ceil_align len (cpage_size c)) in *.
  destruct (Z.ltb_spec s e) as [Hlt|Hge]; last first.
  { exists (kv_allocator c). unfold rest. rewrite touched_empty by lia.
    split; [done|]. split; [by constructor|done]. }
  rewrite (free_kv_row_alive k p full _ s e) by (done || lia).
  destruct (free_segments_spec (kv_allocator c) P (slice_to full e) [(s, e)])
    as (al & Hfree & Hok & Hpsz & HP).
  - done.
  - by rewrite K2.
  - cbn [ascending]. rewrite zlen_slice_to by lia. lia.
  - rewrite K2. cbn [touched_ranges]. destruct (Z.eqb_spec s e); [lia|]. rewrite app_nil_r.
    apply (NoDup_page_slots _ Hps). rewrite page_slots_app. fold rest.
    eapply sublist_NoDup; [exact Hnd|]. apply sublist_app; [done|]. by apply sublist_inserts_l.
  - exists al. cbn [fmap list_fmap touched_ranges] in Hfree, HP. rewrite K2 in HP.
    destruct (Z.eqb_spec s e); [lia|]. rewrite app_nil_r in HP.
    replace (slice (slice_to full e) s e) with (slice full s e) in Hfree.
    2:{ rewrite slice_to_take, !slice_take_drop, skipn_firstn_comm, take_take by lia. f_equal. lia. }
    split; [done|].
    assert (tree_slots A ++ pool_slots (set_kv_allocator c al) ≡ₚ rest ++ tree_slots A ++ pool_slots c) as HT.
    { unfold pool_slots. cbn [cpage_size kv_allocator set_kv_allocator].
      rewrite HP, page_slots_app. fold rest. solve_Permutation. }
    split; [|done]. constructor; try done.
    + cbn. by rewrite Hpsz.
    + unfold pool_slots in HT at 1. rewrite HT. done.
Qed.

(** ** A concrete request for the witnesses *)

Module ReqDemo.
(** Pages of one slot; the request holds row 1 with the slots 1 to 3. *)
Definition req0 : Req :=
  mkReq [1; 2; 3] [] [1; 2; 3] false (Some (0, 3)) None None None 0 [] (Some 0%nat) false
    (mkKv (Some 1) 0 3 3 0 0).
Definition pool0 : ReqToTokenPool :=
  mkPool 2 3 4 [[0; 0; 0; 0]; [1; 2; 3; 0]; [0; 0; 0; 0]] [2] [0; 1; 0].
#[export] Instance free0 : KVFree := Token.free.

Lemma fresh_kv : kv_ok Demo.fresh (root_tree 0).
Proof.
  constructor; [reflexivity|reflexivity| |].
  - change (cpage_size Demo.fresh) with 1. apply Demo.paged_1.
  - by_evaluation.
Qed.

Lemma owns0 :
  ∃ a, owns Demo.fresh (root_tree 0) (req_ns req0) (req_units Demo.fresh req0 [1; 2; 3])
         [1; 2; 3] [1; 2; 3] 0 0%nat a.
Proof.
  eexists. constructor.
  - intros i x Hx. do 3 (destruct i as [|i]; [injection Hx as <-; eexists; vm_compute; done|]).
    discriminate.
  - vm_compute. discriminate.
  - split; [vm_compute; reflexivity|]. split; [done|]. split; [vm_compute; split; discriminate|].
    reflexivity.
  - reflexivity.
  - intros Hne. exfalso. apply Hne. reflexivity.
  - by_evaluation.
Qed.
End ReqDemo.
Import (hints) ReqDemo.

(** ** Properties *)

(** C5: finishing a request loses no page.  When a finished request owns its row,
    caching it ([cache_finished_req]) succeeds and keeps the invariants, and the
    slots in the tree and the allocator's pool afterwards are exactly those they
    held before together with the request's own: what is new in the row went to
    the tree, duplicates and the unaligned tail went to the pool, nothing was
    lost or freed twice.  Rows that were cached stay cached, and with insertion
    on, the request's whole page-aligned row is cached. *)
Theorem finished_req_conserves_pages `{Clock} `{SetOrder} `{HashLaws} `{KVAllocator} `{KVFree}
    (r : Req) (is_insert : bool) (len : Z) (p : ReqToTokenPool) (c : RadixCache) (A : atree)
    (full P : list Z) (i : nat) (a : anode)
    (toks := slice_to (origin_input_ids r ++ output_ids r) len) :
  Inv c A → kv_ok c A → disable c = false → get_row p (req_pool_idx (kv r)) = Ok full →
  owns c A (req_ns r) (req_units c r toks) P (slice_to full (zlen toks))
    (cache_protected_len (kv r)) i a →
  last_node r = Some i →
  ∃ c' A', cache_finished_req r is_insert len p c = Ok c' ∧ Inv c' A' ∧ kv_ok c' A' ∧
    tree_slots A' ++ pool_slots c' ≡ₚ
      private c P (slice_to full (zlen toks)) (cache_protected_len (kv r)) ++
      tree_slots A ++ pool_slots c ∧
    (∀ ns us vs, cached (root_node c) A ns us vs → cached (root_node c) A' ns us vs) ∧
    (is_insert = true → disable_finished_insert c = false →
       ∃ vs, cached (root_node c) A' (req_ns r) (req_units c r toks) vs).
Proof.
  intros Hinv Hkv Hdis Hrow Hown Hlast.
  destruct (finish_spec r is_insert len p c A full P i a Hinv Hkv Hdis Hrow Hown Hlast)
    as (c' & A' & ? & ? & ? & _ & ? & ? & ? & _). by exists c', A'.
Qed.

Lemma finished_req_conserves_pages_witness :
  ∃ c' A', cache_finished_req ReqDemo.req0 true 3 ReqDemo.pool0 Demo.fresh = Ok c' ∧ Inv c' A' ∧
    tree_slots A' ++ pool_slots c' ≡ₚ [1; 2; 3; 7; 8; 9; 10; 11; 12] ∧
    ∃ vs, cached (root_node c') A' (req_ns ReqDemo.req0)
            (req_units Demo.fresh ReqDemo.req0 [1; 2; 3]) vs.
Proof.
  destruct ReqDemo.owns0 as [a Hown].
  destruct (finished_req_conserves_pages ReqDemo.req0 true 3 ReqDemo.pool0 Demo.fresh (root_tree 0)
    [1; 2; 3; 0] [1; 2; 3] 0%nat a) as (c' & A' & H1 & H2 & _ & H4 & _ & H6).
  - apply Demo.fresh_inv.
  - apply ReqDemo.fresh_kv.
  - reflexivity.
  - reflexivity.
  - exact Hown.
  - reflexivity.
  - exists c', A'. split; [exact H1|]. split; [exact H2|]. split.
    + rewrite H4. vm_compute. reflexivity.
    + assert (root_node c' = root_node Demo.fresh) as ->.
      { vm_compute in H1. apply (inj Ok) in H1. rewrite <-H1. reflexivity. }
      apply H6; reflexivity.
Defined.

(** Caching a request half-way keeps it the owner of its row.  After
    [cache_unfinished_req] the row starts with the tree's own slots for the whole
    page-aligned key, [cache_protected_len] is that length, the request holds a
    lock on the node that covers it instead of the old one, [prefix_indices] is
    the row, and the ownership predicate holds again; the rows of other requests
    are untouched and all slots together are conserved.  The row table stores
    32-bit integers, so slot numbers must fit. *)
Theorem unfinished_req_keeps_ownership `{Clock} `{SetOrder} `{HashLaws} `{KVAllocator} `{KVFree}
    (r : Req) (chunked : bool) (p : ReqToTokenPool) (c : RadixCache) (A : atree)
    (toks full P : list Z) (idx : Z) (i : nat) (a : anode)
    (us := req_units c r toks) (row := slice_to full (zlen toks)) :
  Inv c A → kv_ok c A → disable c = false → get_fill_ids r = Ok toks →
  req_pool_idx (kv r) = Some idx → 0 ≤ idx → get_row p (Some idx) = Ok full →
  owns c A (req_ns r) us P row (cache_protected_len (kv r)) i a → last_node r = Some i →
  Forall (λ x, 0 ≤ x < 2 ^ 31) (row ++ tree_slots A) →
  ∃ r' p' c' A' full' P' j d, cache_unfinished_req r chunked p c = Ok (r', p', c') ∧
    Inv c' A' ∧ kv_ok c' A' ∧ root_node c' = root_node c ∧ get_row p' (Some idx) = Ok full' ∧
    (∀ k rw, 0 ≤ k → k ≠ idx → get_row p (Some k) = Ok rw → get_row p' (Some k) = Ok rw) ∧
    let row' := slice_to full' (zlen toks) in
    cache_protected_len (kv r') = zlen us ∧ req_pool_idx (kv r') = Some idx ∧
    last_node r' = Some j ∧ prefix_indices r' = row' ∧
    owns c' A' (req_ns r) us P' row' (zlen us) j d ∧
    private c' P' row' (zlen us) ++ tree_slots A' ++ pool_slots c' ≡ₚ
      private c P row (cache_protected_len (kv r)) ++ tree_slots A ++ pool_slots c ∧
    (∀ ns' us' vs, cached (root_node c) A ns' us' vs → cached (root_node c) A' ns' us' vs).
Proof.
  intros Hinv Hkv Hdis Htoks Hidx Hidx0 Hfull Hown Hlast Hfit.
  destruct (unfinished_spec r chunked p c A toks full P idx i a Hinv Hkv Hdis Htoks Hidx Hidx0 Hfull Hown Hlast Hfit)
    as (r' & p' & c' & A' & full' & P' & j & d & U1 & U2 & U3 & U4 & U5 & U6 & U7 & U8 & U9 & U10 & U11 & U12 & U13 & _).
  exists r', p', c', A', full', P', j, d. by split_and!.
Qed.

Lemma unfinished_req_keeps_ownership_witness :
  ∃ r' p' c', cache_unfinished_req ReqDemo.req0 false ReqDemo.pool0 Demo.fresh = Ok (r', p', c') ∧
    cache_protected_len (kv r') = 3 ∧ prefix_indices r' = [1; 2; 3].
Proof.
  destruct ReqDemo.owns0 as [a Hown].
  destruct (unfinished_req_keeps_ownership ReqDemo.req0 false ReqDemo.pool0 Demo.fresh (root_tree 0)
    [1; 2; 3] [1; 2; 3; 0] [1; 2; 3] 1 0%nat a)
    as (r' & p' & c' & A' & full' & P' & j & d & H1 & _ & _ & _ & H5 & _ & H7 & _ & _ & H10 & _).
  - apply Demo.fresh_inv.
  - apply ReqDemo.fresh_kv.
  - reflexivity.
  - reflexivity.
  - reflexivity.
  - lia.
  - reflexivity.
  - exact Hown.
  - reflexivity.
  - by_evaluation.
  - exists r', p', c'. split; [exact H1|]. split; [exact H7|]. rewrite H10.
    assert (get_row p' (Some 1) = Ok [1; 2; 3; 0]) as E.
    { vm_compute in H1. apply (inj Ok) in H1. injection H1 as _ <- _. reflexivity. }
    rewrite E in H5. apply (inj Ok) in H5. rewrite <-H5. reflexivity.
Defined.

(** Releasing a request; without insertion only the locks of the tree change. *)
Lemma release_kv_spec `{Clock} `{SetOrder} `{HashLaws} `{KVAllocator} `{KVFree}
    (spec_none strip is_insert : bool) (r : Req) (p : ReqToTokenPool) (c : RadixCache) (A : atree)
    (full P others : list Z) (idx : Z) (i : nat) (a : anode)
    (len := effective_kv_committed_len strip r)
    (toks := slice_to (origin_input_ids r ++ output_ids r) len)
    (row := slice_to full (kv_allocated_len (kv r))) :
  Inv c A → kv_ok c A → disable c = false →
  req_pool_idx (kv r) = Some idx → get_row p (Some idx) = Ok full → pool_ok p (idx :: others) →
  last_node r = Some i → swa_evicted_seqlen (kv r) = 0 → 0 < kv_allocated_len (kv r) →
  zlen toks = len → len ≤ kv_allocated_len (kv r) ≤ zlen full →
  (spec_none && negb strip = true → len = kv_allocated_len (kv r)) →
  owns c A (req_ns r) (req_units c r toks) P row (cache_protected_len (kv r)) i a →
  ∃ r' p' c' A', release_kv_cache spec_none strip r is_insert p c = Ok (r', p', c') ∧
    Inv c' A' ∧ kv_ok c' A' ∧
    tree_slots A' ++ pool_slots c' ≡ₚ
      private c P row (cache_protected_len (kv r)) ++ tree_slots A ++ pool_slots c ∧
    pool_ok p' others ∧ (r' = set_kv r (mark_kv_released (set_req_pool_idx (kv r) None)) ∧ req_to_token p' = req_to_token p) ∧
    settings c' = settings c ∧ (is_insert = false → relocked (root_node c) A A' i (-1)) ∧
    nodes_kept (root_node c) A A' (one_at i (-1)) ∧ max_context_len p' = max_context_len p.
Proof.
  intros Hinv Hkv Hdis Hidx Hfull Hpool Hlast Hswa Hal Htl Hlen Hspec Hown.
  destruct (req_key_len c A r toks Hinv) as (_ & _ & Hus).
  destruct (owns_shorter c A _ _ P full _ i a _ len Hinv Hown) as [Hown1 Hsplit]; [lia|lia|].
  rewrite <-Htl in Hown1 at 1.
  destruct (finish_spec r (is_insert && negb (skip_radix_cache_insert r)) len p c A full P i a
    Hinv Hkv Hdis ltac:(by rewrite Hidx) Hown1 Hlast)
    as (c1 & A1 & Hrun & Hinv1 & Hkv1 & [_ Eps] & HP & _ & _ & Hset & Hre & Hnk). fold toks in HP. rewrite Htl in HP.
  pose proof (ow_nodup _ _ _ _ _ _ _ _ _ Hown) as Hnd. unfold row in Hnd. rewrite Hsplit in Hnd.
  pose proof (zlen_nonneg toks).
  destruct (release_rest (spec_none && negb strip) c1 A1 (kv r) p full P len Hinv1 Hkv1)
    as (al & Hrest & Hkv2 & HP2); try done; try lia; [by rewrite Hidx| | |].
  { rewrite Eps. apply Hown. }
  { rewrite HP, !app_assoc. rewrite !app_assoc in Hnd. rewrite Eps in *.
    by rewrite (Permutation_app_comm (Paged.page_slots _ _)). }
  unfold release_kv_cache.
  assert (holds_kv (kv r) = true) as -> by (unfold holds_kv; by rewrite Hidx).
  assert (is_kv_released (kv r) = false) as ->.
  { unfold is_kv_released. destruct (Z.eqb_spec (kv_allocated_len (kv r)) 0); [lia|done]. }
  cbn [negb Bool.eqb]. cbv zeta. fold len. rewrite Hrun. cbn [mbind res_bind]. rewrite Hrest.
  cbn [mbind res_bind]. unfold ReqToToken.free. rewrite Hidx. cbn [mbind res_bind].
  do 2 eexists. exists (set_kv_allocator c1 al), A1. split; [done|].
  split; [by apply Inv_set_alloc|]. split; [done|]. split.
  - rewrite HP2, HP. unfold row. rewrite Hsplit, Eps. solve_Permutation.
  - split_and!; try done.
    + destruct Hpool as [Hp1 Hp2 Hp3]. constructor; try done. simpl. rewrite <-Hp1. solve_Permutation.
    + intros ->. by apply Hre.
Qed.

(** Releasing a request gives everything back.  For a request that owns its
    row up to the allocated length, committed or over-allocated,
    [release_kv_cache] succeeds; afterwards the tree and the pool hold exactly
    what they held before plus all the request's pages, its row number is free
    again and the request is marked as released. *)
Theorem release_returns_everything `{Clock} `{SetOrder} `{HashLaws} `{KVAllocator} `{KVFree}
    (spec_none strip is_insert : bool) (r : Req) (p : ReqToTokenPool) (c : RadixCache) (A : atree)
    (full P others : list Z) (idx : Z) (i : nat) (a : anode)
    (len := effective_kv_committed_len strip r)
    (toks := slice_to (origin_input_ids r ++ output_ids r) len)
    (row := slice_to full (kv_allocated_len (kv r))) :
  Inv c A → kv_ok c A → disable c = false →
  req_pool_idx (kv r) = Some idx → get_row p (Some idx) = Ok full → pool_ok p (idx :: others) →
  last_node r = Some i → swa_evicted_seqlen (kv r) = 0 → 0 < kv_allocated_len (kv r) →
  zlen toks = len → len ≤ kv_allocated_len (kv r) ≤ zlen full →
  (spec_none && negb strip = true → len = kv_allocated_len (kv r)) →
  owns c A (req_ns r) (req_units c r toks) P row (cache_protected_len (kv r)) i a →
  ∃ r' p' c' A', release_kv_cache spec_none strip r is_insert p c = Ok (r', p', c') ∧
    Inv c' A' ∧ kv_ok c' A' ∧
    tree_slots A' ++ pool_slots c' ≡ₚ
      private c P row (cache_protected_len (kv r)) ++ tree_slots A ++ pool_slots c ∧
    pool_ok p' others ∧ holds_kv (kv r') = false ∧ is_kv_released (kv r') = true.
Proof.
  intros Hinv Hkv Hdis Hidx Hfull Hpool Hlast Hswa Hal Htl Hlen Hspec Hown.
  destruct (release_kv_spec spec_none strip is_insert r p c A full P others idx i a Hinv Hkv Hdis Hidx
    Hfull Hpool Hlast Hswa Hal Htl Hlen Hspec Hown)
    as (r' & p' & c' & A' & Hrun & Hinv' & Hkv' & HP & Hp' & [-> _] & _).
  do 4 eexists. split; [exact Hrun|]. by split_and!.
Qed.

Lemma release_returns_everything_witness :
  ∃ r' p' c' A', release_kv_cache true false ReqDemo.req0 true ReqDemo.pool0 Demo.fresh = Ok (r', p', c') ∧
    tree_slots A' ++ pool_slots c' ≡ₚ [1; 2; 3; 7; 8; 9; 10; 11; 12] ∧ pool_ok p' [].
Proof.
  destruct ReqDemo.owns0 as [a Hown].
  destruct (release_returns_everything true false true ReqDemo.req0 ReqDemo.pool0 Demo.fresh
    (root_tree 0) [1; 2; 3; 0] [1; 2; 3] [] 1 0%nat a) as (r' & p' & c' & A' & H1 & _ & _ & H4 & H5 & _).
  - apply Demo.fresh_inv.
  - apply ReqDemo.fresh_kv.
  - reflexivity.
  - reflexivity.
  - reflexivity.
  - constructor; [by_evaluation|reflexivity|reflexivity|by split].
  - reflexivity.
  - reflexivity.
  - vm_compute. reflexivity.
  - reflexivity.
  - vm_compute. split; discriminate.
  - reflexivity.
  - exact Hown.
  - exists r', p', c', A'. split; [exact H1|]. split; [|exact H5]. rewrite H4. vm_compute. reflexivity.
Defined.
