(* ===== verification/ChunkCache.v ===== *)
(** * The cache without a tree, and sliding-window frees

    [ChunkCache], [SWAChunkCache] and [PureSWAChunkCache]
    ([mem_cache/chunk_cache.py]), used when the radix cache is off, and
    [free_swa_out_of_window_slots] ([mem_cache/common.py]), which frees the slots
    that have left the attention window of a running request.  The sliding-window
    pool is an argument: its [free_swa] is passed to the operation that calls it. *)

From S2P Require Import Prelude RadixKey TreeNode Allocator Events RadixCache ReqPool ReqCache.

Record ChunkCache := mkChunk {
  ch_page_size : Z;
  ch_sliding_window_size : option Z;
  ch_allocator : Alloc;
}.

Definition set_ch_allocator (c : ChunkCache) x :=
  mkChunk (ch_page_size c) (ch_sliding_window_size c) x.

Module Chunk.
Section operations.
Context `{KVAllocator} `{KVFree}.

(** [MatchResult]: no slots and no node. *)
Definition match_prefix (c : ChunkCache) : list Z * option nat := ([], None).
(** [InsertResult.prefix_len] *)
Definition insert (c : ChunkCache) : Z := 0.
Definition evict (num_tokens : Z) (c : ChunkCache) : Z * ChunkCache := (0, c).
Definition inc_lock_ref (c : ChunkCache) : Z * ChunkCache := (0, c).
Definition dec_lock_ref (c : ChunkCache) : Z * ChunkCache := (0, c).
Definition protected_size (c : ChunkCache) : Z := 0.

Definition cache_finished_req (r : Req) (kv_len_to_handle : Z) (p : ReqToTokenPool)
    (c : ChunkCache) : res ChunkCache :=
  a ← free_kv_row (kv r) [(cache_protected_len (kv r), kv_len_to_handle)] p (ch_allocator c);
  Ok (set_ch_allocator c a).

Definition cache_unfinished_req (r : Req) (p : ReqToTokenPool) : res Req :=
  e ← extend_end r;
  row ← get_row p (req_pool_idx (kv r));
  Ok (set_prefix_indices r (slice_to row e)).

(** [supports_swa] of [SWAChunkCache]. *)
Definition supports_swa (c : ChunkCache) : res bool :=
  match ch_sliding_window_size c with Some _ => Ok true | None => Err AssertionError end.
End operations.
End Chunk.

Module PureSWA.
(** The slots [PureSWAChunkCache.cache_finished_req] hands to [free]; [None] when
    it does not call it. *)
Definition finished_parts (k : ReqKvInfo) (kv_committed_len : Z) (row : list Z) : option (list Z) :=
  let kv_indices := slice_to row kv_committed_len in
  let protected_len := cache_protected_len k in
  let evict_floor := swa_evict_floor k in
  let evicted_seqlen := swa_evicted_seqlen k in
  if evicted_seqlen >? evict_floor then
    let parts :=
      (if evict_floor >? protected_len then [slice kv_indices protected_len evict_floor] else []) ++
      (if evicted_seqlen <? kv_committed_len
       then [slice kv_indices (Z.max evicted_seqlen protected_len) kv_committed_len] else []) in
    match parts with [] => None | _ => Some (concat parts) end
  else Some (slice_from kv_indices protected_len).

Definition cache_finished_req (free : list Z → Alloc → res Alloc) (r : Req) (kv_len : Z)
    (p : ReqToTokenPool) (c : ChunkCache) : res ChunkCache :=
  row ← get_row p (req_pool_idx (kv r));
  match finished_parts (kv r) kv_len row with
  | Some slots => a ← free slots (ch_allocator c); Ok (set_ch_allocator c a)
  | None => Ok c
  end.
End PureSWA.

(** ** [free_swa_out_of_window_slots] *)

Definition evict_threshold (pre_len sliding_window_size page_size : Z) (is_chunk_cache : bool)
    (retain_floor : option Z) : Z :=
  let threshold :=
    if is_chunk_cache then pre_len - sliding_window_size
    else pre_len - Z.max sliding_window_size page_size in
  match retain_floor with
  | Some f => if negb is_chunk_cache then Z.min threshold f else threshold
  | None => threshold
  end.

Definition free_swa_out_of_window_slots (free_swa : list Z → Alloc → res Alloc) (k : ReqKvInfo)
    (pre_len sliding_window_size page_size : Z) (is_chunk_cache : bool) (retain_floor : option Z)
    (p : ReqToTokenPool) (a : Alloc) : res (ReqKvInfo * Alloc) :=
  if negb (holds_kv k) then Ok (k, a)
  else if negb (cache_protected_len k mod page_size =? 0) then Err AssertionError
  else
    let k := set_swa_evicted_seqlen k (Z.max (swa_evicted_seqlen k) (swa_dead_lo k page_size)) in
    let threshold := evict_threshold pre_len sliding_window_size page_size is_chunk_cache retain_floor in
    let new_len := Z.max (swa_evicted_seqlen k) threshold in
    let new_len := if page_size >? 1 then new_len / page_size * page_size else new_len in
    if new_len >? swa_evicted_seqlen k then
      row ← get_row p (req_pool_idx k);
      a ← free_swa (slice row (swa_evicted_seqlen k) new_len) a;
      Ok (set_swa_evicted_seqlen k new_len, a)
    else Ok (k, a).

(** ** Lemmas on slices of a row *)

Lemma slice_slice_to {A} (l : list A) n a b :
  0 ≤ n ≤ zlen l → 0 ≤ a → 0 ≤ b → slice (slice_to l n) a b = slice l a (Z.min b n).
Proof.
  intros Hn Ha Hb. destruct (Z.le_gt_cases a (Z.min b n)) as [Hle|Hgt].
  - rewrite !slice_take_drop by lia. rewrite slice_to_take, skipn_firstn_comm, take_take by lia.
    f_equal. lia.
  - rewrite (slice_empty l) by lia. destruct (Z.le_gt_cases b a); [by rewrite slice_empty by lia|].
    rewrite slice_take_drop, slice_to_take, drop_ge by (rewrite ?length_take; lia). by rewrite take_nil.
Qed.

Lemma slice_split {A} (l : list A) a b e :
  0 ≤ a ≤ b → b ≤ e → slice l a b ++ slice l b e = slice l a e.
Proof.
  intros. rewrite !slice_take_drop by lia.
  replace (drop (Z.to_nat b) l) with (drop (Z.to_nat (b - a)) (drop (Z.to_nat a) l))
    by (rewrite drop_drop; f_equal; lia).
  rewrite take_take_drop. f_equal. lia.
Qed.

Lemma slice_to_from_slice {A} (l : list A) n a :
  0 ≤ n ≤ zlen l → 0 ≤ a → slice_from (slice_to l n) a = slice l a n.
Proof.
  intros Hn Ha. rewrite slice_from_drop, slice_to_take by lia.
  destruct (Z.le_gt_cases a n).
  - rewrite slice_take_drop, skipn_firstn_comm by lia. f_equal. lia.
  - rewrite slice_empty, drop_ge by (rewrite ?length_take; lia). done.
Qed.

(** ** Properties *)

(** With the radix cache off, finishing a request frees exactly its own pages:
    those under the positions from the protected length to the committed one,
    each once. *)
Theorem chunk_finished_frees_own `{KVAllocator} `{KVFree} (c : ChunkCache) (r : Req)
    (p : ReqToTokenPool) (full P : list Z) (len : Z) :
  alloc_ok (ch_allocator c) → get_row p (req_pool_idx (kv r)) = Ok full →
  row_layout (page_size (ch_allocator c)) P full → swa_evicted_seqlen (kv r) = 0 →
  0 ≤ cache_protected_len (kv r) ≤ len → len ≤ zlen full →
  NoDup (touched (page_size (ch_allocator c)) P (cache_protected_len (kv r)) len ++
         pool (ch_allocator c)) →
  ∃ c', Chunk.cache_finished_req r len p c = Ok c' ∧ alloc_ok (ch_allocator c') ∧
    pool (ch_allocator c') ≡ₚ
      touched (page_size (ch_allocator c)) P (cache_protected_len (kv r)) len ++ pool (ch_allocator c).
Proof.
  intros Hok Hrow HR Hswa Hlen Hfull Hnd. unfold Chunk.cache_finished_req, free_kv_row.
  rewrite Hrow. cbn [mbind res_bind fmap list_fmap]. unfold free_kv_row_segments.
  cbn [split_segments]. rewrite zlen_slice by lia. rewrite Hswa.
  destruct (Z.eqb_spec (len - cache_protected_len (kv r)) 0) as [Hz|Hnz].
  { cbn. exists c. rewrite touched_empty by lia. by destruct c. }
  rewrite Z.max_r, Z.min_l by lia. destruct (Z.gtb_spec 0 0); [lia|].
  destruct (Z.ltb_spec 0 (len - cache_protected_len (kv r))); [|lia]. cbv beta iota.
  rewrite zlen_nil. cbn [Z.eqb negb andb mbind res_bind].
  rewrite Z.add_0_r, slice_from_drop, drop_0 by lia.
  destruct (free_segments_spec (ch_allocator c) P full [(cache_protected_len (kv r), len)])
    as (a' & Hfree & Hok' & _ & HP); try done.
  - cbn [ascending]. lia.
  - cbn [touched_ranges]. destruct (Z.eqb_spec (cache_protected_len (kv r)) len); [lia|].
    by rewrite app_nil_r.
  - cbn [fmap list_fmap touched_ranges] in Hfree, HP. rewrite Hfree. cbn [mbind res_bind].
    destruct (Z.eqb_spec (cache_protected_len (kv r)) len); [lia|]. rewrite app_nil_r in HP.
    eexists. split; [done|]. done.
Qed.

Lemma chunk_finished_frees_own_witness :
  ∃ c', @Chunk.cache_finished_req PagedPool.paged_allocator Paged.free
          (mkReq [1; 2; 3; 4; 5; 6; 7] [] [] false None None None None 0 [] None false
             (mkKv (Some 1) 4 7 7 0 0)) 7
          (mkPool 1 2 8 [[]; [20; 21; 22; 23; 8; 9; 10]] [] [0; 1])
          (mkChunk 4 None (mkAlloc 40 4 true true 10 [1; 3] [4] None [])) = Ok c' ∧
        release_pages (ch_allocator c') = [2; 4].
Proof.
  destruct (@chunk_finished_frees_own PagedPool.paged_allocator Paged.free
    (mkChunk 4 None (mkAlloc 40 4 true true 10 [1; 3] [4] None []))
    (mkReq [1; 2; 3; 4; 5; 6; 7] [] [] false None None None None 0 [] None false
       (mkKv (Some 1) 4 7 7 0 0))
    (mkPool 1 2 8 [[]; [20; 21; 22; 23; 8; 9; 10]] [] [0; 1])
    [20; 21; 22; 23; 8; 9; 10] [5; 2] 7) as (c' & H1 & _).
  - vm_compute. reflexivity.
  - reflexivity.
  - intros i x Hx. do 7 (destruct i as [|i]; [injection Hx as <-; eexists; vm_compute; done|]).
    discriminate.
  - reflexivity.
  - vm_compute. split; discriminate.
  - vm_compute. discriminate.
  - by_evaluation.
  - exists c'. vm_compute in H1. apply (inj Ok) in H1. rewrite <-H1. split; vm_compute; reflexivity.
Defined.

(** For models with only sliding-window layers, a finished request frees the
    slots that window eviction has not freed before, and no others: together with
    the range from the eviction floor to the eviction cursor they are the
    request's own row, each slot once. *)
Theorem pure_swa_finish_complements (k : ReqKvInfo) (row : list Z) (len : Z) :
  0 ≤ cache_protected_len k ≤ len → 0 ≤ swa_evict_floor k → 0 ≤ swa_evicted_seqlen k →
  len ≤ zlen row →
  default [] (PureSWA.finished_parts k len row) ++
    (if swa_evicted_seqlen k >? swa_evict_floor k
     then slice row (Z.max (cache_protected_len k) (swa_evict_floor k))
            (Z.min (swa_evicted_seqlen k) len)
     else []) ≡ₚ slice row (cache_protected_len k) len.
Proof.
  intros Hc Hf He Hlen. unfold PureSWA.finished_parts. cbv zeta.
  set (c := cache_protected_len k) in *. set (f := swa_evict_floor k) in *.
  set (e := swa_evicted_seqlen k) in *.
  destruct (Z.gtb_spec e f) as [Hef|]; last first.
  { cbn [from_option id]. by rewrite app_nil_r, slice_to_from_slice by lia. }
  rewrite !slice_slice_to by lia. rewrite Z.min_id.
  destruct (Z.gtb_spec f c) as [Hfc|Hfc], (Z.ltb_spec e len) as [Hel|Hel]; cbn [app concat from_option id];
    rewrite ?app_nil_r, ?(Z.max_r c f), ?(Z.max_l c f), ?(Z.min_l e len), ?(Z.min_r e len) by lia.
  - rewrite Z.max_l, Z.min_l by lia. rewrite <-(slice_split row c f len), <-(slice_split row f e len) by lia.
    solve_Permutation.
  - destruct (Z.le_gt_cases f len).
    + rewrite Z.min_l by lia. by rewrite slice_split by lia.
    + rewrite Z.min_r by lia. rewrite (slice_empty row f len) by lia. by rewrite app_nil_r.
  - destruct (Z.le_gt_cases e c).
    + rewrite Z.max_r by lia. rewrite (slice_empty row c e) by lia. by rewrite app_nil_r.
    + rewrite Z.max_l by lia. rewrite <-(slice_split row c e len) by lia. solve_Permutation.
  - done.
Qed.

Lemma pure_swa_finish_complements_witness :
  default [] (PureSWA.finished_parts (mkKv (Some 1) 2 8 8 4 6) 8 [10; 11; 12; 13; 14; 15; 16; 17]) ++
    [14; 15] ≡ₚ [12; 13; 14; 15; 16; 17].
Proof.
  apply (pure_swa_finish_complements (mkKv (Some 1) 2 8 8 4 6) [10; 11; 12; 13; 14; 15; 16; 17] 8);
    vm_compute; try split; congruence.
Defined.

(** C33: window eviction never frees a slot the attention window still needs.  The
    cursor of a request that holds memory is first raised to the lowest position the
    request may free ([swa_dead_lo]: above the prefix of the tree and the eviction
    floor) if it is below, which frees nothing.  Then it either stays there and
    nothing is freed, or it moves further up, to a page boundary for pages of more
    than one slot, stays at least a window (and for the radix cache a page and the
    retained floor) behind the current length, and exactly the slots between the
    raised cursor and the new one are freed. *)
Theorem swa_eviction_keeps_window (free_swa : list Z → Alloc → res Alloc) (k k' : ReqKvInfo)
    (pre_len window ps : Z) (chunk : bool) (floor : option Z) (p : ReqToTokenPool) (a a' : Alloc) :
  0 < ps →
  free_swa_out_of_window_slots free_swa k pre_len window ps chunk floor p a = Ok (k', a') →
  holds_kv k = true →
  let old := Z.max (swa_evicted_seqlen k) (swa_dead_lo k ps) in
  k' = set_swa_evicted_seqlen k (swa_evicted_seqlen k') ∧
  ((swa_evicted_seqlen k' = old ∧ a' = a) ∨
   (old < swa_evicted_seqlen k' ∧ (ps | swa_evicted_seqlen k') ∧
    swa_evicted_seqlen k' ≤ pre_len - window ∧
    (chunk = false → swa_evicted_seqlen k' ≤ pre_len - ps ∧
       ∀ f, floor = Some f → swa_evicted_seqlen k' ≤ f) ∧
    ∃ row, get_row p (req_pool_idx k) = Ok row ∧
           free_swa (slice row old (swa_evicted_seqlen k')) a = Ok a')).
Proof.
  intros Hps Hrun Hh old. unfold free_swa_out_of_window_slots in Hrun. rewrite Hh in Hrun.
  cbn [negb] in Hrun. destruct (negb _) in Hrun; [done|]. cbv zeta in Hrun.
  cbn [swa_evicted_seqlen set_swa_evicted_seqlen req_pool_idx] in Hrun. fold old in Hrun.
  set (th := evict_threshold _ _ _ _ _) in Hrun.
  set (new := if ps >? 1 then Z.max old th / ps * ps else Z.max old th) in Hrun.
  assert (new ≤ Z.max old th ∧ (ps | new)) as [Hle Hdiv].
  { unfold new. destruct (Z.gtb_spec ps 1).
    - split; [by apply floor_align_le|apply floor_align_divide].
    - assert (ps = 1) as -> by lia. split; [done|apply Z.divide_1_l]. }
  destruct (Z.gtb_spec new old) as [Hgt|Hngt].
  - destruct (get_row p (req_pool_idx k)) as [row|]; [|done]. cbn [mbind res_bind] in Hrun.
    destruct (free_swa _ a) as [a1|] eqn:Hfree; [|done]. cbn [mbind res_bind] in Hrun.
    injection Hrun as <- <-. cbn [swa_evicted_seqlen set_swa_evicted_seqlen]. split; [done|]. right.
    assert (new ≤ th) as Hth by lia. unfold th, evict_threshold in Hth.
    split_and!; try done.
    + destruct chunk, floor; simpl in Hth; lia.
    + intros ->. split; [destruct floor; simpl in Hth; lia|]. intros f ->. simpl in Hth. lia.
    + by exists row.
  - injection Hrun as <- <-. split; [done|]. by left.
Qed.

Lemma swa_eviction_keeps_window_witness :
  ∃ k' a', free_swa_out_of_window_slots Token.free (mkKv (Some 1) 0 10 10 0 2) 10 3 2 false None
             (mkPool 2 3 10 [[]; [1; 2; 3; 4; 5; 6; 7; 8; 9; 10]; []] [2] [0; 0; 0])
             (Token.init 0 false) = Ok (k', a') ∧
           swa_evicted_seqlen k' = 6 ∧ free_pages a' = [3; 4; 5; 6] ∧
           k' = set_swa_evicted_seqlen (mkKv (Some 1) 0 10 10 0 2) (swa_evicted_seqlen k').
Proof.
  do 2 eexists. split; [vm_compute; reflexivity|]. split; [reflexivity|]. split; [reflexivity|].
  refine (proj1 (swa_eviction_keeps_window Token.free (mkKv (Some 1) 0 10 10 0 2) _ 10 3 2 false None
    (mkPool 2 3 10 [[]; [1; 2; 3; 4; 5; 6; 7; 8; 9; 10]; []] [2] [0; 0; 0])
    (Token.init 0 false) _ _ _ _)).
  - lia.
  - vm_compute. reflexivity.
  - reflexivity.
Defined.
