(* ===== verification/PyFloat.v ===== *)
(** * Python floats as rationals

    The scheduler's ratios and clocks are Python floats.  They are modelled by
    exact rationals: comparisons, products and [int] are those of [Q], and the
    rounding of the IEEE operations is left out. *)

From Stdlib Require Export QArith_base Qround Lqa.
From S2P Require Import Prelude.

Open Scope Z_scope.

Definition Qltb (a b : Q) : bool := negb (Qle_bool b a).

(** [int(x)] rounds towards zero. *)
Definition py_int (x : Q) : Z := Z.quot (Qnum x) (Zpos (Qden x)).

Definition Qsum (l : list Q) : Q := foldr Qplus 0%Q l.

Lemma Qltb_spec a b : Qltb a b = true ↔ (a < b)%Q.
Proof.
  unfold Qltb. rewrite negb_true_iff. split.
  - intros Hb. apply Qnot_le_lt. intros Hle%Qle_bool_iff. congruence.
  - intros Hlt. apply not_true_iff_false. intros Hle%Qle_bool_iff. lra.
Qed.

Lemma Qleb_spec a b : Qle_bool a b = true ↔ (a <= b)%Q.
Proof. apply Qle_bool_iff. Qed.

Lemma Qltb_reflect a b : reflect (a < b)%Q (Qltb a b).
Proof. apply iff_reflect. symmetry. apply Qltb_spec. Qed.
Lemma Qleb_reflect a b : reflect (a <= b)%Q (Qle_bool a b).
Proof. apply iff_reflect. symmetry. apply Qleb_spec. Qed.

#[export] Instance Qltb_proper : Proper (Qeq ==> Qeq ==> eq) Qltb.
Proof.
  intros a a' Ha b b' Hb.
  destruct (Qltb_reflect a b), (Qltb_reflect a' b'); [done|lra|lra|done].
Qed.
#[export] Instance Qle_bool_proper : Proper (Qeq ==> Qeq ==> eq) Qle_bool.
Proof.
  intros a a' Ha b b' Hb.
  destruct (Qleb_reflect a b), (Qleb_reflect a' b'); [done|lra|lra|done].
Qed.

Lemma py_int_inject z : py_int (inject_Z z) = z.
Proof. unfold py_int. simpl. apply Z.quot_1_r. Qed.

(** On the positive side [int] is the floor. *)
Lemma py_int_nonneg x : (0 <= x)%Q → 0 ≤ py_int x ∧ (inject_Z (py_int x) <= x)%Q ∧ (x < inject_Z (py_int x + 1))%Q.
Proof.
  destruct x as [n d]. unfold py_int, Qle, Qlt. simpl. rewrite !Z.mul_1_r. intros Hn.
  rewrite Z.quot_div_nonneg by lia.
  pose proof (Z.div_mod n (Zpos d)) as Hdm. pose proof (Z.mod_pos_bound n (Zpos d)) as Hm.
  pose proof (Z.div_pos n (Zpos d)). split_and!; [lia|nia|nia].
Qed.

Lemma py_int_neg x : (x < 0)%Q → py_int x ≤ 0 ∧ (x <= inject_Z (py_int x))%Q.
Proof.
  destruct x as [n d]. unfold py_int, Qle, Qlt. simpl. rewrite !Z.mul_1_r. intros Hn.
  rewrite <- (Z.opp_involutive n), Z.quot_opp_l by lia. rewrite Z.quot_div_nonneg by lia.
  pose proof (Z.div_mod (- n) (Zpos d)) as Hdm. pose proof (Z.mod_pos_bound (- n) (Zpos d)) as Hm.
  pose proof (Z.div_pos (- n) (Zpos d)). split; [lia|nia].
Qed.

(** A positive truncation never exceeds the value. *)
Lemma py_int_le x : 0 < py_int x → (inject_Z (py_int x) <= x)%Q.
Proof.
  intros Hp. destruct (Qlt_le_dec x 0) as [Hn|Hn]; [|by apply py_int_nonneg].
  apply py_int_neg in Hn. lia.
Qed.

Lemma Qsum_app l k : (Qsum (l ++ k) == Qsum l + Qsum k)%Q.
Proof. induction l as [|x l IH]; simpl; [lra|]. rewrite IH. lra. Qed.

Lemma Qsum_nonneg l : Forall (Qle 0) l → (0 <= Qsum l)%Q.
Proof. induction 1; simpl; lra. Qed.

#[export] Instance Qsum_proper : Proper ((≡ₚ) ==> Qeq) Qsum.
Proof. intros l k Hp. induction Hp; simpl; [reflexivity|rewrite IHHp; reflexivity|lra|by etransitivity]. Qed.
