(* ===== verification/PrefillDelayer.v ===== *)
(** * The prefill delayer

    [managers/prefill_delayer.py]: the ranks of a data-parallel group negotiate,
    once per scheduler pass, whether prefill may run.  [PrefillDelayer] keeps the
    wait in progress, [PrefillDelayerSinglePassExecutor] makes one negotiation per
    pass out of several calls, and [RecentPrefillBatchSizeTracker] keeps the
    high-water mark of the recent prefill batches.

    The collective [all_gather_into_tensor] and the clock are an argument, [Env]:
    the rows the collective delivers (the first attention-TP rank of every
    data-parallel rank) and the readings of [time.perf_counter]. *)

From S2P Require Import Prelude PyFloat.

(** ** [RecentPrefillBatchSizeTracker] *)

Module Tracker.

(** The deque and its [maxlen]. *)
Record Tracker := mkTracker { window_size : Z; recent_attempt_sizes : list Z }.

Definition init (window_size : Z) : res Tracker :=
  if window_size <=? 0 then Err ValueError else Ok (mkTracker window_size []).

Definition max_prefill_bs (t : Tracker) : Z :=
  match recent_attempt_sizes t with [] => 0 | x :: l => foldl Z.max x l end.

(** [deque(maxlen=n).append] drops the oldest entry of a full deque. *)
Definition append (x : Z) (t : Tracker) : Tracker :=
  let l := recent_attempt_sizes t ++ [x] in
  mkTracker (window_size t) (drop (length l - Z.to_nat (window_size t)) l).

Definition observe_attempt (attempted_prefill_bs : Z) (t : Tracker) : res (Z * Tracker) :=
  if attempted_prefill_bs <=? 0 then Err ValueError
  else let t := append attempted_prefill_bs t in Ok (max_prefill_bs t, t).

End Tracker.

(** ** [PrefillDelayer] *)

(** [_State] *)
Record State := mkState { delayed_count : Z; start_time : Q }.

Definition bump_delayed_count (s : State) : State := mkState (delayed_count s + 1) (start_time s).

(** [_NegotiateOutput] *)
Record NegotiateOutput := mkOut {
  next_state : option State;
  input_estimation : string;
  output_allow : bool;
  output_reason : string;
  num_prefillable : Z;
  num_token_watermark_force_allow : Z;
  wait_forward_passes : Z;
  wait_seconds : Q;
}.

(** The settings [PrefillDelayer.__init__] fixes. *)
Record DelayerConfig := mkDelayerConfig {
  max_delay_passes : Z;
  token_usage_low_watermark : option Q;
  queue_min_ratio : option Q;
  max_delay_ms : Q;
  cfg_prefill_max_requests : option Z;
  dp_size : Z;
  enable_dp_attention : bool;
}.

Record PrefillDelayer := mkDelayer {
  config : DelayerConfig;
  curr_state : option State;
  skip_first_delayer : bool;
}.

(** [prefill_delayer_max_delay_ms] falls back to five seconds. *)
Definition PrefillDelayer_init (dp_size max_delay_passes : Z)
    (token_usage_low_watermark queue_min_ratio max_delay_ms : option Q)
    (prefill_max_requests : option Z) (enable_dp_attention : bool) : PrefillDelayer :=
  mkDelayer
    (mkDelayerConfig max_delay_passes token_usage_low_watermark queue_min_ratio
       (default 5000%Q max_delay_ms) prefill_max_requests dp_size enable_dp_attention)
    None true.

(** The row of one rank in the all-gather tensor. *)
Record Info := mkInfo {
  i_prefillable : Z;
  i_force_allow : Z;
  i_running_batch : Z;
  i_max_prefill_bs : Z;
  i_waiting_queue_len : Z;
}.

(** The world a negotiation runs in. *)
Record Env := mkEnv {
  gather : Info → list Info;
  now_wait : Q;
  now_elapsed : Q;
  now_start : Q;
}.

(** [tensor.min()] and [tensor.max()] raise on an empty tensor. *)
Definition t_min (l : list Z) : res Z :=
  match l with [] => Err RuntimeError | x :: l => Ok (foldl Z.min x l) end.
Definition t_max (l : list Z) : res Z :=
  match l with [] => Err RuntimeError | x :: l => Ok (foldl Z.max x l) end.

Definition gather_info (e : Env) (local_prefillable local_force_allow : bool)
    (running_batch max_prefill_bs waiting_queue_len : Z) : list Info :=
  gather e (mkInfo (Z.b2z local_prefillable) (Z.b2z local_force_allow)
    running_batch max_prefill_bs waiting_queue_len).

(** The arguments of a negotiation. *)
Record NegotiateArgs := mkArgs {
  local_prefillable : bool;
  token_usage : Q;
  running_batch : Z;
  a_max_prefill_bs : Z;
  a_max_running_requests : Z;
  a_waiting_queue_len : Z;
}.

Definition prefillable_status (rows : list Info) : res string :=
  mn ← t_min (i_prefillable <$> rows);
  mx ← t_max (i_prefillable <$> rows);
  Ok (if mn >? 0 then "all"%string else if mx =? 0 then "none"%string else "mixed"%string).

(** The queue-based trigger of the "all" branch. *)
Definition queue_condition (c : DelayerConfig) (e : Env) (prev : option State)
    (running_max bs_max waiting_max : Z) : bool :=
  match queue_min_ratio c with
  | Some ratio =>
      if running_max >? 0 then
        let queue_capacity := default bs_max (cfg_prefill_max_requests c) in
        let queue_min_effective :=
          Z.min (py_int (inject_Z running_max * ratio)) queue_capacity in
        let cond := (queue_min_effective >? 0) && (waiting_max <? queue_min_effective) in
        match prev with
        | Some s =>
            cond && negb (Qle_bool (max_delay_ms c) ((now_elapsed e - start_time s) * 1000))
        | None => cond
        end
      else false
  | None => false
  end.

(** Wait one more pass, or give up after [max_delay_passes]. *)
Definition delay_or_timeout (c : DelayerConfig) (e : Env) (prev : option State)
    (out : option State → bool → string → Z → Q → NegotiateOutput) (passes : Z) (secs : Q)
    : NegotiateOutput :=
  let prev_delayed_count := from_option delayed_count 0 prev in
  if prev_delayed_count <? max_delay_passes c - 1 then
    out (Some (bump_delayed_count (default (mkState 0 (now_start e)) prev))) false "delay" 0 0%Q
  else out None true "wait_timeout" passes secs.

(** [_negotiate_should_allow_prefill_pure]: the second component is the flag
    [skip_first_delayer] after the call. *)
Definition negotiate_pure (c : DelayerConfig) (skip_first : bool) (e : Env) (prev : option State)
    (a : NegotiateArgs) : res (NegotiateOutput * bool) :=
  let force := local_prefillable a &&
    match token_usage_low_watermark c with Some x => Qltb (token_usage a) x | None => false end in
  let rows := gather_info e (local_prefillable a) force (running_batch a) (a_max_prefill_bs a)
                (a_waiting_queue_len a) in
  status ← prefillable_status rows;
  fmax ← t_max (i_force_allow <$> rows);
  let exists_force := fmax >? 0 in
  let out next allow reason passes secs :=
    mkOut next status allow reason (zsum (i_prefillable <$> rows)) (zsum (i_force_allow <$> rows))
      passes secs in
  let passes := from_option delayed_count 0 prev in
  let secs := from_option (λ s, (now_wait e - start_time s)%Q) 0%Q prev in
  if String.eqb status "all" then
    if exists_force then Ok (out None true "token_watermark" passes secs, skip_first)
    else
      let max_running :=
        if enable_dp_attention c then a_max_running_requests a
        else (a_max_running_requests a + dp_size c - 1) / dp_size c in
      running_max ← t_max (i_running_batch <$> rows);
      bs_max ← t_max (i_max_prefill_bs <$> rows);
      waiting_max ← t_max (i_waiting_queue_len <$> rows);
      let queue := queue_condition c e prev running_max bs_max waiting_max in
      let slot := max_running - running_max <? bs_max in
      let reason := match prev with Some _ => "wait_success" | None => "no_wait" end in
      if slot || queue then
        if skip_first then Ok (out None true reason passes secs, false)
        else Ok (delay_or_timeout c e prev out passes secs, skip_first)
      else Ok (out None true reason passes secs, skip_first)
  else if String.eqb status "none" then Ok (out None true "" passes secs, skip_first)
  else if exists_force then Ok (out None true "token_watermark" passes secs, skip_first)
  else Ok (delay_or_timeout c e prev out passes secs, skip_first).

(** [_negotiate_should_allow_prefill] *)
Definition negotiate (e : Env) (a : NegotiateArgs) (d : PrefillDelayer)
    : res (NegotiateOutput * PrefillDelayer) :=
  '(o, skip) ← negotiate_pure (config d) (skip_first_delayer d) e (curr_state d) a;
  Ok (o, mkDelayer (config d) (next_state o) skip).

(** ** [PrefillDelayerSinglePassExecutor] *)

Record SinglePass := mkSingle {
  prefill_delayer : PrefillDelayer;
  sp_token_usage : Q;
  sp_result : option NegotiateOutput;
  attempted_prefill_bs : Z;
}.

Definition SinglePass_init (d : PrefillDelayer) (usage : Q) : SinglePass := mkSingle d usage None 0.

Definition estimate_attempted_prefill_bs (d : PrefillDelayer)
    (running_batch max_running_requests waiting_queue_len : Z) : Z :=
  let local_max :=
    if enable_dp_attention (config d) then max_running_requests
    else (max_running_requests + dp_size (config d) - 1) / dp_size (config d) in
  let free_slots := Z.max (local_max - running_batch) 1 in
  let non_empty_queue_len := Z.max waiting_queue_len 1 in
  Z.min non_empty_queue_len free_slots.

Definition negotiate_should_allow_prefill (e : Env) (local_prefillable : bool)
    (running_batch max_prefill_bs max_running_requests waiting_queue_len : Z) (s : SinglePass)
    : res (bool * SinglePass) :=
  let attempted :=
    if local_prefillable then
      Z.max (attempted_prefill_bs s)
        (estimate_attempted_prefill_bs (prefill_delayer s) running_batch max_running_requests
           waiting_queue_len)
    else attempted_prefill_bs s in
  match sp_result s with
  | Some o => Ok (output_allow o, mkSingle (prefill_delayer s) (sp_token_usage s) (Some o) attempted)
  | None =>
      '(o, d) ← negotiate e (mkArgs local_prefillable (sp_token_usage s) running_batch max_prefill_bs
                     max_running_requests waiting_queue_len) (prefill_delayer s);
      Ok (output_allow o, mkSingle d (sp_token_usage s) (Some o) attempted)
  end.

(** The observation handed to the metrics collector. *)
Record Observation := mkObs { obs_output : NegotiateOutput; actual_execution : bool }.

(** [_record_single_pass_result]: the assertion of the debug log, and the
    observation when there is a collector. *)
Definition record_single_pass_result (actual_execution : bool) (o : NegotiateOutput)
    (has_collector debug_log_enabled : bool) : res (option Observation) :=
  let observed := if has_collector then Some (mkObs o actual_execution) else None in
  if debug_log_enabled then
    if output_allow o && String.eqb (output_reason o) "wait_timeout" then Ok observed
    else if output_allow o && String.eqb (output_reason o) "token_watermark" then Ok observed
    else if bool_decide (output_reason o ∈ [""; "wait_success"; "no_wait"; "delay"]%string)
    then Ok observed else Err AssertionError
  else Ok observed.

Definition finalize (e : Env) (actual_prefill_bs : Z) (has_collector debug_log_enabled : bool)
    (s : SinglePass) : res (Z * option Observation * SinglePass) :=
  s ← match sp_result s with
      | Some _ => Ok s
      | None => '(_, s) ← negotiate_should_allow_prefill e false 0 0 0 0 s; Ok s
      end;
  match sp_result s with
  | Some o =>
      obs ← record_single_pass_result (actual_prefill_bs >? 0) o has_collector debug_log_enabled;
      Ok (if actual_prefill_bs =? 0 then attempted_prefill_bs s else actual_prefill_bs, obs, s)
  | None => Err AttributeError
  end.

(** ** The high-water mark *)

Module TrackerFacts.
Import Tracker.

Fixpoint observe_all (l : list Z) (t : Tracker) : res Tracker :=
  match l with
  | [] => Ok t
  | x :: l => '(_, t) ← observe_attempt x t; observe_all l t
  end.

Lemma append_window x t l :
  0 < window_size t →
  recent_attempt_sizes t = drop (length l - Z.to_nat (window_size t)) l →
  recent_attempt_sizes (append x t) =
  drop (length (l ++ [x]) - Z.to_nat (window_size t)) (l ++ [x]).
Proof.
  intros Hw Ht. unfold append. cbn [recent_attempt_sizes]. rewrite Ht.
  rewrite !length_app, length_drop. cbn [length].
  destruct (decide (length l < Z.to_nat (window_size t))%nat) as [Hs|Hs].
  - replace (length l - Z.to_nat (window_size t))%nat with 0%nat by lia.
    rewrite drop_0. f_equal. lia.
  - rewrite (drop_app_le l [x]) by lia.
    rewrite drop_app_le by (rewrite length_drop; lia). rewrite drop_drop. do 2 f_equal. lia.
Qed.

Lemma observe_all_window l0 l t :
  0 < window_size t → Forall (Z.lt 0) l →
  recent_attempt_sizes t = drop (length l0 - Z.to_nat (window_size t)) l0 →
  ∃ t', observe_all l t = Ok t' ∧ window_size t' = window_size t ∧
    recent_attempt_sizes t' = drop (length (l0 ++ l) - Z.to_nat (window_size t)) (l0 ++ l).
Proof.
  intros Hw Hl. revert l0 t Hw. induction Hl as [|x l Hx Hl IH]; intros l0 t Hw Ht.
  - exists t. by rewrite app_nil_r.
  - cbn [observe_all]. unfold observe_attempt. destruct (Z.leb_spec x 0); [lia|]. cbn [mbind res_bind].
    destruct (IH (l0 ++ [x]) (append x t)) as (t' & Ht' & Hw' & Hr); [done|apply (append_window x t l0); done|].
    exists t'. split_and!; [done|done|]. by rewrite <- app_assoc in Hr.
Qed.

Lemma foldl_max_spec l x :
  (∀ y, y ∈ x :: l → y ≤ foldl Z.max x l) ∧ foldl Z.max x l ∈ x :: l.
Proof.
  revert x. induction l as [|y l IH]; intros x; cbn [foldl].
  - split; [|set_solver]. intros y ->%list_elem_of_singleton. lia.
  - destruct (IH (Z.max x y)) as [Hle Hin]. split.
    + intros z Hz. pose proof (Hle (Z.max x y) ltac:(left)).
      rewrite !elem_of_cons in Hz. destruct Hz as [->|[->|Hz]]; [lia|lia|]. apply Hle. by right.
    + rewrite elem_of_cons in Hin. destruct Hin as [->|Hin]; [|by do 2 right].
      destruct (Z.max_spec x y) as [[_ ->]|[_ ->]]; [right; left|left].
Qed.

(** Observing the batch sizes [l] (all positive) never fails, and the tracker
    then reports the largest of the last [window_size] of them: an upper bound of
    these that is one of these. *)
Theorem tracker_reports_recent_max (w : Z) (l : list Z) (x : Z) :
  0 < w → Forall (Z.lt 0) (l ++ [x]) →
  let recent := drop (length (l ++ [x]) - Z.to_nat w) (l ++ [x]) in
  ∃ t t', init w = Ok t ∧ observe_all (l ++ [x]) t = Ok t' ∧
    recent_attempt_sizes t' = recent ∧
    max_prefill_bs t' ∈ recent ∧ ∀ y, y ∈ recent → y ≤ max_prefill_bs t'.
Proof.
  intros Hw Hl. cbv zeta. exists (mkTracker w []).
  destruct (observe_all_window [] (l ++ [x]) (mkTracker w []) Hw Hl eq_refl) as (t' & Ht' & _ & Hr).
  cbn [window_size app] in Hr. exists t'. unfold init. destruct (Z.leb_spec w 0); [lia|].
  split_and!; [done|done|done| |]; unfold max_prefill_bs; rewrite Hr.
  all: destruct (drop _ (l ++ [x])) as [|y k] eqn:Hd.
  - apply (f_equal length) in Hd. rewrite length_drop, length_app in Hd. simpl in Hd. lia.
  - apply foldl_max_spec.
  - intros y Hy. by apply not_elem_of_nil in Hy.
  - apply foldl_max_spec.
Qed.

Lemma tracker_reports_recent_max_witness :
  ∃ t t', init 2 = Ok t ∧ observe_all ([9; 3] ++ [5]) t = Ok t' ∧ recent_attempt_sizes t' = [3; 5].
Proof.
  destruct (tracker_reports_recent_max 2 [9; 3] 5) as (t & t' & H1 & H2 & H3 & _);
    [lia|by_evaluation|]. by exists t, t'.
Defined.

End TrackerFacts.

(** ** The wait is bounded *)

(** A sequence of scheduler passes on one rank. *)
Fixpoint run_passes (ps : list (Env * NegotiateArgs)) (d : PrefillDelayer)
    : res (list NegotiateOutput * PrefillDelayer) :=
  match ps with
  | [] => Ok ([], d)
  | (e, a) :: ps =>
      '(o, d) ← negotiate e a d;
      '(os, d) ← run_passes ps d;
      Ok (o :: os, d)
  end.

Definition waited (s : option State) : Z := from_option delayed_count 0 s.

(** What a negotiation may answer.  Every answer but a delay ends the wait. *)
Definition answer_ok (c : DelayerConfig) (prev : option State) (o : NegotiateOutput) : Prop :=
  (output_allow o = true ∧ next_state o = None ∧
   output_reason o ∈ ["token_watermark"; "wait_success"; "no_wait"; ""; "wait_timeout"]%string) ∨
  (output_allow o = false ∧ output_reason o = "delay"%string ∧
   waited prev < max_delay_passes c - 1 ∧ is_Some (next_state o) ∧
   waited (next_state o) = waited prev + 1).

Lemma delay_or_timeout_ok c e prev st n1 n2 p q :
  answer_ok c prev
    (delay_or_timeout c e prev (λ next allow reason p q, mkOut next st allow reason n1 n2 p q) p q).
Proof.
  unfold delay_or_timeout. case_match eqn:Hlt.
  - right. apply Z.ltb_lt in Hlt. destruct prev as [s|]; cbn in *; split_and!; done || lia || eauto.
  - left. split_and!; [done|done|]. cbn. set_solver.
Qed.

Ltac released := left; split_and!; [done|done|cbn [output_reason]; set_solver].

Lemma negotiate_pure_ok c skip e prev a o skip' :
  negotiate_pure c skip e prev a = Ok (o, skip') → answer_ok c prev o.
Proof.
  unfold negotiate_pure. destruct (prefillable_status _) as [st|]; [|done]. cbn [mbind res_bind].
  destruct (t_max (i_force_allow <$> _)) as [fm|]; [|done]. cbn [mbind res_bind].
  destruct (String.eqb st "all").
  - destruct (fm >? 0); [intros [= <- <-]; released|].
    destruct (t_max (i_running_batch <$> _)) as [rm|]; [|done].
    destruct (t_max (i_max_prefill_bs <$> _)) as [bm|]; [|done].
    destruct (t_max (i_waiting_queue_len <$> _)) as [wm|]; [|done]. cbn [mbind res_bind].
    destruct (_ || _); [destruct skip|]; intros [= <- <-].
    + destruct prev; released.
    + apply delay_or_timeout_ok.
    + destruct prev; released.
  - destruct (String.eqb st "none"); [intros [= <- <-]; released|].
    destruct (fm >? 0); intros [= <- <-]; [released|apply delay_or_timeout_ok].
Qed.

Lemma negotiate_Ok e a d o d' :
  negotiate e a d = Ok (o, d') →
  config d' = config d ∧ curr_state d' = next_state o ∧ answer_ok (config d) (curr_state d) o.
Proof.
  unfold negotiate. intros ([o' sk] & Hn & [= <- <-])%bind_Ok.
  by apply negotiate_pure_ok in Hn.
Qed.

Lemma run_passes_cons e a ps d os d' :
  run_passes ((e, a) :: ps) d = Ok (os, d') →
  ∃ o d1 os', negotiate e a d = Ok (o, d1) ∧ run_passes ps d1 = Ok (os', d') ∧ os = o :: os'.
Proof.
  cbn [run_passes]. intros ([o d1] & Hn & ([os' d2] & Hr & [= <- <-])%bind_Ok)%bind_Ok.
  by exists o, d1, os'.
Qed.

(** A refusing run of passes adds its length to the wait. *)
Lemma refusals_bounded ps d mid post d' :
  run_passes ps d = Ok (mid ++ post, d') →
  Forall (λ o, output_allow o = false) mid →
  mid = [] ∨ waited (curr_state d) + zlen mid ≤ max_delay_passes (config d) - 1.
Proof.
  revert ps d. induction mid as [|o mid IH]; intros ps d Hrun Hf; [by left|right].
  destruct ps as [|[e a] ps]; [done|].
  apply run_passes_cons in Hrun as (o' & d1 & os' & Hn & Hr & [= <- <-]).
  apply Forall_cons in Hf as [Ho Hf].
  apply negotiate_Ok in Hn as (Hc & Hs & [(Ha & _)|(_ & _ & Hlt & _ & Hw)]); [congruence|].
  rewrite zlen_cons. destruct (IH _ _ Hr Hf) as [->|Hb]; rewrite ?zlen_nil; [lia|].
  rewrite Hs, Hc, Hw in Hb. lia.
Qed.

Lemma run_passes_config ps d os d' : run_passes ps d = Ok (os, d') → config d' = config d.
Proof.
  revert d os. induction ps as [|[e a] ps IH]; intros d os; [by intros [= <- <-]|].
  intros (o & d1 & os' & Hn & Hr & ->)%run_passes_cons. apply negotiate_Ok in Hn as (<- & _). eauto.
Qed.

Lemma waited_nonneg ps d os d' :
  run_passes ps d = Ok (os, d') → 0 ≤ waited (curr_state d) → 0 ≤ waited (curr_state d').
Proof.
  revert d os. induction ps as [|[e a] ps IH]; intros d os; [by intros [= <- <-]|].
  intros (o & d1 & os' & Hn & Hr & ->)%run_passes_cons Hw. apply (IH _ _ Hr).
  apply negotiate_Ok in Hn as (_ & -> & [(_ & -> & _)|(_ & _ & _ & _ & ->)]); [done|lia].
Qed.

Lemma run_passes_app ps d pre os d' :
  run_passes ps d = Ok (pre ++ os, d') →
  ∃ ps1 ps2 d1, run_passes ps1 d = Ok (pre, d1) ∧ run_passes ps2 d1 = Ok (os, d').
Proof.
  revert ps d. induction pre as [|o pre IH]; intros ps d Hr; [by exists [], ps, d|].
  destruct ps as [|[e a] ps]; [done|].
  apply run_passes_cons in Hr as (o' & d1 & os' & Hn & Hr & [= <- <-]).
  destruct (IH _ _ Hr) as (ps1 & ps2 & d2 & H1 & H2).
  exists ((e, a) :: ps1), ps2, d2. split; [|done]. cbn [run_passes].
  rewrite Hn. cbn [mbind res_bind]. by rewrite H1.
Qed.

(** C30: prefill is never delayed for ever.  Whatever the ranks report, however the
    clocks run and whatever the settings are, at most [max_delay_passes - 1]
    consecutive negotiations of a delayer answer "delay". *)
Theorem delay_is_bounded (dp passes : Z) (wm ratio ms : option Q) (mr : option Z) (attn : bool)
    (ps : list (Env * NegotiateArgs)) (pre mid post : list NegotiateOutput) (d' : PrefillDelayer) :
  run_passes ps (PrefillDelayer_init dp passes wm ratio ms mr attn) = Ok (pre ++ mid ++ post, d') →
  Forall (λ o, output_allow o = false) mid →
  zlen mid ≤ Z.max 0 (passes - 1).
Proof.
  intros Hrun Hf. apply run_passes_app in Hrun as (ps1 & ps2 & d1 & H1 & H2).
  pose proof (run_passes_config _ _ _ _ H1) as Hc.
  pose proof (waited_nonneg _ _ _ _ H1 ltac:(done)) as Hw.
  destruct (refusals_bounded _ _ _ _ _ H2 Hf) as [->|Hb]; [rewrite zlen_nil; lia|].
  rewrite Hc in Hb. cbn in Hb. lia.
Qed.

Module DelayerDemo.

(** A second rank that has nothing to prefill, and clocks that stand still. *)
Definition idle_peer : Env := mkEnv (λ i, [i; mkInfo 0 0 0 0 0]) 0%Q 0%Q 0%Q.
Definition want_prefill : NegotiateArgs := mkArgs true (1 # 2)%Q 4 2 8 1.
Definition three : list (Env * NegotiateArgs) := replicate 3 (idle_peer, want_prefill).
Definition outs (r : res (list NegotiateOutput * PrefillDelayer)) : list NegotiateOutput :=
  match r with Ok (os, _) => os | Err _ => [] end.
Definition final (r : res (list NegotiateOutput * PrefillDelayer)) (d : PrefillDelayer) :=
  match r with Ok (_, d) => d | Err _ => d end.

End DelayerDemo.

Lemma delay_is_bounded_witness :
  let d := PrefillDelayer_init 2 3 None None None None true in
  let r := run_passes DelayerDemo.three d in
  (output_reason <$> DelayerDemo.outs r) = ["delay"; "delay"; "wait_timeout"]%string ∧
  zlen (take 2 (DelayerDemo.outs r)) ≤ Z.max 0 (3 - 1).
Proof.
  cbv zeta. split; [by vm_compute|].
  apply (delay_is_bounded 2 3 None None None None true DelayerDemo.three []
    (take 2 (DelayerDemo.outs (run_passes DelayerDemo.three (PrefillDelayer_init 2 3 None None None None true))))
    (drop 2 (DelayerDemo.outs (run_passes DelayerDemo.three (PrefillDelayer_init 2 3 None None None None true))))
    (DelayerDemo.final (run_passes DelayerDemo.three (PrefillDelayer_init 2 3 None None None None true))
       (PrefillDelayer_init 2 3 None None None None true))).
  - by vm_compute.
  - by_evaluation.
Defined.

(** ** The ranks agree *)

(** The local flag a rank contributes to the low-watermark vote. *)
Definition force_flag (c : DelayerConfig) (a : NegotiateArgs) : bool :=
  local_prefillable a &&
  match token_usage_low_watermark c with Some x => Qltb (token_usage a) x | None => false end.

Definition own_row (c : DelayerConfig) (a : NegotiateArgs) : Info :=
  mkInfo (Z.b2z (local_prefillable a)) (Z.b2z (force_flag c a)) (running_batch a)
    (a_max_prefill_bs a) (a_waiting_queue_len a).

(** The collective delivered [rows] to the rank, its own row among them. *)
Definition delivered (c : DelayerConfig) (rows : list Info) (p : Env * NegotiateArgs) : Prop :=
  gather p.1 (own_row c p.2) = rows ∧ own_row c p.2 ∈ rows.

(** Two ranks in the same pass: the collective gave both the same rows, and two
    ranks that both want to prefill were called with the same request limit.  (A
    rank that has nothing to prefill calls from [finalize] with default arguments.) *)
Definition same_pass (c : DelayerConfig) (p q : Env * NegotiateArgs) : Prop :=
  (∃ rows, delivered c rows p ∧ delivered c rows q) ∧
  (local_prefillable p.2 = true → local_prefillable q.2 = true →
   a_max_running_requests p.2 = a_max_running_requests q.2).

(** Two delayers in step: they differ in the readings of their clocks only. *)
Definition in_step (d1 d2 : PrefillDelayer) : Prop :=
  config d1 = config d2 ∧ skip_first_delayer d1 = skip_first_delayer d2 ∧
  (delayed_count <$> curr_state d1) = (delayed_count <$> curr_state d2).

(** The part of an answer that does not read the clock. *)
Definition verdict (o : NegotiateOutput) :=
  (delayed_count <$> next_state o, output_allow o, output_reason o, input_estimation o,
   num_prefillable o, num_token_watermark_force_allow o, wait_forward_passes o).

Lemma t_min_le l m x : t_min l = Ok m → x ∈ l → m ≤ x.
Proof.
  destruct l as [|y l]; [done|]. cbn [t_min]. intros [= <-]. revert x y.
  induction l as [|z l IH]; intros x y Hx; cbn [foldl].
  - apply list_elem_of_singleton in Hx as ->. lia.
  - rewrite !elem_of_cons in Hx. pose proof (IH _ (Z.min y z) (list_elem_of_here _ _)) as Hb.
    destruct Hx as [->|[->|Hx]]; [lia|lia|]. apply IH. by right.
Qed.

Lemma all_prefillable c rows a :
  prefillable_status rows = Ok "all"%string → own_row c a ∈ rows → local_prefillable a = true.
Proof.
  unfold prefillable_status. intros (m & Hm & (x & Hx & Heq)%bind_Ok)%bind_Ok Hin.
  apply (list_elem_of_fmap_2 i_prefillable) in Hin. pose proof (t_min_le _ _ _ Hm Hin) as Hle.
  destruct (Z.gtb_spec m 0); [|by destruct (x =? 0)].
  cbn in Hle. by destruct (local_prefillable a); cbn in Hle; [|lia].
Qed.

Lemma delay_or_timeout_step c e1 e2 s1 s2 st n1 n2 p q1 q2 :
  (delayed_count <$> s1) = (delayed_count <$> s2) →
  let out next allow reason p q := mkOut next st allow reason n1 n2 p q in
  verdict (delay_or_timeout c e1 s1 out p q1) = verdict (delay_or_timeout c e2 s2 out p q2).
Proof.
  intros Hs. cbv zeta. unfold delay_or_timeout.
  destruct s1 as [[n1' t1]|], s2 as [[n2' t2]|]; cbn in Hs |- *; simplify_eq; try done.
  - destruct (_ <? _); done.
  - destruct (_ <? _); done.
Qed.

Lemma negotiate_pure_step c skip p q s1 s2 o1 k1 o2 k2 :
  queue_min_ratio c = None → same_pass c p q →
  (delayed_count <$> s1) = (delayed_count <$> s2) →
  negotiate_pure c skip p.1 s1 p.2 = Ok (o1, k1) → negotiate_pure c skip q.1 s2 q.2 = Ok (o2, k2) →
  verdict o1 = verdict o2 ∧ k1 = k2.
Proof.
  intros Hq [(rows & [Hp Hpin] & [Hr Hrin]) Hm] Hs. unfold negotiate_pure, gather_info.
  fold (force_flag c p.2) (force_flag c q.2) (own_row c p.2) (own_row c q.2). rewrite Hp, Hr.
  destruct (prefillable_status rows) as [st|] eqn:Hst; [|done]. cbn [mbind res_bind].
  destruct (t_max (i_force_allow <$> _)) as [fm|]; [|done]. cbn [mbind res_bind].
  assert (from_option delayed_count 0 s1 = from_option delayed_count 0 s2) as Hw.
  { destruct s1, s2; cbn in *; by simplify_eq. }
  rewrite Hw. unfold queue_condition. rewrite Hq.
  destruct (String.eqb_spec st "all") as [->|Hne].
  - destruct (fm >? 0); [intros [= <- <-] [= <- <-]; done|].
    destruct (t_max (i_running_batch <$> _)) as [rm|]; [|done].
    destruct (t_max (i_max_prefill_bs <$> _)) as [bm|]; [|done].
    destruct (t_max (i_waiting_queue_len <$> _)) as [wm|]; [|done]. cbn [mbind res_bind].
    rewrite (Hm (all_prefillable _ _ _ Hst Hpin) (all_prefillable _ _ _ Hst Hrin)).
    destruct (_ || _); [destruct skip|]; intros [= <- <-] [= <- <-]; (split; [|done]).
    + destruct s1, s2; done.
    + by apply delay_or_timeout_step.
    + destruct s1, s2; done.
  - destruct (String.eqb st "none"); [intros [= <- <-] [= <- <-]; done|].
    destruct (fm >? 0); intros [= <- <-] [= <- <-]; (split; [|done]); [done|].
    by apply delay_or_timeout_step.
Qed.

Lemma negotiate_step p q d1 d2 o1 e1 o2 e2 :
  queue_min_ratio (config d1) = None → same_pass (config d1) p q → in_step d1 d2 →
  negotiate p.1 p.2 d1 = Ok (o1, e1) → negotiate q.1 q.2 d2 = Ok (o2, e2) →
  verdict o1 = verdict o2 ∧ in_step e1 e2.
Proof.
  intros Hq Hp (Hc & Hk & Hs). unfold negotiate. rewrite <- Hc, <- Hk.
  intros ([o1' k1] & H1 & [= -> <-])%bind_Ok ([o2' k2] & H2 & [= -> <-])%bind_Ok.
  destruct (negotiate_pure_step _ _ _ _ _ _ _ _ _ _ Hq Hp Hs H1 H2) as [Hv <-].
  split; [done|]. split_and!; [done|done|]. by injection Hv.
Qed.

(** C31: the ranks of a group never disagree.  When the queue trigger is off, two
    ranks with the same settings that run the same passes, each receiving the
    collective's rows, give the same verdicts pass after pass (the same answer,
    reason and counters), whatever their clocks read and whatever wait is in
    progress. *)
Theorem ranks_agree (d1 d2 : PrefillDelayer) (ps qs : list (Env * NegotiateArgs))
    (os1 os2 : list NegotiateOutput) (e1 e2 : PrefillDelayer) :
  queue_min_ratio (config d1) = None → in_step d1 d2 →
  Forall2 (same_pass (config d1)) ps qs →
  run_passes ps d1 = Ok (os1, e1) → run_passes qs d2 = Ok (os2, e2) →
  (verdict <$> os1) = (verdict <$> os2) ∧ in_step e1 e2.
Proof.
  intros Hq Hst Hf. revert d2 Hst os1 os2.
  remember (config d1) as c eqn:Hc. revert d1 Hc.
  induction Hf as [|[pe pa] [qe qa] ps qs Hp Hf IH]; intros d1 Hc d2 Hst os1 os2.
  - by intros [= <- <-] [= <- <-].
  - intros (o1 & d1' & r1 & N1 & R1 & ->)%run_passes_cons (o2 & d2' & r2 & N2 & R2 & ->)%run_passes_cons.
    subst c. destruct (negotiate_step (pe, pa) (qe, qa) d1 d2 _ _ _ _ Hq Hp Hst N1 N2) as [Hv Hs].
    pose proof (negotiate_Ok _ _ _ _ _ N1) as (Hc1 & _).
    destruct (IH d1' (eq_sym Hc1) d2' Hs _ _ R1 R2) as [Hvs He].
    split; [|done]. rewrite !fmap_cons. by f_equal.
Qed.

Module PairDemo.

(** Two ranks, both with requests to prefill, whose clocks are ten seconds apart. *)
Definition args1 : NegotiateArgs := mkArgs true (1 # 2)%Q 7 3 8 1.
Definition args2 : NegotiateArgs := mkArgs true (3 # 4)%Q 6 2 8 2.
Definition cfg (ratio : option Q) : DelayerConfig := mkDelayerConfig 30 None ratio 5000%Q None 2 true.
Definition rows : list Info := [own_row (cfg None) args1; own_row (cfg None) args2].
Definition env (now : Q) : Env := mkEnv (λ _, rows) now now now.
Definition delayer (ratio : option Q) (started : option Q) : PrefillDelayer :=
  mkDelayer (cfg ratio) (mkState 1 <$> started) false.
Definition passes1 : list (Env * NegotiateArgs) := [(env 1%Q, args1); (env 2%Q, args1)].
Definition passes2 : list (Env * NegotiateArgs) := [(env 11%Q, args2); (env 12%Q, args2)].
Definition outs (r : res (list NegotiateOutput * PrefillDelayer)) : list NegotiateOutput :=
  match r with Ok (os, _) => os | Err _ => [] end.
Definition final (r : res (list NegotiateOutput * PrefillDelayer)) (d : PrefillDelayer) :=
  match r with Ok (_, d) => d | Err _ => d end.
Definition d0 : PrefillDelayer := delayer None None.

Lemma own_in_rows ratio : own_row (cfg ratio) args1 ∈ rows ∧ own_row (cfg ratio) args2 ∈ rows.
Proof. split; [left|right; left]. Qed.

Lemma same_passes : Forall2 (same_pass (config d0)) passes1 passes2.
Proof.
  repeat constructor; cbn; try (exists rows; split; (split; [done|apply own_in_rows])).
Qed.

End PairDemo.

Lemma ranks_agree_witness :
  let r1 := run_passes PairDemo.passes1 PairDemo.d0 in
  let r2 := run_passes PairDemo.passes2 PairDemo.d0 in
  (output_reason <$> PairDemo.outs r1) = ["delay"; "delay"]%string ∧
  (verdict <$> PairDemo.outs r1) = (verdict <$> PairDemo.outs r2).
Proof.
  cbv zeta. split; [by vm_compute|].
  apply (ranks_agree PairDemo.d0 PairDemo.d0 PairDemo.passes1 PairDemo.passes2
    (PairDemo.outs (run_passes PairDemo.passes1 PairDemo.d0))
    (PairDemo.outs (run_passes PairDemo.passes2 PairDemo.d0))
    (PairDemo.final (run_passes PairDemo.passes1 PairDemo.d0) PairDemo.d0)
    (PairDemo.final (run_passes PairDemo.passes2 PairDemo.d0) PairDemo.d0)).
  - done.
  - done.
  - apply PairDemo.same_passes.
  - by vm_compute.
  - by vm_compute.
Defined.

(** With the queue trigger on, the ranks can split.  The wall-clock cap of the
    trigger compares the local clock with the local start of the wait, so two
    ranks in step that received the same rows and the same arguments, and whose
    waits began 4 and 6 seconds ago, answer differently: one delays, one
    prefills. *)
Theorem queue_trigger_can_split_ranks :
  ∃ (d1 d2 : PrefillDelayer) (e : Env) (a : NegotiateArgs) o1 e1 o2 e2,
    in_step d1 d2 ∧ same_pass (config d1) (e, a) (e, a) ∧
    is_Some (queue_min_ratio (config d1)) ∧
    negotiate e a d1 = Ok (o1, e1) ∧ negotiate e a d2 = Ok (o2, e2) ∧
    output_allow o1 = false ∧ output_allow o2 = true.
Proof.
  set (c := mkDelayerConfig 30 None (Some 1%Q) 5000%Q None 1 true).
  set (a := mkArgs true (1 # 2)%Q 4 3 100 1).
  set (e := mkEnv (λ i, [i]) 10%Q 10%Q 10%Q).
  exists (mkDelayer c (Some (mkState 1 6%Q)) false), (mkDelayer c (Some (mkState 1 4%Q)) false), e, a.
  eexists _, _, _, _. split_and!.
  - done.
  - split; [|done]. exists [own_row c a]. split; (split; [done|left]).
  - by eexists.
  - vm_compute. reflexivity.
  - vm_compute. reflexivity.
  - done.
  - done.
Qed.

(** ** One negotiation per pass *)

(** The arguments of one call of [negotiate_should_allow_prefill]. *)
Record Call := mkCall {
  c_local : bool; c_running : Z; c_bs : Z; c_max_running : Z; c_queue : Z
}.

Fixpoint run_calls (e : Env) (cs : list Call) (s : SinglePass) : res (list bool * SinglePass) :=
  match cs with
  | [] => Ok ([], s)
  | c :: cs =>
      '(v, s) ← negotiate_should_allow_prefill e (c_local c) (c_running c) (c_bs c) (c_max_running c)
                  (c_queue c) s;
      '(vs, s) ← run_calls e cs s;
      Ok (v :: vs, s)
  end.

Definition called_with (o : NegotiateOutput) (d : PrefillDelayer) (s : SinglePass) : Prop :=
  sp_result s = Some o ∧ prefill_delayer s = d.

Lemma run_calls_decided e cs s o d :
  called_with o d s →
  ∃ s', run_calls e cs s = Ok (replicate (length cs) (output_allow o), s') ∧ called_with o d s' ∧
    attempted_prefill_bs s ≤ attempted_prefill_bs s'.
Proof.
  revert s. induction cs as [|c cs IH]; intros s [Hr Hd]; [by exists s|].
  cbn [run_calls]. unfold negotiate_should_allow_prefill. rewrite Hr. cbn [mbind res_bind].
  match goal with |- context [run_calls e cs ?s1] => destruct (IH s1 ltac:(done)) as (s' & -> & Hc & Ha) end.
  exists s'. split_and!; [done|done|]. cbn in Ha. destruct (c_local c); lia.
Qed.

Lemma prefillable_status_total rows : rows ≠ [] → ∃ st, prefillable_status rows = Ok st.
Proof. destruct rows as [|i rows]; [done|]. by eexists. Qed.

Lemma t_max_total {A} (f : A → Z) rows : rows ≠ [] → ∃ m, t_max (f <$> rows) = Ok m.
Proof. destruct rows as [|i rows]; [done|]. by eexists. Qed.

Lemma negotiate_total e a d : (∀ i, gather e i ≠ []) → ∃ o d', negotiate e a d = Ok (o, d').
Proof.
  intros Hg. unfold negotiate, negotiate_pure, gather_info.
  fold (force_flag (config d) a) (own_row (config d) a).
  pose proof (Hg (own_row (config d) a)) as Hr. set (rows := gather e _) in *. clearbody rows.
  destruct (prefillable_status_total _ Hr) as [st ->].
  destruct (t_max_total i_force_allow _ Hr) as [m1 ->], (t_max_total i_running_batch _ Hr) as [m2 ->],
    (t_max_total i_max_prefill_bs _ Hr) as [m3 ->], (t_max_total i_waiting_queue_len _ Hr) as [m4 ->].
  cbn [mbind res_bind]. repeat case_match; eauto.
Qed.

(** The assertion of the debug log holds of every answer. *)
Lemma record_total x o hc dbg c prev :
  answer_ok c prev o →
  record_single_pass_result x o hc dbg = Ok (if hc then Some (mkObs o x) else None).
Proof.
  intros Ho. unfold record_single_pass_result. destruct dbg; [|done].
  destruct Ho as [(-> & _ & Hin)|(-> & -> & _)]; [|done]. cbn [andb].
  rewrite !elem_of_cons, elem_of_nil in Hin.
  destruct Hin as [Hin|[Hin|[Hin|[Hin|[Hin|[]]]]]]; by rewrite Hin.
Qed.

(** A pass negotiates once.  However often the scheduler asks during a pass,
    the collective runs for the first question only: every later question gets the
    first answer and leaves the delayer alone, and [finalize] then succeeds (its
    assertion on the reason holds) without negotiating again, reporting the actual
    batch size or, when nothing ran, the largest estimate made. *)
Theorem pass_negotiates_once (e : Env) (c : Call) (cs : list Call) (d : PrefillDelayer) (usage : Q) :
  (∀ i, gather e i ≠ []) →
  ∃ o d' s', negotiate e (mkArgs (c_local c) usage (c_running c) (c_bs c) (c_max_running c) (c_queue c)) d
      = Ok (o, d') ∧
    run_calls e (c :: cs) (SinglePass_init d usage) =
      Ok (replicate (S (length cs)) (output_allow o), s') ∧
    prefill_delayer s' = d' ∧
    ∀ bs hc dbg, finalize e bs hc dbg s' =
      Ok (if bs =? 0 then attempted_prefill_bs s' else bs,
          if hc then Some (mkObs o (bs >? 0)) else None, s').
Proof.
  intros Hg. destruct (negotiate_total e
    (mkArgs (c_local c) usage (c_running c) (c_bs c) (c_max_running c) (c_queue c)) d Hg) as (o & d' & Hn).
  exists o, d'. cbn [run_calls]. unfold negotiate_should_allow_prefill. cbn [SinglePass_init sp_result sp_token_usage prefill_delayer].
  rewrite Hn. cbn [mbind res_bind].
  match goal with |- context [run_calls e cs ?s1] =>
    destruct (run_calls_decided e cs s1 o d' ltac:(done)) as (s' & -> & [Hr Hd] & _) end.
  exists s'. split_and!; [done|done|done|]. intros bs hc dbg. unfold finalize. rewrite Hr.
  cbn [mbind res_bind]. rewrite Hr.
  rewrite (record_total _ _ _ _ (config d) (curr_state d)); [done|].
  by apply (negotiate_Ok _ _ _ _ _ Hn).
Qed.

Lemma pass_negotiates_once_witness :
  let e := DelayerDemo.idle_peer in
  let d := PrefillDelayer_init 2 3 None None None None true in
  ∃ o d' s', negotiate e (mkArgs true (1 # 2)%Q 4 2 8 1) d = Ok (o, d') ∧
    run_calls e [mkCall true 4 2 8 1; mkCall true 4 2 8 5] (SinglePass_init d (1 # 2)%Q) = Ok ([false; false], s').
Proof.
  cbv zeta.
  destruct (pass_negotiates_once DelayerDemo.idle_peer (mkCall true 4 2 8 1) [mkCall true 4 2 8 5]
    (PrefillDelayer_init 2 3 None None None None true) (1 # 2)%Q) as (o & d' & s' & H1 & H2 & _); [done|].
  exists o, d', s'. split; [done|]. vm_compute in H1. injection H1 as <- <-. exact H2.
Defined.
