(* ===== verification/PySort.v ===== *)
(** * Python's stable sort

    [list.sort] and [sorted] with a key, as insertion sort: the result is the only
    stable sorted permutation, so the algorithm does not matter. *)

From S2P Require Import Prelude.

(** [x] goes before the first element that is not smaller. *)
Fixpoint place_by {A} (le : A → A → bool) (x : A) (l : list A) : list A :=
  match l with
  | [] => [x]
  | y :: l => if le x y then x :: y :: l else y :: place_by le x l
  end.

Definition py_sorted {A} (le : A → A → bool) (l : list A) : list A := foldr (place_by le) [] l.

Section sorted.
Context {A : Type} (le : A → A → bool).
Implicit Types (x y z : A) (l : list A).

Lemma place_by_Permutation x l : place_by le x l ≡ₚ x :: l.
Proof.
  induction l as [|y l IH]; cbn [place_by]; [done|]. destruct (le x y); [done|].
  rewrite IH. apply Permutation_swap.
Qed.

Lemma py_sorted_Permutation l : py_sorted le l ≡ₚ l.
Proof. induction l as [|x l IH]; cbn; [done|]. by rewrite place_by_Permutation, IH. Qed.

(** The keys are compared by a total preorder. *)
Class PyOrder : Prop := {
  le_total x y : le x y = true ∨ le y x = true;
  le_trans x y z : le x y = true → le y z = true → le x z = true;
}.

Context `{PyOrder}.

Lemma place_by_sorted x l :
  StronglySorted (λ x y, le x y = true) l → StronglySorted (λ x y, le x y = true) (place_by le x l).
Proof.
  induction 1 as [|y l Hs IH Hf]; cbn [place_by]; [by repeat constructor|].
  destruct (le x y) eqn:Hle.
  - constructor; [by constructor|]. constructor; [done|].
    eapply Forall_impl; [exact Hf|]. intros z Hz. by eapply le_trans.
  - constructor; [done|]. rewrite place_by_Permutation. constructor; [|done].
    destruct (le_total x y); congruence.
Qed.

Lemma py_sorted_sorted l : StronglySorted (λ x y, le x y = true) (py_sorted le l).
Proof. induction l as [|x l IH]; cbn; [constructor|]. by apply place_by_sorted. Qed.

(** Elements with equal keys keep their order. *)
Definition same_key x y : bool := le x y && le y x.

Lemma place_by_stable z x l :
  List.filter (same_key z) (place_by le x l) = List.filter (same_key z) (x :: l).
Proof.
  induction l as [|y l IH]; cbn [place_by]; [done|]. destruct (le x y) eqn:Hxy; [done|].
  cbn [List.filter] in *. rewrite IH.
  destruct (same_key z x) eqn:Hx, (same_key z y) eqn:Hy; try done. exfalso.
  unfold same_key in *. apply andb_true_iff in Hx as [_ Hx], Hy as [Hy _].
  assert (le x y = true) by (by eapply le_trans). congruence.
Qed.

Lemma py_sorted_stable z l : List.filter (same_key z) (py_sorted le l) = List.filter (same_key z) l.
Proof.
  induction l as [|x l IH]; [done|]. cbn [py_sorted foldr]. fold (py_sorted le l).
  rewrite place_by_stable. cbn [List.filter]. by rewrite IH.
Qed.
End sorted.

(** Orders from keys: a first key, then a second one where the first is equal. *)
Definition le_by {A} (f : A → Z) (x y : A) : bool := f x <=? f y.
Definition le_then {A} (f : A → Z) (g : A → A → bool) (x y : A) : bool :=
  (f x <? f y) || ((f x =? f y) && g x y).

#[export] Instance le_by_order {A} (f : A → Z) : PyOrder (le_by f).
Proof. split; unfold le_by; intros; rewrite ?Z.leb_le in *; lia. Qed.

#[export] Instance le_then_order {A} (f : A → Z) (g : A → A → bool) : PyOrder g → PyOrder (le_then f g).
Proof.
  intros Hg. split; unfold le_then.
  - intros x y. destruct (Z.lt_trichotomy (f x) (f y)) as [Hl|[He|Hl]].
    + left. by apply Z.ltb_lt in Hl as ->.
    + rewrite He, Z.eqb_refl, Z.ltb_irrefl. cbn [orb andb]. by apply le_total.
    + right. by apply Z.ltb_lt in Hl as ->.
  - intros x y z. rewrite !orb_true_iff, !andb_true_iff, !Z.ltb_lt, !Z.eqb_eq.
    intros [?|[? Hxy]] [?|[? Hyz]]; [left; lia..|right; split; [lia|by eapply le_trans]].
Qed.
