(* ===== verification/PrefillAdder.v ===== *)
(** * Admission of prefill requests

    [PrefillAdder] of [managers/schedule_policy.py]: the budgets of one scheduling
    pass, the requests it admits (whole, or the first chunk of them), the lock it
    takes on their cached prefixes, and the running requests it preempts.

    What the adder needs of the KV pools and the prefix cache is the class
    [Pools]: the free and evictable sizes, the locks on cached prefixes, the
    load-back from the host and the release of a preempted request.  The kind of
    the allocator, which the code finds by [isinstance], is part of the class.

    A request is the part of [Req] of the file [ReqPool] with its scheduling
    fields; [obj] is its identity as a Python object.  A budget the code keeps as
    a float is a rational. *)

From S2P Require Import Prelude PyFloat PySort ReqPool PrefillDelayer.

(** ** Requests *)

Record SReq := mkSReq {
  obj : nat;
  base : Req;
  max_new_tokens : Z;
  ignore_eos : bool;
  priority : Z;
  wait_queue_entry_time : Z;
  best_match_node : option nat;
  host_hit_length : Z;
  swa_host_hit_length : Z;
  mamba_host_hit_length : Z;
  storage_hit_length : Z;
  retracted_stain : bool;
  holds_mamba : bool;
  dllm_incomplete_ids : bool;
  is_finished : bool;
  swa_uuid_for_lock : option Z;
}.

Definition with_base (r : SReq) (b : Req) : SReq :=
  mkSReq (obj r) b (max_new_tokens r) (ignore_eos r) (priority r) (wait_queue_entry_time r)
    (best_match_node r) (host_hit_length r) (swa_host_hit_length r) (mamba_host_hit_length r)
    (storage_hit_length r) (retracted_stain r) (holds_mamba r) (dllm_incomplete_ids r)
    (is_finished r) (swa_uuid_for_lock r).
Definition with_swa_uuid (r : SReq) (u : option Z) : SReq :=
  mkSReq (obj r) (base r) (max_new_tokens r) (ignore_eos r) (priority r) (wait_queue_entry_time r)
    (best_match_node r) (host_hit_length r) (swa_host_hit_length r) (mamba_host_hit_length r)
    (storage_hit_length r) (retracted_stain r) (holds_mamba r) (dllm_incomplete_ids r)
    (is_finished r) u.

Definition out_len (r : SReq) : Z := zlen (output_ids (base r)).
Definition prefix_len (r : SReq) : Z := zlen (prefix_indices (base r)).
Definition fill_len (r : SReq) : Z := zlen (full_untruncated_fill_ids (base r)).

(** [req.set_extend_range(a, b)] and [req.extend_range.length] *)
Definition with_range (a b : Z) (r : SReq) : SReq := with_base r (set_extend_range a b (base r)).
Definition extend_len (r : SReq) : Z :=
  match extend_range (base r) with Some (a, b) => b - a | None => 0 end.

Definition needs_host_load_back (r : SReq) : bool :=
  (host_hit_length r >? 0) || (swa_host_hit_length r >? 0) || (mamba_host_hit_length r >? 0).

Definition split_cached_prefix_by_tier (prefix_len host_hit_len storage_hit_len : Z) : Z * Z * Z :=
  let storage := Z.min host_hit_len storage_hit_len in
  let host := host_hit_len - storage in
  let device := Z.max 0 (prefix_len - host_hit_len) in
  (device, host, storage).

(** ** Settings of the process and the interface to the pools *)

Class Settings := {
  CLIP_MAX_NEW_TOKENS : Z;
  IS_HIP : bool;
  PREFILL_TILE_BUDGET : Z;
  tile_mode_compact : bool;
  low_priority_values_first : bool;
}.

Definition IGNORE_EOS_RESERVE_TOKENS : Z := 1.

Class Pools (P : Type) := {
  is_hybrid_swa : bool;
  is_all_swa : bool;
  is_unified_mamba : bool;
  supports_mamba : bool;
  is_tree_cache : bool;
  cache_disable : bool;
  sliding_window_size : Z;
  size_swa : Z;
  mamba_slot_full_token_cost : Z;
  p_available_size : P → Z;
  p_full_available_size : P → Z;
  p_swa_available_size : P → Z;
  p_evictable_size : P → Z;
  p_full_evictable_size : P → Z;
  p_swa_evictable_size : P → Z;
  p_mamba_evictable_size : P → Z;
  p_mamba_schedulable_size : P → Z;
  (** [inc_lock_ref] gives the SWA lock id, which [to_dec_params] hands back. *)
  p_inc_lock_ref : option nat → P → res (option Z * P);
  p_dec_lock_ref : option nat → option (option Z) → P → res P;
  p_init_load_back : SReq → P → res (list Z * option nat * P);
  p_release_req : SReq → Z → P → res (SReq * P);
}.

(** ** Tile metrics *)

Definition ceil_div (value divisor : Z) : Z := - (- value / divisor).

Record TileMetrics := mkMetrics {
  tm_block_m : Z;
  request_count : Z;
  tm_extend_lens : list Z;
  q_tiles_per_request : list Z;
  max_extend_len : Z;
  sum_extend_len : Z;
  legacy_q_tiles_per_head : Z;
  compact_q_tiles_per_head : Z;
  saved_q_tiles_per_head : Z;
  saved_q_tile_ratio : option Q;
}.

Definition max_or_0 (l : list Z) : Z :=
  match l with [] => 0 | x :: l => foldl Z.max x l end.

Definition estimate_prefill_extend_tile_metrics (extend_lens : list Z) (block_m : Z) : TileMetrics :=
  let normalized := Z.max 0 <$> extend_lens in
  let q_tiles := (λ n, if n >? 0 then ceil_div n block_m else 0) <$> normalized in
  let legacy := zlen q_tiles * max_or_0 q_tiles in
  let compact := zsum q_tiles in
  let saved := legacy - compact in
  mkMetrics block_m (zlen normalized) normalized q_tiles (max_or_0 normalized) (zsum normalized)
    legacy compact saved
    (if legacy =? 0 then None else Some (inject_Z saved / inject_Z legacy)%Q).

(** ** The state of a pass *)

Inductive AddReqResult := CONTINUE | NO_TOKEN | OTHER.

#[export] Instance AddReqResult_eq_dec : EqDecision AddReqResult.
Proof. solve_decision. Defined.

Record DllmConfig := mkDllm { block_size : Z; dllm_max_running_requests : Z }.

(** What [PrefillAdder.__init__] fixes for the pass. *)
Record AdderConfig := mkAdderConfig {
  page_size : Z;
  new_token_ratio : Q;
  dllm_config : option DllmConfig;
  prefill_tile_block_m : Z;
  priority_scheduling_preemption_threshold : Z;
  max_running_requests : option Z;
  prefill_max_requests : option Z;
  pa_max_prefill_bs : Z;
  pa_waiting_queue_len : Z;
  dsa_prefill_cp_in_seq_split : bool;
  mamba_slot_cost : Z;
}.

Record Budget := mkBudget {
  rem_input_tokens : Z;
  rem_chunk_tokens : option Z;
  rem_total_token_offset : Q;
  cur_rem_token_offset : Z;
  rem_swa_token_offset : Z;
  rem_mamba_slots : option Z;
  rem_dllm_tokens : Z;
}.

Record Logs := mkLogs {
  log_hit_tokens : Z;
  reprocessed_log_hit_tokens : Z;
  log_device_hit_tokens : Z;
  log_host_hit_tokens : Z;
  log_storage_hit_tokens : Z;
  log_input_tokens : Z;
  reprocessed_log_input_tokens : Z;
}.

(** [new_chunked_req] refers to an object of [can_run_list]. *)
Record PrefillAdder (P : Type) := mkAdder {
  cfg : AdderConfig;
  budget : Budget;
  logs : Logs;
  running_reqs : option (list SReq);
  req_states : option (list (Q * Z));
  can_run_list : list SReq;
  preempt_list : list SReq;
  new_chunked_req : option nat;
  delayer : option SinglePass;
  delayer_env : Env;
  pools : P;
}.
Arguments mkAdder {P}.
Arguments cfg {P}. Arguments budget {P}. Arguments logs {P}. Arguments running_reqs {P}.
Arguments req_states {P}. Arguments can_run_list {P}. Arguments preempt_list {P}.
Arguments new_chunked_req {P}. Arguments delayer {P}. Arguments delayer_env {P}. Arguments pools {P}.

Section adder.
Context {P : Type} `{Settings} `{Pools P}.
Implicit Types (a : PrefillAdder P) (r : SReq).

Definition with_pools a (p : P) : PrefillAdder P :=
  mkAdder (cfg a) (budget a) (logs a) (running_reqs a) (req_states a) (can_run_list a)
    (preempt_list a) (new_chunked_req a) (delayer a) (delayer_env a) p.
Definition with_budget a (b : Budget) : PrefillAdder P :=
  mkAdder (cfg a) b (logs a) (running_reqs a) (req_states a) (can_run_list a)
    (preempt_list a) (new_chunked_req a) (delayer a) (delayer_env a) (pools a).
Definition with_logs a (l : Logs) : PrefillAdder P :=
  mkAdder (cfg a) (budget a) l (running_reqs a) (req_states a) (can_run_list a)
    (preempt_list a) (new_chunked_req a) (delayer a) (delayer_env a) (pools a).
Definition with_req_states a (s : list (Q * Z)) : PrefillAdder P :=
  mkAdder (cfg a) (budget a) (logs a) (running_reqs a) (Some s) (can_run_list a)
    (preempt_list a) (new_chunked_req a) (delayer a) (delayer_env a) (pools a).
Definition with_delayer a (d : SinglePass) : PrefillAdder P :=
  mkAdder (cfg a) (budget a) (logs a) (running_reqs a) (req_states a) (can_run_list a)
    (preempt_list a) (new_chunked_req a) (Some d) (delayer_env a) (pools a).
(** [self.can_run_list.append(req)] *)
Definition can_run r a : PrefillAdder P :=
  mkAdder (cfg a) (budget a) (logs a) (running_reqs a) (req_states a) (can_run_list a ++ [r])
    (preempt_list a) (new_chunked_req a) (delayer a) (delayer_env a) (pools a).
Definition set_chunked r a : PrefillAdder P :=
  mkAdder (cfg a) (budget a) (logs a) (running_reqs a) (req_states a) (can_run_list a)
    (preempt_list a) (Some (obj r)) (delayer a) (delayer_env a) (pools a).

(** ** Budgets *)

Definition get_running_request_total_token_offset (c : AdderConfig) r : Q :=
  (inject_Z (Z.min (max_new_tokens r - out_len r) CLIP_MAX_NEW_TOKENS) * new_token_ratio c)%Q.

Definition PrefillAdder_init (page_size : Z) (p : P) (running : option (list SReq))
    (new_token_ratio : Q) (rem_input : Z) (rem_chunk : option Z) (num_mixed_decode_tokens : Z)
    (threshold max_prefill_bs : Z) (max_running prefill_max : option Z) (d : option SinglePass)
    (e : Env) (dllm : option DllmConfig) (waiting_queue_len block_m : Z) (dsa_split : bool)
    : PrefillAdder P :=
  let cost := if is_unified_mamba then mamba_slot_full_token_cost else 0 in
  let c := mkAdderConfig page_size new_token_ratio dllm block_m threshold max_running prefill_max
             max_prefill_bs waiting_queue_len dsa_split cost in
  let mamba_slots :=
    if cost =? 0 then None
    else Some (p_mamba_schedulable_size p + if supports_mamba then p_mamba_evictable_size p else 0) in
  let dllm_tokens := match dllm with Some dc => dllm_max_running_requests dc * block_size dc | None => 0 end in
  let running_offset :=
    match running with
    | Some rs => Qsum (get_running_request_total_token_offset c <$> rs)
    | None => 0%Q
    end in
  mkAdder c
    (mkBudget (rem_input - num_mixed_decode_tokens)
       ((λ n, n - num_mixed_decode_tokens) <$> rem_chunk)
       (inject_Z num_mixed_decode_tokens + running_offset)%Q num_mixed_decode_tokens 0 mamba_slots
       dllm_tokens)
    (mkLogs 0 0 0 0 0 0 0) running None [] [] None d e p.

Definition available_and_evictable (p : P) : Z :=
  if is_all_swa then p_swa_available_size p + p_swa_evictable_size p
  else if is_hybrid_swa then p_full_available_size p + p_full_evictable_size p
  else if supports_mamba then p_available_size p + p_full_evictable_size p
  else p_available_size p + p_evictable_size p.

Definition rem_total_tokens a : Q :=
  (inject_Z (available_and_evictable (pools a)) - rem_total_token_offset (budget a))%Q.
Definition rem_swa_tokens a : Z :=
  p_swa_available_size (pools a) + p_swa_evictable_size (pools a) - rem_swa_token_offset (budget a).
Definition cur_rem_tokens a : Z :=
  available_and_evictable (pools a) - cur_rem_token_offset (budget a).

Definition ceil_paged_tokens (c : AdderConfig) (tokens : Z) : Z :=
  - (- tokens / page_size c) * page_size c.

Definition swa_reserved_tokens (c : AdderConfig) (extend_input_len max_new swa_host_hit : Z) : Z :=
  let headroom := Z.min (extend_input_len + max_new) sliding_window_size in
  let reserved := headroom + page_size c in
  if swa_host_hit >? 0 then reserved + ceil_paged_tokens c swa_host_hit else reserved.

Definition swa_budget_for_req (c : AdderConfig) (rem_chunk : option Z)
    (extend_input_len max_new swa_host_hit : Z) : Z :=
  let alloc := match rem_chunk with Some n => Z.min extend_input_len n | None => extend_input_len end in
  Z.max (alloc - sliding_window_size) 0 + swa_reserved_tokens c extend_input_len max_new swa_host_hit.

(** [_swa_new_tokens], and the same expression in [add_one_req] *)
Definition swa_new_tokens r : Z :=
  Z.min (Z.max (max_new_tokens r - out_len r) 0) CLIP_MAX_NEW_TOKENS.

Definition swa_chunk_cap a (max_new swa_host_hit : Z) : Z :=
  let cap := rem_swa_tokens a - swa_reserved_tokens (cfg a) 0 max_new swa_host_hit in
  if cap <=? 0 then 0 else cap / page_size (cfg a) * page_size (cfg a).

Definition swa_req_never_fits (c : AdderConfig) (rem_chunk : option Z)
    (extend_input_len max_new swa_host_hit : Z) : bool :=
  size_swa <=? swa_budget_for_req c rem_chunk extend_input_len max_new swa_host_hit.

Definition mamba_gap_budget_for_req (c : AdderConfig) r : Z :=
  if negb (mamba_slot_cost c =? 0) && negb (holds_mamba r) then mamba_slot_cost c else 0.

Definition chunk_budget_exhausted a : bool :=
  match rem_chunk_tokens (budget a) with Some n => n <? page_size (cfg a) | None => false end.

Definition budget_state a : AddReqResult :=
  let b := budget a in
  let no_token := Qle_bool (rem_total_tokens a) 0 || (cur_rem_tokens a <=? 0) in
  let no_token := no_token || (is_hybrid_swa && (rem_swa_tokens a <=? 0)) in
  let no_token := no_token || match rem_mamba_slots b with Some n => n <=? 0 | None => false end in
  if no_token then NO_TOKEN
  else if rem_input_tokens b <=? 0 then OTHER
  else match dllm_config (cfg a) with
       | Some _ => if rem_dllm_tokens b <=? 0 then OTHER else CONTINUE
       | None =>
           match rem_chunk_tokens b with
           | Some n => if n <=? 0 then OTHER else CONTINUE
           | None => CONTINUE
           end
       end.

Definition log_prefill (l : Logs) (prefix_len extend : Z) (stain : bool) (host_hit storage_hit : Z) : Logs :=
  let '(device, host, storage) := split_cached_prefix_by_tier prefix_len host_hit storage_hit in
  let hit := negb stain && (prefix_len >? 0) in
  mkLogs (log_hit_tokens l + prefix_len)
    (reprocessed_log_hit_tokens l + if stain then prefix_len else 0)
    (log_device_hit_tokens l + if hit then device else 0)
    (log_host_hit_tokens l + if hit then host else 0)
    (log_storage_hit_tokens l + if hit then storage else 0)
    (log_input_tokens l + extend)
    (reprocessed_log_input_tokens l + if stain then extend else 0).

Definition charge (c : AdderConfig) (b : Budget) (extend max_new mamba_gap_reserve : Z) : Budget :=
  mkBudget (rem_input_tokens b - extend)
    (match dllm_config c with
     | Some _ => rem_chunk_tokens b
     | None => (λ n, n - extend) <$> rem_chunk_tokens b
     end)
    (rem_total_token_offset b + inject_Z (extend + max_new + page_size c + mamba_gap_reserve))%Q
    (cur_rem_token_offset b + (extend + page_size c + mamba_gap_reserve))
    (if is_hybrid_swa
     then rem_swa_token_offset b + swa_budget_for_req c (rem_chunk_tokens b) extend max_new 0
     else rem_swa_token_offset b)
    (if mamba_gap_reserve =? 0 then rem_mamba_slots b else (λ n, n - 1) <$> rem_mamba_slots b)
    (match dllm_config c with
     | Some _ => rem_dllm_tokens b - extend
     | None => rem_dllm_tokens b
     end).

Definition update_prefill_budget (prefix_len extend_input_len max_new : Z) (stain : bool)
    (mamba_gap_reserve host_hit storage_hit : Z) a : PrefillAdder P :=
  let extend := ceil_paged_tokens (cfg a) extend_input_len in
  let a := with_budget a (charge (cfg a) (budget a) extend max_new mamba_gap_reserve) in
  with_logs a (log_prefill (logs a) prefix_len extend stain host_hit storage_hit).

(** ** Tile budget *)

(** [getattr(req, "extend_input_len", 0)]: no [Req] has that attribute (its extend
    length is [req.extend_range.length]), so the default is taken. *)
Definition extend_input_len r : option Z := None.
Definition admitted_extend_lens a : list Z := (λ r, default 0 (extend_input_len r)) <$> can_run_list a.

Definition check_prefill_tile_budget a (candidate_extend_len : Z) : option AddReqResult :=
  if negb IS_HIP || (PREFILL_TILE_BUDGET <=? 0) then None
  else match can_run_list a with
       | [] => None
       | _ =>
           let m := estimate_prefill_extend_tile_metrics
                      (admitted_extend_lens a ++ [candidate_extend_len])
                      (prefill_tile_block_m (cfg a)) in
           let metric := if tile_mode_compact then compact_q_tiles_per_head m
                         else legacy_q_tiles_per_head m in
           if metric <=? PREFILL_TILE_BUDGET then None else Some OTHER
       end.

(** ** The delayer *)

(** [negotiate_should_allow_prefill(local_prefillable=True, ...)]; without a
    delayer prefill is allowed. *)
Definition consult a : res (bool * PrefillAdder P) :=
  match delayer a with
  | None => Ok (true, a)
  | Some sp =>
      match running_reqs a, max_running_requests (cfg a) with
      | None, _ => Err AttributeError
      | _, None => Err TypeError
      | Some rs, Some m =>
          '(v, sp) ← negotiate_should_allow_prefill (delayer_env a) true (zlen rs)
                       (pa_max_prefill_bs (cfg a)) m (pa_waiting_queue_len (cfg a)) sp;
          Ok (v, with_delayer a sp)
      end
  end.

(** [_req_inc_lock_ref] *)
Definition req_inc_lock_ref r a : res (SReq * PrefillAdder P) :=
  '(uuid, p) ← p_inc_lock_ref (last_node (base r)) (pools a);
  Ok (if is_hybrid_swa then with_swa_uuid r uuid else r, with_pools a p).

(** [self.can_run_list.append(req)], the lock on its prefix and the charge: the
    appended object is the one the lock updates. *)
Definition admit_locked (prefix extend max_new : Z) r a : res (SReq * PrefillAdder P) :=
  '(r, a) ← req_inc_lock_ref r a;
  let a := can_run r a in
  Ok (r, update_prefill_budget prefix extend max_new (retracted_stain r)
           (mamba_gap_budget_for_req (cfg a) r) (host_hit_length r) (storage_hit_length r) a).

(** ** Diffusion requests *)

Definition dllm_block (c : AdderConfig) : Z :=
  match dllm_config c with Some dc => block_size dc | None => 0 end.

Definition get_dllm_remain_tokens a : Z :=
  let rem := Z.min (Z.min (rem_dllm_tokens (budget a)) (dllm_block (cfg a)))
               (py_int (rem_total_tokens a)) in
  if rem <=? 0 then rem_dllm_tokens (budget a) else rem.

Definition add_dllm_req r (prefix : Z) a : SReq * PrefillAdder P :=
  let trunc_len := Z.min (rem_dllm_tokens (budget a)) (dllm_block (cfg a))
                     / page_size (cfg a) * page_size (cfg a) in
  let r := with_range prefix (prefix + trunc_len) r in
  let a := can_run r a in
  (r, update_prefill_budget prefix trunc_len 0 (retracted_stain r)
        (mamba_gap_budget_for_req (cfg a) r) (host_hit_length r) (storage_hit_length r) a).

(** The truncation and the charge that [add_dllm_staging_req] and
    [add_chunked_req] share: the request gets at most [rem] tokens, and reserves
    its output only when nothing is cut off. *)
Definition add_truncated r (rem : Z) a : SReq * PrefillAdder P :=
  let cand := fill_len r - prefix_len r in
  let truncated := cand >? rem in
  let new_len := Z.min cand rem in
  let r := with_range (prefix_len r) (prefix_len r + new_len) r in
  let a := can_run r a in
  let max_new := if truncated then 0 else Z.min (max_new_tokens r) CLIP_MAX_NEW_TOKENS in
  (r, update_prefill_budget 0 (extend_len r) max_new (retracted_stain r)
        (mamba_gap_budget_for_req (cfg a) r) 0 0 a).

Definition add_dllm_staging_req r a : res (AddReqResult * SReq * PrefillAdder P) :=
  match dllm_config (cfg a) with
  | None => Err AssertionError
  | Some _ =>
      let rem := get_dllm_remain_tokens a in
      if rem <=? 0 then Ok (NO_TOKEN, r, a)
      else if dllm_incomplete_ids r && (fill_len r - prefix_len r >? rem) then Ok (NO_TOKEN, r, a)
      else
        let '(r, a) := add_truncated r rem a in
        Ok (if get_dllm_remain_tokens a <=? 0 then NO_TOKEN else CONTINUE, r, a)
  end.

(** ** Chunked requests *)

(** The tokens the next chunk may take; [None] parks the request. *)
Definition chunk_rem_tokens a : res (option Z) :=
  match dllm_config (cfg a), rem_chunk_tokens (budget a) with
  | Some _, _ => Ok (Some (get_dllm_remain_tokens a))
  | None, None => Err TypeError
  | None, Some chunk =>
      let rem := Z.min chunk (py_int (rem_total_tokens a)) in
      let rem := if is_hybrid_swa then Z.min rem (rem_swa_tokens a - page_size (cfg a)) else rem in
      if rem <=? 0 then Ok (if is_hybrid_swa then None else Some chunk) else Ok (Some rem)
  end.

(** [add_chunked_req]: the first component is the request when its prefill goes
    on, [None] when this was the last chunk. *)
Definition add_chunked_req r a : res (option SReq * SReq * PrefillAdder P) :=
  rem ← chunk_rem_tokens a;
  match rem with
  | None => Ok (Some r, r, a)
  | Some rem =>
      '(_, a) ← consult a;
      let truncated := fill_len r - prefix_len r >? rem in
      let '(r, a) := add_truncated r rem a in
      Ok (if truncated then Some r else None, r, a)
  end.

(** ** Requests that ignore the end-of-sequence token *)

(** The entry of a request in [req_states]: the tokens it still decodes and the
    tokens it frees when it is done. *)
Definition req_state (c : AdderConfig) r : option (Q * Z) :=
  let ratio := if ignore_eos r then 1%Q else new_token_ratio c in
  let tokens_left := (inject_Z (max_new_tokens r) * ratio - inject_Z (out_len r))%Q in
  let tokens_occupied := zlen (origin_input_ids (base r)) + out_len r in
  if Qle_bool tokens_left 0 then None else Some (tokens_left, tokens_occupied).

(** The index [for i in range(len(l)): if x <= l[i][0]: break] leaves in [i]:
    that of the first entry that is not smaller, or the last index of all. *)
Fixpoint break_index (x : Q) (l : list (Q * Z)) : nat :=
  match l with
  | [] => 0%nat
  | [_] => 0%nat
  | y :: l => if Qle_bool x y.1 then 0%nat else S (break_index x l)
  end.

(** [self.req_states.insert(i, s)] at that index *)
Definition insert_state (s : Q * Z) (l : list (Q * Z)) : list (Q * Z) :=
  let i := break_index s.1 l in take i l ++ s :: drop i l.

(** [l.sort(key=lambda x: x[0])] *)
Definition state_leb (x y : Q * Z) : bool := Qle_bool x.1 y.1.
Definition sort_states (l : list (Q * Z)) : list (Q * Z) := py_sorted state_leb l.

Definition add_req_states r a : list (Q * Z) :=
  match req_states a with
  | None =>
      let rs := [r] ++ default [] (running_reqs a) ++ can_run_list a in
      sort_states (omap (req_state (cfg a)) rs)
  | Some l => match req_state (cfg a) r with Some s => insert_state s l | None => l end
  end.

(** The loop over [req_states]: [false] when a request would run out of memory. *)
Fixpoint states_fit (cur_rem : Z) (freed : Z) (l : list (Q * Z)) : bool :=
  match l with
  | [] => true
  | (tokens_left, tokens_occupied) :: l' =>
      let bs := zlen l in
      let min_free := (inject_Z (cur_rem + freed) - tokens_left * inject_Z bs)%Q in
      if Qle_bool min_free (inject_Z (IGNORE_EOS_RESERVE_TOKENS * bs)) then false
      else states_fit cur_rem (freed + tokens_occupied) l'
  end.

(** The admission proper, after every gate of [add_one_req_ignore_eos]; [Some]
    is an early return. *)
Definition admit_ignore_eos r a : res (option AddReqResult * SReq * PrefillAdder P) :=
  let cand := fill_len r - prefix_len r in
  let whole :=
    match check_prefill_tile_budget a cand with
    | Some stop => Ok (Some stop, r, a)
    | None =>
        let r := with_range (prefix_len r) (fill_len r) r in
        let a := can_run r a in
        Ok (None, r, update_prefill_budget 0 (extend_len r)
                       (Z.min (max_new_tokens r) CLIP_MAX_NEW_TOKENS) (retracted_stain r)
                       (mamba_gap_budget_for_req (cfg a) r) 0 0 a)
    end in
  match dllm_config (cfg a), rem_chunk_tokens (budget a) with
  | Some _, _ =>
      if rem_dllm_tokens (budget a) <=? 0 then Ok (Some OTHER, r, a)
      else match check_prefill_tile_budget a cand with
           | Some stop => Ok (Some stop, r, a)
           | None => let '(r, a) := add_dllm_req r 0 a in Ok (None, r, a)
           end
  | None, None => whole
  | None, Some chunk =>
      if cand <=? chunk then whole
      else if chunk <=? 0 then Ok (Some OTHER, r, a)
      else match check_prefill_tile_budget a chunk with
           | Some stop => Ok (Some stop, r, a)
           | None =>
               if prefix_len r =? 0 then
                 let r := with_range (prefix_len r) (prefix_len r + chunk) r in
                 let a := set_chunked r (can_run r a) in
                 Ok (None, r, update_prefill_budget 0 chunk 0 (retracted_stain r)
                                (mamba_gap_budget_for_req (cfg a) r) 0 0 a)
               else Err AssertionError
           end
  end.

Definition add_one_req_ignore_eos r a : res (AddReqResult * SReq * PrefillAdder P) :=
  let cand := fill_len r - prefix_len r in
  let paged_input := ceil_paged_tokens (cfg a) cand + mamba_gap_budget_for_req (cfg a) r in
  if negb (Qle_bool (inject_Z paged_input) (inject_Z (cur_rem_tokens a)) &&
           Qle_bool (inject_Z paged_input) (rem_total_tokens a)) then Ok (NO_TOKEN, r, a)
  else if is_hybrid_swa &&
          (swa_budget_for_req (cfg a) (rem_chunk_tokens (budget a)) cand (swa_new_tokens r) 0
             >? rem_swa_tokens a) then Ok (NO_TOKEN, r, a)
  else
    let a := with_req_states a (add_req_states r a) in
    let fits := states_fit (cur_rem_tokens a - ceil_paged_tokens (cfg a) cand) 0
                  (default [] (req_states a)) in
    if negb is_hybrid_swa && negb fits then Ok (NO_TOKEN, r, a)
    else
      '(allow, a) ← consult a;
      if negb allow then Ok (OTHER, r, a)
      else
        '(stop, r, a) ← admit_ignore_eos r a;
        Ok (default (budget_state a) stop, r, a).

(** ** [add_one_req] *)

(** The gate on the sliding-window pool, which the code runs before and after it
    takes the lock: [None] rejects the request, [Some] gives the chunk limit. *)
Definition swa_gate r (real_input_tokens : Z) (limit : option Z) a : option (option Z) :=
  let rem_chunk := rem_chunk_tokens (budget a) in
  let needed := swa_budget_for_req (cfg a) rem_chunk real_input_tokens (swa_new_tokens r)
                  (swa_host_hit_length r) in
  if negb is_hybrid_swa then Some limit
  else if needed <? rem_swa_tokens a then Some limit
  else if negb (swa_req_never_fits (cfg a) rem_chunk real_input_tokens (swa_new_tokens r)
                  (swa_host_hit_length r)) then None
  else
    let cap := swa_chunk_cap a (swa_new_tokens r) (swa_host_hit_length r) in
    match rem_chunk with
    | None => None
    | Some n => if cap <=? 0 then None else Some (Some (Z.min n cap))
    end.

(** Without chunked prefill a later request respects [max_prefill_tokens]; the
    first request is always accepted. *)
Definition over_input_budget (input_tokens : Z) a : bool :=
  match rem_chunk_tokens (budget a) with
  | Some _ => false
  | None => negb (zlen (can_run_list a) =? 0) && (rem_input_tokens (budget a) <=? input_tokens)
  end.

(** The length of the first chunk of a request that does not fit the limit. *)
Definition chunk_len (c : AdderConfig) (limit prefix : Z) (align : option Z) : option Z :=
  let ps := page_size c in
  let trunc := limit / ps * ps in
  if trunc <=? 0 then None
  else
    match (match align with
           | Some al => if trunc <? al then None else Some (al * (trunc / al))
           | None => Some trunc
           end) with
    | None => None
    | Some trunc =>
        let now_input_len := (trunc + prefix) / ps * ps in
        let trunc := now_input_len - prefix in
        if trunc <=? 0 then None else Some trunc
    end.

(** The choice between a diffusion block, the whole request and a first chunk;
    [Some] is an early return. *)
Definition admit_one r (prefix input_tokens : Z) (limit align : option Z) a
    : res (option AddReqResult * SReq * PrefillAdder P) :=
  let whole :=
    match check_prefill_tile_budget a input_tokens with
    | Some stop => Ok (Some stop, r, a)
    | None =>
        let r := with_range (prefix_len r) (fill_len r) r in
        '(r, a) ← admit_locked prefix input_tokens (Z.min (max_new_tokens r) CLIP_MAX_NEW_TOKENS) r a;
        Ok (None, r, a)
    end in
  match dllm_config (cfg a), limit with
  | Some _, _ =>
      if rem_dllm_tokens (budget a) <=? 0 then Ok (Some OTHER, r, a)
      else match align with
           | Some _ => Err AssertionError
           | None =>
               match check_prefill_tile_budget a input_tokens with
               | Some stop => Ok (Some stop, r, a)
               | None =>
                   '(r', a) ← req_inc_lock_ref r a;
                   let '(r', a) := add_dllm_req r' prefix a in
                   Ok (None, r', a)
               end
           end
  | None, None => whole
  | None, Some limit =>
      if input_tokens <=? limit then whole
      else match chunk_len (cfg a) limit (prefix_len r) align with
           | None => Ok (Some OTHER, r, a)
           | Some trunc =>
               match check_prefill_tile_budget a trunc with
               | Some stop => Ok (Some stop, r, a)
               | None =>
                   let r := with_range (prefix_len r) (prefix_len r + trunc) r in
                   '(r, a) ← admit_locked prefix trunc 0 r a;
                   Ok (None, r, set_chunked r a)
               end
           end
  end.

(** [init_load_back]: the host part of the prefix becomes device indices. *)
Definition load_back r a : res (SReq * PrefillAdder P) :=
  if needs_host_load_back r then
    '(new_indices, node, p) ← p_init_load_back r (pools a);
    let b := set_prefix_indices (set_last_node (base r) node) (prefix_indices (base r) ++ new_indices) in
    let b := set_kv b (set_cache_protected_len (kv b) (zlen (prefix_indices b))) in
    Ok (with_base r b, with_pools a p)
  else Ok (r, a).

(** The body of [with self._lock_node(req.last_node)]; [Some] is an early
    return. *)
Definition add_one_req_locked r (total_tokens real_input_tokens : Z) (limit align : option Z) a
    : res (option AddReqResult * SReq * PrefillAdder P) :=
  if Qle_bool (rem_total_tokens a) (inject_Z total_tokens) then Ok (Some NO_TOKEN, r, a)
  else match swa_gate r real_input_tokens limit a with
       | None => Ok (Some NO_TOKEN, r, a)
       | Some limit =>
           '(allow, a) ← consult a;
           if negb allow then Ok (Some OTHER, r, a)
           else
             '(r, a) ← load_back r a;
             let input_tokens := ceil_paged_tokens (cfg a) (fill_len r - prefix_len r) in
             if over_input_budget input_tokens a then Ok (Some OTHER, r, a)
             else admit_one r (prefix_len r) input_tokens limit align a
       end.

(** [_lock_node] around the body *)
Definition with_lock_node {R} (node : option nat)
    (body : PrefillAdder P → res (R * PrefillAdder P)) a : res (R * PrefillAdder P) :=
  '(tok, p) ← p_inc_lock_ref node (pools a);
  '(x, a) ← body (with_pools a p);
  p ← p_dec_lock_ref node (if is_tree_cache then Some tok else None) (pools a);
  Ok (x, with_pools a p).

(** The tokens a request has to find free before it is considered. *)
Definition total_tokens_of r a : Z :=
  (fill_len r - prefix_len r) + swa_new_tokens r + page_size (cfg a) +
  mamba_gap_budget_for_req (cfg a) r.

Definition add_one_req r (align : option Z) a : res (AddReqResult * SReq * PrefillAdder P) :=
  if dsa_prefill_cp_in_seq_split (cfg a) && (1 <=? zlen (can_run_list a)) then Ok (OTHER, r, a)
  else if (match prefill_max_requests (cfg a) with
           | Some x => x <=? zlen (can_run_list a)
           | None => false
           end) then Ok (OTHER, r, a)
  else if ignore_eos r && cache_disable then add_one_req_ignore_eos r a
  else
    let total_tokens := total_tokens_of r a in
    let real_input_tokens :=
      ceil_paged_tokens (cfg a) (fill_len r - prefix_len r - host_hit_length r) in
    if Qle_bool (rem_total_tokens a) (inject_Z total_tokens) then Ok (NO_TOKEN, r, a)
    else match swa_gate r real_input_tokens (rem_chunk_tokens (budget a)) a with
         | None => Ok (NO_TOKEN, r, a)
         | Some limit =>
             if over_input_budget real_input_tokens a then Ok (OTHER, r, a)
             else
               '(stop, r, a) ←
                 with_lock_node (last_node (base r))
                   (add_one_req_locked r total_tokens real_input_tokens limit align) a;
               Ok (default (budget_state a) stop, r, a)
         end.

(** ** Preemption *)

Definition priority_sign : Z := if low_priority_values_first then 1 else -1.

(** [key=lambda x: (x.priority * (-priority_sign), -x.time_stats.wait_queue_entry_time)] *)
Definition preempt_le : SReq → SReq → bool :=
  le_then (λ x, priority x * - priority_sign) (le_by (λ x, - wait_queue_entry_time x)).

Definition same_obj (x : SReq) (l : list SReq) : bool := existsb (λ y, (obj y =? obj x)%nat) l.

(** The scan of the sorted running requests: the victims so far and the tokens
    still to find. *)
Fixpoint pick_victims (c : AdderConfig) (prio : Z) (l : list SReq) (victims : list SReq) (need : Q)
    : list SReq * Q :=
  match l with
  | [] => (victims, need)
  | x :: l =>
      let priority_diff := (prio - priority x) * - priority_sign in
      if priority_diff >? priority_scheduling_preemption_threshold c then
        let victims := victims ++ [x] in
        let need := (need - get_running_request_total_token_offset c x)%Q in
        if Qle_bool need 0 then (victims, need) else pick_victims c prio l victims need
      else (victims, need)
  end.

(** The release of the victims, in the order of the running batch; [n] is the
    length of the batch and [k] the number of victims released so far. *)
Fixpoint release_victims (c : AdderConfig) (victims l : list SReq) (n k : Z) (off : Q) (p : P)
    : res (list SReq * list SReq * Q * P) :=
  match l with
  | [] => Ok ([], [], off, p)
  | x :: l =>
      if same_obj x victims then
        let off := (off - get_running_request_total_token_offset c x)%Q in
        '(x, p) ← p_release_req x (n - (k + 1)) p;
        '(keep, gone, off, p) ← release_victims c victims l n (k + 1) off p;
        Ok (keep, x :: gone, off, p)
      else
        '(keep, gone, off, p) ← release_victims c victims l n k off p;
        Ok (x :: keep, gone, off, p)
  end.

Definition with_preempted a (keep gone : list SReq) (off : Q) (p : P) : PrefillAdder P :=
  let b := budget a in
  mkAdder (cfg a)
    (mkBudget (rem_input_tokens b) (rem_chunk_tokens b) off (cur_rem_token_offset b)
       (rem_swa_token_offset b) (rem_mamba_slots b) (rem_dllm_tokens b))
    (logs a) (Some keep) (req_states a) (can_run_list a) (preempt_list a ++ gone)
    (new_chunked_req a) (delayer a) (delayer_env a) p.

Definition preempt_to_schedule r a : res (bool * PrefillAdder P) :=
  match running_reqs a with
  | None => Err AttributeError
  | Some running =>
      let valid := List.filter (λ x, negb (same_obj x (preempt_list a)) && negb (is_finished x)) running in
      let need := (inject_Z (fill_len r - prefix_len r + Z.min (max_new_tokens r) CLIP_MAX_NEW_TOKENS)
                   - rem_total_tokens a)%Q in
      let '(victims, need) := pick_victims (cfg a) (priority r) (py_sorted preempt_le valid) [] need in
      if (zlen victims =? 0) || negb (Qle_bool need 0) then Ok (false, a)
      else
        '(keep, gone, off, p) ← release_victims (cfg a) victims running (zlen running) 0
                                  (rem_total_token_offset (budget a)) (pools a);
        Ok (true, with_preempted a keep gone off p)
  end.
End adder.
