(* ===== verification/TileBudget.v ===== *)
(** * The tile budget of a prefill batch

    What [_check_prefill_tile_budget] really bounds. *)

From S2P Require Import Prelude PyFloat PySort PrefillDelayer RadixKey ReqPool PrefillAdder.

Section tiles.
Context {P : Type} `{Settings} `{Pools P}.
Implicit Types (a : PrefillAdder P) (r : SReq).

(** The query tiles of one extend length. *)
Definition tiles (block_m n : Z) : Z := if n >? 0 then ceil_div n block_m else 0.

Lemma zsum_zeros {A} (l : list A) : zsum ((λ _, 0) <$> l) = 0.
Proof. induction l as [|x l IH]; cbn; [done|]. exact IH. Qed.

Lemma compact_metric a n m :
  compact_q_tiles_per_head (estimate_prefill_extend_tile_metrics (admitted_extend_lens a ++ [n]) m) =
  tiles m (Z.max 0 n).
Proof.
  cbn [estimate_prefill_extend_tile_metrics compact_q_tiles_per_head].
  unfold admitted_extend_lens. rewrite !fmap_app, zsum_app, <- !list_fmap_compose.
  rewrite (list_fmap_ext _ (λ _, 0)) by done. rewrite zsum_zeros. cbn. unfold tiles. lia.
Qed.
End tiles.

(** The compact tile budget forgets the batch.  On HIP with a positive budget, in
    compact mode and with a non-empty batch, the check passes exactly when the tiles
    of the candidate alone are within the budget, whatever was admitted before: the
    lengths of the admitted requests are read from an attribute that requests do not
    have, so they count as zero and the budget bounds no batch. *)
Theorem tile_budget_forgets_batch {P : Type} `{Settings} `{Pools P} (a : PrefillAdder P) (n : Z) :
  IS_HIP = true → 0 < PREFILL_TILE_BUDGET → tile_mode_compact = true → can_run_list a ≠ [] →
  check_prefill_tile_budget a n =
  if tiles (prefill_tile_block_m (cfg a)) (Z.max 0 n) <=? PREFILL_TILE_BUDGET then None else Some OTHER.
Proof.
  intros Hh Hb Hc Hne. unfold check_prefill_tile_budget. rewrite Hh, Hc, compact_metric. cbn [negb orb].
  replace (PREFILL_TILE_BUDGET <=? 0) with false by (symmetry; apply Z.leb_gt; lia).
  by destruct (can_run_list a).
Qed.

Module TileDemo.
#[export] Instance settings0 : Settings := {|
  CLIP_MAX_NEW_TOKENS := 4096; IS_HIP := true; PREFILL_TILE_BUDGET := 6;
  tile_mode_compact := true; low_priority_values_first := false;
|}.
#[export] Instance pools0 : Pools unit := {|
  is_hybrid_swa := false; is_all_swa := false; is_unified_mamba := false; supports_mamba := false;
  is_tree_cache := true; cache_disable := false; sliding_window_size := 0; size_swa := 0;
  mamba_slot_full_token_cost := 0;
  p_available_size _ := 0; p_full_available_size _ := 0; p_swa_available_size _ := 0;
  p_evictable_size _ := 0; p_full_evictable_size _ := 0; p_swa_evictable_size _ := 0;
  p_mamba_evictable_size _ := 0; p_mamba_schedulable_size _ := 0;
  p_inc_lock_ref _ p := Ok (None, p); p_dec_lock_ref _ _ p := Ok p;
  p_init_load_back _ p := Ok ([], None, p); p_release_req r _ p := Ok (r, p);
|}.
(** A request of 512 tokens, eight tiles of 64: the batch is over the budget. *)
Definition big : SReq :=
  with_range 0 512
    (mkSReq 1 (mkReq [] [] [] false None None None None 0 [] None false kv_empty)
       16 false 0 0 None 0 0 0 0 false false false false None).
Definition adder : PrefillAdder unit :=
  can_run big (PrefillAdder_init 1 tt None 1%Q 8192 None 0 0 0 None None None
                 (mkEnv (λ i, [i]) 0%Q 0%Q 0%Q) None 0 64 false).
End TileDemo.
Import (hints) TileDemo.

(** 512 admitted tokens and a candidate of 129 make eleven tiles, over the budget of
    six; the check lets the candidate in. *)
Lemma tile_budget_forgets_batch_witness :
  tiles 64 (extend_len TileDemo.big) + tiles 64 129 = 11 ∧
  check_prefill_tile_budget TileDemo.adder 129 = None.
Proof.
  split; [reflexivity|].
  rewrite (tile_budget_forgets_batch TileDemo.adder 129); [reflexivity|reflexivity|reflexivity|reflexivity|].
  intros Hn. discriminate Hn.
Defined.
