(* ===== verification/PrefillAdmit.v ===== *)
(** * What admission guarantees

    Properties of [PrefillAdder.add_one_req]: what each outcome does to the
    budgets, the chunks it cuts, and that the requests of a pass never book more
    memory than the pools can give. *)

From S2P Require Import Prelude PyFloat ReqPool PrefillDelayer PrefillAdder.

(** ** Rounding *)

Lemma ceil_paged_spec c n :
  0 < page_size c →
  n ≤ ceil_paged_tokens c n < n + page_size c ∧ (page_size c | ceil_paged_tokens c n).
Proof.
  intros Hp. unfold ceil_paged_tokens. split; [|apply Z.divide_factor_r].
  pose proof (Z.div_mod (- n) (page_size c)). pose proof (Z.mod_pos_bound (- n) (page_size c)). nia.
Qed.

Lemma ceil_paged_id c n : 0 < page_size c → (page_size c | n) → ceil_paged_tokens c n = n.
Proof.
  intros Hp [k ->]. unfold ceil_paged_tokens. rewrite <- Z.mul_opp_l, Z.div_mul by lia. lia.
Qed.

Lemma ceil_paged_idem c n :
  0 < page_size c → ceil_paged_tokens c (ceil_paged_tokens c n) = ceil_paged_tokens c n.
Proof. intros Hp. apply ceil_paged_id; [done|]. by apply ceil_paged_spec. Qed.

Lemma div_mul_floor n p : n / p * p = floor_align n p.
Proof. done. Qed.

(** ** The first chunk *)

Lemma chunk_len_spec c limit prefix align t :
  0 < page_size c → from_option (Z.lt 0) True align →
  chunk_len c limit prefix align = Some t →
  0 < t ≤ floor_align limit (page_size c) ∧ (page_size c | prefix + t).
Proof.
  intros Hp Hal. unfold chunk_len. rewrite !div_mul_floor.
  destruct (Z.leb_spec (floor_align limit (page_size c)) 0) as [|Ht0]; [done|].
  set (t0 := floor_align limit (page_size c)) in *. clearbody t0.
  assert (∀ t1, t1 ≤ t0 →
    (let trunc := (t1 + prefix) / page_size c * page_size c - prefix in
     if trunc <=? 0 then None else Some trunc) = Some t →
    0 < t ≤ t0 ∧ (page_size c | prefix + t)) as Hcut.
  { intros t1 H1. cbv zeta. rewrite div_mul_floor.
    pose proof (floor_align_le (t1 + prefix) (page_size c) Hp).
    destruct (Z.leb_spec (floor_align (t1 + prefix) (page_size c) - prefix) 0); [done|].
    intros [= <-]. split; [lia|].
    replace (prefix + _) with (floor_align (t1 + prefix) (page_size c)) by lia.
    apply floor_align_divide. }
  destruct align as [al|]; [|by apply Hcut]. cbn in Hal.
  destruct (t0 <? al); [done|]. apply Hcut. rewrite Z.mul_comm. fold (floor_align t0 al).
  by apply floor_align_le.
Qed.

(** A chunk is cut only when the whole request does not fit, so it is shorter. *)
Lemma chunk_shorter c limit prefix align n t :
  0 < page_size c → from_option (Z.lt 0) True align →
  limit < ceil_paged_tokens c n → chunk_len c limit prefix align = Some t → t < n.
Proof.
  intros Hp Hal Hlim Ht. destruct (chunk_len_spec _ _ _ _ _ Hp Hal Ht) as [[_ Hle] _].
  pose proof (ceil_paged_spec c n Hp) as [[Hn1 Hn2] Hd].
  pose proof (floor_align_le limit (page_size c) Hp).
  enough (floor_align limit (page_size c) + page_size c ≤ ceil_paged_tokens c n) by lia.
  apply (divide_lt_le (page_size c)); [done| |done|lia].
  apply Z.divide_add_r; [apply floor_align_divide|done].
Qed.

(** ** Outcomes *)

Local Ltac returns := intros [= <- <- <-]; left; by split_and!.

Section outcomes.
Context {P : Type} `{Settings} `{Pools P}.
Implicit Types (a : PrefillAdder P) (r : SReq).

(** Nothing was admitted: the budgets, the list of admitted requests and the
    chunked request are as before. *)
Record rejected a a' : Prop := {
  rej_cfg : cfg a' = cfg a;
  rej_list : can_run_list a' = can_run_list a;
  rej_budget : budget a' = budget a;
  rej_chunked : new_chunked_req a' = new_chunked_req a;
}.

(** What admission does not change of a request. *)
Definition kept_of r : nat * Z * bool := (obj r, max_new_tokens r, is_finished r).

(** The request was admitted for its next [ext] tokens and charged for them and
    for [max_new] output tokens. *)
Record admitted a r r' a' (ext max_new : Z) : Prop := {
  adm_cfg : cfg a' = cfg a;
  adm_kept : kept_of r' = kept_of r;
  adm_list : can_run_list a' = can_run_list a ++ [r'];
  adm_base : base r' = set_extend_range (prefix_len r) (prefix_len r + ext) (base r);
  adm_budget : budget a' =
    charge (cfg a) (budget a) (ceil_paged_tokens (cfg a) ext) max_new
      (mamba_gap_budget_for_req (cfg a) r);
  adm_chunk : ∀ n, rem_chunk_tokens (budget a) = Some n → ext ≤ n;
  adm_kind :
    (ext = fill_len r - prefix_len r ∧ max_new = Z.min (max_new_tokens r) CLIP_MAX_NEW_TOKENS ∧
     new_chunked_req a' = new_chunked_req a) ∨
    (0 < ext < fill_len r - prefix_len r ∧ (page_size (cfg a) | prefix_len r + ext) ∧ max_new = 0 ∧
     new_chunked_req a' = Some (obj r) ∧ is_Some (rem_chunk_tokens (budget a)));
}.

Lemma adm_range a r r' a' ext mn :
  admitted a r r' a' ext mn → extend_range (base r') = Some (prefix_len r, prefix_len r + ext).
Proof. intros Ha. by rewrite (adm_base _ _ _ _ _ _ Ha). Qed.

Lemma admitted_extend_len a r r' a' ext mn : admitted a r r' a' ext mn → extend_len r' = ext.
Proof. intros Ha. unfold extend_len. rewrite (adm_range _ _ _ _ _ _ Ha). lia. Qed.

Definition below_chunk (limit : option Z) a : Prop :=
  match limit with
  | Some l => ∃ n, rem_chunk_tokens (budget a) = Some n ∧ l ≤ n
  | None => rem_chunk_tokens (budget a) = None
  end.

Lemma below_chunk_refl a : below_chunk (rem_chunk_tokens (budget a)) a.
Proof. unfold below_chunk. case_match eqn:Hc; [|done]. by eexists. Qed.

Lemma swa_gate_below r n limit limit' a :
  below_chunk limit a → swa_gate r n limit a = Some limit' → below_chunk limit' a.
Proof.
  intros Hl. unfold swa_gate. destruct (negb is_hybrid_swa); [by intros [= <-]|].
  destruct (_ <? _); [by intros [= <-]|]. destruct (negb _); [done|].
  destruct (rem_chunk_tokens (budget a)) as [m|] eqn:Hm; [|done].
  destruct (_ <=? 0); [done|]. intros [= <-]. exists m. split; [done|lia].
Qed.

Lemma admit_locked_Ok prefix ext mn r a r' a' :
  admit_locked prefix ext mn r a = Ok (r', a') →
  ∃ uuid p, p_inc_lock_ref (last_node (base r)) (pools a) = Ok (uuid, p) ∧ pools a' = p ∧
    cfg a' = cfg a ∧ kept_of r' = kept_of r ∧ can_run_list a' = can_run_list a ++ [r'] ∧
    base r' = base r ∧ new_chunked_req a' = new_chunked_req a ∧
    budget a' = charge (cfg a) (budget a) (ceil_paged_tokens (cfg a) ext) mn
                  (mamba_gap_budget_for_req (cfg a) r).
Proof.
  unfold admit_locked, req_inc_lock_ref.
  intros ([r1 a1] & ([uuid p] & Hinc & [= <- <-])%bind_Ok & [= <- <-])%bind_Ok.
  exists uuid, p. by destruct is_hybrid_swa.
Qed.

Definition locks r a a' : Prop :=
  ∃ uuid, p_inc_lock_ref (last_node (base r)) (pools a) = Ok (uuid, pools a').

(** [admit_one] either returns early, or locks the prefix and admits. *)
Lemma admit_one_outcome r limit align a stop r' a' :
  0 < page_size (cfg a) → dllm_config (cfg a) = None → from_option (Z.lt 0) True align →
  below_chunk limit a →
  admit_one r (prefix_len r) (ceil_paged_tokens (cfg a) (fill_len r - prefix_len r)) limit align a
    = Ok (stop, r', a') →
  (is_Some stop ∧ stop ≠ Some CONTINUE ∧ a' = a ∧ r' = r) ∨
  (stop = None ∧ locks r a a' ∧ ∃ ext mn, admitted a r r' a' ext mn).
Proof.
  intros Hp Hd Hal Hlim. unfold admit_one. rewrite Hd.
  set (input := ceil_paged_tokens _ _).
  assert (∀ n, check_prefill_tile_budget a n = None ∨ check_prefill_tile_budget a n = Some OTHER) as Htile.
  { intros n. unfold check_prefill_tile_budget. repeat case_match; auto. }
  assert ((∀ n, rem_chunk_tokens (budget a) = Some n → input ≤ n) →
    (match check_prefill_tile_budget a input with
     | Some stop => Ok (Some stop, r, a)
     | None =>
         '(r0, a0) ← admit_locked (prefix_len r) input
            (Z.min (max_new_tokens (with_range (prefix_len r) (fill_len r) r)) CLIP_MAX_NEW_TOKENS)
            (with_range (prefix_len r) (fill_len r) r) a;
         Ok (None, r0, a0)
     end = Ok (stop, r', a')) →
    (is_Some stop ∧ stop ≠ Some CONTINUE ∧ a' = a ∧ r' = r) ∨
    (stop = None ∧ locks r a a' ∧ ∃ ext mn, admitted a r r' a' ext mn)) as Hwhole.
  { intros Hfit. destruct (Htile input) as [-> | ->]; [|returns].
    intros ([r1 a1] & Had & [= <- <- <-])%bind_Ok. right.
    apply admit_locked_Ok in Had as (uuid & p & Hinc & Hpo & Hc & Ho & Hl & Hr & Hn & Hb).
    split_and!; [done|exists uuid; by rewrite Hpo|].
    exists (fill_len r - prefix_len r), (Z.min (max_new_tokens r) CLIP_MAX_NEW_TOKENS).
    constructor; try done.
    - rewrite Hr. cbn [with_range with_base base]. f_equal. lia.
    - rewrite Hb. unfold input. by rewrite ceil_paged_idem.
    - intros n Hn'. pose proof (Hfit n Hn'). pose proof (ceil_paged_spec (cfg a) (fill_len r - prefix_len r) Hp). lia.
    - left. by rewrite Hn. }
  destruct limit as [l|].
  - destruct Hlim as (n & Hn & Hln). destruct (Z.leb_spec input l) as [Hle|Hgt].
    { apply Hwhole. intros m. rewrite Hn. intros [= <-]. lia. }
    destruct (chunk_len _ _ _ _) as [t|] eqn:Ht; [|returns].
    destruct (Htile t) as [-> | ->]; [|returns].
    intros ([r1 a1] & Had & [= <- <- <-])%bind_Ok. right.
    apply admit_locked_Ok in Had as (uuid & p & Hinc & Hpo & Hc & Ho & Hl & Hr & Hnc & Hb).
    destruct (chunk_len_spec _ _ _ _ _ Hp Hal Ht) as [Hlt Hdv].
    pose proof (chunk_shorter _ _ _ _ _ _ Hp Hal Hgt Ht).
    pose proof (floor_align_le l (page_size (cfg a)) Hp).
    split_and!; [done|exists uuid; cbn; by rewrite Hpo|].
    exists t, 0. constructor; try done.
    + intros m. rewrite Hn. intros [= <-]. lia.
    + right. split_and!; [lia|lia|done|done| |by eexists]. injection Ho as Ho _. cbn. by rewrite Ho.
  - cbn in Hlim. apply Hwhole. intros n. by rewrite Hlim.
Qed.

Lemma rejected_refl a : rejected a a.
Proof. done. Qed.

Lemma consult_Ok a v a' : consult a = Ok (v, a') → rejected a a' ∧ pools a' = pools a.
Proof.
  unfold consult. destruct (delayer a) as [sp|]; [|by intros [= <- <-]].
  destruct (running_reqs a), (max_running_requests (cfg a)); try done.
  intros ([v' sp'] & _ & [= <- <-])%bind_Ok. done.
Qed.

Lemma admitted_after a a1 r r' a' ext mn :
  rejected a a1 → admitted a1 r r' a' ext mn → admitted a r r' a' ext mn.
Proof.
  intros [H1 H2 H3 H4] [A1 A2 A3 A4 A5 A6 A7].
  constructor; rewrite <- ?H1, <- ?H2, <- ?H3, <- ?H4; done.
Qed.

(** What the lock leaves to the request: more than it asks for. *)
Definition room (total : Z) a : Prop := (inject_Z total < rem_total_tokens a)%Q.

Lemma room_spec total a : Qle_bool (rem_total_tokens a) (inject_Z total) = false ↔ room total a.
Proof. unfold room. rewrite <- Qltb_spec. unfold Qltb. by destruct (Qle_bool _ _). Qed.

Lemma add_one_req_locked_outcome r total real limit align a stop r' a' :
  0 < page_size (cfg a) → dllm_config (cfg a) = None → from_option (Z.lt 0) True align →
  needs_host_load_back r = false → below_chunk limit a →
  add_one_req_locked r total real limit align a = Ok (stop, r', a') →
  (is_Some stop ∧ stop ≠ Some CONTINUE ∧ rejected a a' ∧ pools a' = pools a ∧ r' = r) ∨
  (stop = None ∧ room total a ∧ locks r a a' ∧ ∃ ext mn, admitted a r r' a' ext mn).
Proof.
  intros Hp Hd Hal Hh Hlim. unfold add_one_req_locked.
  destruct (Qle_bool _ _) eqn:Hroom; [returns|].
  apply room_spec in Hroom.
  destruct (swa_gate _ _ _ _) as [limit'|] eqn:Hg; [|returns].
  apply swa_gate_below in Hg; [|done].
  intros ([v a1] & [Hrej Hpo]%consult_Ok & Hrun)%bind_Ok.
  destruct v; cbn [negb] in Hrun; [|injection Hrun as <- <- <-; left; by split_and!].
  unfold load_back in Hrun. rewrite Hh in Hrun. cbn [mbind res_bind] in Hrun.
  destruct (over_input_budget _ _); [injection Hrun as <- <- <-; left; by split_and!|].
  pose proof Hrej as [Hc Hl Hb Hn].
  apply admit_one_outcome in Hrun as [(Hs & Hs' & -> & ->)|(-> & (uuid & Hlk) & ext & mn & Had)].
  - left. by split_and!.
  - right. split_and!; [done|done|exists uuid; by rewrite <- Hpo|].
    exists ext, mn. by apply (admitted_after a a1).
  - by rewrite Hc.
  - by rewrite Hc.
  - done.
  - unfold below_chunk in *. by rewrite Hb.
Qed.

Definition dec_arg (tok : option Z) : option (option Z) := if is_tree_cache then Some tok else None.

(** A lock taken and given back. *)
Definition bracket (node : option nat) (p p' : P) : Prop :=
  ∃ tok p1, p_inc_lock_ref node p = Ok (tok, p1) ∧ p_dec_lock_ref node (dec_arg tok) p1 = Ok p'.

(** A second lock taken under a first, and the first given back: [p1] is the pool
    under the first lock. *)
Definition relock (node : option nat) (p p1 p' : P) : Prop :=
  ∃ tok tok2 p2, p_inc_lock_ref node p = Ok (tok, p1) ∧ p_inc_lock_ref node p1 = Ok (tok2, p2) ∧
    p_dec_lock_ref node (dec_arg tok) p2 = Ok p'.

Lemma with_pools_rejected a p : rejected a (with_pools a p).
Proof. done. Qed.

Lemma admitted_with_pools a r r' a' ext mn p :
  admitted a r r' a' ext mn → admitted a r r' (with_pools a' p) ext mn.
Proof. intros [A1 A2 A3 A4 A5 A6 A7]. by constructor. Qed.

Local Ltac stays := intros [= <- <- <-]; left; split_and!; [done|done|done|by left].

(** The two outcomes of [add_one_req] away from the end-of-sequence path. *)
Lemma add_one_req_outcome r align a x r' a' :
  0 < page_size (cfg a) → dllm_config (cfg a) = None → from_option (Z.lt 0) True align →
  needs_host_load_back r = false → ignore_eos r && cache_disable = false →
  add_one_req r align a = Ok (x, r', a') →
  (x ≠ CONTINUE ∧ rejected a a' ∧ r' = r ∧
   (pools a' = pools a ∨ bracket (last_node (base r)) (pools a) (pools a'))) ∨
  (x = budget_state a' ∧ ∃ p1 ext mn,
     relock (last_node (base r)) (pools a) p1 (pools a') ∧
     room (total_tokens_of r a) (with_pools a p1) ∧ admitted a r r' a' ext mn).
Proof.
  intros Hp Hd Hal Hh Heos. unfold add_one_req.
  destruct (dsa_prefill_cp_in_seq_split _ && _); [stays|].
  destruct (match prefill_max_requests (cfg a) with Some _ => _ | None => _ end);
    [stays|].
  rewrite Heos. destruct (Qle_bool _ _); [stays|].
  destruct (swa_gate _ _ _ _) as [limit|] eqn:Hg; [|stays].
  apply swa_gate_below in Hg; [|apply below_chunk_refl].
  destruct (over_input_budget _ _); [stays|].
  intros ([[stop r1] a1] & Hw & [= <- <- <-])%bind_Ok. unfold with_lock_node in Hw.
  apply bind_Ok in Hw as ([tok p1] & Hinc & ([[stop' r2] a2] & Hbody & (p & Hdec & [= <- <- <-])%bind_Ok)%bind_Ok).
  apply add_one_req_locked_outcome in Hbody; [|done..].
  destruct Hbody as [([y ->] & Hne & Hrej & Hpo & ->)|(-> & Hroom & (uuid & Hlk) & ext & mn & Had)].
  - left. split_and!; [by intros Hy; apply Hne; f_equal| |done|].
    + destruct Hrej as [? ? ? ?]. by constructor.
    + right. exists tok, p1. split; [done|]. cbn in Hpo. rewrite <- Hpo. exact Hdec.
  - right. split; [done|]. exists p1, ext, mn. split_and!; [|done|].
    + exists tok, uuid, (pools a2). done.
    + apply admitted_with_pools. by apply (admitted_after a (with_pools a p1)).
Qed.
End outcomes.

(** ** The contract of the pools *)

(** What the adder relies on: on a well-formed pool the prefix of a request can be
    locked; giving the lock back leaves at least the memory there was before; and a
    second lock under the first costs no further memory, so that giving back the
    first one leaves at least the memory there was under it. *)
Class PoolLaws (P : Type) `{Pools P} := {
  pool_wf : P → Prop;
  node_wf : option nat → P → Prop;
  law_lock n p : pool_wf p → node_wf n p →
    ∃ tok p1, p_inc_lock_ref n p = Ok (tok, p1) ∧
      (∃ p', p_dec_lock_ref n (dec_arg tok) p1 = Ok p' ∧ pool_wf p' ∧
         (∀ m, node_wf m p → node_wf m p') ∧
         available_and_evictable p ≤ available_and_evictable p') ∧
      (∃ tok2 p2 p', p_inc_lock_ref n p1 = Ok (tok2, p2) ∧
         p_dec_lock_ref n (dec_arg tok) p2 = Ok p' ∧ pool_wf p' ∧
         (∀ m, node_wf m p → node_wf m p') ∧
         available_and_evictable p1 ≤ available_and_evictable p');
}.

(** The loop over the waiting queue: a request that is not followed by [CONTINUE]
    ends it. *)
Fixpoint add_all `{Settings} `{Pools P} (align : option Z) (rs : list SReq) (a : PrefillAdder P)
    : res (list AddReqResult * PrefillAdder P) :=
  match rs with
  | [] => Ok ([], a)
  | r :: rs =>
      '(x, _, a) ← add_one_req r align a;
      if decide (x = CONTINUE) then
        '(xs, a) ← add_all align rs a; Ok (x :: xs, a)
      else Ok ([x], a)
  end.

Section safety.
Context {P : Type} `{Settings} `{PoolLaws P}.
Implicit Types (a : PrefillAdder P) (r : SReq).

(** The memory the admitted requests of the pass need: their tokens, and one page
    each for the rounding of the paged allocator. *)
Definition booked a : Z := zsum ((λ r, extend_len r + page_size (cfg a)) <$> can_run_list a).

(** A request the theorem is about: no host hit to load back, not on the
    end-of-sequence path, and its cached prefix is a node of the cache. *)
Record req_fine (p : P) r : Prop := {
  rf_host : needs_host_load_back r = false;
  rf_eos : ignore_eos r && cache_disable = false;
  rf_new : 0 ≤ max_new_tokens r;
  rf_node : node_wf (last_node (base r)) p;
}.

Record covered (mixed : Z) a : Prop := {
  cov_wf : pool_wf (pools a);
  cov_page : 0 < page_size (cfg a);
  cov_dllm : dllm_config (cfg a) = None;
  cov_mamba : 0 ≤ mamba_slot_cost (cfg a);
  cov_off : (inject_Z (mixed + booked a) <= rem_total_token_offset (budget a))%Q;
  cov_mem : can_run_list a = [] ∨ mixed + booked a ≤ available_and_evictable (pools a);
}.

Lemma bracket_law n p p' :
  pool_wf p → node_wf n p → bracket n p p' →
  pool_wf p' ∧ (∀ m, node_wf m p → node_wf m p') ∧
  available_and_evictable p ≤ available_and_evictable p'.
Proof.
  intros Hw Hn (tok & p1 & Hi & Hd). destruct (law_lock n p Hw Hn) as (t & q & Hi' & (q' & Hd' & Hr) & _).
  rewrite Hi in Hi'. injection Hi' as <- <-. rewrite Hd in Hd'. by injection Hd' as <-.
Qed.

Lemma relock_law n p p1 p' :
  pool_wf p → node_wf n p → relock n p p1 p' →
  pool_wf p' ∧ (∀ m, node_wf m p → node_wf m p') ∧
  available_and_evictable p1 ≤ available_and_evictable p'.
Proof.
  intros Hw Hn (tok & tok2 & p2 & Hi & Hi2 & Hd).
  destruct (law_lock n p Hw Hn) as (t & q & Hi' & _ & (t2 & q2 & q' & Hj & Hd' & Hr)).
  rewrite Hi in Hi'. injection Hi' as <- <-. rewrite Hi2 in Hj. injection Hj as <- <-.
  rewrite Hd in Hd'. by injection Hd' as <-.
Qed.

Lemma booked_rejected a a' : rejected a a' → booked a' = booked a.
Proof. intros [Hc Hl _ _]. unfold booked. by rewrite Hl, Hc. Qed.

Lemma booked_admitted a r r' a' ext mn :
  admitted a r r' a' ext mn → booked a' = booked a + (ext + page_size (cfg a)).
Proof.
  intros Ha. pose proof (admitted_extend_len _ _ _ _ _ _ Ha) as He.
  unfold booked. rewrite (adm_list _ _ _ _ _ _ Ha), (adm_cfg _ _ _ _ _ _ Ha), fmap_app, zsum_app.
  cbn [fmap list_fmap zsum foldr]. rewrite He. lia.
Qed.

Lemma admitted_bounds a r r' a' ext mn :
  0 ≤ CLIP_MAX_NEW_TOKENS → 0 ≤ max_new_tokens r → admitted a r r' a' ext mn →
  ext ≤ fill_len r - prefix_len r ∧ 0 ≤ mn.
Proof. intros Hc Hn Ha. destruct (adm_kind _ _ _ _ _ _ Ha) as [(-> & -> & _)|((? & ?) & _ & -> & _)]; lia. Qed.

Lemma mamba_gap_nonneg c r : 0 ≤ mamba_slot_cost c → 0 ≤ mamba_gap_budget_for_req c r.
Proof. unfold mamba_gap_budget_for_req. intros. by destruct (_ && _). Qed.

Lemma add_one_req_covered mixed r align a x r' a' :
  0 ≤ CLIP_MAX_NEW_TOKENS → from_option (Z.lt 0) True align →
  covered mixed a → req_fine (pools a) r → add_one_req r align a = Ok (x, r', a') →
  covered mixed a' ∧ cfg a' = cfg a ∧ (∀ m, node_wf m (pools a) → node_wf m (pools a')).
Proof.
  intros Hclip Hal [Cw Cp Cd Cm Co Ca] [Rh Re Rn Rw] Hrun.
  apply add_one_req_outcome in Hrun as [(_ & Hrej & _ & Hpo)|(_ & p1 & ext & mn & Hlk & Hroom & Had)]; [| |done..].
  - assert (pool_wf (pools a') ∧ (∀ m, node_wf m (pools a) → node_wf m (pools a')) ∧
      available_and_evictable (pools a) ≤ available_and_evictable (pools a')) as (Hw & Hn & Hle).
    { destruct Hpo as [-> |Hb]; [by split_and!|by apply (bracket_law (last_node (base r)))]. }
    pose proof (booked_rejected _ _ Hrej) as Hbk. destruct Hrej as [Hc Hl Hb _]. split; [|done].
    constructor; rewrite ?Hc, ?Hbk, ?Hb, ?Hl; try done. destruct Ca; [by left|right; lia].
  - destruct (relock_law _ _ _ _ Cw Rw Hlk) as (Hw & Hn & Hle).
    split; [|split; [apply (adm_cfg _ _ _ _ _ _ Had)|done]].
    pose proof (booked_admitted _ _ _ _ _ _ Had) as Hbk.
    pose proof (admitted_bounds _ _ _ _ _ _ Hclip Rn Had) as [He Hmn].
    pose proof (ceil_paged_spec (cfg a) ext Cp) as [[Hceil _] _].
    pose proof (mamba_gap_nonneg (cfg a) r Cm) as Hgap.
    constructor; rewrite ?(adm_cfg _ _ _ _ _ _ Had); try done.
    + rewrite (adm_budget _ _ _ _ _ _ Had), Hbk. cbn [charge rem_total_token_offset].
      replace (mixed + (booked a + (ext + page_size (cfg a)))) with (mixed + booked a + (ext + page_size (cfg a))) by lia.
      rewrite inject_Z_plus. apply Qplus_le_compat; [done|]. rewrite <- Zle_Qle. lia.
    + right. unfold room, rem_total_tokens in Hroom. cbn [with_pools pools budget] in Hroom.
      enough (mixed + booked a' < available_and_evictable p1) by lia.
      rewrite Zlt_Qlt, Hbk.
      assert (0 ≤ swa_new_tokens r) by (unfold swa_new_tokens; lia).
      assert (ext + page_size (cfg a) ≤ total_tokens_of r a) as Hle2 by (unfold total_tokens_of; lia).
      rewrite Zle_Qle in Hle2. rewrite Z.add_assoc, inject_Z_plus. lra.
Qed.

(** What an admitted request is of the queue's: the same with a range of its input
    to extend over, all of it or a proper chunk. *)
Definition granted r r' : Prop :=
  ∃ e, base r' = set_extend_range (prefix_len r) e (base r) ∧ (e = fill_len r ∨ prefix_len r < e < fill_len r).

Lemma add_one_req_grants r align a x r' a' :
  0 < page_size (cfg a) → dllm_config (cfg a) = None → from_option (Z.lt 0) True align →
  req_fine (pools a) r → add_one_req r align a = Ok (x, r', a') →
  (x ≠ CONTINUE ∧ can_run_list a' = can_run_list a) ∨ (can_run_list a' = can_run_list a ++ [r'] ∧ granted r r').
Proof.
  intros Hp Hd Hal [Rh Re _ _] Hrun.
  apply add_one_req_outcome in Hrun as [(? & [_ ? _ _] & _)|(_ & p1 & ext & mn & _ & _ & Had)]; [by left| |done..].
  right. split; [apply (adm_list _ _ _ _ _ _ Had)|]. exists (prefix_len r + ext).
  split; [apply (adm_base _ _ _ _ _ _ Had)|]. destruct (adm_kind _ _ _ _ _ _ Had) as [(-> & _)|(? & _)]; lia.
Qed.

(** Admission leaves the request its tokens and settings; without chunked prefill it
    takes the whole of it. *)
Lemma add_one_req_whole r align a x r' a' :
  0 < page_size (cfg a) → dllm_config (cfg a) = None → from_option (Z.lt 0) True align →
  req_fine (pools a) r → add_one_req r align a = Ok (x, r', a') →
  kept_of r' = kept_of r ∧ (r' = r ∨ ∃ e, base r' = set_extend_range (prefix_len r) e (base r)) ∧
  (rem_chunk_tokens (budget a) = None →
     rem_chunk_tokens (budget a') = None ∧ new_chunked_req a' = new_chunked_req a ∧
     (can_run_list a' = can_run_list a ∨
      can_run_list a' = can_run_list a ++ [r'] ∧ base r' = set_extend_range (prefix_len r) (fill_len r) (base r))) ∧
  (rem_chunk_tokens (budget a) = None ↔ rem_chunk_tokens (budget a') = None).
Proof.
  intros Hp Hd Hal [Rh Re _ _] Hrun.
  apply add_one_req_outcome in Hrun as [(_ & [_ R1 R2 R3] & -> & _)|(_ & p1 & ext & mn & _ & _ & [_ A1 A2 A3 A4 _ A5])]; [| |done..].
  - split_and!; [done|by left| |by rewrite R2]. intros Hc. rewrite R2. by auto.
  - split; [done|]. split; [right; by eexists|]. split; [|rewrite A4; cbn; rewrite Hd; by destruct (rem_chunk_tokens (budget a))].
    intros Hc. rewrite A4. cbn. rewrite Hd, Hc. destruct A5 as [(-> & _ & A5)|(_ & _ & _ & _ & [n Hn])]; [|congruence]. split_and!; [done|done|].
    right. split; [done|]. rewrite A3. f_equal. lia.
Qed.

(** The admission itself fails only where the lock does. *)
Lemma admit_one_total r prefix input limit align a uuid p2 :
  dllm_config (cfg a) = None → p_inc_lock_ref (last_node (base r)) (pools a) = Ok (uuid, p2) →
  ∃ stop r' a', admit_one r prefix input limit align a = Ok (stop, r', a') ∧
    delayer a' = delayer a ∧ (pools a' = pools a ∨ pools a' = p2).
Proof.
  intros Hd Hi. unfold admit_one, admit_locked, req_inc_lock_ref. rewrite Hd.
  cbn [with_range with_base base set_extend_range set_range last_node]. rewrite !Hi. cbn [mbind res_bind].
  destruct limit as [l|]; [destruct (_ <=? l); [|destruct (chunk_len _ _ _ _)]|].
  all: try destruct (check_prefill_tile_budget _ _); eauto 8.
Qed.

Lemma add_one_req_total r align a :
  pool_wf (pools a) → dllm_config (cfg a) = None → delayer a = None → req_fine (pools a) r →
  ∃ x r' a', add_one_req r align a = Ok (x, r', a') ∧ delayer a' = None.
Proof.
  intros Hw Hd Hdl [Rh Re Rn Rw]. unfold add_one_req. rewrite Re.
  destruct (dsa_prefill_cp_in_seq_split _ && _); [by eauto|].
  destruct (match prefill_max_requests (cfg a) with Some _ => _ | None => _ end); [by eauto|].
  destruct (Qle_bool _ _); [by eauto|]. destruct (swa_gate _ _ _ _) as [limit|]; [|by eauto].
  destruct (over_input_budget _ _); [by eauto|].
  destruct (law_lock _ _ Hw Rw) as (tok & p1 & Hi & (q & Hq & _) & (t2 & p2 & q2 & Hi2 & Hq2 & _)).
  unfold with_lock_node. rewrite Hi. cbn [mbind res_bind].
  assert (∃ stop r' a', add_one_req_locked r (total_tokens_of r a)
      (ceil_paged_tokens (cfg a) (fill_len r - prefix_len r - host_hit_length r)) limit align (with_pools a p1) = Ok (stop, r', a') ∧
      delayer a' = None ∧ (pools a' = p1 ∨ pools a' = p2)) as (stop & r' & a' & -> & Hdl' & Hp').
  { unfold add_one_req_locked. destruct (Qle_bool _ _); [by eauto 8|].
    destruct (swa_gate _ _ _ _) as [limit'|]; [|by eauto 8].
    unfold consult, load_back. cbn [with_pools delayer]. rewrite Hdl, Rh. cbn [mbind res_bind negb].
    destruct (over_input_budget _ _); [by eauto 8|].
    destruct (admit_one_total r (prefix_len r) (ceil_paged_tokens (cfg (with_pools a p1)) (fill_len r - prefix_len r))
      limit' align (with_pools a p1) t2 p2) as (st & r' & a' & -> & Hdd & Hp'); [done|done|].
    exists st, r', a'. split_and!; [done|by rewrite Hdd|done]. }
  cbn [mbind res_bind]. unfold dec_arg in *.
  destruct Hp' as [-> | ->]; rewrite ?Hq, ?Hq2; cbn [mbind res_bind]; by eauto.
Qed.

Lemma add_all_covered mixed align rs a :
  0 ≤ CLIP_MAX_NEW_TOKENS → from_option (Z.lt 0) True align →
  covered mixed a → delayer a = None → Forall (req_fine (pools a)) rs →
  ∃ xs a', add_all align rs a = Ok (xs, a') ∧ covered mixed a' ∧ cfg a' = cfg a ∧
    ∃ picked new, picked `prefix_of` rs ∧ can_run_list a' = can_run_list a ++ new ∧ Forall2 granted picked new.
Proof.
  intros Hclip Hal. revert a. induction rs as [|r rs IH]; intros a Hc Hd Hf.
  { eexists _, _. split_and!; [done..|]. exists [], []. by rewrite app_nil_r. }
  apply Forall_cons in Hf as [Hr Hf]. cbn [add_all].
  destruct (add_one_req_total r align a) as (x & r' & a' & Hrun & Hd'); [apply Hc|apply Hc|done..|].
  rewrite Hrun. cbn [mbind res_bind].
  destruct (add_one_req_covered _ _ _ _ _ _ _ Hclip Hal Hc Hr Hrun) as (Hc' & Hcfg & Hn).
  pose proof (add_one_req_grants r align a x r' a' (cov_page _ _ Hc) (cov_dllm _ _ Hc) Hal Hr Hrun) as Hg.
  destruct (decide (x = CONTINUE)) as [->|].
  - destruct Hg as [[? _]|[Hl Hg]]; [done|].
    destruct (IH a' Hc' Hd') as (xs & a2 & -> & Hc2 & Hcfg2 & picked & new & Hpre & Hl2 & HF).
    { eapply Forall_impl; [exact Hf|]. intros s [? ? ? ?]. constructor; eauto. }
    eexists _, _. split_and!; [done..|by rewrite Hcfg2|]. exists (r :: picked), (r' :: new).
    split_and!; [by apply prefix_cons| |by constructor]. by rewrite Hl2, Hl, <-app_assoc.
  - eexists _, _. split_and!; [done..|]. destruct Hg as [[_ Hl]|[Hl Hg]].
    + exists [], []. rewrite Hl, app_nil_r. split_and!; [apply prefix_nil|done|done].
    + exists [r], [r']. split_and!; [apply prefix_cons, prefix_nil|done|by constructor].
Qed.
End safety.
