(* ===== verification/RadixPools.v ===== *)
(** * The radix cache as the scheduler's pools

    The instance of [Pools] for [RadixCache] with a full-attention allocator and a
    [ReqToTokenPool], the release of a preempted request ([release_req] and
    [Req.reset_for_retract] of [managers/schedule_batch.py]), and the proof that
    the instance keeps the contract [PoolLaws] of admission. *)

From S2P Require Import Prelude PyFloat PrefillDelayer PrefillAdder PrefillAdmit.
From S2P Require Import RadixKey PrefixTree TreeNode Allocator ReqPool Events.
From S2P Require Import RadixCache RadixInv RadixLock ReqCache.

(** ** Releasing a preempted request *)

(** [Req.reset_for_retract], for a request without input embeddings. *)
Definition reset_for_retract (r : SReq) : res SReq :=
  if holds_kv (kv (base r)) then Err AssertionError
  else
    let k := kv (base r) in
    let b := set_prefix_indices (base r) [] in
    let b := set_last_node b None in
    let b := set_range b None in
    let b := set_kv b (mkKv (req_pool_idx k) 0 0 (kv_allocated_len k) (swa_evict_floor k)
                         (swa_evicted_seqlen k)) in
    Ok (mkSReq (obj r) b (max_new_tokens r) (ignore_eos r) (PrefillAdder.priority r) (wait_queue_entry_time r)
          (best_match_node r) (host_hit_length r) (swa_host_hit_length r) (mamba_host_hit_length r)
          (storage_hit_length r) true false (dllm_incomplete_ids r) (is_finished r) None).

(** Environment settings [release_req] reads. *)
Class RetractSettings := {
  spec_algo_none : bool;
  strip_thinking_cache : bool;
  RETRACT_DECODE_STEPS : Z;
}.

Section pools.
Context `{Clock} `{SetOrder} `{HashOps} `{KVAllocator} `{KVFree} `{RetractSettings}.

Definition release_req (r : SReq) (remaing_req_count : Z) (s : RadixCache * ReqToTokenPool)
    : res (SReq * (RadixCache * ReqToTokenPool)) :=
  let '(c, p) := s in
  '(b, p, c) ← release_kv_cache spec_algo_none strip_thinking_cache (base r) false p c;
  c ← evict_from_tree_cache (remaing_req_count * RETRACT_DECODE_STEPS) c;
  r ← reset_for_retract (with_base r b);
  Ok (r, (c, p)).

(** A missing node has no [lock_ref]. *)
Definition lock_node (node : option nat) (c : RadixCache) : res (Z * RadixCache) :=
  match node with Some i => inc_lock_ref i c | None => if disable c then Ok (0, c) else Err AttributeError end.
Definition unlock_node (node : option nat) (c : RadixCache) : res (Z * RadixCache) :=
  match node with Some i => dec_lock_ref i c | None => if disable c then Ok (0, c) else Err AttributeError end.

(** The sizes the base classes define for pools without a sliding window or a
    state are zero, and [init_load_back] is not implemented. *)
#[export] Instance radix_pools : Pools (RadixCache * ReqToTokenPool) := {|
  is_hybrid_swa := false;
  is_all_swa := false;
  is_unified_mamba := false;
  supports_mamba := false;
  is_tree_cache := true;
  cache_disable := false;
  sliding_window_size := 0;
  size_swa := 0;
  mamba_slot_full_token_cost := 0;
  p_available_size s := kv_available (kv_allocator s.1);
  p_full_available_size s := kv_available (kv_allocator s.1);
  p_swa_available_size _ := 0;
  p_evictable_size s := evictable_size s.1;
  p_full_evictable_size _ := 0;
  p_swa_evictable_size _ := 0;
  p_mamba_evictable_size _ := 0;
  p_mamba_schedulable_size _ := 0;
  p_inc_lock_ref n s := '(_, c) ← lock_node n s.1; Ok (None, (c, s.2));
  p_dec_lock_ref n _ s := '(_, c) ← unlock_node n s.1; Ok (c, s.2);
  p_init_load_back _ _ := Err NotImplementedError;
  p_release_req := release_req;
|}.

(** ** The contract *)

(** The live nodes are determined by the cache: they are the ones reached from the
    root through the children. *)
Lemma live_child c A B x y :
  Inv c A → Inv c B → child_of A x y → is_Some (B !! x) → is_Some (B !! y).
Proof.
  intros HA HB (b & Hy & Hp) [bx Hbx].
  assert (y ≠ root_node c) as Hyr.
  { intros ->. destruct (to_root _ _ _ _ (inv_tree c A HA)) as (a & Ha & [Hr _]). same_lookup. congruence. }
  destruct (to_node _ _ _ _ (inv_tree c A HA) y b Hy Hyr) as (p & pa & Hp' & Hpa & Hok).
  rewrite Hp in Hp'. injection Hp' as <-.
  destruct (inv_lookup c A x pa HA Hpa) as (n & Hn & Hrep).
  destruct (inv_lookup c B x bx HB Hbx) as (n' & Hn' & Hrep'). rewrite Hn in Hn'. injection Hn' as <-.
  pose proof (ok_child_key (cpage_size c) (is_eagle c) (root_node c) (inv_ps c A HA) x pa b Hok) as Hk.
  assert (dict_get (ns_val (a_ns b) (page_val (cpage_size c) (take (Z.to_nat (cpage_size c)) (a_units b))))
            (children n) = Some y) as Hg.
  { apply (rn_child _ _ _ _ _ Hrep). by exists b. }
  apply (rn_child _ _ _ _ _ Hrep') in Hg as (b' & Hb' & _). by eexists.
Qed.

Lemma live_agree c A B i : Inv c A → Inv c B → is_Some (A !! i) → is_Some (B !! i).
Proof.
  intros HA HB [a Hi].
  assert (is_Some (B !! root_node c)) as Hroot.
  { destruct (to_root _ _ _ _ (inv_tree c B HB)) as (b & Hb & _). by eexists. }
  pose proof (anc_root _ _ _ _ (inv_tree c A HA) i a Hi) as Hanc. clear a Hi.
  induction Hanc as [x|x y z Hxy _ IH]; [done|]. apply IH. by apply (live_child c A B x y).
Qed.

Definition live (n : option nat) (s : RadixCache * ReqToTokenPool) : Prop :=
  ∃ i A, n = Some i ∧ Inv s.1 A ∧ is_Some (A !! i).

(** Two caches whose trees have the same nodes have the same live nodes. *)
Lemma live_transport c c' p p' A A' :
  Inv c A → Inv c' A' → (∀ i, is_Some (A !! i) → is_Some (A' !! i)) →
  ∀ m, live m (c, p) → live m (c', p').
Proof.
  intros HA HA' Hdom m (i & B & -> & HB & Hi). exists i, A'. split_and!; [done|done|].
  apply Hdom. by apply (live_agree c B A).
Qed.

Lemma relocked_dom root A A' i e j : relocked root A A' i e → is_Some (A !! j) → is_Some (A' !! j).
Proof. intros [_ Hr] [a Hj]. destruct (Hr j a Hj) as (a' & Hj' & _). by eexists. Qed.

(** Taking a lock, and giving it back. *)
Lemma dec_after_inc c1 A A1 i a1 :
  Inv c1 A1 → disable c1 = false → A1 !! i = Some a1 → (i ≠ root_node c1 → 1 ≤ a_held a1) →
  relocked (root_node c1) A A1 i 1 →
  ∃ d c2, dec_lock_ref i c1 = Ok (d, c2) ∧ Inv c2 A ∧ config c2 = config c1.
Proof.
  intros Hinv Hd Hi Hh Hre.
  destruct (dec_lock_ref_spec c1 A1 i a1 Hinv Hi Hd Hh) as (d & c2 & A2 & Hrun & Hinv2 & Hcfg & _ & Hre2 & _).
  pose proof (relocked_inverse _ _ _ _ _ 1 Hre Hre2) as ->. by exists d, c2.
Qed.

Lemma inc_live c A i a :
  Inv c A → disable c = false → A !! i = Some a →
  ∃ d c1 A1 a1, inc_lock_ref i c = Ok (d, c1) ∧ Inv c1 A1 ∧ config c1 = config c ∧
    relocked (root_node c) A A1 i 1 ∧ A1 !! i = Some a1 ∧ (i ≠ root_node c → 1 ≤ a_held a1).
Proof.
  intros Hinv Hd Hi. destruct (inc_lock_ref_spec c A i a Hinv Hi Hd)
    as (d & c1 & A1 & Hrun & Hinv1 & Hcfg & _ & Hre & _).
  destruct (proj2 Hre i a Hi) as (a1 & Hi1 & _ & Hh & _).
  exists d, c1, A1, a1. split_and!; try done. intros Hr. rewrite decide_True in Hh by done.
  pose proof (proj1 (proj2 (inv_locks c A Hinv i a Hi))). lia.
Qed.

Lemma same_memory c c' p p' A :
  Inv c A → Inv c' A → kv_allocator c' = kv_allocator c →
  available_and_evictable (c, p) ≤ available_and_evictable (c', p').
Proof.
  intros HA HA' Ha. unfold available_and_evictable, evictable_size. cbn. unfold evictable_size.
  rewrite Ha, (inv_evictable c A HA), (inv_evictable c' A HA'). lia.
Qed.

(** The three ways the adder uses a lock: taken ([c1]), taken and given back
    ([c2]), and taken twice with one given back ([c4]). *)
Lemma radix_lock_run i c A a :
  Inv c A → disable c = false → A !! i = Some a →
  ∃ d1 c1 A1 d2 c2 d3 c3 d4 c4,
    inc_lock_ref i c = Ok (d1, c1) ∧ dec_lock_ref i c1 = Ok (d2, c2) ∧
    inc_lock_ref i c1 = Ok (d3, c3) ∧ dec_lock_ref i c3 = Ok (d4, c4) ∧
    relocked (root_node c) A A1 i 1 ∧ Inv c1 A1 ∧ Inv c2 A ∧ Inv c4 A1 ∧
    config c1 = config c ∧ config c2 = config c ∧ config c4 = config c.
Proof.
  intros Hinv Hd Hi.
  destruct (inc_live c A i a Hinv Hd Hi) as (d1 & c1 & A1 & a1 & Hrun1 & Hinv1 & Hcfg1 & Hre1 & Hi1 & Hh1).
  destruct (config_fields c c1 Hcfg1) as (Ed1 & _ & _ & Er1 & _ & _).
  assert (disable c1 = false) as Hd1 by congruence. rewrite <- Er1 in Hh1.
  destruct (dec_after_inc c1 A A1 i a1 Hinv1 Hd1 Hi1 Hh1) as (d2 & c2 & Hrun2 & Hinv2 & Hcfg2); [by rewrite Er1|].
  destruct (inc_live c1 A1 i a1 Hinv1 Hd1 Hi1) as (d3 & c3 & A3 & a3 & Hrun3 & Hinv3 & Hcfg3 & Hre3 & Hi3 & Hh3).
  destruct (config_fields c1 c3 Hcfg3) as (Ed3 & _ & _ & Er3 & _ & _).
  assert (disable c3 = false) as Hd3 by congruence. rewrite <- Er3 in Hre3, Hh3.
  destruct (dec_after_inc c3 A1 A3 i a3 Hinv3 Hd3 Hi3 Hh3 Hre3) as (d4 & c4 & Hrun4 & Hinv4 & Hcfg4).
  exists d1, c1, A1, d2, c2, d3, c3, d4, c4. split_and!; congruence || done.
Qed.

(** A property of the cache and its tree that locking does not touch. *)
Definition lock_stable (W : RadixCache → ReqToTokenPool → atree → Prop) : Prop :=
  ∀ c c' p A A', W c p A → config c' = config c →
    (A' = A ∨ ∃ i e, relocked (root_node c) A A' i e) → W c' p A'.

Definition usable_with (W : RadixCache → ReqToTokenPool → atree → Prop) (s : RadixCache * ReqToTokenPool) : Prop :=
  disable s.1 = false ∧ ∃ A, Inv s.1 A ∧ W s.1 s.2 A.

Lemma config_memory c c' p p' A :
  Inv c A → Inv c' A → config c' = config c → available_and_evictable (c, p) ≤ available_and_evictable (c', p').
Proof. intros. apply (same_memory c c' p p' A); try done. by apply (config_fields c c'). Qed.

Lemma radix_lock W (Hst : lock_stable W) n s :
  usable_with W s → live n s →
  ∃ tok s1, p_inc_lock_ref n s = Ok (tok, s1) ∧
    (∃ s', p_dec_lock_ref n (dec_arg tok) s1 = Ok s' ∧ usable_with W s' ∧
       (∀ m, live m s → live m s') ∧ available_and_evictable s ≤ available_and_evictable s') ∧
    (∃ tok2 s2 s', p_inc_lock_ref n s1 = Ok (tok2, s2) ∧
       p_dec_lock_ref n (dec_arg tok) s2 = Ok s' ∧ usable_with W s' ∧
       (∀ m, live m s → live m s') ∧ available_and_evictable s1 ≤ available_and_evictable s').
Proof.
  destruct s as [c p]. intros (Hd & A & Hinv & HW) (i & B & -> & HB & Hi). cbn [fst] in *.
  destruct (live_agree c B A i HB Hinv Hi) as [a Ha].
  destruct (radix_lock_run i c A a Hinv Hd Ha) as (d1 & c1 & A1 & d2 & c2 & d3 & c3 & d4 & c4 &
    Hrun1 & Hrun2 & Hrun3 & Hrun4 & Hre & Hinv1 & Hinv2 & Hinv4 & Hcfg1 & Hcfg2 & Hcfg4).
  destruct (config_fields c c2 Hcfg2) as (Ed2 & _). destruct (config_fields c c4 Hcfg4) as (Ed4 & _).
  exists None, (c1, p). cbn. rewrite Hrun1. split; [done|]. split.
  - exists (c2, p). cbn. rewrite Hrun2. split_and!; [done| | |by apply (config_memory c c2 p p A)].
    + split; [cbn; congruence|]. exists A. split; [done|]. apply (Hst c c2 p A A); auto.
    + by apply (live_transport c c2 p p A A).
  - exists None, (c3, p), (c4, p). cbn. rewrite Hrun3. cbn. rewrite Hrun4. split_and!; [done|done| | |].
    + split; [cbn; congruence|]. exists A1. split; [done|]. apply (Hst c c4 p A A1); eauto.
    + apply (live_transport c c4 p p A A1); [done|done|]. intros j. by apply (relocked_dom _ _ _ _ _ _ Hre).
    + apply (config_memory c1 c4 p p A1); congruence.
Qed.

(** The contract, for any such property of the state. *)
Definition radix_laws_with W (Hst : lock_stable W) : PoolLaws (RadixCache * ReqToTokenPool) := {|
  pool_wf := usable_with W;
  node_wf := live;
  law_lock := radix_lock W Hst;
|}.

Definition usable : RadixCache * ReqToTokenPool → Prop := usable_with (λ _ _ _, True).

Lemma lock_stable_true : lock_stable (λ _ _ _, True).
Proof. by intros. Qed.

#[export] Instance radix_laws : PoolLaws (RadixCache * ReqToTokenPool) :=
  radix_laws_with _ lock_stable_true.
End pools.
