(* ===== verification/PrefillTheorems.v ===== *)
(** * What the prefill adder promises

    The theorems about [PrefillAdder]: admission never books more than the pools
    hold, the ranges it gives to requests, the budgets of the sliding-window pool,
    and chunked requests.  The contract of the pools is discharged by the radix
    cache, and the witnesses run on it. *)

From S2P Require Import Prelude PyFloat TreeNode Allocator ReqPool Events RadixCache RadixInv ReqCache.
From S2P Require Import RadixTheorems RadixPools PrefillDelayer PrefillAdder PrefillAdmit.

Module AdmitDemo.
Import (hints) RadixTheorems.Demo.

#[export] Instance settings0 : Settings := {|
  CLIP_MAX_NEW_TOKENS := 4096; IS_HIP := false; PREFILL_TILE_BUDGET := 0;
  tile_mode_compact := true; low_priority_values_first := false;
|}.
#[export] Instance retract0 : RetractSettings := {|
  spec_algo_none := true; strip_thinking_cache := false; RETRACT_DECODE_STEPS := 20;
|}.
#[export] Instance kv_free0 : KVFree := Token.free.

Definition env0 : Env := mkEnv (λ i, [i]) 0%Q 0%Q 0%Q.
Definition rows0 : ReqToTokenPool := ReqToTokenPool_init 4 16.
Definition state0 : RadixCache * ReqToTokenPool := (RadixTheorems.Demo.warm, rows0).

Definition base0 (ids prefix : list Z) (node : nat) : Req :=
  mkReq ids [] ids false None None None None 0 prefix (Some node) false kv_empty.
Definition request (n : nat) (ids prefix : list Z) (node : nat) (max_new : Z) : SReq :=
  mkSReq n (base0 ids prefix node) max_new false 0 0 None 0 0 0 0 false false false false None.

(** A leaf of the warm cache and its root. *)
Definition leaf : nat := hd 0%nat (elements (evictable_leaves RadixTheorems.Demo.warm)).
Definition first : SReq := request 1 [1; 2; 9; 9] [1; 2] (root_node RadixTheorems.Demo.warm) 1.
Definition second : SReq := request 2 [1; 2; 4; 5; 7] [1; 2; 4; 5] leaf 0.

Lemma state0_usable : usable state0.
Proof. split; [done|]. destruct RadixTheorems.Demo.warm_inv as (A & HA & _). by exists A. Qed.

Lemma leaf_live : live (Some leaf) state0.
Proof.
  destruct RadixTheorems.Demo.warm_inv as (A & HA & _). exists leaf, A. split_and!; [done|done|].
  assert (leaf ∈ evictable_leaves RadixTheorems.Demo.warm) as Hl by by_evaluation.
  apply (inv_leaves _ _ HA) in Hl as (a & Ha & _). by eexists.
Qed.

Lemma root_live : live (Some (root_node RadixTheorems.Demo.warm)) state0.
Proof.
  destruct RadixTheorems.Demo.warm_inv as (A & HA & _).
  exists (root_node RadixTheorems.Demo.warm), A. split_and!; [done|done|].
  destruct (PrefixTree.to_root _ _ _ _ (inv_tree _ _ HA)) as (a & Ha & _). by eexists.
Qed.

Lemma requests_fine : Forall (req_fine state0) [first; second].
Proof. constructor; [|constructor; [|done]]; constructor; done || apply root_live || apply leaf_live. Qed.
End AdmitDemo.
Import (hints) RadixTheorems.Demo AdmitDemo.

(** ** Admission *)

Lemma running_offset_nonneg `{Settings} c rs :
  0 ≤ CLIP_MAX_NEW_TOKENS → (0 <= new_token_ratio c)%Q →
  Forall (λ r, out_len r ≤ max_new_tokens r) rs →
  (0 <= Qsum (get_running_request_total_token_offset c <$> rs))%Q.
Proof.
  intros Hc Hr Hf. apply Qsum_nonneg, Forall_fmap. eapply Forall_impl; [exact Hf|].
  intros r Hle. cbn beta in *. unfold get_running_request_total_token_offset.
  apply Qmult_le_0_compat; [|done]. change 0%Q with (inject_Z 0). rewrite <- Zle_Qle. lia.
Qed.

(** An adder that starts a pass books the running batch and the mixed tokens. *)
Lemma init_covered {P} `{Settings} `{PoolLaws P} (p : P) (running : list SReq)
    (ratio : Q) (page rem_input mixed threshold bs wlen block_m : Z)
    (rem_chunk max_running prefill_max : option Z) (e : Env) (dsa : bool) :
  0 < page → 0 ≤ CLIP_MAX_NEW_TOKENS → 0 ≤ mamba_slot_full_token_cost → (0 <= ratio)%Q →
  Forall (λ r, out_len r ≤ max_new_tokens r) running → pool_wf p →
  covered mixed (PrefillAdder_init page p (Some running) ratio rem_input rem_chunk mixed threshold bs
    max_running prefill_max None e None wlen block_m dsa).
Proof.
  intros Hp Hclip Hcost Hr Hrun Hw. constructor; cbn; try done; [by destruct is_unified_mamba| |by left].
  unfold booked. cbn. rewrite Z.add_0_r, <- (Qplus_0_r (inject_Z mixed)) at 1.
  apply Qplus_le_compat; [apply Qle_refl|]. by apply running_offset_nonneg.
Qed.

(** C8: admission never over-commits memory.  Take a running batch whose requests are
    within their limit (each has at most [max_new_tokens] output tokens; a request past
    its limit would count negatively), a ratio that is not negative, pages of at least
    one token, no delayer and no diffusion model, pools that keep the laws of locking,
    and waiting requests whose node is alive, with no data to load back from the host,
    no negative limit and, without a prefix cache, no [ignore_eos].  A pass that adds
    them one after the other, until one is refused, returns; and the tokens of the
    admitted requests, one extra page for each of them and the decode tokens mixed into
    the batch fit in what the pools then hold free or can evict, with the prefixes of
    all admitted requests locked.  This is the memory that the allocation of the prefill
    batch asks for. *)
Theorem admission_never_overcommits {P} `{Settings} `{PoolLaws P} (p : P) (running rs : list SReq)
    (ratio : Q) (page rem_input mixed threshold bs wlen block_m : Z)
    (rem_chunk max_running prefill_max align : option Z) (e : Env) (dsa : bool) :
  0 < page → 0 ≤ CLIP_MAX_NEW_TOKENS → 0 ≤ mamba_slot_full_token_cost → (0 <= ratio)%Q →
  from_option (Z.lt 0) True align → Forall (λ r, out_len r ≤ max_new_tokens r) running →
  pool_wf p → Forall (req_fine p) rs →
  let a := PrefillAdder_init page p (Some running) ratio rem_input rem_chunk mixed threshold bs
             max_running prefill_max None e None wlen block_m dsa in
  ∃ xs a', add_all align rs a = Ok (xs, a') ∧
    (can_run_list a' = [] ∨
     mixed + zsum ((λ r, extend_len r + page) <$> can_run_list a') ≤ available_and_evictable (pools a')).
Proof.
  intros Hp Hclip Hcost Hr Hal Hrun Hw Hf a.
  assert (covered mixed a) as Hcov by by apply init_covered.
  destruct (add_all_covered mixed align rs a Hclip Hal Hcov eq_refl Hf) as (xs & a' & Hrun' & Hc' & Hcfg & _).
  exists xs, a'. split; [done|]. destruct (cov_mem _ _ Hc') as [?|Hm]; [by left|right].
  unfold booked in Hm. by rewrite Hcfg in Hm.
Qed.

Lemma admission_never_overcommits_witness :
  let a := PrefillAdder_init 1 AdmitDemo.state0 (Some []) 1%Q 100 (Some 8) 0 0 0 None None None
             AdmitDemo.env0 None 2 64 false in
  ∃ xs a', add_all None [AdmitDemo.first; AdmitDemo.second] a = Ok (xs, a') ∧
    (can_run_list a' = [] ∨
     0 + zsum ((λ r, extend_len r + 1) <$> can_run_list a') ≤ available_and_evictable (pools a')).
Proof.
  apply (admission_never_overcommits AdmitDemo.state0 [] [AdmitDemo.first; AdmitDemo.second] 1%Q
    1 100 0 0 0 2 64 (Some 8) None None None AdmitDemo.env0 false).
  - lia.
  - by vm_compute.
  - by vm_compute.
  - by vm_compute.
  - done.
  - constructor.
  - apply AdmitDemo.state0_usable.
  - apply AdmitDemo.requests_fine.
Defined.

Example both_admitted :
  (λ x, (x.1, extend_len <$> can_run_list x.2)) <$>
    (match add_all None [AdmitDemo.first; AdmitDemo.second]
       (PrefillAdder_init 1 AdmitDemo.state0 (Some []) 1%Q 100 (Some 8) 0 0 0 None None None
          AdmitDemo.env0 None 2 64 false) with Ok x => Some x | Err _ => None end) =
  Some ([CONTINUE; CONTINUE], [2; 1]).
Proof. vm_compute. reflexivity. Qed.

(** What [add_one_req] does to a request.  Either it refuses: the batch, every
    budget and the chunked request are as they were and the answer ends the loop.
    Or it admits: the request is appended, its extend range starts after the cached
    prefix and is at most the remaining chunk budget; it ends at the end of the
    input, or else it is a proper first chunk that ends on a page boundary and the
    request becomes the chunked request; and the budgets are charged for the range
    rounded up to pages, for the output to come when nothing was cut off, and for
    one page. *)
Theorem add_one_req_admits_or_keeps {P} `{Settings} `{Pools P} (r : SReq) (align : option Z)
    (a a' : PrefillAdder P) (x : AddReqResult) (r' : SReq) :
  0 < page_size (cfg a) → dllm_config (cfg a) = None → from_option (Z.lt 0) True align →
  needs_host_load_back r = false → ignore_eos r && cache_disable = false →
  add_one_req r align a = Ok (x, r', a') →
  (x ≠ CONTINUE ∧ can_run_list a' = can_run_list a ∧ budget a' = budget a ∧
   new_chunked_req a' = new_chunked_req a) ∨
  (x = budget_state a' ∧ can_run_list a' = can_run_list a ++ [r'] ∧
   ∃ e mn, extend_range (base r') = Some (prefix_len r, e) ∧
     (∀ n, rem_chunk_tokens (budget a) = Some n → e - prefix_len r ≤ n) ∧
     ((e = fill_len r ∧ mn = Z.min (max_new_tokens r) CLIP_MAX_NEW_TOKENS ∧
       new_chunked_req a' = new_chunked_req a) ∨
      (prefix_len r < e < fill_len r ∧ (page_size (cfg a) | e) ∧ mn = 0 ∧
       new_chunked_req a' = Some (obj r))) ∧
     budget a' = charge (cfg a) (budget a) (ceil_paged_tokens (cfg a) (e - prefix_len r)) mn
                   (mamba_gap_budget_for_req (cfg a) r)).
Proof.
  intros Hp Hd Hal Hh He Hrun.
  destruct (add_one_req_outcome _ _ _ _ _ _ Hp Hd Hal Hh He Hrun)
    as [(Hx & [? ? ? ?] & _)|(Hx & p1 & ext & mn & _ & _ & Had)]; [by left|right].
  destruct Had as [_ _ Hl Hr Hb Hc Hk]. split_and!; [done|done|].
  exists (prefix_len r + ext), mn. replace (prefix_len r + ext - prefix_len r) with ext by lia.
  rewrite Hr. split_and!; [done|done| |done].
  destruct Hk as [(-> & -> & Hn)|((? & ?) & Hdv & -> & Hn & _)]; [left|right]; split_and!; done || lia.
Qed.

Lemma add_one_req_admits_or_keeps_witness :
  let a := PrefillAdder_init 1 AdmitDemo.state0 (Some []) 1%Q 100 (Some 1) 0 0 0 None None None
             AdmitDemo.env0 None 2 64 false in
  ∃ x r' a', add_one_req AdmitDemo.first None a = Ok (x, r', a') ∧ x = OTHER ∧
    extend_range (base r') = Some (2, 3) ∧ new_chunked_req a' = Some 1%nat ∧
    ((x ≠ CONTINUE ∧ can_run_list a' = can_run_list a ∧ budget a' = budget a ∧
      new_chunked_req a' = new_chunked_req a) ∨ can_run_list a' = can_run_list a ++ [r']).
Proof.
  cbv zeta. eexists _, _, _. split; [vm_compute; reflexivity|]. split_and!; [done|done|done|].
  edestruct (add_one_req_admits_or_keeps AdmitDemo.first None
    (PrefillAdder_init 1 AdmitDemo.state0 (Some []) 1%Q 100 (Some 1) 0 0 0 None None None
       AdmitDemo.env0 None 2 64 false)) as [Hl|(_ & Hl & _)];
    [by vm_compute|done|done|done|done|vm_compute; reflexivity|by left|by right].
Defined.

(** ** The sliding-window pool *)

Module SwaDemo.
(** A hybrid pool of full-attention and sliding-window slots without cached
    prefixes: window 4, sixteen sliding-window slots in all. *)
#[export] Instance swa_pools : Pools (Z * Z) := {|
  is_hybrid_swa := true; is_all_swa := false; is_unified_mamba := false; supports_mamba := false;
  is_tree_cache := false; cache_disable := true; sliding_window_size := 4; size_swa := 16;
  mamba_slot_full_token_cost := 0;
  p_available_size p := p.1; p_full_available_size p := p.1; p_swa_available_size p := p.2;
  p_evictable_size _ := 0; p_full_evictable_size _ := 0; p_swa_evictable_size _ := 0;
  p_mamba_evictable_size _ := 0; p_mamba_schedulable_size _ := 0;
  p_inc_lock_ref _ p := Ok (None, p); p_dec_lock_ref _ _ p := Ok p;
  p_init_load_back _ _ := Err NotImplementedError;
  p_release_req r _ p := Ok (r, p);
|}.
Definition adder (free swa : Z) (chunk : option Z) : PrefillAdder (Z * Z) :=
  PrefillAdder_init 2 (free, swa) (Some []) 1%Q 100 chunk 0 0 0 None None None AdmitDemo.env0 None 0 64 false.
End SwaDemo.
Import (hints) SwaDemo.

Lemma swa_reserved_host `{Pools P} c ext new host :
  swa_reserved_tokens c ext new host =
  Z.min (ext + new) sliding_window_size + page_size c + (if host >? 0 then ceil_paged_tokens c host else 0).
Proof. unfold swa_reserved_tokens. destruct (host >? 0); lia. Qed.

(** The budget of the sliding-window pool is sound and tight.  For a request
    without a host hit it is at least the tokens the next chunk allocates plus one
    page, and at most the extension, the output and one page.  And the escape hatch
    for a request that never fits is sound: a chunk cap it grants is a positive
    multiple of the page size, and a chunk of that length passes the budget. *)
Theorem swa_budget_sound {P} `{Settings} `{Pools P} (a : PrefillAdder P) (ext new host : Z) :
  0 < page_size (cfg a) → 0 ≤ sliding_window_size → 0 ≤ ext → 0 ≤ new →
  let rem := rem_chunk_tokens (budget a) in
  let alloc := match rem with Some n => Z.min ext n | None => ext end in
  alloc + page_size (cfg a) ≤ swa_budget_for_req (cfg a) rem ext new 0
    ≤ ext + new + page_size (cfg a) ∧
  (0 < swa_chunk_cap a new host →
   (page_size (cfg a) | swa_chunk_cap a new host) ∧
   swa_budget_for_req (cfg a) rem (swa_chunk_cap a new host) new host ≤ rem_swa_tokens a).
Proof.
  intros Hp Hw He Hn rem alloc. split.
  - unfold swa_budget_for_req. rewrite swa_reserved_host. fold alloc. cbn.
    assert (alloc ≤ ext) by (unfold alloc; destruct rem; lia). lia.
  - unfold swa_chunk_cap, swa_budget_for_req. rewrite !swa_reserved_host.
    set (h := if host >? 0 then _ else 0).
    destruct (Z.leb_spec (rem_swa_tokens a - (Z.min (0 + new) sliding_window_size + page_size (cfg a) + h)) 0) as [|Hpos]; [lia|].
    set (cap := rem_swa_tokens a - _) in *. rewrite div_mul_floor.
    pose proof (floor_align_le cap (page_size (cfg a)) Hp) as Hf. intros Hc. split; [apply floor_align_divide|].
    set (f := floor_align cap _) in *. clearbody f. fold rem.
    assert (match rem with Some n => Z.min f n | None => f end ≤ f) by (destruct rem; lia). lia.
Qed.

Lemma swa_budget_sound_witness :
  let a := SwaDemo.adder 100 12 (Some 8) in
  swa_chunk_cap a 3 0 = 6 ∧ 5 + 2 ≤ swa_budget_for_req (cfg a) (Some 8) 5 3 0 ≤ 5 + 3 + 2 ∧
  swa_budget_for_req (cfg a) (Some 8) 6 3 0 ≤ rem_swa_tokens a.
Proof.
  cbv zeta. pose proof (swa_budget_sound (SwaDemo.adder 100 12 (Some 8)) 5 3 0) as Hs. cbv zeta in Hs.
  destruct Hs as [H1 H2]; [by vm_compute|by vm_compute|lia|lia|].
  assert (swa_chunk_cap (SwaDemo.adder 100 12 (Some 8)) 3 0 = 6) as Hc by by vm_compute.
  rewrite Hc in H2. split_and!; [done|apply H1|apply H1|]. by apply H2.
Defined.

(** ** Chunked requests *)

(** The next chunk of a chunked request.  Either the sliding-window pool is
    full and the request is parked with nothing changed, or the request runs with a
    chunk that is at most the chunk budget, at most the rest of its input, at most
    the memory that remains whenever a token fits, and in a hybrid pool leaves a
    page of the sliding-window budget.  It is handed back to be continued exactly
    when the chunk is not the rest of the input. *)
Theorem chunked_req_fits {P} `{Settings} `{Pools P} (r r' : SReq) (a a' : PrefillAdder P)
    (cont : option SReq) :
  dllm_config (cfg a) = None → add_chunked_req r a = Ok (cont, r', a') →
  (is_hybrid_swa = true ∧ cont = Some r ∧ r' = r ∧ a' = a) ∨
  ∃ chunk n, rem_chunk_tokens (budget a) = Some chunk ∧
    can_run_list a' = can_run_list a ++ [r'] ∧
    extend_range (base r') = Some (prefix_len r, prefix_len r + n) ∧
    n ≤ chunk ∧ n ≤ fill_len r - prefix_len r ∧
    (0 < py_int (rem_total_tokens a) → (inject_Z n <= rem_total_tokens a)%Q) ∧
    (is_hybrid_swa = true → n + page_size (cfg a) ≤ rem_swa_tokens a) ∧
    cont = (if decide (n = fill_len r - prefix_len r) then None else Some r').
Proof.
  intros Hd. unfold add_chunked_req, chunk_rem_tokens. rewrite Hd.
  destruct (rem_chunk_tokens (budget a)) as [chunk|] eqn:Hc; [|done].
  set (total := py_int (rem_total_tokens a)).
  set (rem := if is_hybrid_swa then _ else _). intros (o & Ho & Hrun)%bind_Ok.
  assert ((o = None ∧ is_hybrid_swa = true) ∨ ∃ n, o = Some n ∧ n ≤ chunk ∧
    (0 < total → n ≤ total ∨ n ≤ 0) ∧ (is_hybrid_swa = true → n + page_size (cfg a) ≤ rem_swa_tokens a)) as Hn.
  { destruct (Z.leb_spec rem 0) as [Hz|Hz]; injection Ho as <-; unfold rem in *;
      destruct is_hybrid_swa; [by left| |right..]; try right; eexists; split_and!; try done; lia. }
  destruct Hn as [[-> Hh]|(n & -> & Hn1 & Hn2 & Hn3)]; [injection Hrun as <- <- <-; by left|right].
  apply bind_Ok in Hrun as ([v a1] & Hcons & E). destruct (consult_Ok _ _ _ Hcons) as [[Hcfg Hl Hbu _] _].
  unfold add_truncated in E. cbv zeta in E. injection E as <- <- <-.
  exists chunk, (Z.min (fill_len r - prefix_len r) n). cbn. rewrite Hl. split_and!; try done; try lia.
  - intros Ht. pose proof (py_int_le _ Ht) as Hle. eapply Qle_trans; [|exact Hle].
    rewrite <- Zle_Qle. fold total. pose proof (Hn2 Ht). lia.
  - intros Hh. pose proof (Hn3 Hh). lia.
  - destruct (Z.gtb_spec (fill_len r - prefix_len r) n); case_decide; done || lia.
Qed.

Lemma chunked_req_fits_witness :
  let r := AdmitDemo.request 1 [1; 2; 3; 4; 5; 6; 7; 8] [1; 2] 0 3 in
  ∃ cont r' a', add_chunked_req r (SwaDemo.adder 100 7 (Some 8)) = Ok (cont, r', a') ∧
    extend_range (base r') = Some (2, 7) ∧ cont = Some r' ∧
    (a' = SwaDemo.adder 100 7 (Some 8) ∨ can_run_list a' = [r']).
Proof.
  cbv zeta.
  destruct (add_chunked_req (AdmitDemo.request 1 [1; 2; 3; 4; 5; 6; 7; 8] [1; 2] 0 3)
    (SwaDemo.adder 100 7 (Some 8))) as [[[cont r'] a']|e] eqn:E; [|by vm_compute in E].
  exists cont, r', a'. split; [done|].
  pose proof (chunked_req_fits _ r' (SwaDemo.adder 100 7 (Some 8)) a' cont eq_refl E) as Hf. vm_compute in E. injection E as <- <- <-.
  split_and!; [done|done|]. destruct Hf as [(_ & _ & _ & Ha)|(ch & n & _ & Hl & _)]; [by left|by right].
Defined.
