(* ===== verification/EosBudget.v ===== *)
(** * The memory forecast of requests that ignore the end of sequence

    [add_one_req_ignore_eos] admits a request when a forecast over [req_states]
    succeeds: the requests decode in lock step, and each frees what it occupies when
    it is done.  The forecast is sound in any order of the list; the insertion that
    should keep the list sorted does not, which makes the forecast refuse too much. *)

From S2P Require Import Prelude PyFloat PySort ReqPool PrefillAdder.

(** ** The list of states *)

Definition state_le (x y : Q * Z) : Prop := state_leb x y = true.

#[export] Instance state_order : PyOrder state_leb.
Proof.
  split; unfold state_leb; intros x y; rewrite ?Qleb_spec; [|intros z; rewrite !Qleb_spec; lra].
  destruct (Qlt_le_dec (fst y) (fst x)); [right|left]; lra.
Qed.

(** ** The forecast *)

(** After [t] decode steps the requests that are not done have stored [t] tokens
    each; the others have given back what they occupied. *)
Definition demand (t : Q) (l : list (Q * Z)) : Q :=
  Qsum ((λ s, if Qle_bool t s.1 then t else 0%Q) <$> l).
Definition given_back (t : Q) (l : list (Q * Z)) : Z :=
  zsum ((λ s, if Qle_bool t s.1 then 0 else s.2) <$> l).

Lemma demand_le t l : (0 <= t)%Q → (demand t l <= t * inject_Z (zlen l))%Q.
Proof.
  intros Ht. induction l as [|s l IH]; unfold demand; cbn [fmap list_fmap Qsum foldr].
  - change (zlen []) with 0. change (inject_Z 0) with 0%Q. lra.
  - fold (Qsum ((λ s, if Qle_bool t s.1 then t else 0%Q) <$> l)). fold (demand t l).
    rewrite zlen_cons, inject_Z_plus. change (inject_Z 1) with 1%Q. destruct (Qle_bool _ _); lra.
Qed.

Lemma given_back_nonneg t l : Forall (λ s, 0 ≤ s.2) l → 0 ≤ given_back t l.
Proof.
  intros Hl. apply zsum_nonneg, Forall_fmap. eapply Forall_impl; [exact Hl|].
  intros s Hs. cbn. by destruct (Qle_bool _ _).
Qed.

Lemma given_back_cons t s l : given_back t (s :: l) = (if Qle_bool t s.1 then 0 else s.2) + given_back t l.
Proof. done. Qed.
Lemma demand_cons t s l : (demand t (s :: l) == (if Qle_bool t s.1 then t else 0) + demand t l)%Q.
Proof. unfold demand. cbn. apply Qeq_refl. Qed.

(** The first entry that is not done by [t] was checked with at least as many
    requests as are running then, and with at most the memory freed by then. *)
Lemma states_fit_demand cur freed l t :
  Forall (λ s, 0 ≤ s.2) l → 0 ≤ cur + freed → (0 <= t)%Q → states_fit cur freed l = true →
  (demand t l <= inject_Z (cur + freed + given_back t l))%Q.
Proof.
  intros Hl Hc Ht. revert freed Hc. induction Hl as [|[left occ] l Hocc Hl IH]; intros freed Hc Hfit.
  { change (0 <= inject_Z (cur + freed + 0))%Q. change 0%Q with (inject_Z 0). rewrite <- Zle_Qle. lia. }
  revert Hfit. cbn [states_fit]. rewrite !zlen_cons. cbn [snd] in Hocc.
  set (bs := 1 + zlen l). assert (0 < bs) by (unfold bs, zlen; lia).
  destruct (Qleb_reflect (inject_Z (cur + freed) - left * inject_Z bs)
    (inject_Z (IGNORE_EOS_RESERVE_TOKENS * bs))) as [|Hgt]; [done|]. intros Hrest.
  destruct (Qleb_reflect t left) as [Hle|Hnle].
  - pose proof (demand_le t ((left, occ) :: l) Ht) as Hd. rewrite zlen_cons in Hd. fold bs in Hd.
    pose proof (given_back_nonneg t ((left, occ) :: l) ltac:(by constructor)) as Hg.
    assert (inject_Z (cur + freed) <= inject_Z (cur + freed + given_back t ((left, occ) :: l)))%Q
      by (rewrite <- Zle_Qle; lia).
    assert (0 <= inject_Z bs)%Q by (change 0%Q with (inject_Z 0); rewrite <- Zle_Qle; lia).
    assert (0 <= inject_Z (IGNORE_EOS_RESERVE_TOKENS * bs))%Q
      by (change 0%Q with (inject_Z 0); rewrite <- Zle_Qle; unfold IGNORE_EOS_RESERVE_TOKENS; lia).
    assert (t * inject_Z bs <= left * inject_Z bs)%Q by (by apply Qmult_le_compat_r). lra.
  - specialize (IH (freed + occ) ltac:(lia) Hrest).
    rewrite demand_cons, given_back_cons. cbn [fst snd].
    assert (Qle_bool t left = false) as -> by (apply not_true_iff_false; by rewrite Qleb_spec).
    rewrite Z.add_assoc in IH. rewrite Z.add_assoc. lra.
Qed.

(** The forecast is sound, in whatever order the states are.  When the loop
    over the states accepts, then at every moment of the decoding the tokens stored
    for the requests still running fit in the free memory plus what the finished
    requests gave back. *)
Theorem eos_forecast_sound (cur : Z) (l : list (Q * Z)) (t : Q) :
  0 ≤ cur → Forall (λ s, 0 ≤ s.2) l → (0 <= t)%Q → states_fit cur 0 l = true →
  (demand t l <= inject_Z (cur + given_back t l))%Q.
Proof.
  intros Hc Hl Ht Hfit. pose proof (states_fit_demand cur 0 l t Hl ltac:(lia) Ht Hfit) as Hd.
  by rewrite Z.add_0_r in Hd.
Qed.

Definition two_states : list (Q * Z) := [(5%Q, 8); (2%Q, 4)].

Lemma eos_forecast_sound_witness :
  states_fit 20 0 two_states = true ∧
  (demand 4%Q two_states <= inject_Z (20 + given_back 4%Q two_states))%Q.
Proof.
  split; [by vm_compute|].
  apply (eos_forecast_sound 20 two_states 4%Q); [lia|by_evaluation|by vm_compute|by vm_compute].
Defined.

(** The insertion loses the order.  The first call sorts the states, but
    [add_req_state(insert_sort=True)] puts an entry larger than all the others
    before the last one: a sorted list becomes unsorted, and the forecast on it
    refuses a request that the forecast on the sorted list accepts. *)
Theorem insert_state_loses_order :
  (∀ l, sort_states l ≡ₚ l ∧ StronglySorted state_le (sort_states l)) ∧
  ∃ (s : Q * Z) (l : list (Q * Z)) (cur : Z),
    StronglySorted state_le l ∧ ¬ StronglySorted state_le (insert_state s l) ∧
    states_fit cur 0 (insert_state s l) = false ∧
    states_fit cur 0 (sort_states (insert_state s l)) = true.
Proof.
  split; [intros l; split; [apply py_sorted_Permutation|apply py_sorted_sorted, state_order]|].
  exists (12%Q, 50), [(10%Q, 100)], 25.
  assert (insert_state (12%Q, 50) [(10%Q, 100)] = [(12%Q, 50); (10%Q, 100)]) as -> by done.
  split_and!; [by repeat constructor| |by vm_compute|by vm_compute].
  intros [_ Hf]%StronglySorted_inv. apply Forall_cons in Hf as [Hle _]. by vm_compute in Hle.
Qed.
