(* ===== verification/SchedulePolicy.v ===== *)
(** * The scheduling policy

    [SchedulePolicy] of [managers/schedule_policy.py] over a [RadixCache]: the
    choice of the policy, the prefix match of every waiting request, the in-batch
    prefix check against a simulated radix tree, and the orders of the waiting
    queue, with [_dfs_weight_order] of [mem_cache/base_prefix_cache.py]. *)

From S2P Require Import Prelude PyFloat PySort PrefillDelayer PrefillAdder RadixKey TreeNode Allocator.
From S2P Require Import ReqPool Events RadixCache.

(** ** Policies *)

Inductive Policy := LPM | DFS_WEIGHT | FCFS | LOF | RANDOM | ROUTING_KEY.

#[export] Instance Policy_eq_dec : EqDecision Policy.
Proof. solve_decision. Defined.

Definition is_cache_aware (p : Policy) : bool :=
  match p with LPM | DFS_WEIGHT => true | _ => false end.

(** [CacheAwarePolicy(policy)] and [CacheAgnosticPolicy(policy)] *)
Definition CacheAwarePolicy (policy : string) : res Policy :=
  if String.eqb policy "lpm" then Ok LPM
  else if String.eqb policy "dfs-weight" then Ok DFS_WEIGHT else Err ValueError.
Definition CacheAgnosticPolicy (policy : string) : res Policy :=
  if String.eqb policy "fcfs" then Ok FCFS
  else if String.eqb policy "lof" then Ok LOF
  else if String.eqb policy "random" then Ok RANDOM
  else if String.eqb policy "routing-key" then Ok ROUTING_KEY else Err ValueError.

Definition validate_and_adjust_policy (policy : string) (cache_disabled : bool) : res Policy :=
  match CacheAwarePolicy policy with
  | Ok p => Ok (if cache_disabled then FCFS else p)
  | Err _ => CacheAgnosticPolicy policy
  end.

(** ** Waiting requests *)

Record QReq := mkQReq {
  rid : string;
  sreq : SReq;
  routing_key : option string;
  num_matched_prefix_tokens : Z;
  return_logprob : bool;
  logprob_start_len : Z;
}.

Definition set_match (q : QReq) (s : SReq) (n : Z) : QReq :=
  mkQReq (rid q) s (routing_key q) n (return_logprob q) (logprob_start_len q).

Definition compute_max_prefix_len (q : QReq) (input_len : Z) : Z :=
  let n := input_len - 1 in
  let n := if return_logprob q && (0 <=? logprob_start_len q) then Z.min n (logprob_start_len q) else n in
  Z.max n 0.

(** The tokens and the key a request is looked up by. *)
Definition prefix_ids (q : QReq) : list Z := origin_input_ids (base (sreq q)) ++ output_ids (base (sreq q)).
Definition lookup_key (q : QReq) : RadixKey :=
  RadixKey_init (prefix_ids q) (req_extra_key (base (sreq q))) false None (req_cache_salt (base (sreq q))).

(** Settings of the process. *)
Class PolicySettings := {
  IN_BATCH_PREFIX_CACHING_CHECK_THRESHOLD : Z;
  IN_BATCH_PREFIX_CACHING_DEPRIORITIZE_THRESHOLD : Z;
  RADIX_FORCE_MISS : bool;
}.

Definition zero_match_result (c : RadixCache) (m : MatchResult) : MatchResult :=
  mkMatchResult (slice_to (device_indices m) 0) (root_node c).

Record SchedulePolicy := mkPolicy {
  policy : Policy;
  enable_priority_scheduling : bool;
  schedule_low_priority_values_first : bool;
}.

Definition sp_priority_sign (s : SchedulePolicy) : Z :=
  if schedule_low_priority_values_first s then 1 else -1.

Section policy.
Context `{Clock} `{HashOps} `{PolicySettings}.

(** [tree_cache.match_prefix], forced to miss when the environment asks so. *)
Definition match_or_miss (k : RadixKey) (c : RadixCache) : res (MatchResult * RadixCache) :=
  '(m, c) ← match_prefix k c;
  Ok (if RADIX_FORCE_MISS then zero_match_result c m else m, c).

(** [match_prefix_for_req]: a radix cache re-prefills no tail and reports no hit on
    the host. *)
Definition match_prefix_for_req (q : QReq) (c : RadixCache) : res (QReq * RadixCache) :=
  '(m, c) ← match_or_miss (lookup_key q) c;
  let s := sreq q in
  let b := set_last_node (set_prefix_indices (base s) (device_indices m)) (Some (last_device_node m)) in
  let s := mkSReq (obj s) b (max_new_tokens s) (ignore_eos s) (PrefillAdder.priority s)
             (wait_queue_entry_time s) (Some (last_device_node m)) 0 0 0 (storage_hit_length s)
             (retracted_stain s) (holds_mamba s) (dllm_incomplete_ids s) (is_finished s)
             (swa_uuid_for_lock s) in
  let max_len := compute_max_prefix_len q (zlen (prefix_ids q)) in
  Ok (set_match q s (Z.min (zlen (device_indices m)) max_len), c).

(** ** In-batch prefix caching *)

(** One round of the loop of [_compute_prefix_matches]: [w] is the simulated tree
    of the waiting queue. *)
Definition prefix_match_step (q : QReq) (st : list QReq * list string * RadixCache * RadixCache)
    : res (list QReq * list string * RadixCache * RadixCache) :=
  let '(qs, deprioritized, c, w) := st in
  '(q, c) ← match_prefix_for_req q c;
  if prefix_len (sreq q) <=? IN_BATCH_PREFIX_CACHING_CHECK_THRESHOLD then
    '(m, w) ← match_or_miss (lookup_key q) w;
    if IN_BATCH_PREFIX_CACHING_DEPRIORITIZE_THRESHOLD <=? zlen (device_indices m) then
      Ok (qs ++ [q], deprioritized ++ [rid q], c, w)
    else
      '(_, _, w) ← insert (mkInsertParams (lookup_key q)
                             (Some (replicate (length (prefix_ids q)) 0)) false None) w;
      Ok (qs ++ [q], deprioritized, c, w)
  else Ok (qs ++ [q], deprioritized, c, w).

Definition compute_prefix_matches (queue : list QReq) (c w : RadixCache)
    : res (list QReq * list string * RadixCache * RadixCache) :=
  for_each prefix_match_step queue ([], [], c, reset w).

(** [RadixCache.create_simulated()]: a tree without memory pools ([al] stands for
    the missing allocator; the tree of the waiting queue never frees). *)
Definition create_simulated (al : Alloc) : res RadixCache :=
  RadixCache_init (mkCacheInitParams false 1 false false "lru" false) al ∅ 0 0.

(** ** Orders *)

(** [float("inf")] for a deprioritized request *)
Definition lpm_le (deprioritized : list string) (x y : QReq) : bool :=
  let dx := bool_decide (rid x ∈ deprioritized) in
  let dy := bool_decide (rid y ∈ deprioritized) in
  dy || (negb dx && (num_matched_prefix_tokens y <=? num_matched_prefix_tokens x)).
Definition sort_by_longest_prefix (deprioritized : list string) : list QReq → list QReq :=
  py_sorted (lpm_le deprioritized).

Definition sort_by_longest_output (with_priority : bool) (sign : Z) : list QReq → list QReq :=
  let longest := le_by (λ x, - max_new_tokens (sreq x)) in
  py_sorted (if with_priority
             then le_then (λ x, PrefillAdder.priority (sreq x) * sign) longest else longest).

Definition sort_by_priority_and_fcfs (sign : Z) : list QReq → list QReq :=
  py_sorted (le_then (λ x, PrefillAdder.priority (sreq x) * sign)
               (le_by (λ x, wait_queue_entry_time (sreq x)))).

(** [Counter] of the truthy routing keys of the running batch *)
Definition truthy (k : option string) : option string :=
  match k with Some s => if String.eqb s "" then None else Some s | None => None end.
Definition key_count (running : list QReq) (k : string) : Z :=
  zlen (List.filter (λ r, bool_decide (truthy (routing_key r) = Some k)) running).

(** [(0, -count, key)] for a key of the running batch, else [(1, 0, key or "")] *)
Definition routing_sort_key (running : list QReq) (x : QReq) : Z * Z * string :=
  match truthy (routing_key x) with
  | Some k => if key_count running k =? 0 then (1, 0, k) else (0, - key_count running k, k)
  | None => (1, 0, ""%string)
  end.
Definition routing_le (running : list QReq) : QReq → QReq → bool :=
  le_then (λ x, (routing_sort_key running x).1.1)
    (le_then (λ x, (routing_sort_key running x).1.2)
       (λ x y, String.leb (routing_sort_key running x).2 (routing_sort_key running y).2)).
Definition sort_by_routing_key (running queue : list QReq) : list QReq :=
  if existsb (λ r, bool_decide (is_Some (truthy (routing_key r)))) running
  then py_sorted (routing_le running) queue else queue.

(** ** [_dfs_weight_order] *)

Definition child_ids (h : heap) (i : node_id) : list node_id :=
  match h !! i with Some n => snd <$> children n | None => [] end.

(** The number of requests at or below a node. *)
Fixpoint subtree_weight (fuel : nat) (h : heap) (own : node_id → Z) (i : node_id) : Z :=
  match fuel with
  | O => own i
  | S fuel => own i + zsum (subtree_weight fuel h own <$> child_ids h i)
  end.

Fixpoint append_dfs (fuel : nat) (h : heap) (weight : node_id → Z) (indices : node_id → list nat)
    (i : node_id) : list nat :=
  match fuel with
  | O => indices i
  | S fuel =>
      let cs := py_sorted (le_by (λ j, - weight j)) (child_ids h i) in
      concat (append_dfs fuel h weight indices <$> cs) ++ indices i
  end.

Definition indices_at (handles : list (option nat)) (i : node_id) : list nat :=
  List.filter (λ k, bool_decide (handles !! k = Some (Some i))) (seq 0 (length handles)).

(** The tree is shallower than the number of its nodes, the fuel. *)
Definition dfs_weight_order (c : RadixCache) (handles : list (option nat)) : list nat :=
  let fuel := base.size (nodes c) in
  let own i := Z.of_nat (length (indices_at handles i)) in
  append_dfs fuel (nodes c) (subtree_weight fuel (nodes c) own) (indices_at handles) (root_node c).

(** [waiting_queue[:] = [waiting_queue[index] for index in order]] *)
Definition sort_by_dfs_weight (c : RadixCache) (queue : list QReq) : list QReq :=
  omap (λ k, queue !! k) (dfs_weight_order c ((λ q, last_node (base (sreq q))) <$> queue)).

(** ** [calc_priority] *)

Definition determine_active_policy (s : SchedulePolicy) (queue : list QReq) : Policy :=
  if bool_decide (policy s = LPM) && (zlen queue >? 128) then FCFS else policy s.

Definition supports_fast_match_prefix (c : RadixCache) : bool := false.

Definition waiting_queue_prefix_matched (s : SchedulePolicy) (queue : list QReq) (c : RadixCache) : bool :=
  is_cache_aware (determine_active_policy s queue) || supports_fast_match_prefix c.

(** [shuffle] stands for [random.shuffle].  A radix cache does not support the fast
    match, so a cache-agnostic policy matches no prefix here. *)
Definition calc_priority (shuffle : list QReq → list QReq) (s : SchedulePolicy) (queue : list QReq)
    (running : option (list QReq)) (c w : RadixCache) : res (list QReq * RadixCache * RadixCache) :=
  let active := determine_active_policy s queue in
  if bool_decide (policy s = FCFS) then
    Ok (if enable_priority_scheduling s then sort_by_priority_and_fcfs (sp_priority_sign s) queue
        else queue, c, w)
  else
    match active with
    | LPM | DFS_WEIGHT =>
        '(queue, deprioritized, c, w) ← compute_prefix_matches queue c w;
        Ok (if decide (active = LPM) then sort_by_longest_prefix deprioritized queue
            else sort_by_dfs_weight c queue, c, w)
    | FCFS => Ok (queue, c, w)
    | LOF =>
        Ok (sort_by_longest_output (enable_priority_scheduling s) (sp_priority_sign s) queue, c, w)
    | RANDOM => Ok (shuffle queue, c, w)
    | ROUTING_KEY =>
        Ok (match running with Some rs => sort_by_routing_key rs queue | None => queue end, c, w)
    end.
End policy.
