(* ===== verification/DfsOrder.v ===== *)
(** * The depth-first order of the waiting queue

    [_dfs_weight_order] on a well-formed radix tree: the fuel of the two
    traversals is enough, the weight of a node is the number of requests at or
    below it, and the order is a permutation that keeps every subtree together,
    heavier siblings first. *)

From S2P Require Import Prelude PySort PrefillAdder RadixKey PrefixTree TreeNode Allocator ReqPool Events.
From S2P Require Import RadixCache RadixInv RadixLock RadixSize RadixTheorems SchedulePolicy.

(** ** Lists *)

Lemma concat_Permutation {A} (l k : list (list A)) : l ≡ₚ k → concat l ≡ₚ concat k.
Proof.
  induction 1 as [|x l k _ IH|x y l|? ? ? _ IH1 _ IH2]; cbn; [done|by rewrite IH| |by etrans].
  rewrite !app_assoc. by rewrite (Permutation_app_comm x y).
Qed.

Lemma zlen_concat {A} (l : list (list A)) : zlen (concat l) = zsum (zlen <$> l).
Proof. induction l as [|x l IH]; cbn; [done|]. rewrite zlen_app, IH. done. Qed.

Lemma NoDup_concat_fmap {A B} (f : A → list B) (l : list A) :
  NoDup l → (∀ x, x ∈ l → NoDup (f x)) →
  (∀ x y b, x ∈ l → y ∈ l → b ∈ f x → b ∈ f y → x = y) → NoDup (concat (f <$> l)).
Proof.
  induction 1 as [|x l Hx _ IH]; intros Hf Hd; cbn; [constructor|]. apply NoDup_app. split_and!.
  - apply Hf. by left.
  - intros b Hb (y & Hy & Hk)%elem_of_concat_fmap. apply Hx.
    rewrite (Hd x y b); [done|by left|by right|done|done].
  - apply IH; [intros y Hy; apply Hf; by right|]. intros y z b ? ?. apply Hd; by right.
Qed.

(** Of two elements of a sorted list one comes first. *)
Lemma sorted_split {A} (R : A → A → Prop) (l : list A) x y :
  StronglySorted R l → x ∈ l → y ∈ l → x ≠ y →
  (∃ l1 l2 l3, l = l1 ++ x :: l2 ++ y :: l3 ∧ R x y) ∨ (∃ l1 l2 l3, l = l1 ++ y :: l2 ++ x :: l3 ∧ R y x).
Proof.
  intros Hs Hx Hy Hne. induction Hs as [|z l Hs IH Hz]; [by apply not_elem_of_nil in Hx|].
  apply elem_of_cons in Hx as [->|Hx], Hy as [->|Hy]; [done| | |].
  - left. apply list_elem_of_split in Hy as Hy'. destruct Hy' as (l2 & l3 & ->).
    exists [], l2, l3. split; [done|]. by eapply Forall_forall in Hz.
  - right. apply list_elem_of_split in Hx as Hx'. destruct Hx' as (l2 & l3 & ->).
    exists [], l2, l3. split; [done|]. by eapply Forall_forall in Hz.
  - destruct (IH Hx Hy) as [(l1 & l2 & l3 & -> & ?)|(l1 & l2 & l3 & -> & ?)]; [left|right];
      by exists (z :: l1), l2, l3.
Qed.

Section dfs.
Context (c : RadixCache) (A : atree) (handles : list (option nat)).
Hypothesis Hinv : Inv c A.
Let idx := indices_at handles.
Let own i := Z.of_nat (length (indices_at handles i)).

(** Request [k] waits at node [i] or below it. *)
Definition at_or_below (i k : nat) : Prop := ∃ j, anc A i j ∧ handles !! k = Some (Some j).
Definition block (i : nat) (l : list nat) : Prop := NoDup l ∧ ∀ k, k ∈ l ↔ at_or_below i k.

Lemma elem_of_indices_at k i : k ∈ idx i ↔ handles !! k = Some (Some i).
Proof.
  unfold idx, indices_at. rewrite list_elem_of_In, filter_In, bool_decide_eq_true, in_seq.
  split; [tauto|]. intros Hk. split; [|done]. apply lookup_lt_Some in Hk. lia.
Qed.

Lemma NoDup_indices_at i : NoDup (idx i).
Proof. apply NoDup_ListNoDup, List.NoDup_filter, NoDup_ListNoDup, NoDup_seq. Qed.

(** The number of nodes with a path longer than [n]. *)
Definition below (n : nat) : nat := base.size (filter (λ p : nat * anode, (n < length (a_path p.2))%nat) A).

Lemma child_below i j a b :
  A !! i = Some a → A !! j = Some b → a_parent b = Some i →
  (below (length (a_path b)) < below (length (a_path a)))%nat.
Proof.
  intros Hi Hj Hp. pose proof (ok_parent_shorter _ _ _ A (inv_tree c A Hinv) j b i a Hj Hp Hi).
  unfold below. apply map_subset_size. apply map_subset_alt. split.
  - apply map_subseteq_spec. intros k d [Hk Hl]%map_lookup_filter_Some. apply map_lookup_filter_Some.
    split; [done|]. cbn in *. lia.
  - exists j. split.
    + apply map_lookup_filter_None. right. intros d Hd. cbn. same_lookup. lia.
    + exists b. apply map_lookup_filter_Some. by split.
Qed.

Lemma child_ids_spec i a :
  A !! i = Some a → NoDup (child_ids (nodes c) i) ∧ ∀ j, j ∈ child_ids (nodes c) i ↔ child_of A i j.
Proof.
  intros Hi. destruct (inv_lookup c A i a Hinv Hi) as (n & Hn & _). unfold child_ids. rewrite Hn.
  exact (child_values c A Hinv i a n Hi Hn).
Qed.

Lemma no_child_at_0 i a j : A !! i = Some a → (below (length (a_path a)) ≤ 0)%nat → ¬ child_of A i j.
Proof. intros Hi Hb (b & Hj & Hp). pose proof (child_below i j a b Hi Hj Hp). lia. Qed.

Lemma anc_inv i k : anc A i k → i = k ∨ ∃ j, child_of A i j ∧ anc A j k.
Proof. intros [->|(j & ? & ?)]%rtc_inv; [by left|right; by exists j]. Qed.

(** Two siblings have no common descendant. *)
Lemma siblings_apart i x y : child_of A i x → child_of A i y → x ≠ y → ¬ anc A x y.
Proof.
  intros (a & Hx & Hpx) (b & Hy & Hpy) Hne Hxy.
  destruct (anc_child A y i b x Hy Hpy Hxy) as [|Hxi]; [done|].
  destruct (decide (x = root_node c)) as [->|Hr].
  { destruct (to_root _ _ _ A (inv_tree c A Hinv)) as (r & Hr & Hnp & _). same_lookup. congruence. }
  destruct (to_node _ _ _ A (inv_tree c A Hinv) x a Hx Hr) as (p & pa & Hp & Hpa & _).
  assert (p = i) as -> by congruence.
  pose proof (ok_parent_shorter _ _ _ A (inv_tree c A Hinv) x a i pa Hx Hpx Hpa).
  destruct (anc_prefix _ _ _ A (inv_tree c A Hinv) x i a pa Hxi Hx Hpa) as (?%prefix_length & _). lia.
Qed.

Lemma siblings_disjoint i x y j : child_of A i x → child_of A i y → anc A x j → anc A y j → x = y.
Proof.
  intros Hx Hy Hxj Hyj. destruct (decide (x = y)) as [|Hne]; [done|]. exfalso.
  destruct (anc_linear A x y j Hxj Hyj) as [Ha|Ha]; [by eapply siblings_apart in Ha|].
  by eapply (siblings_apart i y x) in Ha.
Qed.

Lemma dfs_block fuel w i a :
  A !! i = Some a → (below (length (a_path a)) ≤ fuel)%nat → block i (append_dfs fuel (nodes c) w idx i).
Proof.
  revert i a. induction fuel as [|fuel IH]; intros i a Hi Hb; cbn [append_dfs].
  { split; [apply NoDup_indices_at|]. intros k. rewrite elem_of_indices_at. split.
    - intros Hk. exists i. split; [constructor|done].
    - intros (j & [->|(x & Hx & _)]%anc_inv & Hk); [done|]. by eapply no_child_at_0 in Hx. }
  destruct (child_ids_spec i a Hi) as [Hnd Hch].
  set (cs := py_sorted _ (child_ids (nodes c) i)).
  assert (cs ≡ₚ child_ids (nodes c) i) as Hcs by apply py_sorted_Permutation.
  assert (∀ j, j ∈ cs → child_of A i j ∧ block j (append_dfs fuel (nodes c) w idx j)) as Hj.
  { intros j Hj. rewrite Hcs, Hch in Hj. split; [done|]. destruct Hj as (b & Hj & Hp).
    apply (IH j b Hj). pose proof (child_below i j a b Hi Hj Hp). lia. }
  split.
  - apply NoDup_app. split_and!; [|intros k|apply NoDup_indices_at].
    + apply NoDup_concat_fmap; [by rewrite Hcs|intros j ?; by apply Hj|].
      intros x y k Hx Hy Hkx Hky. destruct (Hj x Hx) as (Hcx & _ & Hbx), (Hj y Hy) as (Hcy & _ & Hby).
      apply Hbx in Hkx as (d & ? & E1). apply Hby in Hky as (d' & ? & E2). assert (d' = d) as -> by congruence.
      by eapply siblings_disjoint.
    + intros (x & Hx & Hk)%elem_of_concat_fmap. destruct (Hj x Hx) as ((b & Hxb & Hxp) & _ & Hbx).
      apply Hbx in Hk as (d & Hd & E1). rewrite elem_of_indices_at, E1. intros [= ->].
      pose proof (ok_parent_shorter _ _ _ A (inv_tree c A Hinv) x b i a Hxb Hxp Hi).
      destruct (anc_prefix _ _ _ A (inv_tree c A Hinv) x i b a Hd Hxb Hi) as (?%prefix_length & _). lia.
  - intros k. rewrite elem_of_app, elem_of_concat_fmap, elem_of_indices_at. split.
    + intros [(x & Hx & Hk)|Hk]; [|exists i; split; [constructor|done]].
      destruct (Hj x Hx) as (Hcx & _ & Hbx). apply Hbx in Hk as (d & Hd & E). exists d. split; [|done].
      by eapply rtc_l.
    + intros (d & [->|(x & Hx & Hd)]%anc_inv & E); [by right|left]. exists x.
      assert (x ∈ cs) as Hin by (by rewrite Hcs, Hch). split; [done|]. apply (Hj x Hin). by exists d.
Qed.

Lemma block_length i l k : block i l → block i k → length l = length k.
Proof.
  intros [Hl El] [Hk Ek]. apply Permutation_length, NoDup_Permutation; [done..|].
  intros x. by rewrite El, Ek.
Qed.

Lemma dfs_weight fuel w i : zlen (append_dfs fuel (nodes c) w idx i) = subtree_weight fuel (nodes c) own i.
Proof.
  revert i. induction fuel as [|fuel IH]; intros i; cbn [append_dfs subtree_weight]; [done|].
  rewrite zlen_app, zlen_concat, <- list_fmap_compose.
  rewrite (py_sorted_Permutation _ (child_ids (nodes c) i)), Z.add_comm. f_equal. f_equal.
  apply list_fmap_ext. intros ? j _. apply IH.
Qed.

(** The traversal of a subtree lists it in one piece. *)
Lemma dfs_contiguous fuel w i a x :
  A !! i = Some a → (below (length (a_path a)) ≤ fuel)%nat → anc A i x →
  ∃ f pre post, append_dfs fuel (nodes c) w idx i = pre ++ append_dfs f (nodes c) w idx x ++ post ∧
    ∀ b, A !! x = Some b → (below (length (a_path b)) ≤ f)%nat.
Proof.
  revert i a. induction fuel as [|fuel IH]; intros i a Hi Hb Hx.
  { apply anc_inv in Hx as [->|(j & Hj & _)]; [|by eapply no_child_at_0 in Hj].
    exists 0%nat, [], []. rewrite app_nil_r. split; [done|]. intros b Hb'. by same_lookup. }
  apply anc_inv in Hx as [->|(j & Hj & Hjx)].
  { exists (S fuel), [], []. rewrite app_nil_r. split; [done|]. intros b Hb'. by same_lookup. }
  destruct (child_ids_spec i a Hi) as [_ Hch]. pose proof Hj as (b & Hjb & Hp).
  pose proof (child_below i j a b Hi Hjb Hp).
  destruct (IH j b Hjb ltac:(lia) Hjx) as (f & pre & post & E & Hf). cbn [append_dfs].
  set (cs := py_sorted _ (child_ids (nodes c) i)).
  assert (j ∈ cs) as (l1 & l2 & ->)%list_elem_of_split by (unfold cs; by rewrite py_sorted_Permutation, Hch).
  rewrite fmap_app, fmap_cons, concat_app. cbn [concat]. rewrite E.
  eexists f, (concat _ ++ pre), (post ++ concat _ ++ idx i). split; [|done]. by rewrite <- !app_assoc.
Qed.
(** The block of [x] comes before the block of [y] in [l] and is not smaller. *)
Definition heavier_first (x y : nat) (l : list nat) : Prop :=
  ∃ pre bx mid by_ post, l = pre ++ bx ++ mid ++ by_ ++ post ∧ block x bx ∧ block y by_ ∧
    (length by_ ≤ length bx)%nat.

Lemma heavier_first_app x y pre l post : heavier_first x y l → heavier_first x y (pre ++ l ++ post).
Proof.
  intros (l1 & bx & l2 & by_ & l3 & -> & H). exists (pre ++ l1), bx, l2, by_, (l3 ++ post).
  split; [|done]. by rewrite <- !app_assoc.
Qed.

Lemma child_enough fuel i a x :
  A !! i = Some a → (below (length (a_path a)) ≤ S fuel)%nat → child_of A i x →
  ∀ w, block x (append_dfs fuel (nodes c) w idx x).
Proof.
  intros Hi Hb (b & Hx & Hp) w. pose proof (child_below i x a b Hi Hx Hp). apply (dfs_block fuel w x b Hx). lia.
Qed.

Lemma dfs_siblings fuel F i a x y :
  A !! i = Some a → (below (length (a_path a)) ≤ fuel)%nat → (below (length (a_path a)) ≤ S F)%nat →
  child_of A i x → child_of A i y → x ≠ y →
  let l := append_dfs fuel (nodes c) (subtree_weight F (nodes c) own) idx i in
  heavier_first x y l ∨ heavier_first y x l.
Proof.
  intros Hi Hb HF Hx Hy Hne. destruct fuel as [|fuel]; [by eapply no_child_at_0 in Hx|]. cbv zeta. cbn [append_dfs].
  destruct (child_ids_spec i a Hi) as [_ Hch]. set (w := subtree_weight F (nodes c) own).
  assert (∀ z, child_of A i z → w z = zlen (append_dfs fuel (nodes c) w idx z)) as Hw.
  { intros z Hz. unfold w. rewrite <- (dfs_weight F w z). unfold zlen. f_equal.
    by eapply block_length; eapply child_enough. }
  assert (∀ l1 l2 l3 u v, child_of A i u → child_of A i v → le_by (λ j, - w j) u v = true →
    heavier_first u v (concat (append_dfs fuel (nodes c) w idx <$> l1 ++ u :: l2 ++ v :: l3) ++ idx i)) as Hcase.
  { intros l1 l2 l3 u v Hu Hv Hle. rewrite fmap_app, fmap_cons, fmap_app, fmap_cons, concat_app. cbn [concat].
    rewrite concat_app. cbn [concat]. rewrite <- !app_assoc.
    eexists _, (append_dfs fuel (nodes c) w idx u), _, (append_dfs fuel (nodes c) w idx v), _.
    split; [done|]. split; [by eapply child_enough|]. split; [by eapply child_enough|].
    unfold le_by in Hle. rewrite Z.leb_le, (Hw u Hu), (Hw v Hv) in Hle. unfold zlen in Hle. lia. }
  destruct (sorted_split (λ u v, le_by (λ j, - w j) u v = true) (py_sorted (le_by (λ j, - w j)) (child_ids (nodes c) i)) x y)
    as [(l1 & l2 & l3 & -> & Hle)|(l1 & l2 & l3 & -> & Hle)];
    [apply py_sorted_sorted, le_by_order|by rewrite py_sorted_Permutation, Hch..|done|left|right]; by apply Hcase.
Qed.

(** ** The whole order *)

Definition in_tree (h : option nat) : Prop := ∃ i, h = Some i ∧ is_Some (A !! i).
Hypothesis Hlive : Forall in_tree handles.

Lemma enough_fuel : ∃ r, A !! root_node c = Some r ∧ (below (length (a_path r)) < base.size (nodes c))%nat.
Proof.
  destruct (to_root _ _ _ A (inv_tree c A Hinv)) as (r & Hr & _). exists r. split; [done|].
  eapply Nat.lt_le_trans; [|apply (inv_size c A Hinv)]. unfold below. apply map_subset_size, map_subset_alt. split.
  - apply map_filter_subseteq.
  - exists (root_node c). split; [|by exists r].
    apply map_lookup_filter_None. right. intros d Hd. cbn. same_lookup. lia.
Qed.

Lemma dfs_order_block : block (root_node c) (dfs_weight_order c handles).
Proof. destruct enough_fuel as (r & Hr & Hb). eapply dfs_block; [done|lia]. Qed.

Lemma dfs_order_Permutation : dfs_weight_order c handles ≡ₚ seq 0 (length handles).
Proof.
  destruct dfs_order_block as [Hnd Hin]. apply NoDup_Permutation; [done|apply NoDup_seq|].
  intros k. rewrite Hin, elem_of_seq. split.
  - intros (j & _ & Hk%lookup_lt_Some). lia.
  - intros [_ Hk]. destruct (lookup_lt_is_Some_2 handles k Hk) as [h Hh].
    destruct (Forall_lookup_1 _ _ _ _ Hlive Hh) as (i & -> & b & Hb). exists i. split; [|done].
    exact (anc_root _ _ _ A (inv_tree c A Hinv) i b Hb).
Qed.
End dfs.

Lemma omap_lookup_seq {A} (l k : list A) :
  omap (λ i, (k ++ l) !! i) (seq (length k) (length l)) = l.
Proof.
  revert k. induction l as [|x l IH]; intros k; [done|]. cbn [length seq]. cbn [omap list_omap].
  rewrite list_lookup_middle by done. f_equal. specialize (IH (k ++ [x])).
  rewrite <- app_assoc, length_app, Nat.add_1_r in IH. exact IH.
Qed.

Lemma omap_Permutation {A B} (f : A → option B) l k : l ≡ₚ k → omap f l ≡ₚ omap f k.
Proof.
  induction 1 as [|x l k _ IH|x y l|? ? ? _ IH1 _ IH2]; cbn; [done| | |by etrans].
  - destruct (f x); by rewrite IH.
  - destruct (f x), (f y); try done. apply Permutation_swap.
Qed.

Lemma sort_by_dfs_weight_Permutation c A queue :
  Inv c A → Forall (in_tree A) ((λ q, last_node (base (sreq q))) <$> queue) →
  sort_by_dfs_weight c queue ≡ₚ queue.
Proof.
  intros Hinv Hl. unfold sort_by_dfs_weight. rewrite (omap_Permutation _ _ _ (dfs_order_Permutation c A _ Hinv Hl)).
  rewrite length_fmap. exact (eq_ind_r (λ l, l ≡ₚ queue) (reflexivity _) (omap_lookup_seq queue [])).
Qed.

(** C25: the depth-first order keeps related requests together.  When every waiting
    request points at a node of the tree, the order lists each of them exactly once;
    the requests at or below a node of the tree stand in one contiguous block; and
    of two children of a node the block that comes first is the one with at least
    as many requests. *)
Theorem dfs_order_groups_subtrees c A (handles : list (option nat)) :
  Inv c A → Forall (in_tree A) handles →
  let order := dfs_weight_order c handles in
  order ≡ₚ seq 0 (length handles) ∧
  (∀ i, is_Some (A !! i) → ∃ pre b post, order = pre ++ b ++ post ∧ block A handles i b) ∧
  (∀ i x y, child_of A i x → child_of A i y → x ≠ y →
     heavier_first A handles x y order ∨ heavier_first A handles y x order).
Proof.
  intros Hinv Hl order. destruct (enough_fuel c A Hinv) as (r & Hr & Hb). split; [by eapply dfs_order_Permutation|].
  assert (∀ i a, A !! i = Some a → ∃ f pre post, order = pre ++ append_dfs f (nodes c)
      (subtree_weight (base.size (nodes c)) (nodes c) (λ i, Z.of_nat (length (indices_at handles i))))
      (indices_at handles) i ++ post ∧ (below A (length (a_path a)) ≤ f)%nat) as Hsub.
  { intros i a Hi.
    destruct (dfs_contiguous c A handles Hinv (base.size (nodes c)) (subtree_weight (base.size (nodes c)) (nodes c)
      (λ i, Z.of_nat (length (indices_at handles i)))) (root_node c) r i Hr) as (f & pre & post & E & Hf); [lia| |].
    { exact (anc_root _ _ _ A (inv_tree c A Hinv) i a Hi). }
    exists f, pre, post. split; [exact E|by apply Hf]. }
  split.
  - intros i [a Hi]. destruct (Hsub i a Hi) as (f & pre & post & E & Hf). eexists pre, _, post.
    split; [exact E|]. by eapply dfs_block.
  - intros i x y Hx Hy Hne. pose proof Hx as (b & Hxb & Hp).
    destruct (child_node_ok _ _ _ A (inv_tree c A Hinv) i x b Hxb Hp) as (_ & a & Hi & _).
    destruct (Hsub i a Hi) as (f & pre & post & -> & Hf).
    destruct (dfs_siblings c A handles Hinv f (base.size (nodes c)) i a x y Hi Hf) as [?|?]; [|done..|left|right];
      try by apply heavier_first_app.
    assert (below A (length (a_path a)) ≤ base.size A)%nat by apply map_subseteq_size, map_filter_subseteq.
    pose proof (inv_size c A Hinv). lia.
Qed.

Lemma dfs_order_groups_subtrees_witness :
  let handles := [Some 1; Some 3; Some 3; Some 0; Some 2]%nat in
  ∃ A, Inv Demo.warm A ∧ Forall (in_tree A) handles ∧
    dfs_weight_order Demo.warm handles ≡ₚ seq 0 5 ∧
    dfs_weight_order Demo.warm handles = [1; 2; 0; 4; 3]%nat.
Proof.
  intros handles. destruct Demo.warm_inv as (A & HA & _). exists A.
  assert (∀ i j, is_Some (A !! i) → bool_decide (j ∈ child_ids (nodes Demo.warm) i) = true → is_Some (A !! j)) as Hstep.
  { intros i j [a Hi] Hj%bool_decide_eq_true. destruct (child_ids_spec Demo.warm A HA i a Hi) as [_ Hch].
    apply Hch in Hj as (b & Hb & _). by exists b. }
  assert (is_Some (A !! 0%nat)) as H0.
  { destruct (to_root _ _ _ A (inv_tree Demo.warm A HA)) as (r & Hr & _). by exists r. }
  assert (is_Some (A !! 2%nat)) as H2 by (apply (Hstep 0%nat); [done|vm_compute; reflexivity]).
  assert (Forall (in_tree A) handles) as Hl.
  { unfold handles. repeat (apply Forall_cons; split; [eexists; split; [reflexivity|]|]); try done.
    all: apply (Hstep 2%nat); [done|vm_compute; reflexivity]. }
  split; [exact HA|]. split; [exact Hl|].
  split; [|vm_compute; reflexivity].
  exact (proj1 (dfs_order_groups_subtrees Demo.warm A handles HA Hl)).
Defined.
