(* ===== verification/PolicyTheorems.v ===== *)
(** * What the scheduling policy promises

    In-batch prefix caching against its reference definition on token lists, and
    the orders of the waiting queue. *)

From S2P Require Import Prelude PyFloat PySort PrefillDelayer PrefillAdder RadixKey PrefixTree TreeNode.
From S2P Require Import Allocator ReqPool Events RadixCache RadixInv RadixEvents RadixWalk RadixInsert.
From S2P Require Import RadixTheorems SchedulePolicy DfsOrder.

(** ** The reference *)

Definition ns_of (q : QReq) : option string * option string := namespace (lookup_key q).

(** The longest prefix a request shares with an entry of the same namespace. *)
Definition shared (q : QReq) (e : (option string * option string) * list Z) : nat :=
  if decide (e.1 = ns_of q) then lcp e.2 (prefix_ids q) else 0%nat.
Definition best_shared (seen : list ((option string * option string) * list Z)) (q : QReq) : nat :=
  foldr Nat.max 0%nat ((λ e, shared q e) <$> seen).

(** The requests to put off: a request with a small match in the cache that shares
    a long prefix with an earlier one that had a small match too and was not put off.
    Only such requests enter [seen]. *)
Fixpoint in_batch `{PolicySettings} (seen : list ((option string * option string) * list Z))
    (qs : list QReq) : list string :=
  match qs with
  | [] => []
  | q :: qs =>
      if prefix_len (sreq q) <=? IN_BATCH_PREFIX_CACHING_CHECK_THRESHOLD then
        let n := if RADIX_FORCE_MISS then 0 else Z.of_nat (best_shared seen q) in
        if IN_BATCH_PREFIX_CACHING_DEPRIORITIZE_THRESHOLD <=? n then rid q :: in_batch seen qs
        else in_batch (seen ++ [(ns_of q, prefix_ids q)]) qs
      else in_batch seen qs
  end.

Lemma shared_prefix q e n :
  e.1 = ns_of q → (n ≤ shared q e)%nat ↔
  (n ≤ length (prefix_ids q))%nat ∧ take n (Tok <$> prefix_ids q) `prefix_of` (Tok <$> e.2).
Proof.
  intros He. unfold shared. rewrite decide_True by done. rewrite <- lcp_Tok, lcp_ge, !length_fmap. split.
  - intros (H1 & H2 & H3). split; [done|]. rewrite <- H3. apply prefix_take.
  - intros (H1 & k & Hk). assert (n ≤ length e.2)%nat.
    { apply (f_equal length) in Hk. rewrite length_app, length_take, !length_fmap in Hk. lia. }
    split_and!; [done|done|]. rewrite Hk. apply take_app_length'. rewrite length_take, length_fmap. lia.
Qed.

Lemma best_shared_ge seen q n :
  (0 < n)%nat → (n ≤ best_shared seen q)%nat ↔ ∃ e, e ∈ seen ∧ (n ≤ shared q e)%nat.
Proof.
  intros Hn. unfold best_shared. induction seen as [|e seen IH]; cbn.
  - split; [lia|]. intros (e & He & _). by apply not_elem_of_nil in He.
  - split.
    + intros Hm. destruct (Nat.max_spec (shared q e) (foldr Nat.max 0%nat ((λ e, shared q e) <$> seen))) as [[_ Hx]|[_ Hx]];
        rewrite Hx in Hm; [|exists e; split; [left|done]].
      apply IH in Hm as (e' & ? & ?). exists e'. split; [by right|done].
    + intros (e' & He & Hs). apply elem_of_cons in He as [->|He]; [lia|].
      assert (n ≤ foldr Nat.max 0%nat ((λ e, shared q e) <$> seen))%nat by (apply IH; eauto). lia.
Qed.

(** ** The simulated tree *)

Section simulated.
Context `{Clock} `{HashLaws}.

(** The tree of the waiting queue caches the prefixes of the entries seen. *)
Definition simulates (w : RadixCache) (seen : list ((option string * option string) * list Z)) : Prop :=
  disable w = false ∧ cpage_size w = 1 ∧ is_eagle w = false ∧
  ∃ A, Inv w A ∧ ∀ ns us, (∃ vs, cached (root_node w) A ns us vs) ↔
    us = [] ∨ ∃ e, e ∈ seen ∧ e.1 = ns ∧ us `prefix_of` (Tok <$> e.2).

Lemma lookup_user c q : user_key c (lookup_key q).
Proof. split_and!; [done|apply or_None_idem|done]. Qed.

Lemma lookup_units w q :
  cpage_size w = 1 → is_eagle w = false → query_units w (lookup_key q) = Tok <$> prefix_ids q.
Proof.
  intros Hp He. unfold query_units, maybe_to_bigram_view, page_aligned. rewrite He, Hp. cbn.
  unfold units. cbn. f_equal. unfold raw_token_ids, raw_len. cbn. by rewrite Z.eqb_refl.
Qed.

Lemma reset_simulates w :
  disable w = false → cpage_size w = 1 → is_eagle w = false → rec_page_size (kv_events w) = 1 →
  (∀ i, is_Some (nodes w !! i) → (i < counter w)%nat) → simulates (reset w) [].
Proof.
  intros Hd Hp He Hr Hb.
  destruct (reset_spec w) as [Hinv Hroot]; [lia|congruence|done|].
  split_and!; [done|done|done|]. exists (root_tree (counter w)). split; [done|].
  intros ns us. rewrite Hroot. split.
  - intros (vs & i & a & (-> & (_ & _ & _ & _ & Hpath & _) & _)%root_tree_lookup & _ & Hpre & _). left.
    rewrite Hpath in Hpre. by apply prefix_nil_inv in Hpre.
  - intros [->|(e & Hn%not_elem_of_nil & _)]; [|done].
    exists [], (counter w), (mkA None (RadixKey_init [] None false None None) [] 1 0 [] []).
    split_and!; [apply lookup_singleton_eq|done|apply prefix_nil|done].
Qed.

(** A lookup in the simulated tree finds the longest shared prefix. *)
Lemma simulated_match w seen q :
  simulates w seen →
  ∃ m w', match_prefix (lookup_key q) w = Ok (m, w') ∧ simulates w' seen ∧
    zlen (device_indices m) = Z.of_nat (best_shared seen q).
Proof.
  intros (Hd & Hp & He & A & Hinv & Hc). pose proof (lookup_units w q Hp He) as Hu.
  destruct (match_prefix_spec w A (lookup_key q) Hinv Hd (lookup_user w q))
    as (m & w' & A' & a & Hrun & Hinv' & Hst & Hsame & Hw & Hs & Hlong).
  destruct (stable_config w w' Hst) as (Hcfg & Eps & Ee & Er & _). destruct (config_fields w w' Hcfg) as (Ed & _).
  rewrite Hu in *. fold (ns_of q) in *.
  exists m, w'. split; [done|]. split.
  { split_and!; [congruence..|]. exists A'. split; [done|]. intros ns us. rewrite Er, <- Hc.
    split; intros (vs & Hv); exists vs; by apply Hsame. }
  destruct Hw as (Hi & Hns & Hm & Hpath).
  set (n := zlen (device_indices m)) in *.
  assert (cached (root_node w) A (ns_of q) (take (Z.to_nat n) (Tok <$> prefix_ids q))
            (take (Z.to_nat n) (a_slots a))) as Hcached.
  { apply Hsame. exists (last_device_node m), a. split_and!; [done|done|by rewrite Hpath|].
    rewrite length_take, length_fmap. f_equal. unfold zlen in Hm. rewrite length_fmap in Hm. lia. }
  assert (Z.of_nat (best_shared seen q) ≤ n) as Hge.
  { destruct (decide (best_shared seen q = 0)%nat) as [->|Hne]; [lia|].
    destruct (proj1 (best_shared_ge seen q (best_shared seen q) ltac:(lia)) (le_n _)) as (e & Hin & Hsh).
    destruct (decide (e.1 = ns_of q)) as [Heq|Hneq]; [|unfold shared in Hsh; rewrite decide_False in Hsh by done; lia].
    apply shared_prefix in Hsh as [Hlen Hpre]; [|done].
    destruct (proj2 (Hc (ns_of q) (take (best_shared seen q) (Tok <$> prefix_ids q)))) as (vs & Hv); [right; by exists e|].
    apply (Hlong _ vs); [by rewrite Hp; apply Z.divide_1_l| |by rewrite Nat2Z.id].
    unfold zlen. rewrite length_fmap. lia. }
  destruct (decide (n ≤ 0)) as [|Hpos]; [lia|].
  destruct (proj1 (Hc (ns_of q) _) (ex_intro _ _ Hcached)) as [Hnil|(e & Hin & Heq & Hpre)].
  { apply (f_equal length) in Hnil. rewrite length_take, length_fmap in Hnil. unfold zlen in Hm.
    rewrite length_fmap in Hm. cbn in Hnil. lia. }
  enough (Z.to_nat n ≤ best_shared seen q)%nat by lia.
  apply best_shared_ge; [lia|]. exists e. split; [done|]. apply shared_prefix; [done|]. split; [|done].
  unfold zlen in Hm. rewrite length_fmap in Hm. lia.
Qed.

Lemma simulated_insert w seen q :
  simulates w seen →
  ∃ n i w', insert (mkInsertParams (lookup_key q) (Some (replicate (length (prefix_ids q)) 0)) false None) w
      = Ok (n, i, w') ∧ simulates w' (seen ++ [(ns_of q, prefix_ids q)]).
Proof.
  intros (Hd & Hp & He & A & Hinv & Hc). pose proof (lookup_units w q Hp He) as Hu.
  set (p := mkInsertParams _ _ _ _).
  destruct (insert_spec w A p Hinv Hd (lookup_user w q))
    as (n & i & w' & A' & a & es & Hrun & Hinv' & Hcfg & _ & _ & Hins).
  { intros v [= <-]. cbn [p ins_key]. rewrite Hu. unfold zlen. rewrite length_fmap, length_replicate. lia. }
  destruct (config_fields w w' Hcfg) as (Ed & Eps & Ee & Er & _).
  exists n, (Some i), w'. split; [done|]. split_and!; [congruence..|]. exists A'. split; [done|].
  intros ns us. rewrite Er. pose proof (is_cached _ _ _ _ _ _ _ _ _ _ Hins) as Hic.
  cbn [p ins_key] in Hic. rewrite Hu in Hic. fold (ns_of q) in Hic. split.
  - intros (vs & [Hv|(-> & Hpre & _)]%Hic).
    + destruct (proj1 (Hc ns us) (ex_intro _ _ Hv)) as [->|(e & He' & Hr)]; [by left|right].
      exists e. split; [|done]. apply elem_of_app. by left.
    + right. exists (ns_of q, prefix_ids q). split_and!; [|done|done]. apply elem_of_app. right. left.
  - intros [->|(e & [Hin|Hin]%elem_of_app & <- & Hpre)].
    + destruct (proj2 (Hc ns [])) as (vs & Hv); [by left|]. exists vs. apply Hic. by left.
    + destruct (proj2 (Hc e.1 us)) as (vs & Hv); [right; by exists e|]. exists vs. apply Hic. by left.
    + apply list_elem_of_singleton in Hin as ->. eexists. apply Hic. right. by split_and!.
Qed.
End simulated.

(** ** The loop over the waiting queue *)

(** A request without its match. *)
Definition plain (q : QReq) : QReq :=
  let r := sreq q in
  let b := base r in
  mkQReq (rid q)
    (mkSReq (obj r)
       (mkReq (origin_input_ids b) (output_ids b) (full_untruncated_fill_ids b) (fill_is_origin b) (extend_range b) (req_extra_key b) (req_cache_salt b) (req_priority b)
          (reasoning_tokens b) [] None (skip_radix_cache_insert b) (kv b))
       (max_new_tokens r) (ignore_eos r) (PrefillAdder.priority r) (wait_queue_entry_time r) None 0 0 0
       (storage_hit_length r) (retracted_stain r) (holds_mamba r) (dllm_incomplete_ids r) (is_finished r)
       (swa_uuid_for_lock r))
    (routing_key q) 0 (return_logprob q) (logprob_start_len q).

Lemma zero_match_len c m : zlen (device_indices (zero_match_result c m)) = 0.
Proof. cbn [zero_match_result device_indices]. by rewrite slice_to_take. Qed.

Section loop.
Context `{Clock} `{HashLaws} `{PolicySettings}.
Context (c0 : RadixCache) (A0 : atree).
Let root := root_node c0.

(** The request after its match: its prefix is the longest one cached in [c0]. *)
Record matched (q q' : QReq) : Prop := {
  mt_plain : plain q' = plain q;
  mt_ids : prefix_ids q' = prefix_ids q;
  mt_ns : ns_of q' = ns_of q;
  mt_miss : RADIX_FORCE_MISS = true → prefix_len (sreq q') = 0;
  mt_hit : RADIX_FORCE_MISS = false →
    let us := query_units c0 (lookup_key q) in
    cached root A0 (ns_of q) (take (Z.to_nat (prefix_len (sreq q'))) us) (prefix_indices (base (sreq q'))) ∧
    longest (cpage_size c0) root A0 (ns_of q) us (prefix_len (sreq q'));
}.

(** The cache during the loop: the tree may be split, nothing is added, and the
    requests matched so far point at nodes of the tree. *)
Definition same_cache (c : RadixCache) (qs : list QReq) : Prop :=
  disable c = false ∧ stable c = stable c0 ∧
  ∃ A, Inv c A ∧ same_contents (cpage_size c0) root A0 A ∧
    Forall (λ q, in_tree A (last_node (base (sreq q)))) qs.

Lemma query_units_config c k : config c = config c0 → query_units c k = query_units c0 k.
Proof. intros (_ & Hp & He & _)%config_fields. unfold query_units. by rewrite Hp, He. Qed.

Lemma match_prefix_for_req_spec c q qs :
  same_cache c qs → ∃ q' c', match_prefix_for_req q c = Ok (q', c') ∧ same_cache c' (qs ++ [q']) ∧ matched q q'.
Proof.
  intros (Hd & Hst0 & A & Hinv & Hc & Hl). destruct (stable_config c0 c Hst0) as [Hcfg _].
  destruct (config_fields c0 c Hcfg) as (_ & Ep & _ & Er & _).
  destruct (match_prefix_spec c A (lookup_key q) Hinv Hd (lookup_user c q))
    as (m & c' & A' & a & Hrun & Hinv' & Hst & Hsame & Hw & Hs & Hlong).
  destruct (stable_config c c' Hst) as (Hcfg' & _). destruct (config_fields c c' Hcfg') as (Ed & _ & _ & Er' & _).
  rewrite (query_units_config c _ Hcfg) in Hw, Hlong. rewrite Er in Hsame, Hw, Hlong. rewrite Ep in Hsame, Hlong.
  unfold match_prefix_for_req, match_or_miss. rewrite Hrun. cbn [mbind res_bind].
  eexists _, _. split; [done|]. split.
  { split_and!; [congruence..|]. exists A'. split; [done|]. split; [by etrans|].
    apply Forall_app. split; [|apply Forall_singleton].
    - eapply Forall_impl; [exact Hl|]. intros x (i & -> & b & Hb).
      destruct (sc_extends _ _ _ _ Hsame i b Hb) as (b' & Hb' & _). exists i. split; [done|by exists b'].
    - eexists. split; [done|]. destruct RADIX_FORCE_MISS; cbn [zero_match_result last_device_node].
      + destruct (to_root _ _ _ A' (inv_tree c' A' Hinv')) as (r & Hr & _). by exists r.
      + exists a. apply Hw. }
  constructor; try done; intros Hmiss; rewrite Hmiss; [apply (zero_match_len c' m)|].
  intros us. fold us in Hw, Hlong. destruct Hw as (Hi & Hns & Hm & Hpath). unfold prefix_len. cbn. split.
  - apply (sc_cached _ _ _ _ Hc), Hsame. exists (last_device_node m), a. split_and!; [done|done|by rewrite Hpath|].
    rewrite Hs, length_take. unfold zlen in *. rewrite take_ge; [done|lia].
  - intros n vs Hdv Hn Hv. apply (Hlong n vs Hdv Hn). by apply (sc_cached _ _ _ _ Hc).
Qed.

Lemma prefix_match_step_spec q qs dep c w seen :
  same_cache c qs → simulates w seen →
  ∃ q' d c' w' seen', prefix_match_step q (qs, dep, c, w) = Ok (qs ++ [q'], dep ++ d, c', w') ∧
    same_cache c' (qs ++ [q']) ∧ matched q q' ∧ simulates w' seen' ∧
    ∀ qs2, in_batch seen (q' :: qs2) = d ++ in_batch seen' qs2.
Proof.
  intros Hc Hw. unfold prefix_match_step.
  destruct (match_prefix_for_req_spec c q qs Hc) as (q' & c' & -> & Hc' & Hm). cbn [mbind res_bind].
  exists q'. cbn [in_batch]. destruct (prefix_len (sreq q') <=? _).
  2:{ exists [], c', w, seen. by rewrite app_nil_r. }
  destruct (simulated_match w seen q' Hw) as (m & w1 & Hrun & Hw1 & Hlen).
  unfold match_or_miss. rewrite Hrun. cbn [mbind res_bind].
  set (n := if RADIX_FORCE_MISS then 0 else Z.of_nat (best_shared seen q')).
  assert (zlen (device_indices (if RADIX_FORCE_MISS then zero_match_result w1 m else m)) = n) as ->.
  { unfold n. destruct RADIX_FORCE_MISS; [apply zero_match_len|done]. }
  destruct (_ <=? n); cbn [mbind res_bind]; [by exists [rid q'], c', w1, seen|].
  destruct (simulated_insert w1 seen q' Hw1) as (k & i & w2 & -> & Hw2). cbn [mbind res_bind].
  exists [], c', w2, (seen ++ [(ns_of q', prefix_ids q')]). by rewrite app_nil_r.
Qed.

Lemma prefix_matches_loop queue qs dep c w seen :
  same_cache c qs → simulates w seen →
  ∃ qs2 c' w' seen', for_each prefix_match_step queue (qs, dep, c, w) =
      Ok (qs ++ qs2, dep ++ in_batch seen qs2, c', w') ∧
    same_cache c' (qs ++ qs2) ∧ simulates w' seen' ∧ Forall2 matched queue qs2.
Proof.
  revert qs dep c w seen. induction queue as [|q queue IH]; intros qs dep c w seen Hc Hw.
  { exists [], c, w, seen. cbn. rewrite !app_nil_r. by split_and!. }
  destruct (prefix_match_step_spec q qs dep c w seen Hc Hw)
    as (q' & d & c' & w' & seen' & Hrun & Hc' & Hm & Hw' & Hin).
  destruct (IH (qs ++ [q']) (dep ++ d) c' w' seen' Hc' Hw') as (qs2 & c2 & w2 & seen2 & Hl & Hc2 & Hw2 & Hf).
  exists (q' :: qs2), c2, w2, seen2. cbn [for_each]. rewrite Hrun. cbn [mbind res_bind].
  rewrite Hl, Hin, <- !app_assoc. rewrite <- app_assoc in Hc2. by split_and!; [|done|done|constructor].
Qed.

Lemma compute_prefix_matches_spec queue w seen :
  Inv c0 A0 → disable c0 = false → simulates w seen →
  ∃ qs c' w' seen', compute_prefix_matches queue c0 w = Ok (qs, in_batch [] qs, c', w') ∧
    same_cache c' qs ∧ simulates w' seen' ∧ Forall2 matched queue qs.
Proof.
  intros Hinv Hd (Hwd & Hwp & Hwe & B & HB & _).
  destruct (prefix_matches_loop queue [] [] c0 (reset w) []) as (qs & c' & w' & seen' & H'); [| |by exists qs, c', w', seen'].
  - split_and!; [done|done|]. exists A0. by split_and!.
  - apply reset_simulates; [done|done|done|rewrite (inv_rec w B HB); done|apply (inv_bound w B HB)].
Qed.
End loop.

(** The tree a policy object starts with. *)
Lemma create_simulated_simulates `{Clock} `{HashLaws} al : ∃ w, create_simulated al = Ok w ∧ simulates w [].
Proof.
  unfold create_simulated, RadixCache_init.
  assert (get_eviction_strategy (lower "lru") = Ok LRUStrategy) as E by reflexivity.
  cbn [p_eviction_policy]. rewrite E. cbn [mbind res_bind]. eexists. split; [done|].
  apply reset_simulates; try done. intros i [n Hn]. cbn [nodes] in Hn. by rewrite lookup_empty in Hn.
Qed.

(** ** Orders *)

#[export] Instance lpm_order d : PyOrder (lpm_le d).
Proof.
  split; unfold lpm_le; intros x y; [|intros z]; repeat case_bool_decide; cbn [negb orb andb];
    rewrite ?Z.leb_le; try done; try (by left); try (by right); lia.
Qed.

#[export] Instance bool_filter_proper {A} (P : A → bool) : Proper ((≡ₚ) ==> (≡ₚ)) (List.filter P).
Proof.
  induction 1 as [|x l k _ IH|x y l|? ? ? _ IH1 _ IH2]; cbn; [done| | |by etrans].
  - destruct (P x); by rewrite IH.
  - destruct (P x), (P y); try done. apply Permutation_swap.
Qed.

Lemma filter_filter {A} (P Q : A → bool) l : List.filter P (List.filter Q l) = List.filter (λ x, Q x && P x) l.
Proof.
  induction l as [|x l IH]; cbn; [done|]. destruct (Q x); cbn; [|done]. by destruct (P x); rewrite IH.
Qed.

Section lpm.
Context (d : list string).
Let late (q : QReq) : bool := bool_decide (rid q ∈ d).

Lemma lpm_split l :
  StronglySorted (λ x y, lpm_le d x y = true) l →
  l = List.filter (λ q, negb (late q)) l ++ List.filter late l ∧
  StronglySorted (λ x y, num_matched_prefix_tokens y ≤ num_matched_prefix_tokens x)
    (List.filter (λ q, negb (late q)) l).
Proof.
  induction 1 as [|x l Hs [IHe IHs] Hx]; [by repeat constructor|]. cbn [List.filter].
  destruct (late x) eqn:Hlx; cbn [negb].
  - assert (List.filter (λ q, negb (late q)) l = []) as E.
    { clear IHe IHs Hs. induction Hx as [|y l Hy _ IH]; [done|]. cbn [List.filter].
      unfold lpm_le in Hy. fold (late x) (late y) in Hy. rewrite Hlx in Hy. destruct (late y); [done|done]. }
    rewrite E in IHe |- *. split; [|constructor]. cbn. by f_equal.
  - split; [cbn; by f_equal|]. constructor; [done|]. apply Forall_forall. intros y Hy%list_elem_of_In%filter_In.
    destruct Hy as [Hin Hl]. apply list_elem_of_In in Hin. eapply Forall_forall in Hx; [|exact Hin].
    unfold lpm_le in Hx. fold (late x) (late y) in Hx. rewrite Hlx in Hx. destruct (late y); [done|].
    by apply Z.leb_le in Hx.
Qed.

Lemma filter_same_key {A} (le : A → A → bool) `{PyOrder A le} (P : A → bool) l :
  (∀ x, P x = true → ∀ y, P y = same_key le x y) →
  List.filter P (py_sorted le l) = List.filter P l.
Proof.
  intros HP. destruct (existsb P l) eqn:Hex.
  - apply existsb_exists in Hex as (z & _ & Hz). pose proof (py_sorted_stable le z l) as Hst.
    rewrite !(filter_ext P (same_key le z)) by (apply HP; done). done.
  - assert (∀ k, k ≡ₚ l → List.filter P k = []) as Hnil.
    { intros k Hk. destruct (List.filter P k) as [|x m] eqn:E; [done|].
      assert (In x (List.filter P k)) as [Hin Hx]%filter_In by (rewrite E; by left).
      apply list_elem_of_In in Hin. rewrite Hk in Hin. apply list_elem_of_In in Hin.
      assert (existsb P l = true) by (apply existsb_exists; eauto). congruence. }
    rewrite !Hnil; [done|done|apply py_sorted_Permutation].
Qed.
End lpm.

(** A small queue on the warm cache. *)
Module PolicyDemo.
Import (hints) Demo.

#[export] Instance settings0 : PolicySettings := {|
  IN_BATCH_PREFIX_CACHING_CHECK_THRESHOLD := 2;
  IN_BATCH_PREFIX_CACHING_DEPRIORITIZE_THRESHOLD := 2;
  RADIX_FORCE_MISS := false;
|}.

Definition waiting (name : string) (ids : list Z) : QReq :=
  mkQReq name (mkSReq 0 (mkReq ids [] ids false None None None None 0 [] None false kv_empty)
                 16 false 0 0 None 0 0 0 0 false false false false None) None 0 false 0.
Definition queue : list QReq :=
  [waiting "a" [7; 8; 1]; waiting "b" [7; 8; 2]; waiting "c" [1; 2; 3; 9]].

Definition tree : RadixCache := match create_simulated Demo.al0 with Ok w => w | Err _ => Demo.fresh end.
Lemma tree_simulates : simulates tree [].
Proof. destruct (create_simulated_simulates Demo.al0) as (w & Hrun & Hw). unfold tree. by rewrite Hrun. Qed.

Definition names (r : res (list QReq * RadixCache * RadixCache)) : list string :=
  match r with Ok (qs, _, _) => rid <$> qs | Err _ => [] end.
End PolicyDemo.
Import (hints) Demo PolicyDemo.

(** C22: in-batch prefix caching computes its reference definition.  On a well-formed
    cache, and whatever the tree of the waiting queue held before, the loop over the
    queue returns; every request comes out with the row cached for the longest
    prefix of its tokens (an empty one when misses are forced); and the requests put
    off are exactly those the reference [in_batch] picks on plain token lists: the match
    in the cache is at most the check threshold, and a prefix of at least the
    deprioritize threshold is shared, in the same namespace, with an earlier request
    whose own match was at most the check threshold and which was not put off (earlier
    requests with a larger match are never compared with; nothing counts as shared when
    misses are forced).  Both thresholds count as
    reached, where the comments beside them say less than and larger than.  The cache
    holds the same rows as before. *)
Theorem in_batch_refines_reference `{Clock} `{HashLaws} `{PolicySettings} (c : RadixCache) (A : atree)
    (w : RadixCache) seen (queue : list QReq) :
  Inv c A → disable c = false → simulates w seen →
  ∃ qs c' A' w' seen', compute_prefix_matches queue c w = Ok (qs, in_batch [] qs, c', w') ∧
    Forall2 (matched c A) queue qs ∧ Inv c' A' ∧ simulates w' seen' ∧
    ∀ ns us vs, cached (root_node c) A' ns us vs ↔ cached (root_node c) A ns us vs.
Proof.
  intros Hinv Hd Hw.
  destruct (compute_prefix_matches_spec c A queue w seen Hinv Hd Hw)
    as (qs & c' & w' & seen' & Hrun & (_ & _ & A' & HA' & Hc & _) & Hw' & Hm).
  exists qs, c', A', w', seen'. split_and!; [done..|]. apply (sc_cached _ _ _ _ Hc).
Qed.

Lemma in_batch_refines_reference_witness :
  ∃ A qs c' w', Inv Demo.warm A ∧
    compute_prefix_matches PolicyDemo.queue Demo.warm PolicyDemo.tree = Ok (qs, ["b"%string], c', w') ∧
    Forall2 (matched Demo.warm A) PolicyDemo.queue qs ∧
    (prefix_len ∘ sreq <$> qs) = [0; 0; 3].
Proof.
  destruct Demo.warm_inv as (A & HA & _).
  destruct (in_batch_refines_reference Demo.warm A PolicyDemo.tree [] PolicyDemo.queue HA eq_refl
              PolicyDemo.tree_simulates) as (qs & c' & A' & w' & seen' & Hrun & Hm & _).
  destruct (compute_prefix_matches PolicyDemo.queue Demo.warm PolicyDemo.tree) as [[[[qs0 d0] c0] w0]|] eqn:E; [|done].
  exists A, qs, c', w'. apply (inj Ok) in Hrun. injection Hrun as Hq Hdd Hc Hw. subst qs0 c0 w0.
  split; [exact HA|]. vm_compute in E. injection E as Hq Hd' _ _. subst qs d0.
  split; [reflexivity|]. split; [exact Hm|]. vm_compute. reflexivity.
Defined.

(** ** The whole of [calc_priority] *)

Lemma matched_plain `{Clock} `{HashLaws} `{PolicySettings} c A queue qs :
  Forall2 (matched c A) queue qs → plain <$> qs = plain <$> queue.
Proof. induction 1 as [|q q' l k Hm _ IH]; [done|]. rewrite !fmap_cons, IH. f_equal. apply Hm. Qed.

Lemma calc_priority_spec `{Clock} `{HashLaws} `{PolicySettings} shuffle (s : SchedulePolicy)
    (queue : list QReq) (running : option (list QReq)) (c : RadixCache) (A : atree) (w : RadixCache) seen :
  Inv c A → disable c = false → simulates w seen → (∀ l, shuffle l ≡ₚ l) →
  ∃ queue' c' w' A' seen', calc_priority shuffle s queue running c w = Ok (queue', c', w') ∧
    plain <$> queue' ≡ₚ plain <$> queue ∧ Inv c' A' ∧ stable c' = stable c ∧
    same_contents (cpage_size c) (root_node c) A A' ∧ simulates w' seen'.
Proof.
  intros Hinv Hd Hw Hsh. unfold calc_priority.
  assert (∀ queue', queue' ≡ₚ queue → ∃ q2 c' w' A' seen', Ok (queue', c, w) = Ok (q2, c', w') ∧
    plain <$> q2 ≡ₚ plain <$> queue ∧ Inv c' A' ∧ stable c' = stable c ∧
    same_contents (cpage_size c) (root_node c) A A' ∧ simulates w' seen') as Hsame.
  { intros queue' Hp. exists queue', c, w, A, seen. split; [done|]. split; [by apply fmap_Permutation|done]. }
  destruct (bool_decide (policy s = FCFS)).
  { apply Hsame. destruct (enable_priority_scheduling s); [apply py_sorted_Permutation|done]. }
  destruct (compute_prefix_matches_spec c A queue w seen Hinv Hd Hw)
    as (qs & c' & w' & seen' & Hrun & (_ & Hst & A' & HA' & Hsc & Hl) & Hw' & Hm%matched_plain).
  rewrite Hrun. cbn [mbind res_bind].
  assert (sort_by_dfs_weight c' qs ≡ₚ qs) as Hdfs.
  { apply (sort_by_dfs_weight_Permutation c' A' qs HA'). by apply Forall_fmap. }
  assert (sort_by_longest_prefix (in_batch [] qs) qs ≡ₚ qs) as Hlpm by apply py_sorted_Permutation.
  destruct (determine_active_policy s queue).
  - cbn [decide]. eexists _, c', w', A', seen'. split; [done|].
    rewrite <- Hm. split; [by apply fmap_Permutation|done].
  - cbn [decide]. eexists _, c', w', A', seen'. split; [done|].
    rewrite <- Hm. split; [by apply fmap_Permutation|done].
  - by apply Hsame.
  - apply Hsame, py_sorted_Permutation.
  - by apply Hsame.
  - apply Hsame. destruct running; [|done]. unfold sort_by_routing_key.
    destruct (existsb _ _); [apply py_sorted_Permutation|done].
Qed.

(** Ordering the queue loses and invents no request.  For every policy, with or
    without priorities, and whatever permutation the shuffle makes, [calc_priority]
    on a well-formed cache returns a queue with the same requests, in which nothing
    but the match of a request has changed; it keeps the invariant of the cache, its
    sizes and what it caches, and leaves the tree of the waiting queue usable for
    the next call. *)
Theorem calc_priority_reorders `{Clock} `{HashLaws} `{PolicySettings} shuffle (s : SchedulePolicy)
    (queue : list QReq) (running : option (list QReq)) (c : RadixCache) (A : atree) (w : RadixCache) seen :
  Inv c A → disable c = false → simulates w seen → (∀ l, shuffle l ≡ₚ l) →
  ∃ queue' c' w' A' seen', calc_priority shuffle s queue running c w = Ok (queue', c', w') ∧
    plain <$> queue' ≡ₚ plain <$> queue ∧ Inv c' A' ∧
    evictable_size_ c' = evictable_size_ c ∧ protected_size_ c' = protected_size_ c ∧
    (∀ ns us vs, cached (root_node c) A' ns us vs ↔ cached (root_node c) A ns us vs) ∧ simulates w' seen'.
Proof.
  intros Hinv Hd Hw Hsh.
  destruct (calc_priority_spec shuffle s queue running c A w seen Hinv Hd Hw Hsh)
    as (queue' & c' & w' & A' & seen' & Hrun & Hp & HA' & (_ & _ & _ & _ & _ & He & Hpr & _)%stable_config & Hsc & Hw').
  exists queue', c', w', A', seen'. split_and!; try done. apply Hsc.
Qed.

Lemma calc_priority_reorders_witness :
  let s := mkPolicy DFS_WEIGHT false false in
  ∃ queue' c' w' A', calc_priority (λ l, l) s PolicyDemo.queue None Demo.warm PolicyDemo.tree = Ok (queue', c', w') ∧
    plain <$> queue' ≡ₚ plain <$> PolicyDemo.queue ∧ Inv c' A'.
Proof.
  intros s. destruct Demo.warm_inv as (A & HA & _).
  destruct (calc_priority_reorders (λ l, l) s PolicyDemo.queue None Demo.warm A PolicyDemo.tree [] HA eq_refl
              PolicyDemo.tree_simulates (λ l, reflexivity l)) as (queue' & c' & w' & A' & seen' & Hrun & Hp & HA' & _).
  exists queue', c', w', A'. split; [exact Hrun|]. split; [exact Hp|exact HA'].
Defined.

(** Longest prefix match first.  Under the policy [lpm] (with at most 128 waiting
    requests) the new queue has two parts: first the requests that are not put off,
    by decreasing length of their match in the cache, and those with equal lengths
    in the order they waited in; then the requests the in-batch check put off, in
    the order they waited in. *)
Theorem lpm_orders_by_reuse `{Clock} `{HashLaws} `{PolicySettings} shuffle (s : SchedulePolicy)
    (queue : list QReq) (running : option (list QReq)) (c : RadixCache) (A : atree) (w : RadixCache) seen :
  Inv c A → disable c = false → simulates w seen → policy s = LPM → zlen queue ≤ 128 →
  ∃ qs first c' w', Forall2 (matched c A) queue qs ∧
    let late q := bool_decide (rid q ∈ in_batch [] qs) in
    calc_priority shuffle s queue running c w = Ok (first ++ List.filter late qs, c', w') ∧
    first ≡ₚ List.filter (λ q, negb (late q)) qs ∧
    StronglySorted (λ x y, num_matched_prefix_tokens y ≤ num_matched_prefix_tokens x) first ∧
    ∀ n, let tie q := negb (late q) && (num_matched_prefix_tokens q =? n) in
      List.filter tie first = List.filter tie qs.
Proof.
  intros Hinv Hd Hw Hp Hn.
  destruct (compute_prefix_matches_spec c A queue w seen Hinv Hd Hw)
    as (qs & c' & w' & seen' & Hrun & _ & Hw' & Hm).
  set (d := in_batch [] qs) in *. set (srt := sort_by_longest_prefix d qs).
  destruct (lpm_split d srt) as [Hsplit Hsort]; [apply py_sorted_sorted, _|].
  exists qs, (List.filter (λ q, negb (bool_decide (rid q ∈ d))) srt), c', w'. split; [done|]. cbv zeta.
  assert (List.filter (λ q, bool_decide (rid q ∈ d)) srt = List.filter (λ q, bool_decide (rid q ∈ d)) qs) as Hlate.
  { apply (filter_same_key (lpm_le d)). intros x Hx y. unfold same_key, lpm_le. rewrite Hx.
    by destruct (bool_decide (rid y ∈ d)). }
  split_and!.
  - unfold calc_priority, determine_active_policy. rewrite Hp. cbn [bool_decide decide].
    replace (zlen queue >? 128) with false by (symmetry; rewrite Z.gtb_ltb; apply Z.ltb_ge; lia).
    rewrite Hrun. cbn [mbind res_bind andb]. rewrite decide_True by done. fold d srt.
    by rewrite <- Hlate, <- Hsplit.
  - apply bool_filter_proper, py_sorted_Permutation.
  - done.
  - intros n. cbv zeta. rewrite filter_filter.
    set (tie := λ q, negb (bool_decide (rid q ∈ d)) && (num_matched_prefix_tokens q =? n)).
    transitivity (List.filter tie srt); [apply filter_ext; intros q; fold d; unfold tie; destruct (bool_decide (rid q ∈ d)), (_ =? n); reflexivity|].
    apply (filter_same_key (lpm_le d)). intros x Hx y. unfold tie in *. apply andb_true_iff in Hx as [Hx Hxn%Z.eqb_eq].
    unfold same_key, lpm_le. apply negb_true_iff in Hx. fold d in Hx |- *. rewrite Hx.
    destruct (bool_decide (rid y ∈ d)); cbn [negb andb orb]; [reflexivity|]. lia.
Qed.

Lemma lpm_orders_by_reuse_witness :
  let s := mkPolicy LPM false false in
  ∃ A qs first c' w', Inv Demo.warm A ∧ Forall2 (matched Demo.warm A) PolicyDemo.queue qs ∧
    calc_priority (λ l, l) s PolicyDemo.queue None Demo.warm PolicyDemo.tree =
      Ok (first ++ List.filter (λ q, bool_decide (rid q ∈ in_batch [] qs)) qs, c', w') ∧
    PolicyDemo.names (calc_priority (λ l, l) s PolicyDemo.queue None Demo.warm PolicyDemo.tree)
      = ["c"; "a"; "b"]%string.
Proof.
  intros s. destruct Demo.warm_inv as (A & HA & _).
  destruct (lpm_orders_by_reuse (λ l, l) s PolicyDemo.queue None Demo.warm A PolicyDemo.tree [] HA eq_refl
              PolicyDemo.tree_simulates eq_refl ltac:(done)) as (qs & first & c' & w' & Hm & Hrun & _).
  exists A, qs, first, c', w'. split; [exact HA|]. split; [exact Hm|]. split; [exact Hrun|].
  vm_compute. reflexivity.
Defined.
