(* ===== verification/Allocation.v ===== *)
(** * Allocating the slots of a batch

    [mem_cache/allocation.py] and [mem_cache/allocation_sizing.py], for a radix
    cache over a full-attention allocator: the prefill batch gets rows of the
    request table and KV slots ([alloc_for_extend]), a decode step gets one slot
    per request ([alloc_for_decode]), speculative decoding reserves whole pages
    ahead ([alloc_for_spec_decode]).  The rows are written by Triton kernels
    ([kernels/ops/memory/common.py]) or by a loop over the requests. *)

From S2P Require Import Prelude Allocator AllocKernels RadixKey TreeNode ReqPool Events RadixCache ReqCache.

(** ** The allocator's batch methods *)

(** [alloc] of the allocator, and [alloc_extend] and [alloc_decode], which the base
    class leaves to paged allocators. *)
Class BatchAllocator := {
  allocator_alloc : Z → Alloc → res (option (list Z) * Alloc);
  allocator_alloc_extend : list Z → list Z → list Z → Z → Alloc → res (option (list Z) * Alloc);
  allocator_alloc_decode : list Z → list Z → Alloc → res (option (list Z) * Alloc);
}.

Definition token_batch : BatchAllocator := {|
  allocator_alloc n a := Ok (Token.alloc n a);
  allocator_alloc_extend _ _ _ _ _ := Err NotImplementedError;
  allocator_alloc_decode _ _ _ := Err NotImplementedError;
|}.
Definition paged_batch (d : Device) : BatchAllocator := {|
  allocator_alloc := Paged.alloc;
  allocator_alloc_extend pre seq last n := alloc_extend d pre pre seq seq last n None;
  allocator_alloc_decode seq last := alloc_decode d seq seq last;
|}.

(** ** How much a decode step may allocate *)

(** The speculative-decoding settings the sizes depend on.  [spec_algorithm] is
    [None] without speculation, else whether the algorithm's draft phase writes KV
    ([has_draft_kv]); [num_draft_tokens] is [max_speculative_num_draft_tokens()]. *)
Record SpecConfig := mkSpec {
  spec_algorithm : option bool;
  spec_num_steps : option Z;
  spec_eagle_topk : option Z;
  num_draft_tokens : option Z;
  alloc_page_size : Z;
}.

(** [x or d] on an optional integer: zero counts as absent. *)
Definition or_int (x : option Z) (d : Z) : Z :=
  match x with Some n => if n =? 0 then d else n | None => d end.

Definition get_alloc_len_per_decode (s : SpecConfig) : res Z :=
  match spec_algorithm s with
  | None => Ok 1
  | Some has_draft_kv =>
      let spec_steps := or_int (spec_num_steps s) 1 in
      let spec_topk := or_int (spec_eagle_topk s) 1 in
      let page_size := alloc_page_size s in
      match num_draft_tokens s with
      | None => Err TypeError
      | Some spec_tokens =>
          if (page_size =? 1) || (spec_topk =? 1) || negb has_draft_kv
          then Ok (Z.max (spec_steps * spec_topk) spec_tokens)
          else
            let num_new_pages_per_topk := ((page_size - 1) + spec_steps + page_size - 1) / page_size in
            Ok (Z.max (num_new_pages_per_topk * page_size * spec_topk) spec_tokens)
      end
  end.

Definition get_alloc_reserve_per_decode (s : SpecConfig) : res Z :=
  n ← get_alloc_len_per_decode s; Ok (2 * n).

Definition page_aligned_decode_alloc_lens (kvs : list ReqKvInfo) (reserve page_size : Z)
    : list Z * list Z * Z :=
  let next k := Z.max (kv_allocated_len k)
                  ((kv_committed_len k + reserve + page_size - 1) / page_size * page_size) in
  (kv_allocated_len <$> kvs, next <$> kvs, zsum ((λ k, next k - kv_allocated_len k) <$> kvs)).

Definition get_req_to_token_extra_context_len (s : SpecConfig) : res Z :=
  let extra := 4 + or_int (num_draft_tokens s) 0 in
  match spec_algorithm s with
  | Some _ =>
      if alloc_page_size s >? 1
      then reserve ← get_alloc_reserve_per_decode s;
           Ok (Z.max extra (reserve + alloc_page_size s - 1))
      else Ok extra
  | None => Ok extra
  end.

(** ** Rows of a batch *)

(** One request of an extend batch: its row, the tensor of its prefix, its length
    after the step and the number of new tokens. *)
Record WriteReq := mkWrite {
  w_idx : Z;
  w_prefix : list Z;
  w_seq : Z;
  w_extend : Z;
}.

(** The body of the loop in [write_cache_indices]; [pt] is the position in
    [out_cache_loc]. *)
Definition write_step (out_cache_loc : list Z) (w : WriteReq) (st : Z * ReqToTokenPool)
    : res (Z * ReqToTokenPool) :=
  let '(pt, p) := st in
  let prefix_len := zlen (w_prefix w) in
  p ← write (Some (w_idx w)) 0 prefix_len (w_prefix w) p;
  p ← write (Some (w_idx w)) prefix_len (w_seq w) (slice out_cache_loc pt (pt + w_extend w)) p;
  Ok (pt + w_extend w, p).

Definition write_loop (out_cache_loc : list Z) (ws : list WriteReq) (p : ReqToTokenPool)
    : res ReqToTokenPool :=
  '(_, p) ← for_each (write_step out_cache_loc) ws (0, p); Ok p.

(** [tl.cdiv] *)
Definition cdiv (n m : Z) : Z := (n + m - 1) / m.

(** A blocked copy of [n] elements: block [i] stores the lanes of
    [arange(0, B) + i * B] below [n]. *)
Definition copy_blocks (B n : Z) (addr val : Z → Z) : list (Z * Z) :=
  zrange 0 (cdiv n B) ≫= λ i,
    tl_store addr val ((λ o, i * B + o) <$> zrange 0 B) (λ o, o <? n).

(** [write_req_to_token_pool_triton]: the table is stored row after row, [stride]
    integers of 32 bits each. *)
Definition write_req_to_token_pool_triton (d : Device) (stride : Z) (ws : list WriteReq)
    (out_cache_loc : list Z) (pid : Z) : list (Z * Z) :=
  let row := dev_ptr (beyond d) (w_idx <$> ws) pid * stride in
  let pre_len := dev_ptr (beyond d) ((λ w, zlen (w_prefix w)) <$> ws) pid in
  let seq_len := dev_ptr (beyond d) (w_seq <$> ws) pid in
  let prefix_tensor := dev_ptr (beyond d) (default [] (w_prefix <$> ws !! Z.to_nat pid)) in
  let cumsum_start := zsum (dev_ptr (beyond d) (w_extend <$> ws) <$> zrange 0 pid) in
  copy_blocks 512 pre_len (λ o, row + o) (λ o, to_int32 (prefix_tensor o)) ++
  copy_blocks 512 (seq_len - pre_len) (λ o, row + o + pre_len)
    (λ o, to_int32 (dev_ptr (beyond d) out_cache_loc (cumsum_start + o))).

(** A launch on the table: the flat stores, and the rows again. *)
Definition launch_rows (d : Device) (bs : Z) (kernel : Z → list (Z * Z)) (p : ReqToTokenPool)
    : res ReqToTokenPool :=
  flat ← launch d bs kernel (concat (req_to_token p));
  Ok (set_req_to_token p (reshape (length <$> req_to_token p) flat)).

Definition write_cache_indices (d : Device) (use_triton : bool) (out_cache_loc : list Z)
    (ws : list WriteReq) (p : ReqToTokenPool) : res ReqToTokenPool :=
  if use_triton then
    launch_rows d (zlen ws)
      (write_req_to_token_pool_triton d (max_context_len p) ws out_cache_loc) p
  else write_loop out_cache_loc ws p.

(** [req_to_token[idx, col]] *)
Definition table_get (p : ReqToTokenPool) (idx col : Z) : res Z :=
  row ← py_get (req_to_token p) idx; py_get row col.

(** [torch.where] evaluates both of its branches. *)
Definition get_last_loc_torch (p : ReqToTokenPool) (idxs prefix_lens : list Z) : res (list Z) :=
  mapM (λ '(i, n), x ← table_get p i (n - 1); Ok (if n >? 0 then x else -1)) (zip idxs prefix_lens).

(** [get_last_loc_kernel]: one lane per request, masked where there is no prefix. *)
Definition get_last_loc_kernel (d : Device) (flat idxs prefix_lens : list Z) (num_tokens stride pid : Z)
    : list (Z * Z) :=
  let offset := (λ o, pid * 256 + o) <$> zrange 0 256 in
  let lens o := if o <? num_tokens then dev_ptr (beyond d) prefix_lens o else 0 in
  let rows o := if o <? num_tokens then dev_ptr (beyond d) idxs o else 0 in
  let tokens o := if lens o >? 0 then dev_ptr (beyond d) flat (rows o * stride + (lens o - 1)) else -1 in
  tl_store (λ o, o) tokens offset (λ o, o <? num_tokens).

Definition get_last_loc_triton (d : Device) (p : ReqToTokenPool) (idxs prefix_lens : list Z)
    : res (list Z) :=
  let n := zlen prefix_lens in
  launch d (cdiv n 256)
    (get_last_loc_kernel d (concat (req_to_token p)) idxs prefix_lens n (max_context_len p))
    (torch_empty d n).

(** [req_to_token[(idxs, locs)] = vals] *)
Definition put_step (t : Z * Z * Z) (p : ReqToTokenPool) : res ReqToTokenPool :=
  let '(i, col, v) := t in
  row ← py_get (req_to_token p) i;
  _ ← py_get row col;
  let norm j n := if j <? 0 then j + n else j in
  let row' := <[Z.to_nat (norm col (zlen row)) := to_int32 v]> row in
  Ok (set_req_to_token p (<[Z.to_nat (norm i (zlen (req_to_token p))) := row']> (req_to_token p))).
Definition write_each (idxs locs vals : list Z) (p : ReqToTokenPool) : res ReqToTokenPool :=
  if zlen vals =? zlen idxs then for_each put_step (zip (zip idxs locs) vals) p else Err RuntimeError.

(** [assign_req_to_token_pool]: every request's new slots, from its start to its end
    offset, in blocks of 32. *)
Definition assign_req_to_token_pool (d : Device) (pool_len : Z)
    (req_pool_indices start_offset end_offset out_cache_loc : list Z) (bs_upper pid : Z) : list (Z * Z) :=
  let starts_ptr := dev_ptr (beyond d) start_offset in
  let ends_ptr := dev_ptr (beyond d) end_offset in
  let kv_start := starts_ptr pid in
  let kv_end := ends_ptr pid in
  let token_pool := dev_ptr (beyond d) req_pool_indices pid * pool_len in
  let length_offset := zrange 0 bs_upper in
  let starts := tl_load (λ _, 0) starts_ptr length_offset (λ o, o <? pid) in
  let ends := tl_load (λ _, 0) ends_ptr length_offset (λ o, o <? pid) in
  let out_offset := zsum (zip_with Z.sub ends starts) in
  zrange 0 (cdiv (kv_end - kv_start) 32) ≫= λ i,
    tl_store (λ s, token_pool + s)
      (λ s, to_int32 (dev_ptr (beyond d) out_cache_loc (out_offset + (s - kv_start))))
      ((λ o, i * 32 + (o + kv_start)) <$> zrange 0 32) (λ s, s <? kv_end).

Definition assign_req_to_token_pool_func (d : Device) (req_pool_indices start_offset end_offset
    out_cache_loc : list Z) (batch_size : Z) (p : ReqToTokenPool) : res ReqToTokenPool :=
  launch_rows d batch_size
    (assign_req_to_token_pool d (max_context_len p) req_pool_indices start_offset end_offset
       out_cache_loc (next_power_of_2 batch_size)) p.

(** ** Slots *)

Section slots.
Context `{Clock} `{SetOrder} `{HashOps} `{KVAllocator} `{BatchAllocator}.

(** [None] is out of memory, which ends the scheduler. *)
Definition or_oom (r : option (list Z) * Alloc) (c : RadixCache) : res (list Z * RadixCache) :=
  match r with
  | (Some out, a) => Ok (out, set_kv_allocator c a)
  | (None, _) => Err RuntimeError
  end.

Definition alloc_token_slots (num_tokens : Z) (c : RadixCache) : res (list Z * RadixCache) :=
  c ← evict_from_tree_cache num_tokens c;
  r ← allocator_alloc num_tokens (kv_allocator c);
  or_oom r c.

Definition alloc_paged_token_slots_extend (prefix_lens seq_lens last_loc : list Z)
    (extend_num_tokens : Z) (c : RadixCache) : res (list Z * RadixCache) :=
  let num_tokens := extend_num_tokens + zlen seq_lens * page_size (kv_allocator c) in
  c ← evict_from_tree_cache num_tokens c;
  r ← allocator_alloc_extend prefix_lens seq_lens last_loc extend_num_tokens (kv_allocator c);
  or_oom r c.

Definition alloc_paged_token_slots_decode (seq_lens last_loc : list Z) (c : RadixCache)
    : res (list Z * RadixCache) :=
  let num_tokens := zlen seq_lens * page_size (kv_allocator c) in
  c ← evict_from_tree_cache num_tokens c;
  r ← allocator_alloc_decode seq_lens last_loc (kv_allocator c);
  or_oom r c.

(** [alloc_req_slots], for a pool without a state cache. *)
Definition alloc_req_slots (kvs : list ReqKvInfo) (p : ReqToTokenPool)
    : res (list Z * list ReqKvInfo * ReqToTokenPool) :=
  '(idx, kvs, p) ← ReqToToken.alloc kvs p;
  match idx with
  | None => Err RuntimeError
  | Some idx =>
      idx ← mapM (λ i, match i with Some i => Ok i | None => Err TypeError end) idx;
      Ok (idx, kvs, p)
  end.

(** ** Prefill batches *)

(** The lengths [ScheduleBatch.prepare_for_extend] computes. *)
Record ExtendBatch := mkBatch {
  b_reqs : list Req;
  b_prefix_lens : list Z;
  b_extend_lens : list Z;
  b_seq_lens : list Z;
  b_extend_num_tokens : Z;
}.

Definition extend_length (r : Req) : res Z :=
  match extend_range r with Some (a, b) => Ok (b - a) | None => Err AttributeError end.

Definition prepare_for_extend (reqs : list Req) : res ExtendBatch :=
  input_ids ← mapM (λ r, ids ← get_fill_ids r; Ok (slice_from ids (zlen (prefix_indices r)))) reqs;
  seq_lens ← mapM extend_end reqs;
  extend_lens ← mapM extend_length reqs;
  Ok (mkBatch reqs ((λ r, zlen (prefix_indices r)) <$> reqs) extend_lens seq_lens
        (zsum (zlen <$> input_ids))).

Definition set_kv_lens (k : ReqKvInfo) (allocated committed : Z) : ReqKvInfo :=
  mkKv (req_pool_idx k) (cache_protected_len k) committed allocated (swa_evict_floor k)
    (swa_evicted_seqlen k).

(** [alloc_for_extend] of a batch that keeps no diffusion blocks, for a cache
    without sliding windows. *)
Definition alloc_for_extend (d : Device) (use_triton : bool) (b : ExtendBatch) (p : ReqToTokenPool)
    (c : RadixCache) : res (list Z * list Req * ReqToTokenPool * RadixCache) :=
  let prefix_tensors := prefix_indices <$> b_reqs b in
  '(idx, kvs, p) ← alloc_req_slots (kv <$> b_reqs b) p;
  '(out, c) ←
    (if cpage_size c =? 1 then alloc_token_slots (b_extend_num_tokens b) c
     else alloc_paged_token_slots_extend (b_prefix_lens b) (b_seq_lens b)
            (row_last <$> prefix_tensors) (b_extend_num_tokens b) c);
  let ws := (λ '(i, t, s, e), mkWrite i t s e) <$>
              zip (zip (zip idx prefix_tensors) (b_seq_lens b)) (b_extend_lens b) in
  p ← write_cache_indices d use_triton out ws p;
  let kvs := zip_with (λ k s, set_kv_lens k s s) kvs (b_seq_lens b) in
  Ok (out, zip_with set_kv (b_reqs b) kvs, p, c).

(** ** Decode batches *)

(** [alloc_for_decode] for a decoder-only model: [seq_lens] are the lengths before
    the step. *)
Definition alloc_for_decode (reqs : list Req) (req_pool_indices seq_lens : list Z) (token_per_req : Z)
    (p : ReqToTokenPool) (c : RadixCache) : res (list Z * list Req * ReqToTokenPool * RadixCache) :=
  '(out, c) ←
    (if cpage_size c =? 1 then alloc_token_slots (zlen seq_lens * token_per_req) c
     else
       last_loc ← mapM (λ '(i, s), table_get p i (s - 1)) (zip req_pool_indices seq_lens);
       alloc_paged_token_slots_decode ((λ s, s + token_per_req) <$> seq_lens) last_loc c);
  p ← write_each req_pool_indices seq_lens out p;
  let reqs := (λ r, set_kv r (set_kv_lens (kv r) (kv_allocated_len (kv r) + token_per_req)
                                (kv_committed_len (kv r) + token_per_req))) <$> reqs in
  Ok (out, reqs, p, c).

(** ** Speculative decoding *)

(** [alloc_for_spec_decode], with the last slots read by the Triton kernel. *)
Definition alloc_for_spec_decode (d : Device) (kvs : list ReqKvInfo)
    (req_pool_indices cur_kv_lens nxt_kv_lens : list Z) (num_needed_tokens : Z)
    (p : ReqToTokenPool) (c : RadixCache) : res (list ReqKvInfo * ReqToTokenPool * RadixCache) :=
  '(p, c) ←
    (if num_needed_tokens >? 0 then
       '(out, c) ←
         (if page_size (kv_allocator c) =? 1 then alloc_token_slots num_needed_tokens c
          else
            last_loc ← get_last_loc_triton d p req_pool_indices cur_kv_lens;
            alloc_paged_token_slots_extend cur_kv_lens nxt_kv_lens last_loc num_needed_tokens c);
       p ← assign_req_to_token_pool_func d req_pool_indices cur_kv_lens nxt_kv_lens out (zlen kvs) p;
       Ok (p, c)
     else Ok (p, c));
  if zlen kvs =? zlen nxt_kv_lens
  then Ok (zip_with (λ k n, set_kv_lens k (Z.max (kv_allocated_len k) n) (kv_committed_len k)) kvs nxt_kv_lens, p, c)
  else Err ValueError.

(** [eagle_prepare_for_decode], for a batch without penalties. *)
Definition eagle_prepare_for_decode (d : Device) (s : SpecConfig) (kvs : list ReqKvInfo)
    (req_pool_indices : list Z) (p : ReqToTokenPool) (c : RadixCache)
    : res (list ReqKvInfo * ReqToTokenPool * RadixCache) :=
  let ps := page_size (kv_allocator c) in
  double_alloc ← get_alloc_reserve_per_decode s;
  let '(cur, nxt, num_needed_tokens) := page_aligned_decode_alloc_lens kvs double_alloc ps in
  _ ← (if (ps >? 1) && (or_int (spec_eagle_topk s) 1 >? 1) then
         match nxt with
         | [] => Err RuntimeError
         | n :: l => if foldr Z.max n l <=? max_context_len p then Ok tt else Err AssertionError
         end
       else Ok tt);
  alloc_for_spec_decode d kvs req_pool_indices cur nxt num_needed_tokens p c.
End slots.
