(* ===== verification/AllocWrites.v ===== *)
(** * Writing the rows of a batch

    The loop of [write_cache_indices] and the kernel
    [write_req_to_token_pool_triton] put the same slots into the same rows,
    whatever the order of the kernel's stores. *)

From S2P Require Import Prelude Allocator AllocKernels RadixKey TreeNode ReqPool Events RadixCache ReqCache.
From S2P Require Import Allocation.

(** The rows keep their lengths. *)
Definition same_shape_table (p p' : ReqToTokenPool) : Prop :=
  length <$> req_to_token p' = length <$> req_to_token p ∧ max_context_len p' = max_context_len p.

(** Every row of the table has the same width. *)
Definition table_wf (p : ReqToTokenPool) : Prop :=
  Forall (λ row, zlen row = max_context_len p) (req_to_token p).

Lemma table_reshaped p p' : same_shape_table p p' → table_wf p → table_wf p'.
Proof.
  unfold table_wf. intros [E1 E2] Hwf. rewrite E2. apply Forall_lookup. intros k row Hk.
  apply (f_equal (.!! k)) in E1. rewrite !list_lookup_fmap, Hk in E1.
  destruct (req_to_token p !! k) as [row0|] eqn:Hk0; [|done]. injection E1 as E1.
  unfold zlen. rewrite E1. apply (Forall_lookup_1 _ _ _ _ Hwf Hk0).
Qed.

Record write_ok (p : ReqToTokenPool) (w : WriteReq) : Prop := {
  wo_idx : 0 ≤ w_idx w < zlen (req_to_token p);
  wo_len : zlen (w_prefix w) ≤ w_seq w ≤ max_context_len p;
  wo_extend : w_extend w = w_seq w - zlen (w_prefix w);
}.

(** The row of a request after the write of its prefix and its new slots. *)
Definition final_row (w : WriteReq) (new row : list Z) : list Z :=
  (to_int32 <$> (w_prefix w ++ new)) ++ drop (Z.to_nat (w_seq w)) row.

(** The table after the writes of a batch; request after request takes its slots
    from [out], from position [pt] on. *)
Fixpoint written_rows (out : list Z) (pt : Z) (ws : list WriteReq) (table : list (list Z)) : list (list Z) :=
  match ws with
  | [] => table
  | w :: ws =>
      written_rows out (pt + w_extend w) ws
        (alter (final_row w (slice out pt (pt + w_extend w))) (Z.to_nat (w_idx w)) table)
  end.

Definition batch_extend (ws : list WriteReq) : Z := zsum (w_extend <$> ws).
Lemma batch_extend_cons w ws : batch_extend (w :: ws) = w_extend w + batch_extend ws.
Proof. done. Qed.

(** ** The loop *)

Lemma alter_insert_row {A} (f : A → A) (l : list A) i x : l !! i = Some x → alter f i l = <[i := f x]> l.
Proof.
  intros Hx. apply list_eq. intros k. destruct (decide (k = i)) as [->|Hk].
  - rewrite list_lookup_alter_eq, Hx, list_lookup_insert_eq; [done|by eapply lookup_lt_Some].
  - by rewrite list_lookup_alter_ne, list_lookup_insert_ne.
Qed.

Lemma write_spec p i a b vals row :
  0 ≤ i → req_to_token p !! Z.to_nat i = Some row → 0 ≤ a ≤ b → b ≤ zlen row → zlen vals = b - a →
  write (Some i) a b vals p = Ok (set_req_to_token p
    (<[Z.to_nat i := take (Z.to_nat a) row ++ (to_int32 <$> vals) ++ drop (Z.to_nat b) row]> (req_to_token p))).
Proof.
  intros Hi Hrow Ha Hb Hv. unfold write, get_row.
  assert (py_get (req_to_token p) i = Ok row) as -> by (by apply py_get_lookup). cbn [mbind res_bind].
  unfold slice_indices, clamp_index. cbn [from_option].
  destruct (Z.ltb_spec a 0), (Z.ltb_spec b 0), (Z.ltb_spec i 0); try lia. rewrite !Z.min_l by lia.
  rewrite Hv, Z.max_r, Z.eqb_refl by lia. do 6 f_equal. lia.
Qed.

Lemma final_row_len p w new row :
  write_ok p w → zlen new = w_extend w → zlen row = max_context_len p →
  zlen (final_row w new row) = max_context_len p.
Proof.
  intros [_ Hl He] Hn Hr. pose proof (zlen_nonneg (w_prefix w)). unfold final_row.
  rewrite zlen_app, zlen_fmap, zlen_app, Hn, He. unfold zlen in *. rewrite length_drop. lia.
Qed.

Lemma write_step_spec out p w pt :
  table_wf p → write_ok p w → 0 ≤ pt → pt + w_extend w ≤ zlen out →
  write_step out w (pt, p) = Ok (pt + w_extend w, set_req_to_token p
    (alter (final_row w (slice out pt (pt + w_extend w))) (Z.to_nat (w_idx w)) (req_to_token p))).
Proof.
  intros Hwf Hok Hpt Hout. pose proof Hok as [Hidx Hl He]. pose proof (zlen_nonneg (w_prefix w)).
  destruct (lookup_lt_is_Some_2 (req_to_token p) (Z.to_nat (w_idx w))) as [row Hrow]; [unfold zlen in *; lia|].
  pose proof (Forall_lookup_1 _ _ _ _ Hwf Hrow) as Hlen. cbn beta in Hlen.
  unfold write_step. rewrite (write_spec p _ 0 (zlen (w_prefix w)) (w_prefix w) row) by (done || lia).
  cbn [mbind res_bind]. set (row1 := take _ row ++ _).
  assert (row1 = (to_int32 <$> w_prefix w) ++ drop (Z.to_nat (zlen (w_prefix w))) row) as E1 by done.
  assert (zlen row1 = max_context_len p) as Hlen1.
  { rewrite E1, zlen_app, zlen_fmap. unfold zlen in *. rewrite length_drop. lia. }
  rewrite (write_spec _ _ (zlen (w_prefix w)) (w_seq w) _ row1); [|lia| |lia|lia|rewrite zlen_slice; lia].
  2:{ apply list_lookup_insert_eq. unfold zlen in *. lia. }
  cbn [mbind res_bind set_req_to_token req_to_token]. do 2 f_equal. unfold set_req_to_token. cbn. f_equal.
  rewrite list_insert_insert_eq.
  rewrite (alter_insert_row _ _ _ _ Hrow). f_equal. rewrite E1. unfold final_row. rewrite fmap_app, <-app_assoc, take_app_length'.
  2:{ rewrite length_fmap. unfold zlen. lia. }
  do 2 f_equal. rewrite drop_app_ge, length_fmap, drop_drop by (rewrite length_fmap; unfold zlen in *; lia).
  f_equal. unfold zlen in *. lia.
Qed.

(** A write keeps the shape of the table. *)
Lemma write_keeps p w new :
  table_wf p → write_ok p w → zlen new = w_extend w →
  let p' := set_req_to_token p (alter (final_row w new) (Z.to_nat (w_idx w)) (req_to_token p)) in
  table_wf p' ∧ ∀ w', write_ok p w' → write_ok p' w'.
Proof.
  intros Hwf Hok Hn p'. split.
  - unfold table_wf in *. cbn [p' set_req_to_token req_to_token max_context_len].
    apply Forall_lookup. intros k row Hk. destruct (decide (k = Z.to_nat (w_idx w))) as [->|Hne].
    + rewrite list_lookup_alter_eq in Hk. apply fmap_Some in Hk as (r & Hr & ->).
      by apply (final_row_len p), (Forall_lookup_1 _ _ _ _ Hwf Hr).
    + rewrite list_lookup_alter_ne in Hk by done. exact (Forall_lookup_1 _ _ _ _ Hwf Hk).
  - intros w' [Hi Hl He]. constructor; try done. cbn. unfold zlen in *. by rewrite length_alter.
Qed.

Lemma write_loop_spec out ws p pt :
  table_wf p → Forall (write_ok p) ws → 0 ≤ pt → pt + batch_extend ws ≤ zlen out →
  ∃ pt', for_each (write_step out) ws (pt, p) =
    Ok (pt', set_req_to_token p (written_rows out pt ws (req_to_token p))).
Proof.
  revert p pt. induction ws as [|w ws IH]; intros p pt Hwf Hok Hpt Hout.
  { exists pt. cbn. by destruct p. }
  apply Forall_cons in Hok as [Hw Hok]. rewrite batch_extend_cons in Hout. pose proof Hw as [_ Hl He].
  assert (0 ≤ batch_extend ws) as Hpos.
  { apply zsum_nonneg, Forall_fmap. eapply Forall_impl; [exact Hok|]. intros x [_ Hx1 Hx2]. change (0 ≤ w_extend x). lia. }
  cbn [for_each written_rows]. rewrite write_step_spec by (done || lia). cbn [mbind res_bind].
  destruct (write_keeps p w (slice out pt (pt + w_extend w)) Hwf Hw) as [Hwf' Hok'].
  { rewrite zlen_slice; lia. }
  destruct (IH _ (pt + w_extend w) Hwf') as (pt' & ->); [by eapply Forall_impl|lia|lia|]. by exists pt'.
Qed.

(** ** Stores into a table *)

Lemma stores_permute stores stores' out :
  NoDup stores.*1 → Forall (λ s, 0 ≤ s.1 < zlen out) stores → stores' ≡ₚ stores →
  for_each store_one stores' out = for_each store_one stores out.
Proof.
  intros Hnd Hin HP.
  destruct (for_each_store stores out Hnd Hin) as (o1 & -> & L1 & S1 & K1).
  destruct (for_each_store stores' out) as (o2 & -> & L2 & S2 & K2); [by rewrite HP..|].
  f_equal. apply list_eq_same_length with (n := length out); [unfold zlen in *; lia..|].
  intros k x y Hk Hx Hy. destruct (decide (Z.of_nat k ∈ stores.*1)) as [Hm|Hm].
  - apply list_elem_of_fmap in Hm as ([i v] & Hi & Hs). cbn in Hi. subst i.
    pose proof (S1 _ _ Hs) as E1. rewrite <-HP in Hs. pose proof (S2 _ _ Hs) as E2.
    rewrite Nat2Z.id in *. congruence.
  - rewrite K1 in Hy by done. rewrite K2 in Hx by (by rewrite HP). congruence.
Qed.

(** The stores of consecutive values from the address [base] on. *)
Definition run_stores (base : Z) (vals : list Z) : list (Z * Z) := imap (λ j v, (base + Z.of_nat j, v)) vals.

Lemma run_stores_cons base v vals : run_stores base (v :: vals) = (base, v) :: run_stores (base + 1) vals.
Proof.
  unfold run_stores. cbn [imap]. f_equal; [f_equal; lia|]. apply imap_ext. intros. cbn. f_equal. lia.
Qed.

Lemma run_stores_exec l1 vals l2 l3 :
  length l2 = length vals →
  for_each store_one (run_stores (zlen l1) vals) (l1 ++ l2 ++ l3) = Ok (l1 ++ vals ++ l3).
Proof.
  revert l1 l2. induction vals as [|v vals IH]; intros l1 [|y l2] Hl; try done. rewrite run_stores_cons.
  cbn [for_each store_one app]. assert (0 ≤ zlen l1 < zlen (l1 ++ y :: l2 ++ l3)) as Hr.
  { rewrite zlen_app, zlen_cons. pose proof (zlen_nonneg l1). pose proof (zlen_nonneg (l2 ++ l3)). lia. }
  destruct (Z.leb_spec 0 (zlen l1)); [|lia]. destruct (Z.ltb_spec (zlen l1) (zlen (l1 ++ y :: l2 ++ l3))); [|lia].
  cbn [andb mbind res_bind]. unfold zlen at 2. rewrite Nat2Z.id, insert_app_r_alt, Nat.sub_diag by lia.
  cbn [insert list_insert]. specialize (IH (l1 ++ [v]) l2 ltac:(by injection Hl)).
  rewrite zlen_app in IH. cbn in IH. rewrite <-!app_assoc in IH. exact IH.
Qed.

Lemma zlen_concat_rows stride (t : list (list Z)) :
  Forall (λ r, zlen r = stride) t → zlen (concat t) = zlen t * stride.
Proof. induction 1 as [|r l Hr _ IH]; [done|]. cbn [concat]. rewrite zlen_app, zlen_cons, IH, Hr. lia. Qed.

(** The stores into row [idx] of a table of rows of [stride] elements. *)
Lemma row_stores_exec stride (t : list (list Z)) idx vals row :
  Forall (λ r, zlen r = stride) t → 0 ≤ idx → t !! Z.to_nat idx = Some row → zlen vals ≤ stride →
  for_each store_one (run_stores (idx * stride) vals) (concat t) =
  Ok (concat (<[Z.to_nat idx := vals ++ drop (length vals) row]> t)).
Proof.
  intros Hwf Hi Hrow Hv. pose proof (Forall_lookup_1 _ _ _ _ Hwf Hrow) as Hlen. cbn beta in Hlen.
  rewrite insert_take_drop by (by eapply lookup_lt_Some).
  rewrite <-(take_drop_middle t _ _ Hrow) at 1. rewrite !concat_app. cbn [concat].
  rewrite <-(take_drop (length vals) row) at 1. rewrite <-!app_assoc.
  assert (idx * stride = zlen (concat (take (Z.to_nat idx) t))) as ->.
  { apply lookup_lt_Some in Hrow. rewrite (zlen_concat_rows stride) by (by apply Forall_take).
    unfold zlen. rewrite length_take. f_equal. lia. }
  apply run_stores_exec. rewrite length_take. unfold zlen in *. lia.
Qed.

Lemma reshape_concat (t : list (list Z)) : reshape (length <$> t) (concat t) = t.
Proof.
  induction t as [|r t IH]; [done|]. cbn [fmap list_fmap reshape concat].
  by rewrite take_app_length, drop_app_length, IH.
Qed.

(** ** The kernel *)

Lemma run_stores_app base l1 l2 : run_stores base (l1 ++ l2) = run_stores base l1 ++ run_stores (base + zlen l1) l2.
Proof.
  unfold run_stores. rewrite imap_app. f_equal. apply imap_ext. intros i x _. unfold zlen. f_equal. lia.
Qed.

Lemma run_stores_ptr u (l : list Z) k n base (addr : Z → Z) :
  0 ≤ n → 0 ≤ k → k + n ≤ zlen l → (∀ o, addr o = base + o) →
  (λ o, (addr o, to_int32 (dev_ptr u l (k + o)))) <$> zrange 0 n =
  run_stores base (to_int32 <$> slice l k (k + n)).
Proof.
  intros Hn Hk Hl Ha. rewrite (dev_ptr_range u l k n) by done. apply list_eq. intros i. unfold run_stores.
  rewrite list_lookup_imap, !list_lookup_fmap, lookup_zrange. case_decide; [|done].
  cbn [fmap option_fmap option_map]. by rewrite Ha, Z.add_0_l.
Qed.

Lemma copy_blocks_spec B n addr val :
  0 < B → 0 ≤ n → copy_blocks B n addr val = (λ o, (addr o, val o)) <$> zrange 0 n.
Proof. intros. unfold copy_blocks, cdiv. by apply tl_store_blocks. Qed.

Section kernel.
Context (d : Device) (p : ReqToTokenPool) (out : list Z).
Hypothesis Hwf : table_wf p.
Let stride := max_context_len p.

(** The values of a request's row: the prefix and the new slots. *)
Definition row_values (w : WriteReq) (pt : Z) : list Z :=
  to_int32 <$> (w_prefix w ++ slice out pt (pt + w_extend w)).

Fixpoint stores_from (pt : Z) (ws : list WriteReq) : list (Z * Z) :=
  match ws with
  | [] => []
  | w :: ws => run_stores (w_idx w * stride) (row_values w pt) ++ stores_from (pt + w_extend w) ws
  end.

Lemma stores_from_app pt l k :
  stores_from pt (l ++ k) = stores_from pt l ++ stores_from (pt + batch_extend l) k.
Proof.
  revert pt. induction l as [|w l IH]; intros pt; cbn [app stores_from]; [f_equal; unfold batch_extend; cbn; lia|].
  rewrite IH, <-app_assoc, batch_extend_cons. do 3 f_equal. lia.
Qed.

Lemma zlen_row_values w pt :
  write_ok p w → 0 ≤ pt → pt + w_extend w ≤ zlen out → zlen (row_values w pt) = w_seq w.
Proof.
  intros [_ Hl He] Hpt Ho. unfold row_values. rewrite zlen_fmap, zlen_app, zlen_slice by lia. lia.
Qed.

Lemma batch_extend_nonneg ws : Forall (write_ok p) ws → 0 ≤ batch_extend ws.
Proof.
  induction 1 as [|w ws [_ Hl He] _ IH]; [done|]. rewrite batch_extend_cons. lia.
Qed.

Lemma cumsum_start_eq ws i :
  (i ≤ length ws)%nat →
  zsum (dev_ptr (beyond d) (w_extend <$> ws) <$> zrange 0 (Z.of_nat i)) = batch_extend (take i ws).
Proof.
  intros Hi. pose proof (dev_ptr_range (beyond d) (w_extend <$> ws) 0 (Z.of_nat i)) as E.
  rewrite Z.add_0_l in E. unfold batch_extend. transitivity (zsum (slice (w_extend <$> ws) 0 (Z.of_nat i))).
  - rewrite E by (rewrite ?zlen_fmap; unfold zlen; lia). done.
  - rewrite slice_take_drop, drop_0, fmap_take by lia. do 2 f_equal. lia.
Qed.

Lemma kernel_program ws i w :
  ws !! i = Some w → Forall (write_ok p) ws → batch_extend ws ≤ zlen out →
  write_req_to_token_pool_triton d stride ws out (Z.of_nat i) =
  run_stores (w_idx w * stride) (row_values w (batch_extend (take i ws))).
Proof.
  intros Hi Hok Hout. pose proof (lookup_lt_Some _ _ _ Hi) as Hlt.
  pose proof (Forall_lookup_1 _ _ _ _ Hok Hi) as Hw. pose proof Hw as [_ Hl He].
  pose proof (zlen_nonneg (w_prefix w)). pose proof (batch_extend_nonneg _ (Forall_take _ i _ Hok)) as Hpt.
  assert (batch_extend (take i ws) + w_extend w ≤ batch_extend ws) as Hb.
  { rewrite <-(take_drop_middle ws i w Hi) at 2. unfold batch_extend. rewrite fmap_app, zsum_app.
    change (zsum (w_extend <$> w :: drop (S i) ws)) with (batch_extend (w :: drop (S i) ws)).
    rewrite batch_extend_cons. pose proof (batch_extend_nonneg _ (Forall_drop _ (S i) _ Hok)). lia. }
  unfold write_req_to_token_pool_triton. cbv zeta. rewrite Nat2Z.id, Hi, cumsum_start_eq by lia.
  rewrite (dev_ptr_lookup _ (w_idx <$> ws) _ (w_idx w)) by (rewrite ?Nat2Z.id, ?list_lookup_fmap, ?Hi; (lia || done)).
  rewrite (dev_ptr_lookup _ (_ <$> ws) _ (zlen (w_prefix w))) by (rewrite ?Nat2Z.id, ?list_lookup_fmap, ?Hi; (lia || done)).
  rewrite (dev_ptr_lookup _ (w_seq <$> ws) _ (w_seq w)) by (rewrite ?Nat2Z.id, ?list_lookup_fmap, ?Hi; (lia || done)).
  rewrite !copy_blocks_spec by lia. unfold row_values. rewrite fmap_app, run_stores_app, zlen_fmap.
  cbn [default option_fmap option_map fmap]. f_equal.
  - pose proof (run_stores_ptr (beyond d) (w_prefix w) 0 (zlen (w_prefix w)) (w_idx w * stride)
      (λ o, w_idx w * stride + o)) as E. rewrite Z.add_0_l in E.
    rewrite slice_take_drop, drop_0, Z.sub_0_r, take_zlen in E by lia. rewrite <-E by (lia || done).
    apply list_fmap_ext. intros ? j _. by rewrite Z.add_0_l.
  - rewrite <-He. apply run_stores_ptr; lia.
Qed.

Lemma kernel_stores ws :
  Forall (write_ok p) ws → batch_extend ws ≤ zlen out →
  zrange 0 (zlen ws) ≫= write_req_to_token_pool_triton d stride ws out = stores_from 0 ws.
Proof.
  intros Hok Hout. assert (∀ k, (k ≤ length ws)%nat →
    zrange 0 (Z.of_nat k) ≫= write_req_to_token_pool_triton d stride ws out = stores_from 0 (take k ws)) as Hk.
  { induction k as [|k IH]; intros Hk; [done|]. rewrite Nat2Z.inj_succ, <-Z.add_1_r, zrange_snoc by lia.
    rewrite bind_app, IH by lia. destruct (lookup_lt_is_Some_2 ws k) as [w Hw]; [lia|].
    rewrite (take_S_r _ _ w Hw), stores_from_app. f_equal. cbn [mbind list_bind stores_from].
    rewrite app_nil_r, (kernel_program ws k w Hw Hok Hout), app_nil_r. done. }
  rewrite <-(firstn_all ws) at 3. apply Hk. lia.
Qed.

Lemma stores_from_addr pt ws a v :
  Forall (write_ok p) ws → 0 ≤ pt → pt + batch_extend ws ≤ zlen out → (a, v) ∈ stores_from pt ws →
  ∃ w, w ∈ ws ∧ w_idx w * stride ≤ a < (w_idx w + 1) * stride.
Proof.
  revert pt. induction ws as [|w ws IH]; intros pt Hok Hpt Hout; cbn [stores_from]; [by intros ?%not_elem_of_nil|].
  apply Forall_cons in Hok as [Hw Hok]. rewrite batch_extend_cons in Hout. pose proof (batch_extend_nonneg ws Hok).
  pose proof Hw as [_ Hl He]. intros [Hin|Hin]%elem_of_app.
  - exists w. split; [left|]. apply elem_of_lookup_imap in Hin as (j & x & [= -> _] & Hx).
    apply lookup_lt_Some in Hx. pose proof (zlen_row_values w pt Hw) as Hz. unfold zlen, stride in *. lia.
  - destruct (IH (pt + w_extend w) Hok) as (w' & ? & ?); [lia|lia|done|]. exists w'. split; [by right|done].
Qed.

Lemma stores_from_NoDup pt ws :
  Forall (write_ok p) ws → NoDup (w_idx <$> ws) → 0 ≤ pt → pt + batch_extend ws ≤ zlen out →
  NoDup (stores_from pt ws).*1.
Proof.
  revert pt. induction ws as [|w ws IH]; intros pt Hok Hnd Hpt Hout; cbn [stores_from]; [constructor|].
  apply Forall_cons in Hok as [Hw Hok]. rewrite batch_extend_cons in Hout. pose proof (batch_extend_nonneg ws Hok).
  pose proof Hw as [_ Hl He]. rewrite fmap_cons in Hnd. apply NoDup_cons in Hnd as [Hni Hnd].
  rewrite fmap_app. apply NoDup_app. split_and!; [|intros a Ha Hb|apply IH; (done || lia)].
  - apply NoDup_alt. unfold run_stores. intros i j a Hi Hj. rewrite list_lookup_fmap, list_lookup_imap in Hi, Hj.
    destruct (row_values w pt !! i), (row_values w pt !! j); try done. cbn in Hi, Hj. simplify_eq. lia.
  - apply list_elem_of_fmap in Ha as ([a1 v1] & -> & Ha). apply list_elem_of_fmap in Hb as ([a2 v2] & Heq & Hb).
    cbn in Heq. subst a2. destruct (stores_from_addr (pt + w_extend w) ws a1 v2 Hok) as (w' & Hw' & Hr); [lia|lia|done|].
    apply elem_of_lookup_imap in Ha as (j & x & [= -> _] & Hx). apply lookup_lt_Some in Hx.
    pose proof (zlen_row_values w pt Hw) as Hz. apply Hni, list_elem_of_fmap. exists w'. split; [|done].
    unfold zlen, stride in *. nia.
Qed.

Lemma stores_from_exec pt ws t :
  Forall (λ r, zlen r = stride) t → zlen t = zlen (req_to_token p) → Forall (write_ok p) ws →
  0 ≤ pt → pt + batch_extend ws ≤ zlen out →
  for_each store_one (stores_from pt ws) (concat t) = Ok (concat (written_rows out pt ws t)).
Proof.
  revert pt t. induction ws as [|w ws IH]; intros pt t Ht Hlen Hok Hpt Hout; [done|].
  apply Forall_cons in Hok as [Hw Hok]. rewrite batch_extend_cons in Hout. pose proof (batch_extend_nonneg ws Hok).
  pose proof Hw as [Hi Hl He]. cbn [stores_from written_rows]. rewrite for_each_app.
  destruct (lookup_lt_is_Some_2 t (Z.to_nat (w_idx w))) as [row Hrow]; [unfold zlen in *; lia|].
  pose proof (zlen_row_values w pt Hw Hpt) as Hz.
  rewrite (row_stores_exec stride t (w_idx w) _ row) by (done || lia). cbn [mbind res_bind].
  assert (<[Z.to_nat (w_idx w) := row_values w pt ++ drop (length (row_values w pt)) row]> t =
          alter (final_row w (slice out pt (pt + w_extend w))) (Z.to_nat (w_idx w)) t) as ->.
  { rewrite (alter_insert_row _ _ _ _ Hrow). unfold final_row, row_values in *. do 3 f_equal. unfold zlen in *. lia. }
  apply IH; try done; try lia.
  - apply Forall_alter; [done|]. intros r Hr Hrl. apply (final_row_len p); try done. rewrite zlen_slice; lia.
  - unfold zlen in *. by rewrite length_alter.
Qed.
End kernel.

Lemma written_rows_lengths out pt ws p :
  table_wf p → Forall (write_ok p) ws → 0 ≤ pt → pt + batch_extend ws ≤ zlen out →
  length <$> written_rows out pt ws (req_to_token p) = length <$> req_to_token p.
Proof.
  revert pt p. induction ws as [|w ws IH]; intros pt p Hwf Hok Hpt Hout; [done|].
  apply Forall_cons in Hok as [Hw Hok]. rewrite batch_extend_cons in Hout. pose proof (batch_extend_nonneg p ws Hok).
  pose proof Hw as [_ Hl He]. cbn [written_rows].
  set (new := slice out pt (pt + w_extend w)). assert (zlen new = w_extend w) as Hn by (unfold new; rewrite zlen_slice; lia).
  destruct (write_keeps p w new Hwf Hw Hn) as [Hwf' Hok'].
  etrans; [apply (IH (pt + w_extend w) _ Hwf'); [by eapply Forall_impl|lia|lia]|]. cbn [set_req_to_token req_to_token].
  apply list_eq. intros k. rewrite !list_lookup_fmap. destruct (decide (k = Z.to_nat (w_idx w))) as [->|Hk].
  - rewrite list_lookup_alter_eq. destruct (req_to_token p !! _) as [row|] eqn:Hr; [|done].
    cbn [fmap option_fmap option_map]. f_equal.
    pose proof (Forall_lookup_1 _ _ _ _ Hwf Hr) as Hrl. cbn beta in Hrl.
    pose proof (final_row_len p w new row Hw Hn Hrl). unfold zlen in *. lia.
  - by rewrite list_lookup_alter_ne.
Qed.

(** The kernel and the loop write the same rows. *)
Lemma write_cache_indices_spec d `{!DeviceLaws d} use_triton out ws p :
  table_wf p → Forall (write_ok p) ws → NoDup (w_idx <$> ws) → batch_extend ws ≤ zlen out →
  write_cache_indices d use_triton out ws p =
  Ok (set_req_to_token p (written_rows out 0 ws (req_to_token p))).
Proof.
  intros Hwf Hok Hnd Hout. unfold write_cache_indices, launch_rows, launch, write_loop. destruct use_triton.
  - rewrite kernel_stores by done. rewrite (stores_permute (stores_from p out 0 ws)).
    + rewrite stores_from_exec by (done || lia). cbn [mbind res_bind]. do 2 f_equal.
      by rewrite <-(written_rows_lengths out 0 ws p), reshape_concat by (done || lia).
    + by apply stores_from_NoDup.
    + apply Forall_forall. intros [a v] Hin.
      destruct (stores_from_addr p out 0 ws a v Hok) as (w & Hw & Hr); [lia|lia|done|].
      eapply Forall_forall in Hok as [Hi _ _]; [|exact Hw]. cbn [fst].
      rewrite zlen_concat_rows with (stride := max_context_len p) by done. nia.
    + apply stores_once.
  - destruct (write_loop_spec out ws p 0 Hwf Hok) as (pt' & ->); [lia|lia|done].
Qed.

(** ** The table after the writes *)

Lemma written_rows_other out pt ws t k :
  Z.of_nat k ∉ (w_idx <$> ws) → Forall (λ w, 0 ≤ w_idx w) ws → written_rows out pt ws t !! k = t !! k.
Proof.
  revert pt t. induction ws as [|w ws IH]; intros pt t Hk Hpos; [done|].
  apply Forall_cons in Hpos as [Hw Hpos]. rewrite fmap_cons, not_elem_of_cons in Hk.
  cbn [written_rows]. rewrite IH by tauto. apply list_lookup_alter_ne. intros <-. apply (proj1 Hk). lia.
Qed.

Lemma written_rows_own out pt ws t i w row :
  NoDup (w_idx <$> ws) → Forall (λ w, 0 ≤ w_idx w) ws → ws !! i = Some w →
  t !! Z.to_nat (w_idx w) = Some row →
  let a := pt + batch_extend (take i ws) in
  written_rows out pt ws t !! Z.to_nat (w_idx w) = Some (final_row w (slice out a (a + w_extend w)) row).
Proof.
  revert pt t i. induction ws as [|w' ws IH]; intros pt t i Hnd Hpos Hi Hrow; [done|].
  rewrite fmap_cons in Hnd. apply NoDup_cons in Hnd as [Hni Hnd]. apply Forall_cons in Hpos as [Hw Hpos].
  cbn [written_rows]. destruct i as [|i].
  - injection Hi as ->. change (batch_extend (take 0 (w :: ws))) with 0. rewrite written_rows_other by (rewrite ?Z2Nat.id; done).
    by rewrite list_lookup_alter_eq, Hrow, Z.add_0_r.
  - cbn [take]. rewrite batch_extend_cons, Z.add_assoc. apply IH; try done.
    rewrite list_lookup_alter_ne; [done|]. intros E. apply Hni, list_elem_of_fmap. exists w.
    pose proof (Forall_lookup_1 _ _ _ _ Hpos Hi). cbn beta in *. split; [lia|].
    by apply list_elem_of_lookup_2 with i.
Qed.

(** ** Properties *)

(** C18: the kernel that writes the rows of a prefill batch does what the loop over
    the requests does.  For requests with different rows, and whatever the order
    in which the device performs the stores of the kernel's programs, both
    succeed with the same table: the row of each request holds its prefix and
    then its own piece of the new slots, with the old contents behind them, and
    all other rows are unchanged.  No store leaves the table. *)
Theorem write_kernel_equals_loop (d : Device) (Hd : DeviceLaws d) (out : list Z) (ws : list WriteReq)
    (p : ReqToTokenPool) :
  table_wf p → Forall (write_ok p) ws → NoDup (w_idx <$> ws) → batch_extend ws ≤ zlen out →
  ∃ p', write_cache_indices d true out ws p = Ok p' ∧ write_cache_indices d false out ws p = Ok p' ∧
    (∀ i w row, ws !! i = Some w → req_to_token p !! Z.to_nat (w_idx w) = Some row →
       let a := batch_extend (take i ws) in
       req_to_token p' !! Z.to_nat (w_idx w) =
         Some ((to_int32 <$> (w_prefix w ++ slice out a (a + w_extend w))) ++ drop (Z.to_nat (w_seq w)) row)) ∧
    (∀ k, Z.of_nat k ∉ (w_idx <$> ws) → req_to_token p' !! k = req_to_token p !! k).
Proof.
  intros Hwf Hok Hnd Hout. rewrite !write_cache_indices_spec by done.
  assert (Forall (λ w, 0 ≤ w_idx w) ws) as Hpos by (eapply Forall_impl; [exact Hok|]; intros w [? _ _]; lia).
  eexists. split; [done|]. split; [done|]. split.
  - intros i w row Hi Hrow. by apply (written_rows_own out 0 ws _ i w row).
  - intros k Hk. by apply written_rows_other.
Qed.

Lemma write_kernel_equals_loop_witness :
  let p := mkPool 3 4 5 [[0; 0; 0; 0; 0]; [7; 7; 7; 7; 7]; [0; 0; 0; 0; 0]; [9; 9; 9; 9; 9]] [] [0; 0; 0; 0] in
  ∃ p', write_cache_indices backwards true [40; 41; 50] [mkWrite 3 [20; 21] 4 2; mkWrite 1 [30] 2 1] p = Ok p' ∧
    req_to_token p' !! 3%nat = Some [20; 21; 40; 41; 9] ∧ req_to_token p' !! 1%nat = Some [30; 50; 7; 7; 7].
Proof.
  intros p.
  destruct (write_kernel_equals_loop backwards _ [40; 41; 50] [mkWrite 3 [20; 21] 4 2; mkWrite 1 [30] 2 1] p)
    as (p' & H1 & _ & H3 & _).
  - repeat constructor.
  - repeat constructor; vm_compute; congruence.
  - by_evaluation.
  - vm_compute. discriminate.
  - exists p'. split; [exact H1|]. split.
    + exact (H3 0%nat _ [9; 9; 9; 9; 9] eq_refl eq_refl).
    + exact (H3 1%nat _ [7; 7; 7; 7; 7] eq_refl eq_refl).
Defined.
