(* ===== verification/Retract.v ===== *)
(** * Decoding under memory pressure

    Before every decode step the scheduler asks whether the step fits
    ([ScheduleBatch.check_decode_mem]) and, if not, gives up requests until the
    rest fits ([retract_decode], [managers/schedule_batch.py]); the ratio of new
    tokens it reserves per request follows ([NewTokenRatioTracker]).  For batches
    without beam groups, on a worker that does not back retracted KV up to the
    host. *)

From S2P Require Import Prelude PyFloat PySort Allocator AllocKernels RadixKey TreeNode ReqPool Events.
From S2P Require Import RadixCache ReqCache PrefillAdder RadixPools Allocation.
Import Allocator.

(** ** The ratio of new tokens *)

Module NewTokenRatioTracker.
Record t := mk { init : Q; min : Q; decay : Q; current : Q }.

(** [min] and [max] of two floats return the first argument unless the second one
    is smaller, or larger. *)
Definition py_min (x y : Q) : Q := if Qltb y x then y else x.
Definition py_max (x y : Q) : Q := if Qltb x y then y else x.

Definition from_config (init_ratio conservativeness min_factor decay_steps : Q) : t :=
  let init := py_min (init_ratio * conservativeness) 1 in
  let min_ratio := py_min (init * min_factor) 1 in
  mk init min_ratio ((init - min_ratio) / decay_steps) init.

Definition decay_step (x : t) : t := mk (init x) (min x) (decay x) (py_max (current x - decay x) (min x)).
Definition reset (x : t) : t := mk (init x) (min x) (decay x) (init x).
Definition set_current (x : t) (q : Q) : t := mk (init x) (min x) (decay x) q.

Definition estimate_new_token_ratio_after_retract `{RetractSettings} (reqs : list SReq) : Q :=
  let total_decoded_tokens := zsum ((λ r, zlen (output_ids (base r))) <$> reqs) in
  let total_max_new_tokens := zsum (max_new_tokens <$> reqs) in
  py_min 1 (inject_Z (total_decoded_tokens + RETRACT_DECODE_STEPS * zlen reqs) /
            inject_Z (total_max_new_tokens + 1)).
End NewTokenRatioTracker.

(** ** The order of retraction *)

(** [None] is the default policy, by length; [Some low_first] the policy by
    priority, with [schedule_low_priority_values_first]. *)
Class RetractionPolicy := retraction_policy : option bool.

Definition maxsize : Z := 2 ^ 63 - 1.

Definition length_key (r : SReq) : Z * Z := (zlen (output_ids (base r)), - zlen (origin_input_ids (base r))).
Definition retraction_key (low_first : bool) (r : SReq) : Z :=
  let priority_sign := if low_first then 1 else -1 in
  let priority := match req_priority (base r) with
                  | Some p => p
                  | None => if low_first then maxsize else - maxsize - 1
                  end in
  priority * - priority_sign.

(** A reversed stable sort: larger keys first, equal keys in the given order. *)
Definition length_order (x y : nat * SReq) : bool :=
  le_then (λ x, - (length_key x.2).1) (le_by (λ x, - (length_key x.2).2)) x y.
Definition retraction_order `{RetractionPolicy} (x y : nat * SReq) : bool :=
  match retraction_policy with
  | None => length_order x y
  | Some low_first => le_then (λ x, - retraction_key low_first x.2) length_order x y
  end.
Definition get_decode_retraction_order `{RetractionPolicy} (reqs : list SReq) : list nat :=
  (py_sorted retraction_order (imap pair reqs)).*1.

(** ** The batch *)

(** The fields of [ScheduleBatch] that retraction filters. *)
Record DecodeBatch := mkDecode {
  d_reqs : list SReq;
  d_req_pool_indices : list Z;
  d_seq_lens : list Z;
}.

Definition pick {A} (l : list A) (idxs : list nat) : res (list A) :=
  mapM (λ i, py_get l (Z.of_nat i)) idxs.

(** [filter_batch(keep_indices=...)] *)
Definition filter_batch (keep_indices : list nat) (b : DecodeBatch) : res DecodeBatch :=
  if zlen keep_indices =? 0 then Ok (mkDecode [] (d_req_pool_indices b) (d_seq_lens b))
  else if zlen keep_indices =? zlen (d_reqs b) then Ok b
  else
    reqs ← pick (d_reqs b) keep_indices;
    idx ← pick (d_req_pool_indices b) keep_indices;
    lens ← pick (d_seq_lens b) keep_indices;
    Ok (mkDecode reqs idx lens).

Section retract.
Context `{Clock} `{SetOrder} `{HashOps} `{KVAllocator} `{KVFree} `{RetractSettings} `{RetractionPolicy}.
Context (spec : SpecConfig).

Definition new_tokens_required_next_decode_spec_v2 (requests : list SReq) (page_size : Z) : res Z :=
  reserve ← get_alloc_reserve_per_decode spec;
  Ok (zsum ((λ r,
    let k := kv (base r) in
    let x := Z.max 0 (kv_committed_len k + reserve - kv_allocated_len k) in
    let cur := kv_allocated_len k in
    let nxt := cur + x in
    ceil_align nxt page_size - ceil_align cur page_size) <$> requests)).

Definition new_tokens_required_next_decode (requests : list SReq) (page_size : Z) : res Z :=
  if spec_algo_none then
    Ok (zsum ((λ r, if kv_committed_len (kv (base r)) mod page_size =? 0 then 1 else 0) <$> requests)
        * page_size)
  else new_tokens_required_next_decode_spec_v2 requests page_size.

Definition check_decode_capacity (num_tokens : Z) (c : RadixCache) : res (bool * RadixCache) :=
  c ← evict_from_tree_cache num_tokens c;
  Ok (num_tokens <=? kv_available (kv_allocator c), c).

(** [selected_indices] is [None] for the whole batch. *)
Definition check_decode_mem (reqs : list SReq) (selected_indices : option (list nat)) (c : RadixCache)
    : res (bool * RadixCache) :=
  requests ← match selected_indices with None => Ok reqs | Some l => pick reqs l end;
  num_tokens ← new_tokens_required_next_decode requests (Allocator.page_size (kv_allocator c));
  check_decode_capacity num_tokens c.

(** One turn of the loop of [retract_decode]. *)
Definition retract_step (reqs : list SReq)
    (st : bool * list nat * list SReq * (RadixCache * ReqToTokenPool))
    : res (bool * list nat * list SReq * (RadixCache * ReqToTokenPool) +
           list nat * list SReq * (RadixCache * ReqToTokenPool)) :=
  let '(first_iter, sorted_indices, retracted, (c, p)) := st in
  '(go, c) ←
    (if first_iter then Ok (true, c)
     else '(ok, c) ← check_decode_mem reqs (Some sorted_indices) c; Ok (negb ok, c));
  if negb go then Ok (inr (sorted_indices, retracted, (c, p)))
  else if zlen sorted_indices =? 1 then Ok (inr (sorted_indices, retracted, (c, p)))
  else
    match last sorted_indices with
    | None => Err IndexError
    | Some idx =>
        let sorted_indices := removelast sorted_indices in
        req ← py_get reqs (Z.of_nat idx);
        '(req, s) ← release_req req (zlen sorted_indices) (c, p);
        Ok (inl (false, sorted_indices, retracted ++ [req], s))
    end.

(** The last request is aborted when it alone does not fit. *)
Definition abort_last (reqs : list SReq) (sorted_indices : list nat) (s : RadixCache * ReqToTokenPool)
    : res (list nat * list SReq * (RadixCache * ReqToTokenPool)) :=
  let '(c, p) := s in
  if negb (zlen sorted_indices <=? 1) then Ok (sorted_indices, [], (c, p))
  else
    '(ok, c) ← check_decode_mem reqs (Some sorted_indices) c;
    if (ok : bool) then Ok (sorted_indices, [], (c, p))
    else
      match last sorted_indices with
      | None => Err IndexError
      | Some idx =>
          req ← py_get reqs (Z.of_nat idx);
          '(req, s) ← release_req req 0 (c, p);
          Ok (removelast sorted_indices, [req], s)
      end.

(** The batch, the retracted requests, the new ratio and the requests to abort. *)
Definition retract_decode (b : DecodeBatch) (s : RadixCache * ReqToTokenPool)
    : res (DecodeBatch * list SReq * Q * list SReq * (RadixCache * ReqToTokenPool)) :=
  let reqs := d_reqs b in
  '(sorted_indices, retracted, s) ←
    while (S (length reqs)) (retract_step reqs) (true, get_decode_retraction_order reqs, [], s);
  '(sorted_indices, aborted, s) ← abort_last reqs sorted_indices s;
  b ← filter_batch sorted_indices b;
  Ok (b, retracted, NewTokenRatioTracker.estimate_new_token_ratio_after_retract (d_reqs b), aborted, s).

(** ** A decode step of the scheduler *)

Context `{BatchAllocator}.

(** [ScheduleBatch.prepare_for_decode]: the new slots of the step, without
    speculation, and the batch after it. *)
Definition prepare_for_decode (d : Device) (b : DecodeBatch) (s : RadixCache * ReqToTokenPool)
    : res (list Z * DecodeBatch * (RadixCache * ReqToTokenPool)) :=
  let '(c, p) := s in
  let reqs := d_reqs b in
  if spec_algo_none then
    '(out, rs, p, c) ← alloc_for_decode (base <$> reqs) (d_req_pool_indices b) (d_seq_lens b) 1 p c;
    Ok (out, mkDecode (zip_with with_base reqs rs) (d_req_pool_indices b) ((λ n, n + 1) <$> d_seq_lens b), (c, p))
  else
    '(kvs, p, c) ← eagle_prepare_for_decode d spec ((λ r, kv (base r)) <$> reqs) (d_req_pool_indices b) p c;
    Ok ([], mkDecode (zip_with (λ r k, with_base r (set_kv (base r) k)) reqs kvs) (d_req_pool_indices b)
              (d_seq_lens b), (c, p)).

(** What [Scheduler.update_running_batch] leaves: the batch and its slots, the
    requests for the queue and for the tokenizer, [batch_is_full] and the ratio. *)
Record Turn := mkTurn {
  t_batch : DecodeBatch;
  t_out : list Z;
  t_retracted : list SReq;
  t_aborted : list SReq;
  t_batch_is_full : bool;
  t_ratio : NewTokenRatioTracker.t;
  t_pools : RadixCache * ReqToTokenPool;
}.

Definition unfinished_indices (reqs : list SReq) : list nat :=
  (filter (λ x : nat * SReq, is_finished x.2 = false) (imap pair reqs)).*1.

(** [force] is the periodic retraction of the test mode. *)
Definition update_running_batch (d : Device) (force batch_is_full : bool)
    (ratio : NewTokenRatioTracker.t) (b : DecodeBatch) (s : RadixCache * ReqToTokenPool) : res Turn :=
  let initial_bs := zlen (d_reqs b) in
  b ← filter_batch (unfinished_indices (d_reqs b)) b;
  if zlen (d_reqs b) =? 0 then Ok (mkTurn b [] [] [] false ratio s)
  else
    let '(c, p) := s in
    '(ok, c) ← check_decode_mem (d_reqs b) None c;
    '(b, retracted, aborted, ratio, s) ←
      (if negb ok || force then
         '(b, retracted, q, aborted, s) ← retract_decode b (c, p);
         Ok (b, retracted, aborted, NewTokenRatioTracker.set_current ratio q, s)
       else Ok (b, [], [], NewTokenRatioTracker.decay_step ratio, (c, p)));
    let batch_is_full := if zlen (d_reqs b) <? initial_bs then false else batch_is_full in
    if zlen (d_reqs b) =? 0 then Ok (mkTurn b [] retracted aborted batch_is_full ratio s)
    else
      '(out, b, s) ← prepare_for_decode d b s;
      Ok (mkTurn b out retracted aborted batch_is_full ratio s).
End retract.
