(* ===== verification/BatchAlloc.v ===== *)
(** * What the batch operations need of an allocator

    Between two steps of the scheduler no free group is open.  For such a state
    the class [BatchLaws] says what [alloc], [alloc_extend] and [alloc_decode] do to
    rows and pool; the token allocator and the paged one keep it. *)

From S2P Require Import Prelude Allocator AllocKernels RadixKey TreeNode ReqPool Events RadixCache ReqCache.
From S2P Require Import Allocation.

(** ** Allocators without an open group *)

Lemma quiet_pool a : alloc_wf a → PagedPool.pool a = free_pages a ++ release_pages a.
Proof. intros (_ & _ & Hg & Hr). unfold PagedPool.pool, PagedPool.pending. rewrite Hg, Hr. cbn. by rewrite app_nil_r. Qed.

Lemma quiet_token_pool a : alloc_wf a → TokenPool.pool a = free_pages a ++ release_pages a.
Proof. intros (_ & _ & Hg & _). unfold TokenPool.pool. rewrite Hg. cbn. by rewrite app_nil_r. Qed.

Lemma release_quiet ids a : alloc_wf a → alloc_wf (Paged.release_page_ids ids a).
Proof.
  intros (Hps & Hs & Hg & Hr). unfold Paged.release_page_ids.
  destruct (need_sort a) eqn:E; (split; [done|]; split; [|done]); cbn; rewrite E; (done || auto).
Qed.

Lemma paged_free_quiet v s a a' : alloc_wf a → Paged.free_segment v s a = Ok a' → alloc_wf a'.
Proof.
  intros Hwf. unfold Paged.free_segment. destruct (zlen v =? 0); [by intros [= <-]|]. cbv zeta.
  destruct (debug_mode a && _); [done|]. rewrite (proj1 (proj2 (proj2 Hwf))). unfold Paged.debug_checked.
  destruct (debug_mode _); [intros (? & _ & [= <-])%bind_Ok|intros [= <-]]; by apply release_quiet.
Qed.

Lemma token_free_quiet v s a a' : alloc_wf a → Token.free_segment v s a = Ok a' → alloc_wf a'.
Proof.
  intros (Hps & Hs & Hg & Hr). unfold Token.free_segment, Token.free. destruct (zlen v =? 0); [by intros [= <-]|].
  rewrite Hg. destruct (need_sort a) eqn:E; intros [= <-]; (split; [done|]; split; [|done]); cbn; rewrite E; (done || auto).
Qed.

#[program] Definition quiet_paged : KVAllocator := {|
  kv_free_segment := Paged.free_segment;
  kv_free_segments := Paged.free_segments;
  kv_available := Base.available_size;
  Allocator.pool := PagedPool.pool;
  alloc_ok := alloc_wf;
|}.
Next Obligation. intros a H. apply H. Qed.
Next Obligation.
  intros a P row s e Hok HR Hs He Hnd.
  destruct (PagedPool.free_segment_pool a P row s e (proj1 Hok) HR Hs He Hnd) as (a' & Hrun & ? & ?).
  exists a'. split_and!; try done. by apply (paged_free_quiet _ _ _ _ Hok Hrun).
Qed.
Next Obligation. done. Qed.
Next Obligation. done. Qed.

#[program] Definition quiet_token : KVAllocator := {|
  kv_free_segment := Token.free_segment;
  kv_free_segments := Token.free_segments;
  kv_available := Token.available_size;
  Allocator.pool := TokenPool.pool;
  alloc_ok a := alloc_wf a ∧ page_size a = 1;
|}.
Next Obligation. intros a [H _]. apply H. Qed.
Next Obligation.
  intros a P row s e [Hwf Hps] HR Hs He _. cbn in *. rewrite Hps in *.
  destruct (TokenPool.free_pool (slice row s e) a) as (a' & Hrun & Hp & HP).
  exists a'. rewrite touched_1 with (row := row) by done.
  split_and!; try done; [|congruence|congruence]. by apply (token_free_quiet _ s _ _ Hwf Hrun).
Qed.
Next Obligation. done. Qed.
Next Obligation. done. Qed.

(** ** The laws *)

(** The successful outcome of a batch allocation. *)
Definition rows_grown `{KVAllocator} (a : Alloc) (reqs : list ereq) (r : res (option (list Z) * Alloc)) : Prop :=
  ∃ reqs' a', r = Ok (Some (gained reqs reqs'), a') ∧ alloc_ok a' ∧ page_size a' = page_size a ∧
    Forall2 (grown (page_size a)) reqs reqs' ∧
    concat (e_pages <$> reqs') ++ pool a' ≡ₚ concat (e_pages <$> reqs) ++ pool a.

Definition rows_ready `{KVAllocator} (a : Alloc) (reqs : list ereq) : Prop :=
  alloc_ok a ∧ 1 < page_size a ∧ Forall (ereq_ok (page_size a)) reqs ∧
  NoDup (concat (open_pages (page_size a) <$> reqs) ++ pool a) ∧
  batch_pages (page_size a) (prefix_lens reqs) (seq_lens reqs) ≤ zlen (pool a).

Class BatchLaws `{KVAllocator} `{BatchAllocator} : Prop := {
  bl_available a : alloc_ok a → kv_available a = zlen (pool a) * page_size a;
  bl_alloc a n : alloc_ok a → page_size a = 1 → NoDup (pool a) → 0 ≤ n ≤ zlen (pool a) →
    ∃ out a', allocator_alloc n a = Ok (Some out, a') ∧ alloc_ok a' ∧ page_size a' = 1 ∧
      zlen out = n ∧ out ++ pool a' ≡ₚ pool a;
  bl_extend a reqs : rows_ready a reqs → rows_grown a reqs
    (allocator_alloc_extend (prefix_lens reqs) (seq_lens reqs) (last_locs reqs)
       (batch_tokens (prefix_lens reqs) (seq_lens reqs)) a);
  bl_decode a reqs : rows_ready a reqs → Forall (λ r, e_seq r = zlen (e_row r) + 1) reqs →
    rows_grown a reqs (allocator_alloc_decode (seq_lens reqs) (last_locs reqs) a);
}.

Lemma token_laws : @BatchLaws quiet_token token_batch.
Proof.
  constructor; cbn.
  - intros a [Hwf ->]. rewrite quiet_token_pool, zlen_app by done. unfold Token.available_size. lia.
  - intros a n [Hwf Hps] _ _ Hn. unfold Token.alloc. rewrite quiet_token_pool, zlen_app in Hn by done.
    destruct (merge_if_needed a n Hwf ltac:(lia)) as (Hwf' & Hps' & _ & HP & Hfull). cbv zeta.
    set (a1 := if need_sort a && _ then _ else _) in *.
    destruct (Z.gtb_spec n (zlen (free_pages a1))); [specialize (Hfull ltac:(lia)); lia|].
    eexists _, _. split; [done|]. split; [by split; [|cbn; congruence]|]. split; [cbn; congruence|].
    rewrite zlen_slice_to by lia. split; [lia|]. rewrite !quiet_token_pool by done.
    rewrite !quiet_pool in HP by done.
    cbn [set_free_pages free_pages release_pages]. by rewrite app_assoc, slice_to_from, HP by lia.
  - intros a reqs ([_ ?] & ? & _). cbn in *. lia.
  - intros a reqs ([_ ?] & ? & _). cbn in *. lia.
Qed.

Lemma paged_laws d : DeviceLaws d → @BatchLaws quiet_paged (paged_batch d).
Proof.
  intros Hd. constructor; cbn.
  - intros a Hwf. rewrite quiet_pool, zlen_app by done. unfold Base.available_size. lia.
  - intros a n Hwf Hps Hnd Hn.
    destruct (paged_alloc_spec a n Hwf) as (r & a' & -> & Hwf' & Hps' & Hr); [rewrite Hps; apply Z.divide_1_l|lia|done|].
    destruct r as [slots|].
    + destruct Hr as (pages & -> & Hl & _ & HP). rewrite Hps in *. rewrite page_slots_1 in *. exists pages, a'.
      split_and!; try done. lia.
    + destruct Hr as [Hr _]. unfold Base.available_size in Hr. rewrite quiet_pool, zlen_app in Hn by done. lia.
  - intros a reqs (Hwf & H1 & Hok & Hnd & Hb). unfold rows_grown. cbn in *.
    rewrite quiet_pool, zlen_app in Hb by done.
    destruct (alloc_extend_spec d Hd a reqs Hwf Hok Hnd) as (r & a' & -> & Hwf' & Hps & Hr); [by right|].
    destruct r as [out|]; [|destruct Hr; lia]. destruct Hr as (reqs' & HF & -> & HP). by exists reqs', a'.
  - intros a reqs (Hwf & H1 & Hok & Hnd & Hb) Hone. unfold rows_grown. cbn in *.
    rewrite quiet_pool, zlen_app in Hb by done.
    destruct (alloc_decode_spec d Hd a reqs Hwf H1 Hok Hone Hnd) as (r & a' & -> & Hwf' & Hps & Hr); [by right|].
    destruct r as [out|]; [|destruct Hr; lia]. destruct Hr as (reqs' & HF & -> & HP). by exists reqs', a'.
Qed.
