(* ===== verification/RunningBatch.v ===== *)
(** * The requests of a decode batch

    What a running batch owns: every request has a row of the table, its pages and
    a lock on the node of the tree that supplies its prefix; the pages of the
    requests, of the tree and of the pool are different.  Making room and releasing
    a request keep it so. *)

From S2P Require Import Prelude PyFloat Allocator AllocKernels RadixKey PrefixTree TreeNode ReqPool Events.
From S2P Require Import RadixCache RadixInv RadixWalk RadixLock RadixEvict RadixSize ReqCache ReqOwnership ReqTheorems.
From S2P Require Import PrefillAdder RadixPools Allocation BatchAlloc.
Import Allocator.

(** ** Making room *)

Lemma page_slots_concat ps (ls : list (list Z)) :
  Paged.page_slots ps (concat ls) = concat (Paged.page_slots ps <$> ls).
Proof. induction ls as [|l ls IH]; [done|]. cbn [concat fmap list_fmap]. by rewrite page_slots_app, IH. Qed.

Lemma zlen_tree_slots A : zlen (tree_slots A) = msum (λ a, zlen (a_vals a)) A.
Proof.
  induction A as [|i a A Hi IH] using map_ind; [done|].
  rewrite tree_slots_new, zlen_app, IH, msum_insert_new by done. done.
Qed.

Section room.
Context `{SetOrder} `{HashLaws} `{KVAllocator} `{BatchAllocator} `{!BatchLaws}.

Lemma available_pool_slots c A :
  Inv c A → kv_ok c A → kv_available (kv_allocator c) = zlen (pool_slots c).
Proof.
  intros Hinv Hkv. pose proof (inv_ps c A Hinv). rewrite bl_available by apply Hkv.
  rewrite (kv_ps c A Hkv). unfold pool_slots, zlen. rewrite length_page_slots by done. lia.
Qed.

(** What [evict_from_tree_cache] leaves. *)
Record roomier (n : Z) (c c' : RadixCache) (A A' : atree) : Prop := {
  rm_inv : Inv c' A';
  rm_kv : kv_ok c' A';
  rm_settings : settings c' = settings c;
  rm_slots : tree_slots A' ++ pool_slots c' ≡ₚ tree_slots A ++ pool_slots c;
  rm_locked i a : A !! i = Some a → i = root_node c ∨ a_lock a ≠ 0 → A' !! i = Some a;
  rm_subset i a : A' !! i = Some a → A !! i = Some a;
  rm_more : kv_available (kv_allocator c) ≤ kv_available (kv_allocator c');
  rm_enough : Z.min n (kv_available (kv_allocator c) + evictable_size_ c) ≤ kv_available (kv_allocator c');
}.

Lemma make_room n c A :
  Inv c A → kv_ok c A → disable c = false →
  ∃ c' A', evict_from_tree_cache n c = Ok c' ∧ roomier n c c' A A'.
Proof.
  intros Hinv Hkv Hd. unfold evict_from_tree_cache. cbv zeta.
  destruct (Z.ltb_spec (kv_available (kv_allocator c)) n) as [Hlt|Hge].
  2:{ exists c, A. split; [done|]. constructor; (done || lia). }
  set (need := n - _). destruct (evict_spec c A need Hinv Hkv Hd)
    as (num & c' & -> & A' & xs & Hinv' & Hkv' & Hset & Hr & Hstop & Hcons & Hes & Hps).
  cbn [mbind res_bind]. exists c', A'. split; [done|].
  destruct (settings_fields c c' Hset) as (_ & Eps & _ & Er & _).
  assert (tree_slots A' ++ pool_slots c' ≡ₚ tree_slots A ++ pool_slots c) as HP.
  { unfold pool_slots. by rewrite Eps. }
  assert (zlen (tree_slots A) - zlen (tree_slots A') = num) as Hnum.
  { rewrite !zlen_tree_slots, (sizes_sum c A Hinv), (sizes_sum c' A' Hinv'). lia. }
  assert (kv_available (kv_allocator c') = kv_available (kv_allocator c) + num) as Hav.
  { rewrite (available_pool_slots c A Hinv Hkv), (available_pool_slots c' A' Hinv' Hkv').
    apply zlen_proper in HP. rewrite !zlen_app in HP. lia. }
  assert (∀ i a, A' !! i = Some a → A !! i = Some a) as Hsub by (intros i a; by eapply evict_run_subset).
  assert (Z.min need (evictable_size_ c) ≤ num) as Hmin.
  { destruct Hstop as [?|Hno]; [lia|].
    pose proof (no_leaf_nothing_evictable _ _ _ A' (inv_ps c' A' Hinv') (inv_tree c' A' Hinv') (inv_locks c' A' Hinv') Hno) as Hz.
    rewrite <-(inv_evictable c' A' Hinv'), Hes in Hz. lia. }
  assert (0 ≤ num) as Hpos.
  { destruct (evict_run_victims _ _ _ _ _ _ Hr) as (_ & _ & ->). apply zsum_nonneg, Forall_fmap, Forall_forall.
    intros x _. change (0 ≤ from_option (λ a, key_len (a_key a)) 0 (A !! x)).
    destruct (A !! x) as [a|] eqn:Hx; [|done]. cbn. exact (node_len_nonneg c A Hinv x a Hx). }
  constructor; try done; try lia. intros i a Hi [->|Hl]; [|by eapply evict_run_locked].
  destruct (to_root _ _ _ A' (inv_tree c' A' Hinv')) as (r & Hroot & _). rewrite Er in Hroot.
  pose proof (Hsub _ _ Hroot). congruence.
Qed.

(** The memory a pass may count on: free, or held by the tree without a lock. *)
Definition memory_left (c : RadixCache) : Z := kv_available (kv_allocator c) + evictable_size_ c.

Lemma memory_left_slots c A :
  Inv c A → kv_ok c A → memory_left c + protected_size_ c = zlen (tree_slots A ++ pool_slots c).
Proof.
  intros Hinv Hkv. unfold memory_left. rewrite (available_pool_slots c A Hinv Hkv), zlen_app, zlen_tree_slots.
  rewrite (sizes_sum c A Hinv). lia.
Qed.

(** Eviction turns one kind of memory into the other. *)
Lemma roomier_memory n c c' A A' : Inv c A → kv_ok c A → roomier n c c' A A' → memory_left c ≤ memory_left c'.
Proof.
  intros Hinv Hkv [Hinv' Hkv' _ HP _ Hsub _ _]. apply zlen_proper in HP.
  pose proof (memory_left_slots c A Hinv Hkv). pose proof (memory_left_slots c' A' Hinv' Hkv').
  enough (protected_size_ c' ≤ protected_size_ c) by lia.
  rewrite (inv_protected c A Hinv), (inv_protected c' A' Hinv'). apply msum_mono.
  - intros i a Hi. exists a. split; [by apply Hsub|lia].
  - intros i a Hi. pose proof (node_len_nonneg c A Hinv i a Hi). unfold protected_of. by case_match.
Qed.

(** Giving up a lock frees no slot, but makes nodes evictable. *)
Lemma unlocked_evictable c c' A A' i :
  Inv c A → Inv c' A' → relocked (root_node c) A A' i (-1) → evictable_size_ c ≤ evictable_size_ c'.
Proof.
  intros Hinv Hinv' [_ Hre]. rewrite (inv_evictable c A Hinv), (inv_evictable c' A' Hinv'). apply msum_mono.
  - intros j a Hj. destruct (Hre j a Hj) as (a' & Hj' & (_ & Hk & _) & _ & Hl). exists a'. split; [done|].
    destruct (inv_locks c A Hinv j a Hj) as (Hp & _), (inv_locks c' A' Hinv' j a' Hj') as (Hp' & _).
    pose proof (node_len_nonneg c A Hinv j a Hj). unfold evictable_of. rewrite Hk.
    destruct (Z.eqb_spec (a_lock a) 0), (Z.eqb_spec (a_lock a') 0); lia.
  - intros j a Hj. pose proof (node_len_nonneg c' A' Hinv' j a Hj). unfold evictable_of. by case_match.
Qed.
End room.

(** ** What a batch owns *)

(** A request with its row number, its row, the pages the row lies on and the node
    of the tree it holds. *)
Record greq := mkG {
  g_req : SReq;
  g_idx : Z;
  g_full : list Z;
  g_pages : list Z;
  g_node : nat;
}.

Definition g_kv (g : greq) : ReqKvInfo := kv (base (g_req g)).
Definition g_len (g : greq) : Z := kv_allocated_len (g_kv g).
Definition g_row (g : greq) : list Z := slice_to (g_full g) (g_len g).
Definition g_ids (g : greq) : list Z := origin_input_ids (base (g_req g)) ++ output_ids (base (g_req g)).
Definition g_private (c : RadixCache) (g : greq) : list Z :=
  private c (g_pages g) (g_row g) (cache_protected_len (g_kv g)).

(** How many requests of the batch hold the node [i]. *)
Definition holders (gs : list greq) (i : nat) : Z := zlen (filter (λ g, g_node g = i) gs).

(** The number of slots of the pool. *)
Class Census := total_slots : Z.

Section batch.
Context `{Clock} `{SetOrder} `{HashLaws} `{KVAllocator} `{KVFree} `{RetractSettings} `{Census}.

Definition g_toks (g : greq) : list Z :=
  slice_to (g_ids g) (effective_kv_committed_len strip_thinking_cache (base (g_req g))).

Record runs (c : RadixCache) (A : atree) (p : ReqToTokenPool) (g : greq) : Prop := {
  ru_idx : req_pool_idx (g_kv g) = Some (g_idx g);
  ru_row : req_to_token p !! Z.to_nat (g_idx g) = Some (g_full g);
  ru_last : last_node (base (g_req g)) = Some (g_node g);
  ru_swa : swa_evicted_seqlen (g_kv g) = 0;
  ru_len : 0 < g_len g ≤ zlen (g_full g);
  ru_committed : 0 ≤ kv_committed_len (g_kv g) ≤ g_len g;
  ru_plain : spec_algo_none = true → kv_committed_len (g_kv g) = g_len g;
  ru_tokens : kv_committed_len (g_kv g) ≤ zlen (g_ids g);
  ru_layout : row_layout (cpage_size c) (g_pages g) (g_row g);
  ru_pages : zlen (g_pages g) = npages (cpage_size c) (g_len g);
  ru_node : ∃ a, walk_at (root_node c) A (req_ns (base (g_req g)))
      (req_units c (base (g_req g)) (g_toks g)) (g_node g) a (cache_protected_len (g_kv g)) ∧
    a_slots a = take (Z.to_nat (cache_protected_len (g_kv g))) (g_row g);
}.

(** The slots that belong to somebody: the requests, the tree or the pool. *)
Definition all_slots (c : RadixCache) (A : atree) (gs : list greq) : list Z :=
  concat (g_private c <$> gs) ++ tree_slots A ++ pool_slots c.

(** The requests own their rows, pages and nodes; no slot has two owners, and no slot
    and no row is lost. *)
Record batch_inv (c : RadixCache) (A : atree) (p : ReqToTokenPool) (gs : list greq) : Prop := {
  bi_inv : Inv c A;
  bi_kv : kv_ok c A;
  bi_enabled : disable c = false;
  bi_runs : Forall (runs c A p) gs;
  bi_nodup : NoDup (all_slots c A gs);
  bi_small : Forall (λ x, 0 ≤ x < 2 ^ 31) (all_slots c A gs);
  bi_total : zlen (all_slots c A gs) = total_slots;
  bi_rows : pool_ok p (g_idx <$> gs);
  bi_held i a : A !! i = Some a → i ≠ root_node c → holders gs i ≤ a_held a;
}.

#[global] Instance batch_inv_proper c A p : Proper ((≡ₚ) ==> iff) (batch_inv c A p).
Proof.
  assert (∀ gs gs', gs ≡ₚ gs' → batch_inv c A p gs → batch_inv c A p gs') as Himp.
  { intros gs gs' HP [? ? ? ? Hnd Hsm Ht Ho Hh]. assert (all_slots c A gs' ≡ₚ all_slots c A gs) as Hs by (unfold all_slots; by rewrite HP).
    constructor; rewrite ?Hs; try done; rewrite <-?HP; try done.
    - intros i a Hi Hr. specialize (Hh i a Hi Hr). unfold holders in *. by rewrite <-HP. }
  intros gs gs' HP. split; by apply Himp.
Qed.

Lemma zlen_row g : 0 < g_len g ≤ zlen (g_full g) → zlen (g_row g) = g_len g.
Proof. intros. unfold g_row. rewrite zlen_slice_to by lia. lia. Qed.

Lemma effective_le strip r :
  0 ≤ kv_committed_len (kv r) → 0 ≤ effective_kv_committed_len strip r ≤ kv_committed_len (kv r).
Proof. unfold effective_kv_committed_len. pose proof (zlen_nonneg (origin_input_ids r)). case_match; lia. Qed.

Lemma zlen_g_toks c A p g :
  runs c A p g → zlen (g_toks g) = effective_kv_committed_len strip_thinking_cache (base (g_req g)).
Proof.
  intros [_ _ _ _ _ Hc _ Ht _ _ _]. pose proof (effective_le strip_thinking_cache (base (g_req g)) (proj1 Hc)) as He.
  unfold g_toks. rewrite zlen_slice_to by lia. unfold g_kv in *. lia.
Qed.

Lemma batch_owns c A p g gs :
  batch_inv c A p (g :: gs) →
  ∃ a, owns c A (req_ns (base (g_req g))) (req_units c (base (g_req g)) (g_toks g)) (g_pages g) (g_row g)
         (cache_protected_len (g_kv g)) (g_node g) a.
Proof.
  intros [Hinv Hkv Hd Hr Hnd _ _ _ Hh]. apply Forall_cons in Hr as [Hg _].
  pose proof (zlen_g_toks c A p g Hg) as Ht. pose proof Hg as [_ _ _ _ Hl Hc _ _ HR _ (a & Hw & Hs)].
  exists a. constructor; try done.
  - destruct (req_key_len c A (base (g_req g)) (g_toks g) Hinv) as (_ & _ & Hu).
    pose proof (effective_le strip_thinking_cache (base (g_req g)) (proj1 Hc)). rewrite zlen_row by done.
    unfold g_kv in *. lia.
  - intros Hi. specialize (Hh (g_node g) a (proj1 Hw) Hi). unfold holders in Hh.
    rewrite filter_cons_True, zlen_cons in Hh by done. pose proof (zlen_nonneg (filter (λ g', g_node g' = g_node g) gs)). lia.
  - unfold all_slots in Hnd. rewrite fmap_cons in Hnd. cbn [concat] in Hnd. rewrite <-app_assoc in Hnd.
    eapply sublist_NoDup; [exact Hnd|]. apply sublist_app; [done|]. by apply sublist_inserts_l.
Qed.

(** A request keeps what it owns while its row and the node it holds stay. *)
(** The request does not notice a change of the tree that leaves its node in place. *)
Lemma runs_moved c c' A A' p p' g :
  settings c' = settings c → req_to_token p' !! Z.to_nat (g_idx g) = req_to_token p !! Z.to_nat (g_idx g) →
  (∀ a, A !! g_node g = Some a → ∃ a', A' !! g_node g = Some a' ∧
     a_ns a' = a_ns a ∧ a_path a' = a_path a ∧ a_slots a' = a_slots a) →
  runs c A p g → runs c' A' p' g.
Proof.
  intros Hset Hrow Hn [H1' H2' H3' H4' H5' H6' H7' H8' H9' H10' (a & (Ha & Hns & Hcpl & Hpath) & Hs)].
  destruct (settings_fields c c' Hset) as (_ & Eps & Ee & Er & _).
  constructor; rewrite ?Eps, ?Er, ?Hrow; try done.
  destruct (Hn a Ha) as (a' & Ha' & S1 & S2 & S3). exists a'.
  assert (req_units c' (base (g_req g)) (g_toks g) = req_units c (base (g_req g)) (g_toks g)) as ->.
  { unfold req_units, req_key. by rewrite Eps, Ee. }
  rewrite S3. split; [|done]. split; [done|]. split; [intros Hr; rewrite S1; by apply Hns|].
  split; [done|]. by rewrite S2.
Qed.

Lemma runs_transport c c' A A' p p' g :
  settings c' = settings c → req_to_token p' !! Z.to_nat (g_idx g) = req_to_token p !! Z.to_nat (g_idx g) →
  (∀ a, A !! g_node g = Some a → ∃ a', A' !! g_node g = Some a' ∧ same_shape a' a) →
  runs c A p g → runs c' A' p' g.
Proof.
  intros Hset Hrow Hn. apply runs_moved; [done|done|]. intros a Ha.
  destruct (Hn a Ha) as (a' & Ha' & _ & Hk & _ & Hp & Hs). exists a'. by rewrite Hk.
Qed.

(** A node that somebody holds is locked. *)
Lemma held_locked c A i a : Inv c A → A !! i = Some a → i ≠ root_node c → 1 ≤ a_held a → a_lock a ≠ 0.
Proof.
  intros Hinv Hi Hr Hh. pose proof (inv_locks c A Hinv) as Hl. destruct (Hl i a Hi) as (_ & _ & ->); [|done].
  enough (0 ≤ children_locks A i) by lia. apply msum_nonneg. intros j b Hj.
  destruct (Hl j b Hj) as (? & _). by case_decide.
Qed.

Lemma holders_cons g gs i : holders (g :: gs) i = holders gs i + (if decide (g_node g = i) then 1 else 0).
Proof.
  unfold holders. case_decide; [rewrite filter_cons_True by done|rewrite filter_cons_False by done];
    rewrite ?zlen_cons; lia.
Qed.

Lemma holders_elem g gs : g ∈ gs → 1 ≤ holders gs (g_node g).
Proof.
  intros Hg. unfold holders. destruct (filter _ gs) as [|x l] eqn:E; [|rewrite zlen_cons; pose proof (zlen_nonneg l); lia].
  assert (g ∈ filter (λ g', g_node g' = g_node g) gs) as Hin by (by apply list_elem_of_filter).
  rewrite E in Hin. by apply not_elem_of_nil in Hin.
Qed.

(** Nobody refers to a node that is not there. *)
Lemma holders_none c A p gs i : Forall (runs c A p) gs → A !! i = None → holders gs i = 0.
Proof.
  intros Hr Hi. unfold holders. rewrite filter_none; [done|]. eapply Forall_impl; [exact Hr|].
  intros g [_ _ _ _ _ _ _ _ _ _ (a & (Ha & _) & _)] He. congruence.
Qed.

Lemma g_private_settings c c' g : settings c' = settings c → g_private c' g = g_private c g.
Proof. intros Hset. destruct (settings_fields c c' Hset) as (_ & Eps & _). unfold g_private, private. by rewrite Eps. Qed.

Lemma all_privates c c' (gs : list greq) : settings c' = settings c → g_private c' <$> gs = g_private c <$> gs.
Proof. intros. apply list_fmap_ext. intros. by apply g_private_settings. Qed.

Context `{BatchAllocator} `{!BatchLaws}.

Lemma batch_room n c A p gs :
  batch_inv c A p gs →
  ∃ c' A', evict_from_tree_cache n c = Ok c' ∧ batch_inv c' A' p gs ∧ roomier n c c' A A'.
Proof.
  intros [Hinv Hkv Hd Hr Hnd Hsm Htot Hro Hh]. destruct (make_room n c A Hinv Hkv Hd) as (c' & A' & Hrun & Hroom).
  exists c', A'. split; [done|]. split; [|done]. destruct Hroom as [R1 R2 Hset R4 Hlock Hsub _ _].
  destruct (settings_fields c c' Hset) as (Ed & _ & _ & Er & _).
  assert (all_slots c' A' gs ≡ₚ all_slots c A gs) as HP.
  { unfold all_slots. by rewrite R4, (all_privates c c' gs Hset). }
  constructor; rewrite ?HP; try done.
  - by rewrite Ed.
  - apply Forall_forall. intros g Hg. eapply Forall_forall in Hr; [|exact Hg].
    eapply runs_transport; [done|done| |exact Hr]. intros a Ha. exists a. split; [|done].
    apply Hlock; [done|]. destruct (decide (g_node g = root_node c)) as [|Hne]; [by left|right].
    apply (held_locked c A (g_node g)); try done. pose proof (holders_elem g gs Hg).
    specialize (Hh _ a Ha Hne). lia.
  - intros i a Hi. rewrite Er. by apply Hh, Hsub.
Qed.

(** ** Releasing a request *)

(** A request after its retraction. *)
Definition retracted_of (r : SReq) : SReq :=
  let b := set_range (set_last_node (set_prefix_indices (base r) []) None) None in
  mkSReq (obj r) (set_kv b (mkKv None 0 0 0 (swa_evict_floor (kv b)) 0)) (max_new_tokens r) (ignore_eos r)
    (PrefillAdder.priority r) (wait_queue_entry_time r) (best_match_node r) (host_hit_length r)
    (swa_host_hit_length r) (mamba_host_hit_length r) (storage_hit_length r) true false (dllm_incomplete_ids r)
    (is_finished r) None.

Lemma release_batch c A p g gs is_insert :
  batch_inv c A p (g :: gs) →
  ∃ p' c' A', release_kv_cache spec_algo_none strip_thinking_cache (base (g_req g)) is_insert p c =
      Ok (set_kv (base (g_req g)) (mark_kv_released (set_req_pool_idx (g_kv g) None)), p', c') ∧
    batch_inv c' A' p' gs ∧ settings c' = settings c ∧
    req_to_token p' = req_to_token p ∧ max_context_len p' = max_context_len p ∧
    (is_insert = false → relocked (root_node c) A A' (g_node g) (-1)).
Proof.
  intros Hb. destruct (batch_owns c A p g gs Hb) as (a & Hown).
  pose proof Hb as [Hinv Hkv Hd Hr Hnd Hsm Htot Hro Hh]. apply Forall_cons in Hr as [Hg Hr].
  pose proof (zlen_g_toks c A p g Hg) as Ht. pose proof Hg as [G1 G2 G3 G4 G5 G6 G7 G8 _ _ _].
  pose proof (effective_le strip_thinking_cache (base (g_req g)) (proj1 G6)) as He. fold (g_kv g) in He.
  rewrite fmap_cons in Hro.
  assert (0 ≤ g_idx g) as Hidx.
  { assert (g_idx g ∈ zrange 1 (alloc_size p)) as Hin%elem_of_zrange; [|lia].
    rewrite <-(po_rows _ _ Hro). apply elem_of_app. right. by left. }
  destruct (release_kv_spec spec_algo_none strip_thinking_cache is_insert (base (g_req g)) p c A (g_full g)
    (g_pages g) (g_idx <$> gs) (g_idx g) (g_node g) a)
    as (r1 & p1 & c1 & A1 & Hrun & Hinv1 & Hkv1 & HP1 & Hpool1 & [-> Erows] & Hset1 & Hre & Hnk & Ectx); try done.
  { by apply py_get_lookup. }
  { unfold g_len, g_kv in *. lia. }
  { unfold g_len, g_kv in *. lia. }
  { intros [Hs Hst]%andb_true_iff. unfold effective_kv_committed_len.
    destruct strip_thinking_cache; [done|]. by apply G7. }
  exists p1, c1, A1. split; [exact Hrun|]. split; [|done].
  destruct (settings_fields c c1 Hset1) as (Ed1 & _ & _ & Er1 & _).
  assert (all_slots c1 A1 gs ≡ₚ all_slots c A (g :: gs)) as HP.
  { unfold all_slots. rewrite (all_privates c c1 gs Hset1), HP1, fmap_cons. cbn [concat].
    fold (g_row g) (g_kv g) (g_private c g). solve_Permutation. }
  constructor; rewrite ?HP; try done.
  - by rewrite Ed1.
  - eapply Forall_impl; [exact Hr|]. intros g' Hg'. eapply runs_moved; [done|by rewrite Erows| |exact Hg'].
    intros b Hbn. destruct (Hnk _ b Hbn) as (b' & ? & ? & ? & ? & _). by exists b'.
  - intros i b' Hi Hir. rewrite Er1 in Hir. destruct (A !! i) as [b|] eqn:Hbi.
    + destruct (Hnk i b Hbi) as (b1 & Hb1 & _ & _ & _ & Hheld). same_lookup. specialize (Hh i b Hbi Hir).
      rewrite holders_cons in Hh. rewrite (Hheld Hir). unfold one_at.
      destruct (decide (g_node g = i)), (decide (i = g_node g)); (congruence || lia).
    + rewrite (holders_none c A p gs i Hr Hbi). apply (inv_locks c1 A1 Hinv1 i b' Hi).
Qed.

(** The pages of a request that leaves go to the pool when the tree takes none. *)
Lemma left_available c c' A A' p p' g gs :
  batch_inv c A p (g :: gs) → batch_inv c' A' p' gs → settings c' = settings c → tree_slots A' ≡ₚ tree_slots A →
  kv_available (kv_allocator c) ≤ kv_available (kv_allocator c').
Proof.
  intros Hb Hb' Hset Ht%zlen_proper. pose proof (bi_total _ _ _ _ Hb) as Hn. rewrite <-(bi_total _ _ _ _ Hb') in Hn.
  unfold all_slots in Hn. rewrite (all_privates c c' gs Hset), fmap_cons in Hn. cbn [concat] in Hn.
  rewrite !zlen_app in Hn. pose proof (zlen_nonneg (g_private c g)).
  rewrite (available_pool_slots c A (bi_inv _ _ _ _ Hb) (bi_kv _ _ _ _ Hb)).
  rewrite (available_pool_slots c' A' (bi_inv _ _ _ _ Hb') (bi_kv _ _ _ _ Hb')). lia.
Qed.

Lemma release_one c A p g gs n :
  batch_inv c A p (g :: gs) →
  ∃ c' p' A', release_req (g_req g) n (c, p) = Ok (retracted_of (g_req g), (c', p')) ∧ batch_inv c' A' p' gs ∧
    settings c' = settings c ∧ req_to_token p' = req_to_token p ∧ max_context_len p' = max_context_len p ∧
    memory_left c ≤ memory_left c'.
Proof.
  intros Hb. destruct (release_batch c A p g gs false Hb) as (p1 & c1 & A1 & Hrun & Hb1 & Hset1 & Ht & Hc & Hre).
  destruct (batch_room (n * RETRACT_DECODE_STEPS) c1 A1 p1 gs Hb1) as (c2 & A2 & Hrun2 & Hb2 & Hroom).
  unfold release_req. rewrite Hrun. cbn [mbind res_bind]. rewrite Hrun2. cbn [mbind res_bind].
  unfold reset_for_retract. cbn. exists c2, p1, A2. split; [done|]. split; [done|].
  split; [by rewrite (rm_settings _ _ _ _ _ Hroom)|]. split; [done|]. split; [done|].
  etransitivity; [|apply (roomier_memory _ _ _ _ _ (bi_inv _ _ _ _ Hb1) (bi_kv _ _ _ _ Hb1) Hroom)].
  pose proof (unlocked_evictable c c1 A A1 _ (bi_inv _ _ _ _ Hb) (bi_inv _ _ _ _ Hb1) (Hre eq_refl)).
  pose proof (left_available c c1 A A1 p p1 g gs Hb Hb1 Hset1 (relocked_tree_slots _ _ _ _ _ (Hre eq_refl))).
  unfold memory_left. lia.
Qed.
End batch.
