(* ===== verification/RetractTheorems.v ===== *)
(** * Retraction leaves a batch that fits

    The memory check of a decode step ([check_decode_mem]) and [retract_decode] on a
    batch that owns its memory ([batch_inv]). *)

From S2P Require Import Prelude PyFloat PySort Allocator AllocKernels RadixKey PrefixTree TreeNode ReqPool Events.
From S2P Require Import RadixCache RadixInv RadixWalk RadixLock RadixEvict ReqCache ReqOwnership.
From S2P Require Import PrefillAdder RadixPools Allocation BatchAlloc RunningBatch Retract.
Import Allocator.

(** ** Selections of a batch *)

Definition sel {A} (l : list A) (order : list nat) : list A := omap (λ i, l !! i) order.

Lemma sel_app {A} (l : list A) o1 o2 : sel l (o1 ++ o2) = sel l o1 ++ sel l o2.
Proof. apply omap_app. Qed.

Lemma sel_reverse {A} (l : list A) o : sel l (reverse o) = reverse (sel l o).
Proof.
  induction o as [|i o IH]; [done|]. rewrite reverse_cons, sel_app, IH. change (i :: o) with ([i] ++ o).
  rewrite sel_app, reverse_app. f_equal. unfold sel. cbn. by destruct (l !! i).
Qed.

Lemma sel_seq {A} (l : list A) : sel l (seq 0 (length l)) = l.
Proof.
  induction l as [|x l IH] using rev_ind; [done|]. rewrite length_app, Nat.add_1_r, seq_S, sel_app. cbn [plus].
  assert (sel (l ++ [x]) [length l] = [x]) as ->.
  { unfold sel. cbn [omap list_omap]. by rewrite list_lookup_middle. }
  f_equal. rewrite <-IH at 3.
  unfold sel. clear IH. assert (∀ i, i ∈ seq 0 (length l) → (l ++ [x]) !! i = l !! i) as Hi.
  { intros i [_ Hi]%elem_of_seq. by rewrite lookup_app_l by lia. }
  induction (seq 0 (length l)) as [|i s IH]; [done|]. cbn. rewrite Hi by (by left).
  rewrite IH; [done|]. intros. apply Hi. by right.
Qed.

Lemma sel_fmap {A B} (f : A → B) (l : list A) order : sel (f <$> l) order = f <$> sel l order.
Proof.
  induction order as [|i s IH]; [done|]. unfold sel in *. cbn. rewrite list_lookup_fmap.
  destruct (l !! i); cbn; by rewrite IH.
Qed.

Lemma sel_sub {A} (l : list A) order : sel l order ⊆ l.
Proof. intros x Hx. apply list_elem_of_omap in Hx as (i & _ & Hi). by eapply list_elem_of_lookup_2. Qed.

Lemma sel_length {A} (l : list A) order :
  Forall (λ i, (i < length l)%nat) order → length (sel l order) = length order.
Proof.
  induction 1 as [|i s Hi _ IH]; [done|]. unfold sel in *. cbn.
  destruct (lookup_lt_is_Some_2 l i Hi) as [x ->]. cbn. by rewrite IH.
Qed.

Lemma pick_sel {A} (l : list A) order :
  Forall (λ i, (i < length l)%nat) order → pick l order = Ok (sel l order).
Proof.
  induction 1 as [|i s Hi _ IH]; [done|]. unfold pick, sel in *. cbn [mapM omap].
  destruct (lookup_lt_is_Some_2 l i Hi) as [x Hx].
  assert (py_get l (Z.of_nat i) = Ok x) as -> by (apply py_get_lookup; [lia|by rewrite Nat2Z.id]).
  cbn [mbind res_bind]. rewrite IH. cbn. by rewrite Hx.
Qed.

Section retraction.
Context `{Clock} `{SetOrder} `{HashLaws} `{KVAllocator} `{KVFree} `{RetractSettings} `{RetractionPolicy} `{Census}.
Context `{BatchAllocator} `{!BatchLaws}.
Context (spec : SpecConfig).
Hypothesis Hspec : spec_algo_none = true ∨ ∃ n, get_alloc_reserve_per_decode spec = Ok n.

(** The tokens the next decode step may take for these requests. *)
Definition step_need (reqs : list SReq) (ps : Z) : Z :=
  match new_tokens_required_next_decode spec reqs ps with Ok n => n | Err _ => 0 end.

Lemma required_ok reqs ps : new_tokens_required_next_decode spec reqs ps = Ok (step_need reqs ps).
Proof.
  unfold step_need, new_tokens_required_next_decode, new_tokens_required_next_decode_spec_v2.
  destruct Hspec as [->|[n Hn]]; [done|]. destruct spec_algo_none; [done|]. by rewrite Hn.
Qed.

Lemma step_need_nil ps : step_need [] ps = 0.
Proof.
  unfold step_need, new_tokens_required_next_decode, new_tokens_required_next_decode_spec_v2.
  destruct spec_algo_none; [done|]. by destruct (get_alloc_reserve_per_decode spec).
Qed.

Definition fits (c : RadixCache) (reqs : list SReq) : Prop :=
  step_need reqs (cpage_size c) ≤ kv_available (kv_allocator c).

(** The check keeps the batch, and its answer is right for the memory it leaves. *)
Lemma check_spec c A p gs requests sel_idx :
  batch_inv c A p gs →
  match sel_idx with None => Ok requests | Some l => pick requests l end = Ok (g_req <$> gs) →
  ∃ ok c' A', check_decode_mem spec requests sel_idx c = Ok (ok, c') ∧ batch_inv c' A' p gs ∧
    settings c' = settings c ∧ (ok = true ↔ fits c' (g_req <$> gs)) ∧
    (ok = false → kv_available (kv_allocator c) + evictable_size_ c < step_need (g_req <$> gs) (cpage_size c)).
Proof.
  intros Hb Hsel. unfold check_decode_mem. rewrite Hsel. cbn [mbind res_bind].
  rewrite (kv_ps c A (bi_kv _ _ _ _ Hb)), required_ok. cbn [mbind res_bind]. unfold check_decode_capacity.
  destruct (batch_room (step_need (g_req <$> gs) (cpage_size c)) c A p gs Hb) as (c' & A' & -> & Hb' & Hroom).
  cbn [mbind res_bind]. eexists _, c', A'. split; [done|]. split; [done|].
  split; [apply (rm_settings _ _ _ _ _ Hroom)|].
  destruct (settings_fields c c' (rm_settings _ _ _ _ _ Hroom)) as (_ & Eps & _).
  split; [unfold fits; rewrite Eps; apply Z.leb_le|]. intros Hf%Z.leb_gt.
  pose proof (rm_enough _ _ _ _ _ Hroom). lia.
Qed.

(** ** The loop *)

(** The requests as retraction leaves them. *)
Definition given_up (gs : list greq) : list SReq := (λ g, retracted_of (g_req g)) <$> gs.

Section loop.
Context (gs0 : list greq) (order0 : list nat) (c0 : RadixCache) (p0 : ReqToTokenPool).
Hypothesis Horder : order0 ≡ₚ seq 0 (length gs0).
Let reqs := g_req <$> gs0.

(** The table and its width stay. *)
Definition same_table (p : ReqToTokenPool) : Prop :=
  req_to_token p = req_to_token p0 ∧ max_context_len p = max_context_len p0.

Lemma order0_valid order : order `prefix_of` order0 → Forall (λ i, (i < length gs0)%nat) order.
Proof.
  intros [k E]. apply Forall_forall. intros i Hi. assert (i ∈ seq 0 (length gs0)) as [_ Hlt]%elem_of_seq; [|lia].
  rewrite <-Horder, E. apply elem_of_app. by left.
Qed.

Lemma pick_reqs order : order `prefix_of` order0 → pick reqs order = Ok (g_req <$> sel gs0 order).
Proof.
  intros Hp. unfold reqs. rewrite pick_sel, sel_fmap; [done|].
  rewrite length_fmap. by apply order0_valid.
Qed.

(** What holds between two turns: the requests of [order] own their memory and the
    others were given up, the last of the order first. *)
Definition kept_inv (order : list nat) (given : list SReq) (s : RadixCache * ReqToTokenPool) : Prop :=
  ∃ A rest, order0 = order ++ rest ∧ order ≠ [] ∧ batch_inv s.1 A s.2 (sel gs0 order) ∧
    given = given_up (sel gs0 (reverse rest)) ∧ settings s.1 = settings c0 ∧ same_table s.2.

Definition loop_inv (st : bool * list nat * list SReq * (RadixCache * ReqToTokenPool)) : Prop :=
  let '(first, order, given, s) := st in
  kept_inv order given s ∧ (first = false → given ≠ []).
Definition loop_end (r : list nat * list SReq * (RadixCache * ReqToTokenPool)) : Prop :=
  let '(order, given, s) := r in
  kept_inv order given s ∧ (length order = 1%nat ∨ given ≠ [] ∧ fits s.1 (g_req <$> sel gs0 order)).

(** Giving up the last request of the order. *)
Lemma release_last order idx given c p n :
  kept_inv (order ++ [idx]) given (c, p) →
  ∃ req req' c' A' p', py_get reqs (Z.of_nat idx) = Ok req ∧ release_req req n (c, p) = Ok (req', (c', p')) ∧
    batch_inv c' A' p' (sel gs0 order) ∧ ∃ rest, order0 = order ++ rest ∧
    given ++ [req'] = given_up (sel gs0 (reverse rest)) ∧ settings c' = settings c0 ∧ same_table p'.
Proof.
  intros (A & rest & E & _ & Hb & Hg & Hset & Hst). cbn [fst snd] in Hb, Hst. rewrite sel_app in Hb.
  assert (idx < length gs0)%nat as Hlt.
  { assert ((order ++ [idx]) `prefix_of` order0) as Hp by (by exists rest).
    apply order0_valid, Forall_app in Hp as [_ Hp]. by apply Forall_cons in Hp as [? _]. }
  destruct (lookup_lt_is_Some_2 gs0 idx Hlt) as [g Hgx].
  assert (sel gs0 [idx] = [g]) as Eg by (unfold sel; cbn; by rewrite Hgx).
  rewrite Eg, (Permutation_app_comm _ [g]) in Hb.
  destruct (release_one c A p g (sel gs0 order) n Hb) as (c' & p' & A' & Hrun & Hb' & Hset' & Ht' & Hc' & _).
  exists (g_req g), (retracted_of (g_req g)), c', A', p'. split.
  { apply py_get_lookup; [lia|]. unfold reqs. by rewrite Nat2Z.id, list_lookup_fmap, Hgx. }
  split; [done|]. split; [done|]. exists (idx :: rest). split; [by rewrite E, <-app_assoc|].
  split; [|split; [by rewrite Hset'|destruct Hst; split; congruence]].
  rewrite Hg, reverse_cons, sel_app, Eg. unfold given_up. by rewrite fmap_app.
Qed.

Lemma check_kept order given c p :
  kept_inv order given (c, p) →
  ∃ ok c', check_decode_mem spec reqs (Some order) c = Ok (ok, c') ∧ kept_inv order given (c', p) ∧
    (ok = true ↔ fits c' (g_req <$> sel gs0 order)).
Proof.
  intros (A & rest & E & Hne & Hb & Hg & Hset & Hst). cbn [fst snd] in Hb, Hset, Hst.
  destruct (check_spec c A p _ reqs (Some order) Hb) as (ok & c' & A' & Hrun & Hb' & Hset' & Hok & _).
  { apply pick_reqs. by exists rest. }
  exists ok, c'. split; [done|]. split; [|done]. exists A', rest. cbn [fst snd]. rewrite Hset'. by split_and!.
Qed.

Lemma retract_step_spec st :
  loop_inv st →
  (∃ st', retract_step spec reqs st = Ok (inl st') ∧ loop_inv st' ∧ (length st'.1.1.2 < length st.1.1.2)%nat) ∨
  (∃ r, retract_step spec reqs st = Ok (inr r) ∧ loop_end r).
Proof.
  destruct st as [[[first order] given] [c p]]. intros [Hk Hf]. cbn [fst snd].
  assert (∃ go c1, (if first then Ok (true, c)
     else '(ok, c) ← check_decode_mem spec reqs (Some order) c; Ok (negb ok, c)) = Ok (go, c1) ∧
     kept_inv order given (c1, p) ∧ (go = false → given ≠ [] ∧ fits c1 (g_req <$> sel gs0 order)))
    as (go & c1 & Hgo & Hk1 & Hstop).
  { destruct first; [by exists true, c|].
    destruct (check_kept order given c p Hk) as (ok & c1 & -> & Hk1 & Hok).
    exists (negb ok), c1. split; [done|]. split; [done|]. intros ->%negb_false_iff.
    split; [by apply Hf|by apply Hok]. }
  unfold retract_step. rewrite Hgo. cbn [mbind res_bind]. destruct go; cbn [negb]; [|right].
  2:{ eexists. split; [done|]. split; [done|]. right. by apply Hstop. }
  destruct (Z.eqb_spec (zlen order) 1) as [E1|E1]; [right|left].
  { eexists. split; [done|]. split; [done|]. left. unfold zlen in E1. lia. }
  pose proof Hk1 as (_ & _ & _ & Hne & _).
  destruct order as [|idx order _] using rev_ind; [done|].
  rewrite last_snoc, removelast_last.
  destruct (release_last order idx given c1 p (zlen order) Hk1)
    as (req & req' & c2 & A2 & p2 & -> & Hrel & Hb2 & rest & E2 & Hobj & Hset & Hst). cbn [mbind res_bind].
  rewrite Hrel. cbn [mbind res_bind]. eexists. split; [done|]. cbn [fst snd].
  split; [|rewrite length_app; cbn; lia]. split; [|by destruct given].
  exists A2, rest. split_and!; try done. intros ->. done.
Qed.

Lemma retract_loop_spec c p A :
  settings c = settings c0 → same_table p → gs0 ≠ [] → batch_inv c A p (sel gs0 order0) →
  ∃ r, while (S (length reqs)) (retract_step spec reqs) (true, order0, [], (c, p)) = Ok r ∧ loop_end r.
Proof.
  intros Hc0 Hp0 Hne Hb. apply (while_total loop_inv (λ st, length st.1.1.2) loop_end (retract_step spec reqs)).
  - apply retract_step_spec.
  - split; [|done]. exists A, []. rewrite app_nil_r. split_and!; try done.
    intros E. rewrite E in Horder. apply Permutation_nil_l in Horder. by destruct gs0.
  - cbn [fst snd]. unfold reqs. rewrite length_fmap, Horder, length_seq. lia.
Qed.

(** The request that remains is aborted when even it does not fit. *)
Lemma abort_last_spec order given s :
  loop_end (order, given, s) →
  ∃ order' aborted s' A' rest, abort_last spec reqs order s = Ok (order', aborted, s') ∧
    order0 = order' ++ rest ∧ batch_inv s'.1 A' s'.2 (sel gs0 order') ∧
    fits s'.1 (g_req <$> sel gs0 order') ∧ (order' = [] ∨ order' = order ∧ aborted = []) ∧
    given ++ aborted = given_up (sel gs0 (reverse rest)) ∧ settings s'.1 = settings c0 ∧ same_table s'.2.
Proof.
  destruct s as [c p]. intros [Hk Hend]. unfold abort_last. destruct (Z.leb_spec (zlen order) 1) as [Hle|Hgt]; cbn [negb].
  2:{ destruct Hk as (A & rest & E & Hne & Hb & Hg & Hset & Hst). destruct Hend as [?|[_ Hfit]]; [unfold zlen in *; lia|].
      exists order, [], (c, p), A, rest. rewrite app_nil_r. split_and!; try done. by right. }
  destruct (check_kept order given c p Hk) as (ok & c1 & -> & Hk1 & Hok). cbn [mbind res_bind].
  destruct ok.
  { destruct Hk1 as (A & rest & E & Hne & Hb & Hg & Hset & Hst). exists order, [], (c1, p), A, rest. rewrite app_nil_r.
    split_and!; try done; [by apply Hok|by right]. }
  pose proof Hk1 as (_ & _ & _ & Hne & _). destruct order as [|idx order _] using rev_ind; [done|].
  rewrite last_snoc, removelast_last.
  destruct (release_last order idx given c1 p 0 Hk1)
    as (req & req' & c2 & A2 & p2 & -> & Hrel & Hb2 & rest & E2 & Hobj & Hset & Hst). cbn [mbind res_bind].
  rewrite Hrel. cbn [mbind res_bind]. assert (order = []) as ->.
  { apply zlen_0. rewrite zlen_app in Hle. change (zlen [idx]) with 1 in Hle. pose proof (zlen_nonneg order). lia. }
  exists [], [req'], (c2, p2), A2, rest. split_and!; try done; [|by left].
  unfold fits. cbn. rewrite step_need_nil.
  rewrite (available_pool_slots _ A2 (bi_inv _ _ _ _ Hb2) (bi_kv _ _ _ _ Hb2)). apply zlen_nonneg.
Qed.
End loop.

(** ** [retract_decode] *)

Definition batch_of (b : DecodeBatch) (gs : list greq) : Prop :=
  d_reqs b = g_req <$> gs ∧ d_req_pool_indices b = g_idx <$> gs ∧
  d_seq_lens b = (λ g, kv_committed_len (g_kv g)) <$> gs.

(** The requests in the order in which they are kept. *)
Definition preference (reqs : list SReq) : list SReq := (py_sorted retraction_order (imap pair reqs)).*2.

Lemma imap_fst {A} (l : list A) : (imap pair l).*1 = seq 0 (length l).
Proof.
  apply list_eq. intros i. rewrite list_lookup_fmap, list_lookup_imap.
  destruct (decide (i < length l)%nat) as [Hi|Hi].
  - destruct (lookup_lt_is_Some_2 l i Hi) as [x Hx]. rewrite Hx, lookup_seq_lt by done. done.
  - rewrite (lookup_ge_None_2 l), lookup_seq_ge by lia. done.
Qed.

Lemma order_Permutation reqs : get_decode_retraction_order reqs ≡ₚ seq 0 (length reqs).
Proof. unfold get_decode_retraction_order. by rewrite py_sorted_Permutation, imap_fst. Qed.

Lemma preference_sel reqs : sel reqs (get_decode_retraction_order reqs) = preference reqs.
Proof.
  unfold preference, get_decode_retraction_order.
  assert (∀ x, x ∈ py_sorted retraction_order (imap pair reqs) → reqs !! x.1 = Some x.2) as Hx.
  { intros [i r] Hin. rewrite py_sorted_Permutation in Hin. apply elem_of_lookup_imap in Hin as (j & y & [= -> ->] & Hy). done. }
  induction (py_sorted retraction_order (imap pair reqs)) as [|x l IH]; [done|]. unfold sel in *. cbn.
  rewrite (Hx x) by (by left). cbn. rewrite IH; [done|]. intros. apply Hx. by right.
Qed.

Lemma filter_batch_spec b gs order :
  batch_of b gs → Forall (λ i, (i < length gs)%nat) order → (length order = length gs → sel gs order = gs) →
  ∃ b', filter_batch order b = Ok b' ∧ d_reqs b' = g_req <$> sel gs order ∧
    (order = [] ∨ batch_of b' (sel gs order)).
Proof.
  intros (E1 & E2 & E3) Hv Hfull. unfold filter_batch. destruct (Z.eqb_spec (zlen order) 0) as [->%zlen_0|Hz].
  { eexists. split; [done|]. split; [done|]. by left. }
  destruct (Z.eqb_spec (zlen order) (zlen (d_reqs b))) as [Hl|Hl].
  { rewrite Hfull by (rewrite E1, zlen_fmap in Hl; unfold zlen in Hl; lia). exists b. split; [done|]. split; [done|]. by right. }
  rewrite E1, E2, E3, !pick_sel by (by rewrite length_fmap). cbn [mbind res_bind].
  eexists. split; [done|]. rewrite !sel_fmap. split; [done|]. by right.
Qed.

(** Every way out of [retract_decode]. *)
Record retracted_to (c : RadixCache) (p : ReqToTokenPool) (gs : list greq) (b' : DecodeBatch) (given aborted : list SReq) (c' : RadixCache)
    (p' : ReqToTokenPool) (gs' : list greq) (A' : atree) : Prop := {
  rt_inv : batch_inv c' A' p' gs';
  rt_reqs : d_reqs b' = g_req <$> gs';
  rt_batch : gs' = [] ∨ batch_of b' gs';
  rt_sub : gs' ⊆ gs;
  rt_fits : fits c' (d_reqs b');
  rt_order : obj <$> (d_reqs b' ++ reverse (given ++ aborted)) = obj <$> preference (g_req <$> gs);
  rt_some : (1 < length gs)%nat → given ≠ [];
  rt_abort : aborted ≠ [] → d_reqs b' = [];
  rt_given : ∃ l, l ⊆ gs ∧ given ++ aborted = given_up l;
  rt_settings : settings c' = settings c;
  rt_table : same_table p p';
}.

Lemma retract_decode_spec b gs c A p :
  batch_inv c A p gs → batch_of b gs → gs ≠ [] →
  ∃ b' given q aborted c' p' gs' A', retract_decode spec b (c, p) = Ok (b', given, q, aborted, (c', p')) ∧
    retracted_to c p gs b' given aborted c' p' gs' A'.
Proof.
  intros Hb Hof Hne. unfold retract_decode. rewrite (proj1 Hof).
  set (order0 := get_decode_retraction_order (g_req <$> gs)).
  assert (order0 ≡ₚ seq 0 (length gs)) as Ho.
  { unfold order0. rewrite order_Permutation. by rewrite length_fmap. }
  assert (batch_inv c A p (sel gs order0)) as Hb0.
  { assert (sel gs order0 ≡ₚ gs) as ->; [|done]. rewrite <-(sel_seq gs) at 2. unfold sel. by rewrite Ho. }
  destruct (retract_loop_spec gs order0 c p Ho c p A eq_refl (conj eq_refl eq_refl) Hne Hb0) as ([[order given] s] & -> & Hend). cbn [mbind res_bind].
  destruct (abort_last_spec gs order0 c p Ho order given s Hend)
    as (order' & aborted & [c' p'] & A' & rest & -> & E & Hb' & Hfit & Hcase & Hobj & Hset & Hst). cbn [mbind res_bind fst snd] in *.
  assert ((1 < length gs)%nat → given ≠ []) as Hsome.
  { intros Hlen ->. destruct Hend as [(A1 & rest1 & E1 & _ & _ & Hg1 & _ & _) Hl]. destruct Hl as [Hl|[? _]]; [|done].
    pose proof (Permutation_length Ho) as Hlo. rewrite E1, length_seq, length_app, Hl in Hlo.
    symmetry in Hg1. apply fmap_nil_inv, (f_equal length) in Hg1.
    rewrite sel_length, length_reverse in Hg1; [cbn in Hg1; lia|].
    rewrite reverse_Permutation. assert (Forall (λ i, (i < length gs)%nat) (order ++ rest1)) as Hv.
    { rewrite <-E1. by apply (order0_valid gs order0 Ho). }
    by apply Forall_app in Hv as [_ ?]. }
  destruct (filter_batch_spec b gs order' Hof) as (b' & -> & Er & Hb'of).
  { apply (order0_valid gs order0 Ho). by exists rest. }
  { intros Hl. pose proof (Permutation_length Ho) as Hlo. rewrite E, length_app, length_seq in Hlo.
    assert (rest = []) as -> by (destruct rest; cbn in *; [done|lia]). rewrite app_nil_r in E. subst order'.
    assert (given = []) as -> by (by destruct given).
    destruct gs as [|g [|]]; [done| |by destruct Hsome; cbn; [lia|]].
    assert (order0 = [0%nat]) as -> by (apply Permutation_singleton_r; exact Ho). done. }
  cbn [mbind res_bind]. eexists _, given, _, aborted, c', p', (sel gs order'), A'. split; [done|].
  constructor; try done; rewrite ?Er.
  - destruct Hb'of as [->|?]; [by left|by right].
  - apply sel_sub.
  - done.
  - rewrite <-preference_sel. fold order0. rewrite E, sel_app, !fmap_app, fmap_reverse, Hobj. unfold given_up.
    rewrite !sel_fmap, <-!list_fmap_compose. by rewrite sel_reverse, fmap_reverse, reverse_involutive.
  - destruct Hcase as [->|[_ ->]]; [done|by intros []].
  - exists (sel gs (reverse rest)). split; [apply sel_sub|done].
Qed.
End retraction.
