(* ===== verification/DecodeAlloc.v ===== *)
(** * A decode step of a batch that fits

    [alloc_for_decode] on a batch that owns its memory and that passed the memory
    check: it cannot fail, and afterwards the batch owns one slot more for every
    request.  For a worker without speculative decoding. *)

From S2P Require Import Prelude PyFloat PySort Allocator AllocKernels RadixKey PrefixTree TreeNode ReqPool Events.
From S2P Require Import RadixCache RadixInv RadixWalk RadixLock RadixInsert RadixEvict ReqCache ReqOwnership.
From S2P Require Import PrefillAdder RadixPools Allocation BatchAlloc RunningBatch Retract RetractTheorems.
Import Allocator.

(** ** Keys of growing token lists *)

Lemma bigrams_prefix l k : l `prefix_of` k → bigrams l `prefix_of` bigrams k.
Proof.
  intros [m ->]. destruct l as [|x l]; [apply prefix_nil|].
  pose proof (bigrams_take (length l) ((x :: l) ++ m)) as E. change (S (length l)) with (length (x :: l)) in E.
  rewrite take_app_length in E. rewrite E. apply prefix_take.
Qed.

Lemma req_units_prefix c A r l k :
  Inv c A → l `prefix_of` k → req_units c r l `prefix_of` req_units c r k.
Proof.
  intros Hinv Hlk. pose proof (inv_ps c A Hinv) as Hps. unfold req_units, req_key.
  pose (key l := RadixKey_init l (req_extra_key r) (is_eagle c) None (req_cache_salt r)).
  change (units (page_aligned (key l) (cpage_size c)) `prefix_of` units (page_aligned (key k) (cpage_size c))).
  assert (∀ l, key_wf (key l)) as Hwf by done.
  rewrite !units_page_aligned by done.
  assert (units (key l) `prefix_of` units (key k)) as Hu.
  { assert (∀ l, raw_token_ids (key l) = l) as Hraw by (intros ?; unfold raw_token_ids, raw_len; cbn; by rewrite Z.eqb_refl).
    unfold units. cbn [is_bigram key RadixKey_init]. rewrite !Hraw. destruct (is_eagle c).
    - by apply bigrams_prefix.
    - destruct Hlk as [m ->]. rewrite fmap_app. by apply prefix_app_r. }
  rewrite !key_len_units by done. destruct Hu as [m ->]. rewrite zlen_app.
  set (n1 := floor_align (zlen (units (key l))) (cpage_size c)).
  pose proof (floor_align_le (zlen (units (key l))) (cpage_size c) Hps) as Hn1. fold n1 in Hn1.
  pose proof (floor_align_mono (zlen (units (key l))) (zlen (units (key l)) + zlen m) (cpage_size c) Hps) as Hn2.
  fold n1 in Hn2. pose proof (zlen_nonneg m). specialize (Hn2 ltac:(lia)).
  set (n2 := floor_align (_ + _) _) in *.
  assert (take (Z.to_nat n1) (units (key l)) = take (Z.to_nat n1) (take (Z.to_nat n2) (units (key l) ++ m))) as ->.
  { rewrite take_take, take_app_le by (unfold zlen in *; lia). f_equal. lia. }
  apply prefix_take.
Qed.

(** ** Storing one slot per row *)

Lemma put_step_spec p i col v row :
  0 ≤ i → 0 ≤ col < zlen row → req_to_token p !! Z.to_nat i = Some row →
  put_step (i, col, v) p =
  Ok (set_req_to_token p (<[Z.to_nat i := <[Z.to_nat col := to_int32 v]> row]> (req_to_token p))).
Proof.
  intros Hi Hcol Hrow. unfold put_step.
  assert (py_get (req_to_token p) i = Ok row) as -> by (by apply py_get_lookup). cbn [mbind res_bind].
  destruct (lookup_lt_is_Some_2 row (Z.to_nat col)) as [x Hx]; [unfold zlen in *; lia|].
  assert (py_get row col = Ok x) as -> by (apply py_get_lookup; [lia|done]). cbn [mbind res_bind].
  destruct (Z.ltb_spec i 0), (Z.ltb_spec col 0); (lia || done).
Qed.

(** The stores of a batch whose rows are different. *)
Lemma write_each_spec p (ts : list (Z * Z * Z)) :
  NoDup (ts.*1.*1) → (∀ i col v, (i, col, v) ∈ ts → 0 ≤ i ∧ ∃ row, req_to_token p !! Z.to_nat i = Some row ∧ 0 ≤ col < zlen row) →
  ∃ t', for_each put_step ts p = Ok (set_req_to_token p t') ∧ length t' = length (req_to_token p) ∧
    (∀ i col v row, (i, col, v) ∈ ts → req_to_token p !! Z.to_nat i = Some row →
       t' !! Z.to_nat i = Some (<[Z.to_nat col := to_int32 v]> row)) ∧
    (∀ k, Z.of_nat k ∉ ts.*1.*1 → t' !! k = req_to_token p !! k).
Proof.
  revert p. induction ts as [|[[i col] v] ts IH]; intros p Hnd Hok.
  { exists (req_to_token p). split; [by destruct p|]. split; [done|]. split; [by intros ? ? ? ? ?%not_elem_of_nil|done]. }
  rewrite !fmap_cons in Hnd. apply NoDup_cons in Hnd as [Hi Hnd]. cbn [fst] in Hi.
  destruct (Hok i col v) as (Hpos & row & Hrow & Hcol); [by left|].
  cbn [for_each]. rewrite (put_step_spec p i col v row) by done. cbn [mbind res_bind].
  set (p1 := set_req_to_token p _).
  assert (∀ j, 0 ≤ j → j ≠ i → req_to_token p1 !! Z.to_nat j = req_to_token p !! Z.to_nat j) as Hother.
  { intros j Hj Hji. apply list_lookup_insert_ne. lia. }
  assert (∀ j col' v', (j, col', v') ∈ ts → j ≠ i) as Hne.
  { intros j col' v' Hj ->. apply Hi, list_elem_of_fmap. exists (i, col'). split; [done|].
    apply list_elem_of_fmap. by exists (i, col', v'). }
  destruct (IH p1 Hnd) as (t' & -> & Hlen & Hset & Hkeep).
  { intros j col' v' Hj. destruct (Hok j col' v') as (? & row' & ? & ?); [by right|]. split; [done|].
    exists row'. rewrite Hother; [done|done|by eapply Hne]. }
  exists t'. split; [done|]. split; [rewrite Hlen; apply length_insert|]. split.
  - intros j col' v' row' [E|Hj]%elem_of_cons Hr.
    + injection E as -> -> ->. same_lookup. rewrite Hkeep by (by rewrite Z2Nat.id).
      apply list_lookup_insert_eq. by eapply lookup_lt_Some.
    + apply (Hset j col' v' row' Hj). destruct (Hok j col' v') as (? & _); [by right|].
      rewrite Hother; [done|done|by eapply Hne].
  - intros k. rewrite !fmap_cons, not_elem_of_cons. cbn [fst]. intros [Hk1 Hk2]. rewrite Hkeep by done.
    apply list_lookup_insert_ne. lia.
Qed.

(** ** What the rows of a batch look like to the allocator *)

Lemma concat_sublist {A B} (f g : A → list B) (l : list A) :
  (∀ x, x ∈ l → f x `sublist_of` g x) → concat (f <$> l) `sublist_of` concat (g <$> l).
Proof.
  induction l as [|x l IH]; intros Hf; [done|]. cbn [fmap list_fmap concat].
  apply sublist_app; [apply Hf; by left|]. apply IH. intros. apply Hf. by right.
Qed.

Definition next_row (g : greq) : ereq := mkEReq (g_pages g) (g_row g) (g_len g + 1).
Definition own_pages (ps : Z) (g : greq) : list Z :=
  drop (Z.to_nat (cache_protected_len (g_kv g) / ps)) (g_pages g).

Section decode.
Context `{Clock} `{SetOrder} `{HashLaws} `{KVAllocator} `{KVFree} `{RetractSettings} `{RetractionPolicy} `{Census}.
Context `{BatchAllocator} `{!BatchLaws}.
Context (spec : SpecConfig).
Hypothesis Hplain : spec_algo_none = true.

Lemma protected_len c A p g :
  Inv c A → runs c A p g → 0 ≤ cache_protected_len (g_kv g) ≤ g_len g ∧ (cpage_size c | cache_protected_len (g_kv g)).
Proof.
  intros Hinv Hg. pose proof (zlen_g_toks c A p g Hg) as Ht. pose proof Hg as [_ _ _ _ _ Hc _ _ _ _ (a & Hw & _)].
  destruct (req_key_len c A (base (g_req g)) (g_toks g) Hinv) as (_ & _ & Hu).
  pose proof (effective_le strip_thinking_cache (base (g_req g)) (proj1 Hc)).
  pose proof (walk_aligned c A _ _ _ _ _ Hinv Hw). destruct Hw as (_ & _ & ? & _). unfold g_kv in *. split; [lia|done].
Qed.

Lemma private_pages c A p g :
  Inv c A → runs c A p g → g_private c g = Paged.page_slots (cpage_size c) (own_pages (cpage_size c) g).
Proof.
  intros Hinv Hg. pose proof (inv_ps c A Hinv) as Hps. destruct (protected_len c A p g Hinv Hg) as [Hcpl Hd].
  unfold g_private, private, own_pages. rewrite zlen_row by apply Hg. f_equal.
  rewrite touched_aligned by done. apply take_ge. rewrite length_drop.
  pose proof (ru_pages c A p g Hg) as Hp. unfold npages, zlen in Hp.
  pose proof (Z.div_pos (cache_protected_len (g_kv g)) (cpage_size c)). lia.
Qed.

Lemma all_slots_pages c A p gs :
  Inv c A → Forall (runs c A p) gs →
  all_slots c A gs ≡ₚ tree_slots A ++
    Paged.page_slots (cpage_size c) (concat (own_pages (cpage_size c) <$> gs) ++ pool (kv_allocator c)).
Proof.
  intros Hinv Hr. unfold all_slots.
  assert (g_private c <$> gs = Paged.page_slots (cpage_size c) <$> (own_pages (cpage_size c) <$> gs)) as ->.
  { rewrite <-list_fmap_compose. apply list_fmap_ext. intros i g Hg. apply (private_pages c A p); [done|].
    by apply (Forall_lookup_1 _ _ _ _ Hr Hg). }
  rewrite page_slots_app, page_slots_concat. unfold pool_slots. solve_Permutation.
Qed.

Lemma batch_rows_ready c A p gs :
  batch_inv c A p gs → 1 < cpage_size c → fits spec c (g_req <$> gs) →
  rows_ready (kv_allocator c) (next_row <$> gs).
Proof.
  intros Hb H1' Hfit. pose proof Hb as [Hinv Hkv _ Hr Hnd _ _ _]. pose proof (inv_ps c A Hinv) as Hps.
  pose proof (kv_ps c A Hkv) as Eps. unfold rows_ready. rewrite Eps.
  assert (Forall (ereq_ok (cpage_size c)) (next_row <$> gs)) as Hok.
  { apply Forall_fmap. eapply Forall_impl; [exact Hr|]. intros g [_ _ _ _ Hl _ _ _ HR HP _].
    unfold compose, ereq_ok. cbn [next_row e_pages e_row e_seq]. rewrite zlen_row by done. split_and!; [done|done|lia]. }
  split; [apply Hkv|]. split; [done|]. split; [done|]. split.
  - rewrite (all_slots_pages c A p gs Hinv Hr) in Hnd. apply NoDup_app in Hnd as (_ & _ & Hnd).
    apply (NoDup_page_slots _ Hps) in Hnd. eapply sublist_NoDup; [exact Hnd|]. apply sublist_app; [|done].
    rewrite <-list_fmap_compose. apply concat_sublist. intros g Hg. eapply Forall_forall in Hr; [|exact Hg].
    destruct (protected_len c A p g Hinv Hr) as [Hcpl _]. unfold compose, open_pages, own_pages. cbn [next_row e_pages e_row e_seq].
    rewrite zlen_row by apply Hr. apply drop_mono_sublist. by apply Z.div_le_mono; lia.
  - assert (Forall (λ r, e_seq r = zlen (e_row r) + 1) (next_row <$> gs)) as Hone.
    { apply Forall_fmap. eapply Forall_impl; [exact Hr|]. intros g Hg.
      unfold compose. cbn [next_row e_pages e_row e_seq]. by rewrite zlen_row by apply Hg. }
    rewrite <-(AllocKernels.decode_need (cpage_size c) (next_row <$> gs) H1' Hone).
    unfold fits, step_need, new_tokens_required_next_decode in Hfit. rewrite Hplain in Hfit.
    rewrite bl_available, Eps in Hfit by apply Hkv.
    enough (zsum ((λ s, if s mod cpage_size c =? 1 then 1 else 0) <$> seq_lens (next_row <$> gs)) =
            zsum ((λ r, if kv_committed_len (kv (base r)) mod cpage_size c =? 0 then 1 else 0) <$> (g_req <$> gs))) by nia.
    f_equal. unfold seq_lens. rewrite <-!list_fmap_compose. apply list_fmap_ext. intros i g Hg. unfold compose.
    pose proof (Forall_lookup_1 _ _ _ _ Hr Hg) as Hru. cbn [next_row e_seq].
    pose proof (ru_plain c A p g Hru Hplain) as Hc. unfold g_kv in Hc. rewrite Hc.
    pose proof (Z.div_mod (g_len g) (cpage_size c)) as Hdm. pose proof (Z.mod_pos_bound (g_len g) (cpage_size c) Hps) as Hmb.
    rewrite <-Zplus_mod_idemp_l. destruct (Z.eqb_spec (g_len g mod cpage_size c) 0) as [->|Hnz].
    + by rewrite Z.mod_small by lia.
    + destruct (Z.eqb_spec ((g_len g mod cpage_size c + 1) mod cpage_size c) 1) as [Hm|]; [|done].
      destruct (Z.eq_dec (g_len g mod cpage_size c + 1) (cpage_size c)) as [E|].
      * rewrite E, Z.mod_same in Hm by lia. done.
      * rewrite Z.mod_small in Hm by lia. lia.
Qed.

(** With pages of one slot a slot is a page. *)
Definition token_row (g : greq) (x : Z) : ereq := mkEReq (g_pages g ++ [x]) (g_row g ++ [x]) (g_len g + 1).

Lemma token_row_grown c A p g x :
  cpage_size c = 1 → runs c A p g → grown 1 (next_row g) (token_row g x).
Proof.
  intros H1' [_ _ _ _ Hl _ _ _ HR HP _]. rewrite H1' in *. pose proof (zlen_row g Hl) as Hz.
  unfold npages in HP. rewrite Z.add_simpl_r, Z.div_1_r in HP. unfold grown, ereq_ok.
  cbn [next_row token_row e_pages e_row e_seq]. rewrite !zlen_app, Hz, HP. change (zlen [x]) with 1.
  unfold npages. rewrite Z.add_simpl_r, Z.div_1_r. split_and!; try lia; [|by apply prefix_app_r..].
  intros i y [Hy|[Hge Hy]]%lookup_app_Some.
  - destruct (HR i y Hy) as (q & Hq & ->). exists q. split; [|done]. by apply lookup_app_l_Some.
  - apply list_lookup_singleton_Some in Hy as [Hi <-]. exists x. rewrite Z.div_1_r, Nat2Z.id, Z.mod_1_r.
    split; [|lia]. apply list_lookup_middle. unfold zlen in *. lia.
Qed.

Lemma token_rows c A p gs out :
  cpage_size c = 1 → Forall (runs c A p) gs → length out = length gs →
  Forall2 (grown 1) (next_row <$> gs) (zip_with token_row gs out) ∧
  gained (next_row <$> gs) (zip_with token_row gs out) = out ∧
  concat (e_pages <$> zip_with token_row gs out) ≡ₚ concat (e_pages <$> (next_row <$> gs)) ++ out.
Proof.
  intros H1' Hr. revert out. induction Hr as [|g gs Hg _ IH]; intros [|x out] Hl; try done.
  destruct (IH out ltac:(by injection Hl)) as (HF & HG & HP). cbn [fmap list_fmap zip_with].
  split; [constructor; [by eapply token_row_grown|done]|]. split.
  - unfold gained in *. cbn [zip_with concat]. rewrite HG. cbn [next_row token_row e_row].
    by rewrite drop_app_length.
  - cbn [concat]. rewrite HP. cbn [next_row token_row e_pages]. solve_Permutation.
Qed.

(** The slots of the step, with either page size. *)
Definition take_slots (c : RadixCache) (gs : list greq) : res (option (list Z) * Alloc) :=
  if cpage_size c =? 1 then allocator_alloc (zlen gs * 1) (kv_allocator c)
  else allocator_alloc_decode (seq_lens (next_row <$> gs)) (last_locs (next_row <$> gs)) (kv_allocator c).

Lemma take_slots_grow c A p gs :
  batch_inv c A p gs → fits spec c (g_req <$> gs) →
  rows_grown (kv_allocator c) (next_row <$> gs) (take_slots c gs).
Proof.
  intros Hb Hfit. pose proof Hb as [Hinv Hkv _ Hr Hnd _ _ _]. pose proof (inv_ps c A Hinv) as Hps.
  pose proof (kv_ps c A Hkv) as Eps. unfold take_slots. destruct (Z.eqb_spec (cpage_size c) 1) as [E1|E1].
  - assert (zlen gs ≤ zlen (pool (kv_allocator c))) as Hn.
    { unfold fits, step_need, new_tokens_required_next_decode in Hfit. rewrite Hplain in Hfit.
      rewrite bl_available, Eps, E1 in Hfit by apply Hkv.
      assert (∀ l : list SReq, zsum ((λ r, if kv_committed_len (kv (base r)) mod 1 =? 0 then 1 else 0) <$> l) = zlen l) as Hs.
      { induction l as [|r l IH]; [done|]. rewrite fmap_cons, zlen_cons, <-IH, Z.mod_1_r. done. }
      rewrite Hs, zlen_fmap in Hfit. lia. }
    destruct (bl_alloc (kv_allocator c) (zlen gs * 1)) as (out & a' & -> & Hok' & Hps' & Hl & HP).
    + apply Hkv.
    + congruence.
    + rewrite (all_slots_pages c A p gs Hinv Hr) in Hnd. apply NoDup_app in Hnd as (_ & _ & Hnd).
      apply (NoDup_page_slots _ Hps) in Hnd. by apply NoDup_app in Hnd as (_ & _ & ?).
    + pose proof (zlen_nonneg gs). lia.
    + destruct (token_rows c A p gs out E1 Hr) as (HF & HG & HPg); [unfold zlen in Hl; lia|].
      exists (zip_with token_row gs out), a'. rewrite HG, Eps, E1. split_and!; try done.
      rewrite HPg, <-app_assoc. by rewrite HP.
  - apply bl_decode.
    + apply (batch_rows_ready c A p gs Hb); [lia|done].
    + apply Forall_fmap. eapply Forall_impl; [exact Hr|]. intros g Hg.
      unfold compose. cbn [next_row e_row e_seq]. by rewrite zlen_row by apply Hg.
Qed.

(** ** The batch after the step *)

Definition step_req (r : Req) : Req :=
  set_kv r (set_kv_lens (kv r) (kv_allocated_len (kv r) + 1) (kv_committed_len (kv r) + 1)).

Definition next_g (g : greq) (e : ereq) : greq :=
  mkG (with_base (g_req g) (step_req (base (g_req g)))) (g_idx g)
    (<[Z.to_nat (g_len g) := row_last (e_row e)]> (g_full g)) (e_pages e) (g_node g).

Lemma grown_row c A p g e :
  runs c A p g → grown (cpage_size c) (next_row g) e → e_row e = g_row g ++ [row_last (e_row e)].
Proof.
  intros Hg (_ & _ & Hl & [k Hk] & _). cbn [next_row e_row e_seq] in *. pose proof (zlen_row g (ru_len c A p g Hg)).
  rewrite Hk, zlen_app in Hl. assert (zlen k = 1) as Hk1 by lia. destruct k as [|x [|]]; try done.
  - rewrite Hk. unfold row_last. by rewrite last_snoc.
  - unfold zlen in Hk1. cbn in Hk1. lia.
Qed.

Lemma next_row_eq c A p g e :
  runs c A p g → g_len g < zlen (g_full g) → grown (cpage_size c) (next_row g) e → g_row (next_g g e) = e_row e.
Proof.
  intros Hg Hlt He. rewrite (grown_row c A p g e Hg He). pose proof (ru_len c A p g Hg).
  unfold g_row at 1, g_len at 1. cbn [next_g g_full g_kv g_req with_base base step_req set_kv kv set_kv_lens kv_allocated_len].
  change (kv_allocated_len (kv (base (g_req g)))) with (g_len g).
  rewrite slice_to_take by lia. unfold g_row. rewrite slice_to_take by lia.
  replace (Z.to_nat (g_len g + 1)) with (S (Z.to_nat (g_len g))) by lia.
  rewrite (take_S_r _ _ (row_last (e_row e))) by (apply list_lookup_insert_eq; unfold zlen in *; lia).
  by rewrite take_insert, decide_False by lia.
Qed.

Lemma next_toks c A p g e : runs c A p g → g_toks g `prefix_of` g_toks (next_g g e).
Proof.
  intros Hg. pose proof (effective_le strip_thinking_cache (base (g_req g)) (proj1 (ru_committed c A p g Hg))) as [Hp _].
  unfold g_toks. change (g_ids (next_g g e)) with (g_ids g).
  assert (effective_kv_committed_len strip_thinking_cache (base (g_req g)) ≤
          effective_kv_committed_len strip_thinking_cache (base (g_req (next_g g e)))) as Hle.
  { unfold effective_kv_committed_len.
    cbn [next_g g_req with_base base step_req set_kv kv set_kv_lens kv_committed_len reasoning_tokens origin_input_ids].
    case_match; lia. }
  rewrite !slice_to_take by lia. revert Hp Hle. generalize (effective_kv_committed_len strip_thinking_cache (base (g_req g))).
  generalize (effective_kv_committed_len strip_thinking_cache (base (g_req (next_g g e)))). intros n m Hp Hle.
  replace (take (Z.to_nat m) (g_ids g)) with (take (Z.to_nat m) (take (Z.to_nat n) (g_ids g)));
    [apply prefix_take|]. rewrite take_take. f_equal. lia.
Qed.

(** A request after the step, in a table that stores its new slot. *)
Lemma next_runs c c' A p p' g e :
  Inv c A → settings c' = settings c → runs c A p g → g_len g < zlen (g_full g) → g_len g + 1 ≤ zlen (g_ids g) →
  grown (cpage_size c) (next_row g) e →
  req_to_token p' !! Z.to_nat (g_idx g) = Some (g_full (next_g g e)) → runs c' A p' (next_g g e).
Proof.
  intros Hinv Hset Hg Hlt Hids He Hrow. destruct (settings_fields c c' Hset) as (_ & Eps & Ee & Er & _).
  pose proof (next_row_eq c A p g e Hg Hlt He) as Erow. pose proof (grown_row c A p g e Hg He) as Esnoc.
  pose proof (next_toks c A p g e Hg) as Htoks. pose proof (protected_len c A p g Hinv Hg) as [Hcpl _].
  pose proof Hg as [G1 G2 G3 G4 G5 G6 G7 G8 G9 G10 (a & (Ha & Hns & Hm & Hpath) & Hs)].
  assert (g_len (next_g g e) = g_len g + 1) as El by done.
  pose proof He as ((HR & HP & _) & _ & Hz & _). cbn [next_row e_seq] in Hz.
  constructor; try done; rewrite ?Eps, ?Er, ?El.
  - cbn [next_g g_full]. unfold zlen in *. rewrite length_insert. lia.
  - change (kv_committed_len (g_kv (next_g g e))) with (kv_committed_len (g_kv g) + 1). lia.
  - intros Hpl. change (kv_committed_len (g_kv (next_g g e))) with (kv_committed_len (g_kv g) + 1). rewrite G7; done.
  - change (kv_committed_len (g_kv (next_g g e))) with (kv_committed_len (g_kv g) + 1).
    change (g_ids (next_g g e)) with (g_ids g). rewrite G7; done.
  - by rewrite Erow.
  - cbn [next_g g_pages]. by rewrite HP, Hz.
  - exists a. change (cache_protected_len (g_kv (next_g g e))) with (cache_protected_len (g_kv g)).
    change (req_ns (base (g_req (next_g g e)))) with (req_ns (base (g_req g))).
    assert (req_units c' (base (g_req (next_g g e))) (g_toks (next_g g e)) =
            req_units c (base (g_req g)) (g_toks (next_g g e))) as ->.
    { unfold req_units, req_key. by rewrite Eps, Ee. }
    destruct (req_units_prefix c A (base (g_req g)) _ _ Hinv Htoks) as [k Ek]. rewrite Ek. split.
    + split; [done|]. split; [done|]. rewrite zlen_app. pose proof (zlen_nonneg k). split; [lia|].
      rewrite take_app_le by (unfold zlen in *; lia). done.
    + rewrite Erow, Esnoc, take_app_le; [done|]. pose proof (zlen_row g G5). unfold zlen in *. lia.
Qed.

(** What the rows gained left the pool. *)
Lemma next_pages c A p gs ers ps :
  ps = cpage_size c → Inv c A → Forall (runs c A p) gs → Forall2 (grown ps) (next_row <$> gs) ers →
  ∃ new, concat (e_pages <$> ers) ≡ₚ concat (e_pages <$> (next_row <$> gs)) ++ new ∧
    concat (own_pages ps <$> zip_with next_g gs ers) ≡ₚ concat (own_pages ps <$> gs) ++ new.
Proof.
  intros -> Hinv Hr. revert ers. induction Hr as [|g gs Hg _ IH]; intros ers HF.
  { apply Forall2_nil_inv_l in HF as ->. by exists []. }
  rewrite fmap_cons in HF. apply Forall2_cons_inv_l in HF as (e & ers' & He & HF & ->).
  destruct (IH ers' HF) as (new & HP1 & HP2). destruct He as (_ & _ & _ & _ & [k Hk]). cbn [next_row e_pages] in Hk.
  exists (k ++ new). cbn [fmap list_fmap zip_with concat]. rewrite HP1, HP2.
  assert (own_pages (cpage_size c) (next_g g e) = own_pages (cpage_size c) g ++ k) as ->.
  { unfold own_pages. cbn [next_g g_pages].
    change (cache_protected_len (g_kv (next_g g e))) with (cache_protected_len (g_kv g)). rewrite Hk.
    apply drop_app_le. pose proof (inv_ps c A Hinv) as Hps. pose proof (ru_pages c A p g Hg) as Hp.
    destruct (protected_len c A p g Hinv Hg) as [Hcpl _]. unfold npages, zlen in Hp.
    pose proof (Z.div_le_mono (cache_protected_len (g_kv g)) (g_len g + cpage_size c - 1) (cpage_size c) Hps). lia. }
  rewrite Hk. split; solve_Permutation.
Qed.

(** The new slot lies on a page of the request's own. *)
Lemma new_slot_owned c A p g e :
  Inv c A → runs c A p g → grown (cpage_size c) (next_row g) e →
  row_last (e_row e) ∈ Paged.page_slots (cpage_size c) (own_pages (cpage_size c) (next_g g e)).
Proof.
  intros Hinv Hg He. pose proof (inv_ps c A Hinv) as Hps. pose proof (grown_row c A p g e Hg He) as Es.
  destruct He as ((HR & _) & _). pose proof (zlen_row g (ru_len c A p g Hg)) as Hz. pose proof (ru_len c A p g Hg).
  destruct (HR (length (g_row g)) (row_last (e_row e))) as (q & Hq & Hx).
  { rewrite Es at 1. by apply list_lookup_middle. }
  change (Z.of_nat (length (g_row g))) with (zlen (g_row g)) in *. rewrite Hz in *. rewrite Hx at 1.
  destruct (protected_len c A p g Hinv Hg) as [Hcpl _].
  pose proof (Z.div_le_mono (cache_protected_len (g_kv g)) (g_len g) (cpage_size c) Hps).
  pose proof (Z.div_pos (cache_protected_len (g_kv g)) (cpage_size c)).
  unfold Paged.page_slots. apply list_elem_of_bind. exists q. split.
  - apply list_elem_of_fmap. exists (g_len g mod cpage_size c). split; [done|]. apply elem_of_zrange.
    by apply Z.mod_pos_bound.
  - unfold own_pages. change (cache_protected_len (g_kv (next_g g e))) with (cache_protected_len (g_kv g)).
    cbn [next_g g_pages]. apply list_elem_of_lookup.
    exists (Z.to_nat (g_len g / cpage_size c) - Z.to_nat (cache_protected_len (g_kv g) / cpage_size c))%nat.
    rewrite lookup_drop, <-Hq. f_equal. lia.
Qed.

(** ** [alloc_for_decode] *)

(** The row and the token list of a request have room for one more position. *)
Definition can_grow (g : greq) : Prop := g_len g < zlen (g_full g) ∧ g_len g + 1 ≤ zlen (g_ids g).

Lemma gained_last c A p gs ers :
  Forall (runs c A p) gs → Forall2 (grown (cpage_size c)) (next_row <$> gs) ers →
  gained (next_row <$> gs) ers = (λ e, row_last (e_row e)) <$> ers.
Proof.
  intros Hr. revert ers. induction Hr as [|g gs Hg _ IH]; intros ers HF.
  { by apply Forall2_nil_inv_l in HF as ->. }
  rewrite fmap_cons in HF. apply Forall2_cons_inv_l in HF as (e & ers' & He & HF & ->).
  unfold gained in *. cbn [fmap list_fmap zip_with concat]. rewrite (IH ers' HF). cbn [next_row e_row].
  rewrite (grown_row c A p g e Hg He) at 1. by rewrite drop_app_length.
Qed.

Lemma last_slots c A p gs :
  batch_inv c A p gs →
  mapM (λ '(i, s), table_get p i (s - 1)) (zip (g_idx <$> gs) ((λ g, kv_committed_len (g_kv g)) <$> gs)) =
  Ok (last_locs (next_row <$> gs)).
Proof.
  intros Hb. pose proof (bi_runs _ _ _ _ Hb) as Hr. pose proof (bi_rows _ _ _ _ Hb) as Ho.
  assert (Forall (λ g, 0 ≤ g_idx g) gs) as Hpos.
  { apply Forall_forall. intros g Hg. assert (g_idx g ∈ zrange 1 (alloc_size p)) as Hin%elem_of_zrange; [|lia].
    rewrite <-(po_rows _ _ Ho), elem_of_app. right. apply list_elem_of_fmap. by exists g. }
  clear Hb Ho. induction Hr as [|g gs Hg _ IH]; [done|]. apply Forall_cons in Hpos as [Hi Hpos].
  pose proof (ru_len c A p g Hg) as Hl.
  assert (table_get p (g_idx g) (kv_committed_len (g_kv g) - 1) = Ok (row_last (g_row g))) as Hget.
  { rewrite (ru_plain c A p g Hg Hplain). unfold table_get.
    assert (py_get (req_to_token p) (g_idx g) = Ok (g_full g)) as -> by (by apply py_get_lookup; [|apply Hg]).
    cbn [mbind res_bind]. apply py_get_lookup; [lia|]. unfold row_last, g_row. rewrite slice_to_take, last_lookup, length_take by lia.
    rewrite lookup_take_lt by (unfold zlen in *; lia).
    replace (pred (Z.to_nat (g_len g) `min` length (g_full g))) with (Z.to_nat (g_len g - 1)) by (unfold zlen in *; lia).
    destruct (lookup_lt_is_Some_2 (g_full g) (Z.to_nat (g_len g - 1))) as [x ->]; [unfold zlen in *; lia|done]. }
  cbn [fmap list_fmap zip_with mapM]. rewrite Hget. cbn [mbind res_bind]. by rewrite (IH Hpos).
Qed.

(** The slots, after making room. *)
Lemma decode_slots c A p gs :
  batch_inv c A p gs → fits spec c (g_req <$> gs) →
  ∃ c1 A1, batch_inv c1 A1 p gs ∧ settings c1 = settings c ∧ fits spec c1 (g_req <$> gs) ∧
    (if cpage_size c =? 1 then alloc_token_slots (zlen ((λ g, kv_committed_len (g_kv g)) <$> gs) * 1) c
     else
       last_loc ← mapM (λ '(i, s), table_get p i (s - 1))
                    (zip (g_idx <$> gs) ((λ g, kv_committed_len (g_kv g)) <$> gs));
       alloc_paged_token_slots_decode ((λ s, s + 1) <$> ((λ g, kv_committed_len (g_kv g)) <$> gs)) last_loc c) =
    (r ← take_slots c1 gs; or_oom r c1).
Proof.
  intros Hb Hfit. pose proof (bi_kv _ _ _ _ Hb) as Hkv. rewrite (last_slots c A p gs Hb). cbn [mbind res_bind].
  assert (∀ n, ∃ c1 A1, evict_from_tree_cache n c = Ok c1 ∧ batch_inv c1 A1 p gs ∧ settings c1 = settings c ∧
    fits spec c1 (g_req <$> gs)) as Hroom.
  { intros n. destruct (batch_room n c A p gs Hb) as (c1 & A1 & Hrun & Hb1 & Hrm). exists c1, A1.
    pose proof (rm_settings _ _ _ _ _ Hrm) as Hset. destruct (settings_fields c c1 Hset) as (_ & Eps & _).
    split_and!; try done. unfold fits in *. rewrite Eps. pose proof (rm_more _ _ _ _ _ Hrm). lia. }
  assert ((λ s, s + 1) <$> ((λ g, kv_committed_len (g_kv g)) <$> gs) = seq_lens (next_row <$> gs)) as ->.
  { unfold seq_lens. rewrite <-!list_fmap_compose. apply list_fmap_ext. intros i g Hg. unfold compose.
    cbn [next_row e_seq]. f_equal. apply (ru_plain c A p g); [|done].
    exact (Forall_lookup_1 _ _ _ _ (bi_runs _ _ _ _ Hb) Hg). }
  unfold alloc_token_slots, alloc_paged_token_slots_decode.
  destruct (Z.eqb_spec (cpage_size c) 1) as [E1|E1]; cbv zeta;
    match goal with |- context [evict_from_tree_cache ?n c] =>
      destruct (Hroom n) as (c1 & A1 & -> & Hb1 & Hset & Hfit1) end;
    cbn [mbind res_bind]; exists c1, A1; split_and!; try done;
    destruct (settings_fields c c1 Hset) as (_ & Eps & _); unfold take_slots; rewrite Eps.
  - rewrite E1, zlen_fmap. done.
  - destruct (Z.eqb_spec (cpage_size c) 1); [lia|done].
Qed.

(** The stores of the step. *)
Definition next_stores (gs : list greq) (ers : list ereq) : list (Z * Z * Z) :=
  zip_with (λ g e, (g_idx g, g_len g, row_last (e_row e))) gs ers.

Lemma next_stores_zip c A p gs ers :
  Forall (runs c A p) gs →
  zip (zip (g_idx <$> gs) ((λ g, kv_committed_len (g_kv g)) <$> gs)) ((λ e, row_last (e_row e)) <$> ers) =
  next_stores gs ers.
Proof.
  intros Hr. revert ers. induction Hr as [|g gs Hg _ IH]; intros [|e ers]; try done.
  unfold next_stores in *. cbn [fmap list_fmap zip_with]. by rewrite IH, (ru_plain c A p g Hg Hplain).
Qed.

Lemma next_stores_rows gs ers : length ers = length gs → (next_stores gs ers).*1.*1 = g_idx <$> gs.
Proof.
  revert ers. induction gs as [|g gs IH]; intros [|e ers] Hl; try done. unfold next_stores in *.
  cbn [zip_with fmap list_fmap fst]. by rewrite IH by (by injection Hl).
Qed.

Lemma batch_rows_distinct c A p gs :
  batch_inv c A p gs → NoDup (g_idx <$> gs) ∧ Forall (λ g, 0 ≤ g_idx g) gs.
Proof.
  intros Hb. pose proof (bi_rows _ _ _ _ Hb) as Ho. split.
  - pose proof (pool_ok_nodup _ _ Ho) as Hnd. by apply NoDup_app in Hnd as (_ & _ & Hnd).
  - apply Forall_forall. intros g Hg. assert (g_idx g ∈ zrange 1 (alloc_size p)) as Hin%elem_of_zrange; [|lia].
    rewrite <-(po_rows _ _ Ho), elem_of_app. right. apply list_elem_of_fmap. by exists g.
Qed.

(** The table after the stores, given that the new slots are 32-bit. *)
Lemma next_table c A p gs ers :
  batch_inv c A p gs → Forall can_grow gs → length ers = length gs →
  (∀ k e, ers !! k = Some e → 0 ≤ row_last (e_row e) < 2 ^ 31) →
  ∃ p', write_each (g_idx <$> gs) ((λ g, kv_committed_len (g_kv g)) <$> gs) ((λ e, row_last (e_row e)) <$> ers) p = Ok p' ∧
    (∃ t, p' = set_req_to_token p t ∧ length t = length (req_to_token p)) ∧
    (∀ k g e, gs !! k = Some g → ers !! k = Some e →
       req_to_token p' !! Z.to_nat (g_idx g) = Some (g_full (next_g g e))) ∧
    (∀ k, Z.of_nat k ∉ g_idx <$> gs → req_to_token p' !! k = req_to_token p !! k).
Proof.
  intros Hb Hgrow Hlen Hsmall. pose proof (bi_runs _ _ _ _ Hb) as Hr.
  destruct (batch_rows_distinct c A p gs Hb) as [Hnd Hpos].
  unfold write_each. rewrite (next_stores_zip c A p gs ers Hr), !zlen_fmap.
  destruct (Z.eqb_spec (zlen ers) (zlen gs)) as [_|Hne]; [|unfold zlen in Hne; lia].
  destruct (write_each_spec p (next_stores gs ers)) as (t & -> & Hlt & Hset & Hkeep).
  - by rewrite next_stores_rows.
  - intros i col v Hin. apply list_elem_of_lookup in Hin as [k Hk]. unfold next_stores in Hk.
    rewrite lookup_zip_with_Some in Hk. destruct Hk as (g & e & [= -> -> ->] & Hg & _).
    pose proof (Forall_lookup_1 _ _ _ _ Hr Hg) as Hru. pose proof (Forall_lookup_1 _ _ _ _ Hgrow Hg) as [Hl _].
    split; [exact (Forall_lookup_1 _ _ _ _ Hpos Hg)|]. exists (g_full g). split; [apply Hru|].
    pose proof (ru_len c A p g Hru). lia.
  - eexists. split; [done|]. split; [by exists t|]. cbn [set_req_to_token req_to_token].
    rewrite next_stores_rows in Hkeep by done. split; [|done]. intros k g e Hg He.
    rewrite (Hset (g_idx g) (g_len g) (row_last (e_row e)) (g_full g)).
    + cbn [next_g g_full]. do 2 f_equal. unfold to_int32. specialize (Hsmall k e He).
      rewrite Z.mod_small by lia. lia.
    + apply list_elem_of_lookup. exists k. unfold next_stores. rewrite lookup_zip_with_Some. by exists g, e.
    + by apply (Forall_lookup_1 _ _ _ _ Hr Hg).
Qed.

Lemma zip_with_elem {A B C} (f : A → B → C) l k x :
  x ∈ zip_with f l k → ∃ i a b, l !! i = Some a ∧ k !! i = Some b ∧ x = f a b.
Proof.
  intros Hx. apply list_elem_of_lookup in Hx as [i Hi].
  rewrite lookup_zip_with_Some in Hi. destruct Hi as (a & b & -> & ? & ?). by exists i, a, b.
Qed.

Lemma zip_next_same gs ers {B} (f : greq → B) :
  length ers = length gs → (∀ g e, f (next_g g e) = f g) → f <$> zip_with next_g gs ers = f <$> gs.
Proof.
  intros Hl Hf. revert ers Hl. induction gs as [|g gs IH]; intros [|e ers] Hl; try done.
  cbn [zip_with fmap list_fmap]. by rewrite Hf, IH by (by injection Hl).
Qed.

(** The stores do not change the lengths of the rows. *)
Lemma next_lengths c A p p' gs ers :
  batch_inv c A p gs → length ers = length gs →
  (∀ k g e, gs !! k = Some g → ers !! k = Some e → req_to_token p' !! Z.to_nat (g_idx g) = Some (g_full (next_g g e))) →
  (∀ k, Z.of_nat k ∉ g_idx <$> gs → req_to_token p' !! k = req_to_token p !! k) →
  length <$> req_to_token p' = length <$> req_to_token p.
Proof.
  intros Hb Hlen Hown Hkeep. apply list_eq. intros k. rewrite !list_lookup_fmap.
  destruct (decide (Z.of_nat k ∈ g_idx <$> gs)) as [(g & Ek & [j Hj]%list_elem_of_lookup)%list_elem_of_fmap|Hk]; [|by rewrite Hkeep].
  destruct (lookup_lt_is_Some_2 ers j) as [e He]; [apply lookup_lt_Some in Hj; lia|].
  pose proof (Hown j g e Hj He) as Hr. pose proof (Forall_lookup_1 _ _ _ _ (bi_runs _ _ _ _ Hb) Hj) as Hg.
  rewrite <-Ek, Nat2Z.id in Hr. rewrite Hr. pose proof (ru_row _ _ _ _ Hg) as Hr0. rewrite <-Ek, Nat2Z.id in Hr0. rewrite Hr0.
  cbn [next_g g_full fmap option_fmap option_map]. by rewrite length_insert.
Qed.

(** The step on a batch that fits. *)
Lemma alloc_for_decode_spec c A p gs :
  batch_inv c A p gs → fits spec c (g_req <$> gs) → Forall can_grow gs →
  ∃ c' A' p' ers, Forall2 (grown (cpage_size c)) (next_row <$> gs) ers ∧
    alloc_for_decode (base <$> (g_req <$> gs)) (g_idx <$> gs) ((λ g, kv_committed_len (g_kv g)) <$> gs) 1 p c =
      Ok ((λ e, row_last (e_row e)) <$> ers, (λ g, step_req (base (g_req g))) <$> gs, p', c') ∧
    batch_inv c' A' p' (zip_with next_g gs ers) ∧ settings c' = settings c ∧
    (∀ k, Z.of_nat k ∉ g_idx <$> gs → req_to_token p' !! k = req_to_token p !! k) ∧
    length <$> req_to_token p' = length <$> req_to_token p ∧ max_context_len p' = max_context_len p.
Proof.
  intros Hb Hfit Hgrow. unfold alloc_for_decode.
  destruct (decode_slots c A p gs Hb Hfit) as (c1 & A1 & Hb1 & Hset & Hfit1 & ->).
  destruct (settings_fields c c1 Hset) as (_ & Eps & _). pose proof Hb1 as [Hinv1 Hkv1 Hd1 Hr1 Hnd1 Hsm1 Ht1 Ho Hh1].
  destruct (take_slots_grow c1 A1 p gs Hb1 Hfit1) as (ers & a' & -> & Hok' & Hps' & HF & HP).
  rewrite (kv_ps c1 A1 Hkv1) in HF, Hps'. cbn [mbind res_bind or_oom].
  rewrite (gained_last c1 A1 p gs ers Hr1 HF).
  assert (length ers = length gs) as Hlen by (apply Forall2_length in HF; rewrite length_fmap in HF; lia).
  destruct (next_pages c1 A1 p gs ers (cpage_size c1) eq_refl Hinv1 Hr1 HF) as (new & HP1 & HP2).
  assert (new ++ pool a' ≡ₚ pool (kv_allocator c1)) as Hnew.
  { rewrite HP1, <-app_assoc in HP. by apply Permutation_app_inv_l in HP. }
  set (gs' := zip_with next_g gs ers) in *. set (c2 := set_kv_allocator c1 a').
  assert (tree_slots A1 ++ Paged.page_slots (cpage_size c1) (concat (own_pages (cpage_size c1) <$> gs') ++ pool a') ≡ₚ
          all_slots c1 A1 gs) as Hall.
  { rewrite (all_slots_pages c1 A1 p gs Hinv1 Hr1), HP2, <-app_assoc, <-Hnew, !page_slots_app. done. }
  assert (∀ k g e, gs !! k = Some g → ers !! k = Some e → grown (cpage_size c1) (next_row g) e) as Hgr.
  { intros k g e Hg He. apply (Forall2_lookup_lr _ _ _ k _ _ HF); [by rewrite list_lookup_fmap, Hg|done]. }
  destruct (next_table c1 A1 p gs ers Hb1 Hgrow Hlen) as (p' & -> & (t & -> & Hlt) & Hown & Hkeep).
  { intros k e He. destruct (lookup_lt_is_Some_2 gs k) as [g Hg]; [apply lookup_lt_Some in He; lia|].
    rewrite <-Hall in Hsm1. eapply Forall_forall in Hsm1; [exact Hsm1|]. apply elem_of_app. right.
    rewrite page_slots_app, page_slots_concat, elem_of_app. left. apply elem_of_concat_fmap.
    exists (own_pages (cpage_size c1) (next_g g e)). split.
    - apply list_elem_of_fmap. exists (next_g g e). split; [done|]. apply list_elem_of_lookup. exists k.
      unfold gs'. rewrite lookup_zip_with_Some. by exists g, e.
    - apply (new_slot_owned c1 A1 p); [done|exact (Forall_lookup_1 _ _ _ _ Hr1 Hg)|by eapply Hgr]. }
  cbn [mbind res_bind]. exists c2, A1, (set_req_to_token p t), ers. rewrite <-Eps.
  split; [done|]. split; [by rewrite <-!list_fmap_compose|]. split; [|split; [by rewrite <-Hset|]; split; [done|]; split; [|done]; by apply (next_lengths c1 A1 p _ gs ers Hb1 Hlen)].
  assert (Forall (runs c2 A1 (set_req_to_token p t)) gs') as Hr2.
  { apply Forall_forall. intros g' (k & g & e & Hg & He & ->)%zip_with_elem.
    pose proof (Forall_lookup_1 _ _ _ _ Hgrow Hg) as [? ?].
    apply (next_runs c1 c2 A1 p); [done|done|exact (Forall_lookup_1 _ _ _ _ Hr1 Hg)|done|done|by eapply Hgr|].
    by apply (Hown k). }
  pose proof (Inv_set_alloc c1 A1 a' Hinv1) as Hinv2. fold c2 in Hinv2.
  assert (all_slots c2 A1 gs' ≡ₚ all_slots c1 A1 gs) as Hall2.
  { rewrite (all_slots_pages c2 A1 _ gs' Hinv2 Hr2). exact Hall. }
  fold gs'. constructor; rewrite ?Hall2; try done.
  - constructor; try done; [apply Hkv1|]. rewrite <-Hall2 in Hnd1. unfold all_slots in Hnd1.
    by apply NoDup_app in Hnd1 as (_ & _ & ?).
  - unfold gs'. rewrite (zip_next_same gs ers g_idx Hlen) by done.
    destruct Ho as [? ? ? ?]. constructor; try done. cbn. unfold zlen in *. by rewrite Hlt.
  - intros i a Hi Hir. specialize (Hh1 i a Hi Hir). enough (holders gs' i = holders gs i) by lia.
    assert (∀ l, holders l i = zlen (filter (λ n, n = i) (g_node <$> l))) as Hhold.
    { induction l as [|g l IHl]; [done|]. rewrite holders_cons, IHl, fmap_cons, filter_cons.
      case_decide; rewrite ?zlen_cons; lia. }
    rewrite !Hhold. unfold gs'. by rewrite (zip_next_same gs ers g_node Hlen).
Qed.
End decode.
