(* ===== verification/DecodeTheorems.v ===== *)
(** * Decode steps never run out of memory

    The memory side of [Scheduler.update_running_batch]: check, retract if needed,
    allocate.  The theorems and their witnesses on a concrete batch. *)

From S2P Require Import Prelude PyFloat PySort Allocator AllocKernels RadixKey PrefixTree TreeNode ReqPool Events.
From S2P Require Import RadixCache RadixInv RadixWalk RadixLock RadixInsert RadixEvict RadixTheorems ReqCache ReqOwnership.
From S2P Require Import PrefillAdder RadixPools Allocation AllocWrites BatchAlloc RunningBatch Retract RetractTheorems DecodeAlloc.
Import Allocator.

Lemma sublist_full {A} (l k : list A) : l `sublist_of` k → (length k ≤ length l)%nat → l = k.
Proof.
  induction 1 as [|x l k Hs IH|x l k Hs IH]; intros Hl; [done|by f_equal; apply IH; cbn in Hl; lia|].
  apply sublist_length in Hs. cbn in Hl. lia.
Qed.

Section turn.
Context `{Clock} `{SetOrder} `{HashLaws} `{KVAllocator} `{KVFree} `{RetractSettings} `{RetractionPolicy} `{Census}.
Context `{BatchAllocator} `{!BatchLaws}.
Context (spec : SpecConfig).
Hypothesis Hplain : spec_algo_none = true.

(** The unfinished requests of the batch are [gs]. *)
Record live_batch (b : DecodeBatch) (gs : list greq) : Prop := {
  lb_idx : length (d_req_pool_indices b) = length (d_reqs b);
  lb_lens : length (d_seq_lens b) = length (d_reqs b);
  lb_reqs : sel (d_reqs b) (unfinished_indices (d_reqs b)) = g_req <$> gs;
  lb_rows : sel (d_req_pool_indices b) (unfinished_indices (d_reqs b)) = g_idx <$> gs;
  lb_seqs : sel (d_seq_lens b) (unfinished_indices (d_reqs b)) = (λ g, kv_committed_len (g_kv g)) <$> gs;
}.

Lemma unfinished_valid reqs : unfinished_indices reqs `sublist_of` seq 0 (length reqs).
Proof. unfold unfinished_indices. rewrite <-(imap_fst reqs). apply fmap_sublist, sublist_filter. Qed.

Lemma drop_finished b gs :
  live_batch b gs →
  ∃ b1, filter_batch (unfinished_indices (d_reqs b)) b = Ok b1 ∧ d_reqs b1 = g_req <$> gs ∧
    (gs = [] ∨ batch_of b1 gs).
Proof.
  intros [L1 L2 E1 E2 E3]. pose proof (unfinished_valid (d_reqs b)) as Hsub.
  assert (∀ l : list nat, l `sublist_of` seq 0 (length (d_reqs b)) → Forall (λ i, (i < length (d_reqs b))%nat) l) as Hv.
  { intros l Hl. apply Forall_forall. intros i Hi. eapply elem_of_sublist in Hi; [|exact Hl].
    apply elem_of_seq in Hi. lia. }
  specialize (Hv _ Hsub). unfold filter_batch. destruct (Z.eqb_spec (zlen (unfinished_indices (d_reqs b))) 0) as [E%zlen_0|Hz].
  { rewrite E in *. cbn in E1. symmetry in E1. apply fmap_nil_inv in E1 as ->. eexists. split; [done|].
    split; [done|]. by left. }
  destruct (Z.eqb_spec (zlen (unfinished_indices (d_reqs b))) (zlen (d_reqs b))) as [El|_].
  - assert (unfinished_indices (d_reqs b) = seq 0 (length (d_reqs b))) as E.
    { apply sublist_full; [done|]. rewrite length_seq. unfold zlen in El. lia. }
    exists b. rewrite E in E1, E2, E3. rewrite sel_seq in E1. rewrite <-L1, sel_seq in E2. rewrite <-L2, sel_seq in E3.
    split; [done|]. split; [done|]. right. by split_and!.
  - rewrite !pick_sel by (by rewrite ?L1, ?L2). rewrite E1, E2, E3. eexists. split; [done|]. split; [done|]. right. by split_and!.
Qed.

Lemma with_step_reqs kept ers :
  length ers = length kept →
  zip_with with_base (g_req <$> kept) ((λ g, step_req (base (g_req g))) <$> kept) = g_req <$> zip_with next_g kept ers.
Proof.
  revert ers. induction kept as [|g kept IH]; intros [|e ers] Hl; try done.
  cbn [fmap list_fmap zip_with]. by rewrite (IH ers) by (by injection Hl).
Qed.

Lemma same_table_shape p p' : same_table p p' → same_shape_table p p'.
Proof. intros [E1 E2]. split; [by rewrite E1|done]. Qed.

(** What a turn leaves: the kept requests own one slot more each. *)
Record stepped (c : RadixCache) (p : ReqToTokenPool) (gs kept : list greq) (ers : list ereq) (t : Turn) (A : atree) : Prop := {
  st_inv : batch_inv (t_pools t).1 A (t_pools t).2 (zip_with next_g kept ers);
  st_kept : kept ⊆ gs;
  st_grown : Forall2 (grown (cpage_size c)) (next_row <$> kept) ers;
  st_out : t_out t = (λ e, row_last (e_row e)) <$> ers;
  st_reqs : d_reqs (t_batch t) = g_req <$> zip_with next_g kept ers;
  st_batch : kept = [] ∨ batch_of (t_batch t) (zip_with next_g kept ers);
  st_objs : obj <$> (d_reqs (t_batch t) ++ t_retracted t ++ t_aborted t) ≡ₚ obj <$> (g_req <$> gs);
  st_given : ∃ l, l ⊆ gs ∧ t_retracted t ++ t_aborted t = given_up l;
  st_settings : settings (t_pools t).1 = settings c;
  st_table : same_shape_table p (t_pools t).2;
}.

Lemma prepare_spec d b c A p gs :
  batch_inv c A p gs → batch_of b gs → fits spec c (g_req <$> gs) → Forall can_grow gs →
  ∃ out b' c' A' p' ers, prepare_for_decode spec d b (c, p) = Ok (out, b', (c', p')) ∧
    batch_inv c' A' p' (zip_with next_g gs ers) ∧ Forall2 (grown (cpage_size c)) (next_row <$> gs) ers ∧
    out = (λ e, row_last (e_row e)) <$> ers ∧ batch_of b' (zip_with next_g gs ers) ∧
    settings c' = settings c ∧ same_shape_table p p'.
Proof.
  intros Hb (E1 & E2 & E3) Hfit Hgrow. unfold prepare_for_decode. rewrite Hplain, E1, E2, E3.
  destruct (alloc_for_decode_spec spec Hplain c A p gs Hb Hfit Hgrow) as (c' & A' & p' & ers & HF & -> & Hb' & Hset & _ & Hsh).
  cbn [mbind res_bind]. assert (length ers = length gs) as Hlen by (apply Forall2_length in HF; rewrite length_fmap in HF; lia).
  eexists _, _, c', A', p', ers. split; [done|]. split; [done|]. split; [done|]. split; [done|].
  split; [|done]. split_and!; cbn [d_reqs d_req_pool_indices d_seq_lens].
  - by apply with_step_reqs.
  - by rewrite (zip_next_same gs ers g_idx Hlen).
  - clear -Hlen. revert ers Hlen. induction gs as [|g gs IH]; intros [|e ers] Hl; try done.
    cbn [fmap list_fmap zip_with]. by rewrite <-IH by (by injection Hl).
Qed.

Lemma next_objs kept ers :
  length ers = length kept → obj <$> (g_req <$> zip_with next_g kept ers) = obj <$> (g_req <$> kept).
Proof. intros. rewrite <-!list_fmap_compose. by apply (zip_next_same kept ers (obj ∘ g_req)). Qed.

Lemma preference_objs reqs : obj <$> preference reqs ≡ₚ obj <$> reqs.
Proof.
  unfold preference. rewrite py_sorted_Permutation. assert ((imap pair reqs).*2 = reqs) as ->; [|done].
  apply list_eq. intros i. rewrite list_lookup_fmap, list_lookup_imap. by destruct (reqs !! i).
Qed.

(** The decision of the scheduler: the batch as it is, or after retraction. *)
Lemma decide_spec b c A p gs (force : bool) ratio :
  batch_inv c A p gs → batch_of b gs → gs ≠ [] →
  ∃ ok c1 b' given aborted ratio' c' p' gs' A',
    check_decode_mem spec (d_reqs b) None c = Ok (ok, c1) ∧
    (if negb ok || force then
       '(b, retracted, q, aborted, s) ← retract_decode spec b (c1, p);
       Ok (b, retracted, aborted, NewTokenRatioTracker.set_current ratio q, s)
     else Ok (b, [], [], NewTokenRatioTracker.decay_step ratio, (c1, p))) = Ok (b', given, aborted, ratio', (c', p')) ∧
    batch_inv c' A' p' gs' ∧ d_reqs b' = g_req <$> gs' ∧ (gs' = [] ∨ batch_of b' gs') ∧ gs' ⊆ gs ∧
    fits spec c' (g_req <$> gs') ∧ cpage_size c' = cpage_size c ∧
    obj <$> (d_reqs b' ++ given ++ aborted) ≡ₚ obj <$> (g_req <$> gs) ∧
    (∃ l, l ⊆ gs ∧ given ++ aborted = given_up l) ∧ settings c' = settings c ∧ same_table p p' ∧
    (force = false → step_need spec (g_req <$> gs) (cpage_size c) ≤ kv_available (kv_allocator c) + evictable_size_ c →
       gs' = gs ∧ given = [] ∧ aborted = []).
Proof.
  intros Hb Hof Hne. assert (spec_algo_none = true ∨ ∃ n, get_alloc_reserve_per_decode spec = Ok n) as Hspec by (by left).
  destruct (check_spec spec Hspec c A p gs (d_reqs b) None Hb) as (ok & c1 & A1 & Hrun & Hb1 & Hset & Hok & Hshort).
  { by rewrite (proj1 Hof). }
  destruct (settings_fields c c1 Hset) as (_ & Eps & _).
  destruct (negb ok || force) eqn:Hgo.
  - destruct (retract_decode_spec spec Hspec b gs c1 A1 p Hb1 Hof Hne)
      as (b' & given & q & aborted & c' & p' & gs' & A' & Hrt & [R1 R2 R3 R4 R5 R6 _ _ R7 R9 R10]).
    exists ok, c1, b', given, aborted. eexists. exists c', p', gs', A'. rewrite Hgo, Hrt.
    destruct (settings_fields c1 c' R9) as (_ & Eps' & _). split; [done|]. split; [done|]. rewrite R2 in *.
    split_and!; try done.
    + congruence.
    + etrans; [|exact (preference_objs (g_req <$> gs))]. rewrite <-R6, !fmap_app, reverse_Permutation. by rewrite fmap_app.
    + congruence.
    + intros -> Hen. destruct ok; [done|]. specialize (Hshort eq_refl). lia.
  - apply orb_false_iff in Hgo as [->%negb_false_iff ->].
    exists true, c1, b, [], []. eexists. exists c1, p, gs, A1. split; [done|]. split; [done|].
    split_and!; try done; [apply Hof|by right|by apply Hok| |exists []; split; [apply list_subseteq_nil|done]].
    rewrite !app_nil_r. by rewrite (proj1 Hof).
Qed.

(** A whole turn. *)
Lemma turn_spec d force full ratio b c A p gs :
  batch_inv c A p gs → live_batch b gs → Forall can_grow gs →
  ∃ t kept ers A', update_running_batch spec d force full ratio b (c, p) = Ok t ∧
    stepped c p gs kept ers t A' ∧
    (force = false → step_need spec (g_req <$> gs) (cpage_size c) ≤ kv_available (kv_allocator c) + evictable_size_ c →
       kept = gs ∧ t_retracted t = [] ∧ t_aborted t = []).
Proof.
  intros Hb Hlive Hgrow. unfold update_running_batch.
  destruct (drop_finished b gs Hlive) as (b1 & -> & E1 & Hof). cbn [mbind res_bind]. rewrite E1, zlen_fmap.
  destruct (Z.eqb_spec (zlen gs) 0) as [->%zlen_0|Hz].
  { eexists _, [], [], A. split; [done|]. split; [|done].
    constructor; cbn [t_pools fst snd t_out t_batch t_retracted t_aborted]; rewrite ?E1; try done.
    exists []. split; [apply list_subseteq_nil|done]. }
  destruct Hof as [->|Hof]; [done|]. assert (gs ≠ []) as Hne by (intros ->; done).
  destruct (decide_spec b1 c A p gs force ratio Hb Hof Hne)
    as (ok & c1 & b2 & given & aborted & ratio' & c2 & p2 & gs2 & A2 & Hchk & Hdec & Hb2 & E2 & Hof2 & Hsub & Hfit & Eps & Hobj & Hgiven & Hset & Hst & Hcalm).
  rewrite E1 in Hchk. rewrite Hchk. cbn [mbind res_bind]. rewrite Hdec. cbn [mbind res_bind]. rewrite E2, zlen_fmap.
  destruct (Z.eqb_spec (zlen gs2) 0) as [->%zlen_0|Hz2].
  { eexists _, [], [], A2. split; [done|]. split; [|intros Hf Hen; destruct (Hcalm Hf Hen) as (<- & -> & ->); done].
    constructor; cbn [t_pools fst snd t_out t_batch t_retracted t_aborted]; try done. by apply same_table_shape. }
  destruct Hof2 as [->|Hof2]; [done|].
  assert (Forall can_grow gs2) as Hgrow2.
  { apply Forall_forall. intros g Hg. by eapply Forall_forall; [exact Hgrow|apply Hsub]. }
  destruct (prepare_spec d b2 c2 A2 p2 gs2 Hb2 Hof2 Hfit Hgrow2)
    as (out & b3 & c3 & A3 & p3 & ers & -> & Hb3 & HF & -> & Hof3 & Hset3 & Hsh3). cbn [mbind res_bind]. rewrite Eps in HF.
  eexists _, gs2, ers, A3. split; [done|]. split; [|intros Hf Hen; by destruct (Hcalm Hf Hen) as (-> & -> & ->)].
  assert (length ers = length gs2) as Hlen by (apply Forall2_length in HF; rewrite length_fmap in HF; lia).
  constructor; cbn [t_pools fst snd t_out t_batch t_retracted t_aborted]; try done; [apply Hof3|by right| |by rewrite Hset3|].
  2:{ destruct (same_table_shape p p2 Hst), Hsh3. split; congruence. }
  rewrite (proj1 Hof3), fmap_app, (next_objs gs2 ers Hlen), <-E2, <-fmap_app. done.
Qed.
End turn.

(** ** A concrete batch for the witnesses *)

Module DecodeDemo.
Import (hints) Demo.
#[export] Existing Instances quiet_token token_batch.
#[export] Instance laws0 : BatchLaws := token_laws.
#[export] Instance free0 : KVFree := Token.free.
#[export] Instance retract0 : RetractSettings := {|
  spec_algo_none := true; strip_thinking_cache := false; RETRACT_DECODE_STEPS := 20;
|}.
#[export] Instance census0 : Census := 7.
#[export] Instance policy0 : RetractionPolicy := None.

(** Two requests with rows of three slots, and one slot left in the pool. *)
Definition request (n : nat) (origin output : list Z) (idx : Z) : SReq :=
  mkSReq n (mkReq origin output (origin ++ output) false None None None None 0 [] (Some 0%nat) false
              (mkKv (Some idx) 0 3 3 0 0)) 16 false 0 0 None 0 0 0 0 false false false false None.
Definition short : SReq := request 1 [1; 2; 3] [9] 1.
Definition long : SReq := request 2 [4; 5] [6; 8] 2.
Definition gshort : greq := mkG short 1 [1; 2; 3; 0; 0] [1; 2; 3] 0.
Definition glong : greq := mkG long 2 [4; 5; 6; 0; 0] [4; 5; 6] 0.
Definition rows : ReqToTokenPool :=
  mkPool 2 3 5 [[0; 0; 0; 0; 0]; [1; 2; 3; 0; 0]; [4; 5; 6; 0; 0]] [] [0; 1; 1].
Definition tight : RadixCache := set_kv_allocator Demo.fresh (set_free_pages Demo.al0 [7]).
Definition batch : DecodeBatch := mkDecode [short; long] [1; 2] [3; 3].
Definition plain : SpecConfig := mkSpec None None None None 1.
Definition ratio0 : NewTokenRatioTracker.t := NewTokenRatioTracker.from_config (7 # 10) 1 (14 # 100) 600.

Lemma tight_runs g : g = gshort ∨ g = glong → runs tight (root_tree 0) rows g.
Proof.
  intros Hg. constructor; destruct Hg as [-> | ->];
    try (vm_compute; intros; first [reflexivity | split; (discriminate || reflexivity) | discriminate]).
  all: try (intros i x Hx; do 3 (destruct i as [|i]; [injection Hx as <-; eexists; vm_compute; done|]); discriminate).
  all: eexists; split; [split; [vm_compute; reflexivity|]; split; [done|]; split; [|reflexivity]|reflexivity];
    vm_compute; split; discriminate.
Qed.

Lemma tight_inv : batch_inv tight (root_tree 0) rows [gshort; glong].
Proof.
  constructor.
  - apply Inv_set_alloc, Demo.fresh_inv.
  - constructor; [|reflexivity| |by_evaluation].
    + split; [|reflexivity]. repeat split.
    + change (cpage_size tight) with 1. apply Demo.paged_1.
  - reflexivity.
  - constructor; [apply tight_runs; by left|]. constructor; [apply tight_runs; by right|constructor].
  - by_evaluation.
  - by_evaluation.
  - reflexivity.
  - constructor; [by_evaluation|reflexivity|reflexivity|by split].
  - intros i a Hi Hne. exfalso. apply Hne. unfold root_tree in Hi. by apply lookup_singleton_Some in Hi as [<- _].
Qed.

Lemma demo_grow : Forall can_grow [gshort; glong].
Proof. repeat constructor; vm_compute; congruence. Qed.

Lemma demo_live : live_batch batch [gshort; glong].
Proof. constructor; reflexivity. Qed.
End DecodeDemo.
Import (hints) Demo DecodeDemo.

(** ** Properties *)

(** C17: retraction makes the next decode step fit.  On a batch whose requests own
    their rows and pages, [retract_decode] returns (it never raises); the requests
    it keeps still own their memory, and the pool holds enough free tokens for
    their next step, or nobody is left.  The kept requests, the aborted one and the
    retracted ones in reverse are the batch in the order of preference of the
    retraction policy, so the least preferred went first; with two or more requests
    at least one is retracted, and a request is aborted only when it was the last. *)
Theorem retract_leaves_fitting_batch `{Clock} `{SetOrder} `{HashLaws} `{KVAllocator} `{KVFree} `{RetractSettings}
    `{RetractionPolicy} `{Census} `{BatchAllocator} `{!BatchLaws} (spec : SpecConfig) (b : DecodeBatch) (gs : list greq)
    (c : RadixCache) (A : atree) (p : ReqToTokenPool) :
  spec_algo_none = true ∨ (∃ n, get_alloc_reserve_per_decode spec = Ok n) →
  batch_inv c A p gs → batch_of b gs → gs ≠ [] →
  ∃ b' retracted ratio aborted c' p' kept A',
    retract_decode spec b (c, p) = Ok (b', retracted, ratio, aborted, (c', p')) ∧
    batch_inv c' A' p' kept ∧ d_reqs b' = g_req <$> kept ∧
    (∃ n, new_tokens_required_next_decode spec (d_reqs b') (cpage_size c') = Ok n ∧
       n ≤ kv_available (kv_allocator c')) ∧
    obj <$> (d_reqs b' ++ reverse (retracted ++ aborted)) =
      obj <$> (py_sorted retraction_order (imap pair (d_reqs b))).*2 ∧
    ((1 < length gs)%nat → retracted ≠ []) ∧ (aborted ≠ [] → d_reqs b' = []).
Proof.
  intros Hspec Hb Hof Hne. destruct (retract_decode_spec spec Hspec b gs c A p Hb Hof Hne)
    as (b' & given & q & aborted & c' & p' & gs' & A' & Hrun & [R1 R2 R3 R4 R5 R6 R7 R8 _ R9 _]).
  exists b', given, q, aborted, c', p', gs', A'. split_and!; try done.
  - exists (step_need spec (d_reqs b') (cpage_size c')). split; [by apply required_ok|exact R5].
  - rewrite (proj1 Hof). exact R6.
Qed.

Lemma retract_leaves_fitting_batch_witness :
  ∃ b' retracted ratio aborted c' p', retract_decode DecodeDemo.plain DecodeDemo.batch (DecodeDemo.tight, DecodeDemo.rows) =
      Ok (b', retracted, ratio, aborted, (c', p')) ∧
    d_reqs b' = [DecodeDemo.long] ∧ obj <$> retracted = [1%nat] ∧ 1 ≤ kv_available (kv_allocator c').
Proof.
  destruct (retract_leaves_fitting_batch DecodeDemo.plain DecodeDemo.batch [DecodeDemo.gshort; DecodeDemo.glong]
    DecodeDemo.tight (root_tree 0) DecodeDemo.rows)
    as (b' & retracted & ratio & aborted & c' & p' & kept & A' & Hrun & _ & _ & _ & Hord & _).
  - left. reflexivity.
  - exact DecodeDemo.tight_inv.
  - repeat split.
  - discriminate.
  - exists b', retracted, ratio, aborted, c', p'. split; [exact Hrun|].
    vm_compute in Hrun. apply (inj Ok) in Hrun. injection Hrun as <- <- _ <- <- <-.
    split; [reflexivity|]. split; [reflexivity|]. vm_compute. discriminate.
Defined.

(** C6: a decode turn never runs out of memory.  On a running batch whose requests own
    their rows and pages, without speculation, [update_running_batch] returns: it
    drops the finished requests, retracts or aborts some if the memory is short, and
    allocates for the rest; the out-of-memory errors of the allocation are
    unreachable.  Every kept request has its row extended by one slot, on its last
    page or on a fresh one, the batch owns its memory again, and no request is lost:
    the kept, the retracted and the aborted ones are the unfinished ones.  When free
    and evictable tokens cover the step, nobody is retracted. *)
Theorem decode_never_out_of_memory `{Clock} `{SetOrder} `{HashLaws} `{KVAllocator} `{KVFree} `{RetractSettings}
    `{RetractionPolicy} `{Census} `{BatchAllocator} `{!BatchLaws} (spec : SpecConfig) (d : Device) (force full : bool)
    (ratio : NewTokenRatioTracker.t) (b : DecodeBatch) (gs : list greq)
    (c : RadixCache) (A : atree) (p : ReqToTokenPool) :
  spec_algo_none = true → batch_inv c A p gs → live_batch b gs → Forall can_grow gs →
  ∃ t kept ers A', update_running_batch spec d force full ratio b (c, p) = Ok t ∧
    kept ⊆ gs ∧ Forall2 (grown (cpage_size c)) (next_row <$> kept) ers ∧
    t_out t = (λ e, row_last (e_row e)) <$> ers ∧ d_reqs (t_batch t) = g_req <$> zip_with next_g kept ers ∧
    batch_inv (t_pools t).1 A' (t_pools t).2 (zip_with next_g kept ers) ∧
    obj <$> (d_reqs (t_batch t) ++ t_retracted t ++ t_aborted t) ≡ₚ obj <$> (g_req <$> gs) ∧
    (force = false → step_need spec (g_req <$> gs) (cpage_size c) ≤ kv_available (kv_allocator c) + evictable_size_ c →
       kept = gs ∧ t_retracted t = [] ∧ t_aborted t = []).
Proof.
  intros Hplain Hb Hlive Hgrow. destruct (turn_spec spec Hplain d force full ratio b c A p gs Hb Hlive Hgrow)
    as (t & kept & ers & A' & Hrun & [S1 S2 S3 S4 S5 _ S7 _ _ _] & Hcalm).
  exists t, kept, ers, A'. by split_and!.
Qed.

Lemma decode_never_out_of_memory_witness :
  ∃ t, update_running_batch DecodeDemo.plain backwards false true DecodeDemo.ratio0 DecodeDemo.batch
         (DecodeDemo.tight, DecodeDemo.rows) = Ok t ∧
    obj <$> t_retracted t = [1%nat] ∧ t_out t = [7] ∧
    obj <$> (d_reqs (t_batch t) ++ t_retracted t ++ t_aborted t) ≡ₚ [1; 2]%nat.
Proof.
  destruct (decode_never_out_of_memory DecodeDemo.plain backwards false true DecodeDemo.ratio0 DecodeDemo.batch
    [DecodeDemo.gshort; DecodeDemo.glong] DecodeDemo.tight (root_tree 0) DecodeDemo.rows)
    as (t & kept & ers & A' & Hrun & _ & _ & _ & _ & _ & Hobj & _).
  - reflexivity.
  - exact DecodeDemo.tight_inv.
  - exact DecodeDemo.demo_live.
  - exact DecodeDemo.demo_grow.
  - exists t. split; [exact Hrun|]. split; [|split; [|exact Hobj]];
      vm_compute in Hrun; apply (inj Ok) in Hrun; rewrite <-Hrun; reflexivity.
Defined.
