(* ===== verification/Preemption.v ===== *)
(** * Preemption

    [PrefillAdder.preempt_to_schedule]: which running requests are preempted for a
    request of higher priority, and that they free enough: on any pools that keep the
    laws of [ReleaseLaws], and on the radix cache, which keeps them. *)

From S2P Require Import Prelude PyFloat PySort Allocator AllocKernels RadixKey PrefixTree TreeNode ReqPool Events.
From S2P Require Import RadixCache RadixInv RadixLock RadixEvict RadixTheorems ReqCache PrefillDelayer PrefillAdder RadixPools Allocation.
From S2P Require Import BatchAlloc RunningBatch DecodeTheorems.

(** ** The victims *)

Section preempt.
Context {P : Type} `{Settings} `{Pools P}.
Implicit Types (a : PrefillAdder P) (r : SReq).

Definition offsets (c : AdderConfig) (l : list SReq) : Q :=
  Qsum (get_running_request_total_token_offset c <$> l).

Definition outranked (c : AdderConfig) (prio : Z) (x : SReq) : Prop :=
  priority_scheduling_preemption_threshold c < (prio - priority x) * - priority_sign.

Lemma offsets_cons c x l :
  (offsets c (x :: l) == get_running_request_total_token_offset c x + offsets c l)%Q.
Proof. unfold offsets. cbn. apply Qeq_refl. Qed.

Lemma pick_victims_spec c prio l vs need vs' need' :
  pick_victims c prio l vs need = (vs', need') →
  ∃ k rest, l = k ++ rest ∧ vs' = vs ++ k ∧ Forall (outranked c prio) k ∧
    (need' == need - offsets c k)%Q.
Proof.
  revert vs need. induction l as [|x l IH]; intros vs need; cbn [pick_victims].
  - intros [= <- <-]. exists [], []. split_and!; [done|by rewrite app_nil_r|done|]. unfold offsets. cbn. lra.
  - destruct (Z.gtb_spec ((prio - priority x) * - priority_sign)
                (priority_scheduling_preemption_threshold c)) as [Hgt|Hle].
    + destruct (Qle_bool _ 0).
      * intros [= <- <-]. exists [x], l. split_and!; [done|done|by repeat constructor|].
        rewrite offsets_cons. unfold offsets. cbn. lra.
      * intros Hp. destruct (IH _ _ Hp) as (k & rest & -> & -> & Hk & Hn).
        exists (x :: k), rest. split_and!; [done|by rewrite <- app_assoc|by constructor|].
        rewrite Hn, offsets_cons. lra.
    + intros [= <- <-]. exists [], (x :: l).
      split_and!; [done|by rewrite app_nil_r|done|]. unfold offsets. cbn. lra.
Qed.

Lemma same_obj_spec x l : same_obj x l = true ↔ ∃ y, y ∈ l ∧ obj y = obj x.
Proof.
  unfold same_obj. rewrite existsb_exists. split; intros (y & Hy & He).
  - exists y. by rewrite list_elem_of_In, <- Nat.eqb_eq.
  - exists y. by rewrite <- list_elem_of_In, Nat.eqb_eq.
Qed.

(** What preemption relies on.  [holding p l] says that the requests [l] hold their
    memory in the pools [p]: then each of them can be released, the others hold
    theirs as before, and the memory that is free or evictable does not shrink. *)
Class ReleaseLaws (holding : P → list SReq → Prop) : Prop := {
  holding_proper p : Proper ((≡ₚ) ==> iff) (holding p);
  release_holding x l n p : holding p (x :: l) →
    ∃ x' p', p_release_req x n p = Ok (x', p') ∧ holding p' l ∧
      available_and_evictable p ≤ available_and_evictable p';
}.

Section release.
Context (holding : P → list SReq → Prop) `{!ReleaseLaws holding}.
#[local] Existing Instance holding_proper.

Lemma release_victims_spec c vs l kept n k off p :
  holding p (l ++ kept) →
  ∃ keep gone off' p', release_victims c vs l n k off p = Ok (keep, gone, off', p') ∧
    keep = List.filter (λ x, negb (same_obj x vs)) l ∧
    length gone = length (List.filter (λ x, same_obj x vs) l) ∧
    (off' == off - offsets c (List.filter (λ x, same_obj x vs) l))%Q ∧
    holding p' (keep ++ kept) ∧ available_and_evictable p ≤ available_and_evictable p'.
Proof.
  revert kept k off p. induction l as [|x l IH]; intros kept k off p Hh.
  - exists [], [], off, p. split_and!; try done. unfold offsets. cbn. lra.
  - cbn [release_victims List.filter]. destruct (same_obj x vs); cbn [negb].
    + destruct (release_holding x (l ++ kept) (n - (k + 1)) p Hh) as (x' & p1 & -> & Hh1 & Hle). cbn [mbind res_bind].
      destruct (IH kept (k + 1) (off - get_running_request_total_token_offset c x)%Q p1 Hh1)
        as (keep & gone & off' & p' & -> & -> & Hl & Ho & Hh' & Ha). cbn [mbind res_bind].
      do 4 eexists. split; [done|]. split; [done|]. split; [by cbn; rewrite Hl|].
      split; [rewrite Ho, offsets_cons; lra|]. split; [done|lia].
    + cbn [app] in Hh. rewrite Permutation_middle in Hh. destruct (IH (x :: kept) k off p Hh)
        as (keep & gone & off' & p' & -> & -> & Hl & Ho & Hh' & Ha). cbn [mbind res_bind].
      do 4 eexists. split; [done|]. split_and!; try done. cbn [app]. by rewrite Permutation_middle.
Qed.
End release.

Lemma NoDup_obj_filter (vs running : list SReq) :
  NoDup (obj <$> running) → NoDup vs → (∀ v, v ∈ vs → v ∈ running) →
  List.filter (λ x, same_obj x vs) running ≡ₚ vs.
Proof.
  intros Hnd Hv Hsub. apply NoDup_Permutation.
  - apply NoDup_fmap_1 in Hnd. apply NoDup_ListNoDup, List.NoDup_filter. by apply NoDup_ListNoDup.
  - done.
  - intros x. rewrite list_elem_of_In, filter_In, <- list_elem_of_In, same_obj_spec. split.
    + intros (Hx & y & Hy & Ho). enough (y = x) as <- by done.
      destruct (list_elem_of_lookup_1 _ _ Hx) as (i & Hi).
      destruct (list_elem_of_lookup_1 _ _ (Hsub y Hy)) as (j & Hj).
      enough (i = j) by congruence.
      apply (NoDup_lookup (obj <$> running) i j (obj x)); [done| |]; rewrite list_lookup_fmap; [by rewrite Hi|].
      rewrite Hj. cbn. by rewrite Ho.
    + intros Hx. split; [by apply Hsub|]. by exists x.
Qed.

Lemma elem_of_valid (gone running : list SReq) v :
  v ∈ List.filter (λ x, negb (same_obj x gone) && negb (is_finished x)) running ↔
  v ∈ running ∧ same_obj v gone = false ∧ is_finished v = false.
Proof. by rewrite list_elem_of_In, filter_In, <- list_elem_of_In, andb_true_iff, !negb_true_iff. Qed.

(** On pools that keep the laws, [preempt_to_schedule] returns, and either changes
    nothing or makes the room it promises. *)
Lemma preempt_to_schedule_spec holding `{!ReleaseLaws holding} r a (running : list SReq) :
  running_reqs a = Some running → NoDup (obj <$> running) → holding (pools a) running →
  ∃ (committed : bool) a', preempt_to_schedule r a = Ok (committed, a') ∧
  if committed then
    ∃ vs, vs ≠ [] ∧
      (∀ v, v ∈ vs → v ∈ running ∧ is_finished v = false ∧ same_obj v (preempt_list a) = false ∧
         outranked (cfg a) (priority r) v) ∧
      (∀ v y, v ∈ vs → y ∈ running → is_finished y = false → same_obj y (preempt_list a) = false →
         y ∉ vs → preempt_le v y = true) ∧
      running_reqs a' = Some (List.filter (λ x, negb (same_obj x vs)) running) ∧
      holding (pools a') (List.filter (λ x, negb (same_obj x vs)) running) ∧
      length (preempt_list a') = (length (preempt_list a) + length vs)%nat ∧
      (inject_Z (fill_len r - prefix_len r + Z.min (max_new_tokens r) CLIP_MAX_NEW_TOKENS)
         <= rem_total_tokens a')%Q
  else a' = a.
Proof.
  intros Hrun Hnd Hhold. unfold preempt_to_schedule. rewrite Hrun.
  set (valid := List.filter _ running). set (tokens := fill_len r - prefix_len r + _).
  destruct (pick_victims _ _ _ _ _) as [vs need] eqn:Hpick.
  apply pick_victims_spec in Hpick as (k & rest & Hl & -> & Hout & Hneed). cbn [app] in *.
  destruct ((zlen k =? 0) || negb (Qle_bool need 0)) eqn:Hgo; [by exists false, a|].
  apply orb_false_iff in Hgo as [Hk0 Hn0]. apply negb_false_iff, Qleb_spec in Hn0.
  assert (valid ≡ₚ k ++ rest) as Hperm by (rewrite <- Hl; symmetry; apply py_sorted_Permutation).
  pose proof (elem_of_valid (preempt_list a) running : ∀ v, v ∈ valid ↔ _) as Hvalid.
  assert (∀ v, v ∈ k → v ∈ valid) as Hsub by (intros v Hv; rewrite Hperm; apply elem_of_app; by left).
  assert (NoDup k) as Hndk.
  { assert (NoDup valid) as Hv; [|rewrite Hperm in Hv; by apply NoDup_app in Hv as (? & _)].
    apply NoDup_fmap_1 in Hnd. apply NoDup_ListNoDup, List.NoDup_filter. by apply NoDup_ListNoDup. }
  assert (List.filter (λ x, same_obj x k) running ≡ₚ k) as Hgone.
  { apply NoDup_obj_filter; [done|done|]. intros v Hv. by apply Hvalid, Hsub. }
  destruct (release_victims_spec holding (cfg a) k running [] (zlen running) 0
    (rem_total_token_offset (budget a)) (pools a)) as (keep & gone & off & p & -> & -> & Hlen & Hoff & Hh & Hmem).
  { by rewrite app_nil_r. }
  cbn [mbind res_bind]. rewrite app_nil_r in Hh. eexists true, _. split; [done|]. exists k. split_and!.
  - intros ->. done.
  - intros v Hv. pose proof (proj1 (Hvalid v) (Hsub v Hv)) as (? & ? & ?). split_and!; try done.
    rewrite Forall_forall in Hout. by apply Hout.
  - intros v y Hv Hy Hf Hs Hny.
    assert (StronglySorted (λ x y, preempt_le x y = true) (k ++ rest)) as (Hle & _)%StronglySorted_app.
    { rewrite <- Hl. unfold preempt_le. apply py_sorted_sorted. apply _. }
    apply Hle; [done|]. assert (y ∈ k ++ rest) as Hin by (rewrite <- Hperm; by apply Hvalid). by apply elem_of_app in Hin as [?|?].
  - done.
  - exact Hh.
  - cbn. rewrite length_app, Hlen. by rewrite Hgone.
  - unfold rem_total_tokens in *. cbn [with_preempted pools budget rem_total_token_offset].
    assert (offsets (cfg a) (List.filter (λ x, same_obj x k) running) == offsets (cfg a) k)%Q as Ho.
    { unfold offsets. apply Qsum_proper. by rewrite Hgone. }
    rewrite Zle_Qle in Hmem. rewrite Hoff, Ho. lra.
Qed.
End preempt.


(** ** The radix cache keeps the laws *)

Section radix.
Context `{Clock} `{SetOrder} `{HashLaws} `{KVAllocator} `{KVFree} `{RetractSettings} `{Census}.
Context `{BatchAllocator} `{!BatchLaws}.

Definition radix_holding (s : RadixCache * ReqToTokenPool) (l : list SReq) : Prop :=
  ∃ A gs, batch_inv s.1 A s.2 gs ∧ g_req <$> gs ≡ₚ l.

#[export] Instance radix_release_laws : ReleaseLaws radix_holding.
Proof.
  constructor.
  - intros [c p] l k Hlk. unfold radix_holding. by setoid_rewrite Hlk.
  - intros x l n [c p] (A & gs & Hb & Hx). cbn [fst snd] in Hb.
    apply Permutation_cons_inv_r in Hx as (k1 & k2 & Hgs & Hl).
    apply fmap_app_inv in Hgs as (gs1 & gs2' & -> & Hgs2 & ->).
    destruct gs2' as [|g gs2]; [done|]. injection Hgs2 as -> ->.
    rewrite <-Permutation_middle in Hb. destruct (release_one c A p g (gs1 ++ gs2) n Hb)
      as (c' & p' & A' & Hrun & Hb' & _ & _ & _ & Hmem).
    exists (retracted_of (g_req g)), (c', p'). split; [exact Hrun|]. split; [|exact Hmem].
    exists A', (gs1 ++ gs2). split; [done|]. by rewrite fmap_app, Hl.
Qed.
End radix.

Module PreemptDemo.
Import (hints) Demo DecodeDemo.
#[export] Instance settings1 : Settings := {|
  CLIP_MAX_NEW_TOKENS := 4096; IS_HIP := false; PREFILL_TILE_BUDGET := 0;
  tile_mode_compact := true; low_priority_values_first := false;
|}.
#[export] Instance census1 : Census := 10.
(** The two decoding requests of [DecodeDemo], with four slots left in the pool, and a
    request of higher priority. *)
Definition cache : RadixCache := set_kv_allocator Demo.fresh (set_free_pages Demo.al0 [7; 8; 9; 10]).
Definition adder : PrefillAdder (RadixCache * ReqToTokenPool) :=
  PrefillAdder_init 1 (cache, DecodeDemo.rows) (Some [DecodeDemo.short; DecodeDemo.long])
    (1 # 10)%Q 100 None 0 2 0 None None None (mkEnv (λ i, [i]) 0%Q 0%Q 0%Q) None 0 64 false.
Definition urgent : SReq :=
  mkSReq 9 (mkReq [11; 12] [] [11; 12] false None None None None 0 [] None false kv_empty)
    1 false 5 0 None 0 0 0 0 false false false false None.

Lemma cache_inv : batch_inv cache (root_tree 0) DecodeDemo.rows [DecodeDemo.gshort; DecodeDemo.glong].
Proof.
  destruct DecodeDemo.tight_inv as [_ [_ _ Hpaged _] _ Hruns _ _ _ Hrows Hheld]. constructor; try done.
  - apply Inv_set_alloc, Demo.fresh_inv.
  - constructor; [|reflexivity|exact Hpaged|by_evaluation]. split; [|reflexivity]. repeat split.
  - eapply Forall_impl; [exact Hruns|]. intros g. apply runs_transport; [done|done|]. intros a Ha. by exists a.
  - by_evaluation.
  - by_evaluation.
Qed.
End PreemptDemo.
Import (hints) Demo DecodeDemo PreemptDemo.

(** ** Properties *)

(** C26: preemption makes room.  On the radix cache, with a running batch of different
    requests that own their rows, pages and locks, [preempt_to_schedule] returns.  When it
    commits, it has preempted some running requests, each of them neither finished
    nor preempted before and outranked by the new request by more than the
    threshold; every running request that could have been preempted and was not
    ranks at least as high as the ones that were; the others keep running and still
    own their memory; and the tokens the new request asks for now fit in the
    remaining memory.  When it does not commit, nothing changed. *)
Theorem preemption_makes_room `{Settings} `{Clock} `{SetOrder} `{HashLaws} `{KVAllocator} `{KVFree} `{RetractSettings}
    `{Census} `{BatchAllocator} `{!BatchLaws} (r : SReq) (a : PrefillAdder (RadixCache * ReqToTokenPool))
    (c : RadixCache) (A : atree) (p : ReqToTokenPool) (gs : list greq) (running := g_req <$> gs) :
  running_reqs a = Some running → NoDup (obj <$> running) → pools a = (c, p) → batch_inv c A p gs →
  ∃ (committed : bool) a', preempt_to_schedule r a = Ok (committed, a') ∧
  if committed then
    ∃ vs, vs ≠ [] ∧
      (∀ v, v ∈ vs → v ∈ running ∧ is_finished v = false ∧ same_obj v (preempt_list a) = false ∧
         outranked (cfg a) (priority r) v) ∧
      (∀ v y, v ∈ vs → y ∈ running → is_finished y = false → same_obj y (preempt_list a) = false →
         y ∉ vs → preempt_le v y = true) ∧
      running_reqs a' = Some (List.filter (λ x, negb (same_obj x vs)) running) ∧
      (∃ c' A' p' gs', pools a' = (c', p') ∧ batch_inv c' A' p' gs' ∧
         g_req <$> gs' ≡ₚ List.filter (λ x, negb (same_obj x vs)) running) ∧
      length (preempt_list a') = (length (preempt_list a) + length vs)%nat ∧
      (inject_Z (fill_len r - prefix_len r + Z.min (max_new_tokens r) CLIP_MAX_NEW_TOKENS)
         <= rem_total_tokens a')%Q
  else a' = a.
Proof.
  intros Hrun Hnd Hp Hb. destruct (preempt_to_schedule_spec radix_holding r a running Hrun Hnd)
    as (committed & a' & Hr & Hc); [by rewrite Hp; exists A, gs|].
  exists committed, a'. split; [done|]. destruct committed; [|done].
  destruct Hc as (vs & V1 & V2 & V3 & V4 & (A' & gs' & Hb' & Hg') & V6 & V7). exists vs. split_and!; try done.
  destruct (pools a') as [c' p']. by exists c', A', p', gs'.
Qed.

Lemma preemption_makes_room_witness :
  ∃ a' vs, preempt_to_schedule PreemptDemo.urgent PreemptDemo.adder = Ok (true, a') ∧ vs ≠ [] ∧
    running_reqs a' = Some (List.filter (λ x, negb (same_obj x vs)) [DecodeDemo.short; DecodeDemo.long]) ∧
    (inject_Z 3 <= rem_total_tokens a')%Q.
Proof.
  destruct (preemption_makes_room PreemptDemo.urgent PreemptDemo.adder PreemptDemo.cache (root_tree 0) DecodeDemo.rows
    [DecodeDemo.gshort; DecodeDemo.glong] eq_refl ltac:(by_evaluation) eq_refl PreemptDemo.cache_inv)
    as (committed & a' & Hr & Hc).
  destruct committed; [|exfalso; vm_compute in Hr; discriminate].
  destruct Hc as (vs & Hne & _ & _ & Hrun & _ & _ & Hm). exists a', vs. by split_and!.
Defined.
