(* ===== verification/SpecSizing.v ===== *)
(** * Sizes of speculative decode steps

    The estimate of [check_decode_mem] against what [eagle_prepare_for_decode]
    allocates, and the width of a request's row against the slots written to it. *)

From S2P Require Import Prelude PyFloat PySort Allocator AllocKernels RadixKey PrefixTree TreeNode ReqPool Events.
From S2P Require Import RadixCache RadixTheorems ReqCache PrefillAdder RadixPools Allocation Retract.
Import Allocator.

Lemma npages_max ps n m : 0 < ps → npages ps (Z.max n m) = Z.max (npages ps n) (npages ps m).
Proof.
  intros Hps. destruct (Z.le_ge_cases n m); [rewrite (Z.max_r n m) by lia|rewrite (Z.max_l n m) by lia].
  - pose proof (npages_mono ps Hps n m). lia.
  - pose proof (npages_mono ps Hps m n). lia.
Qed.

Lemma npages_ceil ps n : 0 < ps → npages ps (ceil_align n ps) = npages ps n.
Proof.
  intros Hps. unfold npages at 1, ceil_align. replace ((n + ps - 1) / ps * ps + ps - 1) with (ps - 1 + (n + ps - 1) / ps * ps) by lia.
  rewrite Z.div_add, Z.div_small by lia. done.
Qed.

Definition next_alloc (reserve ps : Z) (k : ReqKvInfo) : Z :=
  Z.max (kv_allocated_len k) (ceil_align (kv_committed_len k + reserve) ps).

(** Pages of one request: the estimate and the allocation. *)
Lemma spec_pages reserve ps k :
  0 < ps →
  let x := Z.max 0 (kv_committed_len k + reserve - kv_allocated_len k) in
  ceil_align (kv_allocated_len k + x) ps - ceil_align (kv_allocated_len k) ps =
  (npages ps (next_alloc reserve ps k) - npages ps (kv_allocated_len k)) * ps.
Proof.
  intros Hps x. change (ceil_align ?n ps) with (npages ps n * ps). unfold next_alloc.
  rewrite npages_max, npages_ceil by done.
  replace (kv_allocated_len k + x) with (Z.max (kv_allocated_len k) (kv_committed_len k + reserve)) by (unfold x; lia).
  rewrite npages_max by done. change (ceil_align ?n ps) with (npages ps n * ps). lia.
Qed.

(** ** Properties *)

(** The estimate for a speculative decode step is exact.  For requests of any
    committed and allocated length, the tokens [check_decode_mem] asks for are the
    pages that [alloc_extend] will take for the lengths of
    [page_aligned_decode_alloc_lens], no more and no fewer; these lengths never
    shrink a row, cover the committed length plus the reserve, and end at a page
    boundary unless the row keeps its length. *)
Theorem spec_estimate_exact `{RetractSettings} (spec : SpecConfig) (reserve ps : Z) (reqs : list SReq)
    (kvs := (λ r, kv (base r)) <$> reqs) :
  spec_algo_none = false → get_alloc_reserve_per_decode spec = Ok reserve → 0 < ps →
  ∃ cur nxt num pages, page_aligned_decode_alloc_lens kvs reserve ps = (cur, nxt, num) ∧
    get_num_new_pages nxt ps (Some cur) false = Ok pages ∧
    new_tokens_required_next_decode spec reqs ps = Ok (pages * ps) ∧ num = batch_tokens cur nxt ∧
    Forall2 (λ k n, kv_allocated_len k ≤ n ∧ kv_committed_len k + reserve ≤ n ∧
                    (n = kv_allocated_len k ∨ (ps | n))) kvs nxt.
Proof.
  intros Hs Hres Hps. do 4 eexists. split; [done|]. split; [done|].
  unfold new_tokens_required_next_decode, new_tokens_required_next_decode_spec_v2. rewrite Hs, Hres. cbn [mbind res_bind].
  unfold batch_tokens. rewrite <-!list_fmap_compose, !zip_with_fmap_l, !zip_with_fmap_r, !zip_with_diag.
  split; [|split; [done|]].
  - f_equal. unfold kvs. rewrite <-list_fmap_compose. induction reqs as [|r l IH]; [done|].
    cbn [fmap list_fmap] in *. unfold zsum in *. cbn [foldr]. rewrite IH. clear IH.
    rewrite Z.mul_add_distr_r. f_equal. unfold compose. by apply spec_pages.
  - apply Forall2_fmap_r, Forall_Forall2_diag, Forall_forall. intros k _.
    destruct (ceil_align_spec (kv_committed_len k + reserve) ps Hps) as (Hle & _ & Hd). unfold ceil_align in *.
    split_and!; [lia|lia|].
    destruct (Z.le_ge_cases (kv_allocated_len k) ((kv_committed_len k + reserve + ps - 1) / ps * ps)).
    + right. by rewrite Z.max_r.
    + left. by rewrite Z.max_l by lia.
Qed.

(** With pages of more than one slot the rows hold the over-allocation.  If a
    request is within the context length and its row within the table, then so is
    the length a speculative step extends it to: no store of the step leaves the
    request's row. *)
Theorem spec_rows_fit_paged (spec : SpecConfig) (reserve extra context_len : Z) (k : ReqKvInfo)
    (ps := alloc_page_size spec) :
  is_Some (spec_algorithm spec) → 1 < ps → get_alloc_reserve_per_decode spec = Ok reserve →
  get_req_to_token_extra_context_len spec = Ok extra →
  kv_committed_len k ≤ context_len → kv_allocated_len k ≤ context_len + extra →
  ∃ cur nxt num, page_aligned_decode_alloc_lens [k] reserve ps = ([cur], [nxt], num) ∧
    nxt ≤ context_len + extra.
Proof.
  intros [alg Halg] Hps Hres Hext Hc Ha. do 3 eexists. split; [done|].
  unfold get_req_to_token_extra_context_len in Hext. rewrite Halg, Hres in Hext. fold ps in Hext.
  destruct (Z.gtb_spec ps 1); [|lia]. cbn [mbind res_bind] in Hext. injection Hext as <-.
  destruct (ceil_align_spec (kv_committed_len k + reserve) ps) as (_ & Hlt & _); [lia|].
  unfold ceil_align in Hlt. lia.
Qed.

(** ** A table with a request near the context limit *)

Module SpecDemo.
Import (hints) RadixTheorems.Demo.
#[export] Existing Instance token_batch.

(** EAGLE with 5 steps, top-k 4 and 8 draft tokens, on pages of one slot. *)
Definition eagle : SpecConfig := mkSpec (Some true) (Some 5) (Some 4) (Some 8) 1.
Definition paged_eagle : SpecConfig := mkSpec (Some true) (Some 5) (Some 4) (Some 8) 16.
Definition context_len : Z := 40.
Definition width : Z := context_len + 12.

(** Row 1 is a request three tokens before the limit, row 2 another one. *)
Definition near : ReqKvInfo := mkKv (Some 1) 0 37 37 0 0.
Definition other_row : list Z := zrange 1 21 ++ replicate 32 0.
Definition table : ReqToTokenPool :=
  mkPool 2 3 width [replicate 52 0; zrange 21 58 ++ replicate 15 0; other_row] [] [0; 1; 1].
Definition cache : RadixCache :=
  set_kv_allocator RadixTheorems.Demo.fresh (set_free_pages (Token.init 200 false) (zrange 58 200)).
End SpecDemo.
Import (hints) RadixTheorems.Demo SpecDemo.

Lemma spec_rows_fit_paged_witness :
  ∃ nxt num, page_aligned_decode_alloc_lens [SpecDemo.near] 256 16 = ([37], [nxt], num) ∧ nxt ≤ 40 + 271.
Proof.
  destruct (spec_rows_fit_paged SpecDemo.paged_eagle 256 271 40 SpecDemo.near) as (cur & nxt & num & E & Hle).
  - by eexists.
  - reflexivity.
  - reflexivity.
  - reflexivity.
  - vm_compute. discriminate.
  - vm_compute. discriminate.
  - exists nxt, num. injection E as _ <- <-. split; [reflexivity|exact Hle].
Defined.

Lemma spec_estimate_exact_witness :
  ∃ pages, let H := {| spec_algo_none := false; strip_thinking_cache := false; RETRACT_DECODE_STEPS := 20 |} in
    let r := mkSReq 1 (mkReq [] [] [] false None None None None 0 [] None false SpecDemo.near) 1 false 0 0 None 0 0 0 0
               false false false false None in
    new_tokens_required_next_decode SpecDemo.paged_eagle [r] 16 = Ok (pages * 16) ∧ pages = 16.
Proof.
  destruct (@spec_estimate_exact {| spec_algo_none := false; strip_thinking_cache := false; RETRACT_DECODE_STEPS := 20 |}
    SpecDemo.paged_eagle 256 16
    [mkSReq 1 (mkReq [] [] [] false None None None None 0 [] None false SpecDemo.near) 1 false 0 0 None 0 0 0 0
       false false false false None]) as (cur & nxt & num & pages & E & Hp & Hn & _).
  - reflexivity.
  - reflexivity.
  - lia.
  - exists pages. cbv zeta. split; [exact Hn|]. injection E as <- <- <-. vm_compute in Hp. congruence.
Defined.

(** With pages of one slot the rows do not hold the over-allocation.  A request
    three tokens before the context limit, in a table as wide as the server makes it
    for EAGLE with 5 steps, top-k 4 and 8 draft tokens: the decode step succeeds,
    and its row write runs over the end of the request's row into the first columns
    of the next row, which belongs to another request. *)
Theorem spec_row_overflows_unpaged :
  get_alloc_reserve_per_decode SpecDemo.eagle = Ok 40 ∧
  get_req_to_token_extra_context_len SpecDemo.eagle = Ok (SpecDemo.width - SpecDemo.context_len) ∧
  ∃ kvs p c, eagle_prepare_for_decode backwards SpecDemo.eagle [SpecDemo.near] [1] SpecDemo.table SpecDemo.cache = Ok (kvs, p, c) ∧
    get_row SpecDemo.table (Some 2) = Ok (SpecDemo.other_row) ∧
    get_row p (Some 2) = Ok (zrange 73 98 ++ drop 25 SpecDemo.other_row).
Proof.
  split; [reflexivity|]. split; [reflexivity|]. do 3 eexists. split; [vm_compute; reflexivity|].
  split; vm_compute; reflexivity.
Qed.
