(* ===== verification/ExtendAlloc.v ===== *)
(** * Allocating a prefill batch

    [prepare_for_extend] and [alloc_for_extend] on requests whose prefixes lie on
    pages: rows of the table, slots of the pool and the writes of the rows. *)

From S2P Require Import Prelude PyFloat Allocator AllocKernels RadixKey PrefixTree TreeNode ReqPool Events.
From S2P Require Import RadixCache RadixInv RadixWalk RadixLock RadixEvict ReqCache ReqOwnership.
From S2P Require Import PrefillAdder RadixPools Allocation AllocWrites BatchAlloc RunningBatch.
Import Allocator.

(** ** The requests of the batch *)

(** A request with the pages its prefix lies on and the length it grows to. *)
Record xreq := mkX { x_req : Req; x_pages : list Z; x_seq : Z }.

Definition x_prefix (x : xreq) : list Z := prefix_indices (x_req x).
Definition x_row (x : xreq) : ereq := mkEReq (x_pages x) (x_prefix x) (x_seq x).

Record extend_ok (ps : Z) (p : ReqToTokenPool) (x : xreq) : Prop := {
  xo_range : extend_range (x_req x) = Some (zlen (x_prefix x), x_seq x);
  xo_seq : zlen (x_prefix x) ≤ x_seq x ≤ max_context_len p;
  xo_ids : x_seq x ≤ zlen (full_untruncated_fill_ids (x_req x));
  xo_layout : row_layout ps (x_pages x) (x_prefix x);
  xo_pages : zlen (x_pages x) = npages ps (zlen (x_prefix x));
  xo_held : holds_kv (kv (x_req x)) = true → 0 < kv_allocated_len (kv (x_req x));
}.

Lemma x_row_ok ps p x : extend_ok ps p x → ereq_ok ps (x_row x).
Proof. intros [_ [? _] _ ? ? _]. by split_and!. Qed.

Lemma mapM_ok {A B} (f : A → res B) (g : A → B) l :
  Forall (λ x, f x = Ok (g x)) l → mapM f l = Ok (g <$> l).
Proof. induction 1 as [|x l Hx _ IH]; [done|]. cbn. by rewrite Hx, IH. Qed.

Definition extend_lens (xs : list xreq) : list Z := (λ x, x_seq x - zlen (x_prefix x)) <$> xs.

Lemma extend_lens_tokens xs : zsum (extend_lens xs) = batch_tokens (prefix_lens (x_row <$> xs)) (seq_lens (x_row <$> xs)).
Proof.
  unfold batch_tokens, prefix_lens, seq_lens, extend_lens. f_equal. rewrite <-!list_fmap_compose.
  by rewrite zip_with_fmap_l, zip_with_fmap_r, zip_with_diag.
Qed.

Lemma prepare_for_extend_spec ps p xs :
  Forall (extend_ok ps p) xs →
  prepare_for_extend (x_req <$> xs) =
  Ok (mkBatch (x_req <$> xs) (prefix_lens (x_row <$> xs)) (extend_lens xs) (seq_lens (x_row <$> xs)) (zsum (extend_lens xs))).
Proof.
  intros Hok. unfold prepare_for_extend.
  assert (∀ (B : Type) (f : Req → res B) (g : xreq → B), (∀ x, extend_ok ps p x → f (x_req x) = Ok (g x)) →
    mapM f (x_req <$> xs) = Ok (g <$> xs)) as HM.
  { intros B f g Hf. induction Hok as [|x l Hx _ IH]; [done|]. cbn. rewrite (Hf x Hx). cbn. by rewrite IH. }
  rewrite (HM _ (λ r, ids ← get_fill_ids r; Ok (slice_from ids (zlen (prefix_indices r))))
    (λ x, slice_from (slice_to (full_untruncated_fill_ids (x_req x)) (x_seq x)) (zlen (x_prefix x)))).
  2:{ intros x [Hr _ _ _ _ _]. unfold get_fill_ids, extend_end. by rewrite Hr. }
  cbn [mbind res_bind]. rewrite (HM _ extend_end x_seq).
  2:{ intros x [Hr _ _ _ _ _]. unfold extend_end. by rewrite Hr. }
  cbn [mbind res_bind]. rewrite (HM _ extend_length (λ x, x_seq x - zlen (x_prefix x))).
  2:{ intros x [Hr _ _ _ _ _]. unfold extend_length. by rewrite Hr. }
  cbn [mbind res_bind]. do 2 f_equal.
  - unfold prefix_lens. by rewrite <-!list_fmap_compose.
  - unfold seq_lens. by rewrite <-list_fmap_compose.
  - unfold extend_lens. rewrite <-list_fmap_compose. f_equal. apply list_fmap_ext. intros i x Hx. unfold compose.
    pose proof (Forall_lookup_1 _ _ _ _ Hok Hx) as [_ Hs Hi _ _ _]. pose proof (zlen_nonneg (x_prefix x)).
    rewrite zlen_slice_from, zlen_slice_to by lia. lia.
Qed.

(** ** Slots *)

(** With pages of one slot: request after request takes its slots from [out]. *)
Fixpoint token_extend (xs : list xreq) (out : list Z) : list ereq :=
  match xs with
  | [] => []
  | x :: xs =>
      let n := Z.to_nat (x_seq x - zlen (x_prefix x)) in
      mkEReq (x_pages x ++ take n out) (x_prefix x ++ take n out) (x_seq x) :: token_extend xs (drop n out)
  end.

Lemma token_grown p x new :
  extend_ok 1 p x → zlen new = x_seq x - zlen (x_prefix x) →
  grown 1 (x_row x) (mkEReq (x_pages x ++ new) (x_prefix x ++ new) (x_seq x)).
Proof.
  intros [_ Hs _ HR HP _] Hn. unfold npages in HP. rewrite Z.add_simpl_r, Z.div_1_r in HP.
  unfold grown, ereq_ok, npages. cbn [x_row e_pages e_row e_seq]. rewrite !zlen_app, Z.add_simpl_r, Z.div_1_r.
  split_and!; try lia; [|by apply prefix_app_r..].
  intros i y [Hy|[Hge Hy]]%lookup_app_Some.
  - destruct (HR i y Hy) as (q & Hq & ->). exists q. split; [|done]. by apply lookup_app_l_Some.
  - exists y. rewrite Z.div_1_r, Nat2Z.id, Z.mod_1_r. split; [|lia].
    rewrite lookup_app_r by (unfold zlen in *; lia). rewrite <-Hy. f_equal. unfold zlen in *. lia.
Qed.

Lemma token_extend_spec p xs out :
  Forall (extend_ok 1 p) xs → zlen out = zsum (extend_lens xs) →
  Forall2 (grown 1) (x_row <$> xs) (token_extend xs out) ∧ gained (x_row <$> xs) (token_extend xs out) = out ∧
  concat (e_pages <$> token_extend xs out) ≡ₚ concat (e_pages <$> (x_row <$> xs)) ++ out.
Proof.
  intros Hok. revert out. induction Hok as [|x xs Hx Hxs IH]; intros out Hl.
  { cbn in Hl. apply zlen_0 in Hl as ->. done. }
  pose proof (xo_seq _ _ _ Hx) as Hs. unfold extend_lens, zsum in Hl. cbn [fmap list_fmap foldr] in Hl.
  fold (extend_lens xs) (zsum (extend_lens xs)) in Hl.
  assert (0 ≤ zsum (extend_lens xs)) as Hpos.
  { apply zsum_nonneg, Forall_fmap. eapply Forall_impl; [exact Hxs|]. intros y Hy.
    pose proof (xo_seq _ _ _ Hy). unfold compose. lia. }
  cbn [token_extend]. set (n := Z.to_nat _).
  assert (zlen (take n out) = x_seq x - zlen (x_prefix x)) as Ht by (unfold zlen in *; rewrite length_take; lia).
  destruct (IH (drop n out)) as (HF & HG & HP); [unfold zlen in *; rewrite length_drop; lia|].
  cbn [fmap list_fmap]. split; [constructor; [by eapply token_grown|done]|]. split.
  - unfold gained in *. cbn [zip_with concat e_row x_row]. rewrite HG, drop_app_length. apply take_drop.
  - cbn [concat e_pages x_row]. rewrite HP. rewrite <-(take_drop n out) at 3. solve_Permutation.
Qed.

(** ** The state of the batch *)

Definition small_slot (x : Z) : Prop := 0 ≤ x < 2 ^ 31.

Section extend.
Context `{Clock} `{SetOrder} `{HashLaws} `{KVAllocator} `{BatchAllocator} `{!BatchLaws}.

(** The requests' unfinished last pages, the tree and the pool are different pages,
    all slots are 32-bit, and the rows the requests hold are not free. *)
Record extend_inv (c : RadixCache) (A : atree) (p : ReqToTokenPool) (xs : list xreq) (others : list Z) : Prop := {
  xi_inv : Inv c A;
  xi_kv : kv_ok c A;
  xi_enabled : disable c = false;
  xi_reqs : Forall (extend_ok (cpage_size c) p) xs;
  xi_table : table_wf p;
  xi_rows : pool_ok p (rows_of ((λ x, kv (x_req x)) <$> xs) ++ others);
  xi_nodup : NoDup (Paged.page_slots (cpage_size c) (concat (open_pages (cpage_size c) <$> (x_row <$> xs))) ++
               tree_slots A ++ pool_slots c);
  xi_small : Forall small_slot (Paged.page_slots (cpage_size c) (concat (x_pages <$> xs)) ++
               tree_slots A ++ pool_slots c);
}.

(** The memory the admission of the batch reserved. *)
Definition extend_budget (ps : Z) (xs : list xreq) : Z := zsum ((λ x, x_seq x - zlen (x_prefix x) + ps) <$> xs).

Lemma extend_budget_eq ps xs : extend_budget ps xs = zsum (extend_lens xs) + zlen xs * ps.
Proof.
  unfold extend_budget, extend_lens. induction xs as [|x xs IH]; [done|]. cbn [fmap list_fmap].
  unfold zsum in *. cbn [foldr]. rewrite IH, zlen_cons. lia.
Qed.

Lemma extend_room n c A p xs others :
  extend_inv c A p xs others →
  ∃ c1 A1, evict_from_tree_cache n c = Ok c1 ∧ extend_inv c1 A1 p xs others ∧ roomier n c c1 A A1.
Proof.
  intros [X1 X2 X3 X4 X5 X6 X7 X8]. destruct (make_room n c A X1 X2 X3) as (c1 & A1 & Hrun & Hroom).
  exists c1, A1. split; [done|]. split; [|done]. destruct Hroom as [R1 R2 Hset R4 _ _ _ _].
  destruct (settings_fields c c1 Hset) as (Ed & Eps & _).
  constructor; rewrite ?Eps; try done; [by rewrite Ed|by rewrite R4..].
Qed.

Lemma extend_rows_ready c A p xs others :
  extend_inv c A p xs others → 1 < cpage_size c → extend_budget (cpage_size c) xs ≤ kv_available (kv_allocator c) →
  rows_ready (kv_allocator c) (x_row <$> xs).
Proof.
  intros [X1 X2 X3 X4 X5 X6 X7 X8] H1' Hav. pose proof (inv_ps c A X1) as Hps. pose proof (kv_ps c A X2) as Eps.
  unfold rows_ready. rewrite Eps. split; [apply X2|]. split; [done|].
  assert (Forall (ereq_ok (cpage_size c)) (x_row <$> xs)) as Hok.
  { apply Forall_fmap. eapply Forall_impl; [exact X4|]. intros x Hx. by eapply x_row_ok. }
  split; [done|]. split.
  - apply (NoDup_page_slots _ Hps). rewrite page_slots_app. eapply sublist_NoDup; [exact X7|].
    apply sublist_app; [done|]. by apply sublist_inserts_l.
  - rewrite bl_available, Eps, extend_budget_eq, extend_lens_tokens in Hav by apply X2.
    pose proof (batch_pages_estimate (cpage_size c) (prefix_lens (x_row <$> xs)) (seq_lens (x_row <$> xs)) Hps) as He.
    rewrite zlen_prefix_lens, zlen_fmap in He.
    assert (Forall2 (λ p s, 0 ≤ p ≤ s) (prefix_lens (x_row <$> xs)) (seq_lens (x_row <$> xs))) as HF.
    { apply (reqs_batch (cpage_size c) (x_row <$> xs) Hok). }
    specialize (He HF). set (t := batch_tokens _ _) in *. pose proof (Z.div_mod t (cpage_size c)).
    pose proof (Z.mod_pos_bound t (cpage_size c) Hps). nia.
Qed.

(** The pages the rows gained left the pool. *)
Lemma gained_pages ps ers ers' :
  Forall2 (grown ps) ers ers' → ∃ new, concat (e_pages <$> ers') ≡ₚ concat (e_pages <$> ers) ++ new.
Proof.
  induction 1 as [|e e' l l' (_ & _ & _ & _ & [k Hk]) _ (new & IH)]; [by exists []|]. exists (k ++ new).
  cbn [fmap list_fmap concat]. rewrite IH, Hk. solve_Permutation.
Qed.

(** What the slots of the batch leave. *)
Record extended (c c' : RadixCache) (A A' : atree) (xs : list xreq) (ers : list ereq) : Prop := {
  ex_inv : Inv c' A';
  ex_kv : kv_ok c' A';
  ex_settings : settings c' = settings c;
  ex_grown : Forall2 (grown (cpage_size c)) (x_row <$> xs) ers;
  ex_slots : Paged.page_slots (cpage_size c) (concat (e_pages <$> ers)) ++ tree_slots A' ++ pool_slots c' ≡ₚ
    Paged.page_slots (cpage_size c) (concat (x_pages <$> xs)) ++ tree_slots A ++ pool_slots c;
  ex_locked i a : A !! i = Some a → i = root_node c ∨ a_lock a ≠ 0 → A' !! i = Some a;
  ex_subset i a : A' !! i = Some a → A !! i = Some a;
}.

Definition extend_alloc (xs : list xreq) (c : RadixCache) : res (list Z * RadixCache) :=
  if cpage_size c =? 1 then alloc_token_slots (zsum (extend_lens xs)) c
  else alloc_paged_token_slots_extend (prefix_lens (x_row <$> xs)) (seq_lens (x_row <$> xs))
         (row_last <$> (x_prefix <$> xs)) (zsum (extend_lens xs)) c.

Lemma extend_after n c c1 A A1 p xs others ers a' :
  extend_inv c1 A1 p xs others → roomier n c c1 A A1 → alloc_ok a' → page_size a' = cpage_size c →
  Forall2 (grown (cpage_size c)) (x_row <$> xs) ers →
  concat (e_pages <$> ers) ++ pool a' ≡ₚ concat (e_pages <$> (x_row <$> xs)) ++ pool (kv_allocator c1) →
  extended c (set_kv_allocator c1 a') A A1 xs ers.
Proof.
  intros [X1 X2 X3 X4 X5 X6 X7 X8] [_ _ Hset HT Hlock Hsub _ _] Hok Hps HF HP.
  destruct (settings_fields c c1 Hset) as (_ & Eps & _).
  destruct (gained_pages _ _ _ HF) as (new & HN). rewrite HN, <-app_assoc in HP. apply Permutation_app_inv_l in HP.
  assert (Paged.page_slots (cpage_size c) new ++ pool_slots (set_kv_allocator c1 a') ≡ₚ pool_slots c1) as Hpool.
  { unfold pool_slots. cbn [cpage_size kv_allocator set_kv_allocator]. rewrite Eps, <-page_slots_app. by rewrite HP. }
  constructor; try done.
  - by apply Inv_set_alloc.
  - constructor; [done|cbn; by rewrite Eps|by apply X2|].
    pose proof (kv_nodup c1 A1 X2) as Hnd. fold (pool_slots c1) in Hnd. rewrite <-Hpool in Hnd.
    eapply sublist_NoDup; [exact Hnd|]. apply sublist_app; [done|]. by apply sublist_inserts_l.
  - rewrite HN, page_slots_app, <-HT, <-Hpool. rewrite <-list_fmap_compose.
    change (e_pages ∘ x_row) with x_pages. solve_Permutation.
Qed.

Lemma extend_alloc_spec c A p xs others :
  extend_inv c A p xs others → extend_budget (cpage_size c) xs ≤ kv_available (kv_allocator c) + evictable_size_ c →
  ∃ c' A' ers, extend_alloc xs c = Ok (gained (x_row <$> xs) ers, c') ∧ extended c c' A A' xs ers.
Proof.
  intros Hx Hav. pose proof (inv_ps c A (xi_inv _ _ _ _ _ Hx)) as Hps.
  pose proof (extend_budget_eq (cpage_size c) xs) as Hb. pose proof (zlen_nonneg xs).
  unfold extend_alloc, alloc_token_slots, alloc_paged_token_slots_extend.
  rewrite (kv_ps c A (xi_kv _ _ _ _ _ Hx)). cbv zeta.
  destruct (Z.eqb_spec (cpage_size c) 1) as [E1|E1].
  - destruct (extend_room (zsum (extend_lens xs)) c A p xs others Hx) as (c1 & A1 & -> & Hx1 & Hroom). cbn [mbind res_bind].
    pose proof (rm_settings _ _ _ _ _ Hroom) as Hset. destruct (settings_fields c c1 Hset) as (_ & Eps & _).
    pose proof (rm_enough _ _ _ _ _ Hroom) as Hen. pose proof (xi_kv _ _ _ _ _ Hx1) as Hkv1.
    rewrite (bl_available (kv_allocator c1)), (kv_ps c1 A1 Hkv1), Eps, E1 in Hen by apply Hkv1.
    destruct (bl_alloc (kv_allocator c1) (zsum (extend_lens xs))) as (out & a' & -> & Hok' & Hps' & Hl & HP).
    + apply Hkv1.
    + by rewrite (kv_ps c1 A1 Hkv1), Eps.
    + apply (NoDup_page_slots (cpage_size c1)); [lia|]. pose proof (kv_nodup c1 A1 Hkv1) as Hnd.
      by apply NoDup_app in Hnd as (_ & _ & ?).
    + rewrite extend_lens_tokens. split; [|rewrite <-extend_lens_tokens; lia].
      rewrite <-extend_lens_tokens. apply zsum_nonneg, Forall_fmap. eapply Forall_impl; [apply Hx|].
      intros x Hxx. pose proof (xo_seq _ _ _ Hxx). unfold compose. lia.
    + pose proof (xi_reqs _ _ _ _ _ Hx) as Hxs. rewrite E1 in Hxs.
      destruct (token_extend_spec p xs out Hxs Hl) as (HF & HG & HPg).
      eexists _, A1, (token_extend xs out). cbn [or_oom mbind res_bind]. rewrite HG. split; [done|].
      eapply (extend_after _ c c1 A A1 p xs others); try done; try congruence.
      * by rewrite HPg, <-app_assoc, HP.
  - assert (row_last <$> (x_prefix <$> xs) = last_locs (x_row <$> xs)) as ->.
    { unfold last_locs. by rewrite <-!list_fmap_compose. }
    assert (zlen (seq_lens (x_row <$> xs)) = zlen xs) as -> by (unfold seq_lens; by rewrite !zlen_fmap).
    rewrite <-Hb. destruct (extend_room (extend_budget (cpage_size c) xs) c A p xs others Hx) as (c1 & A1 & -> & Hx1 & Hroom).
    cbn [mbind res_bind]. pose proof (rm_settings _ _ _ _ _ Hroom) as Hset.
    destruct (settings_fields c c1 Hset) as (_ & Eps & _). pose proof (rm_enough _ _ _ _ _ Hroom) as Hen.
    destruct (bl_extend (kv_allocator c1) (x_row <$> xs)) as (ers & a' & Hrun & Hok' & Hps' & HF & HP).
    { apply (extend_rows_ready c1 A1 p xs others Hx1); rewrite Eps; lia. }
    rewrite <-extend_lens_tokens in Hrun. rewrite Hrun. cbn [mbind res_bind or_oom].
    rewrite (kv_ps c1 A1 (xi_kv _ _ _ _ _ Hx1)), Eps in Hps', HF.
    eexists _, A1, ers. split; [done|]. by eapply (extend_after _ c c1 A A1 p xs others).
Qed.

(** ** Rows *)

Lemma bound_idx free k k' : bound free k k' → ∃ i, req_pool_idx k' = Some i.
Proof.
  unfold bound. destruct (holds_kv_cases k) as [[-> [i Hi]]|[-> _]].
  - intros ->. by exists i.
  - intros (i & _ & ->). by exists i.
Qed.

(** What taking a row leaves alone. *)
Definition same_marks (k k' : ReqKvInfo) : Prop :=
  cache_protected_len k' = cache_protected_len k ∧ swa_evicted_seqlen k' = swa_evicted_seqlen k.

Lemma bound_marks free k k' : bound free k k' → same_marks k k'.
Proof. unfold bound. destruct (holds_kv k); [by intros ->|]. by intros (i & _ & ->). Qed.

Lemma alloc_req_slots_spec kvs p others :
  pool_ok p (rows_of kvs ++ others) → Forall (λ k, holds_kv k = true → 0 < kv_allocated_len k) kvs →
  zlen (filter (λ k, holds_kv k = false) kvs) ≤ ReqToToken.available_size p →
  ∃ idx kvs' p1, alloc_req_slots kvs p = Ok (idx, kvs', p1) ∧ req_pool_idx <$> kvs' = Some <$> idx ∧
    Forall2 same_marks kvs kvs' ∧ pool_ok p1 (idx ++ others) ∧
    req_to_token p1 = req_to_token p ∧ max_context_len p1 = max_context_len p.
Proof.
  intros Hok Hheld Hfree. unfold alloc_req_slots.
  destruct (req_alloc_spec p kvs others Hok Hheld) as (r & kvs' & p1 & -> & [Ht Hc] & Hr). cbn [mbind res_bind].
  destruct r as [rows|]; [|destruct Hr as (_ & _ & ?); lia]. destruct Hr as (-> & HF & Hok1 & _ & _).
  assert (req_pool_idx <$> kvs' = Some <$> rows_of kvs') as Hidx.
  { clear -HF. induction HF as [|k k' l l' Hk _ IH]; [done|]. destruct (bound_idx _ _ _ Hk) as [i Hi].
    unfold rows_of in *. cbn. rewrite Hi. cbn. by rewrite IH. }
  exists (rows_of kvs'), kvs', p1. rewrite Hidx. split_and!; try done.
  2:{ eapply Forall2_impl; [exact HF|]. apply bound_marks. }
  assert (∀ l : list Z, mapM (λ i : option Z, match i with Some i => Ok i | None => Err TypeError end) (Some <$> l) = Ok l) as ->; [|done].
  { induction l as [|i l IH]; [done|]. cbn. by rewrite IH. }
Qed.

Definition x_writes (idx : list Z) (xs : list xreq) : list WriteReq :=
  zip_with (λ i x, mkWrite i (x_prefix x) (x_seq x) (x_seq x - zlen (x_prefix x))) idx xs.

Lemma x_writes_zip idx xs :
  (λ '(i, t, s, e), mkWrite i t s e) <$>
    zip (zip (zip idx (x_prefix <$> xs)) (seq_lens (x_row <$> xs))) (extend_lens xs) = x_writes idx xs.
Proof.
  revert idx. induction xs as [|x xs IH]; intros [|i idx]; try done.
  unfold x_writes, seq_lens, extend_lens in *. cbn [fmap list_fmap zip_with]. by rewrite IH.
Qed.

Lemma x_writes_extend idx xs : length idx = length xs → batch_extend (x_writes idx xs) = zsum (extend_lens xs).
Proof.
  revert idx. induction xs as [|x xs IH]; intros [|i idx] Hl; try done.
  unfold x_writes. cbn [zip_with]. rewrite batch_extend_cons. fold (x_writes idx xs).
  rewrite IH by (by injection Hl). done.
Qed.

Lemma x_writes_take k idx xs : take k (x_writes idx xs) = x_writes (take k idx) (take k xs).
Proof.
  revert k idx. induction xs as [|x xs IH]; intros [|k] [|i idx]; try done.
  unfold x_writes in *. cbn [zip_with take]. by rewrite IH.
Qed.

Lemma x_writes_idx idx xs : length idx = length xs → w_idx <$> x_writes idx xs = idx.
Proof.
  revert idx. induction xs as [|x xs IH]; intros [|i idx] Hl; try done.
  unfold x_writes in *. cbn [zip_with fmap list_fmap w_idx]. by rewrite IH by (by injection Hl).
Qed.

Lemma zlen_gained ps ers ers' :
  Forall2 (grown ps) ers ers' → zlen (gained ers ers') = zsum ((λ r, e_seq r - zlen (e_row r)) <$> ers).
Proof.
  induction 1 as [|e e' l l' (_ & _ & Hz & [m Hm] & _) _ IH]; [done|]. unfold gained, zsum in *.
  cbn [zip_with concat fmap list_fmap foldr]. rewrite zlen_app, IH, Hm, drop_app_length.
  rewrite Hm, zlen_app in Hz. lia.
Qed.

(** The piece of the new slots that belongs to a request. *)
Lemma gained_slice ps (ers ers' : list ereq) k e e' :
  Forall2 (grown ps) ers ers' → Forall (ereq_ok ps) ers → ers !! k = Some e → ers' !! k = Some e' →
  let a := zsum ((λ r, e_seq r - zlen (e_row r)) <$> take k ers) in
  slice (gained ers ers') a (a + (e_seq e - zlen (e_row e))) = drop (length (e_row e)) (e_row e').
Proof.
  intros HF. revert k. induction HF as [|x x' l l' Hx HF IH]; intros k Hok Hk Hk'; [done|].
  apply Forall_cons in Hok as [(_ & _ & Hle) Hok]. destruct Hx as (_ & _ & Hlen & [m Hm] & _).
  unfold gained. cbn [zip_with concat]. fold (gained l l'). pose proof (zlen_nonneg (e_row x)).
  assert (zlen m = e_seq x - zlen (e_row x)) as Hz by (rewrite Hm, zlen_app in Hlen; lia).
  destruct k as [|k]; cbn [take fmap list_fmap].
  - injection Hk as ->. injection Hk' as ->. cbn [zsum foldr]. rewrite Hm, drop_app_length.
    rewrite slice_take_drop by lia. rewrite drop_0, take_app_length'; [done|]. unfold zlen in *. lia.
  - assert (0 ≤ zsum ((λ r, e_seq r - zlen (e_row r)) <$> take k l)) as Hpos.
    { apply zsum_nonneg, Forall_fmap, Forall_take. eapply Forall_impl; [exact Hok|].
      intros r (_ & _ & ?). unfold compose. lia. }
    assert (0 ≤ e_seq e - zlen (e_row e)) as Hpe.
    { destruct (Forall_lookup_1 _ _ _ _ Hok Hk) as (_ & _ & ?). lia. }
    specialize (IH k Hok Hk Hk'). cbv zeta in IH. rewrite slice_take_drop in IH |- * by (unfold zsum in *; cbn [foldr]; lia).
    unfold zsum in *. cbn [foldr]. set (s := foldr Z.add 0 _) in *. rewrite <-IH. rewrite Hm, drop_app_length.
    rewrite drop_app_ge by (unfold zlen in *; lia). f_equal; [|f_equal]; unfold zlen in *; lia.
Qed.

Lemma row_on_pages ps P row : 0 < ps → row_layout ps P row → row ⊆ Paged.page_slots ps P.
Proof.
  intros Hps HR x Hx. apply list_elem_of_lookup in Hx as [i Hi]. destruct (HR i x Hi) as (q & Hq & ->).
  unfold Paged.page_slots. apply list_elem_of_bind. exists q. split; [|by eapply list_elem_of_lookup_2].
  apply list_elem_of_fmap. exists (Z.of_nat i mod ps). split; [done|]. apply elem_of_zrange. by apply Z.mod_pos_bound.
Qed.

Lemma grown_rows_small c c' A A' p xs others ers k e :
  extend_inv c A p xs others → extended c c' A A' xs ers → ers !! k = Some e → to_int32 <$> e_row e = e_row e.
Proof.
  intros Hx Hex Hk. pose proof (inv_ps c A (xi_inv _ _ _ _ _ Hx)) as Hps. apply to_int32_id.
  pose proof (xi_small _ _ _ _ _ Hx) as Hsm. rewrite <-(ex_slots _ _ _ _ _ _ Hex) in Hsm. apply Forall_app in Hsm as [Hsm _].
  apply Forall_forall. intros y Hy. eapply Forall_forall in Hsm; [exact Hsm|].
  rewrite page_slots_concat. apply elem_of_concat_fmap. exists (e_pages e).
  split; [apply list_elem_of_fmap; exists e; split; [done|by eapply list_elem_of_lookup_2]|].
  apply row_on_pages with (row := e_row e); [done| |done].
  destruct (Forall2_lookup_r _ _ _ k e (ex_grown _ _ _ _ _ _ Hex) Hk) as (x & _ & (HR & _) & _). done.
Qed.

(** ** [alloc_for_extend] *)

(** The table after the writes: the row of request [k] is the row the allocator
    extended, and the rows of everybody else are unchanged. *)
Definition rows_written (idx : list Z) (ers : list ereq) (p p' : ReqToTokenPool) : Prop :=
  (∀ k i e, idx !! k = Some i → ers !! k = Some e → ∃ rest, req_to_token p' !! Z.to_nat i = Some (e_row e ++ rest)) ∧
  (∀ k, Z.of_nat k ∉ idx → req_to_token p' !! k = req_to_token p !! k) ∧ same_shape_table p p'.

Context (d : Device) `{!DeviceLaws d}.

Lemma writes_spec c c' A A' p0 p xs others ers idx use_triton :
  extend_inv c A p0 xs others → req_to_token p = req_to_token p0 → max_context_len p = max_context_len p0 →
  extended c c' A A' xs ers → length idx = length xs →
  NoDup idx → Forall (λ i, 0 ≤ i < zlen (req_to_token p)) idx →
  ∃ p', write_cache_indices d use_triton (gained (x_row <$> xs) ers) (x_writes idx xs) p = Ok p' ∧
    rows_written idx ers p p' ∧ (∃ t, p' = set_req_to_token p t ∧ zlen t = zlen (req_to_token p)).
Proof.
  intros Hx Et Ec Hex Hl Hnd Hidx. pose proof (xi_reqs _ _ _ _ _ Hx) as Hxs.
  assert (table_wf p) as Hwf by (unfold table_wf; rewrite Et, Ec; apply Hx). pose proof (ex_grown _ _ _ _ _ _ Hex) as HF.
  assert (Forall (ereq_ok (cpage_size c)) (x_row <$> xs)) as Hok.
  { apply Forall_fmap. eapply Forall_impl; [exact Hxs|]. intros x Hxx. by eapply x_row_ok. }
  assert (Forall (write_ok p) (x_writes idx xs)) as Hwok.
  { apply Forall_forall. intros w Hw. apply list_elem_of_lookup in Hw as [k Hk]. unfold x_writes in Hk.
    rewrite lookup_zip_with_Some in Hk. destruct Hk as (i & x & -> & Hi & Hxk).
    pose proof (Forall_lookup_1 _ _ _ _ Hxs Hxk) as [_ ? _ _ _ _].
    constructor; [exact (Forall_lookup_1 _ _ _ _ Hidx Hi)|by rewrite Ec|done]. }
  assert (zlen (gained (x_row <$> xs) ers) = zsum (extend_lens xs)) as Hlen.
  { rewrite (zlen_gained _ _ _ HF). unfold extend_lens. by rewrite <-list_fmap_compose. }
  rewrite write_cache_indices_spec; [|done|done|done|by rewrite x_writes_idx|by rewrite x_writes_extend, Hlen].
  assert (Forall (λ w, 0 ≤ w_idx w) (x_writes idx xs)) as Hpos.
  { eapply Forall_impl; [exact Hwok|]. intros w [? _ _]. lia. }
  pose proof (written_rows_lengths (gained (x_row <$> xs) ers) 0 (x_writes idx xs) p
    Hwf Hwok ltac:(lia) ltac:(rewrite x_writes_extend, Hlen; [lia|done])) as E.
  eexists. split; [done|]. split; [split; [|split; [|done]]|].
  - intros k i e Hi He. destruct (Forall2_lookup_r _ _ _ k e HF He) as (xe & Hxe & Hg).
    rewrite list_lookup_fmap in Hxe. destruct (xs !! k) as [x|] eqn:Hxk; [|done]. injection Hxe as <-.
    assert (x_writes idx xs !! k = Some (mkWrite i (x_prefix x) (x_seq x) (x_seq x - zlen (x_prefix x)))) as Hw.
    { unfold x_writes. rewrite lookup_zip_with_Some. by exists i, x. }
    destruct (lookup_lt_is_Some_2 (req_to_token p) (Z.to_nat i)) as [row Hrow].
    { pose proof (Forall_lookup_1 _ _ _ _ Hidx Hi). cbn beta in *. unfold zlen in *. lia. }
    exists (drop (Z.to_nat (x_seq x)) row). cbn [set_req_to_token req_to_token].
    pose proof (written_rows_own (gained (x_row <$> xs) ers) 0 (x_writes idx xs) (req_to_token p) k _ row
      ltac:(by rewrite x_writes_idx) Hpos Hw Hrow) as Hown. cbv zeta in Hown. cbn [w_idx w_extend] in Hown.
    rewrite Hown, Z.add_0_l. f_equal. unfold final_row. cbn [w_prefix w_seq w_extend]. f_equal.
    assert (batch_extend (take k (x_writes idx xs)) = zsum ((λ r, e_seq r - zlen (e_row r)) <$> take k (x_row <$> xs))) as ->.
    { rewrite x_writes_take, <-fmap_take.
      rewrite x_writes_extend by (rewrite !length_take; lia). unfold extend_lens. by rewrite <-list_fmap_compose. }
    pose proof (gained_slice (cpage_size c) (x_row <$> xs) ers k (x_row x) e HF Hok) as Hs. cbn [x_row e_seq e_row] in Hs.
    rewrite Hs by (rewrite ?list_lookup_fmap, ?Hxk; done).
    destruct Hg as (_ & _ & _ & [m Hm] & _). cbn [x_row e_row] in Hm. rewrite Hm, drop_app_length, <-Hm.
    by apply (grown_rows_small c c' A A' p0 xs others ers k).
  - intros k Hk. apply written_rows_other; [by rewrite x_writes_idx|done].
  - eexists. split; [done|]. apply (f_equal length) in E. rewrite !length_fmap in E. unfold zlen. by rewrite E.
Qed.

(** The requests after the allocation: each has a row and holds [x_seq] positions. *)
Definition bound_reqs (idx : list Z) (xs : list xreq) (reqs' : list Req) : Prop :=
  length reqs' = length xs ∧
  ∀ k i x r, idx !! k = Some i → xs !! k = Some x → reqs' !! k = Some r →
    req_pool_idx (kv r) = Some i ∧ kv_allocated_len (kv r) = x_seq x ∧ kv_committed_len (kv r) = x_seq x ∧
    r = set_kv (x_req x) (kv r) ∧ same_marks (kv (x_req x)) (kv r).

Lemma bound_reqs_spec idx xs kvs' :
  req_pool_idx <$> kvs' = Some <$> idx → Forall2 same_marks ((λ x, kv (x_req x)) <$> xs) kvs' →
  bound_reqs idx xs (zip_with set_kv (x_req <$> xs)
    (zip_with (λ k s, set_kv_lens k s s) kvs' (seq_lens (x_row <$> xs)))).
Proof.
  intros Hidx HF. pose proof (Forall2_length _ _ _ HF) as Hl. rewrite length_fmap in Hl. split.
  - rewrite !length_zip_with, length_fmap. unfold seq_lens. rewrite !length_fmap. lia.
  - intros k i x r Hi Hx Hr. rewrite lookup_zip_with_Some in Hr. destruct Hr as (r0 & k0 & -> & Hr0 & Hk0).
    rewrite list_lookup_fmap, Hx in Hr0. injection Hr0 as <-. rewrite lookup_zip_with_Some in Hk0.
    destruct Hk0 as (k1 & s & -> & Hk1 & Hs). unfold seq_lens in Hs. rewrite !list_lookup_fmap, Hx in Hs. injection Hs as <-.
    apply (f_equal (.!! k)) in Hidx. rewrite !list_lookup_fmap, Hk1, Hi in Hidx. injection Hidx as Hidx.
    destruct (Forall2_lookup_lr _ _ _ k (kv (x_req x)) k1 HF) as [? ?]; [by rewrite list_lookup_fmap, Hx|done|]. done.
Qed.

Lemma alloc_for_extend_spec use_triton c A p xs others :
  extend_inv c A p xs others → extend_budget (cpage_size c) xs ≤ kv_available (kv_allocator c) + evictable_size_ c →
  zlen (filter (λ x, holds_kv (kv (x_req x)) = false) xs) ≤ ReqToToken.available_size p →
  ∃ b reqs' p' c' A' ers idx, prepare_for_extend (x_req <$> xs) = Ok b ∧
    alloc_for_extend d use_triton b p c = Ok (gained (x_row <$> xs) ers, reqs', p', c') ∧
    extended c c' A A' xs ers ∧ bound_reqs idx xs reqs' ∧ length idx = length xs ∧
    pool_ok p' (idx ++ others) ∧ rows_written idx ers p p'.
Proof.
  intros Hx Hav Hfree. pose proof (xi_reqs _ _ _ _ _ Hx) as Hxs.
  destruct (alloc_req_slots_spec ((λ x, kv (x_req x)) <$> xs) p others)
    as (idx & kvs' & p1 & Hslots & Hidx & HM & Hp1 & Et & Ec).
  { apply Hx. }
  { apply Forall_fmap. eapply Forall_impl; [exact Hxs|]. intros x Hxx. exact (xo_held _ _ _ Hxx). }
  { etrans; [|exact Hfree]. apply Z.eq_le_incl. clear. induction xs as [|x xs IH]; [done|].
    rewrite fmap_cons, !filter_cons. repeat case_decide; rewrite ?zlen_cons; (lia || done). }
  pose proof (Forall2_length _ _ _ HM) as Hl. rewrite length_fmap in Hl.
  destruct (extend_alloc_spec c A p xs others Hx Hav) as (c' & A' & ers & Hal & Hex). unfold extend_alloc in Hal.
  assert (length idx = length xs) as Hli by (apply (f_equal length) in Hidx; rewrite !length_fmap in Hidx; lia).
  assert (NoDup (idx ++ others)) as Hnd.
  { pose proof (pool_ok_nodup _ _ Hp1) as Hn. by apply NoDup_app in Hn as (_ & _ & ?). }
  assert (Forall (λ i, 0 ≤ i < zlen (req_to_token p1)) idx) as Hrange.
  { apply Forall_forall. intros i Hi. rewrite (po_table _ _ Hp1).
    assert (i ∈ zrange 1 (alloc_size p1)) as Hin%elem_of_zrange; [|lia].
    rewrite <-(po_rows _ _ Hp1), !elem_of_app. right. by left. }
  destruct (writes_spec c c' A A' p p1 xs others ers idx use_triton Hx Et Ec Hex Hli) as (p' & Hwr & Hw & (t & -> & Ht));
    [by apply NoDup_app in Hnd as (? & _ & _)|done|].
  eexists. do 2 eexists. exists c', A', ers, idx. split; [by eapply prepare_for_extend_spec|].
  unfold alloc_for_extend. cbn [b_reqs b_prefix_lens b_seq_lens b_extend_lens b_extend_num_tokens].
  assert (kv <$> (x_req <$> xs) = (λ x, kv (x_req x)) <$> xs) as -> by (by rewrite <-list_fmap_compose).
  assert (prefix_indices <$> (x_req <$> xs) = x_prefix <$> xs) as -> by (by rewrite <-list_fmap_compose).
  rewrite Hslots. cbn [mbind res_bind]. rewrite Hal. cbn [mbind res_bind]. rewrite x_writes_zip, Hwr. cbn [mbind res_bind].
  split; [done|]. split; [done|]. split; [by apply bound_reqs_spec|]. split; [done|]. split.
  - destruct Hp1 as [? ? ? ?]. constructor; try done. cbn. by rewrite Ht.
  - destruct Hw as (Hw1 & Hw2 & Hw3 & Hw4). split; [exact Hw1|]. split; [intros k Hk; rewrite Hw2 by done; by rewrite Et|].
    split; congruence.
Qed.
End extend.
