(* ===== verification/ExtendTheorems.v ===== *)
(** * From admission to memory

    The admission of a prefill batch ([PrefillAdder]) and its allocation
    ([alloc_for_extend]) composed over the radix cache: what admission books is
    what the allocation asks for. *)

From S2P Require Import Prelude PyFloat PrefillDelayer Allocator AllocKernels RadixKey PrefixTree TreeNode ReqPool Events.
From S2P Require Import RadixCache RadixInv RadixWalk RadixLock RadixEvict RadixTheorems ReqCache ReqOwnership.
From S2P Require Import PrefillAdder PrefillAdmit RadixPools PrefillTheorems.
From S2P Require Import Allocation AllocWrites BatchAlloc RunningBatch ExtendAlloc.
Import Allocator.

(** ** Slots of rows that start on a page boundary *)

Lemma zlen_page_slots ps P : 0 < ps → zlen (Paged.page_slots ps P) = zlen P * ps.
Proof. intros. unfold zlen. rewrite length_page_slots by done. lia. Qed.

Lemma npages_aligned ps n : 0 < ps → npages ps (n * ps) = n.
Proof.
  intros. unfold npages. replace (n * ps + ps - 1) with (ps - 1 + n * ps) by lia.
  rewrite Z.div_add, Z.div_small by lia. lia.
Qed.

(** A request whose prefix is made of whole pages. *)
Definition aligned_x (ps : Z) (x : xreq) : Prop := x_prefix x = Paged.page_slots ps (x_pages x).

Section aligned.
Context (ps : Z) (Hps : 0 < ps).

Lemma aligned_pages x : aligned_x ps x → zlen (x_prefix x) / ps = zlen (x_pages x).
Proof. intros ->. rewrite zlen_page_slots, Z.div_mul by lia. done. Qed.

Lemma aligned_open xs : Forall (aligned_x ps) xs → concat (open_pages ps <$> (x_row <$> xs)) = [].
Proof.
  induction 1 as [|x xs Hx _ IH]; [done|]. cbn [fmap list_fmap concat]. unfold open_pages at 1.
  cbn [x_row e_row e_pages]. rewrite aligned_pages by done. unfold zlen. by rewrite Nat2Z.id, drop_all.
Qed.

Lemma aligned_fresh xs ers :
  Forall (aligned_x ps) xs → Forall2 (grown ps) (x_row <$> xs) ers →
  concat (e_pages <$> ers) ≡ₚ concat (x_pages <$> xs) ++ concat (zip_with (fresh_pages ps) (x_row <$> xs) ers).
Proof.
  intros Hxs. revert ers. induction Hxs as [|x xs Hx _ IH]; intros ers HF.
  { apply Forall2_nil_inv_l in HF as ->. done. }
  apply Forall2_cons_inv_l in HF as (e & es & (_ & _ & _ & _ & [k Hk]) & HF & ->).
  cbn [fmap list_fmap zip_with concat]. rewrite (IH es HF). unfold fresh_pages at 2. cbn [x_row e_pages e_row] in *.
  rewrite aligned_pages, Hk by done. unfold zlen. rewrite Nat2Z.id, drop_app_length. solve_Permutation.
Qed.

End aligned.

(** ** The waiting queue *)

Section compose.
Context `{Settings} `{RetractSettings} `{Clock} `{SetOrder} `{HashLaws} `{KVAllocator} `{KVFree}.
Context `{BatchAllocator} `{!BatchLaws}.

(** A request of the waiting queue after the prefix match: it holds no row, and its
    prefix is made of pages of the tree. *)
Record queued (c : RadixCache) (A : atree) (p : ReqToTokenPool) (r : SReq) : Prop := {
  q_host : needs_host_load_back r = false;
  q_new : 0 ≤ max_new_tokens r;
  q_node : live (last_node (base r)) (c, p);
  q_prefix : ∃ pages, prefix_indices (base r) = Paged.page_slots (cpage_size c) pages;
  q_tree : prefix_indices (base r) ⊆ tree_slots A;
  q_len : prefix_len r ≤ fill_len r ≤ max_context_len p;
  q_kv : holds_kv (kv (base r)) = false;
}.

Lemma queued_fine c A p r W (Hst : lock_stable W) :
  queued c A p r → @req_fine _ _ (radix_laws_with W Hst) (c, p) r.
Proof. intros [? ? ? _ _ _ _]. by constructor; rewrite ?andb_false_r. Qed.

(** Locks move no slot and no setting. *)
Definition same_slots (c0 : RadixCache) (p0 : ReqToTokenPool) (A0 : atree) : RadixCache → ReqToTokenPool → atree → Prop :=
  λ c p A, config c = config c0 ∧ p = p0 ∧ kv_ok c A ∧ tree_slots A ≡ₚ tree_slots A0.

Lemma same_slots_stable c0 p0 A0 : lock_stable (same_slots c0 p0 A0).
Proof.
  intros c c' p A A' (Hcfg & -> & Hkv & Hs) Hcfg' HA. split; [congruence|]. split; [done|].
  destruct HA as [->|(i & e & Hre)].
  - split; [|done]. destruct (config_fields c c' Hcfg') as (_ & Eps & _ & _ & _ & Ea). destruct Hkv as [? ? ? ?].
    constructor; by rewrite ?Eps, ?Ea.
  - destruct (relocked_kv c c' A A' i e Hre Hcfg' Hkv) as [? _]. split; [done|].
    by rewrite (relocked_tree_slots _ _ _ _ _ Hre).
Qed.

(** What an admitted request needs of the memory: a prefix made of pages among
    [slots], a row it fits in, and none it holds already. *)
Record fitted (ps : Z) (slots : list Z) (p : ReqToTokenPool) (r : SReq) : Prop := {
  ft_prefix : ∃ pages, prefix_indices (base r) = Paged.page_slots ps pages;
  ft_tree : prefix_indices (base r) ⊆ slots;
  ft_len : prefix_len r ≤ fill_len r ≤ max_context_len p;
  ft_kv : holds_kv (kv (base r)) = false;
}.

Lemma queued_fitted c A p r slots : queued c A p r → tree_slots A ≡ₚ slots → fitted (cpage_size c) slots p r.
Proof. intros [_ _ _ ? Ht ? ?] Hs. constructor; try done. intros y Hy. rewrite <-Hs. by apply Ht. Qed.

(** An admitted request as one of the batch. *)
Lemma granted_x ps slots p r r' :
  0 < ps → fitted ps slots p r → granted r r' →
  ∃ x, x_req x = base r' ∧ aligned_x ps x ∧ extend_ok ps p x ∧
    Paged.page_slots ps (x_pages x) ⊆ slots ∧ holds_kv (kv (x_req x)) = false ∧
    extend_len r' = x_seq x - zlen (x_prefix x).
Proof.
  intros Hps [(pages & Hpre) Htree Hlen Hkv] (e & Hb & He). unfold prefix_len, fill_len in *.
  assert (prefix_indices (base r') = prefix_indices (base r)) as Ep by (by rewrite Hb).
  exists (mkX (base r') pages e). unfold aligned_x, x_prefix. cbn [x_req x_pages x_seq].
  rewrite Ep. split; [done|]. split; [done|]. split; [|split_and!].
  - constructor; unfold x_prefix; cbn [x_req x_pages x_seq]; rewrite ?Ep, ?Hb; try done.
    + lia.
    + cbn. lia.
    + rewrite Hpre. by apply row_layout_page_slots.
    + by rewrite Hpre, zlen_page_slots, npages_aligned by done.
    + cbn. by rewrite Hkv.
  - by rewrite <-Hpre.
  - by rewrite Hb.
  - unfold extend_len. by rewrite Hb.
Qed.

Lemma granted_batch ps slots p picked new :
  0 < ps → Forall (fitted ps slots p) picked → Forall2 granted picked new →
  ∃ xs, x_req <$> xs = base <$> new ∧ Forall (aligned_x ps) xs ∧ Forall (extend_ok ps p) xs ∧
    Paged.page_slots ps (concat (x_pages <$> xs)) ⊆ slots ∧
    Forall (λ x, holds_kv (kv (x_req x)) = false) xs ∧
    extend_budget ps xs = zsum ((λ r, extend_len r + ps) <$> new).
Proof.
  intros Hps HQ HF. revert HQ. induction HF as [|r r' l l' Hg _ IH]; intros HQ.
  { exists []. split_and!; try done. apply list_subseteq_nil. }
  apply Forall_cons in HQ as [Hq HQ]. destruct (IH HQ) as (xs & H1' & H2' & H3' & H4' & H5' & H6').
  destruct (granted_x ps slots p r r' Hps Hq Hg) as (x & X1 & X2 & X3 & X4 & X5 & X6).
  exists (x :: xs). cbn [fmap list_fmap concat]. rewrite X1, H1', page_slots_app.
  split; [done|]. do 2 (split; [by constructor|]). split; [by apply list_subseteq_app_iff_l|]. split; [by constructor|].
  unfold extend_budget, zsum in *. cbn [fmap list_fmap foldr]. by rewrite H6', X6.
Qed.

Lemma no_rows xs : Forall (λ x, holds_kv (kv (x_req x)) = false) xs → rows_of ((λ x, kv (x_req x)) <$> xs) = [].
Proof.
  induction 1 as [|x xs Hx _ IH]; [done|]. unfold rows_of in *. cbn [fmap list_fmap].
  destruct (holds_kv_cases (kv (x_req x))) as [[? _]|[_ Hn]]; [congruence|]. cbn. by rewrite Hn.
Qed.

Lemma admitted_extend_inv c0 A0 c A p xs others :
  Inv c A → disable c = false → same_slots c0 p A0 c p A → table_wf p → pool_ok p others →
  Forall small_slot (tree_slots A0 ++ pool_slots c0) →
  Forall (aligned_x (cpage_size c0)) xs → Forall (extend_ok (cpage_size c0) p) xs →
  Paged.page_slots (cpage_size c0) (concat (x_pages <$> xs)) ⊆ tree_slots A0 →
  Forall (λ x, holds_kv (kv (x_req x)) = false) xs →
  extend_inv c A p xs others ∧ cpage_size c = cpage_size c0.
Proof.
  intros Hinv Hd (Hcfg & _ & Hkv & Hs) Hwf Hpool Hsm Hal Hok Htree Hnew.
  destruct (config_fields c0 c Hcfg) as (_ & Eps & _ & _ & _ & Ea). split; [|done].
  pose proof (inv_ps c A Hinv) as Hps. constructor; rewrite ?Eps in *; try done.
  - by rewrite no_rows.
  - rewrite aligned_open by done. exact (kv_nodup c A Hkv).
  - assert (pool_slots c = pool_slots c0) as Ep by (unfold pool_slots; by rewrite Eps, Ea). rewrite Ep, Hs.
    apply Forall_app. split; [|done]. apply Forall_forall. intros y Hy.
    eapply Forall_forall in Hsm; [exact Hsm|]. apply elem_of_app. left. by apply Htree.
Qed.

(** The new pages of the batch come from the tree and the pool. *)
Lemma extended_fresh c c' A A' xs ers :
  0 < cpage_size c → Forall (aligned_x (cpage_size c)) xs → extended c c' A A' xs ers →
  Paged.page_slots (cpage_size c) (concat (zip_with (fresh_pages (cpage_size c)) (x_row <$> xs) ers)) ++
    tree_slots A' ++ pool_slots c' ≡ₚ tree_slots A ++ pool_slots c.
Proof.
  intros Hps Hal Hex. pose proof (ex_slots _ _ _ _ _ _ Hex) as HP.
  rewrite (aligned_fresh _ Hps xs ers Hal (ex_grown _ _ _ _ _ _ Hex)), page_slots_app, <-app_assoc in HP.
  by apply Permutation_app_inv_l in HP.
Qed.

(** What admission grants is what the allocation gets. *)
Lemma granted_extend (d : Device) `{!DeviceLaws d} use_triton c0 A0 c A p others picked new :
  Inv c A → disable c = false → same_slots c0 p A0 c p A → table_wf p → pool_ok p others →
  Forall small_slot (tree_slots A0 ++ pool_slots c0) →
  Forall (fitted (cpage_size c0) (tree_slots A0) p) picked → Forall2 granted picked new →
  zsum ((λ r, extend_len r + cpage_size c0) <$> new) ≤ kv_available (kv_allocator c) + evictable_size_ c →
  zlen new ≤ ReqToToken.available_size p →
  ∃ b reqs' p' c' A' xs ers idx, prepare_for_extend (base <$> new) = Ok b ∧
    alloc_for_extend d use_triton b p c = Ok (gained (x_row <$> xs) ers, reqs', p', c') ∧
    x_req <$> xs = base <$> new ∧ Forall (aligned_x (cpage_size c)) xs ∧ Forall (extend_ok (cpage_size c) p) xs ∧
    extended c c' A A' xs ers ∧ bound_reqs idx xs reqs' ∧ length idx = length xs ∧
    pool_ok p' (idx ++ others) ∧ rows_written idx ers p p'.
Proof.
  intros Hinv Hd HW Hwf Hpool Hsm HQ HF Hmem Hrows.
  assert (cpage_size c = cpage_size c0) as Eps by apply (config_fields c0 c (proj1 HW)).
  pose proof (inv_ps c A Hinv) as Hps. rewrite Eps in Hps |- *.
  destruct (granted_batch (cpage_size c0) (tree_slots A0) p picked new Hps HQ HF) as (ys & Y1 & Y2 & Y3 & Y4 & Y5 & Y6).
  destruct (admitted_extend_inv c0 A0 c A p ys others) as [Hx _]; try done.
  destruct (alloc_for_extend_spec d use_triton c A p ys others Hx)
    as (b & reqs' & p' & c' & A' & ers & idx & Hb & Hrun & Hrest).
  { by rewrite Eps, Y6. }
  { etrans; [|exact Hrows]. rewrite <-(zlen_fmap base new), <-Y1, zlen_fmap. unfold zlen.
    pose proof (length_filter (λ x, holds_kv (kv (x_req x)) = false) ys). lia. }
  exists b, reqs', p', c', A', ys, ers, idx. rewrite <-Y1. by split_and!; try apply Hrest.
Qed.
End compose.

Module ExtendDemo.
Import (hints) Demo AdmitDemo.
#[export] Existing Instances quiet_token token_batch.
#[export] Instance laws0 : BatchLaws := token_laws.

Lemma warm_kv : ∃ A, Inv Demo.warm A ∧ kv_ok Demo.warm A ∧ tree_slots A ≡ₚ [4; 5; 1; 2; 3].
Proof.
  destruct Demo.warm_tree as (A & HA & HS). exists A. split; [done|]. split; [|done]. constructor.
  - split; [|reflexivity]. repeat split.
  - reflexivity.
  - change (cpage_size Demo.warm) with 1. apply Demo.paged_1.
  - rewrite HS. by_evaluation.
Qed.

End ExtendDemo.
Import (hints) Demo AdmitDemo ExtendDemo.
