(* ===== verification/SwaAlloc.v ===== *)
(** * The allocator of hybrid sliding-window pools

    [SWATokenToKVPoolAllocator] and [PureSWATokenToKVPoolAllocator] of
    [mem_cache/allocator/swa.py].  A hybrid model keeps the KV cache of its
    full-attention layers and of its sliding-window layers in two pools.  A request
    is given full slots; a table maps each of them to the sliding-window slot of the
    same token, or to 0 once that token has left the window.  Definitions only; the
    properties are in [SwaInv] and [SwaTheorems]. *)

From S2P Require Import Prelude Allocator AllocKernels.

(** ** Indexing tensors with tensors *)

(** [t[idx]] *)
Definition tensor_get (t idx : list Z) : res (list Z) := mapM (py_get t) idx.

(** [t[i] = v] *)
Definition tensor_set_one (iv : Z * Z) (t : list Z) : res (list Z) :=
  let '(i, v) := iv in
  let j := if i <? 0 then i + zlen t else i in
  if (0 <=? j) && (j <? zlen t) then Ok (<[Z.to_nat j := v]> t) else Err IndexError.

(** [t[idx] = vals], for distinct indices in any order. *)
Definition tensor_set (t idx vals : list Z) : res (list Z) := for_each tensor_set_one (zip idx vals) t.

(** ** The two pools *)

Record SWA := mkSWA {
  size_full_ : Z;
  size_swa_ : Z;
  swa_page_size : Z;
  full_attn_allocator : Alloc;
  swa_attn_allocator : Alloc;
  full_to_swa_index_mapping : list Z;
  swa_group : option (list (list Z));
  swa_free_group : list (list Z);
  full_free_group : list (list Z);
}.

Definition set_full (a : SWA) x :=
  mkSWA (size_full_ a) (size_swa_ a) (swa_page_size a) x (swa_attn_allocator a) (full_to_swa_index_mapping a)
    (swa_group a) (swa_free_group a) (full_free_group a).
Definition set_swa (a : SWA) x :=
  mkSWA (size_full_ a) (size_swa_ a) (swa_page_size a) (full_attn_allocator a) x (full_to_swa_index_mapping a)
    (swa_group a) (swa_free_group a) (full_free_group a).
Definition set_mapping (a : SWA) x :=
  mkSWA (size_full_ a) (size_swa_ a) (swa_page_size a) (full_attn_allocator a) (swa_attn_allocator a) x
    (swa_group a) (swa_free_group a) (full_free_group a).
Definition set_groups (a : SWA) x y z :=
  mkSWA (size_full_ a) (size_swa_ a) (swa_page_size a) (full_attn_allocator a) (swa_attn_allocator a)
    (full_to_swa_index_mapping a) x y z.

(** The pools are token allocators for pages of one slot, paged ones otherwise. *)
Definition sub_init (size page_size : Z) (need_sort debug : bool) : Alloc :=
  if page_size =? 1 then Token.init size need_sort else Paged.init size page_size need_sort debug.
Definition sub_clear (ps : Z) (a : Alloc) : Alloc := if ps =? 1 then Token.clear a else Paged.clear a.
Definition sub_available (ps : Z) (a : Alloc) : Z :=
  if ps =? 1 then Token.available_size a else Base.available_size a.
Definition sub_free (ps : Z) (idx : list Z) (a : Alloc) : res Alloc :=
  if ps =? 1 then Token.free idx a else Paged.free idx a.

Module Swa.
(** [self.full_to_swa_index_mapping[:-1].fill_(0)]; the last item stays -1. *)
Definition clear (a : SWA) : SWA :=
  let ps := swa_page_size a in
  let a := set_swa a (sub_clear ps (swa_attn_allocator a)) in
  let a := set_full a (sub_clear ps (full_attn_allocator a)) in
  let m := full_to_swa_index_mapping a in
  let a := set_mapping a (replicate (length m - 1) 0 ++ drop (length m - 1) m) in
  set_groups a None [] [].

Definition init (size size_swa page_size : Z) (need_sort debug : bool) : SWA :=
  clear (mkSWA size size_swa page_size (sub_init size page_size need_sort debug)
           (sub_init size_swa page_size need_sort debug)
           (replicate (Z.to_nat (size + page_size)) 0 ++ [-1]) None [] []).

Definition full_available_size (a : SWA) : Z := sub_available (swa_page_size a) (full_attn_allocator a).
Definition swa_available_size (a : SWA) : Z := sub_available (swa_page_size a) (swa_attn_allocator a).
Definition available_size (a : SWA) : Z := Z.min (full_available_size a) (swa_available_size a).

Definition translate_loc_from_full_to_swa (kv_indices : list Z) (a : SWA) : res (list Z) :=
  tensor_get (full_to_swa_index_mapping a) kv_indices.

Definition set_full_to_swa_mapping (full_indices swa_indices : list Z) (a : SWA) : res SWA :=
  if zlen full_indices =? 0 then Ok a
  else if negb (zlen full_indices =? zlen swa_indices) then Err AssertionError
  else
    m ← tensor_set (full_to_swa_index_mapping a) full_indices swa_indices;
    Ok (set_mapping a m).

Definition clear_full_to_swa_mapping (full_indices : list Z) (a : SWA) : res SWA :=
  if zlen full_indices =? 0 then Ok a
  else
    m ← tensor_set (full_to_swa_index_mapping a) full_indices (replicate (length full_indices) 0);
    Ok (set_mapping a m).

Definition assert_some (x : option (list Z)) : res (list Z) :=
  match x with Some l => Ok l | None => Err AssertionError end.

Definition alloc (need_size : Z) (a : SWA) : res (option (list Z) * SWA) :=
  if negb (swa_page_size a =? 1) then Err AssertionError
  else if need_size >? full_available_size a then Ok (None, a)
  else if need_size >? swa_available_size a then Ok (None, a)
  else
    let '(f, full') := Token.alloc need_size (full_attn_allocator a) in
    let '(s, swa') := Token.alloc need_size (swa_attn_allocator a) in
    f ← assert_some f;
    s ← assert_some s;
    a ← set_full_to_swa_mapping f s (set_swa (set_full a full') swa');
    Ok (Some f, a).

Definition new_pages_available (num_full_pages num_swa_pages : Z) (a : SWA) : bool :=
  (num_full_pages <=? full_available_size a / swa_page_size a) &&
  (num_swa_pages <=? swa_available_size a / swa_page_size a).

Section device.
Context (d : Device).

Definition alloc_extend (prefix_lens seq_lens last_loc : list Z) (extend_num_tokens : Z) (a : SWA)
    : res (option (list Z) * SWA) :=
  if negb (swa_page_size a >? 1) then Err AssertionError
  else
    n ← get_num_new_pages seq_lens (swa_page_size a) (Some prefix_lens) false;
    if negb (new_pages_available n n a) then Ok (None, a)
    else
      swa_last_loc ← translate_loc_from_full_to_swa last_loc a;
      '(f, full') ← AllocKernels.alloc_extend d prefix_lens prefix_lens seq_lens seq_lens last_loc
                      extend_num_tokens (Some n) (full_attn_allocator a);
      '(s, swa') ← AllocKernels.alloc_extend d prefix_lens prefix_lens seq_lens seq_lens swa_last_loc
                     extend_num_tokens (Some n) (swa_attn_allocator a);
      f ← assert_some f;
      s ← assert_some s;
      a ← set_full_to_swa_mapping f s (set_swa (set_full a full') swa');
      Ok (Some f, a).

(** Full slots for the whole extension, sliding-window slots for its tail. *)
Definition alloc_extend_swa_tail (prefix_lens seq_lens last_loc : list Z) (extend_num_tokens swa_tail_len : Z)
    (a : SWA) : res (option (list Z) * SWA) :=
  let ps := swa_page_size a in
  if negb (ps >? 1) || negb (zlen seq_lens =? 1) || negb (zlen prefix_lens =? 1) ||
     negb ((0 <=? swa_tail_len) && (swa_tail_len <=? extend_num_tokens))
  then Err AssertionError
  else
    num_full_pages ← get_num_new_pages seq_lens ps (Some prefix_lens) false;
    let num_swa_pages := (swa_tail_len + ps - 1) / ps in
    if negb (new_pages_available num_full_pages num_swa_pages a) then Ok (None, a)
    else
      '(f, full') ← AllocKernels.alloc_extend d prefix_lens prefix_lens seq_lens seq_lens last_loc
                      extend_num_tokens (Some num_full_pages) (full_attn_allocator a);
      f ← assert_some f;
      let a := set_full a full' in
      if swa_tail_len =? 0 then Ok (Some f, a)
      else
        '(s, swa') ← AllocKernels.alloc_extend d [0] [0] [swa_tail_len] [swa_tail_len] [-1]
                       swa_tail_len (Some num_swa_pages) (swa_attn_allocator a);
        s ← assert_some s;
        a ← set_full_to_swa_mapping (slice_from f (- swa_tail_len)) s (set_swa a swa');
        a ← (if swa_tail_len <? extend_num_tokens
             then clear_full_to_swa_mapping (slice_to f (- swa_tail_len)) a else Ok a);
        Ok (Some f, a).

Definition alloc_decode (seq_lens last_loc : list Z) (a : SWA) : res (option (list Z) * SWA) :=
  if negb (swa_page_size a >? 1) then Err AssertionError
  else
    swa_last_loc ← translate_loc_from_full_to_swa last_loc a;
    '(f, full') ← AllocKernels.alloc_decode d seq_lens seq_lens last_loc (full_attn_allocator a);
    '(s, swa') ← AllocKernels.alloc_decode d seq_lens seq_lens swa_last_loc (swa_attn_allocator a);
    let a := set_swa (set_full a full') swa' in
    match f, s with
    | Some f, Some s =>
        m ← tensor_set (full_to_swa_index_mapping a) f s;
        Ok (Some f, set_mapping a m)
    | _, _ => Ok (None, a)
    end.
End device.

(** ** Freeing *)

(** [_expand_to_full_pages]: all slots of the pages of [indices], with duplicates. *)
Definition expand_to_full_pages (indices : list Z) (a : SWA) : res (list Z) :=
  let ps := swa_page_size a in
  let expanded := indices ≫= λ i, (λ o, i / ps * ps + o) <$> zrange 0 ps in
  if debug_mode (swa_attn_allocator a) &&
     negb (bool_decide (torch_unique ((λ i, i / ps) <$> expanded) = torch_unique ((λ i, i / ps) <$> indices)))
  then Err AssertionError else Ok expanded.

Definition free_swa (free_index : list Z) (a : SWA) : res SWA :=
  if zlen free_index =? 0 then Ok a
  else
    mapping_indices ← (if swa_page_size a =? 1 then Ok free_index else expand_to_full_pages free_index a);
    swa_indices ← tensor_get (full_to_swa_index_mapping a) mapping_indices;
    let swa_indices := filter (λ i, 0 < i) swa_indices in
    a ← clear_full_to_swa_mapping mapping_indices a;
    match swa_group a with
    | Some _ => Ok (set_groups a (swa_group a) (swa_free_group a ++ [swa_indices]) (full_free_group a))
    | None =>
        s ← sub_free (swa_page_size a) swa_indices (swa_attn_allocator a);
        Ok (set_swa a s)
    end.

Definition assert_full_size (a : SWA) : res SWA :=
  if full_available_size a <=? size (full_attn_allocator a) then Ok a else Err AssertionError.
Definition assert_swa_size (a : SWA) : res SWA :=
  if swa_available_size a <=? size (swa_attn_allocator a) then Ok a else Err AssertionError.

Definition free (free_index : list Z) (a : SWA) : res SWA :=
  if zlen free_index =? 0 then Ok a
  else
    a ← match swa_group a with
        | None =>
            f ← sub_free (swa_page_size a) free_index (full_attn_allocator a);
            free_swa free_index (set_full a f)
        | Some ts => Ok (set_groups a (Some (ts ++ [free_index])) (swa_free_group a) (full_free_group a))
        end;
    a ← assert_full_size a;
    assert_swa_size a.

Definition free_full (free_index : list Z) (a : SWA) : res SWA :=
  if zlen free_index =? 0 then Ok a
  else
    a ← match swa_group a with
        | None =>
            f ← sub_free (swa_page_size a) free_index (full_attn_allocator a);
            Ok (set_full a f)
        | Some _ => Ok (set_groups a (swa_group a) (swa_free_group a) (full_free_group a ++ [free_index]))
        end;
    assert_full_size a.

Definition free_group_begin (a : SWA) : SWA := set_groups a (Some []) [] [].

Definition free_group_end (a : SWA) : res SWA :=
  let pending := swa_group a in
  let a := set_groups a None (swa_free_group a) (full_free_group a) in
  a ← match pending with Some ((_ :: _) as ts) => free (concat ts) a | _ => Ok a end;
  a ← match swa_free_group a with
      | [] => Ok a
      | ts =>
          let a := set_groups a (swa_group a) [] (full_free_group a) in
          s ← sub_free (swa_page_size a) (concat ts) (swa_attn_allocator a);
          Ok (set_swa a s)
      end;
  match full_free_group a with
  | [] => Ok a
  | ts => free_full (concat ts) (set_groups a (swa_group a) (swa_free_group a) [])
  end.

Definition set_sub_size (ps sz : Z) (a : Alloc) : Alloc :=
  mkAlloc sz (page_size a) (need_sort a) (debug_mode a) (if ps >? 1 then sz / ps else num_pages a)
    (free_pages a) (release_pages a) (free_group a) (free_page_reps_group a).

Definition resize (size_full size_swa : Z) (a : SWA) : SWA :=
  let ps := swa_page_size a in
  clear (mkSWA size_full size_swa ps (set_sub_size ps size_full (full_attn_allocator a))
           (set_sub_size ps size_swa (swa_attn_allocator a)) (full_to_swa_index_mapping a)
           (swa_group a) (swa_free_group a) (full_free_group a)).
End Swa.

(** ** Models with sliding-window layers only *)

(** One pool of single slots serves as both; the state is that pool and the group. *)
Module PureSwa.
Record t := mk { pool_of : Alloc; group : option (list (list Z)) }.

Definition init (size_swa : Z) (need_sort : bool) : t := mk (Token.init size_swa need_sort) None.
Definition available_size (a : t) : Z := Token.available_size (pool_of a).
Definition new_pages_available (num_full_pages num_swa_pages : Z) (a : t) : bool :=
  (num_full_pages <=? available_size a / 1) && (num_swa_pages <=? available_size a / 1).
Definition translate_loc_from_full_to_swa (kv_indices : list Z) (a : t) : list Z := kv_indices.
Definition alloc (need_size : Z) (a : t) : option (list Z) * t :=
  let '(r, p) := Token.alloc need_size (pool_of a) in (r, mk p (group a)).

Definition free_or_defer (free_index : list Z) (a : t) : res t :=
  match group a with
  | None => p ← Token.free (filter (λ i, 0 < i) free_index) (pool_of a); Ok (mk p None)
  | Some ts => Ok (mk (pool_of a) (Some (ts ++ [free_index])))
  end.
Definition free (free_index : list Z) (a : t) : res t :=
  if zlen free_index =? 0 then Ok a
  else
    a ← free_or_defer free_index a;
    if available_size a <=? size (pool_of a) then Ok a else Err AssertionError.
Definition free_swa (free_index : list Z) (a : t) : res t :=
  if zlen free_index =? 0 then Ok a else free_or_defer free_index a.
Definition free_full (free_index : list Z) (a : t) : t := a.
Definition free_group_begin (a : t) : t := mk (pool_of a) (Some []).
Definition free_group_end (a : t) : res t :=
  let pending := group a in
  let a := mk (pool_of a) None in
  match pending with Some ((_ :: _) as ts) => free (concat ts) a | _ => Ok a end.
Definition clear (a : t) : t := mk (Token.clear (pool_of a)) None.
End PureSwa.
