(* ===== verification/SwaInv.v ===== *)
(** * The invariant of the hybrid allocator

    Which pages of the two pools are free, owned or waiting in a free group, and
    what the table that links them holds.  Freeing, in a group or not, keeps it. *)

From S2P Require Import Prelude Allocator AllocKernels BatchAlloc SwaAlloc.
Import Allocator.

(** ** Tensors *)

Lemma tensor_get_spec t idx vals :
  Forall2 (λ i v, 0 ≤ i ∧ t !! Z.to_nat i = Some v) idx vals → tensor_get t idx = Ok vals.
Proof.
  unfold tensor_get. induction 1 as [|i v idx vals [Hi Hv] _ IH]; [done|]. cbn.
  rewrite (proj2 (py_get_lookup t i v Hi) Hv). cbn. by rewrite IH.
Qed.

Definition in_tensor (t : list Z) (i : Z) : Prop := 0 ≤ i < zlen t.

Lemma tensor_set_one_ok t i v : in_tensor t i → tensor_set_one (i, v) t = Ok (<[Z.to_nat i := v]> t).
Proof.
  intros [H1 H2]. unfold tensor_set_one. destruct (Z.ltb_spec i 0); [lia|].
  by rewrite (proj2 (Z.leb_le _ _)), (proj2 (Z.ltb_lt _ _)).
Qed.

(** Storing one value, whatever the duplicates. *)
Lemma tensor_fill_spec t idx v :
  Forall (in_tensor t) idx →
  ∃ t', tensor_set t idx (replicate (length idx) v) = Ok t' ∧ length t' = length t ∧
    (∀ k, Z.of_nat k ∈ idx → t' !! k = Some v) ∧ (∀ k, Z.of_nat k ∉ idx → t' !! k = t !! k).
Proof.
  unfold tensor_set. revert t. induction idx as [|i idx IH]; intros t Hin.
  { exists t. split_and!; try done. by intros k ?%elem_of_nil. }
  apply Forall_cons in Hin as [Hi Hin]. pose proof Hi as [? ?].
  destruct (IH (<[Z.to_nat i := v]> t)) as (t' & Hrun & Hl & Hset & Hkeep).
  { eapply Forall_impl; [exact Hin|]. intros j. unfold in_tensor, zlen. by rewrite length_insert. }
  exists t'. cbn [length replicate zip zip_with for_each]. rewrite tensor_set_one_ok by done. cbn [mbind res_bind].
  split; [done|]. split; [by rewrite Hl, length_insert|]. split.
  - intros k [Hk|Hk]%elem_of_cons; [|by apply Hset].
    destruct (decide (Z.of_nat k ∈ idx)) as [?|Hn]; [by apply Hset|].
    rewrite (Hkeep k Hn), <-Hk, Nat2Z.id. apply list_lookup_insert_eq. unfold zlen in *. lia.
  - intros k [Hne Hn]%not_elem_of_cons. rewrite (Hkeep k Hn). apply list_lookup_insert_ne. lia.
Qed.

(** Storing values at distinct places. *)
Lemma tensor_set_spec t idx vals :
  NoDup idx → length idx = length vals → Forall (in_tensor t) idx →
  ∃ t', tensor_set t idx vals = Ok t' ∧ length t' = length t ∧
    (∀ k i v, idx !! k = Some i → vals !! k = Some v → t' !! Z.to_nat i = Some v) ∧
    (∀ k, Z.of_nat k ∉ idx → t' !! k = t !! k).
Proof.
  unfold tensor_set. revert t vals. induction idx as [|i idx IH]; intros t [|v vals] Hnd Hl Hin; try done.
  { by exists t. }
  apply NoDup_cons in Hnd as [Hni Hnd]. apply Forall_cons in Hin as [Hi Hin]. pose proof Hi as [? ?].
  destruct (IH (<[Z.to_nat i := v]> t) vals) as (t' & Hrun & Hl' & Hset & Hkeep); [done|by injection Hl| |].
  { eapply Forall_impl; [exact Hin|]. intros j. unfold in_tensor, zlen. by rewrite length_insert. }
  exists t'. cbn [zip zip_with for_each]. rewrite tensor_set_one_ok by done. cbn [mbind res_bind].
  split; [done|]. split; [by rewrite Hl', length_insert|]. split.
  - intros [|k] j w Hj Hw; [|by apply (Hset k j w)]. injection Hj as <-. injection Hw as <-.
    rewrite Hkeep by (by rewrite Z2Nat.id by lia). apply list_lookup_insert_eq. unfold zlen in *. lia.
  - intros k [Hne Hn]%not_elem_of_cons. rewrite (Hkeep k Hn). apply list_lookup_insert_ne. lia.
Qed.

(** ** The pools below *)

(** The pages a list of slots lies on. *)
Definition pages_of (ps : Z) (idx : list Z) : list Z :=
  if ps =? 1 then idx else remove_dups ((λ i, i / ps) <$> idx).

(** The pages a pool can hand out. *)
Definition held (a : Alloc) : list Z := free_pages a ++ release_pages a.

Definition sub_wf (ps : Z) (a : Alloc) : Prop := alloc_wf a ∧ page_size a = ps.

Lemma elem_of_pages_of ps idx p : p ∈ pages_of ps idx ↔ ∃ i, i ∈ idx ∧ p = i / ps.
Proof.
  unfold pages_of. destruct (Z.eqb_spec ps 1) as [->|].
  - split; [intros Hp; exists p; by rewrite Z.div_1_r|]. intros (i & Hi & ->). by rewrite Z.div_1_r.
  - rewrite elem_of_remove_dups, list_elem_of_fmap. split; intros (i & ? & ?); by exists i.
Qed.

Lemma pages_of_app ps k l :
  (∀ p, p ∈ pages_of ps k → p ∉ pages_of ps l) → pages_of ps (k ++ l) ≡ₚ pages_of ps k ++ pages_of ps l.
Proof.
  unfold pages_of. destruct (Z.eqb_spec ps 1) as [|]; [done|]. intros Hd. rewrite fmap_app.
  apply NoDup_Permutation.
  - apply NoDup_remove_dups.
  - apply NoDup_app. split_and!; [apply NoDup_remove_dups|exact Hd|apply NoDup_remove_dups].
  - intros x. by rewrite !elem_of_app, !elem_of_remove_dups, elem_of_app.
Qed.

Lemma pages_of_nil ps : pages_of ps [] = [].
Proof. unfold pages_of. by destruct (ps =? 1). Qed.

Lemma sub_available_eq ps a : sub_wf ps a → sub_available ps a = zlen (held a) * ps.
Proof.
  intros [_ Hp]. unfold sub_available, Token.available_size, Base.available_size, held. rewrite zlen_app, Hp.
  destruct (Z.eqb_spec ps 1); lia.
Qed.

(** What an operation on a pool leaves alone. *)
Definition same_pool (a a' : Alloc) : Prop := size a' = size a ∧ debug_mode a' = debug_mode a.

Lemma sub_free_spec ps idx a :
  0 < ps → sub_wf ps a → NoDup (pages_of ps idx ++ held a) →
  ∃ a', sub_free ps idx a = Ok a' ∧ sub_wf ps a' ∧ same_pool a a' ∧ held a' ≡ₚ pages_of ps idx ++ held a.
Proof.
  intros Hps [Hwf Hp] Hnd. pose proof Hwf as (_ & Hs & Hg & Hr). unfold sub_free, pages_of in *.
  destruct (Z.eqb_spec ps 1) as [->|].
  - unfold Token.free. destruct (Z.eqb_spec (zlen idx) 0) as [->%zlen_0|]; [by exists a|]. rewrite Hg.
    destruct (need_sort a) eqn:E; eexists; (split; [done|]); split; [|split; [done|]| |split; [done|]].
    + split; [|done]. split_and!; [apply Hwf|cbn; by rewrite E|done|done].
    + unfold held. cbn. solve_Permutation.
    + split; [|done]. split_and!; [apply Hwf|cbn; auto|done|done].
    + unfold held. cbn. solve_Permutation.
  - unfold Paged.free. destruct (Z.eqb_spec (zlen idx) 0) as [->%zlen_0|]; [by exists a|]. rewrite Hg, Hp.
    set (ids := torch_unique _). assert (ids ≡ₚ remove_dups ((λ i, i / ps) <$> idx)) as Hids by apply torch_sort_Permutation.
    set (a' := Paged.release_page_ids [ids] a).
    assert (held a' ≡ₚ ids ++ held a) as HP.
    { unfold a', Paged.release_page_ids, held. cbn. rewrite app_nil_r. destruct (need_sort a); cbn; solve_Permutation. }
    assert (alloc_wf a') as Hwf' by by apply release_quiet.
    exists a'. rewrite PagedPool.debug_checked_ok.
    + split; [done|]. split; [split; [done|]|split; [|by rewrite HP, Hids]];
        unfold a', Paged.release_page_ids, same_pool; by destruct (need_sort a).
    + rewrite quiet_pool by done. fold (held a'). by rewrite HP, Hids.
Qed.

(** ** Links between pages *)

(** The links that remain when the sliding-window side of [pages] is given up. *)
Definition unlink (π : gmap Z Z) (pages : list Z) : gmap Z Z := foldr delete π pages.

Lemma lookup_unlink π pages p : unlink π pages !! p = if decide (p ∈ pages) then None else π !! p.
Proof.
  unfold unlink. induction pages as [|q pages IH]; [by rewrite decide_False by apply not_elem_of_nil|].
  cbn [foldr]. destruct (decide (p = q)) as [->|Hne].
  - rewrite lookup_delete_eq, decide_True by (by left). done.
  - rewrite lookup_delete_ne, IH by done. destruct (decide (p ∈ pages)).
    + by rewrite decide_True by (by right).
    + rewrite decide_False; [done|]. by intros [?|?]%elem_of_cons.
Qed.

Definition images (π : gmap Z Z) : list Z := (map_to_list π).*2.

Lemma elem_of_images π q : q ∈ images π ↔ ∃ p, π !! p = Some q.
Proof.
  unfold images. rewrite list_elem_of_fmap. split.
  - intros ([p q'] & -> & Hp%elem_of_map_to_list). by exists p.
  - intros (p & Hp). exists (p, q). split; [done|]. by apply elem_of_map_to_list.
Qed.

Lemma images_delete π p q : π !! p = Some q → images π ≡ₚ q :: images (delete p π).
Proof. intros Hp. unfold images. by rewrite <-(map_to_list_delete π p q Hp). Qed.

Lemma images_unlink π pages :
  NoDup pages → images π ≡ₚ omap (π !!.) pages ++ images (unlink π pages).
Proof.
  induction 1 as [|p pages Hp Hnd IH]; [done|]. cbn [omap list_omap unlink foldr]. fold (unlink π pages).
  assert (unlink π pages !! p = π !! p) as Hl by (by rewrite lookup_unlink, decide_False).
  rewrite IH. destruct (π !! p) as [q|] eqn:E; [|by rewrite delete_id].
  rewrite (images_delete _ p q Hl). cbn. solve_Permutation.
Qed.

(** Different full pages are linked to different sliding-window pages. *)
Lemma images_inj π p p' q : NoDup (images π) → π !! p = Some q → π !! p' = Some q → p = p'.
Proof.
  intros Hnd Hp Hp'. destruct (decide (p = p')) as [|Hne]; [done|]. exfalso.
  rewrite (images_delete π p q Hp) in Hnd. apply NoDup_cons in Hnd as [Hn _]. apply Hn.
  apply elem_of_images. exists p'. by rewrite lookup_delete_ne.
Qed.

Lemma NoDup_omap_links π pages : NoDup (images π) → NoDup pages → NoDup (omap (π !!.) pages).
Proof.
  intros Hnd Hp. rewrite (images_unlink π pages Hp) in Hnd. by apply NoDup_app in Hnd as (? & _ & _).
Qed.

(** ** The invariant *)

Definition pending_full (a : SWA) : list Z :=
  pages_of (swa_page_size a) (concat (default [] (swa_group a))) ++
  pages_of (swa_page_size a) (concat (full_free_group a)).
Definition pending_swa (a : SWA) : list Z := pages_of (swa_page_size a) (concat (swa_free_group a)).

Definition last_page (ps : Z) (a : Alloc) : Z := size a / ps.

(** [owned] are the full pages that callers hold, and [π] links full pages to the
    sliding-window pages of the same tokens.  Every page of either pool is free, or
    waiting to be freed, or owned (linked) once; an entry of the table is 0 or the
    slot of the linked page with the same offset; and a page stays linked only while
    one of its entries says so. *)
Record swa_wf (a : SWA) (owned : list Z) (π : gmap Z Z) : Prop := {
  sw_ps : 0 < swa_page_size a;
  sw_full : sub_wf (swa_page_size a) (full_attn_allocator a);
  sw_swa : sub_wf (swa_page_size a) (swa_attn_allocator a);
  sw_size : 0 ≤ size (full_attn_allocator a) ∧ 0 ≤ size (swa_attn_allocator a);
  sw_len : size (full_attn_allocator a) + swa_page_size a < zlen (full_to_swa_index_mapping a);
  sw_minus : last (full_to_swa_index_mapping a) = Some (-1);
  sw_owned : owned ++ held (full_attn_allocator a) ++ pending_full a ≡ₚ
    zrange 1 (last_page (swa_page_size a) (full_attn_allocator a) + 1);
  sw_images : images π ++ held (swa_attn_allocator a) ++ pending_swa a ≡ₚ
    zrange 1 (last_page (swa_page_size a) (swa_attn_allocator a) + 1);
  sw_entry : ∀ x, 0 ≤ x < (last_page (swa_page_size a) (full_attn_allocator a) + 1) * swa_page_size a →
    ∃ v, full_to_swa_index_mapping a !! Z.to_nat x = Some v ∧
      (v = 0 ∨ ∃ q, π !! (x / swa_page_size a) = Some q ∧ v = q * swa_page_size a + x mod swa_page_size a);
  sw_used : ∀ p q, π !! p = Some q → ∃ x v, 0 ≤ x ∧ x / swa_page_size a = p ∧
    full_to_swa_index_mapping a !! Z.to_nat x = Some v ∧ v ≠ 0;
  sw_dom : ∀ p, is_Some (π !! p) →
    p ∈ owned ++ pages_of (swa_page_size a) (concat (default [] (swa_group a)));
}.

Section facts.
Context (a : SWA) (owned : list Z) (π : gmap Z Z) (Hw : swa_wf a owned π).
Local Abbreviation ps := (swa_page_size a).

Lemma owned_range p : p ∈ owned ++ pages_of ps (concat (default [] (swa_group a))) →
  1 ≤ p ≤ last_page ps (full_attn_allocator a).
Proof.
  intros Hp. assert (p ∈ zrange 1 (last_page ps (full_attn_allocator a) + 1)) as H%elem_of_zrange; [|lia].
  rewrite <-(sw_owned _ _ _ Hw). unfold pending_full. revert Hp. rewrite !elem_of_app. tauto.
Qed.

Lemma page_range x p : x / ps = p → 1 ≤ p ≤ last_page ps (full_attn_allocator a) →
  0 ≤ x < (last_page ps (full_attn_allocator a) + 1) * ps.
Proof.
  intros <- Hp. pose proof (sw_ps _ _ _ Hw). pose proof (Z.div_mod x ps). pose proof (Z.mod_pos_bound x ps). nia.
Qed.

Lemma in_table x : 0 ≤ x < (last_page ps (full_attn_allocator a) + 1) * ps → in_tensor (full_to_swa_index_mapping a) x.
Proof.
  intros Hx. pose proof (sw_ps _ _ _ Hw) as Hps. pose proof (sw_len _ _ _ Hw).
  pose proof (Z.mul_div_le (size (full_attn_allocator a)) ps Hps). unfold last_page, in_tensor in *. nia.
Qed.

Lemma image_range q : q ∈ images π ++ held (swa_attn_allocator a) ++ pending_swa a → 1 ≤ q ≤ last_page ps (swa_attn_allocator a).
Proof. intros Hq. rewrite (sw_images _ _ _ Hw), elem_of_zrange in Hq. lia. Qed.

Lemma images_NoDup : NoDup (images π ++ held (swa_attn_allocator a) ++ pending_swa a).
Proof. rewrite (sw_images _ _ _ Hw). apply NoDup_zrange. Qed.

Lemma owned_NoDup : NoDup (owned ++ held (full_attn_allocator a) ++ pending_full a).
Proof. rewrite (sw_owned _ _ _ Hw). apply NoDup_zrange. Qed.

(** The entry of a slot of a linked page is its sliding-window slot or 0; a
    positive entry is never mistaken for a missing one. *)
Lemma entry_positive q off : q ∈ images π → 0 ≤ off → 0 < q * ps + off.
Proof.
  intros Hq Ho. pose proof (sw_ps _ _ _ Hw).
  assert (1 ≤ q) by (apply image_range, elem_of_app; by left). nia.
Qed.

(** The asserts of the free operations hold. *)
Lemma available_bound (b : Alloc) l :
  sub_wf ps b → 0 ≤ size b → l ++ held b ≡ₚ zrange 1 (last_page ps b + 1) → sub_available ps b ≤ size b.
Proof.
  intros Hb Hs HP. rewrite sub_available_eq by done. pose proof (sw_ps _ _ _ Hw) as Hps.
  pose proof (Z.mul_div_le (size b) ps Hps).
  assert (zlen (l ++ held b) = last_page ps b) as E.
  { unfold zlen. rewrite HP. fold (zlen (zrange 1 (last_page ps b + 1))). rewrite zlen_zrange; [lia|].
    unfold last_page. pose proof (Z.div_pos (size b) ps Hs Hps). lia. }
  rewrite zlen_app in E. pose proof (zlen_nonneg l). unfold last_page in *. nia.
Qed.
End facts.

(** ** Giving up the sliding-window side of pages *)

Lemma filter_links (f : Z → Z) (g : Z → option Z) (l : list Z) :
  (∀ x, x ∈ l → match g x with Some q => f x = q ∧ 0 < q | None => f x ≤ 0 end) →
  filter (λ i, 0 < i) (f <$> l) = omap g l.
Proof.
  induction l as [|x l IH]; intros Hl; [done|]. cbn [fmap list_fmap omap list_omap]. rewrite filter_cons.
  pose proof (Hl x ltac:(by left)) as Hx. rewrite <-IH by (intros y Hy; apply Hl; by right).
  destruct (g x) as [q|].
  - destruct Hx as [-> Hq]. by rewrite decide_True.
  - by rewrite decide_False by lia.
Qed.

(** The table [t] without the entries of the pages. *)
Definition zeroed (ps : Z) (pages t t' : list Z) : Prop :=
  length t' = length t ∧ (∀ x, 0 ≤ x → x / ps ∈ pages → t' !! Z.to_nat x = Some 0) ∧
  (∀ x, 0 ≤ x → x / ps ∉ pages → t' !! Z.to_nat x = t !! Z.to_nat x).

Lemma zeroed_nil ps t : zeroed ps [] t t.
Proof. split_and!; [done| |done]. by intros x _ ?%elem_of_nil. Qed.

Lemma zeroed_unique ps pages t t1 t2 : zeroed ps pages t t1 → zeroed ps pages t t2 → t1 = t2.
Proof.
  intros (_ & H1 & K1) (_ & H2 & K2). apply list_eq. intros k.
  specialize (H1 (Z.of_nat k)). specialize (H2 (Z.of_nat k)). specialize (K1 (Z.of_nat k)). specialize (K2 (Z.of_nat k)).
  rewrite Nat2Z.id in *. destruct (decide (Z.of_nat k / ps ∈ pages)) as [Hp|Hp].
  - rewrite H1, H2 by (lia || done). done.
  - rewrite K1, K2 by (lia || done). done.
Qed.

(** Clearing the same pages of both tables, or more pages of the second one. *)
Lemma zeroed_both ps pages idx t t' u u' :
  zeroed ps pages t t' → zeroed ps idx t u → zeroed ps idx t' u' → zeroed ps pages u u'.
Proof.
  intros (L1 & H1 & K1) (L2 & H2 & K2) (L3 & H3 & K3). split_and!; [congruence|..]; intros x Hx Hp;
    destruct (decide (x / ps ∈ idx)) as [Hi|Hi].
  - by apply H3.
  - rewrite K3 by done. by apply H1.
  - rewrite H3, H2 by done. done.
  - rewrite K3, K2 by done. by apply K1.
Qed.

Lemma zeroed_more ps pages idx all t t' u :
  (∀ p, p ∈ all ↔ p ∈ pages ∨ p ∈ idx) → zeroed ps pages t t' → zeroed ps idx t' u → zeroed ps all t u.
Proof.
  intros Hall (L1 & H1 & K1) (L2 & H2 & K2). split_and!; [congruence|..]; intros x Hx Hp; rewrite Hall in Hp.
  - destruct (decide (x / ps ∈ idx)) as [Hi|Hi]; [by apply H2|]. rewrite K2 by done. apply H1; tauto.
  - rewrite K2, K1; tauto.
Qed.

Section free_swa.
Context (a : SWA) (owned : list Z) (π : gmap Z Z) (Hw : swa_wf a owned π).
Context (idx : list Z).
Local Abbreviation ps := (swa_page_size a).
Local Abbreviation m := (full_to_swa_index_mapping a).
Local Abbreviation pages := (pages_of (swa_page_size a) idx).
Hypotheses (Hnd : NoDup pages) (Hown : pages ⊆ owned).

Lemma elem_of_expanded x :
  x ∈ (idx ≫= λ i, (λ o, i / ps * ps + o) <$> zrange 0 ps) ↔ x / ps ∈ pages.
Proof.
  pose proof (sw_ps _ _ _ Hw) as Hps. rewrite list_elem_of_bind, elem_of_pages_of. split.
  - intros (i & (o & -> & Ho%elem_of_zrange)%list_elem_of_fmap & Hi). exists i. split; [done|].
    rewrite Z.div_add_l, (Z.div_small o) by lia. lia.
  - intros (i & Hi & Hx). exists i. split; [|done]. apply list_elem_of_fmap. exists (x mod ps).
    rewrite <-Hx, elem_of_zrange. split; [pose proof (Z.div_mod x ps); lia|apply Z.mod_pos_bound; lia].
Qed.

Lemma expand_spec :
  ∃ mi, (if ps =? 1 then Ok idx else Swa.expand_to_full_pages idx a) = Ok mi ∧ (ps = 1 → mi = idx) ∧
    ∀ x, x ∈ mi ↔ x / ps ∈ pages.
Proof.
  destruct (Z.eqb_spec ps 1) as [E|E].
  - exists idx. split_and!; [done|done|]. intros x. rewrite elem_of_pages_of, E. rewrite Z.div_1_r.
    split; [intros Hx; exists x; by rewrite Z.div_1_r|]. intros (i & Hi & ->). by rewrite Z.div_1_r.
  - unfold Swa.expand_to_full_pages. eexists. rewrite bool_decide_true.
    + rewrite andb_false_r. split_and!; [done|done|apply elem_of_expanded].
    + unfold torch_unique. apply torch_sort_eq, NoDup_Permutation; [apply NoDup_remove_dups..|].
      intros p. rewrite !elem_of_remove_dups, !list_elem_of_fmap. split.
      * intros (x & -> & Hx%elem_of_expanded). apply elem_of_pages_of in Hx as (i & Hi & Hx). by exists i.
      * intros (i & -> & Hi). exists i. split; [done|]. apply elem_of_expanded, elem_of_pages_of. by exists i.
Qed.

Context (mi : list Z) (Hone : ps = 1 → mi = idx) (Hmi : ∀ x, x ∈ mi ↔ x / ps ∈ pages).

Lemma mi_range x : x ∈ mi → 0 ≤ x < (last_page ps (full_attn_allocator a) + 1) * ps.
Proof.
  intros Hx%Hmi. apply (page_range a owned π Hw x (x / ps)); [done|]. apply (owned_range a owned π Hw).
  apply elem_of_app. left. by apply Hown.
Qed.

Definition entries : list Z := (λ x, default 0 (m !! Z.to_nat x)) <$> mi.

Lemma get_entries : tensor_get m mi = Ok entries.
Proof.
  apply tensor_get_spec. unfold entries. apply Forall2_fmap_r, Forall_Forall2_diag, Forall_forall.
  intros x Hx. pose proof (mi_range x Hx) as Hr. destruct (sw_entry _ _ _ Hw x Hr) as (v & Hv & _).
  unfold compose. rewrite Hv. split; [lia|done].
Qed.

(** The positive entries lie exactly on the linked pages. *)
Lemma entry_page x v : x ∈ mi → m !! Z.to_nat x = Some v → 0 < v → π !! (x / ps) = Some (v / ps).
Proof.
  intros Hx Hv Hp. destruct (sw_entry _ _ _ Hw x (mi_range x Hx)) as (v' & Hv' & Hc). same_lookup.
  destruct Hc as [?|(q & Hq & ->)]; [lia|]. rewrite Hq. f_equal. pose proof (sw_ps _ _ _ Hw).
  rewrite Z.div_add_l, (Z.div_small (x mod ps)) by (try apply Z.mod_pos_bound; lia). lia.
Qed.

Lemma used_entry p q : p ∈ pages → π !! p = Some q → ∃ x v, x ∈ mi ∧ m !! Z.to_nat x = Some v ∧ 0 < v ∧ x / ps = p ∧ v / ps = q.
Proof.
  intros Hp Hq. destruct (sw_used _ _ _ Hw p q Hq) as (x & v & Hx & Hxp & Hv & Hv0). exists x, v.
  assert (x ∈ mi) as Hmx by (apply Hmi; by rewrite Hxp).
  destruct (sw_entry _ _ _ Hw x (mi_range x Hmx)) as (v' & Hv' & Hc). same_lookup.
  destruct Hc as [?|(q' & Hq' & ->)]; [done|]. rewrite Hxp in Hq'. same_lookup. pose proof (sw_ps _ _ _ Hw) as Hps.
  pose proof (Z.mod_pos_bound x ps Hps). split_and!; try done.
  - apply (entry_positive a owned π Hw); [|lia]. apply elem_of_images. by exists p.
  - rewrite Z.div_add_l, (Z.div_small (x mod ps)) by lia. lia.
Qed.

Lemma freed_pages : pages_of ps (filter (λ i, 0 < i) entries) ≡ₚ omap (π !!.) pages.
Proof.
  pose proof (images_NoDup a owned π Hw) as Hni. apply NoDup_app in Hni as (Hni & _ & _).
  assert (∀ q, q ∈ pages_of ps (filter (λ i, 0 < i) entries) ↔ q ∈ omap (π !!.) pages) as Hset.
  { intros q. rewrite elem_of_pages_of, list_elem_of_omap. unfold entries. split.
    - intros (v & (Hv & (x & -> & Hx)%list_elem_of_fmap)%list_elem_of_filter & ->).
      destruct (m !! Z.to_nat x) as [v|] eqn:E; cbn in *; [|lia]. exists (x / ps). split; [by apply Hmi|].
      by apply entry_page.
    - intros (p & Hp & Hq). destruct (used_entry p q Hp Hq) as (x & v & Hx & Hv & Hv0 & _ & <-).
      exists v. split; [|done]. apply list_elem_of_filter. split; [done|]. apply list_elem_of_fmap. exists x.
      by rewrite Hv. }
  apply NoDup_Permutation; [|by apply NoDup_omap_links|exact Hset].
  destruct (Z.eqb_spec ps 1) as [E|E]; [|unfold pages_of; destruct (Z.eqb_spec ps 1); [done|apply NoDup_remove_dups]].
  unfold pages_of at 1. rewrite E, Z.eqb_refl. unfold entries. rewrite (filter_links _ (π !!.)).
  - rewrite (Hone E). unfold pages_of in Hnd. rewrite E, Z.eqb_refl in Hnd. by apply NoDup_omap_links.
  - intros x Hx. assert (x / ps = x) as Hd by (rewrite E; apply Z.div_1_r). pose proof (proj1 (Hmi x) Hx) as Hp.
    rewrite Hd in Hp. destruct (π !! x) as [q|] eqn:Hq.
    + destruct (used_entry x q Hp Hq) as (y & v & _ & Hv & Hv0 & Hy & <-). rewrite E, Z.div_1_r in Hy. subst y.
      rewrite Hv, E, Z.div_1_r. done.
    + destruct (sw_entry _ _ _ Hw x (mi_range x Hx)) as (v & Hv & [->|(q & Hq' & _)]); rewrite Hv; [done|].
      rewrite Hd in Hq'. congruence.
Qed.

Definition cleared (t : list Z) : Prop := zeroed ps pages m t.

Lemma clear_entries : ∃ t, tensor_set m mi (replicate (length mi) 0) = Ok t ∧ cleared t.
Proof.
  destruct (tensor_fill_spec m mi 0) as (t & -> & Hl & Hset & Hkeep).
  { apply Forall_forall. intros x Hx. apply (in_table a owned π Hw). by apply mi_range. }
  exists t. split; [done|]. split_and!; [done|..]; intros x Hx Hp; [apply Hset|apply Hkeep];
    rewrite Z2Nat.id by done; by rewrite Hmi.
Qed.

Lemma last_slot (t : list Z) : cleared t → last t = last m.
Proof.
  intros (Hl & _ & Hkeep). pose proof (sw_len _ _ _ Hw) as Hlen. pose proof (sw_ps _ _ _ Hw) as Hps.
  pose proof (sw_size _ _ _ Hw) as [Hsz _]. rewrite !last_lookup, Hl.
  specialize (Hkeep (zlen m - 1)). unfold zlen in Hkeep.
  replace (Z.to_nat (Z.of_nat (length m) - 1)) with (pred (length m)) in Hkeep by lia. apply Hkeep; [unfold zlen in *; lia|].
  intros Hp%Hown. assert (zlen m - 1 < (last_page ps (full_attn_allocator a) + 1) * ps) as Hlt.
  { apply (page_range a owned π Hw _ _ eq_refl), (owned_range a owned π Hw), elem_of_app. by left. }
  pose proof (Z.mul_div_le (size (full_attn_allocator a)) ps Hps). unfold last_page in Hlt. nia.
Qed.
End free_swa.

(** A state in which the sliding-window side of [pages] was given up. *)
Lemma swa_wf_unlinked a owned π idx t s g :
  swa_wf a owned π → pages_of (swa_page_size a) idx ⊆ owned → cleared a idx t →
  sub_wf (swa_page_size a) s → same_pool (swa_attn_allocator a) s →
  images (unlink π (pages_of (swa_page_size a) idx)) ++ held s ++ pages_of (swa_page_size a) (concat g) ≡ₚ
    images π ++ held (swa_attn_allocator a) ++ pending_swa a →
  swa_wf (set_groups (set_swa (set_mapping a t) s) (swa_group a) g (full_free_group a)) owned
    (unlink π (pages_of (swa_page_size a) idx)).
Proof.
  intros Hw Hown Hc Hs [Es Ed] HP. pose proof (last_slot a owned π Hw idx Hown t Hc) as Hlast.
  destruct Hc as (Hl & Hset & Hkeep). destruct Hw as [W1 W2 W3 W4 W5 W6 W7 W8 W9 W10 W11].
  constructor; cbn; try done.
  - by rewrite Es.
  - unfold zlen in *. by rewrite Hl.
  - by rewrite Hlast.
  - unfold last_page in *. rewrite Es. rewrite <-W8. exact HP.
  - intros x Hx. destruct (W9 x Hx) as (v & Hv & Hc). rewrite lookup_unlink.
    destruct (decide (x / swa_page_size a ∈ pages_of (swa_page_size a) idx)) as [Hp|Hp].
    + exists 0. rewrite Hset by (lia || done). split; [done|by left].
    + exists v. by rewrite Hkeep by (lia || done).
  - intros p q. rewrite lookup_unlink. case_decide as Hp; [done|]. intros Hq.
    destruct (W10 p q Hq) as (x & v & Hx & Hxp & Hv & Hv0). exists x, v. split_and!; try done.
    rewrite Hkeep by (done || by rewrite Hxp). done.
  - intros p. rewrite lookup_unlink. case_decide; [by intros [? ?]|]. apply W11.
Qed.

Lemma set_groups_same a : set_groups a (swa_group a) (swa_free_group a) (full_free_group a) = a.
Proof. by destruct a. Qed.

Lemma free_swa_spec a owned π idx :
  swa_wf a owned π → NoDup (pages_of (swa_page_size a) idx) → pages_of (swa_page_size a) idx ⊆ owned →
  ∃ a', Swa.free_swa idx a = Ok a' ∧ swa_wf a' owned (unlink π (pages_of (swa_page_size a) idx)) ∧
    swa_group a' = swa_group a ∧ full_free_group a' = full_free_group a ∧
    (swa_group a = None → swa_free_group a' = swa_free_group a) ∧
    full_attn_allocator a' = full_attn_allocator a ∧ swa_page_size a' = swa_page_size a ∧
    zeroed (swa_page_size a) (pages_of (swa_page_size a) idx) (full_to_swa_index_mapping a) (full_to_swa_index_mapping a').
Proof.
  intros Hw Hnd Hown. unfold Swa.free_swa. destruct (Z.eqb_spec (zlen idx) 0) as [->%zlen_0|].
  { exists a. rewrite pages_of_nil. split_and!; try done. apply zeroed_nil. }
  destruct (expand_spec a owned π Hw idx) as (mi & -> & Hone & Hmi). cbn [mbind res_bind].
  rewrite (get_entries a owned π Hw idx Hown mi Hmi). cbn [mbind res_bind].
  pose proof (freed_pages a owned π Hw idx Hnd Hown mi Hone Hmi) as HF. set (sw := filter _ _) in *.
  destruct (clear_entries a owned π Hw idx Hown mi Hmi) as (t & Ht & Hc).
  assert (∃ t', Swa.clear_full_to_swa_mapping mi a = Ok (set_mapping a t') ∧ cleared a idx t') as (t' & -> & Hc').
  { unfold Swa.clear_full_to_swa_mapping. destruct (Z.eqb_spec (zlen mi) 0) as [->%zlen_0|].
    - exists (full_to_swa_index_mapping a). split; [by destruct a|]. injection Ht as <-. done.
    - rewrite Ht. by exists t. }
  cbn [mbind res_bind]. pose proof (images_unlink π _ Hnd) as HU. pose proof (images_NoDup a owned π Hw) as Hni.
  rewrite HU, <-HF in Hni. rewrite <-app_assoc in Hni. apply NoDup_app in Hni as (Hn1 & Hn2 & Hn3).
  cbn [set_mapping swa_group swa_page_size swa_attn_allocator swa_free_group full_free_group].
  destruct (swa_group a) as [ts|] eqn:Hg.
  - eexists. split; [done|]. rewrite <-Hg. split; [|split_and!; try done; by rewrite Hg].
    eapply (swa_wf_unlinked a owned π idx t' (swa_attn_allocator a)); try done; [apply Hw|].
    rewrite concat_app. cbn [concat]. rewrite app_nil_r, pages_of_app, HU, <-HF.
    + unfold pending_swa. solve_Permutation.
    + intros q Hq Hq'. apply (Hn2 q Hq'). rewrite !elem_of_app. right. by right.
  - destruct (sub_free_spec (swa_page_size a) sw (swa_attn_allocator a)) as (s & -> & Hs & Hsame & HP).
    { apply Hw. } { apply Hw. }
    { apply NoDup_app. split_and!; [done| |].
      - intros q Hq Hq'. apply (Hn2 q Hq). rewrite !elem_of_app. right. by left.
      - apply NoDup_app in Hn3 as (_ & _ & Hn3). by apply NoDup_app in Hn3 as (? & _ & _). }
    cbn [mbind res_bind]. eexists. split; [done|]. split; [|by split_and!].
    pose proof (swa_wf_unlinked a owned π idx t' s (swa_free_group a) Hw Hown Hc' Hs Hsame) as Hw'.
    apply Hw'. rewrite HP, HU, <-HF. unfold pending_swa. solve_Permutation.
Qed.

(** ** Giving back full pages *)

Definition disown (owned pages : list Z) : list Z := filter (λ p, p ∉ pages) owned.

Lemma disown_perm owned pages :
  NoDup owned → NoDup pages → pages ⊆ owned → owned ≡ₚ pages ++ disown owned pages.
Proof.
  intros Ho Hp Hsub. apply NoDup_Permutation; [done| |].
  - apply NoDup_app. split_and!; [done| |by apply NoDup_filter].
    intros p ? [? _]%list_elem_of_filter. done.
  - intros p. unfold disown. rewrite elem_of_app, list_elem_of_filter.
    destruct (decide (p ∈ pages)) as [?|?]; [|tauto]. pose proof (Hsub p). tauto.
Qed.

Lemma disown_app owned pages : (∀ p, p ∈ pages → p ∉ owned) → disown (owned ++ pages) pages = owned.
Proof.
  intros Hd. unfold disown. rewrite filter_app.
  rewrite filter_all by (apply Forall_forall; intros p ? ?; by apply (Hd p)).
  rewrite filter_none, app_nil_r; [done|]. apply Forall_forall. auto.
Qed.

Lemma swa_wf_disowned a owned π idx f g ffg :
  swa_wf a owned π → NoDup (pages_of (swa_page_size a) idx) → pages_of (swa_page_size a) idx ⊆ owned →
  sub_wf (swa_page_size a) f → same_pool (full_attn_allocator a) f →
  held f ++ pages_of (swa_page_size a) (concat (default [] g)) ++ pages_of (swa_page_size a) (concat ffg) ≡ₚ
    pages_of (swa_page_size a) idx ++ held (full_attn_allocator a) ++ pending_full a →
  (∀ p, is_Some (π !! p) → p ∈ disown owned (pages_of (swa_page_size a) idx) ++
     pages_of (swa_page_size a) (concat (default [] g))) →
  swa_wf (set_groups (set_full a f) g (swa_free_group a) ffg) (disown owned (pages_of (swa_page_size a) idx)) π.
Proof.
  intros Hw Hnd Hown Hf [Es Ed] HP Hdom. pose proof (owned_NoDup a owned π Hw) as Hno.
  apply NoDup_app in Hno as (Hno & _ & _). destruct Hw as [W1 W2 W3 W4 W5 W6 W7 W8 W9 W10 W11].
  unfold last_page in *. constructor; cbn; unfold last_page; try done; rewrite ?Es; try done.
  unfold pending_full. cbn. rewrite HP, <-W7.
  rewrite (disown_perm owned _ Hno Hnd Hown) at 2. solve_Permutation.
Qed.

(** The asserts on the available sizes. *)
Lemma assert_full_ok a owned π : swa_wf a owned π → Swa.assert_full_size a = Ok a.
Proof.
  intros Hw. unfold Swa.assert_full_size, Swa.full_available_size. rewrite (proj2 (Z.leb_le _ _)); [done|].
  apply (available_bound a owned π Hw _ (owned ++ pending_full a)); [apply Hw..|].
  rewrite <-(sw_owned _ _ _ Hw). solve_Permutation.
Qed.

Lemma assert_swa_ok a owned π : swa_wf a owned π → Swa.assert_swa_size a = Ok a.
Proof.
  intros Hw. unfold Swa.assert_swa_size, Swa.swa_available_size. rewrite (proj2 (Z.leb_le _ _)); [done|].
  apply (available_bound a owned π Hw _ (images π ++ pending_swa a)); [apply Hw..|].
  rewrite <-(sw_images _ _ _ Hw). solve_Permutation.
Qed.

Section disowning.
Context (a : SWA) (owned : list Z) (π : gmap Z Z) (Hw : swa_wf a owned π) (idx : list Z).
Local Abbreviation pages := (pages_of (swa_page_size a) idx).
Hypotheses (Hnd : NoDup pages) (Hown : pages ⊆ owned).

(** Full pages that are not linked go to the pool. *)
Lemma full_freed :
  (∀ p, p ∈ pages → π !! p = None) → ∃ f, sub_free (swa_page_size a) idx (full_attn_allocator a) = Ok f ∧
    swa_wf (set_full a f) (disown owned pages) π.
Proof.
  intros Hun. pose proof (owned_NoDup a owned π Hw) as Hno. apply NoDup_app in Hno as (_ & Hn2 & Hn3).
  destruct (sub_free_spec (swa_page_size a) idx (full_attn_allocator a)) as (f & -> & Hf & Hsame & HP).
  { apply Hw. } { apply Hw. }
  { apply NoDup_app. split_and!; [done| |by apply NoDup_app in Hn3 as (? & _ & _)].
    intros p Hp%Hown Hp'. apply (Hn2 p Hp). rewrite elem_of_app. by left. }
  exists f. split; [done|].
  apply (swa_wf_disowned a owned π idx f (swa_group a) (full_free_group a)); try done.
  - rewrite HP. unfold pending_full. solve_Permutation.
  - intros p Hp. pose proof (sw_dom _ _ _ Hw p Hp) as Hin. unfold disown. revert Hin. rewrite !elem_of_app, list_elem_of_filter.
    intros [?|?]; [left|by right]. split; [|done]. intros ?. rewrite Hun in Hp by done. by destruct Hp.
Qed.

(** Pages that wait in an open group. *)
Lemma not_pending l : l `sublist_of` pending_full a → ∀ p, p ∈ l → p ∉ pages.
Proof.
  intros Hl p Hp Hp'%Hown. pose proof (owned_NoDup a owned π Hw) as Hno. apply NoDup_app in Hno as (_ & Hn2 & _).
  apply (Hn2 p Hp'). apply elem_of_app. right. by apply (elem_of_sublist l).
Qed.

Lemma full_deferred :
  (∀ p, p ∈ pages → π !! p = None) →
  swa_wf (set_groups a (swa_group a) (swa_free_group a) (full_free_group a ++ [idx])) (disown owned pages) π.
Proof.
  intros Hun. apply (swa_wf_disowned a owned π idx (full_attn_allocator a)); try done; [apply Hw|..].
  - rewrite concat_app. cbn [concat]. rewrite app_nil_r, pages_of_app.
    + unfold pending_full. solve_Permutation.
    + apply not_pending. unfold pending_full. by apply sublist_inserts_l.
  - intros p Hp. pose proof (sw_dom _ _ _ Hw p Hp) as Hin. unfold disown. revert Hin. rewrite !elem_of_app, list_elem_of_filter.
    intros [?|?]; [left|by right]. split; [|done]. intros ?. rewrite Hun in Hp by done. by destruct Hp.
Qed.

Lemma free_deferred ts :
  swa_group a = Some ts →
  swa_wf (set_groups a (Some (ts ++ [idx])) (swa_free_group a) (full_free_group a)) (disown owned pages) π.
Proof.
  intros Hg. assert (pages_of (swa_page_size a) (concat (ts ++ [idx])) ≡ₚ pages_of (swa_page_size a) (concat ts) ++ pages) as E.
  { rewrite concat_app. cbn [concat]. rewrite app_nil_r. apply pages_of_app, not_pending.
    unfold pending_full. rewrite Hg. by apply sublist_inserts_r. }
  apply (swa_wf_disowned a owned π idx (full_attn_allocator a) (Some (ts ++ [idx]))); try done; [apply Hw|..]; cbn [default].
  - rewrite E. unfold pending_full. rewrite Hg. cbn [default]. solve_Permutation.
  - intros p Hp. pose proof (sw_dom _ _ _ Hw p Hp) as Hin. rewrite Hg in Hin. cbn [default] in Hin.
    rewrite E. unfold disown. revert Hin. rewrite !elem_of_app, list_elem_of_filter.
    destruct (decide (p ∈ pages)); tauto.
Qed.
End disowning.

Definition same_layout (a a' : SWA) : Prop :=
  swa_page_size a' = swa_page_size a ∧ swa_group a' = swa_group a ∧
  swa_free_group a' = swa_free_group a ∧ full_free_group a' = full_free_group a.

(** The full pool plays no part in [free_swa]. *)
Lemma free_swa_set_full idx a f :
  Swa.free_swa idx (set_full a f) = a' ← Swa.free_swa idx a; Ok (set_full a' f).
Proof.
  unfold Swa.free_swa, Swa.expand_to_full_pages, Swa.clear_full_to_swa_mapping. cbn.
  destruct (zlen idx =? 0); [done|].
  match goal with |- context [mbind _ (if ?b then ?x else ?y)] => destruct (if b then x else y) as [mi|] end; [|done]. cbn.
  destruct (tensor_get _ _); [|done]. cbn. destruct (zlen mi =? 0); cbn.
  - destruct (swa_group a); [done|]. by destruct (sub_free _ _ _).
  - destruct (tensor_set _ _ _); [|done]. cbn. destruct (swa_group a); [done|]. by destruct (sub_free _ _ _).
Qed.

(** [free]: the links go at once, or with the group. *)
Lemma free_spec a owned π idx :
  swa_wf a owned π → NoDup (pages_of (swa_page_size a) idx) → pages_of (swa_page_size a) idx ⊆ owned →
  ∃ a' π', Swa.free idx a = Ok a' ∧ swa_wf a' (disown owned (pages_of (swa_page_size a) idx)) π' ∧
    (swa_group a = None → π' = unlink π (pages_of (swa_page_size a) idx) ∧ same_layout a a' ∧
       zeroed (swa_page_size a) (pages_of (swa_page_size a) idx) (full_to_swa_index_mapping a) (full_to_swa_index_mapping a')) ∧
    (∀ ts, swa_group a = Some ts → π' = π ∧ a' = set_groups a (swa_group a') (swa_free_group a) (full_free_group a) ∧
       ∃ ts', swa_group a' = Some ts' ∧ concat ts' = concat ts ++ idx).
Proof.
  intros Hw Hnd Hown. unfold Swa.free. destruct (Z.eqb_spec (zlen idx) 0) as [->%zlen_0|].
  { exists a, π. rewrite pages_of_nil. unfold disown. rewrite filter_all by (apply Forall_forall; by intros ? _ ?%elem_of_nil).
    split_and!; try done; [intros _; split_and!; try done; apply zeroed_nil|]. intros ts Hts. split; [done|].
    rewrite set_groups_same. split; [done|]. exists ts. by rewrite app_nil_r. }
  destruct (swa_group a) as [ts|] eqn:Hg.
  - pose proof (free_deferred a owned π Hw idx Hnd Hown ts Hg) as Hw'.
    cbn [mbind res_bind]. rewrite (assert_full_ok _ _ _ Hw'). cbn [mbind res_bind]. rewrite (assert_swa_ok _ _ _ Hw').
    eexists _, π. split; [done|]. split; [done|]. split; [done|]. intros ? [= <-]. split; [done|]. split; [done|].
    eexists. split; [done|]. rewrite concat_app. cbn [concat]. by rewrite app_nil_r.
  - destruct (free_swa_spec a owned π idx Hw Hnd Hown) as (a1 & Hrun & Hw1 & E1 & E2 & E3 & E4 & E5 & E6).
    destruct (full_freed a1 owned _ Hw1 idx) as (f & Hf & Hw2); rewrite ?E5; try done.
    { intros p Hp. by rewrite lookup_unlink, decide_True. }
    rewrite E4, E5 in Hf. rewrite Hf. cbn [mbind res_bind]. rewrite free_swa_set_full, Hrun. cbn [mbind res_bind].
    rewrite E5 in Hw2. rewrite (assert_full_ok _ _ _ Hw2). cbn [mbind res_bind]. rewrite (assert_swa_ok _ _ _ Hw2).
    eexists _, _. split; [done|]. split; [exact Hw2|]. split; [|done]. intros _. split; [done|].
    split; [by rewrite Hg in E1; unfold same_layout; cbn; rewrite Hg; auto|done].
Qed.

Lemma free_full_spec a owned π idx :
  swa_wf a owned π → NoDup (pages_of (swa_page_size a) idx) → pages_of (swa_page_size a) idx ⊆ owned →
  (∀ p, p ∈ pages_of (swa_page_size a) idx → π !! p = None) →
  ∃ a', Swa.free_full idx a = Ok a' ∧ swa_wf a' (disown owned (pages_of (swa_page_size a) idx)) π ∧
    swa_group a' = swa_group a ∧ full_to_swa_index_mapping a' = full_to_swa_index_mapping a ∧
    swa_page_size a' = swa_page_size a ∧ (swa_group a = None → same_layout a a').
Proof.
  intros Hw Hnd Hown Hun. unfold Swa.free_full. destruct (Z.eqb_spec (zlen idx) 0) as [->%zlen_0|].
  { exists a. rewrite pages_of_nil. unfold disown. rewrite filter_all by (apply Forall_forall; by intros ? _ ?%elem_of_nil).
    by split_and!. }
  destruct (swa_group a) as [ts|] eqn:Hg.
  - pose proof (full_deferred a owned π Hw idx Hnd Hown Hun) as Hw'. rewrite Hg in Hw'. cbn [mbind res_bind].
    rewrite (assert_full_ok _ _ _ Hw'). by eexists.
  - destruct (full_freed a owned π Hw idx Hnd Hown Hun) as (f & -> & Hw'). cbn [mbind res_bind].
    rewrite (assert_full_ok _ _ _ Hw'). eexists. split; [done|]. split; [done|]. by rewrite <-Hg.
Qed.

(** ** Free groups *)

(** No group is open. *)
Definition closed (a : SWA) : Prop := swa_group a = None ∧ swa_free_group a = [] ∧ full_free_group a = [].

Lemma group_begin_spec a owned π :
  swa_wf a owned π → closed a → swa_wf (Swa.free_group_begin a) owned π ∧ swa_group (Swa.free_group_begin a) = Some [].
Proof.
  intros [W1 W2 W3 W4 W5 W6 W7 W8 W9 W10 W11] (Hg & Hs & Hf). split; [|done].
  unfold pending_full, pending_swa in *. rewrite Hg, ?Hs, ?Hf in *. constructor; done.
Qed.

(** The group is closed: what waited in it is owned again, for the moment. *)
Lemma group_reopened a owned π l :
  swa_wf a owned π → l = pages_of (swa_page_size a) (concat (default [] (swa_group a))) →
  swa_wf (set_groups a None (swa_free_group a) (full_free_group a)) (owned ++ l) π.
Proof.
  intros [W1 W2 W3 W4 W5 W6 W7 W8 W9 W10 W11] ->. constructor; try done.
  - rewrite <-W7. unfold pending_full. cbn. rewrite pages_of_nil. solve_Permutation.
  - intros p Hp. cbn. rewrite pages_of_nil, app_nil_r. by apply W11.
Qed.

Lemma pending_pages a owned π l :
  swa_wf a owned π → l `sublist_of` pending_full a → NoDup l ∧ ∀ p, p ∈ l → p ∉ owned.
Proof.
  intros Hw Hl. pose proof (owned_NoDup a owned π Hw) as Hno. apply NoDup_app in Hno as (_ & Hn2 & Hn3).
  apply NoDup_app in Hn3 as (_ & _ & Hn3). split; [by eapply sublist_NoDup|].
  intros p Hp Ho. apply (Hn2 p Ho), elem_of_app. right. by apply (elem_of_sublist l).
Qed.

Lemma group_end_free a owned π :
  swa_wf a owned π → ∃ a',
    match swa_group a with
    | Some ((_ :: _) as ts) => Swa.free (concat ts) (set_groups a None (swa_free_group a) (full_free_group a))
    | _ => Ok (set_groups a None (swa_free_group a) (full_free_group a))
    end = Ok a' ∧
    swa_wf a' owned (unlink π (pages_of (swa_page_size a) (concat (default [] (swa_group a))))) ∧
    same_layout (set_groups a None (swa_free_group a) (full_free_group a)) a' ∧
    zeroed (swa_page_size a) (pages_of (swa_page_size a) (concat (default [] (swa_group a))))
      (full_to_swa_index_mapping a) (full_to_swa_index_mapping a').
Proof.
  intros Hw. set (l := pages_of (swa_page_size a) (concat (default [] (swa_group a)))).
  pose proof (group_reopened a owned π l Hw eq_refl) as Hw1.
  destruct (pending_pages a owned π l Hw) as [Hnd Hdis].
  { unfold pending_full. by apply sublist_inserts_r. }
  destruct (swa_group a) as [[|t ts]|] eqn:Hg.
  - exists (set_groups a None (swa_free_group a) (full_free_group a)). split; [done|].
    cbn [default concat] in *. unfold l in *. rewrite pages_of_nil, app_nil_r in *. split; [done|]. split; [done|apply zeroed_nil].
  - destruct (free_spec _ _ _ (concat (t :: ts)) Hw1) as (a' & π' & Hrun & Hw' & Hnone & _).
    + exact Hnd.
    + intros p Hp. apply elem_of_app. by right.
    + exists a'. split; [exact Hrun|]. destruct (Hnone eq_refl) as (-> & Hsame & Hz). split; [|done].
      change (swa_wf a' (disown (owned ++ l) l) (unlink π l)) in Hw'. by rewrite disown_app in Hw'.
  - exists (set_groups a None (swa_free_group a) (full_free_group a)). split; [done|].
    cbn [default concat] in *. unfold l in *. rewrite pages_of_nil, app_nil_r in *. split; [done|]. split; [done|apply zeroed_nil].
Qed.

Lemma group_end_swa a owned π :
  swa_wf a owned π → swa_group a = None → ∃ a',
    match swa_free_group a with
    | [] => Ok a
    | ts => let b := set_groups a (swa_group a) [] (full_free_group a) in
            s ← sub_free (swa_page_size b) (concat ts) (swa_attn_allocator b); Ok (set_swa b s)
    end = Ok a' ∧ swa_wf a' owned π ∧ swa_group a' = None ∧ swa_free_group a' = [] ∧
    full_free_group a' = full_free_group a ∧ swa_page_size a' = swa_page_size a ∧
    full_to_swa_index_mapping a' = full_to_swa_index_mapping a.
Proof.
  intros Hw Hg. destruct (swa_free_group a) as [|t ts] eqn:E; [by exists a|]. cbv zeta. cbn [set_groups swa_page_size swa_attn_allocator].
  pose proof (images_NoDup a owned π Hw) as Hni. apply NoDup_app in Hni as (_ & _ & Hni). unfold pending_swa in Hni. rewrite E in Hni.
  destruct (sub_free_spec (swa_page_size a) (concat (t :: ts)) (swa_attn_allocator a)) as (s & -> & Hs & [Es Ed] & HP);
    [apply Hw..|by rewrite Permutation_app_comm|].
  cbn [mbind res_bind]. eexists. split; [done|]. split; [|done]. destruct Hw as [W1 W2 W3 W4 W5 W6 W7 W8 W9 W10 W11].
  constructor; cbn; try done; unfold last_page in *; rewrite ?Es; try done.
  rewrite <-W8. unfold pending_swa. cbn. rewrite E, HP, pages_of_nil. solve_Permutation.
Qed.

Lemma group_end_spec a owned π :
  swa_wf a owned π → ∃ a', Swa.free_group_end a = Ok a' ∧ closed a' ∧
    swa_wf a' owned (unlink π (pages_of (swa_page_size a) (concat (default [] (swa_group a))))) ∧
    zeroed (swa_page_size a) (pages_of (swa_page_size a) (concat (default [] (swa_group a))))
      (full_to_swa_index_mapping a) (full_to_swa_index_mapping a').
Proof.
  intros Hw. unfold Swa.free_group_end. cbv zeta.
  destruct (group_end_free a owned π Hw) as (a1 & -> & Hw1 & (L1 & L2 & L3 & L4) & Hz). cbn [mbind res_bind].
  destruct (group_end_swa a1 owned _ Hw1 L2) as (a2 & Hrun & Hw2 & G2 & S2 & F2 & P2 & M2). cbv zeta in Hrun. rewrite Hrun.
  cbn [mbind res_bind]. destruct (full_free_group a2) as [|t ts] eqn:E; [exists a2; by rewrite M2|].
  set (l := pages_of (swa_page_size a2) (concat (t :: ts))). set (π2 := unlink _ _) in *.
  assert (swa_wf (set_groups a2 (swa_group a2) (swa_free_group a2) []) (owned ++ l) π2) as Hw3.
  { destruct Hw2 as [W1 W2 W3 W4 W5 W6 W7 W8 W9 W10 W11]. constructor; try done.
    - rewrite <-W7. unfold pending_full. cbn. rewrite G2, E, pages_of_nil. cbn [default concat]. rewrite pages_of_nil.
      fold l. solve_Permutation.
    - intros p Hp. specialize (W11 p Hp). revert W11. cbn. rewrite !elem_of_app. tauto. }
  destruct (pending_pages a2 owned π2 l Hw2) as [Hnd Hdis].
  { unfold pending_full. rewrite E. by apply sublist_inserts_l. }
  destruct (free_full_spec _ _ _ (concat (t :: ts)) Hw3) as (a' & -> & Hw' & _ & M3 & _ & Hsame).
  - exact Hnd.
  - intros p Hp. apply elem_of_app. by right.
  - intros p Hp. destruct (π2 !! p) eqn:Hp2; [|done]. exfalso. apply (Hdis p Hp).
    pose proof (sw_dom _ _ _ Hw2 p ltac:(by eexists)) as Hin. rewrite G2 in Hin. cbn in Hin.
    by rewrite pages_of_nil, app_nil_r in Hin.
  - exists a'. split; [done|]. destruct (Hsame G2) as (_ & G3 & S3 & F3). split.
    + unfold closed. rewrite G3, S3, F3. by rewrite <-G2, <-S2.
    + change (swa_wf a' (disown (owned ++ l) l) π2) in Hw'. rewrite disown_app in Hw' by done. split; [done|]. rewrite M3. cbn. by rewrite M2.
Qed.
