(* ===== verification/SwaGrow.v ===== *)
(** * Allocation in the hybrid allocator

    [alloc], [alloc_extend], [alloc_extend_swa_tail] and [alloc_decode] keep the
    invariant: new full pages are linked to new sliding-window pages, page by page
    and offset by offset. *)

From S2P Require Import Prelude Allocator AllocKernels BatchAlloc SwaAlloc SwaInv.
Import Allocator.

(** ** New links *)

Fixpoint link (π : gmap Z Z) (F G : list Z) : gmap Z Z :=
  match F, G with p :: F, q :: G => <[p := q]> (link π F G) | _, _ => π end.

Lemma lookup_link_ne π F G p : p ∉ F → link π F G !! p = π !! p.
Proof.
  revert G. induction F as [|x F IH]; intros [|y G] Hp; try done. apply not_elem_of_cons in Hp as [Hne Hp].
  cbn. rewrite lookup_insert_ne by done. by apply IH.
Qed.

Lemma lookup_link π F G k p q : NoDup F → F !! k = Some p → G !! k = Some q → link π F G !! p = Some q.
Proof.
  intros Hnd. revert G k. induction Hnd as [|x F Hx _ IH]; intros [|y G] [|k] Hp Hq; try done; cbn in *.
  - injection Hp as ->. injection Hq as ->. apply lookup_insert_eq.
  - rewrite lookup_insert_ne; [by apply (IH G k)|]. intros ->. apply Hx. by eapply list_elem_of_lookup_2.
Qed.

Lemma link_Some π F G p : is_Some (link π F G !! p) → p ∈ F ∨ is_Some (π !! p).
Proof.
  destruct (decide (p ∈ F)); [by left|]. rewrite lookup_link_ne by done. by right.
Qed.

Lemma images_link π F G :
  NoDup F → length F = length G → (∀ p, p ∈ F → π !! p = None) → images (link π F G) ≡ₚ G ++ images π.
Proof.
  intros Hnd. revert G. induction Hnd as [|x F Hx _ IH]; intros [|y G] Hl Hn; try done.
  cbn [link app]. rewrite <-(IH G) by (try (by injection Hl); intros; apply Hn; by right).
  unfold images. rewrite map_to_list_insert; [done|]. rewrite lookup_link_ne by done. apply Hn. by left.
Qed.

(** A full slot and its sliding-window slot. *)
Definition paired (ps : Z) (π : gmap Z Z) (x y : Z) : Prop :=
  0 ≤ x ∧ π !! (x / ps) = Some (y / ps) ∧ x mod ps = y mod ps.

Section linked.
Context (a : SWA) (owned : list Z) (π : gmap Z Z) (Hw : swa_wf a owned π).
Local Abbreviation ps := (swa_page_size a).

(** Free pages are not linked. *)
Lemma held_unlinked p : p ∈ held (full_attn_allocator a) → π !! p = None.
Proof.
  intros Hp. destruct (π !! p) eqn:E; [|done]. exfalso. pose proof (sw_dom _ _ _ Hw p ltac:(by eexists)) as Hd.
  pose proof (owned_NoDup a owned π Hw) as Hno. unfold pending_full in Hno.
  apply NoDup_app in Hno as (_ & Hn2 & Hno). apply NoDup_app in Hno as (_ & Hn3 & _).
  apply elem_of_app in Hd as [Hd|Hd].
  - apply (Hn2 p Hd). rewrite elem_of_app. by left.
  - apply (Hn3 p Hp). rewrite elem_of_app. by left.
Qed.

Lemma held_range p : p ∈ held (full_attn_allocator a) → 1 ≤ p ≤ last_page ps (full_attn_allocator a).
Proof.
  intros Hp. assert (p ∈ zrange 1 (last_page ps (full_attn_allocator a) + 1)) as H%elem_of_zrange; [|lia].
  rewrite <-(sw_owned _ _ _ Hw), !elem_of_app. right. by left.
Qed.

Context (f s : Alloc) (newF F G fulls swas t : list Z).
Hypotheses (Hf : sub_wf ps f) (Hs : sub_wf ps s).
Hypotheses (Ef : same_pool (full_attn_allocator a) f) (Es : same_pool (swa_attn_allocator a) s).
Hypotheses (HPf : newF ++ held f ≡ₚ held (full_attn_allocator a)) (HPs : G ++ held s ≡ₚ held (swa_attn_allocator a)).
Hypotheses (HF : F ⊆ newF) (HFn : NoDup F) (HFS : length F = length G).
Hypothesis (Hpair : Forall2 (paired ps (link π F G)) fulls swas).
Hypothesis (Hcover : ∀ p, p ∈ F → ∃ x, x ∈ fulls ∧ x / ps = p).
Hypothesis (Hlen : length t = length (full_to_swa_index_mapping a)).
Hypothesis (Hset : ∀ k x y, fulls !! k = Some x → swas !! k = Some y → t !! Z.to_nat x = Some y).
Hypothesis (Hkeep : ∀ k, Z.of_nat k ∉ fulls → t !! k = full_to_swa_index_mapping a !! k).

Lemma new_unlinked p : p ∈ F → π !! p = None.
Proof. intros Hp%HF. apply held_unlinked. rewrite <-HPf. apply elem_of_app. by left. Qed.

Lemma linked_mono p q : π !! p = Some q → link π F G !! p = Some q.
Proof. intros Hp. rewrite lookup_link_ne; [done|]. intros Hin%new_unlinked. congruence. Qed.

Lemma linked_images : images (link π F G) ++ held s ++ pending_swa a ≡ₚ images π ++ held (swa_attn_allocator a) ++ pending_swa a.
Proof.
  rewrite (images_link π F G HFn HFS) by apply new_unlinked. rewrite <-HPs. solve_Permutation.
Qed.

Lemma linked_positive p q : link π F G !! p = Some q → 1 ≤ q.
Proof.
  intros Hp. assert (q ∈ zrange 1 (last_page ps (swa_attn_allocator a) + 1)) as H%elem_of_zrange; [|lia].
  rewrite <-(sw_images _ _ _ Hw), <-linked_images. apply elem_of_app. left. apply elem_of_images. by exists p.
Qed.

Lemma paired_entry x : x ∈ fulls →
  0 ≤ x ∧ ∃ q, link π F G !! (x / ps) = Some q ∧ t !! Z.to_nat x = Some (q * ps + x mod ps) ∧ 0 < q * ps + x mod ps.
Proof.
  intros [k Hk]%list_elem_of_lookup. destruct (Forall2_lookup_l _ _ _ k x Hpair Hk) as (y & Hy & Hx & Hq & Hm).
  pose proof (sw_ps _ _ _ Hw) as Hps. pose proof (linked_positive _ _ Hq). pose proof (Z.mod_pos_bound x ps Hps).
  split; [done|]. exists (y / ps). rewrite (Hset k x y Hk Hy). split; [done|]. split; [f_equal|nia].
  rewrite Hm. pose proof (Z.div_mod y ps). lia.
Qed.

Lemma swa_wf_linked : last t = Some (-1) →
  swa_wf (set_mapping (set_swa (set_full a f) s) t) (owned ++ newF) (link π F G).
Proof.
  intros Hlast. destruct Ef as [Ef1 _], Es as [Es1 _]. pose proof linked_images as HI.
  destruct Hw as [W1 W2 W3 W4 W5 W6 W7 W8 W9 W10 W11].
  constructor; cbn; unfold last_page in *; rewrite ?Ef1, ?Es1; try done.
  - unfold zlen in *. by rewrite Hlen.
  - rewrite <-W7, <-HPf. unfold pending_full. cbn. solve_Permutation.
  - rewrite <-W8. exact HI.
  - intros x Hx. destruct (decide (x ∈ fulls)) as [Hin|Hin].
    + destruct (paired_entry x Hin) as (_ & q & Hq & Ht & _). eexists. split; [exact Ht|]. right. by exists q.
    + destruct (W9 x Hx) as (v & Hv & Hc). exists v. rewrite Hkeep by (by rewrite Z2Nat.id by lia). split; [done|].
      destruct Hc as [?|(q & Hq & ?)]; [by left|]. right. exists q. split; [by apply linked_mono|done].
  - intros p q Hp. destruct (decide (p ∈ F)) as [Hin|Hin].
    + destruct (Hcover p Hin) as (x & Hx & Hxp). destruct (paired_entry x Hx) as (Hx0 & q' & _ & Ht & Hpos).
      exists x. eexists. split_and!; try done. lia.
    + rewrite lookup_link_ne in Hp by done. destruct (W10 p q Hp) as (x & v & Hx & Hxp & Hv & Hv0).
      destruct (decide (x ∈ fulls)) as [Hxf|Hxf].
      * destruct (paired_entry x Hxf) as (_ & q' & _ & Ht & Hpos). exists x. eexists. split_and!; try done. lia.
      * exists x, v. split_and!; try done. by rewrite Hkeep by (by rewrite Z2Nat.id).
  - intros p [Hp|Hp]%link_Some.
    + rewrite !elem_of_app. left. right. by apply HF.
    + specialize (W11 p Hp). revert W11. rewrite !elem_of_app. tauto.
Qed.
End linked.

(** ** Writing the new links into the table *)

Definition same_groups (a a' : SWA) : Prop :=
  swa_page_size a' = swa_page_size a ∧ swa_group a' = swa_group a ∧
  swa_free_group a' = swa_free_group a ∧ full_free_group a' = full_free_group a.

(** The new slots [fulls] have sliding-window slots in the table of [a]. *)
Definition in_window (a : SWA) (fulls : list Z) : Prop :=
  Forall (λ x, ∃ v, full_to_swa_index_mapping a !! Z.to_nat x = Some v ∧ 0 < v) fulls.

Lemma link_step a owned π f s newF F G fulls swas :
  swa_wf a owned π → sub_wf (swa_page_size a) f → sub_wf (swa_page_size a) s →
  same_pool (full_attn_allocator a) f → same_pool (swa_attn_allocator a) s →
  newF ++ held f ≡ₚ held (full_attn_allocator a) → G ++ held s ≡ₚ held (swa_attn_allocator a) →
  F ⊆ newF → NoDup F → length F = length G → NoDup fulls →
  Forall2 (paired (swa_page_size a) (link π F G)) fulls swas →
  (∀ p, p ∈ F → ∃ x, x ∈ fulls ∧ x / swa_page_size a = p) →
  ∃ t, tensor_set (full_to_swa_index_mapping a) fulls swas = Ok t ∧
    swa_wf (set_mapping (set_swa (set_full a f) s) t) (owned ++ newF) (link π F G) ∧
    in_window (set_mapping (set_swa (set_full a f) s) t) fulls ∧
    (∀ k, Z.of_nat k ∉ fulls → t !! k = full_to_swa_index_mapping a !! k).
Proof.
  intros Hw Hf Hs Ef Es HPf HPs HF HFn HFG Hnd Hpair Hcover.
  pose proof (sw_ps _ _ _ Hw) as Hps. pose proof (sw_len _ _ _ Hw) as Hlen.
  assert (Forall (λ x, 0 ≤ x < (last_page (swa_page_size a) (full_attn_allocator a) + 1) * swa_page_size a) fulls) as Hr.
  { apply Forall_forall. intros x [k Hk]%list_elem_of_lookup.
    destruct (Forall2_lookup_l _ _ _ k x Hpair Hk) as (y & _ & Hx & Hq & _).
    apply (page_range a owned π Hw x _ eq_refl). destruct (link_Some π F G (x / swa_page_size a)) as [Hin|Hin]; [by eexists|..].
    - apply (held_range a owned π Hw). rewrite <-HPf. apply elem_of_app. left. by apply HF.
    - apply (owned_range a owned π Hw), (sw_dom _ _ _ Hw), Hin. }
  pose proof (Z.mul_div_le (size (full_attn_allocator a)) (swa_page_size a) Hps) as Hmul.
  destruct (tensor_set_spec (full_to_swa_index_mapping a) fulls swas) as (t & -> & Hl & Hset & Hkeep).
  { done. } { by apply (Forall2_length _ _ _ Hpair). }
  { eapply Forall_impl; [exact Hr|]. intros x. apply (in_table a owned π Hw). }
  exists t. split; [done|]. split; [|split; [|done]].
  - eapply (swa_wf_linked a owned π Hw f s newF F G fulls swas t); try done.
    rewrite last_lookup, Hl, Hkeep, <-last_lookup by
      (intros Hin; eapply Forall_forall in Hr; [|exact Hin]; unfold last_page, zlen in *; nia).
    apply (sw_minus _ _ _ Hw).
  - apply Forall_forall. intros x Hx.
    destruct (paired_entry a owned π Hw f s newF F G fulls swas t HPf HPs HF HFn HFG Hpair Hl Hset x Hx) as (_ & q & _ & Ht & Hpos).
    by eexists.
Qed.

Lemma set_mapping_ok a fulls swas t :
  tensor_set (full_to_swa_index_mapping a) fulls swas = Ok t → length fulls = length swas →
  Swa.set_full_to_swa_mapping fulls swas a = Ok (set_mapping a t).
Proof.
  intros Ht Hl. unfold Swa.set_full_to_swa_mapping. destruct (Z.eqb_spec (zlen fulls) 0) as [Hz%zlen_0|].
  - rewrite Hz in Ht. injection Ht as <-. by destruct a.
  - assert (zlen fulls = zlen swas) as -> by (unfold zlen; lia). rewrite Z.eqb_refl. cbn [negb]. by rewrite Ht.
Qed.

(** ** [alloc], for pages of one slot *)

Lemma token_alloc_spec a n :
  sub_wf 1 a → 0 ≤ n ≤ zlen (held a) →
  ∃ out a', Token.alloc n a = (Some out, a') ∧ sub_wf 1 a' ∧ same_pool a a' ∧ zlen out = n ∧ out ++ held a' ≡ₚ held a.
Proof.
  intros [Hwf Hp] Hn. unfold Token.alloc. destruct (merge_if_needed a n Hwf ltac:(lia)) as (Hwf1 & Hp1 & Hd1 & HP1 & Hfull).
  assert (size (if need_sort a && (n >? zlen (free_pages a)) then Base.merge_and_sort_free a else a) = size a) as Hs1.
  { unfold Base.merge_and_sort_free. repeat case_match; done. }
  set (a1 := if need_sort a && _ then _ else _) in *. rewrite !quiet_pool in HP1 by done. fold (held a1) (held a) in HP1.
  unfold held in Hn. rewrite zlen_app in Hn. destruct (Z.gtb_spec n (zlen (free_pages a1))).
  { specialize (Hfull ltac:(lia)). lia. }
  eexists _, _. split; [done|]. split; [split; [done|cbn; congruence]|]. split; [done|]. rewrite zlen_slice_to by lia. split; [lia|].
  rewrite <-HP1. unfold held. cbn [set_free_pages free_pages release_pages]. by rewrite app_assoc, slice_to_from by lia.
Qed.

Lemma alloc_spec a owned π n :
  swa_wf a owned π → swa_page_size a = 1 → 0 ≤ n →
  ∃ r a', Swa.alloc n a = Ok (r, a') ∧
    match r with
    | None => a' = a ∧ Swa.available_size a < n
    | Some out => zlen out = n ∧ (∃ π', swa_wf a' (owned ++ out) π') ∧ in_window a' out ∧ same_groups a a'
    end.
Proof.
  intros Hw E Hn. unfold Swa.alloc, Swa.available_size. rewrite E. cbn [Z.eqb negb Pos.eqb].
  destruct (Z.gtb_spec n (Swa.full_available_size a)) as [|H1]; [exists None, a; split_and!; [done|done|lia]|].
  destruct (Z.gtb_spec n (Swa.swa_available_size a)) as [|H2]; [exists None, a; split_and!; [done|done|lia]|].
  unfold Swa.full_available_size, Swa.swa_available_size in *. rewrite !sub_available_eq, E in H1, H2 by apply Hw.
  pose proof (sw_full _ _ _ Hw) as Hf. pose proof (sw_swa _ _ _ Hw) as Hs. rewrite E in Hf, Hs.
  destruct (token_alloc_spec (full_attn_allocator a) n Hf ltac:(lia)) as (out & f & -> & Hf' & Ef & Hlf & HPf).
  destruct (token_alloc_spec (swa_attn_allocator a) n Hs ltac:(lia)) as (sout & s & -> & Hs' & Es & Hls & HPs).
  cbn [mbind res_bind Swa.assert_some].
  assert (NoDup out) as Hnd.
  { pose proof (owned_NoDup a owned π Hw) as Hno. rewrite <-HPf, !app_assoc in Hno.
    apply NoDup_app in Hno as (Hno & _ & _). rewrite <-app_assoc in Hno.
    apply NoDup_app in Hno as (_ & _ & Hno). by apply NoDup_app in Hno as (? & _ & _). }
  assert (length out = length sout) as Hl by (unfold zlen in *; lia).
  destruct (link_step a owned π f s out out sout out sout) as (t & Ht & Hw' & Hin & _); rewrite ?E; try done.
  - apply Forall2_same_length_lookup. split; [done|]. intros k x y Hx Hy. unfold paired. rewrite !Z.div_1_r, !Z.mod_1_r.
    split; [|split; [by apply (lookup_link π out sout k)|done]].
    assert (x ∈ held (full_attn_allocator a)) as Hh by (rewrite <-HPf; apply elem_of_app; left; by eapply list_elem_of_lookup_2).
    apply (held_range a owned π Hw) in Hh. lia.
  - intros p Hp. exists p. by rewrite Z.div_1_r.
  - rewrite (set_mapping_ok _ out sout t) by done. cbn [mbind res_bind]. eexists _, _. split; [done|].
    split; [done|]. split; [by eexists|]. by split_and!.
Qed.

(** ** The sliding-window row of a request *)

(** The last page of a row that is not empty. *)
Lemma last_slot_page ps r :
  0 < ps → ereq_ok ps r → e_row r ≠ [] →
  ∃ p, e_pages r = removelast (e_pages r) ++ [p] ∧ row_last (e_row r) = p * ps + (zlen (e_row r) - 1) mod ps ∧
    zlen (e_pages r) = (zlen (e_row r) - 1) / ps + 1.
Proof.
  intros Hps (HR & HP & _) Hne. destruct (last (e_row r)) as [x|] eqn:Hx; [|by apply last_None in Hx].
  unfold row_last. rewrite Hx. cbn [default]. rewrite last_lookup in Hx. pose proof (lookup_lt_Some _ _ _ Hx) as Hlt.
  destruct (HR _ _ Hx) as (p & Hp & ->). replace (Z.of_nat (pred (length (e_row r)))) with (zlen (e_row r) - 1) in * by (unfold zlen; lia).
  assert (zlen (e_pages r) = (zlen (e_row r) - 1) / ps + 1) as Hl.
  { rewrite HP. unfold npages. replace (zlen (e_row r) + ps - 1) with (zlen (e_row r) - 1 + 1 * ps) by lia. by rewrite Z.div_add by lia. }
  exists p. split; [|done]. assert (0 ≤ (zlen (e_row r) - 1) / ps) by (apply Z.div_pos; unfold zlen in *; lia).
  assert (last (e_pages r) = Some p) as Hlast.
  { rewrite last_lookup, <-Hp. f_equal. unfold zlen in *. lia. }
  destruct (exists_last (l := e_pages r)) as (l & q & E). { intros E. by rewrite E in Hlast. }
  rewrite E, last_snoc in Hlast. injection Hlast as ->. by rewrite E, removelast_last.
Qed.

Section view.
Context (a : SWA) (owned : list Z) (π : gmap Z Z) (Hw : swa_wf a owned π).
Local Abbreviation ps := (swa_page_size a).

(** The last slot of the row is in the window: its entry is not 0. *)
Definition last_in_window (r : ereq) : Prop :=
  e_row r ≠ [] → row_last (e_row r) / ps ∈ owned ∧
    ∃ v, full_to_swa_index_mapping a !! Z.to_nat (row_last (e_row r)) = Some v ∧ v ≠ 0.

(** The row as the sliding-window pool sees it; only its last page matters. *)
Definition swa_pages (r : ereq) : list Z :=
  match e_row r with
  | [] => []
  | _ => replicate (length (e_pages r) - 1) 0 ++ [default 0 (π !! (row_last (e_row r) / ps))]
  end.
Definition swa_req (r : ereq) : ereq :=
  mkEReq (swa_pages r) (take (length (e_row r)) (Paged.page_slots ps (swa_pages r))) (e_seq r).

Context (r : ereq) (Hr : ereq_ok ps r) (Hlast : last_in_window r).

Lemma empty_row : e_row r = [] → e_pages r = [].
Proof.
  intros E. destruct Hr as (_ & HP & _). rewrite E in HP. apply zlen_0. rewrite HP. pose proof (sw_ps _ _ _ Hw).
  unfold npages. apply Z.div_small. change (zlen (@nil Z)) with 0. lia.
Qed.

Lemma length_swa_pages : length (swa_pages r) = length (e_pages r).
Proof.
  pose proof empty_row as He. unfold swa_pages. destruct (e_row r) as [|x l] eqn:E; [by rewrite He|].
  destruct (last_slot_page ps r (sw_ps _ _ _ Hw) Hr) as (p & Hp & _); [by rewrite E|].
  apply (f_equal length) in Hp. rewrite length_app in Hp |- *. rewrite length_replicate. cbn in *. lia.
Qed.

Lemma length_swa_row : length (e_row (swa_req r)) = length (e_row r).
Proof.
  pose proof (sw_ps _ _ _ Hw) as Hps. cbn [swa_req e_row]. rewrite length_take, length_page_slots by done.
  rewrite length_swa_pages. destruct Hr as (HR & _ & _). pose proof (row_layout_length ps Hps _ _ HR). unfold zlen in *. lia.
Qed.

(** The linked page of the last slot. *)
Lemma last_linked : e_row r ≠ [] → ∃ p q, e_pages r = removelast (e_pages r) ++ [p] ∧ π !! p = Some q ∧
  swa_pages r = replicate (length (e_pages r) - 1) 0 ++ [q] ∧
  full_to_swa_index_mapping a !! Z.to_nat (row_last (e_row r)) = Some (q * ps + (zlen (e_row r) - 1) mod ps) ∧
  0 ≤ row_last (e_row r).
Proof.
  intros Hne. pose proof (sw_ps _ _ _ Hw) as Hps. destruct (last_slot_page ps r Hps Hr Hne) as (p & Hp & Hx & _).
  destruct (Hlast Hne) as (Hin & v & Hv & Hv0). pose proof (Z.mod_pos_bound (zlen (e_row r) - 1) ps Hps).
  assert (row_last (e_row r) / ps = p) as Hd by (rewrite Hx, Z.div_add_l, Z.div_small by lia; lia).
  assert (row_last (e_row r) mod ps = (zlen (e_row r) - 1) mod ps) as Hm.
  { rewrite Hx, Z.add_comm, Z.mod_add, Z.mod_mod by lia. done. }
  pose proof (page_range a owned π Hw _ _ Hd) as Hrange.
  destruct (sw_entry _ _ _ Hw (row_last (e_row r))) as (v' & Hv' & Hc).
  { apply Hrange, (owned_range a owned π Hw), elem_of_app. left. by rewrite <-Hd. }
  rewrite Hv in Hv'. injection Hv' as <-. destruct Hc as [?|(q & Hq & Hc)]; [done|]. exists p, q. rewrite <-Hd, Hq, Hv, Hc, Hm.
  split; [by rewrite Hd|]. split; [done|]. split; [unfold swa_pages; destruct (e_row r); [done|]; by rewrite Hq|]. split; [done|].
  apply Hrange, (owned_range a owned π Hw), elem_of_app. left. by rewrite <-Hd.
Qed.

Lemma swa_req_ok : ereq_ok ps (swa_req r).
Proof.
  pose proof (sw_ps _ _ _ Hw) as Hps. pose proof length_swa_row as Hl. pose proof length_swa_pages as Hp. destruct Hr as (HR & HP & Hs).
  unfold ereq_ok. cbn [swa_req e_pages e_row e_seq] in *. unfold zlen in *. rewrite Hp, Hl. split; [|done].
  intros i x Hx. apply lookup_take_Some in Hx as [Hx _]. by apply lookup_page_slots.
Qed.

Lemma swa_last : py_get (full_to_swa_index_mapping a) (row_last (e_row r)) = Ok (row_last (e_row (swa_req r))).
Proof.
  destruct (decide (e_row r = [])) as [E|E].
  - unfold swa_req, swa_pages. rewrite E. cbn [e_row take length]. unfold row_last. cbn.
    pose proof (sw_minus _ _ _ Hw) as Hm. pose proof (sw_len _ _ _ Hw) as Hlen. pose proof (sw_ps _ _ _ Hw). pose proof (sw_size _ _ _ Hw).
    rewrite last_lookup in Hm. unfold py_get. change (-1 <? 0) with true. cbv iota zeta.
    destruct (Z.ltb_spec (-1 + zlen (full_to_swa_index_mapping a)) 0); [lia|].
    replace (Z.to_nat (-1 + zlen (full_to_swa_index_mapping a))) with (pred (length (full_to_swa_index_mapping a)))
      by (unfold zlen; lia). by rewrite Hm.
  - destruct (last_linked E) as (p & q & Hp & Hq & Hsp & Hm & Hpos). rewrite (proj2 (py_get_lookup _ _ _ Hpos) Hm). f_equal.
    pose proof (sw_ps _ _ _ Hw) as Hps. destruct (last_slot_page ps (swa_req r) Hps swa_req_ok) as (q' & Hq' & -> & _).
    { intros E'. apply E, length_zero_iff_nil. by rewrite <-length_swa_row, E'. }
    cbn [swa_req e_pages] in Hq'. rewrite Hsp, removelast_last in Hq'. apply app_inv_head in Hq'. injection Hq' as <-.
    unfold zlen. by rewrite length_swa_row.
Qed.

(** From the open page on, the pages of the two rows are linked. *)
Lemma open_linked (i : nat) p :
  zlen (e_row r) / ps ≤ Z.of_nat i → e_pages r !! i = Some p → ∃ q, swa_pages r !! i = Some q ∧ π !! p = Some q.
Proof.
  intros Hi Hp. pose proof (sw_ps _ _ _ Hw) as Hps. pose proof (lookup_lt_Some _ _ _ Hp) as Hlt.
  destruct (decide (e_row r = [])) as [E|E]; [by rewrite empty_row in Hp|].
  destruct (last_linked E) as (p' & q & Hp' & Hq & Hsp & _). destruct (last_slot_page ps r Hps Hr E) as (_ & _ & _ & Hl).
  assert (i = length (e_pages r) - 1)%nat as Ei.
  { assert ((zlen (e_row r) - 1) / ps ≤ zlen (e_row r) / ps) by (apply Z.div_le_mono; lia). unfold zlen in *. lia. }
  assert (length (removelast (e_pages r)) = i) as Hlr.
  { apply (f_equal length) in Hp'. rewrite length_app in Hp'. cbn in Hp'. lia. }
  rewrite Hp', lookup_app_r, Hlr, Nat.sub_diag in Hp by lia. injection Hp as <-.
  exists q. rewrite Hsp, lookup_app_r by (rewrite length_replicate; lia). rewrite length_replicate.
  by replace (i - (length (e_pages r) - 1))%nat with 0%nat by lia.
Qed.

Lemma swa_open_pages : open_pages ps (swa_req r) = omap (π !!.) (open_pages ps r).
Proof.
  unfold open_pages. cbn [swa_req e_pages]. fold (swa_req r). assert (zlen (e_row (swa_req r)) = zlen (e_row r)) as ->
    by (unfold zlen; by rewrite length_swa_row).
  assert (0 ≤ zlen (e_row r) / ps) by (apply Z.div_pos; [apply zlen_nonneg|apply Hw]).
  set (k := Z.to_nat (zlen (e_row r) / ps)).
  assert (Forall2 (λ p q, π !! p = Some q) (drop k (e_pages r)) (drop k (swa_pages r))) as HF.
  { apply Forall2_same_length_lookup. split; [by rewrite !length_drop, length_swa_pages|]. intros i p q Hp Hq.
    rewrite lookup_drop in Hp, Hq. destruct (open_linked (k + i) p) as (q' & Hq' & Hπ); [unfold k; lia|done|]. congruence. }
  clearbody k. induction HF as [|p q l l' Hp _ IH]; [done|]. cbn. by rewrite Hp, IH.
Qed.
End view.

(** ** Growing both rows *)

Definition added (reqs reqs' : list ereq) : list (list Z) :=
  zip_with (λ r r', drop (length (e_pages r)) (e_pages r')) reqs reqs'.

Lemma added_pages ps reqs reqs' :
  Forall2 (grown ps) reqs reqs' → concat (e_pages <$> reqs') ≡ₚ concat (e_pages <$> reqs) ++ concat (added reqs reqs').
Proof.
  induction 1 as [|r r' l l' (_ & _ & _ & _ & [k Hk]) _ IH]; [done|]. unfold added in *. cbn [fmap list_fmap zip_with concat].
  rewrite IH, Hk, drop_app_length. solve_Permutation.
Qed.

Lemma fresh_split ps reqs reqs' :
  0 < ps → Forall (ereq_ok ps) reqs → Forall2 (grown ps) reqs reqs' →
  concat (zip_with (fresh_pages ps) reqs reqs') ≡ₚ concat (open_pages ps <$> reqs) ++ concat (added reqs reqs').
Proof.
  intros Hps Hok HF. revert Hok. induction HF as [|r r' l l' (_ & _ & _ & _ & [k Hk]) _ IH]; intros Hok; [done|].
  apply Forall_cons in Hok as [(HR & HP & _) Hok]. unfold added in *. cbn [fmap list_fmap zip_with concat].
  rewrite (IH Hok). unfold fresh_pages at 1, open_pages at 2. rewrite Hk, drop_app_length.
  rewrite drop_app_le; [solve_Permutation|]. pose proof (row_layout_length ps Hps _ _ HR).
  assert (zlen (e_row r) / ps ≤ zlen (e_pages r)) by (apply Z.div_le_upper_bound; lia). unfold zlen in *. lia.
Qed.

Lemma length_added ps r r' :
  ereq_ok ps r → grown ps r r' → zlen (drop (length (e_pages r)) (e_pages r')) = npages ps (e_seq r) - npages ps (zlen (e_row r)).
Proof.
  intros (_ & HP & _) ((_ & HP' & _) & _ & Hz & _ & [k Hk]). rewrite Hz in HP'. rewrite Hk in HP' |- *. rewrite drop_app_length, zlen_app in *. lia.
Qed.

Lemma concat_lookup_pair {A B} (L : list (list A)) (L' : list (list B)) j k l l' x y :
  Forall2 (λ l l', length l = length l') L L' → L !! j = Some l → L' !! j = Some l' →
  l !! k = Some x → l' !! k = Some y → ∃ n, concat L !! n = Some x ∧ concat L' !! n = Some y.
Proof.
  intros HF. revert j. induction HF as [|m m' L L' Hl _ IH]; intros [|j] Hj Hj' Hx Hy; try done; cbn in Hj, Hj'.
  - injection Hj as ->. injection Hj' as ->. exists k. cbn. split; by apply lookup_app_l_Some.
  - destruct (IH j Hj Hj' Hx Hy) as (n & Hn & Hn'). exists (length m + n)%nat. cbn.
    rewrite !lookup_app_r by lia. replace (length m + n - length m)%nat with n by lia.
    by replace (length m + n - length m')%nat with n by lia.
Qed.

Lemma Forall2_concat {A B} (P : A → B → Prop) L L' : Forall2 (Forall2 P) L L' → Forall2 P (concat L) (concat L').
Proof. induction 1; [constructor|]. by apply Forall2_app. Qed.

(** Every new page holds a new slot: its first one. *)
Lemma page_covered ps r r' p :
  0 < ps → ereq_ok ps r → grown ps r r' → p ∈ drop (length (e_pages r)) (e_pages r') →
  ∃ x, x ∈ drop (length (e_row r)) (e_row r') ∧ x / ps = p.
Proof.
  intros Hps (_ & HP & _) ((HR & HP' & _) & _ & Hz & _) [k Hk]%list_elem_of_lookup. rewrite lookup_drop in Hk.
  set (n := (length (e_pages r) + k)%nat) in *. pose proof (lookup_lt_Some _ _ _ Hk) as Hn. rewrite Hz in HP'.
  pose proof (npages_bounds ps Hps (zlen (e_row r))). pose proof (npages_bounds ps Hps (e_seq r)).
  assert (zlen (e_row r) ≤ Z.of_nat n * ps < e_seq r) as Hj by (unfold zlen in *; nia).
  destruct (lookup_lt_is_Some_2 (e_row r') (Z.to_nat (Z.of_nat n * ps))) as [x Hx]; [unfold zlen in *; lia|].
  exists x. split.
  - apply list_elem_of_lookup. exists (Z.to_nat (Z.of_nat n * ps) - length (e_row r))%nat. rewrite lookup_drop, <-Hx.
    f_equal. unfold zlen in *. lia.
  - destruct (HR _ _ Hx) as (p' & Hp' & ->). rewrite Z2Nat.id in * by nia. rewrite Z.div_mul, Nat2Z.id in Hp' by lia.
    rewrite Z.mod_mul, Z.add_0_r, Z.div_mul by lia. congruence.
Qed.

Lemma new_covered ps reqs reqs' p :
  0 < ps → Forall (ereq_ok ps) reqs → Forall2 (grown ps) reqs reqs' → p ∈ concat (added reqs reqs') →
  ∃ x, x ∈ gained reqs reqs' ∧ x / ps = p.
Proof.
  intros Hps Hok HF. revert Hok. induction HF as [|r r' l l' Hg _ IH]; intros Hok Hp; [by apply elem_of_nil in Hp|].
  apply Forall_cons in Hok as [Hr Hok]. unfold added, gained in *. cbn [zip_with concat] in *.
  apply elem_of_app in Hp as [Hp|Hp].
  - destruct (page_covered ps r r' p Hps Hr Hg Hp) as (x & Hx & ?). exists x. rewrite elem_of_app. auto.
  - destruct (IH Hok Hp) as (x & Hx & ?). exists x. rewrite elem_of_app. auto.
Qed.

Section grow2.
Context (a : SWA) (owned : list Z) (π : gmap Z Z) (Hw : swa_wf a owned π).
Local Abbreviation ps := (swa_page_size a).
Local Abbreviation view := (swa_req a π).

(** One request. *)
Lemma row_paired r r' sr' π' :
  ereq_ok ps r → last_in_window a owned r → grown ps r r' → grown ps (view r) sr' →
  (∀ p q, π !! p = Some q → π' !! p = Some q) → (∀ p q, π' !! p = Some q → 0 ≤ p) →
  (∀ k p q, drop (length (e_pages r)) (e_pages r') !! k = Some p →
     drop (length (e_pages r)) (e_pages sr') !! k = Some q → π' !! p = Some q) →
  Forall2 (paired ps π') (drop (length (e_row r)) (e_row r')) (drop (length (e_row r)) (e_row sr')).
Proof.
  intros Hr Hlast ((HR & _) & Hs & Hz & _ & [k Hk]) ((HR' & _) & Hs' & Hz' & _ & [k' Hk']) Hmono Hpos Hnew.
  pose proof (sw_ps _ _ _ Hw) as Hps. pose proof (length_swa_pages a owned π Hw r Hr) as Hlp. cbn [swa_req e_pages e_seq] in Hk', Hz', Hs'.
  apply Forall2_same_length_lookup. split; [rewrite !length_drop; unfold zlen in *; lia|]. intros i x y Hx Hy.
  rewrite lookup_drop in Hx, Hy. set (j := (length (e_row r) + i)%nat) in *.
  destruct (HR j x Hx) as (p & Hp & ->), (HR' j y Hy) as (q & Hq & ->). set (n := Z.to_nat (Z.of_nat j / ps)) in *.
  pose proof (Z.mod_pos_bound (Z.of_nat j) ps Hps). assert (0 ≤ Z.of_nat j / ps) by (apply Z.div_pos; lia).
  assert (π' !! p = Some q) as Hπ.
  { destruct (Nat.lt_ge_cases n (length (e_pages r))) as [Hlt|Hge].
    - rewrite Hk, lookup_app_l in Hp by done. rewrite Hk', lookup_app_l in Hq by lia.
      destruct (open_linked a owned π Hw r Hr Hlast n p) as (q' & Hq' & Hπ); [|done|].
      + unfold n. rewrite Z2Nat.id by done. apply Z.div_le_mono; [done|]. unfold j, zlen. lia.
      + apply Hmono. congruence.
    - apply (Hnew (n - length (e_pages r))%nat); rewrite lookup_drop;
        by replace (length (e_pages r) + (n - length (e_pages r)))%nat with n by lia. }
  pose proof (Hpos p q Hπ). unfold paired.
  rewrite !Z.div_add_l, (Z.div_small (Z.of_nat j mod ps)), !Z.add_0_r by lia.
  rewrite !(Z.add_comm (_ * ps)), !Z.mod_add by lia. split_and!; [nia|done|done].
Qed.

Context (reqs reqs' sreqs' : list ereq).
Hypotheses (Hok : Forall (ereq_ok ps) reqs) (Hlast : Forall (last_in_window a owned) reqs).
Hypotheses (HF : Forall2 (grown ps) reqs reqs') (HS : Forall2 (grown ps) (view <$> reqs) sreqs').
Local Abbreviation F := (concat (added reqs reqs')).
Local Abbreviation G := (concat (added (view <$> reqs) sreqs')).

Lemma added_lengths : Forall2 (λ l l', length l = length l') (added reqs reqs') (added (view <$> reqs) sreqs').
Proof.
  apply Forall2_same_length_lookup. split.
  - unfold added. rewrite !length_zip_with, length_fmap, <-(Forall2_length _ _ _ HF), <-(Forall2_length _ _ _ HS), length_fmap. lia.
  - intros j l l' Hl Hl'. unfold added in *. rewrite lookup_zip_with_Some in Hl, Hl'.
    destruct Hl as (r & r' & -> & Hr & Hr'). destruct Hl' as (sr & sr' & -> & Hsr & Hsr').
    rewrite list_lookup_fmap, Hr in Hsr. injection Hsr as <-.
    pose proof (Forall_lookup_1 _ _ _ _ Hok Hr) as Hrok.
    pose proof (length_added ps r r' Hrok (Forall2_lookup_lr _ _ _ _ _ _ HF Hr Hr')) as E1.
    pose proof (length_added ps (view r) sr' (swa_req_ok a owned π Hw r Hrok)) as E2.
    specialize (E2 (Forall2_lookup_lr _ _ _ j _ _ HS ltac:(by rewrite list_lookup_fmap, Hr) Hsr')).
    assert (zlen (e_row (view r)) = zlen (e_row r)) as E3 by (unfold zlen; by rewrite (length_swa_row a owned π Hw r Hrok)).
    rewrite E3 in E2. unfold zlen in *. cbn [swa_req e_seq] in E2. lia.
Qed.

Lemma length_new : length F = length G.
Proof.
  pose proof added_lengths as H. induction H as [|l l' L L' Hl _ IH]; [done|]. cbn. rewrite !length_app. lia.
Qed.

Lemma rows_paired π' :
  NoDup F → π' = link π F G → (∀ p q, π !! p = Some q → π' !! p = Some q) → (∀ p q, π' !! p = Some q → 0 ≤ p) →
  Forall2 (paired ps π') (gained reqs reqs') (gained (view <$> reqs) sreqs').
Proof.
  intros Hnd -> Hmono Hpos. unfold gained. apply Forall2_concat, Forall2_same_length_lookup. split.
  - rewrite !length_zip_with, length_fmap, <-(Forall2_length _ _ _ HF), <-(Forall2_length _ _ _ HS), length_fmap. lia.
  - intros j l l' Hl Hl'. rewrite lookup_zip_with_Some in Hl, Hl'.
    destruct Hl as (r & r' & -> & Hr & Hr'). destruct Hl' as (sr & sr' & -> & Hsr & Hsr').
    rewrite list_lookup_fmap, Hr in Hsr. injection Hsr as <-. pose proof (Forall_lookup_1 _ _ _ _ Hok Hr) as Hrok.
    rewrite (length_swa_row a owned π Hw r Hrok). apply row_paired; try done.
    + exact (Forall_lookup_1 _ _ _ _ Hlast Hr).
    + exact (Forall2_lookup_lr _ _ _ _ _ _ HF Hr Hr').
    + apply (Forall2_lookup_lr _ _ _ j _ _ HS); [by rewrite list_lookup_fmap, Hr|done].
    + intros k p q Hp Hq.
      destruct (concat_lookup_pair (added reqs reqs') (added (view <$> reqs) sreqs') j k
        (drop (length (e_pages r)) (e_pages r')) (drop (length (e_pages r)) (e_pages sr')) p q added_lengths) as (n & Hn & Hn').
      * unfold added. rewrite lookup_zip_with_Some. by exists r, r'.
      * unfold added. rewrite lookup_zip_with_Some. exists (view r), sr'. split; [|by rewrite list_lookup_fmap, Hr].
        cbn [swa_req e_pages]. by rewrite (length_swa_pages a owned π Hw r Hrok).
      * exact Hp.
      * exact Hq.
      * by apply (lookup_link π _ _ n).
Qed.


(** Both pools have given their pages: the table links them. *)
Lemma grow_links f s :
  sub_wf ps f → sub_wf ps s → same_pool (full_attn_allocator a) f → same_pool (swa_attn_allocator a) s →
  F ++ held f ≡ₚ held (full_attn_allocator a) → G ++ held s ≡ₚ held (swa_attn_allocator a) →
  NoDup (concat (open_pages ps <$> reqs)) → concat (open_pages ps <$> reqs) ⊆ owned →
  ∃ t, tensor_set (full_to_swa_index_mapping a) (gained reqs reqs') (gained (view <$> reqs) sreqs') = Ok t ∧
    length (gained reqs reqs') = length (gained (view <$> reqs) sreqs') ∧
    swa_wf (set_mapping (set_swa (set_full a f) s) t) (owned ++ F) (link π F G) ∧
    in_window (set_mapping (set_swa (set_full a f) s) t) (gained reqs reqs').
Proof.
  intros Hf Hs Ef Es HPf HPs Hopen Howned. pose proof (sw_ps _ _ _ Hw) as Hps.
  pose proof (owned_NoDup a owned π Hw) as Hno. rewrite <-HPf in Hno. apply NoDup_app in Hno as (_ & Hn2 & Hno).
  rewrite <-app_assoc in Hno. apply NoDup_app in Hno as (HFn & _ & _).
  assert (∀ p, p ∈ F → p ∈ held (full_attn_allocator a)) as Hheld by (intros p Hp; rewrite <-HPf; apply elem_of_app; by left).
  assert (Forall2 (paired ps (link π F G)) (gained reqs reqs') (gained (view <$> reqs) sreqs')) as Hpair.
  { apply rows_paired; [done|done| |].
    - intros p q Hp. rewrite lookup_link_ne; [done|]. intros Hin%Hheld. rewrite (held_unlinked a owned π Hw p Hin) in Hp. done.
    - intros p q Hp. destruct (link_Some π F G p) as [Hin|Hin]; [by eexists|..].
      + apply Hheld, (held_range a owned π Hw) in Hin. lia.
      + apply (sw_dom _ _ _ Hw), (owned_range a owned π Hw) in Hin. lia. }
  destruct (link_step a owned π f s F F G (gained reqs reqs') (gained (view <$> reqs) sreqs')) as (t & Ht & Hw' & Hin & _);
    try done; [by apply length_new| |by intros p; apply new_covered|].
  - apply (gained_NoDup ps); [done|done|]. rewrite (fresh_split ps reqs reqs' Hps Hok HF). apply NoDup_app.
    split_and!; [done| |done]. intros p Hp%Howned HpF. apply (Hn2 p Hp). rewrite !elem_of_app. left. by left.
  - exists t. split_and!; try done. by apply (Forall2_length _ _ _ Hpair).
Qed.
End grow2.

(** ** [alloc_extend] and [alloc_decode] *)

Lemma added_count ps reqs reqs' :
  Forall (ereq_ok ps) reqs → Forall2 (grown ps) reqs reqs' →
  zlen (concat (added reqs reqs')) = batch_pages ps (prefix_lens reqs) (seq_lens reqs).
Proof.
  intros Hok HF. revert Hok. unfold added, batch_pages, prefix_lens, seq_lens.
  induction HF as [|r r' l l' Hg _ IH]; intros Hok; [done|]. apply Forall_cons in Hok as [(_ & Hn & _) Hok].
  destruct Hg as ((_ & Hn' & _) & _ & Hz & _ & Hpre%prefix_length). cbn [zip_with concat fmap list_fmap].
  rewrite zlen_app, (IH Hok). rewrite Hz in Hn'. rewrite <-Hn, <-Hn'. unfold zsum. cbn [foldr]. unfold zlen. rewrite length_drop. lia.
Qed.

Lemma extend_same_pool d pl plc sl slc ll n k a r a' :
  AllocKernels.alloc_extend d pl plc sl slc ll n k a = Ok (r, a') → same_pool a a'.
Proof.
  unfold AllocKernels.alloc_extend. destruct (_ && _); [done|]. cbv zeta.
  intros (out & _ & (_u & _ & (m & _ & Hr)%bind_Ok)%bind_Ok)%bind_Ok.
  unfold same_pool, Base.merge_and_sort_free in *. destruct (_ >? _); injection Hr as <- <-; cbn; repeat case_match; done.
Qed.

Lemma decode_same_pool d sl slc ll a r a' :
  AllocKernels.alloc_decode d sl slc ll a = Ok (r, a') → same_pool a a'.
Proof.
  unfold AllocKernels.alloc_decode. destruct (_ && _); [done|]. cbv zeta.
  intros (out & _ & (_u & _ & (m & _ & Hr)%bind_Ok)%bind_Ok)%bind_Ok.
  unfold same_pool, Base.merge_and_sort_free in *. destruct (_ >? _); injection Hr as <- <-; cbn; repeat case_match; done.
Qed.

Lemma extend_pages_given d pl sl ll n k a :
  get_num_new_pages sl (page_size a) (Some pl) false = Ok k →
  AllocKernels.alloc_extend d pl pl sl sl ll n (Some k) a = AllocKernels.alloc_extend d pl pl sl sl ll n None a.
Proof. intros Hk. unfold AllocKernels.alloc_extend. cbv zeta. by rewrite Hk. Qed.

Section extend.
Context (d : Device) `{!DeviceLaws d}.

(** One pool that has enough pages. *)
Definition pool_grown (ps : Z) (a : Alloc) (reqs : list ereq) (r : res (option (list Z) * Alloc)) : Prop :=
  ∃ reqs' a', r = Ok (Some (gained reqs reqs'), a') ∧ sub_wf ps a' ∧ same_pool a a' ∧
    Forall2 (grown ps) reqs reqs' ∧ concat (added reqs reqs') ++ held a' ≡ₚ held a.

Lemma pool_grown_intro ps a reqs need r a' :
  sub_wf ps a → need ≤ zlen (held a) → alloc_wf a' → page_size a' = page_size a → same_pool a a' →
  batch_result a reqs need r a' → pool_grown ps a reqs (Ok (r, a')).
Proof.
  intros [Hwf Hp] Hneed Hwf' Hp' Hsame Hres. unfold held in Hneed. rewrite zlen_app in Hneed.
  destruct r as [out|]; [|destruct Hres; lia]. destruct Hres as (reqs' & HF & -> & HP). rewrite Hp in HF.
  exists reqs', a'. split; [done|]. split; [split; [done|congruence]|]. split; [done|]. split; [done|].
  rewrite (added_pages ps _ _ HF), <-app_assoc in HP. apply Permutation_app_inv_l in HP. by rewrite !quiet_pool in HP.
Qed.

Lemma pool_extend ps a reqs :
  1 < ps → sub_wf ps a → Forall (ereq_ok ps) reqs → NoDup (concat (open_pages ps <$> reqs) ++ held a) →
  let need := batch_pages ps (prefix_lens reqs) (seq_lens reqs) in
  need ≤ zlen (held a) →
  pool_grown ps a reqs (AllocKernels.alloc_extend d (prefix_lens reqs) (prefix_lens reqs) (seq_lens reqs) (seq_lens reqs)
    (last_locs reqs) (batch_tokens (prefix_lens reqs) (seq_lens reqs)) (Some need) a).
Proof.
  intros H1 [Hwf Hp] Hok Hnd need Hneed. rewrite extend_pages_given by (rewrite Hp; done).
  destruct (alloc_extend_spec d _ a reqs Hwf) as (r & a' & Hrun & Hwf' & Hp' & Hres).
  - by rewrite Hp.
  - by rewrite Hp, quiet_pool.
  - right. rewrite Hp. unfold held in Hneed. by rewrite zlen_app in Hneed.
  - rewrite Hrun. rewrite Hp in Hres. apply (pool_grown_intro ps a reqs need); try done. by apply extend_same_pool in Hrun.
Qed.

Lemma pool_decode ps a reqs :
  1 < ps → sub_wf ps a → Forall (ereq_ok ps) reqs → Forall (λ r, e_seq r = zlen (e_row r) + 1) reqs →
  NoDup (concat (open_pages ps <$> reqs) ++ held a) →
  batch_pages ps (prefix_lens reqs) (seq_lens reqs) ≤ zlen (held a) →
  pool_grown ps a reqs (AllocKernels.alloc_decode d (seq_lens reqs) (seq_lens reqs) (last_locs reqs) a).
Proof.
  intros H1 [Hwf Hp] Hok Hone Hnd Hneed.
  destruct (alloc_decode_spec d _ a reqs Hwf) as (r & a' & Hrun & Hwf' & Hp' & Hres).
  - by rewrite Hp.
  - by rewrite Hp.
  - done.
  - by rewrite Hp, quiet_pool.
  - right. rewrite Hp. unfold held in Hneed. by rewrite zlen_app in Hneed.
  - rewrite Hrun. rewrite Hp in Hres.
    apply (pool_grown_intro ps a reqs (batch_pages ps (prefix_lens reqs) (seq_lens reqs))); try done. by apply decode_same_pool in Hrun.
Qed.

(** A batch of requests that own their open pages, with their last slots in the
    window. *)
Record batch_ready (a : SWA) (owned : list Z) (reqs : list ereq) : Prop := {
  br_ps : 1 < swa_page_size a;
  br_rows : Forall (ereq_ok (swa_page_size a)) reqs;
  br_last : Forall (last_in_window a owned) reqs;
  br_nodup : NoDup (concat (open_pages (swa_page_size a) <$> reqs));
  br_owned : concat (open_pages (swa_page_size a) <$> reqs) ⊆ owned;
}.

Definition need_pages (a : SWA) (reqs : list ereq) : Z :=
  batch_pages (swa_page_size a) (prefix_lens reqs) (seq_lens reqs).

Section batch.
Context (a : SWA) (owned : list Z) (π : gmap Z Z) (Hw : swa_wf a owned π) (reqs : list ereq) (Hb : batch_ready a owned reqs).
Local Abbreviation ps := (swa_page_size a).
Local Abbreviation view := (swa_req a π).

Lemma views : prefix_lens (view <$> reqs) = prefix_lens reqs ∧ seq_lens (view <$> reqs) = seq_lens reqs ∧
  Forall (ereq_ok ps) (view <$> reqs) ∧
  Swa.translate_loc_from_full_to_swa (last_locs reqs) a = Ok (last_locs (view <$> reqs)) ∧
  concat (open_pages ps <$> (view <$> reqs)) = omap (π !!.) (concat (open_pages ps <$> reqs)).
Proof.
  destruct Hb as [_ Hok Hl _ _]. clear Hb. unfold prefix_lens, seq_lens, last_locs, Swa.translate_loc_from_full_to_swa, tensor_get.
  induction Hok as [|r l Hr _ IH]; [done|]. apply Forall_cons in Hl as [Hlr Hl]. specialize (IH Hl) as (I1 & I2 & I3 & I4 & I5).
  cbn [fmap list_fmap concat]. split_and!.
  - rewrite I1. f_equal. unfold zlen. by rewrite (length_swa_row a owned π Hw r Hr).
  - by rewrite I2.
  - constructor; [by apply (swa_req_ok a owned)|done].
  - cbn [mapM]. rewrite (swa_last a owned π Hw r Hr Hlr). cbn [mbind res_bind]. by rewrite I4.
  - by rewrite (swa_open_pages a owned π Hw r Hr Hlr), I5, omap_app.
Qed.

Lemma full_ready : NoDup (concat (open_pages ps <$> reqs) ++ held (full_attn_allocator a)).
Proof.
  destruct Hb as [_ _ _ Hnd Hown]. pose proof (owned_NoDup a owned π Hw) as Hno. apply NoDup_app in Hno as (_ & Hn2 & Hn3).
  apply NoDup_app. split_and!; [done| |by apply NoDup_app in Hn3 as (? & _ & _)].
  intros p Hp%Hown Hp'. apply (Hn2 p Hp). rewrite elem_of_app. by left.
Qed.

Lemma swa_ready : NoDup (concat (open_pages ps <$> (view <$> reqs)) ++ held (swa_attn_allocator a)).
Proof.
  destruct views as (_ & _ & _ & _ & ->). destruct Hb as [_ _ _ Hnd _]. pose proof (images_NoDup a owned π Hw) as Hni.
  rewrite (images_unlink π _ Hnd) in Hni. eapply sublist_NoDup; [exact Hni|]. rewrite <-app_assoc.
  apply sublist_app; [done|]. apply sublist_inserts_l. by apply sublist_inserts_r.
Qed.

(** The outcome of a batch allocation. *)
Definition batch_grown (r : res (option (list Z) * SWA)) : Prop :=
  ∃ reqs' a', r = Ok (Some (gained reqs reqs'), a') ∧ Forall2 (grown ps) reqs reqs' ∧
    (∃ π', swa_wf a' (owned ++ concat (added reqs reqs')) π') ∧ in_window a' (gained reqs reqs') ∧ same_groups a a'.

Lemma both_grown rf rs :
  pool_grown ps (full_attn_allocator a) reqs rf → pool_grown ps (swa_attn_allocator a) (view <$> reqs) rs →
  ∃ f out s sout t, rf = Ok (Some out, f) ∧ rs = Ok (Some sout, s) ∧ length out = length sout ∧
    tensor_set (full_to_swa_index_mapping a) out sout = Ok t ∧
    batch_grown (Ok (Some out, set_mapping (set_swa (set_full a f) s) t)).
Proof.
  intros (reqs' & f & -> & Hf & Ef & HF & HPf) (sreqs' & s & -> & Hs & Es & HS & HPs).
  destruct (grow_links a owned π Hw reqs reqs' sreqs') with (f := f) (s := s) as (t & Ht & Hl & Hw' & Hin); try done; try apply Hb.
  exists f, (gained reqs reqs'), s, (gained (view <$> reqs) sreqs'), t. split_and!; try done.
  exists reqs'. eexists. split; [done|]. split; [done|]. split; [by eexists|]. by split_and!.
Qed.

Lemma available_pages :
  Swa.full_available_size a / ps = zlen (held (full_attn_allocator a)) ∧
  Swa.swa_available_size a / ps = zlen (held (swa_attn_allocator a)).
Proof.
  pose proof (sw_ps _ _ _ Hw). unfold Swa.full_available_size, Swa.swa_available_size.
  rewrite !sub_available_eq, !Z.div_mul by (apply Hw || lia). done.
Qed.

Definition enough : Prop :=
  need_pages a reqs ≤ zlen (held (full_attn_allocator a)) ∧ need_pages a reqs ≤ zlen (held (swa_attn_allocator a)).

(** [alloc_extend] gives the batch its slots, or says so and changes nothing. *)
Lemma extend_spec :
  (enough → batch_grown (Swa.alloc_extend d (prefix_lens reqs) (seq_lens reqs) (last_locs reqs)
     (batch_tokens (prefix_lens reqs) (seq_lens reqs)) a)) ∧
  (¬ enough → Swa.alloc_extend d (prefix_lens reqs) (seq_lens reqs) (last_locs reqs)
     (batch_tokens (prefix_lens reqs) (seq_lens reqs)) a = Ok (None, a)).
Proof.
  pose proof (br_ps _ _ _ Hb) as H1. unfold Swa.alloc_extend, Swa.new_pages_available. destruct available_pages as [-> ->].
  rewrite Z.gtb_ltb, (proj2 (Z.ltb_lt _ _)) by done. cbn [negb].
  change (get_num_new_pages (seq_lens reqs) ps (Some (prefix_lens reqs)) false) with (Ok (need_pages a reqs)). cbn [mbind res_bind].
  unfold enough. split.
  - intros [He Hs]. rewrite !(proj2 (Z.leb_le _ _)) by done. cbn [andb negb].
    destruct views as (V1 & V2 & V3 & -> & V5). cbn [mbind res_bind].
    pose proof (pool_extend ps (full_attn_allocator a) reqs H1 (sw_full _ _ _ Hw) (br_rows _ _ _ Hb) full_ready He) as Hf.
    pose proof (pool_extend ps (swa_attn_allocator a) (view <$> reqs) H1 (sw_swa _ _ _ Hw) V3 swa_ready) as Hsw.
    rewrite V1, V2 in Hsw. specialize (Hsw Hs). unfold need_pages.
    destruct (both_grown _ _ Hf Hsw) as (f & out & s & sout & t & -> & -> & Hl & Ht & Hg).
    cbn [mbind res_bind Swa.assert_some]. by rewrite (set_mapping_ok _ out sout t).
  - intros Hne. destruct (Z.leb_spec (need_pages a reqs) (zlen (held (full_attn_allocator a)))); [|done].
    destruct (Z.leb_spec (need_pages a reqs) (zlen (held (swa_attn_allocator a)))); [lia|done].
Qed.

Lemma views_one : Forall (λ r, e_seq r = zlen (e_row r) + 1) reqs → Forall (λ r, e_seq r = zlen (e_row r) + 1) (view <$> reqs).
Proof.
  intros Hone. apply Forall_fmap, Forall_forall. intros r Hr. unfold compose. cbn [swa_req e_seq].
  pose proof (proj1 (Forall_forall _ _) (br_rows _ _ _ Hb) r Hr) as Hrok.
  rewrite (proj1 (Forall_forall _ _) Hone r Hr). unfold zlen. by rewrite (length_swa_row a owned π Hw r Hrok).
Qed.

Lemma decode_spec :
  Forall (λ r, e_seq r = zlen (e_row r) + 1) reqs → enough →
  batch_grown (Swa.alloc_decode d (seq_lens reqs) (last_locs reqs) a).
Proof.
  intros Hone [He Hs]. pose proof (br_ps _ _ _ Hb) as H1. unfold Swa.alloc_decode.
  rewrite Z.gtb_ltb, (proj2 (Z.ltb_lt _ _)) by done. cbn [negb]. destruct views as (V1 & V2 & V3 & -> & V5). cbn [mbind res_bind].
  pose proof (pool_decode ps (full_attn_allocator a) reqs H1 (sw_full _ _ _ Hw) (br_rows _ _ _ Hb) Hone full_ready He) as Hf.
  pose proof (pool_decode ps (swa_attn_allocator a) (view <$> reqs) H1 (sw_swa _ _ _ Hw) V3) as Hsw.
  rewrite V1, V2 in Hsw.
  destruct (both_grown _ _ Hf (Hsw (views_one Hone) swa_ready Hs)) as (f & out & s & sout & t & -> & -> & Hl & Ht & Hg).
  cbn [mbind res_bind]. cbn [set_swa set_full full_to_swa_index_mapping]. by rewrite Ht.
Qed.

(** Only the full pool has enough pages. *)
Lemma decode_short :
  Forall (λ r, e_seq r = zlen (e_row r) + 1) reqs → debug_mode (swa_attn_allocator a) = false →
  zlen (held (swa_attn_allocator a)) < need_pages a reqs ≤ zlen (held (full_attn_allocator a)) →
  ∃ lost f s, Swa.alloc_decode d (seq_lens reqs) (last_locs reqs) a = Ok (None, set_swa (set_full a f) s) ∧
    zlen lost = need_pages a reqs ∧ lost ++ held f ≡ₚ held (full_attn_allocator a) ∧ held s ≡ₚ held (swa_attn_allocator a).
Proof.
  intros Hone Hdbg [Hs He]. pose proof (br_ps _ _ _ Hb) as H1. unfold Swa.alloc_decode.
  rewrite Z.gtb_ltb, (proj2 (Z.ltb_lt _ _)) by done. cbn [negb]. destruct views as (V1 & V2 & V3 & -> & V5). cbn [mbind res_bind].
  destruct (pool_decode ps (full_attn_allocator a) reqs H1 (sw_full _ _ _ Hw) (br_rows _ _ _ Hb) Hone full_ready He)
    as (reqs' & f & -> & _ & _ & HF & HPf). cbn [mbind res_bind].
  destruct (sw_swa _ _ _ Hw) as [Hwf Hp].
  destruct (alloc_decode_spec d _ (swa_attn_allocator a) (view <$> reqs) Hwf) as (r & s & Hrun & Hwf' & _ & Hres);
    rewrite ?Hp; try done; [by apply views_one|rewrite quiet_pool by done; apply swa_ready|by left|].
  rewrite V2 in Hrun. rewrite Hrun. cbn [mbind res_bind]. exists (concat (added reqs reqs')), f, s.
  rewrite (added_count ps reqs reqs') by (done || apply Hb). unfold need_pages in Hs. rewrite <-V1, <-V2 in Hs.
  destruct r as [out|].
  - destruct Hres as (sreqs' & HS & _ & HP). rewrite Hp in HS. rewrite (added_pages ps _ _ HS), <-app_assoc in HP.
    apply Permutation_app_inv_l in HP. assert (zlen (concat (added (view <$> reqs) sreqs')) ≤ zlen (held (swa_attn_allocator a))).
    { unfold held. rewrite <-(quiet_pool _ Hwf), <-HP, zlen_app. pose proof (zlen_nonneg (PagedPool.pool s)). lia. }
    rewrite (added_count ps _ _ V3 HS) in *. lia.
  - destruct Hres as [_ HP]. rewrite !quiet_pool in HP by done. done.
Qed.
End batch.

(** ** [alloc_extend_swa_tail] *)

Definition tail_req (tail : Z) : ereq := mkEReq [] [] tail.

Lemma tail_req_ok ps tail : 1 < ps → 0 ≤ tail → ereq_ok ps (tail_req tail).
Proof.
  intros. split; [by intros i x Hx|]. cbn [tail_req e_pages e_row e_seq]. change (zlen (@nil Z)) with 0. split; [|lia].
  unfold npages. by rewrite Z.div_small by lia.
Qed.

Section tail.
Context (a : SWA) (owned : list Z) (π : gmap Z Z) (Hw : swa_wf a owned π) (r : ereq) (tail : Z).
Local Abbreviation ps := (swa_page_size a).
Hypotheses (H1 : 1 < ps) (Hr : ereq_ok ps r) (Hpre : (ps | zlen (e_row r))).
Hypotheses (Htail : 0 < tail ≤ e_seq r - zlen (e_row r)) (Hal : (ps | e_seq r - tail)).

Lemma npages_tail : npages ps (e_seq r) = (e_seq r - tail) / ps + npages ps tail.
Proof.
  destruct Hal as [k Hk]. unfold npages. replace (e_seq r + ps - 1) with (tail + ps - 1 + k * ps) by lia.
  rewrite Hk, Z.div_add, Z.div_mul by lia. lia.
Qed.

Context (r' s' : ereq) (Hg : grown ps r r') (Hs : grown ps (tail_req tail) s').
Local Abbreviation F := (drop (length (e_pages r)) (e_pages r')).
Local Abbreviation G := (e_pages s').
(** The pages of the tail. *)
Local Abbreviation T := (drop (Z.to_nat ((e_seq r - tail) / swa_page_size a)) (e_pages r')).

Lemma aligned_prefix : zlen (e_pages r) * ps = zlen (e_row r).
Proof.
  destruct Hr as (_ & HP & _), Hpre as [k Hk]. rewrite HP, Hk. unfold npages.
  replace (k * ps + ps - 1) with (ps - 1 + k * ps) by lia. rewrite Z.div_add, Z.div_small by lia. lia.
Qed.

Lemma tail_pages : length T = length G ∧ T `suffix_of` F.
Proof.
  destruct Hg as ((_ & HP & _) & _ & Hz & _ & [k Hk]), Hs as ((_ & HP' & _) & _ & Hz' & _). cbn [tail_req e_seq] in Hz'.
  rewrite Hz in HP. rewrite Hz' in HP'. rewrite npages_tail in HP. pose proof aligned_prefix as Hap. destruct Hal as [j Hj].
  rewrite Hj, Z.div_mul in * by lia. assert (zlen (e_pages r) ≤ j) by nia. pose proof (zlen_nonneg (e_pages r)).
  split; [rewrite length_drop; unfold zlen in *; lia|].
  exists (take (Z.to_nat j - length (e_pages r)) F). rewrite <-(take_drop (Z.to_nat j - length (e_pages r)) F) at 1. f_equal.
  rewrite drop_drop. f_equal. unfold zlen in *. lia.
Qed.

Lemma zlen_gain : zlen (drop (length (e_row r)) (e_row r')) = e_seq r - zlen (e_row r).
Proof. destruct Hg as (_ & _ & Hz & [k Hk] & _). rewrite Hk in Hz |- *. rewrite zlen_app in Hz. rewrite drop_app_length. lia. Qed.

Lemma tail_slots :
  slice_from (drop (length (e_row r)) (e_row r')) (- tail) = drop (Z.to_nat (e_seq r - tail)) (e_row r').
Proof.
  rewrite (proj1 (slice_neg _ tail ltac:(rewrite zlen_gain; lia))), zlen_gain, drop_drop. f_equal. unfold zlen in *. lia.
Qed.

(** Slot for slot, the tail of the row and the sliding-window slots. *)
Lemma tail_lookup (i : nat) x :
  drop (Z.to_nat (e_seq r - tail)) (e_row r') !! i = Some x →
  ∃ p, T !! Z.to_nat (Z.of_nat i / ps) = Some p ∧ x = p * ps + Z.of_nat i mod ps.
Proof.
  intros Hx. rewrite lookup_drop in Hx. destruct Hg as ((HR & _) & _). destruct (HR _ _ Hx) as (p & Hp & ->). destruct Hal as [j Hj].
  pose proof (zlen_nonneg (e_row r)). assert (0 ≤ j) by nia. assert (0 ≤ Z.of_nat i / ps) by (apply Z.div_pos; lia).
  replace (Z.of_nat (Z.to_nat (e_seq r - tail) + i)) with (Z.of_nat i + j * ps) in * by lia.
  rewrite Z.div_add, Z.mod_add in * by lia. exists p. split; [|done]. rewrite lookup_drop, <-Hp. f_equal.
  rewrite Hj, Z.div_mul by lia. lia.
Qed.

Lemma tail_paired :
  NoDup T → (∀ p, p ∈ T → 0 ≤ p) →
  Forall2 (paired ps (link π T G)) (drop (Z.to_nat (e_seq r - tail)) (e_row r')) (e_row s').
Proof.
  intros Hnd Hpos. apply Forall2_same_length_lookup. split.
  - destruct Hg as (_ & _ & Hz & _), Hs as (_ & _ & Hz' & _). cbn [tail_req e_seq] in Hz'. rewrite length_drop.
    pose proof (zlen_nonneg (e_row r)). unfold zlen in *. lia.
  - intros i x y Hx Hy. destruct (tail_lookup i x Hx) as (p & Hp & ->). destruct Hs as ((HR & _) & _).
    destruct (HR i y Hy) as (q & Hq & ->). pose proof (Z.mod_pos_bound (Z.of_nat i) ps ltac:(lia)).
    pose proof (Hpos p ltac:(by eapply list_elem_of_lookup_2)). unfold paired.
    rewrite !Z.div_add_l, (Z.div_small (Z.of_nat i mod ps)), !Z.add_0_r by lia.
    rewrite !(Z.add_comm (_ * ps)), !Z.mod_add by lia. split_and!; [nia| |done]. by eapply lookup_link.
Qed.

Lemma tail_covered p : p ∈ T → ∃ x, x ∈ drop (Z.to_nat (e_seq r - tail)) (e_row r') ∧ x / ps = p.
Proof.
  intros [k Hk]%list_elem_of_lookup. pose proof (lookup_lt_Some _ _ _ Hk) as Hlt. destruct tail_pages as [Hl _]. rewrite Hl in Hlt.
  destruct Hs as ((_ & HP & _) & _ & Hz & _). cbn [tail_req e_seq] in Hz. rewrite Hz in HP.
  pose proof (npages_bounds ps ltac:(lia) tail). assert (Z.of_nat k * ps < tail) as Hj by (unfold zlen in *; nia).
  destruct Hg as (_ & _ & Hz' & _).
  destruct (lookup_lt_is_Some_2 (drop (Z.to_nat (e_seq r - tail)) (e_row r')) (Z.to_nat (Z.of_nat k * ps))) as [x Hx].
  { rewrite length_drop. pose proof (zlen_nonneg (e_row r)). unfold zlen in *. lia. }
  exists x. split; [by eapply list_elem_of_lookup_2|]. destruct (tail_lookup _ x Hx) as (p' & Hp' & ->).
  rewrite Z2Nat.id in * by nia. rewrite Z.div_mul, Nat2Z.id in Hp' by lia. rewrite Z.mod_mul, Z.add_0_r, Z.div_mul by lia. congruence.
Qed.

(** The slots before the tail lie on pages without a link. *)
Lemma head_pages x :
  NoDup F → x ∈ slice_to (drop (length (e_row r)) (e_row r')) (- tail) → x / ps ∈ F ∧ x / ps ∉ T.
Proof.
  intros Hnd Hx. rewrite (proj2 (slice_neg _ tail ltac:(rewrite zlen_gain; lia))) in Hx.
  apply list_elem_of_lookup in Hx as [i Hi]. apply lookup_take_Some in Hi as [Hi Hlt]. rewrite zlen_gain in Hlt. rewrite lookup_drop in Hi.
  pose proof (zlen_nonneg (e_row r)). pose proof aligned_prefix as Hap. destruct Hal as [j Hj].
  destruct Hg as ((HR & _) & _ & _ & _). pose proof (row_layout_page ps ltac:(lia) _ _ _ _ HR Hi) as Hp.
  set (n := Z.to_nat (Z.of_nat (length (e_row r) + i) / ps)) in *.
  assert (length (e_pages r) ≤ n < Z.to_nat j)%nat as Hn.
  { split.
    - assert (zlen (e_pages r) ≤ Z.of_nat (length (e_row r) + i) / ps) by (apply Z.div_le_lower_bound; unfold zlen in *; lia).
      unfold n, zlen in *. lia.
    - assert (Z.of_nat (length (e_row r) + i) / ps < j) by (apply Z.div_lt_upper_bound; unfold zlen in *; lia).
      unfold n, zlen in *. lia. }
  assert (F !! (n - length (e_pages r))%nat = Some (x / ps)) as HF.
  { rewrite lookup_drop, <-Hp. f_equal. lia. }
  split; [by eapply list_elem_of_lookup_2|]. intros [m Hm]%list_elem_of_lookup. rewrite lookup_drop, Hj, Z.div_mul in Hm by lia.
  assert (F !! (Z.to_nat j + m - length (e_pages r))%nat = Some (x / ps)) as HF2.
  { rewrite lookup_drop, <-Hm. f_equal. lia. }
  pose proof (NoDup_lookup _ _ _ _ Hnd HF HF2). lia.
Qed.
End tail.

(** The tail of the row is linked, what comes before it is not. *)
Definition tail_grown (a : SWA) (owned : list Z) (r : ereq) (tail : Z) (x : res (option (list Z) * SWA)) : Prop :=
  ∃ r' a', x = Ok (Some (drop (length (e_row r)) (e_row r')), a') ∧ grown (swa_page_size a) r r' ∧
    (∃ π', swa_wf a' (owned ++ drop (length (e_pages r)) (e_pages r')) π') ∧
    in_window a' (drop (Z.to_nat (e_seq r - tail)) (e_row r')) ∧ same_groups a a'.

Section tail_step.
Context (a : SWA) (owned : list Z) (π : gmap Z Z) (Hw : swa_wf a owned π) (r r' : ereq).
Local Abbreviation ps := (swa_page_size a).
Local Abbreviation F := (drop (length (e_pages r)) (e_pages r')).
Hypotheses (H1 : 1 < ps) (Hr : ereq_ok ps r) (Hpre : (ps | zlen (e_row r))) (Hg : grown ps r r').
Context (f : Alloc) (Hf : sub_wf ps f) (Ef : same_pool (full_attn_allocator a) f).
Hypothesis (HPf : F ++ held f ≡ₚ held (full_attn_allocator a)).

Lemma new_NoDup : NoDup F ∧ ∀ p, p ∈ F → 1 ≤ p ≤ last_page ps (full_attn_allocator a).
Proof.
  pose proof (owned_NoDup a owned π Hw) as Hno. rewrite <-HPf in Hno. apply NoDup_app in Hno as (_ & _ & Hno).
  rewrite <-app_assoc in Hno. apply NoDup_app in Hno as (? & _ & _). split; [done|].
  intros p Hp. apply (held_range a owned π Hw). rewrite <-HPf. apply elem_of_app. by left.
Qed.

Lemma no_tail : ∃ π', swa_wf (set_full a f) (owned ++ F) π'.
Proof.
  destruct (link_step a owned π f (swa_attn_allocator a) F [] [] [] []) as (t & Ht & Hw' & _); try done.
  - apply Hw.
  - apply list_subseteq_nil.
  - constructor.
  - constructor.
  - by intros p ?%elem_of_nil.
  - injection Ht as <-. eexists. exact Hw'.
Qed.

Context (tail : Z) (s' : ereq) (s : Alloc).
Hypotheses (Htail : 0 < tail ≤ e_seq r - zlen (e_row r)) (Hal : (ps | e_seq r - tail)) (Hs' : grown ps (tail_req tail) s').
Hypotheses (Hs : sub_wf ps s) (Es : same_pool (swa_attn_allocator a) s) (HPs : e_pages s' ++ held s ≡ₚ held (swa_attn_allocator a)).

Lemma tail_linked :
  ∃ t, tensor_set (full_to_swa_index_mapping a) (drop (Z.to_nat (e_seq r - tail)) (e_row r')) (e_row s') = Ok t ∧
    length (drop (Z.to_nat (e_seq r - tail)) (e_row r')) = length (e_row s') ∧
    (∃ π', swa_wf (set_mapping (set_swa (set_full a f) s) t) (owned ++ F) π' ∧
       ∀ x, x ∈ slice_to (drop (length (e_row r)) (e_row r')) (- tail) →
         0 ≤ x < (last_page ps (full_attn_allocator a) + 1) * ps ∧ π' !! (x / ps) = None) ∧
    in_window (set_mapping (set_swa (set_full a f) s) t) (drop (Z.to_nat (e_seq r - tail)) (e_row r')).
Proof.
  destruct new_NoDup as [Hnd Hrange]. destruct (tail_pages a r tail H1 Hr Hpre Htail Hal r' s' Hg Hs') as [Hl [k HT]].
  set (T := drop (Z.to_nat ((e_seq r - tail) / ps)) (e_pages r')) in *.
  assert (∀ p, p ∈ T → p ∈ F) as Hsub by (intros p Hp; rewrite HT; apply elem_of_app; by right).
  assert (NoDup T) as HTn by (rewrite HT in Hnd; by apply NoDup_app in Hnd as (_ & _ & ?)).
  pose proof (tail_paired a π r tail H1 Htail Hal r' s' Hg Hs' HTn) as Hpair.
  specialize (Hpair ltac:(intros p Hp%Hsub%Hrange; lia)).
  destruct (link_step a owned π f s F T (e_pages s') (drop (Z.to_nat (e_seq r - tail)) (e_row r')) (e_row s'))
    as (t & Ht & Hw' & Hin & _); try done.
  - assert (NoDup (drop (Z.to_nat ((e_seq r - tail) / ps * ps)) (e_row r'))) as Hn.
    { eapply (row_layout_NoDup ps ltac:(lia)); [|exact HTn]. apply row_layout_drop; [lia| |apply Hg].
      apply Z.div_pos; [|lia]. pose proof (zlen_nonneg (e_row r)). lia. }
    destruct Hal as [j Hj]. rewrite Hj in Hn |- *. by rewrite Z.div_mul in Hn by lia.
  - intros p Hp. by apply (tail_covered a r tail H1 Hr Hpre Htail Hal r' s' Hg Hs').
  - exists t. split; [done|]. split; [by apply (Forall2_length _ _ _ Hpair)|]. split; [|done]. eexists. split; [exact Hw'|].
    intros x Hx. destruct (head_pages a r tail H1 Hr Hpre Htail Hal r' Hg x Hnd Hx) as [HxF HxT]. split.
    + apply (page_range a owned π Hw x _ eq_refl). by apply Hrange.
    + rewrite lookup_link_ne by done. apply (held_unlinked a owned π Hw). rewrite <-HPf. apply elem_of_app. by left.
Qed.
End tail_step.

(** Clearing entries that are 0 changes nothing. *)
Lemma clear_nothing a owned π idx :
  swa_wf a owned π →
  (∀ x, x ∈ idx → 0 ≤ x < (last_page (swa_page_size a) (full_attn_allocator a) + 1) * swa_page_size a ∧
     π !! (x / swa_page_size a) = None) →
  Swa.clear_full_to_swa_mapping idx a = Ok a.
Proof.
  intros Hw Hidx. unfold Swa.clear_full_to_swa_mapping. destruct (zlen idx =? 0); [done|].
  destruct (tensor_fill_spec (full_to_swa_index_mapping a) idx 0) as (t & -> & Hl & Hset & Hkeep).
  { apply Forall_forall. intros x Hx. by apply (in_table a owned π Hw), Hidx. }
  cbn [mbind res_bind]. f_equal. assert (t = full_to_swa_index_mapping a) as ->; [|by destruct a].
  apply list_eq. intros k. destruct (decide (Z.of_nat k ∈ idx)) as [Hk|Hk]; [|by apply Hkeep].
  rewrite (Hset k Hk). destruct (Hidx _ Hk) as [Hr Hn]. destruct (sw_entry _ _ _ Hw _ Hr) as (v & Hv & Hc).
  rewrite Nat2Z.id in Hv. rewrite Hv. destruct Hc as [->|(q & Hq & _)]; [done|congruence].
Qed.

Lemma gained_one r r' : gained [r] [r'] = drop (length (e_row r)) (e_row r').
Proof. unfold gained. cbn [zip_with concat]. apply app_nil_r. Qed.
Lemma added_one r r' : concat (added [r] [r']) = drop (length (e_pages r)) (e_pages r').
Proof. unfold added. cbn [zip_with concat]. apply app_nil_r. Qed.

(** A request alone in a batch. *)
Lemma pool_extend_one ps a r k :
  1 < ps → sub_wf ps a → ereq_ok ps r → open_pages ps r = [] → NoDup (held a) →
  k = npages ps (e_seq r) - npages ps (zlen (e_row r)) → k ≤ zlen (held a) →
  ∃ r' a', AllocKernels.alloc_extend d [zlen (e_row r)] [zlen (e_row r)] [e_seq r] [e_seq r] [row_last (e_row r)]
      (e_seq r - zlen (e_row r)) (Some k) a = Ok (Some (drop (length (e_row r)) (e_row r')), a') ∧
    sub_wf ps a' ∧ same_pool a a' ∧ grown ps r r' ∧ drop (length (e_pages r)) (e_pages r') ++ held a' ≡ₚ held a.
Proof.
  intros H1 Ha Hr Ho Hnd Hk Hen. assert (k = batch_pages ps (prefix_lens [r]) (seq_lens [r])) as Ek.
  { unfold batch_pages, prefix_lens, seq_lens, zsum. cbn [fmap list_fmap zip_with foldr]. lia. }
  destruct (pool_extend ps a [r]) as (reqs' & a' & Hrun & Ha' & Hsame & HF & HP).
  - done.
  - done.
  - by apply Forall_singleton.
  - cbn [fmap list_fmap concat]. by rewrite Ho.
  - by rewrite <-Ek.
  - apply Forall2_cons_inv_l in HF as (r' & l & Hg & Hl & ->). apply Forall2_nil_inv_l in Hl as ->.
    rewrite gained_one, <-Ek in Hrun. rewrite added_one in HP. exists r', a'. split; [|done]. rewrite <-Hrun.
    f_equal. unfold batch_tokens, prefix_lens, seq_lens, zsum. cbn [fmap list_fmap zip_with foldr]. lia.
Qed.

Section tail_spec.
Context (a : SWA) (owned : list Z) (π : gmap Z Z) (Hw : swa_wf a owned π) (r : ereq) (tail : Z).
Local Abbreviation ps := (swa_page_size a).
Hypotheses (H1 : 1 < ps) (Hr : ereq_ok ps r) (Hpre : (ps | zlen (e_row r))).
Hypotheses (Htail : 0 ≤ tail ≤ e_seq r - zlen (e_row r)) (Hal : (ps | e_seq r - tail)).

Definition tail_enough : Prop :=
  npages ps (e_seq r) - npages ps (zlen (e_row r)) ≤ zlen (held (full_attn_allocator a)) ∧
  npages ps tail ≤ zlen (held (swa_attn_allocator a)).

Local Abbreviation run := (Swa.alloc_extend_swa_tail d [zlen (e_row r)] [e_seq r] [row_last (e_row r)]
  (e_seq r - zlen (e_row r)) tail a).

Lemma tail_guards : run =
  (if (npages ps (e_seq r) - npages ps (zlen (e_row r)) <=? zlen (held (full_attn_allocator a))) &&
      (npages ps tail <=? zlen (held (swa_attn_allocator a))) then
     '(f, full') ← AllocKernels.alloc_extend d [zlen (e_row r)] [zlen (e_row r)] [e_seq r] [e_seq r] [row_last (e_row r)]
        (e_seq r - zlen (e_row r)) (Some (npages ps (e_seq r) - npages ps (zlen (e_row r)))) (full_attn_allocator a);
     f ← Swa.assert_some f;
     if tail =? 0 then Ok (Some f, set_full a full')
     else
       '(s, swa') ← AllocKernels.alloc_extend d [0] [0] [tail] [tail] [-1] tail (Some (npages ps tail)) (swa_attn_allocator a);
       s ← Swa.assert_some s;
       b ← Swa.set_full_to_swa_mapping (slice_from f (- tail)) s (set_swa (set_full a full') swa');
       b ← (if tail <? e_seq r - zlen (e_row r) then Swa.clear_full_to_swa_mapping (slice_to f (- tail)) b else Ok b);
       Ok (Some f, b)
   else Ok (None, a)).
Proof.
  unfold Swa.alloc_extend_swa_tail, Swa.new_pages_available. destruct (available_pages a owned π Hw) as [-> ->].
  rewrite Z.gtb_ltb, (proj2 (Z.ltb_lt _ _)), !(proj2 (Z.leb_le _ _)) by lia. change (zlen [e_seq r] =? 1) with true.
  change (zlen [zlen (e_row r)] =? 1) with true. cbn [negb orb andb].
  assert (get_num_new_pages [e_seq r] ps (Some [zlen (e_row r)]) false = Ok (npages ps (e_seq r) - npages ps (zlen (e_row r)))) as ->.
  { unfold get_num_new_pages, zsum. cbn [fmap list_fmap zip_with foldr]. f_equal. unfold npages. lia. }
  cbn [mbind res_bind]. fold (npages ps tail). by destruct (_ && _).
Qed.

(** [alloc_extend_swa_tail] gives both sides their slots, or changes nothing. *)
Lemma tail_spec : (tail_enough → tail_grown a owned r tail run) ∧ (¬ tail_enough → run = Ok (None, a)).
Proof.
  rewrite tail_guards. unfold tail_enough. split.
  2:{ intros Hne. destruct (Z.leb_spec (npages ps (e_seq r) - npages ps (zlen (e_row r))) (zlen (held (full_attn_allocator a)))); [|done].
      destruct (Z.leb_spec (npages ps tail) (zlen (held (swa_attn_allocator a)))); [lia|done]. }
  intros [Hen Hens]. rewrite !(proj2 (Z.leb_le _ _)) by done. cbn [andb].
  pose proof (owned_NoDup a owned π Hw) as Hno. apply NoDup_app in Hno as (_ & _ & Hno). apply NoDup_app in Hno as (Hno & _ & _).
  pose proof (images_NoDup a owned π Hw) as Hni. apply NoDup_app in Hni as (_ & _ & Hni). apply NoDup_app in Hni as (Hni & _ & _).
  destruct (pool_extend_one ps (full_attn_allocator a) r (npages ps (e_seq r) - npages ps (zlen (e_row r))) H1
    (sw_full _ _ _ Hw) Hr) as (r' & f & -> & Hf & Ef & Hg & HPf); [|done..|].
  { unfold open_pages. pose proof (aligned_prefix a r H1 Hr Hpre) as Hap. rewrite <-Hap, Z.div_mul by lia.
    unfold zlen. by rewrite Nat2Z.id, drop_all. }
  cbn [mbind res_bind Swa.assert_some]. destruct (Z.eqb_spec tail 0) as [E|Hne].
  { exists r', (set_full a f). split; [done|]. split; [done|]. split; [by apply (no_tail a owned π Hw r r')|]. split; [|done].
    destruct Hg as (_ & _ & Hz & _). rewrite drop_ge; [constructor|]. unfold zlen in *. lia. }
  destruct (pool_extend_one ps (swa_attn_allocator a) (tail_req tail) (npages ps tail) H1 (sw_swa _ _ _ Hw)) as (s' & s & Hrun & Hs & Es & Hgs & HPs).
  { apply tail_req_ok; lia. } { done. } { done. }
  { cbn [tail_req e_seq e_row]. change (zlen (@nil Z)) with 0. unfold npages at 3. rewrite Z.div_small by lia. lia. }
  { done. }
  change (zlen (e_row (tail_req tail))) with 0 in Hrun. cbn [tail_req e_seq e_row length] in Hrun. rewrite Z.sub_0_r in Hrun.
  change (row_last []) with (-1) in Hrun. rewrite Hrun, drop_0. cbn [mbind res_bind Swa.assert_some].
  cbn [tail_req e_pages length] in HPs. rewrite drop_0 in HPs.
  rewrite (tail_slots a r tail ltac:(lia) r' Hg).
  destruct (tail_linked a owned π Hw r r' H1 Hr Hpre Hg f Hf Ef HPf tail s' s ltac:(lia) Hal Hgs Hs Es HPs)
    as (t & Ht & Hlen & (π' & Hw' & Hhead) & Hin).
  rewrite (set_mapping_ok _ _ _ t) by done. cbn [mbind res_bind].
  assert (∀ b, (if tail <? e_seq r - zlen (e_row r)
      then Swa.clear_full_to_swa_mapping (slice_to (drop (length (e_row r)) (e_row r')) (- tail))
             (set_mapping (set_swa (set_full a f) s) t) else Ok (set_mapping (set_swa (set_full a f) s) t)) = b →
      b = Ok (set_mapping (set_swa (set_full a f) s) t)) as Hclear.
  { intros b <-. destruct (tail <? _); [|done]. apply (clear_nothing _ _ π' _ Hw'). cbn. destruct Ef as [Ef1 _].
    unfold last_page in *. by rewrite Ef1. }
  rewrite (Hclear _ eq_refl). cbn [mbind res_bind]. eexists r', _. split; [done|]. split; [done|].
  split; [by eexists|]. by split_and!.
Qed.
End tail_spec.
End extend.
