(* ===== verification/SwaClient.v ===== *)
(** * Clients of the hybrid allocator

    Clients of [SWATokenToKVPoolAllocator] as sequences of operations, what each
    operation asks of the client, and the states a client reaches: all of them satisfy
    the invariant of [SwaInv]. *)

From S2P Require Import Prelude Allocator AllocKernels BatchAlloc SwaAlloc SwaInv SwaGrow.
Import Allocator.

(** ** Clients *)

Inductive Op :=
  | OpAlloc (n : Z)
  | OpExtend (reqs : list ereq)
  | OpExtendTail (r : ereq) (tail : Z)
  | OpDecode (reqs : list ereq)
  | OpFree (idx : list Z)
  | OpFreeSwa (idx : list Z)
  | OpFreeFull (idx : list Z)
  | OpGroupBegin
  | OpGroupEnd.

Definition no_slots (x : res SWA) : res (option (list Z) * SWA) := a ← x; Ok (None, a).

Definition run_op (d : Device) (op : Op) (a : SWA) : res (option (list Z) * SWA) :=
  match op with
  | OpAlloc n => Swa.alloc n a
  | OpExtend reqs => Swa.alloc_extend d (prefix_lens reqs) (seq_lens reqs) (last_locs reqs)
                       (batch_tokens (prefix_lens reqs) (seq_lens reqs)) a
  | OpExtendTail r tail => Swa.alloc_extend_swa_tail d [zlen (e_row r)] [e_seq r] [row_last (e_row r)]
                             (e_seq r - zlen (e_row r)) tail a
  | OpDecode reqs => Swa.alloc_decode d (seq_lens reqs) (last_locs reqs) a
  | OpFree idx => no_slots (Swa.free idx a)
  | OpFreeSwa idx => no_slots (Swa.free_swa idx a)
  | OpFreeFull idx => no_slots (Swa.free_full idx a)
  | OpGroupBegin => Ok (None, Swa.free_group_begin a)
  | OpGroupEnd => no_slots (Swa.free_group_end a)
  end.

(** The slots lie on pages the client owns, each page once. *)
Definition own_pages (a : SWA) (owned idx : list Z) : Prop :=
  NoDup (pages_of (swa_page_size a) idx) ∧ pages_of (swa_page_size a) idx ⊆ owned.

(** All entries of the pages are 0. *)
Definition out_of_window (a : SWA) (idx : list Z) : Prop :=
  ∀ x, 0 ≤ x → x / swa_page_size a ∈ pages_of (swa_page_size a) idx →
    full_to_swa_index_mapping a !! Z.to_nat x = Some 0.

(** What a client has to see to. *)
Definition allowed (a : SWA) (owned : list Z) (op : Op) : Prop :=
  match op with
  | OpAlloc n => swa_page_size a = 1 ∧ 0 ≤ n
  | OpExtend reqs => batch_ready a owned reqs
  | OpExtendTail r tail => 1 < swa_page_size a ∧ ereq_ok (swa_page_size a) r ∧ (swa_page_size a | zlen (e_row r)) ∧
      0 ≤ tail ≤ e_seq r - zlen (e_row r) ∧ (swa_page_size a | e_seq r - tail)
  | OpDecode reqs => batch_ready a owned reqs ∧ Forall (λ r, e_seq r = zlen (e_row r) + 1) reqs
  | OpFree idx => own_pages a owned idx
  | OpFreeSwa idx => own_pages a owned idx
  | OpFreeFull idx => own_pages a owned idx ∧ out_of_window a idx
  | OpGroupBegin => closed a
  | OpGroupEnd => is_Some (swa_group a)
  end.

(** Both pools have the pages of a decode step.  [alloc_decode] does not check this,
    unlike the other allocations, which return None: with a pool that is short it
    loses pages ([swa_decode_short_loses_pages]) or fails the assertion of the debug
    mode. *)
Definition served (a : SWA) (op : Op) : Prop :=
  match op with OpDecode reqs => enough a reqs | _ => True end.

(** The pages the client owns afterwards. *)
Definition owned_after (a : SWA) (owned : list Z) (op : Op) (out : option (list Z)) : list Z :=
  match op with
  | OpFree idx | OpFreeFull idx => disown owned (pages_of (swa_page_size a) idx)
  | _ => owned ++ filter (λ p, p ∉ owned) (remove_dups (pages_of (swa_page_size a) (default [] out)))
  end.

(** The states a client reaches from a new allocator, when every decode step finds its
    pages in both pools. *)
Inductive reaches (d : Device) (size size_swa page_size : Z) (need_sort debug : bool) : SWA → list Z → Prop :=
  | reaches_init :
      reaches d size size_swa page_size need_sort debug (Swa.init size size_swa page_size need_sort debug) []
  | reaches_step a owned op out a' :
      reaches d size size_swa page_size need_sort debug a owned → allowed a owned op → served a op →
      run_op d op a = Ok (out, a') →
      reaches d size size_swa page_size need_sort debug a' (owned_after a owned op out).

(** ** The initial state *)

Lemma sub_init_spec size ps ns dbg :
  0 < ps → 0 ≤ size → let a := sub_init size ps ns dbg in
  sub_wf ps a ∧ Allocator.size a = size ∧ held a = zrange 1 (size / ps + 1) ∧ sub_clear ps a = a.
Proof.
  intros Hps Hs. unfold sub_init, sub_clear. destruct (Z.eqb_spec ps 1) as [->|]; cbn.
  - rewrite Z.div_1_r. unfold held. cbn. rewrite app_nil_r. by repeat split.
  - unfold held. cbn. rewrite app_nil_r. by repeat split.
Qed.

Lemma init_wf size size_swa ps ns dbg :
  0 < ps → 0 ≤ size → 0 ≤ size_swa → swa_wf (Swa.init size size_swa ps ns dbg) [] ∅.
Proof.
  intros Hps Hs Hs'. destruct (sub_init_spec size ps ns dbg Hps Hs) as (F1 & F2 & F3 & F4).
  destruct (sub_init_spec size_swa ps ns dbg Hps Hs') as (S1 & S2 & S3 & S4).
  assert (Swa.init size size_swa ps ns dbg = mkSWA size size_swa ps (sub_init size ps ns dbg) (sub_init size_swa ps ns dbg)
    (replicate (Z.to_nat (size + ps)) 0 ++ [-1]) None [] []) as ->.
  { unfold Swa.init, Swa.clear. cbn. rewrite F4, S4, length_app, length_replicate. cbn [length].
    rewrite Nat.add_sub, drop_app_length' by (by rewrite length_replicate). done. }
  constructor; cbn; rewrite ?F2, ?S2; try done.
  - unfold zlen. rewrite length_app, length_replicate. cbn. lia.
  - apply last_snoc.
  - rewrite F3. unfold pending_full, last_page. cbn. rewrite F2, pages_of_nil, app_nil_r. done.
  - rewrite S3. unfold pending_swa, last_page, images. cbn. by rewrite S2, map_to_list_empty, pages_of_nil, app_nil_r.
  - intros x Hx. exists 0. split; [|by left]. unfold last_page in Hx. rewrite F2 in Hx.
    pose proof (Z.mul_div_le size ps Hps). rewrite lookup_app_l by (rewrite length_replicate; nia).
    apply lookup_replicate_2. nia.
  - intros p [q Hp]. by rewrite lookup_empty in Hp.
Qed.

(** ** Every allowed operation keeps the invariant *)

Lemma swa_wf_perm a owned owned' π : owned ≡ₚ owned' → swa_wf a owned π → swa_wf a owned' π.
Proof. intros HP [W1 W2 W3 W4 W5 W6 W7 W8 W9 W10 W11]. constructor; try done; by setoid_rewrite <-HP. Qed.

(** The new pages, read off the slots. *)
Lemma new_pages_read a owned out new π :
  swa_wf a (owned ++ new) π → (∀ p, p ∈ new → p ∈ pages_of (swa_page_size a) out) →
  (∀ p, p ∈ pages_of (swa_page_size a) out → p ∈ owned ++ new) →
  swa_wf a (owned ++ filter (λ p, p ∉ owned) (remove_dups (pages_of (swa_page_size a) out))) π.
Proof.
  intros Hw Hnew Hout. apply (swa_wf_perm a (owned ++ new)); [|done].
  pose proof (owned_NoDup a _ _ Hw) as Hno. apply NoDup_app in Hno as (Hno & _ & _). apply NoDup_app in Hno as (_ & Hd & Hnn).
  apply Permutation_app_head, NoDup_Permutation; [done|apply NoDup_filter, NoDup_remove_dups|].
  intros p. rewrite list_elem_of_filter, elem_of_remove_dups. split.
  - intros Hp. split; [|by apply Hnew]. intros Ho. by apply (Hd p).
  - intros [Hn Hp]. specialize (Hout p Hp). apply elem_of_app in Hout as [?|?]; done.
Qed.

Lemma gained_page ps r r' x :
  0 < ps → ereq_ok ps r → grown ps r r' → x ∈ drop (length (e_row r)) (e_row r') →
  x / ps ∈ open_pages ps r ++ drop (length (e_pages r)) (e_pages r').
Proof.
  intros Hps Hr Hg Hx. pose proof (fresh_split ps [r] [r'] Hps ltac:(by apply Forall_singleton)) as HP.
  specialize (HP ltac:(by apply Forall2_cons; split)). rewrite added_one in HP. cbn [zip_with fmap list_fmap concat] in HP.
  rewrite !app_nil_r in HP. rewrite <-HP. unfold fresh_pages. pose proof (Z.mul_div_le (zlen (e_row r)) ps Hps) as Hle.
  assert (0 ≤ zlen (e_row r) / ps) as Hq by (apply Z.div_pos; [apply zlen_nonneg|done]).
  apply (row_layout_page_elem ps Hps _ (drop (Z.to_nat (zlen (e_row r) / ps * ps)) (e_row r')) x (row_layout_drop ps Hps (e_pages r') (e_row r') _ Hq (proj1 (proj1 Hg)))).
  rewrite list_elem_of_lookup in Hx |- *. destruct Hx as [i Hi]. rewrite lookup_drop in Hi.
  exists (length (e_row r) - Z.to_nat (zlen (e_row r) / ps * ps) + i)%nat. rewrite lookup_drop, <-Hi. f_equal. unfold zlen in *. lia.
Qed.

Lemma gained_pages_of ps reqs reqs' x :
  0 < ps → Forall (ereq_ok ps) reqs → Forall2 (grown ps) reqs reqs' → x ∈ gained reqs reqs' →
  x / ps ∈ concat (open_pages ps <$> reqs) ++ concat (added reqs reqs').
Proof.
  intros Hps Hok HF. revert Hok. induction HF as [|r r' l l' Hg _ IH]; intros Hok Hx; [by apply elem_of_nil in Hx|].
  apply Forall_cons in Hok as [Hr Hok]. unfold gained, added in *. cbn [zip_with concat fmap list_fmap] in *.
  apply elem_of_app in Hx as [Hx|Hx].
  - apply (gained_page ps r r' x Hps Hr Hg) in Hx. revert Hx. rewrite !elem_of_app. tauto.
  - specialize (IH Hok Hx). revert IH. rewrite !elem_of_app. tauto.
Qed.

Lemma out_unlinked a owned π idx :
  swa_wf a owned π → out_of_window a idx → ∀ p, p ∈ pages_of (swa_page_size a) idx → π !! p = None.
Proof.
  intros Hw Hout p Hp. destruct (π !! p) as [q|] eqn:Hq; [|done].
  destruct (sw_used _ _ _ Hw p q Hq) as (x & v & Hx & <- & Hv & Hv0). rewrite (Hout x Hx Hp) in Hv. congruence.
Qed.

Section client.
Context (d : Device) `{!DeviceLaws d}.

Lemma batch_kept a owned reqs x :
  0 < swa_page_size a → batch_ready a owned reqs → batch_grown a owned reqs x →
  ∃ out a', x = Ok (Some out, a') ∧ in_window a' out ∧
    ∃ π', swa_wf a' (owned ++ filter (λ p, p ∉ owned) (remove_dups (pages_of (swa_page_size a) out))) π'.
Proof.
  intros Hps Hb (reqs' & a' & -> & HF & (π' & Hw') & Hin & Hsame & _). exists (gained reqs reqs'), a'. split; [done|]. split; [done|].
  exists π'. rewrite <-Hsame. apply (new_pages_read a' owned _ (concat (added reqs reqs'))); [done|..]; rewrite Hsame; intros p.
  - intros Hp. apply elem_of_pages_of. destruct (new_covered _ reqs reqs' p Hps (br_rows _ _ _ Hb) HF Hp) as (x & ? & ?). by exists x.
  - rewrite elem_of_pages_of. intros (x & Hx & ->).
    pose proof (gained_pages_of _ reqs reqs' x Hps (br_rows _ _ _ Hb) HF Hx) as Hp. revert Hp. rewrite !elem_of_app.
    intros [?|?]; [left|by right]. by apply (br_owned _ _ _ Hb).
Qed.

Lemma tail_kept a owned π r tail x :
  swa_wf a owned π → allowed a owned (OpExtendTail r tail) → tail_grown a owned r tail x →
  ∃ out a', x = Ok (Some out, a') ∧
    ∃ π', swa_wf a' (owned ++ filter (λ p, p ∉ owned) (remove_dups (pages_of (swa_page_size a) out))) π'.
Proof.
  intros Hw (H1 & Hr & Hpre & _ & _) (r' & a' & -> & Hg & (π' & Hw') & _ & Hsame & _). eexists _, a'. split; [done|].
  exists π'. rewrite <-Hsame. eapply new_pages_read; [exact Hw'|..]; rewrite Hsame; intros p.
  - intros Hp. apply elem_of_pages_of. destruct (page_covered _ r r' p (sw_ps _ _ _ Hw) Hr Hg Hp) as (x & ? & ?). by exists x.
  - rewrite elem_of_pages_of. intros (x & Hx & ->). apply (gained_page (swa_page_size a)) in Hx; [|exact (sw_ps _ _ _ Hw)|done|done].
    assert (open_pages (swa_page_size a) r = []) as Ho.
    { unfold open_pages. rewrite <-(aligned_prefix a r H1 Hr Hpre), Z.div_mul by lia. unfold zlen. by rewrite Nat2Z.id, drop_all. }
    rewrite Ho in Hx. apply elem_of_app. by right.
Qed.

Lemma nothing_new a owned : owned ++ filter (λ p, p ∉ owned) (remove_dups (pages_of (swa_page_size a) [])) = owned.
Proof. rewrite pages_of_nil. apply app_nil_r. Qed.

Lemma op_spec a owned π op :
  swa_wf a owned π → allowed a owned op → served a op →
  ∃ out a', run_op d op a = Ok (out, a') ∧ ∃ π', swa_wf a' (owned_after a owned op out) π'.
Proof.
  intros Hw Hal He. pose proof (sw_ps _ _ _ Hw) as Hps. destruct op as [n|reqs|r tail|reqs|idx|idx|idx| |]; cbn [run_op owned_after].
  - destruct Hal as [E Hn]. destruct (alloc_spec a owned π n Hw E Hn) as (out & a' & -> & Hr). exists out, a'. split; [done|].
    destruct out as [out|].
    + destruct Hr as (_ & (π' & Hw') & _ & Hsame & _). exists π'. cbn [default]. rewrite <-Hsame.
      apply (new_pages_read a' owned out out); [done|..]; intros p; rewrite Hsame, E; unfold pages_of; cbn; [done|].
      rewrite elem_of_app. by right.
    + destruct Hr as [-> _]. exists π. cbn [default]. by rewrite nothing_new.
  - clear He. cbn [allowed] in Hal. destruct (extend_spec d a owned π Hw reqs Hal) as [Hyes Hno].
    destruct (decide (need_pages a reqs ≤ zlen (held (full_attn_allocator a)) ∧ need_pages a reqs ≤ zlen (held (swa_attn_allocator a)))) as [He|He].
    + destruct (batch_kept a owned reqs _ Hps Hal (Hyes He)) as (out & a' & -> & _ & Hw'). by exists (Some out), a'.
    + rewrite (Hno He). exists None, a. split; [done|]. exists π. cbn [default]. by rewrite nothing_new.
  - clear He. pose proof Hal as (H1 & Hr & Hpre & Ht & Hdiv). destruct (tail_spec d a owned π Hw r tail H1 Hr Hpre Ht Hdiv) as [Hyes Hno].
    destruct (decide (npages (swa_page_size a) (e_seq r) - npages (swa_page_size a) (zlen (e_row r)) ≤ zlen (held (full_attn_allocator a)) ∧
      npages (swa_page_size a) tail ≤ zlen (held (swa_attn_allocator a)))) as [He|He].
    + destruct (tail_kept a owned π r tail _ Hw Hal (Hyes He)) as (out & a' & -> & Hw'). by exists (Some out), a'.
    + rewrite (Hno He). exists None, a. split; [done|]. exists π. cbn [default]. by rewrite nothing_new.
  - destruct Hal as [Hb Hone].
    destruct (batch_kept a owned reqs _ Hps Hb (decode_spec d a owned π Hw reqs Hb Hone He)) as (out & a' & -> & _ & Hw'). by exists (Some out), a'.
  - destruct Hal as [Hnd Hown]. destruct (free_spec a owned π idx Hw Hnd Hown) as (a' & π' & -> & Hw' & _). exists None, a'. eauto.
  - destruct Hal as [Hnd Hown]. destruct (free_swa_spec a owned π idx Hw Hnd Hown) as (a' & -> & Hw' & _). exists None, a'.
    split; [done|]. eexists. cbn [default]. rewrite nothing_new. exact Hw'.
  - destruct Hal as [[Hnd Hown] Hout]. destruct (free_full_spec a owned π idx Hw Hnd Hown) as (a' & -> & Hw' & _); [|exists None, a'; eauto].
    by apply (out_unlinked a owned).
  - exists None, (Swa.free_group_begin a). split; [done|]. exists π. cbn [default]. rewrite nothing_new. by apply group_begin_spec.
  - destruct (group_end_spec a owned π Hw) as (a' & -> & _ & Hw'). exists None, a'. split; [done|]. eexists. cbn [default].
    rewrite nothing_new. exact (proj1 Hw').
Qed.

Lemma reaches_wf size size_swa ps ns dbg a owned :
  0 < ps → 0 ≤ size → 0 ≤ size_swa → reaches d size size_swa ps ns dbg a owned → ∃ π, swa_wf a owned π.
Proof.
  intros Hps Hs Hs'. induction 1 as [|a owned op out a' _ (π & Hw) Hal Hse Hrun].
  - exists ∅. by apply init_wf.
  - destruct (op_spec a owned π op Hw Hal Hse) as (out' & a2 & Hrun' & Hw'). rewrite Hrun in Hrun'. by injection Hrun' as <- <-.
Qed.
End client.
