(* ===== verification/SwaTheorems.v ===== *)
(** * What the hybrid allocator promises

    A client of [SWATokenToKVPoolAllocator] that frees only pages it owns never meets
    a failing assertion, and no page of either pool is lost or handed out twice.  A
    free group ends as the frees it put off would have.  And a decode allocation that
    finds only one pool full loses pages. *)

From S2P Require Import Prelude Allocator AllocKernels BatchAlloc SwaAlloc SwaInv SwaGrow SwaClient.
Import Allocator.

(** ** The sizes never change *)

Definition same_sizes (a a' : SWA) : Prop :=
  size (full_attn_allocator a') = size (full_attn_allocator a) ∧
  size (swa_attn_allocator a') = size (swa_attn_allocator a) ∧ swa_page_size a' = swa_page_size a.

#[export] Instance same_sizes_preorder : PreOrder same_sizes.
Proof. split; [by intros a|]. intros a b c (? & ? & ?) (? & ? & ?). unfold same_sizes. split_and!; congruence. Qed.

Lemma same_sizes_square a g a' g' : same_sizes a g → same_sizes a a' → same_sizes g g' → same_sizes a' g'.
Proof. intros (? & ? & ?) (? & ? & ?) (? & ? & ?). unfold same_sizes. split_and!; congruence. Qed.

(** Takes a successful run apart. *)
Ltac invert_ok :=
  repeat match goal with
  | H : mbind _ _ = Ok _ |- _ => apply bind_Ok in H as (? & ? & ?)
  | H : (if ?b then _ else _) = Ok _ |- _ => destruct b
  | H : match ?x with _ => _ end = Ok _ |- _ => destruct x
  | H : Err _ = Ok _ |- _ => discriminate H
  | H : Ok _ = Ok _ |- _ => injection H; clear H; intros; subst
  end.

Lemma sub_free_size ps idx a a' : sub_free ps idx a = Ok a' → size a' = size a.
Proof.
  unfold sub_free, Token.free, Paged.free, Paged.debug_checked, Paged.release_page_ids. intros H. invert_ok; cbn; try done;
    by repeat case_match.
Qed.

Ltac sizes :=
  intros; invert_ok; try done;
  repeat match goal with H : sub_free _ _ _ = Ok _ |- _ => apply sub_free_size in H end;
  unfold same_sizes in *; cbn in *; destruct_and?; split_and!; congruence.

Lemma free_swa_sizes idx a a' : Swa.free_swa idx a = Ok a' → same_sizes a a'.
Proof. unfold Swa.free_swa, Swa.clear_full_to_swa_mapping. sizes. Qed.

Lemma free_sizes idx a a' : Swa.free idx a = Ok a' → same_sizes a a'.
Proof.
  unfold Swa.free, Swa.assert_full_size, Swa.assert_swa_size. intros. invert_ok; try done.
  match goal with H : Swa.free_swa _ _ = _ |- _ => apply free_swa_sizes in H end. sizes.
Qed.

Lemma free_full_sizes idx a a' : Swa.free_full idx a = Ok a' → same_sizes a a'.
Proof. unfold Swa.free_full, Swa.assert_full_size. sizes. Qed.

Lemma group_end_sizes a a' : Swa.free_group_end a = Ok a' → same_sizes a a'.
Proof.
  unfold Swa.free_group_end. intros H. apply bind_Ok in H as (a1 & H1 & H). apply bind_Ok in H as (a2 & H2 & H).
  assert (same_sizes a a1) as E1.
  { destruct (swa_group a) as [[]|]; [by simplify_eq| |by simplify_eq]. apply free_sizes in H1. exact H1. }
  assert (same_sizes a1 a2) as E2 by (destruct (swa_free_group a1); sizes).
  rewrite E1, E2. destruct (full_free_group a2); [by simplify_eq|]. apply free_full_sizes in H. exact H.
Qed.

Lemma token_alloc_size n a r a' : Token.alloc n a = (r, a') → size a' = size a.
Proof. unfold Token.alloc, Base.merge_and_sort_free. intros H. repeat case_match; by simplify_eq/=. Qed.

Lemma set_mapping_sizes f s a a' : Swa.set_full_to_swa_mapping f s a = Ok a' → same_sizes a a'.
Proof. unfold Swa.set_full_to_swa_mapping. sizes. Qed.

Lemma clear_mapping_sizes f a a' : Swa.clear_full_to_swa_mapping f a = Ok a' → same_sizes a a'.
Proof. unfold Swa.clear_full_to_swa_mapping. sizes. Qed.

Lemma run_op_sizes d op a out a' : run_op d op a = Ok (out, a') → same_sizes a a'.
Proof.
  intros H. destruct op; cbn [run_op] in H;
    unfold no_slots, Swa.alloc, Swa.alloc_extend, Swa.alloc_extend_swa_tail, Swa.alloc_decode in H.
  all: repeat match type of H with context [Token.alloc ?n ?b] => destruct (Token.alloc n b) eqn:? end.
  all: invert_ok; try done.
  all: repeat match goal with
    | H : Token.alloc _ _ = _ |- _ => apply token_alloc_size in H
    | H : AllocKernels.alloc_extend _ _ _ _ _ _ _ _ _ = _ |- _ => apply extend_same_pool in H as [H _]
    | H : AllocKernels.alloc_decode _ _ _ _ _ = _ |- _ => apply decode_same_pool in H as [H _]
    | H : Swa.set_full_to_swa_mapping _ _ _ = _ |- _ => apply set_mapping_sizes in H
    | H : Swa.clear_full_to_swa_mapping _ _ = _ |- _ => apply clear_mapping_sizes in H
    | H : Swa.free _ _ = _ |- _ => apply free_sizes in H
    | H : Swa.free_swa _ _ = _ |- _ => apply free_swa_sizes in H
    | H : Swa.free_full _ _ = _ |- _ => apply free_full_sizes in H
    | H : Swa.free_group_end _ = _ |- _ => apply group_end_sizes in H
    end.
  all: unfold same_sizes in *; cbn in *; destruct_and?; split_and!; congruence.
Qed.

(** ** Free groups *)

Definition is_free (op : Op) : bool :=
  match op with OpFree _ | OpFreeSwa _ | OpFreeFull _ => true | _ => false end.

Fixpoint run_ops (d : Device) (ops : list Op) (a : SWA) : res SWA :=
  match ops with
  | [] => Ok a
  | op :: ops => '(_, a) ← run_op d op a; run_ops d ops a
  end.

(** A client may run the frees one after the other. *)
Fixpoint frees_ready (d : Device) (ops : list Op) (a : SWA) (owned : list Z) : Prop :=
  match ops with
  | [] => True
  | op :: ops => is_free op = true ∧ allowed a owned op ∧
      ∀ out a', run_op d op a = Ok (out, a') → frees_ready d ops a' (owned_after a owned op out)
  end.

(** Full pages freed in the open group. *)
Definition waiting (g : SWA) : list Z := pages_of (swa_page_size g) (concat (default [] (swa_group g))).

(** [a] did at once what [g] has put off. *)
Record group_sim (a g : SWA) (owned : list Z) (π : gmap Z Z) : Prop := {
  gs_closed : closed a;
  gs_open : is_Some (swa_group g);
  gs_sizes : same_sizes a g;
  gs_a : swa_wf a owned (unlink π (waiting g));
  gs_g : swa_wf g owned π;
  gs_table : zeroed (swa_page_size g) (waiting g) (full_to_swa_index_mapping g) (full_to_swa_index_mapping a);
}.

Lemma unlink_twice π P Q R : (∀ p, p ∈ R ↔ p ∈ P ∨ p ∈ Q) → unlink (unlink π P) Q = unlink π R.
Proof.
  intros HR. apply map_eq. intros p. rewrite !lookup_unlink. specialize (HR p). repeat case_decide; tauto.
Qed.

Lemma unlink_comm π P Q : unlink (unlink π P) Q = unlink (unlink π Q) P.
Proof.
  rewrite (unlink_twice π P Q (P ++ Q)), (unlink_twice π Q P (P ++ Q)); [done|intros p; rewrite elem_of_app; tauto..].
Qed.

Lemma closed_same a a' : closed a → same_layout a a' → closed a'.
Proof. intros (? & ? & ?) (_ & ? & ? & ?). unfold closed. split_and!; congruence. Qed.

Lemma pages_of_elem_app ps k l p : p ∈ pages_of ps (k ++ l) ↔ p ∈ pages_of ps k ∨ p ∈ pages_of ps l.
Proof.
  rewrite !elem_of_pages_of. setoid_rewrite elem_of_app. split; [intros (i & [?|?] & ?)|intros [(i & ? & ?)|(i & ? & ?)]]; eauto.
Qed.

Section groups.
Context (d : Device).

Lemma sim_free a g owned π idx :
  group_sim a g owned π → own_pages a owned idx →
  ∃ a' g', Swa.free idx a = Ok a' ∧ Swa.free idx g = Ok g' ∧
    group_sim a' g' (disown owned (pages_of (swa_page_size a) idx)) π.
Proof.
  intros [Hc [ts Hts] Hs Wa Wg Hz] [Hnd Hown]. pose proof Hs as (_ & _ & Eps).
  destruct (free_spec a owned _ idx Wa Hnd Hown) as (a' & πa & Ha & Wa' & Hnone & _).
  destruct (Hnone (proj1 Hc)) as (-> & Hlay & Hza). rewrite <-Eps in Hnd, Hown.
  destruct (free_spec g owned _ idx Wg Hnd Hown) as (g' & πg & Hg & Wg' & _ & Hsome).
  destruct (Hsome ts Hts) as (-> & Eg & ts' & Hts' & Econcat). exists a', g'. split; [done|]. split; [done|].
  pose proof (free_sizes _ _ _ Ha) as Sa. pose proof (free_sizes _ _ _ Hg) as Sg. pose proof Sg as (_ & _ & Eg').
  assert (∀ p, p ∈ waiting g' ↔ p ∈ waiting g ∨ p ∈ pages_of (swa_page_size g) idx) as Hwait.
  { intros p. unfold waiting. rewrite Hts, Hts'. cbn [from_option id]. unfold id. rewrite Eg', Econcat, pages_of_elem_app. done. }
  rewrite <-Eps in *. constructor.
  - by apply (closed_same a).
  - by exists ts'.
  - by apply (same_sizes_square a g).
  - by rewrite <-(unlink_twice π (waiting g) (pages_of (swa_page_size g) idx) (waiting g') Hwait).
  - done.
  - rewrite Eg'. replace (full_to_swa_index_mapping g') with (full_to_swa_index_mapping g) by (by rewrite Eg).
    by apply (zeroed_more _ (waiting g) (pages_of (swa_page_size g) idx) _ _ (full_to_swa_index_mapping a)).
Qed.

Lemma sim_free_swa a g owned π idx :
  group_sim a g owned π → own_pages a owned idx →
  ∃ a' g', Swa.free_swa idx a = Ok a' ∧ Swa.free_swa idx g = Ok g' ∧
    group_sim a' g' owned (unlink π (pages_of (swa_page_size a) idx)).
Proof.
  intros [Hc Hts Hs Wa Wg Hz] [Hnd Hown]. pose proof Hs as (_ & _ & Eps).
  destruct (free_swa_spec a owned _ idx Wa Hnd Hown) as (a' & Ha & Wa' & A1 & A2 & A3 & _ & A5 & Hza).
  rewrite <-Eps in Hnd, Hown.
  destruct (free_swa_spec g owned _ idx Wg Hnd Hown) as (g' & Hg & Wg' & G1 & _ & _ & _ & G5 & Hzg).
  exists a', g'. split; [done|]. split; [done|]. rewrite <-Eps in *.
  pose proof (free_swa_sizes _ _ _ Ha) as Sa. pose proof (free_swa_sizes _ _ _ Hg) as Sg.
  assert (waiting g' = waiting g) as Hwait by (unfold waiting; by rewrite G1, G5).
  constructor; rewrite ?Hwait.
  - destruct Hc as (C1 & C2 & C3). unfold closed. rewrite A1, A2, (A3 C1). done.
  - by rewrite G1.
  - by apply (same_sizes_square a g).
  - by rewrite unlink_comm.
  - done.
  - rewrite G5. by apply (zeroed_both _ _ (pages_of (swa_page_size g) idx) (full_to_swa_index_mapping g) (full_to_swa_index_mapping a)).
Qed.

Lemma sim_free_full a g owned π idx :
  group_sim a g owned π → own_pages a owned idx → out_of_window a idx →
  ∃ a' g', Swa.free_full idx a = Ok a' ∧ Swa.free_full idx g = Ok g' ∧
    group_sim a' g' (disown owned (pages_of (swa_page_size a) idx)) π.
Proof.
  intros [Hc Hts Hs Wa Wg Hz] [Hnd Hown] Hout. pose proof Hs as (_ & _ & Eps).
  pose proof (out_unlinked a owned _ idx Wa Hout) as Hun.
  destruct (free_full_spec a owned _ idx Wa Hnd Hown Hun) as (a' & Ha & Wa' & _ & Ma & _ & Hlay).
  rewrite <-Eps in Hnd, Hown. destruct (free_full_spec g owned _ idx Wg Hnd Hown) as (g' & Hg & Wg' & G1 & Mg & G5 & _).
  { intros p Hp. rewrite <-(Hun p) by (by rewrite <-Eps). rewrite lookup_unlink, decide_False; [done|].
    intros Hw. destruct (pending_pages g owned π (waiting g) Wg) as [_ Hd]; [unfold pending_full; by apply sublist_inserts_r|].
    by apply (Hd p Hw), Hown. }
  exists a', g'. split; [done|]. split; [done|]. rewrite <-Eps in *.
  pose proof (free_full_sizes _ _ _ Ha) as Sa. pose proof (free_full_sizes _ _ _ Hg) as Sg.
  assert (waiting g' = waiting g) as Hwait by (unfold waiting; by rewrite G1, G5).
  constructor; rewrite ?Hwait; [exact (closed_same a a' Hc (Hlay (proj1 Hc)))|by rewrite G1| |done|done|].
  - by apply (same_sizes_square a g).
  - by rewrite G5, Ma, Mg.
Qed.

Lemma sim_step a g owned π op :
  group_sim a g owned π → is_free op = true → allowed a owned op →
  ∃ a' g' π', run_op d op a = Ok (None, a') ∧ run_op d op g = Ok (None, g') ∧
    group_sim a' g' (owned_after a owned op None) π'.
Proof.
  intros Hsim Hf Hal. destruct op; try done; cbn [run_op owned_after allowed] in *.
  - destruct (sim_free a g owned π _ Hsim Hal) as (a' & g' & -> & -> & ?). by exists a', g', π.
  - destruct (sim_free_swa a g owned π _ Hsim Hal) as (a' & g' & -> & -> & ?). eexists a', g', _.
    split; [done|]. split; [done|]. cbn [from_option id]. rewrite nothing_new. eassumption.
  - destruct (sim_free_full a g owned π _ Hsim (proj1 Hal) (proj2 Hal)) as (a' & g' & -> & -> & ?). by exists a', g', π.
Qed.

Lemma sim_run a g owned π ops :
  group_sim a g owned π → frees_ready d ops a owned →
  ∃ a' g' owned' π', run_ops d ops a = Ok a' ∧ run_ops d ops g = Ok g' ∧ group_sim a' g' owned' π'.
Proof.
  revert a g owned π. induction ops as [|op ops IH]; intros a g owned π Hsim Hr; [by exists a, g, owned, π|].
  destruct Hr as (Hf & Hal & Hnext). destruct (sim_step a g owned π op Hsim Hf Hal) as (a1 & g1 & π1 & E1 & E2 & Hsim1).
  cbn [run_ops]. rewrite E1, E2. cbn [mbind res_bind]. apply (IH _ _ _ _ Hsim1), (Hnext None a1 E1).
Qed.

(** Same free pages, same table, nothing waiting. *)
Definition same_pools (a b : SWA) : Prop :=
  closed a ∧ closed b ∧ full_to_swa_index_mapping a = full_to_swa_index_mapping b ∧
  held (full_attn_allocator a) ≡ₚ held (full_attn_allocator b) ∧
  held (swa_attn_allocator a) ≡ₚ held (swa_attn_allocator b).

Lemma sim_end a g owned π :
  group_sim a g owned π → ∃ g', Swa.free_group_end g = Ok g' ∧ same_pools a g'.
Proof.
  intros [Hc _ Hs Wa Wg Hz]. destruct (group_end_spec g owned π Wg) as (g' & Hend & Hc' & Wg' & Hz').
  exists g'. split; [done|]. split; [done|]. split; [done|]. split; [by apply (zeroed_unique _ _ _ _ _ Hz Hz')|].
  pose proof (group_end_sizes _ _ Hend) as Sg. destruct Hs as (S1 & S2 & S3), Sg as (S4 & S5 & S6).
  pose proof (sw_owned _ _ _ Wa) as O1. pose proof (sw_owned _ _ _ Wg') as O2.
  pose proof (sw_images _ _ _ Wa) as I1. pose proof (sw_images _ _ _ Wg') as I2.
  destruct Hc as (C1 & C2 & C3), Hc' as (D1 & D2 & D3). unfold last_page, pending_full, pending_swa in *.
  rewrite ?C1, ?C2, ?C3, ?D1, ?D2, ?D3, ?S4, ?S5, ?S6, ?S1, ?S2, ?S3 in *. cbn in *. rewrite ?pages_of_nil, ?app_nil_r in *.
  split.
  - apply (Permutation_app_inv_l owned). by rewrite O1, O2.
  - apply (Permutation_app_inv_l (images (unlink π (waiting g)))). rewrite I1.
    unfold waiting. by rewrite S3, I2.
Qed.
End groups.

Lemma reaches_sizes d size size_swa ps ns dbg a owned :
  0 < ps → reaches d size size_swa ps ns dbg a owned →
  Allocator.size (full_attn_allocator a) = size ∧ Allocator.size (swa_attn_allocator a) = size_swa ∧ swa_page_size a = ps.
Proof.
  intros Hps. induction 1 as [|a owned op out a' _ IH _ _ Hrun].
  - unfold Swa.init, Swa.clear, sub_clear, sub_init. cbn. by destruct (ps =? 1).
  - apply run_op_sizes in Hrun as (-> & -> & ->). done.
Qed.

(** ** Claims *)

Section claims.
Context (d : Device) `{!DeviceLaws d}.
Context (size size_swa page_size : Z) (need_sort debug : bool).
Local Abbreviation reached := (reaches d size size_swa page_size need_sort debug).

(** C21: from a new hybrid allocator (any sizes, any page size), a client that allocates, extends, decodes and frees
    in any order, with or without free groups, never meets a failing assertion or an index out of the table: each
    operation it may run returns.  What it has to see to: it calls each operation by its contract ([allowed]: it
    allocates for rows whose open pages it owns, frees only pages it owns, each once, the full slots alone only of
    pages without sliding-window slots, allocates a window tail on whole pages, and opens a group before it closes it),
    and it runs a decode step only when both pools have the pages of the step, now and in all the steps before
    ([served]); [alloc_decode] does not check this, while the other allocations check the pools and return None when
    one is short. *)
Theorem swa_operations_never_fail a owned op :
  0 < page_size → 0 ≤ size → 0 ≤ size_swa → reached a owned → allowed a owned op → served a op →
  ∃ out a', run_op d op a = Ok (out, a') ∧ reached a' (owned_after a owned op out).
Proof.
  intros Hps Hs Hs' Hr Hal Hse. destruct (reaches_wf d size size_swa page_size need_sort debug a owned Hps Hs Hs' Hr) as (π & Hw).
  destruct (op_spec d a owned π op Hw Hal Hse) as (out & a' & Hrun & _). exists out, a'. split; [done|].
  by apply (reaches_step d _ _ _ _ _ a owned op out a').
Qed.

(** C10: once the client owns no page and no free group is open, both pools of the hybrid allocator are whole again,
    every page of each exactly once, and the table is all zeros over the slots in use.  This holds after any sequence
    of allocations, extensions, decode steps, frees and free groups in which the client kept to the contract of each
    operation ([allowed]: above all it freed only pages it owned) and each decode step found its pages in both pools;
    a decode step on a pool that is short loses pages, since [alloc_decode] does not check the pools first. *)
Theorem swa_no_page_lost a :
  0 < page_size → 0 ≤ size → 0 ≤ size_swa → reached a [] → closed a →
  held (full_attn_allocator a) ≡ₚ zrange 1 (size / page_size + 1) ∧
  held (swa_attn_allocator a) ≡ₚ zrange 1 (size_swa / page_size + 1) ∧
  Swa.full_available_size a = size / page_size * page_size ∧
  Swa.swa_available_size a = size_swa / page_size * page_size ∧
  (∀ x, 0 ≤ x < (size / page_size + 1) * page_size → full_to_swa_index_mapping a !! Z.to_nat x = Some 0).
Proof.
  intros Hps Hs Hs' Hr (C1 & C2 & C3). pose proof (reaches_sizes d _ _ _ _ _ a [] Hps Hr) as (S1 & S2 & S3).
  destruct (reaches_wf d size size_swa page_size need_sort debug a [] Hps Hs Hs' Hr) as (π & Hw).
  assert (∀ p, π !! p = None) as Hπ.
  { intros p. destruct (π !! p) eqn:E; [|done]. pose proof (sw_dom _ _ _ Hw p ltac:(by eexists)) as Hp.
    rewrite C1 in Hp. cbn in Hp. rewrite pages_of_nil in Hp. by apply elem_of_nil in Hp. }
  assert (π = ∅) as -> by (by apply map_empty).
  pose proof (sw_owned _ _ _ Hw) as HO. pose proof (sw_images _ _ _ Hw) as HI.
  unfold pending_full, pending_swa, images, last_page in *. rewrite C1, C2, C3, S1, S2, S3, ?map_to_list_empty in *. cbn in *.
  rewrite !pages_of_nil, !app_nil_r in *. split; [done|]. split; [done|].
  unfold Swa.full_available_size, Swa.swa_available_size.
  assert (0 ≤ size / page_size ∧ 0 ≤ size_swa / page_size) as [? ?] by (split; by apply Z.div_pos).
  split_and!.
  - rewrite sub_available_eq by apply Hw. rewrite HO, zlen_zrange, S3 by lia. lia.
  - rewrite sub_available_eq by apply Hw. rewrite HI, zlen_zrange, S3 by lia. lia.
  - intros x Hx. destruct (sw_entry _ _ _ Hw x) as (v & -> & [->|(q & Hq & _)]); [|done|by rewrite lookup_empty in Hq].
    unfold last_page. by rewrite S1, S3.
Qed.

(** C19: a free group changes when pages return, not which ones: running frees of any of the three kinds one after the
    other, or inside [free_group_begin] and [free_group_end], both succeed and leave the same free pages in both pools
    and the same table, with no group open. *)
Theorem swa_group_equals_direct a owned ops :
  0 < page_size → 0 ≤ size → 0 ≤ size_swa → reached a owned → closed a → frees_ready d ops a owned →
  ∃ b g, run_ops d ops a = Ok b ∧ (run_ops d ops (Swa.free_group_begin a) ≫= Swa.free_group_end) = Ok g ∧ same_pools b g.
Proof.
  intros Hps Hs Hs' Hr Hc Hops. destruct (reaches_wf d size size_swa page_size need_sort debug a owned Hps Hs Hs' Hr) as (π & Hw).
  destruct (group_begin_spec a owned π Hw Hc) as [Hw0 Hg0].
  assert (group_sim a (Swa.free_group_begin a) owned π) as Hsim.
  { assert (waiting (Swa.free_group_begin a) = []) as Hn by apply pages_of_nil.
    constructor; rewrite ?Hn; try done. apply zeroed_nil. }
  destruct (sim_run d a _ owned π ops Hsim Hops) as (b & g & owned' & π' & Hb & Hg & Hsim').
  destruct (sim_end b g owned' π' Hsim') as (g' & Hend & Hsame). exists b, g'. split; [done|]. rewrite Hg. by split.
Qed.

(** C40: [alloc_decode] takes pages from the full pool before it looks at the sliding-window pool, and does not give them
    back: when only the sliding-window pool is short it returns None, yet every page the batch needed is gone from the
    full pool although no request got it. *)
Theorem swa_decode_short_loses_pages a owned reqs :
  0 < page_size → 0 ≤ size → 0 ≤ size_swa → reached a owned → batch_ready a owned reqs →
  Forall (λ r, e_seq r = zlen (e_row r) + 1) reqs → debug_mode (swa_attn_allocator a) = false →
  zlen (held (swa_attn_allocator a)) < need_pages a reqs ≤ zlen (held (full_attn_allocator a)) →
  ∃ a', Swa.alloc_decode d (seq_lens reqs) (last_locs reqs) a = Ok (None, a') ∧
    zlen (held (full_attn_allocator a')) = zlen (held (full_attn_allocator a)) - need_pages a reqs ∧
    ∃ lost, zlen lost = need_pages a reqs ∧
      (∀ p, p ∈ lost → (p ∉ owned) ∧ (p ∉ held (full_attn_allocator a')) ∧ p ∉ pending_full a').
Proof.
  intros Hps Hs Hs' Hr Hb Hone Hdbg Hneed.
  destruct (reaches_wf d size size_swa page_size need_sort debug a owned Hps Hs Hs' Hr) as (π & Hw).
  destruct (decode_short d a owned π Hw reqs Hb Hone Hdbg Hneed) as (lost & f & s & Hrun & Hl & HP & _).
  exists (set_swa (set_full a f) s). split; [done|]. split; [rewrite <-HP, zlen_app; cbn; lia|]. exists lost. split; [done|].
  intros p Hp. pose proof (owned_NoDup a owned π Hw) as Hno. rewrite <-HP in Hno.
  apply NoDup_app in Hno as (_ & Hn1 & Hn2). apply NoDup_app in Hn2 as (Hn2 & Hn3 & _). apply NoDup_app in Hn2 as (_ & Hn2 & _).
  split_and!.
  - intros Ho. apply (Hn1 p Ho). rewrite !elem_of_app. by left; left.
  - by apply Hn2.
  - apply (Hn3 p), elem_of_app. by left.
Qed.
End claims.

(** ** A session: a request of six tokens on pages of four, freed again *)

Definition fresh_req (n : Z) : ereq := mkEReq [] [] n.

Lemma fresh_ready a n : 1 < swa_page_size a → 0 ≤ n → batch_ready a [] [fresh_req n].
Proof.
  intros Hps Hn. constructor; [done| | |by vm_compute; constructor|by intros p ?%elem_of_nil].
  - apply Forall_singleton. split; [by intros i x Hx|]. cbn. change (zlen (@nil Z)) with 0. split; [|lia].
    unfold npages. by rewrite Z.div_small by lia.
  - by apply Forall_singleton.
Qed.

Definition swa_after (ops : list Op) (size size_swa : Z) (debug : bool) : SWA :=
  match run_ops backwards ops (Swa.init size size_swa 4 false debug) with Ok a => a | Err _ => Swa.init 0 0 4 false false end.
Definition six_tokens : SWA := Eval vm_compute in swa_after [OpExtend [fresh_req 6]] 16 8 true.

Lemma six_tokens_reached : reaches backwards 16 8 4 false true six_tokens [1; 2].
Proof.
  apply (reaches_step backwards 16 8 4 false true (Swa.init 16 8 4 false true) [] (OpExtend [fresh_req 6]) (Some [4; 5; 6; 7; 8; 9])).
  - constructor.
  - by apply fresh_ready.
  - done.
  - vm_compute. reflexivity.
Qed.

(** A request of eight tokens, whose next token needs a page of both pools. *)
Definition eight_tokens : SWA := Eval vm_compute in swa_after [OpExtend [fresh_req 8]] 16 12 true.
Definition eighth : ereq := mkEReq [1; 2] [4; 5; 6; 7; 8; 9; 10; 11] 9.

Lemma eight_tokens_reached : reaches backwards 16 12 4 false true eight_tokens [1; 2].
Proof.
  apply (reaches_step backwards 16 12 4 false true (Swa.init 16 12 4 false true) [] (OpExtend [fresh_req 8])
    (Some [4; 5; 6; 7; 8; 9; 10; 11])).
  - constructor.
  - by apply fresh_ready.
  - done.
  - vm_compute. reflexivity.
Qed.

Lemma swa_operations_never_fail_witness :
  ∃ out a', run_op backwards (OpDecode [eighth]) eight_tokens = Ok (out, a') ∧
    reaches backwards 16 12 4 false true a' (owned_after eight_tokens [1; 2] (OpDecode [eighth]) out).
Proof.
  apply (swa_operations_never_fail backwards 16 12 4 false true eight_tokens [1; 2] (OpDecode [eighth]));
    [lia|lia|lia|exact eight_tokens_reached|split|].
  - constructor; [done|..].
    + change (swa_page_size eight_tokens) with 4. apply Forall_singleton. split; [|by split_and!]. intros i x Hx.
      do 8 (destruct i as [|i]; [vm_compute in Hx; injection Hx as <-; eexists; vm_compute; split; reflexivity|]). done.
    + apply Forall_singleton. intros _. split; [by_evaluation|]. exists 11. split; [vm_compute; reflexivity|done].
    + by_evaluation.
    + by_evaluation.
  - by apply Forall_singleton.
  - vm_compute. split; congruence.
Defined.

Definition six_freed : SWA := Eval vm_compute in swa_after [OpExtend [fresh_req 6]; OpFree [4; 9]] 16 8 true.

Lemma six_freed_reached : reaches backwards 16 8 4 false true six_freed [].
Proof.
  apply (reaches_step backwards 16 8 4 false true six_tokens [1; 2] (OpFree [4; 9]) None).
  - exact six_tokens_reached.
  - split; by_evaluation.
  - done.
  - vm_compute. reflexivity.
Qed.

Lemma swa_no_page_lost_witness :
  held (full_attn_allocator six_freed) ≡ₚ zrange 1 (16 / 4 + 1) ∧ held (swa_attn_allocator six_freed) ≡ₚ zrange 1 (8 / 4 + 1).
Proof.
  destruct (swa_no_page_lost backwards 16 8 4 false true six_freed) as (H1 & H2 & _);
    [lia|lia|lia|exact six_freed_reached|vm_compute; by split_and!|]. exact (conj H1 H2).
Defined.

Lemma swa_group_equals_direct_witness :
  ∃ b g, run_ops backwards [OpFreeSwa [4]; OpFree [9]; OpFreeFull [4]] six_tokens = Ok b ∧
    (run_ops backwards [OpFreeSwa [4]; OpFree [9]; OpFreeFull [4]] (Swa.free_group_begin six_tokens) ≫= Swa.free_group_end) = Ok g ∧
    same_pools b g.
Proof.
  apply (swa_group_equals_direct backwards 16 8 4 false true six_tokens [1; 2]); [lia|lia|lia|exact six_tokens_reached|vm_compute; by split_and!|].
  - split; [done|]. split; [split; by_evaluation|]. intros out a' Ha. vm_compute in Ha. injection Ha as <- <-.
    split; [done|]. split; [split; by_evaluation|]. intros out a' Ha. vm_compute in Ha. injection Ha as <- <-.
    split; [done|]. split; [|done]. split; [split; by_evaluation|].
    intros x Hx Hp. apply elem_of_pages_of in Hp as (i & Hi%list_elem_of_singleton & Hp). subst i. change (x / 4 = 1) in Hp.
    assert (x = 4 ∨ x = 5 ∨ x = 6 ∨ x = 7) as Hcases by (Z.div_mod_to_equations; lia).
    by repeat destruct Hcases as [->|Hcases]; subst.
Defined.

(** One page left in the full pool, none in the sliding-window one. *)
Definition swa_full : SWA := Eval vm_compute in swa_after [OpExtend [fresh_req 4]] 8 4 false.

Lemma swa_decode_short_loses_pages_witness :
  ∃ a', Swa.alloc_decode backwards [5] [7] swa_full = Ok (None, a') ∧ zlen (held (full_attn_allocator a')) = 0.
Proof.
  destruct (swa_decode_short_loses_pages backwards 8 4 4 false false swa_full [1] [mkEReq [1] [4; 5; 6; 7] 5]) as (a' & H1 & H2 & _);
    [lia|lia|lia|..].
  - apply (reaches_step backwards 8 4 4 false false (Swa.init 8 4 4 false false) [] (OpExtend [fresh_req 4]) (Some [4; 5; 6; 7])).
    + constructor.
    + by apply fresh_ready.
    + done.
    + vm_compute. reflexivity.
  - constructor; [done|..].
    + change (swa_page_size swa_full) with 4. apply Forall_singleton. split; [|by split_and!]. intros i x Hx.
      do 4 (destruct i as [|i]; [vm_compute in Hx; injection Hx as <-; eexists; vm_compute; split; reflexivity|]). done.
    + apply Forall_singleton. intros _. split; [by_evaluation|]. exists 7. split; [vm_compute; reflexivity|done].
    + by_evaluation.
    + by_evaluation.
  - by apply Forall_singleton.
  - vm_compute. reflexivity.
  - vm_compute. split; congruence.
  - exists a'. split; [exact H1|rewrite H2; vm_compute; reflexivity].
Defined.
