(* ===== verification/Finish.v ===== *)
(** * When a request is finished

    [Req.update_finish_state] of [managers/schedule_batch.py] and the checks it runs
    after every step on the newly accepted tokens: the vocabulary boundary, the stop
    strings and patterns, the stop tokens, the length limit and the grammar; and the
    prefix check of the streaming output.  The tokenizer and the engine of regular
    expressions are parameters. *)

From S2P Require Import Prelude.

(** ** The code that is not part of the repository *)

(** [tokenizer.decode] and [re.search]; [None] is an [re.error] or a
    [RecursionError]. *)
Class TextOps := {
  decode : list Z → string;
  re_search : string → string → option bool;
}.

(** ** Requests *)

Inductive FinishReason :=
| FINISH_MATCHED_TOKEN (matched : Z)
| FINISH_MATCHED_STR (matched : string)
| FINISHED_MATCHED_REGEX (matched : string)
| FINISH_LENGTH (length : Z)
| FINISH_ABORT (message : string).

#[export] Instance finish_reason_eq_dec : EqDecision FinishReason.
Proof. solve_decision. Defined.

(** The [sampling_params] the checks read, with the end-of-sequence tokens of the
    model, the size of the vocabulary and the two fields of the tokenizer; and
    [min_new_tokens], which only the intake and the sampler look at.  The sets
    of tokens are lists in the order in which Python iterates them. *)
Record StopParams := mkStop {
  f_max_new_tokens : Z;
  stop_strs : list string;
  stop_regex_strs : list string;
  stop_str_max_len : Z;
  stop_regex_max_len : Z;
  stop_token_ids : list Z;
  f_ignore_eos : bool;
  eos_token_ids : list Z;
  vocab_size : option Z;
  tokenizer : option (Z * list Z);
  f_min_new_tokens : Z;
}.

(** [grammar_terminated] is [grammar.is_terminated()], [None] without a grammar. *)
Record GenState := mkGen {
  out_ids : list Z;
  decoded_text : string;
  finished_reason : option FinishReason;
  to_finish : option FinishReason;
  finished_len : option Z;
  grammar_terminated : option bool;
}.

Definition finish (s : GenState) (r : FinishReason) (n : option Z) : GenState :=
  mkGen (out_ids s) (decoded_text s) (Some r) (to_finish s) n (grammar_terminated s).
Definition set_reason (s : GenState) (r : FinishReason) : GenState := finish s r (finished_len s).
Definition set_out_ids (s : GenState) (l : list Z) : GenState :=
  mkGen l (decoded_text s) (finished_reason s) (to_finish s) (finished_len s) (grammar_terminated s).

Definition finished (s : GenState) : bool := bool_decide (finished_reason s ≠ None).

Definition output_ids_through_stop (s : GenState) : list Z :=
  match finished_len s with Some n => slice_to (out_ids s) n | None => out_ids s end.

(** [needle in text] *)
Definition str_in (needle text : string) : bool :=
  match String.index 0 needle text with Some _ => true | None => false end.

Section checks.
Context `{TextOps} (sp : StopParams).

(** ** Stop strings *)

Definition _stop_match_tail_len (new_accepted_len : Z) (s : GenState) : Z :=
  let max_len_tail_str := Z.max (stop_str_max_len sp + 1) (stop_regex_max_len sp + 1) in
  Z.min (max_len_tail_str + Z.max (new_accepted_len - 1) 0) (zlen (out_ids s)).

Definition tokenizer_decode (l : list Z) : res string :=
  match tokenizer sp with Some _ => Ok (decode l) | None => Err AttributeError end.

Definition tail_str (new_accepted_len : Z) (s : GenState) : res string :=
  if (zlen (stop_strs sp) =? 0) && (zlen (stop_regex_strs sp) =? 0) then Ok ""%string
  else tokenizer_decode (py_slice (out_ids s) (Some (- _stop_match_tail_len new_accepted_len s)) None).

(** The suffixes of [tail] of the lengths [1..n] against the prefixes of [stop]. *)
Fixpoint suffix_is_prefix (n : nat) (tail stop : string) : bool :=
  match n with
  | O => false
  | S m => String.eqb (String.substring (String.length tail - n) n tail) (String.substring 0 n stop) || suffix_is_prefix m tail stop
  end.

Definition check_match_stop_str_prefix (s : GenState) : res bool :=
  if zlen (stop_strs sp) =? 0 then Ok false
  else
    t ← tail_str 1 s;
    if String.eqb t "" then Ok false
    else Ok (existsb (λ stop, negb (String.eqb stop "") &&
           (str_in stop t || suffix_is_prefix (Nat.min (String.length t) (String.length stop)) t stop)) (stop_strs sp)).

(** [matched] on the first [n] tokens of the window, for [n] in the given list. *)
Fixpoint first_match (matched : string → res bool) (window : list Z) (counts : list Z) : res (option Z) :=
  match counts with
  | [] => Ok None
  | n :: counts =>
      text ← tokenizer_decode (slice_to window n);
      hit ← matched text;
      if (hit : bool) then Ok (Some n) else first_match matched window counts
  end.

Definition _locate_str_stop_finished_len (matched : string → res bool) (new_accepted_len : Z) (s : GenState) : res Z :=
  let start := zlen (out_ids s) - _stop_match_tail_len new_accepted_len s in
  let window := slice_from (out_ids s) start in
  n ← first_match matched window (zrange (Z.max 1 (zlen window - new_accepted_len + 1)) (zlen window));
  Ok match n with Some n => start + n | None => zlen (out_ids s) end.

Definition stop_str_matched (stop text : string) : res bool := Ok (str_in stop text).
Definition stop_regex_matched (r text : string) : res bool :=
  match re_search r text with Some b => Ok b | None => Err RuntimeError end.

Fixpoint check_stop_strs (stops : list string) (tail : string) (n : Z) (s : GenState) : res (bool * GenState) :=
  match stops with
  | [] => Ok (false, s)
  | stop :: stops =>
      if str_in stop tail then
        len ← _locate_str_stop_finished_len (stop_str_matched stop) n s;
        Ok (true, finish s (FINISH_MATCHED_STR stop) (Some len))
      else if str_in stop (decoded_text s) then Ok (true, set_reason s (FINISH_MATCHED_STR stop))
      else check_stop_strs stops tail n s
  end.

(** A pattern that does not compile aborts the request and ends the search. *)
Fixpoint check_stop_regexes (stops : list string) (tail : string) (n : Z) (s : GenState) : res (bool * GenState) :=
  match stops with
  | [] => Ok (false, s)
  | stop :: stops =>
      match re_search stop tail with
      | None => Ok (false, set_reason s (FINISH_ABORT ("invalid stop_regex " ++ stop)))
      | Some true =>
          len ← _locate_str_stop_finished_len (stop_regex_matched stop) n s;
          Ok (true, finish s (FINISHED_MATCHED_REGEX stop) (Some len))
      | Some false => check_stop_regexes stops tail n s
      end
  end.

Definition _check_str_based_finish (n : Z) (s : GenState) : res (bool * GenState) :=
  if (zlen (stop_strs sp) >? 0) || (zlen (stop_regex_strs sp) >? 0) then
    tail ← tail_str n s;
    '(hit, s) ← check_stop_strs (stop_strs sp) tail n s;
    if (hit : bool) then Ok (true, s) else check_stop_regexes (stop_regex_strs sp) tail n s
  else Ok (false, s).

(** ** Stop tokens *)

Definition is_stop_token (t : Z) : bool :=
  bool_decide (t ∈ stop_token_ids sp) || bool_decide (t ∈ eos_token_ids sp) ||
  match tokenizer sp with
  | Some (eos, additional) => (t =? eos) || bool_decide (t ∈ additional)
  | None => false
  end.

(** [base] is the position of the first of the tokens. *)
Fixpoint check_tokens (base : Z) (tokens : list Z) (s : GenState) : bool * GenState :=
  match tokens with
  | [] => (false, s)
  | t :: tokens =>
      if is_stop_token t then (true, finish s (FINISH_MATCHED_TOKEN t) (Some (base + 1)))
      else check_tokens (base + 1) tokens s
  end.

Definition _check_token_based_finish (tokens : list Z) (s : GenState) : bool * GenState :=
  if f_ignore_eos sp then (false, s) else check_tokens (zlen (out_ids s) - zlen tokens) tokens s.

(** ** The vocabulary boundary *)

Definition out_of_vocab (t : Z) : bool :=
  (t <? 0) || match vocab_size sp with Some n => n <=? t | None => false end.

Definition py_store {A} (l : list A) (i : Z) (x : A) : list A := <[Z.to_nat i := x]> l.

Fixpoint check_vocab (offset : Z) (tokens : list Z) (s : GenState) : bool * GenState :=
  match tokens with
  | [] => (false, s)
  | t :: tokens =>
      if out_of_vocab t then
        let s := match stop_token_ids sp with x :: _ => set_out_ids s (py_store (out_ids s) offset x) | [] => s end in
        let s := match eos_token_ids sp with x :: _ => set_out_ids s (py_store (out_ids s) offset x) | [] => s end in
        (true, finish s (FINISH_MATCHED_STR "NaN happened") (Some (offset + 1)))
      else check_vocab (offset + 1) tokens s
  end.

Definition _check_vocab_boundary_finish (tokens : list Z) (s : GenState) : bool * GenState :=
  check_vocab (zlen (out_ids s) - zlen tokens) tokens s.

(** ** The finish state *)

Definition _cap_finished_len_at_max_new_tokens (s : GenState) : GenState :=
  match finished_len s with
  | Some n => if n >? f_max_new_tokens sp then finish s (FINISH_LENGTH (f_max_new_tokens sp)) (Some (f_max_new_tokens sp)) else s
  | None => s
  end.

Definition update_finish_state (new_accepted_len : Z) (s : GenState) : res GenState :=
  if finished s then Ok s
  else
    match to_finish s with
    | Some r => Ok (mkGen (out_ids s) (decoded_text s) (Some r) None (finished_len s) (grammar_terminated s))
    | None =>
        let new_accepted_tokens := py_slice (out_ids s) (Some (- new_accepted_len)) None in
        let '(hit, s) := _check_vocab_boundary_finish new_accepted_tokens s in
        if (hit : bool) then Ok (_cap_finished_len_at_max_new_tokens s)
        else
          '(hit, s) ← _check_str_based_finish new_accepted_len s;
          if (hit : bool) then Ok (_cap_finished_len_at_max_new_tokens s)
          else
            let '(hit, s) := _check_token_based_finish new_accepted_tokens s in
            if (hit : bool) then Ok (_cap_finished_len_at_max_new_tokens s)
            else if zlen (out_ids s) >=? f_max_new_tokens sp then
              Ok (finish s (FINISH_LENGTH (f_max_new_tokens sp)) (Some (f_max_new_tokens sp)))
            else
              match grammar_terminated s with
              | Some true => t ← py_get (out_ids s) (-1); Ok (set_reason s (FINISH_MATCHED_TOKEN t))
              | _ => Ok s
              end
    end.

(** A step of the decode loop on one request: [output_ids.extend] and the update. *)
Definition accept_run (run : list Z) (s : GenState) : res GenState :=
  update_finish_state (zlen run) (set_out_ids s (out_ids s ++ run)).
End checks.
