(* ===== verification/FinishTheorems.v ===== *)
(** * Finishing a request

    The theorems of [Finish]: a run of accepted tokens finishes a request where its
    tokens one by one would, and never beyond the length limit. *)

From S2P Require Import Prelude Finish.

Ltac case_geb := repeat match goal with |- context [?a >=? ?b] => destruct (Z.geb_spec a b) end.

(** [l[-len(b):]] of [l = a + b] *)
Lemma py_slice_tail {A} (a b : list A) : b ≠ [] → py_slice (a ++ b) (Some (- zlen b)) None = b.
Proof.
  intros Hb. assert (0 < zlen b) by (destruct b; [done|rewrite zlen_cons; pose proof (zlen_nonneg b); lia]).
  pose proof (zlen_nonneg a). unfold py_slice, slice_indices. cbn [from_option]. unfold clamp_index. rewrite zlen_app.
  rewrite (proj2 (Z.ltb_lt (- zlen b) 0)) by lia. replace (Z.max _ 0) with (zlen a) by lia.
  replace (zlen a + zlen b - zlen a) with (zlen b) by lia. unfold zlen. rewrite !Nat2Z.id, drop_app_length. by apply take_ge.
Qed.

Section plain.
Context `{TextOps} (sp : StopParams).
Hypothesis Hstrs : stop_strs sp = [].
Hypothesis Hregex : stop_regex_strs sp = [].
Local Abbreviation max_new := (f_max_new_tokens sp).

(** The first stop token of a run, with the length of the output through it. *)
Fixpoint find_stop (n : Z) (run : list Z) : option (Z * Z) :=
  match run with
  | [] => None
  | t :: run => if is_stop_token sp t then Some (t, n + 1) else find_stop (n + 1) run
  end.

Definition stop_of (n : Z) (run : list Z) : option (Z * Z) := if f_ignore_eos sp then None else find_stop n run.

(** How a run that follows [n] tokens ends the request. *)
Definition verdict (n : Z) (run : list Z) : option (FinishReason * Z) :=
  match stop_of n run with
  | Some (t, m) => if m >? max_new then Some (FINISH_LENGTH max_new, max_new) else Some (FINISH_MATCHED_TOKEN t, m)
  | None => if n + zlen run >=? max_new then Some (FINISH_LENGTH max_new, max_new) else None
  end.

(** A request in the middle of its generation. *)
Record generating (s : GenState) : Prop := {
  gn_reason : finished_reason s = None;
  gn_to_finish : to_finish s = None;
  gn_len : finished_len s = None;
  gn_grammar : grammar_terminated s ≠ Some true;
  gn_room : zlen (out_ids s) < max_new;
}.

Lemma check_tokens_find base tokens s :
  check_tokens sp base tokens s =
  match find_stop base tokens with
  | Some (t, n) => (true, finish s (FINISH_MATCHED_TOKEN t) (Some n))
  | None => (false, s)
  end.
Proof. revert base. induction tokens as [|t tokens IH]; intros base; [done|]. cbn. destruct (is_stop_token sp t); [done|apply IH]. Qed.

Lemma vocab_in_range base tokens s : Forall (λ t, out_of_vocab sp t = false) tokens → check_vocab sp base tokens s = (false, s).
Proof. intros Ht. revert base. induction Ht as [|t tokens Ht _ IH]; intros base; [done|]. cbn. rewrite Ht. apply IH. Qed.

Definition stopped (s : GenState) (v : option (FinishReason * Z)) : GenState :=
  match v with Some (r, n) => finish s r (Some n) | None => s end.

Lemma accept_run_verdict run s :
  generating s → run ≠ [] → Forall (λ t, out_of_vocab sp t = false) run →
  accept_run sp run s = Ok (stopped (set_out_ids s (out_ids s ++ run)) (verdict (zlen (out_ids s)) run)).
Proof.
  intros [G1 G2 G3 G4 G5] Hne Hv. unfold accept_run, update_finish_state.
  assert (finished (set_out_ids s (out_ids s ++ run)) = false) as ->.
  { unfold finished. cbn. rewrite G1. done. }
  cbn [to_finish set_out_ids]. rewrite G2. cbn [out_ids set_out_ids]. rewrite py_slice_tail by done.
  unfold _check_vocab_boundary_finish. rewrite vocab_in_range by done.
  unfold _check_str_based_finish. rewrite Hstrs, Hregex. change ((zlen (@nil string) >? 0) || (zlen (@nil string) >? 0)) with false. cbn [mbind res_bind].
  unfold _check_token_based_finish, verdict, stop_of. cbn [out_ids set_out_ids]. rewrite zlen_app.
  replace (zlen (out_ids s) + zlen run - zlen run) with (zlen (out_ids s)) by lia.
  destruct (f_ignore_eos sp); [|rewrite check_tokens_find; destruct (find_stop _ run) as [[t n]|]];
    cbv beta iota; cbn [out_ids set_out_ids grammar_terminated]; rewrite ?zlen_app.
  - destruct (_ >=? _); [done|]. by destruct (grammar_terminated s) as [[]|].
  - unfold _cap_finished_len_at_max_new_tokens. cbn [finished_len finish]. by destruct (_ >? _).
  - destruct (_ >=? _); [done|]. by destruct (grammar_terminated s) as [[]|].
Qed.

(** ** One token at a time *)

Fixpoint accept_steps (run : list Z) (s : GenState) : res GenState :=
  match run with
  | [] => Ok s
  | t :: run => s ← accept_run sp [t] s; if finished s then Ok s else accept_steps run s
  end.

Lemma find_stop_range n run t m : find_stop n run = Some (t, m) → n < m ≤ n + zlen run.
Proof.
  revert n. induction run as [|x run IH]; intros n Hf; [done|]. cbn in Hf. rewrite zlen_cons. pose proof (zlen_nonneg run).
  destruct (is_stop_token sp x); [injection Hf; lia|]. apply IH in Hf. lia.
Qed.

(** The verdict on a run starts with the one on its first token. *)
Lemma verdict_cons n t run :
  n < max_new →
  verdict n (t :: run) = match verdict n [t] with Some v => Some v | None => verdict (n + 1) run end.
Proof.
  intros Hn. pose proof (zlen_nonneg run) as Hz. unfold verdict, stop_of. rewrite zlen_cons. cbn [find_stop]. destruct (f_ignore_eos sp) eqn:Hi.
  - change (zlen [t]) with 1. case_geb; done || lia.
  - destruct (is_stop_token sp t); [by destruct (n + 1 >? max_new)|]. change (zlen [t]) with 1.
    destruct (find_stop (n + 1) run) as [[t' m]|] eqn:Hf.
    + apply find_stop_range in Hf. destruct (Z.geb_spec (n + 1) max_new); [|done]. by destruct (Z.gtb_spec m max_new); [|lia].
    + case_geb; done || lia.
Qed.

Lemma verdict_range n run r m : n < max_new → run ≠ [] → verdict n run = Some (r, m) → n < m ≤ max_new ∧ m ≤ n + zlen run.
Proof.
  intros Hn Hne. destruct run as [|t run]; [done|]. pose proof (zlen_nonneg run). unfold verdict, stop_of.
  assert (∀ v, (if n + zlen (t :: run) >=? max_new then Some (FINISH_LENGTH max_new, max_new) else None) = Some v →
    n < v.2 ≤ max_new ∧ v.2 ≤ n + zlen (t :: run)) as Hlen.
  { intros v. destruct (Z.geb_spec (n + zlen (t :: run)) max_new); [|done]. intros [= <-]. cbn [snd]. lia. }
  destruct (f_ignore_eos sp); [intros Hv; exact (Hlen _ Hv)|]. destruct (find_stop n (t :: run)) as [[t' k]|] eqn:Hf; [|intros Hv; exact (Hlen _ Hv)].
  apply find_stop_range in Hf. destruct (Z.gtb_spec k max_new); intros [= <- <-]; lia.
Qed.

Lemma accept_steps_verdict run s :
  generating s → Forall (λ t, out_of_vocab sp t = false) run →
  ∃ k, accept_steps run s = Ok (stopped (set_out_ids s (out_ids s ++ take k run)) (verdict (zlen (out_ids s)) run)) ∧
    match verdict (zlen (out_ids s)) run with Some (_, n) => Z.of_nat k = n - zlen (out_ids s) | None => k = length run end.
Proof.
  intros Hs Hv. revert s Hs. induction Hv as [|t run Ht Hv IH]; intros s Hs.
  { exists 0%nat. cbn. pose proof (gn_room s Hs). rewrite app_nil_r.
    assert (verdict (zlen (out_ids s)) [] = None) as ->.
    { unfold verdict, stop_of. rewrite zlen_nil, Z.add_0_r. cbn [find_stop]. destruct (f_ignore_eos sp); by destruct (Z.geb_spec (zlen (out_ids s)) max_new); [lia|]. }
    cbn. split; [|done]. by destruct s. }
  cbn [accept_steps]. rewrite accept_run_verdict; [|done|done|by repeat constructor]. cbn [mbind res_bind].
  pose proof (gn_room s Hs) as Hroom. rewrite (verdict_cons _ t run Hroom).
  destruct (verdict (zlen (out_ids s)) [t]) as [[r n]|] eqn:Hone; cbn [stopped].
  - exists 1%nat. split; [done|]. apply verdict_range in Hone as Hr; [|done|done]. change (zlen [t]) with 1 in Hr. lia.
  - assert (generating (set_out_ids s (out_ids s ++ [t]))) as Hs'.
    { destruct Hs as [G1 G2 G3 G4 G5]. constructor; try done. cbn. rewrite zlen_app. change (zlen [t]) with 1.
      unfold verdict, stop_of in Hone. cbn [find_stop] in Hone. change (zlen [t]) with 1 in Hone.
      destruct (f_ignore_eos sp); [|destruct (is_stop_token sp t); [by destruct (_ >? _)|]];
        by destruct (Z.geb_spec (zlen (out_ids s) + 1) max_new). }
    destruct (IH _ Hs') as (k & Hrun & Hk). cbn [out_ids set_out_ids] in Hrun, Hk. rewrite zlen_app in Hrun, Hk. change (zlen [t]) with 1 in Hrun, Hk.
    assert (finished (set_out_ids s (out_ids s ++ [t])) = false) as ->.
    { unfold finished. rewrite (gn_reason _ Hs'). done. }
    exists (S k). rewrite Hrun. split.
    + cbn [take]. rewrite <-app_assoc. done.
    + destruct (verdict _ run) as [[r n]|]; cbn [length]; lia.
Qed.
End plain.

(** ** The length limit *)

Lemma str_in_empty stop text : str_in stop "" = true → str_in stop text = true.
Proof. unfold str_in. destruct stop; [|done]. intros _. by destruct text. Qed.

Section limit.
Context `{TextOps} (sp : StopParams).

(** A pattern compiles or it does not, whatever the text. *)
Definition regex_decided (r : string) : Prop := (∀ t, re_search r t ≠ None) ∨ (∀ t, re_search r t = None).

Definition has_len (s : GenState) : Prop := ∃ n, finished_len s = Some n ∧ 0 ≤ n.

Lemma vocab_len base tokens s :
  0 ≤ base → let '(hit, s') := check_vocab sp base tokens s in if (hit : bool) then has_len s' ∧ finished s' = true else s' = s.
Proof.
  revert base. induction tokens as [|t tokens IH]; intros base Hb; [done|]. cbn [check_vocab].
  destruct (out_of_vocab sp t); [|apply IH; lia]. split; [|done]. exists (base + 1). split; [done|lia].
Qed.

Lemma tokens_len base tokens s :
  0 ≤ base → let '(hit, s') := check_tokens sp base tokens s in if (hit : bool) then has_len s' ∧ finished s' = true else s' = s.
Proof.
  revert base. induction tokens as [|t tokens IH]; intros base Hb; [done|]. cbn [check_tokens].
  destruct (is_stop_token sp t); [|apply IH; lia]. split; [|done]. exists (base + 1). split; [done|lia].
Qed.

Hypothesis Htok : tokenizer sp ≠ None.

Lemma decode_ok l : ∃ t, tokenizer_decode sp l = Ok t.
Proof. unfold tokenizer_decode. destruct (tokenizer sp); [eauto|done]. Qed.

Lemma first_match_ok matched window counts :
  (∀ t, ∃ b, matched t = Ok b) → Forall (λ n, 0 ≤ n) counts →
  ∃ n, first_match sp matched window counts = Ok n ∧ from_option (λ n, 0 ≤ n) True n.
Proof.
  intros Hm Hc. induction Hc as [|n counts Hn _ IH]; [by exists None|]. cbn [first_match].
  destruct (decode_ok (slice_to window n)) as [t ->]. cbn [mbind res_bind]. destruct (Hm t) as [[] ->]; cbn [mbind res_bind]; [|done].
  by exists (Some n).
Qed.

Lemma locate_ok matched n s :
  (∀ t, ∃ b, matched t = Ok b) → ∃ m, _locate_str_stop_finished_len sp matched n s = Ok m ∧ 0 ≤ m.
Proof.
  intros Hm. unfold _locate_str_stop_finished_len. set (start := zlen (out_ids s) - _).
  assert (0 ≤ start) as Hs by (unfold start, _stop_match_tail_len; lia).
  set (window := slice_from _ _). destruct (first_match_ok matched window (zrange (Z.max 1 (zlen window - n + 1)) (zlen window)) Hm)
    as (k & -> & Hk).
  { apply Forall_forall. intros x Hx%elem_of_zrange. lia. }
  cbn [mbind res_bind]. eexists. split; [done|]. destruct k as [k|]; cbn in Hk; [lia|apply zlen_nonneg].
Qed.

Lemma strs_len stops tail n s :
  decoded_text s = ""%string →
  ∃ hit s', check_stop_strs sp stops tail n s = Ok (hit, s') ∧ if (hit : bool) then has_len s' ∧ finished s' = true else s' = s.
Proof.
  intros Hd. induction stops as [|stop stops IH]; [by exists false, s|]. cbn [check_stop_strs].
  destruct (str_in stop tail) eqn:Hin.
  - destruct (locate_ok (stop_str_matched stop) n s ltac:(by eexists)) as (m & -> & Hm). cbn [mbind res_bind].
    eexists true, _. split; [done|]. split; [|done]. by exists m.
  - rewrite Hd. destruct (str_in stop "") eqn:He; [|done]. apply (str_in_empty stop tail) in He. congruence.
Qed.

Lemma regexes_len stops tail n s :
  Forall regex_decided stops →
  ∃ hit s', check_stop_regexes sp stops tail n s = Ok (hit, s') ∧
    if (hit : bool) then has_len s' ∧ finished s' = true else s' = s ∨ ∃ r, s' = set_reason s (FINISH_ABORT r).
Proof.
  induction 1 as [|stop stops Hstop _ IH]; [exists false, s; split; [done|by left]|]. cbn [check_stop_regexes].
  destruct (re_search stop tail) as [[]|] eqn:Hr; [| |exists false; eexists; split; [done|]; right; by eexists].
  - destruct (locate_ok (stop_regex_matched stop) n s) as (m & -> & Hm).
    { intros t. unfold stop_regex_matched. destruct Hstop as [Hs|Hs]; [|congruence].
      destruct (re_search stop t) eqn:E; [eauto|by apply Hs in E]. }
    cbn [mbind res_bind]. eexists true, _. split; [done|]. split; [|done]. by exists m.
  - exact IH.
Qed.

Lemma str_based_len n s :
  decoded_text s = ""%string → Forall regex_decided (stop_regex_strs sp) →
  ∃ hit s', _check_str_based_finish sp n s = Ok (hit, s') ∧
    if (hit : bool) then has_len s' ∧ finished s' = true else s' = s ∨ ∃ r, s' = set_reason s (FINISH_ABORT r).
Proof.
  intros Hd Hr. unfold _check_str_based_finish. destruct (_ || _); [|exists false, s; split; [done|by left]].
  assert (∃ t, tail_str sp n s = Ok t) as [t ->]. { unfold tail_str. destruct (_ && _); [eauto|apply decode_ok]. }
  cbn [mbind res_bind]. destruct (strs_len (stop_strs sp) t n s Hd) as ([] & s' & -> & Hs); cbn [mbind res_bind].
  - by exists true, s'.
  - subst s'. by apply regexes_len.
Qed.

(** What the update leaves: an output within the limit. *)
Definition within_limit (s : GenState) : Prop :=
  if finished s then zlen (output_ids_through_stop s) ≤ f_max_new_tokens sp else zlen (out_ids s) < f_max_new_tokens sp.

Lemma capped_within s :
  0 ≤ f_max_new_tokens sp → has_len s ∧ finished s = true →
  let s' := _cap_finished_len_at_max_new_tokens sp s in within_limit s' ∧ ∀ s0, finished s' = false → s' = s0.
Proof.
  intros Hm [(n & Hn & Hpos) Hf]. unfold _cap_finished_len_at_max_new_tokens. rewrite Hn. unfold within_limit, output_ids_through_stop.
  destruct (Z.gtb_spec n (f_max_new_tokens sp)); cbv zeta; (split; [|done || congruence]).
  - change (zlen (slice_to (out_ids s) (f_max_new_tokens sp)) ≤ f_max_new_tokens sp). rewrite zlen_slice_to by done. lia.
  - rewrite Hf, Hn, zlen_slice_to by done. lia.
Qed.

Lemma last_token (l : list Z) : l ≠ [] → ∃ t, py_get l (-1) = Ok t.
Proof.
  intros Hne. unfold py_get. cbn [Z.ltb Z.compare]. assert (0 < zlen l) by (unfold zlen; destruct l; [done|cbn; lia]).
  replace (-1 <? 0) with true by done. destruct (Z.ltb_spec (-1 + zlen l) 0); [lia|].
  destruct (lookup_lt_is_Some_2 l (Z.to_nat (-1 + zlen l))) as [t ->]; [unfold zlen in *; lia|eauto].
Qed.

Lemma update_within n s :
  0 ≤ f_max_new_tokens sp → Forall regex_decided (stop_regex_strs sp) → out_ids s ≠ [] → decoded_text s = ""%string →
  finished_reason s = None → to_finish s = None → finished_len s = None →
  ∃ s', update_finish_state sp n s = Ok s' ∧ within_limit s' ∧ (finished s' = false → s' = s).
Proof.
  intros Hm Hreg Hne Hd G1 G2 G3. unfold update_finish_state.
  assert (finished s = false) as -> by (unfold finished; by rewrite G1). rewrite G2.
  set (tokens := py_slice (out_ids s) _ _).
  assert (0 ≤ zlen (out_ids s) - zlen tokens) as Hbase.
  { unfold tokens, py_slice. destruct (slice_indices _ _ _) as [x y]. unfold zlen. rewrite length_take, length_drop. lia. }
  pose proof (vocab_len (zlen (out_ids s) - zlen tokens) tokens s Hbase) as Hv. unfold _check_vocab_boundary_finish.
  destruct (check_vocab _ _ _ _) as [[] s1]; [eexists; split; [done|]; destruct (capped_within _ Hm ltac:(eassumption)); by split; [|intros; done || auto]|]. subst s1.
  destruct (str_based_len n s Hd Hreg) as (hit & s1 & -> & Hs). cbn [mbind res_bind].
  destruct hit; [eexists; split; [done|]; destruct (capped_within _ Hm ltac:(eassumption)); by split; [|intros; done || auto]|].
  assert (out_ids s1 = out_ids s ∧ finished_len s1 = None) as [Eo El].
  { destruct Hs as [->|[r ->]]; [done|]. by cbn. }
  assert (let '(hit, s2) := _check_token_based_finish sp tokens s1 in if (hit : bool) then has_len s2 ∧ finished s2 = true else s2 = s1) as Ht.
  { unfold _check_token_based_finish. destruct (f_ignore_eos sp); [done|]. apply tokens_len. by rewrite Eo. }
  destruct (_check_token_based_finish sp tokens s1) as [[] s2]; [eexists; split; [done|]; destruct (capped_within _ Hm ltac:(eassumption)); by split; [|intros; done || auto]|]. subst s2.
  rewrite Eo. destruct (Z.geb_spec (zlen (out_ids s)) (f_max_new_tokens sp)).
  { eexists. split; [done|]. split; [|done]. change (zlen (slice_to (out_ids s1) (f_max_new_tokens sp)) ≤ f_max_new_tokens sp). rewrite zlen_slice_to by done. lia. }
  assert (within_limit s1 ∧ (finished s1 = false → s1 = s)) as Hw.
  { split; [|by destruct Hs as [->|[r ->]]]. unfold within_limit, output_ids_through_stop. rewrite El, Eo. destruct (finished s1); lia. }
  destruct (grammar_terminated s1) as [[]|]; [|by eauto|by eauto].
  destruct (last_token (out_ids s) Hne) as [t ->]. cbn [mbind res_bind]. eexists. split; [done|]. split; [|done].
  unfold within_limit, output_ids_through_stop. cbn [finished_len set_reason finish]. rewrite El.
  change (zlen (out_ids s1) ≤ f_max_new_tokens sp). rewrite Eo. lia.
Qed.
End limit.

Module FinishDemo.
(** Tokens are characters; a pattern is a plain string, and one that opens a group
    does not compile. *)
#[export] Instance text : TextOps := {|
  decode l := foldr (λ t s, String (Ascii.ascii_of_nat (Z.to_nat t)) s) ""%string l;
  re_search r t := if str_in "(" r then None else Some (str_in r t);
|}.
Definition params (strs regexes : list string) : StopParams :=
  mkStop 5 strs regexes 2 0 [] false [10] (Some 256) (Some (10, [])) 0.
Definition start : GenState := mkGen [97; 98] "" None None None None.
End FinishDemo.
Import (hints) FinishDemo.

(** ** Properties *)

(** C29: a run of accepted tokens finishes a request like its tokens one by one.  Without
    stop strings and patterns, for a request in the middle of its generation and a
    run of tokens of the vocabulary, as speculative decoding accepts them in one
    step, [update_finish_state] on the whole run gives the same reason, the same
    [finished_len] and the same emitted output as the update after every single token
    up to the finish: a stop token beyond the length limit counts as the limit. *)
Theorem run_finishes_like_steps `{TextOps} (sp : StopParams) (s : GenState) (run : list Z) :
  stop_strs sp = [] → stop_regex_strs sp = [] → generating sp s → run ≠ [] →
  Forall (λ t, out_of_vocab sp t = false) run →
  ∃ a b, accept_run sp run s = Ok a ∧ accept_steps sp run s = Ok b ∧
    finished_reason a = finished_reason b ∧ finished_len a = finished_len b ∧
    output_ids_through_stop a = output_ids_through_stop b.
Proof.
  intros Hs Hr Hg Hne Hv. destruct (accept_steps_verdict sp Hs Hr run s Hg Hv) as (k & Hsteps & Hk).
  eexists _, _. split; [by apply accept_run_verdict|]. split; [exact Hsteps|].
  destruct (verdict sp (zlen (out_ids s)) run) as [[r n]|] eqn:Hv'; cbn [stopped].
  - split; [done|]. split; [done|]. apply verdict_range in Hv' as Hr'; [|apply Hg|done].
    unfold output_ids_through_stop. cbn [finished_len finish out_ids set_out_ids]. pose proof (zlen_nonneg (out_ids s)).
    rewrite !slice_to_take, !take_app by lia. f_equal. rewrite take_take. f_equal. unfold zlen in *. lia.
  - by rewrite Hk, firstn_all.
Qed.

Lemma run_finishes_like_steps_witness :
  ∃ a b, accept_run (FinishDemo.params [] []) [99; 10; 100; 10] FinishDemo.start = Ok a ∧
    accept_steps (FinishDemo.params [] []) [99; 10; 100; 10] FinishDemo.start = Ok b ∧
    finished_reason a = Some (FINISH_MATCHED_TOKEN 10) ∧ output_ids_through_stop a = [97; 98; 99; 10] ∧
    output_ids_through_stop b = [97; 98; 99; 10].
Proof.
  destruct (run_finishes_like_steps (FinishDemo.params [] []) FinishDemo.start [99; 10; 100; 10]) as (a & b & Ha & Hb & _ & _ & Ho).
  - reflexivity.
  - reflexivity.
  - constructor; (reflexivity || discriminate).
  - discriminate.
  - repeat constructor.
  - exists a, b. rewrite <-Ho. vm_compute in Ha. injection Ha as <-. split_and!; (exact Hb || reflexivity).
Defined.

(** No output beyond the limit.  With a tokenizer, whatever the stop strings, patterns
    and tokens, the accepted run and the grammar, [update_finish_state] returns on a
    request that was not finished; if it finishes the request, the emitted output has at
    most [max_new_tokens] tokens, and if it does not, there is room for another one. *)
Theorem output_within_limit `{TextOps} (sp : StopParams) (s : GenState) (run : list Z) :
  0 ≤ f_max_new_tokens sp → tokenizer sp ≠ None → Forall regex_decided (stop_regex_strs sp) → run ≠ [] →
  decoded_text s = ""%string → finished_reason s = None → to_finish s = None → finished_len s = None →
  ∃ s', accept_run sp run s = Ok s' ∧
    if finished s' then zlen (output_ids_through_stop s') ≤ f_max_new_tokens sp
    else zlen (out_ids s') < f_max_new_tokens sp.
Proof.
  intros Hm Ht Hr Hne Hd G1 G2 G3.
  destruct (update_within sp Ht (zlen run) (set_out_ids s (out_ids s ++ run))) as (s' & ? & ? & _); try done; [|by exists s'].
  cbn. intros [_ ?]%app_eq_nil. done.
Qed.

Lemma output_within_limit_witness :
  ∃ s', accept_run (FinishDemo.params ["cd"%string] ["x"%string]) [99; 100; 101; 120] FinishDemo.start = Ok s' ∧
    finished_reason s' = Some (FINISH_MATCHED_STR "cd") ∧ output_ids_through_stop s' = [97; 98; 99; 100].
Proof.
  destruct (output_within_limit (FinishDemo.params ["cd"%string] ["x"%string]) FinishDemo.start [99; 100; 101; 120]) as (s' & Hs & _).
  - vm_compute. discriminate.
  - discriminate.
  - constructor; [left; intros t; discriminate|constructor].
  - discriminate.
  - reflexivity.
  - reflexivity.
  - reflexivity.
  - reflexivity.
  - exists s'. split; [exact Hs|]. vm_compute in Hs. injection Hs as <-. split; reflexivity.
Defined.

(** The abort for an invalid stop pattern can be lost.  A pattern that does not compile
    marks the request as aborted and the search for patterns ends, but the update goes
    on: when the token is also a stop token the request is reported as stopped
    normally, and when it reaches the length limit as finished by length; only
    otherwise does the abort remain. *)
Theorem invalid_regex_abort_lost `{TextOps} (sp : StopParams) (s : GenState) (r : string) (t : Z) :
  stop_strs sp = [] → stop_regex_strs sp = [r] → (∀ text, re_search r text = None) → tokenizer sp ≠ None →
  f_ignore_eos sp = false → out_of_vocab sp t = false → generating sp s →
  ∃ s', accept_run sp [t] s = Ok s' ∧
    finished_reason s' = Some
      (if is_stop_token sp t then FINISH_MATCHED_TOKEN t
       else if zlen (out_ids s) + 1 >=? f_max_new_tokens sp then FINISH_LENGTH (f_max_new_tokens sp)
       else FINISH_ABORT ("invalid stop_regex " ++ r)).
Proof.
  intros Hs Hr Hre Ht Hi Hv [G1 G2 G3 G4 G5]. unfold accept_run, update_finish_state.
  assert (finished (set_out_ids s (out_ids s ++ [t])) = false) as -> by (unfold finished; cbn; by rewrite G1).
  cbn [to_finish set_out_ids out_ids]. rewrite G2, py_slice_tail by done.
  unfold _check_vocab_boundary_finish. rewrite vocab_in_range by (by repeat constructor).
  unfold _check_str_based_finish. rewrite Hs, Hr. change ((zlen (@nil string) >? 0) || (zlen [r] >? 0)) with true.
  assert (∃ x, tail_str sp (zlen [t]) (set_out_ids s (out_ids s ++ [t])) = Ok x) as [x ->].
  { unfold tail_str. destruct (_ && _); [by eexists|by apply decode_ok]. }
  cbn [mbind res_bind check_stop_strs check_stop_regexes]. rewrite Hre. cbn [mbind res_bind].
  unfold _check_token_based_finish. rewrite Hi. cbn [check_tokens out_ids set_reason finish set_out_ids]. rewrite zlen_app.
  change (zlen [t]) with 1. replace (zlen (out_ids s) + 1 - 1) with (zlen (out_ids s)) by lia.
  destruct (is_stop_token sp t).
  - eexists. split; [done|]. unfold _cap_finished_len_at_max_new_tokens. cbn [finished_len finish].
    by destruct (Z.gtb_spec (zlen (out_ids s) + 1) (f_max_new_tokens sp)); [lia|].
  - cbn [out_ids set_reason finish set_out_ids]. rewrite zlen_app. change (zlen [t]) with 1. destruct (_ >=? _); [by eexists|].
    cbn [grammar_terminated set_reason finish set_out_ids]. destruct (grammar_terminated s) as [[]|]; [done|by eexists|by eexists].
Qed.

Lemma invalid_regex_abort_lost_witness :
  ∃ s', accept_run (FinishDemo.params [] ["("%string]) [10] FinishDemo.start = Ok s' ∧
    finished_reason s' = Some (FINISH_MATCHED_TOKEN 10).
Proof.
  apply (invalid_regex_abort_lost (FinishDemo.params [] ["("%string]) FinishDemo.start "(" 10);
    try (reflexivity || discriminate).
  constructor; (reflexivity || discriminate).
Defined.
