(* ===== verification/PrefillLoop.v ===== *)
(** * A prefill pass of the scheduler

    [Scheduler.get_new_batch_prefill] and [_get_new_batch_prefill_raw] of
    [managers/scheduler.py], with [Req.init_next_round_input] of [schedule_batch.py],
    the queue limit ([_add_request_to_queue], [_abort_on_queued_limit]) and
    [managers/min_free_slots_delayer.py]: the pass that orders the waiting queue,
    admits requests into a batch, preempts running requests for them, and allocates
    the memory of the batch.  It composes the models of the policy, the delayer, the
    adder and the batch allocation.

    The model is that of a server with a radix cache over a full-attention pool;
    adapters, beams, grammars, disaggregation, the host tiers of the cache, diffusion
    models and mixed batches are off. *)

From S2P Require Import Prelude PyFloat PySort PrefillDelayer PrefillAdder RadixKey TreeNode Allocator AllocKernels.
From S2P Require Import ReqPool Events RadixCache ReqCache RadixPools SchedulePolicy Allocation.
Import PrefillAdder.

(** ** [MinFreeSlotsDelayer] *)

Definition resolve_min_free_slots (user_value : option Z) (max_running_requests : Z) (is_dflash_family : bool) : option Z :=
  let m := Z.max 0 max_running_requests in
  match user_value with
  | Some v => let threshold := Z.min v m in if threshold >? 1 then Some threshold else None
  | None =>
      if is_dflash_family && (m >=? 8) then Some (Z.min 4 (Z.max 2 ((m + 5) / 6))) else None
  end.

Definition should_delay (min_free_slots running_bs num_allocatable_reqs : Z) : bool :=
  (running_bs >? 0) && (num_allocatable_reqs <? min_free_slots).

(** ** Requests as objects *)

Definition qobj (q : QReq) : nat := obj (sreq q).

Definition with_sreq (q : QReq) (s : SReq) : QReq :=
  mkQReq (rid q) s (routing_key q) (num_matched_prefix_tokens q) (return_logprob q) (logprob_start_len q).

(** The object a request is, after the changes recorded in [ss]. *)
Definition refresh (ss : list SReq) (q : QReq) : QReq :=
  match List.find (λ s, (obj s =? qobj q)%nat) ss with Some s => with_sreq q s | None => q end.

(** [req.time_stats.set_wait_queue_entry_time()] *)
Definition set_entry_time (now : Z) (q : QReq) : QReq :=
  let s := sreq q in
  with_sreq q (mkSReq (obj s) (base s) (max_new_tokens s) (ignore_eos s) (PrefillAdder.priority s) now
    (best_match_node s) (host_hit_length s) (swa_host_hit_length s) (mamba_host_hit_length s)
    (storage_hit_length s) (retracted_stain s) (holds_mamba s) (dllm_incomplete_ids s) (is_finished s)
    (swa_uuid_for_lock s)).

(** ** The scheduler *)

Record SchedConfig := mkSched {
  s_policy : SchedulePolicy;
  enable_priority_preemption : bool;
  max_queued_requests : option Z;
  pp_max_micro_batch_size : Z;
  s_min_free_slots : option Z;
  test_retract_no_prefill_bs : option Z;
  s_page_size : Z;
  max_prefill_tokens : Z;
  s_chunked_prefill_size : option Z;
  predict_next_chunk_size : option (Z → option Z);
  preemption_threshold : Z;
  s_max_running_requests : option Z;
  s_prefill_max_requests : option Z;
  truncation_align_size : option Z;
  s_block_m : Z;
  s_dsa_split : bool;
  s_use_triton : bool;
}.

(** [s_aborts] are the abort messages for the tokenizer; [inflight_middle_chunks] is
    an attribute of the request objects. *)
Record Scheduler := mkScheduler {
  waiting_queue : list QReq;
  chunked_req : option QReq;
  running : list QReq;
  batch_is_full : bool;
  s_pools : RadixCache * ReqToTokenPool;
  waiting_tree : RadixCache;
  inflight_middle_chunks : gmap nat Z;
  s_aborts : list QReq;
  s_ratio : Q;
  s_max_prefill_bs : Z;
}.

Definition with_full (s : Scheduler) (b : bool) : Scheduler :=
  mkScheduler (waiting_queue s) (chunked_req s) (running s) b (s_pools s) (waiting_tree s)
    (inflight_middle_chunks s) (s_aborts s) (s_ratio s) (s_max_prefill_bs s).
Definition with_ordered (s : Scheduler) (queue : list QReq) (c w : RadixCache) : Scheduler :=
  mkScheduler queue (chunked_req s) (running s) (batch_is_full s) (c, (s_pools s).2) w
    (inflight_middle_chunks s) (s_aborts s) (s_ratio s) (s_max_prefill_bs s).

(** ** The queue limit *)

(** [direction * item.priority], then the time of entry: the larger, the less
    preferred. *)
Definition direction (p : SchedulePolicy) : Z := sp_priority_sign p.
Definition queue_key_lt (p : SchedulePolicy) (x y : QReq) : bool :=
  let px := direction p * PrefillAdder.priority (sreq x) in
  let py := direction p * PrefillAdder.priority (sreq y) in
  (px <? py) || ((px =? py) && (wait_queue_entry_time (sreq x) <? wait_queue_entry_time (sreq y))).

(** [max(enumerate(queue), key=...)]: the first of the largest. *)
Fixpoint max_entry (p : SchedulePolicy) (i : nat) (best : nat * QReq) (l : list QReq) : nat * QReq :=
  match l with
  | [] => best
  | x :: l => max_entry p (S i) (if queue_key_lt p best.2 x then (i, x) else best) l
  end.

(** The queue and the request to abort; [true] when that is the incoming one. *)
Definition abort_on_queued_limit (cf : SchedConfig) (q : QReq) (queue : list QReq)
    : res (bool * option QReq * list QReq) :=
  match max_queued_requests cf with
  | None => Ok (false, None, queue)
  | Some m =>
      if zlen queue + 1 <=? m then Ok (false, None, queue)
      else if enable_priority_scheduling (s_policy cf) then
        match queue with
        | [] => Err ValueError
        | x :: l =>
            let '(idx, cand) := max_entry (s_policy cf) 1 (0%nat, x) l in
            let d := direction (s_policy cf) in
            if d * PrefillAdder.priority (sreq q) <? d * PrefillAdder.priority (sreq cand)
            then Ok (String.eqb (rid cand) (rid q), Some cand, delete idx queue)
            else Ok (true, Some q, queue)
        end
      else Ok (true, Some q, queue)
  end.

(** [_add_request_to_queue] after [_set_or_validate_priority], which the intake runs for
    new requests ([Intake.set_or_validate_priority]).  For a request that comes back, by
    preemption or retraction, the check changes nothing: it passed it when it arrived,
    with the same settings, and has had its priority since. *)
Definition add_request_to_queue (cf : SchedConfig) (now : Z) (q : QReq) (st : list QReq * list QReq)
    : res (list QReq * list QReq) :=
  let '(queue, aborts) := st in
  '(dropped, aborted, queue) ← abort_on_queued_limit cf q queue;
  let aborts := aborts ++ option_list aborted in
  if (dropped : bool) then Ok (queue, aborts) else Ok (queue ++ [set_entry_time now q], aborts).

Section pass.
Context `{Settings} `{RetractSettings} `{Clock} `{SetOrder} `{HashOps} `{KVAllocator} `{KVFree} `{PolicySettings} `{BatchAllocator}.
Local Abbreviation pools_t := (RadixCache * ReqToTokenPool)%type.
Implicit Types (a : PrefillAdder pools_t) (q : QReq) (s : Scheduler).

(** ** [Req.init_next_round_input] *)

Definition match_key (q : QReq) : RadixKey :=
  let b := base (sreq q) in
  let ids := full_untruncated_fill_ids b in
  RadixKey_init ids (req_extra_key b) false (Some (compute_max_prefix_len q (zlen ids))) (req_cache_salt b).

(** Without a tree only the tokens are brought up to date. *)
Definition refresh_input (q : QReq) : QReq := with_sreq q (with_base (sreq q) (refresh_fill_ids (base (sreq q)))).

Definition init_next_round_input (q : QReq) (c : RadixCache) : res (QReq * RadixCache) :=
  let q := refresh_input q in
  '(m, c) ← match_or_miss (match_key q) c;
  let r := sreq q in
  let b := set_last_node (set_prefix_indices (base r) (device_indices m)) (Some (last_device_node m)) in
  let b := set_kv b (set_cache_protected_len (kv b) (zlen (prefix_indices b))) in
  Ok (with_sreq q (mkSReq (obj r) b (max_new_tokens r) (ignore_eos r) (PrefillAdder.priority r)
        (wait_queue_entry_time r) (Some (last_device_node m)) 0 0 0 (storage_hit_length r) (retracted_stain r)
        (holds_mamba r) (dllm_incomplete_ids r) (is_finished r) (swa_uuid_for_lock r)), c).

(** ** The loop over the waiting queue *)

(** [get_num_allocatable_reqs] *)
Definition num_allocatable_reqs (cf : SchedConfig) (running_bs : Z) (p : ReqToTokenPool) : Z :=
  Z.min (pp_max_micro_batch_size cf - running_bs) (Z.max (ReqToToken.available_size p) 0).

Definition running_bs a : Z := zlen (default [] (running_reqs a)).

(** Whether the loop goes on with this request, after making room for it. *)
Definition make_room (cf : SchedConfig) (full : bool) q a : res (bool * PrefillAdder pools_t) :=
  if full then
    if negb (enable_priority_preemption cf) then Ok (false, a) else preempt_to_schedule (sreq q) a
  else Ok (true, a).

(** The queue comes back with the changes made to its requests. *)
Fixpoint admit_loop (cf : SchedConfig) (queue : list QReq) a (full : bool)
    : res (list QReq * PrefillAdder pools_t * bool) :=
  match queue with
  | [] => Ok ([], a, full)
  | q :: rest =>
      if chunk_budget_exhausted a then Ok (queue, a, full)
      else
        let full := if num_allocatable_reqs cf (running_bs a) (pools a).2 <=? zlen (can_run_list a) then true else full in
        '(go, a) ← make_room cf full q a;
        if negb (go : bool) then Ok (queue, a, full)
        else
          '(q, c) ← init_next_round_input q (pools a).1;
          '(x, r, a) ← add_one_req (sreq q) (truncation_align_size cf) (with_pools a (c, (pools a).2));
          let q := with_sreq q r in
          if decide (x = CONTINUE) then
            '(rest, a, full) ← admit_loop cf rest a full;
            Ok (q :: rest, a, full)
          else Ok (q :: rest, a, if decide (x = NO_TOKEN) then true else full)
  end.

(** ** The pass *)

Record NewBatch := mkNewBatch {
  nb_reqs : list QReq;
  nb_out_cache_loc : list Z;
  nb_chunked : option nat;
  contains_last_prefill_chunk : bool;
}.

Definition is_in (l : list SReq) (q : QReq) : bool := same_obj (sreq q) l.

(** [self.chunked_req.init_next_round_input()] and [adder.add_chunked_req]: the
    chunked request to go on with, and the object it was. *)
Definition continue_chunked (chunked : option QReq) a : res (option QReq * option QReq * PrefillAdder pools_t) :=
  match chunked with
  | None => Ok (None, None, a)
  | Some q =>
      let q := refresh_input q in
      '(cont, r, a) ← add_chunked_req (sreq q) a;
      let q := with_sreq q r in
      Ok (match cont with Some _ => Some q | None => None end, Some q, a)
  end.

Definition new_chunked (chunked : option QReq) (queue : list QReq) a : res (option QReq) :=
  match new_chunked_req a with
  | None => Ok chunked
  | Some o =>
      match chunked with
      | Some _ => Err AssertionError
      | None => Ok (List.find (λ q, (qobj q =? o)%nat) queue)
      end
  end.

Definition count_chunk (chunked : option QReq) (m : gmap nat Z) : gmap nat Z :=
  match chunked with Some q => partial_alter (λ n, Some (default 0 n + 1)) (qobj q) m | None => m end.

(** After the loop.  [order] is the order in which Python iterates the set of
    preempted requests.  A pass that admitted nothing returns before the preempted
    requests go back to the queue. *)
Definition finish_pass (d : Device) (cf : SchedConfig) (order : list QReq → list QReq) (now : Z)
    (queue : list QReq) (chunked was_chunked : option QReq) a (full : bool) s
    : res (option NewBatch * option SinglePass * Scheduler) :=
  let kept := List.filter (is_in (default [] (running_reqs a))) (running s) in
  match can_run_list a with
  | [] => Ok (None, delayer a, mkScheduler queue chunked kept full (pools a) (waiting_tree s)
                (inflight_middle_chunks s) (s_aborts s) (s_ratio s) (s_max_prefill_bs s))
  | can_run =>
      let preempted := refresh (preempt_list a) <$> List.filter (is_in (preempt_list a)) (running s) in
      '(waiting, aborts) ← for_each (add_request_to_queue cf now) (order preempted)
                             (List.filter (λ q, negb (is_in can_run q)) queue, s_aborts s);
      chunked ← new_chunked chunked queue a;
      b ← prepare_for_extend (base <$> can_run);
      '(out, reqs, p, c) ← alloc_for_extend d (s_use_triton cf) b (pools a).2 (pools a).1;
      let rs := zip_with with_base can_run reqs in
      let batch := refresh rs <$> List.filter (is_in can_run) (option_list was_chunked ++ queue) in
      let chunked := refresh rs <$> chunked in
      Ok (Some (mkNewBatch batch out (qobj <$> chunked)
                  (bool_decide (chunked = None) || negb (zlen can_run =? 1))),
          delayer a,
          mkScheduler waiting chunked kept full (c, p) (waiting_tree s)
            (count_chunk chunked (inflight_middle_chunks s)) aborts (s_ratio s) (s_max_prefill_bs s))
  end.

Definition chunk_size (cf : SchedConfig) (chunked : option QReq) : option Z :=
  match chunked, predict_next_chunk_size cf with
  | Some q, Some predict =>
      match predict (prefix_len (sreq q)) with Some n => Some n | None => s_chunked_prefill_size cf end
  | _, _ => s_chunked_prefill_size cf
  end.

Definition get_new_batch_prefill_raw (d : Device) (cf : SchedConfig) (shuffle order : list QReq → list QReq)
    (now : Z) (sp : option SinglePass) (e : Env) s : res (option NewBatch * option SinglePass * Scheduler) :=
  let s := if enable_priority_preemption cf then with_full s false else s in
  let no_chunk := bool_decide (chunked_req s = None) in
  if (batch_is_full s || (zlen (waiting_queue s) =? 0)) && no_chunk then Ok (None, sp, s)
  else
    let bs := zlen (running s) in
    let allocatable := num_allocatable_reqs cf bs (s_pools s).2 in
    if no_chunk && match s_min_free_slots cf with Some m => should_delay m bs allocatable | None => false end
    then Ok (None, sp, s)
    else if (allocatable <=? 0) && no_chunk && negb (enable_priority_preemption cf)
    then Ok (None, sp, with_full s true)
    else
      '(queue, c, w) ← calc_priority shuffle (s_policy cf) (waiting_queue s) (Some (running s)) (s_pools s).1
                         (waiting_tree s);
      let s := with_ordered s queue c w in
      if match test_retract_no_prefill_bs cf with Some n => bs >? n | None => false end then Ok (None, sp, s)
      else
        let a := PrefillAdder_init (s_page_size cf) (s_pools s) (Some (sreq <$> running s)) (s_ratio s)
                   (max_prefill_tokens cf) (chunk_size cf (chunked_req s)) 0 (preemption_threshold cf)
                   (s_max_prefill_bs s) (s_max_running_requests cf) (s_prefill_max_requests cf) sp e None
                   (zlen queue) (s_block_m cf) (s_dsa_split cf) in
        '(chunked, was_chunked, a) ← continue_chunked (chunked_req s) a;
        '(queue, a, full) ← admit_loop cf queue a (batch_is_full s);
        finish_pass d cf order now queue chunked was_chunked a full s.

(** [get_new_batch_prefill] around it: one negotiation of the delayer per pass, with
    [usage] the pool usage the observer reports. *)
Definition get_new_batch_prefill (d : Device) (cf : SchedConfig) (shuffle order : list QReq → list QReq)
    (now : Z) (delay : option (PrefillDelayer * Tracker.Tracker)) (usage : Q) (e : Env) (has_collector debug_log : bool) s
    : res (option NewBatch * option (PrefillDelayer * Tracker.Tracker) * Scheduler) :=
  '(b, sp, s) ← get_new_batch_prefill_raw d cf shuffle order now ((λ x, SinglePass_init x.1 usage) <$> delay) e s;
  match delay, sp with
  | Some (_, t), Some sp =>
      let actual := match b with Some b => zlen (nb_reqs b) | None => 0 end in
      '(observed, _, sp) ← finalize e actual has_collector debug_log sp;
      if observed >? 0 then
        '(m, t) ← Tracker.observe_attempt observed t;
        Ok (b, Some (prefill_delayer sp, t),
            mkScheduler (waiting_queue s) (chunked_req s) (running s) (batch_is_full s) (s_pools s) (waiting_tree s)
              (inflight_middle_chunks s) (s_aborts s) (s_ratio s) m)
      else Ok (b, Some (prefill_delayer sp, t), s)
  | _, _ => Ok (b, None, s)
  end.
End pass.
