(* ===== verification/LoopConserve.v ===== *)
(** * What a prefill pass does with the requests

    The frame of the adder's operations (which request they append, which lists they
    leave alone) and, from it, where every request of the scheduler is after the
    loop over the waiting queue and after the queue limit. *)

From S2P Require Import Prelude PyFloat PySort PrefillDelayer PrefillAdder RadixKey TreeNode Allocator AllocKernels.
From S2P Require Import ReqPool Events RadixCache ReqCache RadixPools SchedulePolicy Allocation PrefillLoop.
Import PrefillAdder.

(** ** The frame of an admission *)

Section frame.
Context {P : Type} `{Settings} `{Pools P}.
Implicit Types (a : PrefillAdder P) (r : SReq).

(** The running batch and the preempted requests. *)
Definition others a : option (list SReq) * list SReq := (running_reqs a, preempt_list a).

(** One request was considered: it is the same object, only it can have become the
    chunked one, and it is the last of the admitted ones when [adm]. *)
Record considered (adm : bool) r a r' a' : Prop := {
  co_obj : obj r' = obj r;
  co_others : others a' = others a;
  co_list : can_run_list a' = can_run_list a ++ (if adm then [r'] else []);
  co_chunk : new_chunked_req a' = new_chunked_req a ∨ adm = true ∧ new_chunked_req a' = Some (obj r);
}.

Lemma considered_pools adm r a r' a' p p' :
  considered adm r (with_pools a p) r' a' → considered adm r a r' (with_pools a' p').
Proof. intros [? ? ? ?]. by constructor. Qed.

Lemma considered_after adm r a r1 a1 r' a' :
  considered false r a r1 a1 → considered adm r1 a1 r' a' → considered adm r a r' a'.
Proof.
  intros [Ho Hf Hl [Hc|[? _]]] [Ho' Hf' Hl' Hc']; [|done]. rewrite app_nil_r in Hl.
  split; [congruence..|]. destruct Hc' as [->|[-> ->]]; [by left|right; by rewrite Ho].
Qed.

Lemma considered_refl r a : considered false r a r a.
Proof. constructor; auto. by rewrite app_nil_r. Qed.

Lemma consult_considered r a v a' : consult a = Ok (v, a') → considered false r a r a'.
Proof.
  unfold consult. destruct (delayer a); [|intros [= <- <-]; apply considered_refl].
  destruct (running_reqs a), (max_running_requests (cfg a)); try done.
  intros ([v' sp'] & _ & [= <- <-])%bind_Ok. constructor; auto. by rewrite app_nil_r.
Qed.

Lemma admit_locked_considered prefix ext mn r a r' a' :
  admit_locked prefix ext mn r a = Ok (r', a') → considered true r a r' a'.
Proof.
  unfold admit_locked, req_inc_lock_ref.
  intros ([r1 a1] & ([uuid p] & _ & [= <- <-])%bind_Ok & [= <- <-])%bind_Ok.
  constructor; auto. by destruct is_hybrid_swa.
Qed.

(** An early return admits nothing and does not go on. *)
Definition outcome (stop : option AddReqResult) r a r' a' : Prop :=
  considered (bool_decide (stop = None)) r a r' a' ∧ stop ≠ Some CONTINUE.

Lemma tile_stop a n x : check_prefill_tile_budget a n = Some x → x ≠ CONTINUE.
Proof. unfold check_prefill_tile_budget. repeat case_match; congruence. Qed.

Lemma outcome_stop x r a : x ≠ CONTINUE → outcome (Some x) r a r a.
Proof. intros Hx. split; [apply considered_refl|]. by intros [= ->]. Qed.

Lemma outcome_range p q r a r' a' : considered true (with_range p q r) a r' a' → outcome None r a r' a'.
Proof. intros [? ? ? ?]. split; [by constructor|done]. Qed.

Lemma set_chunked_considered r a r' a' : considered true r a r' a' → considered true r a r' (set_chunked r' a').
Proof. intros [Ho ? ? ?]. constructor; auto. right. cbn. by rewrite Ho. Qed.

Lemma admit_one_consider r prefix input limit align a stop r' a' :
  admit_one r prefix input limit align a = Ok (stop, r', a') → outcome stop r a r' a'.
Proof.
  unfold admit_one. destruct (dllm_config (cfg a)).
  { destruct (_ <=? 0); [intros [= <- <- <-]; by apply outcome_stop|]. destruct align; [done|].
    destruct (check_prefill_tile_budget _ _) eqn:Ht.
    { intros [= <- <- <-]. apply outcome_stop. by eapply tile_stop. }
    intros ([r1 a1] & ([uuid p] & _ & [= <- <-])%bind_Ok & [= <- <- <-])%bind_Ok.
    split; [|done]. constructor; auto. by destruct is_hybrid_swa. }
  assert (∀ s r' a', (match check_prefill_tile_budget a input with
     | Some stop => Ok (Some stop, r, a)
     | None =>
        '(r, a) ← admit_locked prefix input (Z.min (max_new_tokens (with_range (prefix_len r) (fill_len r) r)) CLIP_MAX_NEW_TOKENS) (with_range (prefix_len r) (fill_len r) r) a;
        Ok (None, r, a) end) = Ok (s, r', a') → outcome s r a r' a') as Hwhole.
  { intros s r1 a1. destruct (check_prefill_tile_budget _ _) eqn:Ht.
    { intros [= <- <- <-]. apply outcome_stop. by eapply tile_stop. }
    intros ([r2 a2] & Hl%admit_locked_considered & [= <- <- <-])%bind_Ok. by eapply outcome_range. }
  destruct limit as [l|]; [|by apply Hwhole]. destruct (input <=? l); [by apply Hwhole|].
  destruct (chunk_len _ _ _ _) as [t|]; [|intros [= <- <- <-]; by apply outcome_stop].
  destruct (check_prefill_tile_budget _ t) eqn:Ht.
  { intros [= <- <- <-]. apply outcome_stop. by eapply tile_stop. }
  intros ([r2 a2] & Hl%admit_locked_considered & [= <- <- <-])%bind_Ok.
  eapply outcome_range. by apply set_chunked_considered.
Qed.

Lemma load_back_considered r a r' a' : load_back r a = Ok (r', a') → considered false r a r' a'.
Proof.
  unfold load_back. destruct (needs_host_load_back r); [|intros [= <- <-]; apply considered_refl].
  intros ([[ix node] p] & _ & [= <- <-])%bind_Ok. constructor; auto. by rewrite app_nil_r.
Qed.

Lemma outcome_after stop r a r1 a1 r' a' :
  considered false r a r1 a1 → outcome stop r1 a1 r' a' → outcome stop r a r' a'.
Proof. intros Hc [? ?]. split; [by eapply considered_after|done]. Qed.

Lemma outcome_none x r a r' a' : considered false r a r' a' → x ≠ CONTINUE → outcome (Some x) r a r' a'.
Proof. intros Hc Hx. split; [done|]. by intros [= ->]. Qed.

Lemma add_one_req_locked_consider r total real limit align a stop r' a' :
  add_one_req_locked r total real limit align a = Ok (stop, r', a') → outcome stop r a r' a'.
Proof.
  unfold add_one_req_locked. destruct (Qle_bool _ _); [intros [= <- <- <-]; by apply outcome_stop|].
  destruct (swa_gate _ _ _ _); [|intros [= <- <- <-]; by apply outcome_stop].
  intros ([v a1] & Hc%(consult_considered r) & Hrun)%bind_Ok.
  destruct v; cbn [negb] in Hrun; [|injection Hrun as <- <- <-; by apply outcome_none].
  apply bind_Ok in Hrun as ([r2 a2] & Hl%load_back_considered & Hrun).
  apply (outcome_after _ _ _ _ _ _ _ (considered_after _ _ _ _ _ _ _ Hc Hl)).
  destruct (over_input_budget _ _); [injection Hrun as <- <- <-; by apply outcome_stop|].
  by eapply admit_one_consider.
Qed.

Lemma admit_ignore_eos_consider r a stop r' a' :
  admit_ignore_eos r a = Ok (stop, r', a') → outcome stop r a r' a'.
Proof.
  unfold admit_ignore_eos. destruct (dllm_config (cfg a)).
  { destruct (_ <=? 0); [intros [= <- <- <-]; by apply outcome_stop|].
    destruct (check_prefill_tile_budget _ _) eqn:Ht; intros [= <- <- <-].
    - apply outcome_stop. by eapply tile_stop.
    - split; [|done]. constructor; auto. }
  destruct (rem_chunk_tokens _) as [n|]; [destruct (_ <=? n); [|destruct (n <=? 0)]|].
  2: intros [= <- <- <-]; by apply outcome_stop.
  all: destruct (check_prefill_tile_budget _ _) eqn:Ht.
  all: try (intros [= <- <- <-]; apply outcome_stop; by eapply tile_stop).
  2: destruct (_ =? 0); [|done].
  all: intros [= <- <- <-]; split; [|done]; constructor; auto.
Qed.

Lemma budget_state_default stop r a r' a' :
  outcome stop r a r' a' →
  ∃ adm, considered adm r a r' a' ∧ (default (budget_state a') stop = CONTINUE → adm = true).
Proof. intros [Hc Hn]. eexists. split; [done|]. destruct stop; [cbn; intros ->; by destruct Hn|done]. Qed.

Lemma not_added x r a r' a' :
  considered false r a r' a' → x ≠ CONTINUE → ∃ adm, considered adm r a r' a' ∧ (x = CONTINUE → adm = true).
Proof. intros. by exists false. Qed.

Local Ltac refused := intros [= <- <- <-]; apply not_added; [apply considered_refl|done].

Lemma add_one_req_ignore_eos_consider r a x r' a' :
  add_one_req_ignore_eos r a = Ok (x, r', a') →
  ∃ adm, considered adm r a r' a' ∧ (x = CONTINUE → adm = true).
Proof.
  unfold add_one_req_ignore_eos. destruct (negb _); [refused|]. destruct (_ && _); [refused|].
  set (a1 := with_req_states a _).
  assert (considered false r a r a1) as H1 by (constructor; auto; by rewrite app_nil_r).
  destruct (_ && _); [intros [= <- <- <-]; by apply not_added|].
  intros ([v a2] & Hc%(consult_considered r) & Hrun)%bind_Ok.
  pose proof (considered_after _ _ _ _ _ _ _ H1 Hc) as H2.
  destruct v; cbn [negb] in Hrun; [|injection Hrun as <- <- <-; by apply not_added].
  apply bind_Ok in Hrun as ([[stop r3] a3] & Ha%admit_ignore_eos_consider & [= <- <- <-]).
  apply budget_state_default. by eapply outcome_after.
Qed.

Lemma add_one_req_consider r align a x r' a' :
  add_one_req r align a = Ok (x, r', a') →
  ∃ adm, considered adm r a r' a' ∧ (x = CONTINUE → adm = true).
Proof.
  unfold add_one_req. destruct (_ && _); [refused|].
  destruct (match prefill_max_requests (cfg a) with Some _ => _ | None => _ end); [refused|].
  destruct (_ && _); [apply add_one_req_ignore_eos_consider|].
  destruct (Qle_bool _ _); [refused|]. destruct (swa_gate _ _ _ _); [|refused].
  destruct (over_input_budget _ _); [refused|].
  intros ([[stop r1] a1] & Hrun & [= <- <- <-])%bind_Ok.
  apply bind_Ok in Hrun as ([tok p] & _ & ([[s2 r2] a2] & Hl & (p' & _ & [= <- <- <-])%bind_Ok)%bind_Ok).
  apply add_one_req_locked_consider in Hl as [Hc Hn]. apply budget_state_default. split; [|done].
  by apply (considered_pools _ _ _ _ _ p).
Qed.

(** [add_chunked_req] appends the request unless it holds it back. *)
Lemma add_chunked_req_consider r a cont r' a' :
  add_chunked_req r a = Ok (cont, r', a') →
  ∃ adm, considered adm r a r' a' ∧ new_chunked_req a' = new_chunked_req a ∧ (adm = false → cont = Some r').
Proof.
  unfold add_chunked_req. intros ([rem|] & _ & Hrun)%bind_Ok.
  - apply bind_Ok in Hrun as ([v a1] & Hc%(consult_considered r) & [= <- <- <-]). exists true.
    destruct Hc as [? ? Hl [Hch|[? _]]]; [|done]. rewrite app_nil_r in Hl.
    split; [|by split]. constructor; cbn; auto. by rewrite Hl.
  - injection Hrun as <- <- <-. exists false. split; [apply considered_refl|done].
Qed.

(** ** The frame of a preemption *)

Definition release_same_obj : Prop :=
  ∀ x n p x' p', p_release_req x n p = Ok (x', p') → obj x' = obj x.

Lemma release_victims_objs c vs l n k off p keep gone off' p' :
  release_same_obj → release_victims c vs l n k off p = Ok (keep, gone, off', p') →
  (obj <$> keep) ++ (obj <$> gone) ≡ₚ obj <$> l.
Proof.
  intros Hrel. revert k off p keep gone off' p'. induction l as [|x l IH]; intros k off p keep gone off' p'.
  { cbn. by intros [= <- <- <- <-]. }
  cbn [release_victims]. destruct (same_obj x vs).
  - intros ([x' p1] & Hx & ([[[ke go] o2] p2] & Hr & [= <- <- <- <-])%bind_Ok)%bind_Ok.
    rewrite !fmap_cons, (Hrel _ _ _ _ _ Hx), <-(IH _ _ _ _ _ _ _ Hr). solve_Permutation.
  - intros ([[[ke go] o2] p2] & Hr & [= <- <- <- <-])%bind_Ok.
    by rewrite !fmap_cons, <-(IH _ _ _ _ _ _ _ Hr).
Qed.

(** The running and the preempted requests, as objects. *)
Definition decoding a : list nat := (obj <$> default [] (running_reqs a)) ++ (obj <$> preempt_list a).

Lemma preempt_consider r a b a' :
  release_same_obj → preempt_to_schedule r a = Ok (b, a') →
  decoding a' ≡ₚ decoding a ∧ can_run_list a' = can_run_list a ∧ new_chunked_req a' = new_chunked_req a.
Proof.
  intros Hrel. unfold preempt_to_schedule. destruct (running_reqs a) as [l|] eqn:Hl; [|done].
  destruct (pick_victims _ _ _ _ _) as [vs need]. destruct (_ || _); [by intros [= <- <-]|].
  intros ([[[keep gone] off] p] & Hr & [= <- <-])%bind_Ok. split; [|done].
  unfold decoding. cbn. rewrite Hl, fmap_app. cbn.
  rewrite <-(release_victims_objs _ _ _ _ _ _ _ _ _ _ _ Hrel Hr). solve_Permutation.
Qed.
End frame.

(** ** Requests by identity *)

(** What never changes about a request. *)
Definition ident (q : QReq) : nat * string := (qobj q, rid q).

Lemma ident_with_sreq q s : obj s = qobj q → ident (with_sreq q s) = ident q.
Proof. intros Ho. unfold ident. cbn. unfold qobj. cbn. by rewrite Ho. Qed.

Lemma ident_refresh ss q : ident (refresh ss q) = ident q.
Proof.
  unfold refresh. destruct (List.find _ ss) as [s|] eqn:Hf; [|done].
  apply find_some in Hf as [_ Ho%Nat.eqb_eq]. by apply ident_with_sreq.
Qed.

Lemma idents_refresh ss (l : list QReq) : ident <$> (refresh ss <$> l) = ident <$> l.
Proof. rewrite <-list_fmap_compose. apply list_fmap_ext. intros _ q _. apply ident_refresh. Qed.

Lemma idents_objs (l k : list QReq) : ident <$> l ≡ₚ ident <$> k → qobj <$> l ≡ₚ qobj <$> k.
Proof.
  intros Hp. change qobj with (fst ∘ ident). rewrite !list_fmap_compose. by apply fmap_Permutation.
Qed.

Lemma idents_rids (l k : list QReq) : ident <$> l ≡ₚ ident <$> k → rid <$> l ≡ₚ rid <$> k.
Proof.
  intros Hp. change rid with (snd ∘ ident). rewrite !list_fmap_compose. by apply fmap_Permutation.
Qed.

Lemma is_in_spec l q : is_in l q = true ↔ qobj q ∈ obj <$> l.
Proof.
  unfold is_in, same_obj. rewrite existsb_exists, list_elem_of_fmap. unfold qobj. split.
  - intros (y & Hy & He%Nat.eqb_eq). exists y. rewrite list_elem_of_In. auto.
  - intros (y & He & Hy). exists y. by rewrite <-list_elem_of_In, Nat.eqb_eq.
Qed.

Lemma partition_perm {A} (f : A → bool) l : List.filter f l ++ List.filter (λ x, negb (f x)) l ≡ₚ l.
Proof.
  induction l as [|x l IH]; [done|]. cbn. destruct (f x); cbn; [by rewrite IH|].
  by rewrite <-Permutation_middle, IH.
Qed.

(** A list split by two disjoint sets of objects that make up all of it. *)
Lemma split_by_objs (l : list QReq) k1 k2 :
  NoDup (qobj <$> l) → (obj <$> k1) ++ (obj <$> k2) ≡ₚ qobj <$> l →
  List.filter (is_in k1) l ++ List.filter (is_in k2) l ≡ₚ l.
Proof.
  intros Hnd Hp. rewrite <-(partition_perm (is_in k1) l) at 3. apply Permutation_app_head.
  rewrite <-Hp in Hnd. apply NoDup_app in Hnd as (_ & Hdis & _).
  assert (∀ q, q ∈ l → is_in k2 q = negb (is_in k1 q)) as He.
  { intros q Hq. assert (qobj q ∈ (obj <$> k1) ++ (obj <$> k2)) as Hin.
    { rewrite Hp. by apply list_elem_of_fmap_2. }
    destruct (is_in k1 q) eqn:H1; cbn.
    - apply is_in_spec in H1. apply not_true_iff_false. rewrite is_in_spec. by apply Hdis.
    - apply is_in_spec. apply elem_of_app in Hin as [Hin|]; [|done]. apply is_in_spec in Hin. congruence. }
  erewrite filter_ext_in; [done|]. intros q Hq. apply He. by apply list_elem_of_In.
Qed.

(** ** The queue limit *)

Lemma max_entry_lookup p queue l i best :
  (∃ pre, queue = pre ++ l ∧ length pre = i) → queue !! best.1 = Some best.2 →
  let x := max_entry p i best l in queue !! x.1 = Some x.2.
Proof.
  revert i best. induction l as [|y l IH]; intros i best (pre & -> & <-) Hb; [done|].
  cbn [max_entry]. apply IH.
  - exists (pre ++ [y]). rewrite <-app_assoc, length_app. cbn. split; [done|lia].
  - destruct (queue_key_lt _ _ _); [|done]. cbn. by rewrite lookup_app_r, Nat.sub_diag by lia.
Qed.

Lemma abort_conserves cf q queue dropped aborted queue' :
  rid q ∉ rid <$> queue → abort_on_queued_limit cf q queue = Ok (dropped, aborted, queue') →
  (if dropped then [] else [q]) ++ queue' ++ option_list aborted ≡ₚ q :: queue ∧ queue' ⊆+ queue.
Proof.
  intros Hrid. unfold abort_on_queued_limit. destruct (max_queued_requests cf) as [m|].
  2:{ intros [= <- <- <-]. by rewrite app_nil_r. }
  destruct (_ <=? m); [intros [= <- <- <-]; by rewrite app_nil_r|].
  assert (Ok (true, Some q, queue) = Ok (dropped, aborted, queue') →
    (if dropped then [] else [q]) ++ queue' ++ option_list aborted ≡ₚ q :: queue ∧ queue' ⊆+ queue) as Hin.
  { intros [= <- <- <-]. split; [|done]. cbn. by rewrite Permutation_app_comm. }
  destruct (enable_priority_scheduling _); [|done]. destruct queue as [|x l]; [done|].
  destruct (max_entry _ _ _ _) as [i cand] eqn:Hm.
  assert ((x :: l) !! i = Some cand) as Hc.
  { pose proof (max_entry_lookup (s_policy cf) (x :: l) l 1 (0%nat, x)) as Hx. rewrite Hm in Hx.
    apply Hx; [by exists [x]|done]. }
  destruct (_ <? _); [|done]. intros [= <- <- <-].
  destruct (String.eqb_spec (rid cand) (rid q)) as [He|].
  { destruct Hrid. rewrite <-He. apply list_elem_of_fmap_2. by eapply list_elem_of_lookup_2. }
  pose proof (delete_Permutation _ _ _ Hc) as Hd. split; [|apply submseteq_delete].
  cbn. apply Permutation_skip. rewrite Permutation_app_comm. by symmetry.
Qed.

Lemma ident_set_entry_time now q : ident (set_entry_time now q) = ident q.
Proof. done. Qed.

Lemma add_request_conserves cf now q queue aborts queue' aborts' :
  rid q ∉ rid <$> queue → add_request_to_queue cf now q (queue, aborts) = Ok (queue', aborts') →
  ident <$> queue' ++ aborts' ≡ₚ ident <$> q :: queue ++ aborts ∧ (rid <$> queue') ⊆+ rid q :: (rid <$> queue).
Proof.
  intros Hrid. cbn [add_request_to_queue].
  intros ([[dropped aborted] queue1] & [Hp Hs]%abort_conserves & Hrun)%bind_Ok; [|done].
  apply (fmap_submseteq rid) in Hs.
  apply (fmap_Permutation ident) in Hp. rewrite !fmap_app, !fmap_cons in Hp.
  destruct dropped; injection Hrun as <- <-; rewrite !fmap_cons, !fmap_app in *; cbn in *.
  - split; [|by apply submseteq_cons]. rewrite app_comm_cons, <-Hp. solve_Permutation.
  - split; [rewrite app_comm_cons, <-Hp, ident_set_entry_time; solve_Permutation|].
    rewrite <-Permutation_cons_append. by apply submseteq_skip.
Qed.

Lemma NoDup_submseteq_l {A} (l k : list A) : NoDup k → l ⊆+ k → NoDup l.
Proof.
  intros Hk (l' & Hs & Hp)%submseteq_sublist_l. rewrite <-Hp in Hk. by eapply sublist_NoDup.
Qed.

Lemma requeue_conserves cf now l queue aborts queue' aborts' :
  NoDup (rid <$> l ++ queue) → for_each (add_request_to_queue cf now) l (queue, aborts) = Ok (queue', aborts') →
  ident <$> queue' ++ aborts' ≡ₚ ident <$> l ++ queue ++ aborts.
Proof.
  revert queue aborts. induction l as [|q l IH]; intros queue aborts Hnd; [by intros [= <- <-]|].
  cbn [for_each]. intros ([queue1 aborts1] & [Hp Hs]%add_request_conserves & Hrun)%bind_Ok.
  - assert (NoDup (rid <$> l ++ queue1)) as Hnd1.
    { eapply NoDup_submseteq_l; [exact Hnd|]. rewrite <-app_comm_cons, fmap_cons, !fmap_app.
      rewrite Permutation_middle. by apply submseteq_skips_l. }
    rewrite (IH _ _ Hnd1 Hrun), fmap_app, Hp, <-app_comm_cons, !fmap_cons, (fmap_app _ l). solve_Permutation.
  - cbn in Hnd. rewrite fmap_app in Hnd. apply NoDup_cons in Hnd as [Hq _]. by intros ?; apply Hq, elem_of_app; right.
Qed.

(** ** The loop over the queue *)

Section loop.
Context `{Settings} `{RetractSettings} `{Clock} `{SetOrder} `{HashOps} `{KVAllocator} `{KVFree} `{PolicySettings} `{BatchAllocator}.
Implicit Types (a : PrefillAdder (RadixCache * ReqToTokenPool)) (q : QReq).

Lemma radix_release_same_obj : release_same_obj (P := RadixCache * ReqToTokenPool).
Proof.
  intros x n [c p] x' s'. cbn. unfold release_req, reset_for_retract.
  intros ([[b p1] c1] & _ & (c2 & _ & (r & Hr & [= <- <-])%bind_Ok)%bind_Ok)%bind_Ok.
  destruct (holds_kv _); [done|]. by injection Hr as <-.
Qed.

Lemma init_input_ident q c q' c' : init_next_round_input q c = Ok (q', c') → ident q' = ident q.
Proof. unfold init_next_round_input. intros ([m c1] & _ & [= <- <-])%bind_Ok. done. Qed.

Lemma make_room_consider cf full q a go a' :
  make_room cf full q a = Ok (go, a') →
  decoding a' ≡ₚ decoding a ∧ can_run_list a' = can_run_list a ∧ new_chunked_req a' = new_chunked_req a ∧
  (enable_priority_preemption cf = false → a' = a).
Proof.
  unfold make_room. destruct full; [|by intros [= <- <-]].
  destruct (enable_priority_preemption cf); cbn [negb]; [|by intros [= <- <-]].
  intros Hp%preempt_consider; [|exact radix_release_same_obj]. destruct Hp as (? & ? & ?). by split_and!.
Qed.

(** What the loop leaves: the queue it ran over with its first [n] requests
    admitted, and the running batch less the preempted ones. *)
Record looped (cf : SchedConfig) (queue : list QReq) a (queue' : list QReq) a' (n : nat) : Prop := {
  lo_ident : ident <$> queue' = ident <$> queue;
  lo_bound : (n ≤ length queue)%nat;
  lo_list : can_run_list a' = can_run_list a ++ (sreq <$> take n queue');
  lo_decoding : decoding a' ≡ₚ decoding a;
  lo_chunk : new_chunked_req a' = new_chunked_req a ∨
    ∃ q, q ∈ take n queue' ∧ new_chunked_req a' = Some (qobj q);
  lo_others : enable_priority_preemption cf = false → others a' = others a;
}.

Lemma looped_none cf queue a a' :
  decoding a' ≡ₚ decoding a → can_run_list a' = can_run_list a → new_chunked_req a' = new_chunked_req a →
  (enable_priority_preemption cf = false → others a' = others a) → looped cf queue a queue a' 0.
Proof. intros Hd Hl Hc Ho. constructor; auto; [lia|]. by rewrite take_0, app_nil_r. Qed.

Lemma looped_stop cf q rest a r a' adm :
  considered adm (sreq q) a r a' → looped cf (q :: rest) a (with_sreq q r :: rest) a' (if adm then 1 else 0)%nat.
Proof.
  intros [Ho Hf Hl Hc]. constructor.
  - by rewrite !fmap_cons, ident_with_sreq.
  - destruct adm; cbn; lia.
  - rewrite Hl. by destruct adm.
  - unfold decoding. unfold others in Hf. injection Hf as -> ->. done.
  - destruct Hc as [|[-> Hc]]; [by left|right]. exists (with_sreq q r). split; [by left|].
    rewrite Hc. unfold qobj. cbn. by rewrite Ho.
  - done.
Qed.

Lemma looped_before cf queue a a1 queue' a' n :
  decoding a1 ≡ₚ decoding a → can_run_list a1 = can_run_list a → new_chunked_req a1 = new_chunked_req a →
  (enable_priority_preemption cf = false → others a1 = others a) →
  looped cf queue a1 queue' a' n → looped cf queue a queue' a' n.
Proof.
  intros Hd Hl Hc Ho [L1 L2 L3 L4 L5 L6]. constructor; [done|done|by rewrite <-Hl|by rewrite L4|by rewrite <-Hc|].
  intros Hp. by rewrite (L6 Hp), (Ho Hp).
Qed.

Lemma looped_more cf q rest a r a1 rest' a' n :
  considered true (sreq q) a r a1 → looped cf rest a1 rest' a' n →
  looped cf (q :: rest) a (with_sreq q r :: rest') a' (S n).
Proof.
  intros Hc [L1 L2 L3 L4 L5 L6]. destruct (looped_stop cf q rest a r a1 true Hc) as [C1 C2 C3 C4 C5 C6].
  constructor.
  - rewrite !fmap_cons, L1. f_equal. apply ident_with_sreq, Hc.
  - cbn. lia.
  - by rewrite L3, C3, <-app_assoc.
  - by rewrite L4, C4.
  - destruct L5 as [->|(x & Hx & ->)]; [|right; exists x; split; [by right|done]].
    destruct C5 as [|(x & Hx & ->)]; [by left|right]. exists x. split; [|done].
    apply list_elem_of_singleton in Hx as ->. by left.
  - intros Hp. by rewrite (L6 Hp), (C6 Hp).
Qed.

Lemma admit_loop_looped cf queue a full queue' a' full' :
  admit_loop cf queue a full = Ok (queue', a', full') → ∃ n, looped cf queue a queue' a' n.
Proof.
  revert a full queue' a' full'. induction queue as [|q rest IH]; intros a full queue' a' full'; cbn [admit_loop].
  { intros [= <- <- <-]. exists 0%nat. by apply looped_none. }
  destruct (chunk_budget_exhausted a). { intros [= <- <- <-]. exists 0%nat. by apply looped_none. }
  set (f := if _ <=? _ then true else full). clearbody f.
  intros ([go a1] & (Hd & Hl & Hc & Ho)%make_room_consider & Hrun)%bind_Ok.
  assert (enable_priority_preemption cf = false → others a1 = others a) as Ho' by (intros Hp; by rewrite (Ho Hp)).
  destruct go; cbn [negb] in Hrun; [|injection Hrun as <- <- <-; exists 0%nat; by apply looped_none].
  apply bind_Ok in Hrun as ([q1 c1] & Hq%init_input_ident & Hrun).
  apply bind_Ok in Hrun as ([[x r] a2] & (adm & Hcon & Hx)%add_one_req_consider & Hrun).
  assert (considered adm (sreq q1) a1 r a2) as Hcon1 by (destruct Hcon as [? ? ? ?]; by constructor).
  assert (∀ queue' n, looped cf (q1 :: rest) a1 queue' a' n → looped cf (q :: rest) a queue' a' n) as Hlift.
  { intros qu n Hlo. apply (looped_before cf _ a a1); [done..|]. destruct Hlo as [L1 ? ? ? ? ?].
    constructor; try done. by rewrite L1, !fmap_cons, Hq. }
  destruct (decide (x = CONTINUE)) as [Hx1|].
  - apply bind_Ok in Hrun as ([[rest2 a3] f3] & Hrest & [= <- <- <-]). destruct (IH _ _ _ _ _ Hrest) as (n & Hlo).
    exists (S n). apply Hlift. rewrite (Hx Hx1) in Hcon1. by apply (looped_more cf q1 rest a1 r a2).
  - injection Hrun as <- <- <-. eexists. apply Hlift. by apply looped_stop.
Qed.
End loop.
