(* ===== verification/LoopTheorems.v ===== *)
(** * Theorems about a prefill pass

    No request is lost or invented by a pass of the scheduler, with the one exception
    of a pass that preempts and then admits nothing. *)

From S2P Require Import Prelude PyFloat PySort PrefillDelayer PrefillAdder RadixKey PrefixTree TreeNode Allocator AllocKernels.
From S2P Require Import ReqPool Events RadixCache RadixInv RadixTheorems ReqCache RadixPools PrefillTheorems.
From S2P Require Import RadixEvict SchedulePolicy PolicyTheorems Allocation DecodeTheorems PrefillLoop LoopConserve.
Import PrefillAdder.

(** ** Where the requests are *)

Definition batch_reqs (b : option NewBatch) : list QReq := match b with Some b => nb_reqs b | None => [] end.

(** The chunked request, when it waits for a later pass. *)
Definition parked (b : option NewBatch) (s : Scheduler) : list QReq :=
  List.filter (λ q, negb (bool_decide (qobj q ∈ qobj <$> batch_reqs b))) (option_list (chunked_req s)).

Definition alive (s : Scheduler) : list QReq := waiting_queue s ++ running s ++ option_list (chunked_req s).

Definition accounted (b : option NewBatch) (s : Scheduler) : list QReq :=
  waiting_queue s ++ running s ++ parked b s ++ batch_reqs b ++ s_aborts s.

Lemma accounted_none s : accounted None s ≡ₚ alive s ++ s_aborts s.
Proof.
  unfold accounted, alive, parked. cbn [batch_reqs app fmap list_fmap]. rewrite <-!app_assoc.
  do 2 apply Permutation_app_head. apply Permutation_app_tail. by destruct (chunked_req s).
Qed.

Section pass.
Context `{Settings} `{RetractSettings} `{Clock} `{SetOrder} `{HashLaws} `{KVAllocator} `{KVFree} `{PolicySettings} `{BatchAllocator}.
Implicit Types (a : PrefillAdder (RadixCache * ReqToTokenPool)) (q : QReq) (s : Scheduler).

Lemma ident_plain (l k : list QReq) : plain <$> l ≡ₚ plain <$> k → ident <$> l ≡ₚ ident <$> k.
Proof.
  intros Hp. change ident with (ident ∘ plain). rewrite !list_fmap_compose. by apply fmap_Permutation.
Qed.

(** ** The chunked request *)

Lemma continue_chunked_consider chunked a ch was a' :
  continue_chunked chunked a = Ok (ch, was, a') →
  ident <$> option_list was = ident <$> option_list chunked ∧ others a' = others a ∧
  new_chunked_req a' = new_chunked_req a ∧ ∃ adm : bool,
  can_run_list a' = can_run_list a ++ (sreq <$> if adm then option_list was else []) ∧
  (ch = was ∨ adm = true ∧ ch = None).
Proof.
  unfold continue_chunked. destruct chunked as [q|].
  2:{ intros [= <- <- <-]. split_and!; [done..|]. exists true. by rewrite app_nil_r; auto. }
  intros ([[cont r] a1] & (adm & [Ho Hf Hl _] & Hc & Hcont)%add_chunked_req_consider & [= <- <- <-])%bind_Ok.
  split_and!; [exact (f_equal (λ x, [x]) (ident_with_sreq (refresh_input q) r Ho))|done..|]. exists adm. split; [by rewrite Hl; destruct adm|].
  destruct cont; [by left|]. destruct adm; [by right|]. by discriminate Hcont.
Qed.

Lemma is_in_fmap (l : list QReq) q : is_in (sreq <$> l) q = bool_decide (qobj q ∈ qobj <$> l).
Proof.
  apply Bool.eq_iff_eq_true. rewrite is_in_spec, bool_decide_eq_true, <-list_fmap_compose. done.
Qed.

Lemma parked_wait ch0 was queue a n (adm : bool) ch :
  can_run_list a = sreq <$> (if adm then option_list was else []) ++ take n queue →
  ch0 = was ∨ adm = true ∧ ch0 = None →
  (new_chunked_req a = None ∨ ∃ q, q ∈ take n queue ∧ new_chunked_req a = Some (qobj q)) →
  new_chunked ch0 queue a = Ok ch →
  let out q := negb (is_in (can_run_list a) q) in
  (∀ q, ch = Some q → q ∈ option_list was ++ queue) ∧
  List.filter out (option_list ch) = List.filter out (option_list was).
Proof.
  intros Hl Hch0 Hnew Hrun out.
  assert (∀ q, q ∈ (if adm then option_list was else []) ++ take n queue → out q = false) as Hin.
  { intros q Hq. unfold out. rewrite Hl, is_in_fmap, bool_decide_true; [done|]. by apply list_elem_of_fmap_2. }
  assert (adm = true → List.filter out (option_list was) = []) as Hadm.
  { intros ->. destruct was as [q|]; [|done]. cbn. rewrite Hin; [done|]. by left. }
  unfold new_chunked in Hrun. destruct Hnew as [Hn|(x & Hx & Hn)]; rewrite Hn in Hrun.
  - injection Hrun as <-. destruct Hch0 as [->|[? ->]]; [|by rewrite Hadm].
    split; [|done]. intros q ->. by left.
  - destruct ch0 as [|]; [done|]. injection Hrun as <-.
    assert (List.filter out (option_list was) = []) as ->.
    { destruct Hch0 as [<-|[? _]]; [done|by apply Hadm]. }
    destruct (List.find _ queue) as [y|] eqn:Hf; [|done]. apply find_some in Hf as [Hy%list_elem_of_In He%Nat.eqb_eq].
    split; [intros q [= <-]; apply elem_of_app; by right|]. cbn. unfold out.
    rewrite Hl, is_in_fmap, bool_decide_true; [done|]. rewrite He, fmap_app. apply elem_of_app. right.
    by apply list_elem_of_fmap_2.
Qed.
(** ** The end of the pass *)

(** The state in which the loop hands over: [was] is the chunked request, [n] the
    number of queued requests that were admitted. *)
Record handed (queue : list QReq) (ch was : option QReq) a (n : nat) (adm : bool) s : Prop := {
  ha_list : can_run_list a = sreq <$> (if adm then option_list was else []) ++ take n queue;
  ha_chunked : ch = was ∨ adm = true ∧ ch = None;
  ha_new : new_chunked_req a = None ∨ ∃ q, q ∈ take n queue ∧ new_chunked_req a = Some (qobj q);
  ha_decoding : decoding a ≡ₚ qobj <$> running s;
  ha_objs : NoDup (qobj <$> queue ++ running s ++ option_list was);
  ha_rids : NoDup (rid <$> queue ++ running s ++ option_list was);
}.

Lemma handed_running queue ch was a n adm s :
  handed queue ch was a n adm s →
  List.filter (is_in (default [] (running_reqs a))) (running s) ++ List.filter (is_in (preempt_list a)) (running s)
    ≡ₚ running s.
Proof.
  intros [_ _ _ Hd Ho _]. apply split_by_objs; [|exact Hd].
  rewrite !fmap_app in Ho. by apply NoDup_app in Ho as (_ & _ & (Ho & _)%NoDup_app).
Qed.

Lemma finish_none d cf order now queue ch was a n adm full s b sp s' :
  handed queue ch was a n adm s → can_run_list a = [] →
  finish_pass d cf order now queue ch was a full s = Ok (b, sp, s') →
  b = None ∧ (queue ++ running s ++ option_list was) ++ s_aborts s ≡ₚ
    accounted b s' ++ List.filter (is_in (preempt_list a)) (running s) ∧
  waiting_queue s' = queue ∧ chunked_req s' = was ∧ s_aborts s' = s_aborts s.
Proof.
  intros Hh Hnil. unfold finish_pass. rewrite Hnil. intros [= <- <- <-]. split; [done|].
  cbn [waiting_queue chunked_req s_aborts]. rewrite accounted_none. unfold alive. cbn [waiting_queue running chunked_req s_aborts].
  rewrite <-(handed_running _ _ _ _ _ _ _ Hh) at 1.
  assert (ch = was) as ->; [|split_and!; [solve_Permutation|done..]].
  destruct (ha_chunked _ _ _ _ _ _ _ Hh) as [|[-> ->]]; [done|].
  pose proof (ha_list _ _ _ _ _ _ _ Hh) as Hl. rewrite Hnil in Hl. by destruct was.
Qed.

Lemma qobj_refresh rs q : qobj (refresh rs q) = qobj q.
Proof. exact (f_equal fst (ident_refresh rs q)). Qed.

Lemma is_in_obj can q x : qobj x = qobj q → is_in can x = is_in can q.
Proof. intros He. apply Bool.eq_iff_eq_true. by rewrite !is_in_spec, He. Qed.

(** The chunked request is parked when it is not in the batch. *)
Lemma parked_refresh can rs (l : list QReq) ch :
  (∀ q, ch = Some q → q ∈ l) →
  ident <$> List.filter (λ q, negb (bool_decide (qobj q ∈ qobj <$> (refresh rs <$> List.filter (is_in can) l))))
      (option_list (refresh rs <$> ch)) =
  ident <$> List.filter (λ q, negb (is_in can q)) (option_list ch).
Proof.
  intros Hl. destruct ch as [q|]; [|done]. specialize (Hl q eq_refl).
  change (option_list (refresh rs <$> Some q)) with [refresh rs q]. change (option_list (Some q)) with [q].
  cbn [List.filter]. rewrite qobj_refresh.
  assert (bool_decide (qobj q ∈ qobj <$> (refresh rs <$> List.filter (is_in can) l)) = is_in can q) as ->.
  { apply Bool.eq_iff_eq_true. rewrite bool_decide_eq_true, <-list_fmap_compose, list_elem_of_fmap. split.
    - intros (x & He & [_ Hx]%list_elem_of_In%filter_In). rewrite <-Hx. apply is_in_obj. rewrite He. apply qobj_refresh.
    - intros Hq. exists q. split; [symmetry; apply qobj_refresh|]. apply list_elem_of_In, filter_In.
      by rewrite <-list_elem_of_In. }
  destruct (is_in can q); [done|]. cbn. by rewrite ident_refresh.
Qed.

Lemma finish_some d cf order now queue ch was a n adm full s b sp s' :
  handed queue ch was a n adm s → (∀ l, order l ≡ₚ l) → can_run_list a ≠ [] →
  finish_pass d cf order now queue ch was a full s = Ok (b, sp, s') →
  b ≠ None ∧ ident <$> (queue ++ running s ++ option_list was) ++ s_aborts s ≡ₚ ident <$> accounted b s'.
Proof.
  intros Hh Hord Hne. unfold finish_pass. destruct (can_run_list a) as [|r0 rs0] eqn:Hcan; [done|].
  rewrite <-Hcan. clear r0 rs0 Hcan Hne.
  intros ([waiting aborts] & Hq & (ch2 & Hch & Hrun)%bind_Ok)%bind_Ok.
  apply bind_Ok in Hrun as (b0 & _ & ([[[out reqs] p] c] & _ & [= <- <- <-])%bind_Ok). split; [done|].
  set (rs := zip_with with_base _ _).
  destruct (parked_wait ch was queue a n adm ch2) as [Hsub Hpark]; try done; try apply Hh.
  unfold accounted, parked. cbn [waiting_queue running chunked_req s_aborts batch_reqs nb_reqs].
  rewrite !fmap_app, parked_refresh, Hpark, idents_refresh by done. clear Hsub Hpark Hch.
  pose proof (handed_running _ _ _ _ _ _ _ Hh) as Hrun. pose proof (ha_rids _ _ _ _ _ _ _ Hh) as Hrids.
  set (pre := List.filter (is_in (preempt_list a)) (running s)) in *. set (out' := λ q, negb (is_in (can_run_list a) q)) in *.
  set (in' := is_in (can_run_list a)) in *.
  apply requeue_conserves in Hq.
  - rewrite !fmap_app in *. rewrite Hord, idents_refresh in Hq.
    rewrite <-(partition_perm in' queue) at 1. rewrite <-(partition_perm in' (option_list was)) at 1.
    rewrite <-Hrun at 1. rewrite (List.filter_app in'), !fmap_app. fold out'.
    set (kept := List.filter _ (running s)).
    transitivity (((ident <$> waiting) ++ (ident <$> aborts)) ++ (ident <$> kept) ++
      (ident <$> List.filter out' (option_list was)) ++ (ident <$> List.filter in' (option_list was)) ++
      (ident <$> List.filter in' queue)); [rewrite Hq|]; solve_Permutation.
  - rewrite <-Hrun in Hrids. rewrite <-(partition_perm in' queue) in Hrids.
    eapply NoDup_submseteq_l; [exact Hrids|]. rewrite !fmap_app, Hord. fold out'.
    rewrite (idents_rids (refresh (preempt_list a) <$> pre) pre) by by rewrite idents_refresh.
    etransitivity; [apply (submseteq_inserts_r ((rid <$> List.filter in' queue) ++
      (rid <$> List.filter (is_in (default [] (running_reqs a))) (running s)) ++ (rid <$> option_list was))); reflexivity|].
    apply Permutation_submseteq. solve_Permutation.
Qed.
(** ** The whole pass *)

(** The requests of the queue and the chunked one are where they were. *)
Definition still_waiting s s' : Prop :=
  ident <$> waiting_queue s' ++ option_list (chunked_req s') ≡ₚ
    ident <$> waiting_queue s ++ option_list (chunked_req s) ∧ s_aborts s' = s_aborts s.

Definition conserves (cf : SchedConfig) s (b : option NewBatch) s' : Prop :=
  ∃ lost, lost ⊆+ running s ∧ ident <$> alive s ++ s_aborts s ≡ₚ ident <$> accounted b s' ++ lost ∧
    (b ≠ None ∨ enable_priority_preemption cf = false → lost = []) ∧ (b = None → still_waiting s s').

Lemma conserves_idle cf s s' :
  still_waiting s s' → running s' = running s → conserves cf s None s'.
Proof.
  intros [Hp Ha] Hr. exists []. split; [apply submseteq_nil_l|]. split; [|done].
  rewrite app_nil_r, accounted_none, !fmap_app, Ha. apply Permutation_app_tail. unfold alive. rewrite Hr.
  rewrite !fmap_app in *. rewrite !(Permutation_app_comm (ident <$> running s)), !app_assoc. by rewrite Hp.
Qed.

Lemma filter_submseteq {A} (f : A → bool) l : List.filter f l ⊆+ l.
Proof.
  etransitivity; [|apply Permutation_submseteq, (partition_perm f l)]. by apply submseteq_inserts_r.
Qed.

Lemma nobody_in (l : list QReq) : List.filter (is_in []) l = [].
Proof. by induction l. Qed.

Lemma finish_conserves d cf order now queue ch was a n adm full s b sp s' :
  handed queue ch was a n adm s → (∀ l, order l ≡ₚ l) →
  (enable_priority_preemption cf = false → preempt_list a = []) →
  finish_pass d cf order now queue ch was a full s = Ok (b, sp, s') →
  ∃ lost, lost ⊆+ running s ∧
    ident <$> (queue ++ running s ++ option_list was) ++ s_aborts s ≡ₚ ident <$> accounted b s' ++ lost ∧
    (b ≠ None ∨ enable_priority_preemption cf = false → lost = []) ∧
    (b = None → waiting_queue s' = queue ∧ chunked_req s' = was ∧ s_aborts s' = s_aborts s).
Proof.
  intros Hh Hord Hpre Hrun. destruct (decide (can_run_list a = [])) as [Hnil|Hne].
  - destruct (finish_none _ _ _ _ _ _ _ _ _ _ _ _ _ _ _ Hh Hnil Hrun) as (-> & Hp & Hw). eexists. split_and!.
    + apply filter_submseteq.
    + by apply fmap_Permutation.
    + intros [?|Hoff]; [done|]. rewrite (Hpre Hoff). apply nobody_in.
    + done.
  - destruct (finish_some _ _ _ _ _ _ _ _ _ _ _ _ _ _ _ Hh Hord Hne Hrun) as [Hb Hp]. exists [].
    split; [apply submseteq_nil_l|]. by rewrite app_nil_r.
Qed.

Lemma raw_pass_conserves d cf shuffle order now sp e s b sp' s' A seen :
  Inv (s_pools s).1 A → disable (s_pools s).1 = false → simulates (waiting_tree s) seen →
  (∀ l, shuffle l ≡ₚ l) → (∀ l, order l ≡ₚ l) → NoDup (qobj <$> alive s) → NoDup (rid <$> alive s) →
  get_new_batch_prefill_raw d cf shuffle order now sp e s = Ok (b, sp', s') → conserves cf s b s'.
Proof.
  intros Hinv Hd Hw Hsh Hord Hobj Hrid. unfold get_new_batch_prefill_raw.
  set (s1 := if enable_priority_preemption cf then _ else s).
  assert (alive s1 = alive s ∧ s_pools s1 = s_pools s ∧ waiting_tree s1 = waiting_tree s ∧
    (conserves cf s1 b s' → conserves cf s b s')) as (Ea & Ep & Ew & Hs1).
  { unfold s1. by destruct (enable_priority_preemption cf). }
  rewrite <-Ep in Hinv, Hd. rewrite <-Ew in Hw. rewrite <-Ea in Hobj, Hrid.
  intros Hpass. apply Hs1. revert Hpass. clearbody s1. clear s Ea Ep Ew Hs1. rename s1 into s.
  destruct (_ && bool_decide _); [intros [= <- <- <-]; by apply conserves_idle|].
  destruct (_ && match s_min_free_slots cf with Some _ => _ | None => _ end); [intros [= <- <- <-]; by apply conserves_idle|].
  destruct (_ && _ && _); [intros [= <- <- <-]; by apply conserves_idle|].
  destruct (calc_priority_spec shuffle (s_policy cf) (waiting_queue s) (Some (running s)) _ A _ seen Hinv Hd Hw Hsh)
    as (queue & c & w & A' & seen' & -> & Hp%ident_plain & _). cbn [mbind res_bind].
  set (s2 := with_ordered s queue c w).
  assert (ident <$> alive s2 ≡ₚ ident <$> alive s) as Hs by (unfold alive; cbn; by rewrite !fmap_app, Hp).
  assert (still_waiting s s2) as Hsw by (split; [cbn; by rewrite !fmap_app, Hp|done]).
  destruct (match test_retract_no_prefill_bs cf with Some _ => _ | None => _ end).
  { intros [= <- <- <-]. by apply conserves_idle. }
  set (a0 := PrefillAdder_init _ _ _ _ _ _ _ _ _ _ _ _ _ _ _ _ _).
  intros ([[ch was] a1] & (Ew & Eo & Ec & adm & El & Hch)%continue_chunked_consider & Hrun)%bind_Ok.
  apply bind_Ok in Hrun as ([[queue' a2] full] & (n & [L1 L2 L3 L4 L5 L6])%admit_loop_looped & Hrun).
  change (can_run_list a0) with (@nil SReq) in El. change (new_chunked_req a0) with (@None nat) in Ec.
  assert (ident <$> queue' ++ running s ++ option_list was ≡ₚ ident <$> alive s) as Hall.
  { rewrite <-Hs. unfold alive. cbn. by rewrite !fmap_app, L1, Ew. }
  assert (decoding a1 = qobj <$> running s) as Hdec.
  { unfold others in Eo. injection Eo as Er Epr. unfold decoding. rewrite Er, Epr. cbn.
    by rewrite app_nil_r, <-list_fmap_compose. }
  destruct (finish_conserves d cf order now queue' ch was a2 n adm full s2 b sp' s') as (lost & Hl & Hc & Hn & Hnone); try done.
  - constructor; try done; change (running s2) with (running s).
    + by rewrite L3, El, fmap_app.
    + by rewrite <-Ec.
    + by rewrite L4, Hdec.
    + by rewrite (idents_objs _ _ Hall).
    + by rewrite (idents_rids _ _ Hall).
  - intros Hoff. specialize (L6 Hoff). rewrite Eo in L6. by injection L6.
  - exists lost. split; [done|]. split; [by rewrite <-Hc, !(fmap_app _ _ (s_aborts s)), <-Hall|]. split; [done|].
    intros Hb. destruct (Hnone Hb) as (Ewq & Ech & Eab). split; [|done].
    rewrite Ewq, Ech, <-(proj1 Hsw), !fmap_app, L1, Ew. done.
Qed.

Lemma pass_conserves d cf shuffle order now delay usage e collector log s b delay' s' A seen :
  Inv (s_pools s).1 A → disable (s_pools s).1 = false → simulates (waiting_tree s) seen →
  (∀ l, shuffle l ≡ₚ l) → (∀ l, order l ≡ₚ l) → NoDup (qobj <$> alive s) → NoDup (rid <$> alive s) →
  get_new_batch_prefill d cf shuffle order now delay usage e collector log s = Ok (b, delay', s') →
  conserves cf s b s'.
Proof.
  intros Hinv Hd Hw Hsh Hord Hobj Hrid. unfold get_new_batch_prefill.
  intros ([[b1 sp] s1] & Hraw & Hrun)%bind_Ok.
  pose proof (raw_pass_conserves _ _ _ _ _ _ _ _ _ _ _ _ _ Hinv Hd Hw Hsh Hord Hobj Hrid Hraw) as Hc.
  destruct delay as [[? t]|], sp as [sp|]; try (injection Hrun as <- <- <-; exact Hc).
  apply bind_Ok in Hrun as ([[observed ?] sp'] & _ & Hrun).
  destruct (observed >? 0); [|injection Hrun as <- <- <-; exact Hc].
  apply bind_Ok in Hrun as ([m t'] & _ & [= <- <- <-]). exact Hc.
Qed.
End pass.

Module LoopDemo.
Import (hints) Demo DecodeDemo PolicyDemo.
#[export] Instance settings2 : Settings := AdmitDemo.settings0.

(** Up to two running requests, first come first served within a priority. *)
Definition config : SchedConfig :=
  mkSched (mkPolicy FCFS true false) true None 2 None None 1 100 None None 0 (Some 2) None None 64 false true.

Definition as_queued (name : string) (s : SReq) : QReq := mkQReq name s None 0 false 0.
Definition arriving (ids : list Z) (max_new : Z) : QReq :=
  as_queued "urgent" (mkSReq 3 (mkReq ids [] [] false None None None None 0 [] None false kv_empty)
    max_new false 5 0 None 0 0 0 0 false false false false None).

(** Two requests decode; [new] has come in with a higher priority. *)
Definition pool4 : RadixCache := set_kv_allocator Demo.fresh (set_free_pages Demo.al0 [7; 8; 9; 10]).
Definition scheduler (new : QReq) : Scheduler :=
  mkScheduler [new] None [as_queued "short" DecodeDemo.short; as_queued "long" DecodeDemo.long] false
    (pool4, DecodeDemo.rows) PolicyDemo.tree ∅ [] (1 # 10) 0.
Definition small : QReq := arriving [11; 12; 13] 4.
Definition large : QReq := arriving [11; 12; 13; 14; 15; 16; 17; 18; 19; 20] 4.

Definition pass (new : QReq) : res (option NewBatch * option (PrefillDelayer * Tracker.Tracker) * Scheduler) :=
  get_new_batch_prefill backwards config id id 1 None 0%Q AdmitDemo.env0 false false (scheduler new).
Definition names (l : list QReq) : list string := rid <$> l.

Definition after_small : option NewBatch * Scheduler :=
  Eval vm_compute in match pass small with Ok (b, _, s) => (b, s) | Err _ => (None, scheduler small) end.
Lemma pass_small : pass small = Ok (after_small.1, None, after_small.2).
Proof. vm_compute. reflexivity. Qed.

Definition after_large : Scheduler :=
  Eval vm_compute in match pass large with Ok (_, _, s) => s | Err _ => scheduler large end.
Lemma pass_large : pass large = Ok (None, None, after_large).
Proof. vm_compute. reflexivity. Qed.

Lemma pool4_inv : Inv pool4 (root_tree 0).
Proof. apply Inv_set_alloc, Demo.fresh_inv. Qed.
End LoopDemo.
Import (hints) Demo DecodeDemo PolicyDemo LoopDemo.

(** ** Properties *)

(** C9: a prefill pass loses and invents no request.  Whatever the policy, the delayer
    and the chunked request are, and in whatever order the set of preempted requests
    is iterated, after [get_new_batch_prefill] every request of the queue, of the
    running batch and the chunked one is in exactly one place: still queued, still
    running, in the new batch, waiting for its next chunk, or aborted by the queue
    limit; with one exception: requests that were preempted in a pass that then
    makes no batch.  Without preemption there is no exception. *)
Theorem prefill_pass_conserves_requests `{Settings} `{RetractSettings} `{Clock} `{SetOrder} `{HashLaws} `{KVAllocator}
    `{KVFree} `{PolicySettings} `{BatchAllocator} (d : Device) (cf : SchedConfig) (shuffle order : list QReq → list QReq)
    (now : Z) (delay delay' : option (PrefillDelayer * Tracker.Tracker)) (usage : Q) (e : Env) (has_collector debug_log : bool)
    (s s' : Scheduler) (b : option NewBatch) (A : atree) seen :
  Inv (s_pools s).1 A → disable (s_pools s).1 = false → simulates (waiting_tree s) seen →
  (∀ l, shuffle l ≡ₚ l) → (∀ l, order l ≡ₚ l) → NoDup (qobj <$> alive s) → NoDup (rid <$> alive s) →
  get_new_batch_prefill d cf shuffle order now delay usage e has_collector debug_log s = Ok (b, delay', s') →
  ∃ lost, lost ⊆+ running s ∧
    ident <$> alive s ++ s_aborts s ≡ₚ
      ident <$> (waiting_queue s' ++ running s' ++ parked b s' ++ batch_reqs b ++ s_aborts s') ++ lost ∧
    (b ≠ None ∨ enable_priority_preemption cf = false → lost = []).
Proof.
  intros Hinv Hd Hw Hsh Hord Hobj Hrid Hrun.
  destruct (pass_conserves _ _ _ _ _ _ _ _ _ _ _ _ _ _ _ _ Hinv Hd Hw Hsh Hord Hobj Hrid Hrun) as (lost & ? & ? & ? & _).
  by exists lost.
Qed.

Lemma prefill_pass_conserves_requests_witness :
  let '(b, s') := LoopDemo.after_small in
  LoopDemo.pass LoopDemo.small = Ok (b, None, s') ∧ LoopDemo.names (batch_reqs b) = ["urgent"%string] ∧
  ident <$> alive (LoopDemo.scheduler LoopDemo.small) ≡ₚ
    ident <$> waiting_queue s' ++ running s' ++ parked b s' ++ batch_reqs b.
Proof.
  destruct (prefill_pass_conserves_requests backwards LoopDemo.config id id 1 None None 0%Q AdmitDemo.env0 false false
    (LoopDemo.scheduler LoopDemo.small) LoopDemo.after_small.2 LoopDemo.after_small.1 (root_tree 0) [] LoopDemo.pool4_inv eq_refl
    PolicyDemo.tree_simulates (λ l, reflexivity l) (λ l, reflexivity l) ltac:(by_evaluation) ltac:(by_evaluation)
    LoopDemo.pass_small) as (lost & _ & Hp & Hl).
  assert (lost = []) as -> by (apply Hl; left; discriminate). clear Hl.
  split; [exact LoopDemo.pass_small|]. split; [reflexivity|]. vm_compute in Hp |- *. exact Hp.
Defined.

(** C39: preempted requests get lost.  On a well-formed cache, with requests that are
    different and have different ids, when a pass makes no batch, every request that
    left the running batch in it is lost: it is not in the queue, not running, not
    waiting for a chunk, and nothing was added to the aborted ones, so nobody answers
    it.  (Preemption is what takes requests out of the running batch.)
    [preempt_to_schedule] does commit for requests that the admission then refuses,
    since it counts the tokens of a request that was not prepared yet, which is none
    of its input; the pass then returns before the preempted requests go back to the
    queue. *)
Theorem preempted_requests_lost `{Settings} `{RetractSettings} `{Clock} `{SetOrder} `{HashLaws} `{KVAllocator}
    `{KVFree} `{PolicySettings} `{BatchAllocator} (d : Device) (cf : SchedConfig) (shuffle order : list QReq → list QReq)
    (now : Z) (delay delay' : option (PrefillDelayer * Tracker.Tracker)) (usage : Q) (e : Env) (has_collector debug_log : bool)
    (s s' : Scheduler) (A : atree) seen (q : QReq) :
  Inv (s_pools s).1 A → disable (s_pools s).1 = false → simulates (waiting_tree s) seen →
  (∀ l, shuffle l ≡ₚ l) → (∀ l, order l ≡ₚ l) → NoDup (qobj <$> alive s) → NoDup (rid <$> alive s) →
  get_new_batch_prefill d cf shuffle order now delay usage e has_collector debug_log s = Ok (None, delay', s') →
  q ∈ running s → qobj q ∉ qobj <$> running s' →
  qobj q ∉ qobj <$> waiting_queue s' ++ running s' ++ option_list (chunked_req s') ∧ s_aborts s' = s_aborts s.
Proof.
  intros Hinv Hd Hw Hsh Hord Hobj Hrid Hrun Hq Hgone.
  destruct (pass_conserves _ _ _ _ _ _ _ _ _ _ _ _ _ _ _ _ Hinv Hd Hw Hsh Hord Hobj Hrid Hrun) as (_ & _ & _ & _ & Hs).
  destruct (Hs eq_refl) as [Hp%idents_objs Ha]. split; [|done].
  unfold alive in Hobj. rewrite (Permutation_app_comm (running s)), app_assoc, fmap_app, <-Hp in Hobj.
  apply NoDup_app in Hobj as (_ & Hdisj & _). intros Hin.
  rewrite (Permutation_app_comm (running s')), app_assoc, fmap_app in Hin. apply elem_of_app in Hin as [Hin|Hin]; [|done].
  apply (Hdisj _ Hin). by apply list_elem_of_fmap_2.
Qed.

(** Two requests decode and one of higher priority arrives: after the pass the newcomer
    waits, and the two requests are nowhere, with their memory released. *)
Lemma preempted_requests_lost_witness :
  LoopDemo.names (alive (LoopDemo.scheduler LoopDemo.large)) = ["urgent"; "short"; "long"]%string ∧
  LoopDemo.pass LoopDemo.large = Ok (None, None, LoopDemo.after_large) ∧
  LoopDemo.names (alive LoopDemo.after_large) = ["urgent"]%string ∧
  free_slots (s_pools LoopDemo.after_large).2 ≡ₚ [1; 2] ∧
  (∀ q, q ∈ running (LoopDemo.scheduler LoopDemo.large) →
     qobj q ∉ qobj <$> waiting_queue LoopDemo.after_large ++ running LoopDemo.after_large ++
       option_list (chunked_req LoopDemo.after_large)) ∧
  s_aborts LoopDemo.after_large = [].
Proof.
  pose proof (λ q, preempted_requests_lost backwards LoopDemo.config id id 1 None None 0%Q AdmitDemo.env0 false false
    (LoopDemo.scheduler LoopDemo.large) LoopDemo.after_large (root_tree 0) [] q LoopDemo.pool4_inv eq_refl
    PolicyDemo.tree_simulates (λ l, reflexivity l) (λ l, reflexivity l) ltac:(by_evaluation) ltac:(by_evaluation)
    LoopDemo.pass_large) as Hlost.
  assert (∀ q, q ∈ running (LoopDemo.scheduler LoopDemo.large) → qobj q ∉ qobj <$> running LoopDemo.after_large) as Hgone
    by (intros q _; apply not_elem_of_nil).
  split_and!; [reflexivity|exact LoopDemo.pass_large|reflexivity|by vm_compute| |reflexivity].
  intros q Hq. exact (proj1 (Hlost q Hq (Hgone q Hq))).
Defined.
