(* ===== verification/LoopOwn.v ===== *)
(** * Who holds what during a prefill pass

    The running requests own their pages and hold nodes of the tree while the pass
    matches, locks and admits waiting requests; an admitted request holds the node of
    its cached prefix.  The match of a request and the two outcomes of its admission
    keep this. *)

From S2P Require Import Prelude PyFloat PySort PrefillDelayer Allocator AllocKernels RadixKey PrefixTree TreeNode ReqPool Events.
From S2P Require Import RadixCache RadixInv RadixWalk RadixLock RadixEvict RadixTheorems ReqCache ReqOwnership.
From S2P Require Import PrefillAdder PrefillAdmit RadixPools PrefillTheorems SchedulePolicy PolicyTheorems.
From S2P Require Import Allocation BatchAlloc RunningBatch ExtendAlloc ExtendTheorems PrefillLoop LoopConserve LoopTheorems.
Import PrefillAdder.

(** ** The units of a token list *)

Definition kunits (eagle : bool) (ids : list Z) : list kunit := if eagle then bigrams ids else Tok <$> ids.

Lemma take_bigrams m n raw : (m < n)%nat → take m (bigrams (take n raw)) = take m (bigrams raw).
Proof. intros Hmn. destruct n as [|n]; [lia|]. rewrite bigrams_take, take_take. f_equal. lia. Qed.

(** A prefix of the units only depends on one more token than it has units. *)
Lemma take_kunits eagle m n ids : (m < n)%nat → take m (kunits eagle (take n ids)) = take m (kunits eagle ids).
Proof.
  intros Hmn. unfold kunits. destruct eagle; [by apply take_bigrams|].
  rewrite <-fmap_take, take_take, fmap_take. f_equal. f_equal. lia.
Qed.

Lemma take_view_units k m :
  key_wf k → Z.of_nat m ≤ key_len k → take m (units k) = take m (kunits (is_bigram k) (token_ids k)).
Proof.
  intros Hwf Hm. unfold units. rewrite raw_token_ids_take by done. unfold key_len in Hm.
  pose proof (raw_len_bounds k Hwf) as Hr. unfold kunits. destruct (is_bigram k).
  - destruct m as [|m]; [done|]. apply take_bigrams. destruct (Z.gtb_spec (raw_len k) 0); lia.
  - rewrite <-fmap_take, take_take, fmap_take. f_equal. f_equal. lia.
Qed.

Lemma take_aligned_units k ps m :
  key_wf k → 0 < ps → Z.of_nat m ≤ zlen (units (page_aligned k ps)) →
  take m (units (page_aligned k ps)) = take m (kunits (is_bigram k) (token_ids k)).
Proof.
  intros Hwf Hps Hm. rewrite <-key_len_units, page_aligned_len in Hm by (try apply page_aligned_wf; done).
  pose proof (floor_align_le (key_len k) ps Hps). rewrite units_page_aligned, take_take by done.
  rewrite Nat.min_l by lia. apply take_view_units; [done|lia].
Qed.

Lemma take_query_units c A k m :
  Inv c A → key_wf k → is_bigram k = false → Z.of_nat m ≤ zlen (query_units c k) →
  take m (query_units c k) = take m (kunits (is_eagle c) (token_ids k)).
Proof.
  intros Hinv Hwf Hb Hm. pose proof (inv_ps c A Hinv) as Hps. unfold query_units, maybe_to_bigram_view in *. rewrite Hb in *.
  destruct (is_eagle c) eqn:He; cbn [andb negb fst] in *.
  - by rewrite take_aligned_units.
  - rewrite take_aligned_units by done. by rewrite Hb.
Qed.

Lemma take_req_units c A r toks m :
  Inv c A → Z.of_nat m ≤ zlen (req_units c r toks) →
  take m (req_units c r toks) = take m (kunits (is_eagle c) toks).
Proof. intros Hinv Hm. pose proof (inv_ps c A Hinv) as Hps. unfold req_units, req_key in *. by rewrite take_aligned_units. Qed.

Lemma req_units_room c A r toks n :
  Inv c A → (cpage_size c | n) → n < zlen toks → n ≤ zlen (req_units c r toks).
Proof.
  intros Hinv Hd Hn. pose proof (inv_ps c A Hinv) as Hps. destruct (req_key_len c A r toks Hinv) as (<- & _ & _).
  unfold req_key. rewrite page_aligned_len by done. apply floor_align_greatest; [done|done|].
  unfold key_len, raw_len. cbn. destruct (is_eagle c); [|lia]. destruct (Z.gtb_spec (zlen toks) 0); lia.
Qed.

(** ** The match of a request *)

Lemma query_units_len c A k : Inv c A → user_key c k → zlen (query_units c k) ≤ raw_len k.
Proof.
  intros Hinv Hu. pose proof (query_key c A k Hinv Hu) as Hk. pose proof (inv_ps c A Hinv) as Hps.
  rewrite <-(search_key_len _ _ _ _ _ Hk). destruct (maybe_bigram_key c k None Hu) as (_ & Hwf & _ & _ & _).
  rewrite page_aligned_len by done. etrans; [by apply floor_align_le|].
  destruct Hu as [Hkw _]. pose proof (raw_len_bounds k Hkw) as Hr. unfold maybe_to_bigram_view, key_len.
  destruct (_ && _); cbn [fst is_bigram]; [change (raw_len _) with (raw_len k)|destruct (is_bigram k); [|lia]];
    destruct (_ >? 0); lia.
Qed.

(** The token list of a request can be brought up to date ([refresh_fill_ids_exact]):
    it is the prompt followed by some of the outputs, the prompt object itself, or of
    a length that no such list has. *)
Definition fill_current (r : Req) : Prop :=
  fill_is_origin r = true ∨
  (∃ n, (n ≤ length (output_ids r))%nat ∧
        full_untruncated_fill_ids r = origin_input_ids r ++ take n (output_ids r)) ∨
  zlen (full_untruncated_fill_ids r) < zlen (origin_input_ids r) ∨
  zlen (origin_input_ids r) + zlen (output_ids r) < zlen (full_untruncated_fill_ids r).

(** A waiting request: it has tokens, holds no row, and the table has room for its
    tokens; its reasoning tokens are not kept out of the cache. *)
Record waiting_ok `{RetractSettings} (p : ReqToTokenPool) (q : QReq) : Prop := {
  wo_new : 0 ≤ max_new_tokens (sreq q);
  wo_ids : prefix_ids q ≠ [];
  wo_len : zlen (prefix_ids q) ≤ max_context_len p;
  wo_kv : holds_kv (kv (base (sreq q))) = false;
  wo_swa : swa_evicted_seqlen (kv (base (sreq q))) = 0;
  wo_fill : fill_current (base (sreq q));
  wo_strip : strip_thinking_cache && (reasoning_tokens (base (sreq q)) >? 0) = false;
}.

(** What a pass does not change of a request. *)
Definition core (q : QReq) : nat * string * (Z * bool) * (list Z * list Z) :=
  let r := sreq q in (ident q, (max_new_tokens r, is_finished r), (origin_input_ids (base r), output_ids (base r))).

Lemma core_plain (l k : list QReq) : plain <$> l ≡ₚ plain <$> k → core <$> l ≡ₚ core <$> k.
Proof. intros Hp. change core with (core ∘ plain). rewrite !list_fmap_compose. by apply fmap_Permutation. Qed.

Lemma core_idents (l k : list QReq) : core <$> l = core <$> k → ident <$> l = ident <$> k.
Proof. intros E. apply (f_equal (fmap (fst ∘ fst))) in E. by rewrite <-!list_fmap_compose in E. Qed.

Lemma waiting_plain `{RetractSettings} p q : waiting_ok p (plain q) ↔ waiting_ok p q.
Proof. split; intros [? ? ? ? ? ? ?]; by constructor. Qed.

Lemma waiting_perm `{RetractSettings} p (l k : list QReq) :
  plain <$> l ≡ₚ plain <$> k → Forall (waiting_ok p) k → Forall (waiting_ok p) l.
Proof.
  intros Hp Hk. assert (Forall (waiting_ok p) (plain <$> l)) as Hl.
  { rewrite Hp. apply Forall_fmap. eapply Forall_impl; [exact Hk|]. intros q. apply waiting_plain. }
  rewrite (Forall_fmap plain) in Hl. eapply Forall_impl; [exact Hl|]. intros q. apply waiting_plain.
Qed.

Lemma refresh_fill_len r : zlen (full_untruncated_fill_ids (refresh_fill_ids r)) = zlen (origin_input_ids r) + zlen (output_ids r).
Proof.
  unfold refresh_fill_ids. destruct (_ && _) eqn:Hc; [|cbn; apply zlen_app].
  apply andb_prop in Hc as [[_ H1%Z.leb_le]%andb_prop H2%Z.leb_le]. cbn [set_fill_ids full_untruncated_fill_ids].
  rewrite zlen_app, zlen_slice_from by done. lia.
Qed.

Lemma match_key_user c q : user_key c (match_key q).
Proof.
  split_and!; [|apply or_None_idem|done]. unfold key_wf, match_key, compute_max_prefix_len. cbn. lia.
Qed.

Lemma match_key_len q : raw_len (match_key q) ≤ zlen (full_untruncated_fill_ids (base (sreq q))).
Proof. apply raw_len_bounds. unfold key_wf, match_key, compute_max_prefix_len. cbn. lia. Qed.

(** An admitted request and the node that supplies its prefix. *)
Record tenant `{RetractSettings} (c : RadixCache) (A : atree) (r : SReq) : Prop := {
  tn_node : ∃ i a, last_node (base r) = Some i ∧ A !! i = Some a ∧
    (i ≠ root_node c → a_ns a = req_ns (base r)) ∧ a_slots a = prefix_indices (base r) ∧
    a_path a = take (length (prefix_indices (base r))) (kunits (is_eagle c) (full_untruncated_fill_ids (base r)));
  tn_ids : full_untruncated_fill_ids (base r) = origin_input_ids (base r) ++ output_ids (base r);
  tn_cpl : cache_protected_len (kv (base r)) = prefix_len r;
  tn_swa : swa_evicted_seqlen (kv (base r)) = 0;
  tn_len : prefix_len r < fill_len r;
  tn_strip : strip_thinking_cache && (reasoning_tokens (base r) >? 0) = false;
}.

Lemma match_key_short q :
  full_untruncated_fill_ids (base (sreq q)) ≠ [] →
  raw_len (match_key q) < zlen (full_untruncated_fill_ids (base (sreq q))).
Proof.
  intros Hne. unfold raw_len, match_key, compute_max_prefix_len. cbn [limit token_ids RadixKey_init].
  set (n := zlen _). assert (0 < n) by (unfold n, zlen; destruct (full_untruncated_fill_ids _); [done|cbn; lia]).
  set (l := Z.max _ 0). assert (l < n) by (unfold l; destruct (return_logprob q && _); lia).
  destruct (Z.ltb_spec l n); lia.
Qed.

Lemma refresh_same r :
  let r' := refresh_fill_ids r in
  origin_input_ids r' = origin_input_ids r ∧ output_ids r' = output_ids r ∧ kv r' = kv r ∧
  req_extra_key r' = req_extra_key r ∧ req_cache_salt r' = req_cache_salt r ∧ reasoning_tokens r' = reasoning_tokens r.
Proof. unfold refresh_fill_ids. by destruct (_ && _). Qed.

Section match_next.
Context `{Settings} `{RetractSettings} `{Clock} `{SetOrder} `{HashLaws} `{KVAllocator} `{KVFree} `{PolicySettings}.

(** The longest cached prefix of a waiting request, short of its last token. *)
Lemma init_next_round_spec c A p q :
  Inv c A → disable c = false → kv_ok c A → waiting_ok p q →
  ∃ q' c' A', init_next_round_input q c = Ok (q', c') ∧ Inv c' A' ∧ stable c' = stable c ∧
    same_contents (cpage_size c) (root_node c) A A' ∧ kv_ok c' A' ∧ queued c' A' p (sreq q') ∧ tenant c' A' (sreq q') ∧
    waiting_ok p q' ∧ core q' = core q.
Proof.
  intros Hinv Hd Hkv [W1 Wi W2 W3 W4 W5 W6]. set (q1 := refresh_input q).
  destruct (match_prefix_spec c A (match_key q1) Hinv Hd (match_key_user c q1))
    as (m & c' & A' & a & Hrun & Hinv' & Hst & Hsame & Hw & Hs & Hlong).
  destruct (same_contents_kv c c' A A' Hinv Hkv Hst Hsame) as [Hkv' _].
  pose proof (query_units_len c A _ Hinv (match_key_user c q1)) as Hul. pose proof (match_key_len q1) as Hml.
  unfold init_next_round_input, match_or_miss. fold q1. rewrite Hrun. cbn [mbind res_bind].
  eexists _, c', A'. split; [done|]. do 4 (split; [done|]).
  set (m' := if RADIX_FORCE_MISS then _ else m).
  destruct (stable_config c c' Hst) as (_ & _ & Ee & Er & _).
  destruct Hw as (Hi & Hns & Hw & Hpath).
  assert (∃ j b, last_device_node m' = j ∧ A' !! j = Some b ∧ a_slots b = device_indices m' ∧
    (j ≠ root_node c' → a_ns b = namespace (match_key q1)) ∧
    a_path b = take (length (device_indices m')) (kunits (is_eagle c) (full_untruncated_fill_ids (base (sreq q1)))))
    as (j & b & Ej & Hj & Hb & Hbn & Hbp).
  { unfold m'. destruct RADIX_FORCE_MISS; cbn [zero_match_result last_device_node device_indices].
    - destruct (to_root _ _ _ A' (inv_tree c' A' Hinv')) as (r & Hr & Hrn). exists (root_node c'), r.
      rewrite slice_to_take by done. destruct Hrn as (_ & _ & _ & _ & Hp & Hsl). by rewrite take_0, Hp, Hsl.
    - exists (last_device_node m), a. rewrite Er. split_and!; try done. rewrite Hpath. unfold zlen. rewrite Nat2Z.id.
      apply (take_query_units c A); [done|apply (match_key_user c)|done|]. unfold zlen in *. lia. }
  assert (zlen (device_indices m') ≤ zlen (device_indices m)) as Hle.
  { unfold m'. destruct RADIX_FORCE_MISS; [|done]. rewrite zero_match_len. apply zlen_nonneg. }
  destruct (refresh_same (base (sreq q))) as (R1 & R2 & R3 & R4 & R5 & R6).
  destruct (refresh_fill_ids_exact (base (sreq q)) W5) as (Hfill & _ & _).
  assert (full_untruncated_fill_ids (base (sreq q1)) = prefix_ids q) as Hids by exact Hfill.
  assert (fill_current (refresh_fill_ids (base (sreq q)))) as Hcur.
  { right. left. exists (length (output_ids (base (sreq q)))). rewrite R1, R2, firstn_all. split; [done|exact Hfill]. }
  pose proof (match_key_short q1) as Hshort. rewrite Hids in Hml, Hshort. specialize (Hshort Wi).
  split; [|split; [|split]].
  - constructor; cbn.
    + done.
    + done.
    + exists j, A'. split_and!; [by rewrite <-Ej|done|by exists b].
    + rewrite <-Hb. by apply (slots_paged _ _ _ _ (inv_tree c' A' Hinv') j b (kv_paged c' A' Hkv') Hj).
    + rewrite <-Hb. by apply (slots_in_tree _ _ _ _ (inv_tree c' A' Hinv') j b).
    + unfold prefix_len, fill_len. cbn. rewrite Hfill. split; [|exact W2]. unfold prefix_ids in *. lia.
    + by rewrite R3.
  - constructor; cbn.
    + exists j, b. split; [by rewrite <-Ej|]. split; [done|]. rewrite Ee. split_and!; [|done|exact Hbp].
      intros Hr. rewrite (Hbn Hr). done.
    + by rewrite Hfill, R1, R2.
    + done.
    + by rewrite R3.
    + unfold prefix_len, fill_len. cbn. rewrite Hfill. unfold prefix_ids in *. lia.
    + by rewrite R6.
  - constructor; cbn [with_sreq sreq base set_kv set_last_node set_prefix_indices kv set_cache_protected_len max_new_tokens
      swa_evicted_seqlen reasoning_tokens holds_kv req_pool_idx]; try done;
      unfold prefix_ids in *; cbn [with_sreq sreq base set_kv set_last_node set_prefix_indices kv origin_input_ids output_ids q1 refresh_input with_base];
      rewrite ?R1, ?R2, ?R3, ?R6; try done.
  - unfold core. cbn [with_sreq sreq base set_kv set_last_node set_prefix_indices origin_input_ids output_ids max_new_tokens is_finished].
    change (base (sreq q1)) with (refresh_fill_ids (base (sreq q))). by rewrite R1, R2.
Qed.
End match_next.

(** ** Leases *)

Definition tenants_at (l : list SReq) (i : nat) : Z := zlen (filter (λ r, last_node (base r) = Some i) l).

Lemma tenants_snoc l r i : tenants_at (l ++ [r]) i = tenants_at l i + (if decide (last_node (base r) = Some i) then 1 else 0).
Proof.
  unfold tenants_at. rewrite filter_app, zlen_app. f_equal. case_decide.
  - by rewrite filter_cons_True.
  - by rewrite filter_cons_False.
Qed.

Lemma tenant_moved `{RetractSettings} c c' A A' r :
  config c' = config c →
  (∀ i a, A !! i = Some a → ∃ a', A' !! i = Some a' ∧ a_ns a' = a_ns a ∧ a_path a' = a_path a ∧ a_slots a' = a_slots a) →
  tenant c A r → tenant c' A' r.
Proof.
  intros Hcfg Hn [(i & a & Hl & Ha & Hns & Hs & Hp) ? ? ? ? ?]. destruct (config_fields c c' Hcfg) as (_ & _ & Ee & Er & _).
  constructor; try done. destruct (Hn i a Ha) as (a' & Ha' & N1 & N2 & N3). exists i, a'.
  rewrite Ee, Er, N1, N2, N3. by split_and!.
Qed.

Section lease.
Context `{Settings} `{RetractSettings} `{Clock} `{SetOrder} `{HashLaws} `{KVAllocator} `{KVFree}.
Context (c0 : RadixCache) (A0 : atree) (p0 : ReqToTokenPool) (gs : list greq).

(** The tree during the pass: the same slots as at its start, the nodes of the
    running requests [gs] in place, and every node held by as many requests as the
    running and the admitted ones [l] that refer to it. *)
Record leased (c : RadixCache) (A : atree) (l : list SReq) : Prop := {
  le_inv : Inv c A;
  le_enabled : disable c = false;
  le_cfg : config c = config c0;
  le_kv : kv_ok c A;
  le_slots : tree_slots A ≡ₚ tree_slots A0;
  le_runs : Forall (runs c A p0) gs;
  le_tenants : Forall (tenant c A) l;
  le_held i a : A !! i = Some a → i ≠ root_node c → holders gs i + tenants_at l i ≤ a_held a;
}.

Lemma kv_moved c c' A A' :
  kv_ok c A → config c' = config c → tree_slots A' ≡ₚ tree_slots A → (paged (cpage_size c) A → paged (cpage_size c) A') →
  kv_ok c' A'.
Proof.
  intros [K1 K2 K3 K4] Hcfg Hs Hp. destruct (config_fields c c' Hcfg) as (_ & Eps & _ & _ & _ & Ea).
  constructor; rewrite ?Eps, ?Ea; try done; [by apply Hp|]. by rewrite Hs.
Qed.

(** Nobody refers to a node that was not there. *)
Lemma nobody_at c A l i : leased c A l → A !! i = None → holders gs i + tenants_at l i = 0.
Proof.
  intros Hl Hi. rewrite (holders_none c A p0 gs i (le_runs _ _ _ Hl) Hi).
  unfold tenants_at. rewrite filter_none; [done|]. eapply Forall_impl; [apply Hl|].
  intros r [(j & a & Hj & Ha & _) _ _ _ _ _] He. congruence.
Qed.

Lemma leased_match c A l c' A' :
  leased c A l → Inv c' A' → stable c' = stable c → same_contents (cpage_size c) (root_node c) A A' → leased c' A' l.
Proof.
  intros Hl Hinv' Hst Hsame. destruct (stable_config c c' Hst) as (Hcfg & _). pose proof Hl as [L1 L2 L3 L4 L5 L6 L7 L8].
  destruct (config_fields c c' Hcfg) as (Ed & _ & _ & Er & _).
  assert (∀ i a, A !! i = Some a → ∃ a', A' !! i = Some a' ∧ a_ns a' = a_ns a ∧ a_path a' = a_path a ∧ a_slots a' = a_slots a) as Hn.
  { intros i a Ha. destruct (sc_extends _ _ _ _ Hsame i a Ha) as (a' & Ha' & ? & ? & _ & _ & ?). by exists a'. }
  constructor; try done; try congruence.
  - by apply (same_contents_kv c c' A A').
  - by rewrite (sc_slots _ _ _ _ Hsame).
  - eapply Forall_impl; [exact L6|]. intros g. apply runs_moved; [by apply config_settings|done|]. apply Hn.
  - eapply Forall_impl; [exact L7|]. intros r. by apply tenant_moved.
  - intros i a' Hi Hr. rewrite Er in Hr. destruct (A !! i) as [a|] eqn:Ha.
    + destruct (sc_extends _ _ _ _ Hsame i a Ha) as (b & Hb & _ & _ & _ & Hh & _). simplify_eq. rewrite Hh. by apply L8.
    + rewrite (nobody_at c A l i Hl Ha). apply (inv_locks c' A' Hinv' i a' Hi).
Qed.

Lemma leased_same c A l c' : leased c A l → Inv c' A → config c' = config c → leased c' A l.
Proof.
  intros [L1 L2 L3 L4 L5 L6 L7 L8] Hinv' Hcfg. destruct (config_fields c c' Hcfg) as (Ed & _ & _ & Er & _).
  constructor; try done; try congruence.
  - by apply (kv_moved c c' A A).
  - eapply Forall_impl; [exact L6|]. intros g. apply runs_moved; [by apply config_settings|done|]. eauto.
  - eapply Forall_impl; [exact L7|]. intros r. apply tenant_moved; [done|]. eauto.
  - intros i a Hi. rewrite Er. by apply L8.
Qed.

Lemma leased_lock c A l c' A' r i :
  leased c A l → Inv c' A' → config c' = config c → relocked (root_node c) A A' i 1 →
  last_node (base r) = Some i → tenant c A r → leased c' A' (l ++ [r]).
Proof.
  intros [L1 L2 L3 L4 L5 L6 L7 L8] Hinv' Hcfg Hre Hi Ht. destruct (config_fields c c' Hcfg) as (Ed & _ & _ & Er & _).
  assert (∀ j a, A !! j = Some a → ∃ a', A' !! j = Some a' ∧ a_ns a' = a_ns a ∧ a_path a' = a_path a ∧ a_slots a' = a_slots a) as Hn.
  { intros j a Ha. destruct (proj2 Hre j a Ha) as (a' & Ha' & (_ & Hk & _ & Hp & Hs) & _). exists a'. by rewrite Hk. }
  constructor; try done; try congruence.
  - by apply (relocked_kv c c' A A' i 1).
  - by rewrite (relocked_tree_slots _ _ _ _ _ Hre).
  - eapply Forall_impl; [exact L6|]. intros g. apply runs_moved; [by apply config_settings|done|]. apply Hn.
  - apply Forall_app. split; [|apply Forall_singleton; by apply (tenant_moved c c' A A')].
    eapply Forall_impl; [exact L7|]. intros x. by apply tenant_moved.
  - intros j a' Hj Hr. rewrite Er in Hr. destruct (A !! j) as [a|] eqn:Ha; [|rewrite (proj1 Hre j Ha) in Hj; done].
    destruct (proj2 Hre j a Ha) as (b & Hb & _ & Hh & _). simplify_eq. rewrite tenants_snoc, Hh, Hi.
    specialize (L8 j a Ha Hr). destruct (decide (Some i = Some j)) as [He|He].
    + injection He as ->. rewrite decide_True by done. lia.
    + rewrite decide_False by (intros [-> _]; done). lia.
Qed.

Lemma tenant_range c A r r' s e : base r' = set_extend_range s e (base r) → tenant c A r → tenant c A r'.
Proof.
  intros Hb [T1 T2 T3 T4 T5 T6]. unfold prefix_len, fill_len in *.
  constructor; unfold prefix_len, fill_len; rewrite Hb; done.
Qed.

(** The two outcomes of an admission. *)
Lemma admission_leases r align (a a' : PrefillAdder (RadixCache * ReqToTokenPool)) x r' A :
  0 < page_size (cfg a) → dllm_config (cfg a) = None → from_option (Z.lt 0) True align →
  needs_host_load_back r = false → add_one_req r align a = Ok (x, r', a') →
  leased (pools a).1 A (can_run_list a) → tenant (pools a).1 A r →
  ∃ A', leased (pools a').1 A' (can_run_list a').
Proof.
  intros Hp Hd Hal Hh Hrun Hl Ht. pose proof (tn_node _ _ _ Ht) as (i & b & Hi & Hb & _).
  destruct (radix_lock_run i (pools a).1 A b (le_inv _ _ _ Hl) (le_enabled _ _ _ Hl) Hb)
    as (d1 & c1 & A1 & d2 & c2 & d3 & c3 & d4 & c4 & R1 & R2 & R3 & R4 & Hre & I1 & I2 & I4 & C1 & C2 & C4).
  apply add_one_req_outcome in Hrun as [(_ & [_ Hlist _ _] & _ & Hpo)|(_ & p1 & ext & mn & Hlk & _ & Had)]; [| |done..|by rewrite andb_false_r].
  - rewrite Hlist. destruct Hpo as [-> |(tok & s1 & Hinc & Hdec)]; [by exists A|].
    rewrite Hi in Hinc, Hdec. cbn in Hinc. rewrite R1 in Hinc. cbn in Hinc. injection Hinc as <- <-.
    cbn in Hdec. rewrite R2 in Hdec. cbn in Hdec. injection Hdec as <-. exists A. by apply (leased_same (pools a).1).
  - rewrite (adm_list _ _ _ _ _ _ Had). destruct Hlk as (tok & tok2 & s2 & Hinc & Hinc2 & Hdec).
    rewrite Hi in Hinc, Hinc2, Hdec. cbn in Hinc. rewrite R1 in Hinc. cbn in Hinc. injection Hinc as <- <-.
    cbn in Hinc2. rewrite R3 in Hinc2. cbn in Hinc2. injection Hinc2 as <- <-.
    cbn in Hdec. rewrite R4 in Hdec. cbn in Hdec. injection Hdec as <-. exists A1.
    apply (leased_lock (pools a).1 A (can_run_list a) c4 A1 r' i); try done.
    + by rewrite (adm_base _ _ _ _ _ _ Had).
    + by eapply tenant_range; [apply (adm_base _ _ _ _ _ _ Had)|].
Qed.
End lease.
