(* ===== verification/LoopBatch.v ===== *)
(** * The batch of a prefill pass runs

    After the allocation every request of the batch has a row, pages and a lock of
    its own: it can be added to the running requests, whose invariant [batch_inv]
    then holds for both. *)

From S2P Require Import Prelude PyFloat PySort PrefillDelayer Allocator AllocKernels RadixKey PrefixTree TreeNode ReqPool Events.
From S2P Require Import RadixCache RadixInv RadixWalk RadixLock RadixEvict RadixTheorems ReqCache ReqOwnership.
From S2P Require Import PrefillAdder PrefillAdmit RadixPools PrefillTheorems SchedulePolicy PolicyTheorems.
From S2P Require Import Allocation AllocWrites BatchAlloc RunningBatch ExtendAlloc ExtendTheorems PrefillLoop LoopConserve LoopTheorems LoopOwn.
Import PrefillAdder.

(** The admitted request [r] with what the allocation gave it. *)
Definition ghost (p : ReqToTokenPool) (rb : SReq * Req) (ie : Z * ereq) : greq :=
  mkG (with_base rb.1 rb.2) ie.1 (req_to_token p !!! Z.to_nat ie.1) (e_pages ie.2) (default 0%nat (last_node (base rb.1))).
Definition ghosts (p : ReqToTokenPool) (new : list SReq) (reqs : list Req) (idx : list Z) (ers : list ereq) : list greq :=
  zip_with (ghost p) (zip new reqs) (zip idx ers).

(** The part of its row a request got in this pass. *)
Definition fresh_row (g : greq) : list Z := drop (Z.to_nat (cache_protected_len (g_kv g))) (g_row g).

(** A request with the memory of its prefill: its row covers the range it was admitted
    for, and the tokens of the row are the ones to fill it with. *)
Record prefilled `{RetractSettings} (g : greq) : Prop := {
  pf_range : extend_range (base (g_req g)) = Some (cache_protected_len (g_kv g), g_len g);
  pf_ids : full_untruncated_fill_ids (base (g_req g)) `prefix_of` g_ids g;
  pf_long : g_len g ≤ zlen (full_untruncated_fill_ids (base (g_req g)));
  pf_committed : kv_committed_len (g_kv g) = g_len g;
  pf_strip : strip_thinking_cache && (reasoning_tokens (base (g_req g)) >? 0) = false;
}.

(** As many requests hold a node after the allocation as were admitted with it. *)
Lemma holders_tenants (l : list greq) (k : list SReq) i :
  (λ g, Some (g_node g)) <$> l = (λ r, last_node (base r)) <$> k → holders l i = tenants_at k i.
Proof.
  revert k. induction l as [|g l IH]; intros [|r k] E; try done. rewrite !fmap_cons in E. injection E as Eg E.
  rewrite holders_cons, (IH k E). unfold tenants_at. rewrite filter_cons, <-Eg. repeat case_decide; rewrite ?zlen_cons; (lia || congruence).
Qed.

Section batch.
Context `{Settings} `{RetractSettings} `{Clock} `{SetOrder} `{HashLaws} `{KVAllocator} `{KVFree} `{Census} `{BatchAllocator} `{!BatchLaws}.
Context (c0 : RadixCache) (A0 : atree) (gs : list greq) (c c' : RadixCache) (A A' : atree) (p p' : ReqToTokenPool).
Context (new : list SReq) (reqs : list Req) (xs : list xreq) (ers : list ereq) (idx : list Z).
Hypothesis Hl : leased c0 A0 p gs c A new.
Hypothesis Hlt : Forall (λ r, ∃ e, extend_range (base r) = Some (prefix_len r, e) ∧ prefix_len r < e) new.
Hypothesis Hreq : x_req <$> xs = base <$> new.
Hypothesis Hal : Forall (aligned_x (cpage_size c)) xs.
Hypothesis Hok : Forall (extend_ok (cpage_size c) p) xs.
Hypothesis Hex : extended c c' A A' xs ers.
Hypothesis Hbound : bound_reqs idx xs reqs.
Hypothesis Hidx : length idx = length xs.
Hypothesis Hpool : pool_ok p' (idx ++ (g_idx <$> gs)).
Hypothesis Hwrite : rows_written idx ers p p'.
Let ps := cpage_size c.

(** The [k]-th request of the batch. *)
Record seat (k : nat) (r : SReq) (x : xreq) (b : Req) (i : Z) (e : ereq) (rest : list Z) : Prop := {
  st_x : xs !! k = Some x;
  st_req : x_req x = base r;
  st_reqs : reqs !! k = Some b;
  st_idx : idx !! k = Some i;
  st_ers : ers !! k = Some e;
  st_grown : grown ps (x_row x) e;
  st_kv : req_pool_idx (kv b) = Some i ∧ kv_allocated_len (kv b) = x_seq x ∧ kv_committed_len (kv b) = x_seq x ∧
    b = set_kv (base r) (kv b) ∧ same_marks (kv (base r)) (kv b);
  st_row : req_to_token p' !! Z.to_nat i = Some (e_row e ++ rest);
  st_ghost : ghosts p' new reqs idx ers !! k = Some (ghost p' (r, b) (i, e));
}.

Lemma seat_at k r : new !! k = Some r → ∃ x b i e rest, seat k r x b i e rest.
Proof.
  intros Hr. assert ((x_req <$> xs) !! k = Some (base r)) as Hx by (by rewrite Hreq, list_lookup_fmap, Hr).
  rewrite list_lookup_fmap in Hx. destruct (xs !! k) as [x|] eqn:Hxk; [|done]. injection Hx as Hxr.
  pose proof (lookup_lt_Some _ _ _ Hxk) as Hk. destruct Hbound as [Hlr Hb].
  destruct (lookup_lt_is_Some_2 reqs k) as [b Hbk]; [lia|]. destruct (lookup_lt_is_Some_2 idx k) as [i Hi]; [lia|].
  destruct (Forall2_lookup_l _ _ _ k (x_row x) (ex_grown _ _ _ _ _ _ Hex)) as (e & He & Hg); [by rewrite list_lookup_fmap, Hxk|].
  destruct (Hb k i x b Hi Hxk Hbk) as (B1 & B2 & B3 & B4 & B5). rewrite Hxr in B4, B5.
  destruct (proj1 Hwrite k i e Hi He) as [rest Hrow]. exists x, b, i, e, rest. constructor; try done.
  unfold ghosts. rewrite lookup_zip_with, !lookup_zip_with, Hr, Hbk, Hi, He. done.
Qed.

Lemma ghost_seat k g : ghosts p' new reqs idx ers !! k = Some g →
  ∃ r x b i e rest, new !! k = Some r ∧ seat k r x b i e rest ∧ g = ghost p' (r, b) (i, e).
Proof.
  intros Hg. pose proof Hg as Hz. unfold ghosts in Hz. apply lookup_zip_with_Some in Hz as ([r b'] & ie & _ & Hrb & _).
  apply lookup_zip_with_Some in Hrb as (r' & b2 & [= -> ->] & Hr & _).
  destruct (seat_at k r' Hr) as (x & b & i & e & rest & Hs). exists r', x, b, i, e, rest. split_and!; [done|done|].
  pose proof (st_ghost _ _ _ _ _ _ _ Hs) as Hg'. congruence.
Qed.

(** What a request of the batch has, read off its records. *)
Record settled (r : SReq) (x : xreq) (e : ereq) (g : greq) : Prop := {
  se_req : x_req x = base r;
  se_base : base (g_req g) = set_kv (base r) (g_kv g);
  se_idx : req_pool_idx (g_kv g) = Some (g_idx g);
  se_row : g_row g = e_row e;
  se_len : g_len g = x_seq x;
  se_committed : kv_committed_len (g_kv g) = x_seq x;
  se_cpl : cache_protected_len (g_kv g) = zlen (x_prefix x);
  se_cpl_r : cache_protected_len (g_kv g) = prefix_len r;
  se_pages : g_pages g = e_pages e;
  se_node : g_node g = default 0%nat (last_node (base r));
  se_swa : swa_evicted_seqlen (g_kv g) = 0;
  se_full : req_to_token p' !! Z.to_nat (g_idx g) = Some (g_full g) ∧ g_len g ≤ zlen (g_full g);
  se_lt : zlen (x_prefix x) < x_seq x;
  se_range : extend_range (base r) = Some (zlen (x_prefix x), x_seq x);
  se_grown : grown ps (x_row x) e;
  se_aligned : aligned_x ps x;
  se_ok : extend_ok ps p x;
  se_tenant : tenant c A r;
}.

Lemma seat_settled k r x b i e rest :
  new !! k = Some r → seat k r x b i e rest → settled r x e (ghost p' (r, b) (i, e)).
Proof.
  intros Hr [Hx Hxr Hb Hi He Hg (B1 & B2 & B3 & B4 & B5 & B6) Hrow _].
  pose proof (Forall_lookup_1 _ _ _ _ (le_tenants _ _ _ _ _ _ _ Hl) Hr) as Ht.
  pose proof (Forall_lookup_1 _ _ _ _ Hok Hx) as Hxo. pose proof (Forall_lookup_1 _ _ _ _ Hal Hx) as Hxa.
  destruct (Forall_lookup_1 _ _ _ _ Hlt Hr) as (e' & He' & Hlt').
  pose proof (xo_range _ _ _ Hxo) as Hrg. rewrite Hxr in Hrg. rewrite Hrg in He'. injection He' as Hpl <-.
  destruct Hg as (Hg1 & Hg2 & Hg3 & Hg4 & Hg5). cbn [x_row e_seq] in Hg3.
  assert (g_full (ghost p' (r, b) (i, e)) = e_row e ++ rest) as Hfull.
  { unfold ghost. cbn. by rewrite (list_lookup_total_correct _ _ _ Hrow). }
  assert (g_len (ghost p' (r, b) (i, e)) = x_seq x) as Hlen by exact B2.
  constructor; try done.
  - unfold g_row. rewrite Hfull, Hlen, <-Hg3, slice_to_take by apply zlen_nonneg. unfold zlen. by rewrite Nat2Z.id, take_app_length.
  - change (cache_protected_len (kv b) = zlen (x_prefix x)). rewrite B5, (tn_cpl _ _ _ Ht). unfold prefix_len. by rewrite Hpl.
  - change (cache_protected_len (kv b) = prefix_len r). by rewrite B5, (tn_cpl _ _ _ Ht).
  - change (swa_evicted_seqlen (kv b) = 0). by rewrite B6, (tn_swa _ _ _ Ht).
  - rewrite Hfull, Hlen. split; [exact Hrow|]. rewrite zlen_app, Hg3. pose proof (zlen_nonneg rest). lia.
  - rewrite Hpl. done.
Qed.

Lemma ghost_settled g : g ∈ ghosts p' new reqs idx ers → ∃ r x e, r ∈ new ∧ settled r x e g.
Proof.
  intros [k Hk]%list_elem_of_lookup. destruct (ghost_seat k g Hk) as (r & x & b & i & e & rest & Hr & Hs & ->).
  exists r, x, e. split; [by eapply list_elem_of_lookup_2|]. by eapply seat_settled.
Qed.

(** The nodes the batch and the running requests refer to are not evicted. *)
Lemma node_kept i a : A !! i = Some a → i = root_node c ∨ 1 ≤ holders gs i + tenants_at new i → A' !! i = Some a.
Proof.
  intros Ha Hi. apply (ex_locked _ _ _ _ _ _ Hex i a Ha). destruct (decide (i = root_node c)) as [|Hne]; [by left|right].
  destruct Hi as [|Hi]; [done|]. apply (held_locked c A i); [apply Hl|done..|].
  pose proof (le_held _ _ _ _ _ _ _ Hl i a Ha Hne). lia.
Qed.

Lemma tenant_counted r i : r ∈ new → last_node (base r) = Some i → 1 ≤ holders gs i + tenants_at new i.
Proof.
  intros Hr Hi. assert (r ∈ filter (λ r, last_node (base r) = Some i) new) as Hin by (by apply list_elem_of_filter).
  unfold tenants_at, holders. pose proof (zlen_nonneg (filter (λ g, g_node g = i) gs)).
  destruct (filter (λ r, _ = Some i) new) as [|y l]; [by apply not_elem_of_nil in Hin|].
  rewrite zlen_cons. pose proof (zlen_nonneg l). lia.
Qed.

Lemma settled_runs r x e g : r ∈ new → settled r x e g → runs c' A' p' g.
Proof.
  intros Hr [S0 S1 S2 S3 S4 S5 S6 S7 S8 S9 S10 [S11 S12] S13 S14 (G1 & G2 & G3 & [m G4] & [k G5]) S16 S17 S18].
  destruct (settings_fields c c' (ex_settings _ _ _ _ _ _ Hex)) as (_ & Eps & Ee & Er & _).
  pose proof (inv_ps c A (le_inv _ _ _ _ _ _ _ Hl)) as Hps. pose proof (zlen_nonneg (x_prefix x)) as Hpos.
  destruct S18 as [(i & a & Hi & Ha & Hns & Hs & Hp) T2 T3 T4 T5 T6].
  assert (g_node g = i) as Egn by (by rewrite S9, Hi).
  assert (A' !! i = Some a) as Ha' by (apply node_kept; [done|right; by apply (tenant_counted r)]).
  assert (x_prefix x = prefix_indices (base r)) as Exp.
  { unfold x_prefix. by rewrite S0. }
  assert (g_ids g = full_untruncated_fill_ids (base r)) as Hids by (unfold g_ids; rewrite S1; by rewrite T2).
  assert (x_seq x ≤ zlen (g_ids g)) as Hseq.
  { rewrite Hids, <-S0. apply (xo_ids _ _ _ S17). }
  constructor; rewrite ?Eps, ?S8; try done.
  - rewrite S1. cbn. by rewrite Hi, Egn.
  - split; [lia|done].
  - lia.
  - lia.
  - lia.
  - rewrite S3. apply G1.
  - change (e_seq (x_row x)) with (x_seq x) in G3. rewrite S4, <-G3. apply G1.
  - rewrite Egn, Er. exists a. split; [|by rewrite S3, S6, Hs, <-Exp, G4; unfold zlen; rewrite Nat2Z.id; cbn [x_row e_row]; rewrite take_app_length].
    assert (req_ns (base (g_req g)) = req_ns (base r)) as -> by (by rewrite S1).
    assert (g_toks g = take (Z.to_nat (x_seq x)) (full_untruncated_fill_ids (base r))) as Htoks.
    { unfold g_toks. rewrite Hids. unfold effective_kv_committed_len. rewrite S1. cbn [reasoning_tokens set_kv].
      rewrite T6. cbn [kv set_kv]. rewrite S5, slice_to_take by lia. done. }
    assert (zlen (x_prefix x) ≤ zlen (req_units c' (base (g_req g)) (g_toks g))) as Hroom.
    { apply (req_units_room c' A'); [apply Hex| |]; rewrite ?Eps.
      - rewrite S16, zlen_page_slots by done. by exists (zlen (x_pages x)).
      - rewrite Htoks. unfold zlen. rewrite length_take. rewrite Hids in Hseq. unfold zlen in *. lia. }
    rewrite S6. split; [done|]. split; [done|]. split; [lia|].
    rewrite (take_req_units c' A'), Hp, Htoks, Ee, Exp; [|apply Hex|rewrite Z2Nat.id by done; exact Hroom].
    rewrite take_kunits; [|rewrite Exp in S13; unfold zlen in *; lia]. unfold zlen. by rewrite Nat2Z.id.
Qed.

(** A list with one entry for every request of the batch. *)
Lemma ghosts_fmap {B} (f : greq → B) (l : list B) :
  length l = length new →
  (∀ k r x b i e rest g, new !! k = Some r → seat k r x b i e rest → settled r x e g → g = ghost p' (r, b) (i, e) →
     l !! k = Some (f g)) →
  f <$> ghosts p' new reqs idx ers = l.
Proof.
  intros Hlen Hf. apply list_eq. intros k. rewrite list_lookup_fmap. destruct (new !! k) as [r|] eqn:Hr.
  - destruct (seat_at k r Hr) as (x & b & i & e & rest & Hs). rewrite (st_ghost _ _ _ _ _ _ _ Hs). symmetry.
    by eapply Hf; [| |eapply seat_settled|].
  - apply lookup_ge_None in Hr. rewrite (proj2 (lookup_ge_None l k)) by lia.
    destruct (ghosts p' new reqs idx ers !! k) as [g|] eqn:Hg; [|done].
    destruct (ghost_seat k g Hg) as (r & x & b & i & e & rest & Hr' & _). apply lookup_lt_Some in Hr'. lia.
Qed.

Lemma new_lengths : length xs = length new ∧ length reqs = length new ∧ length idx = length new ∧ length ers = length new.
Proof.
  apply (f_equal length) in Hreq as Hlen. rewrite !length_fmap in Hlen. pose proof (proj1 Hbound).
  pose proof (Forall2_length _ _ _ (ex_grown _ _ _ _ _ _ Hex)) as Hle. rewrite length_fmap in Hle. lia.
Qed.

Lemma ghosts_idx : g_idx <$> ghosts p' new reqs idx ers = idx.
Proof. apply ghosts_fmap; [apply new_lengths|]. intros k r x b i e rest g _ Hs _ ->. apply Hs. Qed.

Lemma ghosts_reqs : g_req <$> ghosts p' new reqs idx ers = zip_with with_base new reqs.
Proof.
  destruct new_lengths as (_ & Hlr & _). apply ghosts_fmap; [rewrite length_zip_with; lia|].
  intros k r x b i e rest g Hr Hs _ ->. by rewrite lookup_zip_with, Hr, (st_reqs _ _ _ _ _ _ _ Hs).
Qed.

Lemma ghosts_held i : holders (ghosts p' new reqs idx ers) i = tenants_at new i.
Proof.
  apply holders_tenants, ghosts_fmap; [by rewrite length_fmap|]. intros k r x b j e rest g Hr Hs Hse _.
  rewrite list_lookup_fmap, Hr, (se_node _ _ _ _ Hse). destruct (tn_node _ _ _ (se_tenant _ _ _ _ Hse)) as (j' & a & Hj & _).
  cbn. by rewrite Hj.
Qed.

Lemma ghosts_gained : concat (fresh_row <$> ghosts p' new reqs idx ers) = gained (x_row <$> xs) ers.
Proof.
  destruct new_lengths as (Hlx & _ & _ & Hle). unfold gained. f_equal.
  apply ghosts_fmap; [rewrite length_zip_with, length_fmap; lia|]. intros k r x b i e rest g Hr Hs Hse _.
  rewrite lookup_zip_with, list_lookup_fmap, (st_x _ _ _ _ _ _ _ Hs), (st_ers _ _ _ _ _ _ _ Hs). cbn [fmap option_fmap option_map mbind option_bind].
  unfold fresh_row. rewrite (se_cpl _ _ _ _ Hse), (se_row _ _ _ _ Hse). unfold zlen. by rewrite Nat2Z.id.
Qed.

Lemma ghosts_private :
  concat (g_private c' <$> ghosts p' new reqs idx ers) =
  Paged.page_slots ps (concat (zip_with (fresh_pages ps) (x_row <$> xs) ers)).
Proof.
  destruct new_lengths as (Hlx & _ & _ & Hle). rewrite page_slots_concat. f_equal.
  apply ghosts_fmap; [rewrite length_fmap, length_zip_with, length_fmap; lia|]. intros k r x b i e rest g Hr Hs Hse _.
  rewrite list_lookup_fmap, lookup_zip_with, list_lookup_fmap, (st_x _ _ _ _ _ _ _ Hs), (st_ers _ _ _ _ _ _ _ Hs).
  cbn [fmap option_fmap option_map mbind option_bind]. f_equal.
  destruct (settings_fields c c' (ex_settings _ _ _ _ _ _ Hex)) as (_ & Eps & _).
  destruct (se_grown _ _ _ _ Hse) as ((_ & Hp & _) & _ & Hz & _). pose proof (se_lt _ _ _ _ Hse).
  unfold g_private, private, fresh_pages, touched. rewrite (se_cpl _ _ _ _ Hse), (se_row _ _ _ _ Hse), (se_pages _ _ _ _ Hse), Eps.
  cbn [x_row e_row e_seq] in *. rewrite (proj2 (Z.ltb_lt _ _)) by lia. fold ps. f_equal. symmetry. apply take_ge.
  rewrite length_drop. unfold npages in Hp. unfold zlen in Hp |- *. lia.
Qed.

(** The running requests keep their rows and nodes. *)
Lemma running_kept : Forall (runs c' A' p') gs.
Proof.
  pose proof (pool_ok_nodup _ _ Hpool) as Hnd. apply NoDup_app in Hnd as (_ & _ & Hnd). apply NoDup_app in Hnd as (_ & Hdis & _).
  apply Forall_forall. intros g Hg. pose proof (proj1 (Forall_forall _ _) (le_runs _ _ _ _ _ _ _ Hl) g Hg) as Hr.
  assert (g_idx g ∈ g_idx <$> gs) as Hgi by (by apply list_elem_of_fmap_2).
  assert (0 ≤ g_idx g) as Hpos.
  { assert (g_idx g ∈ zrange 1 (alloc_size p')) as Hin%elem_of_zrange; [|lia].
    rewrite <-(po_rows _ _ Hpool). apply elem_of_app. right. apply elem_of_app. by right. }
  eapply runs_moved; [apply Hex| | |exact Hr].
  - apply (proj1 (proj2 Hwrite)). rewrite Z2Nat.id by done. intros Hin. by apply (Hdis (g_idx g)).
  - intros a Ha. exists a. split; [|done]. apply node_kept; [done|right]. pose proof (holders_elem g gs Hg).
    unfold tenants_at. pose proof (zlen_nonneg (filter (λ r, last_node (base r) = Some (g_node g)) new)). lia.
Qed.

(** The batch joins the running requests. *)
Lemma ghosts_batch : batch_inv c0 A0 p gs → batch_inv c' A' p' (gs ++ ghosts p' new reqs idx ers).
Proof.
  intros [_ _ _ _ Hnd Hsm Htot _ _]. pose proof (inv_ps c A (le_inv _ _ _ _ _ _ _ Hl)) as Hps.
  assert (settings c' = settings c0) as Hset.
  { rewrite (ex_settings _ _ _ _ _ _ Hex). apply config_settings, Hl. }
  destruct (config_fields c0 c (le_cfg _ _ _ _ _ _ _ Hl)) as (_ & Eps & _ & _ & _ & Ea).
  destruct (settings_fields c c' (ex_settings _ _ _ _ _ _ Hex)) as (Ed & _ & _ & Er & _).
  assert (all_slots c' A' (gs ++ ghosts p' new reqs idx ers) ≡ₚ all_slots c0 A0 gs) as HP.
  { unfold all_slots. rewrite fmap_app, concat_app, ghosts_private, (all_privates c0 c' gs Hset), <-app_assoc.
    unfold ps. rewrite (extended_fresh c c' A A' xs ers Hps Hal Hex), (le_slots _ _ _ _ _ _ _ Hl).
    unfold pool_slots. by rewrite Eps, Ea. }
  constructor; rewrite ?HP; try done; try apply Hex.
  - rewrite Ed. apply Hl.
  - apply Forall_app. split; [apply running_kept|]. apply Forall_forall. intros g Hg.
    destruct (ghost_settled g Hg) as (r & x & e & Hr & Hs). by eapply settled_runs.
  - rewrite fmap_app, ghosts_idx. by rewrite (Permutation_app_comm (g_idx <$> gs)).
  - intros i a Hi Hr. rewrite Er in Hr. pose proof (le_held _ _ _ _ _ _ _ Hl i a (ex_subset _ _ _ _ _ _ Hex i a Hi) Hr).
    unfold holders at 1. rewrite filter_app, zlen_app. fold (holders gs i) (holders (ghosts p' new reqs idx ers) i).
    by rewrite ghosts_held.
Qed.

(** Each of them covers the range it was admitted for. *)
Lemma ghosts_prefilled :
  Forall (λ g, prefilled g ∧ full_untruncated_fill_ids (base (g_req g)) = g_ids g) (ghosts p' new reqs idx ers).
Proof.
  apply Forall_forall. intros g Hg. destruct (ghost_settled g Hg) as (r & x & e & _ & Hs).
  assert (full_untruncated_fill_ids (base (g_req g)) = g_ids g) as Hids.
  { unfold g_ids. rewrite (se_base _ _ _ _ Hs). apply (tn_ids _ _ _ (se_tenant _ _ _ _ Hs)). }
  split; [|done]. constructor.
  - rewrite (se_base _ _ _ _ Hs), (se_cpl _ _ _ _ Hs), (se_len _ _ _ _ Hs). apply Hs.
  - by rewrite Hids.
  - rewrite (se_len _ _ _ _ Hs), (se_base _ _ _ _ Hs). cbn. rewrite <-(se_req _ _ _ _ Hs). apply (xo_ids _ _ _ (se_ok _ _ _ _ Hs)).
  - by rewrite (se_committed _ _ _ _ Hs), (se_len _ _ _ _ Hs).
  - rewrite (se_base _ _ _ _ Hs). apply (tn_strip _ _ _ (se_tenant _ _ _ _ Hs)).
Qed.

(** A request admitted as a whole. *)
Lemma ghosts_whole :
  Forall (λ r, extend_range (base r) = Some (prefix_len r, fill_len r)) new →
  Forall (λ g, g_len g = zlen (g_ids g)) (ghosts p' new reqs idx ers).
Proof.
  intros Hw. apply Forall_forall. intros g Hg. destruct (ghost_settled g Hg) as (r & x & e & Hr & Hs).
  pose proof (proj1 (Forall_forall _ _) Hw r Hr) as He. cbn in He. rewrite (se_range _ _ _ _ Hs) in He. injection He as _ He.
  rewrite (se_len _ _ _ _ Hs), He. unfold fill_len, g_ids. rewrite (se_base _ _ _ _ Hs).
  by rewrite (tn_ids _ _ _ (se_tenant _ _ _ _ Hs)).
Qed.
End batch.

(** What admission grants is not empty. *)
Lemma granted_ranges `{RetractSettings} c A picked new :
  Forall2 granted picked new → Forall (tenant c A) new →
  Forall (λ r, ∃ e, extend_range (base r) = Some (prefix_len r, e) ∧ prefix_len r < e) new.
Proof.
  induction 1 as [|r r' l l' (e & Hb & He) _ IH]; intros Ht; [done|]. apply Forall_cons in Ht as [Ht Hts].
  constructor; [|by apply IH]. exists e. pose proof (tn_len _ _ _ Ht) as Hlen. unfold prefix_len, fill_len in *.
  rewrite Hb in Hlen |- *. cbn in *. split; [done|]. lia.
Qed.
