(* ===== verification/LoopAlloc.v ===== *)
(** * A prefill pass gets the memory it admits

    The pass of the file [PrefillLoop] without preemption, chunked request and
    delayer: it returns, and the batch it makes is allocated.  What the loop over the
    queue books with the adder is what the allocation asks for, with the prefix match
    of every request between the two. *)

From S2P Require Import Prelude PyFloat PySort PrefillDelayer Allocator AllocKernels RadixKey PrefixTree TreeNode ReqPool Events.
From S2P Require Import RadixCache RadixInv RadixWalk RadixLock RadixEvict RadixTheorems ReqCache ReqOwnership.
From S2P Require Import PrefillAdder PrefillAdmit RadixPools PrefillTheorems SchedulePolicy PolicyTheorems.
From S2P Require Import Allocation AllocWrites BatchAlloc RunningBatch DecodeTheorems ExtendAlloc ExtendTheorems PrefillLoop LoopConserve LoopTheorems LoopOwn LoopBatch.
Import PrefillAdder.

(** ** The loop *)

(** Admission leaves a request in the queue what it was. *)
Lemma waiting_admitted `{RetractSettings} p q (r : SReq) :
  waiting_ok p q → kept_of r = kept_of (sreq q) →
  (r = sreq q ∨ ∃ e, base r = set_extend_range (prefix_len (sreq q)) e (base (sreq q))) → waiting_ok p (with_sreq q r).
Proof.
  intros [W1 W2 W3 W4 W5 W6 W7] Hk Hb. injection Hk as _ Hm _.
  assert (base r = base (sreq q) ∨ ∃ e, base r = set_extend_range (prefix_len (sreq q)) e (base (sreq q))) as [Eb|[e Eb]]
    by (destruct Hb as [->|]; auto); constructor; unfold prefix_ids, fill_current in *; cbn [with_sreq sreq]; rewrite ?Hm, ?Eb; done.
Qed.

Lemma core_admitted q (r : SReq) :
  kept_of r = kept_of (sreq q) →
  (r = sreq q ∨ ∃ e, base r = set_extend_range (prefix_len (sreq q)) e (base (sreq q))) → core (with_sreq q r) = core q.
Proof.
  intros [= Ho Hm Hf] Hb. unfold core, ident, qobj. cbn [with_sreq sreq rid]. rewrite Ho, Hm, Hf.
  by destruct Hb as [->|[e ->]].
Qed.

(** The request is to be filled to its end. *)
Definition whole (r : SReq) : Prop := extend_range (base r) = Some (prefix_len r, fill_len r).

Section loop.
Context `{Settings} `{RetractSettings} `{Clock} `{SetOrder} `{HashLaws} `{KVAllocator} `{KVFree} `{PolicySettings} `{Census}.
Context `{BatchAllocator} `{!BatchLaws}.
Implicit Types (a : PrefillAdder (RadixCache * ReqToTokenPool)) (q : QReq).

(** The memory at the start of the pass. *)
Context (c0 : RadixCache) (A0 : atree) (p0 : ReqToTokenPool) (gs : list greq) (cf : SchedConfig) (bs : Z).
Let laws : PoolLaws (RadixCache * ReqToTokenPool) := radix_laws_with _ (same_slots_stable c0 p0 A0).
#[local] Existing Instance laws.

(** The adder during the loop: what it booked is there, every request it admitted
    fits the memory and holds its prefix, and there is a row for each of them. *)
Record admitting a : Prop := {
  ad_covered : covered 0 a;
  ad_page : page_size (cfg a) = cpage_size c0;
  ad_delayer : delayer a = None;
  ad_bs : running_bs a = bs;
  ad_reqs : ∃ picked, Forall (fitted (cpage_size c0) (tree_slots A0) p0) picked ∧ Forall2 granted picked (can_run_list a);
  ad_rows : zlen (can_run_list a) ≤ Z.max 0 (num_allocatable_reqs cf bs p0);
  ad_leased : ∃ A, leased c0 A0 p0 gs (pools a).1 A (can_run_list a);
  ad_whole : rem_chunk_tokens (budget a) = None → new_chunked_req a = None ∧ Forall whole (can_run_list a);
}.

Lemma admitting_row a : admitting a → (pools a).2 = p0.
Proof. intros [[(_ & A & _ & (_ & Hp & _)) _ _ _ _ _] _ _ _ _ _ _ _]. done. Qed.

(** A match between two admissions. *)
Lemma covered_match a c' A A' :
  leased c0 A0 p0 gs (pools a).1 A (can_run_list a) → leased c0 A0 p0 gs c' A' (can_run_list a) →
  stable c' = stable (pools a).1 → covered 0 a → covered 0 (with_pools a (c', (pools a).2)).
Proof.
  intros Hl [I1 I2 I3 I4 I5 _ _ _] Hst [(_ & B & _ & (_ & Hp & _)) Cp Cd Cm Co Ca].
  destruct (stable_config _ _ Hst) as (Hcfg' & _ & _ & _ & _ & Hev & _).
  destruct (config_fields _ _ Hcfg') as (_ & _ & _ & _ & _ & Ea).
  constructor; try done.
  - split; [done|]. exists A'. by split_and!.
  - destruct Ca as [|Ca]; [by left|right]. unfold available_and_evictable, evictable_size in *. cbn in *.
    unfold evictable_size in *. rewrite Ea, Hev. exact Ca.
Qed.

(** One request of the queue. *)
Lemma admit_step a q :
  0 ≤ CLIP_MAX_NEW_TOKENS → from_option (Z.lt 0) True (truncation_align_size cf) →
  admitting a → waiting_ok p0 q → zlen (can_run_list a) < num_allocatable_reqs cf bs p0 →
  ∃ q' c' x r a', init_next_round_input q (pools a).1 = Ok (q', c') ∧
    add_one_req (sreq q') (truncation_align_size cf) (with_pools a (c', (pools a).2)) = Ok (x, r, a') ∧ admitting a' ∧
    waiting_ok p0 (with_sreq q' r) ∧ core (with_sreq q' r) = core q ∧
    (rem_chunk_tokens (budget a) = None ↔ rem_chunk_tokens (budget a') = None).
Proof.
  intros Hclip Hal Had Hq Hlt. pose proof (admitting_row a Had) as Ep.
  destruct Had as [Hcov0 Epg Edl Ebs (picked & Hfit & Hgr) Erw (A & Hl) Hwh]. pose proof Hl as [HA Hd Hcfg Hkv Hs _ _ _].
  destruct (init_next_round_spec (pools a).1 A p0 q HA Hd Hkv Hq)
    as (q' & c' & A' & Hrun & HA' & Hst & Hsame & Hkv' & Hqd & Htn & Hw' & Hc').
  assert (leased c0 A0 p0 gs c' A' (can_run_list a)) as Hl' by (by apply (leased_match _ _ _ _ (pools a).1 A)).
  pose proof (covered_match a c' A A' Hl Hl' Hst Hcov0) as Hcov.
  set (a1 := with_pools a _) in *. rewrite <-Ep in Hqd.
  assert (req_fine (pools a1) (sreq q')) as Hf by (by apply queued_fine with A').
  destruct (add_one_req_total (sreq q') (truncation_align_size cf) a1) as (x & r & a2 & Hadd & Hd2);
    [apply Hcov|apply Hcov|done|done|].
  destruct (add_one_req_covered _ _ _ _ _ _ _ Hclip Hal Hcov Hf Hadd) as (Hcov2 & Hcfg2 & _).
  pose proof (add_one_req_grants _ _ _ _ _ _ (cov_page _ _ Hcov) (cov_dllm _ _ Hcov) Hal Hf Hadd) as Hg.
  destruct (add_one_req_consider _ _ _ _ _ _ Hadd) as (adm & [_ Hoth _ _] & _).
  destruct (add_one_req_whole _ _ _ _ _ _ (cov_page _ _ Hcov) (cov_dllm _ _ Hcov) Hal Hf Hadd) as (Hk & Hb & Hwhole & Hnone).
  exists q', c', x, r, a2. split; [done|]. split; [done|]. split; [|split; [by apply (waiting_admitted p0 q')|split; [|done]]].
  2:{ rewrite <-Hc'. by apply core_admitted. }
  constructor; try done.
  - by rewrite Hcfg2.
  - unfold running_bs in *. unfold others in Hoth. injection Hoth as -> _. done.
  - destruct Hg as [[_ ->]|[-> Hg]]; [by exists picked|]. exists (picked ++ [sreq q']).
    split; [|by apply Forall2_app; [|constructor]]. apply Forall_app. split; [done|]. apply Forall_singleton.
    replace (cpage_size c0) with (cpage_size c').
    { rewrite Ep in Hqd. apply (queued_fitted c' A'); [done|]. apply Hl'. }
    apply (config_fields _ _ (le_cfg _ _ _ _ _ _ _ Hl')).
  - change (can_run_list a1) with (can_run_list a) in *.
    destruct Hg as [[_ ->]|[-> _]]; [done|]. rewrite zlen_app, zlen_cons, zlen_nil. lia.
  - apply (admission_leases c0 A0 p0 gs (sreq q') (truncation_align_size cf) a1 a2 x r A'); try done; try apply Hcov; apply Hf.
  - intros Hc2. assert (rem_chunk_tokens (budget a1) = None) as Hc1 by (by apply Hnone). destruct (Hwh Hc1) as [N1 N2].
    destruct (Hwhole Hc1) as (_ & -> & [->|[-> Hbw]]); [done|]. split; [done|]. apply Forall_app. split; [done|].
    apply Forall_singleton. unfold whole, prefix_len, fill_len. by rewrite Hbw.
Qed.

Local Ltac done_loop := do 3 eexists; split; [done|]; split; [done|]; split; done.

Lemma admit_loop_total queue a full :
  0 ≤ CLIP_MAX_NEW_TOKENS → from_option (Z.lt 0) True (truncation_align_size cf) →
  enable_priority_preemption cf = false → admitting a → Forall (waiting_ok p0) queue →
  ∃ queue' a' full', admit_loop cf queue a full = Ok (queue', a', full') ∧ admitting a' ∧
    Forall (waiting_ok p0) queue' ∧ core <$> queue' = core <$> queue ∧
    (rem_chunk_tokens (budget a) = None ↔ rem_chunk_tokens (budget a') = None).
Proof.
  intros Hclip Hal Hoff. revert a full. induction queue as [|q rest IH]; intros a full Had Hq; cbn [admit_loop]; [done_loop|].
  pose proof Hq as Hall. apply Forall_cons in Hq as [Hq Hrest]. destruct (chunk_budget_exhausted a); [done_loop|].
  rewrite (ad_bs a Had), (admitting_row a Had). unfold make_room. rewrite Hoff. cbn [negb].
  destruct (Z.leb_spec (num_allocatable_reqs cf bs p0) (zlen (can_run_list a))) as [|Hlt]; [cbn; done_loop|].
  destruct full; [cbn; done_loop|]. cbn [mbind res_bind negb].
  destruct (admit_step a q Hclip Hal Had Hq Hlt) as (q' & c' & x & r & a' & -> & Hadd & Had' & Hw' & Hc' & Hn'). cbn [mbind res_bind].
  rewrite Hadd. cbn [mbind res_bind].
  destruct (decide (x = CONTINUE)).
  - destruct (IH a' false Had' Hrest) as (queue' & a2 & full' & -> & Had2 & Hw2 & Hc2 & Hn2). cbn [mbind res_bind].
    do 3 eexists. split; [done|]. split; [done|]. split; [by constructor|]. rewrite !fmap_cons, Hc', Hc2. split; [done|].
    by rewrite Hn'.
  - do 3 eexists. split; [done|]. split; [done|]. split; [by constructor|]. by rewrite !fmap_cons, Hc'.
Qed.
End loop.

(** ** The batch *)

Lemma filter_is_true {A} (f : A → bool) l : (∀ x, x ∈ l → f x = true) → List.filter f l = l.
Proof.
  induction l as [|x l IH]; intros Hf; [done|]. cbn. rewrite (Hf x) by by left. f_equal. apply IH.
  intros y Hy. apply Hf. by right.
Qed.

Lemma filter_is_false {A} (f : A → bool) l : (∀ x, x ∈ l → f x = false) → List.filter f l = [].
Proof.
  induction l as [|x l IH]; intros Hf; [done|]. cbn. rewrite (Hf x) by by left. apply IH.
  intros y Hy. apply Hf. by right.
Qed.

(** The admitted requests are the first of the queue. *)
Lemma filter_admitted (queue : list QReq) n :
  NoDup (qobj <$> queue) → let can := sreq <$> take n queue in
  List.filter (is_in can) queue = take n queue ∧ List.filter (λ q, negb (is_in can q)) queue = drop n queue.
Proof.
  intros Hnd can.
  assert (∀ q, q ∈ take n queue → is_in can q = true) as Hin.
  { intros q Hq. apply is_in_spec. unfold can. rewrite <-list_fmap_compose. by apply (list_elem_of_fmap_2 qobj). }
  assert (∀ q, q ∈ drop n queue → is_in can q = false) as Hout.
  { intros q Hq. apply not_true_iff_false. rewrite is_in_spec. unfold can. rewrite <-list_fmap_compose.
    rewrite <-(take_drop n queue), fmap_app in Hnd. apply NoDup_app in Hnd as (_ & Hdis & _).
    intros Hq2. apply (Hdis (qobj q)); [exact Hq2|]. by apply list_elem_of_fmap_2. }
  assert (∀ f, List.filter f queue = List.filter f (take n queue) ++ List.filter f (drop n queue)) as Hsp.
  { intros f. by rewrite <-List.filter_app, take_drop. }
  rewrite !Hsp. split.
  - by rewrite (filter_is_true _ (take n queue)), (filter_is_false _ (drop n queue)), app_nil_r.
  - rewrite (filter_is_false _ (take n queue)), (filter_is_true _ (drop n queue)); [done|..].
    + intros q Hq. by rewrite Hout.
    + intros q Hq. by rewrite Hin.
Qed.

(** The objects of the batch, with what the allocation wrote to them. *)
Lemma refresh_lookup (l : list QReq) (bs : list Req) k q b :
  NoDup (qobj <$> l) → l !! k = Some q → bs !! k = Some b →
  refresh (zip_with with_base (sreq <$> l) bs) q = with_sreq q (with_base (sreq q) b).
Proof.
  intros Hnd. revert bs k. unfold refresh. induction l as [|x l IH]; intros bs k Hq Hb; [done|].
  rewrite fmap_cons in Hnd. apply NoDup_cons in Hnd as [Hx Hnd].
  destruct bs as [|y bs]; [done|]. cbn [fmap list_fmap zip_with List.find]. destruct k as [|k]; cbn in Hq, Hb.
  - injection Hq as ->. injection Hb as ->. unfold qobj. cbn. by rewrite Nat.eqb_refl.
  - destruct (Nat.eqb_spec (obj (with_base (sreq x) y)) (qobj q)) as [He|]; [|by apply (IH Hnd bs k)].
    destruct Hx. change (qobj x) with (obj (with_base (sreq x) y)). rewrite He.
    apply list_elem_of_fmap_2. by eapply list_elem_of_lookup_2.
Qed.

Lemma refresh_all (l : list QReq) (bs : list Req) :
  NoDup (qobj <$> l) → length bs = length l →
  sreq <$> (refresh (zip_with with_base (sreq <$> l) bs) <$> l) = zip_with with_base (sreq <$> l) bs.
Proof.
  intros Hnd Hlen. apply list_eq. intros k. rewrite lookup_zip_with, !list_lookup_fmap.
  destruct (l !! k) as [q|] eqn:Hq; [|done]. destruct (lookup_lt_is_Some_2 bs k) as [b Hb].
  { apply lookup_lt_Some in Hq. lia. }
  cbn [fmap option_fmap option_map mbind option_bind]. by rewrite (refresh_lookup l bs k q b), Hb.
Qed.

Definition out_locs (b : option NewBatch) : list Z := match b with Some b => nb_out_cache_loc b | None => [] end.

(** The memory after the pass: the requests of the batch own their rows, pages and
    nodes beside the requests [gs], and the slots of the batch are what their rows got;
    without chunked prefill the rows hold all the tokens of the requests. *)
Definition joined `{RetractSettings} `{SetOrder} `{KVAllocator} `{Census} (chunk : option Z) (gs : list greq) (b : option NewBatch)
    (pools : RadixCache * ReqToTokenPool) : Prop :=
  ∃ A new, batch_inv pools.1 A pools.2 (gs ++ new) ∧ g_req <$> new = sreq <$> batch_reqs b ∧
    out_locs b = concat (fresh_row <$> new) ∧
    Forall (λ g, prefilled g ∧ full_untruncated_fill_ids (base (g_req g)) = g_ids g ∧ (chunk = None → g_len g = zlen (g_ids g))) new.

Lemma joined_none `{RetractSettings} `{SetOrder} `{KVAllocator} `{Census} chunk gs c p A :
  batch_inv c A p gs → joined chunk gs None (c, p).
Proof. intros Hb. exists A, []. rewrite app_nil_r. by split_and!. Qed.

(** What a pass over the ordered queue does to the scheduler. *)
Record passed `{RetractSettings} `{SetOrder} `{HashLaws} `{KVAllocator} `{Census} (cf : SchedConfig) (gs : list greq) (queue : list QReq)
    (s : Scheduler) (b : option NewBatch) (s' : Scheduler) : Prop := {
  pa_joined : joined (s_chunked_prefill_size cf) gs b (s_pools s');
  pa_core : core <$> batch_reqs b ++ waiting_queue s' = core <$> queue;
  pa_waiting : Forall (waiting_ok (s_pools s').2) (waiting_queue s');
  pa_running : running s' = running s;
  pa_aborts : s_aborts s' = s_aborts s;
  pa_ratio : s_ratio s' = s_ratio s;
  pa_settings : settings (s_pools s').1 = settings (s_pools s).1;
  pa_shape : same_shape_table (s_pools s).2 (s_pools s').2;
  pa_tree : ∃ seen, simulates (waiting_tree s') seen;
  pa_limit : zlen (batch_reqs b) ≤ Z.max 0 (num_allocatable_reqs cf (zlen (running s)) (s_pools s).2);
  pa_chunk : s_chunked_prefill_size cf = None → chunked_req s' = None ∧ inflight_middle_chunks s' = inflight_middle_chunks s;
}.

Lemma waiting_shape `{RetractSettings} p p' q : same_shape_table p p' → waiting_ok p q → waiting_ok p' q.
Proof. intros [_ E] [? ? ? ? ? ? ?]. constructor; try done. by rewrite E. Qed.

Section finish.
Context `{Settings} `{RetractSettings} `{Clock} `{SetOrder} `{HashLaws} `{KVAllocator} `{KVFree} `{PolicySettings} `{Census}.
Context `{BatchAllocator} `{!BatchLaws} (d : Device) `{!DeviceLaws d}.
Implicit Types (a : PrefillAdder (RadixCache * ReqToTokenPool)) (q : QReq) (s : Scheduler).

(** The start of the pass. *)
Lemma leased_nil c A p gs : batch_inv c A p gs → leased c A p gs c A [].
Proof. intros [? ? ? ? _ _ _ _ Hh]. constructor; try done. intros i a Hi Hr. rewrite Z.add_0_r. by apply Hh. Qed.

(** A pass that admits nothing leaves the requests what they had. *)
Lemma leased_batch c0 A0 p gs c A l : batch_inv c0 A0 p gs → leased c0 A0 p gs c A l → batch_inv c A p gs.
Proof.
  intros [_ _ _ _ Hnd Hsm Htot Hrows _] [L1 L2 L3 L4 L5 L6 _ L8].
  destruct (config_fields c0 c L3) as (_ & Eps & _ & _ & _ & Ea).
  assert (all_slots c A gs ≡ₚ all_slots c0 A0 gs) as HP.
  { unfold all_slots. rewrite (all_privates c0 c gs (config_settings _ _ L3)), L5. unfold pool_slots. by rewrite Eps, Ea. }
  constructor; rewrite ?HP; try done. intros i a Hi Hr. specialize (L8 i a Hi Hr).
  unfold tenants_at in L8. pose proof (zlen_nonneg (filter (λ r, last_node (base r) = Some i) l)). lia.
Qed.

(** The running requests stay. *)
Lemma running_kept_all s : List.filter (is_in (default [] (Some (sreq <$> running s)))) (running s) = running s.
Proof. apply filter_is_true. intros q Hq. change (is_in (sreq <$> running s) q = true). rewrite is_in_fmap. apply bool_decide_true. by apply list_elem_of_fmap_2. Qed.

(** The allocation changes only the memory of the requests. *)
Lemma core_allocated (l : list QReq) idx xs bs :
  NoDup (qobj <$> l) → x_req <$> xs = base <$> (sreq <$> l) → bound_reqs idx xs bs → length idx = length xs →
  core <$> (refresh (zip_with with_base (sreq <$> l) bs) <$> l) = core <$> l.
Proof.
  intros Hnd Hx [Hlb Hb] Hli. apply list_eq. intros k. rewrite !list_lookup_fmap. destruct (l !! k) as [q|] eqn:Hq; [|done].
  assert ((x_req <$> xs) !! k = Some (base (sreq q))) as Hxk by (by rewrite Hx, !list_lookup_fmap, Hq).
  rewrite list_lookup_fmap in Hxk. destruct (xs !! k) as [x|] eqn:Hk; [|done]. injection Hxk as Exq.
  pose proof (lookup_lt_Some _ _ _ Hk) as Hlt. destruct (lookup_lt_is_Some_2 bs k) as [b Hbk]; [lia|].
  destruct (lookup_lt_is_Some_2 idx k) as [i Hi]; [lia|]. destruct (Hb k i x b Hi Hk Hbk) as (_ & _ & _ & Eb & _).
  cbn [fmap option_fmap option_map]. rewrite (refresh_lookup l bs k q b Hnd Hq Hbk).
  unfold core. cbn [with_sreq sreq with_base base max_new_tokens is_finished]. by rewrite Eb, Exq.
Qed.

Lemma finish_allocates c0 A0 p0 gs cf order now queue a full s n :
  batch_inv c0 A0 p0 gs → table_wf p0 → s_pools s = (c0, p0) → (∃ seen, simulates (waiting_tree s) seen) →
  (∀ l : list QReq, order l ≡ₚ l) → NoDup (qobj <$> queue) → (n ≤ length queue)%nat → Forall (waiting_ok p0) queue →
  admitting c0 A0 p0 gs cf (zlen (running s)) a → can_run_list a = sreq <$> take n queue → preempt_list a = [] →
  running_reqs a = Some (sreq <$> running s) → (s_chunked_prefill_size cf = None → rem_chunk_tokens (budget a) = None) →
  ∃ b s', finish_pass d cf order now queue None None a full s = Ok (b, delayer a, s') ∧ passed cf gs queue s b s'.
Proof.
  intros Hbatch Hwf Es Hw Hord Hnd Hn Hwait Had Hcan Hpre Hrr Hchunk. pose proof (admitting_row _ _ _ _ _ _ a Had) as Ep.
  destruct (ad_leased _ _ _ _ _ _ _ Had) as (A & Hl). pose proof Hl as [HA Hd Hcfg Hkv Hs _ _ _].
  unfold finish_pass. rewrite Hrr, running_kept_all. destruct (can_run_list a) as [|r0 l0] eqn:Hr0.
  { do 2 eexists. split; [done|]. destruct (pools a) as [ca pa]. cbn [fst snd] in *. subst pa.
    constructor; cbn [batch_reqs s_pools waiting_queue running s_aborts s_ratio waiting_tree chunked_req inflight_middle_chunks];
      rewrite ?Es; cbn [fst snd]; try done.
    - eapply joined_none, leased_batch; [exact Hbatch|exact Hl].
    - by apply config_settings.
    - rewrite zlen_nil. apply Z.le_max_l. }
  assert (can_run_list a ≠ []) as Hne by (by rewrite Hr0). rewrite <-Hr0 in Hcan, Hl |- *. clear r0 l0 Hr0. rewrite Hpre.
  destruct (filter_admitted queue n Hnd) as [Hin Hout]. rewrite <-Hcan in Hin, Hout.
  rewrite nobody_in. change (option_list (@None QReq) ++ queue) with queue.
  change (refresh [] <$> []) with (@nil QReq).
  assert (order [] = []) as -> by (by apply Permutation_nil, Permutation_sym, Hord).
  cbn [for_each mbind res_bind]. rewrite Hout, Hin.
  assert (∃ ch, new_chunked None queue a = Ok ch ∧ (s_chunked_prefill_size cf = None → ch = None)) as (ch & -> & Hch).
  { unfold new_chunked. destruct (new_chunked_req a) as [o|] eqn:Ho; [|by eauto]. eexists. split; [done|]. intros Hc.
    destruct (ad_whole _ _ _ _ _ _ _ Had (Hchunk Hc)) as [Ho' _]. congruence. }
  cbn [mbind res_bind].
  destruct (ad_reqs _ _ _ _ _ _ _ Had) as (picked & Hfit & Hgr). pose proof (bi_rows _ _ _ _ Hbatch) as Hpool.
  destruct (granted_extend d (s_use_triton cf) c0 A0 (pools a).1 A p0 (g_idx <$> gs) picked (can_run_list a))
    as (b & reqs & p' & c' & A' & xs & ers & idx & Hb & Hal & X1 & X2 & X3 & X4 & X5 & X6 & X7 & X8); try done.
  { pose proof (bi_small _ _ _ _ Hbatch) as Hsm. by apply Forall_app in Hsm as [_ ?]. }
  { pose proof (cov_mem _ _ (ad_covered _ _ _ _ _ _ _ Had)) as [?|Hmem]; [done|]. unfold booked in Hmem.
    rewrite (ad_page _ _ _ _ _ _ _ Had) in Hmem. unfold available_and_evictable in Hmem. cbn in Hmem.
    unfold evictable_size in Hmem. lia. }
  { etrans; [apply (ad_rows _ _ _ _ _ _ _ Had)|]. unfold num_allocatable_reqs, ReqToToken.available_size.
    pose proof (zlen_nonneg (free_slots p0)). lia. }
  pose proof (granted_ranges _ _ _ _ Hgr (le_tenants _ _ _ _ _ _ _ Hl)) as Hlt.
  rewrite Hb. cbn [mbind res_bind]. rewrite Ep, Hal. cbn [mbind res_bind].
  do 2 eexists. split; [done|]. pose proof (proj2 (proj2 X8)) as Hshape.
  assert (length (can_run_list a) = n) as Hln by (by rewrite Hcan, length_fmap, length_take_le).
  assert (NoDup (qobj <$> take n queue)) as Hnd'.
  { eapply sublist_NoDup; [exact Hnd|]. apply fmap_sublist, sublist_take. }
  constructor; cbn [batch_reqs nb_reqs s_pools waiting_queue running s_aborts s_ratio waiting_tree chunked_req inflight_middle_chunks fst snd];
    rewrite ?Es; cbn [fst snd]; try done.
  - exists A', (ghosts p' (can_run_list a) reqs idx ers). split_and!.
    + by eapply ghosts_batch.
    + erewrite ghosts_reqs by done. cbn [batch_reqs nb_reqs].
      rewrite Hcan, refresh_all; [done|done|]. rewrite (proj1 X5), <-(length_fmap x_req xs), X1, length_fmap, Hln, length_take_le; done.
    + erewrite ghosts_gained by done. done.
    + assert (s_chunked_prefill_size cf = None → Forall (λ g, g_len g = zlen (g_ids g)) (ghosts p' (can_run_list a) reqs idx ers)) as Hwh.
      { intros Hc. eapply ghosts_whole; try done. apply (ad_whole _ _ _ _ _ _ _ Had (Hchunk Hc)). }
      assert (Forall (λ g, prefilled g ∧ full_untruncated_fill_ids (base (g_req g)) = g_ids g)
        (ghosts p' (can_run_list a) reqs idx ers)) as Hpf by (by eapply ghosts_prefilled).
      apply Forall_forall. intros g Hg. destruct (proj1 (Forall_forall _ _) Hpf g Hg) as [? ?]. split_and!; try done.
      intros Hc. by apply (proj1 (Forall_forall _ _) (Hwh Hc)).
  - rewrite fmap_app. rewrite Hcan in X1 |- *. rewrite (core_allocated _ idx xs reqs Hnd' X1 X5 X6), <-fmap_app, take_drop. done.
  - eapply Forall_impl; [apply (Forall_drop _ n), Hwait|]. intros q. by apply waiting_shape.
  - rewrite (ex_settings _ _ _ _ _ _ X4). by apply config_settings.
  - rewrite zlen_fmap. etrans; [|apply (ad_rows _ _ _ _ _ _ _ Had)]. by rewrite Hcan, zlen_fmap.
  - intros Hc. by rewrite (Hch Hc).
Qed.

(** The loop and the end of the pass, on an ordered queue. *)
Lemma loop_allocates c A p gs cf order now queue full s page ratio rem_input threshold mbs max_running
    prefill_max e wlen block_m dsa :
  0 ≤ CLIP_MAX_NEW_TOKENS → from_option (Z.lt 0) True (truncation_align_size cf) → (0 <= ratio)%Q →
  enable_priority_preemption cf = false → page = cpage_size c →
  Forall (λ q, out_len (sreq q) ≤ max_new_tokens (sreq q)) (running s) →
  batch_inv c A p gs → table_wf p → s_pools s = (c, p) → (∃ seen, simulates (waiting_tree s) seen) →
  (∀ l : list QReq, order l ≡ₚ l) → NoDup (qobj <$> queue) → Forall (waiting_ok p) queue →
  let a := PrefillAdder_init page (c, p) (Some (sreq <$> running s)) ratio rem_input (s_chunked_prefill_size cf) 0 threshold mbs
             max_running prefill_max None e None wlen block_m dsa in
  ∃ b s', ('(queue, a, full) ← admit_loop cf queue a full; finish_pass d cf order now queue None None a full s)
      = Ok (b, None, s') ∧ passed cf gs queue s b s'.
Proof.
  intros Hclip Hal Hratio Hoff -> Hrun Hbatch Hwf Es Hw Hord Hnd Hwait a.
  pose proof Hbatch as [Hinv Hkv Hd _ _ _ _ _ _].
  assert (s_chunked_prefill_size cf = None → rem_chunk_tokens (budget a) = None) as Hchunk by (unfold a; cbn; by intros ->).
  assert (admitting c A p gs cf (zlen (running s)) a) as Had.
  { constructor; try done.
    - apply init_covered; try done; [by apply (inv_ps c A)|by apply Forall_fmap|].
      split; [done|]. exists A. by split_and!.
    - unfold running_bs. cbn. apply zlen_fmap.
    - exists []. by split.
    - apply Z.le_max_l.
    - exists A. by apply leased_nil. }
  destruct (admit_loop_total c A p gs cf (zlen (running s)) queue a full Hclip Hal Hoff Had Hwait)
    as (queue' & a' & full' & Hloop & Had' & Hwait' & Hcore & Hnone).
  destruct (admit_loop_looped cf queue a full queue' a' full' Hloop) as (n & [L1 L2 L3 _ _ L6]).
  rewrite Hloop. cbn [mbind res_bind]. rewrite <-(ad_delayer _ _ _ _ _ _ _ Had').
  assert (qobj <$> queue' ≡ₚ qobj <$> queue) as Hobj by (apply idents_objs; by rewrite L1).
  specialize (L6 Hoff). injection L6 as Hr6 Hp6.
  destruct (finish_allocates c A p gs cf order now queue' a' full' s n) as (b & s' & Hfin & [F1 F2 F3 F4 F5 F6 F7 F8 F9 F10 F11]); try done.
  - by rewrite Hobj.
  - by rewrite <-(length_fmap ident queue'), L1, length_fmap.
  - intros Hc. by apply Hnone, Hchunk.
  - exists b, s'. split; [exact Hfin|]. constructor; try done. by rewrite F2, Hcore.
Qed.

(** The whole pass. *)
Lemma pass_spec cf (shuffle order : list QReq → list QReq) now e s c A p gs seen :
  s_pools s = (c, p) →
  0 ≤ CLIP_MAX_NEW_TOKENS → from_option (Z.lt 0) True (truncation_align_size cf) → (0 <= s_ratio s)%Q →
  enable_priority_preemption cf = false → chunked_req s = None → s_page_size cf = cpage_size c →
  Forall (λ q, out_len (sreq q) ≤ max_new_tokens (sreq q)) (running s) →
  batch_inv c A p gs → table_wf p → simulates (waiting_tree s) seen →
  (∀ l, shuffle l ≡ₚ l) → (∀ l, order l ≡ₚ l) →
  NoDup (qobj <$> waiting_queue s) → Forall (waiting_ok p) (waiting_queue s) →
  ∃ b s' queue, get_new_batch_prefill_raw d cf shuffle order now None e s = Ok (b, None, s') ∧ passed cf gs queue s b s' ∧
    core <$> queue ≡ₚ core <$> waiting_queue s ∧
    (b ≠ None → ∃ queue1 c1 w1,
       calc_priority shuffle (s_policy cf) (waiting_queue s) (Some (running s)) c (waiting_tree s) = Ok (queue1, c1, w1) ∧
       core <$> queue = core <$> queue1).
Proof.
  intros Ecp Hclip Hal Hratio Hoff Hch Hpg Hrun Hbatch Hwf Hw Hsh Hord Hnd Hwait.
  unfold get_new_batch_prefill_raw. rewrite Hoff, Hch, Ecp. cbn [fst snd].
  assert (∀ full, passed cf gs (waiting_queue s) s None (with_full s full)) as Hstay.
  { intros full. constructor; cbn [with_full batch_reqs s_pools waiting_queue running s_aborts s_ratio waiting_tree chunked_req inflight_middle_chunks];
      rewrite ?Ecp; cbn [fst snd]; try done; [by eapply joined_none|by exists seen|apply Z.le_max_l]. }
  assert (passed cf gs (waiting_queue s) s None s) as Hstay' by (pose proof (Hstay (batch_is_full s)) as Hs; by destruct s).
  destruct (_ && _); [by exists None, s, (waiting_queue s)|]. destruct (_ && _); [by exists None, s, (waiting_queue s)|].
  destruct (_ && _); [by exists None, (with_full s true), (waiting_queue s)|].
  destruct (calc_priority_spec shuffle (s_policy cf) (waiting_queue s) (Some (running s)) c A _ seen
    (bi_inv _ _ _ _ Hbatch) (bi_enabled _ _ _ _ Hbatch) Hw Hsh)
    as (queue & c1 & w1 & A1 & seen' & Hcp & Hp & HA1 & Hst & Hsame & Hw1). rewrite Hcp. cbn [mbind res_bind].
  assert (batch_inv c1 A1 p gs) as Hb1.
  { apply (leased_batch c A p gs c1 A1 [] Hbatch). by apply (leased_match c A p gs c A []); [apply leased_nil|..]. }
  destruct (stable_config c c1 Hst) as (Hcfg & Eps & _). pose proof (config_settings _ _ Hcfg) as Hset.
  assert (Forall (waiting_ok p) queue) as Hwq by (by apply (waiting_perm p _ (waiting_queue s))).
  pose proof (core_plain _ _ Hp) as Hcore.
  destruct (match test_retract_no_prefill_bs cf with Some _ => _ | None => _ end).
  { exists None, (with_ordered s queue c1 w1), queue. split; [done|]. split; [|split; [done|by intros []]].
    constructor; cbn [with_ordered batch_reqs s_pools waiting_queue running s_aborts s_ratio waiting_tree chunked_req inflight_middle_chunks];
      rewrite ?Ecp; cbn [fst snd]; try done; [by eapply joined_none|by eexists|apply Z.le_max_l]. }
  cbn [with_ordered chunked_req s_pools waiting_queue]. rewrite Hch, Ecp. cbn [continue_chunked mbind res_bind snd].
  edestruct (loop_allocates c1 A1 p gs cf order now queue (batch_is_full s) (with_ordered s queue c1 w1))
    as (b & s' & Hpass & [F1 F2 F3 F4 F5 F6 F7 F8 F9 F10 F11]); last first.
  { exists b, s', queue. split; [exact Hpass|]. split; [|split; [done|by eauto]].
    cbn [with_ordered s_pools running s_aborts s_ratio inflight_middle_chunks fst snd] in *. rewrite ?Ecp in *. cbn [fst snd] in *.
    constructor; rewrite ?Ecp; try done. cbn [fst]. by rewrite F7. }
  all: try done.
  - by rewrite (idents_objs _ _ (ident_plain _ _ Hp)).
  - by eexists.
  - cbn. by rewrite Ecp.
  - congruence.
Qed.
End finish.

(** ** Properties *)

(** C7: a prefill pass gets the memory it admits.  Let the requests [gs] own their
    rows, pages and nodes, with no row and no slot lost ([batch_inv]).  Without
    preemption, chunked request and delayer, with a ratio and settings that are not
    negative, with running requests within their limit (at most [max_new_tokens]
    output tokens) and with waiting requests that have tokens, hold no memory yet and
    fit in a row, [_get_new_batch_prefill_raw] returns, whatever the policy: no
    lookup, lock, assertion or allocation of the pass can fail, so the out-of-memory
    errors of the batch allocation are unreachable.  Afterwards the requests of the
    batch own their rows, pages and nodes beside [gs], which lost nothing, and again
    no row and no slot is lost; the row of each covers exactly the range it was
    admitted for (all its tokens, when chunked prefill is off), and the new slots of
    the batch are the parts of these rows past the cached prefixes.  The batch is an
    initial part of the queue in the order [calc_priority] puts it in, the rest keeps
    waiting in that order, and the batch respects the limit of running requests. *)
Theorem prefill_pass_allocates `{Settings} `{RetractSettings} `{Clock} `{SetOrder} `{HashLaws} `{KVAllocator} `{KVFree}
    `{PolicySettings} `{Census} `{BatchAllocator} `{!BatchLaws} (d : Device) `{!DeviceLaws d} (cf : SchedConfig)
    (shuffle order : list QReq → list QReq) (now : Z) (e : Env) (s : Scheduler) (A : atree) (gs : list greq) seen :
  let '(c, p) := s_pools s in
  0 ≤ CLIP_MAX_NEW_TOKENS → from_option (Z.lt 0) True (truncation_align_size cf) → (0 <= s_ratio s)%Q →
  enable_priority_preemption cf = false → chunked_req s = None → s_page_size cf = cpage_size c →
  Forall (λ q, out_len (sreq q) ≤ max_new_tokens (sreq q)) (running s) →
  batch_inv c A p gs → table_wf p → simulates (waiting_tree s) seen →
  (∀ l, shuffle l ≡ₚ l) → (∀ l, order l ≡ₚ l) →
  NoDup (qobj <$> waiting_queue s) → Forall (waiting_ok p) (waiting_queue s) →
  ∃ b s', get_new_batch_prefill_raw d cf shuffle order now None e s = Ok (b, None, s') ∧
    joined (s_chunked_prefill_size cf) gs b (s_pools s') ∧
    zlen (batch_reqs b) ≤ Z.max 0 (pp_max_micro_batch_size cf - zlen (running s)) ∧
    (b ≠ None → ∃ queue c1 w1,
       calc_priority shuffle (s_policy cf) (waiting_queue s) (Some (running s)) c (waiting_tree s) = Ok (queue, c1, w1) ∧
       ident <$> batch_reqs b ++ waiting_queue s' = ident <$> queue).
Proof.
  destruct (s_pools s) as [c p] eqn:Ecp. intros.
  edestruct (pass_spec d cf shuffle order now e s c A p gs seen) as (b & s' & queue & Hrun & Hpass & _ & Hcp); try done.
  exists b, s'. split; [done|]. split; [apply Hpass|]. split.
  - etrans; [apply Hpass|]. unfold num_allocatable_reqs. lia.
  - intros Hb. destruct (Hcp Hb) as (queue1 & c1 & w1 & Hrun1 & Hcore). exists queue1, c1, w1. split; [done|].
    apply core_idents. by rewrite (pa_core _ _ _ _ _ _ Hpass).
Qed.

Module PassDemo.
Import (hints) Demo DecodeDemo PolicyDemo LoopDemo.

(** Longest prefix first, up to four requests, no preemption. *)
Definition config : SchedConfig :=
  mkSched (mkPolicy LPM false false) false None 4 None None 1 100 (Some 8) None 0 (Some 4) None None 64 false true.
Definition waiting (n : nat) (name : string) (ids : list Z) : QReq :=
  LoopDemo.as_queued name (mkSReq n (mkReq ids [] [] false None None None None 0 [] None false kv_empty)
    1 false 0 0 None 0 0 0 0 false false false false None).

(** One request runs already, with a row of one slot. *)
Definition busy : SReq :=
  mkSReq 9 (mkReq [30] [31] [30; 31] false None None None None 0 [] (Some 0%nat) false (mkKv (Some 1) 0 1 1 0 0))
    1 false 0 0 None 0 0 0 0 false false false false None.
Definition gbusy : greq := mkG busy 1 [6; 0; 0; 0; 0; 0] [6] 0.
Definition rows : ReqToTokenPool :=
  mkPool 3 4 6 [[0; 0; 0; 0; 0; 0]; [6; 0; 0; 0; 0; 0]; [0; 0; 0; 0; 0; 0]; [0; 0; 0; 0; 0; 0]] [2; 3] [0; 1; 0; 0].
Definition scheduler : Scheduler :=
  mkScheduler [waiting 1 "cold" [7]; waiting 2 "warm" [1; 2; 4; 5; 9]] None [LoopDemo.as_queued "busy" busy] false
    (Demo.warm, rows) PolicyDemo.tree ∅ [] 1%Q 0.
Definition after : option NewBatch * Scheduler :=
  Eval vm_compute in
    match get_new_batch_prefill_raw backwards config id id 1 None AdmitDemo.env0 scheduler with
    | Ok (b, _, s) => (b, s)
    | Err _ => (None, scheduler)
    end.
Lemma pass_runs : get_new_batch_prefill_raw backwards config id id 1 None AdmitDemo.env0 scheduler = Ok (after.1, None, after.2).
Proof. vm_compute. reflexivity. Qed.

#[export] Instance census0 : Census := 12.

Lemma busy_runs A : Inv Demo.warm A → runs Demo.warm A rows gbusy.
Proof.
  intros HA. constructor; try (vm_compute; intros; first [reflexivity | split; (discriminate || reflexivity) | discriminate]).
  - intros i x Hx. destruct i as [|i]; [injection Hx as <-; eexists; vm_compute; done|discriminate].
  - destruct (to_root _ _ _ A (inv_tree _ A HA)) as (r & Hr & Hrn). destruct Hrn as (_ & _ & _ & _ & Hp & Hs).
    exists r. split; [|exact Hs]. split; [exact Hr|]. split; [done|]. split; [|exact Hp]. vm_compute. split; discriminate.
Qed.

Lemma busy_inv : ∃ A, batch_inv Demo.warm A rows [gbusy].
Proof.
  destruct ExtendDemo.warm_kv as (A & HA & HK & HS). exists A.
  assert (all_slots Demo.warm A [gbusy] ≡ₚ [6; 4; 5; 1; 2; 3] ++ pool_slots Demo.warm) as HP.
  { unfold all_slots. rewrite HS. reflexivity. }
  constructor; rewrite ?HP; try done.
  - apply Forall_singleton. by apply busy_runs.
  - by_evaluation.
  - by_evaluation.
  - constructor; [by_evaluation|reflexivity|reflexivity|by split].
  - intros i a Hi Hr. unfold holders. rewrite filter_none; [apply (inv_locks _ A HA i a Hi)|].
    apply Forall_singleton. intros He. by apply Hr.
Qed.
End PassDemo.
Import (hints) Demo DecodeDemo PolicyDemo LoopDemo PassDemo.

Lemma prefill_pass_allocates_witness :
  let '(b, s') := PassDemo.after in
  joined (Some 8) [PassDemo.gbusy] b (s_pools s') ∧
  LoopDemo.names (batch_reqs b) = ["warm"; "cold"]%string ∧ out_locs b = [7; 8].
Proof.
  destruct PassDemo.busy_inv as (A & HB).
  destruct (prefill_pass_allocates backwards PassDemo.config id id 1 AdmitDemo.env0 PassDemo.scheduler A [PassDemo.gbusy] []) as (b & s' & Hrun & Hal & _).
  - vm_compute. discriminate.
  - exact I.
  - vm_compute. discriminate.
  - reflexivity.
  - reflexivity.
  - reflexivity.
  - repeat constructor; vm_compute; discriminate.
  - exact HB.
  - repeat constructor.
  - exact PolicyDemo.tree_simulates.
  - intros l. reflexivity.
  - intros l. reflexivity.
  - by_evaluation.
  - repeat constructor; vm_compute; (discriminate || reflexivity).
  - rewrite PassDemo.pass_runs in Hrun. apply (inj Ok) in Hrun. injection Hrun as <- <-.
    split; [exact Hal|]. split; reflexivity.
Defined.
