(* ===== verification/KvGroup.v ===== *)
(** * Grouped frees

    [process_batch_result_prefill] and [process_batch_result_decode] collect the frees
    of a batch in a group of the allocator ([free_group_begin], [free_group_end]).  In
    between the pages of the group count as free, but they cannot be handed out: what
    the cache relies on holds with a weaker condition on the allocator. *)

From S2P Require Import Prelude Allocator AllocKernels RadixKey PrefixTree TreeNode ReqPool Events.
From S2P Require Import RadixCache RadixInv RadixEvict ReqCache ReqOwnership PrefillAdder RadixPools BatchAlloc RunningBatch.
Import Allocator.

(** ** Allocators with an open group *)

Class KVGroup := {
  kv_group_begin : Alloc → Alloc;
  kv_group_end : Alloc → res Alloc;
}.

(** [Ko] is the allocator as the cache sees it inside a group: the same operations. *)
Class GroupLaws (K Ko : KVAllocator) `{KVGroup} : Prop := {
  gl_segment : @kv_free_segment Ko = @kv_free_segment K;
  gl_segments : @kv_free_segments Ko = @kv_free_segments K;
  gl_begin a : @alloc_ok K a →
    @alloc_ok Ko (kv_group_begin a) ∧ page_size (kv_group_begin a) = page_size a ∧ @pool Ko (kv_group_begin a) = @pool K a;
  gl_end a : @alloc_ok Ko a → NoDup (@pool Ko a) →
    ∃ a', kv_group_end a = Ok a' ∧ @alloc_ok K a' ∧ page_size a' = page_size a ∧ @pool K a' ≡ₚ @pool Ko a;
}.

(** Released pages wait for a sort only where the allocator sorts. *)
Definition sort_wf (a : Alloc) : Prop := 0 < page_size a ∧ (need_sort a = false → release_pages a = []).

Lemma token_free_sort v a a' :
  sort_wf a → Token.free v a = Ok a' → sort_wf a' ∧ free_page_reps_group a' = free_page_reps_group a.
Proof.
  intros [Hps Hs]. unfold Token.free. destruct (zlen v =? 0); [by intros [= <-]|].
  destruct (free_group a); [by intros [= <-]|].
  destruct (need_sort a) eqn:E; intros [= <-]; (split; [|done]); (split; [done|]); cbn; rewrite E; (done || auto).
Qed.

Lemma release_sort ids a :
  sort_wf a → let a' := Paged.release_page_ids ids a in
  sort_wf a' ∧ page_size a' = page_size a ∧ free_page_reps_group a' = free_page_reps_group a ∧ free_group a' = free_group a.
Proof.
  intros [Hps Hs]. unfold Paged.release_page_ids. cbv zeta.
  destruct (need_sort a) eqn:E; (split; [|done]); (split; [done|]); cbn; rewrite E; (done || auto).
Qed.

Lemma debug_same a a' : Paged.debug_checked a = Ok a' → a' = a.
Proof. unfold Paged.debug_checked. destruct (debug_mode a); [by intros (? & _ & [= <-])%bind_Ok|by intros [= <-]]. Qed.

Lemma paged_segment_sort v s a a' : sort_wf a → Paged.free_segment v s a = Ok a' → sort_wf a'.
Proof.
  intros Hwf. unfold Paged.free_segment. destruct (zlen v =? 0); [by intros [= <-]|]. cbv zeta.
  destruct (debug_mode a && _); [done|]. destruct (free_group a); [by intros [= <-]|]. intros ->%debug_same. by apply release_sort.
Qed.

#[program] Definition open_token : KVAllocator := {|
  kv_free_segment := Token.free_segment;
  kv_free_segments := Token.free_segments;
  kv_available := Token.available_size;
  Allocator.pool := TokenPool.pool;
  alloc_ok a := sort_wf a ∧ page_size a = 1 ∧ free_page_reps_group a = [];
|}.
Next Obligation. intros a [[H _] _]. exact H. Qed.
Next Obligation.
  intros a P row s e (Hwf & Hps & Hr) HR Hs He _. cbn in *. rewrite Hps in *.
  destruct (TokenPool.free_pool (slice row s e) a) as (a' & Hrun & Hp & HP).
  destruct (token_free_sort _ _ _ Hwf Hrun) as [Hwf' Hr'].
  exists a'. rewrite touched_1 with (row := row) by done. split_and!; try done; congruence.
Qed.
Next Obligation. done. Qed.
Next Obligation. done. Qed.

#[program] Definition open_paged : KVAllocator := {|
  kv_free_segment := Paged.free_segment;
  kv_free_segments := Paged.free_segments;
  kv_available := Base.available_size;
  Allocator.pool := PagedPool.pool;
  alloc_ok := sort_wf;
|}.
Next Obligation. intros a [H _]. exact H. Qed.
Next Obligation.
  intros a P row s e Hok HR Hs He Hnd.
  destruct (PagedPool.free_segment_pool a P row s e (proj1 Hok) HR Hs He Hnd) as (a' & Hrun & ? & ?).
  exists a'. split_and!; try done. by apply (paged_segment_sort _ _ _ _ Hok Hrun).
Qed.
Next Obligation. done. Qed.
Next Obligation. done. Qed.

Definition token_group : KVGroup := {| kv_group_begin := Base.free_group_begin; kv_group_end := Token.free_group_end |}.
Definition paged_group : KVGroup := {| kv_group_begin := Paged.free_group_begin; kv_group_end := Paged.free_group_end |}.

Lemma token_end_sort a a' :
  sort_wf a → Token.free_group_end a = Ok a' → sort_wf a' ∧ page_size a' = page_size a ∧ free_page_reps_group a' = free_page_reps_group a.
Proof.
  intros Hwf. unfold Token.free_group_end, Base.free_group_end. set (b := set_free_group a None).
  assert (sort_wf b) as Hb by done. destruct (free_group a) as [[|t ts]|]; [by intros [= <-]| |by intros [= <-]].
  intros Hrun. destruct (token_free_sort _ _ _ Hb Hrun) as [? ?]. split_and!; try done.
  destruct (TokenPool.free_pool (concat (t :: ts)) b) as (a2 & Hrun2 & Hp & _). change (page_size a) with (page_size b). congruence.
Qed.

Lemma token_group_laws : @GroupLaws quiet_token open_token token_group.
Proof.
  constructor; [done|done| |].
  - intros a [(Hps & Hs & Hg & Hr) H1]. cbn. unfold TokenPool.pool. cbn. rewrite Hg. by split_and!.
  - intros a (Hwf & H1 & Hr) _. cbn in *. destruct (TokenPool.token_group_end_pool a) as (a' & Hrun & Hg & HP).
    destruct (token_end_sort a a' Hwf Hrun) as ([? ?] & Hps & Hr'). exists a'. unfold alloc_wf. split_and!; try done; congruence.
Qed.

Lemma paged_end_sort a a' : sort_wf a → Paged.free_group_end a = Ok a' → sort_wf a' ∧ page_size a' = page_size a.
Proof.
  intros Hwf. unfold Paged.free_group_end. intros (b & Hb & Hrun)%bind_Ok.
  assert (sort_wf b ∧ page_size b = page_size a) as [Hwb Hpb].
  { unfold Base.free_group_end in Hb. set (b0 := set_free_group a None) in *. assert (sort_wf b0) as H0 by done.
    destruct (free_group a) as [[|t ts]|]; [by injection Hb as <-| |by injection Hb as <-].
    unfold Paged.free in Hb. destruct (zlen _ =? 0); [by injection Hb as <-|].
    cbn [free_group b0 set_free_group] in Hb. apply debug_same in Hb as ->.
    split; [by apply release_sort|]. by rewrite (proj1 (proj2 (release_sort [_] b0 H0))). }
  apply debug_same in Hrun as ->. destruct (free_page_reps_group b); [by split|].
  destruct (release_sort [(λ i, i / page_size b) <$> concat (l :: l0)] b Hwb) as (Hwf' & Hp & _).
  exact (conj Hwf' (eq_trans Hp Hpb)).
Qed.

Lemma paged_group_laws : @GroupLaws quiet_paged open_paged paged_group.
Proof.
  constructor; [done|done| |].
  - intros a (Hps & Hs & Hg & Hr). cbn. unfold PagedPool.pool, PagedPool.pending. cbn. rewrite Hg, Hr. by split_and!.
  - intros a Hwf Hnd. cbn in *. destruct (PagedPool.paged_group_end_pool a Hnd) as (a' & Hrun & Hg & Hr & HP).
    destruct (paged_end_sort a a' Hwf Hrun) as [[? ?] Hps]. exists a'. by split_and!.
Qed.

(** ** The operations of a request inside a group *)

Definition open_group `{KVGroup} (c : RadixCache) : RadixCache :=
  set_kv_allocator c (kv_group_begin (kv_allocator c)).
Definition close_group `{KVGroup} (c : RadixCache) : res RadixCache :=
  a ← kv_group_end (kv_allocator c); Ok (set_kv_allocator c a).

Section group.
Context (K Ko : KVAllocator) `{KVGroup} `{!GroupLaws K Ko}.
Context `{Clock} `{SetOrder} `{HashLaws} `{KVFree} `{RetractSettings} `{Census}.

Lemma release_in_group spec_none strip r is_insert p c :
  @release_kv_cache _ _ Ko _ spec_none strip r is_insert p c = @release_kv_cache _ _ K _ spec_none strip r is_insert p c.
Proof.
  unfold release_kv_cache, cache_finished_req, release_overallocated_kv_indices, free_kv_row, free_kv_row_segments.
  by rewrite (gl_segments (K := K) (Ko := Ko)), (gl_segment (K := K) (Ko := Ko)).
Qed.

Lemma unfinished_in_group r chunked p c :
  @cache_unfinished_req _ _ Ko r chunked p c = @cache_unfinished_req _ _ K r chunked p c.
Proof. unfold cache_unfinished_req. by rewrite (gl_segment (K := K) (Ko := Ko)). Qed.

Lemma open_batch c A p gs : @batch_inv K _ _ c A p gs → @batch_inv Ko _ _ (open_group c) A p gs.
Proof.
  intros [B1 [K1 K2 K3 K4] B3 B4 B5 B6 B7 B8 B9]. destruct (gl_begin (kv_allocator c) K1) as (O1 & O2 & O3).
  assert (@all_slots Ko (open_group c) A gs = @all_slots K c A gs) as Hs.
  { unfold all_slots, pool_slots. cbn [kv_allocator open_group set_kv_allocator cpage_size]. by rewrite O3. }
  constructor; rewrite ?Hs; try done.
  - by apply Inv_set_alloc.
  - constructor; cbn [kv_allocator open_group set_kv_allocator cpage_size]; [done|by rewrite O2|done|by rewrite O3].
  - eapply Forall_impl; [exact B4|]. intros g. apply runs_moved; [done|done|]. eauto.
Qed.

Lemma close_batch c A p gs :
  @batch_inv Ko _ _ c A p gs →
  ∃ c', close_group c = Ok c' ∧ @batch_inv K _ _ c' A p gs ∧ (∃ a, c' = set_kv_allocator c a) ∧ settings c' = settings c.
Proof.
  intros [B1 [K1 K2 K3 K4] B3 B4 B5 B6 B7 B8 B9].
  assert (NoDup (@pool Ko (kv_allocator c))) as Hnd.
  { apply NoDup_app in K4 as (_ & _ & K4). apply (NoDup_page_slots (cpage_size c)); [apply (inv_ps c A B1)|done]. }
  destruct (gl_end (kv_allocator c) K1 Hnd) as (a & Hrun & C1 & C2 & C3).
  exists (set_kv_allocator c a). unfold close_group. rewrite Hrun. cbn [mbind res_bind]. split; [done|].
  assert (@all_slots K (set_kv_allocator c a) A gs ≡ₚ @all_slots Ko c A gs) as Hs.
  { unfold all_slots, pool_slots. cbn [kv_allocator set_kv_allocator cpage_size]. by rewrite C3. }
  split; [|by split; [exists a|]]. constructor; rewrite ?Hs; try done.
  - by apply Inv_set_alloc.
  - constructor; cbn [kv_allocator set_kv_allocator cpage_size]; [done|by rewrite C2|done|by rewrite C3].
  - eapply Forall_impl; [exact B4|]. intros g. apply runs_moved; [done|done|]. eauto.
Qed.
End group.
