(* ===== verification/BatchResult.v ===== *)
(** * The results of a batch

    [process_batch_result_prefill] and [process_batch_result_decode] of
    [managers/scheduler_components/batch_result_processor.py]: every request of the
    batch gets its new token; a finished request is released, one that finished its
    prefill is cached.  For generation without speculation, beams, grammars,
    reasoning and disaggregation on a scheduler without overlap. *)

From S2P Require Import Prelude PyFloat PySort PrefillDelayer PrefillAdder RadixKey TreeNode Allocator AllocKernels.
From S2P Require Import ReqPool Events RadixCache ReqCache RadixPools SchedulePolicy Allocation KvGroup Finish PrefillLoop.
Import PrefillAdder.

Definition set_output (b : Req) (out : list Z) : Req :=
  mkReq (origin_input_ids b) out (full_untruncated_fill_ids b) (fill_is_origin b) (extend_range b) (req_extra_key b)
    (req_cache_salt b) (req_priority b) (reasoning_tokens b) (prefix_indices b) (last_node b)
    (skip_radix_cache_insert b) (kv b).

(** The request after [output_ids] and [finished_reason] changed. *)
Definition generated (r : SReq) (out : list Z) (fin : bool) : SReq :=
  mkSReq (obj r) (set_output (base r) out) (max_new_tokens r) (ignore_eos r) (PrefillAdder.priority r)
    (wait_queue_entry_time r) (best_match_node r) (host_hit_length r) (swa_host_hit_length r)
    (mamba_host_hit_length r) (storage_hit_length r) (retracted_stain r) (holds_mamba r) (dllm_incomplete_ids r)
    fin (swa_uuid_for_lock r).

(** The attributes of the request objects the checks use, by object; their output is
    the one of the request. *)
Abbreviation gens_t := (gmap nat (StopParams * GenState)).

Record ResultState := mkRS {
  rs_gens : gens_t;
  rs_inflight : gmap nat Z;
  rs_pools : RadixCache * ReqToTokenPool;
}.

Section results.
Context `{TextOps} `{RetractSettings} `{Clock} `{HashOps} `{KVAllocator} `{KVFree} `{KVGroup}.

(** [req.output_ids.append(t)] and [req.update_finish_state()] *)
Definition append_token (t : Z) (r : SReq) (gens : gens_t) : res (SReq * gens_t) :=
  match gens !! obj r with
  | None => Err KeyError
  | Some (sp, g) =>
      g ← accept_run sp [t] (set_out_ids g (output_ids (base r)));
      Ok (generated r (out_ids g) (finished g), <[obj r := (sp, g)]> gens)
  end.

Definition release (r : SReq) (s : RadixCache * ReqToTokenPool) : res (SReq * (RadixCache * ReqToTokenPool)) :=
  '(b, p, c) ← release_kv_cache spec_algo_none strip_thinking_cache (base r) true s.2 s.1;
  Ok (with_base r b, (c, p)).

Definition cache_prefilled (r : SReq) (s : RadixCache * ReqToTokenPool) : res (SReq * (RadixCache * ReqToTokenPool)) :=
  '(b, p, c) ← maybe_cache_unfinished_req (base r) false s.2 s.1;
  Ok (with_base r b, (c, p)).

(** The result of a request: its first token after the last chunk of its prompt, or one
    chunk less to wait for. *)
Definition chunk_result (t : Z) (r : SReq) (st : ResultState) : res (SReq * ResultState) :=
  let n := default 0 (rs_inflight st !! obj r) in
  if n <=? 0 then
    '(r, gens) ← append_token t r (rs_gens st);
    '(r, s) ← (if is_finished r then release r (rs_pools st) else cache_prefilled r (rs_pools st));
    Ok (r, mkRS gens (rs_inflight st) s)
  else Ok (r, mkRS (rs_gens st) (<[obj r := n - 1]> (rs_inflight st)) (rs_pools st)).

(** [prepare_for_extend] has cleared [is_retracted] of every request of the batch. *)
Definition prefill_result (t : Z) (r : SReq) (st : ResultState) : res (SReq * ResultState) :=
  let n := default 0 (rs_inflight st !! obj r) in
  if is_finished r && (n <=? 0) then Ok (r, st) else chunk_result t r st.

(** An embedding model has no tokens; a dummy one ends the request. *)
Definition embedding_result (_ : Z) (r : SReq) (st : ResultState) : res (SReq * ResultState) := chunk_result 0 r st.

Definition decode_result (t : Z) (r : SReq) (st : ResultState) : res (SReq * ResultState) :=
  '(r, gens) ← append_token t r (rs_gens st);
  '(r, s) ← (if is_finished r then release r (rs_pools st) else Ok (r, rs_pools st));
  Ok (r, mkRS gens (rs_inflight st) s).

(** The loop over the requests, which the batch keeps. *)
Fixpoint each_result (one : Z → SReq → ResultState → res (SReq * ResultState)) (l : list (SReq * Z)) (st : ResultState)
    : res (list SReq * ResultState) :=
  match l with
  | [] => Ok ([], st)
  | (r, t) :: l =>
      '(r, st) ← one t r st;
      '(rs, st) ← each_result one l st;
      Ok (r :: rs, st)
  end.

Definition grouped (body : ResultState → res (list SReq * ResultState)) (st : ResultState) : res (list SReq * ResultState) :=
  let '(c, p) := rs_pools st in
  '(rs, st) ← body (mkRS (rs_gens st) (rs_inflight st) (open_group c, p));
  c ← close_group (rs_pools st).1;
  Ok (rs, mkRS (rs_gens st) (rs_inflight st) (c, (rs_pools st).2)).

(** The branch for generation: [zip(batch.reqs, next_token_ids)]. *)
Definition process_batch_result_prefill (reqs : list SReq) (next_token_ids : list Z) (st : ResultState)
    : res (list SReq * ResultState) :=
  '(rs, st) ← grouped (each_result prefill_result (zip reqs next_token_ids)) st;
  Ok (rs ++ drop (length rs) reqs, st).

(** The branch for embedding models; the embeddings themselves are not modelled. *)
Definition process_batch_result_embedding (reqs : list SReq) (st : ResultState) : res (list SReq * ResultState) :=
  grouped (each_result embedding_result ((λ r, (r, 0)) <$> reqs)) st.

(** [next_token_ids[i]] *)
Definition process_batch_result_decode (reqs : list SReq) (next_token_ids : list Z) (st : ResultState)
    : res (list SReq * ResultState) :=
  if (length next_token_ids <? length reqs)%nat then Err IndexError
  else grouped (each_result decode_result (zip reqs next_token_ids)) st.
End results.
