(* ===== verification/ResultOwn.v ===== *)
(** * Results and ownership

    What the results of a batch do to the memory: a new token leaves the rows alone, a
    finished request gives its pages back, a prefilled one shares its full pages with
    the tree and goes on. *)

From S2P Require Import Prelude PyFloat PySort PrefillDelayer Allocator AllocKernels RadixKey PrefixTree TreeNode ReqPool Events.
From S2P Require Import RadixCache RadixInv RadixWalk RadixLock RadixEvict ReqCache ReqOwnership ReqTheorems.
From S2P Require Import PrefillAdder RadixPools SchedulePolicy Allocation AllocWrites BatchAlloc RunningBatch KvGroup Finish FinishTheorems PrefillLoop ExtendAlloc LoopOwn LoopBatch BatchResult.
Import PrefillAdder.

(** ** A new token *)

Section token.
Context `{TextOps} (sp : StopParams).

Lemma cap_out s : out_ids (_cap_finished_len_at_max_new_tokens sp s) = out_ids s.
Proof. unfold _cap_finished_len_at_max_new_tokens. destruct (finished_len s); [|done]. by destruct (_ >? _). Qed.

Lemma tokens_out base tokens s : out_ids (check_tokens sp base tokens s).2 = out_ids s.
Proof. revert base. induction tokens as [|t tokens IH]; intros base; [done|]. cbn. by destruct (is_stop_token sp t). Qed.

Lemma strs_out stops tail n s hit s' : check_stop_strs sp stops tail n s = Ok (hit, s') → out_ids s' = out_ids s.
Proof.
  induction stops as [|stop stops IH]; cbn [check_stop_strs]; [by intros [= <- <-]|].
  destruct (str_in stop tail); [by intros (? & _ & [= <- <-])%bind_Ok|]. by destruct (str_in stop _); [intros [= <- <-]|].
Qed.

Lemma regexes_out stops tail n s hit s' : check_stop_regexes sp stops tail n s = Ok (hit, s') → out_ids s' = out_ids s.
Proof.
  induction stops as [|stop stops IH]; cbn [check_stop_regexes]; [by intros [= <- <-]|].
  destruct (re_search stop tail) as [[]|]; [by intros (? & _ & [= <- <-])%bind_Ok|done|by intros [= <- <-]].
Qed.

Lemma str_based_out n s hit s' : _check_str_based_finish sp n s = Ok (hit, s') → out_ids s' = out_ids s.
Proof.
  unfold _check_str_based_finish. destruct (_ || _); [|by intros [= <- <-]].
  intros (tail & _ & ([h s1] & H1 & Hrun)%bind_Ok)%bind_Ok. apply strs_out in H1 as <-.
  destruct h; [by injection Hrun as _ <-|by eapply regexes_out].
Qed.

(** The output grows by one token; a token outside the vocabulary is replaced. *)
Lemma accept_one_out t s s' : accept_run sp [t] s = Ok s' → ∃ x, out_ids s' = out_ids s ++ [x].
Proof.
  unfold accept_run, update_finish_state. set (s0 := set_out_ids s (out_ids s ++ [t])).
  destruct (finished s0); [intros [= <-]; by exists t|]. destruct (to_finish s0); [intros [= <-]; by exists t|].
  change (out_ids s0) with (out_ids s ++ [t]). rewrite py_slice_tail by done. unfold _check_vocab_boundary_finish.
  change (out_ids s0) with (out_ids s ++ [t]). rewrite zlen_app. replace (zlen (out_ids s) + zlen [t] - zlen [t]) with (zlen (out_ids s)) by lia.
  assert (∀ x y, py_store (out_ids s ++ [x]) (zlen (out_ids s)) y = out_ids s ++ [y]) as Hst.
  { intros x y. unfold py_store, zlen. rewrite Nat2Z.id, insert_app_r_alt, Nat.sub_diag by lia. done. }
  cbn [check_vocab]. destruct (out_of_vocab sp t).
  { intros [= <-]. rewrite cap_out. destruct (stop_token_ids sp), (eos_token_ids sp);
      cbn [finish set_out_ids out_ids s0]; rewrite ?Hst; by eexists. }
  intros ([hit s1] & H1 & Hrun)%bind_Ok. apply str_based_out in H1. change (out_ids s0) with (out_ids s ++ [t]) in H1.
  destruct hit; [injection Hrun as <-; rewrite cap_out, H1; by exists t|].
  unfold _check_token_based_finish in Hrun. revert Hrun.
  assert (∀ hit s2, (if f_ignore_eos sp then (false, s1) else check_tokens sp (zlen (out_ids s1) - zlen [t]) [t] s1) = (hit, s2) →
    out_ids s2 = out_ids s ++ [t]) as H2.
  { intros hit s2. destruct (f_ignore_eos sp); [by intros [= _ <-]|]. intros E. by rewrite <-H1, <-(tokens_out (zlen (out_ids s1) - zlen [t]) [t] s1), E. }
  destruct (if f_ignore_eos sp then _ else _) as [[] s2] eqn:E; specialize (H2 _ _ eq_refl).
  { intros [= <-]. rewrite cap_out, H2. by exists t. }
  destruct (_ >=? _); [intros [= <-]; cbn; rewrite H2; by exists t|].
  destruct (grammar_terminated s2) as [[]|]; [intros (? & _ & [= <-])%bind_Ok|intros [= <-]|intros [= <-]]; cbn; rewrite H2; by exists t.
Qed.
End token.

(** ** The memory of a request *)

(** The request with another output. *)
Definition regen (g : greq) (out : list Z) (fin : bool) : greq :=
  mkG (generated (g_req g) out fin) (g_idx g) (g_full g) (g_pages g) (g_node g).

Section memory.
Context `{Clock} `{SetOrder} `{HashLaws} `{KVAllocator} `{KVFree} `{RetractSettings} `{Census}.

Lemma regen_toks c A p g out fin :
  runs c A p g → output_ids (base (g_req g)) `prefix_of` out → g_toks (regen g out fin) = g_toks g.
Proof.
  intros [_ _ _ _ _ Hc _ Ht _ _ _] [m ->]. unfold g_toks.
  change (effective_kv_committed_len strip_thinking_cache (base (g_req (regen g _ fin))))
    with (effective_kv_committed_len strip_thinking_cache (base (g_req g))).
  pose proof (effective_le strip_thinking_cache (base (g_req g)) (proj1 Hc)) as He. fold (g_kv g) in He.
  rewrite !slice_to_take by lia. unfold g_ids. cbn [regen g_req generated base set_output origin_input_ids output_ids].
  rewrite app_assoc, take_app_le; [done|]. unfold g_ids, zlen in Ht. lia.
Qed.

Lemma runs_regen c A p g out fin :
  runs c A p g → output_ids (base (g_req g)) `prefix_of` out → runs c A p (regen g out fin).
Proof.
  intros Hg Hp. pose proof (regen_toks c A p g out fin Hg Hp) as Et. pose proof Hg as [R1 R2 R3 R4 R5 R6 R7 R8 R9 R10 R11].
  constructor; try done.
  - apply (Z.le_trans _ _ _ R8). destruct Hp as [m ->]. unfold g_ids. cbn [regen g_req generated base set_output origin_input_ids output_ids].
    rewrite !zlen_app. pose proof (zlen_nonneg m). lia.
  - rewrite Et. exact R11.
Qed.

Lemma batch_regen c A p g gs out fin :
  output_ids (base (g_req g)) `prefix_of` out → batch_inv c A p (g :: gs) → batch_inv c A p (regen g out fin :: gs).
Proof.
  intros Hp [B1 B2 B3 B4 B5 B6 B7 B8 B9]. apply Forall_cons in B4 as [Hg Hgs].
  constructor; try done; [by constructor; [apply runs_regen|]|].
  intros i a Hi Hr. specialize (B9 i a Hi Hr). by rewrite holders_cons in B9 |- *.
Qed.

(** ** Caching a prefilled request *)

Lemma prefilled_toks c A p g : runs c A p g → prefilled g → get_fill_ids (base (g_req g)) = Ok (g_toks g) ∧ zlen (g_toks g) = g_len g.
Proof.
  intros Hg [P1 [m P2] P3 P4 P5]. pose proof Hg as [_ _ _ _ Hl _ _ Ht _ _ _].
  assert (effective_kv_committed_len strip_thinking_cache (base (g_req g)) = g_len g) as E.
  { unfold effective_kv_committed_len. rewrite P5. exact P4. }
  split; [|by rewrite (zlen_g_toks c A p g Hg), E].
  unfold get_fill_ids, extend_end, g_toks. rewrite P1, E. cbn [mbind res_bind]. f_equal.
  rewrite !slice_to_take by lia. rewrite P2, take_app_le; [done|]. unfold zlen in P3. lia.
Qed.

(** Every slot of a row is in the tree or on a page of the request. *)
Lemma row_owned c A ns us P row cpl i a :
  Inv c A → zlen P = npages (cpage_size c) (zlen row) → owns c A ns us P row cpl i a → row ⊆ private c P row cpl ++ tree_slots A.
Proof.
  intros Hinv HP Hown x Hx. destruct (settle_facts c A ns us P row cpl i a Hinv Hown) as (Hps & Hc & Hcd & Hul & HR).
  apply list_elem_of_lookup in Hx as [k Hk]. apply elem_of_app. destruct (Z.lt_ge_cases (Z.of_nat k) cpl) as [Hlt|Hge].
  - right. apply (slots_in_tree _ _ _ _ (inv_tree c A Hinv) i a (proj1 (ow_node _ _ _ _ _ _ _ _ _ Hown))).
    rewrite (ow_prefix _ _ _ _ _ _ _ _ _ Hown). apply list_elem_of_lookup. exists k. rewrite lookup_take_lt by lia. done.
  - left. destruct (HR k x Hk) as (q & Hq & ->). pose proof (lookup_lt_Some _ _ _ Hk) as Hkl.
    unfold private, Paged.page_slots. apply list_elem_of_bind. exists q. split.
    + apply list_elem_of_fmap. exists (Z.of_nat k mod cpage_size c). split; [done|]. apply elem_of_zrange. by apply Z.mod_pos_bound.
    + rewrite touched_aligned by (try done; unfold zlen; lia). apply list_elem_of_lookup.
      exists (Z.to_nat (Z.of_nat k / cpage_size c) - Z.to_nat (cpl / cpage_size c))%nat.
      assert (cpl / cpage_size c ≤ Z.of_nat k / cpage_size c) as Hd by (by apply Z.div_le_mono).
      assert (0 ≤ cpl / cpage_size c) by (by apply Z.div_pos).
      pose proof (lookup_lt_Some _ _ _ Hq) as Hql. fold (npages (cpage_size c) (zlen row)). rewrite <-HP.
      rewrite lookup_take_lt by (unfold zlen; lia). rewrite lookup_drop, <-Hq. f_equal. lia.
Qed.

(** The ghost of the request after it was cached. *)
Definition recached (g : greq) (b : Req) (full P : list Z) (j : nat) : greq :=
  mkG (with_base (g_req g) b) (g_idx g) full P j.

Lemma prefilled_batch c A p g gs :
  prefilled g → batch_inv c A p (g :: gs) → table_wf p →
  ∃ b p' c' A' full P j, cache_unfinished_req (base (g_req g)) false p c = Ok (b, p', c') ∧
    batch_inv c' A' p' (recached g b full P j :: gs) ∧ settings c' = settings c ∧ table_wf p' ∧
    max_context_len p' = max_context_len p ∧
    b = set_last_node (set_prefix_indices (set_kv (base (g_req g)) (kv b)) (prefix_indices b)) (Some j) ∧
    kv b = set_cache_protected_len (g_kv g) (cache_protected_len (kv b)).
Proof.
  intros Hpf Hb Hwf. destruct (batch_owns c A p g gs Hb) as (a & Hown).
  pose proof Hb as [Hinv Hkv Hd Hr Hnd Hsm Htot Hro Hh]. apply Forall_cons in Hr as [Hg Hr].
  destruct (prefilled_toks c A p g Hg Hpf) as [Htoks Hlen].
  pose proof Hg as [G1 G2 G3 G4 G5 G6 G7 G8 G9 G10 _]. rewrite fmap_cons in Hro.
  assert (∀ x, x ∈ g_idx g :: (g_idx <$> gs) → 0 ≤ x) as Hidx.
  { intros x Hx. assert (x ∈ zrange 1 (alloc_size p)) as Hin%elem_of_zrange; [|lia].
    rewrite <-(po_rows _ _ Hro). apply elem_of_app. by right. }
  assert (slice_to (g_full g) (zlen (g_toks g)) = g_row g) as Erow by (by rewrite Hlen).
  destruct (unfinished_spec (base (g_req g)) false p c A (g_toks g) (g_full g) (g_pages g) (g_idx g) (g_node g) a)
    as (b & p' & c' & A' & full & P & j & d & U1 & U2 & U3 & U4 & U5 & U6 & U7 & U8 & U9 & U10 & U11 & U12 & U13 & U14 & U15 & U16 & U17 & U18);
    try done.
  { apply Hidx. by left. }
  { apply py_get_lookup; [apply Hidx; by left|done]. }
  { by rewrite Erow. }
  { rewrite Erow. apply Forall_app. split.
    - apply Forall_forall. intros x Hx.
      assert (zlen (g_pages g) = npages (cpage_size c) (zlen (g_row g))) as HPl by (by rewrite zlen_row).
      pose proof (row_owned c A _ _ _ _ _ _ _ Hinv HPl Hown x Hx) as Hx'.
      eapply Forall_forall in Hsm; [exact Hsm|]. unfold all_slots. rewrite fmap_cons. cbn [concat].
      apply elem_of_app in Hx' as [?|?]; apply elem_of_app; [left|right]; apply elem_of_app; by left.
    - unfold all_slots in Hsm. rewrite !Forall_app in Hsm. apply Hsm. }
  rewrite Erow in U12. rewrite Hlen in U10, U11, U12, U14. set (us := req_units c (base (g_req g)) (g_toks g)) in *.
  destruct U18 as (tab & -> & Htab). destruct (settings_fields c c' U15) as (Ed & Eps & Ee & Er & _).
  exists b, (set_req_to_token p tab), c', A', full, P, j. split; [done|].
  assert (get_row (set_req_to_token p tab) (Some (g_idx g)) = Ok full) as Hfull by exact U5.
  assert (zlen tab = zlen (req_to_token p)) as Hzt by (apply (f_equal length) in Htab; rewrite !length_fmap in Htab; unfold zlen; lia).
  apply py_get_lookup in Hfull; [|apply Hidx; by left]. cbn [req_to_token set_req_to_token] in Hfull.
  assert (zlen full = zlen (g_full g)) as Hzf.
  { apply (f_equal (.!! Z.to_nat (g_idx g))) in Htab. rewrite !list_lookup_fmap, Hfull, G2 in Htab. injection Htab. unfold zlen. lia. }
  set (g' := recached g b full P j).
  assert (g_kv g' = set_cache_protected_len (g_kv g) (zlen us)) as Ekv.
  { unfold g_kv at 1. cbn [g' recached g_req base with_base]. rewrite U14. reflexivity. }
  assert (g_len g' = g_len g) as El by (unfold g_len; by rewrite Ekv).
  assert (g_toks g' = g_toks g) as Et.
  { unfold g_toks, g_ids, effective_kv_committed_len. cbn [g' recached g_req base with_base]. by rewrite U14. }
  assert (runs c' A' (set_req_to_token p tab) g') as Hg'.
  { constructor; rewrite ?El, ?Ekv, ?Eps, ?Et; try done.
    - cbn [g_full g' recached]. by rewrite Hzf.
    - unfold g_ids. cbn [g' recached g_req base with_base]. rewrite U14. exact G8.
    - unfold g_row. rewrite El. cbn [g_full g_pages g' recached]. rewrite <-Eps. apply U11.
    - cbn [g_pages g' recached]. unfold zlen. rewrite U17. exact G10.
    - exists d. split.
      + assert (req_units c' (base (g_req g')) (g_toks g) = us) as ->.
        { unfold us, req_units, req_key. cbn [g' recached g_req base with_base]. rewrite Eps, Ee. by rewrite U14. }
        assert (req_ns (base (g_req g')) = req_ns (base (g_req g))) as -> by (cbn; by rewrite U14). apply U11.
      + unfold g_row. rewrite El. apply U11. }
  split; [|split; [done|]; split; [|split; [done|]; split; [|by rewrite U14]]].
  - assert (g_private c' g' ++ tree_slots A' ++ pool_slots c' ≡ₚ g_private c g ++ tree_slots A ++ pool_slots c) as HP.
    { unfold g_private at 1. unfold g_row. rewrite El, Ekv. exact U12. }
    assert (all_slots c' A' (g' :: gs) ≡ₚ all_slots c A (g :: gs)) as Hall.
    { unfold all_slots. rewrite !fmap_cons, (all_privates c c' gs U15). cbn [concat].
      rewrite <-!app_assoc, !(Permutation_app_swap_app _ (concat _)). by rewrite HP. }
    constructor; rewrite ?Hall; try done.
    + by rewrite Ed.
    + constructor; [done|]. apply Forall_forall. intros h Hh'. pose proof (proj1 (Forall_forall _ _) Hr h Hh') as Hrh.
      eapply runs_moved; [done| | |exact Hrh]; [|intros x Hx; destruct (U16 _ x Hx) as (x' & ? & ? & ? & ? & _); by exists x'].
      assert (g_idx h ≠ g_idx g) as Hne.
      { pose proof (pool_ok_nodup _ _ Hro) as Hn. apply NoDup_app in Hn as (_ & _ & Hn). apply NoDup_cons in Hn as [Hn _].
        intros E. apply Hn. rewrite <-E. by apply list_elem_of_fmap_2. }
      assert (0 ≤ g_idx h) as Hh0 by (apply Hidx; right; by apply list_elem_of_fmap_2).
      pose proof (U6 (g_idx h) (g_full h) Hh0 Hne) as Hrow. unfold get_row in Hrow. rewrite !py_get_lookup in Hrow by done.
      rewrite (ru_row _ _ _ _ Hrh). apply Hrow, Hrh.
    + destruct Hro as [? ? ? ?]. constructor; try done. cbn. by rewrite Hzt.
    + intros i x' Hi Hir. rewrite Er in Hir. rewrite holders_cons. cbn [g_node g' recached]. destruct (A !! i) as [x|] eqn:Hx.
      * destruct (U16 i x Hx) as (y & Hy & _ & _ & _ & Hheld). same_lookup. rewrite (Hheld Hir). unfold one_at.
        specialize (Hh i x Hx Hir). rewrite holders_cons in Hh. repeat case_decide; (congruence || lia).
      * rewrite (holders_none c A p gs i Hr Hx). case_decide as Hj; [|rewrite Z.add_0_r; apply (inv_locks c' A' U2 i x' Hi)].
        subst j. pose proof (ow_held _ _ _ _ _ _ _ _ _ U11) as Ho. rewrite Er in Ho.
        destruct (ow_node _ _ _ _ _ _ _ _ _ U11) as (Hd' & _). same_lookup. by apply Ho.
  - unfold table_wf. cbn [req_to_token set_req_to_token max_context_len]. apply Forall_forall. intros row Hrow.
    apply list_elem_of_lookup in Hrow as [k Hk]. apply (f_equal (.!! k)) in Htab. rewrite !list_lookup_fmap, Hk in Htab.
    destruct (req_to_token p !! k) as [row0|] eqn:Hk0; [|done]. injection Htab as Htab.
    unfold zlen. rewrite Htab. apply (Forall_lookup_1 _ _ _ _ Hwf Hk0).
  - rewrite U14 at 1. rewrite U14. done.
Qed.
End memory.
