(* ===== verification/ResultLoop.v ===== *)
(** * The results of a whole batch

    Processing the results of a prefill or a decode batch keeps the requests in
    possession of their memory: the finished ones have given everything back, the
    others are ready for the next decode step. *)

From S2P Require Import Prelude PyFloat PySort PrefillDelayer Allocator AllocKernels RadixKey PrefixTree TreeNode ReqPool Events.
From S2P Require Import RadixCache RadixInv RadixWalk RadixLock RadixEvict ReqCache ReqOwnership ReqTheorems.
From S2P Require Import PrefillAdder PrefillAdmit RadixPools PrefillTheorems SchedulePolicy PolicyTheorems Allocation AllocWrites BatchAlloc RunningBatch.
From S2P Require Import DecodeAlloc ExtendAlloc ExtendTheorems Finish FinishTheorems PrefillLoop LoopConserve LoopTheorems LoopOwn LoopBatch KvGroup BatchResult ResultOwn.
Import PrefillAdder.

(** ** The generation of a request *)

Section generation.
Context `{TextOps} `{RetractSettings}.

(** The attributes of an unfinished request. *)
Definition gen_ready (gens : gens_t) (r : SReq) : Prop :=
  ∃ sp g, gens !! obj r = Some (sp, g) ∧ finished_reason g = None ∧ finished_len g = None ∧
    decoded_text g = ""%string ∧ f_max_new_tokens sp = max_new_tokens r ∧ 0 ≤ f_max_new_tokens sp ∧
    tokenizer sp ≠ None ∧ Forall regex_decided (stop_regex_strs sp).

Lemma gen_ready_ext gens gens' r r' :
  gens' !! obj r = gens !! obj r → obj r' = obj r → max_new_tokens r' = max_new_tokens r → gen_ready gens r → gen_ready gens' r'.
Proof. unfold gen_ready. intros E Eo Em. rewrite Eo, Em, E. done. Qed.

(** A new token: the output grows by one, and a request that goes on has room. *)
Lemma append_token_spec t r gens :
  gen_ready gens r →
  ∃ x fin gens', append_token t r gens = Ok (generated r (output_ids (base r) ++ [x]) fin, gens') ∧
    (∀ o, o ≠ obj r → gens' !! o = gens !! o) ∧
    (fin = false → zlen (output_ids (base r)) + 1 < max_new_tokens r ∧ gen_ready gens' (generated r (output_ids (base r) ++ [x]) false)).
Proof.
  intros (sp & g & Hg & G1 & G2 & G3 & G4 & G5 & G6 & G7). unfold append_token. rewrite Hg.
  set (g0 := set_out_ids g (output_ids (base r))).
  assert (∃ s', accept_run sp [t] g0 = Ok s' ∧
    (finished s' = false → zlen (out_ids s') < f_max_new_tokens sp ∧ finished_reason s' = None ∧ finished_len s' = None ∧ decoded_text s' = ""%string))
    as (s' & Hrun & Hs').
  { unfold accept_run. change (zlen [t]) with 1. destruct (to_finish g0) as [reason|] eqn:Ht.
    - unfold update_finish_state. assert (finished (set_out_ids g0 (out_ids g0 ++ [t])) = false) as ->.
      { unfold finished. cbn. by rewrite G1. }
      change (to_finish (set_out_ids g0 (out_ids g0 ++ [t]))) with (to_finish g0). rewrite Ht. eexists. split; [done|]. done.
    - destruct (update_within sp G6 1 (set_out_ids g0 (out_ids g0 ++ [t]))) as (s' & Hrun & Hw & Hsame); try done.
      { cbn. by destruct (output_ids (base r)). }
      exists s'. split; [done|]. intros Hf. unfold within_limit in Hw. rewrite Hf in Hw. split; [done|].
      specialize (Hsame Hf) as ->. done. }
  destruct (accept_one_out sp t g0 s' Hrun) as (x & Hx). change (out_ids g0) with (output_ids (base r)) in Hx.
  rewrite Hrun. cbn [mbind res_bind]. exists x, (finished s'). eexists. rewrite Hx. split; [done|]. split.
  - intros o Ho. by rewrite lookup_insert_ne.
  - intros Hf. destruct (Hs' Hf) as (Hl & F1 & F2 & F3). rewrite Hx, zlen_app in Hl. split; [rewrite <-G4; exact Hl|].
    exists sp, s'. cbn. by rewrite lookup_insert_eq.
Qed.

(** The tokens to fill are the prompt and some of the outputs. *)
Definition fill_prefix (r : Req) : Prop :=
  ∃ n, (n ≤ length (output_ids r))%nat ∧ full_untruncated_fill_ids r = origin_input_ids r ++ take n (output_ids r).

(** A request that has its prompt and outputs but the last in the cache, with room
    for another token. *)
Record decoding (ctx : Z) (gens : gens_t) (g : greq) : Prop := {
  dc_unfinished : is_finished (g_req g) = false;
  dc_gen : gen_ready gens (g_req g);
  dc_ids : zlen (g_ids g) = g_len g + 1;
  dc_room : zlen (output_ids (base (g_req g))) < max_new_tokens (g_req g);
  dc_fits : zlen (origin_input_ids (base (g_req g))) + max_new_tokens (g_req g) ≤ ctx;
  dc_fill : fill_prefix (base (g_req g));
  dc_strip : strip_thinking_cache && (reasoning_tokens (base (g_req g)) >? 0) = false;
}.

(** A request whose whole text is in the cache and which waits for its next token, as
    after a forward pass. *)
Record sampling (ctx : Z) (gens : gens_t) (g : greq) : Prop := {
  sm_unfinished : is_finished (g_req g) = false;
  sm_gen : gen_ready gens (g_req g);
  sm_ids : zlen (g_ids g) = g_len g;
  sm_fits : zlen (origin_input_ids (base (g_req g))) + max_new_tokens (g_req g) ≤ ctx;
  sm_fill : fill_prefix (base (g_req g));
  sm_strip : strip_thinking_cache && (reasoning_tokens (base (g_req g)) >? 0) = false;
}.

Lemma sampling_gens ctx gens gens' g : gens' !! obj (g_req g) = gens !! obj (g_req g) → sampling ctx gens g → sampling ctx gens' g.
Proof. intros E [? ? ? ? ? ?]. constructor; try done. by eapply gen_ready_ext. Qed.

Lemma decoding_gens ctx gens gens' g : gens' !! obj (g_req g) = gens !! obj (g_req g) → decoding ctx gens g → decoding ctx gens' g.
Proof. intros E [? ? ? ? ? ? ?]. constructor; try done. by eapply gen_ready_ext. Qed.

(** The request after its token. *)
Lemma sampled_decoding ctx gens gens' g x :
  sampling ctx gens g → zlen (output_ids (base (g_req g))) + 1 < max_new_tokens (g_req g) →
  gen_ready gens' (generated (g_req g) (output_ids (base (g_req g)) ++ [x]) false) →
  decoding ctx gens' (regen g (output_ids (base (g_req g)) ++ [x]) false).
Proof.
  intros [S1 S2 S3 S4 (n & Hn & Hf) S6] Hroom Hgen. constructor; try done.
  - change (g_len (regen g _ false)) with (g_len g). rewrite <-S3. unfold g_ids.
    cbn [regen g_req generated base set_output origin_input_ids output_ids]. rewrite !zlen_app. change (zlen [x]) with 1. lia.
  - cbn [regen g_req generated base set_output output_ids max_new_tokens]. rewrite zlen_app. exact Hroom.
  - exists n. cbn [regen g_req generated base set_output full_untruncated_fill_ids origin_input_ids output_ids].
    rewrite length_app. split; [cbn; lia|]. rewrite Hf, take_app_le by done. done.
Qed.
End generation.

(** ** One result *)

Section one.
Context `{TextOps} `{RetractSettings} `{Clock} `{SetOrder} `{HashLaws} `{KVAllocator} `{KVFree} `{Census}.
Context (ctx : Z).

(** The output has one token more. *)
Definition grew (r' r : SReq) : Prop :=
  zlen (output_ids (base r')) = zlen (output_ids (base r)) + 1 ∧ max_new_tokens r' = max_new_tokens r.

Lemma grew_generated r x fin : grew (generated r (output_ids (base r) ++ [x]) fin) r.
Proof. split; [|done]. cbn. by rewrite zlen_app. Qed.

(** What the result of one request leaves: the request is gone, or it goes on. *)
Record advanced (st st' : ResultState) (g : greq) (r' : SReq) (keep : option greq) : Prop := {
  av_obj : obj r' = obj (g_req g);
  av_out : grew r' (g_req g);
  av_gens o : o ≠ obj (g_req g) → rs_gens st' !! o = rs_gens st !! o;
  av_inflight : rs_inflight st' = rs_inflight st;
  av_settings : settings (rs_pools st').1 = settings (rs_pools st).1;
  av_table : table_wf (rs_pools st').2;
  av_ctx : max_context_len (rs_pools st').2 = max_context_len (rs_pools st).2;
  av_keep : match keep with
            | Some h => r' = g_req h ∧ decoding ctx (rs_gens st') h ∧ g_idx h = g_idx g ∧ g_len h = g_len g
            | None => is_finished r' = true ∧ holds_kv (kv (base r')) = false
            end;
}.

Lemma table_same p p' : req_to_token p' = req_to_token p → max_context_len p' = max_context_len p → table_wf p → table_wf p'.
Proof. unfold table_wf. by intros -> ->. Qed.

Lemma release_result st A g gs x gens' :
  batch_inv (rs_pools st).1 A (rs_pools st).2 (g :: gs) → table_wf (rs_pools st).2 →
  (∀ o, o ≠ obj (g_req g) → gens' !! o = rs_gens st !! o) →
  let r := generated (g_req g) (output_ids (base (g_req g)) ++ [x]) true in
  ∃ r' s' A', release r (rs_pools st) = Ok (r', s') ∧ batch_inv s'.1 A' s'.2 gs ∧
    advanced st (mkRS gens' (rs_inflight st) s') g r' None.
Proof.
  intros Hb Hwf Hg r. destruct (rs_pools st) as [c p] eqn:Es. cbn [fst snd] in *.
  pose proof (batch_regen c A p g gs (output_ids (base (g_req g)) ++ [x]) true ltac:(by eexists) Hb) as Hb'.
  destruct (release_batch c A p _ gs true Hb') as (p' & c' & A' & Hrun & Hb2 & Hset & Ht & Hc & _).
  unfold release. cbn [fst snd]. change (base (g_req (regen g _ true))) with (base r) in Hrun. rewrite Hrun. cbn [mbind res_bind].
  eexists _, (c', p'), A'. split; [done|]. split; [done|]. constructor; rewrite ?Es; try done; [apply (grew_generated (g_req g) x true)|by apply (table_same p)].
Qed.

(** A decode step. *)
Lemma decode_result_spec t st A g gs :
  batch_inv (rs_pools st).1 A (rs_pools st).2 (g :: gs) → table_wf (rs_pools st).2 → sampling ctx (rs_gens st) g →
  ∃ r' st' A' keep, decode_result t (g_req g) st = Ok (r', st') ∧
    batch_inv (rs_pools st').1 A' (rs_pools st').2 (option_list keep ++ gs) ∧ advanced st st' g r' keep.
Proof.
  intros Hb Hwf Hs. destruct (append_token_spec t (g_req g) (rs_gens st) (sm_gen _ _ _ Hs)) as (x & fin & gens' & Hrun & Hoth & Hgo).
  unfold decode_result. rewrite Hrun. cbn [mbind res_bind is_finished generated]. destruct fin.
  - destruct (release_result st A g gs x gens' Hb Hwf Hoth) as (r' & s' & A' & Hrel & Hb' & Hadv). rewrite Hrel. cbn [mbind res_bind].
    by eexists _, _, A', None.
  - destruct (Hgo eq_refl) as [Hroom Hgen]. cbn [mbind res_bind]. eexists _, _, A, (Some (regen g (output_ids (base (g_req g)) ++ [x]) false)).
    split; [done|]. split; [apply batch_regen; [by eexists|done]|]. constructor; try done; [apply grew_generated|].
    split; [done|]. split; [by apply (sampled_decoding ctx (rs_gens st))|done].
Qed.

Lemma prefilled_regen g x fin : prefilled g → prefilled (regen g (output_ids (base (g_req g)) ++ [x]) fin).
Proof.
  intros [P1 P2 P3 P4 P5]. constructor; try done. cbn [regen g_req generated base set_output full_untruncated_fill_ids].
  etrans; [exact P2|]. unfold g_ids. cbn [regen g_req generated base set_output origin_input_ids output_ids].
  rewrite app_assoc. by eexists.
Qed.

(** The end of a prefill. *)
Lemma prefill_result_spec t st A g gs :
  batch_inv (rs_pools st).1 A (rs_pools st).2 (g :: gs) → table_wf (rs_pools st).2 → sampling ctx (rs_gens st) g →
  prefilled g → rs_inflight st !! obj (g_req g) = None →
  ∃ r' st' A' keep, prefill_result t (g_req g) st = Ok (r', st') ∧
    batch_inv (rs_pools st').1 A' (rs_pools st').2 (option_list keep ++ gs) ∧ advanced st st' g r' keep.
Proof.
  intros Hb Hwf Hs Hpf Hin. destruct (append_token_spec t (g_req g) (rs_gens st) (sm_gen _ _ _ Hs)) as (x & fin & gens' & Hrun & Hoth & Hgo).
  unfold prefill_result, chunk_result. rewrite Hin, (sm_unfinished _ _ _ Hs). cbn [default andb]. change (0 <=? 0) with true. cbv iota.
  rewrite Hrun. cbn [mbind res_bind is_finished generated]. destruct fin.
  - destruct (release_result st A g gs x gens' Hb Hwf Hoth) as (r' & s' & A' & Hrel & Hb' & Hadv). rewrite Hrel. cbn [mbind res_bind].
    by eexists _, _, A', None.
  - destruct (Hgo eq_refl) as [Hroom Hgen]. set (g1 := regen g (output_ids (base (g_req g)) ++ [x]) false).
    pose proof (sampled_decoding ctx (rs_gens st) gens' g x Hs Hroom Hgen) as Hdec. fold g1 in Hdec.
    destruct (rs_pools st) as [c p] eqn:Es. cbn [fst snd] in *.
    pose proof (batch_regen c A p g gs (output_ids (base (g_req g)) ++ [x]) false ltac:(by eexists) Hb) as Hb1. fold g1 in Hb1.
    unfold cache_prefilled, maybe_cache_unfinished_req. cbn [fst snd].
    change (base (generated (g_req g) (output_ids (base (g_req g)) ++ [x]) false)) with (base (g_req g1)).
    destruct (skip_radix_cache_insert (base (g_req g1))).
    + cbn [mbind res_bind]. eexists _, _, A, (Some g1). split; [done|]. split; [done|]. constructor; rewrite ?Es; try done. exact (grew_generated (g_req g) x false).
    + destruct (prefilled_batch c A p g1 gs (prefilled_regen g x false Hpf) Hb1 Hwf)
        as (b & p' & c' & A' & full & P & j & Hcache & Hb2 & Hset & Hwf' & Hctx & Eb & Ek).
      rewrite Hcache. cbn [mbind res_bind]. eexists _, _, A', (Some (recached g1 b full P j)). split; [done|]. split; [exact Hb2|].
      constructor; rewrite ?Es; try done; [split; [cbn [with_base base]; rewrite Eb; exact (proj1 (grew_generated (g_req g) x false))|done]|].
      split; [done|]. cbn [rs_gens].
      assert (g_len (recached g1 b full P j) = g_len g1) as El by (unfold g_len, g_kv; cbn; by rewrite Ek).
      split; [|done]. destruct Hdec as [D1 D2 D3 D4 D5 D6 D7].
      constructor; try done; rewrite ?El; unfold g_ids in *; cbn [recached g_req base with_base] in *; rewrite Eb; done.
Qed.
End one.

(** ** All results *)

(** A request of the batch, its object afterwards and what is left of it. *)
Definition outcome (g : greq) (r' : SReq) (keep : option greq) : Prop :=
  obj r' = obj (g_req g) ∧ grew r' (g_req g) ∧
  match keep with
  | Some h => r' = g_req h ∧ is_finished r' = false ∧ g_idx h = g_idx g ∧ g_len h = g_len g
  | None => is_finished r' = true ∧ holds_kv (kv (base r')) = false
  end.

Section each.
Context `{TextOps} `{RetractSettings} `{Clock} `{SetOrder} `{HashLaws} `{KVAllocator} `{KVFree} `{Census}.
Context (ctx : Z) (one : Z → SReq → ResultState → res (SReq * ResultState)) (ready : gens_t → gmap nat Z → greq → Prop).
Hypothesis Hready : ∀ gens gens' m g, gens' !! obj (g_req g) = gens !! obj (g_req g) → ready gens m g → ready gens' m g.
Hypothesis Hone : ∀ t st A g gs,
  batch_inv (rs_pools st).1 A (rs_pools st).2 (g :: gs) → table_wf (rs_pools st).2 → ready (rs_gens st) (rs_inflight st) g →
  ∃ r' st' A' keep, one t (g_req g) st = Ok (r', st') ∧
    batch_inv (rs_pools st').1 A' (rs_pools st').2 (option_list keep ++ gs) ∧ advanced ctx st st' g r' keep.

Local Abbreviation gobj := (λ g : greq, obj (g_req g)).

(** What the results of the requests [todo] leave. *)
Record processed (st st' : ResultState) (todo : list greq) (rs : list SReq) (keeps : list (option greq)) : Prop := {
  pr_out : Forall3 outcome todo rs keeps;
  pr_gens o : o ∉ gobj <$> todo → rs_gens st' !! o = rs_gens st !! o;
  pr_inflight : rs_inflight st' = rs_inflight st;
  pr_settings : settings (rs_pools st').1 = settings (rs_pools st).1;
  pr_table : table_wf (rs_pools st').2;
  pr_ctx : max_context_len (rs_pools st').2 = max_context_len (rs_pools st).2;
  pr_decoding : Forall (decoding ctx (rs_gens st')) (omap id keeps);
}.

Lemma keeps_objs todo rs keeps h : Forall3 outcome todo rs keeps → h ∈ omap id keeps → gobj h ∈ gobj <$> todo.
Proof.
  induction 1 as [|g r k todo rs keeps (Ho & _ & Hk) _ IH]; cbn; [by intros ?%not_elem_of_nil|]. destruct k as [h'|]; cbn.
  - rewrite !elem_of_cons. intros [->|Hh]; [|right; by apply IH]. left. by destruct Hk as (-> & _).
  - rewrite elem_of_cons. intros Hh. right. by apply IH.
Qed.

Lemma each_spec todo ts st A rest :
  length ts = length todo → NoDup (gobj <$> todo) → Forall (ready (rs_gens st) (rs_inflight st)) todo →
  batch_inv (rs_pools st).1 A (rs_pools st).2 (todo ++ rest) → table_wf (rs_pools st).2 →
  ∃ rs st' A' keeps, each_result one (zip (g_req <$> todo) ts) st = Ok (rs, st') ∧
    batch_inv (rs_pools st').1 A' (rs_pools st').2 (omap id keeps ++ rest) ∧ processed st st' todo rs keeps.
Proof.
  revert ts st A rest. induction todo as [|g todo IH]; intros [|t ts] st A rest Hl Hnd Hrd Hb Hwf; try done.
  { exists [], st, A, []. split; [done|]. split; [done|]. constructor; try done. constructor. }
  rewrite fmap_cons in Hnd. apply NoDup_cons in Hnd as [Hg Hnd]. apply Forall_cons in Hrd as [Hrg Hrd]. cbn [app] in Hb.
  destruct (Hone t st A g (todo ++ rest) Hb Hwf Hrg) as (r' & st1 & A1 & keep & Hrun & Hb1 & [V1 V0 V2 V3 V4 V5 V6 V7]).
  rewrite (Permutation_app_swap_app (option_list keep) todo rest) in Hb1.
  destruct (IH ts st1 A1 (option_list keep ++ rest)) as (rs & st2 & A2 & keeps & Hrun2 & Hb2 & [P1 P2 P3 P4 P5 P6 P7]); try done.
  { by injection Hl. }
  { rewrite V3. apply Forall_forall. intros h Hh. apply (Hready (rs_gens st)); [|by eapply Forall_forall in Hrd].
    apply V2. intros E. apply Hg. rewrite <-E. by apply (list_elem_of_fmap_2 gobj). }
  exists (r' :: rs), st2, A2, (keep :: keeps). cbn [fmap list_fmap zip zip_with each_result]. rewrite Hrun. cbn [mbind res_bind].
  rewrite Hrun2. cbn [mbind res_bind]. split; [done|].
  assert (omap id (keep :: keeps) = option_list keep ++ omap id keeps) as Ek by (by destruct keep).
  split; [rewrite Ek, <-app_assoc; by rewrite (Permutation_app_swap_app (option_list keep))|].
  constructor; rewrite ?P3, ?P4, ?P6; try done.
  - constructor; [|done]. split; [done|]. split; [done|]. destruct keep as [h|]; [|done]. destruct V7 as (-> & [D _ _ _ _ _ _] & ? & ?). by split_and!.
  - intros o [Ho Ho']%not_elem_of_cons. rewrite (P2 o Ho'). by apply V2.
  - rewrite Ek. apply Forall_app. split; [|done]. destruct keep as [h|]; [|constructor]. apply Forall_singleton.
    destruct V7 as (-> & D & _). apply (decoding_gens ctx (rs_gens st1)); [|done]. apply P2. cbn. rewrite V1. exact Hg.
Qed.
End each.

(** ** The two kinds of batch *)

Section batch.
Context `{TextOps} `{RetractSettings} `{Clock} `{SetOrder} `{HashLaws} `{KVFree} `{Census}.
Context (K Ko : KVAllocator) `{KVGroup} `{!GroupLaws K Ko}.

Local Abbreviation closed := (@batch_inv K _ _).
Local Abbreviation open := (@batch_inv Ko _ _).

Lemma decode_in_group t r st : @decode_result _ _ _ _ Ko _ t r st = @decode_result _ _ _ _ K _ t r st.
Proof. unfold decode_result, release. destruct (append_token _ _ _) as [[r' gens]|]; [|done]. cbn [mbind res_bind]. by rewrite (release_in_group K Ko). Qed.

Lemma prefill_in_group t r st : @prefill_result _ _ _ _ Ko _ t r st = @prefill_result _ _ _ _ K _ t r st.
Proof.
  unfold prefill_result, chunk_result, release, cache_prefilled, maybe_cache_unfinished_req. destruct (_ && _); [done|]. destruct (_ <=? _); [|done].
  destruct (append_token _ _ _) as [[r' gens]|]; [|done]. cbn [mbind res_bind]. by rewrite (release_in_group K Ko), (unfinished_in_group K Ko).
Qed.

Lemma each_ext one one' l st : (∀ t r st, one t r st = one' t r st) → each_result one l st = each_result one' l st.
Proof.
  intros E. revert st. induction l as [|[r t] l IH]; intros st; [done|]. cbn [each_result]. rewrite E.
  destruct (one' t r st) as [[r' st']|]; [|done]. cbn [mbind res_bind]. by rewrite IH.
Qed.

(** The frees of the batch in a group. *)
Lemma grouped_spec ctx body st A todo rest :
  closed (rs_pools st).1 A (rs_pools st).2 (todo ++ rest) → table_wf (rs_pools st).2 →
  (∀ st0, rs_gens st0 = rs_gens st → rs_inflight st0 = rs_inflight st → table_wf (rs_pools st0).2 →
     open (rs_pools st0).1 A (rs_pools st0).2 (todo ++ rest) →
     ∃ rs st1 A' keeps, body st0 = Ok (rs, st1) ∧ open (rs_pools st1).1 A' (rs_pools st1).2 (omap id keeps ++ rest) ∧
       processed ctx st0 st1 todo rs keeps) →
  ∃ rs st' A' keeps, grouped body st = Ok (rs, st') ∧ closed (rs_pools st').1 A' (rs_pools st').2 (omap id keeps ++ rest) ∧
    processed ctx st st' todo rs keeps.
Proof.
  intros Hb Hwf Hbody. unfold grouped. destruct (rs_pools st) as [c p] eqn:Es. cbn [fst snd] in *.
  pose proof (open_batch K Ko c A p _ Hb) as Hb0.
  destruct (Hbody (mkRS (rs_gens st) (rs_inflight st) (open_group c, p))) as (rs & st1 & A' & keeps & Hrun & Hb1 & [P1 P2 P3 P4 P5 P6 P7]); try done.
  rewrite Hrun. cbn [mbind res_bind]. destruct (close_batch K Ko _ A' _ _ Hb1) as (c' & Hclose & Hb2 & _ & Hset). rewrite Hclose. cbn [mbind res_bind].
  eexists rs, _, A', keeps. split; [done|]. split; [exact Hb2|]. constructor; rewrite ?Es; try done. cbn [rs_pools fst] in *. by rewrite Hset, P4.
Qed.

Lemma decode_batch ctx ts st A todo rest :
  length ts = length todo → NoDup ((λ g, obj (g_req g)) <$> todo) → Forall (sampling ctx (rs_gens st)) todo →
  closed (rs_pools st).1 A (rs_pools st).2 (todo ++ rest) → table_wf (rs_pools st).2 →
  ∃ rs st' A' keeps, @process_batch_result_decode _ _ _ _ K _ _ (g_req <$> todo) ts st = Ok (rs, st') ∧
    closed (rs_pools st').1 A' (rs_pools st').2 (omap id keeps ++ rest) ∧ processed ctx st st' todo rs keeps.
Proof.
  intros Hl Hnd Hs Hb Hwf. unfold process_batch_result_decode. rewrite length_fmap, Hl, Nat.ltb_irrefl.
  apply (grouped_spec ctx _ st A todo rest Hb Hwf). intros st0 Eg Ei Hwf0 Hb0.
  erewrite each_ext by (intros; symmetry; apply decode_in_group).
  apply (each_spec (H5 := Ko) ctx _ (λ gens _ g, sampling ctx gens g)) with (A := A); try done.
  - intros gens gens' _ g. apply sampling_gens.
  - intros t st1 A1 g gs. apply decode_result_spec.
  - by rewrite Eg.
Qed.

Lemma prefill_batch ctx ts st A todo rest :
  length ts = length todo → NoDup ((λ g, obj (g_req g)) <$> todo) →
  Forall (λ g, sampling ctx (rs_gens st) g ∧ prefilled g ∧ rs_inflight st !! obj (g_req g) = None) todo →
  closed (rs_pools st).1 A (rs_pools st).2 (todo ++ rest) → table_wf (rs_pools st).2 →
  ∃ rs st' A' keeps, @process_batch_result_prefill _ _ _ _ K _ _ (g_req <$> todo) ts st = Ok (rs, st') ∧
    closed (rs_pools st').1 A' (rs_pools st').2 (omap id keeps ++ rest) ∧ processed ctx st st' todo rs keeps.
Proof.
  intros Hl Hnd Hs Hb Hwf. unfold process_batch_result_prefill.
  destruct (grouped_spec ctx (each_result (@prefill_result _ _ _ _ K _) (zip (g_req <$> todo) ts)) st A todo rest Hb Hwf)
    as (rs & st' & A' & keeps & Hrun & Hb' & Hp).
  { intros st0 Eg Ei Hwf0 Hb0. erewrite each_ext by (intros; symmetry; apply prefill_in_group).
    apply (each_spec (H5 := Ko) ctx _ (λ gens m g, sampling ctx gens g ∧ prefilled g ∧ m !! obj (g_req g) = None)) with (A := A); try done.
    - intros gens gens' m g E (S1 & S2 & S3). split; [by apply (sampling_gens ctx gens)|done].
    - intros t st1 A1 g gs Hb1 Hw1 (S1 & S2 & S3). by apply (prefill_result_spec ctx t st1 A1 g gs).
    - by rewrite Eg, Ei. }
  rewrite Hrun. cbn [mbind res_bind]. exists rs, st', A', keeps. split; [|done].
  assert (length rs = length (g_req <$> todo)) as Hlr.
  { rewrite length_fmap. destruct (Forall3_length_lm _ _ _ _ (pr_out _ _ _ _ _ _ Hp)). done. }
  by rewrite Hlr, drop_all, app_nil_r.
Qed.
End batch.
