(* ===== verification/LeakCheck.v ===== *)
(** * The memory checks of the scheduler

    [managers/scheduler_components/invariant_checker.py], with the figures of
    [pool_stats_observer.py]: every token slot is free, cached, held by the tree or
    written by a request; every row of the table is free when the server is idle; no
    page is free twice, and none is free while a request uses it.  For a radix cache
    without sessions over a full-attention pool. *)

From S2P Require Import Prelude PyFloat Allocator AllocKernels RadixKey PrefixTree TreeNode ReqPool Events.
From S2P Require Import RadixCache RadixInv RadixSize ReqCache PrefillAdder RadixPools Allocation AllocWrites ReqOwnership ReqTheorems BatchAlloc RunningBatch.
Import Allocator.

(** ** The checks *)

(** The first field is only reported; the checks read the other two. *)
Record PoolStats := mkStats {
  full_num_used : Z;
  full_available_size : Z;
  full_evictable_size : Z;
}.

(** [raise_error_or_warn]: the warning and its counter are not modelled. *)
Definition raise_error_or_warn (strict : bool) : res unit := if strict then Err ValueError else Ok tt.

Definition check_pool_invariant (available evictable protected session_held total uncached : Z) : bool :=
  negb (available + evictable + protected + session_held + uncached =? total).

(** The tokens a request holds beyond its cached prefix. *)
Definition uncached_size (ps : Z) (r : SReq) : res Z :=
  let k := kv (base r) in
  if negb (holds_kv k) then Ok 0
  else if ps >? 1 then
    if cache_protected_len k mod ps =? 0 then Ok (ceil_align (kv_allocated_len k) ps - cache_protected_len k)
    else Err AssertionError
  else Ok (kv_allocated_len k - cache_protected_len k).

Fixpoint total_uncached (ps : Z) (reqs : list SReq) : res Z :=
  match reqs with
  | [] => Ok 0
  | r :: reqs => n ← uncached_size ps r; m ← total_uncached ps reqs; Ok (n + m)
  end.

(** The batches are counted once: [running] is [None] when it is the last batch itself,
    or empty. *)
Definition get_total_uncached_sizes (ps : Z) (last : list SReq) (running : option (list SReq)) : res Z :=
  total_uncached ps (last ++ default [] running).

(** [torch.unique(free).numel() != free.numel()] *)
Definition has_duplicates (l : list Z) : bool := negb (length (remove_dups l) =? length l)%nat.

(** The pages of a request: the entries of its row below the allocated length. *)
Definition owner_pages (ps : Z) (p : ReqToTokenPool) (r : SReq) : res (list Z) :=
  let k := kv (base r) in
  match req_pool_idx k with
  | None => Ok []
  | Some i =>
      if (0 <=? kv_committed_len k) && (kv_committed_len k <=? kv_allocated_len k) && (kv_allocated_len k <=? max_context_len p)
      then if kv_allocated_len k >? 0 then row ← py_get (req_to_token p) i; Ok ((λ x, x / ps) <$> slice_to row (kv_allocated_len k))
           else Ok []
      else Err AssertionError
  end.

Fixpoint all_owner_pages (ps : Z) (p : ReqToTokenPool) (reqs : list SReq) : res (list Z) :=
  match reqs with
  | [] => Ok []
  | r :: reqs => l ← owner_pages ps p r; k ← all_owner_pages ps p reqs; Ok (l ++ k)
  end.

Definition is_active (r : SReq) : bool := holds_kv (kv (base r)) && (kv_allocated_len (kv (base r)) >? 0).

Definition check_kv_page_invariants (strict : bool) (ps : Z) (last : list SReq) (p : ReqToTokenPool) (a : Alloc) : res unit :=
  pages ← all_owner_pages ps p last;
  if negb (existsb is_active last) then Ok tt
  else
    let free := free_pages a ++ release_pages a in
    _ ← (if has_duplicates free then raise_error_or_warn strict else Ok tt);
    if existsb (λ x, bool_decide (x ∈ free)) pages then raise_error_or_warn strict else Ok tt.

Section checks.
Context `{KVAllocator} (strict check_pages : bool) (ps max_total_num_tokens : Z).

Definition get_token_info (c : RadixCache) : PoolStats :=
  let available := kv_available (kv_allocator c) in
  let evictable := evictable_size c in
  mkStats (max_total_num_tokens - (available + evictable)) available evictable.

Definition check_full_pool (s : PoolStats) (uncached : Z) (c : RadixCache) : bool :=
  check_pool_invariant (full_available_size s) (full_evictable_size s) (protected_size c) 0 max_total_num_tokens uncached.

Definition check_req_pool (p : ReqToTokenPool) : res unit :=
  if negb (zlen (free_slots p) + 0 =? pool_size p) then raise_error_or_warn strict else Ok tt.

(** [last] is [None] when there is no last batch. *)
Definition self_check_during_busy (last : option (list SReq)) (running : option (list SReq)) (s : RadixCache * ReqToTokenPool)
    : res unit :=
  match last with
  | None => Ok tt
  | Some last =>
      uncached ← get_total_uncached_sizes ps last running;
      if check_full_pool (get_token_info s.1) uncached s.1 then Err AssertionError
      else if check_pages then check_kv_page_invariants strict ps last s.2 (kv_allocator s.1)
      else Ok tt
  end.

(** The checks of [Scheduler.on_idle]. *)
Definition check_on_idle (s : RadixCache * ReqToTokenPool) : res unit :=
  _ ← (if check_full_pool (get_token_info s.1) 0 s.1 then raise_error_or_warn strict else Ok tt);
  check_req_pool s.2.
End checks.
