(* ===== verification/LeakTheorems.v ===== *)
(** * The memory checks pass

    When the requests in flight own their memory and no slot and no row is lost
    ([batch_inv]), the checks of [LeakCheck] find nothing. *)

From S2P Require Import Prelude PyFloat Allocator AllocKernels RadixKey PrefixTree TreeNode ReqPool Events.
From S2P Require Import RadixCache RadixInv RadixWalk RadixEvict RadixSize ReqCache PrefillAdder RadixPools Allocation AllocWrites ReqOwnership ReqTheorems BatchAlloc RunningBatch ExtendTheorems LeakCheck.
Import Allocator.

(** The pool is what the allocator lists. *)
Class ListedPool `{KVAllocator} : Prop := listed_pool a : alloc_ok a → pool a = free_pages a ++ release_pages a.

Lemma listed_token : @ListedPool quiet_token.
Proof. intros a [Hwf _]. by apply quiet_token_pool. Qed.
Lemma listed_paged : @ListedPool quiet_paged.
Proof. intros a Hwf. by apply quiet_pool. Qed.

Lemma elem_of_page_slots ps P x : 0 < ps → x ∈ Paged.page_slots ps P ↔ x / ps ∈ P.
Proof.
  intros Hps. unfold Paged.page_slots. rewrite list_elem_of_bind. split.
  - intros (q & Hx & Hq). apply list_elem_of_fmap in Hx as (i & -> & Hi%elem_of_zrange).
    by rewrite Z.div_add_l, Z.div_small, Z.add_0_r by lia.
  - intros Hq. exists (x / ps). split; [|done]. apply list_elem_of_fmap. exists (x mod ps).
    pose proof (Z.mod_pos_bound x ps Hps). rewrite elem_of_zrange. split; [|lia]. pose proof (Z.div_mod x ps). lia.
Qed.

Section leak.
Context `{Clock} `{SetOrder} `{HashLaws} `{KVAllocator} `{KVFree} `{RetractSettings} `{Census}.
Context `{BatchAllocator} `{!BatchLaws}.

(** The protected part of a row ends with a page of the tree. *)
Lemma protected_pages c A p g :
  Inv c A → kv_ok c A → runs c A p g →
  cache_protected_len (g_kv g) ≤ g_len g ∧ (cpage_size c | cache_protected_len (g_kv g)).
Proof.
  intros Hinv Hkv Hg. pose proof (inv_ps c A Hinv) as Hps. pose proof (zlen_g_toks c A p g Hg) as Ht.
  pose proof Hg as [_ _ _ _ Hl Hc _ _ _ _ (a & (Ha & _ & Hm & _) & Hs)].
  pose proof (effective_le strip_thinking_cache (base (g_req g)) (proj1 Hc)) as He. fold (g_kv g) in He.
  destruct (req_key_len c A (base (g_req g)) (g_toks g) Hinv) as (_ & _ & Hu).
  assert (cache_protected_len (g_kv g) ≤ g_len g) as Hle by lia. split; [done|].
  destruct (slots_paged _ _ _ _ (inv_tree c A Hinv) (g_node g) a (kv_paged c A Hkv) Ha) as [Q HQ].
  apply (f_equal zlen) in Hs. rewrite HQ, zlen_page_slots in Hs by done. exists (zlen Q). rewrite Hs.
  unfold zlen. rewrite length_take. pose proof (zlen_row g Hl) as Hr. unfold zlen in Hr. lia.
Qed.

Lemma private_size c A p g :
  Inv c A → kv_ok c A → runs c A p g →
  zlen (g_private c g) = ceil_align (g_len g) (cpage_size c) - cache_protected_len (g_kv g).
Proof.
  intros Hinv Hkv Hg. destruct (protected_pages c A p g Hinv Hkv Hg) as [Hle [k Hk]]. pose proof (inv_ps c A Hinv) as Hps.
  pose proof Hg as [_ _ _ _ Hl _ _ _ _ Hpg (a & (_ & _ & Hm & _) & _)].
  unfold g_private, private. rewrite zlen_page_slots by done. unfold touched. rewrite (zlen_row g Hl), Hk, Z.div_mul by lia.
  unfold npages in Hpg. unfold ceil_align. set (n := (g_len g + cpage_size c - 1) / cpage_size c) in *.
  destruct (Z.ltb_spec (k * cpage_size c) (g_len g)) as [Hlt|Hge].
  - assert (k ≤ n) by (apply Z.div_le_lower_bound; lia).
    assert (0 ≤ k) by (apply (Z.mul_le_mono_pos_r 0 k (cpage_size c)); lia).
    assert (zlen (take (Z.to_nat (n - k)) (drop (Z.to_nat k) (g_pages g))) = n - k) as ->; [|lia].
    unfold zlen in *. rewrite length_take, length_drop. lia.
  - assert (g_len g = k * cpage_size c) as E by lia. assert (n = k) as ->; [|change (zlen (@nil Z)) with 0; lia].
    unfold n. rewrite E. replace (k * cpage_size c + cpage_size c - 1) with ((cpage_size c - 1) + k * cpage_size c) by lia.
    rewrite Z.div_add, Z.div_small; lia.
Qed.

Lemma uncached_live c A p g :
  Inv c A → kv_ok c A → runs c A p g → uncached_size (cpage_size c) (g_req g) = Ok (zlen (g_private c g)).
Proof.
  intros Hinv Hkv Hg. rewrite (private_size c A p g Hinv Hkv Hg). pose proof (inv_ps c A Hinv) as Hps.
  destruct (protected_pages c A p g Hinv Hkv Hg) as [_ Hd]. unfold uncached_size. fold (g_kv g).
  assert (holds_kv (g_kv g) = true) as ->.
  { apply bool_decide_eq_true. rewrite (ru_idx _ _ _ _ Hg). by eexists. }
  cbn [negb]. destruct (Z.gtb_spec (cpage_size c) 1) as [Hp|Hp].
  - apply Z.mod_divide in Hd; [|lia]. by rewrite Hd.
  - assert (cpage_size c = 1) as -> by lia. unfold ceil_align. rewrite Z.div_1_r, Z.mul_1_r. unfold g_len. do 2 f_equal. lia.
Qed.

(** The requests of [reqs] with memory are [gs], the others are released. *)
Definition holding (reqs : list SReq) (gs : list greq) : Prop :=
  List.filter (λ r, holds_kv (kv (base r))) reqs = g_req <$> gs.

Lemma holding_app l k gs gs' : holding l gs → holding k gs' → holding (l ++ k) (gs ++ gs').
Proof. unfold holding. intros E1 E2. by rewrite List.filter_app, E1, E2, fmap_app. Qed.

Lemma uncached_total c A p reqs gs :
  Inv c A → kv_ok c A → Forall (runs c A p) gs → holding reqs gs →
  total_uncached (cpage_size c) reqs = Ok (zlen (concat (g_private c <$> gs))).
Proof.
  intros Hinv Hkv. unfold holding. revert gs. induction reqs as [|r reqs IH]; intros gs Hr Hh; cbn [total_uncached].
  { cbn in Hh. symmetry in Hh. by apply fmap_nil_inv in Hh as ->. }
  cbn in Hh. destruct (holds_kv (kv (base r))) eqn:Hk.
  - destruct gs as [|g gs]; [done|]. injection Hh as -> Hh. apply Forall_cons in Hr as [Hg Hr].
    rewrite (uncached_live c A p g Hinv Hkv Hg). cbn [mbind res_bind]. rewrite (IH gs Hr Hh). cbn [mbind res_bind].
    by rewrite fmap_cons, concat_cons, zlen_app.
  - unfold uncached_size. rewrite Hk. cbn [negb mbind res_bind]. rewrite (IH gs Hr Hh). cbn [mbind res_bind]. done.
Qed.

(** Every slot is accounted for. *)
Lemma no_pool_leak c A p reqs gs :
  batch_inv c A p gs → holding reqs gs →
  ∃ n, total_uncached (cpage_size c) reqs = Ok n ∧ check_full_pool total_slots (get_token_info total_slots c) n c = false.
Proof.
  intros [Hinv Hkv Hd Hr Hnd Hsm Ht Hrows Hh] Hhold. eexists. split; [by apply (uncached_total c A p reqs gs)|].
  unfold check_full_pool, check_pool_invariant, get_token_info. cbn. unfold evictable_size, protected_size.
  apply negb_false_iff, Z.eqb_eq. rewrite <-Ht. unfold all_slots. rewrite !zlen_app.
  rewrite (available_pool_slots c A Hinv Hkv), zlen_tree_slots, (sizes_sum c A Hinv). lia.
Qed.

(** Nothing is held, nothing is missing. *)
Lemma idle_check strict c A p : batch_inv c A p [] → check_on_idle strict total_slots (c, p) = Ok tt.
Proof.
  intros Hb. destruct (no_pool_leak c A p [] [] Hb eq_refl) as (n & [= <-] & Hck). unfold check_on_idle. cbn [fst snd].
  rewrite Hck. cbn [mbind res_bind]. unfold check_req_pool. pose proof (bi_rows _ _ _ _ Hb) as [Hrows _ _ [Hsz Hpos]].
  rewrite fmap_nil, app_nil_r in Hrows. pose proof (po_table _ _ (bi_rows _ _ _ _ Hb)) as Htab. apply zlen_proper in Hrows.
  assert ((zlen (free_slots p) + 0 =? pool_size p) = true) as ->; [|done]. apply Z.eqb_eq.
  rewrite Hrows, zlen_zrange; lia.
Qed.

(** ** Pages *)

Context `{!ListedPool}.

Lemma row_slots c A p g gs x :
  batch_inv c A p gs → g ∈ gs → x ∈ g_row g → x ∈ concat (g_private c <$> gs) ++ tree_slots A.
Proof.
  intros Hb Hg Hx. pose proof Hb as [Hinv Hkv _ Hr _ _ _ _ _]. eapply Forall_forall in Hr as Hru; [|exact Hg].
  destruct (protected_pages c A p g Hinv Hkv Hru) as [Hle [k Hk]]. pose proof (inv_ps c A Hinv) as Hps.
  pose proof Hru as [_ _ _ _ Hl _ _ _ HR Hpg (a & (Ha & _ & Hm & _) & Hs)].
  apply list_elem_of_lookup in Hx as [i Hi]. pose proof (lookup_lt_Some _ _ _ Hi) as Hlt. pose proof (zlen_row g Hl) as Hz.
  unfold zlen in Hz. apply elem_of_app. destruct (Z.lt_ge_cases (Z.of_nat i) (cache_protected_len (g_kv g))) as [Hlo|Hhi].
  - right. apply (slots_in_tree _ _ _ _ (inv_tree c A Hinv) (g_node g) a Ha). rewrite Hs.
    apply list_elem_of_lookup. exists i. rewrite lookup_take_lt by lia. done.
  - left. apply list_elem_of_In, in_concat. exists (g_private c g). rewrite <-!list_elem_of_In.
    split; [by apply (list_elem_of_fmap_2 (g_private c))|].
    destruct (HR i x Hi) as (q & Hq & ->). unfold g_private, private. apply elem_of_page_slots; [done|].
    pose proof (Z.mod_pos_bound (Z.of_nat i) (cpage_size c) Hps) as Hmod. rewrite Z.div_add_l, (Z.div_small (_ mod _)), Z.add_0_r by lia.
    unfold touched. rewrite (zlen_row g Hl), Hk, Z.div_mul by lia. rewrite (proj2 (Z.ltb_lt _ _)) by lia.
    assert (0 ≤ k) by (apply (Z.mul_le_mono_pos_r 0 k (cpage_size c)); lia).
    assert (k ≤ Z.of_nat i / cpage_size c) by (apply Z.div_le_lower_bound; lia).
    assert (Z.of_nat i / cpage_size c < (g_len g + cpage_size c - 1) / cpage_size c).
    { apply Z.lt_le_trans with (Z.of_nat i / cpage_size c + 1); [lia|]. apply Z.div_le_lower_bound; [lia|].
      pose proof (Z.mul_div_le (Z.of_nat i) (cpage_size c)). lia. }
    apply list_elem_of_lookup. exists (Z.to_nat (Z.of_nat i / cpage_size c - k)). rewrite lookup_take_lt, lookup_drop by lia.
    rewrite <-Hq. f_equal. lia.
Qed.
(** A page of a request in flight is not in the pool. *)
Lemma owner_pages_used c A p g gs :
  batch_inv c A p gs → table_wf p → g ∈ gs →
  ∃ l, owner_pages (cpage_size c) p (g_req g) = Ok l ∧ Forall (λ x, x ∉ pool (kv_allocator c)) l.
Proof.
  intros Hb Hwf Hg. pose proof Hb as [Hinv Hkv _ Hr Hnd _ _ Hrows _]. eapply Forall_forall in Hr as Hru; [|exact Hg].
  pose proof (inv_ps c A Hinv) as Hps. pose proof Hru as [G1 G2 _ _ Hl Hc _ _ _ _ _].
  assert (0 ≤ g_idx g) as Hidx.
  { assert (g_idx g ∈ zrange 1 (alloc_size p)) as Hin%elem_of_zrange; [|lia].
    rewrite <-(po_rows _ _ Hrows). apply elem_of_app. right. by apply (list_elem_of_fmap_2 g_idx). }
  assert (zlen (g_full g) = max_context_len p) as Hw by (by eapply Forall_lookup_1 in Hwf; [|exact G2]).
  unfold owner_pages. fold (g_kv g). rewrite G1. fold (g_len g).
  rewrite !(proj2 (Z.leb_le _ _)) by (unfold g_kv in *; lia). cbn [andb]. destruct (Z.gtb_spec (g_len g) 0); [|lia].
  rewrite (proj2 (py_get_lookup _ _ _ Hidx) G2). cbn [mbind res_bind]. eexists. split; [done|].
  apply Forall_fmap, Forall_forall. intros x Hx Hpool. fold (g_row g) in Hx.
  apply (row_slots c A p g gs x Hb Hg) in Hx. apply (elem_of_page_slots (cpage_size c)) in Hpool; [|done]. fold (pool_slots c) in Hpool.
  unfold all_slots in Hnd. rewrite app_assoc in Hnd. apply NoDup_app in Hnd as (_ & Hnd & _). by apply (Hnd x).
Qed.

Lemma all_owner_pages_used c A p reqs gs hs :
  batch_inv c A p gs → table_wf p → holding reqs hs → hs ⊆ gs →
  ∃ l, all_owner_pages (cpage_size c) p reqs = Ok l ∧ Forall (λ x, x ∉ pool (kv_allocator c)) l.
Proof.
  intros Hb Hwf. unfold holding. revert hs. induction reqs as [|r reqs IH]; intros hs Hh Hsub; cbn [all_owner_pages]; [by exists []|].
  cbn in Hh. destruct (holds_kv (kv (base r))) eqn:Hk.
  - destruct hs as [|g hs]; [done|]. injection Hh as -> Hh.
    destruct (owner_pages_used c A p g gs Hb Hwf) as (l & -> & Hl); [apply Hsub; by left|].
    destruct (IH hs Hh) as (k & -> & Hk'); [intros h ?; apply Hsub; by right|]. cbn [mbind res_bind].
    exists (l ++ k). split; [done|]. by apply Forall_app.
  - unfold owner_pages at 1. assert (req_pool_idx (kv (base r)) = None) as ->.
    { apply bool_decide_eq_false in Hk. destruct (req_pool_idx (kv (base r))); [|done]. destruct Hk. by eexists. }
    destruct (IH hs Hh Hsub) as (k & -> & Hk'). cbn [mbind res_bind]. by exists k.
Qed.

Lemma no_duplicates (l : list Z) : NoDup l → has_duplicates l = false.
Proof.
  intros Hnd. apply negb_false_iff, Nat.eqb_eq. apply Permutation_length, NoDup_Permutation; [apply NoDup_remove_dups|done|].
  intros x. apply elem_of_remove_dups.
Qed.

(** Both checks of a busy scheduler pass: the batches [last] and [running] hold the
    requests [gs] together, and the last batch some of them. *)
Lemma busy_check strict check_pages c A p gs hs last running :
  batch_inv c A p gs → table_wf p → holding (last ++ default [] running) gs → holding last hs → hs ⊆ gs →
  self_check_during_busy strict check_pages (cpage_size c) total_slots (Some last) running (c, p) = Ok tt.
Proof.
  intros Hb Hwf Hh Hl Hsub. destruct (no_pool_leak c A p _ gs Hb Hh) as (n & Hn & Hck).
  unfold self_check_during_busy, get_total_uncached_sizes. rewrite Hn. cbn [mbind res_bind fst snd]. rewrite Hck.
  destruct check_pages; [|done]. unfold check_kv_page_invariants.
  destruct (all_owner_pages_used c A p last gs hs Hb Hwf Hl Hsub) as (l & -> & Hu). cbn [mbind res_bind].
  destruct (existsb is_active last); [|done]. cbn [negb]. pose proof (bi_inv _ _ _ _ Hb) as Hinv. pose proof (bi_kv _ _ _ _ Hb) as [Ha _ _ Hnd].
  rewrite <-(listed_pool _ Ha). apply NoDup_app in Hnd as (_ & _ & Hnd). apply NoDup_page_slots in Hnd; [|apply (inv_ps c A Hinv)].
  rewrite (no_duplicates _ Hnd). cbn [mbind res_bind].
  assert (existsb (λ x, bool_decide (x ∈ pool (kv_allocator c))) l = false) as ->; [|done].
  apply not_true_iff_false. intros (x & Hx & Hp)%existsb_exists. apply bool_decide_eq_true in Hp.
  rewrite Forall_forall in Hu. apply (Hu x); [by apply list_elem_of_In|done].
Qed.
End leak.
