(* ===== verification/Intake.v ===== *)
(** * New requests and aborts

    What [managers/scheduler.py] does with a message of the tokenizer:
    [handle_generate_request] builds the request, limits its output
    ([init_req_max_new_tokens]), checks the length of its prompt
    ([validate_input_length] of [managers/utils.py]) and where its log probabilities
    start; [_set_or_validate_priority] checks its priority; [abort_request] takes
    requests out of the queue and marks the running ones.  For text requests without
    sessions, images, beams and grammars. *)

From S2P Require Import Prelude PyFloat PySort PrefillDelayer PrefillAdder RadixKey TreeNode Allocator AllocKernels.
From S2P Require Import ReqPool Events RadixCache ReqCache RadixPools SchedulePolicy Allocation KvGroup Finish PrefillLoop BatchResult Retract.
Import PrefillAdder.

(** [stop] holds the sampling parameters the finish conditions read, [max_new] the
    requested limit of the output. *)
Record GenerateReq := mkGenerate {
  gr_rid : string;
  gr_input_ids : list Z;
  gr_stop : StopParams;
  gr_max_new : option Z;
  gr_return_logprob : bool;
  gr_logprob_start_len : Z;
  gr_token_ids_logprob : option (list Z);
  gr_priority : option Z;
  gr_routing_key : option string;
  gr_extra_key : option string;
  gr_cache_salt : option string;
}.

Record IntakeConfig := mkIntake {
  max_new_tokens_limit : option Z;
  i_page_size : Z;
  max_req_len : Z;
  max_req_input_len : Z;
  max_total_num_tokens : Z;
  attn_dcp_size : Z;
  allow_auto_truncate : bool;
  abort_on_priority_when_disabled : bool;
}.

Definition set_origin (b : Req) (ids : list Z) : Req :=
  mkReq ids (output_ids b) (full_untruncated_fill_ids b) (fill_is_origin b) (extend_range b) (req_extra_key b)
    (req_cache_salt b) (req_priority b) (reasoning_tokens b) (prefix_indices b) (last_node b)
    (skip_radix_cache_insert b) (kv b).

(** A request with its output limit and its logprob options. *)
Definition set_logprob (q : QReq) (ret : bool) (start : Z) : QReq :=
  mkQReq (rid q) (sreq q) (routing_key q) (num_matched_prefix_tokens q) ret start.
Definition set_max_new (q : QReq) (n : Z) : QReq :=
  let s := sreq q in
  with_sreq q (mkSReq (obj s) (base s) n (ignore_eos s) (PrefillAdder.priority s) (wait_queue_entry_time s)
    (best_match_node s) (host_hit_length s) (swa_host_hit_length s) (mamba_host_hit_length s)
    (storage_hit_length s) (retracted_stain s) (holds_mamba s) (dllm_incomplete_ids s) (is_finished s)
    (swa_uuid_for_lock s)).
Definition q_origin (q : QReq) : list Z := origin_input_ids (base (sreq q)).
Definition set_q_origin (q : QReq) (ids : list Z) : QReq := with_sreq q (with_base (sreq q) (set_origin (base (sreq q)) ids)).

(** [Req.__init__]; [o] is the new object. *)
Definition new_req (o : nat) (rr : GenerateReq) : QReq :=
  mkQReq (gr_rid rr)
    (mkSReq o
       (mkReq (gr_input_ids rr) [] [] false None (gr_extra_key rr) (gr_cache_salt rr) (gr_priority rr) 0 [] None false kv_empty)
       0 (f_ignore_eos (gr_stop rr)) (default 0 (gr_priority rr)) 0 None 0 0 0 0 false false false false None)
    (gr_routing_key rr) 0 (gr_return_logprob rr) (-1).

Definition paged_input_len (ic : IntakeConfig) (input_len : Z) : Z := - (- input_len / i_page_size ic) * i_page_size ic.

(** The limits of the output, for a prompt of [input_len] tokens: [max_new_tokens], and
    [min_new_tokens], which is brought down to it. *)
Definition init_req_max_new_tokens (ic : IntakeConfig) (requested : option Z) (min_new input_len : Z) : Z * Z :=
  let max_new := default (Z.shiftl 1 30) requested in
  let max_new := match max_new_tokens_limit ic with
                 | Some l => if l >? 0 then Z.min max_new l else max_new
                 | None => max_new
                 end in
  let max_new :=
    Z.max 0 (Z.min max_new
      (Z.min (max_req_len ic - input_len - 1)
             (max_total_num_tokens ic * attn_dcp_size ic - paged_input_len ic input_len - i_page_size ic - 1))) in
  (max_new, if min_new >? max_new then max_new else min_new).

(** The prompt, truncated if allowed; [None] for an error. *)
Definition validate_input_length (ic : IntakeConfig) (ids : list Z) : option (list Z) :=
  if zlen ids >=? max_req_input_len ic then
    if allow_auto_truncate ic then Some (slice_to ids (max_req_input_len ic)) else None
  else Some ids.

(** The request is cut down to one token and finishes after its prefill. *)
Definition set_finish_with_abort (q : QReq) (msg : string) : QReq * option FinishReason :=
  (set_logprob (set_q_origin q [0]) false (-1), Some (FINISH_ABORT msg)).

Section intake.
Context `{RetractSettings} (ic : IntakeConfig).

Definition logprob_start (q : QReq) (rr : GenerateReq) : Z :=
  let start := if negb (gr_return_logprob rr) then -1 else gr_logprob_start_len rr in
  if start =? -1 then
    if gr_return_logprob rr && bool_decide (gr_token_ids_logprob rr = None) then zlen (q_origin q)
    else if (max_new_tokens (sreq q) =? 0) && spec_algo_none then zlen (q_origin q)
    else -1
  else start.

(** The checks: the request for the queue and what ends it early. *)
Definition accept_request (o : nat) (rr : GenerateReq) : QReq * option FinishReason :=
  let q := new_req o rr in
  let q := set_max_new q (init_req_max_new_tokens ic (gr_max_new rr) (f_min_new_tokens (gr_stop rr)) (zlen (q_origin q))).1 in
  match validate_input_length ic (q_origin q) with
  | None => set_finish_with_abort q "input too long"
  | Some ids =>
      let q := set_q_origin q ids in
      let start := logprob_start q rr in
      if start >? zlen (q_origin q) then set_finish_with_abort q "logprob_start_len too high"
      else (set_logprob q (gr_return_logprob rr) start, None)
  end.

(** The attributes the finish conditions use; the lengths are limited by the prompt as it
    came, before it is truncated. *)
Definition new_gen (q : QReq) (rr : GenerateReq) (fin : option FinishReason) : StopParams * GenState :=
  let sp := gr_stop rr in
  let min_new := (init_req_max_new_tokens ic (gr_max_new rr) (f_min_new_tokens sp) (zlen (gr_input_ids rr))).2 in
  (mkStop (max_new_tokens (sreq q)) (stop_strs sp) (stop_regex_strs sp) (stop_str_max_len sp) (stop_regex_max_len sp)
     (stop_token_ids sp) (f_ignore_eos sp) (eos_token_ids sp) (vocab_size sp) (tokenizer sp) min_new,
   mkGen [] "" None fin None None).

Definition set_priority (q : QReq) (n : Z) : QReq :=
  let s := sreq q in
  let b := base s in
  with_sreq q (mkSReq (obj s)
    (mkReq (origin_input_ids b) (output_ids b) (full_untruncated_fill_ids b) (fill_is_origin b) (extend_range b)
       (req_extra_key b) (req_cache_salt b) (Some n) (reasoning_tokens b) (prefix_indices b) (last_node b)
       (skip_radix_cache_insert b) (kv b))
    (max_new_tokens s) (ignore_eos s) n (wait_queue_entry_time s)
    (best_match_node s) (host_hit_length s) (swa_host_hit_length s) (mamba_host_hit_length s)
    (storage_hit_length s) (retracted_stain s) (holds_mamba s) (dllm_incomplete_ids s) (is_finished s)
    (swa_uuid_for_lock s)).

(** [None] when the request is aborted for having a priority. *)
Definition set_or_validate_priority (p : SchedulePolicy) (q : QReq) : option QReq :=
  if enable_priority_scheduling p && bool_decide (req_priority (base (sreq q)) = None)
  then Some (set_priority q (if schedule_low_priority_values_first p then maxsize else - maxsize - 1))
  else if negb (enable_priority_scheduling p) && bool_decide (req_priority (base (sreq q)) ≠ None)
          && abort_on_priority_when_disabled ic
  then None else Some q.

(** A new request on its way into the queue: the queue, the aborts and the attributes. *)
Definition handle_generate_request (cf : SchedConfig) (now : Z) (o : nat) (rr : GenerateReq)
    (st : list QReq * list QReq * gens_t) : res (list QReq * list QReq * gens_t) :=
  let '(queue, aborts, gens) := st in
  let '(q, fin) := accept_request o rr in
  let gens := <[o := new_gen q rr fin]> gens in
  match set_or_validate_priority (s_policy cf) q with
  | None => Ok (queue, aborts ++ [q], gens)
  | Some q =>
      '(queue, aborts) ← add_request_to_queue cf now q (queue, aborts);
      Ok (queue, aborts, gens)
  end.
End intake.

(** ** Aborts *)

Definition abort_matches (abort_all : bool) (prefix : string) (q : QReq) : bool := abort_all || String.prefix prefix (rid q).

(** [req.to_finish = reason] on the object [o]. *)
Definition set_to_finish (reason : FinishReason) (o : nat) (gens : gens_t) : gens_t :=
  alter (λ x, (x.1, mkGen (out_ids x.2) (decoded_text x.2) (finished_reason x.2) (Some reason) (finished_len x.2)
                      (grammar_terminated x.2))) o gens.

(** The queued requests are popped from the back; the unfinished ones of the batches in
    flight get a reason to finish. *)
Definition abort_request (abort_all : bool) (prefix : string) (inflight : list QReq) (st : list QReq * list QReq * gens_t)
    : list QReq * list QReq * gens_t :=
  let '(queue, aborts, gens) := st in
  let hit := abort_matches abort_all prefix in
  (List.filter (λ q, negb (hit q)) queue,
   aborts ++ reverse (List.filter hit queue),
   foldr (set_to_finish (FINISH_ABORT "Aborted")) gens
     (qobj <$> List.filter (λ q, negb (is_finished (sreq q)) && hit q) inflight)).
