(* ===== verification/IntakeTheorems.v ===== *)
(** * What the intake promises

    A request that reaches the queue fits in a row of the table with all the output it
    may produce.  It need not fit in the pool: with large pages a long prompt passes
    the checks and is refused by the admission for ever. *)

From S2P Require Import Prelude PyFloat PySort PrefillDelayer PrefillAdder RadixKey TreeNode Allocator AllocKernels.
From S2P Require Import ReqPool Events RadixCache ReqCache RadixPools SchedulePolicy Allocation KvGroup Finish PrefillLoop BatchResult Retract Intake.
Import PrefillAdder.

Section intake.
Context `{RetractSettings} (ic : IntakeConfig).

Lemma max_new_bounds req m n : 0 ≤ (init_req_max_new_tokens ic req m n).1 ≤ Z.max 0 (max_req_len ic - n - 1).
Proof. unfold init_req_max_new_tokens. cbn [fst]. destruct (max_new_tokens_limit ic) as [l|]; [destruct (l >? 0)|]; lia. Qed.

(** A request that nothing has happened to. *)
Record brand_new (o : nat) (q : QReq) : Prop := {
  bn_obj : qobj q = o;
  bn_out : output_ids (base (sreq q)) = [];
  bn_fill : full_untruncated_fill_ids (base (sreq q)) = [];
  bn_kv : kv (base (sreq q)) = kv_empty;
  bn_reason : reasoning_tokens (base (sreq q)) = 0;
  bn_finished : is_finished (sreq q) = false;
}.

(** The prompt and the output fit in [max_req_len - 1] tokens. *)
Record sized (q : QReq) : Prop := {
  sz_prompt : q_origin q ≠ [];
  sz_new : 0 ≤ max_new_tokens (sreq q);
  sz_len : zlen (q_origin q) + max_new_tokens (sreq q) ≤ max_req_len ic - 1;
}.

Lemma slice_to_ne {A} (l : list A) n : 0 < n → l ≠ [] → slice_to l n ≠ [].
Proof.
  intros Hn Hl E. apply (f_equal zlen) in E. rewrite zlen_slice_to in E by lia. change (zlen (@nil A)) with 0 in E.
  destruct l as [|x l]; [done|]. rewrite zlen_cons in E. pose proof (zlen_nonneg l). lia.
Qed.

Lemma accept_request_spec o rr :
  0 < max_req_input_len ic < max_req_len ic → gr_input_ids rr ≠ [] →
  let '(q, fin) := accept_request ic o rr in brand_new o q ∧ sized q.
Proof.
  intros Hin Hne. unfold accept_request. set (q := new_req o rr). set (q1 := set_max_new q _).
  assert (0 < zlen (q_origin q)) as Hpos.
  { change (q_origin q) with (gr_input_ids rr). destruct (gr_input_ids rr) as [|x l]; [done|]. rewrite zlen_cons. pose proof (zlen_nonneg l). lia. }
  pose proof (max_new_bounds (gr_max_new rr) (f_min_new_tokens (gr_stop rr)) (zlen (q_origin q))) as Hm.
  assert (max_new_tokens (sreq q1) =
    (init_req_max_new_tokens ic (gr_max_new rr) (f_min_new_tokens (gr_stop rr)) (zlen (q_origin q))).1) as Hmax by done.
  assert (0 ≤ max_new_tokens (sreq q1)) as Hnn by lia.
  assert (∀ ids msg, let '(q', _) := set_finish_with_abort (set_q_origin q1 ids) msg in brand_new o q' ∧ sized q') as Habort.
  { intros ids msg. cbn [set_finish_with_abort]. split; [by constructor|]. constructor; [done|exact Hnn|].
    change (zlen (q_origin _)) with 1. change (max_new_tokens (sreq _)) with (max_new_tokens (sreq q1)). lia. }
  unfold validate_input_length. change (q_origin q1) with (q_origin q).
  assert (∀ ids, ids ≠ [] → zlen ids ≤ zlen (q_origin q) → zlen ids ≤ max_req_input_len ic →
    let '(q', fin) := let q := set_q_origin q1 ids in
      let start := logprob_start q rr in
      if start >? zlen (q_origin q) then set_finish_with_abort q "logprob_start_len too high"
      else (set_logprob q (gr_return_logprob rr) start, None) in brand_new o q' ∧ sized q') as Hok.
  { intros ids Hids Hle Hlim. cbv zeta. destruct (_ >? _); [apply Habort|]. split; [by constructor|].
    constructor; [done|exact Hnn|]. change (q_origin _) with ids.
    change (max_new_tokens (sreq _)) with (max_new_tokens (sreq q1)). lia. }
  destruct (Z.geb_spec (zlen (q_origin q)) (max_req_input_len ic)) as [Hge|Hlt]; [|by apply Hok; try lia; intros E; rewrite E in Hpos].
  destruct (allow_auto_truncate ic); [|exact (Habort (q_origin q1) "input too long"%string)].
  apply Hok; [apply slice_to_ne; [lia|intros E; by rewrite E in Hpos]|rewrite zlen_slice_to by lia; lia..].
Qed.

(** The limit is at most what was asked for and what the server allows, and when it is
    not zero the paged prompt, the output and a page stay below the pool. *)
Lemma max_new_limits req m n (x := (init_req_max_new_tokens ic req m n).1) :
  (∀ k, req = Some k → 0 ≤ k → x ≤ k) ∧
  (∀ k, max_new_tokens_limit ic = Some k → 0 < k → x ≤ k) ∧
  (0 < x → paged_input_len ic n + x + i_page_size ic < max_total_num_tokens ic * attn_dcp_size ic).
Proof.
  unfold x, init_req_max_new_tokens. cbn [fst]. split_and!.
  - intros k -> Hk. cbn [from_option id]. destruct (max_new_tokens_limit ic) as [l|]; [destruct (l >? 0)|]; lia.
  - intros k -> Hk. destruct (Z.gtb_spec k 0); lia.
  - lia.
Qed.

Lemma min_new_clipped req m n :
  (init_req_max_new_tokens ic req m n).2 = Z.min m (init_req_max_new_tokens ic req m n).1.
Proof. unfold init_req_max_new_tokens. cbn [fst snd]. set (x := Z.max 0 _). destruct (Z.gtb_spec m x); lia. Qed.

Lemma accept_max_new o rr :
  max_new_tokens (sreq (accept_request ic o rr).1) =
    (init_req_max_new_tokens ic (gr_max_new rr) (f_min_new_tokens (gr_stop rr)) (zlen (gr_input_ids rr))).1.
Proof. unfold accept_request. destruct (validate_input_length ic _) as [ids|]; [destruct (_ >? _)|]; done. Qed.

(** The errors: the prompt is too long and must not be truncated, or the log
    probabilities start behind the (truncated) prompt. *)
Definition intake_error (rr : GenerateReq) : Prop :=
  (max_req_input_len ic ≤ zlen (gr_input_ids rr) ∧ allow_auto_truncate ic = false) ∨
  (gr_return_logprob rr = true ∧ Z.min (zlen (gr_input_ids rr)) (max_req_input_len ic) < gr_logprob_start_len rr).

Lemma logprob_start_late q rr :
  zlen (q_origin q) < logprob_start q rr ↔ gr_return_logprob rr = true ∧ zlen (q_origin q) < gr_logprob_start_len rr.
Proof.
  unfold logprob_start. pose proof (zlen_nonneg (q_origin q)).
  destruct (gr_return_logprob rr); cbn [negb andb].
  - destruct (Z.eqb_spec (gr_logprob_start_len rr) (-1)) as [->|]; [|tauto]. repeat case_match; lia.
  - cbn. split; [|by intros [? _]]. repeat case_match; lia.
Qed.

Lemma accept_errors o rr :
  0 < max_req_input_len ic →
  let '(q, fin) := accept_request ic o rr in
  (fin ≠ None ↔ intake_error rr) ∧ (fin ≠ None → q_origin q = [0] ∧ ∃ msg, fin = Some (FINISH_ABORT msg)) ∧
  (fin = None → q_origin q = slice_to (gr_input_ids rr) (Z.min (zlen (gr_input_ids rr)) (max_req_input_len ic))).
Proof.
  intros Hin. unfold accept_request, intake_error. set (q := set_max_new _ _).
  change (q_origin q) with (gr_input_ids rr). pose proof (zlen_nonneg (gr_input_ids rr)) as Hnn.
  assert (∀ ids, zlen ids = Z.min (zlen (gr_input_ids rr)) (max_req_input_len ic) →
    ids = slice_to (gr_input_ids rr) (Z.min (zlen (gr_input_ids rr)) (max_req_input_len ic)) →
    ¬ (max_req_input_len ic ≤ zlen (gr_input_ids rr) ∧ allow_auto_truncate ic = false) →
    let '(q', fin) := let q := set_q_origin q ids in
      let start := logprob_start q rr in
      if start >? zlen (q_origin q) then set_finish_with_abort q "logprob_start_len too high"
      else (set_logprob q (gr_return_logprob rr) start, None) in
    (fin ≠ None ↔ (max_req_input_len ic ≤ zlen (gr_input_ids rr) ∧ allow_auto_truncate ic = false) ∨
      (gr_return_logprob rr = true ∧ Z.min (zlen (gr_input_ids rr)) (max_req_input_len ic) < gr_logprob_start_len rr)) ∧
    (fin ≠ None → q_origin q' = [0] ∧ ∃ msg, fin = Some (FINISH_ABORT msg)) ∧
    (fin = None → q_origin q' = slice_to (gr_input_ids rr) (Z.min (zlen (gr_input_ids rr)) (max_req_input_len ic)))) as Hok.
  { intros ids Hl E Hno. cbv zeta. pose proof (logprob_start_late (set_q_origin q ids) rr) as Hlate.
    change (q_origin (set_q_origin q ids)) with ids in *. rewrite Hl in Hlate at 2.
    destruct (Z.gtb_spec (logprob_start (set_q_origin q ids) rr) (zlen ids)) as [Hgt|Hle]; cbn [set_finish_with_abort].
    - split; [split; [|done]; intros _; right; by apply Hlate|]. split; [|done]. intros _. split; [done|]. by eexists.
    - split; [|by split; [|intros _]]. split; [done|]. intros [?|Hx%Hlate]; [done|lia]. }
  unfold validate_input_length. destruct (Z.geb_spec (zlen (gr_input_ids rr)) (max_req_input_len ic)) as [Hge|Hlt].
  - destruct (allow_auto_truncate ic) eqn:Ht.
    + apply Hok; [rewrite zlen_slice_to by lia; lia|by rewrite Z.min_r by lia|by intros [_ ?]].
    + cbn [set_finish_with_abort]. split; [split; [|done]; by left|]. split; [|done]. intros _. split; [done|]. by eexists.
  - apply Hok; [lia| |lia]. rewrite Z.min_l, slice_to_take by lia. unfold zlen. by rewrite Nat2Z.id, firstn_all.
Qed.
End intake.
