(* ===== verification/EventLoop.v ===== *)
(** * The event loop of the scheduler

    [Scheduler.event_loop_normal] of [managers/scheduler.py] with
    [process_input_requests], [get_next_batch_to_run], [process_batch_result],
    [on_idle] and the memory checks: the loop that receives requests, chooses a
    prefill or a decode batch, runs it and processes its results.  It composes the
    models of the other files; the tokens the model samples, the messages of the
    tokenizer and the clock are the environment of a turn.

    The same server as in [PrefillLoop]: a radix cache over a full-attention pool;
    adapters, beams, grammars, disaggregation, pipeline and data parallelism, diffusion
    models, mixed batches, sessions, hisparse and overlap are off. *)

From S2P Require Import Prelude PyFloat PySort PrefillDelayer PrefillAdder RadixKey TreeNode Allocator AllocKernels.
From S2P Require Import ReqPool Events RadixCache ReqCache RadixPools SchedulePolicy Allocation Retract KvGroup Finish PrefillLoop BatchResult LeakCheck Intake.
Import PrefillAdder.

(** ** Batches *)

(** The fields of [ScheduleBatch] the loop uses. *)
Record ScheduleBatch := mkBatch {
  b_reqs : list QReq;
  b_rows : list Z;
  b_lens : list Z;
  b_prefill_only : bool;
  b_full : bool;
  b_chunked : option nat;
}.

Definition set_b_reqs (b : ScheduleBatch) reqs :=
  mkBatch reqs (b_rows b) (b_lens b) (b_prefill_only b) (b_full b) (b_chunked b).
Definition set_b_full (b : ScheduleBatch) full :=
  mkBatch (b_reqs b) (b_rows b) (b_lens b) (b_prefill_only b) full (b_chunked b).
Definition is_empty (b : ScheduleBatch) : bool := zlen (b_reqs b) =? 0.

(** The tensors stay as they are when no request is left. *)
Definition filter_keep (keep : list nat) (b : ScheduleBatch) : res ScheduleBatch :=
  if zlen keep =? 0 then Ok (set_b_reqs b [])
  else if zlen keep =? zlen (b_reqs b) then Ok b
  else
    reqs ← pick (b_reqs b) keep;
    rows ← pick (b_rows b) keep;
    lens ← pick (b_lens b) keep;
    Ok (mkBatch reqs rows lens (b_prefill_only b) (b_full b) (b_chunked b)).

(** [filter_batch(chunked_req_to_exclude=...)] *)
Definition filter_exclude (exclude : list nat) (b : ScheduleBatch) : res ScheduleBatch :=
  filter_keep (filter (λ x : nat * QReq, is_finished (sreq x.2) = false ∧ qobj x.2 ∉ exclude) (imap pair (b_reqs b))).*1 b.

Definition merge_batch (a b : ScheduleBatch) : ScheduleBatch :=
  mkBatch (b_reqs a ++ b_reqs b) (b_rows a ++ b_rows b) (b_lens a ++ b_lens b) (b_prefill_only a && b_prefill_only b)
    (b_full a) (b_chunked a).

(** [self.last_batch]: after a decode step it is the object [self.running_batch]. *)
Inductive LastBatch :=
| NoBatch
| RunningBatch
| PrefillBatch (b : ScheduleBatch).

(** ** The scheduler *)

Record LoopConfig := mkLoopConfig {
  lc_sched : SchedConfig;
  lc_intake : IntakeConfig;
  lc_spec : SpecConfig;
  prefill_decode_interval : Z;
  test_retract : option Z;
  req_waiting_timeout : Z;
  req_running_timeout : Z;
  strict_mem_check_busy : bool;
  check_kv_pages : bool;
  strict_mem_check_idle : bool;
}.

(** The fields [running] and [batch_is_full] of [l_sched] are those of
    [self.running_batch], [l_rows], [l_lens] and [l_prefill_only] its other fields;
    [l_outputs] are the requests whose end was streamed ([finished_output]), and
    [l_next] is the next object. *)
Record Loop := mkLoop {
  l_sched : Scheduler;
  l_rows : list Z;
  l_lens : list Z;
  l_prefill_only : bool;
  l_last : LastBatch;
  l_gens : gens_t;
  l_ratio : NewTokenRatioTracker.t;
  l_interval : Z;
  l_forward_ct : Z;
  l_delay : option (PrefillDelayer * Tracker.Tracker);
  l_pending_abort : option nat;
  l_outputs : list QReq;
  l_next : nat;
}.

(** The messages of the model; the others of the request dispatcher (flushing the cache,
    pausing, weights, profiling and the like) are left out. *)
Inductive Message :=
| Generate (rr : GenerateReq)
| AbortReq (abort_all : bool) (prefix : string).

(** What a turn meets: the messages, the clock, the orders of Python's sets, the pool
    usage the delayer is told, the time at which every running object first ran, and
    the forward pass, which gives every request of a batch its token. *)
Record TurnEnv := mkTurnEnv {
  te_recv : list Message;
  te_now : Z;
  te_shuffle : list QReq → list QReq;
  te_order : list QReq → list QReq;
  te_usage : Q;
  te_env : Env;
  te_collector : bool;
  te_debug : bool;
  te_entry : nat → Z;
  te_forward : list QReq → list Z;
}.

Definition set_l_sched (l : Loop) s :=
  mkLoop s (l_rows l) (l_lens l) (l_prefill_only l) (l_last l) (l_gens l) (l_ratio l) (l_interval l) (l_forward_ct l)
    (l_delay l) (l_pending_abort l) (l_outputs l) (l_next l).
Definition set_l_last (l : Loop) x :=
  mkLoop (l_sched l) (l_rows l) (l_lens l) (l_prefill_only l) x (l_gens l) (l_ratio l) (l_interval l) (l_forward_ct l)
    (l_delay l) (l_pending_abort l) (l_outputs l) (l_next l).
Definition set_l_gens (l : Loop) x :=
  mkLoop (l_sched l) (l_rows l) (l_lens l) (l_prefill_only l) (l_last l) x (l_ratio l) (l_interval l) (l_forward_ct l)
    (l_delay l) (l_pending_abort l) (l_outputs l) (l_next l).
Definition set_l_ratio (l : Loop) x :=
  mkLoop (l_sched l) (l_rows l) (l_lens l) (l_prefill_only l) (l_last l) (l_gens l) x (l_interval l) (l_forward_ct l)
    (l_delay l) (l_pending_abort l) (l_outputs l) (l_next l).
Definition set_l_interval (l : Loop) x :=
  mkLoop (l_sched l) (l_rows l) (l_lens l) (l_prefill_only l) (l_last l) (l_gens l) (l_ratio l) x (l_forward_ct l)
    (l_delay l) (l_pending_abort l) (l_outputs l) (l_next l).
Definition set_l_forward (l : Loop) x :=
  mkLoop (l_sched l) (l_rows l) (l_lens l) (l_prefill_only l) (l_last l) (l_gens l) (l_ratio l) (l_interval l) x
    (l_delay l) (l_pending_abort l) (l_outputs l) (l_next l).
Definition set_l_delay (l : Loop) x :=
  mkLoop (l_sched l) (l_rows l) (l_lens l) (l_prefill_only l) (l_last l) (l_gens l) (l_ratio l) (l_interval l) (l_forward_ct l)
    x (l_pending_abort l) (l_outputs l) (l_next l).
Definition set_l_pending (l : Loop) x :=
  mkLoop (l_sched l) (l_rows l) (l_lens l) (l_prefill_only l) (l_last l) (l_gens l) (l_ratio l) (l_interval l) (l_forward_ct l)
    (l_delay l) x (l_outputs l) (l_next l).
Definition set_l_next (l : Loop) x :=
  mkLoop (l_sched l) (l_rows l) (l_lens l) (l_prefill_only l) (l_last l) (l_gens l) (l_ratio l) (l_interval l) (l_forward_ct l)
    (l_delay l) (l_pending_abort l) (l_outputs l) x.

Definition set_l_outputs (l : Loop) x :=
  mkLoop (l_sched l) (l_rows l) (l_lens l) (l_prefill_only l) (l_last l) (l_gens l) (l_ratio l) (l_interval l) (l_forward_ct l)
    (l_delay l) (l_pending_abort l) x (l_next l).

Definition set_queue (s : Scheduler) queue aborts : Scheduler :=
  mkScheduler queue (chunked_req s) (running s) (batch_is_full s) (s_pools s) (waiting_tree s)
    (inflight_middle_chunks s) aborts (s_ratio s) (s_max_prefill_bs s).
Definition set_running (s : Scheduler) reqs full : Scheduler :=
  mkScheduler (waiting_queue s) (chunked_req s) reqs full (s_pools s) (waiting_tree s)
    (inflight_middle_chunks s) (s_aborts s) (s_ratio s) (s_max_prefill_bs s).
Definition set_pools (s : Scheduler) pools : Scheduler :=
  mkScheduler (waiting_queue s) (chunked_req s) (running s) (batch_is_full s) pools (waiting_tree s)
    (inflight_middle_chunks s) (s_aborts s) (s_ratio s) (s_max_prefill_bs s).
Definition set_chunked (s : Scheduler) q : Scheduler :=
  mkScheduler (waiting_queue s) q (running s) (batch_is_full s) (s_pools s) (waiting_tree s)
    (inflight_middle_chunks s) (s_aborts s) (s_ratio s) (s_max_prefill_bs s).
Definition set_inflight (s : Scheduler) m : Scheduler :=
  mkScheduler (waiting_queue s) (chunked_req s) (running s) (batch_is_full s) (s_pools s) (waiting_tree s)
    m (s_aborts s) (s_ratio s) (s_max_prefill_bs s).
Definition set_ratio (s : Scheduler) q : Scheduler :=
  mkScheduler (waiting_queue s) (chunked_req s) (running s) (batch_is_full s) (s_pools s) (waiting_tree s)
    (inflight_middle_chunks s) (s_aborts s) q (s_max_prefill_bs s).

Definition running_batch (l : Loop) : ScheduleBatch :=
  mkBatch (running (l_sched l)) (l_rows l) (l_lens l) (l_prefill_only l) (batch_is_full (l_sched l)) None.
Definition set_running_batch (l : Loop) (b : ScheduleBatch) : Loop :=
  mkLoop (set_running (l_sched l) (b_reqs b) (b_full b)) (b_rows b) (b_lens b) (b_prefill_only b) (l_last l) (l_gens l)
    (l_ratio l) (l_interval l) (l_forward_ct l) (l_delay l) (l_pending_abort l) (l_outputs l) (l_next l).

Definition last_reqs (l : Loop) : list QReq :=
  match l_last l with NoBatch => [] | RunningBatch => running (l_sched l) | PrefillBatch b => b_reqs b end.

(** The requests of [qs] that the objects [ss] are, in their order. *)
Definition objects_of (qs : list QReq) (ss : list SReq) : list QReq :=
  omap (λ s, (λ q, with_sreq q s) <$> List.find (λ q, (qobj q =? obj s)%nat) qs) ss.

Definition as_decode (b : ScheduleBatch) : DecodeBatch := mkDecode (sreq <$> b_reqs b) (b_rows b) (b_lens b).

Section loop.
Context `{TextOps} `{Settings} `{RetractSettings} `{Clock} `{SetOrder} `{HashOps} `{KVAllocator} `{KVFree} `{KVGroup}.
Context `{PolicySettings} `{BatchAllocator} `{RetractionPolicy}.
Context (d : Device) (lc : LoopConfig).

(** ** Messages *)

Definition abort_message (abort_all : bool) (prefix : string) (l : Loop) : Loop :=
  let s := l_sched l in
  let pending := match chunked_req s with
                 | Some q => if abort_matches abort_all prefix q then Some (qobj q) else l_pending_abort l
                 | None => l_pending_abort l
                 end in
  let '(queue, aborts, gens) :=
    abort_request abort_all prefix (running s ++ last_reqs l) (waiting_queue s, s_aborts s, l_gens l) in
  set_l_pending (set_l_gens (set_l_sched l (set_queue s queue aborts)) gens) pending.

Definition process_message (now : Z) (l : Loop) (m : Message) : res Loop :=
  match m with
  | Generate rr =>
      let s := l_sched l in
      '(queue, aborts, gens) ←
        handle_generate_request (lc_intake lc) (lc_sched lc) now (l_next l) rr (waiting_queue s, s_aborts s, l_gens l);
      Ok (set_l_next (set_l_gens (set_l_sched l (set_queue s queue aborts)) gens) (S (l_next l)))
  | AbortReq abort_all prefix => Ok (abort_message abort_all prefix l)
  end.

Definition process_input_requests (now : Z) (ms : list Message) (l : Loop) : res Loop :=
  for_each (λ m l, process_message now l m) ms l.

(** ** The next batch *)

(** The abort of a request that is past its chunked prefill. *)
Definition retry_abort (o : nat) (l : Loop) : Loop :=
  match List.find (λ q, (qobj q =? o)%nat) (running (l_sched l) ++ last_reqs l) with
  | Some q => if is_finished (sreq q) || negb (holds_kv (kv (base (sreq q)))) then l else abort_message false (rid q) l
  | None => l
  end.

(** The chunked request whose abort waited for the end of its chunk.  A request that is
    neither running nor in the last batch holds no memory. *)
Definition process_pending_chunked_abort (l : Loop) : res Loop :=
  let s := l_sched l in
  match l_pending_abort l with
  | None => Ok l
  | Some o =>
      let l := set_l_pending l None in
      match chunked_req s with
      | Some q =>
          if (qobj q =? o)%nat then
            '(_, p, c) ← release_kv_cache spec_algo_none strip_thinking_cache (base (sreq q)) false (s_pools s).2 (s_pools s).1;
            Ok (set_l_sched l (set_queue (set_chunked (set_pools s (c, p)) None) (waiting_queue s) (s_aborts s ++ [q])))
          else Ok (retry_abort o l)
      | None => Ok (retry_abort o l)
      end
  end.

Definition abort_on_waiting_timeout (now : Z) (s : Scheduler) : Scheduler :=
  if req_waiting_timeout lc <=? 0 then s
  else
    let deadline := now - req_waiting_timeout lc in
    let late := λ q, (0 <? wait_queue_entry_time (sreq q)) && (wait_queue_entry_time (sreq q) <? deadline) in
    set_queue s (List.filter (λ q, negb (late q)) (waiting_queue s)) (s_aborts s ++ List.filter late (waiting_queue s)).

Definition abort_on_running_timeout (now : Z) (entry : nat → Z) (reqs : list QReq) (gens : gens_t) : gens_t :=
  if req_running_timeout lc <=? 0 then gens
  else
    let deadline := now - req_running_timeout lc in
    foldr (set_to_finish (FINISH_ABORT "Request running timeout reached.")) gens
      (qobj <$> List.filter (λ q, negb (is_finished (sreq q)) && (0 <? entry (qobj q)) && (entry (qobj q) <? deadline)) reqs).

(** The previous chunk of the chunked request goes into the tree. *)
Definition stash_chunked_request (s : Scheduler) : res Scheduler :=
  match chunked_req s with
  | None => Ok s
  | Some q =>
      match extend_range (base (sreq q)) with
      | None => Err AttributeError
      | Some (_, e) =>
          if e >? zlen (prefix_indices (base (sreq q))) then
            '(b, p, c) ← maybe_cache_unfinished_req (base (sreq q)) true (s_pools s).2 (s_pools s).1;
            Ok (set_chunked (set_pools s (c, p)) (Some (with_sreq q (with_base (sreq q) b))))
          else Ok s
      end
  end.

(** The last prefill batch joins the running batch. *)
Definition merge_last (l : Loop) : res Loop :=
  match l_last l with
  | PrefillBatch b =>
      b' ← filter_exclude (option_list (qobj <$> chunked_req (l_sched l)) ++ option_list (b_chunked b)) b;
      let r := running_batch l in
      let r := if zlen (b_reqs b') <? zlen (b_reqs b) then set_b_full r false else r in
      if is_empty b' then Ok (set_l_last (set_running_batch l r) (PrefillBatch b'))
      else if is_empty r then Ok (set_l_last (set_running_batch l b') RunningBatch)
      else Ok (set_l_last (set_running_batch l (merge_batch r b')) (PrefillBatch b'))
  | _ => Ok l
  end.

Definition drop_prefill_only (l : Loop) : res Loop :=
  if l_prefill_only l then
    r ← filter_exclude [] (running_batch l);
    Ok (set_running_batch l
      (if is_empty r then mkBatch (b_reqs r) (b_rows r) (b_lens r) false false (b_chunked r) else r))
  else Ok l.

Definition should_defer_prefill (l : Loop) : bool * Loop :=
  if l_interval l =? 0 then (false, l) else (true, set_l_interval l (l_interval l - 1)).

(** The tensors [prepare_for_extend] makes: the rows [ReqToTokenPool.alloc] returned,
    which it also stored in the requests, and the ends of the ranges. *)
Definition new_batch (nb : NewBatch) : ScheduleBatch :=
  mkBatch (nb_reqs nb)
    ((λ q, default 0 (req_pool_idx (kv (base (sreq q))))) <$> nb_reqs nb)
    ((λ q, from_option snd 0 (extend_range (base (sreq q)))) <$> nb_reqs nb)
    (forallb (λ q, (max_new_tokens (sreq q) =? 0) && spec_algo_none) (nb_reqs nb))
    false (nb_chunked nb).

Definition kept_indices (kept reqs : list QReq) : list nat :=
  (filter (λ x : nat * QReq, is_in (sreq <$> kept) x.2 = true) (imap pair reqs)).*1.

(** A prefill pass; preemption filters the running batch. *)
Definition prefill_pass (te : TurnEnv) (l : Loop) : res (option ScheduleBatch * Loop) :=
  let s := set_ratio (l_sched l) (NewTokenRatioTracker.current (l_ratio l)) in
  '(nb, delay, s') ← get_new_batch_prefill d (lc_sched lc) (te_shuffle te) (te_order te) (te_now te) (l_delay l)
                       (te_usage te) (te_env te) (te_collector te) (te_debug te) s;
  r ← filter_keep (kept_indices (running s') (running s)) (running_batch l);
  Ok (match nb with Some nb => Some (new_batch nb) | None => None end,
      set_l_delay (set_l_sched (set_running_batch l r) s') delay).

Definition decode_step (te : TurnEnv) (l : Loop) : res (bool * Loop) :=
  let s := l_sched l in
  let b := running_batch l in
  if is_empty b || b_prefill_only b then Ok (false, l)
  else
    let force := match test_retract lc with Some n => l_forward_ct l mod n =? 0 | None => false end in
    t ← update_running_batch (lc_spec lc) d force (batch_is_full s) (l_ratio l) (as_decode b) (s_pools s);
    let qs := running s in
    '(queue, aborts) ← for_each (add_request_to_queue (lc_sched lc) (te_now te)) (objects_of qs (t_retracted t))
                         (waiting_queue s, s_aborts s ++ objects_of qs (t_aborted t));
    let b := mkBatch (objects_of qs (d_reqs (t_batch t))) (d_req_pool_indices (t_batch t)) (d_seq_lens (t_batch t))
               (b_prefill_only b) (t_batch_is_full t) None in
    let l := set_l_ratio (set_running_batch (set_l_sched l (set_queue (set_pools s (t_pools t)) queue aborts)) b) (t_ratio t) in
    Ok (negb (is_empty b), l).

(** The batch to run: a prefill batch, or the running batch for a decode step. *)
Definition get_next_batch_to_run (te : TurnEnv) (l : Loop) : res (LastBatch * Loop) :=
  l ← process_pending_chunked_abort l;
  let l := set_l_sched l (abort_on_waiting_timeout (te_now te) (l_sched l)) in
  let l := set_l_gens l (abort_on_running_timeout (te_now te) (te_entry te) (running (l_sched l)) (l_gens l)) in
  s ← stash_chunked_request (l_sched l);
  l ← merge_last (set_l_sched l s);
  l ← drop_prefill_only l;
  let '(defer, l) := should_defer_prefill l in
  '(nb, l) ← (if (defer : bool) then Ok (None, l) else prefill_pass te l);
  match nb with
  | Some b =>
      Ok (PrefillBatch b, if prefill_decode_interval lc =? 0 then l else set_l_interval l (prefill_decode_interval lc))
  | None => '(run, l) ← decode_step te l; Ok (if (run : bool) then RunningBatch else NoBatch, l)
  end.

(** ** The results *)

Definition result_state (l : Loop) : ResultState :=
  mkRS (l_gens l) (inflight_middle_chunks (l_sched l)) (s_pools (l_sched l)).
Definition set_result (l : Loop) (st : ResultState) : Loop :=
  set_l_gens (set_l_sched l (set_inflight (set_pools (l_sched l) (rs_pools st)) (rs_inflight st))) (rs_gens st).

(** The requests whose end [output_streamer.stream_output] sends. *)
Definition stream_output (skip : list nat) (reqs outputs : list QReq) : list QReq :=
  outputs ++ List.filter (λ q, is_finished (sreq q) && bool_decide (qobj q ∉ skip) && bool_decide (qobj q ∉ qobj <$> outputs)) reqs.

(** [skip_stream_req]: the request whose chunk was not the last. *)
Definition unfinished_chunks (m : gmap nat Z) (reqs : list QReq) : list nat :=
  qobj <$> List.filter (λ q, default 0 (m !! qobj q) >? 0) reqs.

Definition process_batch_result (te : TurnEnv) (b : LastBatch) (l : Loop) : res (LastBatch * Loop) :=
  match b with
  | NoBatch => Ok (NoBatch, l)
  | PrefillBatch b =>
      let skip := unfinished_chunks (inflight_middle_chunks (l_sched l)) (b_reqs b) in
      '(rs, st) ← process_batch_result_prefill (sreq <$> b_reqs b) (te_forward te (b_reqs b)) (result_state l);
      let reqs := zip_with with_sreq (b_reqs b) rs in
      Ok (PrefillBatch (set_b_reqs b reqs), set_l_outputs (set_result l st) (stream_output skip reqs (l_outputs l)))
  | RunningBatch =>
      let qs := running (l_sched l) in
      '(rs, st) ← process_batch_result_decode (sreq <$> qs) (te_forward te qs) (result_state l);
      let reqs := zip_with with_sreq qs rs in
      let l := set_l_outputs (set_result l st) (stream_output [] reqs (l_outputs l)) in
      Ok (RunningBatch, set_l_sched l (set_running (l_sched l) reqs (batch_is_full (l_sched l))))
  end.

(** ** The loop *)

Definition is_fully_idle (l : Loop) : bool :=
  let s := l_sched l in
  (zlen (running s) =? 0) && bool_decide (chunked_req s = None) && (zlen (last_reqs l) =? 0) && (zlen (waiting_queue s) =? 0).

Definition on_idle (l : Loop) : res Loop :=
  if negb (is_fully_idle l) then Ok l
  else
    _ ← check_on_idle (strict_mem_check_idle lc) (max_total_num_tokens (lc_intake lc)) (s_pools (l_sched l));
    Ok (set_l_ratio l (NewTokenRatioTracker.reset (l_ratio l))).

(** The batches in flight: the running one counts when it is another object than the
    last one. *)
Definition busy_check (l : Loop) : res unit :=
  let reqs := sreq <$> running (l_sched l) in
  let '(last, other) := match l_last l with
                        | NoBatch => (None, None)
                        | RunningBatch => (Some reqs, None)
                        | PrefillBatch b => (Some (sreq <$> b_reqs b), Some reqs)
                        end in
  self_check_during_busy (strict_mem_check_idle lc) (check_kv_pages lc) (s_page_size (lc_sched lc))
    (max_total_num_tokens (lc_intake lc)) last other (s_pools (l_sched l)).

Definition loop_turn (te : TurnEnv) (l : Loop) : res Loop :=
  l ← process_input_requests (te_now te) (te_recv te) l;
  '(b, l) ← get_next_batch_to_run te l;
  l ← (match b with
       | NoBatch => l ← on_idle l; Ok (set_l_last l NoBatch)
       | _ => '(b, l) ← process_batch_result te b (set_l_forward l (l_forward_ct l + 1)); Ok (set_l_last l b)
       end);
  _ ← (if strict_mem_check_busy lc then busy_check l else Ok tt);
  Ok l.

Definition event_loop (tes : list TurnEnv) (l : Loop) : res Loop := for_each loop_turn tes l.
End loop.
