(* ===== verification/LoopSeats.v ===== *)
(** * Who sits where in a batch

    A batch lists its requests with their rows and lengths.  Filtering, merging and the
    results of a step keep the three lists together: its unfinished requests are the
    owners [gs] of memory, its finished ones hold none. *)

From S2P Require Import Prelude PyFloat PySort PrefillDelayer Allocator AllocKernels RadixKey PrefixTree TreeNode ReqPool Events.
From S2P Require Import RadixCache RadixInv ReqCache PrefillAdder RadixPools SchedulePolicy Allocation BatchAlloc RunningBatch Retract RetractTheorems DecodeAlloc DecodeTheorems.
From S2P Require Import Finish PrefillLoop BatchResult ResultLoop LeakCheck LeakTheorems Intake EventLoop.
Import PrefillAdder.

(** ** Masks *)

(** The entries of a parallel list at the positions the filter keeps. *)
Lemma sel_mask {A B} (P : A → Prop) `{∀ x, Decision (P x)} (xs : list A) (ys : list B) :
  length ys = length xs →
  sel ys (filter (λ x : nat * A, P x.2) (imap pair xs)).*1 = (filter (λ z : A * B, P z.1) (zip xs ys)).*2.
Proof.
  intros Hl.
  enough (∀ k pre, length pre = k → sel (pre ++ ys) (filter (λ x : nat * A, P x.2) (imap (λ i, pair (k + i)%nat) xs)).*1 =
    (filter (λ z : A * B, P z.1) (zip xs ys)).*2) as Hk by (apply (Hk 0%nat []); done).
  revert ys Hl. induction xs as [|x xs IH]; intros [|y ys] Hl k pre Hp; try done.
  cbn [imap zip zip_with]. rewrite !filter_cons. cbn [snd fst]. rewrite Nat.add_0_r.
  assert (imap ((λ i, pair (k + i)%nat) ∘ S) xs = imap (λ i, pair (S k + i)%nat) xs) as ->.
  { apply imap_ext. intros i z _. cbn. f_equal. lia. }
  replace (pre ++ y :: ys) with ((pre ++ [y]) ++ ys) by (by rewrite <-app_assoc).
  specialize (IH ys ltac:(by injection Hl) (S k) (pre ++ [y]) ltac:(rewrite length_app; cbn; lia)).
  assert (((pre ++ [y]) ++ ys) !! k = Some y) as Hy by (by rewrite <-app_assoc; apply list_lookup_middle).
  destruct (decide (P x)); [|done]. rewrite !fmap_cons. unfold sel in *. cbn [omap list_omap fst snd]. rewrite Hy. by rewrite IH.
Qed.

Lemma mask_valid {A} (P : A → Prop) `{∀ x, Decision (P x)} (xs : list A) :
  (filter (λ x : nat * A, P x.2) (imap pair xs)).*1 `sublist_of` seq 0 (length xs).
Proof. rewrite <-(imap_fst xs). apply fmap_sublist, sublist_filter. Qed.

Lemma sublist_valid (l : list nat) n : l `sublist_of` seq 0 n → Forall (λ i, (i < n)%nat) l.
Proof. intros Hl. apply Forall_forall. intros i Hi. eapply elem_of_sublist in Hi; [|exact Hl]. apply elem_of_seq in Hi. lia. Qed.

(** A list and what a mask keeps of it. *)
Lemma mask_self {A} (P : A → Prop) `{∀ x, Decision (P x)} (xs : list A) :
  sel xs (filter (λ x : nat * A, P x.2) (imap pair xs)).*1 = filter P xs.
Proof.
  rewrite sel_mask by done. induction xs as [|x xs IH]; [done|]. cbn [zip zip_with]. rewrite !filter_cons. cbn [fst].
  destruct (decide (P x)); cbn; by rewrite IH.
Qed.

(** ** Seats *)

Definition seat (g : greq) : SReq * (Z * Z) := (g_req g, (g_idx g, kv_committed_len (g_kv g))).
Definition seats (b : ScheduleBatch) : list (SReq * (Z * Z)) := zip (sreq <$> b_reqs b) (zip (b_rows b) (b_lens b)).

Record seated (b : ScheduleBatch) (gs : list greq) : Prop := {
  se_rows : length (b_rows b) = length (b_reqs b);
  se_lens : length (b_lens b) = length (b_reqs b);
  se_live : filter (λ x : SReq * (Z * Z), is_finished x.1 = false) (seats b) = seat <$> gs;
  se_done : Forall (λ q, is_finished (sreq q) = true → holds_kv (kv (base (sreq q))) = false) (b_reqs b);
}.

(** An empty batch may keep its old tensors. *)
Definition seating (b : ScheduleBatch) (gs : list greq) : Prop := b_reqs b = [] ∧ gs = [] ∨ seated b gs.

Lemma seats_reqs b gs : seated b gs → (seats b).*1 = sreq <$> b_reqs b ∧ (seats b).*2 = zip (b_rows b) (b_lens b).
Proof.
  intros [E1 E2 _ _]. unfold seats. rewrite fst_zip, snd_zip; [done|..]; rewrite length_fmap, length_zip; lia.
Qed.

(** The live requests of a batch. *)
Lemma seating_reqs b gs : seating b gs → filter (λ s, is_finished s = false) (sreq <$> b_reqs b) = g_req <$> gs.
Proof.
  intros [[-> ->]|Hs]; [done|]. destruct (seats_reqs b gs Hs) as [<- _]. pose proof (se_live _ _ Hs) as E.
  apply (f_equal (fmap fst)) in E. rewrite <-list_fmap_compose in E. etrans; [|exact E]. clear. induction (seats b) as [|x l IH]; [done|].
  rewrite fmap_cons, !filter_cons. destruct (decide _); cbn; by rewrite IH.
Qed.

Lemma seating_nil b gs : seating b gs → b_reqs b = [] → gs = [].
Proof. intros Hs E. apply seating_reqs in Hs. rewrite E in Hs. cbn in Hs. symmetry in Hs. by apply fmap_nil_inv in Hs. Qed.

Lemma seated_live b gs : seated b gs → live_batch (as_decode b) gs.
Proof.
  intros Hs. pose proof Hs as [E1 E2 E3 E4]. destruct (seats_reqs b gs Hs) as [F1 F2].
  assert (∀ {B} (ys : list B) (f : Z * Z → B), f <$> zip (b_rows b) (b_lens b) = ys →
    sel ys (unfinished_indices (sreq <$> b_reqs b)) = (f ∘ snd) <$> (seat <$> gs)) as Hsel.
  { intros B ys f <-. unfold unfinished_indices. 
    pose proof (sel_mask (λ s : SReq, is_finished s = false) (sreq <$> b_reqs b) (f <$> zip (b_rows b) (b_lens b))) as Hm.
    etrans; [apply Hm; rewrite length_fmap, length_zip, length_fmap; lia|]. clear Hm.
    rewrite <-E3, <-F1, <-F2. clear. induction (seats b) as [|[s x] l IH]; [done|]. rewrite !fmap_cons. cbn [zip zip_with fst snd].
    rewrite !filter_cons. cbn [fst]. destruct (decide _); [rewrite !fmap_cons; cbn; by f_equal|done]. }
  constructor; cbn [as_decode d_reqs d_req_pool_indices d_seq_lens]; rewrite ?length_fmap; try done.
  - pose proof (mask_self (λ s : SReq, is_finished s = false) (sreq <$> b_reqs b)) as Hm. etrans; [exact Hm|]. apply seating_reqs. by right.
  - rewrite (Hsel _ _ fst), <-list_fmap_compose; [done|]. apply fst_zip. lia.
  - rewrite (Hsel _ _ snd), <-list_fmap_compose; [done|]. apply snd_zip. lia.
Qed.

(** Everybody in the batch is alive. *)
Lemma seated_all b gs :
  sreq <$> b_reqs b = g_req <$> gs → b_rows b = g_idx <$> gs → b_lens b = (λ g, kv_committed_len (g_kv g)) <$> gs →
  Forall (λ g, is_finished (g_req g) = false) gs → seated b gs.
Proof.
  intros E1 E2 E3 Hf. pose proof (f_equal length E1) as El. rewrite !length_fmap in El.
  constructor; rewrite ?E2, ?E3, ?length_fmap; try done.
  - unfold seats. rewrite E1, E2, E3. clear -Hf. induction Hf as [|g gs Hg _ IH]; [done|]. cbn [fmap list_fmap zip zip_with].
    rewrite filter_cons, decide_True by exact Hg. by rewrite IH.
  - apply Forall_forall. intros q Hq Hfin. assert (sreq q ∈ sreq <$> b_reqs b) as Hin by (by apply list_elem_of_fmap_2).
    rewrite E1 in Hin. apply list_elem_of_fmap in Hin as (g & Eg & Hg). eapply Forall_forall in Hf; [|exact Hg]. rewrite Eg in Hfin. by rewrite Hf in Hfin.
Qed.

Lemma seated_merge a b gs hs : seated a gs → seated b hs → seated (merge_batch a b) (gs ++ hs).
Proof.
  intros [A1 A2 A3 A4] [B1 B2 B3 B4]. constructor; cbn [merge_batch b_reqs b_rows b_lens].
  - rewrite !length_app. lia.
  - rewrite !length_app. lia.
  - unfold seats in *. cbn [merge_batch b_reqs b_rows b_lens]. rewrite fmap_app.
    rewrite (zip_with_app pair (b_rows a)) by lia. rewrite zip_with_app by (rewrite length_fmap, length_zip; lia).
    by rewrite filter_app, A3, B3, fmap_app.
  - by apply Forall_app.
Qed.

(** What a batch holds. *)
Lemma seating_holding `{Clock} `{SetOrder} `{HashLaws} `{KVAllocator} `{KVFree} `{RetractSettings} `{Census} c A p b gs :
  seating b gs → Forall (runs c A p) gs → holding (sreq <$> b_reqs b) gs.
Proof.
  intros Hs Hr. pose proof (seating_reqs b gs Hs) as E. unfold holding. rewrite <-E.
  assert (Forall (λ s, holds_kv (kv (base s)) = negb (is_finished s)) (sreq <$> b_reqs b)) as Hall.
  { apply Forall_forall. intros s Hin. destruct (is_finished s) eqn:Hf; cbn [negb].
    - destruct Hs as [[Eq _]|[_ _ _ Hd]]; [rewrite Eq in Hin; by apply not_elem_of_nil in Hin|].
      apply list_elem_of_fmap in Hin as (q & -> & Hq). by eapply Forall_forall in Hd; [apply Hd|].
    - assert (s ∈ g_req <$> gs) as Hg by (rewrite <-E; by apply list_elem_of_filter).
      apply list_elem_of_fmap in Hg as (g & -> & Hg). eapply Forall_forall in Hr; [|exact Hg].
      apply bool_decide_eq_true. fold (g_kv g). rewrite (ru_idx _ _ _ _ Hr). by eexists. }
  clear -Hall. induction Hall as [|s l Hs _ IH]; [done|]. cbn [List.filter]. rewrite Hs, filter_cons.
  destruct (is_finished s); cbn [negb]; [by rewrite decide_False by done|]. rewrite decide_True by done. by rewrite IH.
Qed.

(** ** Filtering *)

Lemma exclude_nobody (reqs : list QReq) :
  (filter (λ x : nat * QReq, is_finished (sreq x.2) = false ∧ qobj x.2 ∉ []) (imap pair reqs)).*1 = unfinished_indices (sreq <$> reqs).
Proof.
  unfold unfinished_indices. rewrite imap_fmap.
  enough (∀ f : nat → nat, (filter (λ x : nat * QReq, is_finished (sreq x.2) = false ∧ qobj x.2 ∉ []) (imap (λ i, pair (f i)) reqs)).*1 =
    (filter (λ x : nat * SReq, is_finished x.2 = false) (imap (λ i q, (f i, sreq q)) reqs)).*1) as Hf by (apply (Hf id)).
  induction reqs as [|q reqs IH]; intros f; [done|]. cbn [imap]. rewrite !filter_cons. cbn [snd].
  specialize (IH (f ∘ S)). destruct (decide (is_finished (sreq q) = false)).
  - rewrite decide_True by (split; [done|apply not_elem_of_nil]). rewrite !fmap_cons. cbn [fst]. f_equal. exact IH.
  - rewrite decide_False by tauto. exact IH.
Qed.

Lemma seating_live b gs : seating b gs → Forall (λ g, is_finished (g_req g) = false) gs.
Proof.
  intros Hs%seating_reqs. apply Forall_forall. intros g Hg. assert (g_req g ∈ g_req <$> gs) as Hin by (by apply list_elem_of_fmap_2).
  rewrite <-Hs in Hin. by apply list_elem_of_filter in Hin as [? _].
Qed.

(** [filter_batch()] drops the finished requests. *)
Lemma drop_done b gs :
  seating b gs →
  ∃ b', filter_exclude [] b = Ok b' ∧ (b_reqs b' = [] ∧ gs = [] ∨ seated b' gs) ∧ sreq <$> b_reqs b' = g_req <$> gs ∧
    b_reqs b' ⊆ b_reqs b ∧ b_prefill_only b' = b_prefill_only b ∧ b_full b' = b_full b ∧ b_chunked b' = b_chunked b.
Proof.
  intros Hs. pose proof (seating_live b gs Hs) as Hlive. unfold filter_exclude. rewrite exclude_nobody.
  set (keep := unfinished_indices (sreq <$> b_reqs b)).
  assert (keep `sublist_of` seq 0 (length (b_reqs b))) as Hsub.
  { pose proof (unfinished_valid (sreq <$> b_reqs b)) as Hv. by rewrite length_fmap in Hv. }
  pose proof (sublist_valid _ _ Hsub) as Hv.
  assert (sreq <$> sel (b_reqs b) keep = g_req <$> gs) as Hreqs.
  { rewrite <-sel_fmap. pose proof (mask_self (λ s : SReq, is_finished s = false) (sreq <$> b_reqs b)) as Hm.
    etrans; [exact Hm|]. by apply seating_reqs. }
  unfold filter_keep. destruct (Z.eqb_spec (zlen keep) 0) as [E%zlen_0|Hz].
  { rewrite E in Hreqs. cbn in Hreqs. symmetry in Hreqs. apply fmap_nil_inv in Hreqs as ->.
    eexists. split; [done|]. split; [by left|]. split; [done|]. split; [apply list_subseteq_nil|done]. }
  destruct Hs as [[E _]|Hs]; [unfold keep in Hz; rewrite E in Hz; done|].
  pose proof (seated_live b gs Hs) as [L1 L2 _ L4 L5]. cbn [as_decode d_reqs d_req_pool_indices d_seq_lens] in *. rewrite length_fmap in *. fold keep in L4, L5.
  destruct (Z.eqb_spec (zlen keep) (zlen (b_reqs b))) as [El|_].
  - assert (keep = seq 0 (length (b_reqs b))) as E.
    { apply sublist_full; [done|]. rewrite length_seq. unfold zlen in El. lia. }
    exists b. split; [done|]. split; [by right|]. rewrite E, sel_seq in Hreqs. by split_and!.
  - rewrite !pick_sel by (by rewrite ?L1, ?L2). cbn [mbind res_bind]. eexists. split; [done|].
    split; [right; by apply seated_all|]. split; [done|]. split; [apply sel_sub|done].
Qed.

(** ** The results of a step *)

Lemma zip_with_sreq (qs : list QReq) (rs : list SReq) : length rs = length qs → sreq <$> zip_with with_sreq qs rs = rs.
Proof. revert rs. induction qs as [|q qs IH]; intros [|r rs] Hl; try done. cbn. by rewrite IH by (by injection Hl). Qed.

Lemma seated_results b gs rs keeps :
  sreq <$> b_reqs b = g_req <$> gs → b_rows b = g_idx <$> gs → b_lens b = (λ g, kv_committed_len (g_kv g)) <$> gs →
  Forall3 outcome gs rs keeps → Forall (λ g, kv_committed_len (g_kv g) = g_len g) (gs ++ omap id keeps) →
  seated (set_b_reqs b (zip_with with_sreq (b_reqs b) rs)) (omap id keeps).
Proof.
  intros E1 E2 E3 HF Hc. pose proof (f_equal length E1) as El. rewrite !length_fmap in El.
  pose proof (Forall3_length_lm _ _ _ _ HF) as Hlr.
  assert (sreq <$> zip_with with_sreq (b_reqs b) rs = rs) as Hrs by (apply zip_with_sreq; lia).
  constructor; cbn [set_b_reqs b_reqs b_rows b_lens]; rewrite ?E2, ?E3, ?length_fmap, ?length_zip_with; try lia.
  - unfold seats. cbn [set_b_reqs b_reqs b_rows b_lens]. rewrite Hrs, E2, E3. clear -HF Hc.
    induction HF as [|g r k gs rs keeps (Ho & _ & Hk) HF IH]; [done|]. cbn [fmap list_fmap zip zip_with].
    rewrite filter_cons. cbn [fst]. rewrite <-app_comm_cons in Hc. apply Forall_cons in Hc as [Hg Hc].
    apply Forall_app in Hc as [Hgs Hks].
    destruct k as [h|]; cbn [omap list_omap] in *.
    + apply Forall_cons in Hks as [Hh Hks]. destruct Hk as (-> & Hf & Ei & Eh). rewrite decide_True by done. cbn [fmap list_fmap].
      assert ((g_req h, (g_idx g, kv_committed_len (g_kv g))) = seat h) as Es by (unfold seat; by rewrite Ei, Hh, Eh, Hg).
      rewrite Es. cbn [id fmap list_fmap]. f_equal. apply IH. by apply Forall_app.
    + destruct Hk as [Hf _]. rewrite decide_False by (by rewrite Hf). apply IH. by apply Forall_app.
  - apply (proj1 (Forall_fmap sreq (λ s, is_finished s = true → holds_kv (kv (base s)) = false) _)). rewrite Hrs. clear -HF. induction HF as [|g r k gs rs keeps (_ & _ & Hk) _ IH]; [done|]. constructor; [|done].
    intros Hf. destruct k as [h|]; [|apply Hk]. destruct Hk as (_ & Hf' & _). by rewrite Hf in Hf'.
Qed.
