(* ===== verification/LoopInv.v ===== *)
(** * The invariant of the event loop

    The requests the scheduler knows: the ones in the queue are ready to be admitted, the
    ones in the batches own their memory, and every object is in one place. *)

From S2P Require Import Prelude PyFloat PySort PrefillDelayer Allocator AllocKernels RadixKey PrefixTree TreeNode ReqPool Events.
From S2P Require Import RadixCache RadixInv ReqCache PrefillAdder RadixPools SchedulePolicy PolicyTheorems Allocation AllocWrites BatchAlloc RunningBatch Retract RetractTheorems DecodeAlloc DecodeTheorems.
From S2P Require Import Finish FinishTheorems PrefillLoop LoopConserve LoopTheorems LoopOwn LoopBatch LoopAlloc KvGroup BatchResult ResultLoop LeakCheck LeakTheorems Intake IntakeTheorems EventLoop LoopSeats.
Import PrefillAdder.

(** ** The ratio *)

Record ratio_ok (x : NewTokenRatioTracker.t) : Prop := {
  ra_init : (0 <= NewTokenRatioTracker.init x)%Q;
  ra_min : (0 <= NewTokenRatioTracker.min x)%Q;
  ra_current : (0 <= NewTokenRatioTracker.current x)%Q;
}.

Lemma ratio_reset x : ratio_ok x → ratio_ok (NewTokenRatioTracker.reset x).
Proof. by intros [? ? ?]. Qed.

Lemma ratio_decay x : ratio_ok x → ratio_ok (NewTokenRatioTracker.decay_step x).
Proof.
  intros [? Hm ?]. constructor; try done. cbn. unfold NewTokenRatioTracker.py_max.
  destruct (Qltb_reflect (NewTokenRatioTracker.current x - NewTokenRatioTracker.decay x) (NewTokenRatioTracker.min x)); [done|].
  by apply Qle_trans with (NewTokenRatioTracker.min x); [|apply Qnot_lt_le].
Qed.

Lemma ratio_estimate `{RetractSettings} x reqs :
  0 ≤ RETRACT_DECODE_STEPS → Forall (λ r, 0 ≤ max_new_tokens r) reqs → ratio_ok x →
  ratio_ok (NewTokenRatioTracker.set_current x (NewTokenRatioTracker.estimate_new_token_ratio_after_retract reqs)).
Proof.
  intros Hs Hm [? ? ?]. constructor; try done. cbn. unfold NewTokenRatioTracker.estimate_new_token_ratio_after_retract, NewTokenRatioTracker.py_min.
  destruct (Qltb _ _); [|done].
  apply Qmult_le_0_compat; [|apply Qinv_le_0_compat]; change 0%Q with (inject_Z 0); rewrite <-Zle_Qle.
  - apply Z.add_nonneg_nonneg; [|pose proof (zlen_nonneg reqs); nia]. apply zsum_nonneg, Forall_fmap, Forall_forall.
    intros r _. apply zlen_nonneg.
  - apply Z.add_nonneg_nonneg; [|done]. by apply zsum_nonneg, Forall_fmap.
Qed.

Section ratio.
Context `{Clock} `{SetOrder} `{HashOps} `{KVAllocator} `{KVFree} `{RetractSettings} `{RetractionPolicy} `{BatchAllocator}.

Lemma pick_sub {A} (l : list A) idxs k : pick l idxs = Ok k → k ⊆ l.
Proof.
  unfold pick. revert k. induction idxs as [|i idxs IH]; intros k; cbn [mapM]; [intros [= <-]; apply list_subseteq_nil|].
  intros (x & Hx & (k' & Hk & [= <-])%bind_Ok)%bind_Ok. apply py_get_lookup in Hx; [|lia].
  intros y [->|Hy]%elem_of_cons; [by eapply list_elem_of_lookup_2|by apply (IH k')].
Qed.

Lemma filter_batch_sub keep b b' : filter_batch keep b = Ok b' → d_reqs b' ⊆ d_reqs b.
Proof.
  unfold filter_batch. destruct (_ =? 0); [intros [= <-]; apply list_subseteq_nil|]. destruct (_ =? _); [by intros [= <-]|].
  intros (reqs & Hr & (idx & _ & (lens & _ & [= <-])%bind_Ok)%bind_Ok)%bind_Ok. by eapply pick_sub.
Qed.

Lemma turn_ratio spec d force full x b s t :
  0 ≤ RETRACT_DECODE_STEPS → Forall (λ r, 0 ≤ max_new_tokens r) (d_reqs b) → ratio_ok x →
  update_running_batch spec d force full x b s = Ok t → ratio_ok (t_ratio t).
Proof.
  intros Hs Hm Hx. unfold update_running_batch. destruct s as [c p]. intros (b1 & Hb1%filter_batch_sub & Hrun)%bind_Ok.
  destruct (_ =? 0); [by injection Hrun as <-|].
  apply bind_Ok in Hrun as ([ok c1] & _ & ([[[[b2 given] ab] x'] s2] & Hdec & Hrun)%bind_Ok).
  enough (ratio_ok x') as Hx'.
  { destruct (_ =? 0); [by injection Hrun as <-|]. apply bind_Ok in Hrun as ([[out b3] s3] & _ & [= <-]). done. }
  destruct (negb ok || force); [|injection Hdec as <- <- <- <- <-; by apply ratio_decay].
  apply bind_Ok in Hdec as ([[[[b3 g3] q] a3] s3] & Hrt & [= <- <- <- <- <-]). unfold retract_decode in Hrt.
  apply bind_Ok in Hrt as ([[idx g4] s4] & _ & ([[i5 a5] s5] & _ & (b6 & Hb6%filter_batch_sub & [= <- <- <- <- <-])%bind_Ok)%bind_Ok).
  apply ratio_estimate; [done| |done]. apply Forall_forall. intros r Hr. eapply Forall_forall in Hm; [exact Hm|]. apply Hb1, Hb6, Hr.
Qed.
End ratio.

(** ** Requests in the queue *)

Section queue.
Context `{TextOps} `{RetractSettings}.

Lemma ready_finish reason o gens r : gen_ready gens r → gen_ready (set_to_finish reason o gens) r.
Proof.
  intros (sp & g & Hg & G). unfold gen_ready, set_to_finish. destruct (decide (obj r = o)) as [<-|Hne].
  - rewrite lookup_alter_eq, Hg. cbn. eexists _, _. split; [done|]. exact G.
  - rewrite lookup_alter_ne by done. by exists sp, g.
Qed.

Lemma ready_finish_all reason os gens r : gen_ready gens r → gen_ready (foldr (set_to_finish reason) gens os) r.
Proof. intros Hr. induction os as [|o os IH]; cbn; [done|by apply ready_finish]. Qed.

Lemma ready_fresh o x gens r : obj r ≠ o → gen_ready gens r → gen_ready (<[o := x]> gens) r.
Proof. intros Hne. apply gen_ready_ext; [by rewrite lookup_insert_ne|done..]. Qed.

Lemma decoding_ready ctx gens gens' g :
  (gen_ready gens (g_req g) → gen_ready gens' (g_req g)) → decoding ctx gens g → decoding ctx gens' g.
Proof. intros Hr [? ? ? ? ? ? ?]. constructor; auto. Qed.

(** A request that can be admitted, run and finished. *)
Record queued_ok (p : ReqToTokenPool) (gens : gens_t) (q : QReq) : Prop := {
  qo_waiting : waiting_ok p q;
  qo_unfinished : is_finished (sreq q) = false;
  qo_gen : gen_ready gens (sreq q);
  qo_fits : zlen (q_origin q) + max_new_tokens (sreq q) ≤ max_context_len p;
  qo_room : out_len (sreq q) + 1 ≤ Z.max 1 (max_new_tokens (sreq q));
}.

Lemma queued_ready p gens gens' q :
  (gen_ready gens (sreq q) → gen_ready gens' (sreq q)) → queued_ok p gens q → queued_ok p gens' q.
Proof. intros Hr [? ? ? ? ?]. constructor; auto. Qed.

(** A pass keeps the request as it is. *)
Lemma queued_core p p' gens q q' :
  core q' = core q → max_context_len p' = max_context_len p → waiting_ok p' q' → queued_ok p gens q → queued_ok p' gens q'.
Proof.
  unfold core. intros [= Ho _ Em Ef Eo Eout] Ec Hw [_ Q2 Q3 Q4 Q5]. constructor; [done|congruence| | |].
  - by eapply gen_ready_ext.
  - unfold q_origin in *. by rewrite Ec, Eo, Em.
  - unfold out_len in *. by rewrite Eout, Em.
Qed.

Lemma queued_pool p p' gens q : max_context_len p' = max_context_len p → queued_ok p gens q → queued_ok p' gens q.
Proof. intros E [[? ? ? ? ? ? ?] ? ? ? ?]. by constructor; [constructor|..]; rewrite ?E. Qed.

Lemma queued_entry p gens now q : queued_ok p gens q → queued_ok p gens (set_entry_time now q).
Proof. intros [[? ? ? ? ? ? ?] ? ? ? ?]. by constructor; [constructor|..]. Qed.

Lemma queued_retracted p gens q g :
  sreq q = retracted_of (g_req g) → 0 < g_len g → decoding (max_context_len p) gens g → queued_ok p gens q.
Proof.
  intros E Hl [D1 D2 D3 D4 D5 D6 D7]. assert (prefix_ids q = g_ids g) as Ei by (unfold prefix_ids; by rewrite E).
  assert (zlen (g_ids g) ≤ max_context_len p) as Hlen by (unfold g_ids in *; rewrite zlen_app in *; lia).
  pose proof (zlen_nonneg (output_ids (base (g_req g)))) as Hpos.
  constructor; [constructor|..]; rewrite ?Ei, ?E; try done.
  - cbn. lia.
  - intros E0. rewrite E0 in D3. change (zlen (@nil Z)) with 0 in D3. lia.
  - right. left. exact D6.
  - unfold q_origin. by rewrite E.
  - unfold out_len. cbn. lia.
Qed.

(** ** New requests *)

(** What the tokenizer promises of a message: the prompt has tokens, the request comes
    with its tokenizer, and its regular expressions compile. *)
Definition message_ok (rr : GenerateReq) : Prop :=
  gr_input_ids rr ≠ [] ∧ tokenizer (gr_stop rr) ≠ None ∧ Forall regex_decided (stop_regex_strs (gr_stop rr)).

Lemma queued_new ic p gens o q rr fin :
  message_ok rr → brand_new o q → sized ic q → max_req_len ic ≤ max_context_len p + 1 →
  queued_ok p (<[o := new_gen ic q rr fin]> gens) q.
Proof.
  intros (_ & Ht & Hre) [B1 B2 B3 B4 B5 B6] [S1 S2 S3] Hctx.
  assert (prefix_ids q = q_origin q) as Ei by (unfold prefix_ids; by rewrite B2, app_nil_r).
  assert (0 < zlen (q_origin q)) as Hpos.
  { destruct (q_origin q) as [|x l] eqn:E; [done|]. rewrite zlen_cons. pose proof (zlen_nonneg l). lia. }
  constructor; [constructor|..]; rewrite ?Ei, ?B4; try done; try lia.
  - right. right. left. rewrite B3. exact Hpos.
  - unfold gen_ready. change (obj (sreq q)) with (qobj q). rewrite B1, lookup_insert_eq. eexists _, _. split; [done|]. by cbn.
  - unfold out_len. rewrite B2. change (zlen (@nil Z)) with 0. lia.
Qed.

Lemma queued_priority p gens n q : queued_ok p gens q → queued_ok p gens (set_priority q n).
Proof. intros [[? ? ? ? ? ? ?] ? ? ? ?]. by constructor; [constructor|..]. Qed.
End queue.

(** ** The queue *)

Section add.
Context (cf : SchedConfig) (now : Z) (P : QReq → Prop).
Hypothesis Hlimit : max_queued_requests cf = None ∨ enable_priority_scheduling (s_policy cf) = false.
Hypothesis Hentry : ∀ q, P q → P (set_entry_time now q).

(** A request joins the queue or is sent away. *)
Lemma add_request_ok q queue aborts :
  P q → Forall P queue →
  ∃ queue' aborts', add_request_to_queue cf now q (queue, aborts) = Ok (queue', aborts') ∧
    qobj <$> queue' ++ aborts' ≡ₚ qobj <$> q :: queue ++ aborts ∧ Forall P queue'.
Proof.
  intros Hq Hqs.
  assert (qobj <$> (queue ++ [set_entry_time now q]) ++ aborts ≡ₚ qobj <$> q :: queue ++ aborts ∧ Forall P (queue ++ [set_entry_time now q])) as [Hin1 Hin2].
  { rewrite fmap_cons, !fmap_app. split; [cbn; solve_Permutation|]. apply Forall_app. split; [done|]. apply Forall_singleton. auto. }
  assert (∃ queue' aborts', ('(dropped, aborted, queue) ← Ok (true, Some q, queue);
      let aborts := aborts ++ option_list aborted in
      if (dropped : bool) then Ok (queue, aborts) else Ok (queue ++ [set_entry_time now q], aborts)) = Ok (queue', aborts') ∧
    qobj <$> queue' ++ aborts' ≡ₚ qobj <$> q :: queue ++ aborts ∧ Forall P queue') as Hout.
  { cbn [mbind res_bind option_list]. eexists _, _. split; [done|]. rewrite fmap_cons, !fmap_app. split; [cbn; solve_Permutation|done]. }
  unfold add_request_to_queue, abort_on_queued_limit.
  assert (∃ queue' aborts', ('(dropped, aborted, queue) ← Ok (false, None, queue);
      let aborts := aborts ++ option_list aborted in
      if (dropped : bool) then Ok (queue, aborts) else Ok (queue ++ [set_entry_time now q], aborts)) = Ok (queue', aborts') ∧
    qobj <$> queue' ++ aborts' ≡ₚ qobj <$> q :: queue ++ aborts ∧ Forall P queue') as Hin.
  { cbn [mbind res_bind option_list]. rewrite app_nil_r. by eexists _, _. }
  destruct (max_queued_requests cf) as [m|]; [|exact Hin]. destruct (_ <=? m); [exact Hin|].
  destruct Hlimit as [?| ->]; [done|exact Hout].
Qed.

Lemma add_requests_ok l queue aborts :
  Forall P l → Forall P queue →
  ∃ queue' aborts', for_each (add_request_to_queue cf now) l (queue, aborts) = Ok (queue', aborts') ∧
    qobj <$> queue' ++ aborts' ≡ₚ qobj <$> l ++ queue ++ aborts ∧ Forall P queue'.
Proof.
  revert queue aborts. induction l as [|q l IH]; intros queue aborts Hl Hqs; [by eexists _, _|].
  apply Forall_cons in Hl as [Hq Hl]. destruct (add_request_ok q queue aborts Hq Hqs) as (queue1 & aborts1 & Hrun & Hp & Hqs1).
  destruct (IH queue1 aborts1 Hl Hqs1) as (queue2 & aborts2 & Hrun2 & Hp2 & Hqs2).
  exists queue2, aborts2. cbn [for_each]. rewrite Hrun. cbn [mbind res_bind]. split; [done|]. split; [|done].
  rewrite Hp2, <-app_comm_cons, fmap_app, Hp, !fmap_cons, (fmap_app qobj l). solve_Permutation.
Qed.
End add.

(** ** The invariant *)

Definition gobj (g : greq) : nat := obj (g_req g).

(** The configuration: no chunked prefill, no preemption, no speculation; the lengths are
    those of the pool. *)
Record config_ok `{Settings} `{RetractSettings} `{Census} (lc : LoopConfig) (ctx : Z) : Prop := {
  co_chunk : s_chunked_prefill_size (lc_sched lc) = None;
  co_preempt : enable_priority_preemption (lc_sched lc) = false;
  co_clip : 0 ≤ CLIP_MAX_NEW_TOKENS;
  co_align : from_option (Z.lt 0) True (truncation_align_size (lc_sched lc));
  co_queue : max_queued_requests (lc_sched lc) = None ∨ enable_priority_scheduling (s_policy (lc_sched lc)) = false;
  co_input : 0 < max_req_input_len (lc_intake lc) < max_req_len (lc_intake lc);
  co_ctx : max_req_len (lc_intake lc) ≤ ctx + 1;
  co_total : max_total_num_tokens (lc_intake lc) = total_slots;
  co_steps : 0 ≤ RETRACT_DECODE_STEPS;
  co_spec : spec_algo_none = true;
}.

(** The environment of a turn. *)
Record turn_ok `{TextOps} (te : TurnEnv) : Prop := {
  to_messages rr : Generate rr ∈ te_recv te → message_ok rr;
  to_shuffle l : te_shuffle te l ≡ₚ l;
  to_order l : te_order te l ≡ₚ l;
  to_forward qs : length (te_forward te qs) = length qs;
}.

Section inv.
Context `{TextOps} `{Settings} `{RetractSettings} `{Clock} `{SetOrder} `{HashLaws} `{KVAllocator} `{KVFree} `{Census}.
Context (lc : LoopConfig) (ctx : Z).

(** Every object the scheduler created is in the batches, in the queue, sent away or
    done, and in one of these places only. *)
Definition everybody (l : Loop) (gs : list greq) : list nat :=
  (gobj <$> gs) ++ (qobj <$> waiting_queue (l_sched l) ++ s_aborts (l_sched l) ++ l_outputs l).

(** A request whose end was streamed: it holds no memory, and its output has at least one
    token and at most as many as it may have. *)
Definition ended (q : QReq) : Prop :=
  is_finished (sreq q) = true ∧ holds_kv (kv (base (sreq q))) = false ∧ 1 ≤ out_len (sreq q) ≤ Z.max 1 (max_new_tokens (sreq q)).

(** The memory and the queue, with the requests [gs] in the batches. *)
Record frame_inv (l : Loop) (A : atree) (gs : list greq) : Prop := {
  bs_memory : batch_inv (s_pools (l_sched l)).1 A (s_pools (l_sched l)).2 gs;
  bs_table : table_wf (s_pools (l_sched l)).2;
  bs_page : s_page_size (lc_sched lc) = cpage_size (s_pools (l_sched l)).1;
  bs_ctx : max_context_len (s_pools (l_sched l)).2 = ctx;
  bs_queue : Forall (queued_ok (s_pools (l_sched l)).2 (l_gens l)) (waiting_queue (l_sched l));
  bs_everybody : everybody l gs ≡ₚ seq 0 (l_next l);
  bs_running : Forall (λ q, out_len (sreq q) ≤ max_new_tokens (sreq q)) (running (l_sched l));
  bs_tree : ∃ seen, simulates (waiting_tree (l_sched l)) seen;
  bs_ratio : ratio_ok (l_ratio l);
  bs_chunked : chunked_req (l_sched l) = None;
  bs_inflight : inflight_middle_chunks (l_sched l) = ∅;
  bs_pending : l_pending_abort l = None;
  bs_delay : l_delay l = None;
  bs_outputs : Forall ended (l_outputs l);
}.

(** All of them are ready for a decode step. *)
Record base_inv (l : Loop) (A : atree) (gs : list greq) : Prop := {
  bs_frame :> frame_inv l A gs;
  bs_decoding : Forall (decoding ctx (l_gens l)) gs;
}.

(** Between two turns. *)
Definition loop_inv (l : Loop) : Prop :=
  ∃ A gr gl, base_inv l A (gr ++ gl) ∧ seating (running_batch l) gr ∧
    match l_last l with PrefillBatch b => seating b gl ∧ b_chunked b = None | _ => gl = [] end.

(** After the last batch has joined the running one. *)
Definition mid_inv (l : Loop) : Prop := ∃ A gs, base_inv l A gs ∧ seating (running_batch l) gs.

Lemma inv_nodup l A gs : frame_inv l A gs → NoDup (everybody l gs).
Proof. intros Hi. rewrite (bs_everybody _ _ _ Hi). apply NoDup_seq. Qed.

Lemma inv_old l A gs o : frame_inv l A gs → o ∈ everybody l gs → (o < l_next l)%nat.
Proof. intros Hi Ho. rewrite (bs_everybody _ _ _ Hi) in Ho. apply elem_of_seq in Ho. lia. Qed.
End inv.
