(* ===== verification/LoopSteps.v ===== *)
(** * The steps of a turn

    Messages, timeouts and the merge of the last batch keep the invariant of the event
    loop and cannot fail. *)

From S2P Require Import Prelude PyFloat PySort PrefillDelayer Allocator AllocKernels RadixKey PrefixTree TreeNode ReqPool Events.
From S2P Require Import RadixCache RadixInv ReqCache PrefillAdder RadixPools SchedulePolicy PolicyTheorems Allocation AllocWrites BatchAlloc RunningBatch Retract RetractTheorems DecodeAlloc DecodeTheorems.
From S2P Require Import Finish FinishTheorems PrefillLoop LoopConserve LoopTheorems LoopOwn LoopBatch LoopAlloc KvGroup BatchResult ResultLoop LeakCheck LeakTheorems Intake IntakeTheorems EventLoop LoopSeats LoopInv.
Import PrefillAdder.

(** The batches of two states are the same. *)
Definition same_batches (l l' : Loop) : Prop := running_batch l' = running_batch l ∧ l_last l' = l_last l.

Section steps.
Context `{TextOps} `{Settings} `{RetractSettings} `{Clock} `{SetOrder} `{HashLaws} `{KVAllocator} `{KVFree} `{Census}.
Context (lc : LoopConfig) (ctx : Z).
Hypothesis Hlc : config_ok lc ctx.
Local Abbreviation base_inv := (base_inv lc ctx).

(** ** The queue and the attributes *)

Lemma requeue_inv l A gs queue aborts :
  base_inv l A gs → Forall (queued_ok (s_pools (l_sched l)).2 (l_gens l)) queue →
  qobj <$> queue ++ aborts ≡ₚ qobj <$> waiting_queue (l_sched l) ++ s_aborts (l_sched l) →
  base_inv (set_l_sched l (set_queue (l_sched l) queue aborts)) A gs.
Proof.
  intros [[? ? ? ? ? He ? ? ? ? ? ? ? ?] ?] Hq Hp. constructor; [constructor|]; try done. rewrite <-He. unfold everybody.
  cbn [set_l_sched set_queue l_sched waiting_queue s_aborts l_outputs]. apply Permutation_app_head.
  rewrite !app_assoc, !(fmap_app qobj (_ ++ _)). by apply Permutation_app_tail.
Qed.

Lemma regens_inv l A gs gens :
  base_inv l A gs → (∀ r, obj r ∈ everybody l gs → gen_ready (l_gens l) r → gen_ready gens r) → base_inv (set_l_gens l gens) A gs.
Proof.
  intros [[? ? ? ? Hq ? ? ? ? ? ? ? ? ?] Hd] Hr. constructor; [constructor|]; try done; apply Forall_forall.
  - intros q Hin. apply (queued_ready _ (l_gens l)); [|by eapply Forall_forall in Hq]. apply Hr. apply elem_of_app. right.
    rewrite fmap_app. apply elem_of_app. left. by apply (list_elem_of_fmap_2 qobj).
  - intros g Hg. apply (decoding_ready ctx (l_gens l)); [|by eapply Forall_forall in Hd]. apply Hr. apply elem_of_app. left.
    by apply (list_elem_of_fmap_2 gobj).
Qed.

Lemma finish_inv l A gs reason os : base_inv l A gs → base_inv (set_l_gens l (foldr (set_to_finish reason) (l_gens l) os)) A gs.
Proof. intros Hi. apply regens_inv; [done|]. intros r _. apply ready_finish_all. Qed.

(** ** Messages *)

Lemma split_queue (f : QReq → bool) (queue : list QReq) aborts :
  qobj <$> List.filter (λ q, negb (f q)) queue ++ aborts ++ List.filter f queue ≡ₚ qobj <$> queue ++ aborts.
Proof. apply fmap_Permutation. rewrite (Permutation_app_comm aborts), app_assoc. apply Permutation_app_tail. rewrite Permutation_app_comm. apply partition_perm. Qed.

Lemma filter_Forall {A} (P : A → Prop) f (l : list A) : Forall P l → Forall P (List.filter f l).
Proof. induction 1 as [|x l Hx _ IH]; cbn; [done|]. destruct (f x); [by constructor|done]. Qed.

Lemma abort_inv all prefix l A gs :
  base_inv l A gs → base_inv (abort_message all prefix l) A gs ∧ same_batches l (abort_message all prefix l).
Proof.
  intros Hi. split; [|done]. unfold abort_message. rewrite (bs_chunked _ _ _ _ _ Hi). unfold abort_request.
  set (queue := List.filter _ _). set (aborts := _ ++ reverse _). set (os := qobj <$> _).
  pose proof (requeue_inv l A gs queue aborts Hi) as Hr.
  assert (base_inv (set_l_gens (set_l_sched l (set_queue (l_sched l) queue aborts)) (foldr (set_to_finish (FINISH_ABORT "Aborted")) (l_gens l) os)) A gs) as Hf.
  { apply (finish_inv (set_l_sched l _)), Hr; [by apply filter_Forall, Hi|].
    etrans; [|apply (split_queue (abort_matches all prefix))]. unfold aborts. by rewrite reverse_Permutation. }
  destruct Hf as [[] ]. by constructor; [constructor|].
Qed.

Lemma generate_inv now rr l A gs :
  base_inv l A gs → message_ok rr →
  ∃ l', process_message lc now l (Generate rr) = Ok l' ∧ base_inv l' A gs ∧ same_batches l l'.
Proof.
  intros Hi Hm. cbn [process_message]. unfold handle_generate_request.
  pose proof (accept_request_spec (lc_intake lc) (l_next l) rr (co_input _ _ Hlc) (proj1 Hm)) as Hacc.
  destruct (accept_request (lc_intake lc) (l_next l) rr) as [q fin]. destruct Hacc as [Hbn Hsz].
  set (gens := <[l_next l := _]> (l_gens l)).
  assert (base_inv (set_l_gens l gens) A gs) as Hg.
  { apply regens_inv; [done|]. intros r Hr. apply ready_fresh. pose proof (inv_old _ _ _ _ _ _ Hi Hr). lia. }
  assert (queued_ok (s_pools (l_sched l)).2 gens q) as Hq.
  { apply (queued_new (lc_intake lc)); try done. rewrite (bs_ctx _ _ _ _ _ Hi). apply Hlc. }
  assert (∀ queue aborts, Forall (queued_ok (s_pools (l_sched l)).2 gens) queue →
    qobj <$> queue ++ aborts ≡ₚ l_next l :: (qobj <$> waiting_queue (l_sched l) ++ s_aborts (l_sched l)) →
    base_inv (set_l_next (set_l_gens (set_l_sched l (set_queue (l_sched l) queue aborts)) gens) (S (l_next l))) A gs) as Hnew.
  { intros queue aborts Hqs Hp. destruct Hg as [[? ? ? ? ? He ? ? ? ? ? ? ? ?] ?]. constructor; [constructor|]; try done.
    cbn [set_l_next l_next]. rewrite seq_S, <-He. unfold everybody in *.
    cbn [set_l_next set_l_gens set_l_sched set_queue l_sched waiting_queue s_aborts l_outputs] in *.
    rewrite !(app_assoc queue), !(app_assoc (waiting_queue _)), !(fmap_app qobj (_ ++ _)), Hp. cbn. solve_Permutation. }
  assert (∀ q', queued_ok (s_pools (l_sched l)).2 gens q' → qobj q' = l_next l →
    ∃ queue aborts, add_request_to_queue (lc_sched lc) now q' (waiting_queue (l_sched l), s_aborts (l_sched l)) = Ok (queue, aborts) ∧
      base_inv (set_l_next (set_l_gens (set_l_sched l (set_queue (l_sched l) queue aborts)) gens) (S (l_next l))) A gs) as Hadd.
  { intros q' Hq' Eo.
    destruct (add_request_ok (lc_sched lc) now (queued_ok (s_pools (l_sched l)).2 gens) (co_queue _ _ Hlc) (queued_entry _ _ now) q'
      (waiting_queue (l_sched l)) (s_aborts (l_sched l)) Hq' (bs_queue _ _ _ _ _ Hg)) as (queue & aborts & Hrun & Hp & Hqs).
    exists queue, aborts. split; [done|]. apply Hnew; [done|]. by rewrite Hp, fmap_cons, Eo. }
  unfold set_or_validate_priority. destruct (_ && _).
  - set (n := if schedule_low_priority_values_first _ then _ else _).
    destruct (Hadd (set_priority q n)) as (queue & aborts & Hrun & Hb); [by apply queued_priority|apply Hbn|].
    rewrite Hrun. cbn [mbind res_bind]. eexists. split; [done|]. split; [done|done].
  - destruct (_ && _).
    + cbn [mbind res_bind]. eexists. split; [done|]. split; [|done]. apply Hnew; [apply Hg|].
      rewrite app_assoc, fmap_app. cbn. rewrite (bn_obj _ _ Hbn). solve_Permutation.
    + destruct (Hadd q Hq (bn_obj _ _ Hbn)) as (queue & aborts & Hrun & Hb).
      rewrite Hrun. cbn [mbind res_bind]. eexists. split; [done|]. split; [done|done].
Qed.

Lemma messages_inv now ms l A gs :
  base_inv l A gs → (∀ rr, Generate rr ∈ ms → message_ok rr) →
  ∃ l', process_input_requests lc now ms l = Ok l' ∧ base_inv l' A gs ∧ same_batches l l'.
Proof.
  unfold process_input_requests. revert l. induction ms as [|m ms IH]; intros l Hi Hm; [by exists l|].
  assert (∃ l1, process_message lc now l m = Ok l1 ∧ base_inv l1 A gs ∧ same_batches l l1) as (l1 & Hrun & Hi1 & S1 & S2).
  { destruct m as [rr|all prefix].
    - apply generate_inv; [done|]. apply Hm. by left.
    - eexists. split; [done|]. by apply abort_inv. }
  destruct (IH l1 Hi1) as (l2 & Hrun2 & Hi2 & S3 & S4). { intros rr Hr. apply Hm. by right. }
  exists l2. cbn [for_each]. rewrite Hrun. cbn [mbind res_bind]. split; [done|]. split; [done|]. split; congruence.
Qed.

(** ** Timeouts *)

Lemma timeouts_inv now entry l A gs :
  base_inv l A gs →
  let l1 := set_l_sched l (abort_on_waiting_timeout lc now (l_sched l)) in
  let l2 := set_l_gens l1 (abort_on_running_timeout lc now entry (running (l_sched l1)) (l_gens l1)) in
  base_inv l2 A gs ∧ same_batches l l2.
Proof.
  intros Hi l1. assert (base_inv l1 A gs ∧ same_batches l l1) as [Hi1 S1].
  { unfold l1, abort_on_waiting_timeout. destruct (_ <=? 0); [by destruct l|]. split; [|done].
    apply requeue_inv; [done|by apply filter_Forall, Hi|]. apply split_queue. }
  cbv zeta. split; [|done]. unfold abort_on_running_timeout. destruct (_ <=? 0); [|by apply finish_inv].
  replace (set_l_gens l1 (l_gens l1)) with l1 by (by destruct l1). done.
Qed.

(** ** The running batch *)

(** A new running batch: its requests have room in their limit. *)
Lemma rebatch_inv l A gs b :
  base_inv l A gs → Forall (λ q, out_len (sreq q) ≤ max_new_tokens (sreq q)) (b_reqs b) → base_inv (set_running_batch l b) A gs.
Proof. intros [[? ? ? ? ? ? ? ? ? ? ? ? ? ?] ?] Hb. by constructor; [constructor|]. Qed.

Lemma relast_inv l A gs x : base_inv l A gs → base_inv (set_l_last l x) A gs.
Proof. intros [[? ? ? ? ? ? ? ? ? ? ? ? ? ?] ?]. by constructor; [constructor|]. Qed.

Lemma set_running_last l b x : running_batch (set_l_last (set_running_batch l b) x) = mkBatch (b_reqs b) (b_rows b) (b_lens b) (b_prefill_only b) (b_full b) None.
Proof. done. Qed.

Lemma seating_same b b' gs :
  b_reqs b' = b_reqs b → b_rows b' = b_rows b → b_lens b' = b_lens b → seating b gs → seating b' gs.
Proof.
  intros E1 E2 E3 [[E ->]|[? ? Hl ?]]; [left; by rewrite E1|right]. constructor; unfold seats in *; rewrite ?E1, ?E2, ?E3; done.
Qed.

(** The requests of a filtered batch. *)
Lemma live_room gens (reqs : list QReq) gs :
  sreq <$> reqs = g_req <$> gs → Forall (decoding ctx gens) gs → Forall (λ q, out_len (sreq q) ≤ max_new_tokens (sreq q)) reqs.
Proof.
  intros E Hd. apply (proj1 (Forall_fmap sreq (λ r, out_len r ≤ max_new_tokens r) _)). rewrite E. apply Forall_fmap.
  eapply Forall_impl; [exact Hd|]. intros g [? ? ? Hr ? ? ?]. unfold out_len. cbn. lia.
Qed.

Lemma merge_inv l : loop_inv lc ctx l → ∃ l', merge_last l = Ok l' ∧ mid_inv lc ctx l'.
Proof.
  intros (A & gr & gl & Hi & Hr & Hl). unfold merge_last.
  destruct (l_last l) as [| |b] eqn:El; [subst gl; rewrite app_nil_r in Hi; exists l; split; [done|by exists A, gr]..|].
  destruct Hl as [Hl Hc]. rewrite (bs_chunked _ _ _ _ _ Hi), Hc. cbn [fmap option_fmap option_map option_list app].
  destruct (drop_done b gl Hl) as (b' & Hrun & Hs' & Er & Hsub & _). change (option_list None ++ option_list None) with (@nil nat).
  rewrite Hrun. cbn [mbind res_bind]. set (r := if _ <? _ then _ else _).
  assert (b_reqs r = b_reqs (running_batch l) ∧ b_rows r = b_rows (running_batch l) ∧ b_lens r = b_lens (running_batch l)) as (R1 & R2 & R3)
    by (unfold r; by destruct (_ <? _)).
  pose proof (bs_decoding _ _ _ _ _ Hi) as Hd. apply Forall_app in Hd as [_ Hdl].
  pose proof (live_room _ _ _ Er Hdl) as Hroom. pose proof (bs_running _ _ _ _ _ Hi) as Hrun0.
  assert (seating r gr) as Hr' by (by apply (seating_same (running_batch l))).
  destruct (is_empty b') eqn:E1.
  { apply Z.eqb_eq, zlen_0 in E1. pose proof (seating_nil b' gl Hs' E1) as ->. rewrite app_nil_r in Hi.
    eexists. split; [done|]. exists A, gr. split; [apply relast_inv, rebatch_inv; [done|by rewrite R1]|].
    by apply (seating_same r). }
  destruct (is_empty r) eqn:E2.
  { apply Z.eqb_eq, zlen_0 in E2. pose proof (seating_nil r gr Hr' E2) as ->.
    eexists. split; [done|]. exists A, gl. split; [by apply relast_inv, rebatch_inv|]. by apply (seating_same b'). }
  eexists. split; [done|]. exists A, (gr ++ gl). split.
  - apply relast_inv, rebatch_inv; [done|]. cbn [merge_batch b_reqs]. apply Forall_app. split; [by rewrite R1|done].
  - apply (seating_same (merge_batch r b')); [done..|]. right. apply Z.eqb_neq in E1, E2.
    apply seated_merge; [destruct Hr' as [[E _]|]; [|done]|destruct Hs' as [[E _]|]; [|done]].
    + by rewrite E in E2.
    + by rewrite E in E1.
Qed.

Lemma drop_only_inv l : mid_inv lc ctx l → ∃ l', drop_prefill_only l = Ok l' ∧ mid_inv lc ctx l'.
Proof.
  intros (A & gs & Hi & Hs). unfold drop_prefill_only. destruct (l_prefill_only l); [|exists l; split; [done|by exists A, gs]].
  destruct (drop_done _ gs Hs) as (b' & Hrun & Hs' & Er & _). rewrite Hrun. cbn [mbind res_bind]. eexists. split; [done|].
  exists A, gs. pose proof (live_room _ _ _ Er (bs_decoding _ _ _ _ _ Hi)) as Hroom.
  split; [apply rebatch_inv; [done|]|apply (seating_same b'); [..|done]]; by destruct (is_empty b').
Qed.
End steps.
