(* ===== verification/LoopResults.v ===== *)
(** * The results of a turn

    After the forward pass every request of the batch has its token: the finished ones are
    streamed, the others stay in the batch, ready for the next decode step. *)

From S2P Require Import Prelude PyFloat PySort PrefillDelayer Allocator AllocKernels RadixKey PrefixTree TreeNode ReqPool Events.
From S2P Require Import RadixCache RadixInv RadixEvict ReqCache PrefillAdder RadixPools SchedulePolicy PolicyTheorems Allocation AllocWrites BatchAlloc RunningBatch Retract RetractTheorems DecodeAlloc DecodeTheorems.
From S2P Require Import Finish FinishTheorems PrefillLoop LoopConserve LoopTheorems LoopOwn LoopBatch LoopAlloc KvGroup BatchResult ResultLoop LeakCheck LeakTheorems Intake IntakeTheorems EventLoop LoopSeats LoopInv LoopSteps.
Import PrefillAdder.

(** The objects of a batch after its results: kept or finished. *)
Lemma results_objs (qs : list QReq) todo rs keeps :
  length qs = length todo → Forall3 outcome todo rs keeps →
  gobj <$> todo ≡ₚ (gobj <$> omap id keeps) ++ (qobj <$> List.filter (λ q, is_finished (sreq q)) (zip_with with_sreq qs rs)).
Proof.
  intros Hl HF. revert qs Hl. induction HF as [|g r k todo rs keeps (Ho & _ & Hk) _ IH]; intros [|q qs] Hl; try done.
  injection Hl as Hl. specialize (IH qs Hl). cbn [zip_with List.filter]. rewrite fmap_cons. cbn [with_sreq sreq].
  destruct k as [h|]; cbn [omap list_omap id].
  - destruct Hk as (-> & -> & _ & _). rewrite fmap_cons, IH. unfold gobj at 1 3. by rewrite Ho.
  - destruct Hk as [-> _]. rewrite fmap_cons, IH, <-Permutation_middle. unfold gobj at 1. unfold qobj at 2. cbn. by rewrite Ho.
Qed.

(** The requests of a batch are not streamed yet. *)
Lemma stream_all (reqs outputs : list QReq) :
  (∀ q, q ∈ reqs → qobj q ∉ qobj <$> outputs) → stream_output [] reqs outputs = outputs ++ List.filter (λ q, is_finished (sreq q)) reqs.
Proof.
  intros Hn. unfold stream_output. f_equal. apply filter_ext_in. intros q Hq%list_elem_of_In.
  rewrite !bool_decide_true; [by rewrite !andb_true_r|by apply Hn|apply not_elem_of_nil].
Qed.

Lemma results_qobj (qs : list QReq) todo rs keeps :
  length qs = length todo → Forall3 outcome todo rs keeps → qobj <$> zip_with with_sreq qs rs = gobj <$> todo.
Proof.
  intros Hl HF. revert qs Hl. induction HF as [|g r k todo rs keeps (Ho & _ & _) _ IH]; intros [|q qs] Hl; try done.
  injection Hl as Hl. cbn. rewrite IH by done. unfold gobj, qobj. cbn. by rewrite Ho.
Qed.

(** The finished requests of a batch. *)
Lemma results_ended (qs : list QReq) todo rs keeps :
  length qs = length todo → Forall3 outcome todo rs keeps →
  Forall (λ g, out_len (g_req g) + 1 ≤ Z.max 1 (max_new_tokens (g_req g))) todo →
  Forall ended (List.filter (λ q, is_finished (sreq q)) (zip_with with_sreq qs rs)).
Proof.
  intros Hl HF. revert qs Hl. induction HF as [|g r k todo rs keeps (_ & [G1 G2] & Hk) _ IH]; intros [|q qs] Hl Hroom; try done.
  injection Hl as Hl. apply Forall_cons in Hroom as [Hg Hroom]. specialize (IH qs Hl Hroom). cbn [zip_with List.filter with_sreq sreq].
  destruct k as [h|]; [by destruct Hk as (_ & -> & _)|]. destruct Hk as [Hf Hkv]. rewrite Hf. constructor; [|done].
  split; [done|]. split; [done|]. unfold out_len in *. cbn [with_sreq sreq]. rewrite G1, G2. pose proof (zlen_nonneg (output_ids (base (g_req g)))). lia.
Qed.

Section results.
Context `{TextOps} `{Settings} `{RetractSettings} `{Clock} `{SetOrder} `{HashLaws} `{KVAllocator} `{KVFree} `{Census}.
Context (lc : LoopConfig) (ctx : Z).
Local Abbreviation frame_inv := (frame_inv lc ctx).
Local Abbreviation base_inv := (base_inv lc ctx).

Lemma results_inv l A A' rest todo qs rs keeps st :
  frame_inv l A (rest ++ todo) → Forall (decoding ctx (l_gens l)) rest → length qs = length todo →
  Forall (λ g, out_len (g_req g) + 1 ≤ Z.max 1 (max_new_tokens (g_req g))) todo →
  processed ctx (result_state l) st todo rs keeps →
  batch_inv (rs_pools st).1 A' (rs_pools st).2 (omap id keeps ++ rest) →
  base_inv (set_l_outputs (set_result l st) (stream_output [] (zip_with with_sreq qs rs) (l_outputs l))) A' (rest ++ omap id keeps).
Proof.
  intros Hi Hd Hl Hroom [P1 P2 P3 P4 P5 P6 P7] Hb. pose proof (inv_nodup _ _ _ _ _ Hi) as Hnd.
  destruct Hi as [M1 M2 M3 M4 M5 M6 M7 M8 M9 M10 M11 M12 M13 M14]. cbn [result_state rs_gens rs_inflight rs_pools] in *.
  assert (∀ o, o ∈ (gobj <$> rest) ++ (qobj <$> waiting_queue (l_sched l) ++ s_aborts (l_sched l) ++ l_outputs l) → o ∉ gobj <$> todo) as Hdis.
  { unfold everybody in Hnd. rewrite fmap_app, (Permutation_app_comm (gobj <$> rest)), <-app_assoc in Hnd.
    apply NoDup_app in Hnd as (_ & Hdis & _). intros o Ho Ht. by apply (Hdis o Ht). }
  assert (Forall (decoding ctx (rs_gens st)) rest) as Hd'.
  { apply Forall_forall. intros g Hg. apply (decoding_gens ctx (l_gens l)); [|by eapply Forall_forall in Hd].
    apply P2, Hdis, elem_of_app. left. by apply (list_elem_of_fmap_2 gobj). }
  destruct (settings_fields _ _ P4) as (_ & Eps & _).
  rewrite stream_all.
  2:{ intros q Hq. assert (qobj q ∈ gobj <$> todo) as Ht by (rewrite <-(results_qobj qs todo rs keeps Hl P1); by apply (list_elem_of_fmap_2 qobj)).
      intros Ho. apply (Hdis (qobj q)); [|done]. rewrite !fmap_app, !elem_of_app. by right; right; right. }
  constructor; [constructor|]; cbn [set_l_outputs set_result set_l_gens set_l_sched set_inflight set_pools l_sched s_pools waiting_queue running
    waiting_tree inflight_middle_chunks chunked_req l_gens l_next l_ratio l_delay l_pending_abort]; try done.
  - by rewrite Permutation_app_comm.
  - by rewrite Eps.
  - by rewrite P6.
  - apply Forall_forall. intros q Hq. apply (queued_pool (s_pools (l_sched l)).2); [done|].
    apply (queued_ready _ (l_gens l)); [|by eapply Forall_forall in M5].
    apply gen_ready_ext; [|done..]. apply P2, Hdis, elem_of_app. right. rewrite fmap_app. apply elem_of_app. left. by apply (list_elem_of_fmap_2 qobj).
  - rewrite <-M6. unfold everybody. cbn [set_l_outputs set_result set_l_gens set_l_sched set_inflight set_pools l_sched waiting_queue s_aborts l_outputs].
    rewrite !fmap_app, (results_objs qs todo rs keeps Hl P1). solve_Permutation.
  - by rewrite P3.
  - cbn [l_outputs]. apply Forall_app. split; [done|by eapply results_ended].
  - apply Forall_app. by split.
Qed.
End results.

Section forward.
Context `{TextOps} `{Settings} `{RetractSettings} `{Clock} `{SetOrder} `{HashLaws} `{KVFree} `{Census}.
Context (Ko K : KVAllocator) `{KVGroup} `{!GroupLaws K Ko}.
Context (lc : LoopConfig) (ctx : Z).
Hypothesis Hlc : config_ok lc ctx.

Lemma owners_committed c A p gs : batch_inv c A p gs → Forall (λ g, kv_committed_len (g_kv g) = g_len g) gs.
Proof. intros Hb. eapply Forall_impl; [apply Hb|]. intros g Hg. apply (ru_plain _ _ _ _ Hg), Hlc. Qed.

Lemma decode_results te l A gs :
  turn_ok te → frame_inv lc ctx l A gs → Forall (λ g, sampling ctx (l_gens l) g ∧ out_len (g_req g) < max_new_tokens (g_req g)) gs →
  sreq <$> running (l_sched l) = g_req <$> gs → l_rows l = g_idx <$> gs → l_lens l = (λ g, kv_committed_len (g_kv g)) <$> gs →
  ∃ l', process_batch_result te RunningBatch l = Ok (RunningBatch, l') ∧ loop_inv lc ctx (set_l_last l' RunningBatch).
Proof.
  intros Hte Hi Hs E1 E2 E3. pose proof (f_equal length E1) as El. rewrite !length_fmap in El.
  pose proof (inv_nodup _ _ _ _ _ Hi) as Hnd. apply NoDup_app in Hnd as (Hnd & _ & _).
  destruct (decode_batch K Ko ctx (te_forward te (running (l_sched l))) (result_state l) A gs [])
    as (rs & st & A' & keeps & Hrun & Hb & Hp); try done.
  { by rewrite (to_forward _ Hte). }
  { eapply Forall_impl; [exact Hs|]. by intros g [? _]. }
  { rewrite app_nil_r. apply Hi. }
  { apply Hi. }
  pose proof (results_inv lc ctx l A A' [] gs (running (l_sched l)) rs keeps st Hi (Forall_nil_2 _) El) as Hi'.
  specialize (Hi' ltac:(eapply Forall_impl; [exact Hs|]; intros g [_ ?]; lia) Hp Hb).
  unfold process_batch_result. rewrite E1, Hrun. cbn [mbind res_bind]. eexists. split; [done|].
  pose proof (pr_out _ _ _ _ _ _ Hp) as HF. rewrite app_nil_r in Hb.
  exists A', (omap id keeps), []. rewrite app_nil_r. split; [|split; [|done]].
  - destruct Hi' as [[? ? ? ? ? ? ? ? ? ? ? ? ? ?] ?]. constructor; [constructor|]; try done.
    cbn [set_l_last set_l_sched l_sched set_running running].
    apply (proj1 (Forall_fmap sreq (λ r, out_len r ≤ max_new_tokens r) _)).
    rewrite zip_with_sreq by (rewrite <-(Forall3_length_lm _ _ _ _ HF); lia).
    clear -Hs HF. induction HF as [|g r k gs rs keeps (_ & [G1 G2] & _) _ IH]; [done|]. apply Forall_cons in Hs as [[_ Hlt] Hs].
    constructor; [|by apply IH]. unfold out_len in *. rewrite G1, G2. lia.
  - right. pose proof (seated_results (running_batch l) gs rs keeps E1 E2 E3 HF) as Hse.
    destruct Hse as [S1 S2 S3 S4]; [apply Forall_app; split; [eapply owners_committed, Hi|by eapply owners_committed]|]. by constructor.
Qed.

Lemma prefill_results te l A gs new b :
  turn_ok te → frame_inv lc ctx l A (gs ++ new) → Forall (decoding ctx (l_gens l)) gs → seating (running_batch l) gs →
  Forall (λ g, sampling ctx (l_gens l) g ∧ prefilled g ∧ out_len (g_req g) + 1 ≤ Z.max 1 (max_new_tokens (g_req g))) new → b_chunked b = None →
  sreq <$> b_reqs b = g_req <$> new → b_rows b = g_idx <$> new → b_lens b = (λ g, kv_committed_len (g_kv g)) <$> new →
  ∃ l' b', process_batch_result te (PrefillBatch b) l = Ok (PrefillBatch b', l') ∧ loop_inv lc ctx (set_l_last l' (PrefillBatch b')).
Proof.
  intros Hte Hi Hd Hse Hs Hc E1 E2 E3. pose proof (f_equal length E1) as El. rewrite !length_fmap in El.
  pose proof (inv_nodup _ _ _ _ _ Hi) as Hnd. unfold everybody in Hnd. rewrite fmap_app, <-app_assoc in Hnd.
  apply NoDup_app in Hnd as (_ & _ & (Hnd & _ & _)%NoDup_app).
  destruct (prefill_batch K Ko ctx (te_forward te (b_reqs b)) (result_state l) A new gs)
    as (rs & st & A' & keeps & Hrun & Hb & Hp); try done.
  { by rewrite (to_forward _ Hte). }
  { eapply Forall_impl; [exact Hs|]. intros g (? & ? & _). split; [done|]. split; [done|]. cbn. by rewrite (bs_inflight _ _ _ _ _ Hi). }
  { rewrite Permutation_app_comm. apply Hi. }
  { apply Hi. }
  pose proof (results_inv lc ctx l A A' gs new (b_reqs b) rs keeps st Hi Hd El) as Hi'.
  specialize (Hi' ltac:(eapply Forall_impl; [exact Hs|]; by intros g (_ & _ & ?)) Hp Hb).
  pose proof (owners_committed _ _ _ _ (bs_memory _ _ _ _ _ Hi)) as Hcm. apply Forall_app in Hcm as [_ Hcm].
  pose proof (owners_committed _ _ _ _ Hb) as Hck. apply Forall_app in Hck as [Hck _].
  unfold process_batch_result. rewrite E1, Hrun. cbn [mbind res_bind].
  assert (unfinished_chunks (inflight_middle_chunks (l_sched l)) (b_reqs b) = []) as ->.
  { unfold unfinished_chunks. rewrite (bs_inflight _ _ _ _ _ Hi). rewrite filter_is_false; [done|]. intros q _. by rewrite lookup_empty. }
  eexists _, _. split; [done|].
  exists A', gs, (omap id keeps). split; [by apply relast_inv|]. split; [done|]. split; [|done]. right.
  apply (seated_results b new rs keeps E1 E2 E3 (pr_out _ _ _ _ _ _ Hp)). by apply Forall_app.
Qed.
End forward.
