(* ===== verification/LoopNext.v ===== *)
(** * The next batch

    A prefill pass and a decode step of the event loop keep its invariant: they return, and
    the batch they hand to the forward pass owns the memory the pass will write. *)

From S2P Require Import Prelude PyFloat PySort PrefillDelayer Allocator AllocKernels RadixKey PrefixTree TreeNode ReqPool Events.
From S2P Require Import RadixCache RadixInv RadixEvict ReqCache PrefillAdder RadixPools SchedulePolicy PolicyTheorems Allocation AllocWrites BatchAlloc RunningBatch Retract RetractTheorems DecodeAlloc DecodeTheorems.
From S2P Require Import Finish FinishTheorems PrefillLoop LoopConserve LoopTheorems LoopOwn LoopBatch LoopAlloc KvGroup BatchResult ResultLoop LeakCheck LeakTheorems Intake IntakeTheorems EventLoop LoopSeats LoopInv LoopSteps LoopResults.
Import PrefillAdder.

Lemma kept_all (reqs : list QReq) : kept_indices reqs reqs = seq 0 (length reqs).
Proof.
  unfold kept_indices. rewrite <-(imap_fst reqs). f_equal. apply filter_all, Forall_forall. intros [i q] Hq. cbn.
  rewrite is_in_fmap. apply bool_decide_true, list_elem_of_fmap_2. apply list_elem_of_lookup in Hq as [k Hk].
  rewrite list_lookup_imap in Hk. destruct (reqs !! k) eqn:E; [|done]. injection Hk as _ <-. by eapply list_elem_of_lookup_2.
Qed.

Lemma filter_keep_all b : 
  ∃ b', filter_keep (kept_indices (b_reqs b) (b_reqs b)) b = Ok b' ∧ b_reqs b' = b_reqs b ∧ b_rows b' = b_rows b ∧ b_lens b' = b_lens b.
Proof.
  unfold filter_keep. rewrite kept_all. destruct (Z.eqb_spec (zlen (seq 0 (length (b_reqs b)))) 0) as [E|_].
  - apply zlen_0, (f_equal length) in E. rewrite length_seq in E. apply nil_length_inv in E. eexists. split; [done|]. by rewrite E.
  - assert ((zlen (seq 0 (length (b_reqs b))) =? zlen (b_reqs b)) = true) as ->; [|by exists b].
    apply Z.eqb_eq. unfold zlen. by rewrite length_seq.
Qed.

Section prefill.
Context `{TextOps} `{Settings} `{RetractSettings} `{Clock} `{SetOrder} `{HashLaws} `{KVAllocator} `{KVFree} `{PolicySettings} `{Census}.
Context `{BatchAllocator} `{!BatchLaws} (d : Device) `{!DeviceLaws d}.
Context (lc : LoopConfig) (ctx : Z).
Hypothesis Hlc : config_ok lc ctx.
Local Abbreviation frame_inv := (frame_inv lc ctx).

(** The batch and the scheduler agree on the chunked request. *)
Lemma pass_chunk cf shuffle order now sp e s nb sp' s' :
  get_new_batch_prefill_raw d cf shuffle order now sp e s = Ok (Some nb, sp', s') → nb_chunked nb = qobj <$> chunked_req s'.
Proof.
  unfold get_new_batch_prefill_raw. destruct (_ && _); [done|]. destruct (_ && _); [done|]. destruct (_ && _); [done|].
  intros ([[queue c] w] & _ & Hrun)%bind_Ok. destruct (match test_retract_no_prefill_bs cf with Some _ => _ | None => _ end); [done|].
  apply bind_Ok in Hrun as ([[ch was] a] & _ & ([[queue' a'] full] & _ & Hrun)%bind_Ok).
  unfold finish_pass in Hrun. destruct (can_run_list a') as [|r0 rs]; [done|].
  apply bind_Ok in Hrun as ([waiting ab] & _ & (ch' & _ & (b & _ & ([[[out reqs] p] c'] & _ & Hrun)%bind_Ok)%bind_Ok)%bind_Ok).
  by injection Hrun as <- <- <-.
Qed.

(** The batch a pass hands over. *)
Definition ready_prefill (l : Loop) (b : ScheduleBatch) : Prop :=
  ∃ A gs new, frame_inv l A (gs ++ new) ∧ Forall (decoding ctx (l_gens l)) gs ∧ seating (running_batch l) gs ∧
    Forall (λ g, sampling ctx (l_gens l) g ∧ prefilled g ∧ out_len (g_req g) + 1 ≤ Z.max 1 (max_new_tokens (g_req g))) new ∧ b_chunked b = None ∧
    sreq <$> b_reqs b = g_req <$> new ∧ b_rows b = g_idx <$> new ∧ b_lens b = (λ g, kv_committed_len (g_kv g)) <$> new.

(** The requests of the batch are those of the queue. *)
Lemma batch_core p gens (queue l : list QReq) q :
  core <$> l ≡ₚ core <$> queue → Forall (queued_ok p gens) queue → q ∈ l → ∃ q0, queued_ok p gens q0 ∧ core q = core q0.
Proof.
  intros Hp Hq Hin. assert (core q ∈ core <$> queue) as Hc by (rewrite <-Hp; by apply (list_elem_of_fmap_2 core)).
  apply list_elem_of_fmap in Hc as (q0 & E & Hin0). exists q0. split; [by eapply Forall_forall in Hq|done].
Qed.

Lemma core_qobj (l k : list QReq) : core <$> l ≡ₚ core <$> k → qobj <$> l ≡ₚ qobj <$> k.
Proof.
  intros Hp. assert (∀ l : list QReq, qobj <$> l = (λ x, x.1.1.1) <$> (core <$> l)) as E by (intros l'; by rewrite <-list_fmap_compose).
  rewrite !E. by apply fmap_Permutation.
Qed.

(** An admitted request waits for its first token. *)
Lemma new_sampling p gens g q q0 :
  queued_ok p gens q0 → core q = core q0 → sreq q = g_req g → max_context_len p = ctx → prefilled g →
  full_untruncated_fill_ids (base (g_req g)) = g_ids g → g_len g = zlen (g_ids g) →
  sampling ctx gens g ∧ out_len (g_req g) + 1 ≤ Z.max 1 (max_new_tokens (g_req g)).
Proof.
  unfold core, ident, qobj. intros [_ Q2 Q3 Q4 Q5] [= Eo _ Em Ef Eori Eout] Er Ec Hpf Hfill Hlen. rewrite Er in *.
  split; [constructor|unfold out_len in *; by rewrite Em, Eout].
  - congruence.
  - by eapply gen_ready_ext.
  - done.
  - unfold q_origin in Q4. rewrite <-Ec, Eori, Em. done.
  - exists (length (output_ids (base (g_req g)))). split; [done|]. rewrite Hfill. unfold g_ids. by rewrite firstn_all.
  - apply Hpf.
Qed.

Lemma new_rows c A p gs new (reqs : list QReq) :
  batch_inv c A p (gs ++ new) → sreq <$> reqs = g_req <$> new → Forall prefilled new →
  (λ q, default 0 (req_pool_idx (kv (base (sreq q))))) <$> reqs = g_idx <$> new ∧
  (λ q, from_option snd 0 (extend_range (base (sreq q)))) <$> reqs = (λ g, kv_committed_len (g_kv g)) <$> new.
Proof.
  intros Hb E Hpf. pose proof (bi_runs _ _ _ _ Hb) as Hr. apply Forall_app in Hr as [_ Hr].
  change (λ q : QReq, default 0 (req_pool_idx (kv (base (sreq q))))) with ((λ s : SReq, default 0 (req_pool_idx (kv (base s)))) ∘ sreq).
  change (λ q : QReq, from_option snd 0 (extend_range (base (sreq q)))) with ((λ s : SReq, from_option snd 0 (extend_range (base s))) ∘ sreq).
  rewrite !list_fmap_compose, E, <-!list_fmap_compose. split; apply list_fmap_ext; intros k g Hk; cbn.
  - eapply Forall_lookup in Hr; [|exact Hk]. fold (g_kv g). by rewrite (ru_idx _ _ _ _ Hr).
  - eapply Forall_lookup in Hpf; [|exact Hk]. rewrite (pf_range _ Hpf), (pf_committed _ Hpf). done.
Qed.

Lemma prefill_pass_inv te l :
  turn_ok te → mid_inv lc ctx l →
  ∃ nb l', prefill_pass d lc te l = Ok (nb, l') ∧ match nb with None => mid_inv lc ctx l' | Some b => ready_prefill l' b end.
Proof.
  intros Hte (A & gs & [Hi Hd] & Hse). unfold prefill_pass. set (s := set_ratio (l_sched l) _).
  destruct (s_pools (l_sched l)) as [c p] eqn:Es. pose proof Hi as [M1 M2 M3 M4 M5 M6 M7 (seen & M8) M9 M10 M11 M12 M13 M14].
  rewrite Es in *. cbn [fst snd] in *. pose proof (inv_nodup _ _ _ _ _ Hi) as Hnd.
  apply NoDup_app in Hnd as (_ & _ & Hnd). rewrite fmap_app in Hnd. apply NoDup_app in Hnd as (Hnd & _ & _).
  destruct (pass_spec d (lc_sched lc) (te_shuffle te) (te_order te) (te_now te) (te_env te) s c A p gs seen)
    as (b & s' & queue & Hrun & Hpass & Hq & _); try done; try apply Hlc; try apply Hte.
  { apply M9. }
  { eapply Forall_impl; [exact M5|]. by intros q [? _ _ _ _]. }
  unfold get_new_batch_prefill. rewrite M13. cbn [fmap option_fmap option_map]. rewrite Hrun. cbn [mbind res_bind].
  destruct Hpass as [(A' & new & Hb & Enew & _ & Hnew) F2 F3 F4 F5 F6 F7 F8 F9 F10 F11]. destruct (F11 (co_chunk _ _ Hlc)) as [Hch Hin].
  change (running s) with (running (l_sched l)) in *. change (s_aborts s) with (s_aborts (l_sched l)) in *.
  change (s_pools s) with (s_pools (l_sched l)) in *. change (waiting_queue s) with (waiting_queue (l_sched l)) in *.
  rewrite Es in *. cbn [fst snd] in *. rewrite F4.
  destruct (filter_keep_all (running_batch l)) as (r & Hr & R1 & R2 & R3). cbn [running_batch b_reqs] in Hr. rewrite Hr. cbn [mbind res_bind].
  assert (core <$> batch_reqs b ++ waiting_queue s' ≡ₚ core <$> waiting_queue (l_sched l)) as Hcore by (by rewrite F2, Hq).
  set (l' := set_l_delay _ None).
  assert (frame_inv l' A' (gs ++ new)) as Hi'.
  { destruct (settings_fields _ _ F7) as (_ & Eps & _). pose proof (proj2 F8) as Ectx.
    constructor; cbn [l' set_l_delay set_l_sched l_sched l_gens l_next l_ratio l_pending_abort set_running_batch l_delay]; try done.
    - by apply (table_reshaped p).
    - by rewrite Eps.
    - by rewrite Ectx.
    - apply Forall_forall. intros q Hin'. destruct (batch_core p (l_gens l) _ _ q Hcore M5) as (q0 & Hq0 & Ec); [apply elem_of_app; by right|].
      apply (queued_core p _ (l_gens l) q0); try done. by eapply Forall_forall in F3.
    - rewrite <-M6. unfold everybody. cbn [l' set_l_delay set_l_sched l_sched l_outputs set_running_batch].
      apply core_qobj in Hcore. rewrite fmap_app in Hcore. rewrite F5, !(fmap_app qobj (waiting_queue _)), <-Hcore, !fmap_app.
      assert (gobj <$> new = qobj <$> batch_reqs b) as ->; [|solve_Permutation].
      change gobj with (obj ∘ g_req). rewrite list_fmap_compose, Enew, <-list_fmap_compose. done.
    - by rewrite F4.
    - by rewrite Hin. }
  assert (seating (running_batch l') gs) as Hse' by (apply (seating_same (running_batch l)); [exact F4|exact R2|exact R3|done]).
  eexists _, l'. split; [done|]. destruct b as [nb|].
  - assert (Forall prefilled new) as Hpf by (eapply Forall_impl; [exact Hnew|]; by intros g [? _]).
    destruct (new_rows _ _ _ gs new (nb_reqs nb) Hb (eq_sym Enew) Hpf) as [Erow Elen].
    exists A', gs, new. split_and!; try done; [|cbn; by rewrite (pass_chunk _ _ _ _ _ _ _ _ _ _ Hrun), Hch].
    apply Forall_forall. intros g Hg. eapply Forall_forall in Hnew as (N1 & N2 & N3); [|exact Hg].
    assert (g_req g ∈ sreq <$> nb_reqs nb) as Hin' by (change (nb_reqs nb) with (batch_reqs (Some nb)); rewrite <-Enew; by apply list_elem_of_fmap_2).
    apply list_elem_of_fmap in Hin' as (q & Eq & Hq'). destruct (batch_core p (l_gens l) _ _ q Hcore M5) as (q0 & Hq0 & Ec); [apply elem_of_app; by left|].
    destruct (new_sampling p (l_gens l) g q q0) as [? ?]; try done. by apply N3, Hlc.
  - cbn in Enew. apply fmap_nil_inv in Enew as ->. rewrite app_nil_r in Hi'. exists A', gs. by split; [constructor|].
Qed.
End prefill.

(** ** Decode steps *)

Lemma objects_sreq (qs : list QReq) (ss : list SReq) : Forall (λ s, obj s ∈ qobj <$> qs) ss → sreq <$> objects_of qs ss = ss.
Proof.
  induction 1 as [|s ss Hs _ IH]; [done|]. unfold objects_of in *. cbn [omap list_omap].
  destruct (List.find (λ q, (qobj q =? obj s)%nat) qs) as [q|] eqn:Hf; [cbn; by rewrite IH|].
  apply list_elem_of_fmap in Hs as (q & Eq & Hq%list_elem_of_In). eapply find_none in Hf; [|exact Hq]. cbn in Hf. by rewrite Eq, Nat.eqb_refl in Hf.
Qed.

Lemma objects_qobj qs ss : Forall (λ s, obj s ∈ qobj <$> qs) ss → qobj <$> objects_of qs ss = obj <$> ss.
Proof. intros Hs. change qobj with (obj ∘ sreq). by rewrite list_fmap_compose, objects_sreq. Qed.

Section decode.
Context `{TextOps} `{Settings} `{RetractSettings} `{Clock} `{SetOrder} `{HashLaws} `{KVAllocator} `{KVFree} `{RetractionPolicy} `{Census}.
Context `{BatchAllocator} `{!BatchLaws} (d : Device).
Context (lc : LoopConfig) (ctx : Z).
Hypothesis Hlc : config_ok lc ctx.
Local Abbreviation frame_inv := (frame_inv lc ctx).

Definition ready_decode (l : Loop) : Prop :=
  ∃ A gs, frame_inv l A gs ∧ Forall (λ g, sampling ctx (l_gens l) g ∧ out_len (g_req g) < max_new_tokens (g_req g)) gs ∧
    sreq <$> running (l_sched l) = g_req <$> gs ∧ l_rows l = g_idx <$> gs ∧ l_lens l = (λ g, kv_committed_len (g_kv g)) <$> gs.

Lemma decoding_grows c A p gens g : runs c A p g → table_wf p → max_context_len p = ctx → decoding ctx gens g → can_grow g.
Proof.
  intros Hg Hwf Ec [_ _ D3 D4 D5 _ _]. split; [|lia].
  assert (zlen (g_full g) = ctx) as ->; [|unfold g_ids in D3; rewrite zlen_app in D3; lia].
  rewrite <-Ec. eapply Forall_lookup in Hwf; [exact Hwf|]. exact (ru_row _ _ _ _ Hg).
Qed.

(** A request with its next slot. *)
Lemma stepped_sampling gens g e :
  decoding ctx gens g → sampling ctx gens (next_g g e) ∧ out_len (g_req (next_g g e)) < max_new_tokens (g_req (next_g g e)).
Proof. intros [D1 D2 D3 D4 D5 D6 D7]. split; [|exact D4]. constructor; try done. Qed.

Lemma stepped_all gens kept ers :
  Forall (decoding ctx gens) kept →
  Forall (λ g, sampling ctx gens g ∧ out_len (g_req g) < max_new_tokens (g_req g)) (zip_with next_g kept ers).
Proof. intros Hd. revert ers. induction Hd as [|g kept Hg _ IH]; intros [|e ers]; try done. constructor; [by apply stepped_sampling|apply IH]. Qed.

(** The objects of the batch are in the running batch. *)
Lemma found_objs l gs (ss : list SReq) :
  seating (running_batch l) gs → obj <$> ss ⊆ obj <$> (g_req <$> gs) → Forall (λ s, obj s ∈ qobj <$> running (l_sched l)) ss.
Proof.
  intros Hs%seating_reqs Hsub. apply Forall_forall. intros s Hin.
  assert (obj s ∈ obj <$> (g_req <$> gs)) as Ho by (by apply Hsub, list_elem_of_fmap_2). rewrite <-Hs in Ho.
  apply list_elem_of_fmap in Ho as (r & -> & [_ Hr]%list_elem_of_filter). apply list_elem_of_fmap in Hr as (q & -> & Hq).
  by apply (list_elem_of_fmap_2 qobj).
Qed.

Lemma decode_step_inv te l :
  mid_inv lc ctx l →
  ∃ run l', decode_step d lc te l = Ok (run, l') ∧ if (run : bool) then ready_decode l' else mid_inv lc ctx l'.
Proof.
  intros (A & gs & [Hi Hd] & Hse). unfold decode_step.
  destruct (is_empty (running_batch l)) eqn:He; [exists false, l; split; [done|]; by exists A, gs; split; [constructor|]|].
  cbn [orb]. destruct (b_prefill_only (running_batch l)); [exists false, l; split; [done|]; by exists A, gs; split; [constructor|]|].
  destruct Hse as [[E _]|Hse]; [unfold is_empty in He; by rewrite E in He|].
  set (force := match test_retract lc with Some _ => _ | None => _ end).
  destruct (s_pools (l_sched l)) as [c p] eqn:Es. pose proof Hi as [M1 M2 M3 M4 M5 M6 M7 M8 M9 M10 M11 M12 M13 M14].
  rewrite Es in *. cbn [fst snd] in *. pose proof (bi_runs _ _ _ _ M1) as Hr.
  assert (Forall can_grow gs) as Hgrow.
  { apply Forall_forall. intros g Hg. apply (decoding_grows c A p (l_gens l)); try done; [by eapply Forall_forall in Hr|by eapply Forall_forall in Hd]. }
  destruct (turn_spec (lc_spec lc) (co_spec _ _ Hlc) d force (batch_is_full (l_sched l)) (l_ratio l) _ c A p gs M1 (seated_live _ _ Hse) Hgrow)
    as (t & kept & ers & A' & Hrun & [T1 T2 T3 T4 T5 T6 T7 (given & Hgs & Hgiven) T9 T10] & _).
  rewrite Hrun. cbn [mbind res_bind].
  assert (Forall (decoding ctx (l_gens l)) kept) as Hdk by (apply Forall_forall; intros g Hg; eapply Forall_forall in Hd; [exact Hd|by apply T2]).
  assert (ratio_ok (t_ratio t)) as Hratio.
  { eapply turn_ratio; [apply Hlc| |exact M9|exact Hrun]. cbn [as_decode d_reqs]. apply Forall_fmap. cbn.
    eapply Forall_impl; [exact M7|]. intros q Hq. unfold out_len in Hq. pose proof (zlen_nonneg (output_ids (base (sreq q)))). cbn. lia. }
  destruct (settings_fields _ _ T9) as (_ & Eps & _). pose proof (proj2 T10) as Ectx.
  set (p' := (t_pools t).2) in *. set (qs := running (l_sched l)) in *.
  assert (∀ ss, ss ⊆ d_reqs (t_batch t) ++ t_retracted t ++ t_aborted t → Forall (λ s, obj s ∈ qobj <$> qs) ss) as Hfound.
  { intros ss Hss. apply (found_objs l gs); [by right|]. intros o Ho. rewrite <-T7. apply list_elem_of_fmap in Ho as (s & -> & Hs).
    by apply list_elem_of_fmap_2, Hss. }
  assert (Forall (λ s, obj s ∈ qobj <$> qs) (d_reqs (t_batch t))) as F1 by (apply Hfound; intros s Hs; apply elem_of_app; by left).
  assert (Forall (λ s, obj s ∈ qobj <$> qs) (t_retracted t)) as F2 by (apply Hfound; intros s Hs; rewrite !elem_of_app; by right; left).
  assert (Forall (λ s, obj s ∈ qobj <$> qs) (t_aborted t)) as F3 by (apply Hfound; intros s Hs; rewrite !elem_of_app; by right; right).
  assert (Forall (queued_ok p' (l_gens l)) (objects_of qs (t_retracted t))) as Hret.
  { apply Forall_forall. intros q Hq. assert (sreq q ∈ t_retracted t) as Hin by (rewrite <-(objects_sreq qs (t_retracted t) F2); by apply list_elem_of_fmap_2).
    assert (sreq q ∈ given_up given) as Hup by (rewrite <-Hgiven; apply elem_of_app; by left). apply list_elem_of_fmap in Hup as (g & Eg & Hg%Hgs).
    apply (queued_retracted p' (l_gens l) q g Eg); [eapply Forall_forall in Hr; [|exact Hg]; apply Hr|].
    rewrite Ectx, M4. by eapply Forall_forall in Hd. }
  destruct (add_requests_ok (lc_sched lc) (te_now te) (queued_ok p' (l_gens l)) (co_queue _ _ Hlc) (queued_entry _ _ _)
    (objects_of qs (t_retracted t)) (waiting_queue (l_sched l)) (s_aborts (l_sched l) ++ objects_of qs (t_aborted t)) Hret)
    as (queue & aborts & -> & Hperm & Hqueue).
  { eapply Forall_impl; [exact M5|]. intros q. by apply queued_pool. }
  cbn [mbind res_bind]. set (l' := set_l_ratio _ _).
  pose proof (stepped_all (l_gens l) kept ers Hdk) as Hsam.
  assert (sreq <$> objects_of qs (d_reqs (t_batch t)) = g_req <$> zip_with next_g kept ers) as Eb by (by rewrite objects_sreq).
  assert (frame_inv l' A' (zip_with next_g kept ers)) as Hi'.
  { constructor; try done.
    - by apply (table_reshaped p).
    - cbn. by rewrite Eps.
    - rewrite <-M4. exact Ectx.
    - change (l_next l') with (l_next l). rewrite <-M6. unfold everybody. cbn [l' set_l_ratio set_running_batch set_l_sched l_sched set_queue set_running waiting_queue s_aborts l_outputs].
      rewrite app_assoc, fmap_app, Hperm, !fmap_app, !objects_qobj by done. apply (f_equal (fmap obj)) in T5. rewrite <-list_fmap_compose in T5.
      change (obj ∘ g_req) with gobj in T5. rewrite <-T5. rewrite <-list_fmap_compose in T7. change (obj ∘ g_req) with gobj in T7.
      rewrite <-T7, !fmap_app. solve_Permutation.
    - cbn. apply (proj1 (Forall_fmap sreq (λ r, out_len r ≤ max_new_tokens r) _)). rewrite Eb. apply Forall_fmap.
      eapply Forall_impl; [exact Hsam|]. intros g [_ Hg]. cbn. lia. }
  eexists _, l'. split; [done|]. unfold is_empty. cbn [b_reqs].
  destruct (Z.eqb_spec (zlen (objects_of qs (d_reqs (t_batch t)))) 0) as [E0%zlen_0|Hne]; cbn [negb].
  - rewrite E0 in Eb. cbn in Eb. symmetry in Eb. apply fmap_nil_inv in Eb. rewrite Eb in Hi'. exists A', []. split; [by constructor|].
    left. by split.
  - exists A', (zip_with next_g kept ers). split; [done|]. split; [done|]. destruct T6 as [->|(_ & B2 & B3)]; [by rewrite T5 in Hne|].
    by split_and!.
Qed.
End decode.
