(* ===== verification/EventTheorems.v ===== *)
(** * The event loop never fails

    Turn after turn the scheduler returns, its memory checks pass, and every request it
    was given is in one place. *)

From S2P Require Import Prelude PyFloat PySort PrefillDelayer Allocator AllocKernels RadixKey PrefixTree TreeNode ReqPool Events.
From S2P Require Import RadixCache RadixInv RadixEvict RadixTheorems ReqCache PrefillAdder PrefillTheorems RadixPools SchedulePolicy PolicyTheorems Allocation AllocWrites BatchAlloc RunningBatch Retract RetractTheorems DecodeAlloc DecodeTheorems.
From S2P Require Import Finish FinishTheorems PrefillLoop LoopConserve LoopTheorems LoopOwn LoopBatch LoopAlloc KvGroup BatchResult ResultLoop LeakCheck LeakTheorems Intake IntakeTheorems EventLoop LoopSeats LoopInv LoopSteps LoopResults LoopNext.
Import PrefillAdder.

Section turn.
Context `{TextOps} `{Settings} `{RetractSettings} `{Clock} `{SetOrder} `{HashLaws} `{KVFree} `{PolicySettings} `{RetractionPolicy} `{Census}.
Context (Ko K : KVAllocator) `{KVGroup} `{!GroupLaws K Ko} `{!@ListedPool K} `{BatchAllocator} `{!BatchLaws}.
Context (d : Device) `{!DeviceLaws d} (lc : LoopConfig) (ctx : Z).
Hypothesis Hlc : config_ok lc ctx.

(** The counters are not part of the invariant. *)
Lemma frame_interval l A gs n : frame_inv lc ctx l A gs → frame_inv lc ctx (set_l_interval l n) A gs.
Proof. by intros []. Qed.
Lemma frame_forward l A gs n : frame_inv lc ctx l A gs → frame_inv lc ctx (set_l_forward l n) A gs.
Proof. by intros []. Qed.

(** What the next batch owns. *)
Definition next_ready (b : LastBatch) (l : Loop) : Prop :=
  match b with
  | NoBatch => mid_inv lc ctx l
  | RunningBatch => ready_decode lc ctx l
  | PrefillBatch b => ready_prefill lc ctx l b
  end.

Lemma next_batch_inv te l :
  turn_ok te → loop_inv lc ctx l → ∃ b l', get_next_batch_to_run d lc te l = Ok (b, l') ∧ next_ready b l'.
Proof.
  intros Hte (A & gr & gl & Hi & Hr & Hl). unfold get_next_batch_to_run, process_pending_chunked_abort.
  rewrite (bs_pending _ _ _ _ _ Hi). cbn [mbind res_bind].
  destruct (timeouts_inv lc ctx (te_now te) (te_entry te) l A (gr ++ gl) Hi) as [Hi1 [B1 B2]].
  set (l1 := set_l_gens _ _) in *. unfold stash_chunked_request. rewrite (bs_chunked _ _ _ _ _ Hi1). cbn [mbind res_bind].
  replace (set_l_sched l1 (l_sched l1)) with l1 by (by destruct l1).
  destruct (merge_inv lc ctx l1) as (l2 & -> & Hm2); [by exists A, gr, gl; rewrite B1, B2|]. cbn [mbind res_bind].
  destruct (drop_only_inv lc ctx l2 Hm2) as (l3 & -> & Hm3). cbn [mbind res_bind].
  assert (∃ l4, (should_defer_prefill l3).2 = l4 ∧ mid_inv lc ctx l4) as (l4 & E4 & Hm4).
  { eexists. split; [done|]. unfold should_defer_prefill. destruct (_ =? 0); [done|]. destruct Hm3 as (A3 & gs & [Hi3 Hd3] & Hs3).
    exists A3, gs. split; [constructor; [by apply frame_interval|done]|done]. }
  destruct (should_defer_prefill l3) as [defer l4']. cbn in E4. subst l4'.
  assert (∃ nb l5, (if defer then Ok (None, l4) else prefill_pass d lc te l4) = Ok (nb, l5) ∧
    match nb with None => mid_inv lc ctx l5 | Some b => ready_prefill lc ctx l5 b end) as (nb & l5 & -> & Hn5).
  { destruct defer; [by exists None, l4|]. by apply prefill_pass_inv. }
  cbn [mbind res_bind]. destruct nb as [b|].
  - eexists _, _. split; [done|]. destruct (_ =? 0); [done|]. destruct Hn5 as (A5 & gs & new & Hi5 & ?).
    exists A5, gs, new. split; [by apply frame_interval|done].
  - destruct (decode_step_inv d lc ctx Hlc te l5 Hn5) as (run & l6 & -> & Hn6). cbn [mbind res_bind]. eexists _, l6. split; [done|]. by destruct run.
Qed.

Lemma idle_inv l : mid_inv lc ctx l → ∃ l', on_idle lc l = Ok l' ∧ loop_inv lc ctx (set_l_last l' NoBatch).
Proof.
  intros (A & gs & Hi & Hs). unfold on_idle.
  assert (∀ l', frame_inv lc ctx l' A gs → l_gens l' = l_gens l → running_batch l' = running_batch l → loop_inv lc ctx (set_l_last l' NoBatch)) as Hend.
  { intros l' Hi' Eg Eb. exists A, gs, []. rewrite app_nil_r. split; [|split; [|done]].
    - apply relast_inv. constructor; [done|]. rewrite Eg. apply Hi.
    - change (running_batch (set_l_last l' NoBatch)) with (running_batch l'). by rewrite Eb. }
  destruct (is_fully_idle l) eqn:E; cbn [negb]; [|exists l; split; [done|]; apply Hend; try done; apply Hi].
  unfold is_fully_idle in E. apply andb_true_iff in E as [[[E _]%andb_true_iff _]%andb_true_iff _]. apply Z.eqb_eq, zlen_0 in E.
  pose proof (seating_nil _ gs Hs E) as ->. pose proof (bs_memory _ _ _ _ _ Hi) as Hb. rewrite (surjective_pairing (s_pools (l_sched l))).
  rewrite (co_total _ _ Hlc), (idle_check _ _ A _ Hb). cbn [mbind res_bind]. eexists. split; [done|]. apply Hend; try done.
  destruct (bs_frame _ _ _ _ _ Hi). constructor; try done. by apply ratio_reset.
Qed.

(** The check after a turn. *)
Lemma busy_ok l : loop_inv lc ctx l → EventLoop.busy_check lc l = Ok tt.
Proof.
  intros (A & gr & gl & Hi & Hr & Hl). unfold EventLoop.busy_check. pose proof (bs_memory _ _ _ _ _ Hi) as Hb.
  pose proof (bi_runs _ _ _ _ Hb) as Hruns. apply Forall_app in Hruns as [Hr1 Hr2].
  pose proof (seating_holding _ _ _ _ _ Hr Hr1) as Hh. cbn [running_batch b_reqs] in Hh.
  rewrite (surjective_pairing (s_pools (l_sched l))), (co_total _ _ Hlc), (bs_page _ _ _ _ _ Hi).
  destruct (l_last l) as [| |b]; [done|subst gl; rewrite app_nil_r in Hb|destruct Hl as [Hl _]].
  - eapply (LeakTheorems.busy_check _ _ _ A _ gr gr); [exact Hb|apply Hi| |exact Hh|done]. cbn [default]. rewrite app_nil_r. exact Hh.
  - pose proof (seating_holding _ _ _ _ _ Hl Hr2) as Hh2. rewrite Permutation_app_comm in Hb.
    eapply (LeakTheorems.busy_check _ _ _ A _ (gl ++ gr) gl); [exact Hb|apply Hi| |exact Hh2|].
    + by apply holding_app.
    + intros g Hg. apply elem_of_app. by left.
Qed.

Lemma turn_inv te l : turn_ok te → loop_inv lc ctx l → ∃ l', loop_turn d lc te l = Ok l' ∧ loop_inv lc ctx l'.
Proof.
  intros Hte (A & gr & gl & Hi & Hr & Hl). unfold loop_turn.
  destruct (messages_inv lc ctx Hlc (te_now te) (te_recv te) l A (gr ++ gl) Hi (to_messages _ Hte)) as (l1 & -> & Hi1 & B1 & B2).
  cbn [mbind res_bind]. destruct (next_batch_inv te l1 Hte) as (b & l2 & -> & Hn2); [by exists A, gr, gl; rewrite B1, B2|].
  cbn [mbind res_bind].
  assert (∃ l3, (match b with
       | NoBatch => l ← on_idle lc l2; Ok (set_l_last l NoBatch)
       | _ => '(b, l) ← process_batch_result te b (set_l_forward l2 (l_forward_ct l2 + 1)); Ok (set_l_last l b)
       end) = Ok l3 ∧ loop_inv lc ctx l3) as (l3 & -> & Hn3).
  { destruct b as [| |b].
    - destruct (idle_inv l2 Hn2) as (l3 & -> & Hn3). cbn [mbind res_bind]. by eexists.
    - destruct Hn2 as (A2 & gs & Hi2 & Hs & E1 & E2 & E3).
      destruct (decode_results Ko K lc ctx Hlc te (set_l_forward l2 (l_forward_ct l2 + 1)) A2 gs) as (l3 & -> & Hn3);
        try done; [by apply frame_forward|]. cbn [mbind res_bind]. by eexists.
    - destruct Hn2 as (A2 & gs & new & Hi2 & Hd & Hse & Hs & Hc & E1 & E2 & E3).
      destruct (prefill_results Ko K lc ctx Hlc te (set_l_forward l2 (l_forward_ct l2 + 1)) A2 gs new b) as (l3 & b' & -> & Hn3);
        try done; [by apply frame_forward|]. cbn [mbind res_bind]. by eexists. }
  cbn [mbind res_bind]. rewrite (busy_ok l3 Hn3). exists l3. split; [|done]. by destruct (strict_mem_check_busy lc).
Qed.

Lemma loop_inv_turns tes l : Forall turn_ok tes → loop_inv lc ctx l → ∃ l', event_loop d lc tes l = Ok l' ∧ loop_inv lc ctx l'.
Proof.
  intros Hte. unfold event_loop. revert l. induction Hte as [|te tes Ht _ IH]; intros l Hl; [by exists l|].
  destruct (turn_inv te l Ht Hl) as (l1 & Hrun & Hn1). destruct (IH l1 Hn1) as (l2 & Hrun2 & Hn2). exists l2.
  cbn [for_each]. rewrite Hrun. cbn [mbind res_bind]. done.
Qed.
End turn.

(** ** Who arrived *)

Definition is_generate (m : Message) : bool := match m with Generate _ => true | AbortReq _ _ => false end.

(** The number of requests in the messages of the turns. *)
Definition arrivals (tes : list TurnEnv) : nat := length (List.filter is_generate (tes ≫= te_recv)).

Section arrivals.
Context `{TextOps} `{Settings} `{RetractSettings} `{Clock} `{SetOrder} `{HashOps} `{KVAllocator} `{KVFree} `{KVGroup}.
Context `{PolicySettings} `{BatchAllocator} `{RetractionPolicy}.
Context (d : Device) (lc : LoopConfig).

Lemma messages_next now ms l l' :
  process_input_requests lc now ms l = Ok l' → l_next l' = (l_next l + length (List.filter is_generate ms))%nat.
Proof.
  unfold process_input_requests. revert l. induction ms as [|m ms IH]; intros l; cbn [for_each]; [intros [= <-]; cbn; lia|].
  intros (l1 & Hm & ->%IH)%bind_Ok. destruct m as [rr|all prefix]; cbn [process_message is_generate List.filter length] in *.
  - apply bind_Ok in Hm as ([[queue aborts] gens] & _ & [= <-]). cbn. lia.
  - injection Hm as <-. done.
Qed.

Lemma next_batch_next te l b l' : get_next_batch_to_run d lc te l = Ok (b, l') → l_next l' = l_next l.
Proof.
  unfold get_next_batch_to_run. intros (l1 & Hs1 & Hrun)%bind_Ok.
  assert (l_next l1 = l_next l) as <-.
  { unfold process_pending_chunked_abort in Hs1. destruct (l_pending_abort l) as [o|]; [|by injection Hs1 as <-].
    assert (l_next (retry_abort o (set_l_pending l None)) = l_next l) as Hr.
    { unfold retry_abort. destruct (List.find _ _); [|done]. by destruct (_ || _). }
    destruct (chunked_req (l_sched l)) as [q|]; [|by injection Hs1 as <-].
    destruct (_ =? o)%nat; [|by injection Hs1 as <-]. apply bind_Ok in Hs1 as ([[r p] c] & _ & [= <-]). done. }
  apply bind_Ok in Hrun as (s & _ & (l2 & Hs2 & (l3 & Hs3 & Hrun)%bind_Ok)%bind_Ok).
  assert (l_next l2 = l_next l1) as <-.
  { unfold merge_last in Hs2. destruct (l_last _) as [| |b0]; [by injection Hs2 as <-..|]. apply bind_Ok in Hs2 as (b1 & _ & Hs2).
    destruct (is_empty b1); [by injection Hs2 as <-|]. by destruct (is_empty _); injection Hs2 as <-. }
  assert (l_next l3 = l_next l2) as <-.
  { unfold drop_prefill_only in Hs3. destruct (l_prefill_only l2); [|by injection Hs3 as <-]. by apply bind_Ok in Hs3 as (r & _ & [= <-]). }
  destruct (should_defer_prefill l3) as [defer l4] eqn:Hdf.
  assert (l_next l4 = l_next l3) as <- by (unfold should_defer_prefill in Hdf; destruct (_ =? 0); by injection Hdf as _ <-).
  apply bind_Ok in Hrun as ([nb l5] & Hs5 & Hrun).
  assert (l_next l5 = l_next l4) as <-.
  { destruct defer; [by injection Hs5 as _ <-|]. unfold prefill_pass in Hs5.
    apply bind_Ok in Hs5 as ([[nb' dl] s'] & _ & (r & _ & [= _ <-])%bind_Ok). done. }
  destruct nb as [b0|]; [injection Hrun as _ <-; by destruct (_ =? 0)|].
  apply bind_Ok in Hrun as ([run l6] & Hs6 & [= _ <-]). unfold decode_step in Hs6.
  destruct (_ || _); [by injection Hs6 as _ <-|]. apply bind_Ok in Hs6 as (t & _ & ([queue aborts] & _ & [= _ <-])%bind_Ok). done.
Qed.

Lemma result_next te b l b' l' : process_batch_result te b l = Ok (b', l') → l_next l' = l_next l.
Proof.
  destruct b as [| |b]; cbn [process_batch_result]; [by intros [= _ <-]|..];
    intros ([rs st] & _ & [= _ <-])%bind_Ok; done.
Qed.

Lemma turn_next te l l' : loop_turn d lc te l = Ok l' → l_next l' = (l_next l + length (List.filter is_generate (te_recv te)))%nat.
Proof.
  unfold loop_turn. intros (l1 & <-%messages_next & ([b l2] & Hn%next_batch_next & (l3 & Hs3 & Hrun)%bind_Ok)%bind_Ok)%bind_Ok.
  apply bind_Ok in Hrun as (u & _ & [= <-]). rewrite <-Hn. destruct b as [| |b].
  - apply bind_Ok in Hs3 as (l4 & Hs4 & [= <-]). unfold on_idle in Hs4. destruct (negb _); [by injection Hs4 as <-|].
    by apply bind_Ok in Hs4 as (u' & _ & [= <-]).
  - apply bind_Ok in Hs3 as ([b' l4] & Hs4%result_next & [= <-]). exact Hs4.
  - apply bind_Ok in Hs3 as ([b' l4] & Hs4%result_next & [= <-]). exact Hs4.
Qed.

Lemma event_loop_next tes l l' : event_loop d lc tes l = Ok l' → l_next l' = (l_next l + arrivals tes)%nat.
Proof.
  unfold event_loop, arrivals. revert l. induction tes as [|te tes IH]; intros l; cbn [for_each]; [intros [= <-]; cbn; lia|].
  intros (l1 & Hs1%turn_next & Hs2%IH)%bind_Ok. rewrite Hs2, Hs1, bind_cons, List.filter_app, length_app. lia.
Qed.
End arrivals.

(** ** The start and the end *)

(** The scheduler before its first turn. *)
Record fresh_loop `{SetOrder} `{HashLaws} `{KVAllocator} `{RetractSettings} `{Census} (lc : LoopConfig) (ctx : Z) (l : Loop) (A : atree) : Prop := {
  fr_memory : batch_inv (s_pools (l_sched l)).1 A (s_pools (l_sched l)).2 [];
  fr_table : table_wf (s_pools (l_sched l)).2;
  fr_page : s_page_size (lc_sched lc) = cpage_size (s_pools (l_sched l)).1;
  fr_ctx : max_context_len (s_pools (l_sched l)).2 = ctx;
  fr_requests : waiting_queue (l_sched l) = [] ∧ running (l_sched l) = [] ∧ s_aborts (l_sched l) = [] ∧ l_outputs l = [] ∧
    l_last l = NoBatch ∧ chunked_req (l_sched l) = None ∧ l_pending_abort l = None ∧ l_next l = 0%nat;
  fr_tree : ∃ seen, simulates (waiting_tree (l_sched l)) seen;
  fr_ratio : ratio_ok (l_ratio l);
  fr_inflight : inflight_middle_chunks (l_sched l) = ∅;
  fr_delay : l_delay l = None;
}.

(** The unfinished requests of the batches. *)
Definition in_flight (l : Loop) : list QReq :=
  List.filter (λ q, negb (is_finished (sreq q)))
    (running (l_sched l) ++ match l_last l with PrefillBatch b => b_reqs b | _ => [] end).

Lemma unfinished_objs (l : list QReq) gs :
  filter (λ s, is_finished s = false) (sreq <$> l) = g_req <$> gs → qobj <$> List.filter (λ q, negb (is_finished (sreq q))) l = gobj <$> gs.
Proof.
  intros E. change gobj with (obj ∘ g_req). rewrite list_fmap_compose, <-E. clear E. induction l as [|q l IH]; [done|].
  rewrite fmap_cons, filter_cons. cbn [List.filter]. destruct (is_finished (sreq q)); cbn [negb].
  - by rewrite decide_False.
  - rewrite decide_True by done. rewrite !fmap_cons. by f_equal.
Qed.

Section endings.
Context `{TextOps} `{Settings} `{RetractSettings} `{Clock} `{SetOrder} `{HashLaws} `{KVAllocator} `{KVFree} `{Census}.
Context `{BatchAllocator} `{!BatchLaws} (lc : LoopConfig) (ctx : Z).

Lemma start_inv l A : fresh_loop lc ctx l A → loop_inv lc ctx l.
Proof.
  intros [F1 F2 F3 F4 (E1 & E2 & E3 & E4 & E5 & E6 & E7 & E8) F6 F7 F8 F9]. exists A, [], [].
  split; [|split; [left; by split|by rewrite E5]]. constructor; [|done].
  constructor; unfold everybody; rewrite ?E1, ?E2, ?E3, ?E4, ?E8; done.
Qed.

Lemma inv_everyone l : loop_inv lc ctx l →
  qobj <$> in_flight l ++ waiting_queue (l_sched l) ++ s_aborts (l_sched l) ++ l_outputs l ≡ₚ seq 0 (l_next l) ∧ Forall ended (l_outputs l).
Proof.
  intros (A & gr & gl & Hi & Hr & Hl). split; [|apply Hi]. rewrite <-(bs_everybody _ _ _ _ _ Hi), fmap_app. apply Permutation_app_tail.
  unfold in_flight. rewrite List.filter_app, !fmap_app, (unfinished_objs _ gr) by apply (seating_reqs _ _ Hr).
  destruct (l_last l) as [| |b]; [by subst gl..|]. by rewrite (unfinished_objs _ gl) by apply (seating_reqs _ _ (proj1 Hl)).
Qed.

Lemma inv_idle strict l :
  config_ok lc ctx → loop_inv lc ctx l → is_fully_idle l = true →
  check_on_idle strict (max_total_num_tokens (lc_intake lc)) (s_pools (l_sched l)) = Ok tt.
Proof.
  intros Hlc (A & gr & gl & Hi & Hr & Hl) E. unfold is_fully_idle in E. apply andb_true_iff in E as [[[E1 _]%andb_true_iff E2]%andb_true_iff _].
  apply Z.eqb_eq, zlen_0 in E1, E2. pose proof (seating_nil _ gr Hr E1) as ->.
  assert (gl = []) as ->.
  { unfold last_reqs in E2. destruct (l_last l) as [| |b]; [done..|]. by apply (seating_nil b gl); [apply Hl|]. }
  pose proof (bs_memory _ _ _ _ _ Hi) as Hb. rewrite (surjective_pairing (s_pools (l_sched l))), (co_total _ _ Hlc). by apply (idle_check strict _ A).
Qed.
End endings.

(** ** A server for the witnesses *)

Module ServerDemo.
Import (hints) Demo DecodeDemo PolicyDemo LoopDemo FinishDemo.
#[export] Instance group0 : KVGroup := token_group.
#[export] Instance group_laws0 : GroupLaws quiet_token open_token := token_group_laws.
#[export] Instance listed0 : @ListedPool quiet_token := listed_token.
#[export] Instance census0 : Census := 12.

(** A pool of twelve slots, two rows of twelve tokens; all checks are strict. *)
Definition sched : SchedConfig :=
  mkSched (mkPolicy LPM false false) false None 4 None None 1 100 None None 0 (Some 4) None None 64 false true.
Definition intake : IntakeConfig := mkIntake None 1 11 6 12 1 false false.
Definition config : LoopConfig := mkLoopConfig sched intake DecodeDemo.plain 0 None 0 0 true true true.
Definition cache : RadixCache := set_kv_allocator Demo.fresh (Token.init 12 false).
Definition rows : ReqToTokenPool := ReqToTokenPool_init 2 12.
Definition server : Loop :=
  mkLoop (mkScheduler [] None [] false (cache, rows) PolicyDemo.tree ∅ [] 1%Q 0) [] [] false NoBatch ∅
    DecodeDemo.ratio0 0 0 None None [] 0.

Definition ask (name : string) (ids : list Z) (n : Z) : Message :=
  Generate (mkGenerate name ids (FinishDemo.params [] []) (Some n) false (-1) None None None None None).
Definition turn (ms : list Message) (t : Z) : TurnEnv :=
  mkTurnEnv ms 1 id id 0%Q AdmitDemo.env0 false false (λ _, 0) (λ qs, (λ _, t) <$> qs).

(** Two requests with a common prefix, one that is too long, a third request and an
    abort; the token 10 ends a text. *)
Definition turns : list TurnEnv :=
  [turn [ask "a" [1; 2; 3] 4; ask "b" [1; 2; 5; 6] 3; ask "toolong" [1; 2; 3; 4; 5; 6; 7] 2] 97; turn [] 98;
   turn [ask "c" [7; 8] 3; ask "d" [9] 2; AbortReq false "d"] 99; turn [] 97; turn [] 97; turn [] 97; turn [] 98; turn [] 10; turn [] 10; turn [] 97].

Lemma turn_fine ms t : Forall (λ m, match m with Generate rr => message_ok rr | AbortReq _ _ => True end) ms → turn_ok (turn ms t).
Proof.
  intros Hm. constructor; try done.
  - intros rr Hr. by eapply Forall_forall in Hm; [|exact Hr].
  - intros qs. apply length_fmap.
Qed.

Lemma ask_fine name ids n : ids ≠ [] → message_ok (mkGenerate name ids (FinishDemo.params [] []) (Some n) false (-1) None None None None None).
Proof. intros Hi. split; [done|]. split; [done|constructor]. Qed.

Lemma turns_ok : Forall turn_ok turns.
Proof. repeat (apply Forall_cons; split; [apply turn_fine; repeat constructor; by apply ask_fine|]). apply Forall_nil_2. Qed.

Lemma config_fine : config_ok config 12.
Proof. constructor; try done; try (vm_compute; split; reflexivity); try (vm_compute; discriminate). by left. Qed.

Lemma server_fresh : fresh_loop config 12 server (root_tree 0).
Proof.
  constructor; try done.
  - constructor.
    + apply Inv_set_alloc, Demo.fresh_inv.
    + constructor; [|reflexivity| |by_evaluation].
      * split; [|reflexivity]. repeat split.
      * change (cpage_size (s_pools (l_sched server)).1) with 1. apply Demo.paged_1.
    + reflexivity.
    + constructor.
    + by_evaluation.
    + by_evaluation.
    + reflexivity.
    + constructor; [by_evaluation|reflexivity|reflexivity|by split].
    + intros i a Hi Hne. exfalso. apply Hne. unfold root_tree in Hi. by apply lookup_singleton_Some in Hi as [<- _].
  - repeat constructor.
  - exists []. exact PolicyDemo.tree_simulates.
Qed.

Definition final : Loop :=
  Eval vm_compute in match event_loop backwards config turns server with Ok l => l | Err _ => server end.
Lemma runs_through : event_loop backwards config turns server = Ok final.
Proof. vm_compute. reflexivity. Qed.
End ServerDemo.
Import (hints) Demo DecodeDemo PolicyDemo LoopDemo FinishDemo ServerDemo.

(** ** Properties *)

(** C1: the scheduler never fails, for the servers of [config_ok] and [fresh_loop]: no
    chunked prefill, no preemption, no speculation, no prefill delayer, no limit of the
    queue together with priority scheduling (one of the two may be on), limits of the
    intake that agree with the pools, and a clip of the estimate, retraction steps, ratios
    and an alignment that are not negative (the alignment positive); it starts with empty
    batches and all memory in pools that keep the laws of the allocators.  The messages
    are requests, each with a non-empty prompt, a tokenizer and stop expressions that
    compile, and aborts; the model gives every request of a batch its token.  Whatever
    such messages bring, whatever tokens the model samples, however the clock and the sets
    of Python behave, and for every policy, every sequence of turns of the event loop
    returns: no lookup, lock, assertion or allocation fails in the intake, the prefill
    pass, the decode step, the retraction or the processing of the results, and the leak
    checks the scheduler runs on itself pass, in the middle of the work (free, evictable,
    protected and private slots add up to the pool, and no page of a request is free) as
    well as when it is idle (all slots and all rows are back). *)
Theorem event_loop_never_fails `{TextOps} `{Settings} `{RetractSettings} `{Clock} `{SetOrder} `{HashLaws} `{KVFree}
    `{PolicySettings} `{RetractionPolicy} `{Census} (Ko K : KVAllocator) `{KVGroup} `{!GroupLaws K Ko} `{!@ListedPool K}
    `{BatchAllocator} `{!BatchLaws} (d : Device) `{!DeviceLaws d} (lc : LoopConfig) (ctx : Z) (l : Loop) (A : atree) (tes : list TurnEnv) :
  config_ok lc ctx → fresh_loop lc ctx l A → Forall turn_ok tes →
  ∃ l', event_loop d lc tes l = Ok l' ∧ EventLoop.busy_check lc l' = Ok tt ∧
    (is_fully_idle l' = true → check_on_idle true (max_total_num_tokens (lc_intake lc)) (s_pools (l_sched l')) = Ok tt).
Proof.
  intros Hlc Hl Hte. destruct (loop_inv_turns Ko K d lc ctx Hlc tes l Hte (start_inv lc ctx l A Hl)) as (l' & Hrun & Hi).
  exists l'. split; [exact Hrun|]. split; [by apply (busy_ok K lc ctx Hlc)|]. by apply (inv_idle lc ctx).
Qed.

Lemma event_loop_never_fails_witness :
  ∃ l, event_loop backwards ServerDemo.config ServerDemo.turns ServerDemo.server = Ok l ∧ is_fully_idle l = true ∧
    check_on_idle true 12 (s_pools (l_sched l)) = Ok tt.
Proof.
  destruct (event_loop_never_fails open_token quiet_token backwards ServerDemo.config 12 ServerDemo.server (root_tree 0) ServerDemo.turns)
    as (l & Hrun & _ & Hidle).
  - exact ServerDemo.config_fine.
  - exact ServerDemo.server_fresh.
  - exact ServerDemo.turns_ok.
  - exists l. split; [exact Hrun|]. rewrite ServerDemo.runs_through in Hrun. apply (inj Ok) in Hrun. subst l.
    split; [reflexivity|]. apply Hidle. reflexivity.
Defined.

(** C2: no request is lost and none is answered twice, on the servers and with the
    messages of the theorem above: no chunked prefill, preemption, speculation or prefill
    delayer, no limit of the queue together with priority scheduling, limits that agree
    with the pools, settings that are not negative, an empty start, and messages that are
    requests with a non-empty prompt, a tokenizer and stop expressions that compile, or
    aborts.  After any sequence of turns of such a server the requests that arrived
    (numbered in the order of their arrival) are, each exactly once, in a batch and
    unfinished, in the queue, sent back with an abort message, or finished and streamed; a
    finished request holds no memory any more, and its output has at least one token and
    at most [max_new_tokens] (one, when none was allowed). *)
Theorem event_loop_accounts_requests `{TextOps} `{Settings} `{RetractSettings} `{Clock} `{SetOrder} `{HashLaws} `{KVFree}
    `{PolicySettings} `{RetractionPolicy} `{Census} (Ko K : KVAllocator) `{KVGroup} `{!GroupLaws K Ko} `{!@ListedPool K}
    `{BatchAllocator} `{!BatchLaws} (d : Device) `{!DeviceLaws d} (lc : LoopConfig) (ctx : Z) (l : Loop) (A : atree) (tes : list TurnEnv) :
  config_ok lc ctx → fresh_loop lc ctx l A → Forall turn_ok tes →
  ∃ l', event_loop d lc tes l = Ok l' ∧
    qobj <$> in_flight l' ++ waiting_queue (l_sched l') ++ s_aborts (l_sched l') ++ l_outputs l' ≡ₚ seq 0 (arrivals tes) ∧
    Forall ended (l_outputs l').
Proof.
  intros Hlc Hl Hte. destruct (loop_inv_turns Ko K d lc ctx Hlc tes l Hte (start_inv lc ctx l A Hl)) as (l' & Hrun & Hi).
  exists l'. split; [exact Hrun|]. pose proof (event_loop_next d lc tes l l' Hrun) as Hn.
  destruct (fr_requests _ _ _ _ Hl) as (_ & _ & _ & _ & _ & _ & _ & Hz). rewrite Hz in Hn. cbn in Hn. rewrite <-Hn. by apply (inv_everyone lc ctx).
Qed.

Lemma event_loop_accounts_requests_witness :
  ∃ l, event_loop backwards ServerDemo.config ServerDemo.turns ServerDemo.server = Ok l ∧
    rid <$> l_outputs l = ["b"; "a"; "toolong"; "c"]%string ∧ rid <$> s_aborts (l_sched l) = ["d"]%string ∧
    (qobj <$> s_aborts (l_sched l) ++ l_outputs l) ≡ₚ [0; 1; 2; 3; 4]%nat.
Proof.
  destruct (event_loop_accounts_requests open_token quiet_token backwards ServerDemo.config 12 ServerDemo.server (root_tree 0) ServerDemo.turns)
    as (l & Hrun & Hall & _).
  - exact ServerDemo.config_fine.
  - exact ServerDemo.server_fresh.
  - exact ServerDemo.turns_ok.
  - exists l. split; [exact Hrun|]. rewrite ServerDemo.runs_through in Hrun. apply (inj Ok) in Hrun. subst l.
    split; [reflexivity|]. split; [reflexivity|]. exact Hall.
Defined.
