(* ===== verification/Blocked.v ===== *)
(** * Requests that never run

    The intake lets a prompt pass that the admission refuses for ever; and a refusal while
    nothing runs leaves a mark on the empty running batch that nothing takes back, so the
    scheduler stops admitting requests at all. *)

From S2P Require Import Prelude PyFloat PySort PrefillDelayer Allocator AllocKernels RadixKey PrefixTree TreeNode ReqPool Events.
From S2P Require Import RadixCache RadixInv RadixEvict RadixTheorems ReqCache PrefillAdder PrefillTheorems RadixPools SchedulePolicy PolicyTheorems Allocation AllocWrites BatchAlloc RunningBatch Retract RetractTheorems DecodeAlloc DecodeTheorems.
From S2P Require Import Finish FinishTheorems PrefillLoop LoopConserve LoopTheorems LoopOwn LoopBatch LoopAlloc KvGroup BatchResult ResultLoop LeakCheck LeakTheorems Intake IntakeTheorems EventLoop LoopSeats LoopInv LoopSteps.
Import PrefillAdder.

(** ** A full batch of nobody *)

(** Nothing runs. *)
Record quiet (l : Loop) : Prop := {
  qt_running : running (l_sched l) = [];
  qt_only : l_prefill_only l = false;
  qt_last : l_last l = NoBatch;
  qt_chunked : chunked_req (l_sched l) = None;
  qt_pending : l_pending_abort l = None;
}.

(** Nothing runs, and the running batch is marked as full. *)
Definition stuck (l : Loop) : Prop := quiet l ∧ batch_is_full (l_sched l) = true.

(** No batch ran and nothing was answered. *)
Definition no_output (l l' : Loop) : Prop := l_forward_ct l' = l_forward_ct l ∧ l_outputs l' = l_outputs l.

(** Nor did any memory move. *)
Definition no_work (l l' : Loop) : Prop := no_output l l' ∧ s_pools (l_sched l') = s_pools (l_sched l).

#[global] Instance no_output_preorder : PreOrder no_output.
Proof. split; [by intros l|]. intros l l1 l2 [? ?] [? ?]. split; congruence. Qed.
#[global] Instance no_work_preorder : PreOrder no_work.
Proof. split; [by intros l|]. intros l l1 l2 [? ?] [? ?]. split; [by etrans|congruence]. Qed.

Section stuck.
Context `{TextOps} `{Settings} `{RetractSettings} `{Clock} `{SetOrder} `{HashOps} `{KVAllocator} `{KVFree} `{KVGroup}.
Context `{PolicySettings} `{BatchAllocator} `{RetractionPolicy}.
Context (d : Device) (lc : LoopConfig).

(** The scheduler a pass of this turn starts from, in the state [l] after the messages. *)
Definition pass_sched (te : TurnEnv) (l : Loop) : Scheduler :=
  set_ratio (abort_on_waiting_timeout lc (te_now te) (l_sched l)) (NewTokenRatioTracker.current (l_ratio l)).

(** The pass of this turn gets to the loop over the queue, and the admission refuses the
    first request for lack of memory, with nothing admitted. *)
Definition refuses (te : TurnEnv) (l : Loop) : Prop :=
  let cf := lc_sched lc in
  let s := pass_sched te l in
  let rows := (s_pools s).2 in
  l_interval l = 0 ∧ batch_is_full s = false ∧ waiting_queue s ≠ [] ∧ 0 < num_allocatable_reqs cf 0 rows ∧
  match s_min_free_slots cf with Some m => should_delay m 0 (num_allocatable_reqs cf 0 rows) = false | None => True end ∧
  match test_retract_no_prefill_bs cf with Some n => 0 ≤ n | None => True end ∧
  ∃ q rest c w,
    calc_priority (te_shuffle te) (s_policy cf) (waiting_queue s) (Some []) (s_pools s).1 (waiting_tree s) = Ok (q :: rest, c, w) ∧
    let a := PrefillAdder_init (s_page_size cf) (c, rows) (Some []) (s_ratio s) (max_prefill_tokens cf)
               (s_chunked_prefill_size cf) 0 (preemption_threshold cf) (s_max_prefill_bs s) (s_max_running_requests cf)
               (s_prefill_max_requests cf) ((λ x, SinglePass_init x.1 (te_usage te)) <$> l_delay l) (te_env te) None
               (zlen (q :: rest)) (s_block_m cf) (s_dsa_split cf) in
    chunk_budget_exhausted a = false ∧
    ∃ q' c' r a', init_next_round_input q c = Ok (q', c') ∧
      add_one_req (sreq q') (truncation_align_size cf) (with_pools a (c', rows)) = Ok (NO_TOKEN, r, a') ∧
      can_run_list a' = [].

Hypothesis Hoff : enable_priority_preemption (lc_sched lc) = false.

Lemma quiet_messages now ms l l' :
  quiet l → process_input_requests lc now ms l = Ok l' →
  quiet l' ∧ no_work l l' ∧ batch_is_full (l_sched l') = batch_is_full (l_sched l).
Proof.
  unfold process_input_requests. revert l. induction ms as [|m ms IH]; intros l Hs; cbn [for_each]; [by intros [= <-]|].
  intros (l1 & Hm & Hrun)%bind_Ok.
  assert (quiet l1 ∧ no_work l l1 ∧ batch_is_full (l_sched l1) = batch_is_full (l_sched l)) as (Hs1 & Hw1 & Hf1).
  { destruct Hs as [S1 S3 S4 S5 S6]. destruct m as [rr|all prefix]; cbn [process_message] in Hm.
    - apply bind_Ok in Hm as ([[queue aborts] gens] & _ & [= <-]). by split; [constructor|].
    - injection Hm as <-. unfold abort_message. rewrite S5. cbn. by split; [constructor|]. }
  destruct (IH l1 Hs1 Hrun) as (? & Hw & Hf). split; [done|]. split; [by etrans|congruence].
Qed.

(** A pass over an empty running batch that makes no batch. *)
Lemma pass_none te l sp s' nb l' :
  quiet l → running s' = [] → chunked_req s' = None →
  get_new_batch_prefill_raw d (lc_sched lc) (te_shuffle te) (te_order te) (te_now te)
    ((λ x, SinglePass_init x.1 (te_usage te)) <$> l_delay l) (te_env te)
    (set_ratio (l_sched l) (NewTokenRatioTracker.current (l_ratio l))) = Ok (None, sp, s') →
  prefill_pass d lc te l = Ok (nb, l') →
  nb = None ∧ quiet l' ∧ no_output l l' ∧ batch_is_full (l_sched l') = batch_is_full s' ∧ s_pools (l_sched l') = s_pools s'.
Proof.
  intros [S1 S3 S4 S5 S6] Hr0 Hc0 Hraw. unfold prefill_pass, get_new_batch_prefill. set (s := set_ratio _ _) in *.
  rewrite Hraw. cbn [mbind res_bind]. intros ([[nb' delay] s1] & Hd & Hrun)%bind_Ok.
  assert (nb' = None ∧ running s1 = [] ∧ batch_is_full s1 = batch_is_full s' ∧ chunked_req s1 = None ∧ s_pools s1 = s_pools s')
    as (-> & R1 & R2 & R3 & R4).
  { destruct (l_delay l) as [[dl t]|], sp as [sp|]; try by injection Hd as <- <- <-.
    apply bind_Ok in Hd as ([[ob x] sp'] & _ & Hd). destruct (_ >? 0); [|by injection Hd as <- <- <-].
    by apply bind_Ok in Hd as ([m t'] & _ & [= <- <- <-]). }
  apply bind_Ok in Hrun as (r & Hr & [= <- <-]). rewrite R1 in Hr. change (running s) with (running (l_sched l)) in Hr. rewrite S1 in Hr.
  injection Hr as <-. split; [done|]. split; [constructor; done|]. by split_and!.
Qed.

(** The pass gives up at once. *)
Lemma stuck_pass te l nb l' : stuck l → prefill_pass d lc te l = Ok (nb, l') → nb = None ∧ stuck l' ∧ no_work l l'.
Proof.
  intros [Hq Hf] Hp. destruct (pass_none te l ((λ x, SinglePass_init x.1 (te_usage te)) <$> l_delay l)
    (set_ratio (l_sched l) (NewTokenRatioTracker.current (l_ratio l))) nb l' Hq (qt_running _ Hq) (qt_chunked _ Hq))
    as (E1 & E2 & E3 & E4 & E5); [|exact Hp|].
  - unfold get_new_batch_prefill_raw. rewrite Hoff. cbn [set_ratio batch_is_full chunked_req].
    by rewrite Hf, (qt_chunked _ Hq).
  - split; [exact E1|]. split; split; try done. rewrite E4. exact Hf.
Qed.

(** The refusal marks the empty batch. *)
Lemma refused_pass te l l2 nb l' :
  quiet l2 → refuses te l → l_sched l2 = abort_on_waiting_timeout lc (te_now te) (l_sched l) →
  l_ratio l2 = l_ratio l → l_delay l2 = l_delay l →
  prefill_pass d lc te l2 = Ok (nb, l') → nb = None ∧ stuck l' ∧ no_output l2 l'.
Proof.
  intros Hq (_ & Hfull & Hne & Hrows & Hmin & Htest & q & rest & c & w & Hcalc & Hbud & q' & c' & r & a' & Hinit & Hadd & Hcan) Es Er Ed Hp.
  unfold pass_sched in *. rewrite <-Es, <-Er, <-Ed in *. set (s := set_ratio _ _) in *.
  assert (running s = [] ∧ chunked_req s = None) as [Hr Hc] by (split; [apply (qt_running _ Hq)|apply (qt_chunked _ Hq)]).
  destruct (pass_none te l2 (delayer a') (mkScheduler (with_sreq q' r :: rest) None [] true (pools a') w
    (inflight_middle_chunks s) (s_aborts s) (s_ratio s) (s_max_prefill_bs s)) nb l' Hq eq_refl eq_refl)
    as (-> & Hq' & Hout & Hf' & _); [|exact Hp|by split_and!]. fold s.
  unfold get_new_batch_prefill_raw. rewrite Hoff, Hfull, Hc, Hr. change (zlen (@nil QReq)) with 0.
  assert ((zlen (waiting_queue s) =? 0) = false) as ->.
  { destruct (waiting_queue s) as [|x l0]; [done|]. rewrite zlen_cons. pose proof (zlen_nonneg l0). lia. }
  rewrite bool_decide_true by done. cbn [orb andb].
  assert (match s_min_free_slots (lc_sched lc) with
    | Some m => should_delay m 0 (num_allocatable_reqs (lc_sched lc) 0 (s_pools s).2) | None => false end = false) as ->.
  { by destruct (s_min_free_slots (lc_sched lc)). }
  destruct (Z.leb_spec (num_allocatable_reqs (lc_sched lc) 0 (s_pools s).2) 0) as [Hle|_]; [lia|]. cbn [andb].
  rewrite Hcalc. cbn [mbind res_bind].
  assert (match test_retract_no_prefill_bs (lc_sched lc) with Some n => 0 >? n | None => false end = false) as ->.
  { destruct (test_retract_no_prefill_bs (lc_sched lc)) as [n|]; [|done]. destruct (Z.gtb_spec 0 n); [lia|done]. }
  cbn [with_ordered s_pools running chunked_req s_ratio s_max_prefill_bs batch_is_full]. rewrite Hr, Hc.
  cbn [continue_chunked mbind res_bind chunk_size fmap list_fmap]. set (a := PrefillAdder_init _ _ _ _ _ _ _ _ _ _ _ _ _ _ _ _ _) in *.
  cbn [admit_loop]. rewrite Hbud. change (running_bs a) with 0. change (zlen (can_run_list a)) with 0. change (pools a) with (c, (s_pools s).2).
  cbn [snd]. destruct (Z.leb_spec (num_allocatable_reqs (lc_sched lc) 0 (s_pools s).2) 0) as [Hle|_]; [lia|].
  rewrite Hfull. cbn [make_room mbind res_bind negb]. change (pools a) with (c, (s_pools s).2). cbn [fst snd].
  rewrite Hinit. cbn [mbind res_bind]. rewrite Hadd. cbn [mbind res_bind].
  rewrite decide_False by done. rewrite decide_True by done. cbn [mbind res_bind]. unfold finish_pass. rewrite Hcan.
  cbn [with_ordered running waiting_tree inflight_middle_chunks s_aborts s_ratio s_max_prefill_bs]. by rewrite Hr.
Qed.

(** What a turn of a quiet scheduler comes to: the pass, unless it is deferred. *)
Lemma next_quiet te l b l' :
  quiet l → get_next_batch_to_run d lc te l = Ok (b, l') →
  ∃ l2, quiet l2 ∧ no_work l l2 ∧ l_sched l2 = abort_on_waiting_timeout lc (te_now te) (l_sched l) ∧
    l_ratio l2 = l_ratio l ∧ l_delay l2 = l_delay l ∧
    ((l_interval l ≠ 0 ∧ b = NoBatch ∧ l' = l2) ∨
     ∃ nb l3, prefill_pass d lc te l2 = Ok (nb, l3) ∧ (nb = None → quiet l3 → b = NoBatch ∧ l' = l3)).
Proof.
  intros Hs. pose proof Hs as [S1 S3 S4 S5 S6]. unfold get_next_batch_to_run, process_pending_chunked_abort. rewrite S6. cbn [mbind res_bind].
  set (s1 := abort_on_waiting_timeout lc (te_now te) (l_sched l)).
  assert (running s1 = [] ∧ chunked_req s1 = None ∧ s_pools s1 = s_pools (l_sched l)) as (T1 & T3 & T4).
  { unfold s1, abort_on_waiting_timeout. by destruct (_ <=? 0). }
  set (l1 := set_l_gens _ _). unfold stash_chunked_request. change (chunked_req (l_sched l1)) with (chunked_req s1). rewrite T3. cbn [mbind res_bind].
  assert (quiet l1 ∧ no_work l l1) as [Hs1 Hw1] by (split; [by constructor|by split]).
  replace (set_l_sched l1 (l_sched l1)) with l1 by done. unfold merge_last. rewrite (qt_last _ Hs1). cbn [mbind res_bind].
  unfold drop_prefill_only. rewrite (qt_only _ Hs1). cbn [mbind res_bind].
  assert (∀ l3, quiet l3 → decode_step d lc te l3 = Ok (false, l3)) as Hdec.
  { intros l3 Hq3. unfold decode_step.
    assert (is_empty (running_batch l3) = true) as -> by (unfold is_empty; cbn; by rewrite (qt_running _ Hq3)). done. }
  unfold should_defer_prefill. change (l_interval l1) with (l_interval l). destruct (Z.eqb_spec (l_interval l) 0) as [E|E].
  - intros ([nb l3] & Hp & Hrun)%bind_Ok. exists l1. split_and!; try done. right. exists nb, l3. split; [done|].
    intros -> Hq3. rewrite (Hdec l3 Hq3) in Hrun. by injection Hrun as <- <-.
  - set (l2 := set_l_interval l1 _). assert (quiet l2) as Hs2 by (destruct Hs1 as [? ? ? ? ?]; by constructor).
    cbn [mbind res_bind]. rewrite (Hdec l2 Hs2). intros [= <- <-]. exists l2. split_and!; try done. by left.
Qed.

(** A turn without a batch ends with the checks. *)
Lemma turn_quiet te l l1 l2 l' :
  process_input_requests lc (te_now te) (te_recv te) l = Ok l1 → get_next_batch_to_run d lc te l1 = Ok (NoBatch, l2) →
  quiet l2 → loop_turn d lc te l = Ok l' →
  quiet l' ∧ no_work l2 l' ∧ batch_is_full (l_sched l') = batch_is_full (l_sched l2).
Proof.
  intros Hm Hn Hq. unfold loop_turn. rewrite Hm. cbn [mbind res_bind]. rewrite Hn. cbn [mbind res_bind].
  intros (l3 & (l4 & Hi & [= <-])%bind_Ok & (u & _ & [= <-])%bind_Ok)%bind_Ok.
  assert (quiet l4 ∧ no_work l2 l4 ∧ batch_is_full (l_sched l4) = batch_is_full (l_sched l2)) as ([? ? ? ? ?] & Hw4 & Hf4).
  { unfold on_idle in Hi. destruct (negb _); [by injection Hi as <-|]. apply bind_Ok in Hi as (u' & _ & [= <-]).
    destruct Hq as [? ? ? ? ?]. by split; [constructor|]. }
  split; [by constructor|]. by split.
Qed.

Lemma full_kept te l : batch_is_full (abort_on_waiting_timeout lc (te_now te) (l_sched l)) = batch_is_full (l_sched l).
Proof. unfold abort_on_waiting_timeout. by destruct (_ <=? 0). Qed.

Lemma loop_turn_parts te l l' :
  loop_turn d lc te l = Ok l' → ∃ l1 b l2, process_input_requests lc (te_now te) (te_recv te) l = Ok l1 ∧
    get_next_batch_to_run d lc te l1 = Ok (b, l2).
Proof. unfold loop_turn. intros (l1 & Hm & ([b l2] & Hn & _)%bind_Ok)%bind_Ok. by exists l1, b, l2. Qed.

Lemma stuck_turn te l l' : stuck l → loop_turn d lc te l = Ok l' → stuck l' ∧ no_work l l'.
Proof.
  intros [Hq Hf] Hrun. destruct (loop_turn_parts te l l' Hrun) as (l1 & b & l2 & Hm & Hn).
  destruct (quiet_messages _ _ _ _ Hq Hm) as (Hq1 & Hw1 & Hf1). rewrite Hf in Hf1.
  destruct (next_quiet te l1 b l2 Hq1 Hn) as (l3 & Hq3 & Hw3 & Es & _ & _ & Hcase).
  assert (stuck l3) as Hs3 by (split; [done|]; by rewrite Es, full_kept).
  assert (b = NoBatch ∧ stuck l2 ∧ no_work l3 l2) as (-> & [Hq2 Hf2] & Hw2).
  { destruct Hcase as [(_ & -> & ->)|(nb & l4 & Hp & Hend)]; [by split|].
    destruct (stuck_pass te l3 nb l4 Hs3 Hp) as (-> & Hs4 & Hw4). destruct (Hend eq_refl (proj1 Hs4)) as [-> ->]. by split. }
  destruct (turn_quiet te l l1 l2 l' Hm Hn Hq2 Hrun) as (Hq' & Hw' & Hf'). split; [by split; [|congruence]|].
  by rewrite Hw1, Hw3, Hw2.
Qed.

Lemma refused_turn te l l1 l' :
  quiet l → process_input_requests lc (te_now te) (te_recv te) l = Ok l1 → refuses te l1 →
  loop_turn d lc te l = Ok l' → stuck l' ∧ no_output l l'.
Proof.
  intros Hq Hm Href Hrun. destruct (loop_turn_parts te l l' Hrun) as (l1' & b & l2 & Hm' & Hn).
  rewrite Hm in Hm'. injection Hm' as <-. destruct (quiet_messages _ _ _ _ Hq Hm) as (Hq1 & [Hw1 _] & _).
  destruct (next_quiet te l1 b l2 Hq1 Hn) as (l3 & Hq3 & [Hw3 _] & Es & Er & Ed & [(Hne & _)|(nb & l4 & Hp & Hend)]).
  { by destruct Href as [? _]. }
  destruct (refused_pass te l1 l3 nb l4 Hq3 Href Es Er Ed Hp) as (-> & [Hq4 Hf4] & Hw4). destruct (Hend eq_refl Hq4) as [-> ->].
  destruct (turn_quiet te l l1 l4 l' Hm Hn Hq4 Hrun) as (Hq' & [Hw' _] & Hf'). split; [by split; [|congruence]|].
  by rewrite Hw1, Hw3, Hw4.
Qed.

Lemma stuck_loop tes l l' : stuck l → event_loop d lc tes l = Ok l' → stuck l' ∧ no_work l l'.
Proof.
  unfold event_loop. revert l. induction tes as [|te tes IH]; intros l Hs; cbn [for_each]; [by intros [= <-]|].
  intros (l1 & Ht & Hrun)%bind_Ok. destruct (stuck_turn te l l1 Hs Ht) as [Hs1 Hw1].
  destruct (IH l1 Hs1 Hrun) as [Hs2 Hw2]. split; [done|]. by etrans.
Qed.
End stuck.

(** ** A server with pages *)

Module PagedDemo.
Import (hints) Demo PolicyDemo LoopDemo FinishDemo.
#[export] Existing Instance quiet_paged.
#[export] Instance free0 : KVFree := Paged.free.
#[export] Instance group0 : KVGroup := paged_group.
#[export] Instance batch0 : BatchAllocator := paged_batch backwards.
#[export] Instance retract0 : RetractSettings := {|
  spec_algo_none := true; strip_thinking_cache := false; RETRACT_DECODE_STEPS := 20;
|}.
#[export] Instance policy0 : RetractionPolicy := None.

(** A pool of 32 slots in pages of eight, and contexts of 40 tokens. *)
Definition sched : SchedConfig :=
  mkSched (mkPolicy FCFS false false) false None 4 None None 8 100 None None 0 (Some 4) None None 64 false true.
Definition intake : IntakeConfig := mkIntake None 8 31 26 32 1 false false.
Definition config : LoopConfig := mkLoopConfig sched intake DecodeDemo.plain 0 None 0 0 true true true.
Definition cache : RadixCache :=
  Eval vm_compute in
    match RadixCache_init (mkCacheInitParams false 8 false false "LRU" true) (Paged.init 32 8 false false) ∅ 0 0 with
    | Ok c => c
    | Err _ => Demo.fresh
    end.
Definition server : Loop :=
  mkLoop (mkScheduler [] None [] false (cache, ReqToTokenPool_init 2 40) PolicyDemo.tree ∅ [] 1%Q 0) [] [] false NoBatch ∅
    DecodeDemo.ratio0 0 0 None None [] 0.

Definition ask (name : string) (n : Z) : Message :=
  Generate (mkGenerate name (zrange 1 (1 + n)) (FinishDemo.params [] []) (Some 4) false (-1) None None None None None).
Definition turn (ms : list Message) : TurnEnv :=
  mkTurnEnv ms 1 id id 0%Q AdmitDemo.env0 false false (λ _, 0) (λ qs, (λ _, 97) <$> qs).

(** A prompt of 24 tokens comes and is refused; it is aborted, then a short one comes. *)
Definition first_turn : TurnEnv := turn [ask "long" 24].
Definition turns : list TurnEnv := [turn [AbortReq false "long"]; turn [ask "short" 2]].
Definition asked : Loop :=
  Eval vm_compute in match process_input_requests config 1 [ask "long" 24] server with Ok l => l | Err _ => server end.
Lemma asked_runs : process_input_requests config 1 [ask "long" 24] server = Ok asked.
Proof. vm_compute. reflexivity. Qed.
Definition refused : Loop :=
  Eval vm_compute in match loop_turn backwards config first_turn server with Ok l => l | Err _ => server end.
Lemma refused_runs : loop_turn backwards config first_turn server = Ok refused.
Proof. vm_compute. reflexivity. Qed.
Definition after : Loop :=
  Eval vm_compute in match event_loop backwards config turns refused with Ok l => l | Err _ => server end.
Lemma after_runs : event_loop backwards config turns refused = Ok after.
Proof. vm_compute. reflexivity. Qed.

Lemma long_refused : refuses config first_turn asked.
Proof.
  split; [reflexivity|]. split; [reflexivity|]. split; [discriminate|]. split; [reflexivity|]. split; [exact I|]. split; [exact I|].
  do 4 eexists. split; [vm_compute; reflexivity|]. cbv zeta. split; [reflexivity|].
  do 4 eexists. split; [vm_compute; reflexivity|]. split; [vm_compute; reflexivity|]. reflexivity.
Qed.

(** The adder of a pass over the empty server, and the long request on its way. *)
Definition adder : PrefillAdder (RadixCache * ReqToTokenPool) :=
  PrefillAdder_init 8 (cache, ReqToTokenPool_init 2 40) (Some []) 1%Q 100 None 0 0 0 (Some 4) None None AdmitDemo.env0 None 1 64 false.
Definition long : GenerateReq := mkGenerate "long" (zrange 1 25) (FinishDemo.params [] []) (Some 4) false (-1) None None None None None.
End PagedDemo.
Import (hints) Demo PolicyDemo LoopDemo FinishDemo PagedDemo.

(** ** Properties *)

(** C34: one refused request can stop the scheduler for good.  Take a server without
    preemption on which nothing runs, and a turn whose pass reaches the queue (it is not
    deferred, the batch is not full yet, a row is free, no delayer of free slots holds it
    back) and has the first request in the order of the policy refused with [NO_TOKEN],
    with nothing admitted.  After the turn the empty running batch is marked as full; and
    from then on no sequence of turns that returns runs a batch, moves memory or answers a
    request, whatever requests and aborts arrive: the refused request may be aborted, and
    the requests after it wait for ever.  Messages other than requests and aborts are
    outside the model; of them pausing the server with retraction takes the mark back.
    (With the hierarchical cache the code makes the mark only when there are requests to
    wait for.) *)
Theorem refused_request_stops_server `{TextOps} `{Settings} `{RetractSettings} `{Clock} `{SetOrder} `{HashOps} `{KVAllocator}
    `{KVFree} `{KVGroup} `{PolicySettings} `{BatchAllocator} `{RetractionPolicy} (d : Device) (lc : LoopConfig)
    (te : TurnEnv) (l l0 l1 : Loop) :
  enable_priority_preemption (lc_sched lc) = false → quiet l →
  process_input_requests lc (te_now te) (te_recv te) l = Ok l0 → refuses lc te l0 →
  loop_turn d lc te l = Ok l1 →
  batch_is_full (l_sched l1) = true ∧ no_output l l1 ∧
  ∀ tes l', event_loop d lc tes l1 = Ok l' → running (l_sched l') = [] ∧ batch_is_full (l_sched l') = true ∧ no_work l1 l'.
Proof.
  intros Hoff Hq Hm Href Hrun. destruct (refused_turn d lc Hoff te l l0 l1 Hq Hm Href Hrun) as [Hs Hw].
  split; [apply Hs|]. split; [done|]. intros tes l' Hl. destruct (stuck_loop d lc Hoff tes l1 l' Hs Hl) as [[Hq' Hf'] Hw'].
  split; [apply Hq'|]. by split.
Qed.

(** The long prompt is refused and aborted; the short one would fit in the empty pool. *)
Lemma refused_request_stops_server_witness :
  loop_turn backwards PagedDemo.config PagedDemo.first_turn PagedDemo.server = Ok PagedDemo.refused ∧
  batch_is_full (l_sched PagedDemo.refused) = true ∧
  event_loop backwards PagedDemo.config PagedDemo.turns PagedDemo.refused = Ok PagedDemo.after ∧
  rid <$> waiting_queue (l_sched PagedDemo.after) = ["short"]%string ∧
  (∀ tes l, event_loop backwards PagedDemo.config tes PagedDemo.refused = Ok l →
     running (l_sched l) = [] ∧ l_outputs l = [] ∧ l_forward_ct l = 0).
Proof.
  destruct (refused_request_stops_server backwards PagedDemo.config PagedDemo.first_turn PagedDemo.server PagedDemo.asked PagedDemo.refused)
    as (Hfull & _ & Hall).
  - reflexivity.
  - constructor; reflexivity.
  - exact PagedDemo.asked_runs.
  - exact PagedDemo.long_refused.
  - exact PagedDemo.refused_runs.
  - split; [exact PagedDemo.refused_runs|]. split; [exact Hfull|]. split; [exact PagedDemo.after_runs|]. split; [reflexivity|].
    intros tes l Hrun. destruct (Hall tes l Hrun) as (Hr & _ & [Hf Ho] & _). split; [exact Hr|]. rewrite Ho, Hf. split; reflexivity.
Defined.

(** C35: the intake accepts prompts the admission always refuses.  The comment in
    [init_req_max_new_tokens] says its bound keeps every accepted request schedulable.
    But the bound is cut off at zero: a prompt of [n] tokens, with [n] below the limit of
    the input and at most one page below the size of the pool ([max_total_num_tokens]
    times the size of decode context parallelism, 1 without it), is accepted without an
    error and may produce no tokens, and [add_one_req] refuses it however empty the pool
    is (its cached prefix aside), since the prompt and the reserved page need the whole
    pool.  With the limits the workers set ([max_req_input_len] is the pool less six),
    such prompts exist for all page sizes from seven. *)
Theorem accepted_prompt_never_admitted `{Settings} `{RetractSettings} `{Clock} `{SetOrder} `{HashOps} `{KVAllocator} `{KVFree}
    (ic : IntakeConfig) (o : nat) (rr : GenerateReq) (a : PrefillAdder (RadixCache * ReqToTokenPool)) (r : SReq) (align : option Z) :
  0 < i_page_size ic → 0 ≤ CLIP_MAX_NEW_TOKENS → gr_return_logprob rr = false →
  max_total_num_tokens ic * attn_dcp_size ic - i_page_size ic ≤ zlen (gr_input_ids rr) < max_req_input_len ic →
  page_size (cfg a) = i_page_size ic → mamba_slot_cost (cfg a) = 0 →
  available_and_evictable (pools a) ≤ max_total_num_tokens ic * attn_dcp_size ic → (0 <= rem_total_token_offset (budget a))%Q →
  fill_len r = zlen (gr_input_ids rr) → prefix_len r = 0 → max_new_tokens r = 0 →
  (∃ q, accept_request ic o rr = (q, None) ∧ q_origin q = gr_input_ids rr ∧ max_new_tokens (sreq q) = 0) ∧
  ∃ x, add_one_req r align a = Ok (x, r, a) ∧ x ≠ CONTINUE.
Proof.
  intros Hps Hclip Hlp [Hlo Hhi] Epg Emb Hav Hoff Hf Hp Hm. split.
  - unfold accept_request. set (q := set_max_new _ _).
    assert (max_new_tokens (sreq q) = 0) as Hq.
    { cbn. unfold paged_input_len. change (q_origin (new_req o rr)) with (gr_input_ids rr).
      set (n := zlen (gr_input_ids rr)) in *. pose proof (Z.mul_div_le (- n) (i_page_size ic) Hps) as Hdiv.
      rewrite Z.mul_opp_l, (Z.mul_comm (- n / _)). lia. }
    unfold validate_input_length. change (q_origin q) with (gr_input_ids rr).
    destruct (Z.geb_spec (zlen (gr_input_ids rr)) (max_req_input_len ic)); [lia|].
    set (q1 := set_q_origin q (gr_input_ids rr)). change (q_origin q1) with (gr_input_ids rr).
    assert (logprob_start q1 rr ≤ zlen (gr_input_ids rr)) as Hls.
    { unfold logprob_start. rewrite Hlp. cbn. destruct (_ && _); pose proof (zlen_nonneg (gr_input_ids rr)); change (q_origin q1) with (gr_input_ids rr); lia. }
    destruct (Z.gtb_spec (logprob_start q1 rr) (zlen (gr_input_ids rr))); [lia|]. eexists. split; [done|]. split; [done|]. exact Hq.
  - unfold add_one_req. destruct (_ && _); [by eexists|]. destruct (match prefill_max_requests (cfg a) with Some _ => _ | None => _ end); [by eexists|].
    cbn [cache_disable radix_pools]. rewrite andb_false_r.
    assert (Qle_bool (rem_total_tokens a) (inject_Z (total_tokens_of r a)) = true) as ->; [|by eexists].
    apply Qle_bool_iff. unfold rem_total_tokens. apply Qle_trans with (inject_Z (available_and_evictable (pools a))); [lra|].
    rewrite <-Zle_Qle. unfold total_tokens_of, swa_new_tokens, mamba_gap_budget_for_req. rewrite Emb, Epg, Hf, Hp, Hm.
    cbn [Z.eqb negb andb]. unfold out_len. lia.
Qed.

Lemma accepted_prompt_never_admitted_witness :
  ∃ x, add_one_req (sreq (refresh_input (new_req 0 PagedDemo.long))) None PagedDemo.adder =
    Ok (x, sreq (refresh_input (new_req 0 PagedDemo.long)), PagedDemo.adder) ∧ x ≠ CONTINUE ∧
    max_total_num_tokens PagedDemo.intake * attn_dcp_size PagedDemo.intake = 32 ∧ kv_available (kv_allocator PagedDemo.cache) = 32.
Proof.
  destruct (accepted_prompt_never_admitted PagedDemo.intake 0 PagedDemo.long PagedDemo.adder
    (sreq (refresh_input (new_req 0 PagedDemo.long))) None) as [_ (x & Hx & Hne)].
  - reflexivity.
  - vm_compute. discriminate.
  - reflexivity.
  - vm_compute. split; [discriminate|reflexivity].
  - reflexivity.
  - reflexivity.
  - vm_compute. discriminate.
  - vm_compute. discriminate.
  - reflexivity.
  - reflexivity.
  - reflexivity.
  - exists x. split; [exact Hx|]. split; [exact Hne|]. split; reflexivity.
Defined.

(** C27: an accepted request fits.  For every message with a non-empty prompt, the request
    the intake makes has a prompt, and its limit of new tokens is not negative, at most
    what was asked for, and at most the limit of the server; the prompt with all tokens
    it may produce stays below [max_req_len]; if it may produce any, the paged prompt as
    it came, the output and a page stay below the pool; and the minimum of the output is
    brought down to the limit.  The request gets a reason to finish, an abort, exactly if
    the prompt has [max_req_input_len] tokens or more and must not be truncated, or the
    log probabilities are asked for from behind the (truncated) prompt; then it is cut
    down to one token.  Otherwise its prompt is the one of the message, cut to
    [max_req_input_len] tokens. *)
Theorem accepted_request_fits `{RetractSettings} (ic : IntakeConfig) (o : nat) (rr : GenerateReq) :
  0 < max_req_input_len ic < max_req_len ic → gr_input_ids rr ≠ [] →
  ∃ q fin, accept_request ic o rr = (q, fin) ∧ qobj q = o ∧ q_origin q ≠ [] ∧ 0 ≤ max_new_tokens (sreq q) ∧
    (∀ n, gr_max_new rr = Some n → 0 ≤ n → max_new_tokens (sreq q) ≤ n) ∧
    (∀ n, max_new_tokens_limit ic = Some n → 0 < n → max_new_tokens (sreq q) ≤ n) ∧
    zlen (q_origin q) + max_new_tokens (sreq q) < max_req_len ic ∧
    (0 < max_new_tokens (sreq q) →
       paged_input_len ic (zlen (gr_input_ids rr)) + max_new_tokens (sreq q) + i_page_size ic <
         max_total_num_tokens ic * attn_dcp_size ic) ∧
    f_min_new_tokens (new_gen ic q rr fin).1 = Z.min (f_min_new_tokens (gr_stop rr)) (max_new_tokens (sreq q)) ∧
    (fin ≠ None ↔
       (max_req_input_len ic ≤ zlen (gr_input_ids rr) ∧ allow_auto_truncate ic = false) ∨
       (gr_return_logprob rr = true ∧ Z.min (zlen (gr_input_ids rr)) (max_req_input_len ic) < gr_logprob_start_len rr)) ∧
    (fin ≠ None → q_origin q = [0] ∧ ∃ msg, fin = Some (FINISH_ABORT msg)) ∧
    (fin = None → q_origin q = slice_to (gr_input_ids rr) (Z.min (zlen (gr_input_ids rr)) (max_req_input_len ic))).
Proof.
  intros Hin Hne. pose proof (accept_request_spec ic o rr Hin Hne) as Hs. pose proof (accept_errors ic o rr (proj1 Hin)) as He.
  pose proof (accept_max_new ic o rr) as Hm.
  destruct (max_new_limits ic (gr_max_new rr) (f_min_new_tokens (gr_stop rr)) (zlen (gr_input_ids rr))) as (L1 & L2 & L3).
  pose proof (min_new_clipped ic (gr_max_new rr) (f_min_new_tokens (gr_stop rr)) (zlen (gr_input_ids rr))) as Hmin.
  destruct (accept_request ic o rr) as [q fin]. cbn [fst] in Hm. rewrite <-Hm in L1, L2, L3, Hmin.
  destruct Hs as [Hb [S1 S2 S3]], He as (E1 & E2 & E3).
  exists q, fin. split_and!; try done; [apply Hb|lia].
Qed.

Lemma accepted_request_fits_witness :
  ∃ q, accept_request PagedDemo.intake 3 PagedDemo.long = (q, None) ∧ max_new_tokens (sreq q) = 0 ∧
    zlen (q_origin q) + max_new_tokens (sreq q) < 31 ∧ ¬ intake_error PagedDemo.intake PagedDemo.long.
Proof.
  destruct (accepted_request_fits PagedDemo.intake 3 PagedDemo.long) as (q & fin & Hrun & _ & _ & _ & _ & _ & Hlt & _ & _ & Herr & _).
  - vm_compute. split; reflexivity.
  - discriminate.
  - exists q. change (max_req_len PagedDemo.intake) with 31 in Hlt. vm_compute in Hrun. injection Hrun as <- <-.
    split; [reflexivity|]. split; [reflexivity|]. split; [exact Hlt|]. intros He. by apply Herr in He.
Defined.
