(* ===== verification/LoraSlots.v ===== *)
(** * LoRA adapters and the slots they are loaded into

    The eviction policies ([srt/lora/eviction_policy.py]) and the slots of
    [LoRAMemoryPool] ([srt/lora/mem_pool.py]).  An adapter is named by its id, the base
    model by [None].  A slot's tensors are modelled by where their values come from; the
    copy of an adapter into a slot is an argument, which may raise.  The policies keep
    ordered dictionaries of which only the keys are read: they are lists of ids.

    Then what the pool asks of a policy ([PolicyLaws], which both policies meet), the
    invariant of the pool, and the placement of a batch that fits beside the pinned
    adapters: it always succeeds, and moves neither the batch nor a pinned adapter. *)

From S2P Require Import Prelude PySort.

Abbreviation uid := (option string).

(** A Python set of ids is iterated in an order that depends on the process. *)
Class UidOrder := {
  uid_list : gset uid → list uid;
  uid_list_elements s : uid_list s ≡ₚ elements s;
}.

(** ** Eviction policies *)

Class EvictionPolicy (P : Type) := {
  mark_used : uid → P → P;
  select_victim : gset uid → P → res (uid * P);
  remove : uid → P → P;
  (** the tracked ids, in the order in which they are offered for eviction *)
  tracked : P → list string;
}.

Record LRUEvictionPolicy := LRU { access_order : list string; total_accesses : Z; lru_evictions : Z }.
Record FIFOEvictionPolicy := FIFO { insertion_order : list string; fifo_evictions : Z }.

(** [OrderedDict.pop(k, None)] *)
Definition pop_key (k : string) (l : list string) : list string := filter (λ s, s ≠ k) l.

(** The loop of [select_victim]: the first tracked id among the candidates. *)
Definition first_candidate (candidates : gset uid) (l : list string) : option string :=
  snd <$> list_find (λ s, Some s ∈ candidates) l.

Definition lru_mark_used (u : uid) (p : LRUEvictionPolicy) : LRUEvictionPolicy :=
  match u with
  | None => p
  | Some s => LRU (pop_key s (access_order p) ++ [s]) (total_accesses p + 1) (lru_evictions p)
  end.

Definition lru_select_victim (candidates : gset uid) (p : LRUEvictionPolicy) : res (uid * LRUEvictionPolicy) :=
  let evicted := LRU (access_order p) (total_accesses p) (lru_evictions p + 1) in
  match first_candidate candidates (access_order p) with
  | Some s => Ok (Some s, evicted)
  | None => if decide (None ∈ candidates) then Ok (None, evicted) else Err AssertionError
  end.

Definition lru_remove (u : uid) (p : LRUEvictionPolicy) : LRUEvictionPolicy :=
  match u with
  | None => p
  | Some s => LRU (pop_key s (access_order p)) (total_accesses p) (lru_evictions p)
  end.

Definition fifo_mark_used (u : uid) (p : FIFOEvictionPolicy) : FIFOEvictionPolicy :=
  match u with
  | None => p
  | Some s =>
      if decide (s ∈ insertion_order p) then p
      else FIFO (insertion_order p ++ [s]) (fifo_evictions p)
  end.

Definition fifo_select_victim (candidates : gset uid) (p : FIFOEvictionPolicy) : res (uid * FIFOEvictionPolicy) :=
  let evicted := FIFO (insertion_order p) (fifo_evictions p + 1) in
  match first_candidate candidates (insertion_order p) with
  | Some s => Ok (Some s, evicted)
  | None => if decide (None ∈ candidates) then Ok (None, evicted) else Err AssertionError
  end.

Definition fifo_remove (u : uid) (p : FIFOEvictionPolicy) : FIFOEvictionPolicy :=
  match u with
  | None => p
  | Some s => FIFO (pop_key s (insertion_order p)) (fifo_evictions p)
  end.

#[export] Instance lru_policy : EvictionPolicy LRUEvictionPolicy :=
  {| mark_used := lru_mark_used; select_victim := lru_select_victim; remove := lru_remove;
     tracked := access_order |}.

#[export] Instance fifo_policy : EvictionPolicy FIFOEvictionPolicy :=
  {| mark_used := fifo_mark_used; select_victim := fifo_select_victim; remove := fifo_remove;
     tracked := insertion_order |}.

(** [get_eviction_policy] *)
Definition get_eviction_policy (name : string) : res (LRUEvictionPolicy + FIFOEvictionPolicy) :=
  if decide (name = "fifo") then Ok (inr (FIFO [] 0))
  else if decide (name = "lru") then Ok (inl (LRU [] 0 0))
  else Err ValueError.

(** ** The pool *)

(** [LoRARef]: [pinned] is an [Optional[bool]], and [None] counts as not pinned. *)
Record LoRARef := Ref {
  lora_id : string;
  lora_name : option string;
  lora_path : option string;
  pinned : option bool;
}.

Definition is_pinned (r : LoRARef) : bool := default false (pinned r).

Inductive slot := EmptySlot | Uid (u : uid).

#[export] Instance slot_eq_dec : EqDecision slot.
Proof. solve_decision. Defined.

(** Where the values of a slot's tensors come from. *)
Inductive values (A : Type) := Zeros | WeightsOf (a : A).
Arguments Zeros {A}.
Arguments WeightsOf {A} _.

Record LoRAMemoryPool (P A : Type) := Pool {
  pool_max_loras : nat;
  uid_to_buffer_id : gmap uid nat;
  buffer_id_to_uid : list slot;
  buffers : list (values A);
  eviction_policy : P;
}.
Arguments Pool {P A} _ _ _ _ _.
Arguments pool_max_loras {P A} _.
Arguments uid_to_buffer_id {P A} _.
Arguments buffer_id_to_uid {P A} _.
Arguments buffers {P A} _.
Arguments eviction_policy {P A} _.

(** The key [(uid is not None, uid or "")]. *)
Definition uid_le (a b : uid) : bool :=
  match a, b with
  | None, _ => true
  | Some _, None => false
  | Some s, Some t => String.leb s t
  end.

Section pool.
Context {P A : Type} `{EvictionPolicy P} (copy_weights : A → res unit).
Implicit Types (p : LoRAMemoryPool P A) (cur : gset uid) (refs : gmap string LoRARef).

(** [LoRAMemoryPool.__init__]: empty slots and zeroed tensors. *)
Definition new_pool (max : nat) (policy : P) : LoRAMemoryPool P A :=
  Pool max ∅ (replicate max EmptySlot) (replicate max Zeros) policy.

Definition set_policy (f : P → P) p : LoRAMemoryPool P A :=
  Pool (pool_max_loras p) (uid_to_buffer_id p) (buffer_id_to_uid p) (buffers p) (f (eviction_policy p)).

Definition ref_pinned refs (u : uid) : bool :=
  match u with
  | Some s => match refs !! s with Some r => is_pinned r | None => false end
  | None => false
  end.

(** The residents that are neither in the batch nor pinned. *)
Definition candidates cur refs p : gset uid :=
  list_to_set (omap (λ s, match s with
    | EmptySlot => None
    | Uid u => if decide (u ∈ cur) then None else if ref_pinned refs u then None else Some u
    end) (buffer_id_to_uid p)).

Definition evict_victim (victim : uid) p : res (nat * LoRAMemoryPool P A) :=
  match uid_to_buffer_id p !! victim with
  | None => Err KeyError
  | Some b =>
      Ok (b, Pool (pool_max_loras p) (delete victim (uid_to_buffer_id p))
                  (<[b := EmptySlot]> (buffer_id_to_uid p)) (buffers p)
                  (remove victim (eviction_policy p)))
  end.

Definition get_available_buffer_slot cur refs p : res (nat * LoRAMemoryPool P A) :=
  match list_find (eq EmptySlot) (buffer_id_to_uid p) with
  | Some (b, _) => Ok (b, p)
  | None =>
      let cands := candidates cur refs p in
      if decide (cands = ∅) then Err ValueError
      else
        let non_none := cands ∖ {[None]} in
        let to_use := if decide (non_none = ∅) then cands else non_none in
        '(victim, policy) ← select_victim to_use (eviction_policy p);
        evict_victim victim (set_policy (λ _, policy) p)
  end.

Definition write_buffer (b : nat) (v : values A) p : LoRAMemoryPool P A :=
  Pool (pool_max_loras p) (uid_to_buffer_id p) (buffer_id_to_uid p) (<[b := v]> (buffers p)) (eviction_policy p).

Definition clear_buffer_slot_for_base (b : nat) p : LoRAMemoryPool P A := write_buffer b Zeros p.

Definition load_lora_weight_to_buffer (u : uid) (b : nat) (adapter : option A) p : res (LoRAMemoryPool P A) :=
  match u, adapter with
  | None, _ => Ok (clear_buffer_slot_for_base b p)
  | Some _, None => Err AssertionError
  | Some _, Some a => _ ← copy_weights a; Ok (write_buffer b (WeightsOf a) p)
  end.

Definition assign_slot (u : uid) (b : nat) p : LoRAMemoryPool P A :=
  Pool (pool_max_loras p) (<[u := b]> (uid_to_buffer_id p)) (<[b := Uid u]> (buffer_id_to_uid p))
       (buffers p) (eviction_policy p).

(** [lora_adapters.get(uid, None)]: no adapter is stored under [None]. *)
Definition get_adapter (loras : gmap string A) (u : uid) : option A := u ≫= λ s, loras !! s.

(** The body of the second loop of [prepare_lora_batch]. *)
Definition place_adapter cur (loras : gmap string A) refs (u : uid) p : res (LoRAMemoryPool P A) :=
  if decide (is_Some (uid_to_buffer_id p !! u)) then Ok p
  else
    '(b, p) ← get_available_buffer_slot cur refs p;
    p ← load_lora_weight_to_buffer u b (get_adapter loras u) p;
    Ok (assign_slot u b p).

Definition ordered_uids `{UidOrder} cur : list uid := py_sorted uid_le (uid_list cur).

Definition prepare_lora_batch `{UidOrder} cur (loras : gmap string A) refs p : res (LoRAMemoryPool P A) :=
  let p := set_policy (λ policy, foldl (λ pol u, mark_used u pol) policy (ordered_uids cur)) p in
  for_each (place_adapter cur loras refs) (ordered_uids cur) p.

Definition remove_lora (s : string) p : option nat * LoRAMemoryPool P A :=
  match uid_to_buffer_id p !! Some s with
  | None => (None, p)
  | Some b =>
      let p := clear_buffer_slot_for_base b p in
      (Some b, Pool (pool_max_loras p) (delete (Some s) (uid_to_buffer_id p))
                    (<[b := EmptySlot]> (buffer_id_to_uid p)) (buffers p)
                    (remove (Some s) (eviction_policy p)))
  end.

Definition get_buffer_id (u : uid) p : res nat :=
  match uid_to_buffer_id p !! u with Some b => Ok b | None => Err KeyError end.
End pool.

(** ** Policies *)

Class PolicyLaws (P : Type) `{EvictionPolicy P} : Prop := {
  tracked_mark s u p : s ∈ tracked (mark_used u p) ↔ s ∈ tracked p ∨ u = Some s;
  tracked_remove s u p : s ∈ tracked (remove u p) ↔ s ∈ tracked p ∧ u ≠ Some s;
  (** the victim is the first tracked candidate, the base model if there is none *)
  select_first cands s p : first_candidate cands (tracked p) = Some s →
    ∃ p', select_victim cands p = Ok (Some s, p') ∧ tracked p' = tracked p;
  select_base cands p : first_candidate cands (tracked p) = None → None ∈ cands →
    ∃ p', select_victim cands p = Ok (None, p') ∧ tracked p' = tracked p;
}.

Lemma elem_of_pop_key s k l : s ∈ pop_key k l ↔ s ∈ l ∧ s ≠ k.
Proof. unfold pop_key. rewrite list_elem_of_filter. tauto. Qed.

Lemma first_candidate_Some cands l s :
  first_candidate cands l = Some s ↔
  ∃ i, l !! i = Some s ∧ Some s ∈ cands ∧ ∀ j t, l !! j = Some t → (j < i)%nat → Some t ∉ cands.
Proof.
  unfold first_candidate. rewrite fmap_Some. split.
  - intros ([i t] & (Hi & Ht & Hj)%list_find_Some & ->). eauto.
  - intros (i & Hi & Hs & Hj). exists (i, s). split; [|done]. by apply list_find_Some.
Qed.

Lemma first_candidate_None cands l : first_candidate cands l = None ↔ ∀ s, s ∈ l → Some s ∉ cands.
Proof. unfold first_candidate. by rewrite fmap_None, list_find_None, Forall_forall. Qed.

#[export] Instance lru_laws : PolicyLaws LRUEvictionPolicy.
Proof.
  split; cbn [tracked mark_used remove select_victim lru_policy].
  - intros s [k|] p; cbn; [|naive_solver]. rewrite elem_of_app, elem_of_pop_key, list_elem_of_singleton.
    destruct (decide (s = k)); naive_solver.
  - intros s [k|] p; cbn; [|naive_solver]. rewrite elem_of_pop_key. naive_solver.
  - intros cands s p Hs. unfold lru_select_victim. rewrite Hs. eauto.
  - intros cands p Hn Hc. unfold lru_select_victim. rewrite Hn, decide_True by done. eauto.
Qed.

#[export] Instance fifo_laws : PolicyLaws FIFOEvictionPolicy.
Proof.
  split; cbn [tracked mark_used remove select_victim fifo_policy].
  - intros s [k|] p; cbn; [|naive_solver]. case_decide; [naive_solver|].
    cbn. rewrite elem_of_app, list_elem_of_singleton. naive_solver.
  - intros s [k|] p; cbn; [|naive_solver]. rewrite elem_of_pop_key. naive_solver.
  - intros cands s p Hs. unfold fifo_select_victim. rewrite Hs. eauto.
  - intros cands p Hn Hc. unfold fifo_select_victim. rewrite Hn, decide_True by done. eauto.
Qed.

(** ** The order of the placement *)

#[export] Instance uid_le_order : PyOrder uid_le.
Proof.
  split.
  - intros [s|] [t|]; cbn; auto. apply String.leb_total.
  - intros [s|] [t|] [r|]; cbn; try done. intros H1 H2. apply Is_true_true.
    etrans; [|by apply Is_true_true in H2]. by apply Is_true_true.
Qed.

Lemma uid_le_antisym a b : uid_le a b = true → uid_le b a = true → a = b.
Proof. destruct a, b; cbn; try done. intros. f_equal. by apply String.leb_antisym. Qed.

Lemma ordered_uids_agree (O1 O2 : UidOrder) cur : @ordered_uids O1 cur = @ordered_uids O2 cur.
Proof.
  unfold ordered_uids. set (R := λ x y, uid_le x y = true).
  assert (AntiSymm (=) R) by (intros x y; apply uid_le_antisym).
  apply (StronglySorted_unique R); [apply py_sorted_sorted, _..|].
  rewrite !py_sorted_Permutation. by rewrite !uid_list_elements.
Qed.

Lemma elem_of_ordered `{UidOrder} u cur : u ∈ ordered_uids cur ↔ u ∈ cur.
Proof. unfold ordered_uids. by rewrite py_sorted_Permutation, uid_list_elements, elem_of_elements. Qed.

(** ** The invariant *)

Section inv.
Context {P A : Type} `{PolicyLaws P}.
Implicit Types (p : LoRAMemoryPool P A) (cur : gset uid) (refs : gmap string LoRARef) (loras : gmap string A).

(** What a resident's slot must hold. *)
Definition weights_of loras (u : uid) : option (values A) :=
  match u with None => Some Zeros | Some s => WeightsOf <$> loras !! s end.

Record pool_inv loras p : Prop := {
  pi_slots : length (buffer_id_to_uid p) = pool_max_loras p;
  pi_buffers : length (buffers p) = pool_max_loras p;
  pi_bij u b : uid_to_buffer_id p !! u = Some b ↔ buffer_id_to_uid p !! b = Some (Uid u);
  pi_tracked s b : uid_to_buffer_id p !! Some s = Some b → s ∈ tracked (eviction_policy p);
  pi_values u b : uid_to_buffer_id p !! u = Some b →
    ∃ v, weights_of loras u = Some v ∧ buffers p !! b = Some v;
}.

(** The pinned adapters, as a set of ids. *)
Definition pins refs : gset uid := set_map Some (dom (filter (λ '(_, r), is_pinned r) refs)).

Lemma elem_of_pins refs u : u ∈ pins refs ↔ ref_pinned refs u.
Proof.
  unfold pins. rewrite elem_of_map. split.
  - intros (s & -> & (r & (Hr & Hp)%map_lookup_filter_Some)%elem_of_dom). cbn. by rewrite Hr.
  - destruct u as [s|]; cbn; [|done]. destruct (refs !! s) as [r|] eqn:Hr; [|done]. intros Hp.
    exists s. split; [done|]. apply elem_of_dom. exists r. by apply map_lookup_filter_Some.
Qed.

Definition residents p : gset uid := dom (uid_to_buffer_id p).

Lemma elem_of_residents p u : u ∈ residents p ↔ is_Some (uid_to_buffer_id p !! u).
Proof. apply elem_of_dom. Qed.

(** The batch fits beside the pinned adapters that are resident. *)
Definition fits cur refs p : Prop := (size (cur ∪ (pins refs ∩ residents p)) ≤ pool_max_loras p)%nat.

Lemma fits_mono cur refs p cur' refs' p' :
  fits cur refs p → pool_max_loras p' = pool_max_loras p →
  cur' ∪ (pins refs' ∩ residents p') ⊆ cur ∪ (pins refs ∩ residents p) → fits cur' refs' p'.
Proof. unfold fits. intros Hf -> Hs%subseteq_size. lia. Qed.

Lemma new_pool_inv loras max policy : pool_inv loras (new_pool max policy).
Proof.
  split; cbn; [by rewrite length_replicate..| | |].
  - intros u b. rewrite lookup_empty. split; [done|]. by intros [? _]%lookup_replicate.
  - intros s b. by rewrite lookup_empty.
  - intros u b. by rewrite lookup_empty.
Qed.

Lemma marked_tracked s (policy : P) l :
  s ∈ tracked (foldl (λ pol u, mark_used u pol) policy l) ↔ s ∈ tracked policy ∨ Some s ∈ l.
Proof.
  revert policy. induction l as [|u l IH]; intros policy; cbn.
  - rewrite elem_of_nil. tauto.
  - rewrite IH, tracked_mark, elem_of_cons. naive_solver.
Qed.

(** A pool that tracks more is as good. *)
Lemma set_policy_inv loras f p :
  pool_inv loras p → (∀ s, s ∈ tracked (eviction_policy p) → s ∈ tracked (f (eviction_policy p))) →
  pool_inv loras (set_policy f p).
Proof. intros [? ? ? Ht ?] Hf. split; cbn; eauto. Qed.

(** *** The candidates *)

Lemma elem_of_candidates cur refs p u :
  u ∈ candidates cur refs p ↔ Uid u ∈ buffer_id_to_uid p ∧ u ∉ cur ∧ u ∉ pins refs.
Proof.
  unfold candidates. rewrite elem_of_list_to_set, list_elem_of_omap, elem_of_pins. split.
  - intros ([|v] & Hin & Hv); [done|]. case_decide; [done|].
    destruct (ref_pinned refs v) eqn:Hp; [done|]. injection Hv as ->. rewrite Hp. naive_solver.
  - intros (Hin & Hc & Hp). exists (Uid u). split; [done|]. rewrite decide_False by done.
    by destruct (ref_pinned refs u).
Qed.

(** With every slot taken, a newcomer of a batch that fits finds a candidate. *)
Lemma candidate_exists loras cur refs p u :
  pool_inv loras p → EmptySlot ∉ buffer_id_to_uid p →
  u ∈ cur → uid_to_buffer_id p !! u = None →
  fits cur refs p →
  candidates cur refs p ≠ ∅.
Proof.
  intros Hi Hfull Hu Hnew Hfit Hc.
  set (res := omap (λ s, match s with Uid v => Some v | EmptySlot => None end) (buffer_id_to_uid p)).
  assert (buffer_id_to_uid p = Uid <$> res) as Heq.
  { unfold res. clear -Hfull. induction (buffer_id_to_uid p) as [|[|v] l IH]; cbn; [done| |].
    - set_solver.
    - f_equal. apply IH. set_solver. }
  assert (NoDup res) as Hnd.
  { apply NoDup_alt. intros i j v Hvi Hvj.
    assert (∀ k, res !! k = Some v → uid_to_buffer_id p !! v = Some k) as Hk.
    { intros k Hk. apply (pi_bij _ _ Hi). by rewrite Heq, list_lookup_fmap, Hk. }
    apply Hk in Hvi, Hvj. congruence. }
  assert (list_to_set res ⊆ (cur ∪ (pins refs ∩ residents p)) ∖ {[u]}) as Hsub.
  { intros v Hv%elem_of_list_to_set. apply list_elem_of_lookup in Hv as Hv'. destruct Hv' as [i Hvi].
    assert (uid_to_buffer_id p !! v = Some i) as Hvb.
    { apply (pi_bij _ _ Hi). by rewrite Heq, list_lookup_fmap, Hvi. }
    assert (v ∈ residents p) by (by apply elem_of_dom_2 in Hvb).
    apply elem_of_difference. split; [|set_solver]. destruct (decide (v ∈ cur)); [set_solver|].
    destruct (decide (v ∈ pins refs)); [set_solver|]. exfalso.
    assert (v ∈ candidates cur refs p); [|set_solver]. apply elem_of_candidates.
    rewrite Heq. split_and!; [by apply list_elem_of_fmap_2|done..]. }
  apply subseteq_size in Hsub. rewrite size_list_to_set in Hsub by done.
  rewrite size_difference, size_singleton in Hsub by set_solver. unfold fits in Hfit.
  assert (length res = pool_max_loras p); [|assert (size (cur ∪ (pins refs ∩ residents p)) ≠ 0)%nat; [|lia]].
  - rewrite <- (pi_slots _ _ Hi), Heq. by rewrite length_fmap.
  - apply size_non_empty_iff. set_solver.
Qed.

(** *** Giving a slot up and taking it *)

(** A resident leaves its slot, whatever is done to the slot's tensors. *)
Lemma vacate_inv loras p u b bufs :
  pool_inv loras p → uid_to_buffer_id p !! u = Some b →
  length bufs = length (buffers p) → (∀ c, c ≠ b → bufs !! c = buffers p !! c) →
  pool_inv loras (Pool (pool_max_loras p) (delete u (uid_to_buffer_id p))
    (<[b := EmptySlot]> (buffer_id_to_uid p)) bufs (remove u (eviction_policy p))).
Proof.
  intros [H1 H2 H3 H4 H5] Hb Hlen Hbufs. split; cbn.
  - by rewrite length_insert.
  - by rewrite Hlen.
  - intros v c. destruct (decide (v = u)) as [->|Hv].
    + rewrite lookup_delete_eq. split; [done|]. destruct (decide (c = b)) as [->|Hc].
      * rewrite list_lookup_insert_eq; [done|]. by apply H3, lookup_lt_Some in Hb.
      * rewrite list_lookup_insert_ne by done. rewrite <- H3. congruence.
    + rewrite lookup_delete_ne by done. destruct (decide (c = b)) as [->|Hc].
      * rewrite list_lookup_insert_eq by (by apply H3, lookup_lt_Some in Hb).
        split; [|done]. rewrite H3. apply H3 in Hb. congruence.
      * by rewrite list_lookup_insert_ne.
  - intros s c [Hs Hc]%lookup_delete_Some. apply tracked_remove. split; [by eapply H4|done].
  - intros v c [Hv Hc]%lookup_delete_Some. destruct (H5 _ _ Hc) as (w & Hw & Hbuf). exists w. split; [done|].
    rewrite Hbufs; [done|]. intros ->. apply H3 in Hb, Hc. congruence.
Qed.

(** A newcomer takes an empty slot that holds its weights. *)
Lemma occupy_inv loras p u b v :
  pool_inv loras p → uid_to_buffer_id p !! u = None → buffer_id_to_uid p !! b = Some EmptySlot →
  weights_of loras u = Some v → (∀ s, u = Some s → s ∈ tracked (eviction_policy p)) →
  pool_inv loras (assign_slot u b (write_buffer b v p)).
Proof.
  intros [H1 H2 H3 H4 H5] Hu Hb Hv Ht. pose proof (lookup_lt_Some _ _ _ Hb) as Hlt. split; cbn.
  - by rewrite length_insert.
  - by rewrite length_insert.
  - intros w c. destruct (decide (c = b)) as [->|Hc].
    + rewrite list_lookup_insert_eq by done. destruct (decide (w = u)) as [->|Hw]; [by rewrite lookup_insert_eq|].
      rewrite lookup_insert_ne by done. split; [|congruence]. rewrite H3. congruence.
    + rewrite list_lookup_insert_ne by done. destruct (decide (w = u)) as [->|Hw].
      * rewrite lookup_insert_eq. split; [congruence|]. rewrite <- H3. congruence.
      * by rewrite lookup_insert_ne.
  - intros s c. rewrite lookup_insert_Some. intros [[-> _]|[_ Hc]]; [by apply Ht|by eapply H4].
  - intros w c. rewrite lookup_insert_Some. intros [[<- <-]|[Hw Hc]].
    + exists v. split; [done|]. apply list_lookup_insert_eq. lia.
    + destruct (H5 _ _ Hc) as (x & Hx & Hbuf). exists x. split; [done|].
      rewrite list_lookup_insert_ne; [done|]. intros ->. apply H3 in Hc. congruence.
Qed.

(** *** A slot for a newcomer *)

(** What one step of the placement keeps: the batch and the pinned stay where they are. *)
Record keeps cur refs p p' : Prop := {
  k_max : pool_max_loras p' = pool_max_loras p;
  k_resident u b : u ∈ cur ∪ pins refs → uid_to_buffer_id p !! u = Some b → uid_to_buffer_id p' !! u = Some b;
  k_tracked s : Some s ∈ cur → s ∈ tracked (eviction_policy p) → s ∈ tracked (eviction_policy p');
}.

#[export] Instance keeps_preorder cur refs : PreOrder (keeps cur refs).
Proof. split; [by intros p; split|]. intros p1 p2 p3 [A1 A2 A3] [B1 B2 B3]. split; [congruence|eauto..]. Qed.

Lemma select_victim_spec cands (pol : P) :
  cands ≠ ∅ → (∀ s, Some s ∈ cands → s ∈ tracked pol) →
  ∃ v pol', select_victim cands pol = Ok (v, pol') ∧ v ∈ cands ∧ tracked pol' = tracked pol.
Proof.
  intros Hne Ht. destruct (first_candidate cands (tracked pol)) as [s|] eqn:Hf.
  - destruct (select_first _ _ _ Hf) as (pol' & -> & Hp'). exists (Some s), pol'. split_and!; [done| |done].
    by apply first_candidate_Some in Hf as (i & _ & ? & _).
  - pose proof (proj1 (first_candidate_None _ _) Hf) as Hn.
    apply set_choose_L in Hne as [[s|] Hs]; [by destruct (Hn s (Ht _ Hs))|].
    destruct (select_base _ _ Hf Hs) as (pol' & -> & Hp'). eauto.
Qed.

Lemma evict_victim_spec loras p v cur refs :
  pool_inv loras p → v ∈ candidates cur refs p →
  ∃ b p', evict_victim v p = Ok (b, p') ∧ pool_inv loras p' ∧ keeps cur refs p p' ∧
    buffer_id_to_uid p' !! b = Some EmptySlot ∧ uid_to_buffer_id p' ⊆ uid_to_buffer_id p ∧ buffers p' = buffers p.
Proof.
  intros Hi (Hv & Hc & Hp)%elem_of_candidates. apply list_elem_of_lookup in Hv as [b Hb].
  pose proof (proj2 (pi_bij _ _ Hi v b) Hb) as Hvb. unfold evict_victim. rewrite Hvb.
  eexists b, _. split; [done|]. split_and!.
  - by apply vacate_inv.
  - split; cbn; [done| |].
    + intros u c Hu Hl. rewrite lookup_delete_ne; [done|]. set_solver.
    + intros s Hs Ht. apply tracked_remove. split; [done|]. set_solver.
  - apply list_lookup_insert_eq. by apply lookup_lt_Some in Hb.
  - apply delete_subseteq.
  - done.
Qed.

Lemma get_slot_spec loras cur refs p u :
  pool_inv loras p → u ∈ cur → uid_to_buffer_id p !! u = None →
  fits cur refs p →
  ∃ b p', get_available_buffer_slot cur refs p = Ok (b, p') ∧ pool_inv loras p' ∧ keeps cur refs p p' ∧
    buffer_id_to_uid p' !! b = Some EmptySlot ∧ uid_to_buffer_id p' ⊆ uid_to_buffer_id p ∧ buffers p' = buffers p.
Proof.
  intros Hi Hu Hnew Hfit. unfold get_available_buffer_slot.
  destruct (list_find (eq EmptySlot) (buffer_id_to_uid p)) as [[b x]|] eqn:Hf.
  { apply list_find_Some in Hf as (Hb & <- & _). exists b, p. done. }
  assert (EmptySlot ∉ buffer_id_to_uid p) as Hfull.
  { rewrite list_find_None, Forall_forall in Hf. intros Hin. by apply (Hf _ Hin). }
  pose proof (candidate_exists _ _ _ _ _ Hi Hfull Hu Hnew Hfit) as Hne.
  rewrite decide_False by done.
  set (to_use := if decide _ then _ else _).
  assert (to_use ≠ ∅ ∧ to_use ⊆ candidates cur refs p) as [Hne' Hsub].
  { unfold to_use. case_decide; [done|]. set_solver. }
  destruct (select_victim_spec to_use (eviction_policy p)) as (v & pol & -> & Hv & Hpol); [done| |].
  { intros s Hs%Hsub. apply elem_of_candidates in Hs as (Hs & _). apply list_elem_of_lookup in Hs as [b Hb].
    eapply (pi_tracked _ _ Hi), (pi_bij _ _ Hi), Hb. }
  cbn [mbind res_bind].
  destruct (evict_victim_spec loras (set_policy (λ _, pol) p) v cur refs) as (b & p' & He & ? & [K1 K2 K3] & ?).
  - apply set_policy_inv; [done|]. by rewrite Hpol.
  - by apply Hsub.
  - exists b, p'. split_and!; [done|done| |naive_solver..]. split; [done|done|].
    intros s Hs Ht. apply K3; [done|]. cbn. by rewrite Hpol.
Qed.

(** *** Removing an adapter *)

Lemma remove_lora_spec loras p s :
  pool_inv loras p →
  ∃ p', remove_lora s p = (uid_to_buffer_id p !! Some s, p') ∧ pool_inv (delete s loras) p' ∧
    uid_to_buffer_id p' = delete (Some s) (uid_to_buffer_id p) ∧ pool_max_loras p' = pool_max_loras p.
Proof.
  intros Hi. unfold remove_lora.
  assert (∀ q, pool_inv loras q → uid_to_buffer_id q !! Some s = None → pool_inv (delete s loras) q) as Hdel.
  { intros q [Q1 Q2 Q3 Q4 Q5] Hq. split; [done..|]. intros u b Hb. destruct (Q5 _ _ Hb) as (v & Hv & ?).
    exists v. split; [|done]. destruct u as [t|]; [|done]. cbn. rewrite lookup_delete_ne; [done|]. congruence. }
  destruct (uid_to_buffer_id p !! Some s) as [b|] eqn:Hb.
  - eexists. split; [done|]. split_and!; [|done|done]. apply Hdel; [|cbn; by rewrite lookup_delete_eq].
    cbn. apply vacate_inv; [done|done|by rewrite length_insert|]. intros c Hc. by apply list_lookup_insert_ne.
  - exists p. split_and!; [done|by apply Hdel|by rewrite delete_id|done].
Qed.

(** A new adapter in memory changes nothing for the residents. *)
Lemma pool_inv_loras loras p s a : loras !! s = None → pool_inv loras p → pool_inv (<[s := a]> loras) p.
Proof.
  intros Hs [Q1 Q2 Q3 Q4 Q5]. split; [done..|]. intros u b Hb. destruct (Q5 _ _ Hb) as (v & Hv & ?).
  exists v. split; [|done]. destruct u as [t|]; [|done]. cbn in *. destruct (decide (t = s)) as [->|].
  - by rewrite Hs in Hv.
  - by rewrite lookup_insert_ne.
Qed.

(** *** Placing a batch *)

Context (copy_weights : A → res unit).

(** Every adapter of the batch is loaded in memory and its copy does not raise. *)
Definition loadable loras cur : Prop :=
  ∀ s, Some s ∈ cur → ∃ a, loras !! s = Some a ∧ copy_weights a = Ok ().

Lemma place_adapter_spec loras cur refs p u :
  pool_inv loras p → u ∈ cur → loadable loras cur →
  fits cur refs p →
  (∀ s, Some s ∈ cur → s ∈ tracked (eviction_policy p)) →
  ∃ p', place_adapter copy_weights cur loras refs u p = Ok p' ∧ pool_inv loras p' ∧ keeps cur refs p p' ∧
    is_Some (uid_to_buffer_id p' !! u) ∧ dom (uid_to_buffer_id p') ⊆ dom (uid_to_buffer_id p) ∪ {[u]} ∧
    ∀ b, buffers p' !! b = buffers p !! b ∨ uid_to_buffer_id p !! u = None ∧ uid_to_buffer_id p' !! u = Some b.
Proof.
  intros Hi Hu Hl Hfit Ht. unfold place_adapter. case_decide as Hres.
  { exists p. split_and!; [done..|set_solver|by left]. }
  apply eq_None_not_Some in Hres.
  destruct (get_slot_spec loras cur refs p u) as (b & p1 & -> & Hi1 & Hk & Hb & Hsub & Hbuf); [done..|].
  cbn [mbind res_bind].
  assert (uid_to_buffer_id p1 !! u = None) as Hu1.
  { destruct (uid_to_buffer_id p1 !! u) eqn:E; [|done]. by rewrite (lookup_weaken _ _ _ _ E Hsub) in Hres. }
  assert (∃ v, weights_of loras u = Some v ∧
    load_lora_weight_to_buffer copy_weights u b (get_adapter loras u) p1 = Ok (write_buffer b v p1)) as (v & Hv & ->).
  { destruct u as [s|]; cbn; [|by eauto]. destruct (Hl s Hu) as (a & -> & Hc). cbn. rewrite Hc. by eauto. }
  cbn [mbind res_bind]. eexists. split; [done|]. split_and!.
  - apply occupy_inv; [done..|]. intros s ->. apply (k_tracked _ _ _ _ Hk); [done|]. by apply Ht.
  - destruct Hk as [K1 K2 K3]. split; cbn; [done| |done].
    intros w c Hw Hc. rewrite lookup_insert_ne; [by apply K2|]. intros ->. congruence.
  - cbn. by rewrite lookup_insert_eq.
  - cbn. rewrite dom_insert_L. apply subseteq_dom in Hsub. set_solver.
  - intros c. cbn. rewrite <- Hbuf. destruct (decide (c = b)) as [->|].
    + right. by rewrite lookup_insert_eq.
    + left. by apply list_lookup_insert_ne.
Qed.

Lemma place_batch_spec `{UidOrder} loras cur refs p :
  pool_inv loras p → loadable loras cur → fits cur refs p →
  ∃ p', prepare_lora_batch copy_weights cur loras refs p = Ok p' ∧ pool_inv loras p' ∧
    cur ⊆ residents p' ∧ residents p' ⊆ residents p ∪ cur ∧
    pool_max_loras p' = pool_max_loras p ∧
    (∀ u b, u ∈ cur ∪ pins refs → uid_to_buffer_id p !! u = Some b → uid_to_buffer_id p' !! u = Some b) ∧
    (∀ b, buffers p' !! b = buffers p !! b ∨
      ∃ u, u ∈ cur ∧ uid_to_buffer_id p !! u = None ∧ uid_to_buffer_id p' !! u = Some b).
Proof.
  intros Hi Hl Hfit. unfold prepare_lora_batch. set (p0 := set_policy _ p).
  destruct (for_each_inv (λ l q, (∀ u, u ∈ l → u ∈ cur) ∧ pool_inv loras q ∧ keeps cur refs p0 q ∧
      residents q ⊆ residents p ∪ cur ∧
      (∀ u, u ∈ cur → u ∈ l ∨ u ∈ residents q) ∧
      (∀ b, buffers q !! b = buffers p !! b ∨
        ∃ u, u ∈ cur ∧ uid_to_buffer_id p !! u = None ∧ uid_to_buffer_id q !! u = Some b))
    (place_adapter copy_weights cur loras refs) (ordered_uids cur) p0)
    as (p' & Hp' & _ & Hi' & [K1 K2 K3] & Hd & Hall & Hbufs).
  - split_and!; [intros u; apply elem_of_ordered| |done|cbn; set_solver| |by left].
    + apply set_policy_inv; [done|]. intros s Hs. apply marked_tracked. by left.
    + intros u Hu. left. by apply elem_of_ordered.
  - intros u l q (Hcur & Hiq & Hkq & Hdq & Hallq & Hbq). assert (u ∈ cur) as Hu by (apply Hcur; left).
    destruct (place_adapter_spec loras cur refs q u) as (q' & ? & ? & Hk & Hres & Hd' & Hb'); [done..| | |].
    + eapply fits_mono; [exact Hfit|exact (k_max _ _ _ _ Hkq)|]. unfold residents in *. set_solver.
    + intros s Hs. apply (k_tracked _ _ _ _ Hkq); [done|]. apply marked_tracked. right. by apply elem_of_ordered.
    + exists q'. split; [done|]. unfold residents in *.
      split_and!; [intros w Hw; apply Hcur; by right|done|by etrans|set_solver| |].
      * intros w Hw. destruct (Hallq w Hw) as [[->|]%elem_of_cons|[b Hb]%elem_of_dom]; [right|by left|right].
        { by apply elem_of_dom. }
        apply elem_of_dom. exists b. apply (k_resident _ _ _ _ Hk); [set_solver|done].
      * intros b. destruct (Hb' b) as [->|[Hnew Hub]].
        { destruct (Hbq b) as [|(w & ? & ? & ?)]; [by left|]. right. exists w. split_and!; [done..|].
          apply (k_resident _ _ _ _ Hk); [set_solver|done]. }
        right. exists u. split_and!; [done| |done]. destruct (uid_to_buffer_id p !! u) as [c|] eqn:Hc; [|done].
        rewrite (k_resident _ _ _ _ Hkq u c) in Hnew; [done|set_solver|done].
  - exists p'. split_and!; [done|done| |done..]. intros u Hu.
    destruct (Hall u Hu) as [?%elem_of_nil|?]; done.
Qed.
End inv.
