(* ===== verification/LoraDrain.v ===== *)
(** * Draining adapters for starving ones

    [LoRADrainer] of [srt/lora/lora_drainer.py]: statistics per adapter, the choice of
    running adapters that make room for adapters which have waited too long, and the
    requests a draining adapter still takes.  Of a request the fields that are read.  The
    clock gives one reading per waiting request.

    The theorems: a starving adapter gets a running one that drains for it; a starving base
    model gets none and takes the place of others; a draining adapter can be kept busy for
    ever by requests of ordinary size; and ranks can choose differently. *)

From S2P Require Import Prelude PyFloat PySort LoraSlots.

Open Scope Z_scope.

Record LoraReq := LReq {
  req_lora_id : uid;
  max_new_tokens : Z;
  output_ids : list Z;
  wait_queue_entry_time : Q;
}.

Record AdapterStats := Stats {
  num_waiting_reqs : Z;
  max_wait_time_secs : Q;
  max_remaining_tokens : Z;
  is_draining_for : uid;
}.

Definition new_stats : AdapterStats := Stats 0 0 0 None.

Definition reset_stats (s : AdapterStats) : AdapterStats := Stats 0 0 0 (is_draining_for s).

Definition is_starving (threshold : Q) (s : AdapterStats) : bool :=
  Qltb threshold (max_wait_time_secs s) && (0 <? num_waiting_reqs s).

(** [adapter_to_stats] is a [defaultdict]: an unknown adapter has fresh statistics. *)
Record LoRADrainer := Drainer {
  drain_max_loras : nat;
  drain_threshold : Q;
  adapter_to_stats : list (uid * AdapterStats);
}.

Definition stats_of (a : uid) (d : LoRADrainer) : AdapterStats := default new_stats (dict_get a (adapter_to_stats d)).

Definition set_table (t : list (uid * AdapterStats)) (d : LoRADrainer) : LoRADrainer :=
  Drainer (drain_max_loras d) (drain_threshold d) t.

(** Reads the statistics of [a], creating them if need be, and stores [f] of them. *)
Definition update_stats (a : uid) (f : AdapterStats → AdapterStats) (d : LoRADrainer) : LoRADrainer :=
  set_table (dict_set a (f (stats_of a d)) (adapter_to_stats d)) d.

(** [max(x, y)] keeps [x] unless [y] is larger. *)
Definition py_max_Q (x y : Q) : Q := if Qltb x y then y else x.

Definition remaining (r : LoraReq) : Z := max_new_tokens r - zlen (output_ids r).

Definition count_waiting (now : Q) (r : LoraReq) (d : LoRADrainer) : LoRADrainer :=
  update_stats (req_lora_id r) (λ s,
    Stats (num_waiting_reqs s + 1) (py_max_Q (max_wait_time_secs s) (now - wait_queue_entry_time r)%Q)
          (max_remaining_tokens s) (is_draining_for s)) d.

Definition count_running (r : LoraReq) (d : LoRADrainer) : LoRADrainer :=
  update_stats (req_lora_id r) (λ s,
    Stats (num_waiting_reqs s) (max_wait_time_secs s)
          (Z.max (max_remaining_tokens s) (remaining r)) (is_draining_for s)) d.

(** [_update_adapter_stats]; [clock i] is the reading for the [i]-th waiting request. *)
Definition update_adapter_stats (clock : nat → Q) (waiting running : list LoraReq) (d : LoRADrainer) : LoRADrainer :=
  let d := set_table (prod_map id reset_stats <$> adapter_to_stats d) d in
  let d := foldl (λ d nr, count_waiting nr.1 nr.2 d) d (imap (λ i r, (clock i, r)) waiting) in
  foldl (λ d r, count_running r d) d running.

Definition running_adapters (running : list LoraReq) : gset uid := list_to_set (req_lora_id <$> running).

Definition starving_adapters (d : LoRADrainer) : gset uid :=
  list_to_set (filter (λ '(_, s), is_starving (drain_threshold d) s) (adapter_to_stats d)).*1.

(** The adapters some adapter already drains for. *)
Definition draining_for_adapters (d : LoRADrainer) : gset uid :=
  list_to_set (filter (λ u, u ≠ None) (is_draining_for <$> (adapter_to_stats d).*2)).

(** [min(l, key=f)]: the first element with the least key. *)
Fixpoint first_min {A} (f : A → Z) (x : A) (l : list A) : A :=
  match l with
  | [] => x
  | y :: l => first_min f (if f y <? f x then y else x) l
  end.

Section drain.
Context `{UidOrder}.

Definition sorted_starving (d : LoRADrainer) (new_starving : gset uid) : list uid :=
  py_sorted (λ x y, Qle_bool (max_wait_time_secs (stats_of y d)) (max_wait_time_secs (stats_of x d)))
    (uid_list new_starving).

Definition drain_for (starving a : uid) (d : LoRADrainer) : LoRADrainer :=
  update_stats a (λ s, Stats (num_waiting_reqs s) (max_wait_time_secs s) (max_remaining_tokens s) starving) d.

(** The loop over the starving adapters; it stops when nothing is eligible. *)
Fixpoint assign_drains (starving : list uid) (eligible : gset uid) (d : LoRADrainer) : LoRADrainer :=
  match starving with
  | [] => d
  | s :: starving =>
      match uid_list eligible with
      | [] => d
      | x :: l =>
          let a := first_min (λ a, max_remaining_tokens (stats_of a d)) x l in
          assign_drains starving (eligible ∖ {[a]}) (drain_for s a d)
      end
  end.

Definition eligible_to_drain (running : gset uid) (d : LoRADrainer) : gset uid :=
  filter (λ a, is_draining_for (stats_of a d) = None) running.

(** [_update_draining_loras] *)
Definition update_draining_loras (running : list LoraReq) (d : LoRADrainer) : LoRADrainer :=
  let ids := running_adapters running in
  if (size ids <? drain_max_loras d)%nat then d
  else
    let new_starving := starving_adapters d ∖ draining_for_adapters d in
    if decide (new_starving = ∅) then d
    else assign_drains (sorted_starving d new_starving) (eligible_to_drain ids d) d.

(** [_update_fully_drained_loras] *)
Definition update_fully_drained_loras (running : list LoraReq) (d : LoRADrainer) : LoRADrainer :=
  set_table ((λ '(a, s),
    if decide (is_draining_for s = None) then (a, s)
    else if decide (a ∈ running_adapters running) then (a, s)
    else (a, Stats (num_waiting_reqs s) (max_wait_time_secs s) (max_remaining_tokens s) None))
    <$> adapter_to_stats d) d.

Definition update_draining_state (clock : nat → Q) (waiting running : list LoraReq) (d : LoRADrainer) : LoRADrainer :=
  update_fully_drained_loras running
    (update_draining_loras running (update_adapter_stats clock waiting running d)).
End drain.

Definition DRAIN_SCHEDULE_TOLERANCE : Q := 6 # 5.

(** [can_schedule]: [not stats.is_draining_for] also holds of the empty string; the
    lookup leaves an entry for the adapter. *)
Definition can_schedule (r : LoraReq) (d : LoRADrainer) : bool * LoRADrainer :=
  let s := stats_of (req_lora_id r) d in
  let d := update_stats (req_lora_id r) id d in
  (match is_draining_for s with
   | None | Some "" => true
   | Some _ => Qle_bool (inject_Z (max_new_tokens r)) (inject_Z (max_remaining_tokens s) * DRAIN_SCHEDULE_TOLERANCE)
   end, d).

(** ** Statistics *)

Lemma stats_of_update_eq a f d : stats_of a (update_stats a f d) = f (stats_of a d).
Proof. unfold stats_of at 1. cbn. by rewrite dict_get_set_eq. Qed.

Lemma stats_of_update_ne a b f d : a ≠ b → stats_of a (update_stats b f d) = stats_of a d.
Proof. intros. unfold stats_of at 1. cbn. by rewrite dict_get_set_ne. Qed.

(** A map over the table that treats every entry on its own. *)
Lemma dict_get_map (f : uid * AdapterStats → AdapterStats) a t :
  dict_get a ((λ e, (e.1, f e)) <$> t) = (λ s, f (a, s)) <$> dict_get a t.
Proof. induction t as [|[k s] t IH]; cbn; [done|]. case_decide; [by subst|done]. Qed.

Lemma stats_of_map f a d :
  f (a, new_stats) = new_stats →
  stats_of a (set_table ((λ e, (e.1, f e)) <$> adapter_to_stats d) d) = f (a, stats_of a d).
Proof. intros Hf. unfold stats_of. cbn. rewrite dict_get_map. by destruct (dict_get a _). Qed.

Lemma count_waiting_draining now r a d :
  is_draining_for (stats_of a (count_waiting now r d)) = is_draining_for (stats_of a d).
Proof.
  unfold count_waiting. destruct (decide (a = req_lora_id r)) as [->|].
  - by rewrite stats_of_update_eq.
  - by rewrite stats_of_update_ne.
Qed.

Lemma count_running_draining r a d :
  is_draining_for (stats_of a (count_running r d)) = is_draining_for (stats_of a d).
Proof.
  unfold count_running. destruct (decide (a = req_lora_id r)) as [->|].
  - by rewrite stats_of_update_eq.
  - by rewrite stats_of_update_ne.
Qed.

Lemma count_running_remaining r a d :
  max_remaining_tokens (stats_of a d) ≤ max_remaining_tokens (stats_of a (count_running r d)) ∧
  (req_lora_id r = a → remaining r ≤ max_remaining_tokens (stats_of a (count_running r d))).
Proof.
  unfold count_running. destruct (decide (a = req_lora_id r)) as [->|].
  - rewrite stats_of_update_eq. cbn. lia.
  - rewrite stats_of_update_ne by done. split; [lia|congruence].
Qed.

Lemma update_adapter_draining clock waiting running a d :
  is_draining_for (stats_of a (update_adapter_stats clock waiting running d)) = is_draining_for (stats_of a d).
Proof.
  unfold update_adapter_stats. set (d0 := set_table _ d).
  trans (is_draining_for (stats_of a (foldl (λ d nr, count_waiting nr.1 nr.2 d) d0 (imap (λ i r, (clock i, r)) waiting)))).
  { generalize (foldl (λ d nr, count_waiting nr.1 nr.2 d) d0 (imap (λ i r, (clock i, r)) waiting)). intros d1.
    revert d1. induction running as [|r l IH]; intros d1; cbn; [done|]. by rewrite IH, count_running_draining. }
  trans (is_draining_for (stats_of a d0)).
  { generalize (imap (λ i r, (clock i, r)) waiting). intros l. generalize d0.
    induction l as [|[t r] l IH]; intros d1; cbn; [done|]. by rewrite IH, count_waiting_draining. }
  unfold d0. pose proof (stats_of_map (λ e, reset_stats e.2) a d eq_refl) as Hm.
  assert (prod_map id reset_stats <$> adapter_to_stats d = (λ e, (e.1, reset_stats e.2)) <$> adapter_to_stats d) as ->.
  { apply list_fmap_ext. by intros i [k s] _. }
  by rewrite Hm.
Qed.

Lemma update_adapter_remaining clock waiting running r d :
  r ∈ running → remaining r ≤ max_remaining_tokens (stats_of (req_lora_id r) (update_adapter_stats clock waiting running d)).
Proof.
  unfold update_adapter_stats. generalize (foldl (λ d nr, count_waiting nr.1 nr.2 d) (set_table (prod_map id reset_stats <$> adapter_to_stats d) d) (imap (λ i r, (clock i, r)) waiting)). intros d1.
  assert (∀ a l d1, max_remaining_tokens (stats_of a d1) ≤
    max_remaining_tokens (stats_of a (foldl (λ d r, count_running r d) d1 l))) as Hmono.
  { intros a l. induction l as [|q l IH]; intros d2; cbn; [lia|].
    etrans; [apply (count_running_remaining q)|apply IH]. }
  revert d1. induction running as [|q l IH]; intros d1; [by intros ?%elem_of_nil|].
  intros [->|Hin]%elem_of_cons; cbn; [|by apply IH].
  etrans; [|apply Hmono]. by apply count_running_remaining.
Qed.

(** ** Choosing who drains *)

Lemma first_min_elem {A} (f : A → Z) x l : first_min f x l ∈ x :: l.
Proof.
  revert x. induction l as [|y l IH]; intros x; cbn; [by left|].
  specialize (IH (if f y <? f x then y else x)). destruct (f y <? f x); set_solver.
Qed.

Section drain.
Context `{UidOrder}.

Lemma uid_list_cons e x l : uid_list e = x :: l → ∀ a, a ∈ x :: l ↔ a ∈ e.
Proof. intros He a. by rewrite <- He, uid_list_elements, elem_of_elements. Qed.

Lemma uid_list_nil e : uid_list e = [] → e = ∅.
Proof. intros He. apply leibniz_equiv, elements_empty_inv, Permutation_nil. by rewrite <- He, uid_list_elements. Qed.

Lemma uid_list_empty : uid_list ∅ = [].
Proof. apply Permutation_nil. by rewrite uid_list_elements, elements_empty. Qed.

(** Only eligible adapters are touched, and every starving adapter gets one unless they
    run out. *)
Lemma assign_drains_spec l e d :
  None ∉ l →
  (∀ a, a ∉ e → stats_of a (assign_drains l e d) = stats_of a d) ∧
  ((∀ s, s ∈ l → ∃ a, a ∈ e ∧ is_draining_for (stats_of a (assign_drains l e d)) = s) ∨
   (∀ a, a ∈ e → is_draining_for (stats_of a (assign_drains l e d)) ≠ None)).
Proof.
  revert e d. induction l as [|s l IH]; intros e d Hn; cbn.
  { split; [done|]. left. by intros s ?%elem_of_nil. }
  destruct (uid_list e) as [|x k] eqn:He.
  { apply uid_list_nil in He as ->. split; [done|]. right. set_solver. }
  pose proof (uid_list_cons _ _ _ He) as Hin.
  set (a := first_min _ x k). assert (a ∈ e) as Ha by apply Hin, first_min_elem.
  apply not_elem_of_cons in Hn as [Hs Hn].
  destruct (IH (e ∖ {[a]}) (drain_for s a d) Hn) as [Hout Hd].
  set (d' := assign_drains l (e ∖ {[a]}) (drain_for s a d)) in *.
  assert (is_draining_for (stats_of a d') = s) as Has.
  { rewrite Hout by set_solver. unfold drain_for. by rewrite stats_of_update_eq. }
  split.
  - intros b Hb. rewrite Hout by set_solver. apply stats_of_update_ne. set_solver.
  - destruct Hd as [Hd|Hd].
    + left. intros t [->|Ht]%elem_of_cons; [by eauto|]. destruct (Hd t Ht) as (b & Hb & ?). exists b. set_solver.
    + right. intros b Hb. destruct (decide (b = a)) as [->|]; [congruence|]. apply Hd. set_solver.
Qed.

(** An adapter that drains already is left alone. *)
Lemma assign_drains_keeps l e d a : a ∉ e → stats_of a (assign_drains l e d) = stats_of a d.
Proof.
  revert e d. induction l as [|s l IH]; intros e d Ha; cbn; [done|].
  destruct (uid_list e) as [|x k] eqn:He; [done|]. set (b := first_min _ x k).
  assert (b ∈ e) by (eapply uid_list_cons; [done|apply first_min_elem]).
  rewrite IH by set_solver. apply stats_of_update_ne. set_solver.
Qed.

Lemma draining_kept running d a :
  is_draining_for (stats_of a d) ≠ None → stats_of a (update_draining_loras running d) = stats_of a d.
Proof.
  intros Ha. unfold update_draining_loras. destruct (_ <? _)%nat; [done|]. case_decide; [done|].
  apply assign_drains_keeps. unfold eligible_to_drain. by intros [? _]%elem_of_filter.
Qed.

Lemma fully_drained_kept running d a :
  a ∈ running_adapters running → stats_of a (update_fully_drained_loras running d) = stats_of a d.
Proof.
  intros Ha. unfold update_fully_drained_loras.
  set (f := λ e : uid * AdapterStats,
    if decide (is_draining_for e.2 = None) then e.2 else if decide (e.1 ∈ running_adapters running) then e.2
    else Stats (num_waiting_reqs e.2) (max_wait_time_secs e.2) (max_remaining_tokens e.2) None).
  trans (stats_of a (set_table ((λ e, (e.1, f e)) <$> adapter_to_stats d) d)).
  { do 2 f_equal. apply list_fmap_ext. intros i [k s] _. unfold f. cbn. by repeat case_decide. }
  rewrite stats_of_map; unfold f; cbn; [|by rewrite decide_True]. case_decide; [done|]. by rewrite decide_True.
Qed.

Lemma elem_of_sorted_starving d new s : s ∈ sorted_starving d new ↔ s ∈ new.
Proof. unfold sorted_starving. by rewrite py_sorted_Permutation, uid_list_elements, elem_of_elements. Qed.

#[local] Instance starving_order d :
  PyOrder (λ x y, Qle_bool (max_wait_time_secs (stats_of y d)) (max_wait_time_secs (stats_of x d))).
Proof.
  split.
  - intros x y. rewrite !Qle_bool_iff. destruct (Qlt_le_dec (max_wait_time_secs (stats_of x d)) (max_wait_time_secs (stats_of y d))); [right; lra|by left].
  - intros x y z. rewrite !Qle_bool_iff. lra.
Qed.

(** The adapter that has waited longest comes first. *)
Lemma longest_first d new s :
  s ∈ new → (∀ t, t ∈ new → t ≠ s → max_wait_time_secs (stats_of t d) < max_wait_time_secs (stats_of s d))%Q →
  ∃ l, sorted_starving d new = s :: l.
Proof.
  intros Hs Hmax. apply (elem_of_sorted_starving d) in Hs as Hin.
  assert (∀ t, t ∈ sorted_starving d new → t ∈ new) as Hnew by (intros t; apply elem_of_sorted_starving).
  pose proof (py_sorted_sorted (λ x y, Qle_bool (max_wait_time_secs (stats_of y d)) (max_wait_time_secs (stats_of x d)))
    (uid_list new)) as Hsort. change (py_sorted _ (uid_list new)) with (sorted_starving d new) in Hsort.
  destruct (sorted_starving d new) as [|t l]; [by apply elem_of_nil in Hin|].
  destruct (decide (t = s)) as [->|Hne]; [by exists l|]. exfalso.
  apply elem_of_cons in Hin as [->|Hin]; [done|].
  apply StronglySorted_inv in Hsort as [_ Hall]. rewrite Forall_forall in Hall.
  specialize (Hall s Hin). apply Qle_bool_iff in Hall.
  specialize (Hmax t (Hnew t ltac:(left)) Hne). lra.
Qed.

(** Draining for the base model is recorded as not draining. *)
Lemma drain_for_base a d b : is_draining_for (stats_of a d) = None → stats_of b (drain_for None a d) = stats_of b d.
Proof.
  intros Ha. unfold drain_for. destruct (decide (b = a)) as [->|]; [|by apply stats_of_update_ne].
  rewrite stats_of_update_eq. rewrite <- Ha. by destruct (stats_of a d).
Qed.

(** A list of starving adapters that begins with the base model, with one eligible
    adapter or none left to serve, changes nothing. *)
Lemma assign_base l e d b :
  (∀ a, a ∈ e → is_draining_for (stats_of a d) = None) → (l = [] ∨ size e = 1%nat) →
  stats_of b (assign_drains (None :: l) e d) = stats_of b d.
Proof.
  intros He Hl. cbn. destruct (uid_list e) as [|x k] eqn:Hu; [done|]. set (a := first_min _ x k).
  assert (a ∈ e) as Ha by (eapply uid_list_cons; [done|apply first_min_elem]).
  trans (stats_of b (drain_for None a d)); [|by apply drain_for_base, He].
  destruct Hl as [->|Hs]; [done|]. apply assign_drains_keeps.
  apply size_1_elem_of in Hs as [y Hy]. set_solver.
Qed.
End drain.

(** ** The claims *)

(** C32: drainage serves the starving.  When the running requests use all the adapters a
    batch may have and the base model is not starving, then after
    [_update_draining_loras] every starving adapter has an adapter that drains for it,
    unless every running adapter is already draining. *)
Theorem starving_adapter_gets_drain `{UidOrder} (running : list LoraReq) (d : LoRADrainer) (s : uid)
    (Hdict : NoDup (dict_keys (adapter_to_stats d)))
    (Hfull : (drain_max_loras d ≤ size (running_adapters running))%nat)
    (Hbase : None ∉ starving_adapters d) (Hs : s ∈ starving_adapters d) :
  let d' := update_draining_loras running d in
  (∃ a, is_draining_for (stats_of a d') = s) ∨
  (∀ a, a ∈ running_adapters running → is_draining_for (stats_of a d') ≠ None).
Proof.
  intros d'. destruct (decide (s ∈ draining_for_adapters d)) as [Hin|Hin].
  - left. unfold draining_for_adapters in Hin.
    apply elem_of_list_to_set, list_elem_of_filter in Hin as (Hne & Hin).
    apply list_elem_of_fmap in Hin as (st & -> & ([a st'] & -> & Ha)%list_elem_of_fmap). cbn in *.
    apply dict_get_elem in Ha; [|done]. assert (stats_of a d = st') as Hst by (unfold stats_of; by rewrite Ha).
    exists a. unfold d'. rewrite draining_kept; by rewrite Hst.
  - unfold d', update_draining_loras. destruct (Nat.ltb_spec (size (running_adapters running)) (drain_max_loras d)); [lia|].
    rewrite decide_False by set_solver.
    destruct (assign_drains_spec (sorted_starving d (starving_adapters d ∖ draining_for_adapters d))
      (eligible_to_drain (running_adapters running) d) d) as [Hout [Hd|Hd]].
    + rewrite elem_of_sorted_starving. set_solver.
    + left. destruct (Hd s) as (a & _ & Ha); [|by exists a]. apply elem_of_sorted_starving. set_solver.
    + right. intros a Ha. destruct (decide (is_draining_for (stats_of a d) = None)) as [Hn|Hn].
      * apply Hd. by apply elem_of_filter.
      * rewrite Hout; [done|]. unfold eligible_to_drain. by intros [? _]%elem_of_filter.
Qed.

(** C36: nobody drains for the base model.  If only the base model starves, or if it has
    waited longest and one running adapter is left to drain, [_update_draining_loras]
    changes the statistics of no adapter: the mark for the base model is [None], which
    means not draining, and the adapter that got it is no longer offered to the others. *)
Theorem starving_base_drains_nobody `{UidOrder} (running : list LoraReq) (d : LoRADrainer)
    (Hbase : starving_adapters d = {[None]} ∨
      (size (eligible_to_drain (running_adapters running) d) = 1%nat ∧ None ∈ starving_adapters d ∧
       ∀ s, s ∈ starving_adapters d → s ≠ None →
         (max_wait_time_secs (stats_of s d) < max_wait_time_secs (stats_of None d))%Q))
    (a : uid) :
  stats_of a (update_draining_loras running d) = stats_of a d.
Proof.
  unfold update_draining_loras. destruct (_ <? _)%nat; [done|]. case_decide as Hne; [done|].
  assert (None ∉ draining_for_adapters d) as Hn.
  { unfold draining_for_adapters. rewrite elem_of_list_to_set, list_elem_of_filter. naive_solver. }
  set (new := starving_adapters d ∖ draining_for_adapters d) in *.
  destruct (longest_first d new None) as [l Hl].
  { destruct Hbase as [Hb|(_ & Hb & _)]; set_solver. }
  { intros t Ht Hd. destruct Hbase as [Hb|(_ & _ & Hb)]; [set_solver|apply Hb; set_solver]. }
  rewrite Hl. apply assign_base; [by intros b [? _]%elem_of_filter|].
  destruct Hbase as [Hb|(Hb & _)]; [left|by right].
  assert (new = {[None]}) as Hnew by set_solver.
  assert (sorted_starving d new ≡ₚ [None]) as Hp.
  { unfold sorted_starving. by rewrite py_sorted_Permutation, uid_list_elements, Hnew, elements_singleton. }
  rewrite Hl in Hp. by apply Permutation_singleton_r in Hp as [= ->].
Qed.

(** ** The drainer in the loop *)

(** One decode step: every running request gets a token, and those at their limit leave. *)
Definition next_token (r : LoraReq) : LoraReq :=
  LReq (req_lora_id r) (max_new_tokens r) (output_ids r ++ [0]) (wait_queue_entry_time r).
Definition decoded (running : list LoraReq) : list LoraReq :=
  List.filter (λ r, 0 <? remaining r) (next_token <$> running).

(** What a pass meets: the clock, the request [arriving] and other waiting ones, and the
    requests that join the running ones beside it. *)
Record DrainTurn := Turn {
  t_clock : nat → Q;
  t_waiting : list LoraReq;
  t_joining : list LoraReq;
  t_arriving : LoraReq;
}.

(** A pass updates the drainer, asks it for the arriving request, lets the request run if
    the drainer takes it, and decodes. *)
Definition drain_turn `{UidOrder} (t : DrainTurn) (st : list LoraReq * LoRADrainer) : bool * (list LoraReq * LoRADrainer) :=
  let '(running, d) := st in
  let d := update_draining_state (t_clock t) (t_waiting t ++ [t_arriving t]) running d in
  let '(ok, d) := can_schedule (t_arriving t) d in
  (ok, (decoded (running ++ t_joining t ++ if ok then [t_arriving t] else []), d)).

Fixpoint drain_turns `{UidOrder} (ts : list DrainTurn) (st : list LoraReq * LoRADrainer)
    : list bool * (list LoraReq * LoRADrainer) :=
  match ts with
  | [] => ([], st)
  | t :: ts =>
      let '(ok, st) := drain_turn t st in
      let '(oks, st) := drain_turns ts st in
      (ok :: oks, st)
  end.

(** The adapter drains and has a request with at least [m] tokens left. *)
Definition kept_busy (a : uid) (s : string) (m : Z) (st : list LoraReq * LoRADrainer) : Prop :=
  is_draining_for (stats_of a st.2) = Some s ∧ ∃ r, r ∈ st.1 ∧ req_lora_id r = a ∧ m ≤ remaining r.

Lemma remaining_next r : remaining (next_token r) = remaining r - 1.
Proof. unfold remaining. cbn. rewrite zlen_app. change (zlen [0]) with 1. lia. Qed.

Lemma elem_of_decoded r running : r ∈ running → 1 < remaining r → next_token r ∈ decoded running.
Proof.
  intros Hr Hm. unfold decoded. apply list_elem_of_In, filter_In. split.
  - apply list_elem_of_In. by apply list_elem_of_fmap_2.
  - apply Z.ltb_lt. rewrite remaining_next. lia.
Qed.

Lemma update_draining_busy `{UidOrder} clock waiting running d a s m :
  kept_busy a s m (running, d) → let d' := update_draining_state clock waiting running d in
  is_draining_for (stats_of a d') = Some s ∧ m ≤ max_remaining_tokens (stats_of a d').
Proof.
  intros [Hd (r & Hr & Hid & Hrem)] d'. cbn [fst snd] in *. unfold d', update_draining_state. rewrite fully_drained_kept.
  2: { unfold running_adapters. apply elem_of_list_to_set. rewrite <-Hid. by apply list_elem_of_fmap_2. }
  rewrite draining_kept by (rewrite update_adapter_draining; congruence).
  rewrite update_adapter_draining. split; [done|]. rewrite <-Hid.
  etrans; [exact Hrem|]. by apply update_adapter_remaining.
Qed.

(** The drainer takes the request, and the request keeps the adapter busy. *)
Lemma drain_turn_busy `{UidOrder} t st a s R :
  s ≠ "" → 7 ≤ R → kept_busy a s (R - 1) st →
  req_lora_id (t_arriving t) = a → max_new_tokens (t_arriving t) = R → output_ids (t_arriving t) = [] →
  (drain_turn t st).1 = true ∧ kept_busy a s (R - 1) (drain_turn t st).2.
Proof.
  intros Hs HR Hb Ha Hm Ho. destruct st as [running d]. unfold drain_turn.
  destruct (update_draining_busy (t_clock t) (t_waiting t ++ [t_arriving t]) running d a s (R - 1) Hb) as [Hd Hrem].
  set (d' := update_draining_state _ _ _ _) in *.
  assert (can_schedule (t_arriving t) d' = (true, update_stats a id d')) as ->.
  { unfold can_schedule. rewrite Ha, Hd, Hm. f_equal. destruct s as [|ch s]; [done|].
    apply Qle_bool_iff. unfold DRAIN_SCHEDULE_TOLERANCE, Qle. cbn [Qnum Qden Qmult inject_Z]. lia. }
  cbn [fst snd]. split; [done|]. split; cbn [fst snd].
  - by rewrite stats_of_update_eq.
  - exists (next_token (t_arriving t)). unfold remaining. split; [|split; [done|]].
    + apply elem_of_decoded; [rewrite !elem_of_app, list_elem_of_singleton; tauto|].
      unfold remaining. rewrite Ho, Hm. change (zlen []) with 0. lia.
    + change (R - 1 ≤ remaining (next_token (t_arriving t))). rewrite remaining_next. unfold remaining.
      rewrite Ho, Hm. change (zlen []) with 0. lia.
Qed.

(** C37: a drain need not end.  Let an adapter be draining while one of its running
    requests has at least [R - 1] tokens left ([R] at least 7), and let every pass bring
    a new request of the adapter that asks for [R] tokens.  In every pass the drainer is
    updated with the waiting and the running requests, the request runs if
    [can_schedule] takes it, every running request produces a token and those at their
    limit leave; whatever else waits or joins, every one of these requests is taken, and
    after any number of passes the adapter still drains for the same adapter and still
    has a running request with [R - 1] tokens left. *)
Theorem draining_adapter_takes_steady_traffic `{UidOrder} (ts : list DrainTurn) (running : list LoraReq) (d : LoRADrainer)
    (a : uid) (s : string) (R : Z)
    (Hs : s ≠ "") (HR : 7 ≤ R) (Hd : is_draining_for (stats_of a d) = Some s)
    (Hrun : ∃ r, r ∈ running ∧ req_lora_id r = a ∧ R - 1 ≤ remaining r)
    (Hnew : Forall (λ t, req_lora_id (t_arriving t) = a ∧ max_new_tokens (t_arriving t) = R ∧
                         output_ids (t_arriving t) = []) ts) :
  let '(taken, (running', d')) := drain_turns ts (running, d) in
  taken = replicate (length ts) true ∧ is_draining_for (stats_of a d') = Some s ∧
  ∃ r, r ∈ running' ∧ req_lora_id r = a ∧ R - 1 ≤ remaining r.
Proof.
  assert (∀ st, kept_busy a s (R - 1) st → (drain_turns ts st).1 = replicate (length ts) true ∧
    kept_busy a s (R - 1) (drain_turns ts st).2) as Hall.
  { clear Hd Hrun running d. induction Hnew as [|t ts (Ha & Hm & Ho) _ IH]; intros st Hb; [done|]. cbn [drain_turns].
    destruct (drain_turn_busy t st a s R Hs HR Hb Ha Hm Ho) as [Hok Hb1]. destruct (drain_turn t st) as [ok st1].
    cbn [fst snd] in *. subst ok. destruct (IH st1 Hb1) as [Hoks Hb2]. destruct (drain_turns ts st1) as [oks st2].
    cbn [fst snd] in *. by subst oks. }
  destruct (Hall (running, d)) as [Ht Hk]; [by split|]. by destruct (drain_turns ts (running, d)) as [taken [running' d']].
Qed.

(** ** Examples *)

Module DrainDemo.

Definition ascending : UidOrder := {| uid_list := elements; uid_list_elements s := reflexivity _ |}.

Lemma descending_elements (s : gset uid) : reverse (elements s) ≡ₚ elements s.
Proof. apply reverse_Permutation. Qed.

Definition descending : UidOrder := {| uid_list s := reverse (elements s); uid_list_elements := descending_elements |}.

Definition clock (i : nat) : Q := 100.

(** A request of an adapter with so many tokens left, waiting since time 0. *)
Definition req (a : uid) (n : Z) : LoraReq := LReq a n [] 0.

Definition fresh (n : nat) : LoRADrainer := Drainer n 10 [].

Definition two_running : list LoraReq := [req (Some "a") 10; req (Some "b") 10].

(** The statistics of a pass. *)
Definition pass_stats (waiting running : list LoraReq) (n : nat) : LoRADrainer :=
  update_adapter_stats clock waiting running (fresh n).
End DrainDemo.

Lemma starving_adapter_gets_drain_witness :
  let d := DrainDemo.pass_stats [DrainDemo.req (Some "c") 5] DrainDemo.two_running 2 in
  let d' := @update_draining_loras DrainDemo.ascending DrainDemo.two_running d in
  (∃ a, is_draining_for (stats_of a d') = Some "c") ∨
  (∀ a, a ∈ running_adapters DrainDemo.two_running → is_draining_for (stats_of a d') ≠ None).
Proof.
  apply (@starving_adapter_gets_drain DrainDemo.ascending);
    [by_evaluation|vm_compute; lia|by_evaluation|by_evaluation].
Defined.

Lemma starving_base_drains_nobody_witness :
  let waiting := [DrainDemo.req None 5; LReq (Some "c") 5 [] 50] in
  let running := [DrainDemo.req (Some "a") 10] in
  let d := DrainDemo.pass_stats waiting running 1 in
  stats_of (Some "a") (@update_draining_loras DrainDemo.ascending running d) = stats_of (Some "a") d.
Proof.
  apply (@starving_base_drains_nobody DrainDemo.ascending). right.
  split; [vm_compute; reflexivity|]. split; [by_evaluation|].
  intros s Hs Hn. assert (s = Some "c") as ->; [|vm_compute; reflexivity].
  assert (starving_adapters (DrainDemo.pass_stats [DrainDemo.req None 5; LReq (Some "c") 5 [] 50]
    [DrainDemo.req (Some "a") 10] 1) ⊆ {[None; Some "c"]}) as Hsub by by_evaluation.
  apply Hsub in Hs. set_solver.
Defined.

Lemma draining_adapter_takes_steady_traffic_witness :
  let d := Drainer 1 10 [(Some "a", Stats 0 0 50 (Some "c"))] in
  let t := Turn DrainDemo.clock [DrainDemo.req (Some "c") 5] [] (DrainDemo.req (Some "a") 100) in
  let '(taken, (running, d')) := @drain_turns DrainDemo.ascending (replicate 120 t) ([LReq (Some "a") 100 [7] 0], d) in
  taken = replicate 120 true ∧ is_draining_for (stats_of (Some "a") d') = Some "c" ∧
  ∃ r, r ∈ running ∧ req_lora_id r = Some "a" ∧ 99 ≤ remaining r.
Proof.
  apply (@draining_adapter_takes_steady_traffic DrainDemo.ascending
    (replicate 120 (Turn DrainDemo.clock [DrainDemo.req (Some "c") 5] [] (DrainDemo.req (Some "a") 100)))
    [LReq (Some "a") 100 [7] 0] (Drainer 1 10 [(Some "a", Stats 0 0 50 (Some "c"))]) (Some "a") "c" 100); try done.
  - eexists. split; [left|]. split; [reflexivity|]. vm_compute. discriminate.
  - apply Forall_replicate. by split_and!.
Defined.

(** The drainer can split the ranks.  Two adapters are equally close to their end and
    a third starves: which one drains depends on the order in which a process iterates its
    sets, so the same request is refused on one rank and taken on another. *)
Theorem drain_choice_can_split_ranks :
  ∃ (O1 O2 : UidOrder) (waiting running : list LoraReq) (d : LoRADrainer) (q : LoraReq),
    (can_schedule q (@update_draining_state O1 DrainDemo.clock waiting running d)).1 = true ∧
    (can_schedule q (@update_draining_state O2 DrainDemo.clock waiting running d)).1 = false.
Proof.
  exists DrainDemo.ascending, DrainDemo.descending, [DrainDemo.req (Some "c") 5], DrainDemo.two_running,
    (DrainDemo.fresh 2), (DrainDemo.req (Some "a") 50).
  split; vm_compute; reflexivity.
Qed.
