(* ===== verification/LoraManager.v ===== *)
(** * The LoRA manager

    [LoRAManager] of [srt/lora/lora_manager.py]: loading and unloading adapters, the check
    whether a batch's adapters fit, fetching them into the pool; [LoRAOverlapLoader]
    ([lora_overlap_loader.py]); and the scheduler's check of a request's adapter.  Reading
    an adapter's files and weights is an argument of the operations.  [load_lora_adapter] and
    its siblings catch what their body raises and report failure: they return the state that
    is left and whether they succeeded. *)

From Stdlib Require Import Ascii.
From S2P Require Import Prelude PyFloat PySort LoraSlots LoraDrain.

Open Scope Z_scope.

(** ** Adapter configurations *)

(** [adapter_config.json]; the target modules are a name or a list of names. *)
Record HfConfig := Hf { hf_target_modules : string + list string; hf_r : Z; hf_use_dora : option bool }.

Record LoRAConfig := Config {
  target_modules : string + list string;
  lora_r : Z;
  use_dora : bool;
  lora_added_tokens_size : Z;
}.

(** [LoRAConfig.__init__] on what was read: tokens of the base vocabulary do not count. *)
Definition new_LoRAConfig (hf : HfConfig) (added : option (list (string * Z))) (base_vocab_size : option Z) : LoRAConfig :=
  let added := match added, base_vocab_size with
    | Some (t :: ts), Some n => Some (filter (λ e, n ≤ e.2) (t :: ts))
    | _, _ => added
    end in
  Config (hf_target_modules hf) (hf_r hf) (default false (hf_use_dora hf)) (from_option zlen 0 added).

(** [name.split(".")[-1]] *)
Fixpoint after_last_dot (acc : string) (s : string) : string :=
  match s with
  | EmptyString => acc
  | String c s => after_last_dot (if decide (c = "."%char) then "" else acc +:+ String c "") s
  end.

Definition params_mapping (name : string) : string :=
  if decide (name ∈ ["q_proj"; "k_proj"; "v_proj"]) then "qkv_proj"
  else if decide (name ∈ ["gate_proj"; "up_proj"]) then "gate_up_proj"
  else if decide (name ∈ ["embed_tokens"; "vocab_emb"; "embeddings"; "word_embeddings"]) then "embed_tokens"
  else if decide (name ∈ ["lm_head"; "output"; "unembed_tokens"]) then "lm_head"
  else if decide (name ∈ ["q_a_proj"; "kv_a_proj_with_mqa"]) then "fused_qkv_a_proj_with_mqa"
  else if decide (name = "wq_b") then "indexer.wq_b"
  else if decide (name = "wk") then "indexer.wk"
  else if decide (name = "weights_proj") then "indexer.weights_proj"
  else name.

Definition get_normalized_target_modules (m : string + list string) : res (gset string) :=
  match m with
  | inl s => if decide (s ∈ ["all"; "all-linear"]) then Ok {["all"]} else Err ValueError
  | inr l => Ok (list_to_set (params_mapping ∘ after_last_dot "" <$> l))
  end.

(** The limits of the pool's shapes. *)
Record PoolLimits := Limits {
  max_lora_rank : Z;
  pool_added_tokens_size : Z;
  pool_target_modules : gset string;
}.

Definition can_support (lim : PoolLimits) (c : LoRAConfig) : res bool :=
  if max_lora_rank lim <? lora_r c then Ok false
  else if pool_added_tokens_size lim <? lora_added_tokens_size c then Ok false
  else
    names ← get_normalized_target_modules (target_modules c);
    if decide ("all" ∈ names) then Ok true else Ok (bool_decide (names ⊆ pool_target_modules lim)).

(** ** The manager *)

Record LoRAManager (P A : Type) := Manager {
  max_loras_per_batch : nat;
  configs : gmap string LoRAConfig;
  loras : gmap string A;
  lora_refs : gmap string LoRARef;
  num_pinned_loras : Z;
  (** [None] until [init_memory_pool] *)
  memory_pool : option (PoolLimits * LoRAMemoryPool P A);
  (** the keys of [pending_lora_load_events] *)
  pending : gset uid;
}.
Arguments Manager {P A} _ _ _ _ _ _ _.
Arguments max_loras_per_batch {P A} _.
Arguments configs {P A} _.
Arguments loras {P A} _.
Arguments lora_refs {P A} _.
Arguments num_pinned_loras {P A} _.
Arguments memory_pool {P A} _.
Arguments pending {P A} _.

Section manager.
Context {P A : Type} `{EvictionPolicy P} (copy_weights : A → res unit).
Abbreviation manager := (LoRAManager P A).
Implicit Types (m : manager) (ids running : gset uid) (r : LoRARef).

(** Assignments to the manager's fields. *)
Definition set_config (s : string) (c : LoRAConfig) m : manager :=
  Manager (max_loras_per_batch m) (<[s := c]> (configs m)) (loras m) (lora_refs m) (num_pinned_loras m) (memory_pool m) (pending m).
Definition set_lora (s : string) (a : A) m : manager :=
  Manager (max_loras_per_batch m) (configs m) (<[s := a]> (loras m)) (lora_refs m) (num_pinned_loras m) (memory_pool m) (pending m).
Definition set_ref (s : string) r m : manager :=
  Manager (max_loras_per_batch m) (configs m) (loras m) (<[s := r]> (lora_refs m)) (num_pinned_loras m) (memory_pool m) (pending m).
Definition set_num_pinned (n : Z) m : manager :=
  Manager (max_loras_per_batch m) (configs m) (loras m) (lora_refs m) n (memory_pool m) (pending m).
Definition set_pool (lim : PoolLimits) (p : LoRAMemoryPool P A) m : manager :=
  Manager (max_loras_per_batch m) (configs m) (loras m) (lora_refs m) (num_pinned_loras m) (Some (lim, p)) (pending m).
Definition set_pending (e : gset uid) m : manager :=
  Manager (max_loras_per_batch m) (configs m) (loras m) (lora_refs m) (num_pinned_loras m) (memory_pool m) e.

(** [validate_new_adapter]; a path that is loaded twice is only logged. *)
Definition validate_new_adapter (c : LoRAConfig) r m : res unit :=
  if 0 <? lora_added_tokens_size c then Err ValueError
  else if use_dora c then Err ValueError
  else if decide (map_Exists (λ _ r', lora_name r = lora_name r') (lora_refs m)) then Err ValueError
  else
    ok ← match memory_pool m with None => Ok true | Some (lim, _) => can_support lim c end;
    if negb ok then Err ValueError
    else if is_pinned r && (Z.of_nat (max_loras_per_batch m) - 1 <=? num_pinned_loras m) then Err ValueError
    else Ok ().

(** The body shared by [_load_lora_adapter] and [_load_lora_adapter_from_tensors]: the two
    differ in where the configuration and the weights come from. *)
Definition load_with (config : res LoRAConfig) (weights : LoRAConfig → res A) r m : res (bool * manager) :=
  if bool_decide (lora_name r = None ∨ lora_path r = None) then Err AssertionError
  else if bool_decide (is_Some (loras m !! lora_id r)) then Err AssertionError
  else
    match (c ← config; _ ← validate_new_adapter c r m; Ok c) with
    | Err _ => Ok (false, m)
    | Ok c =>
        let m := set_config (lora_id r) c m in
        match weights c with
        | Err _ => Ok (false, m)
        | Ok a =>
            let m := set_ref (lora_id r) r (set_lora (lora_id r) a m) in
            match pinned r with
            | None => Ok (false, m)
            | Some b => Ok (true, set_num_pinned (num_pinned_loras m + Z.b2z b) m)
            end
        end
    end.

Definition load_lora_adapter (read_config : LoRARef → res LoRAConfig) (read_weights : LoRARef → LoRAConfig → res A)
    r m : res (bool * manager) :=
  load_with (read_config r) (read_weights r) r m.

Definition load_lora_adapter_from_tensors (config_dict : HfConfig) (added : option (list (string * Z))) (vocab_size : Z)
    (weights : LoRAConfig → res A) r m : res (bool * manager) :=
  load_with (Ok (new_LoRAConfig config_dict added (Some vocab_size))) weights r m.

(** [_unload_lora_adapter]: the failing assertion formats its message from the reference
    that was looked up, which is an [AttributeError] when there is none. *)
Definition unload_lora_adapter (s : string) m : res (bool * manager) :=
  match configs m !! s, lora_refs m !! s with
  | _, None => Err AttributeError
  | None, Some _ => Err AssertionError
  | Some _, Some r =>
      let m := set_pending (pending m ∖ {[Some (lora_id r)]}) m in
      match memory_pool m with
      | None => Ok (false, m)
      | Some (lim, p) =>
          let '(removed, p) := remove_lora (lora_id r) p in
          let m := set_pool lim p m in
          let without_config := Manager (max_loras_per_batch m) (delete (lora_id r) (configs m)) (loras m)
            (lora_refs m) (num_pinned_loras m) (memory_pool m) (pending m) in
          if bool_decide (configs m !! lora_id r = None) then Ok (false, m)
          else if bool_decide (loras m !! lora_id r = None) then Ok (false, without_config)
          else
            let m := Manager (max_loras_per_batch m) (delete (lora_id r) (configs m)) (delete (lora_id r) (loras m))
              (delete (lora_id r) (lora_refs m)) (num_pinned_loras m) (memory_pool m) (pending m) in
            match pinned r with
            | None => Ok (false, m)
            | Some b => Ok (true, set_num_pinned (num_pinned_loras m - Z.b2z b) m)
            end
      end
  end.

(** The pinned adapters of a batch; every adapter must be loaded. *)
Definition pinned_in_batch m (u : uid) (n : Z) : res Z :=
  match u with
  | None => Ok n
  | Some s =>
      match lora_refs m !! s with
      | None => Err AssertionError
      | Some r => match pinned r with None => Err TypeError | Some b => Ok (n + Z.b2z b) end
      end
  end.

Definition validate_lora_batch `{UidOrder} ids m : res bool :=
  if (max_loras_per_batch m <? size ids)%nat then Ok false
  else if num_pinned_loras m =? 0 then Ok true
  else
    n ← for_each (pinned_in_batch m) (uid_list ids) 0;
    if num_pinned_loras m <? n then Err AssertionError
    else
      match memory_pool m with
      | None => Err AttributeError
      | Some (_, p) =>
          Ok (Z.of_nat (size ids) - n <=? Z.of_nat (pool_max_loras p) - num_pinned_loras m)
      end.

(** [fetch_new_loras], with the slots whose layers are notified. *)
Definition fetch_new_loras `{UidOrder} (new running : gset uid) m : res (list nat * manager) :=
  let cur := new ∪ running in
  if (max_loras_per_batch m <? size cur)%nat then Err AssertionError
  else
    match memory_pool m with
    | None => Err AttributeError
    | Some (lim, p) =>
        let new_uids := filter (λ u, uid_to_buffer_id p !! u = None) cur in
        p ← prepare_lora_batch copy_weights cur (loras m) (lora_refs m) p;
        changed ← mapM (λ u, get_buffer_id u p) (uid_list new_uids);
        Ok (changed, set_pool lim p m)
    end.

(** [init_lora_adapters] *)
Definition new_manager (max : nat) : manager := Manager max ∅ ∅ ∅ 0 None ∅.

Definition init_lora_adapters (max : nat) (read_config : LoRARef → res LoRAConfig)
    (read_weights : LoRARef → LoRAConfig → res A) (lora_paths : list LoRARef) : res manager :=
  for_each (λ r m,
    '(success, m) ← load_lora_adapter read_config read_weights r m;
    if (success : bool) then Ok m else Err RuntimeError) lora_paths (new_manager max).

(** [init_memory_pool]: the base model takes a slot. *)
Definition init_memory_pool `{UidOrder} (lim : PoolLimits) (policy : P) m : res manager :=
  '(_, m) ← fetch_new_loras {[None]} ∅ (set_pool lim (new_pool (max_loras_per_batch m) policy) m);
  Ok m.

(** ** The overlap loader *)

Inductive LoRAOverlapLoadStatus := LOADED | LOADING | NOT_LOADED.

(** [_drain_completed_overlap_loads]; [completed] is [event.query()] *)
Definition drain_completed_overlap_loads (completed : uid → bool) m : manager :=
  set_pending (filter (λ u, completed u = false) (pending m)) m.

Definition check_overlap_load_status (u : uid) m : res LoRAOverlapLoadStatus :=
  if bool_decide (u ∈ pending m) then Ok LOADING
  else match memory_pool m with
       | None => Err AttributeError
       | Some (_, p) => Ok (if bool_decide (is_Some (uid_to_buffer_id p !! u)) then LOADED else NOT_LOADED)
       end.

Definition try_start_overlap_load `{UidOrder} (u : uid) running m : res (bool * manager) :=
  let to_be_loaded := running ∪ pending m in
  fits ← validate_lora_batch ({[u]} ∪ to_be_loaded) m;
  if (fits : bool) then
    '(_, m) ← fetch_new_loras {[u]} to_be_loaded m;
    Ok (true, set_pending (pending m ∪ {[u]}) m)
  else Ok (false, m).

Definition try_overlap_load_lora `{UidOrder} (completed : uid → bool) (u : uid) running m : res (bool * manager) :=
  let m := drain_completed_overlap_loads completed m in
  status ← check_overlap_load_status u m;
  match status with
  | LOADING => Ok (false, m)
  | NOT_LOADED => '(_, m) ← try_start_overlap_load u running m; Ok (false, m)
  | LOADED => Ok (true, m)
  end.

(** ** The scheduler's check of a request's adapter *)

(** [Scheduler._can_schedule_lora_req]; [overlap] says which loads are complete when the
    adapters are loaded one by one beside the computation. *)
Definition can_schedule_lora_req `{UidOrder} (overlap : option (uid → bool)) (req : LoraReq) running
    (drainer : option LoRADrainer) m : res (bool * option LoRADrainer * manager) :=
  let '(allowed, drainer) := match drainer with
    | None => (true, None)
    | Some d => let '(b, d) := can_schedule req d in (b, Some d)
    end in
  if negb allowed then Ok (false, drainer, m)
  else if bool_decide (req_lora_id req ∈ running) then Ok (true, drainer, m)
  else match overlap with
       | Some completed =>
           '(b, m) ← try_overlap_load_lora completed (req_lora_id req) running m; Ok (b, drainer, m)
       | None => b ← validate_lora_batch ({[req_lora_id req]} ∪ running) m; Ok (b, drainer, m)
       end.

(** The adapters of the loop over the waiting queue: a request whose adapter is refused is
    passed over, the rest of the pass decides ([taken]) whether the others run. *)
Definition lora_pass `{UidOrder} (overlap : option (uid → bool)) (queue : list (LoraReq * bool)) running
    (drainer : option LoRADrainer) m : res (gset uid * option LoRADrainer * manager) :=
  for_each (λ '(req, taken) '(running, drainer, m),
    '(b, drainer, m) ← can_schedule_lora_req overlap req running drainer m;
    Ok (if (b : bool) && (taken : bool) then running ∪ {[req_lora_id req]} else running, drainer, m))
    queue (running, drainer, m).
End manager.
