(* ===== verification/LoraTheorems.v ===== *)
(** * LoRA serving: the batches the scheduler admits can run

    The invariant of the manager, the exact meaning of its batch check, and its operations:
    loading and unloading keep the invariant whatever their outcome, a batch that fits is
    fetched, and the overlap loader protects what runs.

    Then the scheduler, the manager and the pool together, as a step relation over the
    manager and the adapters of the running requests: adapters are loaded and unloaded,
    passes let requests in, batches are fetched, requests finish.  In every state that can
    be reached a pass returns, and every batch of running requests finds its adapters in
    its slots. *)

From S2P Require Import Prelude PyFloat PySort LoraSlots LoraDrain LoraManager.

Open Scope Z_scope.

Section server.
Context {P A : Type} `{PolicyLaws P}.
Abbreviation manager := (LoRAManager P A).
Implicit Types (m : manager) (ids running : gset uid) (r : LoRARef) (refs : gmap string LoRARef).

(** The adapters a request may name: loaded, with a definite pin. *)
Definition known refs (u : uid) : Prop :=
  match u with None => True | Some s => ∃ r b, refs !! s = Some r ∧ pinned r = Some b end.

Record manager_inv m : Prop := {
  mi_refs : dom (lora_refs m) = dom (loras m);
  mi_configs : dom (loras m) ⊆ dom (configs m);
  mi_ids s r : lora_refs m !! s = Some r → lora_id r = s;
  mi_names s t r r' : lora_refs m !! s = Some r → lora_refs m !! t = Some r' → lora_name r = lora_name r' → s = t;
  mi_pinned : num_pinned_loras m = Z.of_nat (size (pins (lora_refs m)));
  mi_room : num_pinned_loras m ≤ Z.max 0 (Z.of_nat (max_loras_per_batch m) - 1);
  mi_pool lim p : memory_pool m = Some (lim, p) →
    pool_inv (loras m) p ∧ pool_max_loras p = max_loras_per_batch m ∧ pending m ⊆ residents p;
  mi_pending u : u ∈ pending m → known (lora_refs m) u;
}.

(** ** Pins *)

Lemma pins_insert refs s r :
  refs !! s = None → pins (<[s := r]> refs) = if is_pinned r then {[Some s]} ∪ pins refs else pins refs.
Proof.
  intros Hs. apply leibniz_equiv. intros u. rewrite elem_of_pins.
  assert (u ∈ (if is_pinned r then {[Some s]} ∪ pins refs else pins refs) ↔
    (is_pinned r ∧ u = Some s) ∨ ref_pinned refs u) as ->.
  { destruct (is_pinned r); rewrite ?elem_of_union, ?elem_of_singleton, elem_of_pins; naive_solver. }
  destruct u as [t|]; cbn; [|naive_solver]. destruct (decide (t = s)) as [->|Hne].
  - rewrite lookup_insert_eq, Hs. naive_solver.
  - rewrite lookup_insert_ne by done. naive_solver.
Qed.

Lemma pins_delete refs s : pins (delete s refs) = pins refs ∖ {[Some s]}.
Proof.
  apply leibniz_equiv. intros u. rewrite elem_of_difference, elem_of_singleton, !elem_of_pins.
  destruct u as [t|]; cbn; [|naive_solver]. destruct (decide (t = s)) as [->|Hne].
  - rewrite lookup_delete_eq. naive_solver.
  - rewrite lookup_delete_ne by done. naive_solver.
Qed.

Lemma size_pins_insert refs s r :
  refs !! s = None →
  Z.of_nat (size (pins (<[s := r]> refs))) = Z.of_nat (size (pins refs)) + Z.b2z (is_pinned r).
Proof.
  intros Hs. rewrite pins_insert by done. destruct (is_pinned r); cbn [Z.b2z]; [|lia].
  rewrite size_union, size_singleton; [lia|]. intros u ->%elem_of_singleton Hp%elem_of_pins.
  cbn in Hp. by rewrite Hs in Hp.
Qed.

Lemma size_pins_delete refs s r :
  refs !! s = Some r →
  Z.of_nat (size (pins (delete s refs))) = Z.of_nat (size (pins refs)) - Z.b2z (is_pinned r).
Proof.
  intros Hr. rewrite pins_delete, size_difference_alt.
  assert (pins refs ∩ {[Some s]} = if is_pinned r then {[Some s]} else ∅) as ->.
  { apply leibniz_equiv. intros u. rewrite elem_of_intersection, elem_of_singleton, elem_of_pins.
    destruct (is_pinned r) eqn:Hp; rewrite ?elem_of_singleton, ?elem_of_empty; split; try done; try (by intros [? ->]).
    - intros ->. split; [|done]. cbn. by rewrite Hr, Hp.
    - intros [Hu ->]. cbn in Hu. by rewrite Hr, Hp in Hu. }
  destruct (is_pinned r) eqn:Hp; rewrite ?size_singleton, ?size_empty; cbn [Z.b2z]; [|lia].
  assert (size (pins refs) ≠ 0)%nat; [|lia]. apply size_non_empty_iff. intros He.
  assert (Some s ∈ pins refs) as Hin; [apply elem_of_pins; cbn; by rewrite Hr, Hp|set_solver].
Qed.

(** ** The batch check *)

Lemma pinned_count m l n :
  Forall (known (lora_refs m)) l →
  for_each (pinned_in_batch m) l n = Ok (n + zlen (filter (λ u, u ∈ pins (lora_refs m)) l)).
Proof.
  intros Hk. revert n. induction Hk as [|u l Hu Hk IH]; intros n; cbn [for_each]; [cbn; by rewrite Z.add_0_r|].
  assert (pinned_in_batch m u n = Ok (n + Z.b2z (bool_decide (u ∈ pins (lora_refs m))))) as ->.
  { destruct u as [s|]; cbn [pinned_in_batch]; [|rewrite bool_decide_false; [by rewrite Z.add_0_r|by intros ?%elem_of_pins]].
    destruct Hu as (r & b & Hr & Hb). rewrite Hr, Hb. do 3 f_equal. apply eq_bool_prop_intro.
    rewrite bool_decide_spec, elem_of_pins. cbn. unfold is_pinned. by rewrite Hr, Hb. }
  cbn [mbind res_bind]. rewrite IH. f_equal. rewrite filter_cons. case_decide as Hp.
  - rewrite bool_decide_true by done. rewrite zlen_cons. cbn [Z.b2z]. lia.
  - rewrite bool_decide_false by done. cbn [Z.b2z]. lia.
Qed.

(** The check says exactly whether the batch and all pinned adapters fit together. *)
Lemma validate_exact `{UidOrder} ids m lim p :
  manager_inv m → memory_pool m = Some (lim, p) → (∀ u, u ∈ ids → known (lora_refs m) u) →
  validate_lora_batch ids m = Ok (bool_decide (size (ids ∪ pins (lora_refs m)) ≤ max_loras_per_batch m)%nat).
Proof.
  intros Hi Hp Hk. destruct (mi_pool _ Hi _ _ Hp) as (_ & Hmax & _). pose proof (mi_pinned _ Hi) as Hn.
  set (ps := pins (lora_refs m)) in *. unfold validate_lora_batch. rewrite Hp, Hn, Hmax.
  assert (size (ids ∪ ps) = size ids + size (ps ∖ ids))%nat as Hu by apply size_union_alt.
  destruct (Nat.ltb_spec (max_loras_per_batch m) (size ids)) as [Hlt|Hlt].
  { f_equal. symmetry. apply bool_decide_false. lia. }
  destruct (Z.eqb_spec (Z.of_nat (size ps)) 0) as [Hz|Hz].
  { f_equal. symmetry. apply bool_decide_true. assert (size (ps ∖ ids) ≤ size ps)%nat; [|lia].
    apply subseteq_size. set_solver. }
  rewrite pinned_count.
  2: { apply Forall_forall. intros u. rewrite uid_list_elements, elem_of_elements. apply Hk. }
  cbn [mbind res_bind]. fold ps.
  assert (zlen (filter (λ u, u ∈ ps) (uid_list ids)) = Z.of_nat (size (ps ∩ ids))) as ->.
  { unfold zlen. f_equal. rewrite uid_list_elements.
    assert (ps ∩ ids = list_to_set (filter (λ u, u ∈ ps) (elements ids))) as ->.
    { apply leibniz_equiv. intros u. rewrite elem_of_list_to_set, list_elem_of_filter, elem_of_elements. set_solver. }
    rewrite size_list_to_set; [done|]. apply NoDup_filter, NoDup_elements. }
  assert (size (ps ∩ ids) ≤ size ps)%nat by (apply subseteq_size; set_solver).
  pose proof (size_difference_alt ps ids) as Hdiff.
  destruct (Z.ltb_spec (Z.of_nat (size ps)) (0 + Z.of_nat (size (ps ∩ ids)))); [lia|].
  f_equal. apply eq_bool_prop_intro. rewrite bool_decide_spec, Is_true_true, Z.leb_le. lia.
Qed.

(** ** Loading and unloading *)

Lemma known_insert refs s r u : refs !! s = None → known refs u → known (<[s := r]> refs) u.
Proof.
  intros Hs. destruct u as [t|]; cbn; [|done]. intros (q & b & Hq & Hb). exists q, b. split; [|done].
  rewrite lookup_insert_ne; [done|]. congruence.
Qed.

Lemma validate_new_adapter_ok c r m :
  validate_new_adapter c r m = Ok () →
  (∀ s r', lora_refs m !! s = Some r' → lora_name r ≠ lora_name r') ∧
  (is_pinned r → num_pinned_loras m < Z.of_nat (max_loras_per_batch m) - 1).
Proof.
  unfold validate_new_adapter. destruct (0 <? _); [done|]. destruct (use_dora c); [done|].
  case_decide as Hn; [done|]. intros (ok & _ & Hok)%bind_Ok. destruct ok; cbn in Hok; [|done]. split.
  - intros s r' Hr Heq. apply Hn. by exists s, r'.
  - intros Hpin. apply Is_true_true in Hpin. rewrite Hpin in Hok. cbn in Hok.
    destruct (Z.leb_spec (Z.of_nat (max_loras_per_batch m) - 1) (num_pinned_loras m)); [done|lia].
Qed.

(** Loading keeps the invariant, also where it fails half-way; running adapters stay known
    and the pool is untouched. *)
Lemma load_with_inv config weights r m b m' :
  manager_inv m → load_with config weights r m = Ok (b, m') →
  manager_inv m' ∧ memory_pool m' = memory_pool m ∧ pending m' = pending m ∧
  max_loras_per_batch m' = max_loras_per_batch m ∧
  (∀ u, known (lora_refs m) u → known (lora_refs m') u) ∧
  (∀ s, s ∈ dom (loras m) → lora_refs m' !! s = lora_refs m !! s).
Proof.
  intros Hi. unfold load_with. case_bool_decide; [done|]. case_bool_decide as Hnew; [done|].
  apply eq_None_not_Some in Hnew.
  destruct (config ≫= _) as [c|e] eqn:Hc; [|intros [= <- <-]; by split_and!].
  apply bind_Ok in Hc as (c' & _ & ([] & Hv & [= ->])%bind_Ok).
  apply validate_new_adapter_ok in Hv as [Hname Hroom].
  assert (manager_inv (set_config (lora_id r) c m)) as Hi1.
  { destruct Hi. split; cbn; [done| |done..]. rewrite dom_insert_L. set_solver. }
  destruct (weights c) as [a|e]; [|intros [= <- <-]; by split_and!].
  assert (lora_refs m !! lora_id r = None) as Hnr.
  { apply not_elem_of_dom. rewrite (mi_refs _ Hi). by apply not_elem_of_dom. }
  assert (∀ n, n = Z.of_nat (size (pins (<[lora_id r := r]> (lora_refs m)))) →
    manager_inv (set_num_pinned n (set_ref (lora_id r) r (set_lora (lora_id r) a (set_config (lora_id r) c m))))) as Hi2.
  { intros n Hn. rewrite size_pins_insert in Hn by done. pose proof (mi_pinned _ Hi) as Hold.
    destruct Hi as [M1 M2 M3 M4 M5 M6 M7 M8]. split; cbn.
    - rewrite !dom_insert_L. by rewrite M1.
    - rewrite !dom_insert_L. set_solver.
    - intros s q. rewrite lookup_insert_Some. naive_solver.
    - intros s t q q'. rewrite !lookup_insert_Some. intros [[<- <-]|[? Hq]] [[<- <-]|[? Hq']] Heq; try done.
      + by destruct (Hname _ _ Hq').
      + by destruct (Hname _ _ Hq).
      + by eapply M4.
    - rewrite size_pins_insert by done. done.
    - destruct (is_pinned r); cbn [Z.b2z] in Hn; [|lia]. specialize (Hroom I). lia.
    - intros lim p Hp. destruct (M7 _ _ Hp) as (? & ? & ?). split_and!; [by apply pool_inv_loras|done..].
    - intros u Hu. apply known_insert; [done|by apply M8]. }
  assert (∀ u, known (lora_refs m) u → known (<[lora_id r := r]> (lora_refs m)) u) by (intros; by apply known_insert).
  assert (∀ s, s ∈ dom (loras m) → <[lora_id r := r]> (lora_refs m) !! s = lora_refs m !! s).
  { intros s Hs. apply lookup_insert_ne. intros <-. by apply not_elem_of_dom in Hnew. }
  pose proof (mi_pinned _ Hi) as Hold. destruct (pinned r) as [q|] eqn:Hpin; intros [= <- <-].
  - split; [|by split_and!]. apply Hi2. cbn. rewrite size_pins_insert by done. unfold is_pinned. rewrite Hpin. cbn. lia.
  - split; [|by split_and!]. apply (Hi2 (num_pinned_loras m)). rewrite size_pins_insert by done.
    unfold is_pinned. rewrite Hpin. cbn. lia.
Qed.

(** Unloading removes the adapter everywhere. *)
Lemma unload_inv s m b m' :
  manager_inv m → unload_lora_adapter s m = Ok (b, m') →
  manager_inv m' ∧ max_loras_per_batch m' = max_loras_per_batch m ∧ pending m' ⊆ pending m ∧
  (∀ u, u ≠ Some s → known (lora_refs m) u → known (lora_refs m') u) ∧
  pins (lora_refs m') ⊆ pins (lora_refs m) ∧
  (∀ lim p, memory_pool m = Some (lim, p) →
    ∃ p', memory_pool m' = Some (lim, p') ∧ residents p' = residents p ∖ {[Some s]}).
Proof.
  intros Hi. unfold unload_lora_adapter.
  destruct (configs m !! s) as [c|] eqn:Hc, (lora_refs m !! s) as [r|] eqn:Hr; try done.
  pose proof (mi_ids _ Hi _ _ Hr) as ->. cbn [memory_pool set_pending].
  destruct (memory_pool m) as [[lim p]|] eqn:Hp.
  2: { intros [= <- <-]. destruct Hi as [M1 M2 M3 M4 M5 M6 M7 M8]. cbn. split; [|split_and!; by (done || set_solver)].
       split; cbn; [done..| |intros u Hu; apply M8; set_solver]. intros ?? Hn. congruence. }
  destruct (mi_pool _ Hi _ _ Hp) as (Hpi & Hmax & Hpend).
  destruct (remove_lora_spec (loras m) p s Hpi) as (p' & -> & Hpi' & Hu2b & Hmax').
  assert (is_Some (loras m !! s)) as [a Ha].
  { apply elem_of_dom. rewrite <- (mi_refs _ Hi). by apply elem_of_dom_2 in Hr. }
  cbn [configs set_pool loras set_pending]. rewrite Hc, Ha.
  do 2 (rewrite bool_decide_false by done).
  assert (residents p' = residents p ∖ {[Some s]}) as Hres by (unfold residents; by rewrite Hu2b, dom_delete_L).
  assert (∀ u, u ≠ Some s → known (lora_refs m) u → known (delete s (lora_refs m)) u) as Hkn.
  { intros [t|] Hu; cbn; [|done]. rewrite lookup_delete_ne by congruence. done. }
  assert (∀ n, n = Z.of_nat (size (pins (delete s (lora_refs m)))) →
    manager_inv (Manager (max_loras_per_batch m) (delete s (configs m)) (delete s (loras m)) (delete s (lora_refs m)) n
      (Some (lim, p')) (pending m ∖ {[Some s]}))) as Hi2.
  { intros n Hn. destruct Hi as [M1 M2 M3 M4 M5 M6 M7 M8]. split; cbn.
    - rewrite !dom_delete_L. by rewrite M1.
    - rewrite !dom_delete_L. set_solver.
    - intros t q [_ Hq]%lookup_delete_Some. by apply M3.
    - intros t1 t2 q1 q2 [_ ?]%lookup_delete_Some [_ ?]%lookup_delete_Some. by apply M4.
    - done.
    - rewrite (size_pins_delete _ _ _ Hr) in Hn. destruct (is_pinned r); cbn in Hn; lia.
    - intros ?? [= <- <-]. split_and!; [done|congruence|]. rewrite Hres. set_solver.
    - intros u [Hu Hne]%elem_of_difference. apply Hkn; [set_solver|by apply M8]. }
  assert (pins (delete s (lora_refs m)) ⊆ pins (lora_refs m)) by (rewrite pins_delete; set_solver).
  pose proof (mi_pinned _ Hi) as Hold. pose proof (size_pins_delete _ _ _ Hr) as Hsz. unfold is_pinned in Hsz.
  destruct (pinned r) as [q|] eqn:Hpin; intros [= <- <-]; cbn in Hsz.
  - split; [apply Hi2; cbn; lia|]. split_and!; [done|cbn; set_solver|done|done|]. intros ?? [= <- <-]. by eauto.
  - split; [apply (Hi2 (num_pinned_loras m)); lia|]. split_and!; [done|cbn; set_solver|done|done|].
    intros ?? [= <- <-]. by eauto.
Qed.

(** ** Fetching a batch *)

Context (copy_weights : A → res unit) (Hcopy : ∀ a, copy_weights a = Ok ()).

Lemma known_loadable m ids :
  manager_inv m → (∀ u, u ∈ ids → known (lora_refs m) u) → loadable copy_weights (loras m) ids.
Proof.
  intros Hi Hk s Hs. destruct (Hk _ Hs) as (r & b & Hr & _). apply elem_of_dom_2 in Hr.
  rewrite (mi_refs _ Hi) in Hr. apply elem_of_dom in Hr as [a Ha]. by eauto.
Qed.

Lemma mapM_buffer_ids (p : LoRAMemoryPool P A) l :
  (∀ u, u ∈ l → u ∈ residents p) →
  ∃ ch, mapM (λ u, get_buffer_id u p) l = Ok ch ∧ ∀ u b, u ∈ l → uid_to_buffer_id p !! u = Some b → b ∈ ch.
Proof.
  induction l as [|u l IH]; intros Hl; cbn.
  { exists []. split; [done|]. by intros u b ?%elem_of_nil. }
  destruct IH as (ch & -> & Hch); [intros w Hw; apply Hl; by right|].
  assert (is_Some (uid_to_buffer_id p !! u)) as [b Hb] by (apply elem_of_dom, Hl; left). unfold get_buffer_id at 1. rewrite Hb. cbn.
  exists (b :: ch). split; [done|]. intros w c [->|Hw]%elem_of_cons Hc; [|right; by eapply Hch].
  assert (c = b) as -> by congruence. left.
Qed.

Lemma fetch_spec `{UidOrder} new running m lim p :
  manager_inv m → memory_pool m = Some (lim, p) → (∀ u, u ∈ new ∪ running → known (lora_refs m) u) →
  fits (new ∪ running) (lora_refs m) p → pending m ⊆ new ∪ running →
  ∃ ch p', fetch_new_loras copy_weights new running m = Ok (ch, set_pool lim p' m) ∧
    manager_inv (set_pool lim p' m) ∧
    new ∪ running ⊆ residents p' ∧ residents p' ⊆ residents p ∪ (new ∪ running) ∧ pool_max_loras p' = pool_max_loras p ∧
    (∀ u b, u ∈ (new ∪ running) ∪ pins (lora_refs m) →
      uid_to_buffer_id p !! u = Some b → uid_to_buffer_id p' !! u = Some b) ∧
    (∀ b, buffers p' !! b ≠ buffers p !! b → b ∈ ch).
Proof.
  intros Hi Hp Hk Hfit Hpend. destruct (mi_pool _ Hi _ _ Hp) as (Hpi & Hmax & _).
  unfold fetch_new_loras. rewrite Hp. cbv zeta. set (cur := new ∪ running) in *.
  destruct (Nat.ltb_spec (max_loras_per_batch m) (size cur)) as [Hlt|_].
  { unfold fits in Hfit. assert (size cur ≤ size (cur ∪ (pins (lora_refs m) ∩ residents p)))%nat; [|lia].
    apply subseteq_size. set_solver. }
  destruct (place_batch_spec copy_weights (loras m) cur (lora_refs m) p) as (p' & -> & Hpi' & Hcur & Hres & Hmax' & Hkeep & Hbuf);
    [done|by apply known_loadable|done|]. cbn [mbind res_bind].
  destruct (mapM_buffer_ids p' (uid_list (filter (λ u, uid_to_buffer_id p !! u = None) cur))) as (ch & -> & Hch).
  { intros u. rewrite uid_list_elements, elem_of_elements. intros [_ ?]%elem_of_filter. set_solver. }
  exists ch, p'. split; [done|]. split_and!; [|done..|].
  - destruct Hi as [M1 M2 M3 M4 M5 M6 M7 M8]. split; [done..| |done].
    intros ?? [= <- <-]. cbn. split_and!; [done|congruence|set_solver].
  - intros b Hne. destruct (Hbuf b) as [?|(u & Hu & Hnew & Hb)]; [done|]. eapply Hch; [|done].
    rewrite uid_list_elements, elem_of_elements. by apply elem_of_filter.
Qed.
End server.

Section serving.
Context {P A : Type} `{PolicyLaws P} `{UidOrder}.
Abbreviation manager := (LoRAManager P A).
Implicit Types (m : manager) (running : gset uid) (overlap : bool).

(** With overlap loading the running adapters are resident; without it they fit, and are
    fetched when their batch runs. *)
Record serving_inv overlap m running : Prop := {
  si_manager : manager_inv m;
  si_known u : u ∈ running → known (lora_refs m) u;
  si_pool : ∃ lim p, memory_pool m = Some (lim, p) ∧
    if overlap then running ⊆ residents p else fits running (lora_refs m) p ∧ pending m = ∅;
}.

Lemma serving_sub overlap m running running' :
  running' ⊆ running → serving_inv overlap m running → serving_inv overlap m running'.
Proof.
  intros Hsub [Hi Hk (lim & p & Hp & Ho)]. split; [done|set_solver|]. exists lim, p. split; [done|].
  destruct overlap; [set_solver|]. destruct Ho as [Hf He]. split; [|done].
  eapply fits_mono; [exact Hf|done|set_solver].
Qed.

(** A resident is loaded, so a newly loaded adapter is not resident. *)
Lemma resident_loaded loras (p : LoRAMemoryPool P A) s : pool_inv loras p → Some s ∈ residents p → s ∈ dom loras.
Proof.
  intros Hi [b Hb]%elem_of_residents. destruct (pi_values _ _ Hi _ _ Hb) as (v & Hv & _). cbn in Hv.
  apply fmap_Some in Hv as (a & Ha & _). by apply elem_of_dom_2 in Ha.
Qed.

(** ** Loading and unloading *)

Lemma load_serving overlap config weights r b m m' running :
  serving_inv overlap m running → load_with config weights r m = Ok (b, m') → serving_inv overlap m' running.
Proof.
  intros [Hi Hk (lim & p & Hp & Ho)] Hl.
  destruct (load_with_inv _ _ _ _ _ _ Hi Hl) as (Hi' & Hp' & Hpe & Hm' & Hkn & Hrefs). split; [done|auto|].
  exists lim, p. split; [congruence|]. destruct overlap; [done|]. destruct Ho as [Hf He]. split; [|congruence].
  eapply fits_mono; [exact Hf|done|]. destruct (mi_pool _ Hi _ _ Hp) as (Hpi & _).
  intros u [?|[Hpin Hres]%elem_of_intersection]%elem_of_union; [set_solver|].
  assert (u ∈ pins (lora_refs m)); [|set_solver]. apply elem_of_pins in Hpin. apply elem_of_pins.
  destruct u as [s|]; [|done]. cbn in *. rewrite <- Hrefs; [done|]. by eapply resident_loaded.
Qed.

Lemma unload_serving overlap s b m m' running :
  Some s ∉ running → serving_inv overlap m running → unload_lora_adapter s m = Ok (b, m') →
  serving_inv overlap m' running.
Proof.
  intros Hs [Hi Hk (lim & p & Hp & Ho)] Hl.
  destruct (unload_inv _ _ _ _ Hi Hl) as (Hi' & Hm' & Hpe & Hkn & Hpins & Hpool).
  destruct (Hpool _ _ Hp) as (p' & Hp' & Hres). split; [done| |].
  - intros u Hu. apply Hkn; [set_solver|by apply Hk].
  - exists lim, p'. split; [done|]. destruct overlap; [set_solver|]. destruct Ho as [Hf He]. split; [|set_solver].
    destruct (mi_pool _ Hi _ _ Hp) as (_ & Hmx & _). destruct (mi_pool _ Hi' _ _ Hp') as (_ & Hmx' & _).
    eapply fits_mono; [exact Hf|congruence|set_solver].
Qed.

(** ** Passes and batches *)

Context (copy_weights : A → res unit) (Hcopy : ∀ a, copy_weights a = Ok ()).

(** A batch of running adapters is fetched, and every one of them gets its own slot. *)
Lemma fetch_serving ids m running :
  ids ⊆ running → serving_inv false m running →
  ∃ ch m', fetch_new_loras copy_weights ids ∅ m = Ok (ch, m') ∧ serving_inv false m' running ∧ loras m' = loras m ∧
    ∃ lim p, memory_pool m' = Some (lim, p) ∧ ids ⊆ residents p.
Proof.
  intros Hsub [Hi Hk (lim & p & Hp & Hf & He)].
  destruct (fetch_spec copy_weights Hcopy ids ∅ m lim p)
    as (ch & p' & -> & Hi' & Hcur & Hres & Hmax & _); [done|done|set_solver| |set_solver|].
  { eapply fits_mono; [exact Hf|done|set_solver]. }
  eexists _, _. split; [done|]. split_and!; [|done|exists lim, p'; split; [done|set_solver]].
  split; [done|done|]. exists lim, p'. split; [done|]. split; [|done].
  eapply fits_mono; [exact Hf|done|set_solver].
Qed.

(** Loads that ended change nothing else. *)
Lemma drain_serving completed m running :
  serving_inv true m running → serving_inv true (drain_completed_overlap_loads completed m) running.
Proof.
  intros [[M1 M2 M3 M4 M5 M6 M7 M8] Hk Hp]. split; [|done|done].
  split; [done..| |].
  - intros lim p Hpp. destruct (M7 _ _ Hpp) as (? & ? & ?). cbn. split_and!; [done..|set_solver].
  - cbn. intros u. set_solver.
Qed.

Lemma pend_inv u m lim p :
  manager_inv m → memory_pool m = Some (lim, p) → u ∈ residents p → known (lora_refs m) u →
  manager_inv (set_pending (pending m ∪ {[u]}) m).
Proof.
  intros [M1 M2 M3 M4 M5 M6 M7 M8] Hp Hu Hk. split; [done..| |cbn; set_solver].
  intros ?? Hp'. destruct (M7 _ _ Hp') as (? & ? & ?). cbn in *. split_and!; [done..|]. rewrite Hp in Hp'.
  injection Hp' as <- <-. set_solver.
Qed.

(** The overlap loader never fails, keeps the running adapters resident, and reports an
    adapter as loaded only if it is resident. *)
Lemma overlap_serving completed u m running :
  serving_inv true m running → known (lora_refs m) u →
  ∃ b m', try_overlap_load_lora copy_weights completed u running m = Ok (b, m') ∧
    serving_inv true m' running ∧ lora_refs m' = lora_refs m ∧
    (b = true → serving_inv true m' (running ∪ {[u]}) ∧ u ∉ pending m').
Proof.
  intros Hs Hu. apply (drain_serving completed) in Hs. unfold try_overlap_load_lora.
  change (lora_refs m) with (lora_refs (drain_completed_overlap_loads completed m)) in *.
  revert Hs Hu. generalize (drain_completed_overlap_loads completed m). clear m. intros m Hs Hu.
  pose proof Hs as [Hi Hk (lim & p & Hp & Hrun)]. cbv zeta. unfold check_overlap_load_status. rewrite Hp.
  case_bool_decide as Hpend; cbn [mbind res_bind]; [by exists false, m|].
  case_bool_decide as Hres.
  { exists true, m. split_and!; [done..|]. intros _. split; [|done]. split; [done|set_solver|].
    exists lim, p. split; [done|]. apply elem_of_residents in Hres. set_solver. }
  unfold try_start_overlap_load. cbv zeta. set (cur := running ∪ pending m).
  assert (∀ v, v ∈ {[u]} ∪ cur → known (lora_refs m) v) as Hkn.
  { intros v [->%elem_of_singleton|[?|?]%elem_of_union]%elem_of_union; [done|by apply Hk|by apply (mi_pending _ Hi)]. }
  rewrite (validate_exact _ _ _ _ Hi Hp Hkn). cbn [mbind res_bind].
  case_bool_decide as Hfit; cbn [mbind res_bind]; [|by exists false, m].
  destruct (mi_pool _ Hi _ _ Hp) as (_ & Hmax & _).
  destruct (fetch_spec copy_weights Hcopy {[u]} cur m lim p)
    as (ch & p' & -> & Hi' & Hcur & _); [done|done|done| |set_solver|].
  { unfold fits. rewrite Hmax. etrans; [|exact Hfit]. apply subseteq_size. set_solver. }
  cbn [mbind res_bind]. eexists false, _. split; [done|]. split_and!; [|done|done].
  split; [eapply (pend_inv u); [done|done|set_solver|done]|done|]. exists lim, p'. split; [done|set_solver].
Qed.

Definition overlap_arg overlap (completed : uid → bool) : option (uid → bool) := if overlap then Some completed else None.

Lemma can_schedule_serving overlap completed req d m running :
  serving_inv overlap m running → known (lora_refs m) (req_lora_id req) →
  ∃ b d' m', can_schedule_lora_req copy_weights (overlap_arg overlap completed) req running d m = Ok (b, d', m') ∧
    serving_inv overlap m' running ∧ lora_refs m' = lora_refs m ∧
    (b = true → serving_inv overlap m' (running ∪ {[req_lora_id req]})).
Proof.
  intros Hs Hk. unfold can_schedule_lora_req.
  set (x := match d with None => _ | Some _ => _ end). destruct x as [[] d']; cbn [negb]; [|by exists false, d', m].
  case_bool_decide as Hr.
  { exists true, d', m. split_and!; [done..|]. intros _. assert (running ∪ {[req_lora_id req]} = running) as -> by set_solver. done. }
  destruct overlap; cbn [overlap_arg].
  - destruct (overlap_serving completed (req_lora_id req) m running Hs Hk) as (b & m' & -> & ? & ? & Hb).
    cbn [mbind res_bind]. exists b, d', m'. split_and!; [done..|]. intros Hbt. by apply Hb.
  - pose proof Hs as [Hi Hkn (lim & p & Hp & Hf & He)].
    rewrite (validate_exact _ _ _ _ Hi Hp); [|set_solver]. cbn [mbind res_bind].
    eexists _, d', m. split_and!; [done..|]. intros Hfit%bool_decide_eq_true_1. split; [done|set_solver|].
    exists lim, p. split; [done|]. split; [|done]. destruct (mi_pool _ Hi _ _ Hp) as (_ & Hmax & _).
    unfold fits. rewrite Hmax. etrans; [|exact Hfit]. apply subseteq_size. set_solver.
Qed.

Lemma pass_serving overlap completed queue d m running :
  serving_inv overlap m running → Forall (λ e, known (lora_refs m) (req_lora_id e.1)) queue →
  ∃ running' d' m', lora_pass copy_weights (overlap_arg overlap completed) queue running d m = Ok (running', d', m') ∧
    serving_inv overlap m' running'.
Proof.
  intros Hs Hq. unfold lora_pass.
  destruct (for_each_inv (λ l '(R, d, n), serving_inv overlap n R ∧ Forall (λ e, known (lora_refs n) (req_lora_id e.1)) l)
    (λ '(req, taken) '(running, drainer, m),
      '(b, drainer, m) ← can_schedule_lora_req copy_weights (overlap_arg overlap completed) req running drainer m;
      Ok (if (b : bool) && (taken : bool) then running ∪ {[req_lora_id req]} else running, drainer, m))
    queue (running, d, m)) as ([[R' d'] m'] & Hok & ? & _); [done| |by eauto].
  intros [req taken] l [[R e] n] (Hn & [Hk Hl]%Forall_cons).
  destruct (can_schedule_serving overlap completed req e n R Hn Hk) as (b & e' & n' & -> & Hn' & Hrefs & Hb).
  cbn [mbind res_bind]. eexists. split; [done|]. cbn. rewrite Hrefs. split; [|done].
  destruct b, taken; cbn; auto.
Qed.

(** ** The server *)

(** What happens to the manager and to the adapters of the running requests.  An adapter is
    unloaded when no running request uses it; a request that waits names a loaded adapter. *)
Inductive lora_step (overlap : bool) : manager * gset uid → manager * gset uid → Prop :=
| step_load config weights r b m m' running :
    load_with config weights r m = Ok (b, m') →
    lora_step overlap (m, running) (m', running)
| step_unload s b m m' running :
    Some s ∉ running → unload_lora_adapter s m = Ok (b, m') →
    lora_step overlap (m, running) (m', running)
| step_pass completed queue d d' m m' running running' :
    Forall (λ e, known (lora_refs m) (req_lora_id e.1)) queue →
    lora_pass copy_weights (overlap_arg overlap completed) queue running d m = Ok (running', d', m') →
    lora_step overlap (m, running) (m', running')
| step_fetch ids ch m m' running :
    overlap = false → ids ⊆ running → fetch_new_loras copy_weights ids ∅ m = Ok (ch, m') →
    lora_step overlap (m, running) (m', running)
| step_finish m running running' :
    running' ⊆ running → lora_step overlap (m, running) (m, running').

(** The manager after start-up, before any request runs. *)
Inductive lora_started : manager * gset uid → Prop :=
| started max read_config read_weights paths lim policy m0 m :
    init_lora_adapters max read_config read_weights paths = Ok m0 →
    init_memory_pool copy_weights lim policy m0 = Ok m →
    lora_started (m, ∅).

Definition lora_reachable overlap (s : manager * gset uid) : Prop :=
  ∃ s0, lora_started s0 ∧ rtc (lora_step overlap) s0 s.

Lemma new_manager_inv max : manager_inv (new_manager max : manager).
Proof.
  split; cbn; try done. lia.
Qed.

Lemma init_adapters_inv max rc rw paths m :
  init_lora_adapters max rc rw paths = Ok m →
  manager_inv m ∧ memory_pool m = None ∧ pending m = ∅.
Proof.
  unfold init_lora_adapters. pose proof (new_manager_inv max) as Hi.
  assert (memory_pool (new_manager max : manager) = None ∧ pending (new_manager max : manager) = ∅) as Hn by done.
  revert Hi Hn. generalize (new_manager max : manager). induction paths as [|r paths IH]; intros m0 Hi Hn; cbn [for_each].
  { by intros [= ->]. }
  intros (m1 & ([b m2] & Hl & Hb)%bind_Ok & Hrest)%bind_Ok. destruct b; [|done]. injection Hb as ->.
  destruct (load_with_inv _ _ _ _ _ _ Hi Hl) as (? & Hp & Hpe & _).
  apply (IH m1); [done| |done]. destruct Hn. split; congruence.
Qed.

Lemma started_serving overlap m running : lora_started (m, running) → serving_inv overlap m running.
Proof.
  inversion 1 as [max rc rw paths lim policy m0 m1 Hm0 Hm1]; subst.
  apply init_adapters_inv in Hm0 as ([M1 M2 M3 M4 M5 M6 _ M8] & _ & Hpe).
  unfold init_memory_pool in Hm1. apply bind_Ok in Hm1 as ([ch m'] & Hf & [= ->]).
  set (p0 := new_pool (max_loras_per_batch m0) policy) in *.
  assert (manager_inv (set_pool lim p0 m0)) as Hi.
  { split; [done..| |done]. intros ?? [= <- <-]. split_and!; [apply new_pool_inv|done|]. cbn. rewrite Hpe. set_solver. }
  assert (1 ≤ max_loras_per_batch m0)%nat as Hmax.
  { unfold fetch_new_loras in Hf. cbn [max_loras_per_batch set_pool] in Hf.
    destruct (Nat.ltb_spec (max_loras_per_batch m0) (size ({[None]} ∪ ∅ : gset uid))) as [|Hle]; [done|].
    rewrite size_union, size_singleton, size_empty in Hle by set_solver. lia. }
  destruct (fetch_spec copy_weights Hcopy {[None]} ∅ (set_pool lim p0 m0) lim p0)
    as (ch' & p' & Hf' & Hi' & Hcur & Hres & Hmx & _); [done|done|set_solver| |cbn; set_solver|].
  { unfold fits. etrans; [apply (subseteq_size _ {[None]})|by rewrite size_singleton].
    assert (residents p0 = ∅) as -> by apply dom_empty_L. set_solver. }
  rewrite Hf' in Hf. injection Hf as <- <-. split; [done|set_solver|]. exists lim, p'. split; [done|].
  destruct overlap; [set_solver|]. split; [|done]. unfold fits. rewrite Hmx.
  etrans; [apply (subseteq_size _ {[None]})|by rewrite size_singleton].
  assert (residents p0 = ∅) as Hr0 by apply dom_empty_L. set_solver.
Qed.

Lemma reachable_serving overlap m running : lora_reachable overlap (m, running) → serving_inv overlap m running.
Proof.
  intros ([m0 running0] & Hs%(started_serving overlap) & Hr). remember (m, running) as s eqn:Es.
  remember (m0, running0) as s0 eqn:Es0. revert m0 running0 Hs Es0 Es.
  induction Hr as [s|s1 s2 s3 Hstep Hr IH]; intros m0 running0 Hs -> Es; [by simplify_eq|].
  destruct s2 as [m2 running2]. eapply IH; [|done|done]. clear -H0 H1 Hcopy Hs Hstep.
  inversion Hstep as [config weights r b m m' R Hl|t b m m' R Ht Hl|completed queue d d' m m' R R' Hq Hl|
    ids ch m m' R -> Hids Hl|m R R' Hsub]; subst.
  - by eapply load_serving.
  - by eapply unload_serving.
  - destruct (pass_serving overlap completed queue d m0 running0 Hs Hq) as (R & e & n & Hok & ?).
    rewrite Hl in Hok. by simplify_eq.
  - destruct (fetch_serving ids m0 running2 Hids Hs) as (ch' & n & Hok & ? & _).
    rewrite Hl in Hok. by simplify_eq.
  - by eapply serving_sub.
Qed.

(** The base computation of [u] finds its slot: its own, with its weights in it. *)
Definition served m (u : uid) : Prop :=
  ∃ lim p b v, memory_pool m = Some (lim, p) ∧ get_buffer_id u p = Ok b ∧
    weights_of (loras m) u = Some v ∧ buffers p !! b = Some v ∧ ∀ w, get_buffer_id w p = Ok b → w = u.

Lemma resident_served m lim p u :
  manager_inv m → memory_pool m = Some (lim, p) → u ∈ residents p → served m u.
Proof.
  intros Hi Hp [b Hb]%elem_of_residents. destruct (mi_pool _ Hi _ _ Hp) as (Hpi & _).
  destruct (pi_values _ _ Hpi _ _ Hb) as (v & ? & ?). exists lim, p, b, v. split_and!; [done| |done|done|].
  - unfold get_buffer_id. by rewrite Hb.
  - intros w Hw. unfold get_buffer_id in Hw. destruct (uid_to_buffer_id p !! w) as [c|] eqn:Hc; [|done].
    injection Hw as ->. apply (pi_bij _ _ Hpi) in Hb, Hc. congruence.
Qed.
End serving.

(** C11: LoRA batches always run.  If copying an adapter's weights into a slot does not
    raise, then in every state the server can reach, whatever adapters were loaded and
    unloaded and whatever was evicted: a pass over any queue of requests for loaded
    adapters returns; without overlap loading the adapters of any batch of running
    requests are fetched without an error and each is then in a slot of its own with its own
    weights; with overlap loading the running adapters are in such slots at any time. *)
Theorem lora_batches_always_served {P A : Type} `{PolicyLaws P} `{UidOrder} (copy_weights : A → res unit)
    (Hcopy : ∀ a, copy_weights a = Ok ()) (overlap : bool) (m : LoRAManager P A) (running : gset uid)
    (Hreach : lora_reachable copy_weights overlap (m, running)) :
  (∀ completed queue d, Forall (λ e, known (lora_refs m) (req_lora_id e.1)) queue →
     is_ok (lora_pass copy_weights (overlap_arg overlap completed) queue running d m) = true) ∧
  (if overlap then ∀ u, u ∈ running → served m u
   else ∀ ids, ids ⊆ running → ∃ ch m',
     fetch_new_loras copy_weights ids ∅ m = Ok (ch, m') ∧ loras m' = loras m ∧ ∀ u, u ∈ ids → served m' u).
Proof.
  apply reachable_serving in Hreach; [|done]. split.
  - intros completed queue d Hq. by destruct (pass_serving copy_weights Hcopy overlap completed queue d m running Hreach Hq)
      as (? & ? & ? & -> & _).
  - destruct overlap.
    + destruct Hreach as [Hi _ (lim & p & Hp & Hsub)]. intros u Hu. eapply resident_served; [done|done|set_solver].
    + intros ids Hids. destruct (fetch_serving copy_weights Hcopy ids m running Hids Hreach)
        as (ch & m' & ? & Hs & ? & lim & p & Hp & Hsub).
      exists ch, m'. split_and!; [done..|]. intros u Hu. eapply resident_served; [apply Hs|done|set_solver].
Qed.

(** C12: the pool is consistent in every state the server can reach (if copying weights into a
    slot does not raise): the two tables describe a one-to-one correspondence, every slot in use holds the weights of the adapter that is
    loaded under its id (zeros for the base model), loaded adapters have different names, and
    pinning counts exactly the pinned adapters and never takes the last slot. *)
Theorem lora_pool_consistent {P A : Type} `{PolicyLaws P} `{UidOrder} (copy_weights : A → res unit)
    (Hcopy : ∀ a, copy_weights a = Ok ()) (overlap : bool) (m : LoRAManager P A) (running : gset uid)
    (Hreach : lora_reachable copy_weights overlap (m, running)) :
  ∃ lim p, memory_pool m = Some (lim, p) ∧
    (∀ u b, uid_to_buffer_id p !! u = Some b ↔ buffer_id_to_uid p !! b = Some (Uid u)) ∧
    (∀ u b, uid_to_buffer_id p !! u = Some b → is_Some (weights_of (loras m) u) ∧ buffers p !! b = weights_of (loras m) u) ∧
    (∀ s t r r', lora_refs m !! s = Some r → lora_refs m !! t = Some r' → lora_name r = lora_name r' → s = t) ∧
    num_pinned_loras m = Z.of_nat (size (pins (lora_refs m))) ∧
    num_pinned_loras m ≤ Z.max 0 (Z.of_nat (pool_max_loras p) - 1).
Proof.
  apply reachable_serving in Hreach as [Hi _ (lim & p & Hp & Ho)]; [|done].
  destruct (mi_pool _ Hi _ _ Hp) as (Hpi & Hmax & _). exists lim, p. split_and!; [done|apply Hpi| |apply Hi|apply Hi|].
  - intros u b Hb. destruct (pi_values _ _ Hpi _ _ Hb) as (v & -> & ->). eauto.
  - rewrite Hmax. apply Hi.
Qed.

(** C20: the ranks of a tensor-parallel server place adapters alike.  Whatever order two
    processes iterate their sets in, the same batch on the same pool gives the same pool, or
    the same error: the same slots, the same evictions and the same order of recency. *)
Theorem lora_ranks_place_alike {P A : Type} `{EvictionPolicy P} (O1 O2 : UidOrder) (copy_weights : A → res unit)
    (cur : gset uid) (loras : gmap string A) (refs : gmap string LoRARef) (p : LoRAMemoryPool P A) :
  prepare_lora_batch (H0 := O1) copy_weights cur loras refs p =
  prepare_lora_batch (H0 := O2) copy_weights cur loras refs p.
Proof. unfold prepare_lora_batch. by rewrite (ordered_uids_agree O1 O2). Qed.

(** ** An example *)

Module LoraDemo.

#[local] Instance order : UidOrder := {| uid_list := elements; uid_list_elements s := reflexivity _ |}.

(** Weights are named by numbers; every copy succeeds. *)
Definition copy (a : nat) : res unit := Ok ().

Definition ref (s : string) (b : bool) : LoRARef := Ref s (Some s) (Some s) (Some b).
Definition config (r : LoRARef) : res LoRAConfig := Ok (new_LoRAConfig (Hf (inr ["q_proj"]) 8 None) None (Some 100)).
Definition weights (r : LoRARef) (c : LoRAConfig) : res nat := Ok (String.length (lora_id r)).

Definition loaded : res (LoRAManager LRUEvictionPolicy nat) :=
  init_lora_adapters 2 config weights [ref "a" true; ref "bb" false; ref "ccc" false].

Definition manager_of (m : res (LoRAManager LRUEvictionPolicy nat)) : LoRAManager LRUEvictionPolicy nat :=
  match m with Ok m => m | Err _ => new_manager 0 end.

Definition limits : PoolLimits := Limits 16 0 {["qkv_proj"]}.
Definition start : LoRAManager LRUEvictionPolicy nat :=
  manager_of (init_memory_pool copy limits (LRU [] 0 0) (manager_of loaded)).

Definition req (s : string) : LoraReq := LReq (Some s) 10 [] 0%Q.

(** A pass over requests for the pinned adapter and for two others admits the first two. *)
Definition queue : list (LoraReq * bool) := [(req "a", true); (req "bb", true); (req "ccc", true)].

Definition admitted : gset uid :=
  match lora_pass copy None queue ∅ None start with Ok (running, _, _) => running | Err _ => ∅ end.

Lemma start_reached : lora_started copy (start, ∅).
Proof. apply (started copy 2 config weights [ref "a" true; ref "bb" false; ref "ccc" false] limits (LRU [] 0 0)
  (manager_of loaded)); vm_compute; reflexivity. Qed.

Lemma queue_known : Forall (λ e, known (lora_refs start) (req_lora_id e.1)) queue.
Proof.
  repeat constructor; [exists (ref "a" true), true|exists (ref "bb" false), false|exists (ref "ccc" false), false];
    vm_compute; by split.
Qed.

Lemma admitted_reached : lora_reachable copy false (start, admitted).
Proof.
  exists (start, ∅). split; [apply start_reached|]. eapply rtc_once, (step_pass copy false (λ _, true) queue None None).
  - apply queue_known.
  - vm_compute. reflexivity.
Qed.
End LoraDemo.

Lemma lora_batches_always_served_witness :
  LoraDemo.admitted = {[Some "a"; Some "bb"]} ∧
  ∃ ch m', fetch_new_loras (H0 := LoraDemo.order) LoraDemo.copy {[Some "a"; Some "bb"]} ∅ LoraDemo.start = Ok (ch, m') ∧
    served m' (Some "a") ∧ served m' (Some "bb").
Proof.
  split; [by_evaluation|].
  destruct (proj2 (lora_batches_always_served (H1 := LoraDemo.order) LoraDemo.copy (λ _, eq_refl) false
    LoraDemo.start LoraDemo.admitted LoraDemo.admitted_reached) {[Some "a"; Some "bb"]}) as (ch & m' & Hf & _ & Hs);
    [by_evaluation|].
  exists ch, m'. split; [exact Hf|]. split; apply Hs; by_evaluation.
Defined.

Lemma lora_pool_consistent_witness :
  ∃ lim p, memory_pool LoraDemo.start = Some (lim, p) ∧ uid_to_buffer_id p !! None = Some 0%nat ∧
    buffers p !! 0%nat = Some Zeros ∧ num_pinned_loras LoraDemo.start = 1.
Proof.
  destruct (lora_pool_consistent (H1 := LoraDemo.order) LoraDemo.copy (λ _, eq_refl) false
    LoraDemo.start LoraDemo.admitted LoraDemo.admitted_reached) as (lim & p & Hp & _ & Hv & _ & Hn & _).
  exists lim, p. split; [exact Hp|]. vm_compute in Hp. injection Hp as <- <-.
  split; [reflexivity|]. split; [apply (Hv None 0%nat eq_refl)|reflexivity].
Defined.
