(* ===== verification/DpController.v ===== *)
(** * The data-parallel controller

    [srt/managers/data_parallel_controller.py]: the choice of the worker a request is sent
    to, the load counters behind it, and the bookkeeping of the active workers.  A socket is
    modelled by whether it is bound; what is sent is logged with its worker.  The snapshots
    of the schedulers' loads and the clock are arguments.  Launching the workers is left out.

    The theorems: round robin sends to the next available worker; the load counters spread
    requests evenly; and the schedulers that use them look at no worker's availability. *)

From S2P Require Import Prelude PyFloat.

Open Scope Z_scope.

Inductive LoadBalanceMethod := ROUND_ROBIN | FOLLOW_BOOTSTRAP_ROOM | TOTAL_REQUESTS | TOTAL_TOKENS.

(** [LoadBalanceMethod.from_str]; the argument is in upper case *)
Definition method_from_str (s : string) : res LoadBalanceMethod :=
  if decide (s = "ROUND_ROBIN") then Ok ROUND_ROBIN
  else if decide (s = "FOLLOW_BOOTSTRAP_ROOM") then Ok FOLLOW_BOOTSTRAP_ROOM
  else if decide (s = "TOTAL_REQUESTS") then Ok TOTAL_REQUESTS
  else if decide (s = "TOTAL_TOKENS") then Ok TOTAL_TOKENS
  else Err ValueError.

(** ** The load counters *)

Record DPBudget := Budget {
  total_requests : list Z;
  total_tokens : list Z;
  last_timestamp : list Q;
}.

Definition new_budget (dp_size : nat) : DPBudget :=
  Budget (replicate dp_size 0) (replicate dp_size 0) (replicate dp_size 0%Q).

(** A snapshot of a scheduler's load. *)
Record Load := mkLoad {
  load_dp_rank : nat;
  load_timestamp : Q;
  num_running_reqs : Z;
  num_waiting_reqs : Z;
  num_total_tokens : Z;
}.

Definition update_one (l : Load) (b : DPBudget) : res DPBudget :=
  match last_timestamp b !! load_dp_rank l with
  | None => Err IndexError
  | Some t =>
      if Qeq_bool (load_timestamp l) t then Ok b
      else Ok (Budget (<[load_dp_rank l := num_running_reqs l + num_waiting_reqs l]> (total_requests b))
                      (<[load_dp_rank l := num_total_tokens l]> (total_tokens b))
                      (<[load_dp_rank l := load_timestamp l]> (last_timestamp b)))
  end.

Definition update_budget (loads : list Load) (b : DPBudget) : res DPBudget := for_each update_one loads b.

(** [l.index(min(l))] *)
Definition index_of_min (l : list Z) : res nat :=
  match l with
  | [] => Err ValueError
  | x :: k =>
      match list_find (eq (foldl Z.min x k)) l with Some (i, _) => Ok i | None => Err ValueError end
  end.

(** [min(range(n), key=...)] with pairs as keys: the first of the smallest. *)
Definition pair_lt (a b : Z * Z) : bool := (a.1 <? b.1) || ((a.1 =? b.1) && (a.2 <? b.2)).

Fixpoint argmin_from (best : nat) (key : Z * Z) (i : nat) (l : list (Z * Z)) : nat :=
  match l with
  | [] => best
  | k :: l => if pair_lt k key then argmin_from i k (S i) l else argmin_from best key (S i) l
  end.

Definition argmin (l : list (Z * Z)) : res nat :=
  match l with [] => Err ValueError | k :: l => Ok (argmin_from 0 k 1 l) end.

Definition budget_dispatch (method : LoadBalanceMethod) (estimated_tokens : Z) (b : DPBudget) : res (option nat * DPBudget) :=
  let add t := Budget (alter (λ n, n + 1) t (total_requests b)) (alter (λ n, n + estimated_tokens) t (total_tokens b))
                      (last_timestamp b) in
  match method with
  | TOTAL_REQUESTS => t ← index_of_min (total_requests b); Ok (Some t, add t)
  | TOTAL_TOKENS => t ← argmin (zip (total_tokens b) (total_requests b)); Ok (Some t, add t)
  | _ => Ok (None, b)
  end.

(** ** The controller *)

Record DpReq := mkDpReq {
  rid : nat;
  routed_dp_rank : option Z;
  bootstrap_room : option Z;
  dp_input_ids : list Z;
}.

Record DataParallelController := Controller {
  max_dp_size : nat;
  dp_active : list bool;
  status : list bool;
  active_workers : list nat;
  (** whether the worker's socket is bound *)
  workers : list bool;
  round_robin_counter : nat;
  dp_budget : DPBudget;
  last_refresh_time : Q;
  (** what was sent, newest last: worker and request *)
  sent : list (nat * nat);
}.

(** The controller after launch. *)
Definition new_controller (launch_dp_size max_dp_size : nat) (workers : list bool) : DataParallelController :=
  let dp_active := replicate launch_dp_size true ++ replicate (max_dp_size - launch_dp_size) false in
  Controller max_dp_size dp_active dp_active (seq 0 launch_dp_size) workers 0 (new_budget launch_dp_size) 0 [].

Definition set_sent (l : list (nat * nat)) (c : DataParallelController) : DataParallelController :=
  Controller (max_dp_size c) (dp_active c) (status c) (active_workers c) (workers c) (round_robin_counter c)
    (dp_budget c) (last_refresh_time c) l.
Definition set_counter (n : nat) (c : DataParallelController) : DataParallelController :=
  Controller (max_dp_size c) (dp_active c) (status c) (active_workers c) (workers c) n
    (dp_budget c) (last_refresh_time c) (sent c).
Definition set_budget (b : DPBudget) (t : Q) (c : DataParallelController) : DataParallelController :=
  Controller (max_dp_size c) (dp_active c) (status c) (active_workers c) (workers c) (round_robin_counter c)
    b t (sent c).
Definition set_status (st : list bool) (act : list nat) (c : DataParallelController) : DataParallelController :=
  Controller (max_dp_size c) (dp_active c) st act (workers c) (round_robin_counter c)
    (dp_budget c) (last_refresh_time c) (sent c).

(** [sock_send(self.workers[w], req)] *)
Definition sock_send (w : nat) (req : DpReq) (c : DataParallelController) : res DataParallelController :=
  match workers c !! w with
  | None => Err IndexError
  | Some false => Err AttributeError
  | Some true => Ok (set_sent (sent c ++ [(w, rid req)]) c)
  end.

(** [maybe_external_dp_rank_routing]: [None] if the request names no rank. *)
Definition external_routing (req : DpReq) (c : DataParallelController) : option (res DataParallelController) :=
  match routed_dp_rank req with
  | None => None
  | Some rank =>
      Some (if bool_decide (rank < 0 ∨ zlen (workers c) ≤ rank ∨ Z.to_nat rank ∉ active_workers c ∨
                            workers c !! Z.to_nat rank = Some false)
            then Err ValueError else sock_send (Z.to_nat rank) req c)
  end.

(** The loop of [round_robin_scheduler], with the attempts that are left. *)
Fixpoint round_robin_loop (attempts : nat) (req : DpReq) (c : DataParallelController) : res DataParallelController :=
  match attempts with
  | O => Err RuntimeError
  | S attempts =>
      let n := length (active_workers c) in
      match active_workers c !! (round_robin_counter c mod n)%nat with
      | None => Err IndexError
      | Some slot =>
          let c := set_counter ((round_robin_counter c + 1) mod n) c in
          match status c !! slot with
          | None => Err IndexError
          | Some true => sock_send slot req c
          | Some false => round_robin_loop attempts req c
          end
      end
  end.

Definition round_robin_scheduler (req : DpReq) (c : DataParallelController) : res DataParallelController :=
  match external_routing req c with
  | Some r => r
  | None => if decide (active_workers c = []) then Err RuntimeError
            else round_robin_loop (length (active_workers c)) req c
  end.

Definition follow_bootstrap_room_scheduler (req : DpReq) (c : DataParallelController) : res DataParallelController :=
  match external_routing req c with
  | Some r => r
  | None =>
      match bootstrap_room req with
      | None => Err AssertionError
      | Some room => sock_send (Z.to_nat (room mod zlen (workers c))) req c
      end
  end.

(** [dispatch] and the send of the two schedulers that balance the load. *)
Definition send_by_budget (method : LoadBalanceMethod) (tokens : Z) (req : DpReq) (c : DataParallelController) : res DataParallelController :=
  '(t, b) ← budget_dispatch method tokens (dp_budget c);
  match t with
  | None => Err TypeError
  | Some t => sock_send t req (set_budget b (last_refresh_time c) c)
  end.

Definition total_requests_scheduler (req : DpReq) (c : DataParallelController) : res DataParallelController :=
  match external_routing req c with
  | Some r => r
  | None => send_by_budget TOTAL_REQUESTS 0 req c
  end.

Definition total_tokens_scheduler (req : DpReq) (c : DataParallelController) : res DataParallelController :=
  match external_routing req c with
  | Some r => r
  | None => send_by_budget TOTAL_TOKENS (zlen (dp_input_ids req)) req c
  end.

Definition dispatching (method : LoadBalanceMethod) : DpReq → DataParallelController → res DataParallelController :=
  match method with
  | ROUND_ROBIN => round_robin_scheduler
  | FOLLOW_BOOTSTRAP_ROOM => follow_bootstrap_room_scheduler
  | TOTAL_REQUESTS => total_requests_scheduler
  | TOTAL_TOKENS => total_tokens_scheduler
  end.

(** [refresh_load_budget], at most once in 20 ms *)
Definition refresh_load_budget (now : Q) (loads : list Load) (c : DataParallelController) : res DataParallelController :=
  if Qltb (now - last_refresh_time c) (2 # 100) then Ok c
  else b ← update_budget loads (dp_budget c); Ok (set_budget b now c).

Definition refresh_on_dispatch (method : LoadBalanceMethod) : bool :=
  match method with TOTAL_REQUESTS | TOTAL_TOKENS => true | _ => false end.

(** [dispatching_with_trace], without the time stamps it puts into the request *)
Definition dispatch_request (method : LoadBalanceMethod) (now : Q) (loads : list Load) (req : DpReq)
    (c : DataParallelController) : res DataParallelController :=
  c ← (if refresh_on_dispatch method then refresh_load_budget now loads c else Ok c);
  dispatching method req c.

(** [dispatch_batch_generate] and [dispatch_batch_embedding]: one refresh for the batch *)
Definition dispatch_batch (method : LoadBalanceMethod) (now : Q) (loads : list Load) (reqs : list DpReq)
    (c : DataParallelController) : res DataParallelController :=
  c ← (if refresh_on_dispatch method then refresh_load_budget now loads c else Ok c);
  for_each (dispatching method) reqs c.

(** ** Active workers *)

Definition refresh_active_workers (c : DataParallelController) : DataParallelController :=
  set_status (status c)
    (filter (λ i, (dp_active c !! i, status c !! i) = (Some true, Some true)) (seq 0 (length (dp_active c)))) c.

(** [update_active_ranks]; [elastic] tells whether there is an elastic backend *)
Definition update_active_ranks (elastic : bool) (ranks : list bool) (c : DataParallelController) : DataParallelController :=
  if bool_decide (length ranks ≠ max_dp_size c) then c
  else if elastic then
    refresh_active_workers (set_status (zip_with andb (dp_active c) ranks) (active_workers c) c)
  else set_status ranks (active_workers c) c.

Definition activate_slot (slot : nat) (c : DataParallelController) : res DataParallelController :=
  match dp_active c !! slot with
  | None => Err IndexError
  | Some true => Ok c
  | Some false =>
      match workers c !! slot with
      | Some true =>
          Ok (Controller (max_dp_size c) (<[slot := true]> (dp_active c)) (<[slot := true]> (status c))
                (active_workers c) (workers c) (round_robin_counter c) (dp_budget c) (last_refresh_time c) (sent c))
      | _ => Err AssertionError
      end
  end.

Definition add_elastic_workers (slot_offset slot_count : nat) (c : DataParallelController) : res DataParallelController :=
  if (max_dp_size c <? slot_offset + slot_count)%nat then Err ValueError
  else c ← for_each activate_slot (seq slot_offset slot_count) c; Ok (refresh_active_workers c).

(** The workers a control message goes to. *)
Definition send_to_all_workers (c : DataParallelController) : list nat :=
  filter (λ i, (workers c !! i, status c !! i) = (Some true, Some true)) (seq 0 (length (workers c))).

Definition send_control_message (control_message_step : Z) (c : DataParallelController) : list nat :=
  filter (λ i, workers c !! i = Some true) (stride_from (active_workers c) 0 control_message_step).

(** ** The least loaded worker *)

Lemma foldl_min_le x l y : y ∈ x :: l → foldl Z.min x l ≤ y.
Proof.
  revert x y. induction l as [|z l IH]; intros x y; cbn.
  - intros ->%list_elem_of_singleton. lia.
  - rewrite !elem_of_cons. intros [->|[->|Hy]].
    + etrans; [apply (IH _ (Z.min x z)); left|lia].
    + etrans; [apply (IH _ (Z.min x z)); left|lia].
    + apply IH. by right.
Qed.

Lemma foldl_min_elem x l : foldl Z.min x l ∈ x :: l.
Proof.
  revert x. induction l as [|z l IH]; intros x; cbn; [by left|].
  specialize (IH (Z.min x z)). apply elem_of_cons in IH as [->|IH]; [|by do 2 right].
  destruct (Z.min_spec x z) as [[_ ->]|[_ ->]]; [left|right; left].
Qed.

Definition least (l : list Z) (t : nat) : Prop := ∃ x, l !! t = Some x ∧ ∀ j y, l !! j = Some y → x ≤ y.

Lemma index_of_min_spec l : l ≠ [] → ∃ t, index_of_min l = Ok t ∧ least l t.
Proof.
  destruct l as [|x k]; [done|]. intros _. unfold index_of_min.
  destruct (list_find _ (x :: k)) as [[i z]|] eqn:Hf.
  - apply list_find_Some in Hf as (Hi & <- & _). exists i. split; [done|]. exists (foldl Z.min x k). split; [done|].
    intros j y Hj. apply foldl_min_le. by eapply list_elem_of_lookup_2.
  - exfalso. rewrite list_find_None, Forall_forall in Hf. by apply (Hf _ (foldl_min_elem x k)).
Qed.

(** ** Even spreading *)

Definition sent_to (w : nat) (l : list (nat * nat)) : nat := length (filter (λ e, e.1 = w) l).

Lemma sent_to_snoc w l e : sent_to w (l ++ [e]) = (sent_to w l + if decide (e.1 = w) then 1 else 0)%nat.
Proof. unfold sent_to. rewrite filter_app, length_app, filter_cons, filter_nil. by case_decide. Qed.

Lemma zsum_alter l t : (t < length l)%nat → zsum (alter (λ n, n + 1) t l) = zsum l + 1.
Proof.
  revert t. induction l as [|x l IH]; intros [|t] Ht; cbn in *; [lia|lia|lia|].
  change (foldr Z.add 0) with zsum in *. rewrite IH; lia.
Qed.

Lemma zsum_band l m :
  Forall (λ x, m ≤ x ≤ m + 1) l →
  zlen l * m ≤ zsum l ≤ zlen l * m + zlen l ∧ (m ∈ l → zsum l ≤ zlen l * m + zlen l - 1).
Proof.
  induction 1 as [|x l Hx Hl [IH IHm]]; [split; [done|by intros ?%elem_of_nil]|].
  rewrite zlen_cons. cbn [zsum foldr]. change (foldr Z.add 0 l) with (zsum l). split; [nia|].
  intros [->|Hin]%elem_of_cons; [nia|]. specialize (IHm Hin). nia.
Qed.

(** Counters that differ by at most one are the quotient of their sum, or one more. *)
Lemma level_quotient l v n i x :
  (∀ i j x y, l !! i = Some x → l !! j = Some y → x ≤ y + 1) →
  zsum l = zlen l * v + n → l !! i = Some x → v + n / zlen l ≤ x ≤ v + n / zlen l + 1.
Proof.
  intros Hspread Hsum Hi. destruct (index_of_min_spec l) as (t & _ & m & Hm & Hmin); [by destruct l|].
  assert (Forall (λ x, m ≤ x ≤ m + 1) l) as Hf.
  { apply Forall_lookup. intros j y Hj. split; [by eapply Hmin|by eapply Hspread]. }
  destruct (zsum_band _ _ Hf) as [Hb Hb']. specialize (Hb' (list_elem_of_lookup_2 _ _ _ Hm)).
  assert (n / zlen l = m - v) as ->; [|split; [specialize (Hmin _ _ Hi); lia|specialize (Hspread _ _ _ _ Hi Hm); lia]].
  symmetry. apply (Z.div_unique n (zlen l) (m - v) (n - zlen l * (m - v))); [left; nia|lia].
Qed.

(** One request by the load counters. *)
Lemma total_requests_step req c :
  routed_dp_rank req = None → total_requests (dp_budget c) ≠ [] →
  (∀ w, (w < length (total_requests (dp_budget c)))%nat → workers c !! w = Some true) →
  ∃ t c', total_requests_scheduler req c = Ok c' ∧ least (total_requests (dp_budget c)) t ∧
    total_requests (dp_budget c') = alter (λ n, n + 1) t (total_requests (dp_budget c)) ∧
    workers c' = workers c ∧ sent c' = sent c ++ [(t, rid req)].
Proof.
  intros Hr Hne Hw. unfold total_requests_scheduler, external_routing, send_by_budget, budget_dispatch. rewrite Hr.
  destruct (index_of_min_spec _ Hne) as (t & -> & Hl). cbn [mbind res_bind].
  pose proof Hl as (x & Hx & _). unfold sock_send. cbn [workers set_budget].
  rewrite Hw by (by apply lookup_lt_Some in Hx). by eexists t, _.
Qed.

(** After the requests [new] from level counters: the counters count what each worker got
    and differ by at most one. *)
Record spread (k : nat) (v : Z) (new : list (nat * nat)) (tr : list Z) : Prop := {
  sp_length : length tr = k;
  sp_sum : zsum tr = Z.of_nat k * v + zlen new;
  sp_level i j x y : tr !! i = Some x → tr !! j = Some y → x ≤ y + 1;
  sp_count w x : tr !! w = Some x → x = v + Z.of_nat (sent_to w new);
}.

Lemma spread_start k v : spread k v [] (replicate k v).
Proof.
  split.
  - apply length_replicate.
  - rewrite zlen_nil, Z.add_0_r. induction k as [|n IH]; [done|]. cbn [replicate zsum foldr].
    change (foldr Z.add 0) with zsum. rewrite IH. lia.
  - intros i j x y [-> _]%lookup_replicate [-> _]%lookup_replicate. lia.
  - intros w x [-> _]%lookup_replicate. cbn. lia.
Qed.

Lemma spread_step k v new tr t r :
  spread k v new tr → least tr t → spread k v (new ++ [(t, r)]) (alter (λ n, n + 1) t tr).
Proof.
  intros [Hk Hsum Hlevel Hcnt] (x & Hx & Hmin). split.
  - by rewrite length_alter.
  - rewrite zsum_alter by (by apply lookup_lt_Some in Hx). rewrite zlen_app, zlen_cons, zlen_nil. lia.
  - intros i j y z. destruct (decide (i = t)) as [->|], (decide (j = t)) as [->|];
      rewrite ?list_lookup_alter_eq, ?list_lookup_alter_ne, ?Hx by done; cbn.
    + intros [= <-] [= <-]. lia.
    + intros [= <-] Hz. specialize (Hmin _ _ Hz). lia.
    + intros Hy [= <-]. specialize (Hlevel _ _ _ _ Hy Hx). lia.
    + by apply Hlevel.
  - intros w y. rewrite sent_to_snoc. cbn [fst]. destruct (decide (w = t)) as [->|].
    + rewrite list_lookup_alter_eq, Hx, decide_True by done. cbn. intros [= <-]. rewrite (Hcnt _ _ Hx). lia.
    + rewrite list_lookup_alter_ne, decide_False by done. intros Hy. rewrite (Hcnt _ _ Hy). lia.
Qed.

(** C23: the load counters spread requests evenly.  From level counters, [n] requests that
    are not routed from outside are all sent, and each of the [k] workers gets [n / k] of
    them, rounded down or up. *)
Theorem requests_spread_evenly (c : DataParallelController) (reqs : list DpReq) (k : nat) (v : Z)
    (Hk : (0 < k)%nat) (Hlevel : total_requests (dp_budget c) = replicate k v)
    (Hbound : ∀ w, (w < k)%nat → workers c !! w = Some true)
    (Hreqs : Forall (λ r, routed_dp_rank r = None) reqs) :
  ∃ c' new, for_each total_requests_scheduler reqs c = Ok c' ∧ sent c' = sent c ++ new ∧
    zlen new = zlen reqs ∧
    ∀ w, (w < k)%nat → zlen reqs / Z.of_nat k ≤ Z.of_nat (sent_to w new) ≤ zlen reqs / Z.of_nat k + 1.
Proof.
  set (I := λ (l : list DpReq) c', ∃ new, sent c' = sent c ++ new ∧ workers c' = workers c ∧
    zlen new + zlen l = zlen reqs ∧ Forall (λ r, routed_dp_rank r = None) l ∧
    spread k v new (total_requests (dp_budget c'))).
  destruct (for_each_inv I total_requests_scheduler reqs c) as (c' & Hok & new & Hs & _ & Hlen & _ & Hsp).
  - exists []. rewrite Hlevel. split_and!; [by rewrite app_nil_r|done|by rewrite zlen_nil|done|apply spread_start].
  - intros req l c1 (new & Hs & Hw & Hlen & [Hr Hl]%Forall_cons & Hsp).
    destruct (total_requests_step req c1) as (t & c2 & Hok & Hleast & Htr & Hw2 & Hs2); [done| | |].
    { intros Hn. pose proof (sp_length _ _ _ _ Hsp) as Hl1. rewrite Hn in Hl1. cbn in Hl1. lia. }
    { by rewrite (sp_length _ _ _ _ Hsp), Hw. }
    exists c2. split; [done|]. exists (new ++ [(t, rid req)]). rewrite zlen_cons in Hlen.
    split_and!; [by rewrite Hs2, Hs, app_assoc|congruence| |done|].
    + rewrite zlen_app, zlen_cons, zlen_nil. lia.
    + rewrite Htr. by apply spread_step.
  - rewrite zlen_nil, Z.add_0_r in Hlen. exists c', new. split_and!; [done..|]. intros w Hwk.
    destruct Hsp as [Hk' Hsum Hspread Hcnt].
    destruct (lookup_lt_is_Some_2 (total_requests (dp_budget c')) w) as [x Hx]; [lia|].
    assert (zlen (total_requests (dp_budget c')) = Z.of_nat k) as Hz by (unfold zlen; lia).
    pose proof (level_quotient _ v (zlen new) w x Hspread) as Hq. rewrite Hz, Hlen in Hq.
    specialize (Hq ltac:(lia) Hx). rewrite (Hcnt _ _ Hx) in Hq. lia.
Qed.

(** ** Round robin *)

(** The worker that is [d] places after the counter. *)
Definition in_turn (c : DataParallelController) (d : nat) : option nat :=
  active_workers c !! ((round_robin_counter c + d) mod length (active_workers c))%nat.

Definition available (c : DataParallelController) (w : nat) : Prop := status c !! w = Some true ∧ workers c !! w = Some true.

Lemma in_turn_next c n d :
  n = length (active_workers c) →
  in_turn (set_counter ((round_robin_counter c + 1) mod n) c) d = in_turn c (S d).
Proof.
  intros ->. unfold in_turn. cbn. rewrite Nat.Div0.add_mod_idemp_l. do 2 f_equal. lia.
Qed.

Lemma round_robin_loop_spec n req c :
  active_workers c ≠ [] →
  (∀ d w, (d < n)%nat → in_turn c d = Some w → status c !! w = Some false ∨ available c w) →
  (∃ d w, (d < n)%nat ∧ in_turn c d = Some w ∧ available c w ∧
    (∀ e u, (e < d)%nat → in_turn c e = Some u → ¬ available c u) ∧
    round_robin_loop n req c = Ok (set_sent (sent c ++ [(w, rid req)])
      (set_counter ((round_robin_counter c + S d) mod length (active_workers c)) c))) ∨
  ((∀ d w, (d < n)%nat → in_turn c d = Some w → ¬ available c w) ∧ round_robin_loop n req c = Err RuntimeError).
Proof.
  revert c. induction n as [|n IH]; intros c Hne Hst; [right; split; [lia|done]|].
  cbn [round_robin_loop]. set (L := length (active_workers c)) in *.
  assert (L ≠ 0)%nat as HL by (unfold L; by destruct (active_workers c)).
  destruct (in_turn c 0) as [w|] eqn:Hw.
  2: { unfold in_turn in Hw. apply lookup_ge_None in Hw. fold L in Hw. pose proof (Nat.mod_upper_bound (round_robin_counter c + 0) L HL). lia. }
  assert (active_workers c !! (round_robin_counter c mod L)%nat = Some w) as ->.
  { unfold in_turn in Hw. by rewrite Nat.add_0_r in Hw. }
  cbn [status set_counter]. destruct (Hst 0%nat w ltac:(lia) Hw) as [Hf|Hav].
  - rewrite Hf. set (c1 := set_counter ((round_robin_counter c + 1) mod L) c).
    assert (∀ d, in_turn c1 d = in_turn c (S d)) as Hnext by (intros d; by apply in_turn_next).
    destruct (IH c1) as [(d & u & Hd & Hu & Hav & Hfirst & ->)|[Hnone ->]]; [done| | |].
    { intros d u Hd. rewrite Hnext. intros Hu. apply (Hst (S d)); [lia|done]. }
    + left. exists (S d), u. split_and!; [lia|by rewrite <- Hnext|done| |].
      * intros [|e] x He Hx; [|apply (Hfirst e); [lia|by rewrite Hnext]]. intros [Hs _]. congruence.
      * cbn. fold L. f_equal. f_equal. unfold c1, set_counter. cbn. f_equal.
        rewrite Nat.Div0.add_mod_idemp_l. f_equal. lia.
    + right. split; [|done]. intros [|d] x Hd Hx; [intros [Hs _]; congruence|].
      apply (Hnone d); [lia|by rewrite Hnext].
  - left. destruct Hav as [Hs Hwk]. exists 0%nat, w. rewrite Hs. unfold sock_send. cbn [workers set_counter]. rewrite Hwk.
    split_and!; [lia|done|done|lia|]. by rewrite Nat.add_1_r.
Qed.

(** C24: round robin sends to the next available worker.  For a request that is not routed
    from outside, on active workers whose sockets are bound: it is sent to the first worker
    from the counter on that is up, and the counter moves just past it; if none is up the
    request is refused with a [RuntimeError]. *)
Theorem round_robin_next_available (c : DataParallelController) (req : DpReq)
    (Hreq : routed_dp_rank req = None) (Hne : active_workers c ≠ [])
    (Hw : Forall (λ w, workers c !! w = Some true ∧ is_Some (status c !! w)) (active_workers c)) :
  (∃ d w, (d < length (active_workers c))%nat ∧ in_turn c d = Some w ∧ available c w ∧
    (∀ e u, (e < d)%nat → in_turn c e = Some u → ¬ available c u) ∧
    round_robin_scheduler req c = Ok (set_sent (sent c ++ [(w, rid req)])
      (set_counter ((round_robin_counter c + S d) mod length (active_workers c)) c))) ∨
  ((∀ w, w ∈ active_workers c → ¬ available c w) ∧ round_robin_scheduler req c = Err RuntimeError).
Proof.
  unfold round_robin_scheduler, external_routing. rewrite Hreq, decide_False by done. rewrite Forall_forall in Hw.
  destruct (round_robin_loop_spec (length (active_workers c)) req c Hne) as [Hl|[Hnone Herr]]; [|by left|].
  - intros d w _ Hin. apply list_elem_of_lookup_2 in Hin. destruct (Hw _ Hin) as [Hb [[] Hs]]; [right|left]; done.
  - right. split; [|done]. intros w Hin. apply list_elem_of_lookup in Hin as [i Hi].
    set (L := length (active_workers c)) in *. assert (i < L)%nat as HiL by (by apply lookup_lt_Some in Hi).
    set (r := (round_robin_counter c mod L)%nat). assert (r < L)%nat as Hr by (apply Nat.mod_upper_bound; lia).
    apply (Hnone ((i + (L - r)) mod L)%nat); [apply Nat.mod_upper_bound; lia|].
    unfold in_turn. fold L. rewrite Nat.Div0.add_mod_idemp_r.
    rewrite <- Nat.Div0.add_mod_idemp_l. fold r. replace (r + (i + (L - r)))%nat with (i + 1 * L)%nat by lia.
    rewrite Nat.Div0.mod_add, Nat.mod_small by lia. done.
Qed.

(** ** The load counters and availability *)

(** C38: balancing by load ignores availability.  The worker a request is sent to is the
    least loaded of those the server was launched with: the same one whichever workers are
    marked down and whichever workers were added since, so a worker that is down and reports
    nothing keeps its low count and is chosen. *)
Theorem load_balancing_ignores_availability (c : DataParallelController) (req : DpReq)
    (Hreq : routed_dp_rank req = None) (Hne : total_requests (dp_budget c) ≠ [])
    (Hw : ∀ w, (w < length (total_requests (dp_budget c)))%nat → workers c !! w = Some true) :
  ∃ t, (t < length (total_requests (dp_budget c)))%nat ∧ least (total_requests (dp_budget c)) t ∧
    ∀ st act, ∃ c', total_requests_scheduler req (set_status st act c) = Ok c' ∧ sent c' = sent c ++ [(t, rid req)].
Proof.
  destruct (index_of_min_spec _ Hne) as (t & Ht & Hl). pose proof Hl as (x & Hx & _). apply lookup_lt_Some in Hx.
  exists t. split_and!; [done|done|]. intros st act.
  unfold total_requests_scheduler, external_routing, send_by_budget, budget_dispatch. rewrite Hreq.
  cbn [dp_budget set_status]. rewrite Ht. cbn [mbind res_bind]. unfold sock_send. cbn. rewrite Hw by done. by eexists.
Qed.

(** ** Examples *)

Module DpDemo.
Definition start : DataParallelController := new_controller 3 4 [true; true; true; true].
Definition req (n : nat) : DpReq := mkDpReq n None None [1; 2].
Definition one_down : DataParallelController := update_active_ranks false [false; true; true; true] start.

(** The worker that is down gets the request, and the worker that was added gets none. *)
Lemma down_worker_chosen :
  (sent <$> match total_requests_scheduler (req 7) one_down with Ok c => Some c | Err _ => None end) = Some [(0, 7)%nat].
Proof. vm_compute. reflexivity. Qed.
End DpDemo.

Lemma requests_spread_evenly_witness :
  ∃ c' new, for_each total_requests_scheduler (DpDemo.req <$> [1; 2; 3; 4; 5]%nat) DpDemo.start = Ok c' ∧
    sent c' = [] ++ new ∧ zlen new = 5 ∧ ∀ w, (w < 3)%nat → 1 ≤ Z.of_nat (sent_to w new) ≤ 2.
Proof.
  destruct (requests_spread_evenly DpDemo.start (DpDemo.req <$> [1; 2; 3; 4; 5]%nat) 3 0)
    as (c' & new & Hok & Hs & Hl & Hw); [lia|reflexivity| |repeat constructor|].
  - intros w Hw. destruct w as [|[|[|w]]]; [reflexivity..|lia].
  - exists c', new. split; [exact Hok|]. split; [exact Hs|]. split; [exact Hl|]. exact Hw.
Defined.

Lemma round_robin_next_available_witness :
  ∃ d w, in_turn DpDemo.one_down d = Some w ∧ available DpDemo.one_down w ∧ w = 1%nat.
Proof.
  destruct (round_robin_next_available DpDemo.one_down (DpDemo.req 7)) as [(d & w & Hd & Hi & Ha & _)|[_ He]];
    [reflexivity|discriminate|repeat constructor; vm_compute; eauto| |vm_compute in He; discriminate].
  exists 1%nat, 1%nat. split; [reflexivity|]. split; [split; reflexivity|reflexivity].
Defined.

Lemma load_balancing_ignores_availability_witness :
  ∃ t, (t < 3)%nat ∧ ∀ st act, ∃ c', total_requests_scheduler (DpDemo.req 7) (set_status st act DpDemo.one_down) = Ok c' ∧
    sent c' = [(t, 7%nat)].
Proof.
  destruct (load_balancing_ignores_availability DpDemo.one_down (DpDemo.req 7)) as (t & Ht & _ & Hs);
    [reflexivity|discriminate|intros w Hw; destruct w as [|[|[|w]]]; [reflexivity..|vm_compute in Hw; lia]|].
  exists t. split; [exact Ht|exact Hs].
Defined.
